(* ===== verification/_CoqProject ===== *)
-Q . S2P
Prelude.v
Float64.v
Types.v
Utils.v
Text.v
Cache.v
Context.v
BinPack.v
BlockIO.v
NetworkIO.v
RDT.v
RDTQuantity.v
Handle.v
Plugin.v
EventHandler.v
Aggregator.v
Agent.v
AgentLimit.v
AgentDisk.v
AgentNet.v
AgentRdt.v
RdtConfig.v
RdtEngine.v
Persist.v
RdtService.v
DiskService.v
AgentSource.v
AgentSend.v
AgentOob.v
NetTc.v
NetPlugin.v
NetService.v
CsiDriver.v
AgentMeasure.v
Profiler.v
AgentRun.v
Fake.v
NodeFake.v
ServiceFake.v
HandleFacts.v
UtilsFacts.v
ContextFacts.v
CacheFacts.v
BinPackFacts.v
BlockIOFacts.v
BlockRequestFacts.v
BlockStatusFacts.v
NetworkIOFacts.v
RDTQuantityFacts.v
EventFacts.v
AggregatorFacts.v
DeliveryFacts.v
AgentFacts.v
LimitFacts.v
DiskSafety.v
RegisterFacts.v
NetFacts.v
NetSafety.v
RdtAgentFacts.v
NodeFacts.v
RdtConfigFacts.v
RdtServiceFacts.v
RdtEngineFacts.v
DiskServiceFacts.v
ServiceFacts.v
NetTcFacts.v
NetServiceFacts.v
NetStoreFacts.v
NetServiceExamples.v
MeasureFacts.v
RunFacts.v
RunExamples.v
SourceFacts.v
OobFacts.v
SendFacts.v
SourceExamples.v
PluginFacts.v
CsiFacts.v
CsiClaims.v
ProfilerFacts.v
