(* ===== verification/Prelude.v ===== *)
(** * Verification of the cloud resource scheduling and isolation project

    The program places pods on nodes by the I/O they ask for (disk and network
    bandwidth, last-level cache, memory bandwidth) and enforces what they were
    given.  Its parts, and how they interact:

    - the scheduler plugin (src/pkg/scheduler) keeps, per node, the pools that
      are still free, admits a pod when its annotations fit (Filter), charges
      the pools (Reserve), records the pod in the node's NodeIOStatus object
      and writes what it allocated to an annotation of the pod;
    - the aggregator (src/pkg/aggregator) watches these objects, sends the
      pods of a node, with their requests, to the agent of the node, and writes
      the agents' reports back for the scheduler;
    - the node agent (src/pkg/agent) takes the lists apart into events, and its
      engines, one per resource, register pods with the I/O service, compute
      limits for them and report what is left;
    - the I/O service (src/pkg/service) keeps the registered pods in a store,
      writes limits to cgroups and resctrl, measures, and reports to the agent;
    - the CSI driver (src/pkg/agent/csi) creates the volumes of pods on the
      disks that the scheduler chose, and mounts them.

    This development models the five of them, the agent with its four engines,
    the service with its disk, network and RDT engines, and proves that they do
    what they are for; where they do not, it proves that instead.

    ** Files and the code they model

    Prelude    Go's run time as an outcome monad (a value, or the reason for
               which the goroutine stops), loops, maps in unspecified order,
               sorting; tactics and the hint database [ioi].
    Float64    Go's float64: IEEE 754 binary64 on Coq's [spec_float], with its
               operations, the conversions to and from int64, and the rounding
               and order lemmas that the pools need.
    Types      data of pkg/utils.go, api/ioi/v1 and the protocol messages; the
               classes that stand for external libraries.
    Utils      pkg/utils.go and pkg/scheduler/util/common.go.
    Cache, Context, Handle, EventHandler
               pkg/scheduler/resource: extended resources, the shared context
               with the reserved pods and their publication, the interface of
               a resource handle, the informer callbacks.
    BinPack, BlockIO
               pkg/scheduler/blockio: packing of volumes, the disk plugin.
    NetworkIO, RDT, RDTQuantity
               the network, RDT and RDT-quantity plugins.
    Plugin     plugin.go and score.go: New, Filter, Score, Reserve, Unreserve.
    Aggregator server.go and client.go of the aggregator.
    Agent      types.go, event.go, dataengine.go, aggregator.go and the event
               loop of agent.go.
    AgentLimit common/workload.go and the limits of common/disk.go and
               common/network.go.
    AgentDisk  disk/engine.go, disk/state.go, common/updatecr.go.
    AgentNet   net/engine.go, the caches of net/metric.go and the messages of
               common/network.go.
    AgentRdt   rdt/engine.go, rdtQuantity/engine.go, common/rdt.go and
               common/rdtQuantity.go.
    AgentMeasure
               the stream of measurements: common/disk.go and common/client.go.
    AgentSource
               engines/admin.go and policy.go: the administrator's and the
               policy config map; engines/nri.go: the runtime's callbacks.
    AgentSend  the goroutine of engines/admin.go that sends requests to the
               I/O service and retries them.
    AgentOob   oob/oob.go: pods recognised by their cgroup directories.
    AgentRun   agent.go: the registration of handles, the engines' switches,
               and the whole agent as a machine over the shared variables.
    Text       strings, strconv and fmt as the service uses them, 64-bit
               unsigned arithmetic.
    Persist    service/common: boltdb.go and persist.go (tables of a bbolt
               store), log levels; the dispatch of service/service.go.
    DiskService
               service/disk: server.go, persist.go and bandwidth.go, on an
               interface to files and commands.
    RdtConfig  service/rdt/config.go and info.go: cache masks and schemata.
    RdtEngine  service/rdt/rdtengine: the engine, its event loop and
               goroutines, policies, monitors and executors.
    RdtService service/rdt: server.go, metrics.go and persist.go, and the
               FixedClass policy.
    NetTc      service/net: tc.go and utils.go, the classes, filters and actions
               of traffic control, on an interface to netlink.
    NetPlugin  service/net: the network devices of a node, and the generic and
               the adq plugin that turn groups, pods and limits into calls of tc.
    NetService service/net: server.go and persist.go, the requests of the agent
               and the tables of the store.
    Profiler   agent/common/profile.go: runs of fio on the disks, the file of
               their results, and what the disk engine reads from it.
    CsiDriver  agent/csi: hostpath/, state/ and endpoint/, the volumes of a node
               with their state file, on an interface to files and mounts.
    Fake, NodeFake, ServiceFake
               concrete instances of the external libraries, for witnesses.

    The files in ...Facts, ...Safety and ...Examples hold the theorems.
    Definitions keep the names of the Go functions; a method that several
    types have is qualified by its file.  A Go struct is a record, a map a
    [gmap], a pointer an [option], state is passed explicitly, a function that
    can panic returns an [outcome], and a goroutine's loop is one function for
    each of its rounds.

    ** What the theorems show

    - Pools (BlockIOFacts, NetworkIOFacts, RDTQuantityFacts, BlockStatusFacts,
      BlockRequestFacts): an admitted pod never overcommits a disk, a NIC or
      the best-effort class, float64 rounding included; charging subtracts
      exactly the rates requested, and releasing undoes it where float64 is
      exact; the pools rebuilt from the reserved pods are those kept
      incrementally; requests derived from annotations have the shape that the
      other operations dereference; a report counts only at the current
      generation.
    - Packing (BinPackFacts): Pack is first fit, against a specification of
      what a disk takes that is written without the code's functions, and fills
      no disk beyond its space and bandwidth.
    - Publication and callbacks (ContextFacts, EventFacts, HandleFacts): from
      the start of the scheduler, whenever nothing is pending the API server shows exactly the reserved pods; no
      callback waits for a lock its goroutine holds, for any handles that meet
      the interface [LockNeutral], which every plugin is shown to meet.
    - The plugin (PluginFacts): Filter asks every handle about a pod outside
      the white list, scores are averages
      in range, New builds what the interfaces require.
    - Aggregator and delivery (AggregatorFacts, DeliveryFacts): the aggregator
      does not dereference an unregistered node under any coherent sequence of
      events; a report replaces exactly the registered pools; the requests the
      scheduler annotates are the events the agent publishes.
    - Agent (AgentFacts, LimitFacts, DiskSafety, RegisterFacts, NodeFacts): no
      event is lost and SetFlag nests at most three deep, for any engine that
      meets the interface [Handlers]; the disk engine meets it and does not
      panic on well-formed events while the API server serves device states; limits follow the workload
      class; registration carries out what runtime and scheduler agree on,
      once; the lists of the aggregator are well-formed events.
    - Other engines of the agent (NetFacts, NetSafety, RunExamples,
      RdtAgentFacts): the network engine does not panic while the service
      answers, and the RDT engines never do; what containers are registered
      with, against what the scheduler charged.
    - Measurements (MeasureFacts, RunExamples): what is sent to the disk
      engine is accepted by it and stays close to the average of the last
      messages; how far that is from the use of a pod.
    - The agent as a whole (RunFacts, RunExamples): with any of its engines, in
      any order, on shared variables, and under every interleaving of its
      sources, no step panics while API server and service answer; each channel has its handles in the order of
      their registration.
    - Sources (SourceFacts, OobFacts, SourceExamples): for which texts reading
      a config map returns; what is read from a map in the format of the sample
      file, the network minima crosswise; a pod's directory is mapped to the pod it was made
      for, and the watcher announces it once.
    - Messages to the service (SendFacts, SourceExamples): stated on the calls
      that the service gets, no message of an engine is lost and none is made
      up, and a service that accepts them is called once with each; in which
      ways limits are sent twice or out of order.
    - Disk engine of the service (DiskServiceFacts, ServiceFacts): the tables
      in memory and in the store implement one abstract table of apps and
      limits under every sequence of requests in which the store works, up to
      a message with an empty list of limits, which panics; a
      restart restores it; the limits of a request are the text that the
      cgroup file receives.
    - Event engine of rdt (RdtEngineFacts): its goroutines
      come to rest, by a measure that every step decreases; the mutex is held
      by one goroutine at most, and by a query of a control schema for ever;
      directories of groups only are made and removed, and removed only when
      that was asked for.
    - Network engine of the service (NetTcFacts, NetServiceFacts,
      NetStoreFacts, NetServiceExamples): the search for a pod's interface on
      the host ends exactly when the interface appears or the pod is gone; a
      limit that the agent sends leaves on the pod's two links exactly the
      token bucket filters of its rates; the store holds the apps that were
      acknowledged and not removed since, and a restart finds them; which
      requests about a lost pod, or a whole class, panic the service.
    - CSI driver (CsiFacts, CsiClaims): every call is a step of the life of a
      volume, also when a write fails; while files can be written and the API
      server accepts updates, the state file and the list of devices in use are
      those of the volumes in every reachable state, restarts included; a volume is created
      on the disk that the scheduler bound its claim to; listing in pages.
    - Disk profiler (ProfilerFacts): the rates that a run measures are at least
      1 MiB/s, and reach the disk engine through the profile file, unless its
      new text is shorter than the old one; how many runs are in progress.
    - Cache allocation (RdtConfigFacts, RdtServiceFacts): the masks computed
      from percentages are contiguous, within the cache and not too small; the
      two printers of bit lists agree; without CDP, a class's schema gives
      each cache the mask that the class's text asks for; the FixedClass policy chooses the class it documents.
    - Defects: theorems of the kind "error", and the examples they use, give
      runs in which the code does not do what it means to: a mutex locked
      twice or kept, charges never undone, a publication that goes back, a
      conflict that is not retried, scores and amounts out of range, pod
      details that are lost, kept events that run twice.

    ** Bounds

    int64 values are integers with wrap-around where the code computes with
    them; the conversion of a float64 out of range to int64, uint32 or uint64
    is that of amd64; floating-point expressions are evaluated without fused
    operations.  Fuel occurs in three places: SetFlag may be called by the
    events it runs, and depth [flag_depth] (three, the number of flags) is
    enough because each nested call sets another flag (no_event_lost); retry
    loops of the API helpers are bounded by the code's own number of attempts.
    The event engine of rdt is a step relation, without fuel; engine_settles
    proves that it terminates. The loop in which the network engine of the
    service waits for a pod's interface sleeps and asks again for ever;
    [rounds] bounds it, [StillWaiting] is the result beyond the bound, and
    host_interface_terminates shows which number of rounds is enough, and when
    none is.

    ** Assumptions

    Code that is not in the repository is a class: quantities (QuantityLib,
    with laws QuantityLaws), JSON (JsonLib, AllocLib, AgentLib), hashing
    (HashLib), the API server (KubeClient, StaticClient), gRPC (Grpc,
    AggrClient), the calls of the agent to the service (ServiceClient and
    ServiceCalls, and ServiceAnswers where a theorem needs the service to
    answer), regular expressions (RegexpLib), the bbolt store (BoltDB, with
    the laws BoltLaws of its transactions and, where a theorem needs a store
    that works, BoltReliable), files and commands of the node (Files), JSON of
    the service (DiskJson, LsblkJson, LogJson, RdtJson), the C library and
    eBPF maps of the disk engine (DiskLib), JSON of a container's registration
    (RdtAgentJson), the text of floats and its reading (FloatText, FloatParse,
    with FloatParseLaws), netlink (Netlink and NetlinkConsts, with NetlinkLaws
    and, where a theorem needs a kernel that accepts the calls,
    NetlinkReliable), the tools and the CNI library of the node (NodeTools),
    files, mounts and loop devices of the CSI driver (CsiHost, with
    CsiHostLaws: what was written without an error is read back), config maps
    (ConfigMapLaws, likewise), JSON of the driver (CsiJson,
    with CsiJsonLaws) and of the network engine (NetJson, with NetJsonLaws),
    files and commands of the profiler (ProfileHost, with ProfileHostLaws), its
    JSON (ProfileJson, with ProfileJsonLaws) and the format of ratios (Fixed2),
    the order of range over a map (GoRange: any permutation) and sort.Slice
    (GoSort).  That calls succeed is never a law of these classes: it is a
    hypothesis of the theorems that need it, named in their statements
    (BoltReliable, NetlinkReliable, StatesServed, ServiceAnswers,
    files_writable, api_answers).  Strings are ASCII.  A nil map is an empty one except where the
    code writes to it without making it.  Log output is left out, but not the
    dereferences in its arguments.  The texts of JSON errors are not modelled.
    Mutexes of the shared context are modelled (a flag, and a crash for a
    goroutine that locks it twice); callbacks and rounds are otherwise atomic,
    so that data races between goroutines are outside, as are the mutexes of
    single handles and of the disk engine's registrations. The plugin's cycle
    state holds a snapshot of the pools.  The aggregator's cache shares the
    informer's objects; the callbacks read only the keys of an old object,
    which the sharing does not change.  An event log in the agent's engine
    ([executed]) exists for the statements only, and the lists of what was sent
    and answered in the sender ([sd_sent], [sd_done]) for proofs only: the
    theorems on the sender speak of the calls that the service gets.

    ** Not modelled

    IOISubscribeNet and its parser are called by nothing.  The start of the NRI
    plugin, the kubelet's pod list, inotify and the search of /proc are inputs
    of the model.
    Left aside: generated code and protocol stubs; command line programs,
    the flags and the gRPC server of the CSI driver;
    loading of eBPF programs; Prometheus caches; TLS and
    connections; the two files of the rdt policies that repeat config.go and
    info.go line for line. *)

From stdpp Require Export base gmap strings list sorting.
From Stdlib Require Export ZArith Ascii.
Open Scope Z_scope.

Create HintDb ioi.

(** ** Go run time *)

(** The ways in which a goroutine stops without returning: a nil pointer
    dereference, a write to a nil map, an integer division by zero, a failing [MustParse], an index
    out of range, locking a [sync.Mutex] that the goroutine itself holds (it
    blocks for ever), recursion deeper than the bound a definition gives, and
    waiting for others for longer than the bound a definition gives. *)
Inductive crash : Set :=
  NilDeref | NilMapWrite | DivByZero | ParsePanic | OutOfRange | SelfDeadlock | StackOverflow
| StillWaiting.

#[global] Instance crash_eq_dec : EqDecision crash.
Proof. solve_decision. Defined.

Inductive outcome (A : Type) : Type :=
| Ok (a : A)
| Crash (c : crash).
Arguments Ok {A} _.
Arguments Crash {A} _.

Definition obind {A B} (m : outcome A) (f : A → outcome B) : outcome B :=
  match m with Ok a => f a | Crash c => Crash c end.

(** Sequencing: [let! x := m in k]. *)
Declare Scope go_scope.
Delimit Scope go_scope with go.
Notation "'let!' x ':=' m 'in' k" := (obind m (λ x, k))
  (at level 200, x binder, m at level 100, k at level 200, right associativity) : go_scope.
Open Scope go_scope.

(** A pointer is an [option]; [deref] is [*p]. *)
Definition deref {A} (p : option A) : outcome A :=
  match p with Some a => Ok a | None => Crash NilDeref end.

(** Go's [error] values, by their message. *)
Abbreviation error := string (only parsing).

(** Code that reads and writes a store of type [S]. *)
Definition GoM (S A : Type) : Type := S → outcome (A * S).
Definition mbindM {S A B} (m : GoM S A) (f : A → GoM S B) : GoM S B := λ s,
  let! '(a, s') := m s in f a s'.
Definition retM {S A} (a : A) : GoM S A := λ s, Ok (a, s).
Notation "'let*' x ':=' m 'in' k" := (mbindM m (λ x, k))
  (at level 200, x binder, m at level 100, k at level 200, right associativity) : go_scope.
(** Read the store; run code that does not write it; write it. *)
Definition getM {S A} (f : S → A) : GoM S A := λ s, Ok (f s, s).
Definition liftM {S A} (o : outcome A) : GoM S A := λ s, let! a := o in Ok (a, s).
Definition modM {S} (f : S → S) : GoM S () := λ s, Ok ((), f s).

(** Calls that can fail with an error of type [E]; the store keeps what was
    done before the error. *)
Definition mbindE {S E A B} (m : GoM S (A + E)) (f : A → GoM S (B + E)) : GoM S (B + E) :=
  mbindM m (λ r, match r with inl a => f a | inr e => retM (inr e) end).
Notation "'let?' x ':=' m 'in' k" := (mbindE m (λ x, k))
  (at level 200, x binder, m at level 100, k at level 200, right associativity) : go_scope.
Definition retE {S E A} (a : A) : GoM S (A + E) := retM (inl a).
Definition failE {S E A} (e : E) : GoM S (A + E) := retM (inr e).
(** Ask the store; change it, unless the call fails. *)
Definition askE {S E A} (f : S → A + E) : GoM S (A + E) := λ s, Ok (f s, s).
Definition callE {S E} (f : S → S + E) : GoM S (() + E) := λ s,
  match f s with inl s' => Ok (inl (), s') | inr e => Ok (inr e, s) end.
(** A loop that ends at the first error. *)
Fixpoint forE {S E A} (l : list A) (body : A → GoM S (() + E)) : GoM S (() + E) :=
  match l with
  | [] => retE ()
  | x :: l => let? _ := body x in forE l body
  end.
(** The error of a call that returns nothing else. *)
Definition errE {S E} (m : GoM S (() + E)) : GoM S (option E) :=
  let* r := m in retM (match r with inl _ => None | inr e => Some e end).

(** Statements of a loop body: go on with a new accumulator, or return from
    the enclosing function. *)
Inductive ctrl (B R : Type) : Type :=
| Next (b : B)
| Return (r : R).
Arguments Next {B R} _.
Arguments Return {B R} _.

(** [for _, x := range l { body }], [acc] being the variables it assigns. *)
Fixpoint for_range {A B R} (l : list A) (acc : B) (body : B → A → outcome (ctrl B R))
    : outcome (ctrl B R) :=
  match l with
  | [] => Ok (Next acc)
  | x :: l' =>
      let! c := body acc x in
      match c with
      | Next acc' => for_range l' acc' body
      | Return r => Ok (Return r)
      end
  end.
Fixpoint for_rangeM {S A B R} (l : list A) (acc : B) (body : B → A → GoM S (ctrl B R))
    : GoM S (ctrl B R) :=
  match l with
  | [] => retM (Next acc)
  | x :: l' =>
      let* c := body acc x in
      match c with
      | Next acc' => for_rangeM l' acc' body
      | Return r => retM (Return r)
      end
  end.

(** A loop that never returns early. *)
Fixpoint foldM {A B} (f : B → A → outcome B) (acc : B) (l : list A) : outcome B :=
  match l with
  | [] => Ok acc
  | x :: l' => let! acc' := f acc x in foldM f acc' l'
  end.

(** The order of [range] over a map is unspecified: an instance fixes one,
    and a theorem over an arbitrary instance holds for every order. *)
Class GoRange := {
  range : ∀ {V : Type}, gmap string V → list (string * V);
  range_perm : ∀ {V : Type} (m : gmap string V), range m ≡ₚ map_to_list m
}.
Definition key_order : GoRange :=
  {| range := λ V m, map_to_list m; range_perm := λ V m, Permutation_refl _ |}.

(** [sort.Slice] and [sort.Sort]: some permutation of the input, sorted when
    [less] is a strict weak order (the sort is not stable). *)
Definition strict_weak {A} (less : A → A → bool) : Prop :=
  (∀ x, less x x = false) ∧
  (∀ x y z, less x y = true → less y z = true → less x z = true) ∧
  (∀ x y z, less x y = false → less y x = false → less y z = false → less z y = false →
            less x z = false ∧ less z x = false).
Class GoSort := {
  go_sort : ∀ {A : Type}, (A → A → bool) → list A → list A;
  go_sort_perm : ∀ {A : Type} (less : A → A → bool) l, go_sort less l ≡ₚ l;
  go_sort_sorted : ∀ {A : Type} (less : A → A → bool) l,
    strict_weak less → Sorted (λ x y, less y x = false) (go_sort less l)
}.

(** ** Machine integers *)

(** [int64] and [int] arithmetic wraps around. *)
Definition wrap64 (z : Z) : Z := (z + 2 ^ 63) mod 2 ^ 64 - 2 ^ 63.
Definition add64 (a b : Z) : Z := wrap64 (a + b).
Definition sub64 (a b : Z) : Z := wrap64 (a - b).
Definition mul64 (a b : Z) : Z := wrap64 (a * b).
(** Go's [/] truncates, and panics on a zero divisor. *)
Definition div64 (a b : Z) : outcome Z :=
  if b =? 0 then Crash DivByZero else Ok (wrap64 (Z.quot a b)).
Definition fits64 (z : Z) : Prop := - 2 ^ 63 ≤ z < 2 ^ 63.

Lemma wrap64_id z : fits64 z → wrap64 z = z.
Proof. unfold fits64, wrap64. intros H. rewrite Z.mod_small; lia. Qed.

Lemma wrap64_fits z : fits64 (wrap64 z).
Proof.
  unfold fits64, wrap64. pose proof (Z.mod_pos_bound (z + 2 ^ 63) (2 ^ 64)). lia.
Qed.

(** ** Lists and maps *)

Section Range.
Context `{GoRange} {V : Type}.
Implicit Types m : gmap string V.

Lemma elem_of_range m k v : (k, v) ∈ range m ↔ m !! k = Some v.
Proof. rewrite range_perm. apply elem_of_map_to_list. Qed.

Lemma NoDup_range m : NoDup (range m).*1.
Proof. rewrite range_perm. apply NoDup_fst_map_to_list. Qed.

Lemma length_range m : length (range m) = size m.
Proof. rewrite range_perm. apply length_map_to_list. Qed.

Lemma list_to_map_range m : (list_to_map (range m) : gmap string V) = m.
Proof.
  rewrite (list_to_map_proper _ (map_to_list m)).
  - apply list_to_map_to_list.
  - apply NoDup_range.
  - apply range_perm.
Qed.
End Range.

(** Storing back an updated entry. *)
Lemma insert_alter {A} (f : A → A) (k : string) (a : A) (m : gmap string A) :
  m !! k = Some a → <[k := f a]> m = alter f k m.
Proof.
  intros Hk. apply map_eq. intros i. destruct (decide (i = k)) as [-> |].
  - by rewrite lookup_insert_eq, lookup_alter_eq, Hk.
  - by rewrite lookup_insert_ne, lookup_alter_ne.
Qed.

(** A loop that updates each key of a map once. *)
Lemma lookup_foldl_alter {A V} (f : V → A → A) (l : list (string * V)) (m : gmap string A) i :
  NoDup l.*1 →
  foldl (λ m kv, alter (f kv.2) kv.1 m) m l !! i =
  match (list_to_map l : gmap string V) !! i with
  | Some v => f v <$> m !! i
  | None => m !! i
  end.
Proof.
  revert m. induction l as [| [k v] l IH]; intros m Hnd; simpl; [by rewrite lookup_empty |].
  apply NoDup_cons in Hnd as [Hk Hnd]. rewrite IH by done. destruct (decide (i = k)) as [-> | Hne].
  - rewrite lookup_insert_eq, (not_elem_of_list_to_map_1 l k Hk). by rewrite lookup_alter_eq.
  - rewrite lookup_insert_ne, lookup_alter_ne by done. done.
Qed.

(** A loop over the keys of a map that fills in another. *)
Lemma lookup_foldl_fill {V D} (f : string * V → option D) (l : list (string * V)) m i :
  NoDup l.*1 →
  foldl (λ (m : gmap string D) kv, match f kv with Some d => <[kv.1 := d]> m | None => m end) m l !! i
  = match (list_to_map l : gmap string V) !! i ≫= λ v, f (i, v) with
    | Some d => Some d
    | None => m !! i
    end.
Proof.
  revert m. induction l as [| [k v] l IH]; intros m Hnd; simpl; [by rewrite lookup_empty |].
  apply NoDup_cons in Hnd as [Hk Hnd]. rewrite IH by done. destruct (decide (i = k)) as [-> | Hne].
  - rewrite lookup_insert_eq, (not_elem_of_list_to_map_1 l k Hk). simpl.
    destruct (f (k, v)); [by rewrite lookup_insert_eq | done].
  - rewrite lookup_insert_ne by done. destruct (f (k, v)); [by rewrite lookup_insert_ne | done].
Qed.

(** A loop that deletes entries from the map it runs over. *)
Lemma foldl_delete_filter `{GoRange} {V} (p : string * V → bool) (m : gmap string V) :
  foldl (λ m kv, if p kv then delete kv.1 m else m) m (range m) = filter (λ kv, p kv = false) m.
Proof.
  assert (Hgen : ∀ l (m0 : gmap string V) k, NoDup l.*1 →
    foldl (λ m kv, if p kv then delete kv.1 m else m) m0 l !! k =
    match (list_to_map l : gmap string V) !! k with
    | Some v => if p (k, v) then None else m0 !! k
    | None => m0 !! k
    end).
  { induction l as [| [k' v] l IH]; intros m0 k Hnd; simpl; [by rewrite lookup_empty |].
    apply NoDup_cons in Hnd as [Hk Hnd]. rewrite IH by done. destruct (decide (k = k')) as [-> | Hne].
    - rewrite lookup_insert_eq, (not_elem_of_list_to_map_1 l k' Hk).
      destruct (p (k', v)); [by rewrite lookup_delete_eq | done].
    - rewrite lookup_insert_ne by done. destruct (p (k', v)); [by rewrite lookup_delete_ne | done]. }
  apply map_eq. intros k. rewrite Hgen by apply NoDup_range. rewrite list_to_map_range, map_lookup_filter.
  destruct (m !! k) as [v |] eqn:E; simpl; [| done].
  destruct (p (k, v)) eqn:Ep; rewrite ?E; by case_guard.
Qed.

(** A loop whose body always goes on is a fold. *)
Lemma for_range_next {A B R} (l : list A) (acc : B) (f : B → A → B)
    (body : B → A → outcome (ctrl B R)) :
  (∀ b x, body b x = Ok (Next (f b x))) → for_range l acc body = Ok (Next (foldl f acc l)).
Proof.
  intros Hb. revert acc. induction l as [| x l IH]; intros acc; [done |].
  simpl. rewrite Hb. simpl. apply IH.
Qed.

(** ** Strings *)

Lemma list_ascii_app (a b : string) :
  String.list_ascii_of_string (a +:+ b)
  = String.list_ascii_of_string a ++ String.list_ascii_of_string b.
Proof. induction a as [| x a IH]; [done |]. simpl. by rewrite <- IH. Qed.

Lemma str_app_inj_l (a b c : string) : a +:+ c = b +:+ c → a = b.
Proof.
  intros E. apply (f_equal String.list_ascii_of_string) in E.
  rewrite !list_ascii_app in E. apply app_inv_tail in E.
  by rewrite <- (String.string_of_list_ascii_of_string a), E, String.string_of_list_ascii_of_string.
Qed.

(** ** Outcomes *)

Lemma obind_Ok {A B} (m : outcome A) (f : A → outcome B) b :
  obind m f = Ok b ↔ ∃ a, m = Ok a ∧ f a = Ok b.
Proof. destruct m; simpl; naive_solver. Qed.

Lemma obind_assoc {A B C} (m : outcome A) (f : A → outcome B) (g : B → outcome C) :
  obind (obind m f) g = obind m (λ a, obind (f a) g).
Proof. by destruct m. Qed.

Lemma deref_Ok {A} (p : option A) a : deref p = Ok a ↔ p = Some a.
Proof. destruct p; simpl; naive_solver. Qed.

(** [inv_ok H] splits a successful computation [H] into its steps. *)
Ltac inv_ok H :=
  lazymatch type of H with
  | obind _ _ = Ok _ =>
      let x := fresh "x" in let E := fresh "E" in
      apply obind_Ok in H as (x & E & H); inv_ok E; inv_ok H
  | deref _ = Ok _ => apply deref_Ok in H; inv_ok H
  | Ok _ = Ok _ => first [injection H as H; subst | idtac]
  | _ => idtac
  end.

(** Evaluate both sides of a closed equation in the virtual machine. *)
Ltac vm_eq := lazymatch goal with |- _ = ?b => vm_cast_no_check (eq_refl b) end.

(** Loops that only look for the first error. *)
Lemma for_range_check {A E} (f : A → outcome (option E)) (l : list A) :
  for_range l () (λ _ x, let! e := f x in
                   Ok (match e with None => Next () | Some err => Return err end)) = Ok (Next ())
  ↔ Forall (λ x, f x = Ok None) l.
Proof.
  induction l as [| x l IH]; simpl; [by split |].
  rewrite Forall_cons, <- IH. destruct (f x) as [[e |] | c]; simpl; naive_solver.
Qed.

Lemma foldl_inv {A B} (P : B → Prop) (f : B → A → B) acc l :
  P acc → (∀ b x, x ∈ l → P b → P (f b x)) → P (foldl f acc l).
Proof.
  revert acc. induction l as [| x l IH]; intros acc HP Hf; simpl; [done |].
  apply IH; [apply Hf; [by left | done] |]. intros b y Hy. apply Hf. by right.
Qed.

Section FoldM.
Context {A B : Type} (f : B → A → outcome B).

Lemma foldM_app acc l1 l2 :
  foldM f acc (l1 ++ l2) = let! acc' := foldM f acc l1 in foldM f acc' l2.
Proof.
  revert acc. induction l1 as [| x l1 IH]; intros acc; simpl; [done |].
  destruct (f acc x); simpl; auto.
Qed.

(** Invariants of a loop, by the elements still to come. *)
Lemma foldM_inv (P : B → Prop) acc l r :
  (∀ b x b', x ∈ l → P b → f b x = Ok b' → P b') →
  P acc → foldM f acc l = Ok r → P r.
Proof.
  revert acc. induction l as [| x l IH]; intros acc Hstep HP; simpl.
  - by intros [= <-].
  - intros (acc' & Hf & Hr)%obind_Ok. eapply IH; [| | exact Hr].
    + intros. eapply Hstep; [by right | done..].
    + eapply Hstep; [by left | done..].
Qed.

(** A loop none of whose iterations can crash does not crash. *)
Lemma foldM_total (P : B → Prop) acc l :
  (∀ b x, x ∈ l → P b → ∃ b', f b x = Ok b' ∧ P b') →
  P acc → ∃ r, foldM f acc l = Ok r ∧ P r.
Proof.
  revert acc. induction l as [| x l IH]; intros acc Hstep HP; simpl; [eauto |].
  destruct (Hstep acc x) as (b' & -> & Hb'); [by left | done |]. simpl.
  apply IH; [| done]. intros b y Hy. apply Hstep. by right.
Qed.
End FoldM.

(** An assertion on what is left of the list and on the variables. *)
Lemma for_range_inv {A B R} (I : list A → B → Prop) (l : list A) (acc b : B) (body : B → A → outcome (ctrl B R)) :
  (∀ x l acc acc', I (x :: l) acc → body acc x = Ok (Next acc') → I l acc') →
  I l acc → for_range l acc body = Ok (Next b) → I [] b.
Proof.
  intros Hb. revert acc. induction l as [| x l IH]; intros acc Hi; cbn [for_range]; [by intros [= <-] |].
  destruct (body acc x) as [[acc' | r] |] eqn:E; simpl; try done. intros Hl. eapply IH; [| exact Hl].
  by eapply Hb.
Qed.
Lemma for_rangeM_inv {S A B R} (I : list A → B → Prop) (l : list A) (acc b : B) (body : B → A → GoM S (ctrl B R)) s s' :
  (∀ x l acc acc' s s', I (x :: l) acc → body acc x s = Ok (Next acc', s') → I l acc') →
  I l acc → for_rangeM l acc body s = Ok (Next b, s') → I [] b.
Proof.
  intros Hb. revert acc s. induction l as [| x l IH]; intros acc s Hi; cbn [for_rangeM]; [by intros [= <- <-] |].
  unfold mbindM. destruct (body acc x s) as [[[acc' | r] s1] |] eqn:E; simpl; try done. intros Hl.
  eapply IH; [| exact Hl]. by eapply Hb.
Qed.
Lemma for_range_total {A B R} (l : list A) (acc : B) (body : B → A → outcome (ctrl B R)) :
  (∀ b x, x ∈ l → ∃ c, body b x = Ok c) → ∃ c, for_range l acc body = Ok c.
Proof.
  revert acc. induction l as [| x l IH]; intros acc Hb; simpl; [eauto |].
  destruct (Hb acc x) as [[b | r] ->]; [by left | |]; simpl; [| eauto].
  apply IH. intros b' y Hy. apply Hb. by right.
Qed.

(** ** Partial correctness, without deadlock and endless recursion *)

(** If the computation returns, the result satisfies [Φ]; it may panic, but
    it does not block on a lock its own goroutine holds, does not exhaust
    its stack, and does not wait for others. *)
Definition panics (c : crash) : bool :=
  match c with
  | SelfDeadlock | StackOverflow | StillWaiting => false
  | NilDeref | NilMapWrite | DivByZero | ParsePanic | OutOfRange => true
  end.
Definition spares {A} (Φ : A → Prop) (o : outcome A) : Prop :=
  match o with Ok a => Φ a | Crash c => panics c = true end.

Lemma spares_bind {A B} (Ψ : A → Prop) (Φ : B → Prop) m f :
  spares Ψ m → (∀ a, Ψ a → spares Φ (f a)) → spares Φ (obind m f).
Proof. destruct m; simpl; auto. Qed.

Lemma spares_weaken {A} (Ψ Φ : A → Prop) m : (∀ a, Ψ a → Φ a) → spares Ψ m → spares Φ m.
Proof. destruct m; simpl; auto. Qed.

Lemma spares_deref {A} (p : option A) : spares (λ _, True) (deref p).
Proof. by destruct p. Qed.

Lemma spares_foldM {A B} (Φ : B → Prop) (f : B → A → outcome B) acc l :
  Φ acc → (∀ b x, Φ b → spares Φ (f b x)) → spares Φ (foldM f acc l).
Proof.
  intros Ha Hf. revert acc Ha. induction l as [| x l IH]; intros acc Ha; simpl; [done |].
  by eapply spares_bind; [apply Hf |].
Qed.

Lemma spares_for_range {A B R} (Φ : B → Prop) (Ψ : R → Prop) (l : list A) acc
    (body : B → A → outcome (ctrl B R)) :
  let post (c : ctrl B R) := match c with Next b => Φ b | Return r => Ψ r end in
  Φ acc → (∀ b x, Φ b → spares post (body b x)) → spares post (for_range l acc body).
Proof.
  intros post Ha Hf. revert acc Ha. induction l as [| x l IH]; intros acc Ha; simpl; [done |].
  eapply spares_bind; [by apply Hf |]. intros [b | r] Hb; [by apply IH | done].
Qed.

(** [spare]: step through the binds, matches and returns of a computation;
    lemmas of the database finish the calls. *)
Ltac spare :=
  repeat first
    [ progress intros
    | match goal with
      | |- spares _ (Ok _) => simpl
      | |- spares _ (Crash _) => reflexivity
      | |- spares _ (obind (deref _) _) => eapply spares_bind; [apply spares_deref | intros ? _]
      | |- spares _ (obind (Ok _) _) => simpl
      | |- spares _ (obind (obind _ _) _) => rewrite obind_assoc
      | |- spares _ (obind (match ?x with _ => _ end) _) =>
          let E := fresh "E" in destruct x eqn:E
      | |- spares _ (match ?x with _ => _ end) => let E := fresh "E" in destruct x eqn:E
      end
    | (eapply spares_bind; [solve [eauto with ioi] |]) ].
