(* ===== verification/Float64.v ===== *)
(** * Go's [float64]

    The scheduler keeps every bandwidth as a Go [float64].  This file models
    the type as the executable IEEE 754 binary64 of the Standard Library's
    [SpecFloat] (round to nearest, ties to even) and proves what the
    components need of it:

    - [key] maps every non-NaN float to an integer (its exact value in units
      of 2^-1074, the infinities far outside), and [cmp_key] shows that the
      machine comparison is the comparison of keys;
    - [rnd] is the rounding of an exact integer value, and [normalize_spec]
      shows that the machine rounding computes it; [rnd_mono] and [rnd_id]
      are its monotonicity and its exactness on representable values;
    - [sub_nonneg]: [y <= x] implies [0 <= x - y], with rounding;
    - [add_of_Z], [sub_of_Z]: integers up to 2^53 are added and subtracted
      exactly. *)

From Stdlib Require Import ZArith Lia Bool SpecFloat.
Open Scope Z_scope.

Abbreviation f64 := spec_float (only parsing).

Definition prec : Z := 53.
Definition emax : Z := 1024.

(** ** Operations *)

Definition fadd (x y : f64) : f64 := SFadd prec emax x y.
Definition fsub (x y : f64) : f64 := SFsub prec emax x y.
Definition fmul (x y : f64) : f64 := SFmul prec emax x y.
Definition fdiv (x y : f64) : f64 := SFdiv prec emax x y.
Definition fabs (x : f64) : f64 := SFabs x.
Definition flt (x y : f64) : bool := SFltb x y.
Definition fle (x y : f64) : bool := SFleb x y.
Definition feq (x y : f64) : bool := SFeqb x y.

(** [float64(n)] for an integer [n]. *)
Definition of_Z (n : Z) : f64 := binary_normalize prec emax n 0 false.

Definition fzero : f64 := S754_zero false.

(** Go's [math.Max]: +Inf if either is +Inf, NaN if either is NaN, and
    [Max(+0, -0) = +0]. *)
Definition is_inf (x : f64) (s : bool) : bool :=
  match x with S754_infinity s' => Bool.eqb s s' | _ => false end.
Definition is_nan (x : f64) : bool :=
  match x with S754_nan => true | _ => false end.
Definition fmax (x y : f64) : f64 :=
  if is_inf x false || is_inf y false then S754_infinity false
  else if is_nan x || is_nan y then S754_nan
  else match x, y with
       | S754_zero sx, S754_zero _ => if sx then y else x
       | _, _ => if flt y x then x else y
       end.

(** math.Min *)
Definition fmin (x y : f64) : f64 :=
  if is_inf x true || is_inf y true then S754_infinity true
  else if is_nan x || is_nan y then S754_nan
  else match x, y with
       | S754_zero sx, S754_zero _ => if sx then x else y
       | _, _ => if flt x y then x else y
       end.

(** [int64(x)]: truncation towards zero; out of range (and for NaN) the
    result is the one amd64 gives, the smallest integer. *)
Definition min_int64 : Z := - 2 ^ 63.
Definition max_int64 : Z := 2 ^ 63 - 1.
Definition in_int64 (z : Z) : bool := (min_int64 <=? z) && (z <=? max_int64).
Definition ftrunc (x : f64) : Z :=
  match x with
  | S754_finite s m e =>
      cond_Zopp s (if 0 <=? e then Zpos m * 2 ^ e else Zpos m / 2 ^ (- e))
  | _ => 0
  end.
Definition to_int64 (x : f64) : Z :=
  match x with
  | S754_infinity _ | S754_nan => min_int64
  | _ => if in_int64 (ftrunc x) then ftrunc x else min_int64
  end.

(** ** Exact values *)

(** Values are counted in units of 2^-1074, the least positive float. *)
Definition unit_exp : Z := 1074.
Definition valid (x : f64) : Prop := valid_binary prec emax x = true.
Definition finite (x : f64) : Prop :=
  match x with S754_zero _ | S754_finite _ _ _ => True | _ => False end.
Definition fval (x : f64) : Z :=
  match x with
  | S754_finite s m e => cond_Zopp s (Zpos m * 2 ^ (e + unit_exp))
  | _ => 0
  end.
(** Larger than every finite value. *)
Definition huge : Z := 2 ^ (emax + unit_exp).
Definition key (x : f64) : Z :=
  match x with
  | S754_infinity s => cond_Zopp s huge
  | _ => fval x
  end.

Definition nonneg (x : f64) : Prop := fle fzero x = true.

Lemma digits_log2 m : Zpos (digits2_pos m) = Z.log2 (Zpos m) + 1.
Proof.
  induction m as [m IH | m IH |]; [| | reflexivity]; cbn [digits2_pos];
    rewrite Pos2Z.inj_succ, IH.
  - rewrite (Pos2Z.inj_xI m), Z.log2_succ_double; lia.
  - rewrite (Pos2Z.inj_xO m), Z.log2_double; lia.
Qed.

Lemma Zdigits_log2 n : 0 < n -> Zdigits2 n = Z.log2 n + 1.
Proof. destruct n; try lia. intros _. apply digits_log2. Qed.

Lemma log2_bounds n : 0 < n -> 2 ^ Z.log2 n <= n < 2 ^ (Z.log2 n + 1).
Proof. intros H. pose proof (Z.log2_spec n H). now rewrite <- Z.add_1_r in *. Qed.

Lemma fexp_eq e : fexp prec emax e = Z.max (e - 53) (-1074).
Proof. reflexivity. Qed.

Ltac pow2_pos :=
  repeat match goal with
  | |- context [2 ^ ?k] =>
      lazymatch goal with
      | _ : 0 < 2 ^ k |- _ => fail
      | _ => assert (0 < 2 ^ k) by (apply Z.pow_pos_nonneg; lia)
      end
  | _ : context [2 ^ ?k] |- _ =>
      lazymatch goal with
      | _ : 0 < 2 ^ k |- _ => fail
      | _ => assert (0 < 2 ^ k) by (apply Z.pow_pos_nonneg; lia)
      end
  end.

Lemma bounded_inv m e :
  bounded prec emax m e = true ->
  -1074 <= e <= 971 /\ Zpos m < 2 ^ 53 /\ (2 ^ 52 <= Zpos m \/ e = -1074).
Proof.
  unfold bounded, canonical_mantissa. rewrite andb_true_iff, Z.eqb_eq, Z.leb_le.
  rewrite fexp_eq, digits_log2. unfold emax, prec. intros [Hc Hle].
  pose proof (log2_bounds (Zpos m) ltac:(lia)) as [Hlo Hhi].
  assert (Z.log2 (Zpos m) + 1 <= 53) as Hd by lia.
  split; [lia |]. split.
  - apply Z.lt_le_trans with (2 ^ (Z.log2 (Zpos m) + 1)); [lia |].
    apply Z.pow_le_mono_r; lia.
  - destruct (Z.eq_dec e (-1074)) as [-> | Hne]; [now right | left].
    replace (Z.log2 (Zpos m)) with 52 in Hlo by lia. exact Hlo.
Qed.

Lemma bounded_intro m e :
  -1074 <= e <= 971 -> Zpos m < 2 ^ 53 -> 2 ^ 52 <= Zpos m \/ e = -1074 ->
  bounded prec emax m e = true.
Proof.
  intros He Hm Hn. unfold bounded, canonical_mantissa.
  rewrite andb_true_iff, Z.eqb_eq, Z.leb_le, fexp_eq, digits_log2.
  unfold emax, prec. split; [| lia].
  assert (Z.log2 (Zpos m) < 53) by (apply Z.log2_lt_pow2; lia).
  destruct Hn as [Hn | ->]; [| lia].
  assert (52 <= Z.log2 (Zpos m)) by (apply Z.log2_le_pow2; lia). lia.
Qed.

Lemma pow_split a b : 0 <= a <= b -> 2 ^ b = 2 ^ a * 2 ^ (b - a).
Proof. intros H. rewrite <- Z.pow_add_r by lia. f_equal. lia. Qed.

(** Canonical mantissas: a larger exponent is a larger value. *)
Lemma mantissa_lt m1 e1 m2 e2 :
  bounded prec emax m1 e1 = true -> bounded prec emax m2 e2 = true -> e1 < e2 ->
  Zpos m1 * 2 ^ (e1 + unit_exp) < Zpos m2 * 2 ^ (e2 + unit_exp).
Proof.
  intros (He1 & Hm1 & _)%bounded_inv (He2 & Hm2 & Hn2)%bounded_inv Hlt.
  unfold unit_exp. destruct Hn2 as [Hn2 | ->]; [| lia].
  rewrite (pow_split (e1 + 1074 + 1) (e2 + 1074)) by lia.
  rewrite (Z.pow_add_r 2 (e1 + 1074) 1) by lia. change (2 ^ 1) with 2.
  pow2_pos. set (p := 2 ^ (e1 + 1074)) in *.
  set (q := 2 ^ (e2 + 1074 - (e1 + 1074 + 1))) in *.
  clearbody p q. change (2 ^ 53) with (2 * 2 ^ 52) in Hm1.
  apply Z.lt_le_trans with (2 * Zpos m2 * p); [apply Z.mul_lt_mono_pos_r; lia |].
  replace (Zpos m2 * (p * 2 * q)) with (2 * Zpos m2 * p * q) by ring.
  assert (0 < 2 * Zpos m2 * p) by (apply Z.mul_pos_pos; lia). nia.
Qed.

Lemma val_lt_huge m e :
  bounded prec emax m e = true -> 0 < Zpos m * 2 ^ (e + unit_exp) < huge.
Proof.
  intros (He & Hm & _)%bounded_inv. unfold huge, unit_exp, emax in *.
  assert (2 ^ (1024 + 1074) = 2 ^ (e + 1074) * (2 ^ 53 * 2 ^ (971 - e))) as ->.
  { rewrite <- !Z.pow_add_r by lia. f_equal. lia. }
  pow2_pos. set (p := 2 ^ (e + 1074)) in *. set (q := 2 ^ (971 - e)) in *.
  clearbody p q. split; [nia |]. assert (2 ^ 53 <= 2 ^ 53 * q) by nia.
  rewrite (Z.mul_comm (Zpos m)). apply Z.mul_lt_mono_pos_l; lia.
Qed.

Lemma compare_pos m1 e1 m2 e2 :
  bounded prec emax m1 e1 = true -> bounded prec emax m2 e2 = true ->
  match Z.compare e1 e2 with Lt => Lt | Gt => Gt | Eq => Pos.compare_cont Eq m1 m2 end
  = (Zpos m1 * 2 ^ (e1 + unit_exp) ?= Zpos m2 * 2 ^ (e2 + unit_exp)).
Proof.
  intros H1 H2. destruct (Z.compare_spec e1 e2) as [-> | Hlt | Hgt].
  - change (Pos.compare_cont Eq m1 m2) with (Zpos m1 ?= Zpos m2).
    apply bounded_inv in H1. unfold unit_exp in *. pow2_pos.
    set (p := 2 ^ (e2 + 1074)) in *. clearbody p.
    rewrite !(Z.mul_comm _ p). apply Zmult_compare_compat_l. lia.
  - symmetry. apply Z.compare_lt_iff. now apply mantissa_lt.
  - symmetry. apply Z.compare_gt_iff. now apply mantissa_lt.
Qed.

(** The machine comparison is the comparison of keys. *)
Lemma cmp_key x y :
  valid x -> valid y -> is_nan x = false -> is_nan y = false ->
  SFcompare x y = Some (key x ?= key y).
Proof.
  unfold valid. intros Hx Hy Nx Ny.
  assert (0 < huge) by reflexivity.
  destruct x as [sx | sx | | sx mx ex]; try discriminate;
  destruct y as [sy | sy | | sy my ey]; try discriminate; cbn [SFcompare key fval valid_binary] in *;
    repeat match goal with
    | H : bounded _ _ ?m ?e = true |- context [Zpos ?m * 2 ^ (?e + unit_exp)] =>
        lazymatch goal with
        | _ : 0 < Zpos m * 2 ^ (e + unit_exp) < huge |- _ => fail
        | _ => pose proof (val_lt_huge m e H)
        end
    end; f_equal.
  all: try (destruct sx, sy; cbn [cond_Zopp]; symmetry;
    first [ apply Z.compare_eq_iff; lia | apply Z.compare_lt_iff; lia
          | apply Z.compare_gt_iff; lia ]).
  all: try (first [destruct sx | destruct sy]; cbn [cond_Zopp]; symmetry;
    first [ apply Z.compare_eq_iff; lia | apply Z.compare_lt_iff; lia
          | apply Z.compare_gt_iff; lia ]).
  all: try reflexivity.
  destruct sx, sy; cbn [cond_Zopp].
  - rewrite Z.compare_opp, <- compare_pos by assumption.
    rewrite (Z.compare_antisym ex ey). destruct (ex ?= ey); try reflexivity.
    cbn [CompOpp]. symmetry. exact (Pos.compare_antisym mx my).
  - symmetry. apply Z.compare_lt_iff. lia.
  - symmetry. apply Z.compare_gt_iff. lia.
  - now apply compare_pos.
Qed.

(** ** Rounding *)

(** [rne n k]: [n / 2^k], to the nearest integer, ties to even. *)
Definition rne (n k : Z) : Z :=
  round_nearest_even (n / 2 ^ k)
    (if n mod 2 ^ k =? 0 then loc_Exact else loc_Inexact (2 * (n mod 2 ^ k) ?= 2 ^ k)).

(** The number of low bits a value of [n] units loses. *)
Definition excess (n : Z) : Z := Z.max (Z.log2 n + 1 - 53) 0.

(** Rounding of a value of [n] units. *)
Definition rnd_pos (n : Z) : Z := rne n (excess n) * 2 ^ excess n.
Definition rnd (n : Z) : Z := Z.sgn n * rnd_pos (Z.abs n).

(** What the shifter keeps after dropping [j] bits of [n]. *)
Definition shifted (n j : Z) (mrs : shr_record) : Prop :=
  shr_m mrs = n / 2 ^ j /\
  loc_of_shr_record mrs =
    (if n mod 2 ^ j =? 0 then loc_Exact else loc_Inexact (2 * (n mod 2 ^ j) ?= 2 ^ j)).

Lemma div_mod_succ n j :
  0 <= n -> 0 <= j ->
  n / 2 ^ (j + 1) = n / 2 ^ j / 2 /\
  n mod 2 ^ (j + 1) = (n / 2 ^ j) mod 2 * 2 ^ j + n mod 2 ^ j.
Proof.
  intros Hn Hj. rewrite Z.pow_add_r by lia. change (2 ^ 1) with 2.
  pow2_pos. set (p := 2 ^ j) in *. clearbody p.
  rewrite <- Z.div_div by lia. split; [reflexivity |].
  rewrite (Z.mod_eq n (p * 2)), <- Z.div_div by lia.
  rewrite (Z.mod_eq n p), (Z.mod_eq (n / p) 2) by lia. ring.
Qed.

Lemma shr_1_shifted n j mrs :
  0 <= n -> 0 <= j -> shifted n j mrs -> shifted n (j + 1) (shr_1 mrs).
Proof.
  intros Hn Hj [Hm Hl]. destruct (div_mod_succ n j Hn Hj) as [Hq Hr].
  unfold shifted. rewrite Hq, Hr, <- Hm. destruct mrs as [m r s]. cbn [shr_m] in *.
  assert (0 <= m) by (rewrite Hm; apply Z.div_pos; pow2_pos; lia).
  assert (0 <= n mod 2 ^ j < 2 ^ j) as Hb by (apply Z.mod_pos_bound; pow2_pos; lia).
  assert (orb r s = negb (n mod 2 ^ j =? 0)) as Hrs.
  { destruct (n mod 2 ^ j =? 0), r, s, (2 * (n mod 2 ^ j) ?= 2 ^ j); cbn in Hl;
      try discriminate; reflexivity. }
  replace (2 ^ (j + 1)) with (2 * 2 ^ j) by (rewrite Z.pow_add_r by lia; ring).
  clear Hl Hm Hq Hr. pow2_pos.
  set (rem := n mod 2 ^ j) in *. set (p := 2 ^ j) in *. clearbody rem p.
  destruct m as [| [m | m |] | m]; try lia; unfold shr_1; cbn [shr_m]; rewrite Hrs.
  all: split; [first [ reflexivity | apply Z.div_unique with (r := 1); lia
                     | apply Z.div_unique with (r := 0); lia ] |].
  all: match goal with
       | |- context [Zpos ?m~1 mod 2] =>
           replace (Zpos m~1 mod 2) with 1 by (apply Z.mod_unique with (Zpos m); lia)
       | |- context [Zpos ?m~0 mod 2] =>
           replace (Zpos m~0 mod 2) with 0 by (apply Z.mod_unique with (Zpos m); lia)
       | |- context [1 mod 2] => change (1 mod 2) with 1
       | |- context [0 mod 2] => change (0 mod 2) with 0
       end.
  all: destruct (Z.eqb_spec rem 0) as [-> | Hne]; cbn [negb loc_of_shr_record].
  all: match goal with |- context [?a =? 0] => destruct (Z.eqb_spec a 0); try lia end.
  all: try reflexivity.
  all: f_equal; symmetry;
    first [ apply Z.compare_eq_iff; lia | apply Z.compare_lt_iff; lia
          | apply Z.compare_gt_iff; lia ].
Qed.

Lemma iter_pos_iter {A} (f : A -> A) p x :
  iter_pos f p x = Nat.iter (Pos.to_nat p) f x.
Proof.
  revert x. induction p as [p IH | p IH |]; intros x; cbn [iter_pos].
  - rewrite !IH, <- Nat.iter_add, <- Nat.iter_succ_r. f_equal. lia.
  - rewrite !IH, <- Nat.iter_add. f_equal. lia.
  - reflexivity.
Qed.

Lemma shr_shifted n e k :
  0 <= n -> 0 <= k ->
  exists mrs, shr (shr_record_of_loc n loc_Exact) e k = (mrs, e + k) /\ shifted n k mrs.
Proof.
  intros Hn Hk.
  assert (shifted n 0 (shr_record_of_loc n loc_Exact)) as H0.
  { split; cbn; now rewrite ?Z.div_1_r, ?Z.mod_1_r. }
  destruct k as [| p | p]; [| | lia].
  - exists (shr_record_of_loc n loc_Exact). split; [cbn; f_equal; lia | exact H0].
  - exists (iter_pos shr_1 p (shr_record_of_loc n loc_Exact)). split; [reflexivity |].
    rewrite iter_pos_iter. replace (Zpos p) with (0 + Z.of_nat (Pos.to_nat p)) by lia.
    induction (Pos.to_nat p) as [| i IH]; [exact H0 |].
    cbn [Nat.iter]. replace (0 + Z.of_nat (S i)) with (0 + Z.of_nat i + 1) by lia.
    apply shr_1_shifted; [lia | lia | exact IH].
Qed.

Lemma rne_scale n k j : 0 <= n -> 0 <= k -> 0 <= j -> rne (n * 2 ^ j) (k + j) = rne n k.
Proof.
  intros Hn Hk Hj. unfold rne. rewrite Z.pow_add_r by lia. pow2_pos.
  set (p := 2 ^ k) in *. set (q := 2 ^ j) in *. clearbody p q.
  rewrite Z.div_mul_cancel_r, Zmult_mod_distr_r by lia.
  replace (n mod p * q =? 0) with (n mod p =? 0).
  2: { destruct (Z.eqb_spec (n mod p) 0) as [-> | ?], (Z.eqb_spec (n mod p * q) 0); nia. }
  f_equal. destruct (n mod p =? 0); [reflexivity | f_equal].
  replace (2 * (n mod p * q)) with (q * (2 * (n mod p))) by ring.
  rewrite (Z.mul_comm p q). symmetry. apply Zmult_compare_compat_l. lia.
Qed.

Lemma round_nearest_even_range q l : q <= round_nearest_even q l <= q + 1.
Proof. destruct l as [| []]; cbn; try lia. destruct (Z.even q); lia. Qed.

Lemma rne_exact n k : n mod 2 ^ k = 0 -> rne n k = n / 2 ^ k.
Proof. intros H. unfold rne. now rewrite H. Qed.

(** [f] is the float of sign [sx] and magnitude [v], or the infinity when [v]
    is out of range. *)
Definition encodes (sx : bool) (v : Z) (f : f64) : Prop :=
  (v < huge /\ exists m e, f = S754_finite sx m e /\ bounded prec emax m e = true /\
     Zpos m * 2 ^ (e + unit_exp) = v) \/
  (huge <= v /\ f = S754_infinity sx).

Lemma encodes_finite sx m e :
  -1074 <= e -> Zpos m < 2 ^ 53 -> 2 ^ 52 <= Zpos m \/ e = -1074 ->
  encodes sx (Zpos m * 2 ^ (e + unit_exp))
    (if e <=? 971 then S754_finite sx m e else S754_infinity sx).
Proof.
  intros He Hm Hn. destruct (Z.leb_spec e 971) as [Hle | Hgt].
  - assert (bounded prec emax m e = true) as Hb by (apply bounded_intro; auto; lia).
    left. split; [now apply val_lt_huge |]. eauto.
  - right. split; [| reflexivity]. destruct Hn as [Hn | ->]; [| lia].
    unfold huge, emax, unit_exp in *.
    replace (2 ^ (1024 + 1074)) with (2 ^ 52 * 2 ^ 2046) by reflexivity.
    assert (2 ^ 2046 <= 2 ^ (e + 1074)) by (apply Z.pow_le_mono_r; lia).
    assert (0 < 2 ^ 2046) by reflexivity. apply Z.mul_le_mono_nonneg; lia.
Qed.

(** The second normalisation, after the mantissa has been rounded. *)
Lemma renormalize sx q e :
  0 < q -> -1074 <= e -> q <= 2 ^ 53 -> 2 ^ 52 <= q \/ e = -1074 /\ q < 2 ^ 53 ->
  encodes sx (q * 2 ^ (e + unit_exp))
    (let '(mrs, e'') := shr_fexp prec emax q e loc_Exact in
     match shr_m mrs with
     | Z0 => S754_zero sx
     | Zpos m => if e'' <=? emax - prec then S754_finite sx m e'' else S754_infinity sx
     | _ => S754_nan
     end).
Proof.
  intros Hq He Hle Hn. unfold shr_fexp. rewrite fexp_eq, Zdigits_log2 by lia.
  change (emax - prec) with 971.
  destruct (Z.eq_dec q (2 ^ 53)) as [-> | Hne].
  - rewrite Z.log2_pow2 by lia. replace (Z.max (53 + 1 + e - 53) (-1074) - e) with 1 by lia.
    change (encodes sx (2 ^ 53 * 2 ^ (e + unit_exp))
      (if e + 1 <=? 971 then S754_finite sx (Z.to_pos (2 ^ 52)) (e + 1) else S754_infinity sx)).
    replace (2 ^ 53 * 2 ^ (e + unit_exp)) with (Zpos (Z.to_pos (2 ^ 52)) * 2 ^ (e + 1 + unit_exp)).
    2: { unfold unit_exp. replace (e + 1 + 1074) with (1 + (e + 1074)) by lia.
         rewrite (Z.pow_add_r 2 1) by lia. rewrite Z.mul_assoc. reflexivity. }
    apply encodes_finite; [lia | reflexivity | left; reflexivity].
  - assert (Z.log2 q < 53) by (apply Z.log2_lt_pow2; lia).
    assert (Z.max (Z.log2 q + 1 + e - 53) (-1074) - e = 0) as ->.
    { destruct Hn as [Hn | [-> _]]; [| lia].
      assert (52 <= Z.log2 q) by (apply Z.log2_le_pow2; lia). lia. }
    cbn [shr shr_record_of_loc shr_m]. destruct q as [| m | m]; try lia.
    apply encodes_finite; lia.
Qed.

Lemma round_aux_spec sx n e :
  0 < n -> -1074 <= e -> 2 ^ 52 <= n \/ e = -1074 ->
  encodes sx (rnd_pos (n * 2 ^ (e + unit_exp))) (binary_round_aux prec emax sx n e loc_Exact).
Proof.
  intros Hn He Hc. set (k := Z.max (Z.log2 n + 1 - 53) 0).
  assert (excess (n * 2 ^ (e + unit_exp)) = k + (e + unit_exp)
          \/ excess (n * 2 ^ (e + unit_exp)) = 0 /\ k = 0 /\ e = -1074) as Hk.
  { unfold excess, k, unit_exp in *. rewrite Z.log2_mul_pow2 by lia.
    destruct Hc as [Hc | ->]; [| lia].
    assert (52 <= Z.log2 n) by (apply Z.log2_le_pow2; lia). lia. }
  assert (rnd_pos (n * 2 ^ (e + unit_exp)) = rne n k * 2 ^ (e + k + unit_exp)) as ->.
  { unfold rnd_pos. destruct Hk as [-> | (-> & -> & ->)].
    - unfold unit_exp. rewrite rne_scale by lia. do 2 f_equal. lia.
    - change (-1074 + unit_exp) with 0. change (-1074 + 0 + unit_exp) with 0.
      change (2 ^ 0) with 1. now rewrite (Z.mul_1_r n). }
  unfold binary_round_aux, shr_fexp. rewrite fexp_eq, Zdigits_log2 by lia.
  assert (Z.max (Z.log2 n + 1 + e - 53) (-1074) - e = k) as ->.
  { unfold k. destruct Hc as [Hc | ->]; [| lia].
    assert (52 <= Z.log2 n) by (apply Z.log2_le_pow2; lia). lia. }
  destruct (shr_shifted n e k) as (mrs & -> & Hm & Hl); [lia | lia |].
  rewrite Hm, Hl. fold (rne n k).
  change (shr (shr_record_of_loc (rne n k) loc_Exact) (e + k)
    (fexp prec emax (Zdigits2 (rne n k) + (e + k)) - (e + k)))
    with (shr_fexp prec emax (rne n k) (e + k) loc_Exact).
  pose proof (log2_bounds n Hn) as [Hlo Hhi].
  destruct (Z.le_gt_cases k 0) as [Hk0 | Hk0].
  - replace k with 0 by lia. rewrite rne_exact by exact (Z.mod_1_r n).
    change (2 ^ 0) with 1. rewrite Z.div_1_r.
    assert (n < 2 ^ 53).
    { apply Z.lt_le_trans with (2 ^ (Z.log2 n + 1)); [lia | apply Z.pow_le_mono_r; lia]. }
    apply renormalize; lia.
  - assert (Z.log2 n = 52 + k) as Hlog by lia. rewrite Hlog in Hlo, Hhi.
    assert (2 ^ 52 <= n / 2 ^ k < 2 ^ 53) as Hq.
    { rewrite Z.pow_add_r in Hlo by lia.
      replace (52 + k + 1) with (53 + k) in Hhi by lia. rewrite Z.pow_add_r in Hhi by lia.
      split; [apply Z.div_le_lower_bound | apply Z.div_lt_upper_bound]; pow2_pos; lia. }
    assert (n / 2 ^ k <= rne n k <= n / 2 ^ k + 1) by apply round_nearest_even_range.
    apply renormalize; lia.
Qed.

Lemma iter_xO m d : Zpos (Pos.iter xO m d) = Zpos m * 2 ^ Zpos d.
Proof.
  revert m. induction d as [| d IH] using Pos.peano_ind; intros m; [cbn; lia |].
  rewrite Pos.iter_succ, Pos2Z.inj_succ, Pos2Z.inj_xO, IH, Z.pow_succ_r by lia. ring.
Qed.

Lemma shl_align_spec m e e' :
  e' <= e -> exists m', shl_align m e e' = (m', e') /\ Zpos m' = Zpos m * 2 ^ (e - e').
Proof.
  intros H. unfold shl_align. destruct (e' - e) as [| d | d] eqn:E; [| lia |].
  - exists m. replace e' with e by lia. rewrite Z.sub_diag. split; [reflexivity | cbn; lia].
  - exists (Pos.iter xO m d). split; [reflexivity |]. rewrite iter_xO. do 2 f_equal. lia.
Qed.

Lemma round_spec sx m e :
  -1074 <= e ->
  encodes sx (rnd_pos (Zpos m * 2 ^ (e + unit_exp))) (binary_round prec emax sx m e).
Proof.
  intros He. unfold binary_round. rewrite fexp_eq, digits_log2.
  set (e' := Z.max (Z.log2 (Zpos m) + 1 + e - 53) (-1074)).
  destruct (Z.lt_ge_cases e' e) as [Hlt | Hge].
  - destruct (shl_align_spec m e e') as (m' & -> & Hm'); [lia |].
    replace (Zpos m * 2 ^ (e + unit_exp)) with (Zpos m' * 2 ^ (e' + unit_exp)).
    2: { rewrite Hm'. unfold unit_exp. rewrite <- Z.mul_assoc, <- Z.pow_add_r by lia.
         do 2 f_equal. lia. }
    apply round_aux_spec; [lia | lia |].
    destruct (Z.eq_dec e' (-1074)) as [? | Hne]; [now right | left].
    rewrite Hm'. apply Z.log2_le_pow2; [pow2_pos; nia |].
    rewrite Z.log2_mul_pow2 by lia. lia.
  - assert (shl_align m e e' = (m, e)) as ->.
    { unfold shl_align. destruct (e' - e) eqn:E; [reflexivity | reflexivity | lia]. }
    apply round_aux_spec; [lia | lia |].
    destruct (Z.eq_dec e (-1074)) as [? | Hne]; [now right | left].
    apply Z.log2_le_pow2; lia.
Qed.

(** Saturation at the infinities. *)
Definition sat (v : Z) : Z := Z.max (- huge) (Z.min v huge).

Lemma rnd_pos_nonneg n : 0 <= n -> 0 <= rnd_pos n.
Proof.
  intros H. unfold rnd_pos, excess. apply Z.mul_nonneg_nonneg; [| apply Z.pow_nonneg; lia].
  apply Z.le_trans with (n / 2 ^ Z.max (Z.log2 n + 1 - 53) 0).
  - apply Z.div_pos; [lia | apply Z.pow_pos_nonneg; lia].
  - apply round_nearest_even_range.
Qed.

Lemma encodes_key sx v f :
  0 <= v -> encodes sx v f ->
  valid f /\ is_nan f = false /\ key f = sat (cond_Zopp sx v).
Proof.
  assert (0 < huge) by reflexivity.
  intros Hv [(Hlt & m & e & -> & Hb & <-) | (Hge & ->)];
    (split; [auto; reflexivity | split; [reflexivity |]]);
    unfold sat; destruct sx; cbn [key fval cond_Zopp]; lia.
Qed.

Lemma normalize_spec m e :
  -1074 <= e ->
  let f := binary_normalize prec emax m e false in
  valid f /\ is_nan f = false /\ key f = sat (rnd (m * 2 ^ (e + unit_exp))).
Proof.
  intros He f. assert (0 < 2 ^ (e + unit_exp)) as Hp
    by (apply Z.pow_pos_nonneg; unfold unit_exp; lia).
  set (N := m * 2 ^ (e + unit_exp)).
  destruct m as [| m | m]; subst f; cbn [binary_normalize].
  - now repeat split.
  - assert (Z.sgn N = 1) as Hs by (apply Z.sgn_pos; subst N; nia).
    assert (Z.abs N = N) as Ha by (apply Z.abs_eq; subst N; nia).
    unfold rnd. rewrite Hs, Ha, Z.mul_1_l.
    apply (encodes_key false); [apply rnd_pos_nonneg; subst N; nia | now apply round_spec].
  - assert (Z.sgn N = -1) as Hs by (apply Z.sgn_neg; subst N; nia).
    assert (Z.abs N = Zpos m * 2 ^ (e + unit_exp)) as Ha
      by (subst N; rewrite Z.abs_mul, (Z.abs_eq (2 ^ _)) by lia; reflexivity).
    unfold rnd. rewrite Hs, Ha.
    set (R := rnd_pos _). replace (-1 * R) with (cond_Zopp true R) by (unfold cond_Zopp; lia).
    apply (encodes_key true); [apply rnd_pos_nonneg; nia | now apply round_spec].
Qed.

(** Exactness on representable values. *)
Definition representable (n : Z) : Prop :=
  exists m k, n = m * 2 ^ k /\ 0 <= k /\ Z.abs m <= 2 ^ 53.

Lemma rnd_pos_id n : 0 < n -> representable n -> rnd_pos n = n.
Proof.
  intros Hn (m & k & -> & Hk & Hm). pow2_pos.
  assert (0 < m) by nia. unfold rnd_pos.
  set (x := excess (m * 2 ^ k)).
  assert (x <= k \/ m = 2 ^ 53 /\ x = k + 1) as Hx.
  { subst x. unfold excess. rewrite Z.log2_mul_pow2 by lia.
    destruct (Z.eq_dec m (2 ^ 53)) as [-> | Hne].
    - rewrite Z.log2_pow2 by lia. lia.
    - assert (Z.log2 m < 53) by (apply Z.log2_lt_pow2; lia). lia. }
  assert (0 <= x) by (subst x; unfold excess; lia).
  assert (2 ^ x * (m * 2 ^ k / 2 ^ x) = m * 2 ^ k) as Hdiv.
  { symmetry. apply Z_div_exact_full_2; [pow2_pos; lia |].
    destruct Hx as [Hx | [-> ->]].
    - rewrite (pow_split x k) by lia.
      replace (m * (2 ^ x * 2 ^ (k - x))) with (m * 2 ^ (k - x) * 2 ^ x) by ring.
      apply Z_mod_mult.
    - rewrite <- Z.pow_add_r by lia. rewrite (pow_split (k + 1) (53 + k)) by lia.
      rewrite Z.mul_comm. apply Z_mod_mult. }
  rewrite rne_exact; [lia |]. rewrite <- Hdiv, Z.mul_comm. apply Z_mod_mult.
Qed.

Lemma rnd_id n : representable n -> rnd n = n.
Proof.
  intros Hr. unfold rnd. destruct (Z.eq_dec n 0) as [-> | Hn]; [reflexivity |].
  rewrite rnd_pos_id; [rewrite Z.mul_comm; apply Z.abs_sgn | lia |].
  destruct Hr as (m & k & -> & Hk & Hm). exists (Z.abs m), k.
  rewrite Z.abs_mul, (Z.abs_eq (2 ^ k)) by (apply Z.pow_nonneg; lia).
  rewrite Z.abs_idemp. auto.
Qed.

Lemma rne_mono a b k : 0 <= k -> a <= b -> rne a k <= rne b k.
Proof.
  intros Hk Hab. pow2_pos. unfold rne.
  pose proof (Z.div_mod a (2 ^ k) ltac:(lia)) as Ha.
  pose proof (Z.div_mod b (2 ^ k) ltac:(lia)) as Hb.
  pose proof (Z.mod_pos_bound a (2 ^ k) ltac:(lia)).
  pose proof (Z.mod_pos_bound b (2 ^ k) ltac:(lia)).
  assert (a / 2 ^ k <= b / 2 ^ k) as Hq by (apply Z.div_le_mono; lia).
  destruct (Z.eq_dec (a / 2 ^ k) (b / 2 ^ k)) as [Heq | Hne].
  - rewrite Heq in *. set (ra := a mod 2 ^ k) in *. set (rb := b mod 2 ^ k) in *.
    assert (ra <= rb) by lia. clearbody ra rb. set (q := b / 2 ^ k) in *. set (p := 2 ^ k) in *.
    clearbody q p. clear Ha Hb Heq Hq.
    destruct (Z.eqb_spec ra 0), (Z.eqb_spec rb 0); try lia; cbn [round_nearest_even];
      try (destruct (2 * rb ?= p); try destruct (Z.even q); lia).
    destruct (Z.compare_spec (2 * ra) p), (Z.compare_spec (2 * rb) p);
      try destruct (Z.even q); lia.
  - eapply Z.le_trans; [apply round_nearest_even_range |].
    eapply Z.le_trans; [| apply round_nearest_even_range]. lia.
Qed.

Lemma rne_pow2 j x : 0 <= x <= j -> rne (2 ^ j) x * 2 ^ x = 2 ^ j.
Proof.
  intros H. rewrite (pow_split x j), (Z.mul_comm (2 ^ x)) by lia.
  rewrite rne_exact by apply Z_mod_mult.
  rewrite Z.div_mul by (pow2_pos; lia). reflexivity.
Qed.

Lemma rnd_pos_bounds n :
  0 < n -> 2 ^ Z.log2 n <= rnd_pos n <= 2 ^ (Z.log2 n + 1).
Proof.
  intros Hn. pose proof (log2_bounds n Hn) as [Hlo Hhi]. unfold rnd_pos.
  set (x := excess n). assert (0 <= x) by (subst x; unfold excess; lia).
  assert (Z.log2 n < 53 + x) by (subst x; unfold excess; lia).
  pose proof (Z.log2_nonneg n).
  assert (x = 0 \/ x <= Z.log2 n) as Hx by (subst x; unfold excess; lia).
  destruct Hx as [-> | Hx].
  - rewrite rne_exact by exact (Z.mod_1_r n). change (2 ^ 0) with 1.
    rewrite Z.div_1_r, Z.mul_1_r. lia.
  - assert (rne (2 ^ Z.log2 n) x <= rne n x <= rne (2 ^ (Z.log2 n + 1)) x) as [Hl Hh]
      by (split; apply rne_mono; lia).
    pose proof (rne_pow2 (Z.log2 n) x ltac:(lia)) as E1.
    pose proof (rne_pow2 (Z.log2 n + 1) x ltac:(lia)) as E2.
    rewrite <- E1, <- E2. assert (0 < 2 ^ x) by (apply Z.pow_pos_nonneg; lia).
    split; apply Z.mul_le_mono_nonneg_r; lia.
Qed.

Lemma rnd_pos_mono a b : 0 <= a -> a <= b -> rnd_pos a <= rnd_pos b.
Proof.
  intros Ha Hab. destruct (Z.eq_dec a 0) as [-> | ?]; [apply (rnd_pos_nonneg b); lia |].
  assert (Z.log2 a <= Z.log2 b) as Hl by (apply Z.log2_le_mono; lia).
  destruct (Z.eq_dec (Z.log2 a) (Z.log2 b)) as [Heq | Hne].
  - unfold rnd_pos, excess. rewrite Heq. pow2_pos.
    apply Z.mul_le_mono_nonneg_r; [lia | apply rne_mono; lia].
  - transitivity (2 ^ (Z.log2 a + 1)); [apply rnd_pos_bounds; lia |].
    transitivity (2 ^ Z.log2 b); [apply Z.pow_le_mono_r; lia | apply rnd_pos_bounds; lia].
Qed.

Lemma rnd_mono a b : a <= b -> rnd a <= rnd b.
Proof.
  intros Hab. unfold rnd.
  destruct (Z.le_gt_cases 0 a), (Z.le_gt_cases 0 b); try lia.
  - destruct (Z.eq_dec a 0) as [-> | ?].
    + cbn [Z.sgn Z.mul]. apply Z.mul_nonneg_nonneg; [lia | apply rnd_pos_nonneg; lia].
    + rewrite !Z.sgn_pos, !Z.abs_eq by lia. pose proof (rnd_pos_mono a b). lia.
  - pose proof (rnd_pos_nonneg (Z.abs a) ltac:(lia)).
    pose proof (rnd_pos_nonneg (Z.abs b) ltac:(lia)). rewrite (Z.sgn_neg a) by lia.
    assert (0 <= Z.sgn b) by lia. nia.
  - rewrite !Z.sgn_neg by lia. pose proof (rnd_pos_mono (Z.abs b) (Z.abs a)). lia.
Qed.

(** ** Arithmetic and order through keys *)

Lemma fval_bounds x : valid x -> - huge < fval x < huge.
Proof.
  assert (0 < huge) by reflexivity. unfold valid.
  destruct x as [| | | s m e]; cbn [fval valid_binary]; try lia.
  intros H0. pose proof (val_lt_huge m e H0). destruct s; cbn [cond_Zopp]; lia.
Qed.

Lemma fval_representable x : valid x -> representable (fval x).
Proof.
  unfold valid. destruct x as [| | | s m e]; cbn [fval valid_binary];
    try (intros _; exists 0, 0; lia).
  intros (He & Hm & _)%bounded_inv. exists (cond_Zopp s (Zpos m)), (e + unit_exp).
  unfold unit_exp. destruct s; cbn [cond_Zopp]; split; lia.
Qed.

Lemma sat_id v : - huge < v < huge -> sat v = v.
Proof. unfold sat. lia. Qed.

Lemma key_finite x : finite x -> key x = fval x /\ is_nan x = false.
Proof. now destruct x. Qed.

Definition rounds_to (v : Z) (f : f64) : Prop :=
  valid f /\ is_nan f = false /\ key f = sat (rnd v).

Lemma rounds_to_self x : valid x -> finite x -> rounds_to (fval x) x.
Proof.
  intros Hv Hf. unfold rounds_to. destruct (key_finite x Hf) as [-> Hn].
  split; [auto | split; [auto |]].
  rewrite rnd_id by now apply fval_representable. symmetry.
  now apply sat_id, fval_bounds.
Qed.

(** The exact sum that the machine addition computes before rounding. *)
Lemma aligned_sum sx mx ex sy my ey :
  -1074 <= ex -> -1074 <= ey ->
  (cond_Zopp sx (Zpos (fst (shl_align mx ex (Z.min ex ey)))) +
   cond_Zopp sy (Zpos (fst (shl_align my ey (Z.min ex ey))))) * 2 ^ (Z.min ex ey + unit_exp)
  = fval (S754_finite sx mx ex) + fval (S754_finite sy my ey).
Proof.
  intros Hx Hy.
  destruct (shl_align_spec mx ex (Z.min ex ey)) as (mx' & -> & Hmx); [lia |].
  destruct (shl_align_spec my ey (Z.min ex ey)) as (my' & -> & Hmy); [lia |].
  cbn [fst fval]. rewrite Hmx, Hmy. unfold unit_exp in *.
  replace (2 ^ (ex + 1074)) with (2 ^ (ex - Z.min ex ey) * 2 ^ (Z.min ex ey + 1074))
    by (rewrite <- Z.pow_add_r by lia; f_equal; lia).
  replace (2 ^ (ey + 1074)) with (2 ^ (ey - Z.min ex ey) * 2 ^ (Z.min ex ey + 1074))
    by (rewrite <- Z.pow_add_r by lia; f_equal; lia).
  destruct sx, sy; cbn [cond_Zopp]; ring.
Qed.

Lemma valid_finite_exp s m e : valid (S754_finite s m e) -> -1074 <= e.
Proof. unfold valid. cbn [valid_binary]. intros H%bounded_inv. lia. Qed.

Lemma add_spec x y :
  valid x -> valid y -> finite x -> finite y -> rounds_to (fval x + fval y) (fadd x y).
Proof.
  intros Vx Vy Fx Fy.
  destruct x as [sx | | | sx mx ex]; try contradiction;
  destruct y as [sy | | | sy my ey]; try contradiction; unfold fadd; cbn [SFadd].
  - destruct sx, sy; now repeat split.
  - apply (rounds_to_self (S754_finite sy my ey)); auto.
  - rewrite Z.add_0_r. apply (rounds_to_self (S754_finite sx mx ex)); auto.
  - apply valid_finite_exp in Vx, Vy. unfold rounds_to.
    rewrite <- aligned_sum by assumption. apply normalize_spec. lia.
Qed.

Lemma fsub_fadd_opp x y : finite x -> finite y -> valid y ->
  fsub x y = fadd x (SFopp y) \/ fval x = 0 /\ fval y = 0 /\ exists s, fsub x y = S754_zero s.
Proof.
  destruct x as [sx | | | sx mx ex]; try contradiction;
  destruct y as [sy | | | sy my ey]; try contradiction; intros _ _ _;
    unfold fsub, fadd; cbn [SFsub SFadd SFopp].
  - right. destruct sx, sy; eauto.
  - now left.
  - now left.
  - left. f_equal. destruct sx, sy; cbn [cond_Zopp negb]; lia.
Qed.

Lemma opp_valid x : valid x -> valid (SFopp x).
Proof. now destruct x. Qed.
Lemma opp_finite x : finite x -> finite (SFopp x).
Proof. now destruct x. Qed.
Lemma opp_fval x : fval (SFopp x) = - fval x.
Proof. destruct x as [| | | [] m e]; cbn [SFopp fval cond_Zopp negb]; lia. Qed.

Lemma sub_spec x y :
  valid x -> valid y -> finite x -> finite y -> rounds_to (fval x - fval y) (fsub x y).
Proof.
  intros Vx Vy Fx Fy.
  destruct (fsub_fadd_opp x y Fx Fy Vy) as [-> | (Hx & Hy & s & ->)].
  - unfold Z.sub. rewrite <- opp_fval.
    apply add_spec; auto using opp_valid, opp_finite.
  - rewrite Hx, Hy. now repeat split.
Qed.

Lemma fle_key x y :
  valid x -> valid y -> is_nan x = false -> is_nan y = false ->
  (fle x y = true <-> key x <= key y).
Proof.
  intros. unfold fle, SFleb. rewrite cmp_key by assumption.
  destruct (Z.compare_spec (key x) (key y)); split; intros; try lia; discriminate.
Qed.

Lemma flt_key x y :
  valid x -> valid y -> is_nan x = false -> is_nan y = false ->
  (flt x y = true <-> key x < key y).
Proof.
  intros. unfold flt, SFltb. rewrite cmp_key by assumption.
  destruct (Z.compare_spec (key x) (key y)); split; intros; try lia; discriminate.
Qed.

Lemma fle_not_nan x y : fle x y = true -> is_nan x = false /\ is_nan y = false.
Proof. unfold fle, SFleb. destruct x, y; cbn; auto; discriminate. Qed.

Lemma flt_not_nan x y : flt x y = true -> is_nan x = false /\ is_nan y = false.
Proof. unfold flt, SFltb. destruct x, y; cbn; auto; discriminate. Qed.

(** For numbers, [!(x > y)] is [x <= y]. *)
Lemma not_flt_fle x y :
  valid x -> valid y -> is_nan x = false -> is_nan y = false ->
  flt y x = false -> fle x y = true.
Proof.
  intros Vx Vy Nx Ny H. apply fle_key; auto. apply Z.nlt_ge. intros Hlt.
  apply (proj2 (flt_key y x Vy Vx Ny Nx)) in Hlt. congruence.
Qed.

Lemma nonneg_key x : valid x -> is_nan x = false -> (nonneg x <-> 0 <= key x).
Proof. intros. unfold nonneg. rewrite fle_key by (auto; reflexivity). reflexivity. Qed.

(** Subtracting a smaller number leaves a non-negative one, rounding included. *)
Lemma sub_nonneg x y :
  valid x -> valid y -> finite y -> fle y x = true -> nonneg (fsub x y).
Proof.
  intros Vx Vy Fy Hle. destruct (fle_not_nan _ _ Hle) as [Ny Nx].
  apply fle_key in Hle; auto. destruct (key_finite y Fy) as [Ky _]. rewrite Ky in Hle.
  pose proof (fval_bounds y Vy). assert (0 < huge) by reflexivity.
  destruct x as [sx | sx | | sx mx ex]; try discriminate.
  2: { destruct sx; cbn [key cond_Zopp] in Hle; [lia |].
       now destruct y as [| | | ? ? ?]; try contradiction. }
  all: match goal with Vx : valid ?x, Vy : valid ?y, Fy : finite ?y |- nonneg (fsub ?x ?y) =>
         destruct (sub_spec x y Vx Vy I Fy) as (V & N & K);
         assert (rnd 0 <= rnd (fval x - fval y)) by (apply rnd_mono; cbn [key] in Hle; lia)
       end.
  all: apply nonneg_key; auto; rewrite K; change (rnd 0) with 0 in *; unfold sat; lia.
Qed.

(** ** Integers *)

(** [int_ok n]: [n] is an integer that [float64] holds exactly. *)
Definition int_ok (n : Z) : Prop := Z.abs n <= 2 ^ 53.

Lemma int_representable n : int_ok n -> representable (n * 2 ^ unit_exp).
Proof. exists n, unit_exp. unfold unit_exp, int_ok in *. repeat split; lia. Qed.

Lemma of_Z_spec n :
  int_ok n -> valid (of_Z n) /\ finite (of_Z n) /\ fval (of_Z n) = n * 2 ^ unit_exp.
Proof.
  intros Hn. destruct (normalize_spec n 0 ltac:(lia)) as (V & N & K).
  fold (of_Z n) in *. change (0 + unit_exp) with unit_exp in K.
  rewrite rnd_id in K by now apply int_representable.
  assert (- huge < n * 2 ^ unit_exp < huge) as Hb.
  { unfold int_ok, huge, unit_exp, emax in *.
    assert (2 ^ (1024 + 1074) = 2 ^ 1024 * 2 ^ 1074) as -> by reflexivity.
    assert (0 < 2 ^ 1074) by reflexivity. assert (2 ^ 53 < 2 ^ 1024) by reflexivity. nia. }
  rewrite sat_id in K by assumption.
  destruct (of_Z n) as [| s | |]; try discriminate; cbn [key fval finite] in *; auto.
  destruct s; cbn [cond_Zopp] in K; lia.
Qed.

(** A non-zero number is determined by its key. *)
Lemma key_inj x y :
  valid x -> valid y -> is_nan x = false -> is_nan y = false ->
  key x = key y -> key x <> 0 -> x = y.
Proof.
  intros Vx Vy Nx Ny Heq Hnz. pose proof (cmp_key x y Vx Vy Nx Ny) as Hc.
  apply Z.compare_eq_iff in Heq. rewrite Heq in Hc.
  destruct x as [? | sx | | sx mx ex], y as [? | sy | | sy my ey];
    try discriminate; try (exfalso; now apply Hnz); cbn [SFcompare] in Hc;
    try (destruct sx; discriminate); try (destruct sy; discriminate).
  - destruct sx, sy; try discriminate; reflexivity.
  - destruct sx, sy; try discriminate; injection Hc as Hc;
      destruct (Z.compare_spec ex ey) as [-> | |]; try discriminate; do 2 f_equal.
    + destruct (Pos.compare_spec mx my) as [-> | H | H]; [reflexivity | |];
        [apply Pos.compare_lt_iff in H | apply Pos.compare_gt_iff in H];
        unfold Pos.compare in H; rewrite H in Hc; discriminate.
    + now apply Pos.compare_eq.
Qed.

Lemma add_cancel x y :
  valid x -> valid y -> finite x -> finite y -> fval x <> 0 -> fval x + fval y = 0 ->
  fadd x y = fzero.
Proof.
  intros Vx Vy Fx Fy Hnz Hs.
  destruct x as [? | | | sx mx ex]; try contradiction.
  destruct y as [? | | | sy my ey]; try contradiction; [cbn [fval] in *; lia |].
  unfold fadd. cbn [SFadd]. apply valid_finite_exp in Vx, Vy.
  rewrite <- aligned_sum in Hs by assumption.
  assert (0 < 2 ^ (Z.min ex ey + unit_exp)) by (apply Z.pow_pos_nonneg; unfold unit_exp; lia).
  apply Z.mul_eq_0_l in Hs; [| lia]. rewrite Hs. reflexivity.
Qed.

Lemma rounds_to_int v f :
  rounds_to (v * 2 ^ unit_exp) f -> int_ok v -> v <> 0 -> f = of_Z v.
Proof.
  intros (V & N & K) Hv Hnz. destruct (of_Z_spec v Hv) as (V' & F' & K').
  destruct (key_finite _ F') as [Kf Nf].
  rewrite rnd_id in K by now apply int_representable.
  pose proof (fval_bounds _ V') as Hb. rewrite K' in *. rewrite sat_id in K by assumption.
  assert (0 < 2 ^ unit_exp) by reflexivity.
  apply key_inj; auto; rewrite ?K, ?Kf; [reflexivity | nia].
Qed.

Lemma add_of_Z a b :
  int_ok a -> int_ok b -> int_ok (a + b) -> fadd (of_Z a) (of_Z b) = of_Z (a + b).
Proof.
  intros Ha Hb Hab. destruct (of_Z_spec a Ha) as (Va & Fa & Ka).
  destruct (of_Z_spec b Hb) as (Vb & Fb & Kb).
  destruct (Z.eq_dec (a + b) 0) as [H0 | Hnz].
  - destruct (Z.eq_dec a 0) as [-> | Ha0]; [now replace b with 0 by lia |].
    rewrite H0. change (of_Z 0) with fzero.
    assert (0 < 2 ^ unit_exp) by reflexivity.
    apply add_cancel; auto; rewrite ?Ka, ?Kb; [nia |].
    replace (a * 2 ^ unit_exp + b * 2 ^ unit_exp) with ((a + b) * 2 ^ unit_exp) by ring.
    now rewrite H0.
  - apply rounds_to_int; auto. rewrite Z.mul_add_distr_r, <- Ka, <- Kb.
    now apply add_spec.
Qed.

Lemma sub_cancel x y :
  valid x -> valid y -> finite x -> finite y -> fval x <> 0 -> fval x = fval y ->
  fsub x y = fzero.
Proof.
  intros Vx Vy Fx Fy Hnz Hs.
  destruct (fsub_fadd_opp x y Fx Fy Vy) as [-> | (Hx & _)]; [| contradiction].
  apply add_cancel; auto using opp_valid, opp_finite. rewrite opp_fval. lia.
Qed.

Lemma sub_of_Z a b :
  int_ok a -> int_ok b -> int_ok (a - b) -> fsub (of_Z a) (of_Z b) = of_Z (a - b).
Proof.
  intros Ha Hb Hab. destruct (of_Z_spec a Ha) as (Va & Fa & Ka).
  destruct (of_Z_spec b Hb) as (Vb & Fb & Kb).
  destruct (Z.eq_dec (a - b) 0) as [H0 | Hnz].
  - replace b with a in * by lia.
    destruct (Z.eq_dec a 0) as [-> | Ha0]; [reflexivity |].
    rewrite H0. change (of_Z 0) with fzero.
    assert (0 < 2 ^ unit_exp) by reflexivity.
    apply sub_cancel; auto; rewrite Ka; nia.
  - apply rounds_to_int; auto. rewrite Z.mul_sub_distr_r, <- Ka, <- Kb.
    now apply sub_spec.
Qed.

Lemma of_Z_inj a b : int_ok a -> int_ok b -> of_Z a = of_Z b -> a = b.
Proof.
  intros Ha Hb E. destruct (of_Z_spec a Ha) as (_ & _ & Ka).
  destruct (of_Z_spec b Hb) as (_ & _ & Kb). rewrite E, Kb in Ka.
  assert (0 < 2 ^ unit_exp) by reflexivity. nia.
Qed.

Lemma fle_of_Z a b : int_ok a -> int_ok b -> fle (of_Z a) (of_Z b) = (a <=? b).
Proof.
  intros Ha Hb. destruct (of_Z_spec a Ha) as (Va & Fa & Ka).
  destruct (of_Z_spec b Hb) as (Vb & Fb & Kb).
  destruct (key_finite _ Fa) as [Kfa Na], (key_finite _ Fb) as [Kfb Nb].
  assert (0 < 2 ^ unit_exp) by reflexivity.
  apply eq_true_iff_eq. rewrite fle_key, Z.leb_le, Kfa, Kfb, Ka, Kb by assumption.
  split; nia.
Qed.

Lemma flt_of_Z a b : int_ok a -> int_ok b -> flt (of_Z a) (of_Z b) = (a <? b).
Proof.
  intros Ha Hb. destruct (of_Z_spec a Ha) as (Va & Fa & Ka).
  destruct (of_Z_spec b Hb) as (Vb & Fb & Kb).
  destruct (key_finite _ Fa) as [Kfa Na], (key_finite _ Fb) as [Kfb Nb].
  assert (0 < 2 ^ unit_exp) by reflexivity.
  apply eq_true_iff_eq. rewrite flt_key, Z.ltb_lt, Kfa, Kfb, Ka, Kb by assumption.
  split; nia.
Qed.

(** Go's [==]: equal numbers, and NaN equals nothing. *)
Lemma feq_of_Z a b : int_ok a -> int_ok b -> feq (of_Z a) (of_Z b) = (a =? b).
Proof.
  intros Ha Hb. destruct (of_Z_spec a Ha) as (Va & Fa & Ka).
  destruct (of_Z_spec b Hb) as (Vb & Fb & Kb).
  destruct (key_finite _ Fa) as [Kfa Na], (key_finite _ Fb) as [Kfb Nb].
  assert (0 < 2 ^ unit_exp) by reflexivity.
  unfold feq, SFeqb. rewrite cmp_key, Kfa, Kfb, Ka, Kb by assumption.
  rewrite !(Z.mul_comm _ (2 ^ unit_exp)).
  rewrite <- (Zmult_compare_compat_l a b (2 ^ unit_exp)) by lia.
  destruct (Z.compare_spec a b) as [-> | |]; symmetry;
    [apply Z.eqb_refl | apply Z.eqb_neq; lia | apply Z.eqb_neq; lia].
Qed.

(** ** Bandwidths: finite, not negative *)

Definition good (x : f64) : Prop := valid x /\ finite x /\ nonneg x.

Lemma good_key x : good x -> valid x /\ is_nan x = false /\ 0 <= key x < huge.
Proof.
  intros (V & F & N). destruct (key_finite x F) as [K Hn].
  apply nonneg_key in N; auto. rewrite K in N |- *. pose proof (fval_bounds x V).
  repeat split; auto; lia.
Qed.

Lemma key_good x : valid x -> is_nan x = false -> 0 <= key x < huge -> good x.
Proof.
  intros V Hn K. split; [auto | split].
  - assert (0 < huge) by reflexivity. destruct x as [| s | |]; try exact I; try discriminate Hn.
    unfold key, cond_Zopp in K. destruct s; lia.
  - apply nonneg_key; auto; lia.
Qed.

Lemma good_of_Z n : 0 <= n <= 2 ^ 53 -> good (of_Z n).
Proof.
  intros Hn. assert (Ho : int_ok n) by (unfold int_ok; lia).
  destruct (of_Z_spec n Ho) as (V & F & K). destruct (key_finite _ F) as [Kf Nf].
  split; [auto | split; [auto |]]. apply nonneg_key; auto. rewrite Kf, K.
  assert (0 < 2 ^ unit_exp) by reflexivity. nia.
Qed.

Lemma add_good x y :
  good x -> good y -> valid (fadd x y) /\ is_nan (fadd x y) = false /\ 0 <= key (fadd x y).
Proof.
  intros Gx Gy. pose proof Gx as (Vx & Fx & Nx). pose proof Gy as (Vy & Fy & Ny).
  destruct (add_spec x y Vx Vy Fx Fy) as (V & N & K). split; [auto | split; [auto |]].
  apply good_key in Gx as (_ & _ & Kx). apply good_key in Gy as (_ & _ & Ky).
  destruct (key_finite x Fx) as [Ex _], (key_finite y Fy) as [Ey _]. rewrite Ex in Kx.
  rewrite Ey in Ky. rewrite K. unfold sat.
  assert (0 <= rnd (fval x + fval y)) by (apply (rnd_mono 0); lia).
  assert (0 < huge) by reflexivity. lia.
Qed.

(** Taking what fits leaves a bandwidth, rounding included; the amount taken
    may be a sum that overflowed, which then does not fit. *)
Lemma sub_good x y :
  good x -> valid y -> is_nan y = false -> 0 <= key y -> flt x y = false -> good (fsub x y).
Proof.
  intros Gx Vy Ny Ky Hlt. pose proof Gx as (Vx & Fx & _).
  apply good_key in Gx as (_ & Nx & Kx).
  pose proof (not_flt_fle y x Vy Vx Ny Nx Hlt) as Hle. apply fle_key in Hle; auto.
  pose proof (key_good y Vy Ny ltac:(lia)) as (_ & Fy & _).
  destruct (sub_spec x y Vx Vy Fx Fy) as (V & N & K).
  destruct (key_finite x Fx) as [Ex _], (key_finite y Fy) as [Ey _].
  apply key_good; auto. rewrite K.
  assert (0 <= rnd (fval x - fval y)) by (apply (rnd_mono 0); lia).
  assert (rnd (fval x - fval y) <= fval x).
  { rewrite <- (rnd_id (fval x)) at 2 by now apply fval_representable. apply rnd_mono. lia. }
  unfold sat. lia.
Qed.

Lemma le_good x y :
  good y -> valid x -> is_nan x = false -> 0 <= key x -> fle x y = true -> good x.
Proof.
  intros Gy V N K Hle. apply good_key in Gy as (Vy & Ny & Ky).
  apply fle_key in Hle; auto. apply key_good; auto; lia.
Qed.

(** ** Products *)

(** Rounding below the smallest exponent: zero, or a float of that sign. *)
Lemma round_aux_tiny sx n e :
  0 < n -> e < -1074 ->
  let f := binary_round_aux prec emax sx n e loc_Exact in
  f = S754_zero sx \/ exists v, 0 <= v /\ encodes sx v f.
Proof.
  intros Hn He f. subst f. unfold binary_round_aux, shr_fexp.
  rewrite fexp_eq, Zdigits_log2 by lia.
  set (k := Z.max (Z.log2 n + 1 + e - 53) (-1074) - e).
  destruct (shr_shifted n e k) as (mrs & -> & Hm & Hl); [lia | lia |].
  rewrite Hm, Hl. fold (rne n k).
  change (shr (shr_record_of_loc (rne n k) loc_Exact) (e + k)
    (fexp prec emax (Zdigits2 (rne n k) + (e + k)) - (e + k)))
    with (shr_fexp prec emax (rne n k) (e + k) loc_Exact).
  pose proof (log2_bounds n Hn) as [Hlo Hhi].
  assert (Hr : n / 2 ^ k <= rne n k <= n / 2 ^ k + 1) by apply round_nearest_even_range.
  assert (Hq : 0 <= n / 2 ^ k < 2 ^ 53).
  { split; [apply Z.div_pos; pow2_pos; lia |]. apply Z.div_lt_upper_bound; [pow2_pos; lia |].
    rewrite <- Z.pow_add_r by lia. apply Z.lt_le_trans with (1 := Hhi).
    apply Z.pow_le_mono_r; lia. }
  assert (Hn' : 2 ^ 52 <= n / 2 ^ k \/ e + k = -1074).
  { destruct (Z.le_gt_cases (Z.log2 n + 1 + e - 53) (-1074)); [right; lia | left].
    apply Z.div_le_lower_bound; [pow2_pos; lia |]. rewrite <- Z.pow_add_r by lia.
    apply Z.le_trans with (2 := Hlo). apply Z.pow_le_mono_r; lia. }
  destruct (Z.eq_dec (rne n k) 0) as [Hz | Hz].
  - left. rewrite Hz. destruct Hn' as [Hn' | ->]; [lia | reflexivity].
  - right. exists (rne n k * 2 ^ (e + k + unit_exp)).
    split; [apply Z.mul_nonneg_nonneg; [lia | apply Z.pow_nonneg; lia] |].
    destruct (Z.eq_dec (rne n k) (2 ^ 53)); apply renormalize; lia.
Qed.

(** The product of two bandwidths is a number, not negative, or overflows. *)
Lemma mul_good x y :
  good x -> good y -> valid (fmul x y) /\ is_nan (fmul x y) = false /\ 0 <= key (fmul x y).
Proof.
  intros (Vx & Fx & Nx) (Vy & Fy & Ny).
  destruct x as [sx | | | sx mx ex]; try contradiction;
    destruct y as [sy | | | sy my ey]; try contradiction; try (repeat split; easy).
  assert (sx = false) as -> by (destruct sx; [discriminate Nx | reflexivity]).
  assert (sy = false) as -> by (destruct sy; [discriminate Ny | reflexivity]).
  pose proof (bounded_inv mx ex Vx). pose proof (bounded_inv my ey Vy).
  unfold fmul. cbn [SFmul xorb].
  assert (Hr : binary_round_aux prec emax false (Zpos (mx * my)) (ex + ey) loc_Exact
               = S754_zero false
               \/ exists v, 0 <= v /\ encodes false v
                    (binary_round_aux prec emax false (Zpos (mx * my)) (ex + ey) loc_Exact)).
  { destruct (Z.lt_ge_cases (ex + ey) (-1074)) as [Hlt | Hge]; [now apply round_aux_tiny |].
    right. eexists. split; [| apply round_aux_spec; [lia | lia |]].
    - apply rnd_pos_nonneg. apply Z.mul_nonneg_nonneg; [lia | apply Z.pow_nonneg; lia].
    - left. nia. }
  destruct Hr as [-> | (v & Hv & He)]; [repeat split; easy |].
  apply encodes_key in He as (V & N & K); [| exact Hv]. split; [exact V | split; [exact N |]].
  rewrite K. unfold sat. cbn [cond_Zopp]. assert (0 < huge) by reflexivity. lia.
Qed.

(** ** Order, on any floats *)

Lemma compare_antisym x y :
  SFcompare y x = match SFcompare x y with Some c => Some (CompOpp c) | None => None end.
Proof.
  destruct x as [sx | sx | | sx mx ex], y as [sy | sy | | sy my ey];
    try destruct sx; try destruct sy; try reflexivity; cbn [SFcompare];
    rewrite (Z.compare_antisym ex ey); destruct (Z.compare ex ey); try reflexivity; cbn [CompOpp];
    change (Pos.compare_cont Eq my mx) with (Pos.compare my mx);
    change (Pos.compare_cont Eq mx my) with (Pos.compare mx my);
    rewrite (Pos.compare_antisym mx my); destruct (Pos.compare mx my); reflexivity.
Qed.

Lemma flt_asym x y : flt x y = true -> flt y x = false.
Proof.
  unfold flt, SFltb. rewrite (compare_antisym x y).
  destruct (SFcompare x y) as [[] |]; cbn; congruence.
Qed.

Lemma flt_irrefl x : flt x x = false.
Proof. destruct (flt x x) eqn:E; [| reflexivity]. rewrite (flt_asym _ _ E) in E. discriminate. Qed.

Lemma fle_not_flt x y : fle x y = true -> flt y x = false.
Proof.
  unfold fle, flt, SFleb, SFltb. rewrite (compare_antisym x y).
  destruct (SFcompare x y) as [[] |]; cbn; congruence.
Qed.

(** The larger of two numbers is below neither. *)
Lemma fmax_ge x y : flt (fmax x y) x = false /\ flt (fmax x y) y = false.
Proof.
  assert (Hinf : forall z, flt (S754_infinity false) z = false) by (intros [[] | [] | | [] ? ?]; reflexivity).
  assert (Hnan : forall z, flt S754_nan z = false) by (intros [[] | [] | | [] ? ?]; reflexivity).
  assert (Hsel : flt (if flt y x then x else y) x = false /\ flt (if flt y x then x else y) y = false).
  { destruct (flt y x) eqn:E; split; auto using flt_irrefl, flt_asym. }
  unfold fmax. destruct (is_inf x false || is_inf y false); [split; apply Hinf |].
  destruct (is_nan x || is_nan y); [split; apply Hnan |].
  destruct x as [[] | | |], y as [[] | | |]; try exact Hsel; split; reflexivity.
Qed.

(** Integers of up to 53 bits survive the conversion to float64 and back. *)
Lemma to_int64_of_Z n : int_ok n -> to_int64 (of_Z n) = n.
Proof.
  intros Hn. destruct (of_Z_spec n Hn) as (Hv & Hf & E).
  assert (Ht : ftrunc (of_Z n) = n).
  { pose proof Hv as Hv'. unfold fval, unit_exp in E. destruct (of_Z n) as [s | s | | s m e] eqn:Eo;
      try contradiction; cbn [ftrunc cond_Zopp] in E |- *.
    - lia.
    - apply valid_finite_exp in Hv'. destruct (Z.leb_spec 0 e) as [He | He].
      + assert (Ep : 2 ^ (e + 1074) = 2 ^ e * 2 ^ 1074) by (rewrite Z.pow_add_r; lia).
        rewrite Ep in E. assert (0 < 2 ^ 1074) by (apply Z.pow_pos_nonneg; lia).
        destruct s; cbn [cond_Zopp] in E |- *; nia.
      + assert (Ep : 2 ^ 1074 = 2 ^ (e + 1074) * 2 ^ (- e)) by (rewrite <- Z.pow_add_r; [f_equal |..]; lia).
        rewrite Ep in E. assert (0 < 2 ^ (e + 1074)) by (apply Z.pow_pos_nonneg; lia).
        assert (0 < 2 ^ (- e)) by (apply Z.pow_pos_nonneg; lia).
        destruct s; cbn [cond_Zopp] in E |- *.
        * replace (Zpos m) with ((- n) * 2 ^ (- e)) by nia. rewrite Z.div_mul by lia. lia.
        * replace (Zpos m) with (n * 2 ^ (- e)) by nia. rewrite Z.div_mul by lia. lia. }
  unfold to_int64. rewrite Ht. unfold in_int64, min_int64, max_int64. unfold int_ok in Hn.
  destruct (of_Z n); try contradiction; destruct (Z.leb_spec (- 2 ^ 63) n), (Z.leb_spec n (2 ^ 63 - 1)); simpl; lia.
Qed.
