(* ===== verification/Types.v ===== *)
(** * Data of the scheduler

    The messages of pkg/api/aggregator, the custom resources of api/ioi/v1,
    the records and constants of pkg/utils.go, the cached records of the four
    resource plugins, the Kubernetes objects they read, and the interfaces to
    the code outside the repository (quantities, JSON, the API server), which
    are classes: every definition and theorem is for an arbitrary instance. *)

From S2P Require Export Prelude Float64.

(** ** pkg/utils.go: constants *)

Definition GaIndex : Z := 0.
Definition BtIndex : Z := 1.
Definition BeIndex : Z := 2.
Definition GroupIndex : Z := 3.

Definition BlockIOConfigAnno : string := "blockio.kubernetes.io/resources".
Definition NetworkIOConfigAnno : string := "networkio.kubernetes.io/resources".
Definition RDTConfigAnno : string := "rdt.resources.beta.kubernetes.io/pod".
Definition RDTQuantityConfigAnno : string := "rdt.quantity.resources.beta.kubernetes.io/resources".
Definition AllocatedIOAnno : string := "ioi.intel.com/allocated-io".
Definition IoiNamespace : string := "ioi-system".
Definition KubesystemNamespace : string := "kube-system".
Definition StorageProvisioner : string := "localstorage.csi.k8s.io".
Definition DeviceIDConfigMap : string := "volume-device-map".
Definition DeviceInUse : string := "DeviceInUse".
Definition AdminName : string := "admin-configmap".
Definition MB : f64 := of_Z (1000 * 1000).
Definition MiB : f64 := of_Z (1024 * 1024).
Definition MAX_BT_LIMIT : f64 := of_Z (2 ^ 20).

Record IOPoolStatus := mkPool {
  ps_Total : f64; ps_In : f64; ps_Out : f64; ps_UnderPressure : bool; ps_Num : Z
}.
Definition pool_zero : IOPoolStatus := mkPool fzero fzero fzero false 0.

Record PVCInfo := mkPVCInfo { DevID : string; ReqStorage : Z; Reuse : bool }.

(** ** pkg/api/aggregator *)

Inductive IOType := IOType_All | IOType_DiskIO | IOType_NetworkIO | IOType_RDT | IOType_RDTQuantity.
#[global] Instance IOType_eq_dec : EqDecision IOType.
Proof. solve_decision. Defined.

Record Quantity := mkQuantity { Inbps : f64; Outbps : f64; Iniops : f64; Outiops : f64 }.
Definition quantity_zero : Quantity := mkQuantity fzero fzero fzero fzero.

Record DeviceRequirement := mkDevReq {
  DevName : string;
  dr_Request : option Quantity;
  dr_Limit : option Quantity;
  dr_RawRequest : option Quantity;
  dr_RawLimit : option Quantity
}.
Record IOResourceRequest := mkIOReq {
  IoType : IOType; WorkloadType : Z; DevRequest : option DeviceRequirement
}.
Record PodRequest := mkPodRequest {
  PodName : string; PodNamespace : string; pr_Request : list IOResourceRequest
}.
Record PodList := mkPodList { Generation : Z; pl_PodList : gmap string PodRequest }.

(** utils.IOResourceRequest: a request with the storage it asks for. *)
Record StorageIORequest := mkStorageIO { IORequest : IOResourceRequest; StorageRequest : Z }.

(** ** api/ioi/v1 *)

Definition DefaultDevice : string := "default".
Definition WorkloadGA : string := "GA".
Definition WorkloadBE : string := "BE".

Record Device := mkDevice {
  dev_Name : string; dev_Type : string;
  DefaultIn : f64; DefaultOut : f64;
  dev_ReadRatio : gmap string f64; dev_WriteRatio : gmap string f64;
  CapacityIn : f64; CapacityOut : f64; CapacityTotal : f64;
  DiskSize : string; dev_MountPath : string
}.
(** The zero value, which indexing a map with an absent key gives. *)
Definition device_zero : Device :=
  mkDevice "" "" fzero fzero ∅ ∅ fzero fzero fzero "" "".

Record ResourceConfigSpec := mkRC {
  BEPool : Z; GAPool : Z; BTPool : Z; Devices : gmap string Device; Classes : list string
}.

(** NotEnabled -> Profiling -> Ready *)
Record DeviceState := mkDeviceState { ds_Name : string; ds_State : string; ds_Reason : string }.
Record NodeStaticIOInfo := mkNSI {
  nsi_NodeName : string; ResourceConfig : gmap string ResourceConfigSpec; EndPoint : string;
  DeviceStates : gmap string DeviceState
}.

Record SpecPodRequest := mkSpecPod { sp_Name : string; sp_Namespace : string }.
Record NodeIOStatusSpec := mkSpec {
  spec_NodeName : string; spec_Generation : Z; ReservedPods : gmap string SpecPodRequest
}.
#[global] Instance SpecPodRequest_eq_dec : EqDecision SpecPodRequest.
Proof. solve_decision. Defined.
#[global] Instance NodeIOStatusSpec_eq_dec : EqDecision NodeIOStatusSpec.
Proof. solve_decision. Defined.
Record IOStatus := mkIOStatus {
  st_Total : f64; st_In : f64; st_Out : f64; Pressure : f64; ActualSize : string
}.
(** DeviceAllocatableBandwidth of device -> IOAllocatableBandwidth of QoS -> IOStatus. *)
Abbreviation DeviceIOStatus := (gmap string (gmap string IOStatus)).
Record NodeIOStatusStatus := mkStatus {
  ObservedGeneration : Z; AllocatableBandwidth : gmap string DeviceIOStatus
}.
Record NodeIOStatus := mkNIS { nis_Spec : NodeIOStatusSpec; nis_Status : NodeIOStatusStatus }.

(** ** Annotations *)

Record BlockIOConfig := mkBlockIOConfig { Rbps : string; Wbps : string }.
Record VolumeAnnoThroughput := mkVolAnno { va_Requests : BlockIOConfig; va_Limits : BlockIOConfig }.
Abbreviation PodAnnoThroughput := (gmap string VolumeAnnoThroughput).

Record NetIOConfig := mkNetIOConfig { Ingress : string; Egress : string }.
Record NetAnnoThroughput := mkNetAnno { na_Requests : NetIOConfig; na_Limits : NetIOConfig }.

Record RDTResourceAnno := mkRDTRes { anno_L3 : string; anno_Mb : string }.
Record RDTAnnotationResource := mkRDTAnno {
  ra_Requests : RDTResourceAnno; ra_Limits : RDTResourceAnno; ra_Class : string
}.

(** What a container is registered with at the rdt engines of the service. *)
Record RDTClassInfo := mkClassInfo { L3CacheReq : f64; L3CacheLim : f64; MbaReq : f64; MbaLim : f64 }.
Record RDTAppInfo := mkRdtApp {
  rdt_ContainerName : string; rdt_CgroupPath : string; RDTClass : string;
  rdt_PodUid : string; rdt_PodName : string; rdt_ClassInfo : RDTClassInfo
}.

Record DeviceAllocatedIO := mkAlloc {
  QoS : Z; BlockSize_ : string; al_Request : Quantity; al_Limit : Quantity;
  al_RawRequest : Quantity; al_RawLimit : Quantity
}.
Abbreviation AllocatedIO := (gmap Z (gmap string DeviceAllocatedIO)).

(** ** Libraries outside the repository *)

(** k8s.io/apimachinery/pkg/api/resource.Quantity. *)
Class QuantityLib := {
  quantity : Type;
  (** resource.Quantity{} *)
  quantity0 : quantity;
  (** a quantity, or the parse error *)
  ParseQuantity : string → quantity + error;
  (** -1, 0 or 1 *)
  Cmp : quantity → quantity → Z;
  Equal : quantity → quantity → bool;
  (** The value and whether it is exact; only the value is used. *)
  AsInt64 : quantity → Z;
  Value : quantity → Z
}.

(** What the documentation of Quantity says of comparison. *)
Class QuantityLaws (Q : QuantityLib) : Prop := {
  Equal_Cmp : ∀ a b, Equal a b = true ↔ Cmp a b = 0;
  Cmp_range : ∀ a b, Cmp a b = -1 ∨ Cmp a b = 0 ∨ Cmp a b = 1;
  Cmp_antisym : ∀ a b, Cmp b a = - Cmp a b;
  Cmp_trans : ∀ a b c, Cmp a b ≤ 0 → Cmp b c ≤ 0 → Cmp a c ≤ 0
}.

(** resource.MustParse *)
Definition MustParse `{QuantityLib} (s : string) : outcome quantity :=
  match ParseQuantity s with inl q => Ok q | inr _ => Crash ParsePanic end.

(** encoding/json on the annotation types: the decoded value (partly filled
    after an error) and whether decoding succeeded. *)
Class JsonLib := {
  unmarshal_block : string → PodAnnoThroughput * bool;
  unmarshal_net : string → NetAnnoThroughput * bool;
  unmarshal_rdtq : string → RDTAnnotationResource * bool;
  marshal_alloc : AllocatedIO → string + error
}.

(** utils.HashObject: a 32-bit hash of a printed object, from k8s.io/kubernetes. *)
Class HashLib := {
  hash_rc : ResourceConfigSpec → Z;
  hash_status : NodeIOStatusStatus → Z
}.

(** ** Kubernetes objects *)

Record Volume := mkVolume {
  vol_Name : string;
  (** PersistentVolumeClaim.ClaimName, [None] for a nil PersistentVolumeClaim *)
  vol_PVC : option string;
  (** EmptyDir != nil *)
  vol_EmptyDir : bool
}.
Record Pod := mkPod {
  pod_Name : string; pod_Namespace : string; pod_UID : string;
  pod_Annotations : gmap string string; pod_NodeName : string; pod_Volumes : list Volume
}.
Record Node := mkNode { node_Name : string; node_Labels : gmap string string }.

Inductive ClaimPhase := ClaimPending | ClaimBound | ClaimLost | ClaimNoPhase.
#[global] Instance ClaimPhase_eq_dec : EqDecision ClaimPhase.
Proof. solve_decision. Defined.

Definition AnnSelectedNode : string := "volume.kubernetes.io/selected-node".
Definition AnnStorageProvisioner : string := "volume.kubernetes.io/storage-provisioner".

Record PVC `{QuantityLib} := mkPVC {
  pvc_Name : string; pvc_Namespace : string; pvc_Annotations : gmap string string;
  (** *Spec.StorageClassName *)
  pvc_StorageClassName : option string;
  (** Spec.Resources.Requests[storage] *)
  pvc_Storage : option quantity;
  pvc_Phase : ClaimPhase
}.

Record ConfigMap := mkConfigMap {
  cm_Namespace : string; cm_Name : string; cm_Labels : gmap string string;
  cm_Data : gmap string string
}.

(** Errors of the API server: [errors.IsNotFound] and [errors.IsConflict] tell
    the first two kinds.  An error built with [fmt.Errorf] is of the third,
    whatever error its message quotes. *)
Inductive kerr := NotFound (msg : string) | Conflict (msg : string) | KErr (msg : string).
Definition kerr_msg (e : kerr) : error :=
  match e with NotFound m | Conflict m | KErr m => m end.
Definition IsNotFound (e : kerr) : bool := match e with NotFound _ => true | _ => false end.
Definition IsConflict (e : kerr) : bool := match e with Conflict _ => true | _ => false end.

(** The API server, in a state [K], as client-go presents it. *)
Class KubeClient `{QuantityLib} (K : Type) := {
  (** namespace, name *)
  pvc_get : K → string → string → PVC + kerr;
  pvc_list : K → list PVC + kerr;
  (** the provisioner of a storage class *)
  sc_get : K → string → string + kerr;
  cm_get : K → string → string → ConfigMap + kerr;
  cm_create : K → ConfigMap → K * option kerr;
  cm_update : K → ConfigMap → K * option kerr;
  ns_list : K → list string + kerr;
  (** pods of a namespace; one pod by namespace and name *)
  pods_list : K → string → list Pod + kerr;
  pod_get : K → string → string → Pod + kerr;
  (** the strategic merge patch that turns the first pod into the second, sent
      for the pod of this namespace and name *)
  pod_patch : K → string → string → Pod → Pod → K * option kerr;
  nodes_list : K → list string + kerr;
  (** NodeIOStatus objects of the namespace ioi-system, by name *)
  nis_get : K → string → NodeIOStatus + kerr;
  nis_create : K → string → NodeIOStatusSpec → K * option kerr;
  (** the merge patch that turns the first object into the second *)
  nis_patch : K → string → NodeIOStatus → NodeIOStatus → K * option kerr;
  (** UpdateStatus: replaces the status *)
  nis_update_status : K → string → NodeIOStatusStatus → K * option kerr
}.
