(* ===== verification/Utils.v ===== *)
(** * pkg/utils.go and pkg/scheduler/util/common.go

    Block-size mapping ratios, the bandwidth annotation, provisioner test and
    volume-device map, the pressure flag, and the API-server helpers. *)

From S2P Require Export Types.

(** ** Go's string functions *)

(** strings.Cut at a one-byte separator: before, after, found. *)
Fixpoint str_cut (c : ascii) (s : string) : string * string * bool :=
  match s with
  | EmptyString => (EmptyString, EmptyString, false)
  | String a r =>
      if Ascii.eqb a c then (EmptyString, r, true)
      else let '(b, t, f) := str_cut c r in (String a b, t, f)
  end.

(** strings.Split at a one-byte separator. *)
Fixpoint str_split (c : ascii) (s : string) : list string :=
  match s with
  | EmptyString => [EmptyString]
  | String a r =>
      if Ascii.eqb a c then EmptyString :: str_split c r
      else match str_split c r with
           | x :: xs => String a x :: xs
           | [] => [String a EmptyString]
           end
  end.

Definition digit (a : ascii) : option Z :=
  let n := Z.of_nat (nat_of_ascii a) in
  if (48 <=? n) && (n <=? 57) then Some (n - 48) else None.
Fixpoint digits (s : string) (acc : Z) : option Z :=
  match s with
  | EmptyString => Some acc
  | String a r => match digit a with Some d => digits r (10 * acc + d) | None => None end
  end.
(** strconv.ParseInt(s, 10, bitSize) *)
Definition ParseInt (s : string) (bitSize : Z) : Z + error :=
  let '(neg, body) :=
    match s with
    | String a r => if Ascii.eqb a "-" then (true, r) else if Ascii.eqb a "+" then (false, r)
                    else (false, s)
    | EmptyString => (false, s)
    end in
  match body with
  | EmptyString => inr "invalid syntax"
  | _ =>
      match digits body 0 with
      | None => inr "invalid syntax"
      | Some un =>
          let cutoff := 2 ^ (bitSize - 1) in
          if negb neg && (cutoff <=? un) then inr "value out of range"
          else if neg && (cutoff <? un) then inr "value out of range"
          else inl (if neg then - un else un)
      end
  end.

Definition str_len (s : string) : nat := String.length s.
Definition has_suffix (s suf : string) : bool :=
  (Nat.leb (str_len suf) (str_len s)) &&
  String.eqb (String.substring (str_len s - str_len suf) (str_len suf) s) suf.
(** [s[:len(s)-n]] *)
Definition str_drop_last (n : nat) (s : string) : string :=
  String.substring 0 (str_len s - n) s.

(** strings.Fields on ASCII text: the words between runs of white space. *)
Definition is_space (a : ascii) : bool :=
  let n := nat_of_ascii a in Nat.eqb n 32 || (Nat.leb 9 n && Nat.leb n 13).
(** [w] is the word being read, [None] between words. *)
Fixpoint fields_from (s : string) (w : option string) : list string :=
  match s with
  | EmptyString => match w with Some w => [w] | None => [] end
  | String a r =>
      if is_space a then
        match w with Some w => w :: fields_from r None | None => fields_from r None end
      else fields_from r (Some (default EmptyString w +:+ String a EmptyString))
  end.
Definition str_fields (s : string) : list string := fields_from s None.

(** strings.Contains *)
Fixpoint str_contains (s sub : string) : bool :=
  String.prefix sub s ||
  match s with EmptyString => false | String _ r => str_contains r sub end.

(** utils.Contains *)
Fixpoint Contains (arr : list string) (num : string) : bool :=
  match arr with
  | [] => false
  | value :: arr' => if String.eqb value num then true else Contains arr' num
  end.

(** ** Pools *)

(** IOPoolStatus.DeepCopy, nil pointers included: pools are values here, so
    the copy is the value itself. *)
Definition pool_DeepCopy (p : option IOPoolStatus) : option IOPoolStatus :=
  match p with None => None | Some out => Some out end.

(** ** Mapping ratios *)

Section Ratios.
Context `{Q : QuantityLib}.

Record MappingRatio := mkRatio { BlockSize : quantity; Ratio : f64 }.

(** The loop of FindMappingRatio; [prev] is [ratios[idx-1]]. *)
Fixpoint find_ratio (bs : quantity) (prev : option MappingRatio)
    (ratios : list MappingRatio) : option MappingRatio :=
  match ratios with
  | [] => None
  | ratio :: rest =>
      if Equal bs (BlockSize ratio) then Some ratio
      else if Cmp bs (BlockSize ratio) =? -1 then
        Some (match prev with None => ratio | Some p => p end)
      else find_ratio bs (Some ratio) rest
  end.

Definition FindMappingRatio (bs : quantity) (ratios : list MappingRatio)
    : outcome (quantity * f64) :=
  match find_ratio bs None ratios with
  | Some r => Ok (BlockSize r, Ratio r)
  | None =>
      match last ratios with
      | Some r => Ok (BlockSize r, Ratio r)
      | None => let! q := MustParse "32k" in Ok (q, of_Z 1)
      end
  end.

Definition slash : ascii := "/"%char.

(** ParseDiskRequestBandwidth: bandwidth and block size, or an error. *)
Definition ParseDiskRequestBandwidth (config : string)
    : (quantity * quantity) + error :=
  if String.eqb config "" then inr "disk request value is empty"
  else
    let '(BwStr, BsStr, found) := str_cut slash config in
    let BsStr :=
      if has_suffix BsStr "B" then str_drop_last 1 BsStr else BsStr in
    if found then
      match ParseQuantity BwStr with
      | inr err => inr err
      | inl bw =>
          match ParseQuantity BsStr with
          | inr err => inr err
          | inl bs => inl (bw, bs)
          end
      end
    else
      match ParseQuantity BwStr with
      | inr err => inr err
      | inl bw => inl (bw, match ParseQuantity "4k" with inl bs => bs | inr _ => quantity0 end)
      end.

Context `{!GoRange, !GoSort}.

Definition ratio_of (qr : string * f64) : option MappingRatio :=
  match ParseQuantity qr.1 with
  | inr _ => None
  | inl bs => if fle qr.2 fzero then None else Some (mkRatio bs qr.2)
  end.

Definition ParseMappingRatio (ratio : gmap string f64) : list MappingRatio :=
  go_sort (λ a b, Cmp (BlockSize a) (BlockSize b) =? -1)
    (omap ratio_of (range ratio)).
End Ratios.
Arguments MappingRatio {_}.

(** ** Persistent volume claims *)

Section Claims.
Context `{Q : QuantityLib} {K : Type} `{!KubeClient K}.

(** utils.IsIOIProvisioner: the answer and the error. *)
Definition IsIOIProvisioner (k : K) (pvc ns : string) : outcome (bool * option kerr) :=
  match pvc_get k ns pvc with
  | inr err => Ok (false, Some err)
  | inl claim =>
      let! scname := deref (pvc_StorageClassName claim) in
      match sc_get k scname with
      | inr err => Ok (false, Some err)
      | inl prov =>
          if String.eqb prov StorageProvisioner then Ok (true, None) else Ok (false, None)
      end
  end.

(** [ok, err := IsIOIProvisioner(..); if err != nil || !ok] is false *)
Definition ioi_claim (k : K) (pvc ns : string) : outcome bool :=
  let! r := IsIOIProvisioner k pvc ns in
  Ok (match r with (true, None) => true | _ => false end).

Definition pvc_key (pvc ns : string) : string := pvc +:+ "." +:+ ns.

Definition GetVolumeDeviceMap (k : K) (nodename : string) : ConfigMap + kerr :=
  if String.eqb nodename "" then inr (KErr "node name cannot be empty")
  else cm_get k IoiNamespace (DeviceIDConfigMap +:+ "-" +:+ nodename).

Definition RemovePVCsFromVolDiskCm (k : K) (pvc : PVC) (nodename : string)
    : K * option kerr :=
  match GetVolumeDeviceMap k nodename with
  | inr err =>
      (k, Some (KErr (if IsNotFound err
         then "configMap for volume device binding does not exists on node " +:+ nodename
         else "failed to get ConfigMap volume-device-map: nodename " +:+ nodename +:+
              ", err: " +:+ kerr_msg err)))
  | inl cm =>
      if (size (cm_Data cm) =? 0)%nat then (k, None)
      else
        let cm' := mkConfigMap (cm_Namespace cm) (cm_Name cm) (cm_Labels cm)
                     (delete (pvc_key (pvc_Name pvc) (pvc_Namespace pvc)) (cm_Data cm)) in
        cm_update k cm'
  end.

Definition RemoveNodeFromVolDiskCm (k : K) (nodename : string) : K * option kerr :=
  match GetVolumeDeviceMap k nodename with
  | inr err =>
      if IsNotFound err then (k, None)
      else (k, Some (KErr ("failed to get ConfigMap volume-device-map: nodename " +:+ nodename +:+
                           ", err: " +:+ kerr_msg err)))
  | inl cm =>
      cm_update k (mkConfigMap (cm_Namespace cm) (cm_Name cm) (cm_Labels cm) ∅)
  end.
End Claims.

(** utils.MergePVCInfo and utils.TransPVCInfoMapToDevice *)
Definition MergePVCInfo `{!GoRange} (current added : gmap string PVCInfo) : gmap string PVCInfo :=
  foldl (λ m kv, <[kv.1 := kv.2]> m) current (range added).
Definition TransPVCInfoMapToDevice `{!GoRange} (inm : gmap string PVCInfo) : gmap string string :=
  foldl (λ m kv, <[kv.1 := DevID kv.2]> m) ∅ (range inm).

(** utils.GetDiskId; slicing a model shorter than three bytes panics. *)
Definition GetDiskId (model serial : string) : outcome string :=
  if String.eqb model "" && String.eqb serial "" then Ok EmptyString
  else if String.eqb model "" then Ok serial
  else if String.eqb serial "" then Ok model
  else if Nat.ltb (str_len model) 3 then Crash OutOfRange
  else Ok (String.substring 0 3 model +:+ "_" +:+ serial).

(** ** Pressure *)

Definition float64EqualityThreshold : f64 := fdiv (of_Z 1) (of_Z (10 ^ 9)).
Definition compareFloat (a b : f64) : bool := fle (fabs (fsub a b)) float64EqualityThreshold.
Definition IsUnderPressure (p : f64) : bool := negb (compareFloat p fzero).

(** ** API-server helpers (util/common.go) *)

Section ApiHelpers.
Context `{Q : QuantityLib} {K : Type} `{!KubeClient K}.

(** client-go's RetryOnConflict with a backoff of [steps] steps. *)
Fixpoint RetryOnConflict (steps : nat) (fn : K → K * option kerr) (k : K) : K * option kerr :=
  match steps with
  | O => (k, None)
  | S n =>
      let '(k', e) := fn k in
      match e with
      | Some err =>
          if IsConflict err then
            match n with O => (k', Some err) | S _ => RetryOnConflict n fn k' end
          else (k', Some err)
      | None => (k', None)
      end
  end.
Definition UpdateBackoff_Steps : nat := 3.

Definition NamespaceWhiteList : string := "namespaceWhitelist".

(** The two system namespaces, then those of the admin config map. *)
Definition GetNamespaceWhiteList (k : K) : list string :=
  let l := [IoiNamespace; KubesystemNamespace] in
  match cm_get k IoiNamespace AdminName with
  | inr _ => l
  | inl cm =>
      match cm_Data cm !! NamespaceWhiteList with
      | None => l
      | Some v => l ++ str_fields v
      end
  end.

Definition NodeStatusInfoSuffix : string := "-nodeiostatus".

Definition GetNodeIOStatus (k : K) (n : string) : NodeIOStatus + kerr :=
  if String.eqb n "" then inr (KErr "node name cannot be empty")
  else nis_get k (n +:+ NodeStatusInfoSuffix).

Definition CreateNodeIOStatus (k : K) (spec : option NodeIOStatusSpec) : K * option kerr :=
  match spec with
  | None => (k, Some (KErr "spec or node name in spec cannot be null or empty"))
  | Some spec =>
      if String.eqb (spec_NodeName spec) ""
      then (k, Some (KErr "spec or node name in spec cannot be null or empty"))
      else nis_create k (spec_NodeName spec +:+ NodeStatusInfoSuffix) spec
  end.

Definition wrap_err (msg : string) (e : option kerr) : option kerr :=
  match e with None => None | Some err => Some (KErr (msg +:+ kerr_msg err)) end.

Definition UpdateNodeIOStatusSpec (k : K) (name : string) (obj : NodeIOStatusSpec)
    : K * option kerr :=
  RetryOnConflict UpdateBackoff_Steps (λ k,
    match GetNodeIOStatus k name with
    | inr err => (k, Some err)
    | inl sts =>
        let '(k', e) :=
          nis_patch k (name +:+ NodeStatusInfoSuffix) sts (mkNIS obj (nis_Status sts)) in
        (k', wrap_err "failed to patch the NodeIOStatus: " e)
    end) k.

Definition UpdateNodeIOStatusInType (k : K) (name : string)
    (toUpdate : gmap string DeviceIOStatus) : K * option kerr :=
  RetryOnConflict UpdateBackoff_Steps (λ k,
    match GetNodeIOStatus k name with
    | inr err => (k, Some err)
    | inl sts =>
        let st := nis_Status sts in
        let '(k', e) := nis_update_status k (name +:+ NodeStatusInfoSuffix)
          (mkStatus (ObservedGeneration st) (toUpdate ∪ AllocatableBandwidth st)) in
        (k', wrap_err "failed to patch the NodeIOStatus: " e)
    end) k.

Definition UpdateNodeIOStatusInDevice (k : K) (name t : string)
    (adds dels : DeviceIOStatus) : K * option kerr :=
  RetryOnConflict UpdateBackoff_Steps (λ k,
    match GetNodeIOStatus k name with
    | inr err => (k, Some err)
    | inl sts =>
        let st := nis_Status sts in
        match AllocatableBandwidth st !! t with
        | None => (k, Some (KErr ("WorkloadIOType " +:+ t +:+ " not found in NodeIOStatus " +:+ name)))
        | Some dev =>
            let dev' := (adds ∪ dev) ∖ dels in
            let '(k', e) := nis_update_status k (name +:+ NodeStatusInfoSuffix)
              (mkStatus (ObservedGeneration st) (<[t := dev']> (AllocatableBandwidth st))) in
            (k', wrap_err "failed to patch the NodeIOStatus: " e)
        end
    end) k.

Definition pod_with_annos (p : Pod) (a : gmap string string) : Pod :=
  mkPod (pod_Name p) (pod_Namespace p) (pod_UID p) a (pod_NodeName p) (pod_Volumes p).

Definition AddOrUpdateAnnoOnPod (k : K) (pod : Pod) (AnnoToUpdate : gmap string string)
    : K * option kerr :=
  RetryOnConflict UpdateBackoff_Steps (λ k,
    if (size AnnoToUpdate =? 0)%nat then (k, Some (KErr "the annotation is unset"))
    else if String.eqb (pod_Name pod) "" || String.eqb (pod_Namespace pod) ""
    then (k, Some (KErr "pod info is unset"))
    else
      match pod_get k (pod_Namespace pod) (pod_Name pod) with
      | inr err => (k, Some err)
      | inl p =>
          let '(k', e) := pod_patch k (pod_Namespace pod) (pod_Name pod) p
                            (pod_with_annos p (AnnoToUpdate ∪ pod_Annotations p)) in
          (k', wrap_err "failed to patch the pod: " e)
      end) k.

(** The new object is a copy of the caller's pod, not of the one read. *)
Definition DeleteAnnoOnPod (k : K) (pod : Pod) (key : string) : K * option kerr :=
  RetryOnConflict UpdateBackoff_Steps (λ k,
    if String.eqb key "" then (k, Some (KErr "annotation key is unset"))
    else if String.eqb (pod_Name pod) "" || String.eqb (pod_Namespace pod) ""
    then (k, Some (KErr "pod info is unset"))
    else
      match pod_get k (pod_Namespace pod) (pod_Name pod) with
      | inr err => (k, Some err)
      | inl p =>
          let '(k', e) := pod_patch k (pod_Namespace pod) (pod_Name pod) p
                            (pod_with_annos pod (delete key (pod_Annotations pod))) in
          (k', wrap_err "failed to patch the pod: " e)
      end) k.
End ApiHelpers.

Definition IOType_num (t : IOType) : Z :=
  match t with
  | IOType_All => 0 | IOType_DiskIO => 1 | IOType_NetworkIO => 2
  | IOType_RDT => 3 | IOType_RDTQuantity => 4
  end.

(** Bandwidth only: Request and Limit lose the operation rates. *)
Definition bps_only (q : option Quantity) : Quantity :=
  match q with
  | None => quantity_zero
  | Some q => mkQuantity (Inbps q) (Outbps q) fzero fzero
  end.

(** The allocation that PodRequest2String marshals. *)
Definition allocated (reqs : list IOResourceRequest) : AllocatedIO :=
  foldl (λ podReq r,
    match DevRequest r with
    | None => podReq
    | Some d =>
        let io := mkAlloc (WorkloadType r) "" (bps_only (dr_Request d)) (bps_only (dr_Limit d))
                    (default quantity_zero (dr_RawRequest d))
                    (default quantity_zero (dr_RawLimit d)) in
        let t := IOType_num (IoType r) in
        <[t := <[DevName d := io]> (default ∅ (podReq !! t))]> podReq
    end) ∅ reqs.

Definition PodRequest2String `{!JsonLib} (req : option PodRequest) : string + error :=
  match req with
  | None => inr "empty request"
  | Some req =>
      match pr_Request req with
      | [] => inr "the device requirement is empty"
      | reqs => marshal_alloc (allocated reqs)
      end
  end.

(** ComparePodList: same keys. *)
Definition ComparePodList {A B} (pl1 : gmap string A) (pl2 : gmap string B) : bool :=
  bool_decide (dom pl1 = dom pl2).
