(* ===== verification/Text.v ===== *)
(** * Go's strings, strconv and filepath, as the I/O service uses them

    ASCII text.  [ParseUint], [%x] and [%d] on uint64 values, splitting and
    joining, white space, cleaned paths, and the files of the node as an
    interface. *)

From S2P Require Export Utils.

(** ** uint64 *)

Definition u64 (z : Z) : Z := z mod 2 ^ 64.
Definition is_u64 (z : Z) : Prop := 0 ≤ z < 2 ^ 64.

(** ** Numbers as text *)

Definition hex_digit (a : ascii) : option Z :=
  let n := Z.of_nat (nat_of_ascii a) in
  if (48 <=? n) && (n <=? 57) then Some (n - 48)
  else if (97 <=? n) && (n <=? 102) then Some (n - 87)
  else if (65 <=? n) && (n <=? 70) then Some (n - 55)
  else None.
(** The digits of a number below [2 ^ bitSize]: the first digit that is not
    one of the base, or that leaves the range, ends the scan. *)
Fixpoint uint_digits (base maxVal : Z) (s : string) (n : Z) : Z + error :=
  match s with
  | EmptyString => inl n
  | String a r =>
      match hex_digit a with
      | Some d =>
          if base <=? d then inr "invalid syntax"
          else if maxVal <? n * base + d then inr "value out of range"
          else uint_digits base maxVal r (n * base + d)
      | None => inr "invalid syntax"
      end
  end.
(** strconv.ParseUint(s, base, bitSize), base 10 or 16 *)
Definition ParseUint (s : string) (base bitSize : Z) : Z + error :=
  match s with
  | EmptyString => inr "invalid syntax"
  | _ => uint_digits base (2 ^ bitSize - 1) s 0
  end.

Definition digit_char (d : Z) : ascii :=
  ascii_of_nat (Z.to_nat (if d <? 10 then d + 48 else d + 87)).
Fixpoint format_base (base : Z) (fuel : nat) (z : Z) (acc : string) : string :=
  match fuel with
  | O => acc
  | S fuel =>
      let acc := String (digit_char (z mod base)) acc in
      if z / base =? 0 then acc else format_base base fuel (z / base) acc
  end.
(** [%x] and [%d] of a uint64: at most 16 and 20 digits. *)
Definition format_hex (z : Z) : string := format_base 16 16 z EmptyString.
Definition format_dec (z : Z) : string := format_base 10 20 z EmptyString.

(** ** Strings *)

(** strings.SplitN(s, sep, 2) *)
Definition str_splitn2 (c : ascii) (s : string) : list string :=
  let '(b, t, found) := str_cut c s in if found then [b; t] else [s].

(** strings.Join *)
Fixpoint str_join (sep : string) (l : list string) : string :=
  match l with
  | [] => EmptyString
  | [x] => x
  | x :: l => x +:+ sep +:+ str_join sep l
  end.

Fixpoint trim_left (p : ascii → bool) (s : string) : string :=
  match s with
  | String a r => if p a then trim_left p r else s
  | EmptyString => EmptyString
  end.
Fixpoint trim_right (p : ascii → bool) (s : string) : string :=
  match s with
  | EmptyString => EmptyString
  | String a r =>
      match trim_right p r with
      | EmptyString => if p a then EmptyString else String a EmptyString
      | r' => String a r'
      end
  end.
(** strings.TrimSpace *)
Definition TrimSpace (s : string) : string := trim_right is_space (trim_left is_space s).
(** strings.TrimPrefix *)
Definition TrimPrefix (s pre : string) : string :=
  if String.prefix pre s then String.substring (str_len pre) (str_len s - str_len pre) s else s.
(** strings.ReplaceAll(s, c, "") for one byte [c] *)
Fixpoint drop_char (c : ascii) (s : string) : string :=
  match s with
  | EmptyString => EmptyString
  | String a r => if Ascii.eqb a c then drop_char c r else String a (drop_char c r)
  end.

Definition newline : ascii := ascii_of_nat 10.
Definition nl : string := String newline EmptyString.
(** The lines that bufio's ReadLine gives (no line is longer than its buffer):
    line ends are dropped, and a final one opens no further line. *)
Definition drop_cr (s : string) : string :=
  if has_suffix s (String (ascii_of_nat 13) EmptyString) then str_drop_last 1 s else s.
Definition read_lines (s : string) : list string :=
  let l := str_split newline s in
  map drop_cr (removelast l) ++ filter (λ x, x ≠ EmptyString) (option_list (last l)).

(** The value that strconv.Atoi returns, an error being ignored. *)
Definition Atoi_value (s : string) : Z :=
  match ParseInt s 64 with
  | inl z => z
  | inr e => if String.eqb e "value out of range"
             then (if String.prefix "-" s then - 2 ^ 63 else 2 ^ 63 - 1) else 0
  end.

(** ** filepath.Join *)

(** The elements kept so far, last one first. *)
Fixpoint clean_parts (rooted : bool) (l acc : list string) : list string :=
  match l with
  | [] => rev acc
  | x :: l =>
      if String.eqb x "" || String.eqb x "." then clean_parts rooted l acc
      else if String.eqb x ".." then
        match acc with
        | y :: acc' => if String.eqb y ".." then clean_parts rooted l (x :: acc)
                       else clean_parts rooted l acc'
        | [] => clean_parts rooted l (if rooted then [] else [x])
        end
      else clean_parts rooted l (x :: acc)
  end.
Definition path_clean (s : string) : string :=
  let rooted := String.prefix "/" s in
  let body := str_join "/" (clean_parts rooted (str_split slash s) []) in
  if rooted then "/" +:+ body else if String.eqb body "" then "." else body.
Definition path_join (l : list string) : string :=
  match filter (λ x, x ≠ EmptyString) l with
  | [] => EmptyString
  | l => path_clean (str_join "/" l)
  end.

(** ** Files of the node *)

(** The outcomes of os.Stat. *)
Inductive stat := Present | Absent | StatFailed.
Definition present (s : stat) : bool := match s with Present => true | _ => false end.

(** The operating system: os.ReadFile, os.Stat, os.Readlink (does it return
    without an error), os.ReadDir (names, and whether they are directories),
    os.WriteFile, replacing the contents of an existing file (open for
    writing, truncate, write), and running a command. *)
Class Files (F : Type) := {
  ReadFile : F → string → string + error;
  Stat : F → string → stat;
  Readlink : F → string → bool;
  ReadDir : F → string → list (string * bool) + error;
  WriteFile : F → string → string → F * option error;
  Rewrite : F → string → string → F * option error;
  RunBash : F → string → string + error
}.

(** ** Floats as text *)

(** strconv.FormatFloat(x, 'f', -1, 64) and strconv.ParseFloat(s, 32), which
    returns a value also with an error. *)
Class FloatText := {
  FormatFloat : f64 → string;
  ParseFloat_32 : string → f64 * option error
}.
Definition ParseFloat32 `{!FloatText} (s : string) : f64 + error :=
  match ParseFloat_32 s with (v, None) => inl v | (_, Some e) => inr e end.
(** strconv.ParseFloat(s, 64) *)
Class FloatParse := { ParseFloat64 : string → f64 + error }.

(** ** Facts *)

Lemma u64_id z : is_u64 z → u64 z = z.
Proof. unfold is_u64, u64. intros. by apply Z.mod_small. Qed.
Lemma u64_range z : is_u64 (u64 z).
Proof. unfold is_u64, u64. apply Z.mod_pos_bound. lia. Qed.
#[export] Hint Resolve u64_range : ioi.

Lemma digit_char_hex d : 0 ≤ d < 16 → hex_digit (digit_char d) = Some d.
Proof.
  intros H. assert (Forall (λ d, hex_digit (digit_char d) = Some d) (seqZ 0 16)) as Hall
    by repeat constructor.
  rewrite Forall_forall in Hall. apply Hall, elem_of_seqZ. lia.
Qed.

(** Text that [format_base] writes is read back, whatever follows it. *)
Lemma uint_digits_format base maxVal fuel z acc :
  2 ≤ base ≤ 16 → 0 ≤ z < base ^ Z.of_nat fuel → z ≤ maxVal → fuel ≠ 0%nat →
  uint_digits base maxVal (format_base base fuel z acc) 0 = uint_digits base maxVal acc z.
Proof.
  intros Hb Hz Hm Hf. revert z acc Hz Hm. induction fuel as [| fuel IH]; intros z acc Hz Hm; [done |].
  pose proof (Z.mod_pos_bound z base ltac:(lia)) as Hr.
  pose proof (Z.div_mod z base ltac:(lia)) as Hdm. simpl.
  assert (Hstep : ∀ n, n * base + z mod base = z →
    uint_digits base maxVal (String (digit_char (z mod base)) acc) n = uint_digits base maxVal acc z).
  { intros n En. simpl. rewrite digit_char_hex by lia.
    destruct (Z.leb_spec base (z mod base)); [lia |]. rewrite En.
    by destruct (Z.ltb_spec maxVal z); [lia |]. }
  destruct (Z.eqb_spec (z / base) 0) as [E0 | E0].
  - apply Hstep. lia.
  - destruct fuel as [| fuel].
    { change (Z.of_nat 1) with 1 in Hz. rewrite Z.pow_1_r in Hz. rewrite Z.div_small in E0; lia. }
    rewrite IH; [apply Hstep; lia | done | |].
    + split; [apply Z.div_pos; lia |]. apply Z.div_lt_upper_bound; [lia |].
      rewrite <- Z.pow_succ_r, <- Nat2Z.inj_succ; lia.
    + etransitivity; [| exact Hm]. apply Z.div_le_upper_bound; nia.
Qed.

Lemma format_base_cons base fuel z acc :
  fuel ≠ 0%nat → ∃ a r, format_base base fuel z acc = String a r.
Proof.
  revert z acc. induction fuel as [| fuel IH]; intros z acc Hf; [done |]. simpl.
  destruct (_ =? _); [eauto |]. destruct fuel; [simpl; eauto | by apply IH].
Qed.

Lemma ParseUint_format base fuel z bitSize :
  2 ≤ base ≤ 16 → fuel ≠ 0%nat → 0 ≤ z < base ^ Z.of_nat fuel → z < 2 ^ bitSize →
  ParseUint (format_base base fuel z EmptyString) base bitSize = inl z.
Proof.
  intros Hb Hf Hz Hr. unfold ParseUint.
  destruct (format_base_cons base fuel z EmptyString Hf) as (a & r & E). rewrite E, <- E.
  by rewrite uint_digits_format by lia.
Qed.

Lemma ParseUint_hex z : is_u64 z → ParseUint (format_hex z) 16 64 = inl z.
Proof. unfold is_u64. intros. apply ParseUint_format; lia. Qed.
Lemma ParseUint_dec z : is_u64 z → ParseUint (format_dec z) 10 64 = inl z.
Proof. unfold is_u64. intros. apply ParseUint_format; lia. Qed.

Lemma hex_digit_dec a d : hex_digit a = Some d → d < 10 → digit a = Some d ∧ 0 ≤ d.
Proof.
  unfold hex_digit, digit. set (n := Z.of_nat (nat_of_ascii a)). intros E Hd.
  destruct (Z.leb_spec 48 n), (Z.leb_spec n 57), (Z.leb_spec 97 n), (Z.leb_spec n 102),
    (Z.leb_spec 65 n), (Z.leb_spec n 70); simpl in *; simplify_eq; auto with lia.
Qed.
Lemma uint_digits_dec maxVal s n m :
  uint_digits 10 maxVal s n = inl m → 0 ≤ n ≤ maxVal → digits s n = Some m ∧ 0 ≤ m ≤ maxVal.
Proof.
  revert n. induction s as [| a s IH]; intros n; simpl; [intros [= <-]; done |].
  destruct (hex_digit a) as [d |] eqn:Ea; [| done].
  destruct (Z.leb_spec 10 d); [done |]. destruct (Z.ltb_spec maxVal (n * 10 + d)); [done |].
  destruct (hex_digit_dec a d Ea) as [-> Hd]; [done |]. intros E Hn.
  replace (10 * n + d) with (n * 10 + d) by lia. apply IH; [done | lia].
Qed.

(** strconv.Itoa, and strconv.Atoi of it. *)
Definition Itoa (z : Z) : string := if z <? 0 then String "-" (format_dec (- z)) else format_dec z.
Lemma digits_format_dec z : 0 ≤ z < 10 ^ 20 → digits (format_dec z) 0 = Some z.
Proof.
  intros Hz. apply (uint_digits_dec (10 ^ 20)); [| lia].
  unfold format_dec. by rewrite uint_digits_format by (change (Z.of_nat 20) with 20; lia).
Qed.
Lemma format_dec_cons z : 0 ≤ z < 10 ^ 20 → ∃ a r, format_dec z = String a r ∧ is_Some (digit a).
Proof.
  intros Hz. destruct (format_base_cons 10 20 z EmptyString) as (a & r & E); [done |].
  pose proof (digits_format_dec z Hz) as Hd. unfold format_dec in *. rewrite E in *. exists a, r.
  split; [done |]. simpl in Hd. by destruct (digit a).
Qed.
Lemma ParseInt_Itoa z : fits64 z → ParseInt (Itoa z) 64 = inl z.
Proof.
  unfold fits64, Itoa. intros Hz.
  assert (Hu : ∀ u, 0 ≤ u ≤ 2 ^ 63 → digits (format_dec u) 0 = Some u ∧
             ∃ a r, format_dec u = String a r ∧ Ascii.eqb a "-" = false ∧ Ascii.eqb a "+" = false).
  { intros u Hu. split; [apply digits_format_dec; lia |].
    destruct (format_dec_cons u) as (a & r & E & Hd); [lia |]. exists a, r. split; [done |].
    split; apply Ascii.eqb_neq; intros ->; vm_compute in Hd; by destruct Hd. }
  unfold ParseInt. destruct (Z.ltb_spec z 0) as [Hneg | Hpos].
  - destruct (Hu (- z)) as (Hd & a & r & E & _ & _); [lia |]. rewrite E in *. simpl Ascii.eqb. cbv iota.
    rewrite Hd. cbn [negb andb]. change (2 ^ (64 - 1)) with (2 ^ 63).
    destruct (Z.ltb_spec (2 ^ 63) (- z)); [lia |]. f_equal. lia.
  - destruct (Hu z) as (Hd & a & r & E & Hm & Hp); [lia |]. rewrite E in *. rewrite Hm, Hp, Hd.
    cbn [negb andb]. change (2 ^ (64 - 1)) with (2 ^ 63). destruct (Z.leb_spec (2 ^ 63) z); [lia | done].
Qed.

Lemma str_app_assoc (a b c : string) : (a +:+ b) +:+ c = a +:+ (b +:+ c).
Proof. induction a as [| x a IH]; [done |]. exact (f_equal (String x) IH). Qed.
Lemma str_app_nil_r (a : string) : a +:+ EmptyString = a.
Proof. induction a as [| x a IH]; [done |]. exact (f_equal (String x) IH). Qed.

Lemma str_len_app (a b : string) : str_len (a +:+ b) = (str_len a + str_len b)%nat.
Proof. unfold str_len. induction a as [| x a IH]; [done |]. simpl. by rewrite <- IH. Qed.
Lemma substring_app (a b : string) : String.substring 0 (str_len a) (a +:+ b) = a.
Proof. induction a as [| x a IH]; [by destruct b |]. exact (f_equal (String x) IH). Qed.
(** Cutting off the last byte undoes appending one. *)
Lemma str_drop_last_app (a : string) (c : ascii) : str_drop_last 1 (a +:+ String c EmptyString) = a.
Proof.
  unfold str_drop_last. rewrite str_len_app. simpl.
  replace (str_len a + 1 - 1)%nat with (str_len a) by lia. apply substring_app.
Qed.

(** ** Splitting strings *)

Lemma str_split_nonempty c r : str_split c r ≠ [].
Proof.
  induction r as [| b r IH]; [done |]. simpl. destruct (Ascii.eqb b c); [done |].
  by destruct (str_split c r).
Qed.

Lemma str_split_cons_plain c a r :
  str_split c (String a r) = [String a r] → Ascii.eqb a c = false ∧ str_split c r = [r].
Proof.
  simpl. destruct (Ascii.eqb a c); [done |].
  pose proof (str_split_nonempty c r). destruct (str_split c r) as [| x xs]; [done |].
  intros [= -> ->]. done.
Qed.

Lemma str_split_app c x r :
  str_split c x = [x] → str_split c (x +:+ String c r) = x :: str_split c r.
Proof.
  induction x as [| a x IH]; intros Hx; simpl.
  - by rewrite Ascii.eqb_refl.
  - apply str_split_cons_plain in Hx as [Ha Hx]. rewrite Ha, (IH Hx). done.
Qed.

(** ** Text without a character *)

Fixpoint str_all (p : ascii → bool) (s : string) : bool :=
  match s with EmptyString => true | String a r => p a && str_all p r end.

Lemma str_all_app p a b : str_all p (a +:+ b) = str_all p a && str_all p b.
Proof. induction a as [| x a IH]; [done |]. simpl. by rewrite IH, andb_assoc. Qed.
Lemma str_all_impl (p q : ascii → bool) s :
  (∀ a, p a = true → q a = true) → str_all p s = true → str_all q s = true.
Proof.
  intros H. induction s as [| a s IH]; [done |]. simpl.
  rewrite !andb_true_iff. naive_solver.
Qed.

Definition not_char (c a : ascii) : bool := negb (Ascii.eqb a c).
Lemma str_split_plain c s : str_all (not_char c) s = true → str_split c s = [s].
Proof.
  induction s as [| a s IH]; [done |]. simpl. rewrite andb_true_iff. unfold not_char at 1.
  intros [Ha Hs]. destruct (Ascii.eqb a c); [done |]. by rewrite (IH Hs).
Qed.
Lemma str_split_parts c s : Forall (λ x, str_all (not_char c) x = true) (str_split c s).
Proof.
  induction s as [| a s IH]; simpl; [by repeat constructor |].
  destruct (Ascii.eqb a c) eqn:E; [by constructor |].
  destruct (str_split c s) as [| x xs]; simpl; inversion IH; subst; constructor; auto;
    simpl; unfold not_char at 1; by rewrite E.
Qed.
(** Splitting undoes joining. *)
Lemma str_split_join c l :
  l ≠ [] → (∀ x, x ∈ l → str_split c x = [x]) →
  str_split c (str_join (String c EmptyString) l) = l.
Proof.
  induction l as [| x [| y l] IH]; intros Hne Hp; [done | |].
  - apply Hp. set_solver.
  - change (str_join (String c "") (x :: y :: l)) with (x +:+ String c (str_join (String c "") (y :: l))).
    rewrite str_split_app by (apply Hp; set_solver). f_equal. apply IH; [done |].
    intros n Hn. apply Hp. set_solver.
Qed.

Lemma trim_left_all p s : str_all (λ a, negb (p a)) s = true → trim_left p s = s.
Proof. destruct s as [| a s]; [done |]. simpl. by destruct (p a). Qed.
Lemma trim_right_all p s : str_all (λ a, negb (p a)) s = true → trim_right p s = s.
Proof.
  induction s as [| a s IH]; [done |]. simpl. rewrite andb_true_iff. intros [Ha Hs].
  rewrite (IH Hs). destruct s; [by destruct (p a) | done].
Qed.
Lemma TrimSpace_all s : str_all (λ a, negb (is_space a)) s = true → TrimSpace s = s.
Proof. intros H. unfold TrimSpace. rewrite trim_left_all by done. by apply trim_right_all. Qed.

(** The characters of a number. *)
Definition is_hex (a : ascii) : bool := match hex_digit a with Some _ => true | None => false end.
Lemma format_base_hex base fuel z acc :
  2 ≤ base ≤ 16 → str_all is_hex acc = true → str_all is_hex (format_base base fuel z acc) = true.
Proof.
  intros Hb. revert z acc. induction fuel as [| fuel IH]; intros z acc Hacc; [done |]. simpl.
  pose proof (Z.mod_pos_bound z base ltac:(lia)).
  assert (str_all is_hex (String (digit_char (z mod base)) acc) = true).
  { simpl. unfold is_hex at 1. by rewrite digit_char_hex by lia. }
  destruct (_ =? _); [done | by apply IH].
Qed.
(** [is_hex a] excludes a character that is no digit. *)
Lemma is_hex_not c a : is_hex c = false → is_hex a = true → not_char c a = true.
Proof. intros Hc Ha. unfold not_char. destruct (Ascii.eqb_spec a c); [congruence | done]. Qed.
