(* ===== verification/Cache.v ===== *)
(** * pkg/scheduler/resource: cached resources, the shared context, handles

    The records that each plugin caches per node, [interface{}] values as a
    sum type, the cache (cache.go), the global [IoiContext] with its mutex and
    work queue (the data of context.go), and the store that the handlers of
    one plugin read and write. *)

From S2P Require Export Utils.

(** ** Cached records *)

Section CachedRecords.
Context `{Q : QuantityLib}.

(** blockio/resource.go *)
Record DiskInfo := mkDiskInfo {
  DiskName : string;
  ReadRatio : list MappingRatio;
  WriteRatio : list MappingRatio;
  BEDefaultRead : f64;
  BEDefaultWrite : f64;
  di_GA : option IOPoolStatus;
  di_BE : option IOPoolStatus;
  Capacity : Z;
  RequestedDiskSpace : Z;
  MountPath : string
}.
Record BlockNodeInfo := mkBlockNodeInfo {
  DisksStatus : gmap string DiskInfo; EmptyDirDevice : string
}.
Record BlockResource := mkBlockResource {
  br_nodeName : string; br_info : option BlockNodeInfo
}.
(** blockio.RequestInfo *)
Record RequestInfo := mkRequestInfo {
  ResourceRequest : gmap string StorageIORequest; PvcToDevice : gmap string PVCInfo
}.

(** networkio/resource.go *)
Record NICInfo := mkNICInfo {
  nic_Name : string; DefaultSpeed : f64;
  nic_GA : option IOPoolStatus; nic_BE : option IOPoolStatus
}.
Record NetNodeInfo := mkNetNodeInfo { NICsStatus : gmap string NICInfo; MasterNic : string }.
Record NetResource := mkNetResource { nr_nodeName : string; nr_info : option NetNodeInfo }.

(** rdt/resource.go *)
Record RdtNodeInfo := mkRdtNodeInfo { RDTClassStatus : gmap string f64 }.
Record RdtResource := mkRdtResource { rr_nodeName : string; rr_info : option RdtNodeInfo }.

(** rdt-quantity/resource.go *)
Record rdtResource := mkRdt { l3 : f64; mb : f64 }.
Record classInfo := mkClass {
  ci_Requests : rdtResource; ci_Limits : rdtResource; ci_PodList : list string
}.
Record RdtqNodeInfo := mkRdtqNodeInfo {
  BEScore : f64; L3CacheCapacity : f64; MBCapacity : f64;
  BEL3CapacityBaseline : f64; BEMBCapacityBaseline : f64;
  classes : gmap string classInfo
}.
Record RdtqResource := mkRdtqResource { qr_nodeName : string; qr_info : option RdtqNodeInfo }.

(** The implementations of the interface ExtendedResource. *)
Inductive ExtendedResource :=
| ER_Block (r : BlockResource)
| ER_Net (r : NetResource)
| ER_Rdt (r : RdtResource)
| ER_Rdtq (r : RdtqResource).

(** The values passed as [interface{}]: pod requests and node states. *)
Inductive any :=
| any_nil
| any_block (r : RequestInfo)
| any_netreq (m : gmap string IOResourceRequest)
| any_rdt (RDTClass : string)
| any_ioreq (r : option IOResourceRequest)
| any_pools (p : gmap string (gmap string (option IOPoolStatus)))
| any_status (s : gmap string f64)
| any_rdtq (n : RdtqNodeInfo)
| any_string (s : string)
| any_pvcs (m : gmap string PVCInfo).

(** blockio DiskInfo.DeepCopy: the mount path is not copied. *)
Definition DiskInfo_DeepCopy (d : DiskInfo) : DiskInfo :=
  mkDiskInfo (DiskName d) (ReadRatio d) (WriteRatio d) (BEDefaultRead d) (BEDefaultWrite d)
    (pool_DeepCopy (di_GA d)) (pool_DeepCopy (di_BE d))
    (Capacity d) (RequestedDiskSpace d) "".

(** ** cache.go *)

Definition SetExtendedResource (c : gmap string ExtendedResource) (nodeName : string)
    (val : ExtendedResource) : gmap string ExtendedResource := <[nodeName := val]> c.
Definition GetExtendedResource (c : gmap string ExtendedResource) (nodeName : string)
    : option ExtendedResource := c !! nodeName.
Definition DeleteExtendedResource (c : gmap string ExtendedResource) (nodeName : string)
    : gmap string ExtendedResource := delete nodeName c.

(** PrintInfo logs [*diskInfo.GA] and [*diskInfo.BE] (and the same of a
    NIC): it panics when one of them, or the node's info, is nil. *)
Definition pools_set (ga be : option IOPoolStatus) : Prop := is_Some ga ∧ is_Some be.
Definition printable (r : ExtendedResource) : Prop :=
  match r with
  | ER_Block r => ∃ n, br_info r = Some n ∧
      map_Forall (λ _ d, pools_set (di_GA d) (di_BE d)) (DisksStatus n)
  | ER_Net r => ∃ n, nr_info r = Some n ∧
      map_Forall (λ _ d, pools_set (nic_GA d) (nic_BE d)) (NICsStatus n)
  | ER_Rdt r => is_Some (rr_info r)
  | ER_Rdtq r => is_Some (qr_info r)
  end.

Definition pools_setb (ga be : option IOPoolStatus) : bool :=
  match ga, be with Some _, Some _ => true | _, _ => false end.
Definition PrintInfo (r : ExtendedResource) : outcome () :=
  match r with
  | ER_Block r =>
      let! n := deref (br_info r) in
      if forallb (λ kd, pools_setb (di_GA kd.2) (di_BE kd.2)) (map_to_list (DisksStatus n))
      then Ok () else Crash NilDeref
  | ER_Net r =>
      let! n := deref (nr_info r) in
      if forallb (λ kd, pools_setb (nic_GA kd.2) (nic_BE kd.2)) (map_to_list (NICsStatus n))
      then Ok () else Crash NilDeref
  | ER_Rdt r => let! _ := deref (rr_info r) in Ok ()
  | ER_Rdtq r => let! _ := deref (qr_info r) in Ok ()
  end.

(** ResourceCache.PrintCacheInfo *)
Definition PrintCacheInfo (c : gmap string ExtendedResource) : outcome () :=
  foldM (λ _ kr, PrintInfo kr.2) () (map_to_list c).
End CachedRecords.

(** ** The shared context (context.go) *)

Record StorageInfo := mkStorageInfo { si_DevID : string; RequestedStorage : Z; si_NodeName : string }.

(** A work item: the spec to publish ([None] for nil), the pod, its request. *)
Record syncContext := mkSync {
  sync_spec : option NodeIOStatusSpec; sync_pod : Pod; sync_req : option PodRequest
}.

Record IoiContext := mkCtx {
  Reservedpod : gmap string (option PodList);
  NsWhiteList : list string;
  ClaimDevMap : gmap string StorageInfo;
  queue : list syncContext;
  lastUpdatedGen : gmap string Z;
  (** sync.Mutex: held or not *)
  locked : bool
}.

(** ** The store of one plugin's handlers *)

Record HS `{Q : QuantityLib} (K : Type) := mkHS {
  hs_ctx : IoiContext;
  hs_cache : gmap string ExtendedResource;
  hs_kube : K
}.
Arguments mkHS {Q K} _ _ _.
Arguments hs_ctx {Q K} _.
Arguments hs_cache {Q K} _.
Arguments hs_kube {Q K} _.

Section Store.
Context `{Q : QuantityLib} {K : Type}.
Implicit Types s : HS K.
Definition set_ctx (c : IoiContext) s : HS K := mkHS c (hs_cache s) (hs_kube s).
Definition set_cache (c : gmap string ExtendedResource) s : HS K :=
  mkHS (hs_ctx s) c (hs_kube s).
Definition set_kube (k : K) s : HS K := mkHS (hs_ctx s) (hs_cache s) k.

(** h.EC.PrintCacheInfo() *)
Definition print_cache : GoM (HS K) () := λ s,
  let! _ := PrintCacheInfo (hs_cache s) in Ok ((), s).

Definition set_GA (p : option IOPoolStatus) (d : DiskInfo) : DiskInfo :=
  mkDiskInfo (DiskName d) (ReadRatio d) (WriteRatio d) (BEDefaultRead d) (BEDefaultWrite d)
    p (di_BE d) (Capacity d) (RequestedDiskSpace d) (MountPath d).
Definition set_BE (p : option IOPoolStatus) (d : DiskInfo) : DiskInfo :=
  mkDiskInfo (DiskName d) (ReadRatio d) (WriteRatio d) (BEDefaultRead d) (BEDefaultWrite d)
    (di_GA d) p (Capacity d) (RequestedDiskSpace d) (MountPath d).
Definition set_Requested (n : Z) (d : DiskInfo) : DiskInfo :=
  mkDiskInfo (DiskName d) (ReadRatio d) (WriteRatio d) (BEDefaultRead d) (BEDefaultWrite d)
    (di_GA d) (di_BE d) (Capacity d) n (MountPath d).
Definition set_Disks (m : gmap string DiskInfo) (n : BlockNodeInfo) : BlockNodeInfo :=
  mkBlockNodeInfo m (EmptyDirDevice n).
End Store.

(** Pool arithmetic shared by disks and NICs. *)
Definition pool_take (p : IOPoolStatus) (i o : f64) : IOPoolStatus :=
  mkPool (fsub (ps_Total p) (fadd i o)) (fsub (ps_In p) i) (fsub (ps_Out p) o)
    (ps_UnderPressure p) (ps_Num p).
Definition pool_give (p : IOPoolStatus) (i o : f64) : IOPoolStatus :=
  mkPool (fadd (ps_Total p) (fadd i o)) (fadd (ps_In p) i) (fadd (ps_Out p) o)
    (ps_UnderPressure p) (ps_Num p).
Definition pool_set_num (p : IOPoolStatus) (n : Z) : IOPoolStatus :=
  mkPool (ps_Total p) (ps_In p) (ps_Out p) (ps_UnderPressure p) n.
Definition pool_set_pressure (p : IOPoolStatus) (b : bool) : IOPoolStatus :=
  mkPool (ps_Total p) (ps_In p) (ps_Out p) b (ps_Num p).
(** [Num -= 1; if Num < 0 { Num = 0 }] *)
Definition num_dec (n : Z) : Z := let n := sub64 n 1 in if n <? 0 then 0 else n.
