(* ===== verification/Context.v ===== *)
(** * pkg/scheduler/resource/context.go

    The reserved-pod table, its generations, the storage bindings and the
    work queue that publishes a node's reserved pods to the API server. *)

From S2P Require Export Cache.

Definition set_Reservedpod (v : gmap string (option PodList)) (c : IoiContext) : IoiContext :=
  mkCtx v (NsWhiteList c) (ClaimDevMap c) (queue c) (lastUpdatedGen c) (locked c).
Definition set_NsWhiteList (v : list string) (c : IoiContext) : IoiContext :=
  mkCtx (Reservedpod c) v (ClaimDevMap c) (queue c) (lastUpdatedGen c) (locked c).
Definition set_ClaimDevMap (v : gmap string StorageInfo) (c : IoiContext) : IoiContext :=
  mkCtx (Reservedpod c) (NsWhiteList c) v (queue c) (lastUpdatedGen c) (locked c).
Definition set_queue (v : list syncContext) (c : IoiContext) : IoiContext :=
  mkCtx (Reservedpod c) (NsWhiteList c) (ClaimDevMap c) v (lastUpdatedGen c) (locked c).
Definition set_lastUpdatedGen (v : gmap string Z) (c : IoiContext) : IoiContext :=
  mkCtx (Reservedpod c) (NsWhiteList c) (ClaimDevMap c) (queue c) v (locked c).
Definition set_locked (v : bool) (c : IoiContext) : IoiContext :=
  mkCtx (Reservedpod c) (NsWhiteList c) (ClaimDevMap c) (queue c) (lastUpdatedGen c) v.

(** sync.Mutex: a goroutine that locks a mutex it holds never goes on. *)
Definition ctx_Lock (c : IoiContext) : outcome IoiContext :=
  if locked c then Crash SelfDeadlock else Ok (set_locked true c).
Definition ctx_Unlock (c : IoiContext) : IoiContext := set_locked false c.

Definition GetStorageInfo (c : IoiContext) (pvc : string) : StorageInfo + error :=
  match ClaimDevMap c !! pvc with
  | Some v => inl v
  | None => inr ("pvc " +:+ pvc +:+ " doesn't exist in reserved pod")
  end.

Definition GetReservedPods (c : IoiContext) (node : string) : option PodList + error :=
  match Reservedpod c !! node with
  | Some v => inl v
  | None => inr ("node " +:+ node +:+ " doesn't exist in reserved pod")
  end.

(** For a nil list the generation is set on a list that is not stored. *)
Definition SetPodListGen (c : IoiContext) (node : string) (gen : Z) : IoiContext * option error :=
  match Reservedpod c !! node with
  | Some (Some v) =>
      (set_Reservedpod (<[node := Some (mkPodList gen (pl_PodList v))]> (Reservedpod c)) c, None)
  | Some None => (c, None)
  | None => (c, Some ("node " +:+ node +:+ " doesn't exist in reserved pod"))
  end.

Definition GetReservedPodsWithNameNS (c : IoiContext) (node : string) : NodeIOStatusSpec + error :=
  match Reservedpod c !! node with
  | Some (Some v) =>
      inl (mkSpec node (Generation v)
             ((λ pr, mkSpecPod (PodName pr) (PodNamespace pr)) <$> pl_PodList v))
  | Some None => inr ("node " +:+ node +:+ "'s pod list is nil")
  | None => inr ("node " +:+ node +:+ " doesn't exist in reserved pod")
  end.

Definition SetReservedPods (c : IoiContext) (node : string) (pl : option PodList) : IoiContext :=
  set_lastUpdatedGen (<[node := -1]> (lastUpdatedGen c))
    (set_Reservedpod (<[node := pl]> (Reservedpod c)) c).

Definition RemoveNode (c : IoiContext) (node : string) : IoiContext :=
  set_Reservedpod (delete node (Reservedpod c)) c.

Fixpoint in_list (ns : string) (l : list string) : bool :=
  match l with
  | [] => false
  | n :: l' => if String.eqb ns n then true else in_list ns l'
  end.
Definition InNamespaceWhiteList (c : IoiContext) (ns : string) : bool := in_list ns (NsWhiteList c).

(** UpdateReservedPods queues the node's current spec, nil after an error. *)
Definition UpdateReservedPods (c : IoiContext) (node : string) (pod : Pod)
    (req : option PodRequest) : IoiContext :=
  let spec := match GetReservedPodsWithNameNS c node with inl s => Some s | inr _ => None end in
  set_queue (queue c ++ [mkSync spec pod req]) c.

Definition AddPod (c : IoiContext) (reqlist : PodRequest) (pod : Pod) (nodeName : string)
    : outcome (IoiContext * option error) :=
  let! c := ctx_Lock c in
  match GetReservedPods c nodeName with
  | inr err => Ok (ctx_Unlock c, Some ("get reserved pods error: " +:+ err))
  | inl p =>
      let! podreq := deref p in
      let podreq' := mkPodList (add64 (Generation podreq) 1)
                       (<[pod_UID pod := reqlist]> (pl_PodList podreq)) in
      let c := SetReservedPods c nodeName (Some podreq') in
      let c := UpdateReservedPods c nodeName pod (Some reqlist) in
      Ok (ctx_Unlock c, None)
  end.

(** The list is looked up by the pod's own node name. *)
Definition RemovePod (c : IoiContext) (pod : Pod) (nodeName : string)
    : outcome (IoiContext * option error) :=
  let! c := ctx_Lock c in
  match GetReservedPods c (pod_NodeName pod) with
  | inr err => Ok (ctx_Unlock c, Some ("get reserved pods error: " +:+ err))
  | inl p =>
      let! v := deref p in
      let v' := mkPodList (add64 (Generation v) 1) (delete (pod_UID pod) (pl_PodList v)) in
      let c := set_Reservedpod (<[pod_NodeName pod := Some v']> (Reservedpod c)) c in
      let c := UpdateReservedPods c nodeName pod None in
      Ok (ctx_Unlock c, None)
  end.

Section Publish.
Context `{Q : QuantityLib} `{!JsonLib} {K : Type} `{!KubeClient K}.

(** updateContext: publish one queued spec. *)
Definition updateContext (k : K) (c : IoiContext) (spec : option NodeIOStatusSpec) (p : Pod)
    (req : option PodRequest) : outcome (K * IoiContext * option error) :=
  match spec with
  | None => Ok (k, c, None)
  | Some spec =>
      if String.eqb (spec_NodeName spec) "" then Ok (k, c, None)
      else
        let gen := default (-1) (lastUpdatedGen c !! spec_NodeName spec) in
        let! c := ctx_Lock c in
        if spec_Generation spec <=? gen then Ok (k, ctx_Unlock c, None)
        else
          let '(k, err) :=
            match req with
            | Some _ =>
                match PodRequest2String req with
                | inr err => (k, Some err)
                | inl reqBW =>
                    let '(k, err) := AddOrUpdateAnnoOnPod k p {[AllocatedIOAnno := reqBW]} in
                    (k, match err with
                        | Some e => Some ("AddOrUpdateAnnoOnPod fails: " +:+ kerr_msg e)
                        | None => None
                        end)
                end
            | None =>
                let '(k, err) := DeleteAnnoOnPod k p AllocatedIOAnno in
                (k, match err with
                    | Some e => if IsNotFound e then None
                                else Some ("DeleteAnnoOnPod fails: " +:+ kerr_msg e)
                    | None => None
                    end)
            end in
          match err with
          | Some err => Ok (k, ctx_Unlock c, Some err)
          | None =>
              let '(k, err) := UpdateNodeIOStatusSpec k (spec_NodeName spec) spec in
              match err with
              | Some e => Ok (k, ctx_Unlock c, Some (kerr_msg e))
              | None =>
                  Ok (k, ctx_Unlock (set_lastUpdatedGen
                           (<[spec_NodeName spec := spec_Generation spec]> (lastUpdatedGen c)) c),
                      None)
              end
          end
  end.

(** One round of RunWorkerQueue: [None] while the queue is empty.  An item
    whose update fails is put back by AddRateLimited after a delay: it waits
    in [delayed] until then. *)
Definition worker_step (k : K) (c : IoiContext) (delayed : list syncContext)
    : outcome (option (K * IoiContext * list syncContext)) :=
  match queue c with
  | [] => Ok None
  | it :: q =>
      let! '(k, c, err) :=
        updateContext k (set_queue q c) (sync_spec it) (sync_pod it) (sync_req it) in
      Ok (Some (k, c, match err with Some _ => delayed ++ [it] | None => delayed end))
  end.
End Publish.

(** ** Code the four plugins share *)

(** Results of AddPod: the requests, an error with [ok], an error without. *)
Inductive add_result :=
| Added (reqs : list IOResourceRequest)
| AddError (err : error)
| AddRefused (err : error).

(** Reserved bandwidth of a pod on a device, and whether it is best effort
    there. *)
Fixpoint reserved_bw (io : IOType) (dev : string) (l : list IOResourceRequest) (i o : f64)
    : f64 * f64 * bool :=
  match l with
  | [] => (i, o, false)
  | r :: l' =>
      match DevRequest r with
      | None => reserved_bw io dev l' i o
      | Some d =>
          if negb (bool_decide (IoType r = io)) || negb (String.eqb (DevName d) dev)
          then reserved_bw io dev l' i o
          else if WorkloadType r =? BeIndex then (i, o, true)
          else
            match dr_Request d with
            | Some q => reserved_bw io dev l' (fadd i (Inbps q)) (fadd o (Outbps q))
            | None => reserved_bw io dev l' i o
            end
      end
  end.

(** Sums over the reserved pods of a node: guaranteed in and out, and the
    number of best-effort pods. *)
Definition reserved_totals `{!GoRange} (calculateReservedBw : string → PodRequest → f64 * f64 * bool)
    (dev : string) (pl : PodList) : f64 * f64 * Z :=
  foldl (λ acc kv,
    let '(gaIn, gaOut, beNum) := acc in
    let '(gain, gaout, isbe) := calculateReservedBw dev kv.2 in
    (fadd gaIn gain, fadd gaOut gaout, if isbe then add64 beNum 1 else beNum))
    (fzero, fzero, 0) (range (pl_PodList pl)).

Definition reserved_list (c : IoiContext) (node : string) : option PodList :=
  match GetReservedPods c node with inl p => p | inr _ => None end.

(** [if BE != nil { BE.Num = n } else { BE = &IOPoolStatus{Num: n} }] *)
Definition set_be_num (n : Z) (be : option IOPoolStatus) : option IOPoolStatus :=
  match be with
  | Some be => Some (pool_set_num be n)
  | None => Some (pool_set_num pool_zero n)
  end.

(** [float64((100 - bePool) * int(c) / 100)] and [float64(bePool * int(c) / 100)] *)
Definition ga_capacity (bePool : Z) (c : f64) : f64 :=
  of_Z (wrap64 (Z.quot (mul64 (sub64 100 bePool) (to_int64 c)) 100)).
Definition be_capacity (bePool : Z) (c : f64) : f64 :=
  of_Z (wrap64 (Z.quot (mul64 bePool (to_int64 c)) 100)).

Definition dash : ascii := "-"%char.
Definition has_label (kind : string) (node : Node) : bool :=
  match node_Labels node !! "ioisolation" with
  | None => false
  | Some v =>
      if String.eqb v "all" || String.eqb v kind then true
      else existsb (String.eqb kind) (str_split dash v)
  end.

Definition GA_Type : string := "GA".
Definition BE_Type : string := "BE".
Definition BE_Min_BW : string := "BE_MIN".
Definition AVAIL_STORAGE : string := "AVAIL_STORAGE".
Abbreviation pools := (gmap string (gmap string (option IOPoolStatus))).

(** [x / float64(n)] of canFit and CanAdmitPod: the share of one more user. *)
Definition be_share (total : f64) (num : Z) : f64 := fdiv total (of_Z (add64 num 1)).

(** [request.DevRequest.Request] *)
Definition dev_quantity (r : IOResourceRequest) : outcome Quantity :=
  let! d := deref (DevRequest r) in deref (dr_Request d).

(** [if pool != 0 { req / pool } else { 1 }] *)
Definition ratio_of_pool (req : outcome f64) (pool : f64) : outcome f64 :=
  if negb (feq pool fzero) then let! x := req in Ok (fdiv x pool) else Ok (of_Z 1).

(** The guarantees asked by a GA request against the pool. *)
Definition check_GA (Name nodeName : string) (ga : IOPoolStatus) (q : Quantity) : option error :=
  if ps_UnderPressure ga then
    Some ("device on Node " +:+ nodeName +:+ " is under " +:+ Name +:+ " pressure")
  else if flt (ps_Total ga) (fadd (Inbps q) (Outbps q)) then
    Some ("insufficient " +:+ Name +:+ " total IO resource on node " +:+ nodeName)
  else if flt (ps_In ga) (Inbps q) then
    Some ("insufficient " +:+ Name +:+ " in IO resource on node " +:+ nodeName)
  else if flt (ps_Out ga) (Outbps q) then
    Some ("insufficient " +:+ Name +:+ " out IO resource on node " +:+ nodeName)
  else None.

Definition check_BE (Name nodeName : string) (be bem : IOPoolStatus) : option error :=
  if ps_UnderPressure be then
    Some ("device on Node " +:+ nodeName +:+ " is under " +:+ Name +:+ " pressure")
  else if fle (be_share (ps_Total be) (ps_Num be)) (ps_Total bem) then
    Some ("insufficient " +:+ Name +:+ " total BE IO resource on node " +:+ nodeName)
  else if fle (be_share (ps_In be) (ps_Num be)) (ps_In bem) then
    Some ("insufficient " +:+ Name +:+ " in BE IO resource on node " +:+ nodeName)
  else if fle (be_share (ps_Out be) (ps_Num be)) (ps_Out bem) then
    Some ("insufficient " +:+ Name +:+ " out BE IO resource on node " +:+ nodeName)
  else None.
