(* ===== verification/BinPack.v ===== *)
(** * pkg/scheduler/blockio/bp.go: first-fit packing of volumes on disks *)

From S2P Require Export Context.

(** Volume to disk, and claim to its reservation. *)
Abbreviation packing := (gmap string string * gmap string PVCInfo)%type.

Section BinPack.
Context `{Q : QuantityLib} `{!GoRange, !GoSort}.

Definition NotBE : string := "NotBE".
Definition BE_QoS : string := "BE".

(** The remaining resources of a disk. *)
Record PDevice := mkPDevice {
  pd_Name : string;
  pd_GA : option IOPoolStatus;
  pd_BE : option IOPoolStatus;
  pd_BEM : IOPoolStatus;
  pd_Size : Z
}.

Record PVolume := mkPVolume {
  pv_Name : string; PvcName : string; pv_QoS : string;
  RawRead : f64; RawWrite : f64; TransRead : f64; TransWrite : f64;
  BlockSizeRead : quantity; BlockSizeWrite : quantity; pv_Size : Z
}.

Definition set_Trans (tr tw : f64) (v : PVolume) : PVolume :=
  mkPVolume (pv_Name v) (PvcName v) (pv_QoS v) (RawRead v) (RawWrite v) tr tw
    (BlockSizeRead v) (BlockSizeWrite v) (pv_Size v).

(** Device.canFit: the answer, and the volume with its translated
    bandwidths recorded when it fits. *)
Definition canFit (ds : PDevice) (vol : PVolume) (diskinfo : DiskInfo)
    : outcome (bool * PVolume) :=
  if String.eqb (pv_QoS vol) NotBE then
    let! rr := FindMappingRatio (BlockSizeRead vol) (ReadRatio diskinfo) in
    let! wr := FindMappingRatio (BlockSizeWrite vol) (WriteRatio diskinfo) in
    let! ga := deref (pd_GA ds) in
    let tr := fmul (RawRead vol) rr.2 in
    let tw := fmul (RawWrite vol) wr.2 in
    if fle tr (ps_In ga) && fle tw (ps_Out ga) && fle (fadd tr tw) (ps_Total ga) &&
       (pv_Size vol <=? pd_Size ds) && negb (ps_UnderPressure ga)
    then Ok (true, set_Trans tr tw vol)
    else Ok (false, vol)
  else if String.eqb (pv_QoS vol) BE_QoS then
    let! be := deref (pd_BE ds) in
    Ok (flt (ps_In (pd_BEM ds)) (be_share (ps_In be) (ps_Num be)) &&
        flt (ps_Out (pd_BEM ds)) (be_share (ps_Out be) (ps_Num be)) &&
        flt (ps_Total (pd_BEM ds)) (be_share (ps_Total be) (ps_Num be)) &&
        (pv_Size vol <=? pd_Size ds) && negb (ps_UnderPressure be), vol)
  else Ok (false, vol).

(** Device.pack *)
Definition pack (ds : PDevice) (vol : PVolume) : outcome PDevice :=
  if String.eqb (pv_QoS vol) NotBE then
    let! ga := deref (pd_GA ds) in
    let ga' := mkPool (fsub (ps_Total ga) (fadd (TransRead vol) (TransWrite vol)))
                 (fsub (ps_In ga) (TransRead vol)) (fsub (ps_Out ga) (TransWrite vol))
                 (ps_UnderPressure ga) (ps_Num ga) in
    Ok (mkPDevice (pd_Name ds) (Some ga') (pd_BE ds) (pd_BEM ds)
          (sub64 (pd_Size ds) (pv_Size vol)))
  else
    Ok (mkPDevice (pd_Name ds) (pd_GA ds) (pd_BE ds) (pd_BEM ds)
          (sub64 (pd_Size ds) (pv_Size vol))).

(** Device.AddVol *)
Definition AddVol (ds : PDevice) (vol : PVolume) (ratio : DiskInfo)
    : outcome (bool * PDevice * PVolume) :=
  let! '(fit, vol) := canFit ds vol ratio in
  if fit then let! ds := pack ds vol in Ok (true, ds, vol) else Ok (false, ds, vol).

(** The entry that DeviceSlice.AddDevice stores. *)
Definition NewDevice (name : string) (dev : DiskInfo) : PDevice :=
  mkPDevice name (pool_DeepCopy (di_GA dev)) (pool_DeepCopy (di_BE dev))
    (mkPool (fadd (BEDefaultRead dev) (BEDefaultWrite dev))
       (BEDefaultRead dev) (BEDefaultWrite dev) false 0)
    (sub64 (Capacity dev) (RequestedDiskSpace dev)).
Definition AddDevice (devices : gmap string PDevice) (name : string) (dev : DiskInfo)
    : gmap string PDevice := <[name := NewDevice name dev]> devices.

(** Volume.GetVolume and the orders of the two sorts. *)
Definition GetVolume (v : PVolume) : f64 :=
  fmul (fadd (RawRead v) (RawWrite v)) (of_Z (pv_Size v)).
Definition vol_less (a b : PVolume) : bool := flt (GetVolume b) (GetVolume a).
Definition ga_total (d : DiskInfo) : outcome f64 :=
  let! p := deref (di_GA d) in Ok (ps_Total p).

(** The inner loop of Pack: the first device of [devs] that takes [v]. *)
Fixpoint place (devices : gmap string DiskInfo) (devs : list string)
    (ds : gmap string PDevice) (v : PVolume)
    : outcome (option string * gmap string PDevice * PVolume) :=
  match devs with
  | [] => Ok (None, ds, v)
  | name :: devs' =>
      let! info := deref (devices !! name) in
      let! dev := deref (ds !! name) in
      let! '(added, dev, v) := AddVol dev v info in
      let ds := <[name := dev]> ds in
      if added then Ok (Some name, ds, v) else place devices devs' ds v
  end.

(** The outer loop; [None] when a volume has no allocation. *)
Fixpoint pack_vols (devices : gmap string DiskInfo) (devs : list string)
    (vols : list PVolume) (ds : gmap string PDevice) (acc : packing)
    : outcome (gmap string PDevice * option packing) :=
  match vols with
  | [] => Ok (ds, Some acc)
  | v :: vols' =>
      let! '(where_, ds, v) := place devices devs ds v in
      let '(volToDev, allocation) := acc in
      let acc' :=
        match where_ with
        | Some name => (<[pv_Name v := name]> volToDev,
                        <[PvcName v := mkPVCInfo name (pv_Size v) false]> allocation)
        | None => (volToDev, allocation)
        end in
      match acc'.2 !! PvcName v with
      | None => Ok (ds, None)
      | Some _ => pack_vols devices devs vols' ds acc'
      end
  end.

(** The device names, by decreasing GA.Total.  The comparison reads
    [devices[d].GA.Total]; with a single device it is never made. *)
Definition total_or_zero (devices : gmap string DiskInfo) (d : string) : f64 :=
  match devices !! d with
  | Some info => match di_GA info with Some p => ps_Total p | None => fzero end
  | None => fzero
  end.
Definition sort_devs (devices : gmap string DiskInfo) : outcome (list string) :=
  let devs := (range devices).*1 in
  if Nat.ltb 1 (length devs) &&
     negb (forallb (λ kd, match di_GA kd.2 with Some _ => true | None => false end)
             (range devices))
  then Crash NilDeref
  else Ok (go_sort (λ a b, flt (total_or_zero devices b) (total_or_zero devices a)) devs).

(** FirstFitPacker.Pack; [slice] is the packer's own device slice, which
    survives from one call to the next. *)
Definition Pack (slice : gmap string PDevice) (devices : gmap string DiskInfo)
    (vols : list PVolume) : outcome (gmap string PDevice * option packing) :=
  let vols := go_sort vol_less vols in
  let slice := foldl (λ s kd, AddDevice s kd.1 kd.2) slice (range devices) in
  let! devs := sort_devs devices in
  pack_vols devices devs vols slice (∅, ∅).
End BinPack.
