(* ===== verification/BlockIO.v ===== *)
(** * pkg/scheduler/blockio: the disk plugin

    handle.go (the cache handle) and resource.go (the cached node resource).
    Every function is translated whole; a function that reads the store
    without writing it takes it as an argument, one that writes it is a
    [GoM] computation. *)

From S2P Require Export BinPack.

(** ** addPodRequest *)

Definition q_add_bps (q r : Quantity) : Quantity :=
  mkQuantity (fadd (Inbps q) (Inbps r)) (fadd (Outbps q) (Outbps r)) (Iniops q) (Outiops q).
Definition q_add_all (q r : Quantity) : Quantity :=
  mkQuantity (fadd (Inbps q) (Inbps r)) (fadd (Outbps q) (Outbps r))
    (fadd (Iniops q) (Iniops r)) (fadd (Outiops q) (Outiops r)).

(** The branch of a guaranteed request on a device that has one already. *)
Definition merge_GA (cur req : IOResourceRequest) : outcome IOResourceRequest :=
  let! d := deref (DevRequest cur) in
  let! r := deref (DevRequest req) in
  let! rq := deref (dr_Request r) in
  let! rl := deref (dr_Limit r) in
  let! rrq := deref (dr_RawRequest r) in
  let! rrl := deref (dr_RawLimit r) in
  Ok (mkIOReq (IoType cur) GaIndex (Some (mkDevReq (DevName d)
    (Some (q_add_bps (default quantity_zero (dr_Request d)) rq))
    (Some (q_add_bps (default quantity_zero (dr_Limit d)) rl))
    (Some (q_add_all (default quantity_zero (dr_RawRequest d)) rrq))
    (Some (q_add_all (default quantity_zero (dr_RawLimit d)) rrl))))).

(** One iteration of addPodRequest. *)
Definition add_request (m : gmap string IOResourceRequest) (dev : string)
    (req : IOResourceRequest) : outcome (gmap string IOResourceRequest) :=
  match m !! dev with
  | None => Ok (<[dev := req]> m)
  | Some cur =>
      let! cur := (if WorkloadType req =? GaIndex then merge_GA cur req else Ok cur) in
      let cur :=
        if (WorkloadType req =? BeIndex) && negb (WorkloadType cur =? GaIndex)
        then mkIOReq (IoType cur) BeIndex (DevRequest cur) else cur in
      Ok (<[dev := cur]> m)
  end.

Definition addPodRequest `{!GoRange} (m reqs : gmap string IOResourceRequest)
    : outcome (gmap string IOResourceRequest) :=
  foldM (λ m kv, add_request m kv.1 kv.2) m (range reqs).

Section BlockIO.
Context `{Q : QuantityLib} `{!JsonLib} `{!GoRange, !GoSort} {K : Type} `{!KubeClient K}.
Implicit Types s : HS K.

Definition Name : string := "BlockIOHandle".

(** The cached resource of a node, if it is a blockio one. *)
Definition get_block s (nodeName : string) : option (ExtendedResource) :=
  GetExtendedResource (hs_cache s) nodeName.
Definition as_block (r : ExtendedResource) : option BlockResource :=
  match r with ER_Block b => Some b | _ => None end.

(** ** CanAdmitPod *)

Definition disk_pools (d : DiskInfo) : gmap string (option IOPoolStatus) :=
  <[AVAIL_STORAGE := Some (mkPool (of_Z (sub64 (Capacity d) (RequestedDiskSpace d)))
                             fzero fzero false 0)]>
  (<[BE_Min_BW := Some (mkPool (fadd (BEDefaultRead d) (BEDefaultWrite d))
                          (BEDefaultRead d) (BEDefaultWrite d) false 0)]>
  (<[BE_Type := di_BE d]> {[GA_Type := di_GA d]})).

Definition node_pools (n : BlockNodeInfo) : pools := disk_pools <$> DisksStatus n.

(** One device of the request; [Some] is the error. *)
Definition admit_device (nodeName : string) (ps : pools) (dev : string)
    (req : StorageIORequest) : outcome (option error) :=
  match ps !! dev with
  | None => Ok (Some ("device " +:+ dev +:+ " on Node " +:+ nodeName +:+
                      " is not registed: " +:+ Name))
  | Some poolStatus =>
      if Nat.ltb (size poolStatus) 4 then
        Ok (Some ("internal " +:+ Name +:+ " error on Node " +:+ nodeName))
      else
        let get t := deref (default None (poolStatus !! t)) in
        let! st := get AVAIL_STORAGE in
        if to_int64 (ps_Total st) <? StorageRequest req then
          Ok (Some ("insufficient " +:+ Name +:+ " storage space on node " +:+ nodeName))
        else
          let request := IORequest req in
          if WorkloadType request =? GaIndex then
            let! ga := get GA_Type in
            if ps_UnderPressure ga then
              Ok (check_GA Name nodeName ga quantity_zero)
            else
              let! q := dev_quantity request in
              Ok (check_GA Name nodeName ga q)
          else if WorkloadType request =? BeIndex then
            let! be := get BE_Type in
            let! bem := get BE_Min_BW in
            Ok (check_BE Name nodeName be bem)
          else Ok None
  end.

(** The pools (the third and first results are "no error" and [true]), or
    the error. *)
Definition CanAdmitPod s (nodeName : string) (rawRequest : any) : outcome (any + error) :=
  match rawRequest with
  | any_block requests =>
      match get_block s nodeName with
      | None => Ok (inr ("node " +:+ nodeName +:+ " not registered in cache"))
      | Some rs =>
          match as_block rs with
          | None => Ok (inr "incorrect resource cached")
          | Some r =>
              let! info := deref (br_info r) in
              let ps := node_pools info in
              let! c := for_range (range (ResourceRequest requests)) ()
                (λ _ kv,
                   let! e := admit_device nodeName ps kv.1 kv.2 in
                   Ok (match e with None => Next () | Some err => Return err end)) in
              Ok (match c with Next _ => inl (any_pools ps) | Return err => inr err end)
          end
      end
  | _ => Ok (inr ("unable to convert state into " +:+ Name +:+ "'s pod request format"))
  end.

(** ** NodePressureRatio *)

Definition NodePressureRatio (request pool : any) : outcome (f64 + error) :=
  match request with
  | any_block r =>
      match pool with
      | any_pools p =>
          let nDev := Z.of_nat (size (ResourceRequest r)) in
          let! c := for_range (range (ResourceRequest r)) fzero (λ ratio kv,
            let request := IORequest kv.2 in
            if WorkloadType request =? BeIndex then Ok (Next (fadd ratio fzero))
            else
              match p !! kv.1 with
              | None => Ok (Return ("cannot find device " +:+ kv.1 +:+ " in pool"))
              | Some devicePool =>
                  match devicePool !! GA_Type with
                  | None => Ok (Return "cannot find gapool in pool")
                  | Some g =>
                      let! gapool := deref g in
                      let field f := let! q := dev_quantity request in Ok (f q) in
                      let! r1 := ratio_of_pool (field Inbps) (ps_In gapool) in
                      let! r2 := ratio_of_pool (field Outbps) (ps_Out gapool) in
                      let! r3 := ratio_of_pool (field (λ q, fadd (Inbps q) (Outbps q)))
                                   (ps_Total gapool) in
                      let devRatio := fadd (fadd (fadd fzero r1) r2) r3 in
                      Ok (Next (fadd ratio (fdiv devRatio (of_Z 3))))
                  end
              end) in
          Ok (match c with
              | Return err => inr err
              | Next ratio =>
                  if nDev =? 0 then inl (fdiv (of_Z 1) (of_Z 2))
                  else inl (fdiv ratio (of_Z nDev))
              end)
      | _ => Ok (inr ("unable to convert state into " +:+ Name +:+ "'s node resource pool format"))
      end
  | _ => Ok (inr ("unable to convert state into " +:+ Name +:+ "'s pod request format"))
  end.

(** ** Annotations to requests *)

(** A bandwidth annotation against the ratios of a disk: raw bandwidth, raw
    operations per second and translated bandwidth; [None] on a parse error. *)
Definition parse_bw (config : string) (ratios : list MappingRatio)
    : outcome (option (f64 * f64 * f64)) :=
  match ParseDiskRequestBandwidth config with
  | inr _ => Ok None
  | inl (bw, bsz) =>
      let bwValue := AsInt64 bw in
      let! '(bs, ratio) := FindMappingRatio bsz ratios in
      let bsValue := AsInt64 bs in
      let! iops := div64 bwValue bsValue in
      Ok (Some (fdiv (of_Z bwValue) MiB, of_Z iops, fmul (fdiv (of_Z bwValue) MiB) ratio))
  end.

Definition set_in (raw : option (f64 * f64 * f64)) (q : Quantity) : Quantity :=
  match raw with Some (_, _, bps) => mkQuantity bps (Outbps q) (Iniops q) (Outiops q) | None => q end.
Definition set_out (raw : option (f64 * f64 * f64)) (q : Quantity) : Quantity :=
  match raw with Some (_, _, bps) => mkQuantity (Inbps q) bps (Iniops q) (Outiops q) | None => q end.
Definition set_raw_in (raw : option (f64 * f64 * f64)) (q : Quantity) : Quantity :=
  match raw with
  | Some (bps, iops, _) => mkQuantity bps (Outbps q) iops (Outiops q)
  | None => q
  end.
Definition set_raw_out (raw : option (f64 * f64 * f64)) (q : Quantity) : Quantity :=
  match raw with
  | Some (bps, iops, _) => mkQuantity (Inbps q) bps (Iniops q) iops
  | None => q
  end.

(** A bandwidth below the disk's best-effort default is raised to it. *)
Definition raise_bps (d : DiskInfo) (q : Quantity) : Quantity :=
  mkQuantity (if flt (Inbps q) (BEDefaultRead d) then BEDefaultRead d else Inbps q)
    (if flt (Outbps q) (BEDefaultWrite d) then BEDefaultWrite d else Outbps q)
    (Iniops q) (Outiops q).
(** The raw values beside a raised bandwidth [q]: both sides are computed from
    the default read bandwidth. *)
Definition raise_raw (d : DiskInfo) (rratio wratio dbs : f64) (q raw : Quantity) : Quantity :=
  let raw_in := fdiv (BEDefaultRead d) rratio in
  let raw_out := fdiv (BEDefaultRead d) wratio in
  let low_in := flt (Inbps q) (BEDefaultRead d) in
  let low_out := flt (Outbps q) (BEDefaultWrite d) in
  mkQuantity (if low_in then raw_in else Inbps raw) (if low_out then raw_out else Outbps raw)
    (if low_in then fdiv (fmul raw_in MiB) dbs else Iniops raw)
    (if low_out then fdiv (fmul raw_out MiB) dbs else Outiops raw).

(** The limits of a guaranteed volume, where the annotation sets none: the
    write limit is divided by the write ratio, the read limit is not. *)
Definition default_limit {A B} (rl : option A) (wl : option B) (wratio : f64) (lim : Quantity)
    : Quantity :=
  mkQuantity (match rl with None => MAX_BT_LIMIT | Some _ => Inbps lim end)
    (match wl with None => fdiv MAX_BT_LIMIT wratio | Some _ => Outbps lim end)
    (Iniops lim) (Outiops lim).
Definition default_raw_limit {A B} (rl : option A) (wl : option B) (rratio wratio dbs : f64)
    (raw : Quantity) : Quantity :=
  mkQuantity (match rl with None => fdiv MAX_BT_LIMIT rratio | Some _ => Inbps raw end)
    (match wl with None => fdiv MAX_BT_LIMIT wratio | Some _ => Outbps raw end)
    (match rl with None => fdiv (fdiv (fmul MAX_BT_LIMIT MiB) rratio) dbs | Some _ => Iniops raw end)
    (match wl with None => fdiv (fdiv (fmul MAX_BT_LIMIT MiB) wratio) dbs | Some _ => Outiops raw end).

Definition getDeviceRequest (request : IOResourceRequest) (devInfo : DiskInfo)
    (anno : VolumeAnnoThroughput) : outcome IOResourceRequest :=
  let! d := deref (DevRequest request) in
  let! rr := parse_bw (Rbps (va_Requests anno)) (ReadRatio devInfo) in
  let! wr := parse_bw (Wbps (va_Requests anno)) (WriteRatio devInfo) in
  let! rl := parse_bw (Rbps (va_Limits anno)) (ReadRatio devInfo) in
  let! wl := parse_bw (Wbps (va_Limits anno)) (WriteRatio devInfo) in
  let! request0 := deref (dr_Request d) in
  let! limit0 := deref (dr_Limit d) in
  let! rawreq0 := deref (dr_RawRequest d) in
  let! rawlim0 := deref (dr_RawLimit d) in
  let req := set_out wr (set_in rr request0) in
  let rawreq := set_raw_out wr (set_raw_in rr rawreq0) in
  let lim := set_out wl (set_in rl limit0) in
  let rawlim := set_raw_out wl (set_raw_in rl rawlim0) in
  let done (w : Z) (req rawreq lim rawlim : Quantity) :=
    Ok (mkIOReq (IoType request) w
          (Some (mkDevReq (DevName d) (Some req) (Some lim) (Some rawreq) (Some rawlim)))) in
  match rr, rl, wr, wl with
  | None, None, None, None => done BeIndex req rawreq lim rawlim
  | _, _, _, _ =>
      let! defaultBs := MustParse "4k" in
      let dbs := of_Z (Value defaultBs) in
      let! '(_, rratio) := FindMappingRatio defaultBs (ReadRatio devInfo) in
      let! '(_, wratio) := FindMappingRatio defaultBs (WriteRatio devInfo) in
      let lim := default_limit rl wl wratio lim in
      let rawlim := default_raw_limit rl wl rratio wratio dbs rawlim in
      done GaIndex
        (raise_bps devInfo req) (raise_raw devInfo rratio wratio dbs req rawreq)
        (raise_bps devInfo lim) (raise_raw devInfo rratio wratio dbs lim rawlim)
  end.

Definition be_request (dev : string) : IOResourceRequest :=
  mkIOReq IOType_DiskIO BeIndex (Some (mkDevReq dev None None None None)).
Definition empty_request (dev : string) : IOResourceRequest :=
  mkIOReq IOType_DiskIO GaIndex
    (Some (mkDevReq dev (Some quantity_zero) (Some quantity_zero)
             (Some quantity_zero) (Some quantity_zero))).

Definition parseBEIOAnnotations (devId : string) : gmap string IOResourceRequest :=
  {[devId := be_request devId]}.

Definition parsePVIOAnnotations (anno : VolumeAnnoThroughput) (devId : string)
    (devInfo : DiskInfo) : outcome (gmap string IOResourceRequest) :=
  let! request := getDeviceRequest (empty_request devId) devInfo anno in
  Ok {[devId := request]}.

Definition getVolumeRequestFromAnno (pvcMapping : gmap string string)
    (anno : PodAnnoThroughput) (info : BlockNodeInfo) : outcome (gmap string IOResourceRequest) :=
  if (size pvcMapping =? 0)%nat then
    match DisksStatus info !! EmptyDirDevice info with
    | Some _ => addPodRequest ∅ (parseBEIOAnnotations (EmptyDirDevice info))
    | None => Ok ∅
    end
  else
    foldM (λ requests kv,
      let '(vol, dev) := kv in
      match anno !! vol with
      | Some req =>
          match DisksStatus info !! dev with
          | None => Ok requests
          | Some devInfo =>
              let! request := getDeviceRequest (empty_request dev) devInfo req in
              addPodRequest requests {[dev := request]}
          end
      | None => addPodRequest requests {[dev := be_request dev]}
      end) ∅ (range pvcMapping).

(** Volumes of the pod backed by a claim of this provisioner: the loops
    below skip the others. *)
Definition getDiskFromContext s (pod : Pod) (defaultDev : string)
    : outcome (gmap string string) :=
  foldM (λ mapping vol,
    match vol_PVC vol with
    | Some pvcName =>
        let! ok := ioi_claim (hs_kube s) pvcName (pod_Namespace pod) in
        if ok then
          match GetStorageInfo (hs_ctx s) (pvc_key pvcName (pod_Namespace pod)) with
          | inr _ => Ok mapping
          | inl si => Ok (<[vol_Name vol := si_DevID si]> mapping)
          end
        else Ok mapping
    | None =>
        if vol_EmptyDir vol then Ok (<[vol_Name vol := defaultDev]> mapping) else Ok mapping
    end) ∅ (pod_Volumes pod).

Definition getBoundedPVCInfo s (pod : Pod) (node : string)
    : outcome (gmap string PVCInfo + error) :=
  let! c := for_range (pod_Volumes pod) (∅ : gmap string PVCInfo) (λ pvcToDevice vol,
    match vol_PVC vol with
    | None => Ok (Next pvcToDevice)
    | Some pvc =>
        let! ok := ioi_claim (hs_kube s) pvc (pod_Namespace pod) in
        if negb ok then Ok (Next pvcToDevice)
        else
          match pvc_get (hs_kube s) (pod_Namespace pod) pvc with
          | inr err => Ok (Return ("failed to get pvc " +:+ pvc +:+
                            " when getting bound info, err: " +:+ kerr_msg err))
          | inl claim =>
              match pvc_Annotations claim !! AnnSelectedNode with
              | None => Ok (Next pvcToDevice)
              | Some n =>
                  if negb (String.eqb n node) then
                    Ok (Return ("PVC " +:+ pvc +:+ " is bounded to node " +:+ n +:+
                                ", not " +:+ node))
                  else
                    let reqStorage := default quantity0 (pvc_Storage claim) in
                    if bool_decide (pvc_Phase claim = ClaimPending) then Ok (Next pvcToDevice)
                    else
                      let k := pvc_key pvc (pod_Namespace pod) in
                      match ClaimDevMap (hs_ctx s) !! k with
                      | None => Ok (Next pvcToDevice)
                      | Some v => Ok (Next (<[k := mkPVCInfo (si_DevID v) (Value reqStorage) true]>
                                              pvcToDevice))
                      end
              end
          end
    end) in
  Ok (match c with Next m => inl m | Return err => inr err end).

(** The volume that getRestVolumes packs for a claim. *)
Definition rest_volume (anno : PodAnnoThroughput) (vol : Volume) (k : string) (claim : PVC)
    : PVolume :=
  let reqStorage := default quantity0 (pvc_Storage claim) in
  let parsed config :=
    match ParseDiskRequestBandwidth config with
    | inl (bw, bs) => Some (fdiv (of_Z (AsInt64 bw)) MiB, bs)
    | inr _ => None
    end in
  let '(r, w) :=
    match anno !! vol_Name vol with
    | Some v => (parsed (Rbps (va_Requests v)), parsed (Wbps (va_Requests v)))
    | None => (None, None)
    end in
  let qos := match r, w with Some _, Some _ => NotBE | _, _ => BE_QoS end in
  mkPVolume (vol_Name vol) k qos
    (match r with Some x => x.1 | None => fzero end) (match w with Some x => x.1 | None => fzero end)
    fzero fzero
    (match r with Some x => x.2 | None => quantity0 end)
    (match w with Some x => x.2 | None => quantity0 end)
    (Value reqStorage).

Definition getRestVolumes s (pod : Pod) (anno : PodAnnoThroughput)
    (pvcToDevice : gmap string PVCInfo) : outcome (list PVolume + error) :=
  let! c := for_range (pod_Volumes pod) ([] : list PVolume) (λ volumes vol,
    match vol_PVC vol with
    | None => Ok (Next volumes)
    | Some pvc =>
        let! ok := ioi_claim (hs_kube s) pvc (pod_Namespace pod) in
        if negb ok then Ok (Next volumes)
        else
          let k := pvc_key pvc (pod_Namespace pod) in
          match pvcToDevice !! k with
          | Some _ => Ok (Next volumes)
          | None =>
              match pvc_get (hs_kube s) (pod_Namespace pod) pvc with
              | inr err => Ok (Return ("failed to get pvc " +:+ pvc +:+
                                " when getting bound info, err: " +:+ kerr_msg err))
              | inl claim => Ok (Next (volumes ++ [rest_volume anno vol k claim]))
              end
          end
    end) in
  Ok (match c with Next l => inl l | Return err => inr err end).

(** Storage asked by the claims not bound yet, per device. *)
Definition storage_requests (pvcToDevice : gmap string PVCInfo) : gmap string Z :=
  foldl (λ st kv, if Reuse kv.2 then st
                  else <[DevID kv.2 := add64 (default 0 (st !! DevID kv.2)) (ReqStorage kv.2)]> st)
    ∅ (range pvcToDevice).

Definition rest_disk (requests : gmap string IOResourceRequest) (stMap : gmap string Z)
    (k : string) (v : DiskInfo) : outcome DiskInfo :=
  let r := DiskInfo_DeepCopy v in
  let! r :=
    match requests !! k with
    | None => Ok r
    | Some request =>
        if WorkloadType request =? GaIndex then
          let! ga := deref (di_GA r) in
          let! q := dev_quantity request in
          Ok (set_GA (Some (pool_take ga (Inbps q) (Outbps q))) r)
        else Ok r
    end in
  Ok (match stMap !! k with
      | None => r
      | Some st => set_Requested (add64 (RequestedDiskSpace r) st) r
      end).

Definition getRestDisksStatus (disksStatus : gmap string DiskInfo)
    (requests : gmap string IOResourceRequest) (pvcToDevice : gmap string PVCInfo)
    : outcome (gmap string DiskInfo) :=
  let stMap := storage_requests pvcToDevice in
  foldM (λ rest kv,
                 let! r := rest_disk requests stMap kv.1 kv.2 in
                 Ok (<[kv.1 := r]> rest))
    ∅ (range disksStatus).

Definition getBoundedTotalRequests s (pod : Pod) (anno : PodAnnoThroughput)
    (pvcToDevice : gmap string PVCInfo) (disksStatus : gmap string DiskInfo)
    : outcome (gmap string IOResourceRequest) :=
  foldM (λ requests vol,
    match vol_PVC vol with
    | None => Ok requests
    | Some pvc =>
        match pvcToDevice !! pvc_key pvc (pod_Namespace pod) with
        | None => Ok requests
        | Some info =>
            let! ok := ioi_claim (hs_kube s) pvc (pod_Namespace pod) in
            if negb ok then Ok requests
            else
              match disksStatus !! DevID info with
              | None => Ok requests
              | Some devInfo =>
                  match anno !! vol_Name vol with
                  | Some v =>
                      let! reqs := parsePVIOAnnotations v (DevID info) devInfo in
                      addPodRequest requests reqs
                  | None => addPodRequest requests (parseBEIOAnnotations (DevID info))
                  end
              end
        end
    end) ∅ (pod_Volumes pod).

Definition pod_anno (pod : Pod) : PodAnnoThroughput :=
  match pod_Annotations pod !! BlockIOConfigAnno with
  | Some v => (unmarshal_block v).1
  | None => ∅
  end.

(** Step 1 of GetRequestByAnnotation: the emptyDir volumes; the flag is
    [hasEmptDir]. *)
Definition emptydir_requests (pod : Pod) (anno : PodAnnoThroughput) (dev : string)
    (emptyDirInfo : DiskInfo) : outcome (gmap string IOResourceRequest * bool) :=
  foldM (λ '(requests, has) vol,
    if vol_EmptyDir vol then
      match anno !! vol_Name vol with
      | Some v =>
          let! reqs := parsePVIOAnnotations v dev emptyDirInfo in
          let! requests := addPodRequest requests reqs in Ok (requests, true)
      | None =>
          let! requests := addPodRequest requests (parseBEIOAnnotations dev) in
          Ok (requests, true)
      end
    else Ok (requests, has)) (∅, false) (pod_Volumes pod).

(** GetRequestByAnnotation.  The packer's device slice is overwritten for
    every device it consults (theorem [Pack_first_fit]), so each call starts it empty. *)
Definition GetRequestByAnnotation s (pod : Pod) (node : string) (init : bool)
    : outcome (gmap string IOResourceRequest * any + error) :=
  match get_block s node with
  | None => Ok (inr "node not registered in cache")
  | Some rs =>
  match as_block rs with
  | None => Ok (inr "incorrect resource cached")
  | Some r =>
  match br_info r with
  | None => Ok (inr ("blockio: node " +:+ node +:+ " cache info is not registed"))
  | Some info =>
    let anno := pod_anno pod in
    if init then
      let! volumeMapping := getDiskFromContext s pod (EmptyDirDevice info) in
      let! requests := getVolumeRequestFromAnno volumeMapping anno info in
      Ok (inl (requests, any_nil))
    else
      match DisksStatus info !! EmptyDirDevice info with
      | None => Ok (inr ("emptyDir's disk " +:+ EmptyDirDevice info +:+
                         " not registed in node " +:+ node))
      | Some emptyDirInfo =>
        let! '(requests, hasEmptDir) :=
          emptydir_requests pod anno (EmptyDirDevice info) emptyDirInfo in
        let! b := getBoundedPVCInfo s pod node in
        match b with
        | inr err => Ok (inr ("unable to schedule pod " +:+ pod_Name pod +:+ ": " +:+ err))
        | inl pvcToDevice =>
          let! requests :=
            (if (size pvcToDevice =? 0)%nat then Ok requests
             else
               let! existVolReq :=
                 getBoundedTotalRequests s pod anno pvcToDevice (DisksStatus info) in
               addPodRequest requests existVolReq) in
          let! restDisksStatus := getRestDisksStatus (DisksStatus info) requests pvcToDevice in
          let! rv := getRestVolumes s pod anno pvcToDevice in
          match rv with
          | inr err => Ok (inr err)
          | inl restVolumes =>
            let finish requests (pvcToDevice : gmap string PVCInfo) :=
              let! requests :=
                (if (size pvcToDevice =? 0)%nat && negb hasEmptDir
                 then addPodRequest requests (parseBEIOAnnotations (EmptyDirDevice info))
                 else Ok requests) in
              Ok (inl (requests, any_pvcs pvcToDevice)) in
            match restVolumes with
            | [] => finish requests pvcToDevice
            | _ =>
              let! '(_, packed) := Pack ∅ restDisksStatus restVolumes in
              match packed with
              | None => Ok (inr "cannot pack pvc volume to device")
              | Some (restVolumeToDevice, restPvcToDevice) =>
                let! requests :=
                  (if (size restPvcToDevice =? 0)%nat then Ok requests
                   else
                     let! restRequests := getVolumeRequestFromAnno restVolumeToDevice anno info in
                     addPodRequest requests restRequests) in
                finish requests (MergePVCInfo pvcToDevice restPvcToDevice)
              end
            end
          end
        end
      end
  end
  end
  end.

Definition CriticalPod (annotations : gmap string string) : bool :=
  match annotations !! BlockIOConfigAnno with
  | Some v => (unmarshal_block v).2
  | None => false
  end.

(** ** Node status *)

Definition calculateReservedBw (dev : string) (l : PodRequest) : f64 * f64 * bool :=
  reserved_bw IOType_DiskIO dev (pr_Request l) fzero fzero.

(** A loop over [rc.Devices] that updates the registered disks with [f]. *)
Definition update_disks (pl : option PodList)
    (f : string → Device → PodList → DiskInfo → DiskInfo)
    (rc : ResourceConfigSpec) (n : option BlockNodeInfo) : outcome (option BlockNodeInfo) :=
  foldM (λ n kv,
    let! info := deref n in
    match DisksStatus info !! kv.1 with
    | None => Ok n
    | Some d =>
        let! pl := deref pl in
        Ok (Some (set_Disks (<[kv.1 := f kv.1 kv.2 pl d]> (DisksStatus info)) info))
    end) n (range (Devices rc)).

(** The body shared by the two Init functions: nothing happens for a node
    that is not cached. *)
Definition update_node (nodeName : string)
    (f : string → Device → PodList → DiskInfo → DiskInfo) (rc : ResourceConfigSpec)
    : GoM (HS K) () := λ s,
  match get_block s nodeName with
  | None => Ok ((), s)
  | Some rs =>
      match as_block rs with
      | None => Ok ((), s)
      | Some r =>
          let! info := update_disks (reserved_list (hs_ctx s) nodeName) f rc (br_info r) in
          print_cache (set_cache (SetExtendedResource (hs_cache s) nodeName
            (ER_Block (mkBlockResource (br_nodeName r) info))) s)
      end
  end.

Definition InitBENum (nodeName : string) (rc : ResourceConfigSpec) : GoM (HS K) () :=
  update_node nodeName (λ dev _ pl d,
    set_BE (set_be_num (reserved_totals calculateReservedBw dev pl).2 (di_BE d)) d) rc.

(** The pools that InitNodeStatus computes for a disk: the guaranteed share of
    the capacity less what the reserved pods hold, and the number of
    best-effort pods. *)
Definition init_disk (rc : ResourceConfigSpec) (dev : string) (info : Device) (pl : PodList)
    (d : DiskInfo) : DiskInfo :=
  let '(gaIn, gaOut, beNum) := reserved_totals calculateReservedBw dev pl in
  let ga := mkPool
    (fsub (fsub (ga_capacity (BEPool rc) (CapacityTotal info)) gaIn) gaOut)
    (fsub (ga_capacity (BEPool rc) (CapacityIn info)) gaIn)
    (fsub (ga_capacity (BEPool rc) (CapacityOut info)) gaOut) false 0 in
  set_BE (set_be_num beNum (di_BE d)) (set_GA (Some ga) d).
Definition InitNodeStatus (nodeName : string) (rc : ResourceConfigSpec) : GoM (HS K) () :=
  update_node nodeName (init_disk rc) rc.

Definition parseQuantity (value : string) : outcome quantity :=
  if String.eqb value "" then MustParse "0" else MustParse value.

(** Storage asked by the bound claims of this provisioner on a node. *)
Definition getBoundPVCsStorageRequest (k : K) (nodename : string) : gmap string Z + error :=
  if String.eqb nodename "" then inr "node name cannot be empty"
  else
    match pvc_list k with
    | inr err => inr ("get PVC error: " +:+ kerr_msg err)
    | inl pvcs =>
        inl (foldl (λ requests pvc,
          match pvc_Annotations pvc !! AnnSelectedNode,
                pvc_Annotations pvc !! AnnStorageProvisioner with
          | Some node, Some provisioner =>
              if String.eqb node nodename && bool_decide (pvc_Phase pvc = ClaimBound) &&
                 String.eqb provisioner StorageProvisioner
              then
                match pvc_Storage pvc with
                | None => requests
                | Some quantity =>
                    <[pvc_key (pvc_Name pvc) (pvc_Namespace pvc) := Value quantity]> requests
                end
              else requests
          | _, _ => requests
          end) ∅ pvcs)
    end.

Definition colon : ascii := ":"%char.

(** getDeviceUsage: used storage per device; records every binding of the
    node's volume-device map in the context. *)
Definition getDeviceUsage (k : K) (c : IoiContext) (nodename : string)
    : IoiContext * (gmap string Z + error) :=
  match getBoundPVCsStorageRequest k nodename with
  | inr err => (c, inr err)
  | inl requests =>
      match GetVolumeDeviceMap k nodename with
      | inr err =>
          if IsNotFound err then
            if (size requests =? 0)%nat then (c, inl ∅)
            else (c, inr ("internal error: volume-device-map is not found for nodename " +:+
                          nodename +:+ " but pvcs exist"))
          else (c, inr ("failed to get ConfigMap volume-device-map: nodename " +:+ nodename +:+
                        ", err: " +:+ kerr_msg err))
      | inl m =>
          let '(used, claims) :=
            foldl (λ acc kv,
              let '(used, claims) := acc in
              if String.eqb kv.1 DeviceInUse then acc
              else
                let v := match str_split colon kv.2 with
                         | [a; _] => a
                         | _ => kv.2
                         end in
                let req := default 0 (requests !! kv.1) in
                (<[v := match used !! v with Some u => add64 u req | None => req end]> used,
                 <[kv.1 := mkStorageInfo v req nodename]> claims))
              (∅ : gmap string Z, ClaimDevMap c) (range (cm_Data m)) in
          (set_ClaimDevMap claims c, inl used)
      end
  end.

(** The disk that AddCacheNodeInfo caches for a device. *)
Definition new_disk (rc : ResourceConfigSpec) (usage : gmap string Z) (dev : string)
    (info : Device) : outcome DiskInfo :=
  let! qty := parseQuantity (DiskSize info) in
  Ok (mkDiskInfo (dev_Name info) (ParseMappingRatio (dev_ReadRatio info))
        (ParseMappingRatio (dev_WriteRatio info)) (DefaultIn info) (DefaultOut info)
        (Some pool_zero)
        (Some (mkPool (be_capacity (BEPool rc) (CapacityTotal info))
                 (be_capacity (BEPool rc) (CapacityIn info))
                 (be_capacity (BEPool rc) (CapacityOut info)) false 0))
        (Value qty) (default 0 (usage !! dev)) (dev_MountPath info)).

Definition AddCacheNodeInfo (nodeName : string) (rc : ResourceConfigSpec)
    : GoM (HS K) (option error) := λ s,
  let '(c, usage) := getDeviceUsage (hs_kube s) (hs_ctx s) nodeName in
  let s := set_ctx c s in
  match usage with
  | inr err => Ok (Some err, s)
  | inl usage =>
      let! nodeInfo := foldM (λ n kv,
        let! d := new_disk rc usage kv.1 kv.2 in
        Ok (mkBlockNodeInfo (<[kv.1 := d]> (DisksStatus n))
              (if String.eqb (dev_Type kv.2) DefaultDevice then kv.1 else EmptyDirDevice n)))
        (mkBlockNodeInfo ∅ "") (range (Devices rc)) in
      let! '(_, s) := print_cache (set_cache (SetExtendedResource (hs_cache s) nodeName
                        (ER_Block (mkBlockResource nodeName (Some nodeInfo)))) s) in
      Ok (None, s)
  end.

(** The disk that UpdateDeviceNodeInfo adds. *)
Definition added_disk (new : ResourceConfigSpec) (info : Device) : outcome DiskInfo :=
  let! qty := parseQuantity (DiskSize info) in
  Ok (mkDiskInfo (dev_Name info) (ParseMappingRatio (dev_ReadRatio info))
        (ParseMappingRatio (dev_WriteRatio info)) (DefaultIn info) (DefaultOut info)
        (Some (mkPool (ga_capacity (BEPool new) (CapacityTotal info))
                 (ga_capacity (BEPool new) (CapacityIn info))
                 (ga_capacity (BEPool new) (CapacityOut info)) false 0))
        (Some (mkPool (be_capacity (BEPool new) (CapacityTotal info))
                 (be_capacity (BEPool new) (CapacityIn info))
                 (be_capacity (BEPool new) (CapacityOut info)) false 0))
        (Value qty) 0 (dev_MountPath info)).

Definition UpdateDeviceNodeInfo (node : string) (old new : ResourceConfigSpec)
    : GoM (HS K) (gmap string Device * gmap string Device + error) := λ s,
  let adds := Devices new ∖ Devices old in
  let dels := Devices old ∖ Devices new in
  match get_block s node with
  | None => Ok (inr ("node " +:+ node +:+ " not registered in cache"), s)
  | Some rs =>
      match as_block rs with
      | None => Ok (inr "incorrect resource type cached", s)
      | Some r =>
          let! n := foldM (λ n kv,
            let! info := deref n in
            let! d := added_disk new kv.2 in
            Ok (Some (mkBlockNodeInfo (<[kv.1 := d]> (DisksStatus info))
                  (if String.eqb (dev_Type kv.2) DefaultDevice then kv.1
                   else EmptyDirDevice info))))
            (br_info r) (range adds) in
          let! n := foldM (λ n kv,
            let! info := deref n in
            Ok (Some (set_Disks (delete kv.1 (DisksStatus info)) info)))
            n (range dels) in
          let! '(_, s) := print_cache (set_cache (SetExtendedResource (hs_cache s) node
                            (ER_Block (mkBlockResource (br_nodeName r) n))) s) in
          Ok (inl (adds, dels), s)
      end
  end.

Definition UpdatePVC (pvc : PVC) (nodename devId : string) (storage : Z) (add : bool)
    : GoM (HS K) (option error) := λ s,
  match get_block s nodename with
  | None => Ok (Some ("node " +:+ nodename +:+ " not registered in cache"), s)
  | Some rs =>
      match as_block rs with
      | None => Ok (Some "incorrect resource cached", s)
      | Some r =>
          let! info := deref (br_info r) in
          match DisksStatus info !! devId with
          | None => Ok (Some ("node " +:+ nodename +:+ " doesn't contain device " +:+ devId +:+
                              " info"), s)
          | Some diskStatus =>
              let '(s, storage) :=
                if add then (s, storage)
                else
                  match pvc_Annotations pvc !! AnnSelectedNode with
                  | None => (s, mul64 storage (-1))
                  | Some node =>
                      let '(k, _) := RemovePVCsFromVolDiskCm (hs_kube s) pvc node in
                      let c := set_ClaimDevMap
                        (delete (pvc_key (pvc_Name pvc) (pvc_Namespace pvc))
                           (ClaimDevMap (hs_ctx s))) (hs_ctx s) in
                      (set_ctx c (set_kube k s), mul64 storage (-1))
                  end in
              let d := set_Requested (add64 (RequestedDiskSpace diskStatus) storage) diskStatus in
              let! '(_, s) := print_cache (set_cache (SetExtendedResource (hs_cache s) nodename
                (ER_Block (mkBlockResource (br_nodeName r)
                   (Some (set_Disks (<[devId := d]> (DisksStatus info)) info))))) s) in
              Ok (None, s)
          end
      end
  end.

Definition DeleteCacheNodeInfo (nodeName : string) : GoM (HS K) (option error) := λ s,
  Ok (None, set_cache (DeleteExtendedResource (hs_cache s) nodeName) s).

(** calculateDiskStatus: the pools reported for a device, [None] when the
    report is to be ignored. *)
Definition calculateDiskStatus (inm : DeviceIOStatus) (dev : string)
    : option (IOPoolStatus * IOPoolStatus) :=
  match inm !! dev with
  | None => Some (pool_zero, pool_zero)
  | Some info =>
      let be := match info !! WorkloadBE with
                | Some r => pool_set_pressure pool_zero (IsUnderPressure (Pressure r))
                | None => pool_zero
                end in
      match info !! WorkloadGA with
      | Some v =>
          if flt (st_In v) fzero then None
          else Some (mkPool (st_Total v) (st_In v) (st_Out v) (IsUnderPressure (Pressure v)) 0, be)
      | None => Some (pool_zero, be)
      end
  end.

(** The loop of UpdateCacheNodeStatus over the disks of the node. *)
Definition report_disks (bw : DeviceIOStatus) (m : gmap string DiskInfo)
    : outcome (gmap string DiskInfo) :=
  foldM (λ m kv,
    match calculateDiskStatus bw kv.1 with
    | None => Ok m
    | Some (ga, be) =>
        let! old := deref (di_BE kv.2) in
        Ok (<[kv.1 := set_BE (Some (pool_set_pressure old (ps_UnderPressure be)))
                        (set_GA (Some ga) kv.2)]> m)
    end) m (range m).

Definition BlockIOType : string := "BlockIO".

Definition UpdateCacheNodeStatus (n : string) (nodeIoBw : NodeIOStatusStatus)
    : GoM (HS K) (option error) := λ s,
  let report : outcome (HS K * option error) :=
    match AllocatableBandwidth nodeIoBw !! BlockIOType with
    | None => Ok (s, None)
    | Some bw =>
        if (size bw =? 0)%nat then Ok (s, None)
        else
          match get_block s n with
          | None => Ok (s, Some "node not registered in cache")
          | Some rs =>
              match as_block rs with
              | None => Ok (s, Some "incorrect resource cached")
              | Some r =>
                  match GetReservedPods (hs_ctx s) n with
                  | inr _ => Ok (s, None)
                  | inl p =>
                      let! v := deref p in
                      if ObservedGeneration nodeIoBw =? Generation v then
                        let! info := deref (br_info r) in
                        let! m := report_disks bw (DisksStatus info) in
                        Ok (set_cache (SetExtendedResource (hs_cache s) n
                          (ER_Block (mkBlockResource (br_nodeName r) (Some (set_Disks m info))))) s,
                          None)
                      else Ok (s, None)
                  end
              end
          end
    end in
  let! '(s, err) := report in
  match err with
  | Some _ => Ok (err, s)
  | None => let! '(_, s) := print_cache s in Ok (None, s)
  end.

Definition NodeHasIoiLabel (node : Node) : bool := has_label "disk" node.

(** ** resource.go *)

(** The loop of volumeDeviceMapping, under the context's lock: new entries
    of the volume-device map, and the context with the new bindings.  An
    error returns from the function with the lock still held. *)
Definition bind_volumes (k : K) (disks : gmap string DiskInfo) (pvcMap : gmap string PVCInfo)
    (pod : Pod) (node_of_res nodename : string) (c : IoiContext)
    : outcome (ctrl (gmap string string * IoiContext) (error * IoiContext)) :=
  for_range (pod_Volumes pod) (∅ : gmap string string, c) (λ acc vol,
    let '(mapping, c) := acc in
    match vol_PVC vol with
    | None => Ok (Next acc)
    | Some pvcName =>
        let! ok := ioi_claim k pvcName (pod_Namespace pod) in
        if negb ok then Ok (Next acc)
        else
          let key := pvc_key pvcName (pod_Namespace pod) in
          match pvcMap !! key with
          | None => Ok (Return ("unable to get the reserved disk id for pvc " +:+ pvcName, c))
          | Some dev =>
              if Reuse dev then Ok (Next acc)
              else
                match disks !! DevID dev with
                | None => Ok (Return ("node " +:+ node_of_res +:+ " doesn't contain device " +:+
                                      DevID dev +:+ " info", c))
                | Some d =>
                    Ok (Next (<[key := DevID dev +:+ ":" +:+ MountPath d]> mapping,
                              set_ClaimDevMap (<[key := mkStorageInfo (DevID dev) (ReqStorage dev)
                                                          nodename]> (ClaimDevMap c)) c))
                end
          end
    end).

Definition volumeDeviceMapping (ps : BlockResource) (pvcMap : gmap string PVCInfo) (pod : Pod)
    (nodename : string) : GoM (HS K) (option error) := λ s,
  let! c := ctx_Lock (hs_ctx s) in
  let! info := deref (br_info ps) in
  let! r := bind_volumes (hs_kube s) (DisksStatus info) pvcMap pod (br_nodeName ps) nodename c in
  match r with
  | Return (err, c) => Ok (Some err, set_ctx c s)
  | Next (mapping, c) =>
      let s := set_ctx (ctx_Unlock c) s in
      if (size mapping =? 0)%nat then Ok (None, s)
      else
        match GetVolumeDeviceMap (hs_kube s) nodename with
        | inr err =>
            if IsNotFound err then
              let '(k, e) := cm_create (hs_kube s)
                (mkConfigMap IoiNamespace (DeviceIDConfigMap +:+ "-" +:+ nodename)
                   {["app" := DeviceIDConfigMap]} mapping) in
              Ok (match e with Some e => Some (kerr_msg e) | None => None end, set_kube k s)
            else
              Ok (Some ("failed to get ConfigMap volume-device-map: nodename " +:+ nodename +:+
                        ", err: " +:+ kerr_msg err), s)
        | inl cm =>
            let '(k, e) := cm_update (hs_kube s)
              (mkConfigMap (cm_Namespace cm) (cm_Name cm) (cm_Labels cm)
                 (mapping ∪ cm_Data cm)) in
            Ok (match e with Some e => Some (kerr_msg e) | None => None end, set_kube k s)
        end
  end.

(** One device of AddPod. *)
Definition take_device (dev : string) (ioreq : IOResourceRequest) (d : DiskInfo)
    : outcome DiskInfo :=
  if WorkloadType ioreq =? GaIndex then
    let! ga := deref (di_GA d) in
    let! q := dev_quantity ioreq in
    Ok (set_GA (Some (pool_take ga (Inbps q) (Outbps q))) d)
  else if WorkloadType ioreq =? BeIndex then
    let! be := deref (di_BE d) in
    Ok (set_BE (Some (pool_set_num be (add64 (ps_Num be) 1))) d)
  else Ok d.

(** The loop of AddPod.  A missing device stops it; the devices already
    visited stay charged. *)
Definition take_step (nodeName : string) (acc : BlockNodeInfo * list IOResourceRequest)
    (kv : string * StorageIORequest)
    : outcome (ctrl (BlockNodeInfo * list IOResourceRequest) (BlockNodeInfo * error)) :=
  let '(n, arr) := acc in
  match DisksStatus n !! kv.1 with
  | None => Ok (Return (n, "node " +:+ nodeName +:+ " doesn't contain device " +:+ kv.1 +:+
                            " info"))
  | Some d =>
      let! d := take_device kv.1 (IORequest kv.2) d in
      Ok (Next (set_Disks (<[kv.1 := d]> (DisksStatus n)) n, arr ++ [IORequest kv.2]))
  end.
Definition take_devices (nodeName : string) (l : list (string * StorageIORequest))
    (n : BlockNodeInfo) : outcome (ctrl (BlockNodeInfo * list IOResourceRequest)
                                        (BlockNodeInfo * error)) :=
  for_range l (n, []) (take_step nodeName).

(** Resource.AddPod, on the resource of cache entry [entry]. *)
Definition res_AddPod (entry : string) (ps : BlockResource) (pod : Pod) (rawRequest : any)
    : GoM (HS K) add_result := λ s,
  match rawRequest with
  | any_block request =>
      let! n := deref (br_info ps) in
      let! r := take_devices (br_nodeName ps) (range (ResourceRequest request)) n in
      let store n s := set_cache (SetExtendedResource (hs_cache s) entry
        (ER_Block (mkBlockResource (br_nodeName ps) (Some n)))) s in
      match r with
      | Return (n, err) => Ok (AddError err, store n s)
      | Next (n, arr) =>
          let s := store n s in
          let ps := mkBlockResource (br_nodeName ps) (Some n) in
          let! '(err, s) :=
            (if (size (PvcToDevice request) =? 0)%nat then Ok (None, s)
             else volumeDeviceMapping ps (PvcToDevice request) pod (br_nodeName ps) s) in
          match err with
          | Some err => Ok (AddError err, s)
          | None =>
              let! '(_, s) := print_cache s in
              Ok (Added arr, s)
          end
      end
  | _ => Ok (AddRefused "unable to convert state into BlockIO's pod request format", s)
  end.

Definition podHasPVCs (k : K) (pod : Pod) : outcome bool :=
  let! c := for_range (pod_Volumes pod) () (λ _ vol,
    match vol_PVC vol with
    | None => Ok (Next ())
    | Some pvc =>
        let! ok := ioi_claim k pvc (pod_Namespace pod) in
        Ok (if ok then Return true else Next ())
    end) in
  Ok (match c with Return b => b | Next _ => false end).

(** The inner loop of undoVolumeDeviceMapping. *)
Definition unbind_claims (k : K) (pod : Pod) (claims : gmap string StorageInfo)
    : outcome (gmap string StorageInfo) :=
  foldM (λ claims vol,
    match vol_PVC vol with
    | None => Ok claims
    | Some pvc =>
        let! ok := ioi_claim k pvc (pod_Namespace pod) in
        Ok (if ok then delete (pvc_key pvc (pod_Namespace pod)) claims else claims)
    end) claims (pod_Volumes pod).

(** undoVolumeDeviceMapping: the lock taken in the loop is released when
    the function returns. *)
Definition undoVolumeDeviceMapping (pod : Pod) (nodename : string)
    : GoM (HS K) (option error) := λ s,
  let! r := for_range (pod_Volumes pod) (s, false) (λ acc vol,
    let '(s, deferred) := acc in
    match vol_PVC vol with
    | None => Ok (Next acc)
    | Some pvc =>
        let! ok := ioi_claim (hs_kube s) pvc (pod_Namespace pod) in
        if negb ok then Ok (Next acc)
        else
          match pvc_get (hs_kube s) (pod_Namespace pod) pvc with
          | inr _ => Ok (Next acc)
          | inl obj =>
              if negb (bool_decide (pvc_Phase obj = ClaimPending)) then Ok (Next acc)
              else
                let '(k, e) := RemovePVCsFromVolDiskCm (hs_kube s) obj nodename in
                let s := set_kube k s in
                match e with
                | Some err => Ok (Return (s, deferred, kerr_msg err))
                | None =>
                    let! c := ctx_Lock (hs_ctx s) in
                    let! claims := unbind_claims k pod (ClaimDevMap c) in
                    Ok (Next (set_ctx (set_ClaimDevMap claims c) s, true))
                end
          end
    end) in
  let release (deferred : bool) s :=
    if deferred then set_ctx (ctx_Unlock (hs_ctx s)) s else s in
  Ok (match r with
      | Next (s, d) => (None, release d s)
      | Return (s, d, err) => (Some err, release d s)
      end).

(** One request of RemovePod on its disk. *)
Definition give_device (v : IOResourceRequest) (d : DiskInfo) : outcome DiskInfo :=
  let! d :=
    (if WorkloadType v =? GaIndex then
       let! ga := deref (di_GA d) in
       let! q := dev_quantity v in
       Ok (set_GA (Some (pool_give ga (Inbps q) (Outbps q))) d)
     else Ok d) in
  if WorkloadType v =? BeIndex then
    let! be := deref (di_BE d) in
    Ok (set_BE (Some (pool_set_num be (num_dec (ps_Num be)))) d)
  else Ok d.

Definition give_step (nodeName : string) (n : BlockNodeInfo) (v : IOResourceRequest)
    : outcome (ctrl BlockNodeInfo (BlockNodeInfo * error)) :=
  if negb (bool_decide (IoType v = IOType_DiskIO)) then Ok (Next n)
  else
    let! dr := deref (DevRequest v) in
    match DisksStatus n !! DevName dr with
    | None => Ok (Return (n, "node " +:+ nodeName +:+ " doesn't contain device " +:+
                              DevName dr +:+ " info"))
    | Some d =>
        let! d := give_device v d in
        Ok (Next (set_Disks (<[DevName dr := d]> (DisksStatus n)) n))
    end.
Definition give_devices (nodeName : string) (l : list IOResourceRequest) (n : BlockNodeInfo)
    : outcome (ctrl BlockNodeInfo (BlockNodeInfo * error)) :=
  for_range l n (give_step nodeName).

(** Resource.RemovePod; [client] tells whether the client is not nil. *)
Definition res_RemovePod (entry : string) (ps : BlockResource) (pod : Pod) (client : bool)
    : GoM (HS K) (option error) := λ s,
  let! c := ctx_Lock (hs_ctx s) in
  let s := set_ctx c s in
  let unlock s := set_ctx (ctx_Unlock (hs_ctx s)) s in
  match GetReservedPods c (br_nodeName ps) with
  | inr err => Ok (Some err, unlock s)
  | inl p =>
      let! podreq := deref p in
      match pl_PodList podreq !! pod_UID pod with
      | None => Ok (Some ("pod doesn't exist in reserved pod cache: " +:+ pod_Name pod), unlock s)
      | Some pl =>
          let! n := deref (br_info ps) in
          let! r := give_devices (br_nodeName ps) (pr_Request pl) n in
          let store n s := set_cache (SetExtendedResource (hs_cache s) entry
            (ER_Block (mkBlockResource (br_nodeName ps) (Some n)))) s in
          match r with
          | Return (n, err) => Ok (Some err, unlock (store n s))
          | Next n =>
              let s := store n s in
              let! has := (if client then podHasPVCs (hs_kube s) pod else Ok false) in
              let! '(_, s) :=
                (if has then undoVolumeDeviceMapping pod (br_nodeName ps) s
                 else Ok (None, s)) in
              Ok (None, unlock s)
          end
      end
  end.

(** Storage asked on each device by the new claims (AdmitPod). *)
Definition admit_storage (pvcToDevice : gmap string PVCInfo) : gmap string Z :=
  foldl (λ sReq kv,
    if Reuse kv.2 then sReq
    else <[DevID kv.2 := match sReq !! DevID kv.2 with
                         | Some v => add64 v (ReqStorage kv.2)
                         | None => ReqStorage kv.2
                         end]> sReq) ∅ (range pvcToDevice).

Definition res_AdmitPod (ps : BlockResource) (pod : Pod) s : outcome (any + error) :=
  let! r := GetRequestByAnnotation s pod (br_nodeName ps) false in
  Ok (match r with
      | inr err => inr err
      | inl (request, any_pvcs pvcToDevice) =>
          let sReq := admit_storage pvcToDevice in
          inl (any_block (mkRequestInfo
            (map_imap (λ dev req, Some (mkStorageIO req (default 0 (sReq !! dev)))) request)
            pvcToDevice))
      | inl _ => inr "pvcMapping cannot convert to pvcToDevice type"
      end).
End BlockIO.
