(* ===== verification/NetworkIO.v ===== *)
(** * pkg/scheduler/networkio: the network plugin

    handle.go and resource.go.  A node has one interface that its pods use,
    the master NIC. *)

From S2P Require Export Context.

Section NetworkIO.
Context `{Q : QuantityLib} `{!JsonLib} `{!GoRange} {K : Type}.
Implicit Types s : HS K.

Definition Name : string := "NetworkIOHandle".
Definition ResName : string := "NetworkIO".

Definition as_net (r : ExtendedResource) : option NetResource :=
  match r with ER_Net b => Some b | _ => None end.

(** ** CanAdmitPod *)

Definition nic_pools (d : NICInfo) : gmap string (option IOPoolStatus) :=
  <[BE_Min_BW := Some (mkPool (fmul (DefaultSpeed d) (of_Z 2)) (DefaultSpeed d) (DefaultSpeed d)
                         false 0)]>
  (<[BE_Type := nic_BE d]> {[GA_Type := nic_GA d]}).
Definition node_pools (n : NetNodeInfo) : pools := nic_pools <$> NICsStatus n.

(** One device of the request; [Some] is the error. *)
Definition admit_device (nodeName : string) (ps : pools) (dev : string)
    (request : IOResourceRequest) : outcome (option error) :=
  match ps !! dev with
  | None => Ok (Some ("device " +:+ dev +:+ " on Node " +:+ nodeName +:+
                      " is not registed: " +:+ Name))
  | Some poolStatus =>
      if Nat.ltb (size poolStatus) 3 then
        Ok (Some ("internal " +:+ Name +:+ " error on Node " +:+ nodeName))
      else
        let get t := deref (default None (poolStatus !! t)) in
        if WorkloadType request =? GaIndex then
          let! ga := get GA_Type in
          if ps_UnderPressure ga then
            Ok (check_GA Name nodeName ga quantity_zero)
          else
            let! q := dev_quantity request in
            Ok (check_GA Name nodeName ga q)
        else if WorkloadType request =? BeIndex then
          let! be := get BE_Type in
          let! bem := get BE_Min_BW in
          Ok (check_BE Name nodeName be bem)
        else Ok None
  end.

Definition CanAdmitPod s (nodeName : string) (rawRequest : any) : outcome (any + error) :=
  match rawRequest with
  | any_netreq requests =>
      match GetExtendedResource (hs_cache s) nodeName with
      | None => Ok (inr ("node " +:+ nodeName +:+ " not registered in cache"))
      | Some rs =>
          match as_net rs with
          | None => Ok (inr "incorrect resource cached")
          | Some r =>
              let! info := deref (nr_info r) in
              let ps := node_pools info in
              let! c := for_range (range requests) ()
                (λ _ kv,
                   let! e := admit_device nodeName ps kv.1 kv.2 in
                   Ok (match e with None => Next () | Some err => Return err end)) in
              Ok (match c with Next _ => inl (any_pools ps) | Return err => inr err end)
          end
      end
  | _ => Ok (inr "unable to convert state into networkIO's pod request format")
  end.

(** ** NodePressureRatio *)

Definition NodePressureRatio (request pool : any) : outcome (f64 + error) :=
  match request with
  | any_netreq r =>
      match pool with
      | any_pools p =>
          let nDev := Z.of_nat (size r) in
          let! c := for_range (range r) fzero (λ ratio kv,
            if WorkloadType kv.2 =? BeIndex then Ok (Next (fadd ratio fzero))
            else
              match p !! kv.1 with
              | None => Ok (Return ("cannot find device " +:+ kv.1 +:+ " in pool"))
              | Some devicePool =>
                  match devicePool !! GA_Type with
                  | None => Ok (Return "cannot find gapool in pool")
                  | Some g =>
                      let! gapool := deref g in
                      let field f := let! q := dev_quantity kv.2 in Ok (f q) in
                      let! r1 := ratio_of_pool (field Inbps) (ps_In gapool) in
                      let! r2 := ratio_of_pool (field Outbps) (ps_Out gapool) in
                      let devRatio := fadd (fadd fzero r1) r2 in
                      Ok (Next (fadd ratio (fdiv devRatio (of_Z 2))))
                  end
              end) in
          Ok (match c with
              | Return err => inr err
              | Next ratio =>
                  if nDev =? 0 then inl (fdiv (of_Z 1) (of_Z 2))
                  else inl (fdiv ratio (of_Z nDev))
              end)
      | _ => Ok (inr ("unable to convert state into " +:+ Name +:+ "'s node resource pool format"))
      end
  | _ => Ok (inr ("unable to convert state into " +:+ Name +:+ "'s pod request format"))
  end.

(** ** Annotations to requests *)

Definition parseNetworkRequestBandwidth (config : string) : quantity + error :=
  ParseQuantity (if has_suffix config "B" then str_drop_last 1 config else config).

(** The parsed bandwidth in MB/s, and zero after an error. *)
Definition mbps (r : quantity + error) : f64 :=
  match r with inl q => fdiv (of_Z (AsInt64 q)) MB | inr _ => fzero end.

Definition net_request (dev : string) (w : Z) (req lim : Quantity) : IOResourceRequest :=
  mkIOReq IOType_NetworkIO w (Some (mkDevReq dev (Some req) (Some lim) None None)).

(** The guarantees are raised to the default speed of the master NIC. *)
Definition raise_to (nic : option NICInfo) (q : Quantity) : Quantity :=
  match nic with
  | Some n => mkQuantity (fmax (Inbps q) (DefaultSpeed n)) (fmax (Outbps q) (DefaultSpeed n))
                (Iniops q) (Outiops q)
  | None => q
  end.

Definition parsePodNetworkIOAnnotations (podAnno : NetAnnoThroughput) (info : NetNodeInfo)
    : IOResourceRequest :=
  let masterNic := MasterNic info in
  let inbw := parseNetworkRequestBandwidth (Ingress (na_Requests podAnno)) in
  let outbw := parseNetworkRequestBandwidth (Egress (na_Requests podAnno)) in
  let inlimbw := parseNetworkRequestBandwidth (Ingress (na_Limits podAnno)) in
  let outlimbw := parseNetworkRequestBandwidth (Egress (na_Limits podAnno)) in
  let req := mkQuantity (mbps inbw) (mbps outbw) fzero fzero in
  let lim := mkQuantity (mbps inlimbw) (mbps outlimbw) fzero fzero in
  let nic := NICsStatus info !! masterNic in
  let burstable :=
    let lim := mkQuantity
      (match inlimbw with inl _ => Inbps lim | inr _ => MAX_BT_LIMIT end)
      (match outlimbw with inl _ => Outbps lim | inr _ => MAX_BT_LIMIT end) fzero fzero in
    net_request masterNic GaIndex (raise_to nic req) (raise_to nic lim) in
  match inbw, inlimbw, outbw, outlimbw with
  | inl i, inl il, inl o, inl ol =>
      if flt fzero (fmul (fmul (fmul (Inbps req) (Outbps req)) (Inbps lim)) (Outbps lim)) &&
         Equal i il && Equal o ol
      then net_request masterNic GaIndex (raise_to nic req) (raise_to nic lim)
      else burstable
  | inr _, inr _, inr _, inr _ => net_request masterNic BeIndex req lim
  | _, _, _, _ => burstable
  end.

Definition be_request (masterNic : string) : IOResourceRequest :=
  mkIOReq IOType_NetworkIO BeIndex (Some (mkDevReq masterNic None None None None)).

Definition GetRequestByAnnotation s (pod : Pod) (node : string) (init : bool)
    : outcome (gmap string IOResourceRequest * any + error) :=
  match GetExtendedResource (hs_cache s) node with
  | None => Ok (inr ("node " +:+ node +:+ " not registered in cache"))
  | Some rs =>
      match as_net rs with
      | None => Ok (inr "incorrect resource cached")
      | Some r =>
          let! info := deref (nr_info r) in
          let masterNic := MasterNic info in
          match NICsStatus info !! masterNic with
          | None => Ok (inr ("network io resource does not contain device info: " +:+ masterNic))
          | Some _ =>
              let be := inl ({[masterNic := be_request masterNic]}, any_nil) in
              Ok (match pod_Annotations pod !! NetworkIOConfigAnno with
                  | None => be
                  | Some v =>
                      match unmarshal_net v with
                      | (_, false) => be
                      | (podAnno, true) =>
                          inl ({[masterNic := parsePodNetworkIOAnnotations podAnno info]}, any_nil)
                      end
                  end)
          end
      end
  end.

Definition CriticalPod (annotations : gmap string string) : bool :=
  match annotations !! NetworkIOConfigAnno with
  | Some v => (unmarshal_net v).2
  | None => false
  end.

(** ** Node status *)

Definition calculateReservedBw (dev : string) (l : PodRequest) : f64 * f64 * bool :=
  reserved_bw IOType_NetworkIO dev (pr_Request l) fzero fzero.

Definition set_nic_GA (p : option IOPoolStatus) (d : NICInfo) : NICInfo :=
  mkNICInfo (nic_Name d) (DefaultSpeed d) p (nic_BE d).
Definition set_nic_BE (p : option IOPoolStatus) (d : NICInfo) : NICInfo :=
  mkNICInfo (nic_Name d) (DefaultSpeed d) (nic_GA d) p.
Definition set_NICs (m : gmap string NICInfo) (n : NetNodeInfo) : NetNodeInfo :=
  mkNetNodeInfo m (MasterNic n).

(** A loop over [rc.Devices] that updates the registered NICs with [f]. *)
Definition update_nics (pl : option PodList)
    (f : string → Device → PodList → NICInfo → NICInfo)
    (rc : ResourceConfigSpec) (n : option NetNodeInfo) : outcome (option NetNodeInfo) :=
  foldM (λ n kv,
    let! info := deref n in
    match NICsStatus info !! kv.1 with
    | None => Ok n
    | Some d =>
        let! pl := deref pl in
        Ok (Some (set_NICs (<[kv.1 := f kv.1 kv.2 pl d]> (NICsStatus info)) info))
    end) n (range (Devices rc)).

Definition update_node (nodeName : string)
    (f : string → Device → PodList → NICInfo → NICInfo) (rc : ResourceConfigSpec)
    : GoM (HS K) () := λ s,
  match GetExtendedResource (hs_cache s) nodeName with
  | None => Ok ((), s)
  | Some rs =>
      match as_net rs with
      | None => Ok ((), s)
      | Some r =>
          let! info := update_nics (reserved_list (hs_ctx s) nodeName) f rc (nr_info r) in
          print_cache (set_cache (SetExtendedResource (hs_cache s) nodeName
            (ER_Net (mkNetResource (nr_nodeName r) info))) s)
      end
  end.

Definition InitBENum (nodeName : string) (rc : ResourceConfigSpec) : GoM (HS K) () :=
  update_node nodeName (λ dev _ pl d,
    set_nic_BE (set_be_num (reserved_totals calculateReservedBw dev pl).2 (nic_BE d)) d) rc.

Definition InitNodeStatus (nodeName : string) (rc : ResourceConfigSpec) : GoM (HS K) () :=
  update_node nodeName (λ dev info pl d,
    let '(gaIn, gaOut, beNum) := reserved_totals calculateReservedBw dev pl in
    let ga := mkPool
      (fsub (fsub (ga_capacity (BEPool rc) (CapacityTotal info)) gaIn) gaOut)
      (fsub (ga_capacity (BEPool rc) (CapacityIn info)) gaIn)
      (fsub (ga_capacity (BEPool rc) (CapacityOut info)) gaOut) false 0 in
    set_nic_BE (set_be_num beNum (nic_BE d)) (set_nic_GA (Some ga) d)) rc.

(** The NIC that AddCacheNodeInfo caches for a device. *)
Definition new_nic (rc : ResourceConfigSpec) (info : Device) : NICInfo :=
  mkNICInfo (dev_Name info) (DefaultIn info) (Some pool_zero)
    (Some (mkPool (be_capacity (BEPool rc) (CapacityTotal info))
             (be_capacity (BEPool rc) (CapacityIn info))
             (be_capacity (BEPool rc) (CapacityOut info)) false 0)).

Definition AddCacheNodeInfo (nodeName : string) (rc : ResourceConfigSpec)
    : GoM (HS K) (option error) := λ s,
  let nodeInfo := foldl (λ n kv,
    mkNetNodeInfo (<[kv.1 := new_nic rc kv.2]> (NICsStatus n))
      (if String.eqb (dev_Type kv.2) DefaultDevice then kv.1 else MasterNic n))
    (mkNetNodeInfo ∅ "") (range (Devices rc)) in
  let! '(_, s) := print_cache (set_cache (SetExtendedResource (hs_cache s) nodeName
                    (ER_Net (mkNetResource nodeName (Some nodeInfo)))) s) in
  Ok (None, s).

Definition UpdateDeviceNodeInfo (node : string) (old new : ResourceConfigSpec)
    : GoM (HS K) (gmap string Device * gmap string Device + error) := λ s,
  Ok (inl (∅, ∅), s).

Definition DeleteCacheNodeInfo (nodeName : string) : GoM (HS K) (option error) := λ s,
  Ok (None, set_cache (DeleteExtendedResource (hs_cache s) nodeName) s).

(** The pools reported for a NIC, [None] when the report is to be ignored. *)
Definition calculateNetworkStatus (inm : DeviceIOStatus) (dev : string)
    : option (IOPoolStatus * IOPoolStatus) :=
  match inm !! dev with
  | None => Some (pool_zero, pool_zero)
  | Some info =>
      let be := match info !! WorkloadBE with
                | Some r => pool_set_pressure pool_zero (IsUnderPressure (Pressure r))
                | None => pool_zero
                end in
      match info !! WorkloadGA with
      | Some v =>
          if flt (st_In v) fzero then None
          else Some (mkPool (st_Total v) (st_In v) (st_Out v) (IsUnderPressure (Pressure v)) 0, be)
      | None => Some (pool_zero, be)
      end
  end.

Definition report_nics (bw : DeviceIOStatus) (m : gmap string NICInfo)
    : outcome (gmap string NICInfo) :=
  foldM (λ m kv,
    match calculateNetworkStatus bw kv.1 with
    | None => Ok m
    | Some (ga, be) =>
        let! old := deref (nic_BE kv.2) in
        Ok (<[kv.1 := set_nic_BE (Some (pool_set_pressure old (ps_UnderPressure be)))
                        (set_nic_GA (Some ga) kv.2)]> m)
    end) m (range m).

Definition NetworkIOType : string := "NetworkIO".

Definition UpdateCacheNodeStatus (n : string) (nodeIoBw : NodeIOStatusStatus)
    : GoM (HS K) (option error) := λ s,
  let report : outcome (HS K * option error) :=
    match AllocatableBandwidth nodeIoBw !! NetworkIOType with
    | None => Ok (s, None)
    | Some bw =>
        if (size bw =? 0)%nat then Ok (s, None)
        else
          match GetExtendedResource (hs_cache s) n with
          | None => Ok (s, Some "node not registered in cache")
          | Some rs =>
              match as_net rs with
              | None => Ok (s, Some "incorrect resource cached")
              | Some r =>
                  match nr_info r with
                  | None => Ok (s, Some "incorrect resource cached")
                  | Some info =>
                      match GetReservedPods (hs_ctx s) n with
                      | inr _ => Ok (s, None)
                      | inl p =>
                          let! v := deref p in
                          if ObservedGeneration nodeIoBw =? Generation v then
                            let! m := report_nics bw (NICsStatus info) in
                            Ok (set_cache (SetExtendedResource (hs_cache s) n
                              (ER_Net (mkNetResource (nr_nodeName r) (Some (set_NICs m info))))) s,
                              None)
                          else Ok (s, None)
                      end
                  end
              end
          end
    end in
  let! '(s, err) := report in
  match err with
  | Some _ => Ok (err, s)
  | None => let! '(_, s) := print_cache s in Ok (None, s)
  end.

Definition NodeHasIoiLabel (node : Node) : bool := has_label "net" node.

Definition UpdatePVC (pvc : PVC) (nodename devId : string) (storage : Z) (add : bool)
    : GoM (HS K) (option error) := retM None.

(** ** resource.go *)

Definition NewNICInfo : NICInfo := mkNICInfo "" fzero (Some pool_zero) (Some pool_zero).

(** The charge of AddPod on the master NIC. *)
Definition take_nic (ioreq : IOResourceRequest) (d : NICInfo) : outcome NICInfo :=
  if WorkloadType ioreq =? GaIndex then
    let! ga := deref (nic_GA d) in
    let! q := dev_quantity ioreq in
    Ok (set_nic_GA (Some (pool_take ga (Inbps q) (Outbps q))) d)
  else if WorkloadType ioreq =? BeIndex then
    let! be := deref (nic_BE d) in
    Ok (set_nic_BE (Some (pool_set_num be (add64 (ps_Num be) 1))) d)
  else Ok d.

Definition store_nic (entry : string) (ps : NetResource) (info : NetNodeInfo) (d : NICInfo) s
    : HS K :=
  set_cache (SetExtendedResource (hs_cache s) entry
    (ER_Net (mkNetResource (nr_nodeName ps)
       (Some (set_NICs (<[MasterNic info := d]> (NICsStatus info)) info))))) s.

(** Resource.AddPod, on the resource of cache entry [entry]. *)
Definition res_AddPod (entry : string) (ps : NetResource) (pod : Pod) (rawRequest : any)
    : GoM (HS K) add_result := λ s,
  match rawRequest with
  | any_netreq request =>
      let! info := deref (nr_info ps) in
      let masterNic := MasterNic info in
      match NICsStatus info !! masterNic with
      | None => Ok (AddError ("node " +:+ nr_nodeName ps +:+ " doesn't contain master nic info: " +:+
                              masterNic), s)
      | Some nicStatus =>
          match request !! masterNic with
          | None => Ok (AddError ("networkIO: device " +:+ masterNic +:+
                          "'s request not found in pod network io request"), s)
          | Some ioreq =>
              let! d := take_nic ioreq nicStatus in
              let! '(_, s) := print_cache (store_nic entry ps info d s) in
              Ok (Added [ioreq], s)
          end
      end
  | _ => Ok (AddRefused "unable to convert state into NetworkIO's pod request format", s)
  end.

(** One request of RemovePod on the master NIC. *)
Definition give_nic (masterNic : string) (d : NICInfo) (v : IOResourceRequest)
    : outcome NICInfo :=
  if negb (bool_decide (IoType v = IOType_NetworkIO)) then Ok d
  else
    let on_master := let! dr := deref (DevRequest v) in Ok (String.eqb masterNic (DevName dr)) in
    let! d :=
      (if WorkloadType v =? GaIndex then
         let! m := on_master in
         if m then
           let! ga := deref (nic_GA d) in
           let! q := dev_quantity v in
           Ok (set_nic_GA (Some (pool_give ga (Inbps q) (Outbps q))) d)
         else Ok d
       else Ok d) in
    if WorkloadType v =? BeIndex then
      let! m := on_master in
      if m then
        let! be := deref (nic_BE d) in
        Ok (set_nic_BE (Some (pool_set_num be (num_dec (ps_Num be)))) d)
      else Ok d
    else Ok d.

Definition res_RemovePod (entry : string) (ps : NetResource) (pod : Pod) (client : bool)
    : GoM (HS K) (option error) := λ s,
  let! info := deref (nr_info ps) in
  let masterNic := MasterNic info in
  match NICsStatus info !! masterNic with
  | None => Ok (Some ("node " +:+ nr_nodeName ps +:+ " doesn't contain master nic info: " +:+
                      masterNic), s)
  | Some nicStatus =>
      let! c := ctx_Lock (hs_ctx s) in
      let s := set_ctx c s in
      let unlock s := set_ctx (ctx_Unlock (hs_ctx s)) s in
      match GetReservedPods c (nr_nodeName ps) with
      | inr err => Ok (Some err, unlock s)
      | inl p =>
          let! podreq := deref p in
          match pl_PodList podreq !! pod_UID pod with
          | None => Ok (Some ("pod doesn't exist in reserved pod cache: " +:+ pod_Name pod),
                        unlock s)
          | Some pl =>
              let! d := foldM (give_nic masterNic) nicStatus (pr_Request pl) in
              let! '(_, s) := print_cache (store_nic entry ps info d s) in
              Ok (None, unlock s)
          end
      end
  end.

Definition res_AdmitPod (ps : NetResource) (pod : Pod) s : outcome (any + error) :=
  let! r := GetRequestByAnnotation s pod (nr_nodeName ps) false in
  Ok (match r with
      | inr err => inr err
      | inl (requests, _) => inl (any_netreq requests)
      end).
End NetworkIO.
