(* ===== verification/RDT.v ===== *)
(** * pkg/scheduler/rdt: RDT classes

    handle.go and resource.go.  A node reports a pressure per class; a pod
    names the class it wants in an annotation. *)

From S2P Require Export Context.

Section RDT.
Context `{Q : QuantityLib} `{!GoRange} {K : Type}.
Implicit Types s : HS K.

Definition Name : string := "RDTHandle".

Definition as_rdt (r : ExtendedResource) : option RdtResource :=
  match r with ER_Rdt b => Some b | _ => None end.

Definition CanAdmitPod s (nodeName : string) (rawRequest : any) : outcome (any + error) :=
  match rawRequest with
  | any_rdt RDTClass =>
      match GetExtendedResource (hs_cache s) nodeName with
      | None => Ok (inr ("node " +:+ nodeName +:+ " not registered in cache"))
      | Some rs =>
          match as_rdt rs with
          | None => Ok (inr "incorrect resource cached")
          | Some r =>
              match rr_info r with
              | None => Ok (inr "incorrect resource cached")
              | Some info =>
                  if String.eqb RDTClass "" then Ok (inl (any_status (RDTClassStatus info)))
                  else
                    match RDTClassStatus info !! RDTClass with
                    | Some _ => Ok (inl (any_status (RDTClassStatus info)))
                    | None => Ok (inr ("there is no " +:+ RDTClass +:+ " rdt class on " +:+
                                       nodeName +:+ " node"))
                    end
              end
          end
      end
  | _ => Ok (inr ("unable to convert state into " +:+ Name +:+ "'s pod request format"))
  end.

Definition NodePressureRatio (request classStatus : any) : outcome (f64 + error) :=
  Ok (match request with
      | any_rdt RDTClass =>
          if String.eqb RDTClass "" then inl fzero
          else
            match classStatus with
            | any_status m =>
                match m !! RDTClass with
                | None => inr ("unable to get class " +:+ RDTClass +:+ "'s status")
                | Some v => inl (fdiv v (of_Z 100))
                end
            | _ => inr ("unable to convert state into " +:+ Name +:+
                        "'s node resource class format")
            end
      | _ => inr ("unable to convert state into " +:+ Name +:+ "'s pod request format")
      end).

Definition GetRequestByAnnotation s (pod : Pod) (node : string) (init : bool)
    : outcome (gmap string IOResourceRequest * any + error) :=
  Ok (inl (∅, any_string (default EmptyString (pod_Annotations pod !! RDTConfigAnno)))).

Definition CriticalPod (annotations : gmap string string) : bool :=
  match annotations !! RDTConfigAnno with Some _ => true | None => false end.

Definition InitBENum (nodeName : string) (rc : ResourceConfigSpec) : GoM (HS K) () := retM ().

(** [for class := range rc.Devices { status[class] = 0 }] *)
Definition zero_classes (rc : ResourceConfigSpec) (m : gmap string f64) : gmap string f64 :=
  foldl (λ m kv, <[kv.1 := fzero]> m) m (range (Devices rc)).

Definition InitNodeStatus (nodeName : string) (rc : ResourceConfigSpec) : GoM (HS K) () := λ s,
  match GetExtendedResource (hs_cache s) nodeName with
  | None => Ok ((), s)
  | Some rs =>
      match as_rdt rs with
      | None => Ok ((), s)
      | Some r =>
          let! info := (match range (Devices rc), rr_info r with
                        | [], i => Ok i
                        | _, i => let! n := deref i in
                                  Ok (Some (mkRdtNodeInfo (zero_classes rc (RDTClassStatus n))))
                        end) in
          print_cache (set_cache (SetExtendedResource (hs_cache s) nodeName
            (ER_Rdt (mkRdtResource (rr_nodeName r) info))) s)
      end
  end.

Definition AddCacheNodeInfo (nodeName : string) (rc : ResourceConfigSpec)
    : GoM (HS K) (option error) := λ s,
  let nodeInfo := mkRdtNodeInfo (zero_classes rc ∅) in
  let! '(_, s) := print_cache (set_cache (SetExtendedResource (hs_cache s) nodeName
                    (ER_Rdt (mkRdtResource nodeName (Some nodeInfo)))) s) in
  Ok (None, s).

Definition UpdateDeviceNodeInfo (node : string) (old new : ResourceConfigSpec)
    : GoM (HS K) (gmap string Device * gmap string Device + error) := λ s,
  Ok (inl (∅, ∅), s).

Definition DeleteCacheNodeInfo (nodeName : string) : GoM (HS K) (option error) := λ s,
  Ok (None, set_cache (DeleteExtendedResource (hs_cache s) nodeName) s).

Definition RDTType : string := "RDT".

(** The loop of UpdateCacheNodeStatus: a class without a report stops it,
    the classes already visited are updated. *)
Definition report_classes (n : string) (bw : DeviceIOStatus) (m : gmap string f64)
    : outcome (ctrl (gmap string f64) (gmap string f64 * error)) :=
  for_range (range m) m (λ m kv,
    match bw !! kv.1 with
    | None => Ok (Return (m, "node " +:+ n +:+ " DeviceBwInfo do not exist"))
    | Some pool =>
        match pool !! WorkloadGA with
        | None => Ok (Return (m, "node " +:+ n +:+ " rdt class " +:+ kv.1 +:+ " do not exist"))
        | Some st =>
            Ok (Next (if fle fzero (Pressure st) then <[kv.1 := Pressure st]> m else m))
        end
    end).

Definition UpdateCacheNodeStatus (n : string) (nodeIoBw : NodeIOStatusStatus)
    : GoM (HS K) (option error) := λ s,
  let report : outcome (HS K * option error) :=
    match AllocatableBandwidth nodeIoBw !! RDTType with
    | None => Ok (s, None)
    | Some bw =>
        if (size bw =? 0)%nat then Ok (s, None)
        else
          match GetExtendedResource (hs_cache s) n with
          | None => Ok (s, Some "node not registered in cache")
          | Some rs =>
              match as_rdt rs with
              | None => Ok (s, Some "incorrect resource cached")
              | Some r =>
                  let! info := deref (rr_info r) in
                  let! c := report_classes n bw (RDTClassStatus info) in
                  let store m := set_cache (SetExtendedResource (hs_cache s) n
                    (ER_Rdt (mkRdtResource (rr_nodeName r) (Some (mkRdtNodeInfo m))))) s in
                  Ok (match c with
                      | Next m => (store m, None)
                      | Return (m, err) => (store m, Some err)
                      end)
              end
          end
    end in
  let! '(s, err) := report in
  match err with
  | Some _ => Ok (err, s)
  | None => let! '(_, s) := print_cache s in Ok (None, s)
  end.

Definition UpdatePVC (pvc : PVC) (nodename devId : string) (storage : Z) (add : bool)
    : GoM (HS K) (option error) := retM None.

Definition NodeHasIoiLabel (node : Node) : bool := has_label "rdt" node.

(** ** resource.go *)

Definition res_AddPod (entry : string) (ps : RdtResource) (pod : Pod) (rawRequest : any)
    : GoM (HS K) add_result := λ s,
  let! '(_, s) := print_cache s in
  Ok (Added [mkIOReq IOType_RDT 0 (Some (mkDevReq "" None None None None))], s).

Definition res_RemovePod (entry : string) (ps : RdtResource) (pod : Pod) (client : bool)
    : GoM (HS K) (option error) := retM None.

Definition res_AdmitPod (ps : RdtResource) (pod : Pod) s : outcome (any + error) :=
  let! r := GetRequestByAnnotation s pod (rr_nodeName ps) false in
  Ok (match r with
      | inr err => inr err
      | inl (_, any_string value) => inl (any_rdt value)
      | inl _ => inr ("cannot get pod " +:+ pod_Name pod +:+ " rdt class")
      end).
End RDT.
