(* ===== verification/RDTQuantity.v ===== *)
(** * pkg/scheduler/rdt-quantity: cache and memory-bandwidth quantities

    handle.go and resource.go.  The class "BE" holds what the other classes
    have not taken of the node's L3 cache and memory bandwidth. *)

From S2P Require Export Context.

(** ** Annotation values *)

Definition trim (n : nat) (s : string) : string := str_drop_last n s.

(** L3Resource.Parse and MbResource.Parse *)
Definition L3_Parse (l : string) : f64 + error :=
  if String.eqb l "" then inl fzero
  else if has_suffix l "MiB" then
    match ParseInt (trim 3 l) 10 with inl v => inl (of_Z v) | inr e => inr e end
  else inr "missing 'MiB' value from L3Resource".
Definition Mb_Parse (m : string) : f64 + error :=
  if String.eqb m "" then inl fzero
  else if has_suffix m "GBps" then
    match ParseInt (trim 4 m) 10 with inl v => inl (fmul (of_Z v) (of_Z 1024)) | inr e => inr e end
  else if has_suffix m "MBps" then
    match ParseInt (trim 4 m) 10 with inl v => inl (of_Z v) | inr e => inr e end
  else inr "missing 'GBps' or 'MBps' value from MbResource".

Section RDTQuantity.
Context `{Q : QuantityLib} `{!JsonLib} `{!GoRange} {K : Type}.
Implicit Types s : HS K.

Definition Name : string := "RDTQuantityHandle".
Definition L3 : string := "l3".
Definition MBdev : string := "mb".
Definition BE : string := "BE".

Definition as_rdtq (r : ExtendedResource) : option RdtqResource :=
  match r with ER_Rdtq b => Some b | _ => None end.

(** The four fields a request sets, dereferenced in the order of the code. *)
Definition inbps (q : option Quantity) : outcome f64 := let! q := deref q in Ok (Inbps q).
Definition eq_or_stop (a : outcome f64) (b : f64) (k : outcome bool) : outcome bool :=
  let! x := a in if feq x b then k else Ok false.
(** [exist && Limit.Inbps == Limits.l3 && ...] *)
Definition same_class (d : DeviceRequirement) (c : option classInfo) : outcome bool :=
  match c with
  | None => Ok false
  | Some c =>
      eq_or_stop (inbps (dr_Limit d)) (l3 (ci_Limits c))
      (eq_or_stop (inbps (dr_Request d)) (l3 (ci_Requests c))
      (eq_or_stop (inbps (dr_RawLimit d)) (mb (ci_Limits c))
      (eq_or_stop (inbps (dr_RawRequest d)) (mb (ci_Requests c)) (Ok true))))
  end.
(** [!exist && classes[BE].Requests.l3 >= Request + baseline && ...] *)
Definition fits_in_BE (n : RdtqNodeInfo) (d : DeviceRequirement) (c : option classInfo)
    : outcome bool :=
  match c with
  | Some _ => Ok false
  | None =>
      let! be := deref (classes n !! BE) in
      let! r := inbps (dr_Request d) in
      if fle (fadd r (BEL3CapacityBaseline n)) (l3 (ci_Requests be)) then
        let! r := inbps (dr_RawRequest d) in
        Ok (fle (fadd r (BEMBCapacityBaseline n)) (mb (ci_Requests be)))
      else Ok false
  end.
(** [exist && DevName == BE] *)
Definition is_BE (d : DeviceRequirement) (c : option classInfo) : bool :=
  match c with Some _ => String.eqb (DevName d) BE | None => false end.

Definition CanAdmitPod s (nodeName : string) (rawRequest : any) : outcome (any + error) :=
  match rawRequest with
  | any_ioreq requestInfo =>
      match GetExtendedResource (hs_cache s) nodeName with
      | None => Ok (inr ("node " +:+ nodeName +:+ " not registered in cache"))
      | Some rs =>
          match as_rdtq rs with
          | None => Ok (inr "incorrect resource cached")
          | Some ps =>
              match qr_info ps with
              | None => Ok (inr "incorrect resource cached")
              | Some info =>
                  let! req := deref requestInfo in
                  let! d := deref (DevRequest req) in
                  let c := classes info !! DevName d in
                  if is_BE d c then Ok (inl (any_rdtq info))
                  else
                    let! same := same_class d c in
                    if same then Ok (inl (any_rdtq info))
                    else
                      let! fits := fits_in_BE info d c in
                      if fits then Ok (inl (any_rdtq info))
                      else Ok (inr "pod request does not match the node's resource")
              end
          end
      end
  | _ => Ok (inr ("unable to convert state into " +:+ Name +:+ "'s pod request format"))
  end.

Definition NodePressureRatio (request nodeInfo : any) : outcome (f64 + error) :=
  match request with
  | any_ioreq requestInfo =>
      match nodeInfo with
      | any_rdtq n =>
          let! req := deref requestInfo in
          let! d := deref (DevRequest req) in
          if String.eqb (DevName d) BE then Ok (inl (BEScore n))
          else
            let! be := deref (classes n !! BE) in
            let rl3 := fdiv (fsub (l3 (ci_Requests be)) (BEL3CapacityBaseline n))
                         (fsub (L3CacheCapacity n) (BEL3CapacityBaseline n)) in
            let rmb := fdiv (fsub (mb (ci_Requests be)) (BEMBCapacityBaseline n))
                         (fsub (MBCapacity n) (BEMBCapacityBaseline n)) in
            Ok (inl (fadd fzero (fmul (fdiv (fadd rl3 rmb) (of_Z 2)) (of_Z 100))))
      | _ => Ok (inr ("unable to convert state into " +:+ Name +:+
                      "'s node resource info format"))
      end
  | _ => Ok (inr ("unable to convert state into " +:+ Name +:+ "'s pod request format"))
  end.

(** ** GetRequestByAnnotation *)

(** The class and the quantities the annotation asks for; [None] when it is
    incomplete. *)
Definition complete_anno (pod : Pod) (anno : RDTAnnotationResource)
    : option RDTAnnotationResource :=
  let class := if String.eqb (ra_Class anno) "" then pod_Name pod else ra_Class anno in
  let rq := ra_Requests anno in
  let lm := ra_Limits anno in
  let unset x := String.eqb x "" in
  if unset (anno_L3 rq) && unset (anno_Mb rq) && unset (anno_L3 lm) && unset (anno_Mb lm) then
    Some (mkRDTAnno rq lm "BE")
  else if unset (anno_L3 rq) || unset (anno_Mb rq) then None
  else
    Some (mkRDTAnno rq
      (mkRDTRes (if unset (anno_L3 lm) then anno_L3 rq else anno_L3 lm)
                (if unset (anno_Mb lm) then anno_Mb rq else anno_Mb lm)) class).

Definition only_in (x : f64) : option Quantity := Some (mkQuantity x fzero fzero fzero).
Definition parse_error (s e : string) : error :=
  "cannot parse " +:+ s +:+ " to rdt quantity request/limit: " +:+ e.

Definition class_request (anno : RDTAnnotationResource) : IOResourceRequest + error :=
  let rq := ra_Requests anno in
  let lm := ra_Limits anno in
  match L3_Parse (anno_L3 rq) with
  | inr e => inr (parse_error (anno_L3 rq) e)
  | inl a =>
  match L3_Parse (anno_L3 lm) with
  | inr e => inr (parse_error (anno_L3 lm) e)
  | inl b =>
  match Mb_Parse (anno_Mb rq) with
  | inr e => inr (parse_error (anno_Mb rq) e)
  | inl c =>
  match Mb_Parse (anno_Mb lm) with
  | inr e => inr (parse_error (anno_Mb lm) e)
  | inl d =>
      inl (mkIOReq IOType_RDTQuantity GaIndex
             (Some (mkDevReq (ra_Class anno) (only_in a) (only_in b) (only_in c) (only_in d))))
  end
  end
  end
  end.

Definition GetRequestByAnnotation s (pod : Pod) (node : string) (init : bool)
    : outcome (gmap string IOResourceRequest * any + error) :=
  Ok (match GetExtendedResource (hs_cache s) node with
      | None => inr "node not registered in cache"
      | Some rs =>
      match as_rdtq rs with
      | None => inr "incorrect resource cached"
      | Some r =>
      match qr_info r with
      | None => inr ("rdt quantity: node " +:+ node +:+ " cache info is not registered")
      | Some _ =>
      match pod_Annotations pod !! RDTQuantityConfigAnno with
      | None => inr ("pod " +:+ pod_Name pod +:+ " does not have rdt quantity annotation")
      | Some v =>
      match unmarshal_rdtq v with
      | (_, false) => inr ("cannot parse " +:+ v +:+ " to rdt quantity requests/limits")
      | (anno, true) =>
      match complete_anno pod anno with
      | None => inr ("pod " +:+ pod_Name pod +:+
                     " does not have complete rdt quantity annotation")
      | Some anno =>
      match class_request anno with
      | inr e => inr e
      | inl req => inl ({[ra_Class anno := req]}, any_nil)
      end
      end
      end
      end
      end
      end
      end).

Definition CriticalPod (annotations : gmap string string) : bool :=
  match annotations !! RDTQuantityConfigAnno with
  | Some v => (unmarshal_rdtq v).2
  | None => false
  end.

Definition InitBENum (nodeName : string) (rc : ResourceConfigSpec) : GoM (HS K) () := retM ().
Definition GetBENum (nodeName : string) : Z := 0.

(** ** Classes *)

Definition set_classes (m : gmap string classInfo) (n : RdtqNodeInfo) : RdtqNodeInfo :=
  mkRdtqNodeInfo (BEScore n) (L3CacheCapacity n) (MBCapacity n) (BEL3CapacityBaseline n)
    (BEMBCapacityBaseline n) m.
Definition set_BEScore (x : f64) (n : RdtqNodeInfo) : RdtqNodeInfo :=
  mkRdtqNodeInfo x (L3CacheCapacity n) (MBCapacity n) (BEL3CapacityBaseline n)
    (BEMBCapacityBaseline n) (classes n).
Definition add_uid (uid : string) (c : classInfo) : classInfo :=
  mkClass (ci_Requests c) (ci_Limits c) (ci_PodList c ++ [uid]).

(** The best-effort class gives up, or gets back, cache and bandwidth. *)
Definition be_take (a m : f64) (c : classInfo) : classInfo :=
  mkClass (mkRdt (fsub (l3 (ci_Requests c)) a) (fsub (mb (ci_Requests c)) m))
    (mkRdt (fsub (l3 (ci_Limits c)) a) (fsub (mb (ci_Limits c)) m)) (ci_PodList c).
Definition be_give (a m : f64) (c : classInfo) : classInfo :=
  mkClass (mkRdt (fadd (l3 (ci_Requests c)) a) (fadd (mb (ci_Requests c)) m))
    (mkRdt (fadd (l3 (ci_Limits c)) a) (fadd (mb (ci_Limits c)) m)) (ci_PodList c).
Definition on_BE (f : classInfo → classInfo) (m : gmap string classInfo)
    : outcome (gmap string classInfo) :=
  let! be := deref (m !! BE) in Ok (<[BE := f be]> m).

(** Charge the request [d] of the pod [uid]: Resource.AddPod, and the loop
    of InitNodeStatus. *)
Definition charge_class (uid : string) (d : DeviceRequirement) (m : gmap string classInfo)
    : outcome (gmap string classInfo) :=
  let c := m !! DevName d in
  let! same := (if is_BE d c then Ok true else same_class d c) in
  match c, same with
  | Some c, true => Ok (<[DevName d := add_uid uid c]> m)
  | _, _ =>
      let! rl3 := inbps (dr_Request d) in
      let! rmb := inbps (dr_RawRequest d) in
      let! ll3 := inbps (dr_Limit d) in
      let! lmb := inbps (dr_RawLimit d) in
      on_BE (be_take rl3 rmb)
        (<[DevName d := mkClass (mkRdt rl3 rmb) (mkRdt ll3 lmb) [uid]]> m)
  end.

(** InitNodeStatus: each reserved pod's last quantity request. *)
Definition last_request (l : PodRequest) : outcome (option DeviceRequirement) :=
  foldM (λ acc rq,
    if bool_decide (IoType rq = IOType_RDTQuantity)
    then let! d := deref (DevRequest rq) in Ok (Some d)
    else Ok acc) None (pr_Request l).
Definition quantity_requests (pl : PodList) : outcome (gmap string DeviceRequirement) :=
  foldM (λ m kv,
    let! d := last_request kv.2 in
    Ok (match d with Some d => <[kv.1 := d]> m | None => m end)) ∅ (range (pl_PodList pl)).

Definition InitNodeStatus (nodeName : string) (rc : ResourceConfigSpec) : GoM (HS K) () := λ s,
  match GetExtendedResource (hs_cache s) nodeName with
  | None => Ok ((), s)
  | Some rs =>
      match as_rdtq rs with
      | None => Ok ((), s)
      | Some r =>
          let! pl := deref (reserved_list (hs_ctx s) nodeName) in
          let! reqs := quantity_requests pl in
          let! info := foldM (λ n kv,
            let! info := deref n in
            let! m := charge_class kv.1 kv.2 (classes info) in
            Ok (Some (set_classes m info))) (qr_info r) (range reqs) in
          print_cache (set_cache (SetExtendedResource (hs_cache s) nodeName
            (ER_Rdtq (mkRdtqResource (qr_nodeName r) info))) s)
      end
  end.

Definition device (rc : ResourceConfigSpec) (d : string) : Device :=
  default device_zero (Devices rc !! d).

Definition new_node (rc : ResourceConfigSpec) : RdtqNodeInfo :=
  let l3c := CapacityIn (device rc L3) in
  let mbc := CapacityIn (device rc MBdev) in
  mkRdtqNodeInfo (of_Z 100) l3c mbc (DefaultIn (device rc L3)) (DefaultIn (device rc MBdev))
    {[BE := mkClass (mkRdt l3c mbc) (mkRdt l3c mbc) []]}.

Definition AddCacheNodeInfo (nodeName : string) (rc : ResourceConfigSpec)
    : GoM (HS K) (option error) := λ s,
  let! '(_, s) := print_cache (set_cache (SetExtendedResource (hs_cache s) nodeName
                    (ER_Rdtq (mkRdtqResource nodeName (Some (new_node rc))))) s) in
  Ok (None, s).

Definition UpdatePVC (pvc : PVC) (nodename devId : string) (storage : Z) (add : bool)
    : GoM (HS K) (option error) := retM None.

Definition UpdateDeviceNodeInfo (node : string) (old new : ResourceConfigSpec)
    : GoM (HS K) (gmap string Device * gmap string Device + error) := λ s,
  Ok (inl (∅, ∅), s).

Definition DeleteCacheNodeInfo (nodeName : string) : GoM (HS K) (option error) := λ s,
  Ok (None, set_cache (DeleteExtendedResource (hs_cache s) nodeName) s).

Definition RDTQuantityType : string := "RDTQuantity".

Definition UpdateCacheNodeStatus (n : string) (nodeIoBw : NodeIOStatusStatus)
    : GoM (HS K) (option error) := λ s,
  let report : outcome (HS K * option error) :=
    match AllocatableBandwidth nodeIoBw !! RDTQuantityType with
    | None => Ok (s, None)
    | Some bw =>
        if (size bw =? 0)%nat then Ok (s, None)
        else
          match GetExtendedResource (hs_cache s) n with
          | None => Ok (s, Some "node not registered in cache")
          | Some rs =>
              match as_rdtq rs with
              | None => Ok (s, Some "incorrect resource cached")
              | Some r =>
                  match bw !! BE with
                  | None => Ok (s, Some ("node " +:+ n +:+ " DeviceBwInfo do not exist"))
                  | Some pool =>
                      match pool !! WorkloadGA with
                      | None => Ok (s, Some ("node " +:+ n +:+ " rdt class BE do not exist"))
                      | Some st =>
                          let! info := deref (qr_info r) in
                          Ok (set_cache (SetExtendedResource (hs_cache s) n
                            (ER_Rdtq (mkRdtqResource (qr_nodeName r)
                               (Some (set_BEScore (Pressure st) info))))) s, None)
                      end
                  end
              end
          end
    end in
  let! '(s, err) := report in
  match err with
  | Some _ => Ok (err, s)
  | None => let! '(_, s) := print_cache s in Ok (None, s)
  end.

Definition NodeHasIoiLabel (node : Node) : bool := has_label "rdtQuantity" node.

(** ** resource.go *)

Definition store_node (entry : string) (ps : RdtqResource) (info : RdtqNodeInfo) s : HS K :=
  set_cache (SetExtendedResource (hs_cache s) entry
    (ER_Rdtq (mkRdtqResource (qr_nodeName ps) (Some info)))) s.

Definition res_AddPod (entry : string) (ps : RdtqResource) (pod : Pod) (rawRequest : any)
    : GoM (HS K) add_result := λ s,
  match rawRequest with
  | any_ioreq requestInfo =>
      let! info := deref (qr_info ps) in
      let! req := deref requestInfo in
      let! d := deref (DevRequest req) in
      let! m := charge_class (pod_UID pod) d (classes info) in
      Ok (Added [req], store_node entry ps (set_classes m info) s)
  | _ => Ok (AddRefused "unable to convert state into RDTQuantity's pod request format", s)
  end.

(** The list without the first occurrence of [uid]; [None] if there is none. *)
Fixpoint remove_uid (uid : string) (l : list string) : option (list string) :=
  match l with
  | [] => None
  | p :: l' => if String.eqb p uid then Some l' else (p ::.) <$> remove_uid uid l'
  end.

(** The loop of RemovePod: the first class, in the order of the range, that
    lists the pod. *)
Fixpoint release_class (uid : string) (l : list (string * classInfo))
    (m : gmap string classInfo) : outcome (option (gmap string classInfo)) :=
  match l with
  | [] => Ok None
  | (class, c) :: l' =>
      match remove_uid uid (ci_PodList c) with
      | None => release_class uid l' m
      | Some pods =>
          let c' := mkClass (ci_Requests c) (ci_Limits c) pods in
          if (length pods =? 0)%nat && negb (String.eqb class BE) then
            let! m := on_BE (be_give (l3 (ci_Requests c)) (mb (ci_Requests c)))
                        (delete class m) in
            Ok (Some m)
          else Ok (Some (<[class := c']> m))
      end
  end.

Definition res_RemovePod (entry : string) (ps : RdtqResource) (pod : Pod) (client : bool)
    : GoM (HS K) (option error) := λ s,
  let! info := deref (qr_info ps) in
  let! r := release_class (pod_UID pod) (range (classes info)) (classes info) in
  Ok (match r with
      | Some m => (None, store_node entry ps (set_classes m info) s)
      | None => (Some ("pod " +:+ pod_Name pod +:+ " not found in cache"), s)
      end).

Definition res_AdmitPod (ps : RdtqResource) (pod : Pod) s : outcome (any + error) :=
  let! r := GetRequestByAnnotation s pod (qr_nodeName ps) false in
  Ok (match r with
      | inr err => inr err
      | inl (requests, _) =>
          inl (any_ioreq (foldl (λ _ kv, Some kv.2) None (range requests)))
      end).
End RDTQuantity.
