(* ===== verification/Handle.v ===== *)
(** * pkg/scheduler/resource/handle.go: handles

    The interface CacheHandle as a record of operations, the methods of
    HandleBase, which dispatch on the cached resource, and the four handles.
    The plugin and the event handlers are written against the interface. *)

From S2P Require Export Context.
From S2P Require BlockIO NetworkIO RDT RDTQuantity.

Section Handle.
Context `{Q : QuantityLib} `{!JsonLib} `{!GoRange, !GoSort} {K : Type} `{!KubeClient K}.

(** resource.Handle with resource.CacheHandle. *)
Record CacheHandle := mkHandle {
  Name : string;
  AddCacheNodeInfo : string → ResourceConfigSpec → GoM (HS K) (option error);
  UpdateDeviceNodeInfo : string → ResourceConfigSpec → ResourceConfigSpec →
    GoM (HS K) (gmap string Device * gmap string Device + error);
  InitNodeStatus : string → ResourceConfigSpec → GoM (HS K) ();
  DeleteCacheNodeInfo : string → GoM (HS K) (option error);
  UpdateCacheNodeStatus : string → NodeIOStatusStatus → GoM (HS K) (option error);
  CriticalPod : gmap string string → bool;
  GetRequestByAnnotation : HS K → Pod → string → bool →
    outcome (gmap string IOResourceRequest * any + error);
  NodeRegistered : HS K → string → bool;
  AddPod : Pod → string → any → GoM (HS K) add_result;
  (** the flag: the client is not nil *)
  RemovePod : Pod → string → bool → GoM (HS K) (option error);
  AdmitPod : HS K → Pod → string → outcome (any + error);
  CanAdmitPod : HS K → string → any → outcome (any + error);
  NodePressureRatio : any → any → outcome (f64 + error);
  PrintCacheInfo : GoM (HS K) ();
  NodeHasIoiLabel : Node → bool;
  InitBENum : string → ResourceConfigSpec → GoM (HS K) ();
  UpdatePVC : PVC → string → string → Z → bool → GoM (HS K) (option error)
}.

(** ** HandleBase: methods of the cached resource by its dynamic type *)

Definition res_RemovePod (entry : string) (r : ExtendedResource) (pod : Pod) (client : bool)
    : GoM (HS K) (option error) :=
  match r with
  | ER_Block r => BlockIO.res_RemovePod entry r pod client
  | ER_Net r => NetworkIO.res_RemovePod entry r pod client
  | ER_Rdt r => RDT.res_RemovePod entry r pod client
  | ER_Rdtq r => RDTQuantity.res_RemovePod entry r pod client
  end.
Definition res_AddPod (entry : string) (r : ExtendedResource) (pod : Pod) (request : any)
    : GoM (HS K) add_result :=
  match r with
  | ER_Block r => BlockIO.res_AddPod entry r pod request
  | ER_Net r => NetworkIO.res_AddPod entry r pod request
  | ER_Rdt r => RDT.res_AddPod entry r pod request
  | ER_Rdtq r => RDTQuantity.res_AddPod entry r pod request
  end.
Definition res_AdmitPod (r : ExtendedResource) (pod : Pod) (s : HS K) : outcome (any + error) :=
  match r with
  | ER_Block r => BlockIO.res_AdmitPod r pod s
  | ER_Net r => NetworkIO.res_AdmitPod r pod s
  | ER_Rdt r => RDT.res_AdmitPod r pod s
  | ER_Rdtq r => RDTQuantity.res_AdmitPod r pod s
  end.

Definition base_RemovePod (pod : Pod) (nodeName : string) (client : bool)
    : GoM (HS K) (option error) := λ s,
  let! '(err, s) :=
    match GetExtendedResource (hs_cache s) nodeName with
    | Some r => res_RemovePod nodeName r pod client s
    | None => Ok (None, s)
    end in
  match err with
  | Some _ => Ok (err, s)
  | None => let! '(_, s) := print_cache s in Ok (None, s)
  end.

Definition base_AddPod (pod : Pod) (nodeName : string) (request : any)
    : GoM (HS K) add_result := λ s,
  match GetExtendedResource (hs_cache s) nodeName with
  | Some r => res_AddPod nodeName r pod request s
  | None => Ok (AddError ("cannot get extended resource: " +:+ nodeName), s)
  end.

Definition base_AdmitPod (s : HS K) (pod : Pod) (nodeName : string) : outcome (any + error) :=
  let! _ := Cache.PrintCacheInfo (hs_cache s) in
  match GetExtendedResource (hs_cache s) nodeName with
  | Some r => res_AdmitPod r pod s
  | None => Ok (inr ("failed to get the extended resource on node: " +:+ nodeName))
  end.

Definition base_NodeRegistered (s : HS K) (node : string) : bool :=
  match GetExtendedResource (hs_cache s) node with Some _ => true | None => false end.

(** ** The four handles *)

Definition BlockIOHandle : CacheHandle :=
  mkHandle BlockIO.Name BlockIO.AddCacheNodeInfo BlockIO.UpdateDeviceNodeInfo
    BlockIO.InitNodeStatus BlockIO.DeleteCacheNodeInfo BlockIO.UpdateCacheNodeStatus
    BlockIO.CriticalPod BlockIO.GetRequestByAnnotation base_NodeRegistered
    base_AddPod base_RemovePod base_AdmitPod BlockIO.CanAdmitPod BlockIO.NodePressureRatio
    print_cache BlockIO.NodeHasIoiLabel BlockIO.InitBENum BlockIO.UpdatePVC.

Definition NetworkIOHandle : CacheHandle :=
  mkHandle NetworkIO.Name NetworkIO.AddCacheNodeInfo NetworkIO.UpdateDeviceNodeInfo
    NetworkIO.InitNodeStatus NetworkIO.DeleteCacheNodeInfo NetworkIO.UpdateCacheNodeStatus
    NetworkIO.CriticalPod NetworkIO.GetRequestByAnnotation base_NodeRegistered
    base_AddPod base_RemovePod base_AdmitPod NetworkIO.CanAdmitPod NetworkIO.NodePressureRatio
    print_cache NetworkIO.NodeHasIoiLabel NetworkIO.InitBENum NetworkIO.UpdatePVC.

Definition RDTHandle : CacheHandle :=
  mkHandle RDT.Name RDT.AddCacheNodeInfo RDT.UpdateDeviceNodeInfo
    RDT.InitNodeStatus RDT.DeleteCacheNodeInfo RDT.UpdateCacheNodeStatus
    RDT.CriticalPod RDT.GetRequestByAnnotation base_NodeRegistered
    base_AddPod base_RemovePod base_AdmitPod RDT.CanAdmitPod RDT.NodePressureRatio
    print_cache RDT.NodeHasIoiLabel RDT.InitBENum RDT.UpdatePVC.

Definition RDTQuantityHandle : CacheHandle :=
  mkHandle RDTQuantity.Name RDTQuantity.AddCacheNodeInfo RDTQuantity.UpdateDeviceNodeInfo
    RDTQuantity.InitNodeStatus RDTQuantity.DeleteCacheNodeInfo RDTQuantity.UpdateCacheNodeStatus
    RDTQuantity.CriticalPod RDTQuantity.GetRequestByAnnotation base_NodeRegistered
    base_AddPod base_RemovePod base_AdmitPod RDTQuantity.CanAdmitPod
    RDTQuantity.NodePressureRatio
    print_cache RDTQuantity.NodeHasIoiLabel RDTQuantity.InitBENum RDTQuantity.UpdatePVC.

(** ** The scheduler's store: the context, the API server, and the cache of
    each handle by resource type *)

Record World := mkWorld {
  w_ctx : IoiContext;
  w_kube : K;
  w_caches : gmap string (gmap string ExtendedResource)
}.

(** What the handle of resource type [key] sees. *)
Definition view (key : string) (w : World) : HS K :=
  mkHS (w_ctx w) (default ∅ (w_caches w !! key)) (w_kube w).
Definition put (key : string) (s : HS K) (w : World) : World :=
  mkWorld (hs_ctx s) (hs_kube s) (<[key := hs_cache s]> (w_caches w)).
Definition on_handle {A} (key : string) (m : GoM (HS K) A) : GoM World A := λ w,
  let! '(a, s) := m (view key w) in Ok (a, put key s w).

Definition set_w_ctx (c : IoiContext) (w : World) : World :=
  mkWorld c (w_kube w) (w_caches w).
Definition set_w_kube (k : K) (w : World) : World :=
  mkWorld (w_ctx w) k (w_caches w).
End Handle.
Arguments CacheHandle {_} K.
Arguments World {_} K.
