(* ===== verification/Plugin.v ===== *)
(** * pkg/scheduler: the framework plugin (plugin.go, score.go)

    Filter, Score, Reserve and Unreserve over the registered handles, and the
    two scorers.  The handles are values of the interface [CacheHandle]. *)

From S2P Require Export Handle.

Definition MaxNodeScore : Z := 100.
Definition MinNodeScore : Z := 0.
Definition stateKeyPrefix : string := "ResourceIO-".

(** ** score.go *)

Inductive Scorer := MostAllocatedScorer (resourceType : string)
                  | LeastAllocatedScorer (resourceType : string).

Definition BlockIO_t : string := "BlockIO".
Definition NetworkIO_t : string := "NetworkIO".
Definition RDT_t : string := "RDT".
Definition RDTQuantity_t : string := "RDTQuantity".
Definition All_t : string := "All".

Definition getScorer (scoreStrategy resourceType : string) : Scorer + error :=
  if negb (String.eqb resourceType BlockIO_t) && negb (String.eqb resourceType NetworkIO_t) &&
     negb (String.eqb resourceType RDT_t) && negb (String.eqb resourceType RDTQuantity_t)
  then inr ("unknown resource type " +:+ resourceType)
  else if String.eqb scoreStrategy "LeastAllocated" then inl (LeastAllocatedScorer resourceType)
  else if String.eqb scoreStrategy "MostAllocated" then inl (MostAllocatedScorer resourceType)
  else inr ("unknown score strategy " +:+ scoreStrategy).

Definition getResources (rt : string) : list string + error :=
  if String.eqb rt "" then inr ("resource type is unset: " +:+ rt)
  else if String.eqb rt BlockIO_t then inl [rt]
  else if String.eqb rt NetworkIO_t then inl [rt]
  else if String.eqb rt RDT_t then inl [rt]
  else if String.eqb rt RDTQuantity_t then inl [rt]
  else if String.eqb rt All_t then inl [BlockIO_t; NetworkIO_t; RDT_t]
  else inr ("unknown resource type " +:+ rt +:+ " in score").

Inductive Status := Success | Unschedulable (msg : string).

Section Plugin.
Context `{Q : QuantityLib} `{!GoRange} {K : Type} `{!KubeClient K}.

Record stateData := mkStateData {
  request : any; nodeResourceState : any; nodeSupportIOI : bool
}.

(** framework.CycleState: written and read under string keys. *)
Abbreviation CycleState := (gmap string stateData).
Definition getStateData (cs : CycleState) (key : string) : stateData + error :=
  match cs !! key with Some s => inl s | None => inr "not found" end.

Record ResourceIO := mkResourceIO {
  rhs : gmap string (CacheHandle K); scorer : gmap string Scorer
}.

(** The loop of New over the configured resource types: the handles and the
    scorers, or the first error. *)
Definition New_loop (handle_of : string → option (CacheHandle K)) (scoreStrategy : string)
    (rts : list string) : ResourceIO + error :=
  foldl (λ acc rt,
    match acc with
    | inr err => inr err
    | inl ps =>
        let r := match handle_of rt with
                 | Some h => <[rt := h]> (rhs ps)
                 | None => rhs ps
                 end in
        match getScorer scoreStrategy rt with
        | inr err => inr err
        | inl s => inl (mkResourceIO r (<[rt := s]> (scorer ps)))
        end
    end) (inl (mkResourceIO ∅ ∅)) rts.

(** Scorer.Score *)
Definition sc_Score (sc : Scorer) (state : stateData) (rh : CacheHandle K)
    : outcome (Z + error) :=
  if negb (nodeSupportIOI state) then Ok (inl MaxNodeScore)
  else
    let! r := NodePressureRatio rh (request state) (nodeResourceState state) in
    Ok (match r with
        | inr err => inr err
        | inl ratio =>
            let x := match sc with
                     | MostAllocatedScorer _ => ratio
                     | LeastAllocatedScorer _ => fsub (of_Z 1) ratio
                     end in
            inl (to_int64 (fmul x (of_Z MaxNodeScore)))
        end).

(** ** plugin.go *)

Definition state_key (rh : CacheHandle K) (nodeName : string) : string :=
  stateKeyPrefix +:+ Handle.Name rh +:+ nodeName.

(** One handle of Filter: the entry to write, or the reason to refuse. *)
Definition filter_handle (w : World K) (key : string) (rh : CacheHandle K) (pod : Pod)
    (node : Node) : outcome (stateData + error) :=
  let s := view key w in
  let nodeName := node_Name node in
  if negb (NodeRegistered rh s nodeName) then
    if CriticalPod rh (pod_Annotations pod)
    then Ok (inr ("node " +:+ nodeName +:+
                  " without ioisolation support cannot schedule GA/BT workload"))
    else Ok (inl (mkStateData any_nil any_nil false))
  else
    let! a := AdmitPod rh s pod nodeName in
    match a with
    | inr err => Ok (inr err)
    | inl request =>
        let! c := CanAdmitPod rh s nodeName request in
        Ok (match c with
            | inr err => inr err
            | inl r => inl (mkStateData request r (NodeHasIoiLabel rh node))
            end)
    end.

Definition Filter (ps : ResourceIO) (w : World K) (state : CycleState) (pod : Pod)
    (node : Node) : outcome (CycleState * Status) :=
  if InNamespaceWhiteList (w_ctx w) (pod_Namespace pod) then Ok (state, Success)
  else
    let! c := for_range (range (rhs ps)) state (λ state kh,
      let! r := filter_handle w kh.1 kh.2 pod node in
      Ok (match r with
          | inr err => Return (state, Unschedulable err)
          | inl sd => Next (<[state_key kh.2 (node_Name node) := sd]> state)
          end)) in
    Ok (match c with Next state => (state, Success) | Return r => r end).

Definition Score (ps : ResourceIO) (w : World K) (state : CycleState) (pod : Pod)
    (nodeName : string) : outcome (Z * Status) :=
  if InNamespaceWhiteList (w_ctx w) (pod_Namespace pod) then Ok (MaxNodeScore, Success)
  else
    let! c := for_range (range (rhs ps)) 0 (λ score kh,
      match getStateData state (state_key kh.2 nodeName) with
      | inr err => Ok (Return err)
      | inl sd =>
          if negb (nodeSupportIOI sd) then Ok (Next (add64 score MaxNodeScore))
          else
            let! sc := deref (scorer ps !! kh.1) in
            let! s := sc_Score sc sd kh.2 in
            Ok (match s with
                | inr err => Return err
                | inl s => Next (add64 score s)
                end)
      end) in
    match c with
    | Return err => Ok (MinNodeScore, Unschedulable err)
    | Next score =>
        if (size (rhs ps) =? 0)%nat then Ok (MaxNodeScore, Success)
        else
          let! q := div64 score (Z.of_nat (size (rhs ps))) in
          Ok (q, Success)
    end.

(** Nodes().List returns an empty list beside an error. *)
Definition clearStateData (state : CycleState) (k : K) (rhName : string) : CycleState :=
  match nodes_list k with
  | inr _ => state
  | inl nodes =>
      foldl (λ st n, delete (stateKeyPrefix +:+ rhName +:+ n) st) state nodes
  end.

(** The loop of Reserve: the store, the cycle state and the requests
    collected; the error with the store and the state reached. *)
Definition reserve_handles (ps : ResourceIO) (w : World K) (state : CycleState) (pod : Pod)
    (nodeName : string)
    : outcome (ctrl (World K * CycleState * list IOResourceRequest)
                    (World K * CycleState * error)) :=
  for_range (range (rhs ps)) (w, state, []) (λ acc kh,
    let '(w, state, reqs) := acc in
    match getStateData state (state_key kh.2 nodeName) with
    | inr err => Ok (Return (w, state, err))
    | inl sd =>
        let! '(r, w) := on_handle kh.1 (AddPod kh.2 pod nodeName (request sd)) w in
        match r with
        | AddRefused err => Ok (Return (w, state, err))
        | AddError err =>
            Ok (if CriticalPod kh.2 (pod_Annotations pod) then Return (w, state, err)
                else Next (w, state, reqs))
        | Added new =>
            let! '(_, w) := on_handle kh.1 (PrintCacheInfo kh.2) w in
            Ok (Next (w, clearStateData state (w_kube w) (Handle.Name kh.2), reqs ++ new))
        end
    end).

Definition Reserve (ps : ResourceIO) (w : World K) (state : CycleState) (pod : Pod)
    (nodeName : string) : outcome (World K * CycleState * Status) :=
  if InNamespaceWhiteList (w_ctx w) (pod_Namespace pod) then Ok (w, state, Success)
  else
    let! c := reserve_handles ps w state pod nodeName in
    match c with
    | Return (w, state, err) => Ok (w, state, Unschedulable err)
    | Next (w, state, reqs) =>
        match reqs with
        | [] => Ok (w, state, Success)
        | _ =>
            let! '(ctx, err) := Context.AddPod (w_ctx w)
              (mkPodRequest (pod_Name pod) (pod_Namespace pod) reqs) pod nodeName in
            Ok (set_w_ctx ctx w, state,
                match err with Some err => Unschedulable err | None => Success end)
        end
    end.

Definition Unreserve (ps : ResourceIO) (w : World K) (pod : Pod) (nodeName : string)
    : outcome (World K) :=
  if InNamespaceWhiteList (w_ctx w) (pod_Namespace pod) then Ok w
  else
    let! w := foldM (λ w kh,
      let! '(_, w) := on_handle kh.1 (RemovePod kh.2 pod nodeName true) w in Ok w)
      w (range (rhs ps)) in
    let! '(ctx, _) := Context.RemovePod (w_ctx w) pod nodeName in
    Ok (set_w_ctx ctx w).
End Plugin.
Arguments ResourceIO {_} K.

Section New.
Context `{Q : QuantityLib} `{!JsonLib} `{!GoRange, !GoSort} {K : Type} `{!KubeClient K}.

Definition handle_of (rt : string) : option (CacheHandle K) :=
  if String.eqb rt BlockIO_t then Some BlockIOHandle
  else if String.eqb rt NetworkIO_t then Some NetworkIOHandle
  else if String.eqb rt RDT_t then Some RDTHandle
  else if String.eqb rt RDTQuantity_t then Some RDTQuantityHandle
  else None.

(** New: the plugin and the first store, with empty caches and the context
    that NewContext makes; the queue worker and the informers start then. *)
Definition New (k : K) (ResourceType ScoreStrategy : string)
    : ResourceIO K * World K + error :=
  match getResources ResourceType with
  | inr err => inr err
  | inl rts =>
      match New_loop handle_of ScoreStrategy rts with
      | inr err => inr err
      | inl ps =>
          inl (ps, mkWorld (mkCtx ∅ (GetNamespaceWhiteList k) ∅ [] ∅ false) k
                     ((λ _, ∅) <$> rhs ps))
      end
  end.
End New.
