(* ===== verification/EventHandler.v ===== *)
(** * pkg/scheduler/resource/eventhandler.go: informer callbacks

    Each handler is a computation on the scheduler's store.  An event is
    delivered by an informer with an object of the right type. *)

From S2P Require Export Handle.

Section EventHandler.
Context `{Q : QuantityLib} `{!HashLib} `{!GoRange} {K : Type} `{!KubeClient K}.
(** IOEventHandler.cache: resource type -> handle *)
Context (cache : gmap string (CacheHandle K)).
Implicit Types w : World K.

(** IoiContext.Lock and the deferred Unlock. *)
Definition w_Lock w : outcome (World K) :=
  let! c := ctx_Lock (w_ctx w) in Ok (set_w_ctx c w).
Definition w_Unlock w : World K := set_w_ctx (ctx_Unlock (w_ctx w)) w.
Definition locked_do (f : World K → outcome (World K)) w : outcome (World K) :=
  let! w := w_Lock w in
  let! w := f w in
  Ok (w_Unlock w).

(** A call on every handle of [eh.cache], in the order of the range. *)
Definition each_handle (f : string → CacheHandle K → World K → outcome (World K)) w
    : outcome (World K) :=
  foldM (λ w kh, f kh.1 kh.2 w) w (range cache).
Definition ignore_result {A} (key : string) (m : GoM (HS K) A) w : outcome (World K) :=
  let! '(_, w) := on_handle key m w in Ok w.

(** [for k, rc := range nio.Spec.ResourceConfig { if registered ... }] *)
Definition each_config (nio : NodeStaticIOInfo)
    (f : CacheHandle K → ResourceConfigSpec → GoM (HS K) ()) w : outcome (World K) :=
  foldM (λ w kr,
    match cache !! kr.1 with
    | Some h => ignore_result kr.1 (f h kr.2) w
    | None => Ok w
    end) w (range (ResourceConfig nio)).

(** ** Allocatable bandwidth of a new node or device *)

Definition unset_status : IOStatus := mkIOStatus (of_Z (-1)) (of_Z (-1)) (of_Z (-1)) (of_Z (-1)) "".
Definition unset_pool : gmap string IOStatus :=
  {[WorkloadGA := unset_status; WorkloadBE := unset_status]}.

Definition composeAllocableBW (ni : NodeStaticIOInfo) (typ : string)
    : gmap string DeviceIOStatus :=
  let devs (rc : ResourceConfigSpec) : DeviceIOStatus := (λ _, unset_pool) <$> Devices rc in
  if String.eqb typ "" then devs <$> ResourceConfig ni
  else
    match ResourceConfig ni !! typ with
    | Some rc => {[typ := devs rc]}
    | None => ∅
    end.

Definition composeDeviceAllocableBW (adds dels : gmap string Device)
    : DeviceIOStatus * DeviceIOStatus :=
  ((λ _, unset_pool) <$> adds, (λ _, ∅) <$> dels).

(** ** calculatePodRequest *)

Definition calculatePodRequest (pod : Pod) (node : string) w : outcome PodRequest :=
  let! reqs := foldM (λ l kh,
    let! r := GetRequestByAnnotation kh.2 (view kh.1 w) pod node true in
    Ok (match r with
        | inr _ => l
        | inl (requests, _) => l ++ (range requests).*2
        end)) [] (range cache) in
  Ok (mkPodRequest (pod_Name pod) (pod_Namespace pod) reqs).

(** [IoiContext.Reservedpod[node].PodList[uid] = requests] *)
Definition record_pod (node : string) (pod : Pod) (req : PodRequest) (c : IoiContext)
    : outcome IoiContext :=
  let! pl := deref (default None (Reservedpod c !! node)) in
  Ok (set_Reservedpod (<[node := Some (mkPodList (Generation pl)
                                   (<[pod_UID pod := req]> (pl_PodList pl)))]> (Reservedpod c)) c).

(** The pods of the node that carry an allocation, from the API server. *)
Definition reserve_existing (node : string) w : outcome (World K) :=
  let namespaces := match ns_list (w_kube w) with inl l => l | inr _ => [] end in
  foldM (λ w ns,
    if InNamespaceWhiteList (w_ctx w) ns then Ok w
    else
      let pods := match pods_list (w_kube w) ns with inl l => l | inr _ => [] end in
      foldM (λ w pod,
        match pod_Annotations pod !! AllocatedIOAnno with
        | None => Ok w
        | Some _ =>
            if String.eqb (pod_NodeName pod) node then
              let! requests := calculatePodRequest pod node w in
              let! c := record_pod node pod requests (w_ctx w) in
              Ok (set_w_ctx c w)
            else Ok w
        end) w pods) w namespaces.

(** ** AddNodeStaticIOInfo *)

(** The last part: publish the node's reserved pods and initialise the
    pools, according to the NodeIOStatus object of the node. *)
Definition sync_node (nio : NodeStaticIOInfo) w : outcome (World K) :=
  let node := nsi_NodeName nio in
  let init := each_config nio (λ h rc, InitNodeStatus h node rc) in
  let spec := match GetReservedPodsWithNameNS (w_ctx w) node with
              | inl s => Some s | inr _ => None end in
  match GetNodeIOStatus (w_kube w) node with
  | inr err =>
      if IsNotFound err then
        let '(k, e) := CreateNodeIOStatus (w_kube w) spec in
        let w := set_w_kube k w in
        match e with
        | Some _ => Ok w
        | None =>
            let '(k, e) := UpdateNodeIOStatusInType k node (composeAllocableBW nio "") in
            let w := set_w_kube k w in
            match e with Some _ => Ok w | None => init w end
        end
      else Ok w
  | inl sts =>
      let! spec := deref spec in
      let sp := nis_Spec sts in
      if negb (ComparePodList (ReservedPods sp) (ReservedPods spec)) ||
         negb (ObservedGeneration (nis_Status sts) =? spec_Generation sp)
      then
        let! w := init w in
        let copy := mkSpec (spec_NodeName sp) (add64 (spec_Generation sp) 1)
                      (ReservedPods spec) in
        let '(c, _) := SetPodListGen (w_ctx w) node (spec_Generation copy) in
        let '(k, _) := UpdateNodeIOStatusSpec (w_kube w) node copy in
        Ok (set_w_kube k (set_w_ctx c w))
      else
        let '(c, _) := SetPodListGen (w_ctx w) node (spec_Generation sp) in
        init (set_w_ctx c w)
  end.

Definition AddNodeStaticIOInfo (nio : NodeStaticIOInfo) w : outcome (World K) :=
  let node := nsi_NodeName nio in
  locked_do (λ w,
    let w := match GetReservedPods (w_ctx w) node with
             | inr _ => set_w_ctx (SetReservedPods (w_ctx w) node (Some (mkPodList 0 ∅))) w
             | inl _ => w
             end in
    let! w := each_config nio (λ h rc s,
                let! '(_, s) := AddCacheNodeInfo h node rc s in Ok ((), s)) w in
    let! w := reserve_existing node w in
    sync_node nio w) w.

(** ** UpdateNodeStaticIOInfo *)

(** One resource of the new spec; [Return] ends the handler. *)
Definition update_resource (old nio : NodeStaticIOInfo) (k : string) (n : ResourceConfigSpec) w
    : outcome (ctrl (World K) (World K)) :=
  let node := nsi_NodeName nio in
  match cache !! k with
  | None => Ok (Next w)
  | Some h =>
      match ResourceConfig old !! k with
      | Some o =>
          if negb (hash_rc n =? hash_rc o) && String.eqb k "BlockIO" then
            let! '(r, w) := on_handle k (UpdateDeviceNodeInfo h node o n) w in
            match r with
            | inr _ => Ok (Return w)
            | inl (adds, dels) =>
                let '(cAdds, cDels) := composeDeviceAllocableBW adds dels in
                let '(kc, e) := UpdateNodeIOStatusInDevice (w_kube w) node k cAdds cDels in
                let w := set_w_kube kc w in
                Ok (match e with Some _ => Return w | None => Next w end)
            end
          else Ok (Next w)
      | None =>
          let! '(err, w) := on_handle k (AddCacheNodeInfo h node n) w in
          match err with
          | Some _ => Ok (Return w)
          | None =>
              let! '(_, w) := on_handle k (InitNodeStatus h node n) w in
              let '(kc, e) := UpdateNodeIOStatusInType (w_kube w) node
                                (composeAllocableBW nio k) in
              let w := set_w_kube kc w in
              Ok (match e with Some _ => Return w | None => Next w end)
          end
      end
  end.

Definition UpdateNodeStaticIOInfo (old nio : NodeStaticIOInfo) w : outcome (World K) :=
  let! c := for_range (range (ResourceConfig nio)) w
              (λ w kr, update_resource old nio kr.1 kr.2 w) in
  Ok (match c with Next w | Return w => w end).

(** ** Deletions *)

Definition remove_reserved (node : string) (c : IoiContext) : IoiContext :=
  match GetReservedPods c node with inl _ => RemoveNode c node | inr _ => c end.

Definition DeleteNodeStaticIOInfo (nio : NodeStaticIOInfo) w : outcome (World K) :=
  let! w := each_handle (λ k h w,
    let! w := ignore_result k (DeleteCacheNodeInfo h (nsi_NodeName nio)) w in
    ignore_result k (PrintCacheInfo h) w) w in
  locked_do (λ w, Ok (set_w_ctx (remove_reserved (nsi_NodeName nio) (w_ctx w)) w)) w.

Definition DeletePod (pod : Pod) w : outcome (World K) :=
  match pod_Annotations pod !! AllocatedIOAnno with
  | None => Ok w
  | Some _ =>
      let! w := each_handle (λ k h w,
        let! w := ignore_result k (RemovePod h pod (pod_NodeName pod) false) w in
        ignore_result k (PrintCacheInfo h) w) w in
      let! '(c, _) := Context.RemovePod (w_ctx w) pod (pod_NodeName pod) in
      Ok (set_w_ctx c w)
  end.

(** The filter that BuildEvtHandler puts before DeletePod. *)
Definition pod_filter w (pod : Pod) : bool :=
  negb (InNamespaceWhiteList (w_ctx w) (pod_Namespace pod)) &&
  negb (String.eqb (pod_NodeName pod) "").

(** A loop that stops the handler at the first error of DeleteCacheNodeInfo. *)
Definition delete_caches (cond : CacheHandle K → bool) (node : string) w
    : outcome (ctrl (World K) (World K)) :=
  for_range (range cache) w (λ w kh,
    if cond kh.2 then
      let! '(err, w) := on_handle kh.1 (DeleteCacheNodeInfo kh.2 node) w in
      Ok (match err with Some _ => Return w | None => Next w end)
    else Ok (Next w)).

Definition UpdateNode (oldNode newNode : Node) w : outcome (World K) :=
  let! c := delete_caches (λ h, NodeHasIoiLabel h oldNode && negb (NodeHasIoiLabel h newNode))
              (node_Name newNode) w in
  Ok (match c with Next w | Return w => w end).

Definition DeleteNode (node : Node) w : outcome (World K) :=
  let! c := delete_caches (λ _, true) (node_Name node) w in
  match c with
  | Return w => Ok w
  | Next w =>
      locked_do (λ w,
        let w := set_w_ctx (remove_reserved (node_Name node) (w_ctx w)) w in
        let '(k, _) := RemoveNodeFromVolDiskCm (w_kube w) (node_Name node) in
        Ok (set_w_kube k w)) w
  end.

(** ** Persistent volume claims *)

Definition claim_key (pvc : PVC) : string := pvc_key (pvc_Name pvc) (pvc_Namespace pvc).

Definition DeletePVC (pvc : PVC) w : outcome (World K) :=
  locked_do (λ w,
    match GetStorageInfo (w_ctx w) (claim_key pvc) with
    | inr _ => Ok w
    | inl info =>
        each_handle (λ k h w,
          ignore_result k (UpdatePVC h pvc (si_NodeName info) (si_DevID info)
                             (RequestedStorage info) false) w) w
    end) w.

Definition colon : ascii := ":"%char.

(** The device and the storage of a bound claim; takes and releases the
    context's lock. *)
Definition getBoundDeviceId (pvc : PVC) (node : string) w : outcome (string * Z + error) :=
  let! w := w_Lock w in
  Ok (match GetStorageInfo (w_ctx w) (claim_key pvc) with
      | inr _ => inr ("PVC " +:+ claim_key pvc +:+ " was not found in IoIContext")
      | inl _ =>
          match pvc_Storage pvc with
          | None => inr "the PVC storage request is not specified"
          | Some quantity =>
              match GetVolumeDeviceMap (w_kube w) node with
              | inr _ => inr ("unable to find the volume device map for node " +:+ node)
              | inl cm =>
                  inl (match cm_Data cm !! claim_key pvc with
                       | Some v => match str_split colon v with
                                   | [dev; _] => dev
                                   | _ => EmptyString
                                   end
                       | None => EmptyString
                       end, Value quantity)
              end
          end
      end).

Definition pvc_changed (newPVC : PVC) (node : string) (add : bool) w : outcome (World K) :=
  let! r := getBoundDeviceId newPVC node w in
  match r with
  | inr _ => Ok w
  | inl (deviceId, qty) =>
      if negb (String.eqb deviceId "") && (0 <=? qty) then
        each_handle (λ k h w, ignore_result k (UpdatePVC h newPVC node deviceId qty add) w) w
      else Ok w
  end.

Definition UpdatePVC_event (oldPVC newPVC : PVC) w : outcome (World K) :=
  match pvc_Annotations newPVC !! AnnSelectedNode,
        pvc_Annotations newPVC !! AnnStorageProvisioner with
  | Some node, Some provisioner =>
      if negb (String.eqb provisioner StorageProvisioner) then Ok w
      else
        let phase_is p ph := bool_decide (pvc_Phase p = ph) in
        if negb (phase_is oldPVC ClaimBound) && phase_is newPVC ClaimBound then
          pvc_changed newPVC node true w
        else if phase_is oldPVC ClaimBound && phase_is newPVC ClaimLost then
          pvc_changed newPVC node false w
        else Ok w
  | _, _ => Ok w
  end.

(** ** UpdateNodeIOStatus *)

Definition UpdateNodeIOStatus (old nis : NodeIOStatus) w : outcome (World K) :=
  let node := spec_NodeName (nis_Spec nis) in
  locked_do (λ w,
    match GetReservedPods (w_ctx w) node with
    | inr _ => Ok w
    | inl rp =>
        if negb (hash_status (nis_Status old) =? hash_status (nis_Status nis)) &&
           (size (AllocatableBandwidth (nis_Status old)) =?
            size (AllocatableBandwidth (nis_Status nis)))%nat
        then
          let! rp := deref rp in
          if ObservedGeneration (nis_Status nis) =? Generation rp then
            each_handle (λ k h w,
              ignore_result k (UpdateCacheNodeStatus h node (nis_Status nis)) w) w
          else Ok w
        else Ok w
    end) w.

(** ** The admin config map *)

Definition newline : ascii := "010"%char.
Definition equals : ascii := "="%char.

(** The flags passed to SetLogLevel: info, debug. *)
Definition log_level (data : string) : bool * bool :=
  foldl (λ acc line,
    match str_split equals line with
    | [a; b] =>
        if str_contains a "level" then
          if String.eqb b "info" then (true, acc.2)
          else if String.eqb b "debug" then (true, true) else acc
        else acc
    | _ => acc
    end) (false, false) (str_split newline data).

(** AddAdminConfigData and UpdateAdminConfigData: the log level, and the
    white list when the map has one. *)
Definition AddAdminConfigData (cm : ConfigMap) w : World K * (bool * bool) :=
  let level := log_level (default EmptyString (cm_Data cm !! "loglevel")) in
  (match cm_Data cm !! NamespaceWhiteList with
   | Some v => set_w_ctx (set_NsWhiteList (str_fields v ++ [KubesystemNamespace; IoiNamespace])
                            (w_ctx w)) w
   | None => w
   end, level).
Definition UpdateAdminConfigData (old cm : ConfigMap) w : World K * (bool * bool) :=
  AddAdminConfigData cm w.

(** ** BuildEvtHandler: the events subscribed to and their callbacks *)

Inductive event :=
| NodeInfoAdded (nio : NodeStaticIOInfo)
| NodeInfoUpdated (old nio : NodeStaticIOInfo)
| NodeInfoDeleted (nio : NodeStaticIOInfo)
| StatusUpdated (old nis : NodeIOStatus)
| PodDeleted (pod : Pod)
| NodeUpdated (old new : Node)
| NodeDeleted (node : Node)
| ClaimUpdated (old new : PVC)
| ClaimDeleted (pvc : PVC)
| ConfigMapAdded (cm : ConfigMap)
| ConfigMapUpdated (old cm : ConfigMap).

Definition admin_filter (cm : ConfigMap) : bool := String.eqb (cm_Name cm) AdminName.

Definition handle_event (e : event) w : outcome (World K) :=
  match e with
  | NodeInfoAdded nio => AddNodeStaticIOInfo nio w
  | NodeInfoUpdated old nio => UpdateNodeStaticIOInfo old nio w
  | NodeInfoDeleted nio => DeleteNodeStaticIOInfo nio w
  | StatusUpdated old nis => UpdateNodeIOStatus old nis w
  | PodDeleted pod => if pod_filter w pod then DeletePod pod w else Ok w
  | NodeUpdated old new => UpdateNode old new w
  | NodeDeleted node => DeleteNode node w
  | ClaimUpdated old new => UpdatePVC_event old new w
  | ClaimDeleted pvc => DeletePVC pvc w
  | ConfigMapAdded cm => Ok (if admin_filter cm then (AddAdminConfigData cm w).1 else w)
  | ConfigMapUpdated old cm => Ok (if admin_filter cm then (UpdateAdminConfigData old cm w).1 else w)
  end.

(** The callbacks that a stream of events triggers. *)
Definition handle_events w (l : list event) : outcome (World K) :=
  foldM (λ w e, handle_event e w) w l.
End EventHandler.
