(* ===== verification/Aggregator.v ===== *)
(** * pkg/aggregator: between the scheduler and the node agents

    server.go and client.go.  The aggregator watches the NodeIOStatus and
    NodeStaticIOInfo objects, sends the reserved pods of a node to its agent,
    and writes the agents' reports back to the NodeIOStatus objects.  Its two
    channels and its work queue are lists; every handler and every round of
    its goroutines is one function on the state. *)

From S2P Require Export Context Text.

(** ** Messages (pkg/api/aggregator and pkg/api/nodeagent) *)

(** A pod list on the wire: a pod without details is nil. *)
Record WirePodList := mkWireList {
  wl_Generation : Z; wl_PodList : gmap string (option PodRequest)
}.
Record UpdateReservedPodsRequest := mkPodsReq {
  pq_NodeName : string; pq_ReservedPods : WirePodList
}.
Record DeviceBandwidthInfo := mkDevBw { db_Name : string; db_Status : gmap string IOStatus }.
Record IOBandwidth := mkIOBw { bw_IoType : IOType; DeviceBwInfo : gmap string DeviceBandwidthInfo }.
Record UpdateNodeIOStatusRequest := mkReport {
  rep_NodeName : string; rep_ObservedGeneration : Z; IoBw : list IOBandwidth
}.

(** ** State *)

(** [client] tells whether the connection to the agent was made; it and
    [conn] are set together.  [reservedPod] is nil for [None]. *)
Record NodeInfo4Agent := mkInfo4Agent {
  reservedPod : option (gmap string SpecPodRequest);
  latestGeneration : Z;
  client : option string
}.

Inductive work_item :=
| StatusItem (nodes : string)
| PodsItem (req : UpdateReservedPodsRequest).

Record Aggr := mkAggr {
  nodeInfo4Agent : gmap string NodeInfo4Agent;
  nodeInfo4Sched : gmap string NodeIOStatusStatus;
  NodeStatusCh : list UpdateNodeIOStatusRequest;
  ReservedPodCh : list NodeIOStatusSpec;
  aqueue : list work_item;
  (** the nodes that SendNodeStatustoQueue has collected *)
  updatedNode : list string;
  mtls : bool; direct : bool; isLeader : bool
}.

Definition set_agents v (a : Aggr) : Aggr :=
  mkAggr v (nodeInfo4Sched a) (NodeStatusCh a) (ReservedPodCh a) (aqueue a) (updatedNode a)
    (mtls a) (direct a) (isLeader a).
Definition set_scheds v (a : Aggr) : Aggr :=
  mkAggr (nodeInfo4Agent a) v (NodeStatusCh a) (ReservedPodCh a) (aqueue a) (updatedNode a)
    (mtls a) (direct a) (isLeader a).
Definition set_statusCh v (a : Aggr) : Aggr :=
  mkAggr (nodeInfo4Agent a) (nodeInfo4Sched a) v (ReservedPodCh a) (aqueue a) (updatedNode a)
    (mtls a) (direct a) (isLeader a).
Definition set_podCh v (a : Aggr) : Aggr :=
  mkAggr (nodeInfo4Agent a) (nodeInfo4Sched a) (NodeStatusCh a) v (aqueue a) (updatedNode a)
    (mtls a) (direct a) (isLeader a).
Definition set_aqueue v (a : Aggr) : Aggr :=
  mkAggr (nodeInfo4Agent a) (nodeInfo4Sched a) (NodeStatusCh a) (ReservedPodCh a) v (updatedNode a)
    (mtls a) (direct a) (isLeader a).
Definition set_updatedNode v (a : Aggr) : Aggr :=
  mkAggr (nodeInfo4Agent a) (nodeInfo4Sched a) (NodeStatusCh a) (ReservedPodCh a) (aqueue a) v
    (mtls a) (direct a) (isLeader a).
Definition SetLeader (v : bool) (a : Aggr) : Aggr :=
  mkAggr (nodeInfo4Agent a) (nodeInfo4Sched a) (NodeStatusCh a) (ReservedPodCh a) (aqueue a)
    (updatedNode a) (mtls a) (direct a) v.

(** queue.Add: a work queue holds a string at most once; requests are
    pointers, each of its own. *)
Definition is_status (s : string) (it : work_item) : bool :=
  match it with StatusItem s' => String.eqb s s' | PodsItem _ => false end.
Definition queue_Add (it : work_item) (a : Aggr) : Aggr :=
  match it with
  | StatusItem s => if existsb (is_status s) (aqueue a) then a else set_aqueue (aqueue a ++ [it]) a
  | PodsItem _ => set_aqueue (aqueue a ++ [it]) a
  end.

Definition BlockIO_key : string := "BlockIO".
Definition NetworkIO_key : string := "NetworkIO".
Definition RDT_key : string := "RDT".

(** ** Connections to the agents *)

Definition dot : ascii := "."%char.

(** net.ParseIP on a string without colons: an IPv4 address in dotted decimal
    notation, without leading zeros. *)
Definition octet (s : string) : bool :=
  match digits s 0 with
  | Some v => negb (String.eqb s "") && (v <=? 255) &&
              (Nat.eqb (str_len s) 1 || negb (String.eqb (String.substring 0 1 s) "0"))
  | None => false
  end.
Definition ParseIPv4 (s : string) : bool :=
  match str_split dot s with
  | [a; b; c; d] => octet a && octet b && octet c && octet d
  | _ => false
  end.

Definition verifyEndpoint (ip port : string) : bool :=
  if negb (ParseIPv4 ip) then false
  else
    match ParseInt port 64 with
    | inr _ => false
    | inl num => negb ((num <? 0) || (65535 <? num))
    end.

Definition addr_colon : ascii := ":"%char.
(** The IP and the port. *)
Definition parseEndPoint (addr : string) : (string * string) + error :=
  match str_split addr_colon addr with
  | [ip; port] =>
      if negb (verifyEndpoint ip port)
      then inr ("endpoint in wrong format: " +:+ ip +:+ ":" +:+ port)
      else inl (ip, port)
  | _ => inr ("endpoint format error: " +:+ addr)
  end.

(** strings.Replace(ipaddr, ".", "-", -1) *)
Fixpoint dots_to_dashes (s : string) : string :=
  match s with
  | EmptyString => EmptyString
  | String c r => String (if Ascii.eqb c dot then dash else c) (dots_to_dashes r)
  end.
Definition ip2FQDN (ipaddr : string) : string :=
  dots_to_dashes ipaddr +:+ "." +:+ IoiNamespace +:+ ".pod.cluster.local".

(** grpc.Dial: the error, if any. *)
Class Grpc := { Dial : string → option error }.

(** encoding/json on an allocation, and the order of [range] over it. *)
Class AllocLib := {
  unmarshal_alloc : string → AllocatedIO * bool;
  range_alloc : ∀ {V : Type}, gmap Z V → list (Z * V);
  range_alloc_perm : ∀ {V : Type} (m : gmap Z V), range_alloc m ≡ₚ map_to_list m
}.

Section Aggregator.
Context `{Q : QuantityLib} `{!GoRange} `{!Grpc}.

(** InitClient: the cache entry with the client, or the error. *)
Definition InitClient (info : NodeInfo4Agent) (nodeInfo : NodeStaticIOInfo) (tls : bool)
    : NodeInfo4Agent + error :=
  match parseEndPoint (EndPoint nodeInfo) with
  | inr err => inr ("parse endpoint error: " +:+ err)
  | inl (ip, port) =>
      let target := (if tls then ip2FQDN ip else ip) +:+ ":" +:+ port in
      match Dial target with
      | Some err => inr ("grpc dial error: " +:+ err)
      | None => inl (mkInfo4Agent (reservedPod info) (latestGeneration info) (Some target))
      end
  end.

Definition no_pods : NodeInfo4Agent := mkInfo4Agent (Some ∅) 0 None.

(** ** Informer callbacks: NodeStaticIOInfo *)

Definition NodeStaticIOInfoCrAdd (nodeInfo : NodeStaticIOInfo) (a : Aggr) : Aggr :=
  let node := nsi_NodeName nodeInfo in
  let info := default no_pods (nodeInfo4Agent a !! node) in
  let info' :=
    if String.eqb (EndPoint nodeInfo) "" then info
    else match InitClient info nodeInfo (mtls a) with inl i => i | inr _ => info end in
  set_agents (<[node := info']> (nodeInfo4Agent a)) a.

Definition NodeStaticIOInfoCrUpdate (old nodeInfo : NodeStaticIOInfo) (a : Aggr) : Aggr :=
  let node := nsi_NodeName nodeInfo in
  let info := default no_pods (nodeInfo4Agent a !! node) in
  let info' :=
    if match client info with None => true | Some _ => false end ||
       negb (String.eqb (EndPoint old) (EndPoint nodeInfo))
    then match InitClient info nodeInfo (mtls a) with inl i => i | inr _ => info end
    else info in
  set_agents (<[node := info']> (nodeInfo4Agent a)) a.

Definition NodeStaticIOInfoCrDelete (nodeInfo : NodeStaticIOInfo) (a : Aggr) : Aggr :=
  set_agents (delete (nsi_NodeName nodeInfo) (nodeInfo4Agent a)) a.

(** ** Informer callbacks: NodeIOStatus *)

Definition with_generation (g : Z) (st : NodeIOStatusStatus) : NodeIOStatusStatus :=
  mkStatus g (AllocatableBandwidth st).
Definition with_bandwidth m (st : NodeIOStatusStatus) : NodeIOStatusStatus :=
  mkStatus (ObservedGeneration st) m.

Definition AddNodeIOStatusCR (obj : NodeIOStatus) (a : Aggr) : Aggr :=
  let sp := nis_Spec obj in
  let node := spec_NodeName sp in
  let a := match nodeInfo4Agent a !! node with
           | Some _ => a
           | None => set_agents (<[node := mkInfo4Agent (Some ∅) (spec_Generation sp) None]>
                                   (nodeInfo4Agent a)) a
           end in
  let a := if (0 <? size (AllocatableBandwidth (nis_Status obj)))%nat
           then set_scheds (<[node := with_generation (spec_Generation sp) (nis_Status obj)]>
                              (nodeInfo4Sched a)) a
           else a in
  set_podCh (ReservedPodCh a ++ [sp]) a.

(** [nodeInfo4Sched[node].f = ...]: the entry is a pointer, nil if absent. *)
Definition on_sched (node : string) (f : NodeIOStatusStatus → NodeIOStatusStatus) (a : Aggr)
    : outcome Aggr :=
  let! st := deref (nodeInfo4Sched a !! node) in
  Ok (set_scheds (<[node := f st]> (nodeInfo4Sched a)) a).

Definition addResourcetoCache (node : string) (old new : gmap string DeviceIOStatus) (a : Aggr)
    : outcome Aggr :=
  on_sched node (λ st,
    with_bandwidth (foldl (λ m kv,
      match old !! kv.1 with Some _ => m | None => <[kv.1 := kv.2]> m end)
      (AllocatableBandwidth st) (range new)) st) a.

Definition addDeviceToCache (node iotype : string) (addDev : DeviceIOStatus) (a : Aggr)
    : outcome Aggr :=
  on_sched node (λ st,
    let m := AllocatableBandwidth st in
    let devs := default ∅ (m !! iotype) in
    with_bandwidth (<[iotype := foldl (λ d kv, <[kv.1 := kv.2]> d) devs (range addDev)]> m) st) a.

Definition delDeviceToCache (node iotype : string) (delDev : DeviceIOStatus) (a : Aggr)
    : outcome Aggr :=
  on_sched node (λ st,
    let m := AllocatableBandwidth st in
    match m !! iotype with
    | None => st
    | Some devs =>
        with_bandwidth (<[iotype := foldl (λ d kv, delete kv.1 d) devs (range delDev)]> m) st
    end) a.

(** The entries of [m] whose key is not in [other]. *)
Definition new_keys (other m : DeviceIOStatus) : DeviceIOStatus :=
  foldl (λ r kv, match other !! kv.1 with Some _ => r | None => <[kv.1 := kv.2]> r end)
    ∅ (range m).

(** One resource type of "update device info". *)
Definition update_devices (node iotype : string) (oinfo ninfo : DeviceIOStatus) (a : Aggr)
    : outcome Aggr :=
  let addDev := new_keys oinfo ninfo in
  let delDev := new_keys ninfo oinfo in
  let! a := (if (0 <? size addDev)%nat then addDeviceToCache node iotype addDev a else Ok a) in
  if (0 <? size delDev)%nat then delDeviceToCache node iotype delDev a else Ok a.

Definition UpdateNodeIOStatusCR (old new : NodeIOStatus) (a : Aggr) : outcome Aggr :=
  let a := if bool_decide (nis_Spec old = nis_Spec new) then a
           else set_podCh (ReservedPodCh a ++ [nis_Spec new]) a in
  let node := spec_NodeName (nis_Spec new) in
  let oldBw := AllocatableBandwidth (nis_Status old) in
  let newBw := AllocatableBandwidth (nis_Status new) in
  let a := match nodeInfo4Sched a !! node with
           | Some _ => a
           | None =>
               if (size oldBw =? 0)%nat && (0 <? size newBw)%nat
               then set_scheds (<[node := with_generation (spec_Generation (nis_Spec new))
                                            (nis_Status new)]> (nodeInfo4Sched a)) a
               else a
           end in
  let! a :=
    (if (0 <? size oldBw)%nat && (size oldBw <? size newBw)%nat then
       match nodeInfo4Sched a !! node with
       | None => Ok a
       | Some _ => addResourcetoCache node oldBw newBw a
       end
     else Ok a) in
  if (size oldBw =? size newBw)%nat then
    foldM (λ a kv,
      if negb (String.eqb kv.1 BlockIO_key) then Ok a
      else
        match oldBw !! kv.1 with
        | None => Ok a
        | Some oinfo =>
            if (size kv.2 =? size oinfo)%nat then Ok a
            else update_devices node kv.1 oinfo kv.2 a
        end) a (range newBw)
  else Ok a.
End Aggregator.

Section Server.
Context `{Q : QuantityLib} `{!GoRange} `{!AllocLib} {K : Type} `{!KubeClient K}.

(** ** Pod lists for the agents *)

(** aggregator.IOType(n).  A number outside the enumeration is a type that no
    consumer handles, as All is. *)
Definition IOType_of (n : Z) : IOType :=
  if n =? 1 then IOType_DiskIO else if n =? 2 then IOType_NetworkIO
  else if n =? 3 then IOType_RDT else if n =? 4 then IOType_RDTQuantity else IOType_All.

Definition device_requirement (n : string) (dev : DeviceAllocatedIO) : DeviceRequirement :=
  mkDevReq n (Some (bps_only (Some (al_Request dev)))) (Some (bps_only (Some (al_Limit dev))))
    (Some (al_RawRequest dev)) (Some (al_RawLimit dev)).

(** The requests; the caller sets the pod's name and namespace. *)
Definition formatPodRequest (ori : AllocatedIO) : list IOResourceRequest :=
  foldl (λ l td,
    foldl (λ l nd,
      l ++ [mkIOReq (IOType_of td.1) (QoS nd.2) (Some (device_requirement nd.1 nd.2))])
      l (range td.2)) [] (range_alloc ori).

(** The details of a pod: [None] leaves the pod out of the list. *)
Definition pod_details (k : K) (v : SpecPodRequest) : option (option PodRequest) :=
  match pod_get k (sp_Namespace v) (sp_Name v) with
  | inr _ => None
  | inl p =>
      match pod_Annotations p !! AllocatedIOAnno with
      | None => Some None
      | Some anno =>
          match unmarshal_alloc anno with
          | (_, false) => None
          | (allocatedIO, true) =>
              Some (Some (mkPodRequest (pod_Name p) (pod_Namespace p)
                            (formatPodRequest allocatedIO)))
          end
      end
  end.
Definition GetPodList (k : K) (gen : Z) (pods added : gmap string SpecPodRequest) : WirePodList :=
  mkWireList gen
    (foldl (λ pl kv,
       match added !! kv.1 with
       | Some v => match pod_details k v with Some d => <[kv.1 := d]> pl | None => pl end
       | None => <[kv.1 := None]> pl
       end) ∅ (range pods)).

(** A spec as it comes from the API server: an empty list of pods is omitted
    from the object and read back as nil. *)
Definition spec_pods (sp : NodeIOStatusSpec) : option (gmap string SpecPodRequest) :=
  if (size (ReservedPods sp) =? 0)%nat then None else Some (ReservedPods sp).

(** One round of SendReservedPodtoQueue; [None] while the channel is empty. *)
Definition SendReservedPodtoQueue (k : K) (a : Aggr) : option Aggr :=
  match ReservedPodCh a with
  | [] => None
  | sp :: ch =>
      let a := set_podCh ch a in
      let node := spec_NodeName sp in
      match nodeInfo4Agent a !! node with
      | None => Some a
      | Some info =>
          let prevPodList := default ∅ (reservedPod info) in
          let currPodList := ReservedPods sp in
          let added := foldl (λ m kv, match prevPodList !! kv.1 with
                                      | Some _ => m
                                      | None => <[kv.1 := kv.2]> m
                                      end) ∅ (range currPodList) in
          let a := set_agents (<[node := mkInfo4Agent (spec_pods sp) (spec_Generation sp)
                                           (client info)]> (nodeInfo4Agent a)) a in
          if isLeader a then
            Some (queue_Add (PodsItem (mkPodsReq node
                    (GetPodList k (spec_Generation sp) currPodList added))) a)
          else Some a
      end
  end.

(** ** Reports of the agents *)

(** The key of the status under which a report is filed. *)
Definition report_key (t : IOType) : option string :=
  match t with
  | IOType_DiskIO => Some BlockIO_key
  | IOType_NetworkIO => Some NetworkIO_key
  | IOType_RDT => Some RDT_key
  | IOType_RDTQuantity | IOType_All => None
  end.
Definition report_pools (pools reported : gmap string IOStatus) : gmap string IOStatus :=
  foldl (λ p kv,
    match p !! kv.1 with
    | None => p
    | Some _ => <[kv.1 := mkIOStatus (st_Total kv.2) (st_In kv.2) (st_Out kv.2)
                            (Pressure kv.2) ""]> p
    end) pools (range reported).
Definition report_devices (devices : DeviceIOStatus) (bw : gmap string DeviceBandwidthInfo)
    : DeviceIOStatus :=
  foldl (λ d kv,
    match d !! kv.1 with
    | None => d
    | Some pools => <[kv.1 := report_pools pools (db_Status kv.2)]> d
    end) devices (range bw).
Definition apply_report (status : NodeIOStatusStatus) (req : UpdateNodeIOStatusRequest)
    : NodeIOStatusStatus :=
  mkStatus (rep_ObservedGeneration req)
    (foldl (λ m bw,
       match report_key (bw_IoType bw) with
       | None => m
       | Some iotype =>
           match m !! iotype with
           | None => m
           | Some devices => <[iotype := report_devices devices (DeviceBwInfo bw)]> m
           end
       end) (AllocatableBandwidth status) (IoBw req)).
Definition updateNodeIOStatusCache (req : UpdateNodeIOStatusRequest) (a : Aggr) : outcome Aggr :=
  on_sched (rep_NodeName req) (λ st, apply_report st req) a.

Definition semicolon : ascii := ";"%char.

(** The two rounds of SendNodeStatustoQueue: a report, and the ticker. *)
Definition status_received (a : Aggr) : outcome (option Aggr) :=
  match NodeStatusCh a with
  | [] => Ok None
  | req :: ch =>
      let! a := updateNodeIOStatusCache req (set_statusCh ch a) in
      Ok (Some (set_updatedNode (updatedNode a ++ [rep_NodeName req]) a))
  end.
Definition status_tick (a : Aggr) : Aggr :=
  match updatedNode a with
  | [] => a
  | l => set_updatedNode [] (queue_Add (StatusItem (str_join ";" l)) a)
  end.

(** UpdateNodeIOStatus, called by an agent; [room] tells whether the channel
    took the report within a second. *)
Definition UpdateNodeIOStatus (k : K) (room : bool) (req : UpdateNodeIOStatusRequest) (a : Aggr)
    : outcome (Aggr * option error) :=
  let node := rep_NodeName req in
  if negb (isLeader a) then Ok (a, Some "aggregator is not leader")
  else
    match nodeInfo4Agent a !! node with
    | None => Ok (a, Some ("node " +:+ node +:+
                           " not registed in aggregator cache for node agent"))
    | Some info =>
        match nodeInfo4Sched a !! node with
        | None => Ok (a, Some ("node " +:+ node +:+
                               " not registed in aggregator cache for scheduler"))
        | Some _ =>
            if rep_ObservedGeneration req <? latestGeneration info then
              let a := match client info, reservedPod info with
                       | Some _, Some pods =>
                           queue_Add (PodsItem (mkPodsReq node
                             (GetPodList k (latestGeneration info) pods pods))) a
                       | _, _ => a
                       end in
              Ok (a, Some "generation inconsistent")
            else if negb (direct a) then
              if room then Ok (set_statusCh (NodeStatusCh a ++ [req]) a, None)
              else Ok (a, Some "io status update has not been sent to scheduler")
            else
              let! a := updateNodeIOStatusCache req a in
              Ok (queue_Add (StatusItem node) a, None)
        end
    end.

Definition GetReservedPods_rpc (k : K) (node : string) (a : Aggr) : WirePodList + error :=
  if negb (isLeader a) then inr "aggregator is not leader"
  else
    match nodeInfo4Agent a !! node with
    | None => inr ("node " +:+ node +:+ " not registed in aggregator")
    | Some info =>
        let existingPods := default ∅ (reservedPod info) in
        inl (GetPodList k (latestGeneration info) existingPods existingPods)
    end.

(** ** The work queue *)

(** Write the cached status of each node of the item; errors are logged. *)
Definition updateNodeIOStatus (nodesRaw : string) (k : K) (a : Aggr) : outcome K :=
  foldM (λ k node,
    match nis_get k (node +:+ NodeStatusInfoSuffix) with
    | inr _ => Ok k
    | inl _ =>
        let! st := deref (nodeInfo4Sched a !! node) in
        Ok (nis_update_status k (node +:+ NodeStatusInfoSuffix) st).1
    end) k (str_split semicolon nodesRaw).

(** What updatePodList does with a request: refuse it, drop it, or call the
    agent. *)
Inductive delivery := Refused (err : error) | Skipped | Call (req : UpdateReservedPodsRequest).
Definition updatePodList (pl : UpdateReservedPodsRequest) (a : Aggr) : delivery :=
  match nodeInfo4Agent a !! pq_NodeName pl with
  | None => Refused ("node " +:+ pq_NodeName pl +:+ " not registed in aggregator cache")
  | Some info =>
      if wl_Generation (pq_ReservedPods pl) <? latestGeneration info then Skipped
      else match client info with Some _ => Call pl | None => Skipped end
  end.

(** One round of StartWorkQueue.  [send] is the agents' answer to a call: an
    error puts the item back after a delay ([delayed] holds it till then). *)
Definition work_step (send : UpdateReservedPodsRequest → option error) (k : K) (a : Aggr)
    (delayed : list work_item)
    : outcome (option (K * Aggr * list work_item * option UpdateReservedPodsRequest)) :=
  match aqueue a with
  | [] => Ok None
  | it :: q =>
      let a := set_aqueue q a in
      match it with
      | StatusItem nodes =>
          let! k := updateNodeIOStatus nodes k a in Ok (Some (k, a, delayed, None))
      | PodsItem pl =>
          match updatePodList pl a with
          | Refused _ => Ok (Some (k, a, delayed ++ [it], None))
          | Skipped => Ok (Some (k, a, delayed, None))
          | Call pl =>
              match send pl with
              | Some _ => Ok (Some (k, a, delayed ++ [it], Some pl))
              | None => Ok (Some (k, a, delayed, Some pl))
              end
          end
      end
  end.
End Server.
