(* ===== verification/Agent.v ===== *)
(** * pkg/agent: events, engines and the connection to the aggregator

    types.go, event.go, dataengine.go, aggregator.go and the event loop of
    agent.go. *)

From S2P Require Export Aggregator.

(** ** types.go *)

(** utils.Workload *)
Record Workload := mkWorkload {
  InBps : f64; OutBps : f64; InIops : f64; OutIops : f64; TotalBps : f64
}.
Definition workload_zero : Workload := mkWorkload fzero fzero fzero fzero fzero.

Record PodRunInfo := mkRunInfo {
  ri_Actual : option Workload; ri_Request : option Workload; ri_Limit : option Workload;
  ri_RawRequest : option Workload; ri_RawLimit : option Workload;
  ri_PodName : string; ri_WorkloadType : Z; Operation : Z; ri_Namespace : string;
  (** api.LinuxNamespace: type and path *)
  NetNamespace : list (string * string);
  DiskAnnotation : string; NetAnnotation : string; CGroupPath : string;
  RawActualBs : option (gmap string (option Workload))
}.
Abbreviation PodEventInfo := (gmap string PodRunInfo).
Record PodData := mkPodData {
  pdata_T : Z; pdata_Generation : Z; PodEvents : gmap string PodEventInfo
}.

Record ContainerInfo := mkContainer {
  ct_Operation : Z; ct_PodUid : string; ct_PodName : string; ContainerName : string;
  ContainerId : string; ct_Namespace : string; RDTAnnotation : string;
  RDTQuantityAnnotation : string; ContainerCGroupPath : string
}.
Record ContainerData := mkContainerData {
  cdata_T : Z; cdata_Generation : Z; ContainerInfos : gmap string ContainerInfo
}.
Record ClassData := mkClassData {
  classdata_T : Z;
  (** class name: score *)
  ClassInfos : gmap string f64
}.
Record ReportInterval := mkInterval { NetInterval : Z; DiskInterval : Z; RdtInterval : Z }.
Record IOILogLevel := mkLogLevel {
  NodeAgentInfo : bool; NodeAgentDebug : bool; SchedulerInfo : bool; SchedulerDebug : bool;
  AggregatorInfo : bool; AggregatorDebug : bool; ServiceInfo : bool; ServiceDebug : bool
}.
Record AdminResourceConfig := mkAdmin {
  InitFlag : bool;
  DiskBePool : Z; DiskSysPool : Z; NetBePool : Z; NetSysPool : Z;
  NamespaceWhitelist : gset string;
  SysDiskRatio : Z; ProfileTime : Z;
  Disk_min_pod_in_bw : Z; Disk_min_pod_out_bw : Z;
  Net_min_pod_in_bw : Z; Net_min_pod_out_bw : Z;
  Loglevel : IOILogLevel; Interval : ReportInterval
}.
Record Policy := mkPolicy {
  Throttle : string; Select_method : string; Compress_method : string;
  Decompress_method : string; Report_Flag : string
}.

(** utils.BlockDevice *)
Inductive BlockDevice := mkBlockDevice {
  blk_Name : string; blk_Type : string; PName : string; MajMin : string; AvailSize : Z;
  blk_Mount : string; blk_Model : string; blk_Serial : string; Rota : bool;
  Children : list BlockDevice
}.

Section AgentTypes.
Context `{Q : QuantityLib}.

(** utils.DiskInfo *)
Record ADiskInfo := mkADisk {
  ad_Name : string; MajorMinor : string; ad_Type : string; MountPoint : string;
  ad_Capacity : string; TotalBPS : f64; TotalRBPS : f64; TotalWBPS : f64;
  ad_ReadRatio : gmap string f64; ad_WriteRatio : gmap string f64;
  ReadMpRatio : list MappingRatio; WriteMpRatio : list MappingRatio
}.
(** utils.NicInfo *)
Record ANicInfo := mkANic {
  an_Name : string; Macaddr : string; IpAddr : string; an_Type : string;
  an_TotalBPS : f64; SndGroupBPS : f64; RcvGroupBPS : f64; QueueNum : Z; an_GroupSettable : bool
}.
Record AllProfile := mkProfile {
  DProfile : gmap string ADiskInfo; NProfile : gmap string ANicInfo;
  DInfo : gmap string BlockDevice; prof_T : Z
}.

(** The implementations of the interface EventData. *)
Inductive EventData :=
| EvPod (p : PodData)
| EvContainer (p : ContainerData)
| EvHeartBeat (LastUpdateTime : Z)
| EvClass (p : ClassData)
| EvAdmin (p : AdminResourceConfig)
| EvPolicy (p : gmap string Policy)
| EvProfile (p : AllProfile).

Definition ProfileFlag : Z := 1.
Definition PolicyFlag : Z := 2.
Definition AdminFlag : Z := 4.

Definition pod_type (T : Z) : string :=
  if T =? 0 then "NRI" else if T =? 1 then "Disk" else if T =? 2 then "Disk_CR"
  else if T =? 3 then "Network" else if T =? 4 then "Network_CR" else if T =? 5 then "RDT_CR"
  else if T =? 6 then "RDT_Quantity_CR" else "None".
Definition event_Type (d : EventData) : string :=
  match d with
  | EvPod p => pod_type (pdata_T p)
  | EvContainer p => pod_type (cdata_T p)
  | EvHeartBeat _ => "HEARTBEAT"
  | EvClass p => if classdata_T p =? 0 then "RDT" else if classdata_T p =? 1 then "RDTQuantity"
                 else "None"
  | EvAdmin _ => "Admin"
  | EvPolicy _ => "Policy"
  | EvProfile p => if prof_T p =? 0 then "PROF_DISK" else if prof_T p =? 1 then "PROF_NET"
                   else "None"
  end.
Definition all_flags : Z := Z.lor ProfileFlag (Z.lor PolicyFlag AdminFlag).
Definition Expect (d : EventData) : Z :=
  match d with
  | EvPod _ | EvHeartBeat _ => all_flags
  | EvContainer _ | EvClass _ | EvProfile _ => AdminFlag
  | EvAdmin _ | EvPolicy _ => 0
  end.
End AgentTypes.

(** ** aggregator.go *)

Section FromAggregator.
Context `{Q : QuantityLib} `{!GoRange}.

Definition workload_of (q : option Quantity) : outcome Workload :=
  let! q := deref q in Ok (mkWorkload (Inbps q) (Outbps q) (Iniops q) (Outiops q) fzero).

(** [pReq.InBps == pLmt.InBps && ...] *)
Definition same_bounds (req lim : Workload) : bool :=
  feq (InBps req) (InBps lim) && feq (OutBps req) (OutBps lim) &&
  feq (InIops req) (InIops lim) && feq (OutIops req) (OutIops lim).

Definition run_info (podName : string) (wlType : Z) (req lim rawreq rawlim : Workload)
    : PodRunInfo :=
  let t := if negb (wlType =? BeIndex)
           then if same_bounds req lim then GaIndex else BtIndex
           else BeIndex in
  mkRunInfo None (Some req) (Some lim) (Some rawreq) (Some rawlim) podName t 0 "" [] "" "" "" None.
Definition set_ri_type (t : Z) (i : PodRunInfo) : PodRunInfo :=
  mkRunInfo (ri_Actual i) (ri_Request i) (ri_Limit i) (ri_RawRequest i) (ri_RawLimit i)
    (ri_PodName i) t (Operation i) (ri_Namespace i) (NetNamespace i) (DiskAnnotation i)
    (NetAnnotation i) (CGroupPath i) (RawActualBs i).

Definition add_event (dev uid : string) (i : PodRunInfo) (m : gmap string PodEventInfo)
    : gmap string PodEventInfo := <[dev := <[uid := i]> (default ∅ (m !! dev))]> m.

(** The pod events of the three updates: disk, network, RDT quantity. *)
Record updates := mkUpdates {
  up_disk : gmap string PodEventInfo; up_net : gmap string PodEventInfo;
  up_rdtq : gmap string PodEventInfo
}.

(** One request of a pod. *)
Definition add_pod_event (uid podName : string) (u : updates) (request : IOResourceRequest)
    : outcome updates :=
  let! d := deref (DevRequest request) in
  let! req := workload_of (dr_Request d) in
  let! lim := workload_of (dr_Limit d) in
  let! rawreq := workload_of (dr_RawRequest d) in
  let! rawlim := workload_of (dr_RawLimit d) in
  let i := run_info podName (WorkloadType request) req lim rawreq rawlim in
  let dev := DevName d in
  Ok (match IoType request with
      | IOType_DiskIO => mkUpdates (add_event dev uid i (up_disk u)) (up_net u) (up_rdtq u)
      | IOType_NetworkIO => mkUpdates (up_disk u) (add_event dev uid i (up_net u)) (up_rdtq u)
      | IOType_RDTQuantity =>
          mkUpdates (up_disk u) (up_net u) (add_event dev uid (set_ri_type GaIndex i) (up_rdtq u))
      | IOType_All | IOType_RDT => u
      end).

(** The details of a pod of the list: sent with it, or kept in CrPodRequest. *)
Definition pod_request (cr : gmap string PodRequest) (uid : string) (p : option PodRequest)
    : gmap string PodRequest * option PodRequest :=
  match p with
  | Some p => if (0 <? length (pr_Request p))%nat then (<[uid := p]> cr, Some p)
              else (cr, cr !! uid)
  | None => (cr, cr !! uid)
  end.

(** The new CrPodRequest, and the four updates (the third is always empty). *)
Definition ProcessPodsFromAggregator (cr : gmap string PodRequest) (resPods : WirePodList)
    : outcome (gmap string PodRequest * list PodData) :=
  let g := wl_Generation resPods in
  let! '(cr, u) := foldM (λ acc kv,
    let '(cr, u) := acc in
    let '(cr, podRequest) := pod_request cr kv.1 kv.2 in
    match podRequest with
    | None => Ok (cr, u)
    | Some p =>
        let! u := foldM (add_pod_event kv.1 (PodName p)) u (pr_Request p) in Ok (cr, u)
    end) (cr, mkUpdates ∅ ∅ ∅) (range (wl_PodList resPods)) in
  Ok (cr, [mkPodData 2 g (up_disk u); mkPodData 4 g (up_net u); mkPodData 5 g ∅;
           mkPodData 6 g (up_rdtq u)]).

(** The part of the agent that talks to the aggregator: what is known of the
    pods, and the channel to the event loop. *)
Record AgentState := mkAgentState {
  CrPodRequest : gmap string PodRequest; PodInfoChan : list PodData
}.

Definition receive_pods (resPods : WirePodList) (s : AgentState) : outcome AgentState :=
  let! '(cr, l) := ProcessPodsFromAggregator (CrPodRequest s) resPods in
  Ok (mkAgentState cr (PodInfoChan s ++ l)).

(** AgentServer.UpdateReservedPods, of the server named [name]. *)
Definition UpdateReservedPods_rpc (name : string) (req : UpdateReservedPodsRequest)
    (s : AgentState) : outcome (AgentState * option error) :=
  if negb (String.eqb (pq_NodeName req) name) then
    Ok (s, Some ("the node name: " +:+ pq_NodeName req +:+
                 " in request is not consistent with the one in AgentServer"))
  else let! s := receive_pods (pq_ReservedPods req) s in Ok (s, None).

(** UpdateNodeIOStatus: three attempts at a call; [rpc] answers each. *)
Fixpoint attempts {C} (rpc : C → UpdateNodeIOStatusRequest → C * option error) (n : nat)
    (req : UpdateNodeIOStatusRequest) (c : C) (err : option error) : C * option error :=
  match n with
  | O => (c, err)
  | S n => match rpc c req with
           | (c, None) => (c, None)
           | (c, Some e) => attempts rpc n req c (Some e)
           end
  end.
Definition agent_UpdateNodeIOStatus {C} (rpc : C → UpdateNodeIOStatusRequest → C * option error)
    (nodeName : string) (io : IOBandwidth) (gen : Z) (c : option C) : option C * option error :=
  match c with
  | None => (None, Some "client is nil, UpdateNodeIOStatus failed")
  | Some c =>
      let '(c, err) := attempts rpc 3 (mkReport nodeName gen [io]) c None in (Some c, err)
  end.
End FromAggregator.

(** ** dataengine.go and the event loop *)

Section Engine.
Context `{Q : QuantityLib} {S H : Type}.

(** [executed] is not in the code: it records, for the statements, every call
    of an event function, latest last. *)
Record IOEngine := mkEngine {
  Flag : Z; ExecutionFlag : Z; cacheDatas : list (EventData * H);
  executed : list (EventData * H)
}.
Definition set_Flag v (e : IOEngine) : IOEngine :=
  mkEngine v (ExecutionFlag e) (cacheDatas e) (executed e).
Definition set_cacheDatas v (e : IOEngine) : IOEngine :=
  mkEngine (Flag e) (ExecutionFlag e) v (executed e).
Definition log_call x (e : IOEngine) : IOEngine :=
  mkEngine (Flag e) (ExecutionFlag e) (cacheDatas e) (executed e ++ [x]).

(** [data.Expect()] is among the flags. *)
Definition expects (flag : Z) (d : EventData) : bool := Z.land flag (Expect d) =? Expect d.
Definition IsExpectStatus (e : IOEngine) (d : EventData) : bool := expects (Flag e) d.
Definition IsExecution (e : IOEngine) : bool := Flag e =? ExecutionFlag e.
Definition IsAdmin (e : IOEngine) : bool := Z.land (Flag e) AdminFlag =? AdminFlag.

(** An engine embeds an IOEngine; its event functions, named by [H], call
    SetFlag of that engine. *)
Context (eng : S → IOEngine) (set_eng : IOEngine → S → S)
  (run : (Z → GoM S ()) → H → EventData → GoM S (option error)).

Definition call (SetFlag : Z → GoM S ()) (x : EventData * H) : GoM S (option error) := λ s,
  run SetFlag x.2 x.1 (set_eng (log_call x (eng s)) s).

(** The loop of SetFlag over the slice it started with. *)
Fixpoint run_cached (SetFlag : Z → GoM S ()) (l newCache : list (EventData * H))
    : GoM S (list (EventData * H)) := λ s,
  match l with
  | [] => Ok (newCache, s)
  | x :: l' =>
      if IsExpectStatus (eng s) x.1 then
        let! '(_, s) := call SetFlag x s in run_cached SetFlag l' newCache s
      else run_cached SetFlag l' (newCache ++ [x]) s
  end.

(** The event functions that SetFlag calls may call SetFlag again, each time
    with a flag that is not set yet: [fuel] bounds the depth. *)
Fixpoint SetFlag (fuel : nat) (flag : Z) : GoM S () := λ s,
  if Z.land (Flag (eng s)) flag =? flag then Ok ((), s)
  else
    match fuel with
    | O => Crash StackOverflow
    | Datatypes.S fuel =>
        let s := set_eng (set_Flag (Z.lor (Flag (eng s)) flag) (eng s)) s in
        let! '(newCache, s) := run_cached (SetFlag fuel) (cacheDatas (eng s)) [] s in
        Ok ((), set_eng (set_cacheDatas newCache (eng s)) s)
    end.
Definition flag_depth : nat := 3.

Definition HandleEvent (data : EventData) (ef : H) : GoM S (option error) := λ s,
  if IsExpectStatus (eng s) data then call (SetFlag flag_depth) (data, ef) s
  else Ok (None, set_eng (set_cacheDatas (cacheDatas (eng s) ++ [(data, ef)]) (eng s)) s).

(** What the engine registered with RegisterEventHandler on a channel. *)
Record EventHandle := mkHandle { needCacheBeforeExecution : bool; eh_key : string; eh_f : H }.

(** One event of the loop of Agent.Run; errors are logged. *)
Definition dispatch (handles : list EventHandle) (data : EventData) : S → outcome S := λ s,
  foldM (λ s h,
    if String.eqb (eh_key h) (event_Type data) then
      let! '(_, s) := (if needCacheBeforeExecution h then HandleEvent data (eh_f h) s
                       else call (SetFlag flag_depth) (data, eh_f h) s) in Ok s
    else Ok s) s handles.
End Engine.
Arguments IOEngine {Q} H.
Arguments EventHandle H : clear implicits.
