(* ===== verification/AgentLimit.v ===== *)
(** * pkg/agent/common: the limits that an engine sends to the service

    workload.go, and IOISetLimitDisk, IOISetLimitNet and the registration
    messages of disk.go and network.go. *)

From stdpp Require Export pretty.
From S2P Require Export Agent.

(** ** Messages to the I/O service (pkg/api/ioiservice) *)

Record BWLimit := mkBWLimit {
  lmt_Id : string; lmt_In : string; lmt_Out : string; lmt_InIops : Z; lmt_OutIops : Z
}.
Inductive service_msg :=
| SetAppLimit (AppId : string) (Limit : list BWLimit) (IoiType : Z)
| RegisterApp (AppName AppInfo : string) (IoiType : Z)
| UnRegisterApp (AppId : string) (IoiType : Z)
| Configure (Type_ Configure_ : string) (IoiType : Z).

Definition DiskIOIType : Z := 1.
Definition NetIOIType : Z := 2.
Definition RDTIOIType : Z := 3.
Definition RDTQuantityIOIType : Z := 4.

(** ** Groups *)

Record WorkloadGroup := mkGroup {
  LimitPods : gmap string (option Workload);
  ActualPods : gmap string (option Workload);
  RequestPods : gmap string (option Workload);
  PodsLimitSet : gmap string (option Workload);
  wg_RawRequest : gmap string (option Workload);
  wg_RawLimit : gmap string (option Workload);
  wg_PodName : gmap string string;
  GroupLimit : option Workload;
  wg_IoType : Z;
  GroupSettable : bool;
  wg_WorkloadType : Z
}.
Definition set_limits_set (m : gmap string (option Workload)) (gl : option Workload)
    (w : WorkloadGroup) : WorkloadGroup :=
  mkGroup (LimitPods w) (ActualPods w) (RequestPods w) m (wg_RawRequest w) (wg_RawLimit w)
    (wg_PodName w) gl (wg_IoType w) (GroupSettable w) (wg_WorkloadType w).

Definition LimitKeepValue : f64 := of_Z (-2).
Definition LimitMax : f64 := of_Z (-1).
Definition IOMAX : Z := 10000.
Definition NICMAX : Z := 1000.

Record PodParam := mkParam { inLimit : f64; outLimit : f64; pp_request : f64 }.
Definition set_outLimit (x : f64) (p : PodParam) : PodParam :=
  mkParam (inLimit p) x (pp_request p).
(** [flag] is 1 in every caller. *)
Record RunPods := mkRunPods {
  rp_expect : f64; rp_request : f64; podParam : gmap string PodParam; rp_flag : Z
}.
Definition set_podParam m (r : RunPods) : RunPods :=
  mkRunPods (rp_expect r) (rp_request r) m (rp_flag r).

Record DevInfo := mkDevInfo { dvi_Id : string; dvi_Name : string; DevType : string; DevMajorMinor : string }.

Section Limits.
Context `{!GoRange}.

Definition wl_add (a b : Workload) : Workload :=
  mkWorkload (fadd (InBps a) (InBps b)) (fadd (OutBps a) (OutBps b)) (InIops a) (OutIops a)
    (fadd (TotalBps a) (TotalBps b)).
(** The sum of the pods' bandwidths; a nil workload is dereferenced. *)
Definition CalculateGroupBw (podDWl : gmap string (option Workload)) : outcome Workload :=
  foldM (λ wl kv, let! val := deref kv.2 in Ok (wl_add wl val)) workload_zero (range podDWl).

Definition GetPodList (w : WorkloadGroup) : list string :=
  foldl (λ l kv, match kv.2 with Some _ => l ++ [kv.1] | None => l end) [] (range (RequestPods w)).

(** The six loops of DeleteOutdatePod keep the visited pods. *)
Definition keep_visited {V} (visited : gset string) (m : gmap string V) : gmap string V :=
  foldl (λ m kv, if decide (kv.1 ∈ visited) then m else delete kv.1 m) m (range m).
Definition DeleteOutdatePod (w : WorkloadGroup) (visited : gset string) : WorkloadGroup :=
  mkGroup (keep_visited visited (LimitPods w)) (keep_visited visited (ActualPods w))
    (keep_visited visited (RequestPods w)) (keep_visited visited (PodsLimitSet w))
    (keep_visited visited (wg_RawRequest w)) (keep_visited visited (wg_RawLimit w))
    (wg_PodName w) (GroupLimit w) (wg_IoType w) (GroupSettable w) (wg_WorkloadType w).

(** SelectPods; [bps] reads the read (InFlag) or write (OutFlag) bandwidth. *)
Definition SelectPods (pRunPods : RunPods) (bps : Workload → f64) (policy : option Policy)
    (limits requests : gmap string (option Workload)) (podList : list string) : outcome RunPods :=
  let! policy := deref policy in
  if String.eqb (Select_method policy) "All" then
    let! m := foldM (λ m po,
      let! req := deref (default None (requests !! po)) in
      let! current := match limits !! po with
                      | Some l => let! l := deref l in Ok (bps l)
                      | None => Ok fzero
                      end in
      Ok (<[po := mkParam current LimitKeepValue (bps req)]> m)) (podParam pRunPods) podList in
    Ok (set_podParam m pRunPods)
  else if String.eqb (Select_method policy) "NONE" then Ok (set_podParam ∅ pRunPods)
  else Ok pRunPods.

(** The limit of one pod under CALC_REQUEST_RATIO. *)
Definition ratio_limit (expect : f64) (podsNum : Z) (idx : Z) (p : PodParam) : PodParam :=
  if idx =? BtIndex then set_outLimit (fmin (fmul expect (pp_request p)) (inLimit p)) p
  else if idx =? BeIndex then set_outLimit (fdiv expect (of_Z podsNum)) p
  else if idx =? GaIndex then set_outLimit (pp_request p) p
  else p.
Definition CompressRequestRatio (pRunPods : RunPods) (podsNum idx : Z) : RunPods :=
  set_podParam (foldl (λ m kv, <[kv.1 := ratio_limit (rp_expect pRunPods) podsNum idx kv.2]> m)
                  (podParam pRunPods) (range (podParam pRunPods))) pRunPods.
Definition CompressPods (policy : option Policy) (pRunPods : RunPods) (podsNum idx : Z)
    : outcome RunPods :=
  let expect := rp_expect pRunPods in
  if feq expect LimitMax || feq expect LimitKeepValue then
    Ok (set_podParam (foldl (λ m kv, <[kv.1 := set_outLimit expect kv.2]> m)
                        (podParam pRunPods) (range (podParam pRunPods))) pRunPods)
  else if fle fzero expect then
    let! policy := deref policy in
    if String.eqb (Compress_method policy) "CALC_REQUEST_RATIO"
    then Ok (CompressRequestRatio pRunPods podsNum idx) else Ok pRunPods
  else Ok pRunPods.

(** ** Sending a limit *)

(** The admin's minimum bandwidths of a pod (package variables). *)
Record MinBw := mkMinBw { MinPodDiskInBw : f64; MinPodDiskOutBw : f64 }.

(** The limit in bytes and in operations per second of one direction:
    [raw], [tran] and [iops] are the pod's raw request, translated request
    and requested operations. *)
Definition calIopsByBW (reqBw tranBw reqIops bw : f64) : string * Z :=
  let tranBwRatio := fdiv tranBw reqBw in
  if feq reqBw fzero || feq tranBwRatio fzero then (EmptyString, 0)
  else
    let limit_bw := fdiv bw tranBwRatio in
    let reqBw := fmul reqBw MiB in
    (pretty (to_int64 limit_bw), to_int64 (fdiv (fmul reqIops limit_bw) reqBw)).

Definition io_max : Z := IOMAX * (1024 * 1024).

(** One direction of IOISetLimitDisk: the limit sent, and the bandwidth left
    in [bw]. *)
Definition disk_limit (min : f64) (wtype : Z) (bps iops : Workload → f64)
    (raw tran : outcome Workload) (b : f64) : outcome (string * Z * f64) :=
  if feq b LimitMax then Ok (pretty io_max, Z.quot io_max 4096, b)
  else if feq b LimitKeepValue then Ok (EmptyString, 0, b)
  else
    let b := if flt b min then min else b in
    if wtype =? BeIndex then
      let v := to_int64 (fmul b MiB) in Ok (pretty v, Z.quot v 32768, b)
    else
      let! raw := raw in
      let! tran := tran in
      let '(s, n) := calIopsByBW (bps raw) (bps tran) (iops raw) (fmul b MiB) in Ok (s, n, b).

Definition pod_dot : ascii := "."%char.
(** IOISetLimitDisk: the message, and [bw.Wl] afterwards. *)
Definition IOISetLimitDisk (mins : MinBw) (appId id : string) (wl : Workload) (w : WorkloadGroup)
    : outcome (service_msg * Workload) :=
  let! podId := match str_split pod_dot appId with
                | _ :: p :: _ => Ok p
                | _ => Crash OutOfRange
                end in
  let raw := deref (default None (wg_RawRequest w !! podId)) in
  let tran := deref (default None (RequestPods w !! podId)) in
  let! '(in_, inIops, bin) :=
    disk_limit (MinPodDiskInBw mins) (wg_WorkloadType w) InBps InIops raw tran (InBps wl) in
  let! '(out, outIops, bout) :=
    disk_limit (MinPodDiskOutBw mins) (wg_WorkloadType w) OutBps OutIops raw tran (OutBps wl) in
  Ok (SetAppLimit appId [mkBWLimit id in_ out inIops outIops] DiskIOIType,
      mkWorkload bin bout (InIops wl) (OutIops wl) (TotalBps wl)).

Definition nic_limit (b : f64) : string :=
  if feq b LimitMax then pretty NICMAX else pretty (to_int64 b).
Definition IOISetLimitNet (podId : string) (wl : Workload) : service_msg :=
  SetAppLimit podId [mkBWLimit "0" (nic_limit (InBps wl)) (nic_limit (OutBps wl)) 0 0] NetIOIType.

Definition IOIUnRegisterDisk (podUid : string) : service_msg := UnRegisterApp podUid DiskIOIType.

(** ** ComposeLimitData and SetLimit *)

Definition param_limit (r : RunPods) (po : string) : f64 :=
  if rp_flag r =? 1 then
    match podParam r !! po with Some p => outLimit p | None => LimitKeepValue end
  else LimitKeepValue.

Definition set_bps (i o : f64) (wl : Workload) : Workload :=
  mkWorkload i o (InIops wl) (OutIops wl) (TotalBps wl).

(** One pod: its message, and the shared variable [limit.Wl] afterwards. *)
Definition compose_pod (mins : MinBw) (w : WorkloadGroup) (rRunPods wRunPods : RunPods)
    (dev : DevInfo) (idx : Z) (acc : Workload * list service_msg) (po : string)
    : outcome (Workload * list service_msg) :=
  let '(wl, msgs) := acc in
  let wl := set_bps (param_limit rRunPods po) (param_limit wRunPods po) wl in
  let appid := pretty idx +:+ "." +:+ po in
  let! '(wl, msgs) :=
    (if String.eqb (DevType dev) "DISK" then
       let! '(m, wl) := IOISetLimitDisk mins appid (DevMajorMinor dev) wl w in
       Ok (wl, msgs ++ [m])
     else Ok (wl, msgs)) in
  Ok (wl, if String.eqb (DevType dev) "NIC" then msgs ++ [IOISetLimitNet appid wl] else msgs).

(** [limit] is one variable for the group and all pods: PodsLimitSet and
    GroupLimit keep pointers to it, so that all of them show its last value. *)
Definition ComposeLimitData (mins : MinBw) (w : WorkloadGroup) (rRunPods wRunPods : RunPods)
    (dev : DevInfo) (idx : Z) : outcome (WorkloadGroup * list service_msg) :=
  let group := GroupSettable w && (idx =? BeIndex) in
  let wl := if group
            then set_bps (if rp_flag rRunPods =? 1 then rp_expect rRunPods else fzero)
                   (if rp_flag wRunPods =? 1 then rp_expect wRunPods else fzero) workload_zero
            else workload_zero in
  let group_nic := group && String.eqb (DevType dev) "NIC" in
  let msgs := if group_nic then [IOISetLimitNet (pretty idx) wl] else [] in
  let pods := (range (RequestPods w)).*1 in
  let! '(wl, msgs) := foldM (compose_pod mins w rRunPods wRunPods dev idx) (wl, msgs) pods in
  Ok (set_limits_set (foldl (λ m po, <[po := Some wl]> m) (PodsLimitSet w) pods)
        (if group_nic then Some wl else GroupLimit w) w, msgs).

Definition SetLimit (mins : MinBw) (w : WorkloadGroup) (policy : option Policy)
    (expect request : Workload) (dev : DevInfo) (idx : Z)
    : outcome (WorkloadGroup * list service_msg) :=
  let podList := GetPodList w in
  let podsNum := Z.of_nat (length podList) in
  let! r := SelectPods (mkRunPods (InBps expect) (InBps request) ∅ 1) InBps policy
              (LimitPods w) (RequestPods w) podList in
  let! o := SelectPods (mkRunPods (OutBps expect) (OutBps request) ∅ 1) OutBps policy
              (LimitPods w) (RequestPods w) podList in
  let! r := CompressPods policy r podsNum idx in
  let! o := CompressPods policy o podsNum idx in
  ComposeLimitData mins w r o dev idx.

(** ** What the disk and the network engine compute alike *)

(** [l[i]] *)
Definition index {A} (l : list A) (i : Z) : outcome A :=
  if i <? 0 then Crash OutOfRange
  else match l !! Z.to_nat i with Some a => Ok a | None => Crash OutOfRange end.

(** [if x > y { x } else { y }] *)
Definition larger (x y : f64) : f64 := if flt y x then x else y.

(** The groups' expected bandwidths: what SetLimit shares out. *)
Definition expectations (totalIn totalOut : f64) (ga bt btActual : Workload) (gaIn gaOut : f64)
    : list Workload :=
  let or_left v left := if feq v fzero then left else v in
  let factor req left := if flt fzero req then fadd (fdiv left req) (of_Z 1) else of_Z 1 in
  [set_bps (or_left (InBps ga) gaIn) (or_left (OutBps ga) gaOut) workload_zero;
   set_bps (factor (InBps bt) gaIn) (factor (OutBps bt) gaOut) workload_zero;
   set_bps (fsub (fsub totalIn (InBps ga)) (larger (InBps bt) (InBps btActual)))
     (fsub (fsub totalOut (OutBps ga)) (larger (OutBps bt) (OutBps btActual)))
     workload_zero].

(** The loop over the groups of a device; [policies] is GpPolicy. *)
Fixpoint set_limits (mins : MinBw) (policies : list (option Policy)) (dev : DevInfo) (idx : Z)
    (expect : list Workload) (groups : list WorkloadGroup) : outcome (list WorkloadGroup * list service_msg) :=
  match groups with
  | [] => Ok ([], [])
  | wlg :: rest =>
      let! request := CalculateGroupBw (RequestPods wlg) in
      let! policy := index policies (wg_WorkloadType wlg) in
      let e := default workload_zero (head expect) in
      let! '(wlg, msgs) := SetLimit mins wlg policy e request dev idx in
      let! '(rest, msgs') := set_limits mins policies dev (idx + 1) (tail expect) rest in
      Ok (wlg :: rest, msgs ++ msgs')
  end.

(** The first three groups are cleaned; a device with fewer is out of range. *)
Definition clean_groups (visited : gset string) (groups : list WorkloadGroup)
    : outcome (list WorkloadGroup) :=
  if (length groups <? 3)%nat then Crash OutOfRange
  else Ok (map (λ w, DeleteOutdatePod w visited) (take 3 groups) ++ drop 3 groups).
End Limits.

(** ** What the engines share *)

(** v1.OtherDevice *)
Definition OtherDevice : string := "others".

(** A measurement of a pod, when the group has its request. *)
Definition set_actual (podId : string) (a : option Workload) (w : WorkloadGroup) : WorkloadGroup :=
  match RequestPods w !! podId with
  | Some (Some _) =>
      mkGroup (LimitPods w) (<[podId := a]> (ActualPods w)) (RequestPods w) (PodsLimitSet w)
        (wg_RawRequest w) (wg_RawLimit w) (wg_PodName w) (GroupLimit w) (wg_IoType w)
        (GroupSettable w) (wg_WorkloadType w)
  | _ => w
  end.

(** Operations of a pod, as bits. *)
Definition StopPod : Z := 1.
Definition RunPod : Z := 2.
Definition StopContainer : Z := 4.
Definition StartContainer : Z := 8.

(** The messages of the network engine. *)
Record NetAppInfo := mkNetApp {
  na_Group : string; NetNs : string; na_Devices : gmap string string; na_CgroupPath : string
}.
Record NetGroup := mkNetGroup { ng_Id : string; Types_ : Z; Pool : Z; Queues : Z }.
Record NodeIP := mkNodeIP {
  InterfaceName : string; ip_IpAddr : string; MacAddr : string; InterfaceType : string
}.
Record ConfigInfo := mkConfigInfo {
  Cni : string; GatewayIp : string; ci_NodeIps : list NodeIP; ci_Groups : list NetGroup
}.
Record SettableInfo := mkSettable { si_Id : string; si_GroupSettable : bool }.

(** encoding/json on the messages to the service, and reflect.DeepEqual on
    profiles.  A failing Unmarshal leaves what it has read. *)
Class AgentLib `{Q : QuantityLib} := {
  marshal_cgroup : string → list string → string;
  marshal_net_app : NetAppInfo → string;
  marshal_config : ConfigInfo → string;
  unmarshal_settable : string → list SettableInfo;
  marshal_host : string → string;
  unmarshal_nic : string → ANicInfo + error;
  DeepEqual_nics : gmap string ANicInfo → gmap string ANicInfo → bool;
  marshal_interval : Z → string;
  DeepEqual_profile : gmap string ADiskInfo → gmap string ADiskInfo → bool;
  (** utils.HashObject *)
  hash_states : gmap string DeviceState → Z
}.
(** NodeStaticIOInfo objects at the API server, by name. *)
Class StaticClient (K : Type) := {
  static_get : K → string → NodeStaticIOInfo + kerr;
  static_create : K → string → NodeStaticIOInfo → K * option kerr;
  static_update : K → string → NodeStaticIOInfo → K * option kerr;
  static_update_status : K → string → NodeStaticIOInfo → K * option kerr
}.
(** The agent's calls to the aggregator. *)
Class AggrClient (C : Type) := {
  rpc_UpdateNodeIOStatus : C → UpdateNodeIOStatusRequest → C * option error
}.

(** ** common/updatecr.go *)

Section UpdateCR.
Context `{Q : QuantityLib} {K : Type} `{!StaticClient K}.
Definition NodeStaticInfoSuffix : string := "-nodestaticioinfo".
Definition UpdateNodeStaticIOInfoSpec (name : string) (c : NodeStaticIOInfo) (k : K)
    : K * option kerr :=
  match static_get k name with
  | inr _ => static_create k name c
  | inl cur => static_update k name (mkNSI (nsi_NodeName c) (ResourceConfig c) (EndPoint c)
                                      (DeviceStates cur))
  end.
Definition UpdateNodeStaticIOInfoStatus (name : string) (c : NodeStaticIOInfo) (k : K)
    : K * option kerr :=
  match static_get k name with
  | inr _ => static_create k name c
  | inl cur => static_update_status k name (mkNSI (nsi_NodeName cur) (ResourceConfig cur)
                                             (EndPoint cur) (DeviceStates c))
  end.
Definition UpdateNodeStaticIOInfo (name : string) (c : NodeStaticIOInfo) (k : K) : K * option kerr :=
  match UpdateNodeStaticIOInfoSpec name c k with
  | (k, Some e) => (k, Some e)
  | (k, None) => UpdateNodeStaticIOInfoStatus name c k
  end.
End UpdateCR.
