(* ===== verification/AgentDisk.v ===== *)
(** * pkg/agent/disk: the disk engine of the node agent

    engine.go and state.go.  The engine registers pods with the I/O service
    once both the container runtime (NRI) and the scheduler (CR) know them,
    sets their limits, and reports what is left of every disk.  Not modelled:
    the Prometheus caches (UpdateDiskMetrics, EngineCache and MetricCache,
    which no other code reads); the fio runs of the profiler are in Profiler.v. *)

From S2P Require Export AgentLimit.

Definition NotEnabled : string := "NotEnabled".
Definition Profiling : string := "Profiling".
Definition Ready : string := "Ready".
Definition Fail_ : string := "Fail".
Definition EmptyDir : string := "emptyDir".
Definition podPrefix : string := "/sys/fs/cgroup".
Definition BlockIO_config : string := "BlockIO".
Definition DiskWorkloadType : Z := 0.

Record PodRegInfo := mkReg {
  CgroupPath : string; NriOperation : Z; CrOperation : Z; devIds : list string
}.
Definition set_ops (nri cr : Z) (p : PodRegInfo) : PodRegInfo :=
  mkReg (CgroupPath p) nri cr (devIds p).

(** The event functions that the engine registers. *)
Inductive disk_handler :=
| ProcessAdmin_f | ProcessProfile_f | ProcessPolicy_f
| ProcessNriData_f | ProcessDiskIOData_f | ProcessDiskCrData_f.

Section DiskEngine.
Context `{Q : QuantityLib} `{!GoSort} `{!GoRange} `{!AgentLib}.
Context {K C : Type} `{!StaticClient K} `{!AggrClient C}.

(** ** State *)

(** The engine with the package variables it uses: those of engine.go and
    state.go, the agent's IOInfo, what was sent to the service, the profiler
    runs started, the API server and the connection to the aggregator. *)
Record Disk := mkDisk {
  dk_eng : IOEngine disk_handler;
  NodeName : string;
  WgDevices : gmap string (list WorkloadGroup);
  GpPolicy : list (option Policy);
  dk_Profile : gmap string ADiskInfo;
  NSWhitelist : gset string;
  resourceConfig : ResourceConfigSpec;
  sysDiskRatio : Z; profileTimes : Z; sysPool : Z;
  podRegInfos : gmap string PodRegInfo;
  DiskObservedGeneration : Z;
  DiskInfos : gmap string ADiskInfo;
  IsProfiled : bool;
  dk_mins : MinBw;
  diskState : gmap string string;
  diskName : gmap string string;
  diskValid : gmap string BlockDevice;
  IOInfo : NodeStaticIOInfo;
  (** whether IOInfo.Status.DeviceStates is a map, or nil *)
  states_made : bool;
  ClientHandlerChan : list service_msg;
  profilers : list (list string);
  dk_kube : K;
  dk_client : option C
}.

Definition set_dk_eng v (d : Disk) : Disk :=
  mkDisk v (NodeName d) (WgDevices d) (GpPolicy d) (dk_Profile d) (NSWhitelist d) (resourceConfig d)
    (sysDiskRatio d) (profileTimes d) (sysPool d) (podRegInfos d) (DiskObservedGeneration d)
    (DiskInfos d) (IsProfiled d) (dk_mins d) (diskState d) (diskName d) (diskValid d) (IOInfo d) (states_made d)
    (ClientHandlerChan d) (profilers d) (dk_kube d) (dk_client d).
Definition set_WgDevices v (d : Disk) : Disk :=
  mkDisk (dk_eng d) (NodeName d) v (GpPolicy d) (dk_Profile d) (NSWhitelist d) (resourceConfig d)
    (sysDiskRatio d) (profileTimes d) (sysPool d) (podRegInfos d) (DiskObservedGeneration d)
    (DiskInfos d) (IsProfiled d) (dk_mins d) (diskState d) (diskName d) (diskValid d) (IOInfo d) (states_made d)
    (ClientHandlerChan d) (profilers d) (dk_kube d) (dk_client d).
Definition set_GpPolicy v (d : Disk) : Disk :=
  mkDisk (dk_eng d) (NodeName d) (WgDevices d) v (dk_Profile d) (NSWhitelist d) (resourceConfig d)
    (sysDiskRatio d) (profileTimes d) (sysPool d) (podRegInfos d) (DiskObservedGeneration d)
    (DiskInfos d) (IsProfiled d) (dk_mins d) (diskState d) (diskName d) (diskValid d) (IOInfo d) (states_made d)
    (ClientHandlerChan d) (profilers d) (dk_kube d) (dk_client d).
Definition set_profile profile devices infos wgs profiled (d : Disk) : Disk :=
  mkDisk (dk_eng d) (NodeName d) wgs (GpPolicy d) profile (NSWhitelist d)
    (mkRC (BEPool (resourceConfig d)) (GAPool (resourceConfig d)) (BTPool (resourceConfig d))
       devices (Classes (resourceConfig d)))
    (sysDiskRatio d) (profileTimes d) (sysPool d) (podRegInfos d) (DiskObservedGeneration d)
    infos profiled (dk_mins d) (diskState d) (diskName d) (diskValid d) (IOInfo d) (states_made d)
    (ClientHandlerChan d) (profilers d) (dk_kube d) (dk_client d).
Definition set_admin rc white ratio pool times mins (d : Disk) : Disk :=
  mkDisk (dk_eng d) (NodeName d) (WgDevices d) (GpPolicy d) (dk_Profile d) white rc
    ratio times pool (podRegInfos d) (DiskObservedGeneration d)
    (DiskInfos d) (IsProfiled d) mins (diskState d) (diskName d) (diskValid d) (IOInfo d) (states_made d)
    (ClientHandlerChan d) (profilers d) (dk_kube d) (dk_client d).
Definition set_podRegInfos v (d : Disk) : Disk :=
  mkDisk (dk_eng d) (NodeName d) (WgDevices d) (GpPolicy d) (dk_Profile d) (NSWhitelist d)
    (resourceConfig d) (sysDiskRatio d) (profileTimes d) (sysPool d) v (DiskObservedGeneration d)
    (DiskInfos d) (IsProfiled d) (dk_mins d) (diskState d) (diskName d) (diskValid d) (IOInfo d) (states_made d)
    (ClientHandlerChan d) (profilers d) (dk_kube d) (dk_client d).
Definition set_DiskObservedGeneration v (d : Disk) : Disk :=
  mkDisk (dk_eng d) (NodeName d) (WgDevices d) (GpPolicy d) (dk_Profile d) (NSWhitelist d)
    (resourceConfig d) (sysDiskRatio d) (profileTimes d) (sysPool d) (podRegInfos d) v
    (DiskInfos d) (IsProfiled d) (dk_mins d) (diskState d) (diskName d) (diskValid d) (IOInfo d) (states_made d)
    (ClientHandlerChan d) (profilers d) (dk_kube d) (dk_client d).
Definition set_states state name valid infos (d : Disk) : Disk :=
  mkDisk (dk_eng d) (NodeName d) (WgDevices d) (GpPolicy d) (dk_Profile d) (NSWhitelist d)
    (resourceConfig d) (sysDiskRatio d) (profileTimes d) (sysPool d) (podRegInfos d)
    (DiskObservedGeneration d) infos (IsProfiled d) (dk_mins d) state name valid (IOInfo d) (states_made d)
    (ClientHandlerChan d) (profilers d) (dk_kube d) (dk_client d).
Definition set_IOInfo v (d : Disk) : Disk :=
  mkDisk (dk_eng d) (NodeName d) (WgDevices d) (GpPolicy d) (dk_Profile d) (NSWhitelist d)
    (resourceConfig d) (sysDiskRatio d) (profileTimes d) (sysPool d) (podRegInfos d)
    (DiskObservedGeneration d) (DiskInfos d) (IsProfiled d) (dk_mins d) (diskState d) (diskName d)
    (diskValid d) v (states_made d) (ClientHandlerChan d) (profilers d) (dk_kube d) (dk_client d).
Definition send (l : list service_msg) (d : Disk) : Disk :=
  mkDisk (dk_eng d) (NodeName d) (WgDevices d) (GpPolicy d) (dk_Profile d) (NSWhitelist d)
    (resourceConfig d) (sysDiskRatio d) (profileTimes d) (sysPool d) (podRegInfos d)
    (DiskObservedGeneration d) (DiskInfos d) (IsProfiled d) (dk_mins d) (diskState d) (diskName d)
    (diskValid d) (IOInfo d) (states_made d) (ClientHandlerChan d ++ l) (profilers d) (dk_kube d) (dk_client d).
Definition start_profiler (l : list string) (d : Disk) : Disk :=
  mkDisk (dk_eng d) (NodeName d) (WgDevices d) (GpPolicy d) (dk_Profile d) (NSWhitelist d)
    (resourceConfig d) (sysDiskRatio d) (profileTimes d) (sysPool d) (podRegInfos d)
    (DiskObservedGeneration d) (DiskInfos d) (IsProfiled d) (dk_mins d) (diskState d) (diskName d)
    (diskValid d) (IOInfo d) (states_made d) (ClientHandlerChan d) (profilers d ++ [l]) (dk_kube d) (dk_client d).
Definition set_outside k c (d : Disk) : Disk :=
  mkDisk (dk_eng d) (NodeName d) (WgDevices d) (GpPolicy d) (dk_Profile d) (NSWhitelist d)
    (resourceConfig d) (sysDiskRatio d) (profileTimes d) (sysPool d) (podRegInfos d)
    (DiskObservedGeneration d) (DiskInfos d) (IsProfiled d) (dk_mins d) (diskState d) (diskName d)
    (diskValid d) (IOInfo d) (states_made d) (ClientHandlerChan d) (profilers d) k c.
Definition set_states_made v (d : Disk) : Disk :=
  mkDisk (dk_eng d) (NodeName d) (WgDevices d) (GpPolicy d) (dk_Profile d) (NSWhitelist d)
    (resourceConfig d) (sysDiskRatio d) (profileTimes d) (sysPool d) (podRegInfos d)
    (DiskObservedGeneration d) (DiskInfos d) (IsProfiled d) (dk_mins d) (diskState d) (diskName d)
    (diskValid d) (IOInfo d) v (ClientHandlerChan d) (profilers d) (dk_kube d) (dk_client d).
Definition SetProfiled v (d : Disk) : Disk :=
  mkDisk (dk_eng d) (NodeName d) (WgDevices d) (GpPolicy d) (dk_Profile d) (NSWhitelist d)
    (resourceConfig d) (sysDiskRatio d) (profileTimes d) (sysPool d) (podRegInfos d)
    (DiskObservedGeneration d) (DiskInfos d) v (dk_mins d) (diskState d) (diskName d)
    (diskValid d) (IOInfo d) (states_made d) (ClientHandlerChan d) (profilers d) (dk_kube d)
    (dk_client d).

Definition info_name (d : Disk) : string := nsi_NodeName (IOInfo d) +:+ NodeStaticInfoSuffix.

(** Publish the engine's configuration when it is ready: the end of
    ProcessAdmin, ProcessProfile and ProcessPolicy. *)
Definition publish_config (d : Disk) : Disk * option error :=
  if IsExecution (dk_eng d) then
    let c := IOInfo d in
    let c := mkNSI (nsi_NodeName c) (<[BlockIO_config := resourceConfig d]> (ResourceConfig c))
               (EndPoint c) (DeviceStates c) in
    let d := set_IOInfo c d in
    let '(k, err) := UpdateNodeStaticIOInfo (info_name d) c (dk_kube d) in
    (set_outside k (dk_client d) d, match err with Some e => Some (kerr_msg e) | None => None end)
  else (d, None).

(** ** state.go *)

Definition set_state (st : gmap string DeviceState) (d : Disk) : Disk :=
  let c := IOInfo d in
  set_IOInfo (mkNSI (nsi_NodeName c) (ResourceConfig c) (EndPoint c) st) d.

(** [c.Status.DeviceStates[did] = st] *)
Definition put_state (did : string) (st : DeviceState) (d : Disk) : outcome Disk :=
  if states_made d then Ok (set_state (<[did := st]> (DeviceStates (IOInfo d))) d)
  else Crash NilMapWrite.

(** One disk of UpdateProfileDiskState: its new state, and whether it stays
    valid. *)
Definition profiled_state (name : string) (state : string) (old : option DeviceState) : DeviceState :=
  let reason := match old with Some o => ds_Reason o | None => EmptyString end in
  if String.eqb state Ready then mkDeviceState name Ready reason
  else if String.eqb state Fail_ then mkDeviceState name NotEnabled "Profile failed"
  else mkDeviceState name state reason.
Definition UpdateProfileDiskState (d : Disk) : outcome Disk :=
  foldM (λ d kv,
    let '(did, state) := kv in
    let name := default EmptyString (diskName d !! did) in
    let st := DeviceStates (IOInfo d) in
    let! d := put_state did (profiled_state name state (st !! did)) d in
    Ok (if String.eqb state Fail_
        then set_states (diskState d) (diskName d) (delete did (diskValid d)) (DiskInfos d) d
        else d)) d (range (diskState d)).

(** SetProfilingDisk: the status numbers of the profile file. *)
Definition SetProfilingDisk (DeviceStatus : gmap string Z) (d : Disk) : Disk :=
  set_states (foldl (λ m kv,
      if kv.2 =? 3 then <[kv.1 := Fail_]> m
      else if kv.2 =? 1 then <[kv.1 := Profiling]> m
      else if kv.2 =? 2 then <[kv.1 := Ready]> m else m) (diskState d) (range DeviceStatus))
    (diskName d) (diskValid d) (DiskInfos d) d.

(** FilterDisk: the disks to profile, of those the service knows. *)
Definition filter_disk (disks : list string) (acc : Disk * gmap string BlockDevice)
    (kv : string * BlockDevice) : Disk * gmap string BlockDevice :=
  let '(did, disk) := kv in
  let select (acc : Disk * gmap string BlockDevice) :=
    let '(d, sel) := acc in
    (set_states (<[did := Profiling]> (diskState d)) (diskName d)
       (<[did := disk]> (diskValid d)) (DiskInfos d) d, <[did := disk]> sel) in
  let disable (acc : Disk * gmap string BlockDevice) :=
    let '(d, sel) := acc in
    match diskState d !! did with
    | Some _ => acc
    | None => (set_states (<[did := NotEnabled]> (diskState d)) (diskName d) (diskValid d)
                 (DiskInfos d) d, sel)
    end in
  let name (acc : Disk * gmap string BlockDevice) :=
    let '(d, sel) := acc in
    (set_states (diskState d) (<[did := blk_Name disk]> (diskName d)) (diskValid d)
       (DiskInfos d) d, sel) in
  let acc := foldl (λ acc input,
    name (if String.eqb input (blk_Name disk) then select acc else disable acc)) acc disks in
  name (if String.eqb (blk_Type disk) EmptyDir then
          match diskState acc.1 !! did with Some _ => acc | None => select acc end
        else disable acc).
Definition FilterDisk (diskInfo : gmap string BlockDevice) (disks : list string) (d : Disk)
    : Disk * gmap string BlockDevice :=
  foldl (filter_disk disks) (d, ∅) (range diskInfo).

(** StartDiskProfiler, once the service has answered with its disks ([None]
    if it failed); [all_known] tells whether the profile file already has all
    the disks selected (GetNewDisks), and the profiler that runs otherwise is
    outside. *)
Definition StartDiskProfiler (DInfo : option (gmap string BlockDevice)) (disks : list string)
    (all_known : bool) (d : Disk) : Disk :=
  match DInfo with
  | None => d
  | Some info =>
      let '(d, newDisks) := FilterDisk info disks d in
      if (0 <? size newDisks)%nat && all_known then SetProfiled true d else d
  end.

(** A round of StartAnalyzeDiskProfiler on the status file: the disks that are
    still valid. *)
Definition GetValidDiskStatus (status : gmap string Z) (d : Disk) : gmap string Z :=
  foldl (λ m kv, match diskValid d !! kv.1 with Some _ => m | None => delete kv.1 m end)
    status (range status).
Definition StartAnalyzeDiskProfiler (status : gmap string Z) (d : Disk) : Disk :=
  if IsAdmin (dk_eng d) then SetProfilingDisk (GetValidDiskStatus status d) d else d.

Definition LoadDiskInfo (cr : NodeStaticIOInfo) (d : Disk) : Disk :=
  foldl (λ d kv,
    let '(did, disk) := kv in
    let name := <[did := ds_Name disk]> (diskName d) in
    let valid := <[did := mkBlockDevice (ds_Name disk) "" "" "" 0 "" "" "" false []]> (diskValid d) in
    if String.eqb (ds_State disk) Ready then
      set_states (<[did := Ready]> (diskState d)) name valid (DiskInfos d) d
    else if String.eqb (ds_State disk) Profiling then
      set_states (<[did := Profiling]> (diskState d)) name valid (DiskInfos d) d
    else set_states (<[did := NotEnabled]> (diskState d)) name (diskValid d) (DiskInfos d) d)
    d (range (DeviceStates cr)).

Definition set_rc rc (d : Disk) : Disk :=
  set_admin rc (NSWhitelist d) (sysDiskRatio d) (sysPool d) (profileTimes d) (dk_mins d) d.

(** ProcessDeviceStatusChange: the administrator enables or disables disks.
    Once published, the configuration in IOInfo and the engine's own share
    the map of devices: a disk is deleted from both. *)
Definition device_change (old : gmap string DeviceState) (d : Disk) (kv : string * DeviceState)
    : outcome Disk :=
  let '(did, newState) := kv in
  match old !! did with
  | None => Ok d
  | Some oldState =>
      if String.eqb (ds_State newState) (ds_State oldState) then Ok d
      else
        let d := if String.eqb (ds_State oldState) NotEnabled && String.eqb (ds_State newState) Profiling
                 then start_profiler [ds_Name newState] d else d in
        if String.eqb (ds_State oldState) Ready && String.eqb (ds_State newState) NotEnabled then
          let d := set_states (<[did := NotEnabled]> (diskState d)) (diskName d)
                     (delete did (diskValid d)) (delete did (DiskInfos d)) d in
          let c := IOInfo d in
          let drop rc := mkRC (BEPool rc) (GAPool rc) (BTPool rc) (delete did (Devices rc))
                           (Classes rc) in
          let d := match ResourceConfig c !! BlockIO_config with
                   | Some _ => set_rc (drop (resourceConfig d)) d
                   | None => d
                   end in
          let rcs := alter drop BlockIO_config (ResourceConfig c) in
          let d := set_IOInfo (mkNSI (nsi_NodeName c) rcs (EndPoint c) (DeviceStates c)) d in
          let! d := put_state did newState d in
          Ok (set_outside (UpdateNodeStaticIOInfoSpec (info_name d) (IOInfo d) (dk_kube d)).1
                (dk_client d) d)
        else Ok d
  end.
Definition ProcessDeviceStatusChange (old new : gmap string DeviceState) (d : Disk) : outcome Disk :=
  foldM (device_change old) d (range new).

(** The states of the devices that are only in the new object. *)
Definition GetDeviceChange (old new : gmap string DeviceState) : gmap string (list string) :=
  foldl (λ m kv, match old !! kv.1 with
                 | Some _ => m
                 | None => <[kv.1 := [ds_Name kv.2]]> m
                 end) ∅ (range new).
Definition NodeDeviceStateUpdate (old new : NodeStaticIOInfo) (d : Disk) : outcome Disk :=
  if hash_states (DeviceStates old) =? hash_states (DeviceStates new) then Ok d
  else if (0 <? size (GetDeviceChange (DeviceStates old) (DeviceStates new)))%nat then Ok d
  else ProcessDeviceStatusChange (DeviceStates old) (DeviceStates new) d.

(** ** Allocation of a disk *)

Definition new_group (i : Z) : WorkloadGroup :=
  mkGroup ∅ ∅ ∅ ∅ ∅ ∅ ∅ None DiskWorkloadType false i.

(** What is left of a disk, per group: read, write, total. *)
Record alloc := mkAlloc3 { al_Read : list f64; al_Write : list f64; al_Total : list f64 }.

(** calDiskAllocatable: [None] for a disk that is not profiled.  The
    best-effort group is given the read share as its write bandwidth, and the
    write share as its read bandwidth. *)
Definition calDiskAllocatable (diskId : string) (d : Disk) : outcome (option alloc * Disk) :=
  match DiskInfos d !! diskId, WgDevices d !! diskId with
  | Some info, Some groups =>
      let ratio := fdiv (of_Z (BEPool (resourceConfig d))) (of_Z 100) in
      let beR := fmul ratio (TotalRBPS info) in
      let beW := fmul ratio (TotalWBPS info) in
      let beT := fmul ratio (TotalBPS info) in
      let! gaG := index groups GaIndex in
      let! ga := CalculateGroupBw (RequestPods gaG) in
      let! btG := index groups BtIndex in
      let! bt := CalculateGroupBw (RequestPods btG) in
      let gaIn := fsub (fsub (fsub (TotalRBPS info) beR) (InBps ga)) (InBps bt) in
      let gaOut := fsub (fsub (fsub (TotalWBPS info) beW) (OutBps ga)) (OutBps bt) in
      let gaTotal := fsub (fsub (fsub (fsub (fsub (TotalBPS info) beT) (InBps ga)) (InBps bt))
                             (OutBps ga)) (OutBps bt) in
      let! _ := index groups BeIndex in
      let! btActual := CalculateGroupBw (ActualPods btG) in
      let dev := mkDevInfo diskId (ad_Name info) "DISK" (MajorMinor info) in
      let! '(groups, msgs) :=
        set_limits (dk_mins d) (GpPolicy d) dev 0
          (expectations (TotalRBPS info) (TotalWBPS info) ga bt btActual gaIn gaOut) groups in
      Ok (Some (mkAlloc3 [gaIn; gaIn; beW] [gaOut; gaOut; beR] [gaTotal; gaTotal; beT]),
          send msgs (set_WgDevices (<[diskId := groups]> (WgDevices d)) d))
  | _, _ => Ok (None, d)
  end.

(** The entry of a disk in the report: the pressure is never set. *)
Definition disk_report (info : ADiskInfo) (a : alloc) : outcome DeviceBandwidthInfo :=
  let status i :=
    let! r := index (al_Read a) i in
    let! w := index (al_Write a) i in
    let! t := index (al_Total a) i in
    Ok (mkIOStatus t r w fzero "") in
  let! ga := status GaIndex in
  let! be := status BeIndex in
  Ok (mkDevBw (ad_Name info) {["GA" := ga; "BE" := be]}).

Definition updateLocalNodeDiskStatusIOInfo (d : Disk) : outcome (Disk * option error) :=
  let gen := DiskObservedGeneration d in
  let! '(bw, d) := foldM (λ acc kv,
    let '(bw, d) := acc in
    let! '(a, d) := calDiskAllocatable kv.1 d in
    match a with
    | None => Crash OutOfRange
    | Some a => let! r := disk_report kv.2 a in Ok (<[kv.1 := r]> bw, d)
    end) (∅, d) (range (DiskInfos d)) in
  let '(c, err) := agent_UpdateNodeIOStatus rpc_UpdateNodeIOStatus (NodeName d)
                     (mkIOBw IOType_DiskIO bw) gen (dk_client d) in
  Ok (set_outside (dk_kube d) c d, err).

(** ** Registration of pods *)

Definition clear_pod (podId : string) (w : WorkloadGroup) : WorkloadGroup :=
  mkGroup (delete podId (LimitPods w)) (ActualPods w) (delete podId (RequestPods w))
    (delete podId (PodsLimitSet w)) (delete podId (wg_RawRequest w)) (delete podId (wg_RawLimit w))
    (wg_PodName w) (GroupLimit w) (wg_IoType w) (GroupSettable w) (wg_WorkloadType w).

Definition IOIRegisterDisk (podUid cgroupPath : string) (deviceId : list string) : service_msg :=
  RegisterApp podUid (marshal_cgroup cgroupPath deviceId) DiskIOIType.

Definition major_minor (d : Disk) (disk : string) : string :=
  match DiskInfos d !! disk with Some i => MajorMinor i | None => EmptyString end.

(** One pod of RegisterPod: an operation is carried out once the runtime and
    the scheduler both ask for it. *)
Definition register_pod (d : Disk) (kv : string * PodRegInfo) : outcome Disk :=
  let '(podId, p) := kv in
  if String.eqb (CgroupPath p) "" then Ok d
  else if (length (devIds p) =? 0)%nat then Ok d
  else
    let op := Z.land (NriOperation p) (CrOperation p) in
    if op =? 0 then Ok d
    else
      let asks b := Z.land op b =? b in
      let p' := set_ops (Z.lxor op (NriOperation p)) (Z.lxor op (CrOperation p)) p in
      let d := set_podRegInfos (if asks StopPod then delete podId (podRegInfos d)
                                else <[podId := p']> (podRegInfos d)) d in
      let d := if asks RunPod
               then send [IOIRegisterDisk podId (CgroupPath p) (major_minor d <$> devIds p)] d
               else d in
      let d := if asks StopPod
               then set_WgDevices (map (clear_pod podId) <$> WgDevices d)
                      (send [IOIUnRegisterDisk podId] d)
               else d in
      let! '(d, _) := updateLocalNodeDiskStatusIOInfo d in Ok d.
Definition RegisterPod (d : Disk) : outcome Disk := foldM register_pod d (range (podRegInfos d)).

(** ** Event functions *)

Definition ProcessNriData (data : PodData) (d : Disk) : outcome Disk :=
  let d := foldl (λ d kv,
    let '(podId, podInfo) := kv in
    if decide (ri_Namespace podInfo ∈ NSWhitelist d) then d
    else
      let cgroupPath := podPrefix +:+ CGroupPath podInfo in
      let p := match podRegInfos d !! podId with
               | None => mkReg cgroupPath (Operation podInfo) 0 []
               | Some p => mkReg cgroupPath (Z.lor (NriOperation p) (Operation podInfo))
                             (CrOperation p) (devIds p)
               end in
      set_podRegInfos (<[podId := p]> (podRegInfos d)) d)
    d (range (default ∅ (PodEvents data !! "dev"))) in
  RegisterPod d.

(** Measurements from the service (the part that feeds the limits). *)
Definition ProcessDiskIOData (data : PodData) (d : Disk) : outcome Disk :=
  foldM (λ d kv,
    let '(diskId, podEvent) := kv in
    let! d := foldM (λ d kv,
      let! _ := deref (ri_Actual kv.2) in
      Ok (set_WgDevices (alter (map (set_actual kv.1 (ri_Actual kv.2))) diskId (WgDevices d)) d))
      d (range podEvent) in
    let! '(_, d) := calDiskAllocatable diskId d in Ok d) d (range (PodEvents data)).

(** The pod in the group of its workload type. *)
Definition set_pod (podId : string) (i : PodRunInfo) (w : WorkloadGroup) : WorkloadGroup :=
  mkGroup (<[podId := ri_Limit i]> (LimitPods w)) (ActualPods w)
    (<[podId := ri_Request i]> (RequestPods w)) (PodsLimitSet w)
    (<[podId := ri_RawRequest i]> (wg_RawRequest w)) (<[podId := ri_RawLimit i]> (wg_RawLimit w))
    (<[podId := ri_PodName i]> (wg_PodName w)) (GroupLimit w) (wg_IoType w) (GroupSettable w)
    (ri_WorkloadType i).
Definition reg_device (diskId : string) (p : option PodRegInfo) : PodRegInfo :=
  match p with
  | None => mkReg EmptyString 0 0 [diskId]
  | Some p => mkReg (CgroupPath p) (NriOperation p) (CrOperation p) (devIds p ++ [diskId])
  end.
Definition cr_pod (diskId : string) (acc : Disk * gset string) (kv : string * PodRunInfo)
    : outcome (Disk * gset string) :=
  let '(d, visited) := acc in
  let '(podId, i) := kv in
  if String.eqb (ri_PodName i) "" then Ok (d, visited)
  else
    let groups := default [] (WgDevices d !! diskId) in
    let! w := index groups (ri_WorkloadType i) in
    let groups := <[Z.to_nat (ri_WorkloadType i) := set_pod podId i w]> groups in
    let d := set_WgDevices (<[diskId := groups]> (WgDevices d)) d in
    let d := set_podRegInfos (<[podId := reg_device diskId (podRegInfos d !! podId)]>
                                (podRegInfos d)) d in
    Ok (d, {[podId]} ∪ visited).

Definition ProcessDiskCrData (data : PodData) (d : Disk) : outcome Disk :=
  let d := set_DiskObservedGeneration (pdata_Generation data) d in
  let! '(d, visited) := foldM (λ acc kv,
    match WgDevices acc.1 !! kv.1 with
    | None => Ok acc
    | Some _ => foldM (cr_pod kv.1) acc (range kv.2)
    end) (d, ∅) (range (PodEvents data)) in
  let! wgs := foldM (λ m kv,
    let! groups := clean_groups visited kv.2 in Ok (<[kv.1 := groups]> m))
    (WgDevices d) (range (WgDevices d)) in
  let d := set_WgDevices wgs d in
  let mark podId p := set_ops (NriOperation p)
    (Z.lor (CrOperation p) (if decide (podId ∈ visited) then RunPod else StopPod)) p in
  let d := set_podRegInfos (map_imap (λ podId p, Some (mark podId p)) (podRegInfos d)) d in
  RegisterPod d.

(** The disk and the device that a profiled disk gives. *)
Definition profile_disk (d : Disk) (diskInfo : ADiskInfo) : outcome (ADiskInfo * Device) :=
  let times := of_Z (profileTimes d) in
  let empty := String.eqb (ad_Type diskInfo) EmptyDir in
  let ratio := fdiv (fsub (of_Z 100) (of_Z (sysPool d))) (of_Z 100) in
  let scale x := if empty then fmul (fmul x ratio) times else fmul x times in
  let! size := (if empty then
                  let! dv := MustParse (ad_Capacity diskInfo) in
                  Ok (pretty (wrap64 (Z.quot (mul64 (Value dv) (sysDiskRatio d)) 100)))
                else Ok (ad_Capacity diskInfo)) in
  let info := mkADisk (ad_Name diskInfo) (MajorMinor diskInfo) EmptyString (MountPoint diskInfo)
    EmptyString (scale (TotalBPS diskInfo)) (scale (TotalRBPS diskInfo))
    (scale (TotalWBPS diskInfo)) (ad_ReadRatio diskInfo) (ad_WriteRatio diskInfo)
    (ParseMappingRatio (ad_ReadRatio diskInfo)) (ParseMappingRatio (ad_WriteRatio diskInfo)) in
  Ok (info,
      mkDevice (ad_Name diskInfo) (if empty then DefaultDevice else OtherDevice)
        (MinPodDiskInBw (dk_mins d)) (MinPodDiskOutBw (dk_mins d))
        (ad_ReadRatio diskInfo) (ad_WriteRatio diskInfo)
        (TotalRBPS info) (TotalWBPS info) (TotalBPS info) size (MountPoint info)).

Section Handlers.
Variable SetFlag : Z → GoM Disk ().

Definition ProcessProfile (data : AllProfile) : GoM Disk (option error) := λ d,
  if negb (DeepEqual_profile (dk_Profile d) (DProfile data)) || IsProfiled d then
    let profile := DProfile data in
    let! '(devices, infos, wgs) := foldM (λ acc kv,
      let '(devices, infos, wgs) := acc in
      let! '(info, dev) := profile_disk d kv.2 in
      Ok (<[kv.1 := dev]> devices, <[kv.1 := info]> infos,
          match wgs !! kv.1 with
          | Some _ => wgs
          | None => <[kv.1 := map new_group [GaIndex; BtIndex; BeIndex]]> wgs
          end)) (∅, DiskInfos d, WgDevices d) (range profile) in
    let! d := UpdateProfileDiskState (set_profile profile devices infos wgs false d) in
    let! '(_, d) := SetFlag ProfileFlag d in
    let '(d, err) := publish_config d in Ok (err, d)
  else Ok (None, d).

Definition ProcessPolicy (data : gmap string Policy) : GoM Disk (option error) := λ d,
  let put key i (l : list (option Policy)) :=
    match data !! key with Some p => <[Z.to_nat i := Some p]> l | None => l end in
  let d := set_GpPolicy (put "DiskBErules" BeIndex (put "DiskBTrules" BtIndex
                           (put "DiskGArules" GaIndex (GpPolicy d)))) d in
  match data !! "DiskGArules", data !! "DiskBTrules", data !! "DiskBErules" with
  | Some _, Some _, Some _ =>
      let! '(_, d) := SetFlag PolicyFlag d in
      let '(d, err) := publish_config d in Ok (err, d)
  | _, _, _ => Ok (None, d)
  end.

(** GetDiskStaticCR *)
Definition GetDiskStaticCR (d : Disk) : option NodeStaticIOInfo :=
  match static_get (dk_kube d) (info_name d) with
  | inl cr => match ResourceConfig cr !! BlockIO_config with Some _ => Some cr | None => None end
  | inr _ => None
  end.

Definition ProcessAdmin (data : AdminResourceConfig) : GoM Disk (option error) := λ d,
  let d := send [Configure "INTERVAL" (marshal_interval (DiskInterval (Interval data)))
                   DiskIOIType] d in
  let rc := resourceConfig d in
  let d := set_admin (mkRC (DiskBePool data) (GAPool rc) (BTPool rc) (Devices rc) (Classes rc))
             (NamespaceWhitelist data) (SysDiskRatio data) (DiskSysPool data) (ProfileTime data)
             (mkMinBw (of_Z (Disk_min_pod_in_bw data)) (of_Z (Disk_min_pod_out_bw data))) d in
  let d :=
    if InitFlag data && negb (IsAdmin (dk_eng d)) then
      match GetDiskStaticCR d with
      | None => start_profiler [] d
      | Some cr =>
          let d := LoadDiskInfo cr d in
          let d := set_rc (default (mkRC 0 0 0 ∅ []) (ResourceConfig cr !! BlockIO_config)) d in
          set_states_made (negb (size (DeviceStates cr) =? 0)%nat) (set_state (DeviceStates cr) d)
      end
    else d in
  let! '(_, d) := SetFlag AdminFlag d in
  let '(d, err) := publish_config d in Ok (err, d).

(** [Crash NilDeref] for data of another type: the assertion
    [data.( *agent.PodData)] panics. *)
Definition run_disk (h : disk_handler) (data : EventData) : GoM Disk (option error) := λ d,
  let done o := let! d := o in Ok (None, d) in
  match h, data with
  | ProcessAdmin_f, EvAdmin a => ProcessAdmin a d
  | ProcessProfile_f, EvProfile p => ProcessProfile p d
  | ProcessPolicy_f, EvPolicy p => ProcessPolicy p d
  | ProcessNriData_f, EvPod p => done (ProcessNriData p d)
  | ProcessDiskIOData_f, EvPod p => done (ProcessDiskIOData p d)
  | ProcessDiskCrData_f, EvPod p => done (ProcessDiskCrData p d)
  | _, _ => Crash NilDeref
  end.
End Handlers.

(** ** Initialize: the channels' handles, and the state of a new engine *)

Definition AdminChan_handles : list (EventHandle disk_handler) :=
  [mkHandle false "Admin" ProcessAdmin_f].
Definition ProfileChan_handles : list (EventHandle disk_handler) :=
  [mkHandle true "PROF_DISK" ProcessProfile_f].
Definition PolicyChan_handles : list (EventHandle disk_handler) :=
  [mkHandle false "Policy" ProcessPolicy_f].
Definition PodInfoChan_handles : list (EventHandle disk_handler) :=
  [mkHandle true "NRI" ProcessNriData_f; mkHandle true "Disk" ProcessDiskIOData_f;
   mkHandle true "Disk_CR" ProcessDiskCrData_f].

Definition Initialize (io : NodeStaticIOInfo) (k : K) (c : option C) : Disk :=
  mkDisk (mkEngine 0 all_flags [] []) (nsi_NodeName io) ∅ [None; None; None] ∅ ∅
    (mkRC 0 0 0 ∅ []) 0 1 20 ∅ 0 ∅ false (mkMinBw (of_Z 5) (of_Z 5)) ∅ ∅ ∅ io true [] [] k c.
End DiskEngine.
Arguments Disk {Q} K C.
