(* ===== verification/AgentNet.v ===== *)
(** * pkg/agent/net: the network engine of the node agent

    engine.go with metric.go's caches, and the registration, configuration and
    profile messages of common/network.go.  The engine registers pods with the
    I/O service once both the container runtime (NRI) and the scheduler (CR)
    know them, configures the service's groups, sets the pods' limits and
    reports what is left of the NICs.  Outside: the Prometheus gauges that
    FlushData sets from MetricCache, and podMutex. *)

From S2P Require Export AgentLimit.

Definition podPrefix : string := "/sys/fs/cgroup".
Definition NetworkIO_config : string := "NetworkIO".
Definition NetWorkloadType : Z := 1.
Definition CNI : string := "calico".
Definition GATEWAY : string := EmptyString.

Record PodRegInfo := mkReg {
  NriOperation : Z; Ns : string; CgroupPath : string;
  CrOperation : Z; devIds : list string; Group : string
}.

(** ** metric.go *)

Record NetBw := mkNetBw {
  NetRequestBw : list Workload; NetAllocBw : list Workload; NetTotalBw : list Workload
}.
Record PodInfo := mkPodInfo { pi_PodName : string; pi_Type : string; pi_Workload : option Workload }.
Abbreviation PodInfos := (gmap string PodInfo).
Record PodBw := mkPodBw {
  PodRequestBw : gmap string PodInfos; PodLimitBw : gmap string PodInfos;
  PodTranBw : gmap string PodInfos
}.
(** By node: the NICs by name, and the pods. *)
Record NetMetric := mkMetric { Cache : gmap string (gmap string NetBw); PodCache : gmap string PodBw }.

(** The first three entries of a slice. *)
Definition first3 (l : list Workload) : outcome (list Workload) :=
  let! a := index l GaIndex in
  let! b := index l BtIndex in
  let! c := index l BeIndex in Ok [a; b; c].
(** UpdateCache: a copy, of three groups per NIC. *)
Definition UpdateCache `{!GoRange} (monitorCache : NetMetric) : outcome NetMetric :=
  let! c := foldM (λ m kv,
    let! nics := foldM (λ nics kn,
      let! r := first3 (NetRequestBw kn.2) in
      let! a := first3 (NetAllocBw kn.2) in
      let! t := first3 (NetTotalBw kn.2) in
      Ok (<[kn.1 := mkNetBw r a t]> nics)) ∅ (range kv.2) in
    Ok (<[kv.1 := nics]> m)) ∅ (range (Cache monitorCache)) in
  Ok (mkMetric c (PodCache monitorCache)).

(** The event functions that the engine registers. *)
Inductive net_handler :=
| ProcessAdmin_f | ProcessProfile_f | ProcessPolicy_f
| ProcessNriData_f | ProcessNicIOData_f | ProcessNetworkCrData_f.

(** The I/O service, called directly: Configure and GetServiceInfo. *)
Class ServiceClient (V : Type) := {
  rpc_Configure : V → string → Z → V * (string + error);
  rpc_GetServiceInfo : V → Z → string → string + error
}.

Section NetEngine.
Context `{Q : QuantityLib} `{!GoRange} `{!AgentLib}.
Context {K C V : Type} `{!StaticClient K} `{!AggrClient C} `{!ServiceClient V}.

(** ** State *)

(** The engine with the package variables it uses: NicInfos, NodeIps and
    NetObservedGeneration of engine.go, the minima of common/network.go, the
    agent's IOInfo, what was sent to the service, the API server and the
    connections to the aggregator and to the service. *)
Record Net := mkNet {
  ne_eng : IOEngine net_handler;
  NodeName : string;
  WgDevices : gmap string (list WorkloadGroup);
  GpPolicy : list (option Policy);
  ne_Profile : gmap string ANicInfo;
  NSWhitelist : gset string;
  sysPool : Z;
  resourceConfig : ResourceConfigSpec;
  podRegInfos : gmap string PodRegInfo;
  NicInfos : gmap string ANicInfo;
  NodeIps : list NodeIP;
  NetObservedGeneration : Z;
  MinPodNetInBw : f64;
  MinPodNetOutBw : f64;
  EngineCache : NetMetric;
  MetricCache : NetMetric;
  IOInfo : NodeStaticIOInfo;
  ClientHandlerChan : list service_msg;
  ne_kube : K;
  ne_client : option C;
  IoiClient : option V
}.

Definition set_ne_eng v (n : Net) : Net :=
  mkNet v (NodeName n) (WgDevices n) (GpPolicy n) (ne_Profile n) (NSWhitelist n) (sysPool n)
    (resourceConfig n) (podRegInfos n) (NicInfos n) (NodeIps n) (NetObservedGeneration n)
    (MinPodNetInBw n) (MinPodNetOutBw n) (EngineCache n) (MetricCache n) (IOInfo n)
    (ClientHandlerChan n) (ne_kube n) (ne_client n) (IoiClient n).
Definition set_WgDevices v (n : Net) : Net :=
  mkNet (ne_eng n) (NodeName n) v (GpPolicy n) (ne_Profile n) (NSWhitelist n) (sysPool n)
    (resourceConfig n) (podRegInfos n) (NicInfos n) (NodeIps n) (NetObservedGeneration n)
    (MinPodNetInBw n) (MinPodNetOutBw n) (EngineCache n) (MetricCache n) (IOInfo n)
    (ClientHandlerChan n) (ne_kube n) (ne_client n) (IoiClient n).
Definition set_GpPolicy v (n : Net) : Net :=
  mkNet (ne_eng n) (NodeName n) (WgDevices n) v (ne_Profile n) (NSWhitelist n) (sysPool n)
    (resourceConfig n) (podRegInfos n) (NicInfos n) (NodeIps n) (NetObservedGeneration n)
    (MinPodNetInBw n) (MinPodNetOutBw n) (EngineCache n) (MetricCache n) (IOInfo n)
    (ClientHandlerChan n) (ne_kube n) (ne_client n) (IoiClient n).
Definition set_profile profile rc infos ips wgs (n : Net) : Net :=
  mkNet (ne_eng n) (NodeName n) wgs (GpPolicy n) profile (NSWhitelist n) (sysPool n) rc
    (podRegInfos n) infos ips (NetObservedGeneration n) (MinPodNetInBw n) (MinPodNetOutBw n)
    (EngineCache n) (MetricCache n) (IOInfo n) (ClientHandlerChan n) (ne_kube n) (ne_client n)
    (IoiClient n).
Definition set_admin rc pool min_in min_out white (n : Net) : Net :=
  mkNet (ne_eng n) (NodeName n) (WgDevices n) (GpPolicy n) (ne_Profile n) white pool rc
    (podRegInfos n) (NicInfos n) (NodeIps n) (NetObservedGeneration n) min_in min_out
    (EngineCache n) (MetricCache n) (IOInfo n) (ClientHandlerChan n) (ne_kube n) (ne_client n)
    (IoiClient n).
Definition set_podRegInfos v (n : Net) : Net :=
  mkNet (ne_eng n) (NodeName n) (WgDevices n) (GpPolicy n) (ne_Profile n) (NSWhitelist n)
    (sysPool n) (resourceConfig n) v (NicInfos n) (NodeIps n) (NetObservedGeneration n)
    (MinPodNetInBw n) (MinPodNetOutBw n) (EngineCache n) (MetricCache n) (IOInfo n)
    (ClientHandlerChan n) (ne_kube n) (ne_client n) (IoiClient n).
Definition set_NetObservedGeneration v (n : Net) : Net :=
  mkNet (ne_eng n) (NodeName n) (WgDevices n) (GpPolicy n) (ne_Profile n) (NSWhitelist n)
    (sysPool n) (resourceConfig n) (podRegInfos n) (NicInfos n) (NodeIps n) v (MinPodNetInBw n)
    (MinPodNetOutBw n) (EngineCache n) (MetricCache n) (IOInfo n) (ClientHandlerChan n)
    (ne_kube n) (ne_client n) (IoiClient n).
Definition set_metrics v w (n : Net) : Net :=
  mkNet (ne_eng n) (NodeName n) (WgDevices n) (GpPolicy n) (ne_Profile n) (NSWhitelist n)
    (sysPool n) (resourceConfig n) (podRegInfos n) (NicInfos n) (NodeIps n)
    (NetObservedGeneration n) (MinPodNetInBw n) (MinPodNetOutBw n) v w (IOInfo n)
    (ClientHandlerChan n) (ne_kube n) (ne_client n) (IoiClient n).
Definition set_IOInfo v (n : Net) : Net :=
  mkNet (ne_eng n) (NodeName n) (WgDevices n) (GpPolicy n) (ne_Profile n) (NSWhitelist n)
    (sysPool n) (resourceConfig n) (podRegInfos n) (NicInfos n) (NodeIps n)
    (NetObservedGeneration n) (MinPodNetInBw n) (MinPodNetOutBw n) (EngineCache n)
    (MetricCache n) v (ClientHandlerChan n) (ne_kube n) (ne_client n) (IoiClient n).
Definition send (l : list service_msg) (n : Net) : Net :=
  mkNet (ne_eng n) (NodeName n) (WgDevices n) (GpPolicy n) (ne_Profile n) (NSWhitelist n)
    (sysPool n) (resourceConfig n) (podRegInfos n) (NicInfos n) (NodeIps n)
    (NetObservedGeneration n) (MinPodNetInBw n) (MinPodNetOutBw n) (EngineCache n)
    (MetricCache n) (IOInfo n) (ClientHandlerChan n ++ l) (ne_kube n) (ne_client n)
    (IoiClient n).
Definition set_outside k c v (n : Net) : Net :=
  mkNet (ne_eng n) (NodeName n) (WgDevices n) (GpPolicy n) (ne_Profile n) (NSWhitelist n)
    (sysPool n) (resourceConfig n) (podRegInfos n) (NicInfos n) (NodeIps n)
    (NetObservedGeneration n) (MinPodNetInBw n) (MinPodNetOutBw n) (EngineCache n)
    (MetricCache n) (IOInfo n) (ClientHandlerChan n) k c v.

Definition info_name (n : Net) : string := nsi_NodeName (IOInfo n) +:+ NodeStaticInfoSuffix.

(** Publish the engine's configuration when it is ready: the end of
    ProcessAdmin and ProcessPolicy, and a part of ProcessProfile.  (The map
    ResourceConfig is made when the agent starts.) *)
Definition publish_config (n : Net) : Net * option error :=
  if IsExecution (ne_eng n) then
    let c := IOInfo n in
    let c := mkNSI (nsi_NodeName c) (<[NetworkIO_config := resourceConfig n]> (ResourceConfig c))
               (EndPoint c) (DeviceStates c) in
    let n := set_IOInfo c n in
    let '(k, err) := UpdateNodeStaticIOInfoSpec (info_name n) c (ne_kube n) in
    (set_outside k (ne_client n) (IoiClient n) n,
     match err with Some e => Some (kerr_msg e) | None => None end)
  else (n, None).

(** ** common/network.go *)

(** IOIGetServiceInfoNet, on a node with address [Node_IP]: the profile of
    its NIC, unless the service fails. *)
Definition IOIGetServiceInfoNet (Node_IP : string) (v : V) : option AllProfile :=
  match rpc_GetServiceInfo v NetIOIType (marshal_host Node_IP) with
  | inr _ => None
  | inl conf =>
      match unmarshal_nic conf with
      | inr _ => None
      | inl i =>
          let i := mkANic (an_Name i) (Macaddr i) Node_IP "masterNic" (an_TotalBPS i)
                     (SndGroupBPS i) (RcvGroupBPS i) (QueueNum i) (an_GroupSettable i) in
          Some (mkProfile ∅ {[Macaddr i := i]} ∅ 1)
      end
  end.

(** What a round of StartNetProfiler puts into ProfileChan. *)
Definition StartNetProfiler (Node_IP : string) (v : V) : list EventData :=
  match IOIGetServiceInfoNet Node_IP v with Some p => [EvProfile p] | None => [] end.

(** Every address is the one of "eth0": the last stays. *)
Definition IOIRegisterNet (podUid group netNs : string) (nodeIps : list NodeIP) (cgroupPath : string)
    : service_msg :=
  let devices : gmap string string := foldl (λ m ip, <["eth0" := ip_IpAddr ip]> m) ∅ nodeIps in
  RegisterApp podUid (marshal_net_app (mkNetApp group netNs devices cgroupPath)) NetIOIType.
Definition IOIUnRegisterNet (podUid : string) : service_msg := UnRegisterApp podUid NetIOIType.

(** A failing call returns no answer, whose text is read. *)
Definition IOIConfigureNet (cni gatewayIp : string) (nodeIps : list NodeIP) (groups : list NetGroup)
    (n : Net) : outcome (list SettableInfo * Net) :=
  match IoiClient n with
  | None => Ok ([], n)
  | Some v =>
      let '(v, r) := rpc_Configure v (marshal_config (mkConfigInfo cni gatewayIp nodeIps groups))
                       NetIOIType in
      match r with
      | inr _ => Crash NilDeref
      | inl info => Ok (unmarshal_settable info, set_outside (ne_kube n) (ne_client n) (Some v) n)
      end
  end.

(** ** Metrics *)

Definition IndexToType (i : Z) : string :=
  if i =? GaIndex then "GA" else if i =? BtIndex then "BT" else if i =? BeIndex then "BE"
  else EmptyString.

(** One group of UpdateNetMetrics: [nbw] has the entries of all groups of all
    NICs before it, and the groups are looked up by their index in it. *)
Definition net_metrics_group (snd rcv beSnd beRcv : f64) (nbw : NetBw) (idx : Z) (wlg : WorkloadGroup)
    : outcome NetBw :=
  let! netReq := CalculateGroupBw (RequestPods wlg) in
  let reqs := NetRequestBw nbw ++ [netReq] in
  let! alc :=
    (if idx =? GaIndex then Ok netReq
     else if idx =? BtIndex then
       let! ga := index reqs GaIndex in
       Ok (set_bps (fsub rcv (InBps ga)) (fsub snd (OutBps ga)) workload_zero)
     else if idx =? BeIndex then
       let! ga := index reqs GaIndex in
       let! bt := index reqs BtIndex in
       Ok (set_bps (fmin (fsub (fsub rcv (InBps ga)) (InBps bt)) beRcv)
             (fmin (fsub (fsub snd (OutBps ga)) (OutBps bt)) beSnd) workload_zero)
     else Ok workload_zero) in
  let total := if idx =? BeIndex then set_bps beRcv beSnd workload_zero
               else set_bps (fsub rcv beRcv) (fsub snd beSnd) workload_zero in
  Ok (mkNetBw reqs (NetAllocBw nbw ++ [alc]) (NetTotalBw nbw ++ [total])).

(** The pods of a group in the metrics: the requests, then copies of the
    limits. *)
Definition metric_pod (idx : Z) (wlg : WorkloadGroup) (m : PodInfos) (podId : string)
    (w : option Workload) : PodInfos :=
  <[podId := mkPodInfo (default EmptyString (wg_PodName wlg !! podId)) (IndexToType idx) w]> m.
Definition net_metrics_pods (idx : Z) (wlg : WorkloadGroup) (reqs lims : PodInfos)
    : outcome (PodInfos * PodInfos) :=
  let reqs := foldl (λ m kv, metric_pod idx wlg m kv.1 kv.2) reqs (range (RequestPods wlg)) in
  let! lims := foldM (λ m kv,
    let! po := deref kv.2 in
    Ok (metric_pod idx wlg m kv.1 (Some (set_bps (InBps po) (OutBps po) workload_zero))))
    lims (range (LimitPods wlg)) in
  Ok (reqs, lims).

Fixpoint net_metrics_groups (snd rcv beSnd beRcv : f64) (idx : Z) (nbw : NetBw)
    (reqs lims : PodInfos) (groups : list WorkloadGroup) : outcome (NetBw * PodInfos * PodInfos) :=
  match groups with
  | [] => Ok (nbw, reqs, lims)
  | wlg :: rest =>
      let! nbw := net_metrics_group snd rcv beSnd beRcv nbw idx wlg in
      let! '(reqs, lims) := net_metrics_pods idx wlg reqs lims in
      net_metrics_groups snd rcv beSnd beRcv (idx + 1) nbw reqs lims rest
  end.

(** One NIC. *)
Definition net_metrics_nic (n : Net) (acc : NetBw * gmap string PodInfos * gmap string PodInfos)
    (kv : string * ANicInfo) : outcome (NetBw * gmap string PodInfos * gmap string PodInfos) :=
  let ratio := fdiv (of_Z (match ResourceConfig (IOInfo n) !! NetworkIO_config with
                           | Some rc => BEPool rc | None => 0 end)) (of_Z 100) in
  let '(nbw, reqBw, limBw) := acc in
  let '(nid, nic) := kv in
  let! '(nbw, reqs, lims) :=
    net_metrics_groups (SndGroupBPS nic) (RcvGroupBPS nic) (fmul ratio (SndGroupBPS nic))
      (fmul ratio (RcvGroupBPS nic)) 0 nbw ∅ ∅ (default [] (WgDevices n !! nid)) in
  let! _ := match Cache (EngineCache n) !! NodeName n with
            | Some _ => Ok () | None => Crash NilMapWrite end in
  Ok (nbw, <[an_Name nic := reqs]> reqBw, <[an_Name nic := lims]> limBw).

(** The variable [nbw] is shared by all NICs: every NIC's entry of the cache
    points to it. *)
Definition UpdateNetMetrics (n : Net) : outcome Net :=
  let! '(nbw, reqBw, limBw) :=
    foldM (net_metrics_nic n) (mkNetBw [] [] [], ∅, ∅) (range (NicInfos n)) in
  let nics := foldl (λ m kv, <[an_Name kv.2 := nbw]> m)
                (default ∅ (Cache (EngineCache n) !! NodeName n)) (range (NicInfos n)) in
  let cache := if (size (NicInfos n) =? 0)%nat then Cache (EngineCache n)
               else <[NodeName n := nics]> (Cache (EngineCache n)) in
  let! pb := deref (PodCache (EngineCache n) !! NodeName n) in
  let ec := mkMetric cache
              (<[NodeName n := mkPodBw reqBw limBw (PodTranBw pb)]> (PodCache (EngineCache n))) in
  let! mc := UpdateCache ec in
  Ok (set_metrics ec mc n).

(** ** Allocation of a NIC *)

(** SetLimit's minima are those of a disk's limit, which a NIC does not use. *)
Definition no_mins : MinBw := mkMinBw fzero fzero.

(** What is left of a NIC, per group: sending, receiving.  The pressures are
    never set. *)
Record alloc := mkAlloc2 { al_Send : list f64; al_Recv : list f64 }.
Definition calNicAllocatable (nicId : string) (n : Net) : outcome (option alloc * Net) :=
  match NicInfos n !! nicId, WgDevices n !! nicId with
  | Some nic, Some groups =>
      let ratio := fdiv (of_Z (BEPool (resourceConfig n))) (of_Z 100) in
      let beSnd := fmul ratio (SndGroupBPS nic) in
      let beRcv := fmul ratio (RcvGroupBPS nic) in
      let! gaG := index groups GaIndex in
      let! ga := CalculateGroupBw (RequestPods gaG) in
      let! btG := index groups BtIndex in
      let! bt := CalculateGroupBw (RequestPods btG) in
      let gaIn := fsub (fsub (fsub (RcvGroupBPS nic) beRcv) (InBps ga)) (InBps bt) in
      let gaOut := fsub (fsub (fsub (SndGroupBPS nic) beSnd) (OutBps ga)) (OutBps bt) in
      let! _ := index groups BeIndex in
      let! btActual := CalculateGroupBw (ActualPods btG) in
      let dev := mkDevInfo nicId (an_Name nic) "NIC" (an_Name nic) in
      let! '(groups, msgs) :=
        set_limits no_mins (GpPolicy n) dev 0
          (expectations (RcvGroupBPS nic) (SndGroupBPS nic) ga bt btActual gaIn gaOut) groups in
      Ok (Some (mkAlloc2 [gaOut; gaOut; beSnd] [gaIn; gaIn; beRcv]),
          send msgs (set_WgDevices (<[nicId := groups]> (WgDevices n)) n))
  | _, _ => Ok (None, n)
  end.

(** The entry of a NIC in the report. *)
Definition nic_report (nic : ANicInfo) (a : alloc) : outcome DeviceBandwidthInfo :=
  let status i :=
    let! r := index (al_Recv a) i in
    let! s := index (al_Send a) i in
    Ok (mkIOStatus (fadd r s) r s fzero "") in
  let! ga := status GaIndex in
  let! be := status BeIndex in
  Ok (mkDevBw (an_Name nic) {["GA" := ga; "BE" := be]}).

(** The map of the report is made anew for each NIC: the last one of the
    range is in it, alone. *)
Definition updateLocalNodeNICStatusIOInfo (n : Net) : outcome (Net * option error) :=
  let gen := NetObservedGeneration n in
  let! '(netIO, n) := foldM (λ acc kv,
    let '(_, n) := acc in
    let! '(a, n) := calNicAllocatable kv.1 n in
    let! n := UpdateNetMetrics n in
    match a with
    | None => Crash OutOfRange
    | Some a => let! r := nic_report kv.2 a in Ok (mkIOBw IOType_NetworkIO {[kv.1 := r]}, n)
    end) (mkIOBw IOType_All ∅, n) (range (NicInfos n)) in
  let '(c, err) := agent_UpdateNodeIOStatus rpc_UpdateNodeIOStatus (NodeName n) netIO gen
                     (ne_client n) in
  Ok (set_outside (ne_kube n) c (IoiClient n) n, err).

(** ** Registration of pods *)

(** GetPodGroup: the group of the last device and index that has the pod. *)
Definition GetPodGroup (podId : string) (n : Net) : outcome string :=
  foldM (λ group kv,
    foldM (λ group gi,
      let! wg := index kv.2 gi in
      Ok (if negb (wg_WorkloadType wg =? -1) && bool_decide (is_Some (RequestPods wg !! podId))
          then pretty gi else group)) group [GaIndex; BtIndex; BeIndex])
    EmptyString (range (WgDevices n)).

(** One pod of RegisterPod: an operation is carried out once the runtime and
    the scheduler both ask for it. *)
Definition register_pod (n : Net) (kv : string * PodRegInfo) : outcome Net :=
  let '(podId, p) := kv in
  if String.eqb (Group p) "" then Ok n
  else if String.eqb (Ns p) "" then Ok n
  else if String.eqb (CgroupPath p) "" then Ok n
  else if (length (devIds p) =? 0)%nat then Ok n
  else
    let op := Z.land (NriOperation p) (CrOperation p) in
    if op =? 0 then Ok n
    else
      let asks b := Z.land op b =? b in
      let p' := mkReg (Z.lxor op (NriOperation p)) (Ns p) (CgroupPath p)
                  (Z.lxor op (CrOperation p)) (devIds p) (Group p) in
      let n := set_podRegInfos (if asks StopPod then delete podId (podRegInfos n)
                                else <[podId := p']> (podRegInfos n)) n in
      let n := if asks RunPod
               then send [IOIRegisterNet podId (Group p) (Ns p) (NodeIps n) (CgroupPath p)] n
               else n in
      let n := if asks StopPod then send [IOIUnRegisterNet podId] n else n in
      let! '(n, _) := updateLocalNodeNICStatusIOInfo n in Ok n.
Definition RegisterPod (n : Net) : outcome Net := foldM register_pod n (range (podRegInfos n)).

(** ** Event functions *)

(** The path of the last network namespace. *)
Definition net_namespace (l : list (string * string)) : string :=
  foldl (λ ns tp, if String.eqb tp.1 "network" then tp.2 else ns) EmptyString l.
Definition reg_nri (podInfo : PodRunInfo) (p : option PodRegInfo) : PodRegInfo :=
  let netNs := net_namespace (NetNamespace podInfo) in
  let cgroupPath := podPrefix +:+ CGroupPath podInfo in
  match p with
  | None => mkReg (Operation podInfo) netNs cgroupPath 0 [] EmptyString
  | Some p => mkReg (Z.lor (NriOperation p) (Operation podInfo))
                (if String.eqb netNs "" then Ns p else netNs) cgroupPath
                (CrOperation p) (devIds p) (Group p)
  end.
(** The pods are registered after each pod of the event. *)
Definition ProcessNriData (data : PodData) (n : Net) : outcome Net :=
  foldM (λ n kv,
    let '(podId, podInfo) := kv in
    if decide (ri_Namespace podInfo ∈ NSWhitelist n) then Ok n
    else RegisterPod (set_podRegInfos (<[podId := reg_nri podInfo (podRegInfos n !! podId)]>
                                         (podRegInfos n)) n))
    n (range (default ∅ (PodEvents data !! "dev"))).

(** What the metrics show of a measured pod. *)
Definition real_bw (groups : list WorkloadGroup) (podId : string) (a : option Workload) : PodInfo :=
  foldl (λ rif wg,
    match RequestPods wg !! podId with
    | Some (Some _) => mkPodInfo (default EmptyString (wg_PodName wg !! podId))
                         (IndexToType (wg_WorkloadType wg)) a
    | _ => rif
    end) (mkPodInfo EmptyString EmptyString None) groups.
Definition pods_real_bw (data : PodData) (n : Net) : gmap string PodInfos :=
  foldl (λ m kv,
    let podRealBw : PodInfos := foldl (λ m ki,
      let rif := real_bw (default [] (WgDevices n !! kv.1)) ki.1 (ri_Actual ki.2) in
      <[pi_PodName rif := rif]> m) ∅ (range kv.2) in
    match NicInfos n !! kv.1 with
    | Some nic => <[an_Name nic := podRealBw]> m
    | None => m
    end) ∅ (range (PodEvents data)).

Definition ProcessNicIOData (data : PodData) (n : Net) : outcome Net :=
  let! n := foldM (λ n kv,
    let '(nicId, nicInfo) := kv in
    foldM (λ n ki,
      let! _ := deref (ri_Actual ki.2) in
      let n := set_WgDevices (alter (map (set_actual ki.1 (ri_Actual ki.2))) nicId (WgDevices n)) n in
      let! '(_, n) := calNicAllocatable nicId n in Ok n) n (range nicInfo)) n (range (PodEvents data)) in
  let real := pods_real_bw data n in
  let! pb := deref (PodCache (EngineCache n) !! NodeName n) in
  let ec := mkMetric (Cache (EngineCache n))
              (<[NodeName n := mkPodBw (PodRequestBw pb) (PodLimitBw pb) real]>
                 (PodCache (EngineCache n))) in
  UpdateNetMetrics (set_metrics ec (MetricCache n) n).

(** The pod in the group of its workload type. *)
Definition set_pod (podId : string) (i : PodRunInfo) (w : WorkloadGroup) : WorkloadGroup :=
  mkGroup (<[podId := ri_Limit i]> (LimitPods w)) (ActualPods w)
    (<[podId := ri_Request i]> (RequestPods w)) (PodsLimitSet w)
    (wg_RawRequest w) (wg_RawLimit w)
    (<[podId := ri_PodName i]> (wg_PodName w)) (GroupLimit w) (wg_IoType w) (GroupSettable w)
    (ri_WorkloadType i).
Definition reg_cr (nicId : string) (i : PodRunInfo) (p : option PodRegInfo) : PodRegInfo :=
  match p with
  | None => mkReg 0 EmptyString EmptyString (Operation i) [nicId] (pretty (ri_WorkloadType i))
  | Some p => mkReg (NriOperation p) (Ns p) (CgroupPath p) (Z.lor (CrOperation p) (Operation i))
                (devIds p ++ [nicId]) (pretty (ri_WorkloadType i))
  end.
Definition cr_pod (nicId : string) (acc : Net * gset string) (kv : string * PodRunInfo)
    : outcome (Net * gset string) :=
  let '(n, visited) := acc in
  let '(podId, i) := kv in
  if String.eqb (ri_PodName i) "" then Ok (n, visited)
  else
    let groups := default [] (WgDevices n !! nicId) in
    let! w := index groups (ri_WorkloadType i) in
    let groups := <[Z.to_nat (ri_WorkloadType i) := set_pod podId i w]> groups in
    let n := set_WgDevices (<[nicId := groups]> (WgDevices n)) n in
    let n := set_podRegInfos (<[podId := reg_cr nicId i (podRegInfos n !! podId)]> (podRegInfos n)) n in
    Ok (n, {[podId]} ∪ visited).

Definition set_CrOperation v (p : PodRegInfo) : PodRegInfo :=
  mkReg (NriOperation p) (Ns p) (CgroupPath p) v (devIds p) (Group p).
Definition ProcessNetworkCrData (data : PodData) (n : Net) : outcome Net :=
  let n := set_NetObservedGeneration (pdata_Generation data) n in
  let! '(n, visited) := foldM (λ acc kv,
    match WgDevices acc.1 !! kv.1 with
    | None => Ok acc
    | Some _ => foldM (cr_pod kv.1) acc (range kv.2)
    end) (n, ∅) (range (PodEvents data)) in
  let! wgs := foldM (λ m kv,
    let! groups := clean_groups visited kv.2 in Ok (<[kv.1 := groups]> m))
    (WgDevices n) (range (WgDevices n)) in
  let n := set_WgDevices wgs n in
  let mark podId p :=
    set_CrOperation (Z.lor (CrOperation p) (if decide (podId ∈ visited) then RunPod else StopPod)) p in
  let n := set_podRegInfos (map_imap (λ podId p, Some (mark podId p)) (podRegInfos n)) n in
  RegisterPod n.

Definition new_group (i : Z) : WorkloadGroup :=
  mkGroup ∅ ∅ ∅ ∅ ∅ ∅ ∅ (Some workload_zero) NetWorkloadType false i.

(** What the loop of ProcessProfile assigns: the devices, NicInfos, NodeIps,
    the groups and the master NIC. *)
Record profiling := mkProfiling {
  pf_Devices : gmap string Device; pf_Nics : gmap string ANicInfo; pf_Ips : list NodeIP;
  pf_Groups : gmap string (list WorkloadGroup); masterNic : ANicInfo
}.
Definition nic_zero : ANicInfo := mkANic "" "" "" "" fzero fzero fzero 0 false.
Definition set_group_bps (x : f64) (i : ANicInfo) : ANicInfo :=
  mkANic (an_Name i) (Macaddr i) (IpAddr i) (an_Type i) (an_TotalBPS i) x x (QueueNum i)
    (an_GroupSettable i).
Definition profile_nic (n : Net) (a : profiling) (kv : string * ANicInfo) : profiling :=
  let '(nicId, nicInfo) := kv in
  let avail := fmul (an_TotalBPS nicInfo) (fdiv (fsub (of_Z 100) (of_Z (sysPool n))) (of_Z 100)) in
  let is_master := String.eqb (an_Type nicInfo) "masterNic" in
  let nic := set_group_bps avail nicInfo in
  let device := mkDevice (an_Name nicInfo) (if is_master then DefaultDevice else OtherDevice)
    (MinPodNetInBw n) (MinPodNetOutBw n) ∅ ∅ avail avail (fadd avail avail) "" "" in
  mkProfiling (<[nicId := device]> (pf_Devices a))
    (if is_master then <[nicId := nic]> (pf_Nics a) else pf_Nics a)
    (if is_master then pf_Ips a ++ [mkNodeIP (an_Name nic) (IpAddr nic) nicId (an_Type nic)]
     else pf_Ips a)
    (match pf_Groups a !! nicId with
     | Some _ => pf_Groups a
     | None => <[nicId := map new_group [GaIndex; BtIndex; BeIndex]]> (pf_Groups a)
     end)
    (if is_master then nic else masterNic a).

(** The groups that the service is to make. *)
Definition group_queue (QueueNum : Z) : Z :=
  if 0 <? QueueNum then
    let h := Z.quot (sub64 QueueNum 2) 2 in sub64 h (Z.rem h 2)
  else 0.
Definition net_groups (bePool : Z) (nic : ANicInfo) : list NetGroup :=
  let pool := to_int64 (SndGroupBPS nic) in
  let q := group_queue (QueueNum nic) in
  [mkNetGroup "0" 0 pool q; mkNetGroup "1" 1 pool q;
   mkNetGroup "2" 2 (wrap64 (Z.quot (mul64 bePool pool) 100)) q].

(** [WgDevices[nicId][index].GroupSettable = set.GroupSettable] *)
Definition set_settable (v : bool) (w : WorkloadGroup) : WorkloadGroup :=
  mkGroup (LimitPods w) (ActualPods w) (RequestPods w) (PodsLimitSet w) (wg_RawRequest w)
    (wg_RawLimit w) (wg_PodName w) (GroupLimit w) (wg_IoType w) v (wg_WorkloadType w).
Fixpoint take_settable (l : list SettableInfo) (groups : list WorkloadGroup)
    : outcome (list WorkloadGroup) :=
  match l, groups with
  | [], _ => Ok groups
  | _ :: _, [] => Crash OutOfRange
  | s :: l, w :: groups =>
      let! groups := take_settable l groups in Ok (set_settable (si_GroupSettable s) w :: groups)
  end.
Definition set_groups_settable (l : list SettableInfo) (n : Net) : outcome Net :=
  foldM (λ n kv,
    let! groups := take_settable l (default [] (WgDevices n !! kv.1)) in
    Ok (if (length l =? 0)%nat then n
        else set_WgDevices (<[kv.1 := groups]> (WgDevices n)) n)) n (range (NicInfos n)).

Section Handlers.
Variable SetFlag : Z → GoM Net ().

(** The service is configured only when the configuration could be published
    (or was not to be published yet). *)
Definition ProcessProfile (data : AllProfile) : GoM Net (option error) := λ n,
  if DeepEqual_nics (ne_Profile n) (NProfile data) then Ok (None, n)
  else
    let profile := NProfile data in
    let a := foldl (profile_nic n) (mkProfiling ∅ (NicInfos n) (NodeIps n) (WgDevices n) nic_zero)
               (range profile) in
    let rc := resourceConfig n in
    let n := set_profile profile
               (mkRC (BEPool rc) (GAPool rc) (BTPool rc) (pf_Devices a) (Classes rc))
               (pf_Nics a) (pf_Ips a) (pf_Groups a) n in
    let! '(_, n) := SetFlag ProfileFlag n in
    let '(n, err) := publish_config n in
    match err with
    | Some e => Ok (Some e, n)
    | None =>
        let! '(settable, n) := IOIConfigureNet CNI GATEWAY (NodeIps n)
                                 (net_groups (BEPool (resourceConfig n)) (masterNic a)) n in
        let! n := set_groups_settable settable n in Ok (None, n)
    end.

Definition ProcessPolicy (data : gmap string Policy) : GoM Net (option error) := λ n,
  let put key i (l : list (option Policy)) :=
    match data !! key with Some p => <[Z.to_nat i := Some p]> l | None => l end in
  let n := set_GpPolicy (put "NetBErules" BeIndex (put "NetBTrules" BtIndex
                           (put "NetGArules" GaIndex (GpPolicy n)))) n in
  match data !! "NetGArules", data !! "NetBTrules", data !! "NetBErules" with
  | Some _, Some _, Some _ =>
      let! '(_, n) := SetFlag PolicyFlag n in
      let '(n, err) := publish_config n in Ok (err, n)
  | _, _, _ => Ok (None, n)
  end.

Definition ProcessAdmin (data : AdminResourceConfig) : GoM Net (option error) := λ n,
  let n := send [Configure "INTERVAL" (marshal_interval (NetInterval (Interval data))) NetIOIType] n in
  let rc := resourceConfig n in
  let n := set_admin (mkRC (NetBePool data) (GAPool rc) (BTPool rc) (Devices rc) (Classes rc))
             (NetSysPool data) (of_Z (Net_min_pod_in_bw data)) (of_Z (Net_min_pod_out_bw data))
             (NamespaceWhitelist data) n in
  let! '(_, n) := SetFlag AdminFlag n in
  let '(n, err) := publish_config n in Ok (err, n).

(** [Crash NilDeref] for data of another type: the type assertion panics. *)
Definition run_net (h : net_handler) (data : EventData) : GoM Net (option error) := λ n,
  let done o := let! n := o in Ok (None, n) in
  match h, data with
  | ProcessAdmin_f, EvAdmin a => ProcessAdmin a n
  | ProcessProfile_f, EvProfile p => ProcessProfile p n
  | ProcessPolicy_f, EvPolicy p => ProcessPolicy p n
  | ProcessNriData_f, EvPod p => done (ProcessNriData p n)
  | ProcessNicIOData_f, EvPod p => done (ProcessNicIOData p n)
  | ProcessNetworkCrData_f, EvPod p => done (ProcessNetworkCrData p n)
  | _, _ => Crash NilDeref
  end.
End Handlers.

(** ** Initialize: the channels' handles, and the state of a new engine *)

Definition AdminChan_handles : list (EventHandle net_handler) :=
  [mkHandle false "Admin" ProcessAdmin_f].
Definition ProfileChan_handles : list (EventHandle net_handler) :=
  [mkHandle true "PROF_NET" ProcessProfile_f].
Definition PolicyChan_handles : list (EventHandle net_handler) :=
  [mkHandle false "Policy" ProcessPolicy_f].
Definition PodInfoChan_handles : list (EventHandle net_handler) :=
  [mkHandle true "NRI" ProcessNriData_f; mkHandle true "Network" ProcessNicIOData_f;
   mkHandle true "Network_CR" ProcessNetworkCrData_f].

Definition Initialize (io : NodeStaticIOInfo) (k : K) (c : option C) (v : option V) : Net :=
  let name := nsi_NodeName io in
  mkNet (mkEngine 0 all_flags [] []) name ∅ [None; None; None] ∅ ∅ 20 (mkRC 0 0 0 ∅ []) ∅ ∅ [] 0
    (of_Z 5) (of_Z 5) (mkMetric {[name := ∅]} {[name := mkPodBw ∅ ∅ ∅]}) (mkMetric ∅ ∅) io [] k c v.
End NetEngine.
Arguments Net {Q} K C V.
