(* ===== verification/AgentRdt.v ===== *)
(** * pkg/agent/rdt and pkg/agent/rdtQuantity: the rdt engines of the node agent

    The two engine.go, common/rdt.go and common/rdtQuantity.go.  The engines
    register containers with the I/O service, publish the classes it reports,
    and send their scores to the aggregator.  The state of the two has the
    same fields; the definitions of the quantity engine are named [rdtq_]. *)

From S2P Require Export AgentLimit RDTQuantity.

Definition RDT_config : string := "RDT".
Definition RDTQuantity_config : string := "RDTQuantity".

(** encoding/json on utils.RDTAppInfo *)
Class RdtAgentJson := { marshal_rdt_info : RDTAppInfo → string }.

(** The event functions that each engine registers. *)
Inductive rdt_handler :=
| ProcessAdmin_f | ProcessRDTData_f | ProcessNriData_f | ProcessRDTCrData_f.

Section RdtEngines.
Context `{Q : QuantityLib} `{!GoRange} `{!AgentLib} `{!JsonLib} `{!RdtAgentJson}.
Context {K C : Type} `{!StaticClient K} `{!AggrClient C}.

(** ** State *)

(** The engine with the observed generation (a package variable), the agent's
    IOInfo, what was sent to the service, the API server and the connection to
    the aggregator. *)
Record Rdt := mkRdt {
  rd_eng : IOEngine rdt_handler;
  NodeName : string;
  NSWhitelist : gset string;
  resourceConfig : ResourceConfigSpec;
  classInfos : gmap string f64;
  RDTObservedGeneration : Z;
  IOInfo : NodeStaticIOInfo;
  ClientHandlerChan : list service_msg;
  rd_kube : K;
  rd_client : option C
}.
Definition set_rd_eng v (r : Rdt) : Rdt :=
  mkRdt v (NodeName r) (NSWhitelist r) (resourceConfig r) (classInfos r) (RDTObservedGeneration r)
    (IOInfo r) (ClientHandlerChan r) (rd_kube r) (rd_client r).
Definition set_NSWhitelist v (r : Rdt) : Rdt :=
  mkRdt (rd_eng r) (NodeName r) v (resourceConfig r) (classInfos r) (RDTObservedGeneration r)
    (IOInfo r) (ClientHandlerChan r) (rd_kube r) (rd_client r).
Definition set_classes rc infos (r : Rdt) : Rdt :=
  mkRdt (rd_eng r) (NodeName r) (NSWhitelist r) rc infos (RDTObservedGeneration r)
    (IOInfo r) (ClientHandlerChan r) (rd_kube r) (rd_client r).
Definition set_RDTObservedGeneration v (r : Rdt) : Rdt :=
  mkRdt (rd_eng r) (NodeName r) (NSWhitelist r) (resourceConfig r) (classInfos r) v
    (IOInfo r) (ClientHandlerChan r) (rd_kube r) (rd_client r).
Definition send (l : list service_msg) (r : Rdt) : Rdt :=
  mkRdt (rd_eng r) (NodeName r) (NSWhitelist r) (resourceConfig r) (classInfos r)
    (RDTObservedGeneration r) (IOInfo r) (ClientHandlerChan r ++ l) (rd_kube r) (rd_client r).
Definition set_outside io k c (r : Rdt) : Rdt :=
  mkRdt (rd_eng r) (NodeName r) (NSWhitelist r) (resourceConfig r) (classInfos r)
    (RDTObservedGeneration r) io (ClientHandlerChan r) k c.

(** ** common/rdt.go and common/rdtQuantity.go *)

Definition no_quantities : RDTClassInfo := mkClassInfo fzero fzero fzero fzero.

Definition IOIRegisterRDT (c : ContainerInfo) : service_msg :=
  RegisterApp (ContainerId c)
    (marshal_rdt_info (mkRdtApp (ContainerName c) (ContainerCGroupPath c) (RDTAnnotation c) "" ""
                         no_quantities)) RDTIOIType.
Definition IOIUnRegisterRDT (c : ContainerInfo) : service_msg :=
  UnRegisterApp (ContainerId c) RDTIOIType.

(** The class and the limits that an annotation gets; an incomplete one stays
    as it is. *)
Definition fill_anno (podName : string) (anno : RDTAnnotationResource) : RDTAnnotationResource :=
  let class := if String.eqb (ra_Class anno) "" then podName else ra_Class anno in
  let rq := ra_Requests anno in
  let lm := ra_Limits anno in
  let unset x := String.eqb x "" in
  if unset (anno_L3 rq) && unset (anno_Mb rq) && unset (anno_L3 lm) && unset (anno_Mb lm) then
    mkRDTAnno rq lm "BE"
  else if unset (anno_L3 rq) || unset (anno_Mb rq) then mkRDTAnno rq lm class
  else
    mkRDTAnno rq
      (mkRDTRes (if unset (anno_L3 lm) then anno_L3 rq else anno_L3 lm)
                (if unset (anno_Mb lm) then anno_Mb rq else anno_Mb lm)) class.

(** A value that does not parse is zero.  The request of L3 cache is parsed
    into the field of the limit, which the limit then overwrites. *)
Definition parsed (x : f64 + error) : f64 := match x with inl v => v | inr _ => fzero end.
Definition class_info (anno : RDTAnnotationResource) : RDTClassInfo :=
  let info := no_quantities in
  let info := mkClassInfo (L3CacheReq info) (parsed (L3_Parse (anno_L3 (ra_Requests anno))))
                (MbaReq info) (MbaLim info) in
  let info := mkClassInfo (L3CacheReq info) (parsed (L3_Parse (anno_L3 (ra_Limits anno))))
                (MbaReq info) (MbaLim info) in
  mkClassInfo (L3CacheReq info) (L3CacheLim info) (parsed (Mb_Parse (anno_Mb (ra_Requests anno))))
    (parsed (Mb_Parse (anno_Mb (ra_Limits anno)))).
(** Nothing is sent for an annotation that is not JSON. *)
Definition IOIRegisterRDTQuantity (c : ContainerInfo) : list service_msg :=
  let message class info :=
    RegisterApp (ContainerId c)
      (marshal_rdt_info (mkRdtApp (ContainerName c) (ContainerCGroupPath c) class (ct_PodUid c)
                           (ct_PodName c) info)) RDTQuantityIOIType in
  if String.eqb (RDTQuantityAnnotation c) "" then [message EmptyString no_quantities]
  else
    match unmarshal_rdtq (RDTQuantityAnnotation c) with
    | (_, false) => []
    | (anno, true) =>
        let anno := fill_anno (ct_PodName c) anno in [message (ra_Class anno) (class_info anno)]
    end.
Definition IOIUnRegisterRDTQuantity (c : ContainerInfo) : service_msg :=
  UnRegisterApp (ContainerId c) RDTQuantityIOIType.

(** A message of the streams IOISubscribeRDT and IOISubscribeRDTQuantity; a
    message without a payload for rdt is dereferenced. *)
Definition IOISubscribeRDT_round (RdtInfo : option (gmap string f64)) : outcome EventData :=
  let! info := deref RdtInfo in Ok (EvClass (mkClassData 0 info)).
Definition IOISubscribeRDTQuantity_round (RdtInfo : option (gmap string f64)) : outcome EventData :=
  let! info := deref RdtInfo in Ok (EvClass (mkClassData 1 info)).

(** ** Event functions *)

Definition container_messages (register : ContainerInfo → list service_msg)
    (unregister : ContainerInfo → service_msg) (white : gset string) (c : ContainerInfo)
    : list service_msg :=
  if decide (ct_Namespace c ∈ white) then []
  else if ct_Operation c =? StartContainer then register c
  else if ct_Operation c =? StopContainer then [unregister c]
  else [].
Definition process_containers register unregister (data : ContainerData) (r : Rdt) : Rdt :=
  foldl (λ r kv, send (container_messages register unregister (NSWhitelist r) kv.2) r) r
    (range (ContainerInfos data)).
Definition ProcessNriData : ContainerData → Rdt → Rdt :=
  process_containers (λ c, [IOIRegisterRDT c]) IOIUnRegisterRDT.
Definition rdtq_ProcessNriData : ContainerData → Rdt → Rdt :=
  process_containers IOIRegisterRDTQuantity IOIUnRegisterRDTQuantity.

(** The classes become the devices of the configuration, which is published;
    then their scores are reported, as pressures. *)
Definition class_scores (infos : gmap string f64) : gmap string DeviceBandwidthInfo :=
  (λ score, mkDevBw "" {["GA" := mkIOStatus fzero fzero fzero score ""]}) <$> infos.
Definition publish (config : string) (r : Rdt) : Rdt * option error :=
  let c := IOInfo r in
  let c := mkNSI (nsi_NodeName c) (<[config := resourceConfig r]> (ResourceConfig c)) (EndPoint c)
             (DeviceStates c) in
  let '(k, err) := UpdateNodeStaticIOInfoSpec (nsi_NodeName c +:+ NodeStaticInfoSuffix) c (rd_kube r) in
  (set_outside c k (rd_client r) r, match err with Some e => Some (kerr_msg e) | None => None end).
Definition process_classes (config : string) (t : IOType) (data : ClassData) (r : Rdt)
    : Rdt * option error :=
  let rc := resourceConfig r in
  let r := set_classes (mkRC (BEPool rc) (GAPool rc) (BTPool rc)
                          ((λ _, device_zero) <$> ClassInfos data) (Classes rc)) (ClassInfos data) r in
  let gen := RDTObservedGeneration r in
  match publish config r with
  | (r, Some e) => (r, Some e)
  | (r, None) =>
      let '(c, _) := agent_UpdateNodeIOStatus rpc_UpdateNodeIOStatus (NodeName r)
                       (mkIOBw t (class_scores (ClassInfos data))) gen (rd_client r) in
      (set_outside (IOInfo r) (rd_kube r) c r, None)
  end.
Definition ProcessRDTData : ClassData → Rdt → Rdt * option error :=
  process_classes RDT_config IOType_RDT.
Definition ProcessRDTQuantityData : ClassData → Rdt → Rdt * option error :=
  process_classes RDTQuantity_config IOType_RDTQuantity.

Definition ProcessRDTCrData (data : PodData) (r : Rdt) : Rdt :=
  set_RDTObservedGeneration (pdata_Generation data) r.

Section Handlers.
Variable SetFlag : Z → GoM Rdt ().

(** The engines need no policies and no profile: ProcessAdmin sets all flags. *)
Definition raise_flags : GoM Rdt () :=
  let* _ := SetFlag AdminFlag in
  let* _ := SetFlag PolicyFlag in
  SetFlag ProfileFlag.
Definition ProcessAdmin (data : AdminResourceConfig) : GoM Rdt (option error) := λ r,
  let r := send [Configure "INTERVAL" (marshal_interval (RdtInterval (Interval data))) RDTIOIType] r in
  let! '(_, r) := raise_flags (set_NSWhitelist (NamespaceWhitelist data) r) in
  Ok (None, r).
Definition rdtq_ProcessAdmin (data : AdminResourceConfig) : GoM Rdt (option error) := λ r,
  let! '(_, r) := raise_flags (set_NSWhitelist (NamespaceWhitelist data) r) in
  if IsExecution (rd_eng r) then
    let '(r, err) := publish RDTQuantity_config r in Ok (err, r)
  else Ok (None, r).

(** [Crash NilDeref] for data of another type: the type assertion panics. *)
Definition run_with (admin : AdminResourceConfig → GoM Rdt (option error))
    (classes : ClassData → Rdt → Rdt * option error) (nri : ContainerData → Rdt → Rdt)
    (h : rdt_handler) (data : EventData) : GoM Rdt (option error) := λ r,
  match h, data with
  | ProcessAdmin_f, EvAdmin a => admin a r
  | ProcessRDTData_f, EvClass c => let '(r, err) := classes c r in Ok (err, r)
  | ProcessNriData_f, EvContainer c => Ok (None, nri c r)
  | ProcessRDTCrData_f, EvPod p => Ok (None, ProcessRDTCrData p r)
  | _, _ => Crash NilDeref
  end.
Definition run_rdt := run_with ProcessAdmin ProcessRDTData ProcessNriData.
Definition run_rdtq := run_with rdtq_ProcessAdmin ProcessRDTQuantityData rdtq_ProcessNriData.
End Handlers.

(** ** Initialize: the handles per channel, and the state of a new engine *)

Definition AdminChan_handles : list (EventHandle rdt_handler) :=
  [mkHandle false "Admin" ProcessAdmin_f].
Definition ContainerInfoChan_handles : list (EventHandle rdt_handler) :=
  [mkHandle true "NRI" ProcessNriData_f].
Definition rdt_ClassInfoChan_handles : list (EventHandle rdt_handler) :=
  [mkHandle true "RDT" ProcessRDTData_f].
Definition rdt_PodInfoChan_handles : list (EventHandle rdt_handler) :=
  [mkHandle true "RDT_CR" ProcessRDTCrData_f].
Definition rdtq_ClassInfoChan_handles : list (EventHandle rdt_handler) :=
  [mkHandle true "RDTQuantity" ProcessRDTData_f].
Definition rdtq_PodInfoChan_handles : list (EventHandle rdt_handler) :=
  [mkHandle true "RDT_Quantity_CR" ProcessRDTCrData_f].

Definition Initialize (io : NodeStaticIOInfo) (k : K) (c : option C) : Rdt :=
  mkRdt (mkEngine 0 all_flags [] []) (nsi_NodeName io) ∅ (mkRC 0 0 0 ∅ []) ∅ 0 io [] k c.
End RdtEngines.
Arguments Rdt {Q} K C.
