(* ===== verification/RdtConfig.v ===== *)
(** * pkg/service/rdt: cache bit masks

    config.go and info.go (a second copy of both is in rdtengine/policy):
    what the kernel says of the last-level cache, allocations as percentages,
    bit lists or hexadecimal masks, and the schemata written for a class.  A
    mask is a uint64.  Of an error's text the fixed part is kept. *)

From S2P Require Export Text.

(** ** math/bits *)

Fixpoint pos_ones (p : positive) : Z :=
  match p with xH => 1 | xO p => pos_ones p | xI p => 1 + pos_ones p end.
Definition OnesCount64 (z : Z) : Z := match z with Zpos p => pos_ones p | _ => 0 end.
Fixpoint pos_zeros (p : positive) : Z :=
  match p with xO p => 1 + pos_zeros p | _ => 0 end.
Definition TrailingZeros64 (z : Z) : Z := match z with Zpos p => pos_zeros p | _ => 64 end.
Definition Len64 (z : Z) : Z := if z =? 0 then 0 else Z.log2 z + 1.
Definition LeadingZeros64 (z : Z) : Z := 64 - Len64 z.

(** Shifts of a uint64 and of an int: bits that leave the word are lost. *)
Definition shl_u64 (x n : Z) : Z := u64 (Z.shiftl x n).
Definition shl_int (x n : Z) : Z := wrap64 (Z.shiftl x n).

(** ** What the system supports *)

Definition msbOne (b : Z) : Z := 63 - LeadingZeros64 b.
Definition lsbOne (b : Z) : Z := if b =? 0 then -1 else TrailingZeros64 b.

Record catInfo := mkCat { cbmMask_ : Z; minCbmBits_ : Z }.
Record catInfos := mkCats { cacheIds : list Z; unified : catInfo; code : catInfo; data : catInfo }.
Record rdtL3Info := mkL3 { resctrlPath : string; info : catInfos }.

Definition Supported (i : catInfo) : bool := negb (cbmMask_ i =? 0).
Definition getInfo (i : catInfos) : catInfo :=
  if Supported (code i) then code i else if Supported (data i) then data i else unified i.
Definition cbmMask (i : catInfos) : Z :=
  let mask := cbmMask_ (getInfo i) in if negb (mask =? 0) then mask else 2 ^ 64 - 1.
Definition minCbmBits (i : catInfos) : Z := minCbmBits_ (getInfo i).

Section Info.
Context `{!GoRange} {F : Type} `{!Files F}.

Definition readFileToString (f : F) (path : string) : string + error :=
  match ReadFile f path with inl s => inl (TrimSpace s) | inr e => inr e end.
Definition readFileToBitmask (f : F) (path : string) : Z + error :=
  match readFileToString f path with inl s => ParseUint s 16 64 | inr e => inr e end.
Definition readFileToUint64 (f : F) (path : string) : Z + error :=
  match readFileToString f path with inl s => ParseUint s 10 64 | inr e => inr e end.

Definition getCatInfo (f : F) (basepath : string) : catInfo + error :=
  match readFileToBitmask f (path_join [basepath; "cbm_mask"]) with
  | inr e => inr e
  | inl mask =>
      match readFileToUint64 f (path_join [basepath; "min_cbm_bits"]) with
      | inr e => inr e
      | inl n => inl (mkCat mask n)
      end
  end.

(** The second column of the first line whose third one is resctrl. *)
Fixpoint find_resctrl (l : list string) : string + error :=
  match l with
  | [] => inr "resctrl not found"
  | line :: l =>
      match str_split " "%char line with
      | _ :: path :: kind :: _ :: _ => if String.eqb kind "resctrl" then inl path else find_resctrl l
      | _ => find_resctrl l
      end
  end.
Definition mountInfoPath : string := "/proc/mounts".
Definition getResctrlMountInfo (f : F) : string + error :=
  match ReadFile f mountInfoPath with
  | inr e => inr e
  | inl s => find_resctrl (read_lines s)
  end.

(** The ids of one schema line, [k=mask] each. *)
Fixpoint schema_ids (l : list string) : list Z + error :=
  match l with
  | [] => inl []
  | v :: l =>
      match str_split "="%char v with
      | [k; _] =>
          match ParseUint k 10 64 with
          | inr e => inr "failed to parse cache id"
          | inl id => match schema_ids l with inl ids => inl (id :: ids) | inr e => inr e end
          end
      | _ => inr "looks like an invalid schema"
      end
  end.
Fixpoint find_ids (prefix : string) (lines : list string) : list Z + error :=
  match lines with
  | [] => inr "no resources in root schemata"
  | line :: lines =>
      match str_splitn2 ":"%char (TrimSpace line) with
      | [name; body] =>
          if String.prefix prefix name then schema_ids (str_split ";"%char body)
          else find_ids prefix lines
      | _ => find_ids prefix lines
      end
  end.
Definition getIds (f : F) (prefix path : string) : list Z + error :=
  match readFileToString f (path_join [path; "schemata"]) with
  | inr e => inr "failed to get root schemata"
  | inl str => find_ids prefix (str_split newline str)
  end.

(** One directory of info/: a missing one leaves the entry as it is. *)
Definition read_cat (f : F) (infoPath dir : string) (old : catInfo) : catInfo + error :=
  let path := path_join [infoPath; dir] in
  if present (Stat f path) then getCatInfo f path else inl old.
Definition getRdtL3Info (f : F) : outcome (rdtL3Info + error) :=
  match getResctrlMountInfo f with
  | inr e => Ok (inr "failed to detect resctrl mount info")
  | inl root =>
      let infoPath := path_join [root; "info"] in
      if negb (present (Stat f infoPath)) then Ok (inr "failed to get RDT info")
      else
        let none := mkCat 0 0 in
        let! c := for_range (range {["" := ""; "CODE" := "CODE"; "DATA" := "DATA"]})
          (mkCats [] none none none) (λ cat kv,
            let k := kv.1 in
            let old := if String.eqb k "" then unified cat
                       else if String.eqb k "CODE" then code cat else data cat in
            Ok (match read_cat f infoPath ("L3" +:+ k) old with
                | inr e => Return "failed to get info"
                | inl v => Next (if String.eqb k "" then mkCats [] v (code cat) (data cat)
                                 else if String.eqb k "CODE" then mkCats [] (unified cat) v (data cat)
                                 else mkCats [] (unified cat) (code cat) v)
                end)) in
        match c with
        | Return e => Ok (inr e)
        | Next cat =>
            if Supported (getInfo cat) then
              match getIds f "L3" root with
              | inr e => Ok (inr "failed to get cat cache IDs")
              | inl ids => Ok (inl (mkL3 root (mkCats ids (unified cat) (code cat) (data cat))))
              end
            else Ok (inl (mkL3 root cat))
        end
  end.
End Info.

(** ** Allocations *)

Inductive cacheAllocation :=
| catPercentageAllocation (a : Z)
| catPercentageRangeAllocation (lowRange highRange : Z)
| catAbsoluteAllocation (a : Z).

Definition verifyCatBaseMask (baseMask minBits : Z) : option error :=
  if baseMask =? 0 then Some "empty basemask not allowed"
  else
    let baseMaskWidth := msbOne baseMask - lsbOne baseMask + 1 in
    if negb (OnesCount64 baseMask =? baseMaskWidth)
    then Some "invalid basemask: more than one block of bits set"
    else if OnesCount64 baseMask <? minBits then Some "invalid basemask: fewer bits set"
    else None.

(** The bits [lsb..msb] of a block of [width], widened to [minBits] bits:
    first towards bit 0, then upwards.  All in uint64. *)
Definition widen (minBits width lsb msb : Z) : (Z * Z) + error :=
  let numBits := u64 (u64 (msb - lsb) + 1) in
  if numBits <? minBits then
    let gap := u64 (minBits - numBits) in
    let '(gap, lsb) := if lsb <? gap then (u64 (gap - lsb), 0) else (0, u64 (lsb - gap)) in
    let msbAvailable := u64 (u64 (width - msb) - 1) in
    if gap <=? msbAvailable then inl (lsb, u64 (msb + gap))
    else inr "not enough bits available for cache bitmask"
  else inl (lsb, msb).
(** The bits [lsb..msb] of the base mask; the constant 1 is an int. *)
Definition bits_between (lsb msb baseMask : Z) : Z :=
  let ones := wrap64 (shl_int 1 (u64 (u64 (msb - lsb) + 1)) - 1) in
  u64 (shl_int ones (u64 (lsb + u64 (lsbOne baseMask)))).
(** catPercentageRangeAllocation.Transform *)
Definition transform_range (lowRange highRange minBits baseMask : Z) : Z + error :=
  match verifyCatBaseMask baseMask minBits with
  | Some e => inr e
  | None =>
      let baseMaskNumBits := u64 (u64 (u64 (msbOne baseMask) - u64 (lsbOne baseMask)) + 1) in
      let l := if lowRange =? 0 then 1 else lowRange in
      let h := highRange in
      if (h <? l) || (100 <? h) || (100 <? l) then inr "invalid percentage range"
      else
        let lsb := u64 (u64 (l - 1) * baseMaskNumBits) / 100 in
        let msb := u64 (u64 (h - 1) * baseMaskNumBits) / 100 in
        match widen minBits baseMaskNumBits lsb msb with
        | inr e => inr e
        | inl (lsb, msb) => inl (bits_between lsb msb baseMask)
        end
  end.
Definition transform_absolute (a minBits baseMask : Z) : Z + error :=
  match verifyCatBaseMask baseMask minBits with
  | Some e => inr e
  | None =>
      let bmask := shl_u64 a (lsbOne baseMask) in
      if negb (Z.lor bmask baseMask =? baseMask) then inr "bitmask does not fit basemask"
      else inl bmask
  end.
Definition Transform (a : cacheAllocation) (minBits baseMask : Z) : Z + error :=
  match a with
  | catPercentageAllocation a => transform_range 0 a minBits baseMask
  | catPercentageRangeAllocation l h => transform_range l h minBits baseMask
  | catAbsoluteAllocation a => transform_absolute a minBits baseMask
  end.

(** ** Lists of numbers *)

(** One element [n] or [m-n] of listStringToArray. *)
Definition array_range (ran : string) : list Z + error :=
  let split := str_splitn2 "-"%char ran in
  match ParseInt (default EmptyString (split !! 0%nat)) 8 with
  | inr e => inr "invalid integer"
  | inl num =>
      match split !! 1%nat with
      | None => inl [num]
      | Some e =>
          match ParseInt e 8 with
          | inr e => inr "invalid integer in range"
          | inl endNum =>
              if endNum <=? num then inr "invalid integer range"
              else inl (seqZ num (endNum - num + 1))
          end
      end
  end.
Fixpoint array_ranges (l : list string) (a : list Z) : list Z + error :=
  match l with
  | [] => inl a
  | ran :: l => match array_range ran with inl r => array_ranges l (a ++ r) | inr e => inr e end
  end.
Definition listStringToArray (str : string) : list Z + error :=
  if (str_len str =? 0)%nat then inl []
  else match array_ranges (str_split ","%char str) [] with
       | inl a => inl (merge_sort Z.le a)
       | inr e => inr e
       end.

Definition mask_range (ran : string) (b : Z) : Z + error :=
  let split := str_splitn2 "-"%char ran in
  match ParseUint (default EmptyString (split !! 0%nat)) 10 6 with
  | inr e => inr "invalid bitmask"
  | inl beginNum =>
      match split !! 1%nat with
      | Some e =>
          match ParseUint e 10 6 with
          | inr e => inr "invalid bitmask"
          | inl endNum =>
              if endNum <=? beginNum then inr "invalid range in bitmask"
              else inl (Z.lor b (shl_u64 (u64 (shl_u64 1 (endNum - beginNum + 1) - 1)) beginNum))
          end
      | None => inl (Z.lor b (shl_u64 1 beginNum))
      end
  end.
Fixpoint mask_ranges (l : list string) (b : Z) : Z + error :=
  match l with
  | [] => inl b
  | ran :: l => match mask_range ran b with inl b => mask_ranges l b | inr e => inr e end
  end.
Definition listStringToBitmask (str : string) : Z + error :=
  if (str_len str =? 0)%nat then inl 0 else mask_ranges (str_split ","%char str) 0.

(** ** Allocations from text *)

Definition contiguous_check (value minBits : Z) : option error :=
  let numOnes := OnesCount64 value in
  if negb (numOnes =? Len64 value - TrailingZeros64 value)
  then Some "invalid cache bitmask: more than one continuous block of ones"
  else if numOnes <? minBits then Some "invalid cache bitmask: number of bits less than minimum"
  else None.

(** CacheProportion.transform: [None] for no allocation. *)
Definition proportion_transform (c : string) (minBits : Z) : option cacheAllocation + error :=
  if String.eqb c "" then inl None
  else if negb (has_suffix c "%") then
    let value := if String.prefix "0x" c then ParseUint (TrimPrefix c "0x") 16 64
                 else listStringToBitmask c in
    match value with
    | inr e => inr e
    | inl value =>
        match contiguous_check value minBits with
        | Some e => inr e
        | None => inl (Some (catAbsoluteAllocation value))
        end
    end
  else
    let split := str_splitn2 "-"%char (str_drop_last 1 c) in
    match split with
    | [p] =>
        match ParseUint p 10 7 with
        | inr e => inr e
        | inl pct => if 100 <? pct then inr "invalid percentage value"
                     else inl (Some (catPercentageAllocation pct))
        end
    | [lo; hi] =>
        match ParseUint lo 10 7 with
        | inr e => inr e
        | inl lowPct =>
            match ParseUint hi 10 7 with
            | inr e => inr e
            | inl highPct =>
                if (highPct <? lowPct) || (100 <? lowPct) || (100 <? highPct)
                then inr "invalid percentage range"
                else inl (Some (catPercentageRangeAllocation lowPct highPct))
            end
        end
    | _ => inl None
    end.

Record CacheIdCatConfig := mkIdConfig { Unified : string; Code : string; Data : string }.
Record CatAllocation := mkAlloc {
  ca_Unified : option cacheAllocation;
  ca_Code : option cacheAllocation;
  ca_Data : option cacheAllocation
}.
(** CacheIdCatConfig.transform *)
Definition id_transform (c : CacheIdCatConfig) (minBits : Z) : CatAllocation + error :=
  match proportion_transform (Unified c) minBits with
  | inr e => inr e
  | inl None => inr "'unified' not specified in cache schema"
  | inl (Some u) =>
      match proportion_transform (Code c) minBits with
      | inr e => inr e
      | inl cd =>
          match proportion_transform (Data c) minBits with
          | inr e => inr e
          | inl dt =>
              match cd, dt with
              | None, Some _ => inr "'data' specified but missing 'code' from cache schema"
              | Some _, None => inr "'code' specified but missing 'data' from cache schema"
              | _, _ => inl (mkAlloc (Some u) cd dt)
              end
          end
      end
  end.

(** ** Schemata *)

Inductive catSchemaType := catSchemaTypeUnified | catSchemaTypeCode | catSchemaTypeData.
Definition toResctrlStr (t : catSchemaType) : string :=
  match t with
  | catSchemaTypeUnified => "" | catSchemaTypeCode => "CODE" | catSchemaTypeData => "DATA"
  end.
Definition getEffective (a : CatAllocation) (t : catSchemaType) : option cacheAllocation :=
  match t, ca_Code a, ca_Data a with
  | catSchemaTypeCode, Some c, _ => Some c
  | catSchemaTypeData, _, Some d => Some d
  | _, _, _ => ca_Unified a
  end.

(** A schema whose allocations are nil, or a map from cache ids. *)
Record CatSchema := mkSchema { Lvl : string; Alloc : option (gmap Z CatAllocation) }.
Definition newCatSchema (lvl : string) : CatSchema := mkSchema lvl (Some ∅).

Section Schema.
Context `{!GoRange} {F : Type} `{!Files F}.
Variable resctrlL3Info : rdtL3Info.
Let inf : catInfos := info resctrlL3Info.

Definition toSchema (c : option (gmap string CacheIdCatConfig)) (lvl : string)
    : outcome (CatSchema + error) :=
  match c with
  | None => Ok (inl (mkSchema lvl None))
  | Some c =>
      let d := default (mkIdConfig "100%" "" "") (c !! "all") in
      match id_transform d (minCbmBits inf) with
      | inr e => Ok (inr e)
      | inl defaultVal =>
          let filled := foldl (λ (m : gmap Z CatAllocation) i, <[i := defaultVal]> m) ∅ (cacheIds inf) in
          let! r := for_range (range c) filled (λ m kv,
            let '(key, val) := kv in
            Ok (if String.eqb key "all" then Next m
                else match listStringToArray key with
                     | inr e => Return e
                     | inl ids =>
                         match id_transform val (minCbmBits inf) with
                         | inr e => Return e
                         | inl v =>
                             Next (foldl (λ (m : gmap Z CatAllocation) id,
                               if decide (is_Some (m !! u64 id)) then <[u64 id := v]> m else m) m ids)
                         end
                     end)) in
          Ok (match r with Return e => inr e | Next m => inl (mkSchema lvl (Some m)) end)
      end
  end.

(** The loop of toStr; a cache id without allocation has a nil one. *)
Fixpoint schema_entries (alloc : option (gmap Z CatAllocation)) (t : catSchemaType) (ids : list Z)
    (sep : string) : outcome (string + error) :=
  match ids with
  | [] => Ok (inl EmptyString)
  | id :: ids =>
      let! bmask := match alloc with
        | None => Ok (inl (cbmMask inf))
        | Some m =>
            let! overlay := deref (getEffective (default (mkAlloc None None None) (m !! id)) t) in
            Ok (Transform overlay (minCbmBits inf) (cbmMask inf))
        end in
      match bmask with
      | inr e => Ok (inr e)
      | inl b =>
          let! rest := schema_entries alloc t ids ";" in
          match rest with
          | inr e => Ok (inr e)
          | inl s => Ok (inl (sep +:+ format_dec id +:+ "=" +:+ format_hex b +:+ s))
          end
      end
  end.
Definition toStr (s : CatSchema) (t : catSchemaType) : outcome (string + error) :=
  let! r := schema_entries (Alloc s) t (cacheIds inf) "" in
  Ok (match r with inl e => inl (Lvl s +:+ toResctrlStr t +:+ ":" +:+ e) | inr e => inr e end).

Definition getL3SchemaStr (s : CatSchema) : outcome (string + error) :=
  if Supported (unified inf) then toStr s catSchemaTypeUnified
  else if Supported (data inf) || Supported (code inf) then
    let! c := toStr s catSchemaTypeCode in
    match c with
    | inr e => Ok (inr e)
    | inl c =>
        let! d := toStr s catSchemaTypeData in
        match d with inr e => Ok (inr e) | inl d => Ok (inl (c +:+ d)) end
    end
  else match Alloc s with
       | Some _ => Ok (inr "l3 cache allocation not supported by system")
       | None => Ok (inl EmptyString)
       end.

Definition getL3Schema (l3 : string) : outcome (string + error) :=
  let! s := toSchema (Some {["all" := mkIdConfig l3 "" ""]}) "L3" in
  match s with inr e => Ok (inr e) | inl s => getL3SchemaStr s end.

(** ** The schemata file of a class *)

(** Every line that starts with [resource] is replaced. *)
Definition replace_lines (resource l3cache content : string) : string :=
  str_join nl (map (λ line, if String.prefix resource line then l3cache else line)
                 (str_split newline content)).
Definition writeInSchemaFile (resource l3cache schemapath : string) (f : F) : F * option error :=
  match ReadFile f schemapath with
  | inr e => (f, Some e)
  | inl content => Rewrite f schemapath (replace_lines resource l3cache content)
  end.
Definition modifyRDTClassL3schema (className l3 : string) (f : F) : outcome (F * option error) :=
  let! s := getL3Schema l3 in
  match s with
  | inr e => Ok (f, Some e)
  | inl l3Schema =>
      Ok (writeInSchemaFile "L3" l3Schema (path_join [resctrlPath resctrlL3Info; className; "schemata"]) f)
  end.

Definition checkBitmask (bitmask : string) : option error :=
  if negb (String.prefix "0x" bitmask) then Some "invalid cache bitmask: do not start with 0x"
  else match ParseUint (TrimPrefix bitmask "0x") 16 64 with
       | inr e => Some e
       | inl value => contiguous_check value (minCbmBits inf)
       end.
End Schema.
