(* ===== verification/RdtEngine.v ===== *)
(** * pkg/service/rdt/rdtengine: the event engine of cache and memory bandwidth

    engine/engine.go with its events, resources, policies, executors,
    monitors and watcher.  The engine's operations are functions on its state;
    its goroutines are tasks of a system with one step relation, in which the
    event loop, the handlers and the senders interleave freely. *)

From S2P Require Export Text Float64.

(** ** event.go *)

Definition EventTypeStop : string := "Stop".
Definition EventTypeApp : string := "App".
Definition EventTypeMonitorGroup : string := "MonitorGroup".
Definition EventTypeControlGroup : string := "ControlGroup".
Definition EventTypeRefresh : string := "Refresh".
Definition EventTaskIds : string := "TaskIds".
Definition EventTypeData : string := "Data".
Definition OperationAdd : string := "Add".
Definition OperationRemove : string := "Remove".
Definition OperationUpdate : string := "Update".

Definition EventTargetPolicy : string := "Policy".
Definition EventTargetMonitor : string := "Monitor".
Definition EventTargetWatcher : string := "Watcher".
Definition EventTargetMonitorReceiver : string := "MonitorReceiver".
Definition EventTargetExecutor : string := "Executor".
Definition EventTargetStop : string := "Stop".

Definition L3_Monitor : string := "l3_monitor".
Definition Mb_Monitor : string := "mb_monitor".
Inductive MonitorData := L3Data (L3Cache : f64) | MbData (LocalMb TotalMb : f64).
Definition data_Key (d : MonitorData) : string :=
  match d with L3Data _ => L3_Monitor | MbData _ _ => Mb_Monitor end.

Record ControlSchema := mkCtlSchema { schema_version : string }.
Definition schema_Validate (s : ControlSchema) : bool := true.
Definition schema_ToString (s : ControlSchema) (version : string) : string := EmptyString.

Inductive event :=
| StopEvent
| AppEvent (Name Operation EventKey : string)
| MonitorGroupEvent (Id Operation EventKey : string)
| ControlGroupEvent (Id Operation EventKey : string) (Schema : ControlSchema)
| TaskIdsEvent (MonitorGroupPath : string) (Tasks : list Z)
| RefreshEvent
| DataEvent (Id : string) (Data : MonitorData).

Definition Target (e : event) : list string :=
  match e with
  | StopEvent => [EventTargetStop]
  | AppEvent _ _ _ => [EventTargetPolicy; EventTargetWatcher]
  | MonitorGroupEvent _ _ _ => [EventTargetMonitor; EventTargetExecutor]
  | ControlGroupEvent _ _ _ _ | TaskIdsEvent _ _ | RefreshEvent => [EventTargetExecutor]
  | DataEvent _ _ => [EventTargetPolicy; EventTargetMonitorReceiver]
  end.
Definition GetEventType (e : event) : string :=
  match e with
  | StopEvent => EventTypeStop
  | AppEvent _ _ _ => EventTypeApp
  | MonitorGroupEvent _ _ _ => EventTypeMonitorGroup
  | ControlGroupEvent _ _ _ _ => EventTypeControlGroup
  | TaskIdsEvent _ _ => EventTaskIds
  | RefreshEvent => EventTypeRefresh
  | DataEvent _ _ => EventTypeData
  end.
Definition Key (e : event) : string :=
  match e with
  | AppEvent _ _ k | MonitorGroupEvent _ _ k | ControlGroupEvent _ _ k _ => k
  | DataEvent _ d => data_Key d
  | _ => EmptyString
  end.

(** ** resources.go *)

Record ApplicationSpec := mkAppSpec {
  spec_Name : string; spec_PId : string; spec_CgroupPath : string; spec_Parameters : string
}.
Record ApplicationStatus := mkAppStatus {
  st_MonitorGroupId : string; st_ControlGroupId : string; st_State : Z; st_ErrorMessage : string
}.
Record Application := mkApplication { app_Spec : ApplicationSpec; app_Status : ApplicationStatus }.
Record MonitorGroup := mkMonGroup {
  mg_Id : string; mg_ControlGroupId : string; mg_state : Z; mg_ErrorMessage : string; mg_AppIds : list string
}.
Definition mg_SetState (state : Z) (g : MonitorGroup) : MonitorGroup :=
  mkMonGroup (mg_Id g) (mg_ControlGroupId g) state (mg_ErrorMessage g) (mg_AppIds g).
Record ControlGroup := mkCtlGroup {
  cg_Id : string; cg_Schema : ControlSchema; cg_state : Z; cg_ErrorMessage : string; cg_AppIds : list string
}.
Definition cg_SetState (state : Z) (g : ControlGroup) : ControlGroup :=
  mkCtlGroup (cg_Id g) (cg_Schema g) state (cg_ErrorMessage g) (cg_AppIds g).
Definition cg_Validate (g : ControlGroup) : bool := schema_Validate (cg_Schema g).
Definition no_group : MonitorGroup := mkMonGroup "" "" 0 "" [].

(** utils.GetMonitorGroupPath *)
Definition ResctrlRoot : string := "/sys/fs/resctrl".
Definition MonitorGroups : string := "mon_groups".
Definition GetMonitorGroupPath (group : MonitorGroup) : string :=
  let path := if String.eqb (mg_ControlGroupId group) "" then ResctrlRoot
              else ResctrlRoot +:+ "/" +:+ mg_ControlGroupId group in
  if String.eqb (mg_ControlGroupId group) (mg_Id group) then path
  else
    let path := path +:+ "/" +:+ MonitorGroups in
    if String.eqb (mg_Id group) "" then path else path +:+ "/" +:+ mg_Id group.

(** ** The engine *)

(** The functions that are registered for a target. *)
Inductive handle := onPolicy | onMonitorReceiver | onMonitor | onWatcher | onExecutor.
Record EventHandler := mkHandler { eh_t : string; eh_ch : list event; eh_handles : list (option handle) }.
Definition eventChanSize : nat := 50.

(** The two policies, with what FixedClass collects. *)
Inductive policy :=
| PureMonitor
| FixedClass (L3Usage : gmap string f64) (MB : gmap string (f64 * f64)).
(** The parts of the engine that take events; a receiver, which is outside the
    repository, is its filter. *)
Inductive component :=
| CPolicy
| CWatcher
| CMonitor (type : string)
| CDefaultExecutor
| CRdtExecutor
| CReceiver (filter : list string).

Record engine := mkEng {
  isRunning : bool;
  eng_policy : policy;
  monitors : list string;
  watchers : nat;
  executors : list component;
  monitor_receivers : list (list string);
  ehs : list EventHandler;
  pehs : gmap string (list string);
  apps : gmap string Application;
  mgs : gmap string MonitorGroup;
  cgs : gmap string ControlGroup
}.
Definition set_running v (g : engine) : engine :=
  mkEng v (eng_policy g) (monitors g) (watchers g) (executors g) (monitor_receivers g)
    (ehs g) (pehs g) (apps g) (mgs g) (cgs g).
Definition set_policy v (g : engine) : engine :=
  mkEng (isRunning g) v (monitors g) (watchers g) (executors g) (monitor_receivers g)
    (ehs g) (pehs g) (apps g) (mgs g) (cgs g).
Definition AddMonitorReceiver (filter : list string) (g : engine) : engine :=
  mkEng (isRunning g) (eng_policy g) (monitors g) (watchers g) (executors g)
    (monitor_receivers g ++ [filter]) (ehs g) (pehs g) (apps g) (mgs g) (cgs g).
Definition set_ehs v (g : engine) : engine :=
  mkEng (isRunning g) (eng_policy g) (monitors g) (watchers g) (executors g) (monitor_receivers g)
    v (pehs g) (apps g) (mgs g) (cgs g).
Definition set_pehs v (g : engine) : engine :=
  mkEng (isRunning g) (eng_policy g) (monitors g) (watchers g) (executors g) (monitor_receivers g)
    (ehs g) v (apps g) (mgs g) (cgs g).
Definition set_apps v (g : engine) : engine :=
  mkEng (isRunning g) (eng_policy g) (monitors g) (watchers g) (executors g) (monitor_receivers g)
    (ehs g) (pehs g) v (mgs g) (cgs g).
Definition set_mgs v (g : engine) : engine :=
  mkEng (isRunning g) (eng_policy g) (monitors g) (watchers g) (executors g) (monitor_receivers g)
    (ehs g) (pehs g) (apps g) v (cgs g).
Definition set_cgs v (g : engine) : engine :=
  mkEng (isRunning g) (eng_policy g) (monitors g) (watchers g) (executors g) (monitor_receivers g)
    (ehs g) (pehs g) (apps g) (mgs g) v.

(** The handlers are ranged over by value: for a target that has one already,
    the handle is appended to a copy. *)
Definition RegisterEventHandler (t : string) (f : option handle) (g : engine) : engine :=
  if existsb (λ eh, String.eqb (eh_t eh) t) (ehs g) then g
  else set_ehs (ehs g ++ [mkHandler t [] [f]]) g.
Definition RegisterPostEventHandler (t msg : string) (g : engine) : engine :=
  if decide (is_Some (pehs g !! t)) then g else set_pehs (<[t := [msg]]> (pehs g)) g.
(** The parts' own Initialize do nothing. *)
Definition Initialize (g : engine) : engine :=
  let g := RegisterEventHandler EventTargetPolicy (Some onPolicy) g in
  let g := RegisterEventHandler EventTargetMonitorReceiver (Some onMonitorReceiver) g in
  let g := RegisterEventHandler EventTargetMonitor (Some onMonitor) g in
  let g := RegisterEventHandler EventTargetWatcher (Some onWatcher) g in
  let g := RegisterEventHandler EventTargetExecutor (Some onExecutor) g in
  let g := RegisterEventHandler EventTargetStop None g in
  RegisterPostEventHandler EventTypeApp "engine.onApponApp" g.
(** DefaultEngineNewer on a configuration that was read. *)
Definition DefaultEngineNewer (p : policy) (mons : list string) (wats : nat) (exes : list component)
    : engine :=
  Initialize (mkEng false p mons wats (CDefaultExecutor :: exes) [] [] ∅ ∅ ∅ ∅).

Definition match_ (filter : list string) (eventKey : string) : bool :=
  String.eqb eventKey "" || (length filter =? 0)%nat || existsb (String.eqb eventKey) filter.
Definition EventFilter (c : component) : list string :=
  match c with
  | CPolicy | CWatcher => []
  | CMonitor _ => [""]
  | CDefaultExecutor => ["default"]
  | CRdtExecutor => ["filter1"; "filter2"]
  | CReceiver f => f
  end.
(** The parts that a handle goes over. *)
Definition parts (g : engine) (h : handle) : list component :=
  match h with
  | onPolicy => [CPolicy]
  | onMonitorReceiver => CReceiver <$> monitor_receivers g
  | onMonitor => CMonitor <$> monitors g
  | onWatcher => replicate (watchers g) CWatcher
  | onExecutor => executors g
  end.

(** ** Operations, between Lock and Unlock: what they leave, and the event
    they emit before they unlock *)

Definition RegisterApp (name : string) (app : ApplicationSpec) (g : engine) : (engine * event) + error :=
  match apps g !! name with
  | Some _ => inr ("Duplicate application: " +:+ name)
  | None =>
      inl (set_apps (<[name := mkApplication app (mkAppStatus "" "" 0 "")]> (apps g)) g,
           AppEvent name OperationAdd "")
  end.
Definition UnRegisterApp (name : string) (g : engine) : (engine * event) + error :=
  match apps g !! name with
  | None => inr ("Application: " +:+ name +:+ " is not found")
  | Some (mkApplication sp (mkAppStatus m c _ e)) =>
      inl (set_apps (<[name := mkApplication sp (mkAppStatus m c (-1) e)]> (apps g)) g,
           AppEvent name OperationRemove "")
  end.
Definition GetApp (name : string) (g : engine) : Application + error :=
  match apps g !! name with
  | None => inr ("Application: " +:+ name +:+ " is not found")
  | Some a => inl a
  end.
Definition GetMonitorGroup (id : string) (g : engine) : MonitorGroup + error :=
  match mgs g !! id with
  | Some v => inl v
  | None => inr ("Don't have group which id is " +:+ id)
  end.
Definition CreateMonitorGroup (id : string) (grp : MonitorGroup) (g : engine) : (engine * event) + error :=
  match mgs g !! id with
  | Some _ => inr ("Duplicate monitor group: " +:+ id)
  | None => inl (set_mgs (<[id := mg_SetState 0 grp]> (mgs g)) g, MonitorGroupEvent id OperationAdd "")
  end.
(** SetState is called on a copy of the group. *)
Definition RemoveMonitorGroup (id : string) (g : engine) : (engine * event) + error :=
  match mgs g !! id with
  | None => inr ("Monitor Group: " +:+ id +:+ " is not found")
  | Some _ => inl (g, MonitorGroupEvent id OperationRemove "")
  end.
Definition CreateControlGroup (id : string) (grp : ControlGroup) (g : engine) : (engine * event) + error :=
  match cgs g !! id with
  | Some _ => inr ("Duplicate control group: " +:+ id)
  | None =>
      if negb (cg_Validate grp) then inr ("Invalidate control group: " +:+ id)
      else inl (set_cgs (<[id := cg_SetState 0 grp]> (cgs g)) g,
                ControlGroupEvent id OperationAdd "" (mkCtlSchema ""))
  end.
Definition RemoveControlGroup (id : string) (g : engine) : (engine * event) + error :=
  match cgs g !! id with
  | None => inr ("Control Group: " +:+ id +:+ " is not found")
  | Some _ => inl (g, ControlGroupEvent id OperationRemove "" (mkCtlSchema ""))
  end.
Definition SetControlGroupSchema (id : string) (schema : ControlSchema) (g : engine)
    : (engine * event) + error :=
  match cgs g !! id with
  | None => inr ("Control Group: " +:+ id +:+ " is not found")
  | Some grp =>
      if negb (schema_Validate schema) then inr "Invalidate control group schema"
      else if cg_state grp =? -1 then inr ("Control Group: " +:+ id +:+ " is removed")
      else inl (g, ControlGroupEvent id OperationUpdate "" schema)
  end.

(** The calls that change the engine or emit while they hold its mutex. *)
Inductive call :=
| CallRegisterApp (name : string) (app : ApplicationSpec)
| CallUnRegisterApp (name : string)
| CallCreateMonitorGroup (id : string) (grp : MonitorGroup)
| CallRemoveMonitorGroup (id : string)
| CallCreateControlGroup (id : string) (grp : ControlGroup)
| CallRemoveControlGroup (id : string)
| CallSetControlGroupSchema (id : string) (schema : ControlSchema).
Definition run_call (c : call) : engine → (engine * event) + error :=
  match c with
  | CallRegisterApp n a => RegisterApp n a
  | CallUnRegisterApp n => UnRegisterApp n
  | CallCreateMonitorGroup i m => CreateMonitorGroup i m
  | CallRemoveMonitorGroup i => RemoveMonitorGroup i
  | CallCreateControlGroup i m => CreateControlGroup i m
  | CallRemoveControlGroup i => RemoveControlGroup i
  | CallSetControlGroupSchema i s => SetControlGroupSchema i s
  end.

(** The engine's mutex is not reentrant. *)
Definition lock (held : bool) : outcome bool := if held then Crash SelfDeadlock else Ok true.
(** GetAppControlSchema locks the mutex and calls GetApp, which locks it. *)
Definition GetAppControlSchema (name version : string) (g : engine) : outcome (string + error) :=
  let! held := lock false in
  let! _ := lock held in
  match GetApp name g with
  | inr e => Ok (inr e)
  | inl app =>
      let st := app_Status app in
      if negb (st_State st =? 1) then Ok (inr ("Application: " +:+ name +:+ " is not in running state"))
      else if String.eqb (st_ControlGroupId st) "" then
        Ok (inr ("Application: " +:+ name +:+ " control group is not active"))
      else match cgs g !! st_ControlGroupId st with
           | None => Ok (inr ("Control Group: " +:+ st_ControlGroupId st +:+ " is not found"))
           | Some grp =>
               if negb (cg_state grp =? 1) then
                 Ok (inr ("Control Group: " +:+ st_ControlGroupId st +:+ " is not in running state"))
               else Ok (inl (schema_ToString (cg_Schema grp) version))
           end
  end.

(** ** What a part does with an event *)

(** Effects of the executor on the resctrl file system. *)
Inductive fs_op := Mkdir (path : string) | RemoveAll (path : string) | WriteTaskIDs (ids : list Z) (path : string).

(** A part either goes on by itself, with effects, a changed policy and
    perhaps the loop of a monitor; or it needs the engine's mutex. *)
Inductive reaction :=
| Quiet (ops : list fs_op) (p : policy) (loop : option (string * string))
| Locked (g : engine) (emits : option event).
Definition locked (g : engine) (r : (engine * event) + error) : reaction :=
  match r with inl (g', e) => Locked g' (Some e) | inr _ => Locked g None end.
Definition group_of (id : string) (g : engine) : MonitorGroup :=
  match GetMonitorGroup id g with inl grp => grp | inr _ => no_group end.

Definition policy_OnEvent (e : event) (g : engine) : reaction :=
  match eng_policy g, e with
  | PureMonitor, AppEvent name op _ =>
      if String.eqb op OperationAdd
      then locked g (CreateMonitorGroup name (mkMonGroup name "" 0 "" []) g)
      else if String.eqb op OperationRemove then locked g (RemoveMonitorGroup name g)
      else Quiet [] (eng_policy g) None
  | FixedClass _ _, AppEvent name op _ =>
      if String.eqb op OperationAdd then Locked g None else Quiet [] (eng_policy g) None
  | FixedClass l3 mb, DataEvent id (L3Data x) => Quiet [] (FixedClass (<[id := x]> l3) mb) None
  | FixedClass l3 mb, DataEvent id (MbData l t) => Quiet [] (FixedClass l3 (<[id := (l, t)]> mb)) None
  | p, _ => Quiet [] p None
  end.
(** Every event on a group starts a loop. *)
Definition monitor_OnEvent (type : string) (e : event) (g : engine) : reaction :=
  Quiet [] (eng_policy g) (match e with MonitorGroupEvent id _ _ => Some (type, id) | _ => None end).
(** An unknown group is the zero value. *)
Definition executor_OnEvent (e : event) (g : engine) : reaction :=
  Quiet (match e with
         | MonitorGroupEvent id op _ =>
             let path := GetMonitorGroupPath (group_of id g) in
             if String.eqb op OperationAdd then [Mkdir path]
             else if String.eqb op OperationRemove then [RemoveAll path]
             else []
         | TaskIdsEvent grp tasks =>
             [WriteTaskIDs tasks (GetMonitorGroupPath (group_of grp g) +:+ "/tasks")]
         | _ => []
         end) (eng_policy g) None.
Definition OnEvent (c : component) (e : event) (g : engine) : reaction :=
  match c with
  | CPolicy => policy_OnEvent e g
  | CMonitor t => monitor_OnEvent t e g
  | CRdtExecutor => executor_OnEvent e g
  | CWatcher | CDefaultExecutor | CReceiver _ => Quiet [] (eng_policy g) None
  end.

(** ** Goroutines *)

(** A sender goes over the targets of its event, and unlocks the mutex if it
    holds it; [Blocked] waits for the mutex that it holds itself. *)
Inductive task :=
| Sending (todo : list (string * event)) (holds : bool)
| Handling (h : handle) (e : event)
| Reacting (c : component) (e : event)
| Monitoring (type id : string)
| Blocked.
Record system := mkSys { sys_eng : engine; mutex : bool; tasks : list task; fs_log : list fs_op }.

(** [eh.ch <- data] for the first handler of the target: [None] while its
    channel is full. *)
Fixpoint send_to (t : string) (e : event) (l : list EventHandler) : option (list EventHandler) :=
  match l with
  | [] => Some []
  | eh :: l =>
      if String.eqb (eh_t eh) t then
        if (length (eh_ch eh) <? eventChanSize)%nat
        then Some (mkHandler (eh_t eh) (eh_ch eh ++ [e]) (eh_handles eh) :: l) else None
      else match send_to t e l with Some l' => Some (eh :: l') | None => None end
  end.
Definition EmitEvent (e : event) (holds : bool) : task := Sending (map (λ t, (t, e)) (Target e)) holds.

(** Steps of the engine's own goroutines. *)
Inductive istep : system → system → Prop :=
| step_send g m l1 l2 log t e todo b ehs' :
    send_to t e (ehs g) = Some ehs' →
    istep (mkSys g m (l1 ++ Sending ((t, e) :: todo) b :: l2) log)
          (mkSys (set_ehs ehs' g) m (l1 ++ Sending todo b :: l2) log)
| step_sent g m l1 l2 log b :
    istep (mkSys g m (l1 ++ Sending [] b :: l2) log)
          (mkSys g (if b then false else m) (l1 ++ l2) log)
| step_select g m ts log h1 h2 t e ch hs :
    isRunning g = true → ehs g = h1 ++ mkHandler t (e :: ch) hs :: h2 → t ≠ EventTargetStop →
    istep (mkSys g m ts log)
          (mkSys (set_ehs (h1 ++ mkHandler t ch hs :: h2) g) m
             (ts ++ map (λ h, Handling h e) (omap id hs)) log)
| step_stop g m ts log h1 h2 e ch hs :
    isRunning g = true → ehs g = h1 ++ mkHandler EventTargetStop (e :: ch) hs :: h2 →
    istep (mkSys g m ts log)
          (mkSys (set_running false (set_ehs (h1 ++ mkHandler EventTargetStop ch hs :: h2) g)) m ts log)
| step_handle g m l1 l2 log h e :
    istep (mkSys g m (l1 ++ Handling h e :: l2) log)
          (mkSys g m (l1 ++ l2 ++ map (λ c, Reacting c e)
                                    (filter (λ c, match_ (EventFilter c) (Key e) = true) (parts g h))) log)
| step_quiet g m l1 l2 log c e ops p loop :
    OnEvent c e g = Quiet ops p loop →
    istep (mkSys g m (l1 ++ Reacting c e :: l2) log)
          (mkSys (set_policy p g) m
             (l1 ++ l2 ++ match loop with Some (t, id) => [Monitoring t id] | None => [] end) (log ++ ops))
| step_locked g l1 l2 log c e g' emits :
    OnEvent c e g = Locked g' emits →
    istep (mkSys g false (l1 ++ Reacting c e :: l2) log)
          (mkSys g' (if emits then true else false)
             (l1 ++ l2 ++ match emits with Some e => [EmitEvent e true] | None => [] end) log).

(** Steps from outside: calls, events without the mutex (the watcher's task
    ids, the monitors' data, Refresh, Stop), the start of the loop, and a
    query of a control schema. *)
Definition free_event (e : event) : bool :=
  match e with TaskIdsEvent _ _ | DataEvent _ _ | RefreshEvent | StopEvent => true | _ => false end.
Inductive xstep : system → system → Prop :=
| step_call g ts log c g' e :
    run_call c g = inl (g', e) →
    xstep (mkSys g false ts log) (mkSys g' true (ts ++ [EmitEvent e true]) log)
| step_emit g m ts log e :
    free_event e = true →
    xstep (mkSys g m ts log) (mkSys g m (ts ++ [EmitEvent e false]) log)
| step_start g m ts log :
    xstep (mkSys g m ts log) (mkSys (set_running true g) m ts log)
| step_query g ts log name version c :
    GetAppControlSchema name version g = Crash c →
    xstep (mkSys g false ts log) (mkSys g true (ts ++ [Blocked]) log).
Definition step (s s' : system) : Prop := istep s s' ∨ xstep s s'.
Definition start_system (g : engine) : system := mkSys g false [] [].
