(* ===== verification/Persist.v ===== *)
(** * pkg/service: the store of the I/O service, and the dispatch of requests

    common/boltdb.go and common/persist.go on an interface to bbolt, and
    service.go, which hands a request to the engine of its type. *)

From S2P Require Export Text.

(** ** bbolt *)

(** A bucket is named by the path of its names.  An update that fails leaves
    the database as it was (the transaction is rolled back). *)
Class BoltDB (D : Type) := {
  has_bucket : D → list string → bool;
  CreateBucketIfNotExists : D → list string → D + error;
  bucket_Put : D → list string → string → string → D + error;
  bucket_Delete : D → list string → string → D + error;
  bucket_pairs : D → list string → gmap string string
}.
Class BoltLaws (D : Type) `{!BoltDB D} : Prop := {
  create_has : ∀ d p d' q, CreateBucketIfNotExists d p = inl d' →
    has_bucket d' q = bool_decide (q = p) || has_bucket d q;
  create_pairs : ∀ d p d' q, CreateBucketIfNotExists d p = inl d' →
    bucket_pairs d' q = bucket_pairs d q;
  put_has : ∀ d p k v d' q, bucket_Put d p k v = inl d' → has_bucket d' q = has_bucket d q;
  put_pairs : ∀ d p k v d' q, bucket_Put d p k v = inl d' →
    bucket_pairs d' q = if decide (q = p) then <[k := v]> (bucket_pairs d p) else bucket_pairs d q;
  delete_has : ∀ d p k d' q, bucket_Delete d p k = inl d' → has_bucket d' q = has_bucket d q;
  delete_pairs : ∀ d p k d' q, bucket_Delete d p k = inl d' →
    bucket_pairs d' q = if decide (q = p) then delete k (bucket_pairs d p) else bucket_pairs d q
}.

Section Store.
Context {D : Type} `{!BoltDB D}.

(** ** boltdb.go *)

(** One transaction: the root bucket, then the others in it. *)
Fixpoint create_subs (table : string) (subs : list string) (d : D) : D + error :=
  match subs with
  | [] => inl d
  | b :: subs =>
      match CreateBucketIfNotExists d [table; b] with
      | inr e => inr ("could not create " +:+ b +:+ " bucket: " +:+ e)
      | inl d => create_subs table subs d
      end
  end.
Definition CreateTable (table : string) (subTables : list string) (d : D) : D * option error :=
  match CreateBucketIfNotExists d [table] with
  | inr e => (d, Some ("could not create " +:+ table +:+ " root bucket: " +:+ e))
  | inl d1 =>
      match create_subs table subTables d1 with
      | inl d2 => (d2, None)
      | inr e => (d, Some e)
      end
  end.

Definition dot : ascii := "."%char.
(** The bucket that a table name stands for. *)
Definition table_path (table : string) : option (list string) :=
  match str_split dot table with
  | [a] => Some [a]
  | [a; b] => Some [a; b]
  | _ => None
  end.
Definition table_error (table : string) : error := "table name error: " +:+ table.

(** A missing bucket is a nil pointer. *)
Definition db_Save (table key value : string) (d : D) : outcome (D * option error) :=
  if String.eqb key "" then Ok (d, Some "key is empty")
  else match table_path table with
       | None => Ok (d, Some (table_error table))
       | Some p =>
           if negb (has_bucket d p) then Crash NilDeref
           else match bucket_Put d p key value with
                | inl d' => Ok (d', None)
                | inr e => Ok (d, Some ("could not save " +:+ table +:+ " table " +:+ key +:+ " key: " +:+ e))
                end
       end.
Definition db_Load (table key : string) (d : D) : outcome (gmap string string * option error) :=
  match table_path table with
  | None => Ok (∅, Some (table_error table))
  | Some p =>
      if negb (has_bucket d p) then Crash NilDeref
      else if String.eqb key "" then Ok (bucket_pairs d p, None)
      else match bucket_pairs d p !! key with
           | Some v => if String.eqb v "" then Ok (∅, None) else Ok ({[key := v]}, None)
           | None => Ok (∅, None)
           end
  end.
Definition db_Delete (table key : string) (d : D) : outcome (D * option error) :=
  match table_path table with
  | None => Ok (d, Some (table_error table))
  | Some p =>
      if negb (has_bucket d p) then Crash NilDeref
      else match bucket_Delete d p key with
           | inl d' => Ok (d', None)
           | inr e => Ok (d, Some ("could not delete app: " +:+ e))
           end
  end.

(** ** common/persist.go *)

Record LogLevelConfigInfo := mkLogLevel { log_Info : bool; log_Debug : bool }.
Class LogJson := {
  marshal_log : LogLevelConfigInfo → string;
  unmarshal_log : string → LogLevelConfigInfo + error
}.
Context `{!LogJson}.
Definition SaveLogLevel (c : LogLevelConfigInfo) (d : D) : outcome (D * option error) :=
  let! '(d, err) := db_Save "COMMON" "LOGLEVEL" (marshal_log c) d in
  Ok (d, match err with Some e => Some ("could not set config log: " +:+ e) | None => None end).
(** A missing entry is an empty text, which is no JSON value. *)
Definition LoadLogLevel (d : D) : outcome (LogLevelConfigInfo + error) :=
  let! '(m, err) := db_Load "COMMON" "LOGLEVEL" d in
  match unmarshal_log (default EmptyString (m !! "LOGLEVEL")) with
  | inr e => Ok (inr e)
  | inl c => Ok (match err with Some e => inr e | None => inl c end)
  end.
End Store.

(** ** service.go *)

Inductive ResponseState := OK_ | FAIL.
Definition CommonIOIType : Z := 0.

(** One method of the engines, by type; an engine's error is only logged, and
    its response returned. *)
Section Dispatch.
Context {S Req Resp : Type}.
Variable engines : list Z.
Variable call : Z → Req → S → outcome (option Resp * option error * S).
Definition dispatch (t : Z) (req : Req) (fail : Resp) (msg : error) (s : S)
    : outcome (option Resp * option error * S) :=
  if bool_decide (t ∈ engines) then
    let! '(resp, _, s) := call t req s in Ok (resp, None, s)
  else Ok (Some fail, Some msg, s).
End Dispatch.

(** IOIServer.Configure: the log level is the server's own, everything else an
    engine's. *)
Section Configure.
Context {S D : Type} `{!BoltDB D} `{!LogJson}.
Variable engines : list Z.
Variable call : Z → string * string → S → outcome (option ResponseState * option error * S).
Definition IOIServer_Configure (IoiType : Z) (Type_ conf : string) (d : D) (s : S)
    : outcome (option ResponseState * option error * D * S) :=
  if IoiType =? CommonIOIType then
    if String.eqb Type_ "LOGLEVEL" then
      if String.eqb conf "" then Ok (Some FAIL, None, d, s)
      else match unmarshal_log conf with
           | inr _ => Ok (Some FAIL, None, d, s)
           | inl loglevel =>
               let! '(d, err) := SaveLogLevel loglevel d in
               match err with
               | Some _ => Ok (None, Some "update db for config failed", d, s)
               | None => Ok (Some OK_, None, d, s)
               end
           end
    else Ok (Some FAIL, Some "ioi type is invalid", d, s)
  else
    let! '(resp, err, s) := dispatch engines call IoiType (Type_, conf) FAIL "no engine of this type" s in
    Ok (resp, err, d, s).
End Configure.

(** The bits of EnginesSwitch that the node's label asks for. *)
Definition DiskSwitch : Z := 1.
Definition NetSwitch : Z := 2.
Definition RDTSwitch : Z := 4.
Definition RDTQuantitySwitch : Z := 8.
Definition engines_switch (labels : string) : Z :=
  foldl (λ sw r,
    let on b name sw := if String.eqb r name || String.eqb r "all" then Z.lor sw b else sw in
    on RDTQuantitySwitch "rdtQuantity" (on RDTSwitch "rdt" (on NetSwitch "net" (on DiskSwitch "disk" sw))))
    0 (str_split "-"%char labels).

(** ** Facts *)

Section StoreFacts.
Context {D : Type} `{!BoltDB D} `{!BoltLaws D}.

(** What a successful save or deletion does to the tables. *)
Lemma db_Save_spec table key value p d d' :
  table_path table = Some p → db_Save table key value d = Ok (d', None) →
  (∀ q, has_bucket d' q = has_bucket d q) ∧
  ∀ q, bucket_pairs d' q = if decide (q = p) then <[key := value]> (bucket_pairs d p)
                           else bucket_pairs d q.
Proof.
  unfold db_Save. intros ->. destruct (String.eqb key ""); [done |].
  destruct (has_bucket d p); [| done]. simpl.
  destruct (bucket_Put d p key value) as [d1 |] eqn:E; [| done]. intros [= <-].
  split; intros q; [by eapply put_has | by apply put_pairs].
Qed.
Lemma db_Delete_spec table key p d d' :
  table_path table = Some p → db_Delete table key d = Ok (d', None) →
  (∀ q, has_bucket d' q = has_bucket d q) ∧
  ∀ q, bucket_pairs d' q = if decide (q = p) then delete key (bucket_pairs d p) else bucket_pairs d q.
Proof.
  unfold db_Delete. intros ->. destruct (has_bucket d p); [| done]. simpl.
  destruct (bucket_Delete d p key) as [d1 |] eqn:E; [| done]. intros [= <-].
  split; intros q; [by eapply delete_has | by apply delete_pairs].
Qed.
Lemma db_Save_fail table key value d d' e : db_Save table key value d = Ok (d', Some e) → d' = d.
Proof.
  unfold db_Save. destruct (String.eqb key ""); [by intros [= <- _] |].
  destruct (table_path table); [| by intros [= <- _]]. destruct (has_bucket d l); [| done]. simpl.
  destruct (bucket_Put _ _ _ _); [done | by intros [= <- _]].
Qed.
Lemma db_Delete_fail table key d d' e : db_Delete table key d = Ok (d', Some e) → d' = d.
Proof.
  unfold db_Delete. destruct (table_path table); [| by intros [= <- _]].
  destruct (has_bucket d l); [| done]. simpl. destruct (bucket_Delete _ _ _); [done | by intros [= <- _]].
Qed.
(** Saving and deleting return when the table's bucket exists. *)
Lemma db_Save_total table key value p d :
  table_path table = Some p → has_bucket d p = true → ∃ d' e, db_Save table key value d = Ok (d', e).
Proof.
  intros Ht Hb. unfold db_Save. rewrite Ht, Hb. destruct (String.eqb key ""); [eauto |]. simpl.
  destruct (bucket_Put d p key value); eauto.
Qed.
Lemma db_Delete_total table key p d :
  table_path table = Some p → has_bucket d p = true → ∃ d' e, db_Delete table key d = Ok (d', e).
Proof.
  intros Ht Hb. unfold db_Delete. rewrite Ht, Hb. simpl. destruct (bucket_Delete d p key); eauto.
Qed.

Lemma create_subs_spec table subs d d' :
  create_subs table subs d = inl d' →
  (∀ q, bucket_pairs d' q = bucket_pairs d q) ∧
  (∀ q, has_bucket d q = true → has_bucket d' q = true) ∧
  ∀ b, b ∈ subs → has_bucket d' [table; b] = true.
Proof.
  revert d. induction subs as [| b subs IH]; intros d; simpl.
  { intros [= <-]. split_and!; [done | done |]. by intros b ?%elem_of_nil. }
  destruct (CreateBucketIfNotExists d _) as [d1 |] eqn:E; [| done]. intros (H1 & H2 & H3)%IH.
  split_and!.
  - intros q. by rewrite H1, (create_pairs _ _ _ q E).
  - intros q Hq. apply H2. rewrite (create_has _ _ _ q E), Hq. by destruct (bool_decide _).
  - intros b' [-> | Hin]%elem_of_cons; [| by apply H3]. apply H2.
    rewrite (create_has _ _ _ _ E). by rewrite bool_decide_eq_true_2.
Qed.
(** CreateTable keeps what is stored. *)
Lemma CreateTable_pairs table subs d d' e q :
  CreateTable table subs d = (d', e) → bucket_pairs d' q = bucket_pairs d q.
Proof.
  unfold CreateTable. destruct (CreateBucketIfNotExists d [table]) as [d1 |] eqn:E; [| by intros [= <- _]].
  destruct (create_subs table subs d1) as [d2 |] eqn:E2; intros [= <- _]; [| done].
  rewrite (proj1 (create_subs_spec _ _ _ _ E2)). by rewrite (create_pairs _ _ _ q E).
Qed.
Lemma CreateTable_has table subs d d' :
  CreateTable table subs d = (d', None) →
  has_bucket d' [table] = true ∧ ∀ b, b ∈ subs → has_bucket d' [table; b] = true.
Proof.
  unfold CreateTable. destruct (CreateBucketIfNotExists d [table]) as [d1 |] eqn:E; [| done].
  destruct (create_subs table subs d1) as [d2 |] eqn:E2; [| done]. intros [= <-].
  destruct (create_subs_spec _ _ _ _ E2) as (_ & H2 & H3). split; [| done].
  apply H2. rewrite (create_has _ _ _ _ E). by rewrite bool_decide_eq_true_2.
Qed.
End StoreFacts.
