(* ===== verification/RdtService.v ===== *)
(** * pkg/service/rdt: the rdt engine of the I/O service

    server.go, metrics.go and persist.go, the cpu times of info.go, and from
    rdtengine the FixedClass policy's choice of an adjustment, the readings of
    the monitors, and the task ids that watcher and executor move. *)

From S2P Require Export RdtConfig Persist RdtEngine.

(** ** Data *)

(** AppInfo *)
Record RdtApp := mkRdtAppInfo { ra_AppName : string; RdtAppInfo : RDTAppInfo }.
(** A nil map of thresholds is [None]; [l3Allocation] of a class is a text. *)
Record Threshold := mkThreshold {
  L3CacheMiss : option (gmap string f64); CpuUtilization : option (gmap string f64);
  thr_L3Usage : option (gmap string f64); thr_Mb : option (gmap string f64)
}.
Record Adjustment := mkAdjustment { adj_Threshold : Threshold; AR_L3 : gmap string string }.
Record RDTConfig := mkRdtConfig {
  Classes : list string; UpdateInterval : Z; Adjustments : gmap string Adjustment
}.

(** encoding/json and yaml on what is stored, received and configured. *)
Class RdtJson := {
  marshal_rdt_app : RdtApp → string;
  unmarshal_rdt_app : string → RdtApp + error;
  unmarshal_rdt_interval : string → Z + error;
  unmarshal_rdt_config : string → RDTConfig + error
}.

Record RdtSvc (D : Type) := mkRdtSvc {
  rs_persist : option D; rs_Apps : gmap string RdtApp; rs_Interval : Z; rs_config : RDTConfig
}.
Arguments mkRdtSvc {D}.
Arguments rs_persist {D}.
Arguments rs_Apps {D}.
Arguments rs_Interval {D}.
Arguments rs_config {D}.

(** ** Cpu time *)

(** [math.Round]: half away from zero. *)
Definition fround (x : f64) : f64 :=
  match x with
  | SpecFloat.S754_finite s m e =>
      if 0 <=? e then x
      else
        let d := 2 ^ (- e) in
        let q := (2 * Zpos m + d) / (2 * d) in
        if q =? 0 then SpecFloat.S754_zero s else of_Z (if s then - q else q)
  | _ => x
  end.
(** [int32] arithmetic wraps around. *)
Definition wrap32 (z : Z) : Z := (z + 2 ^ 31) mod 2 ^ 32 - 2 ^ 31.

Section Cpu.
Context {F : Type} `{!Files F}.

Definition cgroupControllerPath : string := "/sys/fs/cgroup/cgroup.controllers".
Definition getCgroupVersion (f : F) : string :=
  if present (Stat f cgroupControllerPath) then "v2" else "v1".
Definition stat_error : error := "stat failed".
Definition getCgroupV1CpuTime (f : F) (cgroupPath : string) : Z + error :=
  let filePath := path_join [cgroupPath; "cpuacct.usage"] in
  if negb (present (Stat f filePath)) then inr stat_error
  else match ReadFile f filePath with
       | inr e => inr e
       | inl content => ParseInt (TrimSpace content) 32
       end.
(** The first line that starts with usage_usec; without one, no error. *)
Fixpoint usage_usec (lines : list string) : outcome (Z + error) :=
  match lines with
  | [] => Ok (inl 0)
  | line :: lines =>
      match str_split " "%char line with
      | name :: rest =>
          if String.eqb name "usage_usec" then
            match rest with
            | v :: _ => Ok (ParseInt (TrimSpace v) 32)
            | [] => Crash OutOfRange
            end
          else usage_usec lines
      | [] => Crash OutOfRange
      end
  end.
Definition getCgroupV2CpuTime (f : F) (cgroupPath : string) : outcome (Z + error) :=
  let filePath := path_join [cgroupPath; "cpu.stat"] in
  if negb (present (Stat f filePath)) then Ok (inr stat_error)
  else match ReadFile f filePath with
       | inr e => Ok (inr e)
       | inl s => usage_usec (read_lines s)
       end.
Definition cpu_time (version : string) (f : F) (cgroupPath : string) : outcome (Z + error) :=
  if String.eqb version "v1" then Ok (getCgroupV1CpuTime f cgroupPath) else getCgroupV2CpuTime f cgroupPath.
(** The files before and after a second of sleep, of [elapsed] microseconds. *)
Definition getContainerCpuUtilization (f f' : F) (elapsed : Z) (cgroupPath : string) : outcome (f64 + error) :=
  let version := getCgroupVersion f in
  let! before := cpu_time version f cgroupPath in
  match before with
  | inr e => Ok (inr e)
  | inl before =>
      let! after := cpu_time version f' cgroupPath in
      match after with
      | inr e => Ok (inr e)
      | inl after =>
          let res := fdiv (of_Z (wrap32 (after - before))) (of_Z elapsed) in
          Ok (inl (fdiv (fround (fmul res (of_Z 100))) (of_Z 100)))
      end
  end.
End Cpu.

(** ** Adjustments *)

Section Adjust.
Context `{!GoRange}.

(** No class of a threshold fails [bad]. *)
Definition all_classes (bad : f64 → f64 → bool) (usage : gmap string f64) (t : option (gmap string f64)) : bool :=
  match t with
  | None => true
  | Some t => forallb (λ kv, negb (bad (default fzero (usage !! kv.1)) kv.2)) (range t)
  end.
Definition find_adjustment (ok : Threshold → bool) (l : list (string * Adjustment)) : bool * string :=
  match List.find (λ kv, ok (adj_Threshold kv.2)) l with
  | Some kv => (true, kv.1)
  | None => (false, EmptyString)
  end.
(** FixedClassPolicy.findAppropriateAdjustment: an adjustment applies while no
    usage is above its threshold. *)
Definition fixed_class_ok (l3s mbs : gmap string f64) (t : Threshold) : bool :=
  all_classes (λ use lim, flt lim use) l3s (thr_L3Usage t) &&
  all_classes (λ use lim, flt lim use) mbs (thr_Mb t).
Definition fixed_class_find (c : RDTConfig) (L3Usage : gmap string f64) (MB : gmap string (f64 * f64))
    : bool * string :=
  let l3s := list_to_map (map (λ cl, (cl, default fzero (L3Usage !! cl))) (Classes c)) in
  let mbs := list_to_map (map (λ cl, (cl, match MB !! cl with Some (_, t) => t | None => fzero end)) (Classes c)) in
  find_adjustment (fixed_class_ok l3s mbs) (range (Adjustments c)).

(** One round of a monitoring loop: what is applied, and the last one
    applied. *)
Definition adjust_round (flag : bool) (adjustment oldAdjustment : string) : option string * string :=
  if negb flag && String.eqb oldAdjustment "" then (None, oldAdjustment)
  else if negb flag && negb (String.eqb oldAdjustment "") || flag && String.eqb adjustment oldAdjustment
  then (None, oldAdjustment)
  else (Some adjustment, adjustment).

Context {F : Type} `{!Files F}.
Variable resctrlL3Info : rdtL3Info.
(** The first class that cannot be written ends it. *)
Definition adjustL3Cache (c : RDTConfig) (adjustment : string) (f : F) : outcome (F * option error) :=
  let l3 := match Adjustments c !! adjustment with Some a => AR_L3 a | None => ∅ end in
  let! r := for_range (range l3) f (λ f kv,
    let! '(f, err) := modifyRDTClassL3schema resctrlL3Info kv.1 kv.2 f in
    Ok (match err with Some e => Return (f, e) | None => Next f end)) in
  Ok (match r with Return (f, e) => (f, Some e) | Next f => (f, None) end).
Definition adjustResource (c : RDTConfig) (adjustment : string) (f : F) : outcome (F * option error) :=
  let! '(f, err) := adjustL3Cache c adjustment f in
  Ok (f, match err with Some e => Some ("can not adjust L3 cache: " +:+ e) | None => None end).
(** A round of FixedClassPolicy.Start; an error ends the process. *)
Definition fixed_class_round (c : RDTConfig) (L3Usage : gmap string f64) (MB : gmap string (f64 * f64))
    (oldAdjustment : string) (f : F) : outcome (F * string * option error) :=
  let '(flag, adjustment) := fixed_class_find c L3Usage MB in
  let '(apply_, old) := adjust_round flag adjustment oldAdjustment in
  match apply_ with
  | None => Ok (f, old, None)
  | Some a => let! '(f, err) := adjustResource c a f in Ok (f, old, err)
  end.
End Adjust.

(** ** The engine of the service *)

Section Service.
Context `{!GoRange} {F D : Type} `{!Files F} `{!BoltDB D} `{!RdtJson}.

Definition rdt_apps_table : string := "RDT.APPS".
Definition set_rs_persist v (s : RdtSvc D) : RdtSvc D := mkRdtSvc v (rs_Apps s) (rs_Interval s) (rs_config s).
Definition set_rs_Apps v (s : RdtSvc D) : RdtSvc D := mkRdtSvc (rs_persist s) v (rs_Interval s) (rs_config s).
Definition rdt_AddAppInfo (app : RdtApp) (s : RdtSvc D) : outcome (RdtSvc D * option error) :=
  let! d := deref (rs_persist s) in
  let! '(d, err) := db_Save rdt_apps_table (ra_AppName app) (marshal_rdt_app app) d in
  Ok (set_rs_persist (Some d) s, match err with Some e => Some ("could not insert app: " +:+ e) | None => None end).
Definition rdt_DeleteAppInfo (name : string) (s : RdtSvc D) : outcome (RdtSvc D * option error) :=
  let! d := deref (rs_persist s) in
  let! '(d, err) := db_Delete rdt_apps_table name d in
  Ok (set_rs_persist (Some d) s, match err with Some e => Some ("could not delete app: " +:+ e) | None => None end).
Definition rdt_GetAllAppInfos (key : string) (s : RdtSvc D) : outcome (gmap string RdtApp + error) :=
  let! d := deref (rs_persist s) in
  let! '(m, err) := db_Load rdt_apps_table key d in
  match err with
  | Some e => Ok (inr e)
  | None =>
      let! r := for_range (range m) ∅ (λ all kv,
        Ok (match unmarshal_rdt_app kv.2 with
            | inr e => Return e
            | inl app => Next (<[kv.1 := app]> all)
            end)) in
      Ok (match r with Return e => inr e | Next all => inl all end)
  end.
Definition rdt_LoadInterval (s : RdtSvc D) : outcome (Z + error) :=
  let! d := deref (rs_persist s) in
  let! '(m, err) := db_Load "RDT" "INTERVAL" d in
  match unmarshal_rdt_interval (default EmptyString (m !! "INTERVAL")) with
  | inr e => Ok (inr e)
  | inl v => Ok (match err with Some e => inr e | None => inl v end)
  end.

Definition rdt_RegisterApp (f : F) (AppName info : string) (s : RdtSvc D)
    : outcome (option ResponseState * option error * RdtSvc D) :=
  let fail msg s := Ok (Some FAIL, Some msg, s) in
  if decide (is_Some (rs_Apps s !! AppName)) then Ok (None, Some "App Already Registered", s)
  else match unmarshal_rdt_app info with
  | inr e => fail e s
  | inl app =>
      let i := RdtAppInfo app in
      if String.eqb AppName "" || String.eqb (rdt_CgroupPath i) "" || String.eqb (rdt_ContainerName i) ""
      then fail "input information for RegisterApp is not complete" s
      else if negb (present (Stat f (rdt_CgroupPath i))) then fail "CgroupPath is invalid or does not exist" s
      else if Readlink f (rdt_CgroupPath i) then fail "CgroupPath is a symbolic link, which is not allowed" s
      else
        let a := mkRdtAppInfo AppName i in
        let! '(s, err) := rdt_AddAppInfo a (set_rs_Apps (<[AppName := a]> (rs_Apps s)) s) in
        match err with
        | Some _ => fail "persistent file failed" s
        | None => Ok (Some OK_, None, s)
        end
  end.
Definition rdt_UnRegisterApp (AppId : string) (s : RdtSvc D)
    : outcome (option ResponseState * option error * RdtSvc D) :=
  match rs_Apps s !! AppId with
  | None => Ok (None, Some "App Not Found", s)
  | Some app =>
      let! '(s, _) := rdt_DeleteAppInfo (ra_AppName app) s in
      Ok (Some OK_, None, set_rs_Apps (delete AppId (rs_Apps s)) s)
  end.
Definition rdt_Configure (s : RdtSvc D) : option ResponseState * option error * RdtSvc D :=
  (Some FAIL, Some "the Req type is invalid", s).

(** The configuration file and the store at start; a fatal error is [inr]. *)
Definition rdt_Initialize (f : F) (ConfigPath : string) (d : D) : outcome (RdtSvc D + error) :=
  let '(d, _) := CreateTable "RDT" ["APPS"] d in
  let s := mkRdtSvc (Some d) ∅ 2 (mkRdtConfig [] 0 ∅) in
  let! v := rdt_LoadInterval s in
  let interval := match v with inl v => v | inr _ => 2 end in
  match ReadFile f ConfigPath with
  | inr e => Ok (inr e)
  | inl txt =>
      match unmarshal_rdt_config txt with
      | inr e => Ok (inr e)
      | inl c =>
          let! info := getRdtL3Info f in
          match info with
          | inr e => Ok (inr e)
          | inl _ =>
              let! apps := rdt_GetAllAppInfos "" s in
              Ok (match apps with
                  | inr e => inr e
                  | inl apps => inl (mkRdtSvc (Some d) apps interval c)
                  end)
          end
      end
  end.

(** metrics.go: an app whose cgroup is gone leaves the map, not the store. *)
Definition getRDTClassCPUUtilization (f f' : F) (elapsed : Z) (className : string) (s : RdtSvc D)
    : outcome (f64 * RdtSvc D) :=
  foldM (λ acc kv,
    let '(cpuUtilization, s) := acc in
    let i := RdtAppInfo kv.2 in
    if negb (String.eqb (RDTClass i) className) then Ok acc
    else
      let! cpu := getContainerCpuUtilization f f' elapsed (rdt_CgroupPath i) in
      match cpu with
      | inr _ =>
          match Stat f' (rdt_CgroupPath i) with
          | Absent => Ok (cpuUtilization, set_rs_Apps (delete kv.1 (rs_Apps s)) s)
          | _ => Ok acc
          end
      | inl cpu => Ok (fadd cpuUtilization cpu, s)
      end) (fzero, s) (range (rs_Apps s)).
Definition getRDTClassL3CacheMiss (className : string) : f64 := of_Z 100.

Definition service_ok (cpus l3misses : gmap string f64) (t : Threshold) : bool :=
  all_classes flt cpus (CpuUtilization t) && all_classes flt l3misses (L3CacheMiss t).
Definition findAppropriateAdjustment (f f' : F) (elapsed : Z) (s : RdtSvc D)
    : outcome (bool * string * RdtSvc D) :=
  let! '(cpus, l3misses, s) := foldM (λ acc cl,
    let '(cpus, l3misses, s) := acc in
    let! '(cpu, s) := getRDTClassCPUUtilization f f' elapsed cl s in
    Ok (<[cl := cpu]> cpus, <[cl := getRDTClassL3CacheMiss cl]> l3misses, s))
    ((∅ : gmap string f64), (∅ : gmap string f64), s) (Classes (rs_config s)) in
  let '(flag, k) := find_adjustment (service_ok cpus l3misses) (range (Adjustments (rs_config s))) in
  Ok (flag, k, s).
Definition getRDTclassScore (s : RdtSvc D) : gmap string f64 :=
  foldl (λ m cl, <[cl := getRDTClassL3CacheMiss cl]> m) ∅ (Classes (rs_config s)).

(** checkRDTConfig, given the L3 info: the first fault, if any. *)
Definition checkRDTConfig (f : F) (info : rdtL3Info) (s : RdtSvc D) : option error :=
  let c := rs_config s in
  let missing t := match t with
                   | Some t => existsb (λ kv, negb (bool_decide (kv.1 ∈ Classes c))) (range t)
                   | None => false
                   end in
  if existsb (λ cl, negb (present (Stat f (path_join [resctrlPath info; cl])))) (Classes c)
  then Some "does not exist"
  else
    let fault kv : option error :=
      let t := adj_Threshold kv.2 in
      match CpuUtilization t, L3CacheMiss t with
      | None, None => Some "adjustment does not have threshold"
      | _, _ =>
          if missing (CpuUtilization t) || missing (L3CacheMiss t) then Some "rdt class does not exist"
          else
            head (omap (λ kl, if negb (bool_decide (kl.1 ∈ Classes c)) then Some "rdt class does not exist"
                              else checkBitmask info kl.2) (range (AR_L3 kv.2)))
      end in
    head (omap fault (range (Adjustments c))).
End Service.

(** ** Monitors, watcher and task ids *)

Section Tasks.
Context {F : Type} `{!Files F}.

Definition readFileUint64 (f : F) (path : string) : Z + error :=
  match ReadFile f path with
  | inr e => inr e
  | inl s => ParseUint (TrimSpace s) 10 64
  end.
(** A counter of every L3 domain of a group, summed up. *)
Definition sum_domains (monPath : string) (domains : list string) (read : string → Z + error) : Z + error :=
  foldl (λ acc name,
    match acc with
    | inr e => inr e
    | inl l => if String.prefix "mon_L3_" name
               then match read name with inl v => inl (u64 (l + v)) | inr e => inr e end
               else inl l
    end) (inl 0) domains.
Definition group_mon_data (id : string) (g : engine) : string + error :=
  match GetMonitorGroup id g with
  | inr e => inr ("failed to get monitor group: " +:+ e)
  | inl grp => inl (path_join [GetMonitorGroupPath grp; "mon_data"])
  end.
Definition getMonL3CacheUsage (f : F) (id : string) (g : engine) : Z + error :=
  match group_mon_data id g with
  | inr e => inr e
  | inl monPath =>
      match ReadDir f monPath with
      | inr e => inr e
      | inl files =>
          sum_domains monPath files.*1 (λ name, readFileUint64 f (path_join [monPath; name; "llc_occupancy"]))
      end
  end.
(** Each domain is read twice, [before] and [after] a second. *)
Definition counted (before after : string → F) (monPath counter name : string) : Z + error :=
  match readFileUint64 (before name) (path_join [monPath; name; counter]),
        readFileUint64 (after name) (path_join [monPath; name; counter]) with
  | inl old, inl new => inl (u64 (new - old))
  | inr e, _ | _, inr e => inr e
  end.
Definition getMonMbUsage (f : F) (before after : string → F) (id : string) (g : engine) : (Z * Z) + error :=
  match group_mon_data id g with
  | inr e => inr e
  | inl monPath =>
      match ReadDir f monPath with
      | inr e => inr e
      | inl files =>
          match sum_domains monPath files.*1 (counted before after monPath "mbm_total_bytes"),
                sum_domains monPath files.*1 (counted before after monPath "mbm_local_bytes") with
          | inl t, inl l => inl (t, l)
          | inr e, _ | _, inr e => inr e
          end
      end
  end.

(** The numbers of a tasks file: one a line, empty lines left out. *)
Fixpoint task_lines (lines : list string) : list Z + error :=
  match lines with
  | [] => inl []
  | line :: lines =>
      let line := TrimSpace line in
      if (str_len line =? 0)%nat then task_lines lines
      else match ParseInt line 32 with
           | inr e => inr ("cannot parse cgroup value of line " +:+ line)
           | inl v => match task_lines lines with inl l => inl (v :: l) | inr e => inr e end
           end
  end.
Definition ReadCPUTasks (f : F) (path : string) : list Z + error :=
  if String.eqb path "" then inl []
  else match ReadFile f path with
       | inr e => inr e
       | inl data => task_lines (str_split newline data)
       end.
(** WriteTaskIDsToFile: the ids that it appends. *)
Definition task_ids_to_write (f : F) (taskids : list Z) (filename : string) : list Z + error :=
  match ReadFile f filename with
  | inr e => inr e
  | inl data =>
      match task_lines (str_split newline data) with
      | inr e => inr e
      | inl cur => inl (filter (λ id, id ∉ cur) taskids)
      end
  end.

Definition CgroupRoot : string := "/sys/fs/cgroup".
Definition conPrefix : string := "cri-containerd-".
Definition conSuffix : string := ".scope".
Definition TrimSuffix (s suffix : string) : string :=
  let n := (str_len s - str_len suffix)%nat in
  if (str_len suffix <=? str_len s)%nat && String.eqb (String.substring n (str_len suffix) s) suffix
  then String.substring 0 n s else s.
Definition GetSubCgroupPath (f : F) (cgroupPath : string) : gmap string string + error :=
  let appCgroupPath := CgroupRoot +:+ cgroupPath in
  let cid name := TrimSuffix (TrimPrefix name conPrefix) conSuffix in
  match ReadDir f appCgroupPath with
  | inr e => inr e
  | inl files =>
      let containers := foldl (λ m d, if d.2 && String.prefix conPrefix d.1
                                      then <[cid d.1 := path_join [appCgroupPath; d.1]]> m else m) ∅ files in
      inl (if (size containers =? 0)%nat then <[cid cgroupPath := appCgroupPath]> containers else containers)
  end.
(** A round of PidWatcher.Start: the events it emits. *)
Definition watch_app `{!GoRange} (f : F) (app : Application) : option event :=
  if st_State (app_Status app) =? -1 then None
  else match GetSubCgroupPath f (spec_CgroupPath (app_Spec app)) with
       | inr _ => None
       | inl containers =>
           let ids := concat (omap (λ kv, match ReadCPUTasks f (kv.2 +:+ "/cgroup.procs") with
                                          | inl l => Some l
                                          | inr _ => None
                                          end) (range containers)) in
           match ids with [] => None | _ => Some (TaskIdsEvent (spec_Name (app_Spec app)) ids) end
       end.
Definition watch_round `{!GoRange} (f : F) (g : engine) : list event :=
  omap (λ kv, watch_app f kv.2) (range (apps g)).
End Tasks.
