(* ===== verification/DiskService.v ===== *)
(** * pkg/service/disk: the disk engine of the I/O service

    server.go, persist.go and bandwidth.go: registered apps and their store,
    limits written to io.max, bandwidth read from io.stat or from eBPF
    counters, and what is reported of it.  Outside: loading eBPF programs, and
    goroutines that run at the same time. *)

From S2P Require Export Persist AgentLimit.

Record AppInfo := mkApp { ai_AppName : string; ai_CgroupPath : string; ai_DeviceMM : list string }.
Record RW := mkRW { rw_R : gmap string (list f64); rw_W : gmap string (list f64) }.
Record RawData := mkRaw {
  rbps : gmap string (gmap string Z); wbps : gmap string (gmap string Z);
  riops : gmap string (gmap string Z); wiops : gmap string (gmap string Z)
}.
(** A key of the eBPF counters. *)
Record Info := mkInfo { in_Cgroup : Z; in_Operation : Z; in_Slot : Z; in_Dev : Z }.
(** pb.BandwidthInfo, and AppsBandwidth with the disk payload *)
Record BandwidthInfo := mkBwInfo { bi_Id : string; bi_IsRead : bool; bi_Bandwidths : gmap string string }.
Record AppsBandwidth := mkApps { ab_IoiType : Z; ab_AppBwInfo : gmap string (list BandwidthInfo) }.

(** encoding/json on what the engine stores and receives. *)
Class DiskJson := {
  marshal_app : AppInfo → string;
  unmarshal_app : string → AppInfo + error;
  (** utils.DiskCgroupInfo: path and devices *)
  unmarshal_cgroup : string → (string * list string) + error;
  marshal_interval_info : Z → string;
  unmarshal_interval : string → Z + error
}.
(** utils.HashObject of a counter's key, and the cgroup id of a directory
    (name_to_handle_at). *)
Class DiskLib (F : Type) := {
  hash_info : Info → Z;
  cgroup_id : F → string → option Z
}.

Section DiskService.
Context `{!GoRange} {F D : Type} `{!Files F} `{!BoltDB D} `{!DiskJson} `{!FloatText} `{!DiskLib F}.

(** ** State *)

(** [FilterMap] is the eBPF filter; [prevRawData] is [None] while its maps are
    nil. *)
Record DiskSvc := mkSvc {
  ds_persist : option D;
  Apps : gmap string AppInfo;
  ds_Interval : Z;
  ContainerToPod : gmap Z string;
  EbpfBuckets : gmap Z Z;
  EbpfEnabled : bool;
  prevRawData : option RawData;
  prevMsg : option AppsBandwidth;
  LoopDevMap : gmap string string;
  FilterMap : gset Z
}.
Definition set_persist v (s : DiskSvc) : DiskSvc :=
  mkSvc v (Apps s) (ds_Interval s) (ContainerToPod s) (EbpfBuckets s) (EbpfEnabled s)
    (prevRawData s) (prevMsg s) (LoopDevMap s) (FilterMap s).
Definition set_Apps v (s : DiskSvc) : DiskSvc :=
  mkSvc (ds_persist s) v (ds_Interval s) (ContainerToPod s) (EbpfBuckets s) (EbpfEnabled s)
    (prevRawData s) (prevMsg s) (LoopDevMap s) (FilterMap s).
Definition set_Interval v (s : DiskSvc) : DiskSvc :=
  mkSvc (ds_persist s) (Apps s) v (ContainerToPod s) (EbpfBuckets s) (EbpfEnabled s)
    (prevRawData s) (prevMsg s) (LoopDevMap s) (FilterMap s).
Definition set_containers c f (s : DiskSvc) : DiskSvc :=
  mkSvc (ds_persist s) (Apps s) (ds_Interval s) c (EbpfBuckets s) (EbpfEnabled s)
    (prevRawData s) (prevMsg s) (LoopDevMap s) f.
Definition set_EbpfBuckets v (s : DiskSvc) : DiskSvc :=
  mkSvc (ds_persist s) (Apps s) (ds_Interval s) (ContainerToPod s) v (EbpfEnabled s)
    (prevRawData s) (prevMsg s) (LoopDevMap s) (FilterMap s).
Definition set_prev r m (s : DiskSvc) : DiskSvc :=
  mkSvc (ds_persist s) (Apps s) (ds_Interval s) (ContainerToPod s) (EbpfBuckets s) (EbpfEnabled s)
    r m (LoopDevMap s) (FilterMap s).
Definition set_LoopDevMap v (s : DiskSvc) : DiskSvc :=
  mkSvc (ds_persist s) (Apps s) (ds_Interval s) (ContainerToPod s) (EbpfBuckets s) (EbpfEnabled s)
    (prevRawData s) (prevMsg s) v (FilterMap s).

(** ** persist.go *)

Definition apps_table : string := "DISK.APPS".
(** The store is dereferenced; what a table operation returns is stored back. *)
Definition with_db (op : D → outcome (D * option error)) (s : DiskSvc) : outcome (DiskSvc * option error) :=
  let! d := deref (ds_persist s) in
  let! '(d, err) := op d in
  Ok (set_persist (Some d) s, err).
Definition AddAppInfo (app : AppInfo) (s : DiskSvc) : outcome (DiskSvc * option error) :=
  let! '(s, err) := with_db (db_Save apps_table (ai_AppName app) (marshal_app app)) s in
  Ok (s, match err with Some e => Some ("could not insert app: " +:+ e) | None => None end).
Definition GetAllAppInfos (key : string) (s : DiskSvc) : outcome (gmap string AppInfo + error) :=
  let! d := deref (ds_persist s) in
  let! '(m, err) := db_Load apps_table key d in
  match err with
  | Some e => Ok (inr e)
  | None =>
      let! r := for_range (range m) ∅ (λ all kv,
        Ok (match unmarshal_app kv.2 with
            | inr e => Return e
            | inl app => Next (<[kv.1 := app]> all)
            end)) in
      Ok (match r with Return e => inr e | Next all => inl all end)
  end.
Definition SaveInterval (v : Z) (s : DiskSvc) : outcome (DiskSvc * option error) :=
  let! '(s, err) := with_db (db_Save "DISK" "INTERVAL" (marshal_interval_info v)) s in
  Ok (s, match err with Some e => Some ("save interval fail: " +:+ e) | None => None end).
Definition LoadInterval (s : DiskSvc) : outcome (Z + error) :=
  let! d := deref (ds_persist s) in
  let! '(m, err) := db_Load "DISK" "INTERVAL" d in
  match unmarshal_interval (default EmptyString (m !! "INTERVAL")) with
  | inr e => Ok (inr e)
  | inl v => Ok (match err with Some e => inr e | None => inl v end)
  end.
Definition DeleteAppInfo (name : string) (s : DiskSvc) : outcome (DiskSvc * option error) :=
  let! '(s, err) := with_db (db_Delete apps_table name) s in
  Ok (s, match err with Some e => Some ("could not delete app: " +:+ e) | None => None end).

(** ** Registration *)

Definition deleteAppInfo (AppId : string) (s : DiskSvc) : outcome (DiskSvc * option error) :=
  let! app := deref (Apps s !! AppId) in
  let! '(s, _) := DeleteAppInfo (ai_AppName app) s in
  let s := set_Apps (delete AppId (Apps s)) s in
  if EbpfEnabled s then
    let ids := filter (λ kv, kv.2 = AppId) (ContainerToPod s) in
    Ok (set_containers (ContainerToPod s ∖ ids) (FilterMap s ∖ dom ids) s, None)
  else Ok (s, None).

(** One round of CheckPodCgroup. *)
Definition check_pod_cgroup (f : F) (s : DiskSvc) : outcome DiskSvc :=
  foldM (λ s kv,
    match Stat f (ai_CgroupPath kv.2) with
    | Absent => let! '(s, _) := deleteAppInfo kv.1 s in Ok s
    | _ => Ok s
    end) s (range (Apps s)).

(** regexp "([0-9]+:[0-9])+", unanchored: somewhere a colon between digits. *)
Fixpoint checkValidDevice (s : string) : bool :=
  match s with
  | String a ((String b (String c _)) as r) =>
      (match digit a, Ascii.eqb b ":", digit c with
       | Some _, true, Some _ => true
       | _, _, _ => false
       end) || checkValidDevice r
  | _ => false
  end.

(** One device of MapLoopToDisk. *)
Definition mountLinksDir : string := "/opt/ioi/".
Definition devicesPath : string := "/sys/block".
Definition loop_disk (f : F) (name : string) : option (string * string) :=
  if negb (String.prefix "loop" name) then None
  else match ReadFile f (path_join [devicesPath; name; "loop"; "backing_file"]) with
       | inr _ => None
       | inl backing =>
           if negb (String.prefix mountLinksDir backing) then None
           else
             let diskName := default EmptyString (head (str_split slash (TrimPrefix backing mountLinksDir))) in
             match ReadFile f (path_join [devicesPath; diskName; "dev"]),
                   ReadFile f (path_join [devicesPath; name; "dev"]) with
             | inl diskMM, inl loopMM =>
                 let plain s := drop_char (ascii_of_nat 13) (drop_char newline s) in
                 Some (plain loopMM, plain diskMM)
             | _, _ => None
             end
       end.
Definition MapLoopToDisk (f : F) (s : DiskSvc) : DiskSvc * option error :=
  match ReadDir f devicesPath with
  | inr e => (s, Some e)
  | inl devices =>
      (set_LoopDevMap (foldl (λ m d, match loop_disk f d.1 with
                                     | Some (loop, disk) => <[loop := disk]> m
                                     | None => m
                                     end) (LoopDevMap s) devices) s, None)
  end.

(** A response is nil or the app's name and a state. *)
Definition RegisterApp_svc (f : F) (AppName info : string) (s : DiskSvc)
    : outcome (option ResponseState * option error * DiskSvc) :=
  let fail msg s := Ok (Some FAIL, Some msg, s) in
  if decide (is_Some (Apps s !! AppName)) then Ok (None, Some "App Already Registered", s)
  else match unmarshal_cgroup info with
  | inr e => fail e s
  | inl (path, devices) =>
      if (length devices =? 0)%nat || String.eqb AppName "" || String.eqb path ""
      then fail "input information for RegisterApp is not complete" s
      else if negb (present (Stat f path)) then fail "CgroupPath is invalid or does not exist" s
      else if negb (forallb checkValidDevice devices) then fail "DeviceId is invalid" s
      else if Readlink f path then fail "CgroupPath is a symbolic link, which is not allowed" s
      else
        let '(s, _) := MapLoopToDisk f s in
        let a := mkApp AppName path devices in
        let s := set_Apps (<[AppName := a]> (Apps s)) s in
        let! '(s, err) := AddAppInfo a s in
        match err with
        | Some _ => fail "persistent file failed" s
        | None => Ok (Some OK_, None, s)
        end
  end.

Definition UnRegisterApp_svc (AppId : string) (s : DiskSvc)
    : outcome (option ResponseState * option error * DiskSvc) :=
  if decide (is_Some (Apps s !! AppId)) then
    let! '(s, err) := deleteAppInfo AppId s in
    match err with
    | Some e => Ok (Some FAIL, Some e, s)
    | None => Ok (Some OK_, None, s)
    end
  else Ok (None, Some "App Not Found", s).

Definition Configure_svc (Type_ conf : string) (s : DiskSvc)
    : outcome (option ResponseState * option error * DiskSvc) :=
  match ds_persist s with
  | None => Ok (None, Some "db is nil", s)
  | Some _ =>
      if String.eqb conf "" then Ok (Some FAIL, None, s)
      else if String.eqb Type_ "INTERVAL" then
        match unmarshal_interval conf with
        | inr e => Ok (Some FAIL, None, s)
        | inl v =>
            let! '(s, err) := SaveInterval v (set_Interval v s) in
            match err with
            | Some _ => Ok (None, Some "update db for interval failed", s)
            | None => Ok (Some OK_, None, s)
            end
        end
      else Ok (None, Some "the Req type is invalid", s)
  end.

(** ** Limits *)

Definition limit_set (s : string) : bool := negb (String.eqb s "") && negb (String.eqb s "0").
(** The text of one limit: nothing when neither direction is limited. *)
Definition limit_body (l : BWLimit) : string :=
  if limit_set (lmt_In l) || limit_set (lmt_Out l) then
    lmt_Id l +:+ " " +:+
    (if limit_set (lmt_In l)
     then "rbps=" +:+ lmt_In l +:+ " " +:+ "riops=" +:+ pretty (lmt_InIops l) +:+ " " else "") +:+
    (if limit_set (lmt_Out l)
     then "wbps=" +:+ lmt_Out l +:+ " " +:+ "wiops=" +:+ pretty (lmt_OutIops l) +:+ " " else "")
  else "".
Definition limit_line (l : BWLimit) : string := limit_body l +:+ nl.
Definition limit_values (limits : list BWLimit) : string :=
  foldl (λ values l, values +:+ limit_line l) EmptyString limits.

(** The last byte of the text is cut off, which an empty text does not have. *)
Definition SetAppLimit_svc (AppId : string) (limits : list BWLimit) (s : DiskSvc) (f : F)
    : outcome (option ResponseState * option error * F) :=
  match str_split dot AppId with
  | _ :: id :: _ =>
      match Apps s !! id with
      | None => Ok (None, Some "app not registered", f)
      | Some app =>
          let values := limit_values limits in
          if (str_len values =? 0)%nat then Crash OutOfRange
          else
            let values := str_drop_last 1 values in
            if String.eqb values "" then Ok (Some OK_, None, f)
            else
              let path := ai_CgroupPath app +:+ "/io.max" in
              match ReadFile f path with
              | inr _ => Ok (Some OK_, None, f)
              | inl _ =>
                  let '(f, err) := WriteFile f path values in
                  match err with
                  | Some e => Ok (None, Some e, f)
                  | None => Ok (Some OK_, None, f)
                  end
              end
      end
  | _ => Ok (None, Some "disk not support group limit", f)
  end.

(** ** Bandwidth from io.stat *)

Definition part (c : ascii) (i : nat) (s : string) : outcome string :=
  match str_split c s !! i with Some x => Ok x | None => Crash OutOfRange end.
Definition word (l : list string) (i : nat) : outcome string :=
  match l !! i with Some x => Ok x | None => Crash OutOfRange end.
(** [strings.Split(line[i], "=")[1]] as a number *)
Definition stat_value (line : list string) (i : nat) : outcome Z :=
  let! w := word line i in
  let! v := part "="%char 1 w in
  Ok (Atoi_value v).

(** read, write, read operations, write operations *)
Record counters := mkCounters { c_r : Z; c_w : Z; c_ri : Z; c_wi : Z }.
Definition stat_line (loops : gmap string string) (DeviceMM : string) (acc : counters) (l : string)
    : outcome counters :=
  let line := str_split " "%char l in
  if (length line <? 3)%nat then Ok acc
  else
    let! diskID := word line 0 in
    let diskID := if String.eqb diskID DeviceMM then diskID
                  else default EmptyString (loops !! diskID) in
    if negb (String.eqb diskID DeviceMM) then Ok acc
    else
      let! read := stat_value line 1 in
      let! write := stat_value line 2 in
      let! ri := stat_value line 3 in
      let! wi := stat_value line 4 in
      Ok (mkCounters (add64 (c_r acc) read) (add64 (c_w acc) write)
            (add64 (c_ri acc) ri) (add64 (c_wi acc) wi)).

Definition ListDir (f : F) (dirname : string) : list string :=
  match ReadDir f dirname with
  | inr _ => []
  | inl infos => filter (λ n, String.prefix "cri-containerd" n = true) infos.*1
  end.
(** [None] when a file cannot be opened, for which the code returns -1. *)
Definition GetReadWrite (f : F) (s : DiskSvc) (cgroupPath DeviceMM : string) : outcome (option counters) :=
  let! r := for_range (ListDir f cgroupPath) (mkCounters 0 0 0 0) (λ acc p,
    match ReadFile f (cgroupPath +:+ "/" +:+ p +:+ "/io.stat") with
    | inr _ => Ok (Return ())
    | inl txt =>
        let! acc := foldM (stat_line (LoopDevMap s) DeviceMM) acc (read_lines txt) in
        Ok (Next acc)
    end) in
  Ok (match r with Return _ => None | Next c => Some c end).

(** The devices of one app that have counters. *)
Definition app_counters (f : F) (s : DiskSvc) (app : AppInfo) : outcome (gmap string counters) :=
  foldM (λ m di,
    let! c := GetReadWrite f s (ai_CgroupPath app) di in
    Ok (match c with
        | None => m
        | Some c => if (c_r c =? -1) && (c_w c =? -1) && (c_ri c =? -1) && (c_wi c =? -1)
                    then m else <[di := c]> m
        end)) ∅ (ai_DeviceMM app).
Definition GetAppsReadWrite (f : F) (s : DiskSvc) : outcome RawData :=
  foldM (λ raw kv,
    let app := kv.2 in
    if str_contains (ai_CgroupPath app) "cri-containerd" then Ok raw
    else
      let! c := app_counters f s app in
      let put (sel : counters → Z) m := <[ai_AppName app := sel <$> c]> m in
      Ok (mkRaw (put c_r (rbps raw)) (put c_w (wbps raw)) (put c_ri (riops raw)) (put c_wi (wiops raw))))
    (mkRaw ∅ ∅ ∅ ∅) (range (Apps s)).

Definition Num : nat := 6.
Definition SolveEquations (a1 b1 c1 a2 b2 c2 : f64) : f64 * f64 :=
  let det := fsub (fmul a1 b2) (fmul a2 b1) in
  if feq det fzero then (fzero, fzero)
  else
    let x := fdiv (fsub (fmul c1 b2) (fmul c2 b1)) det in
    let y := fdiv (fsub (fmul a1 c2) (fmul a2 c1)) det in
    (fmul x a1, fmul y b1).
(** [data] after ConvertData on a slice of zeros: the bandwidth is split
    between the two block sizes around its mean. *)
Definition ConvertData (bps iops : f64) : list f64 :=
  let zeros := replicate Num fzero in
  let bs := fdiv bps iops in
  let one i := <[i := bps]> zeros in
  let two i lo hi :=
    let '(x, y) := SolveEquations (of_Z lo) (of_Z hi) bps (of_Z 1) (of_Z 1) iops in
    <[S i := y]> (<[i := x]> zeros) in
  if fle bs (of_Z 512) then one 0%nat
  else if flt bs (of_Z 1024) then two 0%nat 512 1024
  else if feq bs (of_Z 1024) then one 1%nat
  else if flt bs (of_Z 4096) then two 1%nat 1024 4096
  else if feq bs (of_Z 4096) then one 2%nat
  else if flt bs (of_Z 8192) then two 2%nat 4096 8192
  else if feq bs (of_Z 8192) then one 3%nat
  else if flt bs (of_Z 16384) then two 3%nat 8192 16384
  else if feq bs (of_Z 16384) then one 4%nat
  else if flt bs (of_Z 32768) then two 4%nat 16384 32768
  else one 5%nat.

(** [m[name][di]], zero when it is missing *)
Definition raw_at (m : gmap string (gmap string Z)) (name di : string) : Z :=
  default 0 (default ∅ (m !! name) !! di).
Definition GetCurBandwidth (pre cur : option RawData) (s : DiskSvc) : outcome (gmap string RW) :=
  let interval := of_Z (ds_Interval s) in
  let! cur := deref cur in
  foldM (λ out kv,
    let '(name, read) := kv in
    let! rw := foldM (λ rw kd,
      let di := kd.1 in
      let! pre := deref pre in
      let delta (sel : RawData → gmap string (gmap string Z)) :=
        let v := if decide (is_Some (default ∅ (rbps pre !! name) !! di))
                 then sub64 (raw_at (sel cur) name di) (raw_at (sel pre) name di)
                 else raw_at (sel cur) name di in
        fdiv (fmax (of_Z v) fzero) interval in
      Ok (mkRW (<[di := ConvertData (delta rbps) (delta riops)]> (rw_R rw))
            (<[di := ConvertData (delta wbps) (delta wiops)]> (rw_W rw))))
      (mkRW ∅ ∅) (range read) in
    Ok (<[name := rw]> out)) ∅ (range (rbps cur)).

(** ** Bandwidth from eBPF counters *)

Definition slotToSize (slot : Z) : Z := u64 (u64 (Z.shiftl 1 slot) * 512).
Definition dev_name (dev : Z) : string :=
  pretty (Z.shiftr dev 20) +:+ ":" +:+ pretty (Z.land dev (2 ^ 20 - 1)).
(** The device under which a counter is filed: itself or its backing disk. *)
Definition filed_under (m : gmap string (list f64)) (loops : gmap string string) (dev : string)
    : option string :=
  match m !! dev with Some _ => Some dev | None => loops !! dev end.
Definition add_slot (delta : Z) (slot : Z) (interval : Z) (dev : string) (m : gmap string (list f64))
    : outcome (gmap string (list f64)) :=
  let l := default [] (m !! dev) in
  let! old := index l slot in
  Ok (<[dev := <[Z.to_nat slot := fadd old (fdiv (of_Z (u64 (delta * slotToSize slot))) (of_Z interval))]> l]> m).
Definition count_entry (acc : gmap string RW * DiskSvc) (kv : Info * Z) : outcome (gmap string RW * DiskSvc) :=
  let '(bandwidth, s) := acc in
  let '(key, value) := kv in
  match ContainerToPod s !! in_Cgroup key with
  | None => Ok (bandwidth, s)
  | Some pod =>
      let hash := hash_info key in
      let prev := default 0 (EbpfBuckets s !! hash) in
      let s := set_EbpfBuckets (<[hash := value]> (EbpfBuckets s)) s in
      match bandwidth !! pod with
      | None => Ok (bandwidth, s)
      | Some rw =>
          match filed_under (rw_R rw) (LoopDevMap s) (dev_name (in_Dev key)) with
          | None => Ok (bandwidth, s)
          | Some dev =>
              match filed_under (rw_W rw) (LoopDevMap s) dev with
              | None => Ok (bandwidth, s)
              | Some dev =>
                  let delta := if value <? prev then 0 else value - prev in
                  let! rw :=
                    if in_Operation key =? 0 then
                      let! m := add_slot delta (in_Slot key) (ds_Interval s) dev (rw_R rw) in
                      Ok (mkRW m (rw_W rw))
                    else
                      let! m := add_slot delta (in_Slot key) (ds_Interval s) dev (rw_W rw) in
                      Ok (mkRW (rw_R rw) m) in
                  Ok (<[pod := rw]> bandwidth, s)
              end
          end
      end
  end.
(** [entries] is what the counting map holds. *)
Definition UpdateCountingMap (entries : list (Info * Z)) (s : DiskSvc) : outcome (gmap string RW * DiskSvc) :=
  let empty info := list_to_map (map (λ dev, (dev, replicate 10 fzero)) (ai_DeviceMM info)) in
  foldM count_entry ((λ info, mkRW (empty info) (empty info)) <$> Apps s, s) entries.

Definition SynchronizeContainerList (f : F) (s : DiskSvc) : DiskSvc :=
  foldl (λ s kv,
    let path := ai_CgroupPath kv.2 in
    match ReadDir f path with
    | inr _ => s
    | inl files =>
        foldl (λ s d,
          if d.2 && str_contains d.1 "cri-containerd" then
            match cgroup_id f (path +:+ "/" +:+ d.1) with
            | None => s
            | Some id =>
                match ContainerToPod s !! id with
                | Some _ => s
                | None => set_containers (<[id := kv.1]> (ContainerToPod s)) ({[id]} ∪ FilterMap s) s
                end
            end
          else s) s files
    end) s (range (Apps s)).

(** ** Reports *)

Definition bsList : list string := ["512b"; "1k"; "4k"; "8k"; "16k"; "32k"].
Definition at_ (l : list f64) (i : nat) : outcome f64 :=
  match l !! i with Some x => Ok x | None => Crash OutOfRange end.
(** The six values reported of a slice: as they are, or, for the ten slots of
    the counters, with the slots between two block sizes added up. *)
Definition cgroup_values (l : list f64) : outcome (list f64) :=
  foldM (λ acc i, let! v := at_ l i in Ok (acc ++ [v])) [] [0; 1; 2; 3; 4; 5]%nat.
Definition ebpf_values (l : list f64) : outcome (list f64) :=
  let! x0 := at_ l 0 in let! x1 := at_ l 1 in let! x2 := at_ l 2 in let! x3 := at_ l 3 in
  let! x4 := at_ l 4 in let! x5 := at_ l 5 in let! x6 := at_ l 6 in let! x7 := at_ l 7 in
  let! x8 := at_ l 8 in
  Ok [x0; fadd x1 x2; x3; x4; x5; fadd x6 (fadd x7 x8)].
Definition bw_infos (values : list f64 → outcome (list f64)) (isRead : bool) (m : gmap string (list f64))
    : outcome (list BandwidthInfo) :=
  foldM (λ acc kv,
    let! l := values kv.2 in
    Ok (acc ++ [mkBwInfo kv.1 isRead (list_to_map (zip bsList (FormatFloat <$> l)))])) [] (range m).
Definition create_msg (values : list f64 → outcome (list f64)) (ioiType : Z) (data : gmap string RW)
    : outcome (option AppsBandwidth) :=
  let! bws := foldM (λ m kv,
    let! r := bw_infos values true (rw_R kv.2) in
    let! w := bw_infos values false (rw_W kv.2) in
    Ok (<[kv.1 := r ++ w]> m)) ∅ (range data) in
  Ok (if ioiType =? 1 then Some (mkApps ioiType bws) else None).
Definition diskCreateMsgCgroup := create_msg cgroup_values.
Definition diskCreateMsgEbpf := create_msg ebpf_values.

(** ComparePodList: the sorted keys are equal. *)
Definition same_pods (prev cur : gmap string (list BandwidthInfo)) : bool :=
  bool_decide (dom prev = dom cur).
Definition FilterDataValue : f64 := of_Z 1024.

(** One block size of two entries: the first error, or the first change of
    more than 1024, ends the comparison. *)
Definition compare_size (bw prevBw : BandwidthInfo) (bs : string) : ctrl () (bool * option error) :=
  match ParseFloat32 (default EmptyString (bi_Bandwidths bw !! bs)) with
  | inr e => Return (false, Some e)
  | inl cur =>
      match ParseFloat32 (default EmptyString (bi_Bandwidths prevBw !! bs)) with
      | inr e => Return (false, Some e)
      | inl pre => if flt FilterDataValue (fabs (fsub cur pre)) then Return (true, None) else Next ()
      end
  end.
Definition FilterData (prev cur : option AppsBandwidth) : outcome (bool * option error) :=
  match cur, prev with
  | None, _ => Ok (false, Some "cur is nil")
  | Some _, None => Ok (true, None)
  | Some cur, Some prev =>
      if negb (same_pods (ab_AppBwInfo prev) (ab_AppBwInfo cur)) then Ok (true, None)
      else
        let! r := for_range (range (ab_AppBwInfo cur)) () (λ _ kv,
          match ab_AppBwInfo prev !! kv.1 with
          | None => Ok (Next ())
          | Some prevBws =>
              for_range kv.2 () (λ _ bw,
                for_range prevBws () (λ _ prevBw,
                  if Bool.eqb (bi_IsRead prevBw) (bi_IsRead bw) && String.eqb (bi_Id bw) (bi_Id prevBw)
                  then for_range bsList () (λ _ bs, Ok (compare_size bw prevBw bs))
                  else Ok (Next ())))
          end) in
        Ok (match r with Return r => r | Next _ => (false, None) end)
  end.

(** [snd] is the stream; what was sent is returned. *)
Definition Send (snd : AppsBandwidth → option error) (ioiType : Z) (data : gmap string RW) (s : DiskSvc)
    : outcome (option AppsBandwidth * option error * DiskSvc) :=
  if (size data =? 0)%nat then Ok (None, None, s)
  else
    let! curMsg := (if EbpfEnabled s then diskCreateMsgEbpf else diskCreateMsgCgroup) ioiType data in
    let! '(sndflag, err) := FilterData (prevMsg s) curMsg in
    match err with
    | Some e => Ok (None, Some e, s)
    | None =>
        let s := set_prev (prevRawData s) curMsg s in
        match sndflag, curMsg with
        | true, Some m => Ok (Some m, snd m, s)
        | _, _ => Ok (None, None, s)
        end
    end.

(** The two rounds of Subscribe (for the disk type only). *)
Definition EbpfSyncAndSend (f : F) (entries : list (Info * Z)) (snd : AppsBandwidth → option error)
    (ioiType : Z) (s : DiskSvc) : outcome (option AppsBandwidth * option error * DiskSvc) :=
  let s := SynchronizeContainerList f s in
  let! '(curData, s) := UpdateCountingMap entries s in
  Send snd ioiType curData s.
Definition CgroupSyncAndSend (f : F) (snd : AppsBandwidth → option error) (ioiType : Z) (s : DiskSvc)
    : outcome (option AppsBandwidth * option error * DiskSvc) :=
  if (size (Apps s) =? 0)%nat then Ok (None, None, s)
  else
    let! cur := GetAppsReadWrite f s in
    let! curData := GetCurBandwidth (prevRawData s) (Some cur) s in
    Send snd ioiType curData (set_prev (Some cur) (prevMsg s) s).

(** ** Initialize *)

(** [ebpf]: eBPF is configured and its programs were loaded. *)
Definition Initialize_svc (f : F) (ebpf : bool) (d : D) : outcome DiskSvc :=
  let '(d, _) := CreateTable "DISK" ["APPS"; "GROUPS"] d in
  let s := mkSvc (Some d) ∅ 2 ∅ ∅ ebpf None None ∅ ∅ in
  let! apps := GetAllAppInfos "" s in
  let s := match apps with inl apps => set_Apps apps s | inr _ => s end in
  let! v := LoadInterval s in
  let s := match v with inl v => set_Interval v s | inr _ => s end in
  if ebpf then Ok s
  else
    let! raw := GetAppsReadWrite f s in
    let! bw := GetCurBandwidth (Some raw) (Some raw) s in
    let! msg := diskCreateMsgCgroup 1 bw in
    Ok (set_prev (Some raw) msg s).
End DiskService.
Arguments DiskSvc D : clear implicits.

(** ** The disks of the node *)

(** The answer of lsblk: the list under "blockdevices". *)
Class LsblkJson := { unmarshal_lsblk : string → list BlockDevice + error }.

Section Disks.
Context {F : Type} `{!Files F} `{!LsblkJson}.

(** A failing df has an empty output. *)
Definition getPartSize (f : F) (path : string) : outcome Z :=
  let out := match RunBash f ("df " +:+ path) with inl s => s | inr _ => EmptyString end in
  let! field := match str_fields out !! 10%nat with Some x => Ok x | None => Crash OutOfRange end in
  Ok (mul64 (Atoi_value field) 1024).
Definition judgePartProfile (mnt : string) : bool :=
  negb (String.prefix "/boot/" mnt || String.eqb mnt "/boot" || String.eqb mnt "[SWAP]").
Definition lsblk_cmd (disk : string) : string :=
  "lsblk " +:+ disk +:+ " -pbJo name,type,maj:min,mountpoint,model,serial,rota,pkname".
Definition getADiskInfo (f : F) (diskName : string) : list BlockDevice + error :=
  match RunBash f (lsblk_cmd diskName) with
  | inr e => inr e
  | inl s => unmarshal_lsblk s
  end.
Definition getAllDiskInfo (f : F) : gmap string string + error :=
  match getADiskInfo f "" with
  | inr e => inr e
  | inl l => inl (foldl (λ m v, if String.eqb (blk_Type v) "disk" then <[blk_Name v := blk_Name v]> m else m) ∅ l)
  end.
Definition getDiskType (id : Z) : string := if id =? 0 then "emptyDir" else "non-emptyDir".

(** The variables that checkDiskDetails declares before its loop. *)
Record DiskVars := mkVars {
  dName : string; dMM : string; dMount : string; dModel : string; dSerial : string;
  partName : string; dSize : Z
}.
(** The largest partition: the size and the name found so far are kept. *)
Definition best_part (f : F) (v : DiskVars) (chd : BlockDevice) : outcome DiskVars :=
  if negb (judgePartProfile (blk_Mount chd)) then Ok v
  else
    let! partSize := getPartSize f (blk_Name chd) in
    Ok (if dSize v <? partSize
        then mkVars (dName v) (dMM v) (blk_Mount chd) (dModel v) (dSerial v) (blk_Name chd) partSize
        else v).
Definition first_device (l : list BlockDevice) : outcome BlockDevice :=
  match l with d :: _ => Ok d | [] => Crash OutOfRange end.
(** One disk: the variables, and whether it is listed. *)
Definition disk_details (f : F) (inDisk : string) (v : DiskVars) : outcome (DiskVars * bool) :=
  match getADiskInfo f inDisk with
  | inr _ => Ok (v, false)
  | inl bd =>
      let! d := first_device bd in
      if String.eqb (PName d) "" then
        let v := mkVars (blk_Name d) (MajMin d) (dMount v) (blk_Model d) (blk_Serial d) (partName v) (dSize v) in
        match Children d with
        | [] =>
            let v := mkVars (dName v) (dMM v) (blk_Mount d) (dModel v) (dSerial v) (partName v) (dSize v) in
            if negb (judgePartProfile (dMount v)) then Ok (v, false)
            else
              let! size := getPartSize f (dName v) in
              Ok (mkVars (dName v) (dMM v) (dMount v) (dModel v) (dSerial v) (partName v) size, true)
        | children =>
            let! v := foldM (best_part f) v children in
            Ok (v, negb (String.eqb (partName v) ""))
        end
      else
        let v := mkVars (PName d) (dMM v) (blk_Mount d) (dModel v) (dSerial v) (partName v) (dSize v) in
        if negb (judgePartProfile (dMount v)) then Ok (v, false)
        else
          let! size := getPartSize f (blk_Name d) in
          let v := mkVars (dName v) (dMM v) (dMount v) (dModel v) (dSerial v) (partName v) size in
          match getADiskInfo f (dName v) with
          | inr _ => Ok (v, false)
          | inl pParent =>
              let! p := first_device pParent in
              Ok (mkVars (dName v) (MajMin p) (dMount v) (blk_Model p) (blk_Serial p) (partName v) (dSize v), true)
          end
  end.
Definition checkDiskDetails (f : F) (diskList : list string) : outcome (gmap string BlockDevice) :=
  let! '(_, res, _) := foldM (λ acc inDisk,
    let '(v, res, idx) := acc in
    let! '(v, listed) := disk_details f inDisk v in
    let! res :=
      if listed then
        let! did := GetDiskId (dModel v) (dSerial v) in
        Ok (<[did := mkBlockDevice (dName v) (getDiskType idx) EmptyString (dMM v) (dSize v) (dMount v)
                       (dModel v) (dSerial v) false []]> res)
      else Ok res in
    Ok (v, res, idx + 1))
    (mkVars "" "" "" "" "" "" 0, (∅ : gmap string BlockDevice), 0) diskList in
  Ok res.
End Disks.
