(* ===== verification/AgentSource.v ===== *)
(** * pkg/agent/engines: where the agent's events come from

    admin.go (the administrator's config map), policy.go (the policies) and
    nri.go (the callbacks of the container runtime).  Left out: the informers,
    the start of the NRI plugin and its own configuration. *)

From S2P Require Export AgentLimit Persist.

Definition AdminName : string := "admin-configmap".
Definition AdminNamespace : string := "ioi-system".
Definition PolicyName : string := "policy-configmap".

(** regexp.MustCompile(re).FindString(s): [None] when [re] does not compile. *)
Class RegexpLib := { FindString : string → string → option string }.

(** ** Texts of lines *)

(** The lines that the loops see: what follows the last line end is not read. *)
Definition config_lines (text : string) : list string := removelast (str_split newline text).
(** [name=value] lines, up to the first that has no [=]. *)
Fixpoint settings (lines : list string) : list (string * string) :=
  match lines with
  | l :: ls =>
      match str_split "="%char l with
      | name :: value :: _ => (name, value) :: settings ls
      | _ => []
      end
  | [] => []
  end.
(** strconv.Atoi, with the value kept so far for an error. *)
Definition Atoi_or (old : Z) (s : string) : Z :=
  match ParseInt s 64 with inl v => v | inr _ => old end.

(** ** GetAdminConfig *)

Section Admin.
Context `{!RegexpLib} `{!LogJson}.

(** diskpools and networkpools: the best-effort and the system pool. *)
Definition pool_line (acc : Z * Z) (line : string) : outcome (Z * Z) :=
  let '(bePool, sysPool) := acc in
  match str_split "="%char line with
  | name :: v :: _ =>
      Ok (match ParseInt v 64 with
          | inr _ => acc
          | inl value =>
              if String.eqb name "bePool" then (value, sysPool)
              else if String.eqb name "sysPool" then (bePool, value) else acc
          end)
  | _ => Crash OutOfRange
  end.
Definition pools (text : option string) : outcome (Z * Z) :=
  match text with
  | None => Ok (20, 20)
  | Some text => foldM pool_line (20, 20) (config_lines text)
  end.

(** min_pod_bw *)
Record mins := mkMins { mn_disk_in : Z; mn_disk_out : Z; mn_net_in : Z; mn_net_out : Z }.
Definition positive_or (old : Z) (s : string) : Z :=
  match ParseInt s 64 with inl v => if v <=? 0 then old else v | inr _ => old end.
Definition min_line (m : mins) (kv : string * string) : mins :=
  let '(name, v) := kv in
  if String.eqb name "disk_read" then
    mkMins (positive_or (mn_disk_in m) v) (mn_disk_out m) (mn_net_in m) (mn_net_out m)
  else if String.eqb name "disk_write" then
    mkMins (mn_disk_in m) (positive_or (mn_disk_out m) v) (mn_net_in m) (mn_net_out m)
  else if String.eqb name "net_send" then
    mkMins (mn_disk_in m) (mn_disk_out m) (positive_or (mn_net_in m) v) (mn_net_out m)
  else if String.eqb name "net_receive" then
    mkMins (mn_disk_in m) (mn_disk_out m) (mn_net_in m) (positive_or (mn_net_out m) v)
  else m.
Definition min_bws (text : option string) : mins :=
  let m := mkMins 5 5 5 5 in
  match text with None => m | Some text => foldl min_line m (settings (config_lines text)) end.

(** loglevel: the first [nodes] line says whether this node is meant. *)
Definition no_levels : IOILogLevel := Agent.mkLogLevel false false false false false false false false.
Fixpoint node_meant (NodeName : string) (l : list (string * string)) : outcome bool :=
  match l with
  | [] => Ok false
  | (name, v) :: l =>
      if String.eqb name "nodes" then
        match FindString v NodeName with
        | None => Crash ParsePanic
        | Some sub => Ok (negb (String.eqb sub ""))
        end
      else node_meant NodeName l
  end.
Definition level_line (ll : IOILogLevel) (kv : string * string) : IOILogLevel :=
  let infos := Agent.mkLogLevel true (NodeAgentDebug ll) (SchedulerInfo ll) (SchedulerDebug ll) true
                 (AggregatorDebug ll) true (ServiceDebug ll) in
  let '(name, v) := kv in
  if String.eqb name "level" then
    if String.eqb v "debug" then Agent.mkLogLevel true true (SchedulerInfo ll) (SchedulerDebug ll) true true true true
    else if String.eqb v "info" then infos else ll
  else ll.
Definition log_levels (NodeName : string) (text : string) : outcome IOILogLevel :=
  let l := settings (config_lines text) in
  let! IsThisNode := node_meant NodeName l in
  Ok (if IsThisNode then foldl level_line no_levels l else no_levels).
Definition IOIConfigureLoglevel (ioType : Z) (info debug : bool) : service_msg :=
  Configure "LOGLEVEL" (marshal_log (Persist.mkLogLevel info debug)) ioType.
(** utils.SetLogLevel: the new INF and DBG. *)
Definition SetLogLevel (info debug : bool) : Z * Z := (if info then 1 else 3, if debug then 2 else 4).

(** reportInterval *)
Definition interval_line (i : ReportInterval) (kv : string * string) : ReportInterval :=
  let '(name, v) := kv in
  if String.eqb name "netInterval" then mkInterval (Atoi_or (NetInterval i) v) (DiskInterval i) (RdtInterval i)
  else if String.eqb name "diskInterval" then
    mkInterval (NetInterval i) (Atoi_or (DiskInterval i) v) (RdtInterval i)
  else if String.eqb name "rdtInterval" then
    mkInterval (NetInterval i) (DiskInterval i) (Atoi_or (RdtInterval i) v)
  else i.
Definition intervals (text : option string) : ReportInterval :=
  let i := mkInterval 2 2 30 in
  match text with None => i | Some text => foldl interval_line i (settings (config_lines text)) end.

(** namespaceWhitelist *)
Definition whitelist (text : option string) : gset string :=
  {["ioi-system"; "kube-system"]} ∪
  match text with None => ∅ | Some text => list_to_set (config_lines text) end.

(** diskRatio and profiler: the last value, whatever its name. *)
Definition last_value (old : Z) (text : option string) : Z :=
  match text with
  | None => old
  | Some text => foldl (λ v kv, Atoi_or v kv.2) old (settings (config_lines text))
  end.

(** What GetAdminConfig returns, and what it does: the level of its own log
    and a message to the service, when the map has a level. *)
Record admin_result := mkAdminResult {
  ar_data : AdminResourceConfig; ar_levels : option (Z * Z); ar_messages : list service_msg
}.
Definition GetAdminConfig (NodeName : string) (ad : ConfigMap) : outcome admin_result :=
  let text k := cm_Data ad !! k in
  let! disk := pools (text "diskpools") in
  let! net := pools (text "networkpools") in
  let m := min_bws (text "min_pod_bw") in
  let! log := match text "loglevel" with
              | None => Ok (no_levels, None, [])
              | Some t =>
                  let! ll := log_levels NodeName t in
                  Ok (ll, Some (SetLogLevel (NodeAgentInfo ll) (NodeAgentDebug ll)),
                      [IOIConfigureLoglevel CommonIOIType (ServiceInfo ll) (ServiceDebug ll)])
              end in
  let '(ll, levels, msgs) := log in
  Ok (mkAdminResult
        (mkAdmin false disk.1 disk.2 net.1 net.2 (whitelist (text "namespaceWhitelist"))
           (last_value 50 (text "diskRatio")) (last_value 1 (text "profiler"))
           (mn_disk_in m) (mn_disk_out m) (mn_net_in m) (mn_net_out m) ll
           (intervals (text "reportInterval")))
        levels msgs).

(** The informer's callbacks, behind the filter: what is put into AdminChan. *)
Definition set_InitFlag (b : bool) (a : AdminResourceConfig) : AdminResourceConfig :=
  mkAdmin b (DiskBePool a) (DiskSysPool a) (NetBePool a) (NetSysPool a) (NamespaceWhitelist a)
    (SysDiskRatio a) (ProfileTime a) (Disk_min_pod_in_bw a) (Disk_min_pod_out_bw a)
    (Net_min_pod_in_bw a) (Net_min_pod_out_bw a) (Loglevel a) (Interval a).
Definition is_admin_map (ad : ConfigMap) : bool :=
  String.eqb (cm_Name ad) AdminName && String.eqb (cm_Namespace ad) AdminNamespace.
Definition AddAdminConfigData (NodeName : string) (ad : ConfigMap) : outcome admin_result :=
  let! r := GetAdminConfig NodeName ad in
  Ok (mkAdminResult (set_InitFlag true (ar_data r)) (ar_levels r) (ar_messages r)).
Definition UpdateAdminConfigData (NodeName : string) (ad : ConfigMap) : outcome admin_result :=
  let! r := GetAdminConfig NodeName ad in
  Ok (mkAdminResult (set_InitFlag false (ar_data r)) (ar_levels r) (ar_messages r)).
End Admin.

(** ** Policies *)

(** [con[i][1]] after the lines have been split at colons into an array of
    five. *)
Definition rule (lines : list string) (i : nat) : outcome string :=
  match lines !! i with
  | Some l => match str_split ":"%char l with _ :: v :: _ => Ok v | _ => Crash OutOfRange end
  | None => Crash OutOfRange
  end.
Definition parse_rules (text : string) : outcome Policy :=
  let lines := config_lines text in
  if (5 <? length lines)%nat then Crash OutOfRange
  else
    let! throttle := rule lines 0 in
    let! select := rule lines 1 in
    let! compress := rule lines 2 in
    let! decompress := rule lines 3 in
    let! report := rule lines 4 in
    Ok (mkPolicy throttle select compress decompress report).
(** The policy read last is the one of a group whose own is missing. *)
Definition policy_line (pl : ConfigMap) (acc : Policy * gmap string Policy) (line : string)
    : outcome (Policy * gmap string Policy) :=
  let '(po, poCon) := acc in
  match str_split ":"%char line with
  | name :: policy :: _ =>
      let v := default EmptyString (cm_Data pl !! policy) in
      let! po := if String.eqb v "" then Ok po else parse_rules v in
      Ok (po, <[name := po]> poCon)
  | _ => Crash OutOfRange
  end.
Definition policy_zero : Policy := mkPolicy "" "" "" "" "".
Definition ParsePolicy (pl : ConfigMap) (group : string) : outcome (gmap string Policy) :=
  let! '(_, poCon) := foldM (policy_line pl) (policy_zero, ∅) (config_lines group) in Ok poCon.
Definition AnalysisPolicyConfig (pl : ConfigMap) : outcome (gmap string Policy) :=
  let group k := default EmptyString (cm_Data pl !! k) in
  let! diskconfig := ParsePolicy pl (group "DiskGroup") in
  let! netconfig := ParsePolicy pl (group "NetGroup") in
  Ok (netconfig ∪ diskconfig).
Definition is_policy_map (pl : ConfigMap) : bool := String.eqb (cm_Name pl) PolicyName.

(** ** Callbacks of the container runtime *)

(** api.PodSandbox and api.Container of NRI: the fields that are read. *)
Record LinuxPod := mkLinuxPod { CgroupParent : string; Namespaces : list (string * string) }.
Record PodSandbox := mkSandbox {
  sb_Id : string; sb_Name : string; sb_Uid : string; sb_Namespace : string;
  sb_Annotations : gmap string string; sb_Linux : option LinuxPod
}.
Record Container := mkCont { cn_Id : string; cn_PodSandboxId : string; cn_Name : string }.

Definition annRDT : string := "rdt.resources.beta.kubernetes.io/pod".
Definition annRDTQuantity : string := "rdt.quantity.resources.beta.kubernetes.io/resources".
Definition conPrefix : string := "/cri-containerd-".
Definition conSuffix : string := ".scope".
Definition cgroupfs : string := "/sys/fs/cgroup".
Definition chanSize : nat := 500.
Definition CheckEngine (EnginesSwitch engine : Z) : bool := 0 <? Z.land EnginesSwitch engine.

Definition extractAnnotation (anns : gmap string string) (mock : string) : string :=
  default EmptyString (anns !! mock).

(** PodInfoChan and ContainerInfoChan.  What does not fit is dropped. *)
Record chans := mkChans { ch_pods : list PodData; ch_containers : list ContainerData }.
Definition push {A} (x : A) (ch : list A) : list A :=
  if (length ch =? chanSize)%nat then ch else ch ++ [x].

Definition nri_pod (pod : PodSandbox) (l : LinuxPod) (op : Z) : PodData :=
  let prf := mkRunInfo None None None None None (sb_Name pod) 0 op (sb_Namespace pod) (Namespaces l)
               (extractAnnotation (sb_Annotations pod) BlockIOConfigAnno) EmptyString (CgroupParent l) None in
  mkPodData 0 0 {["dev" := {[sb_Uid pod := prf]}]}.
Definition AnalysisNriData (pod : PodSandbox) (op : Z) (c : chans) : outcome chans :=
  let! l := deref (sb_Linux pod) in
  Ok (mkChans (push (nri_pod pod l op) (ch_pods c)) (ch_containers c)).

Definition nri_container (pod : PodSandbox) (l : LinuxPod) (ct : Container) (op : Z) : ContainerData :=
  let path := cgroupfs +:+ CgroupParent l +:+ conPrefix +:+ cn_Id ct +:+ conSuffix in
  let cif := mkContainer op (sb_Uid pod) (sb_Name pod) (cn_Name ct) (cn_Id ct) (sb_Namespace pod)
               (extractAnnotation (sb_Annotations pod) annRDT)
               (extractAnnotation (sb_Annotations pod) annRDTQuantity) path in
  mkContainerData 0 0 {[cn_Id ct := cif]}.
Definition AnalysisNriContainerData (pod : PodSandbox) (ct : Container) (op : Z) (c : chans)
    : outcome chans :=
  let! l := deref (sb_Linux pod) in
  Ok (mkChans (ch_pods c) (push (nri_container pod l ct op) (ch_containers c))).

Section Plugin.
Context (EnginesSwitch : Z).
Definition pods_wanted : bool := CheckEngine EnginesSwitch DiskSwitch || CheckEngine EnginesSwitch NetSwitch.
Definition containers_wanted : bool :=
  CheckEngine EnginesSwitch RDTSwitch || CheckEngine EnginesSwitch RDTQuantitySwitch.

(** Every pod and every container once, at the start. *)
Definition sync_pod (acc : gset string * chans) (pod : PodSandbox) : outcome (gset string * chans) :=
  let '(seen, c) := acc in
  if decide (sb_Uid pod ∈ seen) then Ok acc
  else let! c := AnalysisNriData pod RunPod c in Ok ({[sb_Uid pod]} ∪ seen, c).
Definition sync_container (pods : list PodSandbox) (acc : gset string * chans) (ct : Container)
    : outcome (gset string * chans) :=
  let '(seen, c) := acc in
  if decide (cn_Id ct ∈ seen) then Ok acc
  else
    let! c := match list_find (λ pod, sb_Id pod = cn_PodSandboxId ct) pods with
              | None => Ok c
              | Some (_, pod) => AnalysisNriContainerData pod ct StartContainer c
              end in
    Ok ({[cn_Id ct]} ∪ seen, c).
Definition Synchronize (pods : list PodSandbox) (containers : list Container) (c : chans) : outcome chans :=
  let! c := if pods_wanted then let! '(_, c) := foldM sync_pod (∅, c) pods in Ok c else Ok c in
  if containers_wanted then let! '(_, c) := foldM (sync_container pods) (∅, c) containers in Ok c
  else Ok c.

Definition RunPodSandbox (pod : PodSandbox) (c : chans) : outcome chans :=
  if pods_wanted then AnalysisNriData pod RunPod c else Ok c.
Definition StopPodSandbox (pod : PodSandbox) (c : chans) : outcome chans :=
  if pods_wanted then AnalysisNriData pod StopPod c else Ok c.
Definition nri_StartContainer (pod : PodSandbox) (ct : Container) (c : chans) : outcome chans :=
  if containers_wanted then AnalysisNriContainerData pod ct StartContainer c else Ok c.
Definition nri_StopContainer (pod : PodSandbox) (ct : Container) (c : chans) : outcome chans :=
  let! c := if pods_wanted then AnalysisNriData pod StopContainer c else Ok c in
  if containers_wanted then AnalysisNriContainerData pod ct StopContainer c else Ok c.
End Plugin.
