(* ===== verification/AgentSend.v ===== *)
(** * pkg/agent/engines/admin.go: the messages reach the I/O service

    ServiceClientTHandler takes the messages of all engines off
    ClientHandlerChan and calls the service; a limit of a pod is handed to a
    goroutine, RetrySetAppLimit.  A call that fails is put back into the
    channel.  Sleeping is left out, and with it eventMap, which only counts
    how long to sleep. *)

From S2P Require Export AgentLimit.

(** What a call to the service can fail with: that it cannot be reached
    (codes.Unavailable), or anything else. *)
Inductive rpc_error := Unavailable | OtherError (e : error).
#[export] Instance rpc_error_eq_dec : EqDecision rpc_error.
Proof. solve_decision. Defined.
(** The client side of RegisterApp, UnRegisterApp, SetAppLimit and Configure. *)
Class ServiceCalls (V : Type) := { rpc_call : V → service_msg → V * option rpc_error }.

Definition handler_capacity : nat := 500.

(** A limit whose application is [group.pod] is one of a pod. *)
Definition pod_limit (m : service_msg) : bool :=
  match m with
  | SetAppLimit AppId _ _ => (2 <=? length (str_split "."%char AppId))%nat
  | _ => false
  end.

(** The global BkEngine, which IsPodRuning asks, is never set: startOOBEngine
    declares a variable of its own with that name. *)
Definition IsPodRuning {O} (ask : O → string → bool) (BkEngine : option O) (podId : string) : bool :=
  match BkEngine with None => true | Some o => ask o podId end.

(** A goroutine of RetrySetAppLimit; [failed] once its call has failed. *)
Record task := mkTask { tk_event : service_msg; tk_failed : bool }.

Section Sender.
Context {V : Type} `{!ServiceCalls V}.

(** The channel, the goroutines, the
    error variable of the handler, an event it is about to put back, and the
    service.  [sd_sent] and [sd_done] record what the engines have sent and
    what the service has answered for good. *)
Record Sender := mkSender {
  sd_chan : list service_msg;
  sd_tasks : list task;
  sd_err : option rpc_error;
  sd_back : option service_msg;
  sd_service : V;
  sd_sent : list service_msg;
  sd_done : list service_msg
}.

(** The call and the check of [err] after the switch. *)
Definition after_switch (event : service_msg) (chan : list service_msg) (tasks : list task) (err : option rpc_error)
    (answered : bool) (v : V) (s : Sender) : Sender :=
  let unavailable := match err with Some Unavailable => true | _ => false end in
  mkSender chan tasks err (if unavailable then Some event else None) v (sd_sent s)
    (if answered && negb unavailable then sd_done s ++ [event] else sd_done s).
Definition handle_event (event : service_msg) (chan : list service_msg) (s : Sender) : Sender :=
  if pod_limit event then
    (** the goroutine is started; [err] is still that of an earlier event *)
    after_switch event chan (sd_tasks s ++ [mkTask event false]) (sd_err s) false (sd_service s) s
  else
    let '(v, err) := rpc_call (sd_service s) event in
    after_switch event chan (sd_tasks s) err true v s.

(** RetrySetAppLimit, for the goroutine of number [i], up to the point where it
    ends or sleeps before it puts the event back; [running] is what IsPodRuning
    says. *)
Definition RetrySetAppLimit (i : nat) (running : bool) (s : Sender) : option Sender :=
  match sd_tasks s !! i with
  | Some (mkTask event false) =>
      let failed v := mkSender (sd_chan s) (<[i := mkTask event true]> (sd_tasks s)) (sd_err s) (sd_back s) v
                        (sd_sent s) (sd_done s) in
      if running then
        match rpc_call (sd_service s) event with
        | (v, Some _) => Some (failed v)
        | (v, None) => Some (mkSender (sd_chan s) (delete i (sd_tasks s)) (sd_err s) (sd_back s) v (sd_sent s)
                               (sd_done s ++ [event]))
        end
      else Some (failed (sd_service s))
  | _ => None
  end.
Definition retry_back (i : nat) (s : Sender) : option Sender :=
  match sd_tasks s !! i with
  | Some (mkTask event true) =>
      if (length (sd_chan s) <? handler_capacity)%nat then
        Some (mkSender (sd_chan s ++ [event]) (delete i (sd_tasks s)) (sd_err s) (sd_back s) (sd_service s)
                (sd_sent s) (sd_done s))
      else None
  | _ => None
  end.

(** What can happen: an engine sends a message, the handler takes one, the
    handler puts one back, a goroutine makes its call, a goroutine puts its
    event back.  [None]: there is nothing to do, or it has to wait. *)
Inductive send_event := EngineSends (m : service_msg) | Take | PutBack | Retry (i : nat) (running : bool) | RetryBack (i : nat).
Definition sender_step (s : Sender) (ev : send_event) : option Sender :=
  match ev with
  | EngineSends m =>
      if (length (sd_chan s) <? handler_capacity)%nat then
        Some (mkSender (sd_chan s ++ [m]) (sd_tasks s) (sd_err s) (sd_back s) (sd_service s)
                (sd_sent s ++ [m]) (sd_done s))
      else None
  | Take =>
      match sd_back s, sd_chan s with
      | None, event :: chan => Some (handle_event event chan s)
      | _, _ => None
      end
  | PutBack =>
      match sd_back s with
      | Some event =>
          if (length (sd_chan s) <? handler_capacity)%nat then
            Some (mkSender (sd_chan s ++ [event]) (sd_tasks s) (sd_err s) None (sd_service s) (sd_sent s)
                    (sd_done s))
          else None
      | None => None
      end
  | Retry i running => RetrySetAppLimit i running s
  | RetryBack i => retry_back i s
  end.

Definition sender_start (v : V) : Sender := mkSender [] [] None None v [] [].
(** The steps that can be taken, one after the other. *)
Definition sender_run (s : Sender) (l : list send_event) : Sender :=
  foldl (λ s ev, default s (sender_step s ev)) s l.
End Sender.
Arguments Sender V : clear implicits.
