(* ===== verification/AgentOob.v ===== *)
(** * pkg/agent/oob: pods without the container runtime's events

    oob.go.  When NRI cannot be used, the agent watches the cgroup directories
    of the node: Run turns what inotify tells into events of pods and
    containers, runEventHandler handles them, and AnalysisOOBData announces a
    pod to the engines.  What inotify, the kubelet and /proc say is the input;
    the watches asked for are kept as sets of paths.  Senders that wait for
    room in the server's own channels are left out. *)

From S2P Require Export AgentSource.

Section OobText.
(** strings.HasPrefix(s, pre) && strings.HasSuffix(s, suf), and what is
    between the two; a text that is too short for both panics. *)
Definition cut_between (pre suf s : string) : option (outcome string) :=
  if String.prefix pre s && has_suffix s suf then
    Some (if (str_len s <? str_len pre + str_len suf)%nat then Crash OutOfRange
          else Ok (String.substring (str_len pre) (str_len s - str_len suf - str_len pre) s))
  else None.
Fixpoint first_between (patterns : list (string * string)) (s : string) : outcome (option string) :=
  match patterns with
  | [] => Ok None
  | (pre, suf) :: ps =>
      match cut_between pre suf s with
      | Some o => let! x := o in Ok (Some x)
      | None => first_between ps s
      end
  end.
Definition ParsePodId : string → outcome (option string) :=
  first_between [("kubepods-besteffort-pod", ".slice"); ("kubepods-burstable-pod", ".slice");
                 ("kubepods-pod", ".slice")].
Definition ParseContainerId : string → outcome (option string) :=
  first_between [("docker-", ".scope"); ("cri-containerd-", ".scope")].

(** strings.ReplaceAll(s, "_", "-") and the like, for one byte *)
Fixpoint replace_char (c d : ascii) (s : string) : string :=
  match s with
  | EmptyString => EmptyString
  | String a r => String (if Ascii.eqb a c then d else a) (replace_char c d r)
  end.
(** strings.ReplaceAll(s, old, ""), [old] not empty *)
Fixpoint remove_all (fuel : nat) (old s : string) : string :=
  match fuel, s with
  | S fuel, String a r =>
      if String.prefix old s then remove_all fuel old (String.substring (str_len old) (str_len s - str_len old) s)
      else String a (remove_all fuel old r)
  | _, _ => s
  end.
(** filepath.Base and filepath.Dir of a path *)
Definition last_part (s : string) : string := default EmptyString (last (str_split slash s)).
Definition path_Base (s : string) : string :=
  if String.eqb s "" then "."
  else
    let t := trim_right (λ a, Ascii.eqb a slash) s in
    if String.eqb t "" then "/" else last_part t.
(** Everything up to the last slash, cleaned. *)
Definition path_Dir (s : string) : string :=
  let parts := str_split slash s in
  match removelast parts with
  | [] => "."
  | l => path_clean (str_join "/" l +:+ "/")
  end.
End OobText.

(** ** Events of inotify *)

Definition InCreate : Z := 256.
Definition InDelete : Z := 512.
Definition InModify : Z := 2.
Definition InIsdir : Z := 1073741824.
Record inotify_event := mkInotify { ie_Mask : Z; ie_Name : string }.

(** The constants of files and directories are the same numbers. *)
Definition DirCreated : Z := 0.
Definition DirRemoved : Z := 1.
Definition UnknownType : Z := 2.
Definition FileCreated : Z := 0.
Definition FileUpdated : Z := 1.
Definition TypeOf (e : inotify_event) : Z :=
  let has b := negb (Z.land (ie_Mask e) b =? 0) in
  if has InCreate && has InIsdir then DirCreated
  else if has InDelete && has InIsdir then DirRemoved
  else if has InCreate && negb (has InIsdir) then FileCreated
  else if has InModify && negb (has InIsdir) then FileUpdated
  else UnknownType.

(** ** State *)

Definition PodAdded : Z := 0.
Definition PodDeleted : Z := 1.
Definition ContainerAdded : Z := 0.
Definition ContainerDeleted : Z := 1.
Definition ContainerTaskIdDone : Z := 2.
Record PodEvent := mkPodEvent { pe_type : Z; pe_podId : string; pe_cgroupPath : string }.
Record ContainerEvent := mkContEvent {
  ce_type : Z; ce_podId : string; ce_containerId : string; ce_cgroupPath : string; ce_netns : string
}.
(** corev1.Pod: what is read of it *)
Record KubePod := mkKubePod {
  kp_UID : string; kp_Name : string; kp_Namespace : string; kp_Annotations : gmap string string;
  kp_QOSClass : string; kp_Phase : string
}.
(** The server, with PodInfoChan. *)
Record Oob := mkOob {
  cgroupRootPath : string;
  containerWatches : gset string;
  taskIdWatches : gset string;
  podEvents : list PodEvent;
  containerEvents : list ContainerEvent;
  pods : gmap string KubePod;
  sentPodsCache : gset string;
  oob_chan : list PodData
}.
Definition set_watches c t (o : Oob) : Oob :=
  mkOob (cgroupRootPath o) c t (podEvents o) (containerEvents o) (pods o) (sentPodsCache o) (oob_chan o).
Definition set_events p c (o : Oob) : Oob :=
  mkOob (cgroupRootPath o) (containerWatches o) (taskIdWatches o) p c (pods o) (sentPodsCache o) (oob_chan o).
Definition set_oob_pods p (o : Oob) : Oob :=
  mkOob (cgroupRootPath o) (containerWatches o) (taskIdWatches o) (podEvents o) (containerEvents o) p
    (sentPodsCache o) (oob_chan o).
Definition set_announced s ch (o : Oob) : Oob :=
  mkOob (cgroupRootPath o) (containerWatches o) (taskIdWatches o) (podEvents o) (containerEvents o) (pods o) s ch.

Definition NewOobServer (root : string) : Oob := mkOob root ∅ ∅ [] [] ∅ ∅ [].

(** What the kubelet lists is added; an error leaves the pods as they are. *)
Definition GetAllPods (answer : list KubePod + error) (o : Oob) : Oob :=
  match answer with
  | inr _ => o
  | inl l => set_oob_pods (foldl (λ m p, <[kp_UID p := p]> m) (pods o) l) o
  end.
Definition oob_IsPodRuning (o : Oob) (podId : string) : bool :=
  match pods o !! podId with Some p => String.eqb (kp_Phase p) "Running" | None => false end.

(** ** Announcing a pod *)

Definition cgroup_mount : string := "/opt/ioi/cgroup".
Definition sent_key (podId : string) (op : Z) : string := podId +:+ " " +:+ Itoa op.
Definition oob_pod (podId : string) (pod : KubePod) (cgroupPath netns : string) (op : Z) : PodData :=
  let path := remove_all (str_len cgroupPath) cgroup_mount cgroupPath in
  (** for a stop the list has one nil entry, which the engines pass over *)
  let prf := mkRunInfo None None None None None (kp_Name pod) 0 op (kp_Namespace pod)
               (if op =? RunPod then [("network", netns)] else [])
               (default EmptyString (kp_Annotations pod !! BlockIOConfigAnno)) EmptyString
               (path_Dir (path_Dir path)) None in
  mkPodData 0 0 {["dev" := {[podId := prf]}]}.
(** A pod is marked as announced before it is looked up; only a stop removes
    a mark, and the mark it removes is that of a stop. *)
Definition AnalysisOOBData (c : ContainerEvent) (netns : string) (op : Z) (o : Oob) : Oob :=
  let newPodId := replace_char "_" "-" (ce_podId c) in
  let key := sent_key newPodId op in
  let announce sent :=
    match pods o !! newPodId with
    | None => set_announced sent (oob_chan o) o
    | Some pod => set_announced sent (push (oob_pod newPodId pod (ce_cgroupPath c) netns op) (oob_chan o)) o
    end in
  if op =? RunPod then
    if decide (key ∈ sentPodsCache o) then o else announce ({[key]} ∪ sentPodsCache o)
  else announce (sentPodsCache o ∖ {[key]}).

(** ** The loops *)

(** A message that does not parse is an error that is logged, with the empty
    text. *)
Definition parsed_id (x : option string) : string := default EmptyString x.

Definition pod_watch (e : inotify_event) (o : Oob) : outcome Oob :=
  let! podId := if (TypeOf e =? DirCreated) || (TypeOf e =? DirRemoved)
                then ParsePodId (path_Base (ie_Name e)) else Ok None in
  Ok (if TypeOf e =? DirCreated then
        set_events (podEvents o ++ [mkPodEvent PodAdded (parsed_id podId) (ie_Name e)]) (containerEvents o)
          (set_watches ({[ie_Name e]} ∪ containerWatches o) (taskIdWatches o) o)
      else if TypeOf e =? DirRemoved then
        set_events (podEvents o ++ [mkPodEvent PodDeleted (parsed_id podId) (ie_Name e)]) (containerEvents o)
          (set_watches (containerWatches o ∖ {[ie_Name e]}) (taskIdWatches o) o)
      else o).

(** The container and the pod that a directory of a container names. *)
Definition container_ids (dir : string) : outcome (option (string * string)) :=
  let! containerId := ParseContainerId (path_Base dir) in
  match containerId with
  | None => Ok None
  | Some containerId =>
      let! podId := ParsePodId (path_Base (path_Dir dir)) in
      Ok (match podId with None => None | Some podId => Some (podId, containerId) end)
  end.
Definition container_event (ids : string * string) (t : Z) (path : string) (o : Oob) : Oob :=
  set_events (podEvents o) (containerEvents o ++ [mkContEvent t ids.1 ids.2 path EmptyString]) o.
Definition container_watch (e : inotify_event) (o : Oob) : outcome Oob :=
  if (TypeOf e =? DirCreated) || (TypeOf e =? DirRemoved) then
    let! ids := container_ids (ie_Name e) in
    Ok (match ids with
        | None => o
        | Some ids =>
            if TypeOf e =? DirCreated then
              container_event ids ContainerAdded (ie_Name e)
                (set_watches (containerWatches o) ({[ie_Name e +:+ "/cgroup.procs"]} ∪ taskIdWatches o) o)
            else container_event ids ContainerDeleted (ie_Name e) o
        end)
  else Ok o.
Definition task_watch (e : inotify_event) (o : Oob) : outcome Oob :=
  if (TypeOf e =? FileCreated) || (TypeOf e =? FileUpdated) then
    let! ids := container_ids (path_Dir (ie_Name e)) in
    Ok (match ids with
        | None => o
        | Some ids =>
            let o := container_event ids ContainerTaskIdDone (ie_Name e) o in
            if TypeOf e =? FileUpdated
            then set_watches (containerWatches o) (taskIdWatches o ∖ {[ie_Name e]}) o else o
        end)
  else Ok o.

(** A round of runEventHandler; [answer] is what the kubelet says and [netns]
    what GetNetNs finds. *)
Definition handle_pod_event (answer : list KubePod + error) (o : Oob) : Oob :=
  match podEvents o with
  | [] => o
  | ev :: evs =>
      let o := set_events evs (containerEvents o) o in
      if pe_type ev =? PodAdded then GetAllPods answer o
      else if pe_type ev =? PodDeleted then set_oob_pods (delete (pe_podId ev) (pods o)) o
      else o
  end.
Definition handle_container_event (netns : string) (o : Oob) : Oob :=
  match containerEvents o with
  | [] => o
  | ev :: evs =>
      let o := set_events (podEvents o) evs o in
      if ce_type ev =? ContainerDeleted then AnalysisOOBData ev EmptyString StopPod o
      else if ce_type ev =? ContainerTaskIdDone then AnalysisOOBData ev netns RunPod o
      else o
  end.

(** ** Initialize: the pods that are there *)

Definition pod_cgroup (root : string) (pod : KubePod) : string :=
  let id := replace_char "-" "_" (kp_UID pod) in
  if String.eqb (kp_QOSClass pod) "Guaranteed" then
    root +:+ "kubepods.slice" +:+ "/kubepods-pod" +:+ id +:+ ".slice"
  else if String.eqb (kp_QOSClass pod) "Burstable" then
    root +:+ "kubepods.slice/kubepods-burstable.slice" +:+ "/kubepods-burstable-pod" +:+ id +:+ ".slice"
  else root +:+ "kubepods.slice/kubepods-besteffort.slice" +:+ "/kubepods-besteffort-pod" +:+ id +:+ ".slice".

Section Start.
Context `{!GoRange} {F : Type} `{!Files F}.
(** The containers in a pod's directory; [netns] is what GetNetNs finds. *)
Definition FindCgroupInfoInPod (f : F) (netns : string → string) (path : string)
    : outcome (list ContainerEvent) :=
  match ReadDir f path with
  | inr _ => Ok []
  | inl files =>
      foldM (λ acc file,
        if file.2 && String.prefix "cri-containerd" file.1 then
          let! containerId := ParseContainerId (path_Base file.1) in
          match containerId with
          | None => Ok acc
          | Some containerId =>
              let! podId := ParsePodId (path_Base path) in
              Ok (match podId with
                  | None => acc
                  | Some podId =>
                      acc ++ [mkContEvent 0 podId containerId path
                                (netns (path +:+ "/" +:+ file.1 +:+ "/cgroup.procs"))]
                  end)
          end
        else Ok acc) [] files
  end.
Definition start_pod (f : F) (netns : string → string) (acc : gset string * Oob) (kv : string * KubePod)
    : outcome (gset string * Oob) :=
  let '(seen, o) := acc in
  let pod := kv.2 in
  if decide (kp_UID pod ∈ seen) then Ok acc
  else
    let! events := FindCgroupInfoInPod f netns (pod_cgroup (cgroupRootPath o) pod) in
    Ok ({[kp_UID pod]} ∪ seen,
        foldl (λ o v, AnalysisOOBData v (ce_netns v) RunPod o) o events).
Definition Initialize (f : F) (netns : string → string) (answer : list KubePod + error) (o : Oob) : outcome Oob :=
  let o := GetAllPods answer o in
  let! '(_, o) := foldM (start_pod f netns) (∅, o) (range (pods o)) in Ok o.
End Start.

(** ** The server as a machine *)

(** inotify tells something, an event is handled, the pods are listed (every
    ten seconds), or the agent's loop takes the first event off PodInfoChan. *)
Inductive oob_event :=
| PodWatch (e : inotify_event)
| ContainerWatch (e : inotify_event)
| TaskWatch (e : inotify_event)
| HandlePod (answer : list KubePod + error)
| HandleContainer (netns : string)
| TimeGetAllPods (answer : list KubePod + error)
| TakeAnnounced.
Definition oob_step (o : Oob) (ev : oob_event) : outcome Oob :=
  match ev with
  | PodWatch e => pod_watch e o
  | ContainerWatch e => container_watch e o
  | TaskWatch e => task_watch e o
  | HandlePod answer => Ok (handle_pod_event answer o)
  | HandleContainer netns => Ok (handle_container_event netns o)
  | TimeGetAllPods answer => Ok (GetAllPods answer o)
  | TakeAnnounced => Ok (set_announced (sentPodsCache o) (tail (oob_chan o)) o)
  end.
