(* ===== verification/NetTc.v ===== *)
(** * pkg/service/net: traffic control for the pods of a node

    tc.go, generic_plugin.go, adq_plugin.go, plugin.go and utils.go, and the
    devices of an app (server.go), on an interface to netlink and to network
    namespaces.  A world is what the kernel holds; a call that fails leaves
    what earlier calls have done. *)

From S2P Require Export Persist AgentLimit.

(** ** netlink *)

Record Link := mkLink { lk_Name : string; lk_Index : Z; lk_MTU : Z }.
Inductive qdisc_kind := Tbf (Limit Rate Buffer : Z) | Ingress | OtherQdisc (kind : string).
Record Qdisc := mkQdisc { qd_LinkIndex : Z; qd_Handle : Z; qd_Parent : Z; qd_kind : qdisc_kind }.
Record FilterAttrs := mkAttrs { fa_LinkIndex : Z; fa_Parent : Z; fa_Priority : Z; fa_Protocol : Z }.
Record TcU32Key := mkU32Key { k_Val : Z; k_Mask : Z; k_Off : Z }.
Record U32 := mkU32 {
  u_Attrs : FilterAttrs; u_ClassId : Z; u_RedirIndex : Z; u_Flags : Z; u_Keys : list TcU32Key
}.
Inductive action := SkbEdit (Priority : Z) | OtherAction.
(** Addresses are IPv4, as numbers. *)
Record Flower := mkFlower {
  fl_Attrs : FilterAttrs; fl_EthType : Z; fl_SrcIP : option Z; fl_DestIP : option Z;
  fl_Flags : Z; fl_ClassID : Z; fl_Actions : list action
}.
Inductive Filter := FU32 (f : U32) | FFlower (f : Flower) | OtherFilter.
Record Route := mkRoute { rt_Dst : option string; rt_LinkIndex : Z }.

Class NetlinkConsts := {
  HANDLE_ROOT : Z; HANDLE_INGRESS : Z; HANDLE_MIN_INGRESS : Z; HANDLE_MIN_EGRESS : Z;
  HANDLE_MIN_PRIORITY : Z; TC_U32_TERMINAL : Z; TCA_CLS_FLAGS_SKIP_SW : Z;
  TIME_UNITS_PER_SEC : Z;
  TickInUsec : f64;
  MakeHandle : Z → Z → Z;
  MajorMinor : Z → Z * Z
}.
(** A namespace is the host's ([None]) or one with a path.  [LinkAdd] adds an
    ifb device with its name and MTU; [GetVethPeerIfindex] is not positive
    when it fails; the addresses of an interface are [None] when they are not
    IPv4; [later] is the world when a sleep of five seconds ends. *)
Class Netlink (W : Type) := {
  LinkByName : W → option string → string → Link + error;
  LinkByIndex : W → option string → Z → Link + error;
  LinkList : W → list Link + error;
  LinkAdd : W → string → Z → W + error;
  LinkDel : W → Link → W + error;
  LinkSetUp : W → Link → W + error;
  QdiscList : W → option string → Link → list Qdisc + error;
  QdiscAdd : W → option string → Qdisc → W + error;
  QdiscDel : W → option string → Qdisc → W + error;
  FilterList : W → Link → Z → list Filter + error;
  FilterAdd : W → Filter → W + error;
  FilterDel : W → Filter → W + error;
  RouteList : W → option string → list Route + error;
  InterfaceByIndex : W → option string → Z → string + error;
  InterfaceAddrs : W → option string → string → list (option string) + error;
  GetNS : W → string → option error;
  CloseNS : W → string → option error;
  GetVethPeerIfindex : W → string → string → Z;
  later : W → W
}.
Definition ETH_P_ALL : Z := 3.
Definition ETH_P_IP : Z := 2048.

(** net.ParseIP on a string without colons, and its value in network order. *)
Definition ParseIP (s : string) : option Z :=
  if ParseIPv4 s
  then Some (foldl (λ a o, 256 * a + default 0 (digits o 0)) 0 (str_split dot s))
  else None.

(** ** Numbers *)

(** The conversions of amd64. *)
Definition u32 (z : Z) : Z := z mod 2 ^ 32.
Definition to_uint32 (x : f64) : Z := u32 (to_int64 x).
Definition to_uint64 (x : f64) : Z :=
  let half := of_Z (2 ^ 63) in
  if flt x half then u64 (to_int64 x) else Z.lxor (u64 (to_int64 (fsub x half))) (2 ^ 63).

Definition MBIT : Z := 1000000.
Definition MAX_BT_LIMIT : f64 := of_Z (2 ^ 20).
Definition mbitToBit (bw : Z) : Z := u64 (MBIT * bw).

Section Numbers.
Context `{!NetlinkConsts}.
Definition time2Tick (time : Z) : Z := to_uint32 (fmul (of_Z time) TickInUsec).
Definition buffer (rate burst : Z) : Z :=
  time2Tick (to_uint32 (fdiv (fmul (of_Z burst) (of_Z TIME_UNITS_PER_SEC)) (of_Z rate))).
Definition limit_bytes (rate : Z) (latency : f64) (buffer : Z) : Z :=
  u32 (to_uint32 (fdiv (fmul (of_Z rate) latency) (of_Z TIME_UNITS_PER_SEC)) + buffer).
Definition latencyInMillis : f64 := of_Z 25.
Definition latencyInUsec (millis : f64) : f64 :=
  fmul (of_Z TIME_UNITS_PER_SEC) (fdiv millis (of_Z 1000)).
(** The token bucket filter of createTBF. *)
Definition tbf_qdisc (rateInBits burstInBits linkIndex : Z) : Qdisc :=
  let rate := rateInBits / 8 in
  let burst := u32 (burstInBits / 8) in
  mkQdisc linkIndex (MakeHandle 1 0) HANDLE_ROOT
    (Tbf (limit_bytes rate (latencyInUsec latencyInMillis) burst) rate (buffer rate burst)).
End Numbers.

(** ** tc.go *)

Definition OP_ADD : Z := 1.
Definition OP_DEL : Z := 0.
Definition INGRESS_IFB_PREFIX : string := "ingress_ifb".
Definition EGRESS_IFB_PREFIX : string := "egress_ifb".
Definition INGRESS_IP_OFF : Z := 16.
Definition EGRESS_IP_OFF : Z := 12.

Definition is_tbf (q : Qdisc) : bool := match qd_kind q with Tbf _ _ _ => true | _ => false end.
Definition is_ingress (q : Qdisc) : bool := match qd_kind q with Ingress => true | _ => false end.

Section Tc.
Context `{!NetlinkConsts} {W : Type} `{!Netlink W}.

Definition sleep : GoM W () := modM later.

Definition getMTU (deviceName : string) : GoM W (Z + error) :=
  let? link := askE (λ w, LinkByName w None deviceName) in retE (lk_MTU link).

(** An existing device of the name is deleted first. *)
Definition createIfb (ifbDeviceName : string) (mtu : Z) : GoM W (() + error) :=
  let? ls := askE LinkList in
  let? _ := (if bool_decide (ifbDeviceName ∈ lk_Name <$> ls) then
               let? link := askE (λ w, LinkByName w None ifbDeviceName) in
               callE (λ w, LinkDel w link)
             else retE ()) in
  let? _ := callE (λ w, LinkAdd w ifbDeviceName mtu) in
  let? ifb := askE (λ w, LinkByName w None ifbDeviceName) in
  callE (λ w, LinkSetUp w ifb).

Definition is_type (tpe : string) (q : Qdisc) : bool :=
  if String.eqb tpe "tbf" then is_tbf q
  else if String.eqb tpe "ingress" then is_ingress q else false.
(** The first one of the type. *)
Definition delQdiscIfExist (ns : option string) (linkIndex : Z) (tpe : string) : GoM W (() + error) :=
  let? lk := askE (λ w, LinkByIndex w ns linkIndex) in
  let? qds := askE (λ w, QdiscList w ns lk) in
  match filter (λ q, (qd_LinkIndex q =? linkIndex) && is_type tpe q = true) qds with
  | [] => retE ()
  | q :: _ => callE (λ w, QdiscDel w ns q)
  end.

Definition createTBF (ns : option string) (rateInBits burstInBits linkIndex : Z)
    : GoM W (() + error) :=
  if (rateInBits <=? 0) || (burstInBits <=? 0) then failE "invalid rate or burst"
  else
    let? _ := delQdiscIfExist ns linkIndex "tbf" in
    callE (λ w, QdiscAdd w ns (tbf_qdisc rateInBits burstInBits linkIndex)).

Definition addIfbLimit (bw : Z) (ifb : string) : GoM W (() + error) :=
  let? ifbDevice := askE (λ w, LinkByName w None ifb) in
  createTBF None bw (mbitToBit 8) (lk_Index ifbDevice).

(** The peer of a pod's interface: rounds follow each other until the
    namespace is gone or the peer is a link of the host. *)
Fixpoint getHostInterface (rounds : nat) (containerIfName namespace : string) : GoM W (Link + error) :=
  match rounds with
  | O => λ _, Crash StillWaiting
  | S rounds => λ w,
      match GetNS w namespace with
      | Some e => Ok (inr e, w)
      | None =>
          let peerIndex := GetVethPeerIfindex w namespace containerIfName in
          let w := if peerIndex <=? 0 then later w else w in
          match LinkByIndex w None peerIndex with
          | inl link => Ok (inl link, w)
          | inr _ => getHostInterface rounds containerIfName namespace (later w)
          end
      end
  end.

Definition ingress_qdisc (hostDevice : Link) : Qdisc :=
  mkQdisc (lk_Index hostDevice) (MakeHandle 65535 0) HANDLE_INGRESS Ingress.
Definition operateIngressQdisc (hostDevice : Link) (op : Z) : GoM W (() + error) :=
  if op =? OP_ADD then
    let? _ := delQdiscIfExist None (lk_Index hostDevice) "ingress" in
    callE (λ w, QdiscAdd w None (ingress_qdisc hostDevice))
  else if op =? OP_DEL then callE (λ w, QdiscDel w None (ingress_qdisc hostDevice))
  else retE ().

Fixpoint find_u32 (ip ipOff : Z) (l : list Filter) : outcome (option U32) :=
  match l with
  | [] => Ok None
  | FU32 f :: l =>
      let! k := match u_Keys f with k :: _ => Ok k | [] => Crash OutOfRange end in
      if (k_Val k =? ip) && (k_Off k =? ipOff) then Ok (Some f) else find_u32 ip ipOff l
  | _ :: l => find_u32 ip ipOff l
  end.
Definition getFilterByIP (hostDevice : Link) (ip ipOff parent : Z) : GoM W (U32 + error) :=
  let? filters := askE (λ w, FilterList w hostDevice parent) in
  let* f := liftM (find_u32 ip ipOff filters) in
  match f with Some f => retE f | None => failE "getFilterByIP failed" end.

Definition u32_filter (ip IPoff : Z) (hostDevice ifbDevice : Link) : U32 :=
  mkU32 (mkAttrs (lk_Index hostDevice) (MakeHandle 65535 0) 1 ETH_P_ALL) (MakeHandle 1 1)
    (lk_Index ifbDevice) TC_U32_TERMINAL [mkU32Key ip (2 ^ 32 - 1) IPoff].
(** A missing host device is dereferenced. *)
Definition operateFilter (ip IPoff : Z) (hostDevice : option Link) (ifbDevice : Link) (op : Z)
    : GoM W (() + error) :=
  let* hostDevice := liftM (deref hostDevice) in
  let filter := u32_filter ip IPoff hostDevice ifbDevice in
  if op =? OP_ADD then callE (λ w, FilterAdd w (FU32 filter))
  else if op =? OP_DEL then
    let? u32f := getFilterByIP hostDevice ip IPoff (fa_Parent (u_Attrs filter)) in
    callE (λ w, FilterDel w (FU32 u32f))
  else retE ().

Definition convertIPToUint32 (ip_str : string) : Z + error :=
  match ParseIP ip_str with Some v => inl v | None => inr "parsing IP error" end.

(** A namespace that cannot be opened is a nil pointer. *)
Definition addQiscInCnet (conif namespace : string) (limit : Z) : GoM W (() + error) :=
  let* ns := getM (λ w, GetNS w namespace) in
  match ns with
  | Some _ => λ _, Crash NilDeref
  | None =>
      let? veth := askE (λ w, LinkByName w (Some namespace) conif) in
      createTBF (Some namespace) limit (mbitToBit 8) (lk_Index veth)
  end.

(** Every token bucket filter of a link. *)
Definition delete_tbfs (ns : option string) (veth : Link) : GoM W (() + error) :=
  let? qdiscs := askE (λ w, QdiscList w ns veth) in
  forE (filter (λ q, is_tbf q = true) qdiscs) (λ q, callE (λ w, QdiscDel w ns q)).
Definition HasIngress (nic : string) : GoM W (bool + error) :=
  let? eth := askE (λ w, LinkByName w None nic) in
  let? qdiscs := askE (λ w, QdiscList w None eth) in
  retE (existsb is_ingress qdiscs).
Definition TCDeleteTbfContainer (podNic namespace : string) : GoM W (() + error) :=
  let* ns := getM (λ w, GetNS w namespace) in
  match ns with
  | Some _ => retE ()
  | None =>
      let? veth := askE (λ w, LinkByName w (Some namespace) podNic) in
      delete_tbfs (Some namespace) veth
  end.

(** ** utils.go *)

Definition default_dst (r : Route) : bool :=
  match rt_Dst r with None => true | Some d => String.eqb d "0.0.0.0/0" end.
(** The name of the interface of the default route. *)
Definition default_interface (w : W) (ns : option string) : string + error :=
  match RouteList w ns with
  | inr e => inr e
  | inl routes =>
      match filter (λ r, default_dst r = true) routes with
      | [] => inr "unable to find default route"
      | r :: _ =>
          if rt_LinkIndex r <=? 0 then inr "found default route but could not determine interface"
          else InterfaceByIndex w ns (rt_LinkIndex r)
      end
  end.
Definition GetDefaultGatewayInterface (w : W) : string + error := default_interface w None.
Definition GetDefaultGatewayInterfaceInNetNS (w : W) (namespace : string) : string + error :=
  if String.eqb namespace "" then GetDefaultGatewayInterface w
  else match GetNS w namespace with
       | Some e => inr e
       | None => default_interface w (Some namespace)
       end.
(** An error of closing the namespace is returned. *)
Definition GetInterfaceIpv4AddrInNamespace (w : W) (interfaceName namespace : string) : string + error :=
  match GetNS w namespace with
  | Some e => inr e
  | None =>
      match InterfaceAddrs w (Some namespace) interfaceName with
      | inr e => inr e
      | inl addrs =>
          match filter is_Some addrs with
          | Some a :: _ => match CloseNS w namespace with Some e => inr e | None => inl a end
          | _ => inr "interface does not have an ipv4 address"
          end
      end
  end.

Definition FlannelUDP : string := "flannel0".
Definition FlannelVxlan : string := "flannel.1".
Definition CalicoVxlan : string := "vxlan.calico".
Definition CiliumHost : string := "cilium_host".
Definition CiliumVxlan : string := "cilium_vxlan".
(** The first route through the interface [name]. *)
Fixpoint route_through (w : W) (name : string) (routes : list Route) : option Route :=
  match routes with
  | [] => None
  | r :: routes =>
      match InterfaceByIndex w None (rt_LinkIndex r) with
      | inl n => if String.eqb n name then Some r else route_through w name routes
      | inr _ => route_through w name routes
      end
  end.
Definition detect_vxlan (name otherwise : string) (w : W) : string + error :=
  match RouteList w None with
  | inr e => inr e
  | inl routes =>
      match route_through w name routes with
      | Some r => if rt_LinkIndex r <=? 0 then inr "could not determine backend by interface" else inl name
      | None => inl otherwise
      end
  end.
Definition DetectBackendFlannel : W → string + error := detect_vxlan FlannelVxlan FlannelUDP.
Definition DetectBackendCalico : W → string + error := detect_vxlan CalicoVxlan EmptyString.
Definition DetectBackendCilium (w : W) : string :=
  let links := match LinkList w with inl l => l | inr _ => [] end in
  if bool_decide (CiliumVxlan ∈ lk_Name <$> links) then CiliumVxlan else CiliumHost.
End Tc.
