(* ===== verification/NetPlugin.v ===== *)
(** * pkg/service/net: apps, their devices, and the two plugins

    The devices of an app (server.go), the limits and filters of an app
    (tc.go), generic_plugin.go and adq_plugin.go.  An app is shared with the
    engine: a method that finds its devices returns the app with them. *)

From S2P Require Export NetTc.

(** BWLimit of server.go *)
Record AppLimit := mkAppLimit { bw_Id : string; bw_Ingress : string; bw_Egress : string }.
Record AppInfo := mkAppInfo {
  AppName : string; app_Group : string; NetNS : string; CgroupPath : string;
  Devices : gmap string string; Limits : list AppLimit; IfbName : string
}.
Definition set_Devices v (a : AppInfo) : AppInfo :=
  mkAppInfo (AppName a) (app_Group a) (NetNS a) (CgroupPath a) v (Limits a) (IfbName a).
Definition set_Limits v (a : AppInfo) : AppInfo :=
  mkAppInfo (AppName a) (app_Group a) (NetNS a) (CgroupPath a) (Devices a) v (IfbName a).

Record Group := mkGroupInfo { g_Id : string; GroupType : Z; g_Pool : Z; g_Queues : Z }.
Record CNI := mkCNI { cni_Name : string; Gateway : string }.
Record GroupSettable := mkGroupSettable { gs_Id : string; Settable : bool }.
Definition GROUP_SEPARATE_LAZY : Z := 0.
Definition GROUP_SEPARATE_DYNAMIC : Z := 1.
Definition GROUP_SHARE : Z := 2.

Record GenericPlugin := mkGeneric { HostNic : string; g_cni : CNI; g_groups : list Group }.
Record AdqPlugin := mkAdq { a_cni : CNI; a_nic : string; a_groups : list Group }.

(** getGroupType of both plugins *)
Definition getGroupType (groups : list Group) (group : string) : Z :=
  match filter (λ g, String.eqb group (g_Id g) = true) groups with
  | g :: _ => GroupType g
  | [] => -1
  end.

(** Strings of limits: an absent one is 0, and 0 stands for 1. *)
Definition parse_limit `{!FloatParse} (s : string) : f64 + error :=
  if String.eqb s "" then inl fzero
  else match ParseFloat64 s with
       | inr e => inr e
       | inl v => inl (if feq v fzero then of_Z 1 else v)
       end.

Section Plugins.
Context `{!GoRange} `{!NetlinkConsts} {W : Type} `{!Netlink W} `{!FloatParse}.
(** For how many rounds a call may wait for the peer of an interface. *)
Variable rounds : nat.

(** ** The devices of an app *)

(** One attempt: the name of the interface, and its address.  At the last
    attempt a failure counts as a success, for an interface that is nil. *)
Definition try_devices (last : bool) (app : AppInfo) (EthName : string) : GoM W (string * option string) := λ w,
  match GetDefaultGatewayInterfaceInNetNS w (NetNS app) with
  | inr _ => if last then Crash NilDeref else Ok ((EthName, None), w)
  | inl eth0 =>
      match GetInterfaceIpv4AddrInNamespace w eth0 (NetNS app) with
      | inl v => Ok ((eth0, Some v), w)
      | inr _ => Ok ((eth0, None), w)
      end
  end.
Definition GetDevices (retry : bool) (app : AppInfo) : GoM W AppInfo :=
  if negb (size (Devices app) =? 0)%nat then retM app
  else
    let* r := for_rangeM [0; 1; 2] EmptyString (λ EthName i,
      let* '(EthName, v) := try_devices (retry && (i =? 2)) app EthName in
      match v with
      | Some v => retM (Return (Some (EthName, v)))
      | None =>
          if negb retry then retM (Return None)
          else
            let* _ := (if i <? 2 then sleep else retM ()) in
            retM (Next EthName)
      end) in
    retM (match r with
          | Return (Some (n, v)) => set_Devices (<[n := v]> (Devices app)) app
          | Return None => app
          | Next EthName => set_Devices (<[EthName := "0.0.0.0"]> (Devices app)) app
          end).

(** The first device of a range over them. *)
Definition first_device (app : AppInfo) : string * string :=
  match range (Devices app) with kv :: _ => kv | [] => (EmptyString, EmptyString) end.

(** ** Limits and filters of an app (tc.go) *)

(** A pod whose namespace is gone has no limits to delete. *)
Definition TCDeleteTbfHost (podNic ns : string) : GoM W (() + error) :=
  let* veth := getHostInterface rounds podNic ns in
  match veth with
  | inr _ => retE ()
  | inl veth => delete_tbfs None veth
  end.

Definition ga_limit (app : AppInfo) (limitIn limitOut : f64) (op : Z) : GoM W (() + error) :=
  let podNic := (first_device app).1 in
  let* veth := getHostInterface rounds podNic (NetNS app) in
  match veth with
  | inr _ => retE ()
  | inl veth =>
      let? _ := (if (op =? OP_ADD) && negb (feq limitIn MAX_BT_LIMIT) && flt fzero limitIn
                 then createTBF None (mbitToBit (to_uint64 limitIn)) (mbitToBit 8) (lk_Index veth)
                 else retE ()) in
      let? _ := (if (op =? OP_ADD) && negb (feq limitOut MAX_BT_LIMIT) && flt fzero limitOut
                 then addQiscInCnet podNic (NetNS app) (mbitToBit (to_uint64 limitOut))
                 else retE ()) in
      let? _ := (if (op =? OP_DEL) || (op =? OP_ADD) && feq limitIn MAX_BT_LIMIT
                 then TCDeleteTbfHost podNic (NetNS app) else retE ()) in
      if (op =? OP_DEL) || (op =? OP_ADD) && feq limitOut MAX_BT_LIMIT
      then TCDeleteTbfContainer podNic (NetNS app) else retE ()
  end.
Definition operateGALimit (app : AppInfo) (limitIn limitOut : f64) (op : Z) : GoM W (AppInfo * option error) :=
  let* app := GetDevices true app in
  let* err := errE (ga_limit app limitIn limitOut op) in
  retM (app, err).

Definition ifb_name (prefix group : string) : string := prefix +:+ "_" +:+ group.
(** One direction: the filter that mirrors the pod's traffic to the ifb. *)
Definition app_filter (podIP : string) (op : Z) (hostDevice : option Link) (IPoff : Z) (ifb : string)
    : GoM W (() + error) :=
  let? ifbDevice := askE (λ w, LinkByName w None ifb) in
  let? ip := askE (λ _, convertIPToUint32 podIP) in
  operateFilter ip IPoff hostDevice ifbDevice op.
(** A pod whose interface cannot be found has no second host device.  Only the
    first filter is deleted. *)
Definition app_filters (app : AppInfo) (op : Z) (HostNic : string) : GoM W (() + error) :=
  let '(podNic, podIP) := first_device app in
  let? host := askE (λ w, LinkByName w None HostNic) in
  let* hd := getHostInterface rounds podNic (NetNS app) in
  let? peer := (match hd with
                | inr _ => retE None
                | inl l => let? _ := operateIngressQdisc l op in retE (Some l)
                end) in
  let? _ := (if (op =? OP_ADD) || (op =? OP_DEL)
             then app_filter podIP op (Some host) INGRESS_IP_OFF (ifb_name INGRESS_IFB_PREFIX (app_Group app))
             else retE ()) in
  if op =? OP_ADD
  then app_filter podIP op peer EGRESS_IP_OFF (ifb_name EGRESS_IFB_PREFIX (app_Group app))
  else retE ().
Definition operateApp (app : AppInfo) (op : Z) (HostNic : string) : GoM W (AppInfo * option error) :=
  let* app := GetDevices true app in
  let* err := errE (app_filters app op HostNic) in
  retM (app, err).

(** ** generic_plugin.go *)

(** [bridge] is the package variable BridgeMode. *)
Definition IsGroupSettable (bridge : bool) (group : Z) : bool := (group =? GROUP_SHARE) && negb bridge.

Definition mtu_of (nic : string) : GoM W Z :=
  let* mtu := getMTU nic in retM (match mtu with inl m => m | inr _ => -1 end).
Definition ConfigureEgressGroup (g : GenericPlugin) (group : Group) : GoM W (() + error) :=
  let* mtu := mtu_of (HostNic g) in
  let ifb := ifb_name EGRESS_IFB_PREFIX (g_Id group) in
  let? _ := createIfb ifb mtu in
  addIfbLimit (mbitToBit (g_Pool group)) ifb.
Definition ConfigureIngressGroup (g : GenericPlugin) (group : Group) : GoM W (() + error) :=
  let* mtu := mtu_of (HostNic g) in
  let ifb := ifb_name INGRESS_IFB_PREFIX (g_Id group) in
  let? _ := createIfb ifb mtu in
  let? _ := addIfbLimit (mbitToBit (g_Pool group)) ifb in
  let? hostDevice := askE (λ w, LinkByName w None (Gateway (g_cni g))) in
  operateIngressQdisc hostDevice OP_ADD.
(** Errors are logged only. *)
Fixpoint generic_Configure (bridge : bool) (g : GenericPlugin) (groups : list Group) : GoM W () :=
  match groups with
  | [] => retM ()
  | group :: groups =>
      let* _ :=
        (if negb (IsGroupSettable bridge (GroupType group)) then retM ()
         else if (GroupType group =? GROUP_SEPARATE_LAZY) || (GroupType group =? GROUP_SEPARATE_DYNAMIC)
         then retM ()
         else
           let* _ := ConfigureEgressGroup g group in
           let* _ := ConfigureIngressGroup g group in
           retM ()) in
      generic_Configure bridge g groups
  end.

(** The apps of a type are limited one by one. *)
Definition separate (bridge : bool) (appType : Z) : bool :=
  (appType =? -1) || (appType =? GROUP_SEPARATE_LAZY) || (appType =? GROUP_SEPARATE_DYNAMIC) ||
  negb (IsGroupSettable bridge appType).
Definition generic_RegisterApp (bridge : bool) (g : GenericPlugin) (app : AppInfo)
    : GoM W (AppInfo * option error) :=
  if separate bridge (getGroupType (g_groups g) (app_Group app)) then retM (app, None)
  else operateApp app OP_ADD (Gateway (g_cni g)).
Definition generic_UnRegisterApp (bridge : bool) (g : GenericPlugin) (app : AppInfo)
    : GoM W (AppInfo * option error) :=
  if separate bridge (getGroupType (g_groups g) (app_Group app))
  then operateGALimit app fzero fzero OP_DEL
  else operateApp app OP_DEL (Gateway (g_cni g)).

(** One direction of a group's limit. *)
Definition group_limit (prefix group : string) (limit : f64) : GoM W (() + error) :=
  if flt fzero limit then
    if feq limit MAX_BT_LIMIT then
      let? ifbDevice := askE (λ w, LinkByName w None (ifb_name prefix group)) in
      delQdiscIfExist None (lk_Index ifbDevice) "tbf"
    else addIfbLimit (mbitToBit (to_uint64 limit)) (ifb_name prefix group)
  else retE ().
Definition isn {A} (o : option A) : bool := match o with None => true | Some _ => false end.
(** [app] is nil for a limit of the whole group. *)
Definition generic_SetLimit (bridge : bool) (g : GenericPlugin) (group : string) (app : option AppInfo)
    (limit : AppLimit) : GoM W (option AppInfo * option error) :=
  let appType := getGroupType (g_groups g) group in
  let settable := IsGroupSettable bridge appType in
  if (appType =? -1) || (appType =? GROUP_SEPARATE_LAZY) && isn app ||
     (appType =? GROUP_SHARE) && negb (isn app) && settable
  then retM (app, None)
  else match parse_limit (bw_Ingress limit) with
  | inr e => retM (app, Some e)
  | inl limitIn =>
      match parse_limit (bw_Egress limit) with
      | inr e => retM (app, Some e)
      | inl limitOut =>
          if (appType =? GROUP_SHARE) && isn app && settable ||
             (appType =? GROUP_SEPARATE_DYNAMIC) && isn app && settable
          then
            let* err := errE (let? _ := group_limit INGRESS_IFB_PREFIX group limitIn in
                              group_limit EGRESS_IFB_PREFIX group limitOut) in
            retM (app, err)
          else if (appType =? GROUP_SEPARATE_LAZY) && negb (isn app) && negb settable ||
                  (appType =? GROUP_SEPARATE_DYNAMIC) && negb (isn app) && negb settable ||
                  negb settable
          then
            let* a := liftM (deref app) in
            let* '(a, err) := operateGALimit a limitIn limitOut OP_ADD in
            retM (Some a, err)
          else retM (app, None)
      end
  end.

(** What the agent is told of its groups. *)
Definition settable_groups (shared : bool) (groups : list Group) : list GroupSettable :=
  flat_map (λ grp,
    (if GroupType grp =? GROUP_SEPARATE_LAZY then [mkGroupSettable (g_Id grp) false] else []) ++
    (if GroupType grp =? GROUP_SEPARATE_DYNAMIC then [mkGroupSettable (g_Id grp) false] else []) ++
    (if GroupType grp =? GROUP_SHARE then [mkGroupSettable (g_Id grp) shared] else [])) groups.
Definition NewGenericPlugin (bridge : bool) (nic : string) (c : CNI) (group : list Group)
    : GenericPlugin * list GroupSettable :=
  (mkGeneric nic c group, settable_groups (negb bridge) group).

(** ** adq_plugin.go *)

Definition NewAdqPlugin (nic : string) (c : CNI) (group : list Group) : AdqPlugin * list GroupSettable :=
  (mkAdq c nic group, settable_groups false group).

Definition known_group (t : Z) : bool :=
  (t =? GROUP_SEPARATE_LAZY) || (t =? GROUP_SEPARATE_DYNAMIC) || (t =? GROUP_SHARE).
(** The traffic class of an app. *)
Definition adq_class (a : AdqPlugin) (app : AppInfo) : Z + error :=
  let t := getGroupType (a_groups a) (app_Group app) in
  if (t =? GROUP_SEPARATE_LAZY) || (t =? GROUP_SEPARATE_DYNAMIC) then inl 1
  else if t =? GROUP_SHARE then inl 2
  else inr ("app " +:+ AppName app +:+ " group " +:+ app_Group app +:+ " doesn't exist").
Definition AddEgressFilter (a : AdqPlugin) (app : AppInfo) : GoM W (() + error) :=
  forE (range (Devices app)) (λ kv,
    let? hostDevice := askE (λ w, LinkByName w None (a_nic a)) in
    let? tc := askE (λ _, adq_class a app) in
    callE (λ w, FilterAdd w (FFlower
      (mkFlower (mkAttrs (lk_Index hostDevice) HANDLE_MIN_EGRESS 1 ETH_P_IP) ETH_P_IP
         (ParseIP kv.2) None 0 0 [SkbEdit tc])))).
Definition AddIngressFilter (a : AdqPlugin) (app : AppInfo) : GoM W (() + error) :=
  forE (range (Devices app)) (λ kv,
    let? hostDevice := askE (λ w, LinkByName w None (a_nic a)) in
    let? tc := askE (λ _, adq_class a app) in
    let '(maj, min) := MajorMinor (HANDLE_MIN_PRIORITY + tc) in
    callE (λ w, FilterAdd w (FFlower
      (mkFlower (mkAttrs (lk_Index hostDevice) (HANDLE_INGRESS + 1) 1 ETH_P_IP) ETH_P_IP
         None (ParseIP kv.2) (Z.lor 0 TCA_CLS_FLAGS_SKIP_SW) (MakeHandle maj min) [])))).
Definition adq_RegisterApp (a : AdqPlugin) (app : AppInfo) : GoM W (AppInfo * option error) :=
  let* err := errE (let? _ := AddEgressFilter a app in AddIngressFilter a app) in
  retM (app, err).

Definition egress_flowers (l : list Filter) : list Flower :=
  omap (λ f, match f with
             | FFlower f => match fl_Actions f with SkbEdit _ :: _ => Some f | _ => None end
             | _ => None
             end) l.
Definition ingress_flowers (l : list Filter) : list Flower :=
  omap (λ f, match f with
             | FFlower f => if fl_ClassID f =? 0 then None else Some f
             | _ => None
             end) l.
Definition TCGetFlowerFilters (a : AdqPlugin) : GoM W (list Flower + error) :=
  let? hostDevice := askE (λ w, LinkByName w None (a_nic a)) in
  let? out := askE (λ w, FilterList w hostDevice HANDLE_MIN_EGRESS) in
  let? inn := askE (λ w, FilterList w hostDevice HANDLE_MIN_INGRESS) in
  retE (egress_flowers out ++ ingress_flowers inn).
(** Two absent addresses are equal. *)
Definition DelADQFilter (a : AdqPlugin) (ip : option Z) : GoM W (() + error) :=
  let? filters := TCGetFlowerFilters a in
  forE filters (λ flower,
    if bool_decide (fl_DestIP flower = ip) || bool_decide (fl_SrcIP flower = ip)
    then callE (λ w, FilterDel w (FFlower flower)) else retE ()).
Definition adq_UnRegisterApp (a : AdqPlugin) (app : AppInfo) : GoM W (AppInfo * option error) :=
  let* err := errE (
    let? _ := forE (range (Devices app)) (λ kv, DelADQFilter a (ParseIP kv.2)) in
    let podNic := default EmptyString (last (range (Devices app)).*1) in
    if known_group (getGroupType (a_groups a) (app_Group app)) then
      let? _ := TCDeleteTbfHost podNic (NetNS app) in
      TCDeleteTbfContainer podNic (NetNS app)
    else retE ()) in
  retM (app, err).

(** One direction: [unlimit] or [set] a rate. *)
Definition adq_direction (limit : string) (unlimit : GoM W (() + error))
    (set : Z → GoM W (() + error)) : GoM W (() + error) :=
  if String.eqb limit "" then retE ()
  else
    let? v := askE (λ _, parse_limit limit) in
    if feq v MAX_BT_LIMIT then unlimit
    else if flt fzero v then set (mbitToBit (to_uint64 v)) else retE ().
Definition adq_limit (a : AdqPlugin) (app : AppInfo) (limit : AppLimit) : GoM W (() + error) :=
  let podNic := (first_device app).1 in
  let? veth := getHostInterface rounds podNic (NetNS app) in
  if known_group (getGroupType (a_groups a) (app_Group app)) then
    let? _ := adq_direction (bw_Ingress limit) (delQdiscIfExist None (lk_Index veth) "tbf")
                (λ r, createTBF None r (mbitToBit 8) (lk_Index veth)) in
    adq_direction (bw_Egress limit) (TCDeleteTbfContainer podNic (NetNS app))
      (λ r, addQiscInCnet podNic (NetNS app) r)
  else failE ("app " +:+ AppName app +:+ " group " +:+ app_Group app +:+ " doesn't exist").
Definition adq_SetLimit (a : AdqPlugin) (app : option AppInfo) (limit : AppLimit)
    : GoM W (option AppInfo * option error) :=
  match app with
  | None => retM (None, None)
  | Some app => let* err := errE (adq_limit a app limit) in retM (Some app, err)
  end.

(** ** plugin.go: the interface *)

Inductive Plugin := Generic (g : GenericPlugin) | Adq (a : AdqPlugin).
Definition plugin_Configure (bridge : bool) (p : Plugin) (groups : list Group) : GoM W () :=
  match p with Generic g => generic_Configure bridge g groups | Adq _ => retM () end.
Definition plugin_RegisterApp (bridge : bool) (p : Plugin) (app : AppInfo) : GoM W (AppInfo * option error) :=
  match p with Generic g => generic_RegisterApp bridge g app | Adq a => adq_RegisterApp a app end.
Definition plugin_UnRegisterApp (bridge : bool) (p : Plugin) (app : AppInfo) : GoM W (AppInfo * option error) :=
  match p with Generic g => generic_UnRegisterApp bridge g app | Adq a => adq_UnRegisterApp a app end.
Definition plugin_SetLimit (bridge : bool) (p : Plugin) (group : string) (app : option AppInfo)
    (limit : AppLimit) : GoM W (option AppInfo * option error) :=
  match p with
  | Generic g => generic_SetLimit bridge g group app limit
  | Adq a => adq_SetLimit a app limit
  end.
End Plugins.
