(* ===== verification/NetService.v ===== *)
(** * pkg/service/net: the network engine of the I/O service

    server.go and persist.go: the configuration of NICs and groups, registered
    apps, their limits, the store, and what is measured of the pods' traffic.
    Handlers and rounds are atomic. *)

From S2P Require Export NetPlugin.

Record NICInfo := mkNIC {
  nic_InterfaceName : string; nic_IpAddr : string; nic_MacAddr : string; nic_InterfaceType : string
}.
Record ServerInfo := mkServerInfo { ServeTime : string; srv_Generation : Z }.
Record Option_ := mkOption { EnableSubscribe : bool; IsBridgeCNI : bool; Speed : Z; Ifname : string }.
Record SR := mkSR { sr_Send : f64; sr_Receive : f64 }.
Record Veth := mkVeth { HostVeth : string; v_Veth : string; Traffic : SR }.
Record RegisterAppInfo := mkRegisterApp {
  ra_Group : string; ra_NetNS : string; ra_Devices : gmap string string; ra_CgroupPath : string
}.
Record ConfigureInfo := mkConfigure {
  cf_Cni : string; cf_Gateway : string; cf_NodeIps : list NICInfo; cf_Groups : list Group
}.
Record ServiceInfoConfiguration := mkServiceConfig {
  sc_MacAddr : string; sc_InterfaceName : string; DefaultSpeed : Z; sc_QueueNum : Z;
  sc_CNI : string; sc_Backend : string
}.
(** pb.NetworkBandwidthInfo, and AppsBandwidth with the network payload *)
Record NetworkBandwidthInfo := mkNbi { nb_Id : string; nb_IsIngress : bool; nb_Value : string }.
Record AppsBandwidth := mkAppsBw { nb_IoiType : Z; nb_AppBwInfo : gmap string (list NetworkBandwidthInfo) }.

(** encoding/json on what the engine stores and receives. *)
Class NetJson := {
  marshal_app : AppInfo → string; unmarshal_app : string → AppInfo + error;
  marshal_group : Group → string; unmarshal_group : string → Group + error;
  marshal_limit : AppLimit → string; unmarshal_limit : string → AppLimit + error;
  marshal_nicinfo : NICInfo → string; unmarshal_nicinfo : string → NICInfo + error;
  marshal_cni : CNI → string; unmarshal_cni : string → CNI + error;
  marshal_server : ServerInfo → string; unmarshal_server : string → ServerInfo + error;
  marshal_text : string → string; unmarshal_text : string → string + error;
  marshal_net_interval : Z → string; unmarshal_net_interval : string → Z + error;
  marshal_settable : list GroupSettable → string;
  marshal_service_nic : string → string → f64 → Z → string;
  unmarshal_register : string → RegisterAppInfo + error;
  unmarshal_configure : string → ConfigureInfo + error;
  unmarshal_ip : string → string + error
}.
(** The other parts of the system that the engine uses: the addresses of the
    host's interfaces, the networks of the CNI configuration with the types of
    their plugins (each of them may be nil), adqsetup with its arguments, ethtool's maximum of combined channels, files of /sys and /proc, and
    os.Stat of a cgroup. *)
Class NodeTools (W : Type) := {
  Interfaces : W → list (string * (list string + error)) + error;
  cni_Load : W → list (option (list (option string))) + error;
  adqsetup : W → list string → W + error;
  MaxCombined : W → string → Z + error;
  ReadSys : W → string → string + error;
  StatCgroup : W → string → stat
}.

Section NetService.
Context `{!GoRange} `{!NetlinkConsts} {W D : Type} `{!Netlink W} `{!NodeTools W} `{!BoltDB D}.
Context `{!FloatParse} `{!FloatText} `{!NetJson}.
Variable rounds : nat.

(** ** State *)

(** The engine with the package variables NetworkConfig and BridgeMode, its
    store and the kernel. *)
Record NetEngine := mkNetEngine {
  nv_db : D;
  nv_option : Option_;
  groupSettable : string;
  nv_Apps : gmap string AppInfo;
  nv_groups : list Group;
  groupLimit : gmap string AppLimit;
  nics : list NICInfo;
  cnis : list CNI;
  nv_Interval : Z;
  plugins : gmap string Plugin;
  prevMonitor : gmap string SR;
  podsVethCache : gmap string (list Veth);
  NetworkConfig : ServiceInfoConfiguration;
  BridgeMode : bool;
  kernel : W
}.
Definition set_db v (s : NetEngine) : NetEngine :=
  mkNetEngine v (nv_option s) (groupSettable s) (nv_Apps s) (nv_groups s) (groupLimit s) (nics s)
    (cnis s) (nv_Interval s) (plugins s) (prevMonitor s) (podsVethCache s) (NetworkConfig s) (BridgeMode s) (kernel s).
Definition set_groupSettable v (s : NetEngine) : NetEngine :=
  mkNetEngine (nv_db s) (nv_option s) v (nv_Apps s) (nv_groups s) (groupLimit s) (nics s)
    (cnis s) (nv_Interval s) (plugins s) (prevMonitor s) (podsVethCache s) (NetworkConfig s) (BridgeMode s) (kernel s).
Definition set_Apps v (s : NetEngine) : NetEngine :=
  mkNetEngine (nv_db s) (nv_option s) (groupSettable s) v (nv_groups s) (groupLimit s) (nics s)
    (cnis s) (nv_Interval s) (plugins s) (prevMonitor s) (podsVethCache s) (NetworkConfig s) (BridgeMode s) (kernel s).
Definition set_groups v (s : NetEngine) : NetEngine :=
  mkNetEngine (nv_db s) (nv_option s) (groupSettable s) (nv_Apps s) v (groupLimit s) (nics s)
    (cnis s) (nv_Interval s) (plugins s) (prevMonitor s) (podsVethCache s) (NetworkConfig s) (BridgeMode s) (kernel s).
Definition set_groupLimit v (s : NetEngine) : NetEngine :=
  mkNetEngine (nv_db s) (nv_option s) (groupSettable s) (nv_Apps s) (nv_groups s) v (nics s)
    (cnis s) (nv_Interval s) (plugins s) (prevMonitor s) (podsVethCache s) (NetworkConfig s) (BridgeMode s) (kernel s).
Definition set_nics v (s : NetEngine) : NetEngine :=
  mkNetEngine (nv_db s) (nv_option s) (groupSettable s) (nv_Apps s) (nv_groups s) (groupLimit s) v
    (cnis s) (nv_Interval s) (plugins s) (prevMonitor s) (podsVethCache s) (NetworkConfig s) (BridgeMode s) (kernel s).
Definition set_cnis v (s : NetEngine) : NetEngine :=
  mkNetEngine (nv_db s) (nv_option s) (groupSettable s) (nv_Apps s) (nv_groups s) (groupLimit s) (nics s)
    v (nv_Interval s) (plugins s) (prevMonitor s) (podsVethCache s) (NetworkConfig s) (BridgeMode s) (kernel s).
Definition set_Interval v (s : NetEngine) : NetEngine :=
  mkNetEngine (nv_db s) (nv_option s) (groupSettable s) (nv_Apps s) (nv_groups s) (groupLimit s) (nics s)
    (cnis s) v (plugins s) (prevMonitor s) (podsVethCache s) (NetworkConfig s) (BridgeMode s) (kernel s).
Definition set_plugins v (s : NetEngine) : NetEngine :=
  mkNetEngine (nv_db s) (nv_option s) (groupSettable s) (nv_Apps s) (nv_groups s) (groupLimit s) (nics s)
    (cnis s) (nv_Interval s) v (prevMonitor s) (podsVethCache s) (NetworkConfig s) (BridgeMode s) (kernel s).
Definition set_prevMonitor v (s : NetEngine) : NetEngine :=
  mkNetEngine (nv_db s) (nv_option s) (groupSettable s) (nv_Apps s) (nv_groups s) (groupLimit s) (nics s)
    (cnis s) (nv_Interval s) (plugins s) v (podsVethCache s) (NetworkConfig s) (BridgeMode s) (kernel s).
Definition set_podsVethCache v (s : NetEngine) : NetEngine :=
  mkNetEngine (nv_db s) (nv_option s) (groupSettable s) (nv_Apps s) (nv_groups s) (groupLimit s) (nics s)
    (cnis s) (nv_Interval s) (plugins s) (prevMonitor s) v (NetworkConfig s) (BridgeMode s) (kernel s).
Definition set_config v (s : NetEngine) : NetEngine :=
  mkNetEngine (nv_db s) (nv_option s) (groupSettable s) (nv_Apps s) (nv_groups s) (groupLimit s) (nics s)
    (cnis s) (nv_Interval s) (plugins s) (prevMonitor s) (podsVethCache s) v (BridgeMode s) (kernel s).
Definition set_bridge v (s : NetEngine) : NetEngine :=
  mkNetEngine (nv_db s) (nv_option s) (groupSettable s) (nv_Apps s) (nv_groups s) (groupLimit s) (nics s)
    (cnis s) (nv_Interval s) (plugins s) (prevMonitor s) (podsVethCache s) (NetworkConfig s) v (kernel s).
Definition set_kernel v (s : NetEngine) : NetEngine :=
  mkNetEngine (nv_db s) (nv_option s) (groupSettable s) (nv_Apps s) (nv_groups s) (groupLimit s) (nics s)
    (cnis s) (nv_Interval s) (plugins s) (prevMonitor s) (podsVethCache s) (NetworkConfig s) (BridgeMode s) v.
Definition on_kernel {A} (m : GoM W A) : GoM NetEngine A := λ s,
  let! '(a, w) := m (kernel s) in Ok (a, set_kernel w s).

(** ** persist.go *)

Definition net_table (sub : string) : string := "NET." +:+ sub.
Definition persist_save (what table key value : string) : GoM NetEngine (option error) := λ s,
  let! '(d, err) := db_Save table key value (nv_db s) in
  Ok (match err with Some e => Some (what +:+ e) | None => None end, set_db d s).
Definition AddGroup (group : Group) : GoM NetEngine (option error) :=
  persist_save "could not insert group: " (net_table "GROUPS") (g_Id group) (marshal_group group).
Definition AddGroupLimit (group : string) (limit : AppLimit) : GoM NetEngine (option error) :=
  persist_save "could not insert group limit: " (net_table "GROUPLIMIT") group (marshal_limit limit).
Definition AddGroupSettable (groupSet : string) : GoM NetEngine (option error) :=
  persist_save "could not insert group settable: " "NET" "GROUPSETTABLE" (marshal_text groupSet).
Definition AddNic (nic : NICInfo) : GoM NetEngine (option error) :=
  persist_save "could not insert nic: " (net_table "NICS") (nic_InterfaceName nic) (marshal_nicinfo nic).
Definition AddCni (cni : CNI) : GoM NetEngine (option error) :=
  persist_save "could not insert cni: " (net_table "CNIS") (cni_Name cni) (marshal_cni cni).
Definition AddServerInfo (si : ServerInfo) : GoM NetEngine (option error) :=
  persist_save "could not insert serverInfo: " "NET" "serverInfo" (marshal_server si).
Definition AddAppInfo (appInfo : AppInfo) : GoM NetEngine (option error) :=
  persist_save "could not insert app: " (net_table "APPS") (AppName appInfo) (marshal_app appInfo).
Definition SaveInterval (v : Z) : GoM NetEngine (option error) :=
  persist_save "could not set config log: " "NET" "INTERVAL" (marshal_net_interval v).
Definition DeleteAppInfo (appName : string) : GoM NetEngine (option error) := λ s,
  let! '(d, err) := db_Delete (net_table "APPS") appName (nv_db s) in
  Ok (match err with Some e => Some ("could not delete app: " +:+ e) | None => None end, set_db d s).

Definition persist_load (table key : string) : GoM NetEngine (gmap string string + error) := λ s,
  let! '(m, err) := db_Load table key (nv_db s) in
  Ok (match err with Some e => inr e | None => inl m end, s).
(** The values of a table, read one after the other. *)
Fixpoint read_values {A} (unmarshal : string → A + error) (l : list (string * string)) : list (string * A) + error :=
  match l with
  | [] => inl []
  | (k, v) :: l =>
      match unmarshal v with
      | inr e => inr e
      | inl a => match read_values unmarshal l with inr e => inr e | inl r => inl ((k, a) :: r) end
      end
  end.
Definition load_values {A} (table key : string) (unmarshal : string → A + error)
    : GoM NetEngine (list (string * A) + error) :=
  let? m := persist_load table key in askE (λ _, read_values unmarshal (range m)).
Definition GetNics : GoM NetEngine (list NICInfo + error) :=
  let? l := load_values (net_table "NICS") "" unmarshal_nicinfo in retE l.*2.
Definition GetCNIs : GoM NetEngine (list CNI + error) :=
  let? l := load_values (net_table "CNIS") "" unmarshal_cni in retE l.*2.
Definition GetGroups : GoM NetEngine (list Group + error) :=
  let? l := load_values (net_table "GROUPS") "" unmarshal_group in retE l.*2.
Definition GetGroupLimit : GoM NetEngine (gmap string AppLimit + error) :=
  let? l := load_values (net_table "GROUPLIMIT") "" unmarshal_limit in retE (list_to_map l).
Definition GetAllAppInfos (key : string) : GoM NetEngine (gmap string AppInfo + error) :=
  let? l := load_values (net_table "APPS") key unmarshal_app in retE (list_to_map l).
(** Without an entry the zero value is returned. *)
Definition GetServerInfo : GoM NetEngine (ServerInfo + error) :=
  let? l := load_values "NET" "serverInfo" unmarshal_server in
  retE (default (mkServerInfo "" 0) (last l.*2)).
(** A missing entry is an empty text, which is read. *)
Definition GetGroupSettable : GoM NetEngine (string + error) :=
  let? m := persist_load "NET" "GROUPSETTABLE" in
  askE (λ _, unmarshal_text (default EmptyString (m !! "GROUPSETTABLE"))).
(** The error of reading the text comes before the one of loading it. *)
Definition LoadInterval : GoM NetEngine (Z + error) :=
  let* m := persist_load "NET" "INTERVAL" in
  let text := match m with inl m => default EmptyString (m !! "INTERVAL") | inr _ => EmptyString end in
  retM (match unmarshal_net_interval text with
        | inr e => inr e
        | inl v => match m with inl _ => inl v | inr e => inr e end
        end).

(** ** Registration *)

Definition update_app (id : string) (app : AppInfo) : GoM NetEngine () :=
  modM (λ s, set_Apps (<[id := app]> (nv_Apps s)) s).
(** [n.Apps[id]], dereferenced *)
Definition app_at (id : string) : GoM NetEngine AppInfo := λ s,
  let! app := deref (nv_Apps s !! id) in Ok (app, s).
(** A method of a plugin on a registered app, whose devices it may find. *)
Definition with_app {R} (id : string) (op : bool → AppInfo → GoM W (AppInfo * R)) : GoM NetEngine R :=
  let* app := app_at id in
  let* bridge := getM BridgeMode in
  let* '(app, r) := on_kernel (op bridge app) in
  let* _ := update_app id app in
  retM r.
Definition plugin_at (ip : string) : GoM NetEngine (option Plugin) := getM (λ s, plugins s !! ip).

(** A NIC without plugin ends the deletion; an error of a plugin is logged. *)
Fixpoint unregister_nics (AppId : string) (l : list NICInfo) : GoM NetEngine (() + error) :=
  match l with
  | [] => retE ()
  | nic :: l =>
      let* p := plugin_at (nic_IpAddr nic) in
      match p with
      | None => failE (nic_IpAddr nic +:+ " haven't been configured")
      | Some p =>
          let* _ := with_app AppId (λ bridge app, plugin_UnRegisterApp rounds bridge p app) in
          unregister_nics AppId l
      end
  end.
Definition deleteAppInfo (AppId : string) : GoM NetEngine (option error) := λ s,
  match nv_Apps s !! AppId with
  | None => Ok (Some "app not registered or already deleted", s)
  | Some _ =>
      errE (let? _ := unregister_nics AppId (nics s) in
            let* _ := modM (λ s, set_podsVethCache (delete AppId (podsVethCache s)) s) in
            let* app := app_at AppId in
            let* _ := DeleteAppInfo (AppName app) in
            let* _ := modM (λ s, set_Apps (delete AppId (nv_Apps s)) s) in
            retE ()) s
  end.
(** One round of CheckPodCgroup. *)
Definition check_pods (s : NetEngine) : outcome NetEngine :=
  foldM (λ s kv,
    match StatCgroup (kernel s) (CgroupPath kv.2) with
    | Absent => let! '(_, s) := deleteAppInfo kv.1 s in Ok s
    | _ => Ok s
    end) s (range (nv_Apps s)).

Fixpoint register_nics (name : string) (l : list NICInfo) : GoM NetEngine (() + error) :=
  match l with
  | [] => retE ()
  | nic :: l =>
      let* p := plugin_at (nic_IpAddr nic) in
      match p with
      | None => failE (nic_IpAddr nic +:+ " is not been configured")
      | Some p =>
          let* err := with_app name (λ bridge app, plugin_RegisterApp rounds bridge p app) in
          match err with
          | Some e => failE e
          | None => register_nics name l
          end
      end
  end.
(** A failed request has a response FAIL, a successful one OK.  The app is
    stored with the devices that the plugins have found. *)
Definition net_RegisterApp (name info : string) : GoM NetEngine (option error) := λ s,
  let fail e := Ok (Some e, s) in
  if String.eqb name "" || String.eqb info "" then fail "app name or app info should not be empty"
  else if decide (is_Some (nv_Apps s !! name)) then fail "app already registered"
  else match unmarshal_register info with
  | inr e => fail e
  | inl app =>
      if String.eqb (ra_Group app) "" || String.eqb (ra_NetNS app) "" ||
         String.eqb (ra_CgroupPath app) "" || (size (ra_Devices app) =? 0)%nat
      then fail "app group or app netns or App Devices should not be empty"
      else
        errE (
          let* a := on_kernel (GetDevices false
            (mkAppInfo name (ra_Group app) (ra_NetNS app) (ra_CgroupPath app) ∅ []
               (Ifname (nv_option s)))) in
          let* _ := update_app name a in
          let? _ := register_nics name (nics s) in
          let* a := app_at name in
          let* _ := AddAppInfo a in
          retE ()) s
  end.
Definition net_UnRegisterApp (AppId : string) : GoM NetEngine (option error) :=
  if String.eqb AppId "" then retM (Some "req appid is null") else deleteAppInfo AppId.

(** ** Limits *)

Definition findGroup (group : string) (s : NetEngine) : bool :=
  existsb (λ grp, String.eqb group (g_Id grp)) (nv_groups s).
(** The group and the app of an id: the app is empty for a group's limit. *)
Definition split_id (AppId : string) : option (string * string) :=
  match str_split dot AppId with
  | [group] => Some (group, EmptyString)
  | [group; app] => Some (group, app)
  | _ => None
  end.
Definition to_limit (l : BWLimit) : AppLimit := mkAppLimit (lmt_Id l) (lmt_In l) (lmt_Out l).
Definition keep_limit (group app : string) (appOk : bool) (l : BWLimit) : GoM NetEngine (() + error) :=
  if String.eqb (lmt_In l) "" && String.eqb (lmt_Out l) ""
  then failE "invalid limit values: in and out are both absent"
  else if appOk then
    let* a := app_at app in
    let* _ := update_app app (set_Limits [to_limit l] a) in retE ()
  else if negb (String.eqb (lmt_In l) "") && negb (String.eqb (lmt_Out l) "") then
    let* _ := modM (λ s, set_groupLimit (<[group := to_limit l]> (groupLimit s)) s) in
    let* _ := AddGroupLimit group (to_limit l) in retE ()
  else retE ().
(** A NIC without plugin is a nil pointer. *)
Definition apply_limit (group app : string) (appOk : bool) (nic : NICInfo) (l : BWLimit)
    : GoM NetEngine (() + error) :=
  let* p := plugin_at (nic_IpAddr nic) in
  let* p := liftM (deref p) in
  let* err :=
    (if appOk then
       with_app app (λ bridge a,
         let* '(a', err) := plugin_SetLimit rounds bridge p group (Some a) (to_limit l) in
         retM (default a a', err))
     else
       let* bridge := getM BridgeMode in
       let* '(_, err) := on_kernel (plugin_SetLimit rounds bridge p group None (to_limit l)) in
       retM err) in
  match err with Some e => failE e | None => retE () end.
Definition net_SetAppLimit (AppId : string) (limits : list BWLimit) : GoM NetEngine (option error) := λ s,
  let fail e := Ok (Some e, s) in
  if String.eqb AppId "" then fail "req appid is null"
  else match split_id AppId with
  | None => fail "appId format error"
  | Some (group, app) =>
      let appOk := bool_decide (is_Some (nv_Apps s !! app)) in
      if negb (String.eqb app "") && negb appOk then fail ("app " +:+ app +:+ " is unregistered")
      else if appOk || findGroup group s then
        errE (let? _ := forE limits (keep_limit group app appOk) in
              forE (nics s) (λ nic, forE limits (apply_limit group app appOk nic))) s
      else fail "app is not registered"
  end.

(** ** Configuration *)

Definition ADQ : string := "adq".
Definition NonAdq : string := "non-adq".
Definition Pollers : Z := 1.
(** The arguments for the groups: the last group of each type; [None] when a
    group has no queues. *)
Fixpoint adq_groups (groups : list Group) (ga be : list string) : option (list string) :=
  match groups with
  | [] => Some (ga ++ be)
  | g :: groups =>
      if g_Queues g =? 0 then None
      else if GroupType g =? GROUP_SEPARATE_LAZY then
        adq_groups groups ["[GA]"; "queues"; format_dec (g_Queues g); "pollers"; format_dec Pollers;
                           "min_rate"; format_dec (g_Pool g)] be
      else if GroupType g =? GROUP_SHARE then
        adq_groups groups ga ["[BE]"; "queues"; format_dec (g_Queues g); "pollers"; format_dec Pollers]
      else adq_groups groups ga be
  end.
Definition checkAdq (nic : string) (groups : list Group) : GoM W bool :=
  let* ing := HasIngress nic in
  match ing with
  | inr _ | inl true => retM false
  | inl false =>
      match adq_groups groups [] [] with
      | None => retM false
      | Some args =>
          let* r := callE (λ w, adqsetup w
            (["--verbose"; "create"; "[globals]"; "dev"; nic; "priority"; "skbedit"] ++ args)) in
          retM (match r with inl _ => true | inr _ => false end)
      end
  end.

Definition set_type (t : string) (nic : NICInfo) : NICInfo :=
  mkNIC (nic_InterfaceName nic) (nic_IpAddr nic) (nic_MacAddr nic) t.
(** A NIC's plugin; neither of the two constructors fails. *)
Definition new_plugin (isAdq bridge : bool) (nic : NICInfo) (c : CNI) (groups : list Group)
    : Plugin * list GroupSettable :=
  if isAdq then
    let '(a, gs) := NewAdqPlugin (nic_InterfaceName nic) c groups in (Adq a, gs)
  else
    let '(g, gs) := NewGenericPlugin bridge (nic_InterfaceName nic) c groups in (Generic g, gs).
Definition install (i : nat) (nic : NICInfo) (isAdq : bool) (p : Plugin) : GoM NetEngine () :=
  modM (λ s, set_nics (alter (set_type (if isAdq then ADQ else NonAdq)) i (nics s))
               (set_plugins (<[nic_IpAddr nic := p]> (plugins s)) s)).
Definition first_cni : GoM NetEngine CNI := λ s,
  match cnis s with c :: _ => Ok (c, s) | [] => Crash OutOfRange end.
(** The text for the agent is the one of the last NIC. *)
Fixpoint setup_nics (i : nat) (l : list NICInfo) (settable : string) : GoM NetEngine string :=
  match l with
  | [] => retM settable
  | nic :: l =>
      let* groups := getM nv_groups in
      let* isAdq := on_kernel (checkAdq (nic_InterfaceName nic) groups) in
      let* bridge := getM BridgeMode in
      let* c := first_cni in
      let '(p, gs) := new_plugin isAdq bridge nic c groups in
      let* _ := install i nic isAdq p in
      setup_nics (S i) l (marshal_settable gs)
  end.
Fixpoint configure_nics (groups : list Group) (l : list NICInfo) : GoM NetEngine () :=
  match l with
  | [] => retM ()
  | nic :: l =>
      let* p := plugin_at (nic_IpAddr nic) in
      let* p := liftM (deref p) in
      let* bridge := getM BridgeMode in
      let* _ := on_kernel (plugin_Configure bridge p groups) in
      configure_nics groups l
  end.
Fixpoint add_groups (groups : list Group) : GoM NetEngine () :=
  match groups with
  | [] => retM ()
  | g :: groups => let* _ := AddGroup g in add_groups groups
  end.
Definition set_first_cni (c : CNI) : GoM NetEngine () := λ s,
  match cnis s with _ :: l => Ok ((), set_cnis (c :: l) s) | [] => Crash OutOfRange end.
(** Only the first NIC is stored, as the request has it. *)
Definition updateConfig (config : ConfigureInfo) : GoM NetEngine string :=
  let* _ := modM (set_groups (cf_Groups config)) in
  let* nc := getM NetworkConfig in
  let* _ := modM (set_nics (cf_NodeIps config)) in
  let* nic0 := liftM (match cf_NodeIps config with nic :: _ => Ok nic | [] => Crash OutOfRange end) in
  let c := mkCNI (sc_CNI nc)
             (if String.eqb (sc_Backend nc) "" then nic_InterfaceName nic0 else sc_Backend nc) in
  let* _ := set_first_cni c in
  let* _ := AddNic nic0 in
  let* _ := add_groups (cf_Groups config) in
  let* _ := AddCni c in
  let* settable := setup_nics 0 (cf_NodeIps config) EmptyString in
  let* _ := configure_nics (cf_Groups config) (cf_NodeIps config) in
  let* _ := modM (set_groupSettable settable) in
  let* _ := AddGroupSettable settable in
  retM settable.
(** The response and its text; the error is always nil. *)
Definition net_Configure (Type_ conf : string) : GoM NetEngine (ResponseState * string) :=
  if String.eqb conf "" then retM (FAIL, EmptyString)
  else if String.eqb Type_ "INTERVAL" then
    match unmarshal_net_interval conf with
    | inr _ => retM (FAIL, EmptyString)
    | inl v =>
        let* _ := modM (set_Interval v) in
        let* _ := SaveInterval v in retM (OK_, EmptyString)
    end
  else match unmarshal_configure conf with
  | inr _ => retM (FAIL, EmptyString)
  | inl config =>
      let* known := getM groupSettable in
      if negb (String.eqb known "") then retM (OK_, known)
      else let* info := updateConfig config in retM (OK_, info)
  end.

(** ** Start *)

(** Replace a part of the state by what could be loaded. *)
Definition reload {A} (m : GoM NetEngine (A + error)) (set : A → NetEngine → NetEngine) : GoM NetEngine () :=
  let* r := m in match r with inl v => modM (set v) | inr _ => retM () end.
Fixpoint rebuild_nics (i : nat) (l : list NICInfo) : GoM NetEngine () :=
  match l with
  | [] => retM ()
  | nic :: l =>
      let isAdq := String.eqb (nic_InterfaceType nic) ADQ in
      let* c := first_cni in
      let* groups := getM nv_groups in
      let* bridge := getM BridgeMode in
      let* _ := install i nic isAdq (new_plugin isAdq bridge nic c groups).1 in
      rebuild_nics (S i) l
  end.
Definition rebuild : GoM NetEngine () :=
  let* _ := reload (GetAllAppInfos "") set_Apps in
  let* _ := reload GetNics set_nics in
  let* _ := reload GetGroups set_groups in
  let* _ := reload GetGroupLimit set_groupLimit in
  let* _ := reload GetCNIs (λ c s, match c with [] => s | _ => set_cnis c s end) in
  let* l := getM nics in
  let* _ := rebuild_nics 0 l in
  let* _ := modM (λ s, set_prevMonitor ∅ (set_podsVethCache ∅ s)) in
  reload GetGroupSettable set_groupSettable.

Definition no_config : ServiceInfoConfiguration := mkServiceConfig "" "" 0 0 "" "".
(** The round that CheckPodCgroup starts with runs before the rest, or later
    ([early] says which); [now] is the time as text. *)
Definition net_Initialize (opt : Option_) (now : string) (early : bool) (d : D) (w : W) : outcome NetEngine :=
  let '(d, _) := CreateTable "NET" ["APPS"; "GROUPS"; "GROUPLIMIT"; "NICS"; "CNIS"] d in
  let s := mkNetEngine d opt "" ∅ [] ∅ [] [mkCNI "" ""] 2 ∅ ∅ ∅ no_config (IsBridgeCNI opt) w in
  let! '(_, s) := reload (GetAllAppInfos "") set_Apps s in
  let! '(_, s) := reload LoadInterval set_Interval s in
  let! s := (if early then check_pods s else Ok s) in
  let! '(si, s) := GetServerInfo s in
  let generation := match si with inl si => srv_Generation si | inr _ => 0 end in
  let! '(_, s) := (if generation =? 0 then retM () else rebuild) s in
  let! '(_, s) := AddServerInfo (mkServerInfo now (u64 (generation + 1))) s in
  Ok s.

(** ** GetServiceInfo *)

Definition MacPath (iface : string) : string := "/sys/class/net/" +:+ iface +:+ "/address".
Definition SpeedPath (iface : string) : string := "/sys/class/net/" +:+ iface +:+ "/speed".
Definition DefaultMacAddr : string := "0:0:0:0:0:0".
Definition DefaultSpeedText : string := "1000".
(** net.ParseCIDR on an IPv4 address with its prefix length *)
Definition ParseCIDR (s : string) : option Z :=
  match str_split "/"%char s with
  | [ip; bits] =>
      match digits bits 0 with
      | Some n => if negb (String.eqb bits "") && (n <=? 32) then ParseIP ip else None
      | None => None
      end
  | _ => None
  end.
Definition getInterfaceByIP (w : W) (ip : Z) : string + error :=
  match Interfaces w with
  | inr e => inr e
  | inl l =>
      match filter (λ i, match i.2 with
                         | inl addrs => existsb (λ a, bool_decide (ParseCIDR a = Some ip)) addrs
                         | inr _ => false
                         end = true) l with
      | i :: _ => inl i.1
      | [] => inr "couldn't find a interface for the ip"
      end
  end.
(** The type of the first plugin of the network after the loopback. *)
Definition DetectCNI (w : W) : string + error :=
  match cni_Load w with
  | inr e => inr ("failed to load cni configuration: " +:+ e)
  | inl networks =>
      match networks !! 1%nat with
      | Some (Some (Some t :: _)) => inl t
      | _ => inr "failed to get cni"
      end
  end.
(** The CNI that is assumed, its backend, and whether bridge mode is set. *)
Definition detect_cni (opt : Option_) (w : W) : (string * string * bool) + error :=
  let cni := if IsBridgeCNI opt then inl "bridge" else DetectCNI w in
  let cni := match cni with inl c => c | inr _ => "bridge" end in
  let cni := if String.eqb cni "" then "bridge" else cni in
  if String.eqb cni "flannel" then
    match DetectBackendFlannel w with inl b => inl (cni, b, false) | inr e => inr e end
  else if String.eqb cni "calico" then
    match DetectBackendCalico w with inl b => inl (cni, b, false) | inr e => inr e end
  else if String.eqb cni "cilium-cni" then inl (cni, DetectBackendCilium w, false)
  else inl ("bridge", EmptyString, true).
Definition nic_speed (w : W) (iface : string) : string :=
  match ReadSys w (SpeedPath iface) with
  | inr _ => DefaultSpeedText
  | inl bytes =>
      let speed := TrimSpace bytes in
      match ParseInt speed 64 with
      | inl v => if v <? 0 then DefaultSpeedText else speed
      | inr _ => DefaultSpeedText
      end
  end.
(** The answer is the configuration, or an error with a response FAIL. *)
Definition GetServiceInfo (IoiType : Z) (req : string) : GoM NetEngine (string + error) := λ s,
  let w := kernel s in
  if negb (IoiType =? NetIOIType) then Ok (inr "get service info not for network io service", s)
  else match detect_cni (nv_option s) w with
  | inr e => Ok (inr e, s)
  | inl (cni, backend, bridge) =>
      let s := set_bridge (bridge || BridgeMode s) s in
      if String.eqb req "" then Ok (inr "parse req error", s)
      else match unmarshal_ip req with
      | inr _ => Ok (inr "parse req error", s)
      | inl ipaddr =>
          match ParseIP ipaddr with
          | None => Ok (inr "parse ip error", s)
          | Some ip =>
              match getInterfaceByIP w ip with
              | inr e => Ok (inr ("get interface by IP error:" +:+ e), s)
              | inl iface =>
                  let mac := match ReadSys w (MacPath iface) with
                             | inl m => TrimSpace m
                             | inr _ => DefaultMacAddr
                             end in
                  let speed := match ParseUint (nic_speed w iface) 10 64 with inl v => v | inr _ => 0 end in
                  let speed := if Speed (nv_option s) =? 0 then speed else Speed (nv_option s) in
                  let queues := match MaxCombined w iface with inl q => q | inr _ => 0 end in
                  Ok (inl (marshal_service_nic iface mac (of_Z speed) queues),
                      set_config (mkServiceConfig mac iface speed queues cni backend) s)
              end
          end
      end
  end.

(** ** Measurements *)

Definition word_at (l : list string) (i : nat) : outcome string :=
  match l !! i with Some x => Ok x | None => Crash OutOfRange end.
Definition dev_line (res : gmap string SR) (row : string) : outcome (gmap string SR) :=
  let line := str_fields (TrimSpace row) in
  let! w0 := word_at line 0 in
  if negb (str_contains w0 ":") then Ok res
  else
    let! rcv := word_at line 1 in
    let! snd := word_at line 9 in
    Ok (<[str_drop_last 1 w0 := mkSR (of_Z (Atoi_value snd)) (of_Z (Atoi_value rcv))]> res).
Definition getSndRcv (w : W) : outcome (gmap string SR + error) :=
  match ReadSys w "/proc/net/dev" with
  | inr e => Ok (inr e)
  | inl txt => let! res := foldM dev_line ∅ (read_lines txt) in Ok (inl res)
  end.

(** The links of a pod, found once. *)
Fixpoint find_veths (netns : string) (nicnames : list string) : GoM W (list Veth + error) :=
  match nicnames with
  | [] => retE []
  | podNic :: l =>
      let? hd := getHostInterface rounds podNic netns in
      let? r := find_veths netns l in
      retE (mkVeth (lk_Name hd) podNic (mkSR fzero fzero) :: r)
  end.
Definition app_veths (appid : string) (app : AppInfo) : GoM NetEngine (list Veth + error) := λ s,
  match podsVethCache s !! appid with
  | Some vs => Ok (inl vs, s)
  | None =>
      (let? vs := on_kernel (find_veths (NetNS app) (range (Devices app)).*1) in
       let* _ := modM (λ s, set_podsVethCache (<[appid := vs]> (podsVethCache s)) s) in
       retE vs) s
  end.
(** What a link has sent and received since the last round. *)
Definition veth_traffic (prev curr : gmap string SR) (v : Veth) : option Veth :=
  match prev !! HostVeth v, curr !! HostVeth v with
  | Some p, Some c =>
      Some (mkVeth (HostVeth v) (v_Veth v)
              (mkSR (fmax (fsub (sr_Send c) (sr_Send p)) fzero)
                 (fmax (fsub (sr_Receive c) (sr_Receive p)) fzero)))
  | _, _ => None
  end.
Fixpoint getCurBandwidth (prev curr : gmap string SR) (apps : list (string * AppInfo))
    (res : gmap string (list Veth)) : GoM NetEngine (gmap string (list Veth) + error) :=
  match apps with
  | [] => retE res
  | (appid, app) :: apps =>
      let? veths := app_veths appid app in
      let traffic := omap (veth_traffic prev curr) veths in
      getCurBandwidth prev curr apps
        (match traffic with [] => res | _ => <[appid := traffic]> res end)
  end.
(** What the host's link sends is what the pod receives. *)
Definition veth_infos (v : Veth) : list NetworkBandwidthInfo :=
  [mkNbi (v_Veth v) true (FormatFloat (sr_Send (Traffic v)));
   mkNbi (v_Veth v) false (FormatFloat (sr_Receive (Traffic v)))].
Definition createMsg (ioiType : Z) (data : gmap string (list Veth)) : option AppsBandwidth :=
  let BWs := flat_map veth_infos <$> data in
  if ioiType =? 2 then Some (mkAppsBw ioiType BWs) else None.
(** One round of Subscribe: an error ends the stream. *)
Definition subscribe_round (snd : option AppsBandwidth → option error) (ioiType : Z)
    : GoM NetEngine (option (option AppsBandwidth) + error) := λ s,
  if (size (nv_Apps s) =? 0)%nat || negb (EnableSubscribe (nv_option s)) then Ok (inl None, s)
  else
    let! curr := getSndRcv (kernel s) in
    match curr with
    | inr e => Ok (inr e, s)
    | inl curr =>
        (let? data := getCurBandwidth (prevMonitor s) curr (range (nv_Apps s)) ∅ in
         let* _ := modM (set_prevMonitor curr) in
         let msg := createMsg ioiType data in
         match snd msg with
         | Some e => failE e
         | None => retE (Some msg)
         end) s
    end.
End NetService.
Arguments NetEngine W D : clear implicits.
