(* ===== verification/CsiDriver.v ===== *)
(** * pkg/agent/csi: the CSI driver of a node

    state/strings.go and state/state.go (the volumes, mirrored in a file),
    hostpath/ (the identity, controller and node services with their health
    checks) and endpoint/.  A call holds the driver's mutex from its first use
    of the state to its end, so that calls are atomic; only the config map
    that CreateVolume reads first is read before.  A volume is a value: the
    slices of a copy share their array with the stored volume, which is
    overwritten by the copy at once. *)

From stdpp Require Export pretty.
From S2P Require Export Text.

(** ** Errors *)

(** The gRPC codes that the driver uses. *)
Inductive code :=
  InvalidArgument | NotFoundCode | AlreadyExists | FailedPrecondition | OutOfRangeCode | Internal
| Unimplemented | Aborted | Unavailable.
Definition code_name (c : code) : string :=
  match c with
  | InvalidArgument => "InvalidArgument" | NotFoundCode => "NotFound" | AlreadyExists => "AlreadyExists"
  | FailedPrecondition => "FailedPrecondition" | OutOfRangeCode => "OutOfRange" | Internal => "Internal"
  | Unimplemented => "Unimplemented" | Aborted => "Aborted" | Unavailable => "Unavailable"
  end.
(** An error with a status, and one of errors.New or fmt.Errorf. *)
Inductive csi_error := Status (c : code) (desc : string) | Plain (msg : string).
Definition Error (e : csi_error) : string :=
  match e with
  | Status c desc => "rpc error: code = " +:+ code_name c +:+ " desc = " +:+ desc
  | Plain msg => msg
  end.
(** Errors of the operating system: os.IsNotExist and os.IsExist tell the
    first two kinds. *)
Inductive oserr := NotExist (msg : string) | Exist (msg : string) | OsErr (msg : string).
Definition os_msg (e : oserr) : string := match e with NotExist m | Exist m | OsErr m => m end.
Definition IsNotExist (e : oserr) : bool := match e with NotExist _ => true | _ => false end.
Definition IsExist (e : oserr) : bool := match e with Exist _ => true | _ => false end.

(** fmt: [%v] of a list of strings and of a bool, [%q] of ASCII text. *)
Definition fmt_list (l : list string) : string := "[" +:+ str_join " " l +:+ "]".
Definition fmt_bool (b : bool) : string := if b then "true" else "false".
Definition dquote : string := String (ascii_of_nat 34) EmptyString.
Definition quote_char (a : ascii) : string :=
  match nat_of_ascii a with
  | 34%nat => "\" +:+ dquote | 92%nat => "\\"
  | 7%nat => "\a" | 8%nat => "\b" | 9%nat => "\t" | 10%nat => "\n" | 11%nat => "\v"
  | 12%nat => "\f" | 13%nat => "\r"
  | n => if (n <? 32)%nat || (n =? 127)%nat
         then "\x" +:+ String (digit_char (Z.of_nat n / 16)) (String (digit_char (Z.of_nat n mod 16)) EmptyString)
         else String a EmptyString
  end.
Fixpoint quote_body (s : string) : string :=
  match s with EmptyString => EmptyString | String a s => quote_char a +:+ quote_body s end.
Definition Quote (s : string) : string := dquote +:+ quote_body s +:+ dquote.

(** ** state/strings.go *)

Definition Strings : Type := list string.
Definition Add (str : string) (s : Strings) : Strings := s ++ [str].
Fixpoint Has (str : string) (s : Strings) : bool :=
  match s with [] => false | str2 :: s => String.eqb str str2 || Has str s end.
Definition Empty (s : Strings) : bool := match s with [] => true | _ => false end.
Fixpoint Remove (str : string) (s : Strings) : Strings :=
  match s with [] => [] | str2 :: s => if String.eqb str str2 then s else str2 :: Remove str s end.

(** ** state/state.go *)

Inductive AccessType := MountAccess | BlockAccess.
#[global] Instance AccessType_eq_dec : EqDecision AccessType.
Proof. solve_decision. Defined.

Record StateVolume := mkStateVolume {
  VolName : string; VolID : string; VolSize : Z; VolPath : string; VolAccessType : AccessType;
  ParentVolID : string; ParentSnapID : string; sv_NodeID : string; Kind : string;
  ReadOnlyAttach : bool; Attached : bool; Staged : Strings; Published : Strings; sv_DeviceID : string
}.
Record Snapshot := mkSnapshot {
  sn_Name : string; sn_Id : string; sn_VolID : string; sn_Path : string;
  sn_CreationTime : option (Z * Z); sn_SizeBytes : Z; sn_ReadyToUse : bool
}.
Record resources := mkResources { Volumes : list StateVolume; Snapshots : list Snapshot }.

Definition set_Staged (l : Strings) (v : StateVolume) : StateVolume :=
  mkStateVolume (VolName v) (VolID v) (VolSize v) (VolPath v) (VolAccessType v) (ParentVolID v)
    (ParentSnapID v) (sv_NodeID v) (Kind v) (ReadOnlyAttach v) (Attached v) l (Published v) (sv_DeviceID v).
Definition set_Published (node : string) (l : Strings) (v : StateVolume) : StateVolume :=
  mkStateVolume (VolName v) (VolID v) (VolSize v) (VolPath v) (VolAccessType v) (ParentVolID v)
    (ParentSnapID v) node (Kind v) (ReadOnlyAttach v) (Attached v) (Staged v) l (sv_DeviceID v).

(** The first element with a property is replaced or removed; [None] when
    there is none. *)
Fixpoint replace_first {A} (p : A → bool) (a : A) (l : list A) : option (list A) :=
  match l with
  | [] => None
  | x :: l => if p x then Some (a :: l) else option_map (cons x) (replace_first p a l)
  end.
Fixpoint remove_first {A} (p : A → bool) (l : list A) : option (list A) :=
  match l with
  | [] => None
  | x :: l => if p x then Some l else option_map (cons x) (remove_first p l)
  end.
Definition has_id (id : string) (v : StateVolume) : bool := String.eqb (VolID v) id.
Definition snap_has_id (id : string) (s : Snapshot) : bool := String.eqb (sn_Id s) id.

Definition GetVolumeByID (r : resources) (volID : string) : StateVolume + csi_error :=
  match List.find (has_id volID) (Volumes r) with
  | Some v => inl v
  | None => inr (Status NotFoundCode ("volume id " +:+ volID +:+ " does not exist in the volumes list"))
  end.
Definition GetVolumeByName (r : resources) (volName : string) : StateVolume + csi_error :=
  match List.find (λ v, String.eqb (VolName v) volName) (Volumes r) with
  | Some v => inl v
  | None => inr (Status NotFoundCode ("volume name " +:+ volName +:+ " does not exist in the volumes list"))
  end.
Definition GetSnapshotByID (r : resources) (snapshotID : string) : Snapshot + csi_error :=
  match List.find (snap_has_id snapshotID) (Snapshots r) with
  | Some s => inl s
  | None => inr (Status NotFoundCode ("snapshot id " +:+ snapshotID +:+ " does not exist in the snapshots list"))
  end.
Definition GetSnapshotByName (r : resources) (name : string) : Snapshot + csi_error :=
  match List.find (λ s, String.eqb (sn_Name s) name) (Snapshots r) with
  | Some s => inl s
  | None => inr (Status NotFoundCode ("snapshot name " +:+ name +:+ " does not exist in the snapshots list"))
  end.

(** A node of the tree that findmnt prints. *)
Inductive MountPointInfo := mkMountPoint (Target Source FsType Options : string) (Children : list MountPointInfo).
Definition mp_Target (m : MountPointInfo) : string := match m with mkMountPoint t _ _ _ _ => t end.
Definition mp_Source (m : MountPointInfo) : string := match m with mkMountPoint _ s _ _ _ => s end.
Definition mp_Children (m : MountPointInfo) : list MountPointInfo := match m with mkMountPoint _ _ _ _ c => c end.

(** encoding/json on the state, on lists of strings and on the output of
    findmnt: the children of each file system. *)
Class CsiJson := {
  marshal_resources : resources → string + error;
  unmarshal_resources : string → resources + error;
  marshal_strings : list string → string + error;
  unmarshal_strings : string → list string + error;
  unmarshal_findmnt : string → list (list MountPointInfo) + error
}.
(** pkg/utils.go *)
Definition StringsToJson `{!CsiJson} (s : list string) : string + error :=
  match marshal_strings s with inr err => inr err | inl jsonBytes => inl jsonBytes end.
Definition JsonToStrings `{!CsiJson} (jsonStr : string) : list string + error :=
  match unmarshal_strings jsonStr with inr err => inr err | inl s => inl s end.
(** The operating system: files and directories, loop devices, mounts, the
    usage of a file system (available, capacity, used, inodes, free and used
    inodes), and the output of a program. *)
Class CsiHost (F : Type) := {
  os_ReadFile : F → string → string + oserr;
  os_WriteFile : F → string → string → F * option oserr;
  os_MkdirAll : F → string → F * option oserr;
  os_Mkdir : F → string → F * option oserr;
  os_OpenCreate : F → string → F * option oserr;
  os_Remove : F → string → F * option oserr;
  os_RemoveAll : F → string → F * option oserr;
  os_Stat : F → string → option oserr;
  os_Lstat : F → string → option oserr;
  fallocate : F → string → string → F * option (string * string);
  AttachFileDevice : F → string → F * (string + error);
  DetachFileDevice : F → string → F * option error;
  GetLoopDevice : F → string → string + error;
  IsNotMountPoint : F → string → bool + oserr;
  Mount : F → string → string → list string → F * option error;
  Unmount : F → string → F * option error;
  fs_Info : F → string → (Z * Z * Z * Z * Z * Z) + error;
  LookPath : F → string → string + error;
  CombinedOutput : F → string → list string → string + error;
  net_Listen : F → string → string → F * option error
}.

Record Config := mkConfig {
  DriverName : string; Endpoint : string; ProxyEndpoint : string; NodeID : string;
  VendorVersion : string; StateDir : string; MaxVolumesPerNode : Z; MaxVolumeSize : Z; AttachLimit : Z;
  Ephemeral : bool; ShowVersion : bool; EnableAttach : bool; EnableTopology : bool; KubeConfig : string;
  Master : string; CheckVolumeLifecycle : bool
}.
(** The driver, with the world it runs in: the files of the node and the API
    server. *)
Record hostPath (F K : Type) := mkHostPath {
  config : Config; state : resources; hp_fs : F; hp_kube : K
}.
Arguments mkHostPath {F K} _ _ _ _.
Arguments config {F K} _.
Arguments state {F K} _.
Arguments hp_fs {F K} _.
Arguments hp_kube {F K} _.

(** ** Requests and responses *)

(** The access type of a capability is one of two, or missing; an access mode
    may be missing. *)
Inductive cap_access := CapBlock | CapMount (FsType : string) (MountFlags : list string) | CapNone.
Inductive access_mode :=
  AM_UNKNOWN | SINGLE_NODE_WRITER | SINGLE_NODE_READER_ONLY | MULTI_NODE_READER_ONLY
| MULTI_NODE_SINGLE_WRITER | MULTI_NODE_MULTI_WRITER | SINGLE_NODE_SINGLE_WRITER | SINGLE_NODE_MULTI_WRITER.
Record VolumeCapability := mkCap { GetAccess : cap_access; GetAccessMode : option access_mode }.
Definition is_block (c : VolumeCapability) : bool := match GetAccess c with CapBlock => true | _ => false end.
Definition is_mount (c : VolumeCapability) : bool := match GetAccess c with CapMount _ _ => true | _ => false end.
Inductive ContentSource := SourceSnapshot (id : string) | SourceVolume (id : string) | SourceNone.

Record CreateVolumeRequest := mkCreate {
  cr_Name : string; cr_Capabilities : option (list VolumeCapability);
  (** GetCapacityRange().GetRequiredBytes(), 0 when there is no range *)
  RequiredBytes : Z;
  Parameters : gmap string string; cr_ContentSource : option ContentSource
}.
Record CreateVolumeResponse := mkCreated {
  VolumeId : string; CapacityBytes : Z; VolumeContext : gmap string string;
  AccessContentSource : option ContentSource; AccessibleTopology : list (gmap string string)
}.
Record ValidateRequest := mkValidate {
  va_VolumeId : string; va_Capabilities : list VolumeCapability;
  va_Context : gmap string string; va_Parameters : gmap string string
}.
Record VolumeEntry := mkEntry {
  en_VolumeId : string; en_CapacityBytes : Z; en_NodeIds : list string; en_Abnormal : bool; en_Message : string
}.
Record ListVolumesRequest := mkList { StartingToken : string; MaxEntries : Z }.
Record NodePublishRequest := mkPublish {
  pu_VolumeId : string; pu_TargetPath : string; pu_StagingTargetPath : string;
  pu_Capability : option VolumeCapability; pu_Readonly : bool; pu_VolumeContext : gmap string string
}.
Record NodeStageRequest := mkStage {
  sg_VolumeId : string; sg_StagingTargetPath : string; sg_Capability : option VolumeCapability
}.
Record VolumeUsage := mkUsage { us_Available : Z; us_Used : Z; us_Total : Z; us_Inodes : bool }.

Definition deviceID : string := "deviceID".
Definition storageKind : string := "kind".
Definition PVCName : string := "csi.storage.k8s.io/pvc/name".
Definition PVCNameSpace : string := "csi.storage.k8s.io/pvc/namespace".
Definition TopologyKeyNode : string := "topology.hostpath.csi/node".
Definition AnnoDeviceID : string := "ioi.intel.com/selected-device-id".
Definition AnnoVolPath : string := "ioi.intel.com/selected-vol-path".
Definition failedPreconditionAccessModeConflict : string :=
  "volume uses SINGLE_NODE_SINGLE_WRITER access mode and is already mounted at a different target path".
Definition podVolumeTargetPath : string := "/var/lib/kubelet/pods".
Definition mb : Z := 1000 * 1000.

Section Driver.
Context `{!CsiJson} {F : Type} `{!CsiHost F} `{QuantityLib} {K : Type} `{!KubeClient K}.
Abbreviation HP := (hostPath F K).
Abbreviation call A := (GoM HP (A + csi_error)).

Definition set_state (r : resources) (hp : HP) : HP := mkHostPath (config hp) r (hp_fs hp) (hp_kube hp).
Definition set_fs (f : F) (hp : HP) : HP := mkHostPath (config hp) (state hp) f (hp_kube hp).
Definition set_hp_kube (k : K) (hp : HP) : HP := mkHostPath (config hp) (state hp) (hp_fs hp) k.

(** A call of the operating system, and the error of the driver for its
    error. *)
Definition onF {E} (op : F → F * option E) (wrap : E → csi_error) : call () := λ hp,
  let '(f, err) := op (hp_fs hp) in
  Ok (match err with None => inl () | Some e => inr (wrap e) end, set_fs f hp).

(** ** The state file *)

Definition statefilePath (cfg : Config) : string := path_join [StateDir cfg; "state.json"].
Definition dump : call () := λ hp,
  match marshal_resources (state hp) with
  | inr err => Ok (inr (Status Internal ("error encoding volumes and snapshots: " +:+ err)), hp)
  | inl data =>
      onF (λ f, os_WriteFile f (statefilePath (config hp)) data)
        (λ e, Status Internal ("error writing state file: " +:+ os_msg e)) hp
  end.
Definition restore (f : F) (statefile : string) : resources + csi_error :=
  match os_ReadFile f statefile with
  | inr e =>
      if IsNotExist e then inl (mkResources [] [])
      else inr (Status Internal ("error reading state file: " +:+ os_msg e))
  | inl data =>
      match unmarshal_resources data with
      | inr err => inr (Status Internal ("error encoding volumes and snapshots from state file " +:+
                                         Quote statefile +:+ ": " +:+ err))
      | inl r => inl r
      end
  end.

Definition UpdateVolume (update : StateVolume) : call () :=
  let* r := getM state in
  let vs := match replace_first (has_id (VolID update)) update (Volumes r) with
            | Some vs => vs
            | None => Volumes r ++ [update]
            end in
  let* _ := modM (set_state (mkResources vs (Snapshots r))) in
  dump.
Definition state_DeleteVolume (volID : string) : call () :=
  let* r := getM state in
  match remove_first (has_id volID) (Volumes r) with
  | Some vs => let* _ := modM (set_state (mkResources vs (Snapshots r))) in dump
  | None => retE ()
  end.
Definition UpdateSnapshot (update : Snapshot) : call () :=
  let* r := getM state in
  let ss := match replace_first (snap_has_id (sn_Id update)) update (Snapshots r) with
            | Some ss => ss
            | None => Snapshots r ++ [update]
            end in
  let* _ := modM (set_state (mkResources (Volumes r) ss)) in
  dump.
Definition state_DeleteSnapshot (snapshotID : string) : call () :=
  let* r := getM state in
  match remove_first (snap_has_id snapshotID) (Snapshots r) with
  | Some ss => let* _ := modM (set_state (mkResources (Volumes r) ss)) in dump
  | None => retE ()
  end.
Definition volume_by_id (volID : string) : call StateVolume := askE (λ hp, GetVolumeByID (state hp) volID).

(** ** hostpath.go *)

(** [client] tells whether there is a client of the API server. *)
Definition NewHostPathDriver (cfg : Config) (client : bool) (f : F) (k : K) : F * (HP + csi_error) :=
  if String.eqb (DriverName cfg) "" then (f, inr (Plain "no driver name provided"))
  else if String.eqb (NodeID cfg) "" then (f, inr (Plain "no node id provided"))
  else if String.eqb (Endpoint cfg) "" then (f, inr (Plain "no driver endpoint provided"))
  else if negb client then (f, inr (Plain "k8s client is nil"))
  else
    let '(f, err) := os_MkdirAll f (StateDir cfg) in
    match err with
    | Some e => (f, inr (Plain ("failed to create dataRoot: " +:+ os_msg e)))
    | None =>
        match restore f (statefilePath cfg) with
        | inr e => (f, inr e)
        | inl r => (f, inl (mkHostPath cfg r f k))
        end
    end.

Definition getVolumePath (hp : HP) (volID : string) : string + csi_error :=
  match GetVolumeByID (state hp) volID with inl v => inl (VolPath v) | inr e => inr e end.

(** The file of a block volume, unless there is one, and its loop device. *)
Definition create_block_file (cap : Z) (path : string) : call () := λ hp,
  match os_Stat (hp_fs hp) path with
  | None => Ok (inl (), hp)
  | Some e =>
      if IsNotExist e then
        onF (λ f, fallocate f (pretty (Z.quot cap mb) +:+ "M") path)
          (λ eo, Plain ("failed to create block device: " +:+ eo.1 +:+ ", " +:+ eo.2)) hp
      else Ok (inr (Plain ("failed to stat block device: " +:+ path +:+ ", " +:+ os_msg e)), hp)
  end.
Definition attach_block_file (path : string) : call () := λ hp,
  let '(f, r) := AttachFileDevice (hp_fs hp) path in
  match r with
  | inl _ => Ok (inl (), set_fs f hp)
  | inr err =>
      let '(f, _) := os_Remove f path in
      Ok (inr (Plain ("failed to attach device " +:+ path +:+ ": " +:+ err)), set_fs f hp)
  end.
Definition createVolume (volID deviceID path name : string) (cap : Z) (volAccessType : AccessType)
    (kind : string) : call StateVolume :=
  let* cfg := getM config in
  if MaxVolumeSize cfg <? cap then
    failE (Status OutOfRangeCode ("Requested capacity " +:+ pretty cap +:+ " exceeds maximum allowed " +:+
                                  pretty (MaxVolumeSize cfg)))
  else
    let? _ := (match volAccessType with
               | MountAccess => onF (λ f, os_MkdirAll f path) (λ e, Plain (os_msg e))
               | BlockAccess => let? _ := create_block_file cap path in attach_block_file path
               end) in
    let volume := mkStateVolume name volID cap path volAccessType "" "" "" kind false false [] [] deviceID in
    let? _ := UpdateVolume volume in
    retE volume.

Definition deleteVolume (volID : string) : call () :=
  let* r := getM (λ hp, GetVolumeByID (state hp) volID) in
  match r with
  | inr _ => retE ()
  | inl vol =>
      if String.eqb (sv_DeviceID vol) "" then failE (Plain ("empty device ID: " +:+ deviceID))
      else
        let path := VolPath vol in
        let? _ := (match VolAccessType vol with
                   | BlockAccess => onF (λ f, DetachFileDevice f path)
                       (λ e, Plain ("failed to remove loop device for file " +:+ path +:+ ": " +:+ e))
                   | MountAccess => retE ()
                   end) in
        let? _ := (λ hp, let '(f, err) := os_RemoveAll (hp_fs hp) path in
                         Ok (match err with
                             | Some e => if IsNotExist e then inl () else inr (Plain (os_msg e))
                             | None => inl ()
                             end, set_fs f hp)) in
        state_DeleteVolume volID
  end.

(** ** controllerserver.go *)

Definition device_map_name (hp : HP) : string := DeviceIDConfigMap +:+ "-" +:+ NodeID (config hp).
Definition write_map (w : K → K * option kerr) : GoM HP (option error) := λ hp,
  let '(k, err) := w (hp_kube hp) in Ok (option_map kerr_msg err, set_hp_kube k hp).
Definition UpdateVolumeDeviceMap (cm : ConfigMap) (needCreate : bool) (inUse : string)
    : GoM HP (option error) :=
  if needCreate then
    let* name := getM device_map_name in
    write_map (λ k, cm_create k (mkConfigMap IoiNamespace name {["app" := DeviceIDConfigMap]}
                                   {[DeviceInUse := inUse]}))
  else
    write_map (λ k, cm_update k (mkConfigMap (cm_Namespace cm) (cm_Name cm) (cm_Labels cm)
                                   (<[DeviceInUse := inUse]> (cm_Data cm)))).

(** Whether the list has to be written, and its text. *)
Definition CalDeviceInUse (curDeviceInUse deviceId : string) (inUse : bool) (volumes : list StateVolume)
    : bool * string * option error :=
  let devInUse := match JsonToStrings curDeviceInUse with inl l => l | inr _ => [] end in
  let written l := match StringsToJson l with
                   | inl s => (true, s, None)
                   | inr err => (false, EmptyString, Some ("failed to convert device in use to json: " +:+ err))
                   end in
  if inUse then
    if Has deviceId devInUse then (false, curDeviceInUse, None) else written (devInUse ++ [deviceId])
  else
    if existsb (λ v, String.eqb (sv_DeviceID v) deviceId) volumes then (false, curDeviceInUse, None)
    else written (Remove deviceId devInUse).

(** client-go returns an empty object with an error. *)
Definition UpdateDeviceInUse (deviceId : string) (inUse : bool) : GoM HP (option error) := λ hp,
  let got := match cm_get (hp_kube hp) IoiNamespace (device_map_name hp) with
             | inl cm => inl (cm, false)
             | inr e => if IsNotFound e then inl (mkConfigMap "" "" ∅ ∅, true)
                        else inr ("failed to get ConfigMap: " +:+ DeviceIDConfigMap +:+ " due to " +:+ kerr_msg e)
             end in
  match got with
  | inr e => Ok (Some e, hp)
  | inl (cm, needCreate) =>
      let cur := default "[]" (cm_Data cm !! DeviceInUse) in
      match CalDeviceInUse cur deviceId inUse (Volumes (state hp)) with
      | (_, _, Some err) => Ok (Some err, hp)
      | (true, new, None) => UpdateVolumeDeviceMap cm needCreate new hp
      | (false, _, None) => Ok (None, hp)
      end
  end.

Inductive rpc_type :=
  RPC_UNKNOWN | RPC_CREATE_DELETE_VOLUME | RPC_LIST_VOLUMES | RPC_VOLUME_CONDITION
| RPC_SINGLE_NODE_MULTI_WRITER | RPC_STAGE_UNSTAGE_VOLUME | RPC_GET_VOLUME_STATS.
#[global] Instance rpc_type_eq_dec : EqDecision rpc_type.
Proof. solve_decision. Defined.
Definition rpc_name (c : rpc_type) : string :=
  match c with
  | RPC_UNKNOWN => "UNKNOWN" | RPC_CREATE_DELETE_VOLUME => "CREATE_DELETE_VOLUME"
  | RPC_LIST_VOLUMES => "LIST_VOLUMES" | RPC_VOLUME_CONDITION => "VOLUME_CONDITION"
  | RPC_SINGLE_NODE_MULTI_WRITER => "SINGLE_NODE_MULTI_WRITER"
  | RPC_STAGE_UNSTAGE_VOLUME => "STAGE_UNSTAGE_VOLUME" | RPC_GET_VOLUME_STATS => "GET_VOLUME_STATS"
  end.
Definition getControllerServiceCapabilities (cfg : Config) : list rpc_type :=
  if Ephemeral cfg then []
  else [RPC_CREATE_DELETE_VOLUME; RPC_LIST_VOLUMES; RPC_VOLUME_CONDITION; RPC_SINGLE_NODE_MULTI_WRITER].
Definition validateControllerServiceRequest (c : rpc_type) : call () :=
  let* cfg := getM config in
  if decide (c = RPC_UNKNOWN) then retE ()
  else if decide (c ∈ getControllerServiceCapabilities cfg) then retE ()
  else failE (Status InvalidArgument ("unsupported capability " +:+ rpc_name c)).

(** The device and the mount path that the scheduler wrote for a claim. *)
Definition claim_device (cm : ConfigMap) (pvcName pvcNameSpace : string) : string * string :=
  match cm_Data cm !! pvc_key pvcName pvcNameSpace with
  | Some v => match str_split ":"%char v with [d; p] => (d, p) | _ => (EmptyString, EmptyString) end
  | None => (EmptyString, EmptyString)
  end.
Definition topology (cfg : Config) : gmap string string := {[TopologyKeyNode := NodeID cfg]}.

(** [id] is what uuid.NewUUID returns.  The claim's device is looked up before
    the name is. *)
Definition CreateVolume (id : string + error) (req : CreateVolumeRequest) : call CreateVolumeResponse :=
  let? _ := validateControllerServiceRequest RPC_CREATE_DELETE_VOLUME in
  match cr_Capabilities req with
  | None => failE (Status InvalidArgument "Volume Capabilities are missing in the request")
  | Some caps =>
  if String.eqb (cr_Name req) "" then failE (Status InvalidArgument "Name is missing in the request")
  else
  let atBlock := existsb is_block caps in
  if atBlock && existsb is_mount caps
  then failE (Status InvalidArgument "cannot have both block and mount access type")
  else
  let pvcName := default EmptyString (Parameters req !! PVCName) in
  let pvcNameSpace := default EmptyString (Parameters req !! PVCNameSpace) in
  let claim := pvcName +:+ "." +:+ pvcNameSpace in
  if String.eqb pvcName "" || String.eqb pvcNameSpace ""
  then failE (Status InvalidArgument ("pvcName(" +:+ pvcNameSpace +:+ ") or pvcNamespace(" +:+ pvcName +:+
                                      ") can not be empty"))
  else
  let? cm := askE (λ hp, match cm_get (hp_kube hp) IoiNamespace (device_map_name hp) with
                         | inl cm => inl cm
                         | inr e => inr (Status Internal ("fail to get ConfigMap: " +:+ DeviceIDConfigMap +:+
                                                          " due to " +:+ kerr_msg e))
                         end) in
  let '(deviceId, path) := claim_device cm pvcName pvcNameSpace in
  if String.eqb deviceId ""
  then failE (Status InvalidArgument ("no mapping device id found for pvc " +:+ claim +:+
                                      ". Skip and wait for update."))
  else if String.eqb path ""
  then failE (Status InvalidArgument ("no mount path found for pvc " +:+ claim +:+
                                      ". Skip and wait for update."))
  else
  let requestedAccessType := if atBlock then BlockAccess else MountAccess in
  let* cfg := getM config in
  let topologies := if EnableTopology cfg then [topology cfg] else [] in
  let* named := getM (λ hp, GetVolumeByName (state hp) (cr_Name req)) in
  match named with
  | inl _ => failE (Status AlreadyExists ("Volume with the same name: " +:+ cr_Name req +:+ " already exist"))
  | inr _ =>
  match id with
  | inr _ => failE (Status Internal "failed to created new uuid")
  | inl volumeID =>
      let path := path_join [path; volumeID] in
      let kind := default EmptyString (Parameters req !! storageKind) in
      let parameters := <[AnnoVolPath := path]> (<[AnnoDeviceID := deviceId]> (Parameters req)) in
      let? _ := createVolume volumeID deviceId path (cr_Name req) (RequiredBytes req) requestedAccessType kind in
      let* _ := UpdateDeviceInUse deviceId true in
      retE (mkCreated volumeID (RequiredBytes req) parameters (cr_ContentSource req) topologies)
  end
  end
  end.

Definition in_use_message (vol : StateVolume) : string :=
  "Volume '" +:+ VolID vol +:+ "' is still used (attached: " +:+ fmt_bool (Attached vol) +:+ ", staged: " +:+
  fmt_list (Staged vol) +:+ ", published: " +:+ fmt_list (Published vol) +:+ ") by '" +:+ sv_NodeID vol +:+ "' node".
Definition DeleteVolume (volId : string) : call () :=
  if String.eqb volId "" then failE (Status InvalidArgument "Volume ID missing in request")
  else
  let? _ := validateControllerServiceRequest RPC_CREATE_DELETE_VOLUME in
  let* found := getM (λ hp, GetVolumeByID (state hp) volId) in
  match found with
  | inr _ => retE ()
  | inl vol =>
      let* cfg := getM config in
      if (Attached vol || negb (Empty (Published vol)) || negb (Empty (Staged vol))) && CheckVolumeLifecycle cfg
      then failE (Status Internal (in_use_message vol))
      else
        let* deleted := deleteVolume volId in
        match deleted with
        | inr err => failE (Plain ("failed to delete volume " +:+ volId +:+ ": " +:+ Error err))
        | inl _ => let* _ := UpdateDeviceInUse (sv_DeviceID vol) false in retE ()
        end
  end.

(** ** healthcheck.go *)

Definition checkPathExist (hp : HP) (path : string) : bool + csi_error :=
  match os_Stat (hp_fs hp) path with
  | None => inl true
  | Some e => if IsNotExist e then inl false else inr (Plain (os_msg e))
  end.
Definition parseMountInfo (out : string) : list MountPointInfo + csi_error :=
  match unmarshal_findmnt out with
  | inr e => inr (Plain e)
  | inl [] => inr (Plain "failed to get mount info")
  | inl (children :: _) => inl children
  end.
(** The mounts under the directory of the pods; the first one whose source
    contains the path decides. *)
Definition mount_of (mountInfos : list MountPointInfo) (volumePath : string) : option MountPointInfo :=
  let pods := match List.find (λ m, String.eqb (mp_Target m) podVolumeTargetPath) mountInfos with
              | Some m => mp_Children m
              | None => []
              end in
  List.find (λ m, str_contains (mp_Source m) volumePath) pods.
Definition checkMountPointExist (hp : HP) (volumePath : string) : bool + csi_error :=
  match LookPath (hp_fs hp) "findmnt" with
  | inr e => inr (Plain ("findmnt not found: " +:+ e))
  | inl cmdPath =>
      match CombinedOutput (hp_fs hp) cmdPath ["--json"] with
      | inr e => inr (Plain e)
      | inl out =>
          if String.eqb out "" then inr (Plain "mount point info is nil")
          else
            match parseMountInfo out with
            | inr e => inr (Plain ("failed to parse the mount infos: " +:+ Error e))
            | inl mountInfos =>
                match mount_of mountInfos volumePath with
                | None => inl false
                | Some m =>
                    match os_Stat (hp_fs hp) (mp_Target m) with
                    | None => inl true
                    | Some e => if IsNotExist e then inl false else inr (Plain (os_msg e))
                    end
                end
            end
      end
  end.
Definition checkPVCapacityValid (hp : HP) (volID : string) : bool + csi_error :=
  match getVolumePath hp volID with
  | inr e => inr e
  | inl volumePath =>
      match fs_Info (hp_fs hp) volumePath with
      | inr e => inr (Plain ("failed to get capacity info: " +:+ e))
      | inl (_, fscapacity, _, _, _, _) =>
          match GetVolumeByID (state hp) volID with
          | inr e => inr e
          | inl volume => inl (VolSize volume <=? fscapacity)
          end
      end
  end.
Definition checkPVUsage (hp : HP) (volID : string) : bool + csi_error :=
  match getVolumePath hp volID with
  | inr e => inr e
  | inl volumePath =>
      match fs_Info (hp_fs hp) volumePath with
      | inr e => inr (Plain e)
      | inl (fsavailable, _, _, _, _, _) => inl (0 <? fsavailable)
      end
  end.
(** The result of a check that has to hold, then of the next one. *)
Definition check (c : bool + csi_error) (msg : string) (next : bool * string) : bool * string :=
  match c with
  | inr e => (false, Error e)
  | inl false => (false, msg)
  | inl true => next
  end.
Definition doHealthCheckInControllerSide (hp : HP) (volID : string) : bool * string :=
  match getVolumePath hp volID with
  | inr _ => (false, "cannot get volume path")
  | inl volumePath =>
      check (checkPathExist hp volumePath) "The source path of the volume doesn't exist"
        (check (checkPVCapacityValid hp volID) "The capacity of volume is greater than actual storage"
           (check (checkPVUsage hp volID) "The free space of the volume is insufficient" (true, EmptyString)))
  end.
Definition doHealthCheckInNodeSide (hp : HP) (volID : string) : bool * string :=
  match getVolumePath hp volID with
  | inr _ => (false, "cannot get volume path")
  | inl volumePath => check (checkMountPointExist hp volumePath) "The volume isn't mounted" (true, EmptyString)
  end.

(** ** controllerserver.go: requests that only read *)

Definition ValidateVolumeCapabilities (req : ValidateRequest) : call ValidateRequest :=
  if String.eqb (va_VolumeId req) "" then failE (Status InvalidArgument "Volume ID cannot be empty")
  else if (length (va_Capabilities req) =? 0)%nat then failE (Status InvalidArgument (va_VolumeId req))
  else
  let? _ := volume_by_id (va_VolumeId req) in
  if existsb (λ c, negb (is_mount c) && negb (is_block c)) (va_Capabilities req)
  then failE (Status InvalidArgument "cannot have both mount and block access type be undefined")
  else retE req.

Definition volume_entry (hp : HP) (v : StateVolume) : VolumeEntry :=
  let '(healthy, msg) := doHealthCheckInControllerSide hp (VolID v) in
  mkEntry (VolID v) (VolSize v) [sv_NodeID v] (negb healthy) msg.
(** The loop runs over indices; one below zero is out of range. *)
Definition ListVolumes `{!GoSort} (req : ListVolumesRequest) : call (list VolumeEntry) := λ hp,
  let volumes := go_sort (λ a b, String.ltb (VolID a) (VolID b)) (Volumes (state hp)) in
  let token := if String.eqb (StartingToken req) "" then "1" else StartingToken req in
  match ParseInt token 32 with
  | inr _ => Ok (inr (Status Aborted "The type of startingToken should be integer"), hp)
  | inl startIdx =>
      let volumesLength := Z.of_nat (length volumes) in
      let maxLength := if (volumesLength <? MaxEntries req) || (MaxEntries req <=? 0)
                       then volumesLength else MaxEntries req in
      let! entries := foldM (λ es index,
        if index <? 0 then Crash OutOfRange
        else match volumes !! Z.to_nat index with
             | Some v => Ok (es ++ [volume_entry hp v])
             | None => Crash OutOfRange
             end) [] (seqZ (startIdx - 1) (Z.min volumesLength maxLength - (startIdx - 1))) in
      Ok (inl entries, hp)
  end.
Definition ControllerGetVolume (volID : string) : call VolumeEntry := λ hp,
  Ok (inl (match GetVolumeByID (state hp) volID with
           | inr err => mkEntry volID 0 [] true (Error err)
           | inl v =>
               let '(healthy, msg) := doHealthCheckInControllerSide hp volID in
               mkEntry (VolID v) (VolSize v) [sv_NodeID v] (negb healthy) msg
           end), hp).
Definition ControllerGetCapabilities : call (list rpc_type) :=
  let* cfg := getM config in retE (getControllerServiceCapabilities cfg).
(** ControllerPublishVolume, ControllerUnpublishVolume, GetCapacity,
    CreateSnapshot, DeleteSnapshot, ListSnapshots, ControllerExpandVolume *)
Definition unimplemented : call () := failE (Status Unimplemented EmptyString).

(** ** identityserver.go *)

Definition GetPluginInfo : call (string * string) :=
  let* cfg := getM config in
  if String.eqb (DriverName cfg) "" then failE (Status Unavailable "Driver name not configured")
  else if String.eqb (VendorVersion cfg) "" then failE (Status Unavailable "Driver is missing version")
  else retE (DriverName cfg, VendorVersion cfg).
Definition GetPluginCapabilities : call (list string) :=
  let* cfg := getM config in
  retE ("CONTROLLER_SERVICE" :: if EnableTopology cfg then ["VOLUME_ACCESSIBILITY_CONSTRAINTS"] else []).

(** ** nodeserver.go *)

(** Closing the file that could not be opened is harmless. *)
Definition makeFile (pathname : string) (f : F) : F * option oserr :=
  let '(f, err) := os_OpenCreate f pathname in
  (f, match err with Some e => if IsExist e then None else Some e | None => None end).
Definition hasSingleNodeSingleWriterAccessMode (req : NodePublishRequest) : bool :=
  match pu_Capability req with
  | Some c => match GetAccessMode c with Some SINGLE_NODE_SINGLE_WRITER => true | _ => false end
  | None => false
  end.
Definition isMountedElsewhere (req : NodePublishRequest) (vol : StateVolume) : bool :=
  existsb (λ targetPath, negb (String.eqb targetPath (pu_TargetPath req))) (Published vol).

(** The target of a block volume is bound to its loop device; the result
    tells whether it was already mounted. *)
Definition publish_block (targetPath : string) (vol : StateVolume) : call bool :=
  if decide (VolAccessType vol ≠ BlockAccess)
  then failE (Status InvalidArgument "cannot publish a non-block volume as block volume")
  else
  let? loopDevice := askE (λ hp, match GetLoopDevice (hp_fs hp) (VolPath vol) with
                                 | inl d => inl d
                                 | inr e => inr (Plain ("failed to get the loop device: " +:+ e))
                                 end) in
  let* err := getM (λ hp, os_Lstat (hp_fs hp) targetPath) in
  let? _ := (match err with
             | None => retE ()
             | Some e =>
                 if IsNotExist e
                 then onF (makeFile targetPath) (λ e, Plain ("failed to create target path: " +:+ os_msg e))
                 else failE (Plain ("failed to check if the target block file exists: " +:+ os_msg e))
             end) in
  let? notMount := askE (λ hp, match IsNotMountPoint (hp_fs hp) targetPath with
                               | inl b => inl b
                               | inr e => if IsNotExist e then inl true
                                          else inr (Plain ("error checking path " +:+ targetPath +:+ " for mount: " +:+
                                                           os_msg e))
                               end) in
  if negb notMount then retE true
  else
    let? _ := onF (λ f, Mount f loopDevice targetPath ["bind"])
                (λ e, Plain ("failed to mount block device: " +:+ loopDevice +:+ " at " +:+ targetPath +:+ ": " +:+ e)) in
    retE false.
(** The target of a mount volume is bound to the path of the request's
    context. *)
Definition publish_mount (targetPath : string) (req : NodePublishRequest) (vol : StateVolume) : call bool :=
  if decide (VolAccessType vol ≠ MountAccess)
  then failE (Status InvalidArgument "cannot publish a non-mount volume as mount volume")
  else
  let* r := getM (λ hp, IsNotMountPoint (hp_fs hp) targetPath) in
  let? notMnt := (match r with
                  | inl b => retE b
                  | inr e =>
                      if IsNotExist e then
                        let? _ := onF (λ f, os_Mkdir f targetPath) (λ e, Plain ("create target path: " +:+ os_msg e)) in
                        retE true
                      else failE (Plain ("check target path: " +:+ os_msg e))
                  end) in
  if negb notMnt then retE true
  else
    match pu_VolumeContext req !! AnnoVolPath with
    | None => failE (Plain "cannot get mount path with device path: ")
    | Some path =>
        let options := "bind" :: if pu_Readonly req then ["ro"] else [] in
        let? _ := onF (λ f, Mount f path targetPath options)
                    (λ e, Plain ("failed to mount device: " +:+ path +:+ " at " +:+ targetPath +:+ ": " +:+ e)) in
        retE false
    end.
Definition NodePublishVolume (req : NodePublishRequest) : call () :=
  match pu_Capability req with
  | None => failE (Status InvalidArgument "Volume capability missing in request")
  | Some cap =>
  if String.eqb (pu_VolumeId req) "" then failE (Status InvalidArgument "Volume ID missing in request")
  else if String.eqb (pu_TargetPath req) "" then failE (Status InvalidArgument "Target path missing in request")
  else
  let targetPath := pu_TargetPath req in
  if is_block cap && is_mount cap
  then failE (Status InvalidArgument "cannot have both block and mount access type")
  else
  let* found := getM (λ hp, GetVolumeByID (state hp) (pu_VolumeId req)) in
  match found with
  | inr err => failE (Status NotFoundCode (Error err))
  | inl vol =>
      if hasSingleNodeSingleWriterAccessMode req && isMountedElsewhere req vol
      then failE (Status FailedPrecondition failedPreconditionAccessModeConflict)
      else if Empty (Staged vol)
      then failE (Status FailedPrecondition ("volume " +:+ Quote (VolID vol) +:+ " must be staged before publishing"))
      else if negb (Has (pu_StagingTargetPath req) (Staged vol))
      then failE (Status InvalidArgument ("volume " +:+ Quote (VolID vol) +:+ " was staged at " +:+
                    fmt_list (Staged vol) +:+ ", not " +:+ Quote (pu_StagingTargetPath req)))
      else
      let? mounted := (match GetAccess cap with
                       | CapBlock => publish_block targetPath vol
                       | CapMount _ _ => publish_mount targetPath req vol
                       | CapNone => retE false
                       end) in
      if (mounted : bool) then retE ()
      else
        let* cfg := getM config in
        UpdateVolume (set_Published (NodeID cfg) (Add targetPath (Published vol)) vol)
  end
  end.

Definition NodeUnpublishVolume (volumeID targetPath : string) : call () :=
  if String.eqb volumeID "" then failE (Status InvalidArgument "Volume ID missing in request")
  else if String.eqb targetPath "" then failE (Status InvalidArgument "Target path missing in request")
  else
  let? vol := volume_by_id volumeID in
  if negb (Has targetPath (Published vol)) then retE ()
  else
  let* r := getM (λ hp, IsNotMountPoint (hp_fs hp) targetPath) in
  let? _ := (match r with
             | inr e => if IsNotExist e then retE () else failE (Plain ("check target path: " +:+ os_msg e))
             | inl true => retE ()
             | inl false => onF (λ f, Unmount f targetPath) (λ e, Plain ("unmount target path: " +:+ e))
             end) in
  let? _ := onF (λ f, os_RemoveAll f targetPath) (λ e, Plain ("remove target path: " +:+ os_msg e)) in
  UpdateVolume (set_Published (sv_NodeID vol) (Remove targetPath (Published vol)) vol).

Definition NodeStageVolume (req : NodeStageRequest) : call () :=
  let stagingTargetPath := sg_StagingTargetPath req in
  if String.eqb (sg_VolumeId req) "" then failE (Status InvalidArgument "Volume ID missing in request")
  else if String.eqb stagingTargetPath "" then failE (Status InvalidArgument "Target path missing in request")
  else match sg_Capability req with
  | None => failE (Status InvalidArgument "Volume Capability missing in request")
  | Some _ =>
      let? vol := volume_by_id (sg_VolumeId req) in
      let* cfg := getM config in
      if EnableAttach cfg && negb (Attached vol)
      then failE (Status Internal ("ControllerPublishVolume must be called on volume '" +:+ VolID vol +:+
                                   "' before staging on node"))
      else if Has stagingTargetPath (Staged vol) then retE ()
      else if negb (Empty (Staged vol))
      then failE (Status FailedPrecondition ("volume " +:+ Quote (sg_VolumeId req) +:+ " is already staged at " +:+
                    fmt_list (Staged vol)))
      else UpdateVolume (set_Staged (Add stagingTargetPath (Staged vol)) vol)
  end.
Definition NodeUnstageVolume (volumeID stagingTargetPath : string) : call () :=
  if String.eqb volumeID "" then failE (Status InvalidArgument "Volume ID missing in request")
  else if String.eqb stagingTargetPath "" then failE (Status InvalidArgument "Target path missing in request")
  else
  let? vol := volume_by_id volumeID in
  if negb (Has stagingTargetPath (Staged vol)) then retE ()
  else if negb (Empty (Published vol))
  then failE (Status Internal ("volume " +:+ Quote (VolID vol) +:+ " is still published at [" +:+
                str_join " " (map Quote (Published vol)) +:+ "] on node " +:+ Quote (sv_NodeID vol)))
  else UpdateVolume (set_Staged (Remove stagingTargetPath (Staged vol)) vol).

Definition NodeGetCapabilities : call (list rpc_type) :=
  retE [RPC_STAGE_UNSTAGE_VOLUME; RPC_VOLUME_CONDITION; RPC_SINGLE_NODE_MULTI_WRITER; RPC_GET_VOLUME_STATS].
(** The node, the number of volumes, and the topology. *)
Definition NodeGetInfo : call (string * Z * option (gmap string string)) :=
  let* cfg := getM config in
  retE (NodeID cfg, if 0 <? AttachLimit cfg then AttachLimit cfg else MaxVolumesPerNode cfg,
        if EnableTopology cfg then Some (topology cfg) else None).
Definition NodeGetVolumeStats (volumeId volumePath : string) : call (list VolumeUsage * (bool * string)) :=
  if String.eqb volumeId "" then failE (Status InvalidArgument "Volume ID not provided")
  else if String.eqb volumePath "" then failE (Status InvalidArgument "Volume Path not provided")
  else
  let? _ := volume_by_id volumeId in
  askE (λ hp,
    match os_Stat (hp_fs hp) volumePath with
    | Some e => inr (Status NotFoundCode ("Could not get file information from " +:+ volumePath +:+ ": " +:+ os_msg e))
    | None =>
        let '(healthy, msg) := doHealthCheckInNodeSide hp volumeId in
        match fs_Info (hp_fs hp) volumePath with
        | inr e => inr (Plain ("get volume stats failed: " +:+ e))
        | inl (available, capacity, used, inodes, inodesFree, inodesUsed) =>
            inl ([mkUsage available used capacity false; mkUsage inodesFree inodesUsed inodes true],
                 (negb healthy, msg))
        end
    end).

(** ** The calls of the driver *)

Inductive request :=
| CallCreate (id : string + error) (req : CreateVolumeRequest)
| CallDelete (volId : string)
| CallValidate (req : ValidateRequest)
| CallList (req : ListVolumesRequest)
| CallGet (volId : string)
| CallPublish (req : NodePublishRequest)
| CallUnpublish (volId targetPath : string)
| CallStage (req : NodeStageRequest)
| CallUnstage (volId stagingTargetPath : string)
| CallStats (volId volumePath : string).
Definition ignore {A} (m : call A) : call () := let? _ := m in retE ().
Definition serve `{!GoSort} (r : request) : call () :=
  match r with
  | CallCreate id req => ignore (CreateVolume id req)
  | CallDelete volId => DeleteVolume volId
  | CallValidate req => ignore (ValidateVolumeCapabilities req)
  | CallList req => ignore (ListVolumes req)
  | CallGet volId => ignore (ControllerGetVolume volId)
  | CallPublish req => NodePublishVolume req
  | CallUnpublish volId targetPath => NodeUnpublishVolume volId targetPath
  | CallStage req => NodeStageVolume req
  | CallUnstage volId stagingTargetPath => NodeUnstageVolume volId stagingTargetPath
  | CallStats volId volumePath => ignore (NodeGetVolumeStats volId volumePath)
  end.
End Driver.

(** ** endpoint.go *)

Definition lower_char (a : ascii) : ascii :=
  let n := nat_of_ascii a in if (65 <=? n)%nat && (n <=? 90)%nat then ascii_of_nat (n + 32) else a.
Fixpoint ToLower (s : string) : string :=
  match s with EmptyString => EmptyString | String a s => String (lower_char a) (ToLower s) end.
(** strings.SplitN(s, sep, 2) for a separator that is not empty: the parts
    before and after its first occurrence. *)
Fixpoint split_at (sep s : string) : option (string * string) :=
  if String.prefix sep s then Some (EmptyString, TrimPrefix s sep)
  else match s with
       | EmptyString => None
       | String a r => match split_at sep r with Some (b, t) => Some (String a b, t) | None => None end
       end.
Definition ValidateAndParse (ed : string) : (string * string) + error :=
  if String.prefix "tcp://" (ToLower ed) || String.prefix "unix://" (ToLower ed) then
    match split_at "://" ed with
    | Some (proto, addr) => if String.eqb addr "" then inr ("invalid endpoint: " +:+ ed) else inl (proto, addr)
    | None => inr ("invalid endpoint: " +:+ ed)
    end
  else inl ("unix", ed).
(** The network and the address that are listened on. *)
Definition Listen {F} `{!CsiHost F} (ep : string) (f : F) : F * ((string * string) + error) :=
  match ValidateAndParse ep with
  | inr e => (f, inr e)
  | inl (proto, addr) =>
      let '(addr, (f, err)) :=
        if String.eqb proto "unix" then ("/" +:+ addr, os_Remove f ("/" +:+ addr)) else (addr, (f, None)) in
      match (match err with Some e => if IsNotExist e then None else Some e | None => None end) with
      | Some e => (f, inr (addr +:+ ": " +:+ Quote (os_msg e)))
      | None =>
          let '(f, err) := net_Listen f proto addr in
          (f, match err with None => inl (proto, addr) | Some e => inr e end)
      end
  end.
