(* ===== verification/AgentMeasure.v ===== *)
(** * pkg/agent/common: measurements of disks from the I/O service

    parseReceiveMessageDisk, compareResult, deepCopyResult and the rounds of
    IOISubscribeDisk of disk.go, and getAverageResult of client.go.  The
    service's messages are those that DiskService sends. *)

From S2P Require Export AgentLimit DiskService.

Definition AverageTime : nat := 30.

Section Measure.
Context `{Q : QuantityLib} `{!GoRange} `{!FloatText}.

(** ** parseReceiveMessageDisk *)

(** The first disk of the range with the device number [di]. *)
Definition find_disk (DiskInfos : gmap string ADiskInfo) (di : string) : string :=
  match List.find (λ kv, String.eqb (MajorMinor kv.2) di) (range DiskInfos) with
  | Some kv => kv.1 | None => EmptyString
  end.
(** The six sizes of an entry, in MiB; errors of ParseFloat are ignored. *)
Definition size_values (bws : gmap string string) : list f64 :=
  map (λ bs, fdiv (ParseFloat_32 (default EmptyString (bws !! bs))).1 MiB) bsList.
(** What the entries of a pod say of each disk: reads and writes. *)
Definition read_entries (DiskInfos : gmap string ADiskInfo) (bwi : list BandwidthInfo)
    : gmap string (list f64) * gmap string (list f64) :=
  foldl (λ '(re, wr) b,
    let disk := find_disk DiskInfos (bi_Id b) in
    if String.eqb disk "" then (re, wr)
    else if bi_IsRead b then (<[disk := size_values (bi_Bandwidths b)]> re, wr)
    else (re, <[disk := size_values (bi_Bandwidths b)]> wr)) (∅, ∅) bwi.

(** The bandwidth that the sizes amount to: each is scaled by the ratio of
    its size. *)
Definition scaled_sum (ratio : gmap string f64) (l : list f64) : f64 :=
  foldl (λ sum bv,
    if feq bv.2 fzero then sum
    else fadd sum (fmul (default fzero (ratio !! bv.1)) bv.2)) fzero (zip bsList l).
Definition zero_sizes : list f64 := replicate 6 fzero.
(** The measurement of a pod on a disk. *)
Definition pod_measure (devInfo : ADiskInfo) (re wr : option (list f64)) : PodRunInfo :=
  let r := default zero_sizes re in
  let w := default zero_sizes wr in
  let wlBs : gmap string (option Workload) :=
    list_to_map (zip bsList (zip_with (λ x y, Some (mkWorkload x y fzero fzero (fadd x y))) r w)) in
  mkRunInfo (Some (mkWorkload (scaled_sum (ad_ReadRatio devInfo) r) (scaled_sum (ad_WriteRatio devInfo) w)
                     fzero fzero fzero))
    None None None None "" 0 0 "" [] "" "" "" (Some wlBs).

(** A message without a payload for disks is dereferenced. *)
Definition parseReceiveMessageDisk (resp : option AppsBandwidth) (DiskInfos : gmap string ADiskInfo)
    : outcome PodData :=
  let! resp := deref resp in
  Ok (mkPodData 1 0 (foldl (λ m kv,
    let '(re, wr) := read_entries DiskInfos kv.2 in
    foldl (λ m kd, add_event kd.1 kv.1 (pod_measure kd.2 (re !! kd.1) (wr !! kd.1)) m) m
      (range DiskInfos)) ∅ (range (ab_AppBwInfo resp)))).

(** ** getAverageResult *)

Definition bps_add (a b : Workload) : Workload :=
  set_bps (fadd (InBps a) (InBps b)) (fadd (OutBps a) (OutBps b)) a.
Definition bps_div (times : Z) (a : Workload) : Workload :=
  set_bps (fdiv (InBps a) (of_Z times)) (fdiv (OutBps a) (of_Z times)) a.

(** The sum of a pod: of all sizes, and of each. *)
Record sums := mkSums { su_Actual : Workload; su_Sizes : gmap string Workload }.
Definition no_sums : sums :=
  mkSums workload_zero (list_to_map (map (λ bs, (bs, workload_zero)) bsList)).
Definition add_measure (s : sums) (i : PodRunInfo) : outcome sums :=
  let! a := deref (ri_Actual i) in
  let! bs := deref (RawActualBs i) in
  let! sizes := foldM (λ m kv,
    let! sum := deref (m !! kv.1) in
    let! w := deref kv.2 in
    Ok (<[kv.1 := bps_add sum w]> m)) (su_Sizes s) (range bs) in
  Ok (mkSums (bps_add (su_Actual s) a) sizes).
Definition add_pods (pods : gmap string sums) (ev : PodEventInfo) : outcome (gmap string sums) :=
  foldM (λ pods kp,
    let! s := add_measure (default no_sums (pods !! kp.1)) kp.2 in
    Ok (<[kp.1 := s]> pods)) pods (range ev).
Definition add_slot (sum : gmap string (gmap string sums)) (result : PodData)
    : outcome (gmap string (gmap string sums)) :=
  foldM (λ m kd,
    let! pods := add_pods (default ∅ (m !! kd.1)) kd.2 in
    Ok (<[kd.1 := pods]> m)) sum (range (PodEvents result)).
Definition average_pod (times : Z) (s : sums) : PodRunInfo :=
  mkRunInfo (Some (bps_div times (su_Actual s))) None None None None "" 0 0 "" [] "" "" ""
    (Some ((λ w, Some (bps_div times w)) <$> su_Sizes s)).
Definition getAverageResult (resultArr : list PodData) : outcome PodData :=
  let! first := index resultArr 0 in
  let times := Z.of_nat (length resultArr) in
  let! sum := foldM add_slot ∅ resultArr in
  Ok (mkPodData (pdata_T first) (pdata_Generation first) ((λ pods : gmap string sums, average_pod times <$> pods) <$> sum)).

(** ** compareResult and deepCopyResult *)

Definition changed (cur prev : f64) : bool := flt (of_Z 1) (fabs (fsub cur prev)).
Definition compareResult (averageResult previousResult : PodData) : outcome bool :=
  let! r := for_range (range (PodEvents averageResult)) () (λ _ kd,
    match PodEvents previousResult !! kd.1 with
    | None => Ok (Return false)
    | Some prev =>
        for_range (range kd.2) () (λ _ kp,
          match prev !! kp.1 with
          | None => Ok (Return false)
          | Some p =>
              let! a := deref (ri_Actual kp.2) in
              let! b := deref (ri_Actual p) in
              Ok (if changed (InBps a) (InBps b) || changed (OutBps a) (OutBps b)
                  then Return false else Next ())
          end)
    end) in
  Ok (match r with Return b => b | Next _ => true end).
Definition deepCopyResult (averageResult previousResult : PodData) : PodData :=
  mkPodData (pdata_T previousResult) (pdata_Generation previousResult)
    (foldl (λ m kd, <[kd.1 := foldl (λ pods kp, <[kp.1 := kp.2]> pods) (default ∅ (m !! kd.1))
                                (range kd.2)]> m)
       (PodEvents previousResult) (range (PodEvents averageResult))).

(** ** IOISubscribeDisk *)

Definition no_data : PodData := mkPodData 0 0 ∅.
(** The variables of the loops, and what was put into PodInfoChan. *)
Record DiskStream := mkStream {
  resultArr : list PodData; ms_count : Z; previousResult : PodData; ms_sent : list PodData
}.
Definition stream_start : DiskStream := mkStream (replicate AverageTime no_data) 0 (mkPodData 1 0 ∅) [].

(** A stream is opened ([ok]; otherwise it is nil, and Recv panics), or a
    message arrives, when the disks are [DiskInfos]. *)
Inductive stream_event :=
| NewStream (ok : bool)
| Message (resp : option AppsBandwidth) (DiskInfos : gmap string ADiskInfo).
Definition IOISubscribeDisk_round (s : DiskStream) (ev : stream_event) : outcome DiskStream :=
  match ev with
  | NewStream ok =>
      if ok then Ok (mkStream (resultArr s) (ms_count s) (mkPodData 1 0 ∅) (ms_sent s))
      else Crash NilDeref
  | Message resp DiskInfos =>
      let! result := parseReceiveMessageDisk resp DiskInfos in
      let count := add64 (ms_count s) 1 in
      let index := Z.to_nat (Z.rem (count - 1) (Z.of_nat AverageTime)) in
      let arr := <[index := result]> (resultArr s) in
      let! averageResult := getAverageResult arr in
      let! flag := compareResult averageResult (previousResult s) in
      let averageResult := if flag then averageResult
                           else mkPodData 1 (pdata_Generation averageResult) (PodEvents averageResult) in
      let count := if count =? Z.of_nat AverageTime * 8640 then Z.of_nat AverageTime else count in
      Ok (if flag then mkStream arr count (previousResult s) (ms_sent s)
          else mkStream arr count (deepCopyResult averageResult (previousResult s))
                 (ms_sent s ++ [averageResult]))
  end.
End Measure.
