(* ===== verification/Profiler.v ===== *)
(** * pkg/agent/common/profile.go: the disk profiler

    Which disks are profiled, the runs of fio on them, the file that keeps
    the results, and what the disk engine reads from it.  A store is the
    files of the node and the number of runs.  The file is opened for reading
    and writing and written from its start, without being cut: what is longer
    than the new text stays behind it. *)

From S2P Require Export AgentLimit.

Definition Filename : string := "/opt/diskProfiler/Result.json".
Definition MaxCurrFIOJobs : Z := 1.
Definition profileDir : string := "/opt/diskProfiler/".
Definition blockSize : list string := ["512"; "1k"; "4k"; "8k"; "16k"; "32k"].

Record Bandwidth := mkBandwidth { bw_Ratio : Z; bw_Blocksize : string; bw_Read : f64; bw_Write : f64 }.
Record DiskProfiler := mkDiskProfiler {
  dp_Path : string; dp_Id : string; dp_DeviceMM : string; dp_Status : Z; dp_Type : string; dp_Mount : string;
  dp_Size : Z; SingleWorkload : list Bandwidth; HybridWorkload : Bandwidth
}.
Record Profile := mkProfiles { BaselineBs : string; BwUnit : string; Disks : gmap string DiskProfiler }.
Definition profile_zero : Profile := mkProfiles "" "" ∅.
Record FIO := mkFIO {
  TestName : string; DiskName : string; RW : string; fio_BlockSize : string; OupDir : string; OupFile : string;
  fio_Ratio : Z; fio_Size : string
}.

(** encoding/json: the profile, and of fio's output the bytes per second read
    and written by each job.  fmt's [%.2f]. *)
Class ProfileJson := {
  marshal_profile : Profile → string + error;
  unmarshal_profile : string → Profile + error;
  unmarshal_fio : string → list (Z * Z) + error
}.
Class Fixed2 := { FormatFixed2 : f64 → string }.
(** Files: reading, os.Stat, os.MkdirAll, opening for reading and writing,
    writing from the start of an open file, os.Create, os.Remove, and running
    a command. *)
Class ProfileHost (F : Type) := {
  ph_ReadFile : F → string → string + error;
  ph_Stat : F → string → stat;
  ph_MkdirAll : F → string → F * option error;
  ph_OpenRDWR : F → string → option error;
  ph_Write : F → string → string → F * option error;
  ph_Create : F → string → F * option error;
  ph_Remove : F → string → F * option error;
  ph_RunBash : F → string → F * (string + error)
}.
Record Prof (F : Type) := mkProf { pf_fs : F; CurrFIOJobs : Z }.
Arguments mkProf {F} _ _.
Arguments pf_fs {F} _.
Arguments CurrFIOJobs {F} _.

Definition getMax (a b : Z) : Z := if b <? a then a else b.

Section Profiler.
Context `{Q : QuantityLib} `{!GoRange} {F : Type} `{!ProfileHost F} `{!ProfileJson} `{!FloatParse} `{!Fixed2}.

(** A call on the files. *)
Definition on_files {A} (op : F → F * A) : GoM (Prof F) A := λ s,
  let '(f, a) := op (pf_fs s) in Ok (a, mkProf f (CurrFIOJobs s)).

(** ** Runs of fio *)

Definition fio_command (fio : FIO) (mix : string) : string :=
  "fio -filename=" +:+ DiskName fio +:+ " -direct=1 -iodepth=128 -thread -rw=" +:+ RW fio +:+ mix +:+
  " -ioengine=libaio -bs=" +:+ fio_BlockSize fio +:+ " -size=" +:+ fio_Size fio +:+
  " -numjobs=1 -time_based -runtime=60 -group_reporting -name=" +:+ TestName fio +:+
  " --eta=always --eta-interval=1 --eta-newline=1 --output=" +:+ OupDir fio +:+ OupFile fio +:+
  " --output-format=json".
Definition run_fio_command (fio : FIO) (cmdStr : string) : GoM (Prof F) (() + error) :=
  let* st := getM (λ s, ph_Stat (pf_fs s) (OupDir fio)) in
  let? _ := (match st with
             | Absent => let* err := on_files (λ f, ph_MkdirAll f (OupDir fio)) in
                         match err with Some e => failE e | None => retE () end
             | _ => retE ()
             end) in
  let* r := on_files (λ f, ph_RunBash f cmdStr) in
  match r with inl _ => retE () | inr e => failE e end.
Definition TestSingleWorkload (fio : FIO) : GoM (Prof F) (() + error) :=
  run_fio_command fio (fio_command fio EmptyString).
Definition TestHybridSingleWorkload (fio : FIO) : GoM (Prof F) (() + error) :=
  run_fio_command fio (fio_command fio (" -rwmixread=" +:+ pretty (fio_Ratio fio))).

(** The rates of the first job in MiB/s, at least 1: of one direction, or of
    both. *)
Definition mib_rate (b : Z) : Z := getMax (Z.quot b (1024 * 1024)) 1.
Definition ParsingFIOResults (fio : FIO) (hybrid : bool) : GoM (Prof F) (list Z + error) :=
  let? data := askE (λ s, ph_ReadFile (pf_fs s) (OupDir fio +:+ OupFile fio)) in
  match unmarshal_fio data with
  | inr e => failE e
  | inl jobs =>
      let '(r, w) := match jobs with j :: _ => j | [] => (0, 0) end in
      if hybrid then retE [mib_rate r; mib_rate w]
      else
        let direction := String.substring 4 (str_len (RW fio) - 4) (RW fio) in
        retE [mib_rate (if String.eqb direction "write" then w
                        else if String.eqb direction "read" then r else 0)]
  end.

Definition getFioTestFile (mnt bs rw : string) : outcome string :=
  match last (String.list_ascii_of_string mnt) with
  | None => Crash OutOfRange
  | Some c => Ok (if Ascii.eqb c slash then mnt +:+ bs +:+ "_" +:+ rw else mnt +:+ "/" +:+ bs +:+ "_" +:+ rw)
  end.
Definition getFioFileSize (sz : Z) : string :=
  let sz := Z.quot sz (1024 * 1024) in
  if sz <=? 20 then pretty (Z.quot sz 2) +:+ "G" else "20G".

(** ** The file *)

Definition Load (filename : string) (f : F) : Profile :=
  match ph_ReadFile f filename with
  | inr _ => profile_zero
  | inl data => match unmarshal_profile data with inr _ => profile_zero | inl v => v end
  end.
Definition GetDiskStatus (filename : string) (f : F) : gmap string Z + error :=
  match ph_ReadFile f filename with
  | inr e => inr e
  | inl _ => inl (dp_Status <$> Disks (Load filename f))
  end.

Definition zero_bandwidth (bs : string) : Bandwidth := mkBandwidth 0 bs fzero fzero.
Definition new_profile (did : string) (dv : BlockDevice) : DiskProfiler :=
  mkDiskProfiler (blk_Name dv) did (MajMin dv) 1 (blk_Type dv) (blk_Mount dv) (AvailSize dv)
    (zero_bandwidth <$> ["512B"; "1k"; "4k"; "8k"; "16k"; "32k"]) (mkBandwidth 50 "32k" fzero fzero).
Definition initDiskCnt (profile : Profile) (dsInfo : gmap string BlockDevice) : Profile :=
  mkProfiles (BaselineBs profile) (BwUnit profile)
    (foldl (λ m kv, <[kv.1 := new_profile kv.1 kv.2]> m) (Disks profile) (range dsInfo)).
(** [f.Write] of a file that may not have been opened. *)
Definition write_opened (filename : string) (opened : bool) (text : string) : GoM (Prof F) (option error) :=
  if opened then on_files (λ f, ph_Write f filename text) else retM (Some "invalid argument").
Definition addNewDisksToFile (dsInfo : gmap string BlockDevice) (filePath : string) : GoM (Prof F) (() + error) :=
  let? data := askE (λ s, ph_ReadFile (pf_fs s) filePath) in
  match unmarshal_profile data with
  | inr e => failE e
  | inl cnt =>
      let cnt := initDiskCnt cnt dsInfo in
      let* err := getM (λ s, ph_OpenRDWR (pf_fs s) filePath) in
      match err with
      | Some e => failE e
      | None =>
          match marshal_profile cnt with
          | inr e => failE e
          | inl jsonStr =>
              let* err := write_opened filePath true jsonStr in
              match err with Some e => failE e | None => retE () end
          end
      end
  end.
Definition createDisksToFile (dsInfo : gmap string BlockDevice) (filePath : string) : GoM (Prof F) (() + error) :=
  let res := initDiskCnt (mkProfiles "32k" "MiB/s" ∅) dsInfo in
  let* err := on_files (λ f, ph_Create f filePath) in
  match err with
  | Some e => failE e
  | None =>
      match marshal_profile res with
      | inr e => failE e
      | inl jsonStr =>
          let* err := write_opened filePath true jsonStr in
          match err with Some e => failE e | None => retE () end
      end
  end.
(** The disks that are left are to be profiled. *)
Definition GetNewDisks (dsInfo : gmap string BlockDevice) (filename : string)
    : GoM (Prof F) (gmap string BlockDevice) :=
  let* st := getM (λ s, ph_Stat (pf_fs s) filename) in
  let* _ := (match st with
             | Absent =>
                 let* st := getM (λ s, ph_Stat (pf_fs s) profileDir) in
                 let* _ := (match st with
                            | Absent => let* _ := on_files (λ f, ph_MkdirAll f profileDir) in retM ()
                            | _ => retM ()
                            end) in
                 let* _ := createDisksToFile dsInfo filename in retM ()
             | _ => retM ()
             end) in
  let* v := getM (λ s, Load Filename (pf_fs s)) in
  let dsInfo := foldl (λ m kv, if dp_Status kv.2 =? 2 then delete (dp_Id kv.2) m else m) dsInfo (range (Disks v)) in
  if negb (size dsInfo =? 0)%nat
  then let* _ := addNewDisksToFile dsInfo filename in retM dsInfo
  else retM dsInfo.

(** The end of a run: the entry of the disk is changed in what the file
    holds, the whole is written back, and the run is over. *)
Definition update_entry (disk : BlockDevice) (change : DiskProfiler → outcome DiskProfiler) : GoM (Prof F) () :=
  let* err := getM (λ s, ph_OpenRDWR (pf_fs s) Filename) in
  let* fileCnt := getM (λ s, Load Filename (pf_fs s)) in
  let* did := liftM (GetDiskId (blk_Model disk) (blk_Serial disk)) in
  let* fileCnt := (match Disks fileCnt !! did with
                   | Some item =>
                       let* item := liftM (change item) in
                       retM (mkProfiles (BaselineBs fileCnt) (BwUnit fileCnt) (<[did := item]> (Disks fileCnt)))
                   | None => retM fileCnt
                   end) in
  let jsonStr := match marshal_profile fileCnt with inl t => t | inr _ => EmptyString end in
  let* _ := write_opened Filename (match err with None => true | Some _ => false end) jsonStr in
  modM (λ s, mkProf (pf_fs s) (CurrFIOJobs s - 1)).
Definition set_status (st : Z) (p : DiskProfiler) : DiskProfiler :=
  mkDiskProfiler (dp_Path p) (dp_Id p) (dp_DeviceMM p) st (dp_Type p) (dp_Mount p) (dp_Size p)
    (SingleWorkload p) (HybridWorkload p).
Definition WriteFailDisk (disk : BlockDevice) : GoM (Prof F) () :=
  update_entry disk (λ item, Ok (set_status 3 item)).

(** Rates by block size: reads and writes, and those of the mixed run. *)
Record Rates := mkRates { single : list (f64 * f64); hybrid : f64 * f64 }.
Fixpoint put_rates (l : list Bandwidth) (rates : list (f64 * f64)) : outcome (list Bandwidth) :=
  match l, rates with
  | [], _ => Ok []
  | _ :: _, [] => Crash OutOfRange
  | b :: l, (r, w) :: rates =>
      let! l := put_rates l rates in Ok (mkBandwidth (bw_Ratio b) (bw_Blocksize b) r w :: l)
  end.
Definition measured (cnt : Rates) (p : DiskProfiler) : outcome DiskProfiler :=
  let! l := put_rates (SingleWorkload p) (single cnt) in
  let h := HybridWorkload p in
  Ok (mkDiskProfiler (dp_Path p) (dp_Id p) (dp_DeviceMM p) 2 (dp_Type p) (dp_Mount p) (dp_Size p) l
        (mkBandwidth (bw_Ratio h) (bw_Blocksize h) (hybrid cnt).1 (hybrid cnt).2)).

(** The thirteen runs; [None] when one of them failed. *)
Definition disk_symbol (disk : BlockDevice) : string := default EmptyString (last (str_split slash (blk_Name disk))).
Definition workload_sizes : list string := ["512B"; "1k"; "4k"; "8k"; "16k"; "32k"].
Definition set_rate (rwi : string) (idx : nat) (bw : f64) (l : list (f64 * f64)) : list (f64 * f64) :=
  alter (λ rw, if String.eqb rwi "randread" then (bw, rw.2) else (rw.1, bw)) idx l.
Definition single_run (disk : BlockDevice) (rwi : string) (rates : list (f64 * f64)) (ib : nat * string)
    : GoM (Prof F) (ctrl (list (f64 * f64)) ()) :=
  let '(bsidx, bsi) := ib in
  let* file := liftM (getFioTestFile (blk_Mount disk) bsi rwi) in
  let fio := mkFIO (disk_symbol disk +:+ bsi +:+ rwi) file rwi bsi
               (profileDir +:+ "SingleWorkload/" +:+ disk_symbol disk +:+ "/")
               (bsi +:+ "_" +:+ rwi +:+ ".json") 0 (getFioFileSize (AvailSize disk)) in
  let* err := TestSingleWorkload fio in
  match err with
  | inr _ => retM (Return ())
  | inl _ =>
      let* bw := ParsingFIOResults fio false in
      match bw with
      | inl [bw] => let* _ := on_files (λ f, ph_Remove f file) in
                    retM (Next (set_rate rwi bsidx (of_Z bw) rates))
      | _ => retM (Return ())
      end
  end.
Definition hybrid_run (disk : BlockDevice) (rates : list (f64 * f64)) : GoM (Prof F) (option Rates) :=
  let* file := liftM (getFioTestFile (blk_Mount disk) "32k" "randrw") in
  let fio := mkFIO (disk_symbol disk +:+ "32krandrw") file "randrw" "32k"
               (profileDir +:+ "HybridSingleWorkload/" +:+ disk_symbol disk +:+ "/") "32k_randrw.json" 50
               (getFioFileSize (AvailSize disk)) in
  let* err := TestHybridSingleWorkload fio in
  match err with
  | inr _ => retM None
  | inl _ =>
      let* bw := ParsingFIOResults fio true in
      match bw with
      | inl [r; w] => let* _ := on_files (λ f, ph_Remove f file) in
                      retM (Some (mkRates rates (of_Z r, of_Z w)))
      | _ => retM None
      end
  end.
Definition run_fio (disk : BlockDevice) : GoM (Prof F) (option Rates) :=
  let* r := for_rangeM ["randread"; "randwrite"] (replicate 6 (fzero, fzero)) (λ rates rwi,
    for_rangeM (imap pair workload_sizes) rates (single_run disk rwi)) in
  match r with
  | Return _ => retM None
  | Next rates => hybrid_run disk rates
  end.
Definition launchFIO (disk : BlockDevice) : GoM (Prof F) () :=
  let* _ := modM (λ s, mkProf (pf_fs s) (CurrFIOJobs s + 1)) in
  let* r := run_fio disk in
  match r with
  | None => WriteFailDisk disk
  | Some cnt => update_entry disk (measured cnt)
  end.

(** ** What the disk engine reads *)

(** The ratio of the rate at 32k to that at another size, to two places; a
    text that is no number leaves both lists as they are, or the second. *)
Definition fixed2 (x : f64) : f64 + error := ParseFloat64 (FormatFixed2 x).
Definition add_ratio (base : Bandwidth) (acc : list f64 * list f64) (b : Bandwidth) : list f64 * list f64 :=
  match fixed2 (fdiv (bw_Read base) (bw_Read b)) with
  | inr _ => acc
  | inl rr =>
      match fixed2 (fdiv (bw_Write base) (bw_Write b)) with
      | inr _ => (acc.1 ++ [rr], acc.2)
      | inl wr => (acc.1 ++ [rr], acc.2 ++ [wr])
      end
  end.
Definition by_size (l : list f64) : gmap string f64 := list_to_map (zip blockSize l).
Definition disk_zero : ADiskInfo := mkADisk "" "" "" "" "" fzero fzero fzero ∅ ∅ [] [].
Definition ParseDiskProfileForController (id filename : string) (f : F) : outcome ADiskInfo :=
  match Disks (Load filename f) !! id with
  | None => Ok disk_zero
  | Some p =>
      if (length (SingleWorkload p) <? 6)%nat then Crash OutOfRange
      else
        let base := nth 5 (SingleWorkload p) (zero_bandwidth "") in
        let h := HybridWorkload p in
        let '(rs, ws) := foldl (add_ratio base) ([], []) (take 6 (SingleWorkload p)) in
        Ok (mkADisk (dp_Path p) (dp_DeviceMM p) (dp_Type p) (dp_Mount p) (pretty (dp_Size p))
              (fadd (bw_Read h) (bw_Write h)) (bw_Read base) (bw_Write base) (by_size rs) (by_size ws) [] [])
  end.
Definition ParseAllDiskProfileForController (filename : string) (deviceStatus : gmap string Z) (f : F)
    : outcome (gmap string ADiskInfo) :=
  let disks := filter (λ kv : string * DiskProfiler, is_Some (deviceStatus !! kv.1)) (Disks (Load filename f)) in
  foldM (λ m kv, let! pf := ParseDiskProfileForController kv.1 filename f in Ok (<[kv.1 := pf]> m)) ∅ (range disks).
(** AnalysisDiskProfile: what is sent on the channel of profiles. *)
Definition GetAllDiskProfileForController (deviceStatus : gmap string Z) (filename : string) (f : F)
    : outcome (gmap string ADiskInfo) :=
  match ph_ReadFile f filename with
  | inr _ => Ok ∅
  | inl _ => ParseAllDiskProfileForController filename deviceStatus f
  end.
End Profiler.

(** ** The queue of disks *)

(** DiskProducer fills a channel; DiskConsumer starts a goroutine for the next
    disk when fewer runs than allowed are counted, and each goroutine counts
    itself when it begins. *)
Inductive fio_task := Launched (d : BlockDevice) | Running (d : BlockDevice).
Record FioPool := mkFioPool { pl_queue : list BlockDevice; pl_tasks : list fio_task; pl_jobs : Z }.
Inductive consumer_step : FioPool → FioPool → Prop :=
| consume d q ts n : n < MaxCurrFIOJobs → consumer_step (mkFioPool (d :: q) ts n) (mkFioPool q (ts ++ [Launched d]) n)
| begin_run q ts1 d ts2 n :
    consumer_step (mkFioPool q (ts1 ++ Launched d :: ts2) n) (mkFioPool q (ts1 ++ Running d :: ts2) (n + 1))
| end_run q ts1 d ts2 n : consumer_step (mkFioPool q (ts1 ++ Running d :: ts2) n) (mkFioPool q (ts1 ++ ts2) (n - 1)).
