(* ===== verification/AgentRun.v ===== *)
(** * pkg/agent: the node agent with all its engines

    The event loop of agent.go's Run over the channels of event.go, with the
    four engines, the updates that aggregator.go makes of the aggregator's
    lists, and the stream of measurements of common/disk.go.  The engines
    share the agent's IOInfo, the API server and the connection to the
    aggregator; each keeps a record of what it puts into ClientHandlerChan. *)

From S2P Require Import AgentSource AgentMeasure AgentDisk AgentNet AgentRdt.

(** ** Starting *)

(** A handle is added to the entry of its channel, which is made when there is
    none. *)
Section Register.
Context {CH H : Type} `{!EqDecision CH}.
Fixpoint RegisterEventHandler (ch : CH) (handle : H) (ehs : list (CH * list H)) : list (CH * list H) :=
  match ehs with
  | [] => [(ch, [handle])]
  | eh :: ehs =>
      if decide (eh.1 = ch) then (eh.1, eh.2 ++ [handle]) :: ehs
      else eh :: RegisterEventHandler ch handle ehs
  end.
End Register.

(** The bits of EnginesSwitch that the node's labels ask for: the label that
    names the resources, and the one that takes CSI out. *)
Definition IoiLabel : string := "ioisolation".
Definition CsiSeperatedLabel : string := "csi-seperated".
Definition CSISwitch : Z := 16.
Definition init_switch (labels : gmap string string) : Z :=
  let resources := match labels !! IoiLabel with Some v => str_split "-"%char v | None => [] end in
  let csiEnable := match labels !! CsiSeperatedLabel with Some v => negb (String.eqb v "true") | None => true end in
  foldl (λ sw r,
    let asked name := String.eqb r name || String.eqb r "all" in
    let sw := if asked "disk"
              then let sw := Z.lor sw DiskSwitch in if csiEnable then Z.lor sw CSISwitch else sw
              else sw in
    let sw := if asked "net" then Z.lor sw NetSwitch else sw in
    let sw := if asked "rdt" then Z.lor sw RDTSwitch else sw in
    if asked "rdtQuantity" then Z.lor sw RDTQuantitySwitch else sw) 0 resources.

Section AgentRun.
Context `{Q : QuantityLib} `{!GoSort} `{!GoRange} `{!AgentLib} `{!JsonLib} `{!RdtAgentJson} `{!FloatText}.
Context {K C V : Type} `{!StaticClient K} `{!AggrClient C} `{!ServiceClient V}.

(** ** State *)

Record Shared := mkShared { sh_IOInfo : NodeStaticIOInfo; sh_kube : K; sh_client : option C }.
Record NodeAgent := mkAgent {
  ag_pods : AgentState;
  ag_stream : DiskStream;
  ag_shared : Shared;
  ag_disk : AgentDisk.Disk K C;
  ag_net : AgentNet.Net K C V;
  ag_rdt : AgentRdt.Rdt K C;
  ag_rdtq : AgentRdt.Rdt K C
}.
Definition set_pods p (a : NodeAgent) : NodeAgent :=
  mkAgent p (ag_stream a) (ag_shared a) (ag_disk a) (ag_net a) (ag_rdt a) (ag_rdtq a).
Definition set_stream s (a : NodeAgent) : NodeAgent :=
  mkAgent (ag_pods a) s (ag_shared a) (ag_disk a) (ag_net a) (ag_rdt a) (ag_rdtq a).
(** An engine runs on the shared variables, and leaves them to the others. *)
Definition load_disk (a : NodeAgent) : AgentDisk.Disk K C :=
  let sh := ag_shared a in
  AgentDisk.set_IOInfo (sh_IOInfo sh) (AgentDisk.set_outside (sh_kube sh) (sh_client sh) (ag_disk a)).
Definition store_disk (d : AgentDisk.Disk K C) (a : NodeAgent) : NodeAgent :=
  mkAgent (ag_pods a) (ag_stream a) (mkShared (AgentDisk.IOInfo d) (dk_kube d) (dk_client d)) d
    (ag_net a) (ag_rdt a) (ag_rdtq a).
Definition load_net (a : NodeAgent) : AgentNet.Net K C V :=
  let sh := ag_shared a in
  AgentNet.set_IOInfo (sh_IOInfo sh)
    (AgentNet.set_outside (sh_kube sh) (sh_client sh) (IoiClient (ag_net a)) (ag_net a)).
Definition store_net (n : AgentNet.Net K C V) (a : NodeAgent) : NodeAgent :=
  mkAgent (ag_pods a) (ag_stream a) (mkShared (AgentNet.IOInfo n) (ne_kube n) (ne_client n))
    (ag_disk a) n (ag_rdt a) (ag_rdtq a).
Definition load_rdt (r : AgentRdt.Rdt K C) (a : NodeAgent) : AgentRdt.Rdt K C :=
  let sh := ag_shared a in AgentRdt.set_outside (sh_IOInfo sh) (sh_kube sh) (sh_client sh) r.
Definition after_rdt (r : AgentRdt.Rdt K C) : Shared :=
  mkShared (AgentRdt.IOInfo r) (rd_kube r) (rd_client r).

(** ** The event loop *)

(** What arrives on a channel. *)
Inductive chan_event :=
| AdminCh (p : AdminResourceConfig)
| ProfileCh (p : AllProfile)
| PolicyCh (p : gmap string Policy)
| PodCh (p : PodData)
| ContainerCh (p : ContainerData)
| ClassCh (p : ClassData).
Definition chan_data (ev : chan_event) : EventData :=
  match ev with
  | AdminCh p => EvAdmin p | ProfileCh p => EvProfile p | PolicyCh p => EvPolicy p
  | PodCh p => EvPod p | ContainerCh p => EvContainer p | ClassCh p => EvClass p
  end.

(** The handles that each engine has registered on the channel. *)
Definition disk_handles (ev : chan_event) : list (EventHandle disk_handler) :=
  match ev with
  | AdminCh _ => AgentDisk.AdminChan_handles
  | ProfileCh _ => AgentDisk.ProfileChan_handles
  | PolicyCh _ => AgentDisk.PolicyChan_handles
  | PodCh _ => AgentDisk.PodInfoChan_handles
  | ContainerCh _ | ClassCh _ => []
  end.
Definition net_handles (ev : chan_event) : list (EventHandle net_handler) :=
  match ev with
  | AdminCh _ => AgentNet.AdminChan_handles
  | ProfileCh _ => AgentNet.ProfileChan_handles
  | PolicyCh _ => AgentNet.PolicyChan_handles
  | PodCh _ => AgentNet.PodInfoChan_handles
  | ContainerCh _ | ClassCh _ => []
  end.
Definition rdt_handles (ev : chan_event) : list (EventHandle rdt_handler) :=
  match ev with
  | AdminCh _ => AgentRdt.AdminChan_handles
  | PodCh _ => rdt_PodInfoChan_handles
  | ContainerCh _ => ContainerInfoChan_handles
  | ClassCh _ => rdt_ClassInfoChan_handles
  | ProfileCh _ | PolicyCh _ => []
  end.
Definition rdtq_handles (ev : chan_event) : list (EventHandle rdt_handler) :=
  match ev with
  | AdminCh _ => AgentRdt.AdminChan_handles
  | PodCh _ => rdtq_PodInfoChan_handles
  | ContainerCh _ => ContainerInfoChan_handles
  | ClassCh _ => rdtq_ClassInfoChan_handles
  | ProfileCh _ | PolicyCh _ => []
  end.

Inductive engine := DiskE | NetE | RdtE | RdtqE.
Definition engine_switch (e : engine) : Z :=
  match e with
  | DiskE => DiskSwitch | NetE => NetSwitch | RdtE => RDTSwitch | RdtqE => RDTQuantitySwitch
  end.
Definition run_engine (ev : chan_event) (a : NodeAgent) (e : engine) : outcome NodeAgent :=
  match e with
  | DiskE =>
      let! d := dispatch dk_eng set_dk_eng run_disk (disk_handles ev) (chan_data ev) (load_disk a) in
      Ok (store_disk d a)
  | NetE =>
      let! n := dispatch ne_eng set_ne_eng run_net (net_handles ev) (chan_data ev) (load_net a) in
      Ok (store_net n a)
  | RdtE =>
      let! r := dispatch rd_eng set_rd_eng run_rdt (rdt_handles ev) (chan_data ev)
                  (load_rdt (ag_rdt a) a) in
      Ok (mkAgent (ag_pods a) (ag_stream a) (after_rdt r) (ag_disk a) (ag_net a) r (ag_rdtq a))
  | RdtqE =>
      let! r := dispatch rd_eng set_rd_eng run_rdtq (rdtq_handles ev) (chan_data ev)
                  (load_rdt (ag_rdtq a) a) in
      Ok (mkAgent (ag_pods a) (ag_stream a) (after_rdt r) (ag_disk a) (ag_net a) (ag_rdt a) r)
  end.
(** The enabled engines, in the order in which Run has initialized them: that
    of a range over a map.  An engine whose bit is not set registers nothing. *)
Context (engines : list engine).
Definition on_channel (ev : chan_event) (a : NodeAgent) : outcome NodeAgent :=
  foldM (run_engine ev) a engines.

(** ** What can happen to the agent *)

Definition to_pod_chan (l : list PodData) (a : NodeAgent) : NodeAgent :=
  set_pods (mkAgentState (CrPodRequest (ag_pods a)) (PodInfoChan (ag_pods a) ++ l)) a.

(** A list of the aggregator arrives, the container runtime tells of pods, the
    stream of measurements goes on, the loop takes an event off PodInfoChan or
    off another channel, and what only concerns the disk engine: the informer
    shows a change of the node's object, the profiler has found disks, or the
    status of profiling is read. *)
Inductive agent_event :=
| ListArrives (pl : WirePodList)
| NriPods (ev : gmap string PodEventInfo)
| StreamOpens (ok : bool)
| Measured (resp : option AppsBandwidth)
| TakePod
| TakeOther (ev : chan_event)
| StateChange (old new : NodeStaticIOInfo)
| Profiler (DInfo : option (gmap string BlockDevice)) (disks : list string) (all_known : bool)
| ProfileStatus (status : gmap string Z).

Definition on_stream (ev : stream_event) (a : NodeAgent) : outcome NodeAgent :=
  let! s := IOISubscribeDisk_round (ag_stream a) ev in
  Ok (to_pod_chan (drop (length (ms_sent (ag_stream a))) (ms_sent s)) (set_stream s a)).

Definition agent_step (a : NodeAgent) (ev : agent_event) : outcome NodeAgent :=
  match ev with
  | ListArrives pl => let! s := receive_pods pl (ag_pods a) in Ok (set_pods s a)
  | NriPods ev => Ok (to_pod_chan [mkPodData 0 0 ev] a)
  | StreamOpens ok => on_stream (NewStream ok) a
  | Measured resp => on_stream (Message resp (DiskInfos (ag_disk a))) a
  | TakePod =>
      match PodInfoChan (ag_pods a) with
      | [] => Ok a
      | p :: ch => on_channel (PodCh p) (set_pods (mkAgentState (CrPodRequest (ag_pods a)) ch) a)
      end
  | TakeOther ev => on_channel ev a
  | StateChange old new =>
      let! d := NodeDeviceStateUpdate old new (load_disk a) in Ok (store_disk d a)
  | Profiler info disks all_known =>
      Ok (store_disk (StartDiskProfiler info disks all_known (load_disk a)) a)
  | ProfileStatus status => Ok (store_disk (StartAnalyzeDiskProfiler status (load_disk a)) a)
  end.

(** The node's object, with its maps made. *)
Definition InitStaticCR (NodeName PodIP : string) (port : Z) : NodeStaticIOInfo :=
  mkNSI NodeName ∅ (PodIP +:+ ":" +:+ pretty port) ∅.
Definition enabled (EnginesSwitch : Z) (started : list engine) : list engine :=
  filter (λ e, CheckEngine EnginesSwitch (engine_switch e) = true) started.
Definition agent_start (io : NodeStaticIOInfo) (k : K) (c : option C) (v : option V) : NodeAgent :=
  mkAgent (mkAgentState ∅ []) stream_start (mkShared io k c) (AgentDisk.Initialize io k c)
    (AgentNet.Initialize io k c v) (AgentRdt.Initialize io k c) (AgentRdt.Initialize io k c).
End AgentRun.
Arguments NodeAgent {Q} K C V.
