(* ===== verification/Fake.v ===== *)
(** * Concrete instances of the external libraries

    A sort, quantities with decimal and binary suffixes, annotations in a
    small text format, and an API server kept in memory.  They instantiate the
    parameters of the development in its witnesses. *)

From S2P Require Export Types.

(** ** Insertion sort *)

Section InsertionSort.
Context {A : Type} (less : A → A → bool).

Fixpoint ins (x : A) (l : list A) : list A :=
  match l with
  | [] => [x]
  | y :: l' => if less y x then y :: ins x l' else x :: l
  end.
Definition isort (l : list A) : list A := foldr ins [] l.

Lemma ins_perm x l : ins x l ≡ₚ x :: l.
Proof.
  induction l as [| y l IH]; simpl; [done |].
  destruct (less y x); [| done]. rewrite IH. apply Permutation_swap.
Qed.

Lemma isort_perm l : isort l ≡ₚ l.
Proof. induction l as [| x l IH]; simpl; [done |]. by rewrite ins_perm, IH. Qed.

Lemma ins_sorted x l :
  strict_weak less → Sorted (λ a b, less b a = false) l → Sorted (λ a b, less b a = false) (ins x l).
Proof.
  intros Hw Hs. induction Hs as [| y l Hs IH Hd]; simpl; [by repeat constructor |].
  destruct (less y x) eqn:E.
  - constructor; [done |]. destruct Hd as [| z l Hz]; simpl.
    + constructor. destruct (less x y) eqn:E'; [| done].
      destruct Hw as (Hi & Ht & _). rewrite <- (Hi x). symmetry. by apply (Ht _ y).
    + destruct (less z x); constructor; [done |].
      destruct (less x y) eqn:E'; [| done].
      destruct Hw as (Hi & Ht & _). rewrite <- (Hi x). symmetry. by apply (Ht _ y).
  - constructor; [by constructor |]. by constructor.
Qed.

Lemma isort_sorted l : strict_weak less → Sorted (λ a b, less b a = false) (isort l).
Proof.
  intros Hw. induction l as [| x l IH]; simpl; [constructor |]. by apply ins_sorted.
Qed.
End InsertionSort.

Definition sort_fake : GoSort :=
  {| go_sort := λ A, isort;
     go_sort_perm := λ A less l, isort_perm less l;
     go_sort_sorted := λ A less l, isort_sorted less l |}.

(** ** Quantities: digits and a suffix *)

Definition q_digit (a : ascii) : option Z :=
  let n := Z.of_nat (nat_of_ascii a) in
  if (48 <=? n) && (n <=? 57) then Some (n - 48) else None.
Definition q_suffix (s : string) : option Z :=
  if String.eqb s "" then Some 1
  else if String.eqb s "k" then Some 1000
  else if String.eqb s "M" then Some (1000 ^ 2)
  else if String.eqb s "G" then Some (1000 ^ 3)
  else if String.eqb s "Ki" then Some 1024
  else if String.eqb s "Mi" then Some (1024 ^ 2)
  else if String.eqb s "Gi" then Some (1024 ^ 3)
  else None.
Fixpoint q_parse (s : string) (acc : option Z) : option Z :=
  match s with
  | EmptyString => acc
  | String a r =>
      match q_digit a with
      | Some d => q_parse r (Some (10 * default 0 acc + d))
      | None =>
          match acc, q_suffix s with
          | Some v, Some m => Some (v * m)
          | _, _ => None
          end
      end
  end.
Definition q_cmp (a b : Z) : Z :=
  match a ?= b with Lt => -1 | Eq => 0 | Gt => 1 end.

Definition quantity_fake : QuantityLib :=
  {| quantity := Z; quantity0 := 0;
     ParseQuantity := λ s, match q_parse s None with
                           | Some v => inl v
                           | None => inr "quantities must match the regular expression"
                           end;
     Cmp := q_cmp; Equal := Z.eqb; AsInt64 := λ v, v; Value := λ v, v |}.

Lemma quantity_fake_laws : QuantityLaws quantity_fake.
Proof.
  split; simpl; unfold q_cmp; intros.
  - rewrite Z.eqb_eq. destruct (Z.compare_spec a b); lia.
  - destruct (a ?= b); lia.
  - rewrite (Z.compare_antisym a b). by destruct (a ?= b).
  - destruct (Z.compare_spec a b), (Z.compare_spec b c), (Z.compare_spec a c); lia.
Qed.

(** ** Annotations: the volume "data" reads and writes at the rate given *)

Definition json_fake : JsonLib :=
  {| unmarshal_block := λ s,
       if String.eqb s "{" then (∅, false)
       else ({["data" := mkVolAnno (mkBlockIOConfig s s) (mkBlockIOConfig s s)]}, true);
     unmarshal_net := λ s,
       if String.eqb s "{" then (mkNetAnno (mkNetIOConfig "" "") (mkNetIOConfig "" ""), false)
       else (mkNetAnno (mkNetIOConfig s s) (mkNetIOConfig s s), true);
     unmarshal_rdtq := λ s,
       if String.eqb s "{" then (mkRDTAnno (mkRDTRes "" "") (mkRDTRes "" "") "", false)
       else (mkRDTAnno (mkRDTRes s "10MBps") (mkRDTRes s "10MBps") "", true);
     marshal_alloc := λ _, inl "{}" |}.

Definition hash_fake : HashLib :=
  {| hash_rc := λ rc, Z.of_nat (size (Devices rc));
     hash_status := λ st, ObservedGeneration st |}.

(** ** An API server in memory *)

(** [f_faults] is the script of the write requests to come: a write takes its
    first entry, and fails with it. *)
Record Server := mkServer {
  f_pvcs : gmap string (PVC (H := quantity_fake));
  f_classes : gmap string string;
  f_maps : gmap string ConfigMap;
  f_namespaces : list string;
  f_pods : list Pod;
  f_nodes : list string;
  f_status : gmap string NodeIOStatus;
  f_faults : list (option kerr)
}.
Definition server_empty : Server := mkServer ∅ ∅ ∅ [] [] [] ∅ [].

Definition f_write (k : Server) (k' : Server) : Server * option kerr :=
  let rest := tail (f_faults k) in
  let put (k : Server) := mkServer (f_pvcs k) (f_classes k) (f_maps k) (f_namespaces k) (f_pods k)
                            (f_nodes k) (f_status k) rest in
  match f_faults k with
  | Some e :: _ => (put k, Some e)
  | _ => (put k', None)
  end.
Definition f_set_maps (m : gmap string ConfigMap) (k : Server) : Server :=
  mkServer (f_pvcs k) (f_classes k) m (f_namespaces k) (f_pods k) (f_nodes k) (f_status k)
    (f_faults k).
Definition f_set_status (m : gmap string NodeIOStatus) (k : Server) : Server :=
  mkServer (f_pvcs k) (f_classes k) (f_maps k) (f_namespaces k) (f_pods k) (f_nodes k) m
    (f_faults k).
Definition f_set_pods (l : list Pod) (k : Server) : Server :=
  mkServer (f_pvcs k) (f_classes k) (f_maps k) (f_namespaces k) l (f_nodes k) (f_status k)
    (f_faults k).
Definition set_faults (l : list (option kerr)) (k : Server) : Server :=
  mkServer (f_pvcs k) (f_classes k) (f_maps k) (f_namespaces k) (f_pods k) (f_nodes k) (f_status k) l.
Definition f_key (ns name : string) : string := ns +:+ "/" +:+ name.
Definition f_is (ns name : string) (p : Pod) : bool :=
  String.eqb (pod_Namespace p) ns && String.eqb (pod_Name p) name.
Definition f_find {A} (o : option A) (what : string) : A + kerr :=
  match o with Some a => inl a | None => inr (NotFound (what +:+ " not found")) end.

Definition kube_fake : KubeClient (H := quantity_fake) Server :=
  Build_KubeClient quantity_fake Server
    (λ k ns name, f_find (f_pvcs k !! f_key ns name) "claim")
    (λ k, inl (map_to_list (f_pvcs k)).*2)
    (λ k name, f_find (f_classes k !! name) "storage class")
    (λ k ns name, f_find (f_maps k !! f_key ns name) "config map")
    (λ k cm, f_write k (f_set_maps (<[f_key (cm_Namespace cm) (cm_Name cm) := cm]> (f_maps k)) k))
    (λ k cm, f_write k (f_set_maps (<[f_key (cm_Namespace cm) (cm_Name cm) := cm]> (f_maps k)) k))
    (λ k, inl (f_namespaces k))
    (λ k ns, inl (filter (λ p, pod_Namespace p = ns) (f_pods k)))
    (λ k ns name, f_find (head (List.filter (f_is ns name) (f_pods k))) "pod")
    (λ k ns name _ new, f_write k (f_set_pods
       (new :: List.filter (λ p, negb (f_is ns name p)) (f_pods k)) k))
    (λ k, inl (f_nodes k))
    (λ k name, f_find (f_status k !! name) "node status")
    (λ k name spec, f_write k (f_set_status
       (<[name := mkNIS spec (mkStatus 0 ∅)]> (f_status k)) k))
    (λ k name _ new, f_write k (f_set_status (<[name := new]> (f_status k)) k))
    (λ k name st, f_write k (f_set_status
       (<[name := mkNIS (match f_status k !! name with
                         | Some o => nis_Spec o
                         | None => mkSpec "" 0 ∅
                         end) st]> (f_status k)) k)).

(** Bring the instances into scope with [Import FakeInstances]. *)
Module FakeInstances.
#[export] Existing Instance sort_fake.
#[export] Existing Instance key_order.
#[export] Existing Instance quantity_fake.
#[export] Existing Instance json_fake.
#[export] Existing Instance hash_fake.
#[export] Existing Instance kube_fake.
#[export] Existing Instance quantity_fake_laws.
End FakeInstances.
