(* ===== verification/NodeFake.v ===== *)
(** * Concrete instances of what the aggregator and the agent call

    An annotation that always reads as one allocation, connections that are
    always made, an API server that keeps the nodes' objects in memory, an
    aggregator that takes every report, and messages to the I/O service in a
    small text format. *)

From S2P Require Export Aggregator AgentDisk Fake.

Definition alloc_fake (a : AllocatedIO) : AllocLib :=
  {| unmarshal_alloc := λ _, (a, true);
     range_alloc := λ V m, map_to_list m;
     range_alloc_perm := λ V m, Permutation_refl _ |}.
Definition grpc_fake : Grpc := {| Dial := λ _, None |}.

(** Profiles are compared by their names and sizes. *)
Definition same_disk `{Q : QuantityLib} (a b : ADiskInfo) : bool :=
  String.eqb (ad_Name a) (ad_Name b) && String.eqb (ad_Capacity a) (ad_Capacity b).
Definition same_profile `{Q : QuantityLib} (a b : gmap string ADiskInfo) : bool :=
  bool_decide (dom a = dom b) &&
  forallb (λ kv, match b !! kv.1 with Some i => same_disk kv.2 i | None => false end) (map_to_list a).
Definition agent_fake : AgentLib (Q := quantity_fake) :=
  {| marshal_cgroup := λ path ids, path +:+ " " +:+ str_join ";" ids;
     marshal_net_app := λ a, na_Group a +:+ " " +:+ NetNs a +:+ " " +:+ na_CgroupPath a +:+ " " +:+
       str_join ";" (map (λ kv, kv.1 +:+ "=" +:+ kv.2) (map_to_list (na_Devices a)));
     marshal_config := λ c, str_join ";" (map (λ g, ng_Id g +:+ "=" +:+ pretty (Pool g)) (ci_Groups c));
     unmarshal_settable := λ s, map (λ id, mkSettable id true) (str_split ";"%char s);
     marshal_host := λ ip, ip;
     unmarshal_nic := λ s, inl (mkANic s s "" "" (of_Z 1000) fzero fzero 10 false);
     DeepEqual_nics := λ a b, bool_decide (dom a = dom b);
     marshal_interval := pretty;
     DeepEqual_profile := same_profile;
     hash_states := λ m, Z.of_nat (size m) |}.

Definition Objects : Type := gmap string NodeStaticIOInfo.
Definition static_fake : StaticClient Objects :=
  {| static_get := λ k name, match k !! name with
                             | Some o => inl o
                             | None => inr (NotFound "node not found")
                             end;
     static_create := λ k name o, (<[name := o]> k, None);
     static_update := λ k name o, (<[name := o]> k, None);
     static_update_status := λ k name o, (<[name := o]> k, None) |}.
(** The same server, which shows an object once it has device states. *)
Definition static_served : StaticClient Objects :=
  {| static_get := λ k name, match k !! name with
                             | Some o => if bool_decide (DeviceStates o = ∅)
                                         then inr (NotFound "node not found") else inl o
                             | None => inr (NotFound "node not found")
                             end;
     static_create := λ k name o, (<[name := o]> k, None);
     static_update := λ k name o, (<[name := o]> k, None);
     static_update_status := λ k name o, (<[name := o]> k, None) |}.
(** The reports received, latest last. *)
Definition aggr_client_fake : AggrClient (list UpdateNodeIOStatusRequest) :=
  {| rpc_UpdateNodeIOStatus := λ l req, (l ++ [req], None) |}.

(** Bring these instances into scope with [Import NodeInstances]. *)
Module NodeInstances.
#[export] Existing Instance agent_fake.
#[export] Existing Instance static_served.
#[export] Existing Instance aggr_client_fake.
End NodeInstances.
