(* ===== verification/ServiceFake.v ===== *)
(** * Concrete instances of what the I/O service uses

    Files, directories and commands kept in memory, a store that always
    succeeds, and a text encoding in the place of JSON. *)

From S2P Require Export DiskService NodeFake.

(** ** Files *)

Record Disk0 := mkFiles {
  fs_files : gmap string string;
  fs_dirs : gmap string (list (string * bool));
  fs_commands : gmap string string
}.
Definition write_fake (f : Disk0) (p t : string) : Disk0 * option error :=
  match fs_files f !! p with
  | Some _ => (mkFiles (<[p := t]> (fs_files f)) (fs_dirs f) (fs_commands f), None)
  | None => (f, Some "no such file")
  end.
Definition or_error {A} (o : option A) : A + error :=
  match o with Some a => inl a | None => inr "not found" end.
Definition files_fake : Files Disk0 :=
  {| ReadFile := λ f p, or_error (fs_files f !! p);
     Stat := λ f p, match fs_files f !! p, fs_dirs f !! p with
                    | None, None => Absent
                    | _, _ => Present
                    end;
     Readlink := λ _ _, false;
     ReadDir := λ f p, or_error (fs_dirs f !! p);
     WriteFile := write_fake;
     Rewrite := write_fake;
     RunBash := λ f c, or_error (fs_commands f !! c) |}.

(** ** The store *)

Record Bolt := mkBolt { bolt_buckets : gset (list string); bolt_pairs : gmap (list string) (gmap string string) }.
Definition pairs_at (d : Bolt) (p : list string) : gmap string string := default ∅ (bolt_pairs d !! p).
Definition bolt_fake : BoltDB Bolt :=
  {| has_bucket := λ d p, bool_decide (p ∈ bolt_buckets d);
     CreateBucketIfNotExists := λ d p, inl (mkBolt ({[p]} ∪ bolt_buckets d) (bolt_pairs d));
     bucket_Put := λ d p k v, inl (mkBolt (bolt_buckets d) (<[p := <[k := v]> (pairs_at d p)]> (bolt_pairs d)));
     bucket_Delete := λ d p k, inl (mkBolt (bolt_buckets d) (<[p := delete k (pairs_at d p)]> (bolt_pairs d)));
     bucket_pairs := pairs_at |}.
Lemma pairs_at_insert d b p q m :
  pairs_at (mkBolt b (<[p := m]> (bolt_pairs d))) q = if decide (q = p) then m else pairs_at d q.
Proof.
  unfold pairs_at. simpl. case_decide as Hq.
  - subst q. by rewrite lookup_insert_eq.
  - by rewrite lookup_insert_ne by congruence.
Qed.
Lemma bolt_fake_laws : BoltLaws Bolt (BoltDB0 := bolt_fake).
Proof.
  split.
  - intros d p d' q [= <-]. simpl. rewrite <- bool_decide_or. apply bool_decide_ext. set_solver.
  - by intros d p d' q [= <-].
  - by intros d p k v d' q [= <-].
  - intros d p k v d' q [= <-]. apply pairs_at_insert.
  - by intros d p k d' q [= <-].
  - intros d p k d' q [= <-]. apply pairs_at_insert.
Qed.

(** ** Values as text *)

Fixpoint bits (p : positive) : string :=
  match p with
  | xH => EmptyString
  | xO p => String "0" (bits p)
  | xI p => String "1" (bits p)
  end.
Fixpoint unbits (s : string) : positive :=
  match s with
  | EmptyString => xH
  | String a s => if Ascii.eqb a "1" then xI (unbits s) else xO (unbits s)
  end.
Lemma unbits_bits p : unbits (bits p) = p.
Proof. induction p as [p IH | p IH |]; simpl; congruence. Qed.

Definition to_text {A} `{Countable A} (a : A) : string := String "=" (bits (encode a)).
Definition of_text {A} `{Countable A} (s : string) : A + error :=
  match s with
  | String "=" s => or_error (decode (unbits s))
  | _ => inr "not a value"
  end.
Lemma of_to_text {A} `{Countable A} (a : A) : of_text (to_text a) = inl a.
Proof. unfold of_text, to_text. by rewrite unbits_bits, decode_encode. Qed.

(** Records as trees of texts and numbers. *)
Definition tree : Type := gen_tree (string + Z).
Definition txt (s : string) : tree := GenLeaf (inl s).
Definition num (z : Z) : tree := GenLeaf (inr z).
Definition bit (b : bool) : tree := num (if b then 1 else 0).
Definition seq_tree {A} (f : A → tree) (l : list A) : tree := GenNode 0 (f <$> l).
Definition un_txt (t : tree) : string := match t with GenLeaf (inl s) => s | _ => EmptyString end.
Definition un_num (t : tree) : Z := match t with GenLeaf (inr z) => z | _ => 0 end.
Definition un_bit (t : tree) : bool := un_num t =? 1.
Definition un_seq {A} (f : tree → A) (t : tree) : list A := match t with GenNode _ l => f <$> l | GenLeaf _ => [] end.
Lemma un_seq_tree {A} (f : A → tree) g (l : list A) : (∀ a, g (f a) = a) → un_seq g (seq_tree f l) = l.
Proof.
  intros Hg. simpl. rewrite <- list_fmap_compose. etrans; [| apply list_fmap_id]. apply list_fmap_ext. intros _ a _. apply Hg.
Qed.
Lemma un_bit_bit b : un_bit (bit b) = b.
Proof. by destruct b. Qed.

Definition app_tuple (a : AppInfo) : string * string * list string :=
  (ai_AppName a, ai_CgroupPath a, ai_DeviceMM a).
(** Cgroups as the agent's registration message has them (NodeFake.v). *)
Definition disk_json_fake : DiskJson :=
  {| marshal_app := λ a, to_text (app_tuple a);
     unmarshal_app := λ s, match of_text s with
                           | inl (n, p, d) => inl (mkApp n p d)
                           | inr e => inr e
                           end;
     unmarshal_cgroup := λ s, match str_split " "%char s with
                              | [path; devices] => inl (path, str_split ";"%char devices)
                              | _ => inr "not a cgroup"
                              end;
     marshal_interval_info := to_text;
     unmarshal_interval := of_text |}.
Definition float_text_fake : FloatText :=
  {| FormatFloat := λ x, pretty (to_int64 x);
     ParseFloat_32 := λ s, match ParseInt s 64 with inl v => (of_Z v, None) | inr e => (fzero, Some e) end |}.
Definition disk_lib_fake : DiskLib Disk0 :=
  {| hash_info := λ i, Zpos (encode (in_Cgroup i, in_Operation i, in_Slot i, in_Dev i));
     cgroup_id := λ f p, match fs_dirs f !! p with Some _ => Some (Zpos (encode p)) | None => None end |}.

(** Bring these instances into scope with [Import ServiceInstances]. *)
Module ServiceInstances.
#[export] Existing Instance files_fake.
#[export] Existing Instance bolt_fake.
#[export] Existing Instance bolt_fake_laws.
#[export] Existing Instance disk_json_fake.
#[export] Existing Instance float_text_fake.
#[export] Existing Instance disk_lib_fake.
End ServiceInstances.
