(* ===== verification/HandleFacts.v ===== *)
(** * Facts about the handles: the lock of the shared context

    The event handlers hold the context's mutex while they call the handles.
    [LockNeutral] states what they rely on; the four handles satisfy it. *)

From S2P Require Import BinPack.
From S2P Require Export Handle.

(** The computation does not wait for the lock. *)
Abbreviation no_wait o := (spares (λ _, True) o).

Section Neutral.
Context `{Q : QuantityLib} {K : Type}.

(** The operation leaves the lock as it finds it, held or free, and never
    waits for it. *)
Definition lock_neutral {A} (m : GoM (HS K) A) : Prop :=
  ∀ s, spares (λ r, locked (hs_ctx r.2) = locked (hs_ctx s)) (m s).
End Neutral.

Section Class.
Context `{Q : QuantityLib} `{!GoRange} {K : Type} `{!KubeClient K}.

Class LockNeutral (h : CacheHandle K) : Prop := {
  neutral_AddCacheNodeInfo n rc : lock_neutral (AddCacheNodeInfo h n rc);
  neutral_UpdateDeviceNodeInfo n o rc : lock_neutral (UpdateDeviceNodeInfo h n o rc);
  neutral_InitNodeStatus n rc : lock_neutral (InitNodeStatus h n rc);
  neutral_DeleteCacheNodeInfo n : lock_neutral (DeleteCacheNodeInfo h n);
  neutral_UpdateCacheNodeStatus n st : lock_neutral (UpdateCacheNodeStatus h n st);
  neutral_PrintCacheInfo : lock_neutral (PrintCacheInfo h);
  neutral_InitBENum n rc : lock_neutral (InitBENum h n rc);
  neutral_UpdatePVC p n d z b : lock_neutral (UpdatePVC h p n d z b);
  no_wait_GetRequestByAnnotation s p n b : no_wait (GetRequestByAnnotation h s p n b);
  (** without a client, RemovePod takes the lock and gives it back *)
  free_RemovePod p n s : locked (hs_ctx s) = false →
    spares (λ r, locked (hs_ctx r.2) = false) (RemovePod h p n false s)
}.
End Class.

Section Handles.
Context `{Q : QuantityLib} `{!JsonLib} `{!GoRange, !GoSort} {K : Type} `{!KubeClient K}.
Implicit Types s : HS K.

Lemma neutral_print : lock_neutral (K := K) print_cache.
Proof.
  intros s. unfold print_cache, Cache.PrintCacheInfo.
  eapply spares_bind; [apply (spares_foldM (λ _, True)); [done |] | done].
  intros [] [k r] _. destruct r; simpl; spare; done.
Qed.
Lemma spares_print s : spares (λ r, locked (hs_ctx r.2) = locked (hs_ctx s)) (print_cache s).
Proof. apply neutral_print. Qed.
#[local] Hint Resolve spares_print : ioi.

Lemma no_wait_MustParse q : no_wait (MustParse q).
Proof. unfold MustParse. spare; done. Qed.
Lemma no_wait_parseQuantity q : no_wait (BlockIO.parseQuantity q).
Proof. unfold BlockIO.parseQuantity. destruct (String.eqb _ _); apply no_wait_MustParse. Qed.
Lemma no_wait_ratio bs l : no_wait (FindMappingRatio bs l).
Proof.
  unfold FindMappingRatio. spare; try done. eapply spares_bind; [apply no_wait_MustParse |]. done.
Qed.
#[local] Hint Resolve no_wait_MustParse no_wait_parseQuantity no_wait_ratio : ioi.

(** A loop whose body neither waits nor depends on the lock. *)
Lemma no_wait_foldM {A B} (f : B → A → outcome B) acc l :
  (∀ b x, no_wait (f b x)) → no_wait (foldM f acc l).
Proof. intros Hf. by apply (spares_foldM (λ _, True)). Qed.

Lemma no_wait_for_range {A B R} (l : list A) (acc : B) (body : B → A → outcome (ctrl B R)) :
  (∀ b x, no_wait (body b x)) → no_wait (for_range l acc body).
Proof.
  intros Hf. eapply spares_weaken; [| apply (spares_for_range (λ _, True) (λ _, True)); [done |]].
  - done.
  - intros b x _. eapply spares_weaken; [| apply Hf]. by intros [].
Qed.

(** [neutral]: [spare], with the loops whose bodies do not touch the lock and
    the calls to print_cache. *)
Ltac neutral :=
  repeat (spare; try done; try (simpl in *; congruence);
    lazymatch goal with
    | |- spares _ (obind (foldM _ _ _) _) =>
        eapply (spares_bind (λ _, True)); [apply no_wait_foldM | intros ? _]
    | |- spares _ (foldM _ _ _) => apply no_wait_foldM
    | |- spares _ (obind (for_range _ _ _) _) =>
        eapply (spares_bind (λ _, True)); [apply no_wait_for_range | intros ? _]
    | |- spares _ (for_range _ _ _) => apply no_wait_for_range
    | |- spares _ (obind (print_cache _) _) => eapply spares_bind; [apply spares_print |]
    | |- spares _ (print_cache _) => eapply spares_weaken; [| apply spares_print]
    | |- spares _ (obind _ _) => eapply (spares_bind (λ _, True)); [solve [auto with ioi] |]
    | |- spares _ (if ?b then _ else _) => destruct b
    | |- _ => try solve [auto with ioi]
    end).

Lemma no_wait_update_disks pl f rc n : no_wait (BlockIO.update_disks pl f rc n).
Proof. unfold BlockIO.update_disks. neutral. Qed.
#[local] Hint Resolve no_wait_update_disks : ioi.
Lemma neutral_update_node n f rc : lock_neutral (K := K) (BlockIO.update_node n f rc).
Proof. intros s. unfold BlockIO.update_node. neutral. Qed.

Lemma getDeviceUsage_locked (k : K) c n : locked (BlockIO.getDeviceUsage k c n).1 = locked c.
Proof.
  unfold BlockIO.getDeviceUsage. repeat case_match; done.
Qed.

Lemma neutral_block_AddCacheNodeInfo n rc : lock_neutral (K := K) (BlockIO.AddCacheNodeInfo n rc).
Proof.
  intros s. unfold BlockIO.AddCacheNodeInfo.
  pose proof (getDeviceUsage_locked (hs_kube s) (hs_ctx s) n) as Hl.
  destruct (BlockIO.getDeviceUsage _ _ _) as [c usage]. simpl in Hl. unfold BlockIO.new_disk. neutral.
Qed.

Lemma neutral_block_UpdateDevice n o rc : lock_neutral (K := K) (BlockIO.UpdateDeviceNodeInfo n o rc).
Proof. intros s. unfold BlockIO.UpdateDeviceNodeInfo, BlockIO.added_disk. neutral. Qed.

Lemma neutral_block_UpdateStatus n st : lock_neutral (K := K) (BlockIO.UpdateCacheNodeStatus n st).
Proof. intros s. unfold BlockIO.UpdateCacheNodeStatus, BlockIO.report_disks. neutral. Qed.

Lemma neutral_block_UpdatePVC p n d z b : lock_neutral (K := K) (BlockIO.UpdatePVC p n d z b).
Proof.
  intros s. unfold BlockIO.UpdatePVC. neutral. simpl in *. repeat case_match; by simplify_eq/=.
Qed.

(** Requests from annotations, at start-up and at admission. *)
Lemma no_wait_div64 a b : no_wait (div64 a b).
Proof. unfold div64. neutral. Qed.
#[local] Hint Resolve no_wait_div64 : ioi.
Lemma no_wait_ioi_claim (k : K) p ns : no_wait (ioi_claim k p ns).
Proof. unfold ioi_claim, IsIOIProvisioner. neutral. Qed.
Lemma no_wait_getDeviceRequest r d a : no_wait (BlockIO.getDeviceRequest r d a).
Proof. unfold BlockIO.getDeviceRequest, BlockIO.parse_bw. neutral. Qed.
Lemma no_wait_addPodRequest m r : no_wait (BlockIO.addPodRequest m r).
Proof. unfold BlockIO.addPodRequest, BlockIO.add_request, BlockIO.merge_GA. neutral. Qed.
#[local] Hint Resolve no_wait_ioi_claim no_wait_getDeviceRequest no_wait_addPodRequest : ioi.
Lemma no_wait_AddVol pd v d : no_wait (AddVol pd v d).
Proof. unfold AddVol, canFit, pack. neutral. Qed.
#[local] Hint Resolve no_wait_AddVol : ioi.
Lemma no_wait_place d devs ds v : no_wait (place d devs ds v).
Proof. revert ds v. induction devs; intros; simpl; neutral; auto. Qed.
#[local] Hint Resolve no_wait_place : ioi.
Lemma no_wait_pack_vols d devs vols ds acc : no_wait (pack_vols d devs vols ds acc).
Proof. revert ds acc. induction vols; intros; simpl; neutral; auto. Qed.
#[local] Hint Resolve no_wait_pack_vols : ioi.
Lemma no_wait_Pack sl d v : no_wait (Pack sl d v).
Proof. unfold Pack, sort_devs. neutral. Qed.
#[local] Hint Resolve no_wait_Pack : ioi.
Lemma no_wait_dev_quantity r : no_wait (dev_quantity r).
Proof. unfold dev_quantity. neutral. apply spares_deref. Qed.
Lemma no_wait_emptydir p a dev d : no_wait (BlockIO.emptydir_requests p a dev d).
Proof.
  unfold BlockIO.emptydir_requests, BlockIO.parsePVIOAnnotations.
  apply no_wait_foldM. intros [m has] vol. neutral.
Qed.
#[local] Hint Resolve no_wait_dev_quantity no_wait_emptydir : ioi.
Lemma no_wait_block_requests s p n b : no_wait (BlockIO.GetRequestByAnnotation s p n b).
Proof.
  unfold BlockIO.GetRequestByAnnotation, BlockIO.getDiskFromContext,
    BlockIO.getBoundedPVCInfo, BlockIO.getBoundedTotalRequests, BlockIO.getRestDisksStatus,
    BlockIO.getRestVolumes, BlockIO.getVolumeRequestFromAnno, BlockIO.parsePVIOAnnotations,
    BlockIO.rest_disk.
  neutral.
Qed.

(** The network, RDT and RDT-quantity plugins. *)
Lemma no_wait_update_nics pl f rc n : no_wait (NetworkIO.update_nics pl f rc n).
Proof. unfold NetworkIO.update_nics. neutral. Qed.
#[local] Hint Resolve no_wait_update_nics : ioi.
Lemma neutral_net_update_node n f rc : lock_neutral (K := K) (NetworkIO.update_node n f rc).
Proof. intros s. unfold NetworkIO.update_node. neutral. Qed.
Lemma neutral_net_AddCacheNodeInfo n rc : lock_neutral (K := K) (NetworkIO.AddCacheNodeInfo n rc).
Proof. intros s. unfold NetworkIO.AddCacheNodeInfo. neutral. Qed.
Lemma neutral_net_UpdateStatus n st : lock_neutral (K := K) (NetworkIO.UpdateCacheNodeStatus n st).
Proof. intros s. unfold NetworkIO.UpdateCacheNodeStatus, NetworkIO.report_nics. neutral. Qed.
Lemma no_wait_net_requests s p n b : no_wait (NetworkIO.GetRequestByAnnotation s p n b).
Proof. unfold NetworkIO.GetRequestByAnnotation, NetworkIO.parsePodNetworkIOAnnotations. neutral. Qed.

Lemma neutral_rdt_InitNodeStatus n rc : lock_neutral (K := K) (RDT.InitNodeStatus n rc).
Proof. intros s. unfold RDT.InitNodeStatus. neutral. Qed.
Lemma neutral_rdt_AddCacheNodeInfo n rc : lock_neutral (K := K) (RDT.AddCacheNodeInfo n rc).
Proof. intros s. unfold RDT.AddCacheNodeInfo. neutral. Qed.
Lemma neutral_rdt_UpdateStatus n st : lock_neutral (K := K) (RDT.UpdateCacheNodeStatus n st).
Proof.
  intros s. unfold RDT.UpdateCacheNodeStatus, RDT.report_classes. neutral; repeat case_match; by simplify_eq/=.
Qed.

Lemma no_wait_inbps q : no_wait (RDTQuantity.inbps q).
Proof. unfold RDTQuantity.inbps. neutral. Qed.
#[local] Hint Resolve no_wait_inbps : ioi.
Lemma no_wait_same_class d c : no_wait (RDTQuantity.same_class d c).
Proof. unfold RDTQuantity.same_class, RDTQuantity.eq_or_stop. neutral. Qed.
#[local] Hint Resolve no_wait_same_class : ioi.
Lemma no_wait_charge_class u d m : no_wait (RDTQuantity.charge_class u d m).
Proof. unfold RDTQuantity.charge_class, RDTQuantity.on_BE. neutral. Qed.
Lemma no_wait_quantity_requests pl : no_wait (RDTQuantity.quantity_requests pl).
Proof. unfold RDTQuantity.quantity_requests, RDTQuantity.last_request. neutral. Qed.
#[local] Hint Resolve no_wait_charge_class no_wait_quantity_requests : ioi.
Lemma neutral_rdtq_InitNodeStatus n rc : lock_neutral (K := K) (RDTQuantity.InitNodeStatus n rc).
Proof. intros s. unfold RDTQuantity.InitNodeStatus. neutral. Qed.
Lemma neutral_rdtq_AddCacheNodeInfo n rc : lock_neutral (K := K) (RDTQuantity.AddCacheNodeInfo n rc).
Proof. intros s. unfold RDTQuantity.AddCacheNodeInfo. neutral. Qed.
Lemma neutral_rdtq_UpdateStatus n st : lock_neutral (K := K) (RDTQuantity.UpdateCacheNodeStatus n st).
Proof. intros s. unfold RDTQuantity.UpdateCacheNodeStatus. neutral. Qed.
Lemma no_wait_rdtq_requests s p n b : no_wait (RDTQuantity.GetRequestByAnnotation s p n b).
Proof. unfold RDTQuantity.GetRequestByAnnotation. neutral. Qed.

Lemma neutral_ret {A} (a : A) : lock_neutral (K := K) (retM a).
Proof. by intros s. Qed.
Lemma neutral_delete n :
  lock_neutral (K := K) (λ s, Ok (None : option error, set_cache (DeleteExtendedResource (hs_cache s) n) s)).
Proof. by intros s. Qed.

(** RemovePod without a client. *)
Abbreviation unlocked r := (locked (hs_ctx r.2) = false).

Lemma free_block_RemovePod entry r p s :
  locked (hs_ctx s) = false → spares (λ r, unlocked r) (BlockIO.res_RemovePod entry r p false s).
Proof.
  intros Hl. unfold BlockIO.res_RemovePod, ctx_Lock. rewrite Hl.
  unfold BlockIO.give_devices, BlockIO.give_step, BlockIO.give_device. neutral.
Qed.
Lemma free_net_RemovePod entry r p s :
  locked (hs_ctx s) = false → spares (λ r, unlocked r) (NetworkIO.res_RemovePod entry r p false s).
Proof.
  intros Hl. unfold NetworkIO.res_RemovePod, ctx_Lock. rewrite Hl.
  unfold NetworkIO.give_nic. neutral.
Qed.
Lemma no_wait_release_class u l m : no_wait (RDTQuantity.release_class u l m).
Proof. revert m. induction l; intros; simpl; unfold RDTQuantity.on_BE; neutral; auto. Qed.
#[local] Hint Resolve no_wait_release_class : ioi.
Lemma free_rdtq_RemovePod entry r p s :
  locked (hs_ctx s) = false → spares (λ r, unlocked r) (RDTQuantity.res_RemovePod entry r p false s).
Proof. intros Hl. unfold RDTQuantity.res_RemovePod. neutral; by case_match. Qed.

Lemma free_base_RemovePod p n s :
  locked (hs_ctx s) = false → spares (λ r, unlocked r) (base_RemovePod (K := K) p n false s).
Proof.
  intros Hl. unfold base_RemovePod, res_RemovePod.
  eapply (spares_bind (λ r, unlocked r)).
  - repeat case_match; auto using free_block_RemovePod, free_net_RemovePod, free_rdtq_RemovePod.
  - intros [err s1] Hs1. neutral.
Qed.

#[export] Instance BlockIO_neutral : LockNeutral (K := K) BlockIOHandle.
Proof.
  split; intros; simpl;
    first [ apply free_base_RemovePod; assumption | apply neutral_block_AddCacheNodeInfo | apply neutral_block_UpdateDevice | apply
          neutral_block_UpdateStatus | apply neutral_block_UpdatePVC | apply neutral_print |
          apply no_wait_block_requests | apply neutral_delete | apply neutral_update_node ].
Qed.
#[export] Instance NetworkIO_neutral : LockNeutral (K := K) NetworkIOHandle.
Proof.
  split; intros; simpl;
    first [ apply free_base_RemovePod; assumption | apply neutral_net_AddCacheNodeInfo | apply neutral_net_UpdateStatus | apply
          neutral_print | apply no_wait_net_requests | apply neutral_delete | apply
          neutral_ret | apply neutral_net_update_node ].
Qed.
#[export] Instance RDT_neutral : LockNeutral (K := K) RDTHandle.
Proof.
  split; intros; simpl;
    first [ apply free_base_RemovePod; assumption | apply neutral_rdt_AddCacheNodeInfo | apply neutral_rdt_UpdateStatus | apply
          neutral_print | apply neutral_delete | apply neutral_ret | apply
          neutral_rdt_InitNodeStatus | done ].
Qed.
#[export] Instance RDTQuantity_neutral : LockNeutral (K := K) RDTQuantityHandle.
Proof.
  split; intros;
    first [ apply free_base_RemovePod; assumption | apply neutral_rdtq_AddCacheNodeInfo | apply neutral_rdtq_UpdateStatus | apply
          neutral_print | apply neutral_delete | apply neutral_ret | apply
          neutral_rdtq_InitNodeStatus | apply (no_wait_rdtq_requests s p n b) | done ].
Qed.
End Handles.
