(* ===== verification/UtilsFacts.v ===== *)
(** * Facts about Utils: ratio tables, retries, word lists *)

From S2P Require Export Text.
From S2P Require Import Fake.

(** ** Quantity order *)

Section Order.
Context `{Q : QuantityLib} `{!QuantityLaws Q}.

Lemma Cmp_refl a : Cmp a a = 0.
Proof. pose proof (Cmp_antisym a a). lia. Qed.

Lemma Cmp_lt a b : Cmp a b = -1 ↔ Cmp a b < 0.
Proof. destruct (Cmp_range a b) as [-> | [-> | ->]]; lia. Qed.

Lemma Cmp_total a b : Cmp a b ≤ 0 ∨ Cmp b a ≤ 0.
Proof. rewrite (Cmp_antisym a b). lia. Qed.

Lemma Cmp_ge a b : ¬ Cmp a b < 0 → Cmp b a ≤ 0.
Proof. rewrite (Cmp_antisym a b). lia. Qed.

Lemma Cmp_lt_trans a b c : Cmp a b < 0 → Cmp b c ≤ 0 → Cmp a c < 0.
Proof.
  intros H1 H2. assert (H3 : Cmp a c ≤ 0) by (apply (Cmp_trans a b c); lia).
  destruct (decide (Cmp a c = 0)) as [E |]; [| lia]. exfalso.
  assert (H4 : Cmp b a ≤ 0) by (apply (Cmp_trans b c a); [done | rewrite (Cmp_antisym a c); lia]).
  rewrite (Cmp_antisym a b) in H4. lia.
Qed.

(** The order in which ParseMappingRatio sorts. *)
Definition bs_less (a b : MappingRatio) : bool := Cmp (BlockSize a) (BlockSize b) =? -1.
Definition bs_le (a b : MappingRatio) : Prop := Cmp (BlockSize a) (BlockSize b) ≤ 0.

Lemma bs_less_false a b : bs_less b a = false ↔ bs_le a b.
Proof.
  unfold bs_less, bs_le. rewrite Z.eqb_neq, Cmp_lt, (Cmp_antisym (BlockSize a)). lia.
Qed.

#[export] Instance bs_le_trans : Transitive bs_le.
Proof. intros a b c. apply Cmp_trans. Qed.

Lemma bs_less_weak : strict_weak bs_less.
Proof.
  split; [| split].
  - intros x. apply bs_less_false. unfold bs_le. rewrite Cmp_refl. lia.
  - intros x y z. unfold bs_less. rewrite !Z.eqb_eq, !Cmp_lt. intros ??.
    apply (Cmp_lt_trans _ (BlockSize y)); lia.
  - intros x y z. rewrite !bs_less_false. intros ????.
    split; etransitivity; eassumption.
Qed.

(** The entry a block size is mapped to: the largest one not above it, or
    the smallest entry when all are above. *)
Definition floor_entry (bs : quantity) (l : list MappingRatio) (r : MappingRatio) : Prop :=
  r ∈ l ∧
  ((Cmp (BlockSize r) bs ≤ 0 ∧ ∀ r', r' ∈ l → Cmp (BlockSize r') bs ≤ 0 → bs_le r' r) ∨
   ((∀ r', r' ∈ l → Cmp bs (BlockSize r') < 0) ∧ ∀ r', r' ∈ l → bs_le r r')).

Lemma floor_entry_perm bs l l' r : l ≡ₚ l' → floor_entry bs l r → floor_entry bs l' r.
Proof. unfold floor_entry. intros Hp. by setoid_rewrite Hp. Qed.

Lemma sorted_last l p x : StronglySorted bs_le l → last l = Some p → x ∈ l → bs_le x p.
Proof.
  intros Hs Hl. apply last_Some in Hl as [l' ->].
  apply StronglySorted_app in Hs as (Hx & _ & _).
  rewrite elem_of_app, list_elem_of_singleton. intros [Hin | ->].
  - apply Hx; [done | by left].
  - unfold bs_le. rewrite Cmp_refl. lia.
Qed.

(** The loop of FindMappingRatio, after the entries [pre] below [bs]. *)
Lemma find_ratio_spec bs pre l :
  StronglySorted bs_le (pre ++ l) →
  (∀ x, x ∈ pre → Cmp (BlockSize x) bs < 0) →
  match find_ratio bs (last pre) l with
  | Some r => floor_entry bs (pre ++ l) r
  | None => ∀ x, x ∈ pre ++ l → Cmp (BlockSize x) bs < 0
  end.
Proof.
  revert pre. induction l as [| r l IH]; intros pre Hs Hpre; simpl.
  { by rewrite app_nil_r. }
  pose proof Hs as (Hx & Hsp & Hsl)%StronglySorted_app.
  apply StronglySorted_inv in Hsl as (_ & Hr). rewrite Forall_forall in Hr.
  destruct (Equal bs (BlockSize r)) eqn:E.
  { apply Equal_Cmp in E. assert (Cmp (BlockSize r) bs = 0) by (rewrite (Cmp_antisym bs); lia).
    split; [set_solver |]. left. split; [lia |]. intros r' _ Hr'. unfold bs_le.
    apply (Cmp_trans _ bs); lia. }
  destruct (Z.eqb_spec (Cmp bs (BlockSize r)) (-1)) as [E' | E'].
  - apply Cmp_lt in E'. assert (Hgt : ∀ x, x ∈ r :: l → Cmp bs (BlockSize x) < 0).
    { intros x [-> | Hin]%elem_of_cons; [done |].
      apply (Cmp_lt_trans _ (BlockSize r)); [done |]. by apply Hr. }
    destruct (last pre) as [p |] eqn:El.
    + apply last_Some in El as Hp. destruct Hp as [pre' ->].
      split; [set_solver |]. left. split; [apply Z.lt_le_incl, Hpre; set_solver |].
      intros r' [Hin | Hin]%elem_of_app Hr'; [by apply (sorted_last (pre' ++ [p])) |].
      specialize (Hgt r' Hin). rewrite (Cmp_antisym (BlockSize r') bs) in Hgt. lia.
    + apply last_None in El as ->. split; [set_solver |]. right. split; [done |].
      intros r' [-> | Hin]%elem_of_cons; [unfold bs_le; rewrite Cmp_refl; lia |].
      by apply Hr.
  - specialize (IH (pre ++ [r])). rewrite <- app_assoc, last_snoc in IH. apply IH; [done |].
    intros x [Hin | ->%list_elem_of_singleton]%elem_of_app; [by apply Hpre |].
    assert (Hne : Cmp bs (BlockSize r) ≠ 0) by (intros Hz; apply Equal_Cmp in Hz; congruence).
    rewrite (Cmp_antisym bs). destruct (Cmp_range bs (BlockSize r)) as [|[|]]; lia.
Qed.

Lemma FindMappingRatio_floor bs l :
  Sorted (λ x y, bs_less y x = false) l → l ≠ [] →
  ∃ r, floor_entry bs l r ∧ FindMappingRatio bs l = Ok (BlockSize r, Ratio r).
Proof.
  intros Hs Hne.
  assert (Hss : StronglySorted bs_le l).
  { apply Sorted_StronglySorted; [apply _ |].
    induction Hs as [| x l' _ IH Hd]; constructor.
    - destruct l'; [constructor | by apply IH].
    - destruct Hd; constructor. by apply bs_less_false. }
  pose proof (find_ratio_spec bs [] l Hss ltac:(set_solver)) as Hf.
  unfold FindMappingRatio. simpl in Hf. destruct (find_ratio bs None l) as [r |]; [by exists r |].
  destruct (last l) as [r |] eqn:El; [| by apply last_None in El]. exists r. split; [| done].
  assert (Hin : r ∈ l) by (apply last_Some in El as [? ->]; set_solver).
  split; [done |]. left. split; [apply Z.lt_le_incl; by apply Hf |].
  intros r' Hr' _. by eapply sorted_last.
Qed.

Context `{!GoRange, !GoSort}.

Lemma ParseMappingRatio_elem m r :
  r ∈ ParseMappingRatio m ↔ ∃ k x, m !! k = Some x ∧ ratio_of (k, x) = Some r.
Proof.
  unfold ParseMappingRatio. rewrite go_sort_perm, list_elem_of_omap. split.
  - intros ([k x] & Hin & Hr). exists k, x. by rewrite elem_of_range in Hin.
  - intros (k & x & Hin & Hr). exists (k, x). by rewrite elem_of_range.
Qed.

Lemma ParseMappingRatio_sorted m :
  Sorted (λ x y, bs_less y x = false) (ParseMappingRatio m).
Proof. apply go_sort_sorted, bs_less_weak. Qed.
End Order.
#[export] Hint Resolve ParseMappingRatio_sorted : ioi.

Section RatioTable.
Context `{Q : QuantityLib} `{!QuantityLaws Q} `{!GoRange, !GoSort}.

(** A usable entry of a device's ratio table: its block size parses, and its
    ratio is above zero. *)
Definition usable (m : gmap string f64) (r : MappingRatio) : Prop :=
  ∃ k, m !! k = Some (Ratio r) ∧ ParseQuantity k = inl (BlockSize r) ∧ fle (Ratio r) fzero = false.

Lemma usable_elem m r : usable m r ↔ r ∈ ParseMappingRatio m.
Proof.
  rewrite ParseMappingRatio_elem. unfold usable, ratio_of. simpl. split.
  - intros (k & Hk & Hp & Hr). exists k, (Ratio r). split; [done |]. rewrite Hp, Hr. by destruct r.
  - intros (k & x & Hk & Hr). exists k. destruct (ParseQuantity k); [| done].
    destruct (fle x fzero) eqn:E; simplify_eq. done.
Qed.

(** The mapping ratio of a request's block size is looked up in the
    device's table as configured, in whatever order the table is ranged
    over: entries that do not parse or are not positive are dropped, and of
    the others the one with the largest block size not above the requested
    one is used, or the one with the smallest block size when all are above. *)
Theorem mapping_ratio_floor (m : gmap string f64) (bs : quantity) :
  (∃ r, usable m r) →
  ∃ r, usable m r ∧ FindMappingRatio bs (ParseMappingRatio m) = Ok (BlockSize r, Ratio r) ∧
       ((Cmp (BlockSize r) bs ≤ 0 ∧
         ∀ r', usable m r' → Cmp (BlockSize r') bs ≤ 0 → Cmp (BlockSize r') (BlockSize r) ≤ 0) ∨
        ((∀ r', usable m r' → Cmp bs (BlockSize r') < 0) ∧
         ∀ r', usable m r' → Cmp (BlockSize r) (BlockSize r') ≤ 0)).
Proof.
  intros [r0 Hr0]. setoid_rewrite usable_elem. apply usable_elem in Hr0.
  destruct (FindMappingRatio_floor bs (ParseMappingRatio m)) as (r & [Hin Hr] & Hf);
    [auto with ioi | by intros Hn; rewrite Hn, elem_of_nil in Hr0 |].
  by exists r.
Qed.
End RatioTable.

Section RatioWitness.
Import FakeInstances.

Definition table_example : gmap string f64 :=
  {["4k" := of_Z 4; "bad" := of_Z 3; "32k" := of_Z 2; "64k" := of_Z 1; "1k" := of_Z 0]}.

Definition bs_example : @quantity quantity_fake := 40000.

Lemma mapping_ratio_floor_witness :
  ∃ r, usable table_example r ∧
       FindMappingRatio bs_example (ParseMappingRatio table_example) = Ok (BlockSize r, Ratio r) ∧
       ((Cmp (BlockSize r) bs_example ≤ 0 ∧
         ∀ r', usable table_example r' → Cmp (BlockSize r') bs_example ≤ 0 →
               Cmp (BlockSize r') (BlockSize r) ≤ 0) ∨
        ((∀ r', usable table_example r' → Cmp bs_example (BlockSize r') < 0) ∧
         ∀ r', usable table_example r' → Cmp (BlockSize r) (BlockSize r') ≤ 0)).
Proof.
  apply (mapping_ratio_floor table_example bs_example).
  exists (mkRatio (32000 : @quantity quantity_fake) (of_Z 2)), "32k". repeat split; vm_compute; reflexivity.
Defined.

Example mapping_ratio_32k :
  FindMappingRatio bs_example (ParseMappingRatio table_example) = Ok (32000 : @quantity quantity_fake, of_Z 2).
Proof. vm_compute. reflexivity. Qed.
End RatioWitness.

(** ** Retries *)

Section Retries.
Context `{Q : QuantityLib} {K : Type} `{!KubeClient K}.

Lemma retry_no_conflict n (fn : K → K * option kerr) k k' e :
  fn k = (k', Some e) → IsConflict e = false → RetryOnConflict (S n) fn k = (k', Some e).
Proof. intros Hf He. simpl. by rewrite Hf, He. Qed.

Lemma retry_success n (fn : K → K * option kerr) k k' :
  fn k = (k', None) → RetryOnConflict (S n) fn k = (k', None).
Proof. intros Hf. simpl. by rewrite Hf. Qed.

(** A write conflict on the NodeIOStatus object is reported at once:
    the error of the patch is wrapped before RetryOnConflict sees it, so the
    two remaining attempts are never made, whatever the error is. *)
Theorem spec_update_one_attempt (k k' : K) (name : string) (obj : NodeIOStatusSpec)
    (sts : NodeIOStatus) (e : kerr) :
  name ≠ "" →
  nis_get k (name +:+ NodeStatusInfoSuffix) = inl sts →
  nis_patch k (name +:+ NodeStatusInfoSuffix) sts (mkNIS obj (nis_Status sts)) = (k', Some e) →
  UpdateNodeIOStatusSpec k name obj
  = (k', Some (KErr ("failed to patch the NodeIOStatus: " +:+ kerr_msg e))).
Proof.
  intros Hn Hg Hp. apply retry_no_conflict; [| done].
  unfold GetNodeIOStatus. destruct (String.eqb_spec name ""); [done |].
  by rewrite Hg, Hp.
Qed.
End Retries.

Section RetryWitness.
Import FakeInstances.

Definition spec_n1 : NodeIOStatusSpec := mkSpec "n1" 5 ∅.
Definition nis_n1 : NodeIOStatus := mkNIS (mkSpec "n1" 4 ∅) (mkStatus 4 ∅).
(** One conflict, after which writes would succeed. *)
Definition server_conflict : Server :=
  mkServer ∅ ∅ ∅ [] [] [] {["n1-nodeiostatus" := nis_n1]} [Some (Conflict "modified")].
Definition server_after : Server :=
  mkServer ∅ ∅ ∅ [] [] [] {["n1-nodeiostatus" := nis_n1]} [].

Lemma spec_update_one_attempt_witness :
  UpdateNodeIOStatusSpec server_conflict "n1" spec_n1
  = (server_after, Some (KErr "failed to patch the NodeIOStatus: modified")).
Proof.
  apply (spec_update_one_attempt server_conflict server_after "n1" spec_n1 nis_n1
           (Conflict "modified")); [done | vm_compute; reflexivity..].
Defined.
End RetryWitness.
