(* ===== verification/ContextFacts.v ===== *)
(** * Facts about the shared context: reserved pods and their publication

    The table of reserved pods as an abstract map, and the worker that
    publishes it to the API server: a step relation over the store, the queue
    and the items waiting to be retried, with its invariant. *)

From S2P Require Export Context.
From S2P Require Import Fake.

(** ** The table *)

(** A node's entry: generation and requests by pod. *)
Definition entry (c : IoiContext) (node : string) : option (Z * gmap string PodRequest) :=
  match Reservedpod c !! node with
  | Some (Some pl) => Some (Generation pl, pl_PodList pl)
  | _ => None
  end.
(** The spec that describes it. *)
Definition entry_spec (node : string) (e : Z * gmap string PodRequest) : NodeIOStatusSpec :=
  mkSpec node e.1 ((λ pr, mkSpecPod (PodName pr) (PodNamespace pr)) <$> e.2).

Lemma GetReservedPodsWithNameNS_entry c node e :
  entry c node = Some e → GetReservedPodsWithNameNS c node = inl (entry_spec node e).
Proof.
  unfold entry, GetReservedPodsWithNameNS.
  destruct (Reservedpod c !! node) as [[pl |] |]; [| done..]. by intros [= <-].
Qed.

Lemma entry_Some c node e :
  entry c node = Some e → ∃ pl, Reservedpod c !! node = Some (Some pl) ∧
                                e = (Generation pl, pl_PodList pl).
Proof. unfold entry. destruct (Reservedpod c !! node) as [[pl |] |]; naive_solver. Qed.

(** AddPod on a registered node. *)
Lemma AddPod_entry c reqs pod node g m :
  locked c = false → entry c node = Some (g, m) →
  ∃ c', AddPod c reqs pod node = Ok (c', None) ∧ locked c' = false ∧
    (∀ node', entry c' node' = if decide (node' = node)
                               then Some (add64 g 1, <[pod_UID pod := reqs]> m)
                               else entry c node') ∧
    lastUpdatedGen c' = <[node := -1]> (lastUpdatedGen c) ∧
    queue c' = queue c ++
      [mkSync (Some (entry_spec node (add64 g 1, <[pod_UID pod := reqs]> m))) pod (Some reqs)].
Proof.
  intros Hl (pl & Hr & [= -> ->])%entry_Some. unfold AddPod, ctx_Lock, GetReservedPods.
  rewrite Hl. simpl. rewrite Hr. simpl. eexists. split; [done |]. simpl.
  unfold GetReservedPodsWithNameNS, entry. simpl. rewrite lookup_insert_eq. repeat split.
  intros node'. destruct (decide (node' = node)) as [-> |];
    [by rewrite lookup_insert_eq | by rewrite lookup_insert_ne].
Qed.

Lemma RemovePod_entry c pod node g m :
  locked c = false → pod_NodeName pod = node → entry c node = Some (g, m) →
  ∃ c', RemovePod c pod node = Ok (c', None) ∧ locked c' = false ∧
    (∀ node', entry c' node' = if decide (node' = node)
                               then Some (add64 g 1, delete (pod_UID pod) m)
                               else entry c node') ∧
    lastUpdatedGen c' = lastUpdatedGen c ∧
    queue c' = queue c ++
      [mkSync (Some (entry_spec node (add64 g 1, delete (pod_UID pod) m))) pod None].
Proof.
  intros Hl <- (pl & Hr & [= -> ->])%entry_Some. unfold RemovePod, ctx_Lock, GetReservedPods.
  rewrite Hl. simpl. rewrite Hr. simpl. eexists. split; [done |]. simpl.
  unfold GetReservedPodsWithNameNS, entry. simpl. rewrite lookup_insert_eq. repeat split.
  intros node'. destruct (decide (node' = pod_NodeName pod)) as [-> |];
    [by rewrite lookup_insert_eq | by rewrite lookup_insert_ne].
Qed.

(** Adding a pod to the context and removing it again restores the node's
    reserved requests, raises the generation by two, leaves every other node
    alone, releases the mutex, and queues for publication exactly the two
    specs the table went through, in order. *)
Theorem ctx_AddPod_RemovePod c reqs pod node g m :
  locked c = false → pod_NodeName pod = node → entry c node = Some (g, m) →
  m !! pod_UID pod = None → fits64 (g + 2) → fits64 g →
  ∃ c1 c2, AddPod c reqs pod node = Ok (c1, None) ∧ RemovePod c1 pod node = Ok (c2, None) ∧
    (∀ node', entry c2 node' = if decide (node' = node) then Some (g + 2, m) else entry c node') ∧
    locked c2 = false ∧
    queue c2 = queue c ++
      [mkSync (Some (entry_spec node (g + 1, <[pod_UID pod := reqs]> m))) pod (Some reqs);
       mkSync (Some (entry_spec node (g + 2, m))) pod None].
Proof.
  intros Hl Hn He Hf Hb1 Hb2.
  destruct (AddPod_entry c reqs pod node g m Hl He) as (c1 & H1 & L1 & E1 & _ & Q1).
  assert (E1n := E1 node). rewrite decide_True in E1n by done.
  destruct (RemovePod_entry c1 pod node _ _ L1 Hn E1n) as (c2 & H2 & L2 & E2 & _ & Q2).
  assert (Ha : add64 g 1 = g + 1) by (apply wrap64_id; unfold fits64 in *; lia).
  assert (Hb : add64 (g + 1) 1 = g + 2).
  { unfold add64. rewrite wrap64_id; unfold fits64 in *; lia. }
  rewrite Ha, Hb, delete_insert_id in E2, Q2 by done.
  exists c1, c2. split; [done |]. split; [done |]. split; [| split; [done |]].
  - intros node'. rewrite E2. destruct (decide (node' = node)); [done |]. rewrite E1.
    by rewrite decide_False.
  - rewrite Q2, Q1, Ha, <- app_assoc. done.
Qed.

(** ** Publication *)

(** What the worker relies on of the API server: a successful patch of a
    NodeIOStatus object stores its spec, and no patch touches another object. *)
Class SpecServer `{Q : QuantityLib} (K : Type) `{!KubeClient K} : Prop := {
  patch_own : ∀ (k k' : K) name old new,
    nis_patch k name old new = (k', None) → ∃ o, nis_get k' name = inl o ∧ nis_Spec o = nis_Spec new;
  patch_other : ∀ (k k' : K) name name' old new e,
    nis_patch k name old new = (k', e) → name' ≠ name → nis_get k' name' = nis_get k name';
  pod_patch_nis : ∀ (k k' : K) ns pod old new e name,
    pod_patch k ns pod old new = (k', e) → nis_get k' name = nis_get k name
}.

Section Publication.
Context `{Q : QuantityLib} `{!JsonLib} {K : Type} `{!KubeClient K} `{!SpecServer K}.

(** The published spec of a node. *)
Definition published (k : K) (node : string) : option NodeIOStatusSpec :=
  match nis_get k (node +:+ NodeStatusInfoSuffix) with inl o => Some (nis_Spec o) | inr _ => None end.

Lemma retry_inv (P : K → Prop) steps fn (k k' : K) e :
  (∀ k k' e, fn k = (k', e) → P k → P k') → RetryOnConflict steps fn k = (k', e) → P k → P k'.
Proof.
  intros Hfn. revert k. induction steps as [| n IH]; intros k; simpl; [by intros [= <- _] |].
  destruct (fn k) as [k1 [err |]] eqn:E.
  - destruct (IsConflict err); [destruct n |]; intros Hr Hp;
      [simplify_eq; by eapply Hfn | by eapply IH, Hfn | simplify_eq; by eapply Hfn].
  - intros [= <- <-]. by eapply Hfn.
Qed.

Lemma retry_ok steps fn (k k' : K) :
  RetryOnConflict (S steps) fn k = (k', None) → ∃ k1, fn k1 = (k', None).
Proof.
  revert k. induction steps as [| n IH]; intros k; simpl.
  - destruct (fn k) as [k1 [err |]] eqn:E; [destruct (IsConflict err); naive_solver |].
    intros [= <-]. eauto.
  - destruct (fn k) as [k1 [err |]] eqn:E; [| intros [= <-]; eauto].
    destruct (IsConflict err); [| naive_solver]. apply IH.
Qed.

Lemma annos_published node (k k' : K) pod e :
  (∀ a, AddOrUpdateAnnoOnPod k pod a = (k', e) → published k' node = published k node) ∧
  (∀ key, DeleteAnnoOnPod k pod key = (k', e) → published k' node = published k node).
Proof.
  split; intros a Hr; refine (retry_inv (λ k1, published k1 node = published k node) _ _ _ _ _ _ Hr eq_refl);
    clear Hr; intros k1 k2 e2 Hf <-; unfold published.
  - destruct (size a =? 0)%nat; [by simplify_eq |].
    destruct (_ || _); [by simplify_eq |]. destruct (pod_get _ _ _); [| by simplify_eq].
    destruct (pod_patch _ _ _ _ _) eqn:Ep. simplify_eq. by erewrite pod_patch_nis.
  - destruct (a =? "")%string; [by simplify_eq |].
    destruct (_ || _); [by simplify_eq |]. destruct (pod_get _ _ _); [| by simplify_eq].
    destruct (pod_patch _ _ _ _ _) eqn:Ep. simplify_eq. by erewrite pod_patch_nis.
Qed.

Lemma spec_update_published (k k' : K) name obj e :
  UpdateNodeIOStatusSpec k name obj = (k', e) →
  (∀ node, node ≠ name → published k' node = published k node) ∧
  (e = None → published k' name = Some obj).
Proof.
  intros Hr. split.
  - intros node Hne.
    refine (retry_inv (λ k1, published k1 node = published k node) _ _ _ _ _ _ Hr eq_refl).
    clear Hr. intros k1 k2 e2 Hf <-. destruct (GetNodeIOStatus k1 name); [| by simplify_eq].
    destruct (nis_patch _ _ _ _) as [k3 e3] eqn:Ep. simplify_eq. unfold published.
    erewrite patch_other; [done | exact Ep |]. intros Eq. by apply Hne, (str_app_inj_l _ _ _ Eq).
  - intros ->. unfold UpdateNodeIOStatusSpec, UpdateBackoff_Steps in Hr. apply retry_ok in Hr as [k1 Hf]. destruct (GetNodeIOStatus k1 name); [| done].
    destruct (nis_patch _ _ _ _) as [k3 [e3 |]] eqn:Ep; simplify_eq.
    unfold published. by destruct (patch_own _ _ _ _ _ Ep) as (o & -> & ->).
Qed.

(** What updateContext does with a spec: skip it, fail, or publish it. *)
Definition work_case (k k' : K) (c c' : IoiContext) (err : option error)
    (spec : option NodeIOStatusSpec) : Prop :=
  match spec with
  | None => k' = k ∧ c' = c ∧ err = None
  | Some sp =>
      (∀ node, node ≠ spec_NodeName sp → published k' node = published k node) ∧
      ((c' = c ∧ k' = k ∧ err = None ∧
        (spec_NodeName sp = "" ∨
         spec_Generation sp ≤ default (-1) (lastUpdatedGen c !! spec_NodeName sp))) ∨
       (default (-1) (lastUpdatedGen c !! spec_NodeName sp) < spec_Generation sp ∧
        ((c' = c ∧ is_Some err) ∨
         (err = None ∧ published k' (spec_NodeName sp) = Some sp ∧
          lastUpdatedGen c' = <[spec_NodeName sp := spec_Generation sp]> (lastUpdatedGen c)))))
  end.

Lemma updateContext_cases (k : K) c spec p req :
  locked c = false →
  ∃ k' c' err, updateContext k c spec p req = Ok (k', c', err) ∧
    locked c' = false ∧ Reservedpod c' = Reservedpod c ∧ queue c' = queue c ∧
    work_case k k' c c' err spec.
Proof.
  intros Hl. unfold updateContext, work_case. destruct spec as [sp |]; [| by exists k, c, None].
  destruct (String.eqb_spec (spec_NodeName sp) "") as [En | _].
  { exists k, c, None. split_and!; try done. left. auto. }
  unfold ctx_Lock. rewrite Hl. simpl.
  assert (Hu : ctx_Unlock (set_locked true c) = c) by (destruct c; simpl in *; by subst).
  destruct (Z.leb_spec (spec_Generation sp) (default (-1) (lastUpdatedGen c !! spec_NodeName sp))).
  { exists k, c, None. rewrite Hu. split_and!; try done. left. auto. }
  assert (Hanno : ∃ k1 err1,
    (match req with
     | Some _ => match PodRequest2String req with
                 | inl reqBW => let '(k0, err) := AddOrUpdateAnnoOnPod k p {[AllocatedIOAnno := reqBW]} in
                                (k0, match err with
                                     | Some e => Some ("AddOrUpdateAnnoOnPod fails: " +:+ kerr_msg e)
                                     | None => None
                                     end)
                 | inr err => (k, Some err)
                 end
     | None => let '(k0, err) := DeleteAnnoOnPod k p AllocatedIOAnno in
               (k0, match err with
                    | Some e => if IsNotFound e then None
                                else Some ("DeleteAnnoOnPod fails: " +:+ kerr_msg e)
                    | None => None
                    end)
     end) = (k1, err1) ∧ ∀ node, published k1 node = published k node).
  { destruct req.
    - destruct (PodRequest2String _); [| by eauto].
      destruct (AddOrUpdateAnnoOnPod _ _ _) as [k1 e1] eqn:E1. eexists _, _. split; [done |].
      intros node. exact (proj1 (annos_published node k k1 p e1) _ E1).
    - destruct (DeleteAnnoOnPod _ _ _) as [k1 e1] eqn:E1. eexists _, _. split; [done |].
      intros node. exact (proj2 (annos_published node k k1 p e1) _ E1). }
  destruct Hanno as (k1 & err1 & -> & Hk1). destruct err1 as [err1 |].
  { eexists _, _, _. split; [done |]. rewrite Hu. split_and!; try done.
    right. split; [done |]. left. by split. }
  destruct (UpdateNodeIOStatusSpec k1 (spec_NodeName sp) sp) as [k2 e2] eqn:E2.
  apply spec_update_published in E2 as [Ho Hs]. destruct e2 as [e2 |].
  - eexists _, _, _. split; [done |]. rewrite Hu. split_and!; try done.
    + intros node Hne. by rewrite Ho, Hk1.
    + right. split; [done |]. left. by split.
  - eexists _, _, _. split; [done |]. split_and!; try done.
    + intros node Hne. by rewrite Ho, Hk1.
    + right. split; [done |]. right. split_and!; auto.
Qed.

(** ** The worker and its clients *)

Record WS := mkWS { ws_kube : K; ws_ctx : IoiContext; ws_delayed : list syncContext }.

(** The clients add and remove pods, with or without an error (a removed pod
    is removed from its own node), the worker takes the head of the queue,
    with or without an error of the API server, and the rate limiter puts an
    item that failed back at the tail.  Generations stay below the largest
    int64. *)
Definition gen_fits (c : IoiContext) (node : string) : Prop :=
  ∀ g m, entry c node = Some (g, m) → fits64 (g + 1).
Inductive wstep : WS → WS → Prop :=
| step_add k c d c' reqs pod node err :
    gen_fits c node → AddPod c reqs pod node = Ok (c', err) → wstep (mkWS k c d) (mkWS k c' d)
| step_remove k c d c' pod node err :
    gen_fits c node → pod_NodeName pod = node →
    RemovePod c pod node = Ok (c', err) → wstep (mkWS k c d) (mkWS k c' d)
| step_work k c d k' c' d' :
    worker_step k c d = Ok (Some (k', c', d')) → wstep (mkWS k c d) (mkWS k' c' d')
| step_requeue k c d1 it d2 :
    wstep (mkWS k c (d1 ++ it :: d2)) (mkWS k (set_queue (queue c ++ [it]) c) (d1 ++ d2)).

(** Items still to be published. *)
Definition pending (w : WS) : list syncContext := queue (ws_ctx w) ++ ws_delayed w.

(** No item is newer than the entry [e] of the node, and one as new is its spec. *)
Definition item_ok (node : string) (e : Z * gmap string PodRequest) (it : syncContext) : Prop :=
  ∀ sp, sync_spec it = Some sp → spec_NodeName sp = node →
    spec_Generation sp ≤ e.1 ∧ (spec_Generation sp = e.1 → sp = entry_spec node e).
(** No recorded update is newer, and one as new is published. *)
Definition last_ok (node : string) (e : Z * gmap string PodRequest) (k : K) (c : IoiContext) : Prop :=
  ∀ g, lastUpdatedGen c !! node = Some g →
    g ≤ e.1 ∧ (g = e.1 → published k node = Some (entry_spec node e)).

(** The state of one node; its own spec is pending, or was the last one
    published, or its entry is still that of generation [g0]. *)
Definition node_inv (g0 : Z) (node : string) (w : WS) : Prop :=
  locked (ws_ctx w) = false ∧
  ∃ e, entry (ws_ctx w) node = Some e ∧ 0 ≤ e.1 ∧ fits64 e.1 ∧
  (∀ it, it ∈ pending w → item_ok node e it) ∧ last_ok node e (ws_kube w) (ws_ctx w) ∧
  ((∃ it, it ∈ pending w ∧ sync_spec it = Some (entry_spec node e)) ∨
   lastUpdatedGen (ws_ctx w) !! node = Some e.1 ∨ e.1 = g0).

(** A node before its pods change: nothing is queued, and nothing of the node
    has been published. *)
Definition starts (node : string) (w : WS) (e : Z * gmap string PodRequest) : Prop :=
  locked (ws_ctx w) = false ∧ pending w = [] ∧ entry (ws_ctx w) node = Some e ∧ 0 ≤ e.1 ∧ fits64 e.1 ∧
  default (-1) (lastUpdatedGen (ws_ctx w) !! node) = -1.
Lemma starts_inv node w e : starts node w e → node_inv e.1 node w.
Proof.
  intros (Hl & Hp & He & H0 & Hf & Hg). split; [done |]. exists e. rewrite Hp. split_and!; try done.
  - intros it. by rewrite elem_of_nil.
  - intros g Eg. rewrite Eg in Hg. simpl in Hg. lia.
  - by right; right.
Qed.

(** A client call that fails changes nothing. *)
Lemma failed_AddPod c reqs pod node c' err :
  locked c = false → entry c node = None → AddPod c reqs pod node = Ok (c', err) → c' = c.
Proof.
  unfold AddPod, ctx_Lock, entry, GetReservedPods. intros Hl He. rewrite Hl. simpl.
  destruct (Reservedpod c !! node) as [[pl |] |]; [done | by intros | intros [= <- _]]. destruct c. simpl in *. by subst.
Qed.
Lemma failed_RemovePod c pod node c' err :
  locked c = false → entry c (pod_NodeName pod) = None → RemovePod c pod node = Ok (c', err) → c' = c.
Proof.
  unfold RemovePod, ctx_Lock, entry, GetReservedPods. intros Hl He. rewrite Hl. simpl.
  destruct (Reservedpod c !! pod_NodeName pod) as [[pl |] |]; [done | by intros | intros [= <- _]]. destruct c. simpl in *. by subst.
Qed.

(** A client operation that moves the node's entry to generation [g + 1] and
    queues its spec. *)
Lemma node_inv_own g0 node k c d c' g m m' pod req :
  node_inv g0 node (mkWS k c d) → entry c node = Some (g, m) → fits64 (g + 1) →
  locked c' = false → entry c' node = Some (add64 g 1, m') →
  (lastUpdatedGen c' !! node = lastUpdatedGen c !! node ∨ lastUpdatedGen c' !! node = Some (-1)) →
  queue c' = queue c ++ [mkSync (Some (entry_spec node (add64 g 1, m'))) pod req] →
  node_inv g0 node (mkWS k c' d).
Proof.
  intros (_ & e & He & Hpos & Hfit & Hit & Hlast & _) Hc Hb Hl He' Hu Hq. simpl in *. simplify_eq.
  simpl in *. assert (Ha : add64 g 1 = g + 1) by (by apply wrap64_id). rewrite Ha in He', Hq.
  split; [done |]. exists (g + 1, m'). simpl. split_and!; [done | lia | done | | |].
  - intros it Hin sp Hsp Hn. unfold pending in Hin. simpl in Hin. rewrite Hq in Hin.
    rewrite <- app_assoc in Hin. apply elem_of_app in Hin as [Hin | Hin];
      [| apply elem_of_app in Hin as [->%list_elem_of_singleton | Hin]].
    2: { simpl in Hsp. injection Hsp as <-. simpl. split; [lia | done]. }
    all: destruct (Hit it ltac:(set_solver) sp) as [Hle _]; [done | done |]; simpl in *; split; [lia |];
      intros Heq; lia.
  - intros g' Hg'. destruct Hu as [Hu | Hu]; rewrite Hu in Hg'.
    + destruct (Hlast g' Hg') as [? _]. simpl in *. split; lia.
    + simplify_eq. simpl. split; lia.
  - left. exists (mkSync (Some (entry_spec node (g + 1, m'))) pod req). split; [| done].
    unfold pending. simpl. rewrite Hq. set_solver.
Qed.

(** An operation on another node. *)
Lemma node_inv_other g0 node node' k c d c' it :
  node_inv g0 node (mkWS k c d) → node ≠ node' →
  locked c' = false → entry c' node = entry c node →
  lastUpdatedGen c' !! node = lastUpdatedGen c !! node →
  queue c' = queue c ++ [it] → (∀ sp, sync_spec it = Some sp → spec_NodeName sp = node') →
  node_inv g0 node (mkWS k c' d).
Proof.
  intros (_ & e & He & Hpos & Hfit & Hit & Hlast & Hor) Hne Hl He' Hu Hq Hsp. simpl in *.
  split; [done |]. exists e. simpl. rewrite He', Hu. split_and!; [done | done | done | | intros g; simpl; rewrite Hu; apply Hlast |].
  - intros it' Hin sp Hs Hn. unfold pending in Hin. simpl in Hin. rewrite Hq, <- app_assoc in Hin.
    apply elem_of_app in Hin as [Hin | Hin];
      [| apply elem_of_app in Hin as [->%list_elem_of_singleton | Hin]].
    2: { exfalso. apply Hne. rewrite <- Hn. by apply Hsp. }
    all: apply (Hit it'); [set_solver | done | done].
  - destruct Hor as [(it' & Hin & Hs) | Hor]; [left | by right]. exists it'. split; [| done].
    unfold pending in *. simpl in *. rewrite Hq. set_solver.
Qed.

(** The worker on an item, from the node's side: the record stays right, ... *)
Lemma work_last node e k k' c c' err it :
  item_ok node e it → last_ok node e k c → work_case k k' c c' err (sync_spec it) →
  last_ok node e k' c'.
Proof.
  intros Hit Hlast Hcase g Hg. unfold work_case in Hcase.
  destruct (sync_spec it) as [sp |] eqn:Es; [| destruct Hcase as (-> & -> & _); by apply Hlast].
  destruct Hcase as [Hother [(-> & -> & _ & _) | (Hlt & [(-> & Herr) | (-> & Hp & Hu)])]].
  - by apply Hlast.
  - destruct (decide (spec_NodeName sp = node)) as [En | En].
    + destruct (Hlast g Hg) as [Hge _]. split; [done |]. intros ->. subst node.
      rewrite Hg in Hlt. simpl in Hlt. destruct (Hit sp) as [Hle _]; [done.. |]. lia.
    + rewrite Hother by done. by apply Hlast.
  - rewrite Hu in Hg. destruct (decide (spec_NodeName sp = node)) as [En | En].
    + subst node. rewrite lookup_insert_eq in Hg. simplify_eq.
      destruct (Hit sp) as [Hle Heq]; [done.. |].
      split; [done |]. intros Hge. by rewrite Hp, (Heq Hge).
    + rewrite lookup_insert_ne in Hg by done. rewrite Hother by done. by apply Hlast.
Qed.

(** ... the node's own spec is recorded when it leaves the queue, ... *)
Lemma work_current node e k k' c c' err it :
  node ≠ "" → 0 ≤ e.1 → last_ok node e k c → err = None →
  sync_spec it = Some (entry_spec node e) → work_case k k' c c' err (sync_spec it) →
  lastUpdatedGen c' !! node = Some e.1.
Proof.
  intros Hne Hpos Hlast -> -> Hcase. unfold work_case in Hcase.
  destruct Hcase as [_ [(-> & _ & _ & [Hn | Hle]) | (_ & [(_ & [? [=]]) | (_ & _ & Hu)])]].
  - done.
  - simpl in *. destruct (lastUpdatedGen c !! node) as [g |] eqn:Eg; simpl in Hle; [| lia].
    destruct (Hlast g Eg) as [Hge _]. f_equal. lia.
  - rewrite Hu. simpl. by rewrite lookup_insert_eq.
Qed.

(** ... and a record of the current generation is never replaced. *)
Lemma work_keeps node e k k' c c' err it :
  item_ok node e it → lastUpdatedGen c !! node = Some e.1 →
  work_case k k' c c' err (sync_spec it) → lastUpdatedGen c' !! node = Some e.1.
Proof.
  intros Hit Hor Hcase. unfold work_case in Hcase.
  destruct (sync_spec it) as [sp |] eqn:Es; [| by destruct Hcase as (_ & -> & _)].
  destruct Hcase as [_ [(-> & _) | (Hlt & [(-> & _) | (_ & _ & Hu)])]]; [done.. |].
  rewrite Hu. destruct (decide (spec_NodeName sp = node)) as [En | En];
    [| by rewrite lookup_insert_ne].
  subst node. rewrite Hor in Hlt. simpl in Hlt. destruct (Hit sp) as [Hle _]; [done.. |]. lia.
Qed.

Lemma node_inv_work g0 node k c d k' c' d' :
  node ≠ "" → node_inv g0 node (mkWS k c d) →
  worker_step k c d = Ok (Some (k', c', d')) → node_inv g0 node (mkWS k' c' d').
Proof.
  intros Hne (Hl & e & He & Hpos & Hfit & Hit & Hlast & Hor) Hw. simpl in *.
  unfold worker_step in Hw. destruct (queue c) as [| it q] eqn:Eq; [done |].
  destruct (updateContext_cases k (set_queue q c) (sync_spec it) (sync_pod it) (sync_req it))
    as (k1 & c1 & err & Eu & L1 & R1 & Q1 & Hcase); [done |].
  rewrite Eu in Hw. simpl in Hw. simplify_eq. simpl in *.
  assert (Hin : it ∈ pending (mkWS k c d)) by (unfold pending; simpl; rewrite Eq; set_solver).
  split; [done |]. exists e. simpl. split_and!; [unfold entry; rewrite R1; exact He | done | done | | |].
  - intros x Hx. apply Hit. unfold pending in *. simpl in *. rewrite Q1 in Hx. rewrite Eq.
    destruct err; set_solver.
  - eapply (work_last node e k k' (set_queue q c)); [by apply Hit | exact Hlast | exact Hcase].
  - destruct Hor as [(x & Hx & Hxs) | Hor].
    + assert (Hx' : x = it ∧ err = None ∨
        x ∈ pending (mkWS k' c' (match err with Some _ => d ++ [it] | None => d end))).
      { unfold pending in *. simpl in *. rewrite Eq in Hx. rewrite Q1.
        apply elem_of_app in Hx as [[-> | Hx]%elem_of_cons | Hx]; destruct err;
          [right; set_solver | by left | right; set_solver..]. }
      destruct Hx' as [[-> ->] | Hx']; [right; left | left; by exists x].
      eapply (work_current node e k k' (set_queue q c)); eauto.
    + right. destruct Hor as [Hor | Hor]; [left | by right].
      eapply (work_keeps node e k k' (set_queue q c)); [by apply Hit | exact Hor | exact Hcase].
Qed.

Lemma node_inv_step g0 node w w' : node ≠ "" → wstep w w' → node_inv g0 node w → node_inv g0 node w'.
Proof.
  intros Hne Hs Hi. pose proof Hi as (Hl & _).
  destruct Hs as [k c d c' reqs pod node' err Hb HA | k c d c' pod node' err Hb Hpn HR | k c d k' c' d' Hw | k c d1 it d2].
  - destruct (entry c node') as [[g m] |] eqn:He; [| by rewrite (failed_AddPod _ _ _ _ _ _ Hl He HA)].
    specialize (Hb _ _ He). destruct (AddPod_entry c reqs pod node' g m Hl He)
      as (c1 & H1 & L1 & E1 & U1 & Q1). rewrite H1 in HA. simplify_eq.
    destruct (decide (node = node')) as [<- | Hnn].
    + eapply (node_inv_own g0 node); eauto; [by rewrite E1, decide_True |]. right.
      by rewrite U1, lookup_insert_eq.
    + eapply (node_inv_other g0 node node'); eauto; [by rewrite E1, decide_False | |].
      * by rewrite U1, lookup_insert_ne.
      * intros sp. simpl. by intros [= <-].
  - subst node'. destruct (entry c (pod_NodeName pod)) as [[g m] |] eqn:He;
      [| by rewrite (failed_RemovePod _ _ _ _ _ Hl He HR)].
    specialize (Hb _ _ He). destruct (RemovePod_entry c pod _ g m Hl eq_refl He)
      as (c1 & H1 & L1 & E1 & U1 & Q1). rewrite H1 in HR. simplify_eq.
    destruct (decide (node = pod_NodeName pod)) as [-> | Hnn].
    + eapply node_inv_own; eauto; [by rewrite E1, decide_True |]. left. by rewrite U1.
    + eapply node_inv_other; eauto; [by rewrite E1, decide_False | by rewrite U1 |].
      intros sp. simpl. by intros [= <-].
  - by eapply node_inv_work.
  - assert (Hp : pending (mkWS k (set_queue (queue c ++ [it]) c) (d1 ++ d2)) ≡ₚ
                 pending (mkWS k c (d1 ++ it :: d2))).
    { unfold pending. simpl. rewrite <- app_assoc. f_equiv. simpl. apply Permutation_middle. }
    destruct Hi as (Hl' & e & He & Hpos & Hfit & Hit & Hlast & Hor). split; [done |].
    exists e. split_and!; [done.. | | done |].
    + intros x Hx. apply Hit. by rewrite <- Hp.
    + destruct Hor as [(x & Hx & Hxs) | Hor]; [left | by right]. exists x. by rewrite Hp.
Qed.

(** C4: Publication is up to date whenever it is idle. From a state in which
    nothing is queued, the lock is free and nothing of a registered node has
    been published, whatever clients then do to add pods to nodes and remove
    pods from their own nodes (with or without an error), however the worker's
    writes to the API server succeed or fail, in whatever order failed items
    are put back, and as long as generations stay below 2^63 - 1: when no item
    of the node is pending and the generation of the node's reserved pods is
    not the one from the start, the API server shows this generation and the
    names and namespaces of exactly these pods. A write that the API server
    accepts stores what was sent, and touches no other object. *)
Theorem publication_up_to_date (w0 w : WS) (node : string) e0 e :
  node ≠ "" → starts node w0 e0 → rtc wstep w0 w →
  (∀ it sp, it ∈ pending w → sync_spec it = Some sp → spec_NodeName sp ≠ node) →
  entry (ws_ctx w) node = Some e → e.1 ≠ e0.1 →
  published (ws_kube w) node = Some (entry_spec node e).
Proof.
  intros Hne Hi%starts_inv Hr Hnone He Hgen.
  assert (Hinv : node_inv e0.1 node w).
  { revert Hi. clear Hnone He. induction Hr as [| w0 w1 w2 Hs _ IH]; [done |].
    intros Hi. apply IH. by eapply node_inv_step. }
  destruct Hinv as (_ & e' & He' & _ & _ & _ & Hlast & Hor). simplify_eq.
  destruct Hor as [(it & Hin & Hsp) | [Hu | Hu]]; [by destruct (Hnone it _ Hin Hsp) | | done].
  by apply (Hlast e.1).
Qed.
End Publication.

(** ** Runs of the worker on a server in memory *)

Module PublicationExample.
Import FakeInstances.

#[export] Instance spec_server_fake : SpecServer Server.
Proof.
  split.
  - intros k k' name old new. simpl. unfold f_write. destruct (f_faults k) as [| [e |] l];
      intros [= <-]; simpl; rewrite lookup_insert_eq; by eexists.
  - intros k k' name name' old new e. simpl. unfold f_write. intros E Hne.
    destruct (f_faults k) as [| [f |] l]; simplify_eq; simpl; by rewrite ?lookup_insert_ne.
  - intros k k' ns pod old new e name. simpl. unfold f_write.
    destruct (f_faults k) as [| [f |] l]; intros; by simplify_eq.
Qed.

Definition pod_a : Pod := mkPod "a" "default" "uid-a" ∅ "n1" [].
Definition pod_b : Pod := mkPod "b" "default" "uid-b" ∅ "n1" [].
Definition io : IOResourceRequest := mkIOReq IOType_RDT 0 None.
Definition req_a : PodRequest := mkPodRequest "a" "default" [io].
Definition req_b : PodRequest := mkPodRequest "b" "default" [io].
Definition status0 : NodeIOStatus := mkNIS (mkSpec "n1" 0 ∅) (mkStatus 0 ∅).
Definition server (faults : list (option kerr)) : Server :=
  mkServer ∅ ∅ ∅ ["default"] [pod_a; pod_b] ["n1"] {["n1-nodeiostatus" := status0]} faults.
Definition ctx0 : IoiContext :=
  mkCtx {["n1" := Some (mkPodList 0 ∅)]} [] ∅ [] {["n1" := -1]} false.

Definition run_add (w : WS (K := Server)) (r : PodRequest) (p : Pod) : WS (K := Server) :=
  match AddPod (ws_ctx w) r p "n1" with
  | Ok (c, _) => mkWS (ws_kube w) c (ws_delayed w)
  | Crash _ => w
  end.
Definition run_remove (w : WS (K := Server)) (p : Pod) : WS (K := Server) :=
  match RemovePod (ws_ctx w) p "n1" with
  | Ok (c, _) => mkWS (ws_kube w) c (ws_delayed w)
  | Crash _ => w
  end.
Definition run_work (w : WS (K := Server)) : WS (K := Server) :=
  match worker_step (ws_kube w) (ws_ctx w) (ws_delayed w) with
  | Ok (Some (k, c, d)) => mkWS k c d
  | _ => w
  end.
Definition run_requeue (w : WS (K := Server)) : WS (K := Server) :=
  match ws_delayed w with
  | it :: d => mkWS (ws_kube w) (set_queue (queue (ws_ctx w) ++ [it]) (ws_ctx w)) d
  | [] => w
  end.

Definition low_gen (w : WS (K := Server)) : bool :=
  match entry (ws_ctx w) "n1" with Some (g, _) => (0 <=? g) && (g <? 100) | None => false end.

Lemma run_add_step w r p :
  low_gen w = true →
  (match AddPod (ws_ctx w) r p "n1" with Ok (_, None) => true | _ => false end) = true →
  wstep w (run_add w r p).
Proof.
  unfold low_gen, run_add. destruct (entry (ws_ctx w) "n1") as [[g m] |] eqn:E; [| done].
  intros Hg%andb_true_iff. destruct (AddPod _ _ _ _) as [[c [e |]] |] eqn:EA; [done | | done].
  intros _. destruct w as [k c0 d]. eapply step_add; [| exact EA].
  intros g' m' E'. simpl in E. rewrite E in E'. injection E' as <- <-. unfold fits64. lia.
Qed.
Lemma run_remove_step w p :
  low_gen w = true → pod_NodeName p = "n1" →
  (match RemovePod (ws_ctx w) p "n1" with Ok (_, None) => true | _ => false end) = true →
  wstep w (run_remove w p).
Proof.
  unfold low_gen, run_remove. destruct (entry (ws_ctx w) "n1") as [[g m] |] eqn:E; [| done].
  intros Hg%andb_true_iff Hn. destruct (RemovePod _ _ _) as [[c [e |]] |] eqn:EA; [done | | done].
  intros _. destruct w as [k c0 d].
  eapply step_remove; [| exact Hn | exact EA].
  intros g' m' E'. simpl in E. rewrite E in E'. injection E' as <- <-. unfold fits64. lia.
Qed.
Lemma run_work_step w :
  (match worker_step (ws_kube w) (ws_ctx w) (ws_delayed w) with Ok (Some _) => true | _ => false end)
  = true → wstep w (run_work w).
Proof.
  unfold run_work. destruct (worker_step _ _ _) as [[[[k c] d] |] |] eqn:E; [| done | done].
  intros _. destruct w. by apply step_work.
Qed.
Lemma run_requeue_step w :
  (match ws_delayed w with [] => false | _ => true end) = true → wstep w (run_requeue w).
Proof.
  destruct w as [k c [| it d]]; [done |]. intros _. apply (step_requeue k c [] it d).
Qed.

(** Pod "a" is added; publishing it succeeds. *)
Definition w_start : WS := mkWS (server []) ctx0 [].
Definition w_added : WS := run_add w_start req_a pod_a.
Definition w_done : WS := run_work w_added.

Lemma publication_up_to_date_witness :
  published (ws_kube w_done) "n1" = Some (mkSpec "n1" 1 {["uid-a" := mkSpecPod "a" "default"]}).
Proof.
  etrans; [apply (publication_up_to_date w_start w_done "n1" (0, ∅) (1, {["uid-a" := req_a]})) | vm_eq];
    [done | | | | vm_eq | done].
  - split_and!; [vm_eq | vm_eq | vm_eq | simpl; lia | by unfold fits64 | vm_eq].
  - apply (rtc_l _ _ w_added); [apply run_add_step; vm_eq |]. apply rtc_once, run_work_step. vm_eq.
  - intros it sp Hit. change (pending w_done) with ([] : list syncContext) in Hit. set_solver.
Defined.

(** The first write to the server fails: pod "a" is added, and its
    publication put off; pod "a" is removed and that is published; the first
    item is retried just when pod "b" is added. *)
Definition w0 : WS := mkWS (server [Some (KErr "timeout")]) ctx0 [].
Definition w1 : WS := run_work (run_add w0 req_a pod_a).
Definition w2 : WS := run_work (run_remove w1 pod_a).
Definition w3 : WS := run_add (run_requeue w2) req_b pod_b.
Definition w4 : WS := run_work w3.

(** What the API server shows can go back in time.  AddPod forgets the
    last published generation, so an old spec that failed before and is
    retried now is published over a newer one: a run of the worker reaches a
    state that shows generation 2, without pod "a", and then one that shows
    generation 1, with pod "a". *)
Theorem publication_regresses :
  rtc wstep w0 w3 ∧ wstep w3 w4 ∧
  published (ws_kube w3) "n1" = Some (entry_spec "n1" (2, ∅)) ∧
  published (ws_kube w4) "n1" = Some (entry_spec "n1" (1, {["uid-a" := req_a]})) ∧
  entry (ws_ctx w4) "n1" = Some (3, {["uid-b" := req_b]}).
Proof.
  split; [| split; [| repeat split; vm_eq]].
  - apply (rtc_l _ _ (run_add w0 req_a pod_a)); [apply run_add_step; vm_eq |].
    apply (rtc_l _ _ w1); [apply run_work_step; vm_eq |].
    apply (rtc_l _ _ (run_remove w1 pod_a)); [apply run_remove_step; vm_eq |].
    apply (rtc_l _ _ w2); [apply run_work_step; vm_eq |].
    apply (rtc_l _ _ (run_requeue w2)); [apply run_requeue_step; vm_eq |].
    apply rtc_once, run_add_step; vm_eq.
  - apply run_work_step. vm_eq.
Qed.

(** A pod added and removed in the context. *)
Lemma ctx_AddPod_RemovePod_witness :
  ∃ c1 c2, AddPod ctx0 req_a pod_a "n1" = Ok (c1, None) ∧
    RemovePod c1 pod_a "n1" = Ok (c2, None) ∧
    (∀ node', entry c2 node' = if decide (node' = "n1") then Some (0 + 2, ∅)
                               else entry ctx0 node') ∧
    locked c2 = false ∧
    queue c2 = queue ctx0 ++
      [mkSync (Some (entry_spec "n1" (0 + 1, <[pod_UID pod_a := req_a]> ∅))) pod_a (Some req_a);
       mkSync (Some (entry_spec "n1" (0 + 2, ∅))) pod_a None].
Proof.
  apply (ctx_AddPod_RemovePod ctx0 req_a pod_a "n1" 0 ∅);
    [vm_eq | vm_eq | vm_eq | vm_eq | by unfold fits64 | by unfold fits64].
Defined.
End PublicationExample.
