(* ===== verification/CacheFacts.v ===== *)
(** * Facts about pools and cached resources that the plugins share *)

From S2P Require Export Context.

(** ** Pools *)

(** A pool whose bandwidths are finite and not negative. *)
Definition pool_good (p : IOPoolStatus) : Prop :=
  good (ps_Total p) ∧ good (ps_In p) ∧ good (ps_Out p).
Definition quantity_good (q : Quantity) : Prop := good (Inbps q) ∧ good (Outbps q).

(** The pool guarantees the quantity: no pressure, and none of the three
    bandwidths asked exceeds the pool's. *)
Definition guarantees (ga : IOPoolStatus) (q : Quantity) : Prop :=
  ps_UnderPressure ga = false ∧
  flt (ps_Total ga) (fadd (Inbps q) (Outbps q)) = false ∧
  flt (ps_In ga) (Inbps q) = false ∧ flt (ps_Out ga) (Outbps q) = false.

(** One more best-effort user would still get more than the minimum. *)
Definition shares (be bem : IOPoolStatus) : Prop :=
  ps_UnderPressure be = false ∧
  fle (be_share (ps_Total be) (ps_Num be)) (ps_Total bem) = false ∧
  fle (be_share (ps_In be) (ps_Num be)) (ps_In bem) = false ∧
  fle (be_share (ps_Out be) (ps_Num be)) (ps_Out bem) = false.

Lemma check_GA_None name node ga q : check_GA name node ga q = None ↔ guarantees ga q.
Proof.
  unfold check_GA, guarantees. destruct (ps_UnderPressure ga), (flt (ps_Total ga) _),
    (flt (ps_In ga) _), (flt (ps_Out ga) _); naive_solver.
Qed.

Lemma check_BE_None name node be bem : check_BE name node be bem = None ↔ shares be bem.
Proof.
  unfold check_BE, shares. destruct (ps_UnderPressure be), (fle _ (ps_Total bem)),
    (fle _ (ps_In bem)), (fle _ (ps_Out bem)); naive_solver.
Qed.

(** Charging a guaranteed quantity leaves a good pool. *)
Lemma pool_take_good ga q :
  pool_good ga → quantity_good q → guarantees ga q → pool_good (pool_take ga (Inbps q) (Outbps q)).
Proof.
  intros (Gt & Gi & Go) [Qi Qo] (_ & Ht & Hi & Ho).
  destruct (add_good _ _ Qi Qo) as (Va & Na & Ka).
  apply good_key in Qi as (Vi & Ni & Ki). apply good_key in Qo as (Vo & No & Ko).
  repeat split; apply sub_good; auto; lia.
Qed.

(** ** Integer bandwidths *)

(** Pools and quantities in whole megabytes, small enough that float64
    arithmetic on them is exact. *)
Definition pool_int (p : IOPoolStatus) (t i o : Z) : Prop :=
  ps_Total p = of_Z t ∧ ps_In p = of_Z i ∧ ps_Out p = of_Z o.
Definition quantity_int (q : Quantity) (i o : Z) : Prop := Inbps q = of_Z i ∧ Outbps q = of_Z o.
Definition small (n : Z) : Prop := Z.abs n ≤ 2 ^ 50.

Lemma small_ok n : small n → int_ok n.
Proof. unfold small, int_ok. lia. Qed.

(** What AddPod takes from an integer pool, RemovePod gives back exactly. *)
Lemma pool_take_give p q t i o x y :
  pool_int p t i o → quantity_int q x y →
  small t → small i → small o → small x → small y →
  pool_give (pool_take p (Inbps q) (Outbps q)) (Inbps q) (Outbps q) = p.
Proof.
  intros (Ht & Hi & Ho) [Hx Hy] St Si So Sx Sy. unfold small in *.
  destruct p as [pt pi po pu pn]. simpl in *. subst. unfold pool_give, pool_take. simpl.
  rewrite Hx, Hy. rewrite (add_of_Z x y) by (unfold int_ok; lia).
  rewrite !sub_of_Z, !add_of_Z by (unfold int_ok; lia). f_equal; f_equal; lia.
Qed.

Lemma num_inc_dec n : 0 ≤ n < 2 ^ 63 - 1 → num_dec (add64 n 1) = n.
Proof.
  intros Hn. unfold num_dec, add64, sub64. rewrite (wrap64_id (n + 1)) by (unfold fits64; lia).
  replace (n + 1 - 1) with n by lia. rewrite wrap64_id by (unfold fits64; lia).
  destruct (Z.ltb_spec n 0); lia.
Qed.

(** ** PrintCacheInfo *)

Section Printing.
Context `{Q : QuantityLib}.

Lemma pools_setb_spec ga be : pools_setb ga be = true ↔ pools_set ga be.
Proof. unfold pools_setb, pools_set, is_Some. destruct ga, be; naive_solver. Qed.

Lemma forallb_pools {A} (f : A → bool) (m : gmap string A) (P : A → Prop) :
  (∀ a, f a = true ↔ P a) →
  forallb (λ kd, f kd.2) (map_to_list m) = true ↔ map_Forall (λ _ a, P a) m.
Proof.
  intros Hf. rewrite forallb_forall. split.
  - intros Ha i x Hi. apply Hf, (Ha (i, x)), list_elem_of_In. by apply elem_of_map_to_list.
  - intros Ha [i x] Hi. apply list_elem_of_In, elem_of_map_to_list in Hi. apply Hf, (Ha i), Hi.
Qed.

Lemma PrintInfo_Ok r : PrintInfo r = Ok () ↔ printable r.
Proof.
  unfold PrintInfo, printable. destruct r as [b | b | b | b]; simpl.
  - destruct (br_info b) as [n |]; simpl; [| naive_solver].
    pose proof (forallb_pools (λ d, pools_setb (di_GA d) (di_BE d)) (DisksStatus n)
      (λ d, pools_set (di_GA d) (di_BE d)) ltac:(intros; apply pools_setb_spec)) as Hp.
    destruct (forallb _ _); naive_solver.
  - destruct (nr_info b) as [n |]; simpl; [| naive_solver].
    pose proof (forallb_pools (λ d, pools_setb (nic_GA d) (nic_BE d)) (NICsStatus n)
      (λ d, pools_set (nic_GA d) (nic_BE d)) ltac:(intros; apply pools_setb_spec)) as Hp.
    destruct (forallb _ _); naive_solver.
  - destruct (rr_info b); simpl; unfold is_Some; naive_solver.
  - destruct (qr_info b); simpl; unfold is_Some; naive_solver.
Qed.

Lemma foldM_unit {A} (f : A → outcome ()) l :
  foldM (λ _ x, f x) () l = Ok () ↔ Forall (λ x, f x = Ok ()) l.
Proof.
  induction l as [| x l IH]; simpl; [by split |]. rewrite Forall_cons, <- IH.
  destruct (f x) as [[] |]; simpl; naive_solver.
Qed.

(** Logging the cache is safe exactly when every entry has its pools. *)
Lemma PrintCacheInfo_Ok c : PrintCacheInfo c = Ok () ↔ map_Forall (λ _ r, printable r) c.
Proof.
  unfold PrintCacheInfo. rewrite (foldM_unit (λ kr, PrintInfo kr.2)), Forall_forall. split.
  - intros Ha i r Hi. apply PrintInfo_Ok, (Ha (i, r)). by apply elem_of_map_to_list.
  - intros Ha [i r] Hi. apply PrintInfo_Ok, (Ha i). by apply elem_of_map_to_list.
Qed.

Lemma print_cache_Ok {K} (s : HS K) :
  map_Forall (λ _ r, printable r) (hs_cache s) → print_cache s = Ok ((), s).
Proof. intros Hp. unfold print_cache. by rewrite (proj2 (PrintCacheInfo_Ok _) Hp). Qed.

Lemma print_cache_inv {K} (s s' : HS K) u :
  print_cache s = Ok (u, s') → s' = s ∧ map_Forall (λ _ r, printable r) (hs_cache s).
Proof.
  unfold print_cache. destruct (PrintCacheInfo (hs_cache s)) as [[] |] eqn:E; simpl; [| done].
  intros [= _ <-]. split; [done |]. by apply PrintCacheInfo_Ok.
Qed.
End Printing.
