(* ===== verification/BinPackFacts.v ===== *)
(** * Facts about the bin packer: first fit, and no disk is overfilled *)

From S2P Require Export BinPack CacheFacts.
From S2P Require Import Fake.

Section Packing.
Context `{Q : QuantityLib} `{!GoRange, !GoSort}.
Implicit Types (devices : gmap string DiskInfo) (v : PVolume) (ds : gmap string PDevice).

(** ** Reference: first fit over a list of volumes *)

(** Volumes in the order they were placed, each with its disk. *)
Abbreviation placement := (list (PVolume * string)).
Definition vols_on (dev : string) (tr : placement) : list PVolume :=
  (filter (λ p, p.2 = dev) tr).*1.

(** What is left of a disk once the volumes of [tr] are on it. *)
Definition residual devices (tr : placement) (dev : string) : outcome PDevice :=
  let! info := deref (devices !! dev) in
  foldM pack (NewDevice dev info) (vols_on dev tr).

(** Does [v] fit what is left of [dev]?  The volume comes back with its
    bandwidths translated for that disk. *)
Definition fits_on devices (tr : placement) (dev : string) v : outcome (bool * PVolume) :=
  let! info := deref (devices !! dev) in
  let! pd := residual devices tr dev in
  canFit pd v info.

(** The volume goes to the first disk of [devs] that it fits. *)
Inductive first_fit devices (devs : list string) : list PVolume → placement → Prop :=
| ff_nil : first_fit devices devs [] []
| ff_snoc vols tr v v' pre dev post :
    first_fit devices devs vols tr →
    devs = pre ++ dev :: post →
    (∀ d, d ∈ pre → fits_on devices tr d v = Ok (false, v)) →
    fits_on devices tr dev v = Ok (true, v') →
    first_fit devices devs (vols ++ [v]) (tr ++ [(v', dev)]).

Definition disk_pools_set (d : DiskInfo) : Prop := is_Some (di_GA d) ∧ is_Some (di_BE d).
Definition slice_tracks devices (tr : placement) ds : Prop :=
  ∀ dev info, devices !! dev = Some info →
    ∃ pd, ds !! dev = Some pd ∧ residual devices tr dev = Ok pd.

(** ** Steps *)

Lemma vols_on_snoc dev tr v d :
  vols_on dev (tr ++ [(v, d)]) = if decide (d = dev) then vols_on dev tr ++ [v] else vols_on dev tr.
Proof.
  unfold vols_on. rewrite filter_app, fmap_app, filter_cons. simpl.
  case_decide; simpl; [done |]. by rewrite app_nil_r.
Qed.

Lemma residual_snoc devices tr v d dev :
  residual devices (tr ++ [(v, d)]) dev =
  if decide (d = dev) then let! pd := residual devices tr dev in pack pd v
  else residual devices tr dev.
Proof.
  unfold residual. rewrite vols_on_snoc. case_decide; [| done].
  destruct (devices !! dev); simpl; [| done]. rewrite foldM_app. simpl.
  destruct (foldM _ _ _) as [pd |]; simpl; [| done]. by destruct (pack pd v).
Qed.

(** Neither the pools nor their presence are lost by packing. *)
Lemma pack_BE pd v pd' : pack pd v = Ok pd' → pd_BE pd' = pd_BE pd ∧ (is_Some (pd_GA pd) → is_Some (pd_GA pd')).
Proof.
  unfold pack. destruct (String.eqb _ _); intros E; inv_ok E; simpl; by eauto.
Qed.

Lemma pack_total pd v : is_Some (pd_GA pd) → ∃ pd', pack pd v = Ok pd'.
Proof. intros [ga Hga]. unfold pack. rewrite Hga. destruct (String.eqb _ _); simpl; eauto. Qed.

Lemma residual_pools devices tr dev pd info :
  devices !! dev = Some info → disk_pools_set info → residual devices tr dev = Ok pd →
  is_Some (pd_GA pd) ∧ is_Some (pd_BE pd).
Proof.
  intros Hd [[ga Hga] [be Hbe]]. unfold residual. rewrite Hd. simpl.
  apply (foldM_inv pack (λ pd, is_Some (pd_GA pd) ∧ is_Some (pd_BE pd))).
  - intros b x b' _ [HG HB] [E HG']%pack_BE. rewrite E. auto.
  - simpl. rewrite Hga, Hbe. simpl. eauto.
Qed.

(** A ratio table that is empty needs the default block size to parse. *)
Definition default_parses : Prop := ∃ q, MustParse "32k" = Ok q.

Lemma ratio_total bs l : default_parses → ∃ r, FindMappingRatio bs l = Ok r.
Proof.
  intros [q Hq]. unfold FindMappingRatio. destruct (find_ratio _ _ _); [eauto |].
  destruct (last l); [eauto |]. rewrite Hq. simpl. eauto.
Qed.

Lemma canFit_total pd v info :
  default_parses → is_Some (pd_GA pd) → is_Some (pd_BE pd) →
  ∃ b v', canFit pd v info = Ok (b, v') ∧ (b = false → v' = v) ∧
    pv_Name v' = pv_Name v ∧ PvcName v' = PvcName v ∧ pv_Size v' = pv_Size v.
Proof.
  intros Hp [ga Hga] [be Hbe]. unfold canFit. rewrite Hga, Hbe.
  destruct (ratio_total (BlockSizeRead v) (ReadRatio info) Hp) as [rr ->].
  destruct (ratio_total (BlockSizeWrite v) (WriteRatio info) Hp) as [wr ->]. simpl.
  destruct (String.eqb (pv_QoS v) NotBE);
    [destruct (_ && _) | destruct (String.eqb (pv_QoS v) BE_QoS)];
    do 2 eexists; repeat split; done.
Qed.

Lemma residual_total devices tr dev info :
  devices !! dev = Some info → disk_pools_set info → ∃ pd, residual devices tr dev = Ok pd.
Proof.
  intros Hd [[ga Hga] Hbe]. unfold residual. rewrite Hd. simpl.
  destruct (foldM_total pack (λ pd, is_Some (pd_GA pd)) (NewDevice dev info) (vols_on dev tr))
    as (pd & Hpd & _); [| | eauto].
  - intros b x _ Hb. destruct (pack_total b x Hb) as [b' Hb']. exists b'. split; [done |].
    by apply pack_BE in Hb' as [_ Hg]; auto.
  - simpl. rewrite Hga. simpl. eauto.
Qed.

(** Every disk answers for every volume. *)
Lemma fits_on_total devices tr dev info v :
  default_parses → devices !! dev = Some info → disk_pools_set info →
  ∃ pd b v', residual devices tr dev = Ok pd ∧ canFit pd v info = Ok (b, v') ∧
    fits_on devices tr dev v = Ok (b, v') ∧ (b = false → v' = v) ∧ (b = true → is_Some (pd_GA pd)) ∧
    pv_Name v' = pv_Name v ∧ PvcName v' = PvcName v ∧ pv_Size v' = pv_Size v.
Proof.
  intros Hp Hd Hs. destruct (residual_total devices tr dev info Hd Hs) as [pd Hpd].
  destruct (residual_pools _ _ _ _ _ Hd Hs Hpd) as [Hga Hbe].
  destruct (canFit_total pd v info Hp Hga Hbe) as (b & v' & Hc & Hv & Hn).
  exists pd, b, v'. unfold fits_on. rewrite Hd, Hpd. simpl. tauto.
Qed.

(** The slice after a volume has been packed on a disk. *)
Lemma slice_tracks_pack devices tr ds dev pd pd' v :
  slice_tracks devices tr ds → residual devices tr dev = Ok pd → pack pd v = Ok pd' →
  slice_tracks devices (tr ++ [(v, dev)]) (<[dev := pd']> ds).
Proof.
  intros Ht Hpd Hpack d info Hd. rewrite residual_snoc. case_decide; subst.
  - exists pd'. rewrite lookup_insert_eq, Hpd. done.
  - destruct (Ht d info Hd) as (x & Hx & Hr). exists x. by rewrite lookup_insert_ne.
Qed.

Section Devices.
Context devices (Hparse : default_parses)
  (Hpools : map_Forall (λ _ d, disk_pools_set d) devices).

(** The inner loop: the first disk the volume fits, whatever the slice, as
    long as it tracks what is left. *)
Lemma place_spec tr devs v :
  (∀ d, d ∈ devs → is_Some (devices !! d)) →
  ∃ where_ v',
    (pv_Name v' = pv_Name v ∧ PvcName v' = PvcName v ∧ pv_Size v' = pv_Size v) ∧
    match where_ with
    | None => v' = v ∧ ∀ d, d ∈ devs → fits_on devices tr d v = Ok (false, v)
    | Some dev => ∃ pre post, devs = pre ++ dev :: post ∧
        (∀ d, d ∈ pre → fits_on devices tr d v = Ok (false, v)) ∧
        fits_on devices tr dev v = Ok (true, v')
    end ∧
    ∀ ds, slice_tracks devices tr ds →
      ∃ ds', place devices devs ds v = Ok (where_, ds', v') ∧
        slice_tracks devices
          (match where_ with Some dev => tr ++ [(v', dev)] | None => tr end) ds'.
Proof.
  intros Hin. induction devs as [| d devs IH].
  { exists None, v. split; [done |]. split; [split; [done | intros d; by rewrite elem_of_nil] |].
    intros ds Ht. exists ds. done. }
  destruct (Hin d) as [info Hd]; [by left |].
  destruct (fits_on_total devices tr d info v Hparse Hd (Hpools _ _ Hd))
    as (pd & b & v' & Hpd & Hc & Hf & Hfalse & Htrue & Hn).
  destruct b.
  - exists (Some d), v'. split; [done |]. split.
    { exists [], devs. split; [done |]. split; [intros ? []%elem_of_nil | done]. }
    intros ds Ht. destruct (Ht d info Hd) as (pd' & Hds & Hpd').
    rewrite Hpd in Hpd'. injection Hpd' as <-.
    destruct (pack_total pd v' (Htrue eq_refl)) as [pd'' Hpack].
    exists (<[d := pd'']> ds). simpl. rewrite Hd, Hds. simpl. unfold AddVol. rewrite Hc. simpl.
    rewrite Hpack. simpl. split; [done |]. by eapply slice_tracks_pack.
  - rewrite (Hfalse eq_refl) in *. clear Hn Htrue Hfalse v'.
    destruct IH as (where_ & v' & Hn & Hw & Hp); [intros; apply Hin; by right |].
    exists where_, v'. split; [done |]. split.
    + destruct where_ as [dev |].
      * destruct Hw as (pre & post & -> & Hpre & Hdev). exists (d :: pre), post.
        split; [done |]. split; [| done]. intros x [-> | Hx]%elem_of_cons; auto.
      * destruct Hw as [-> Hw]. split; [done |]. intros x [-> | Hx]%elem_of_cons; auto.
    + intros ds Ht. destruct (Ht d info Hd) as (pd' & Hds & Hpd').
      rewrite Hpd in Hpd'. injection Hpd' as <-.
      simpl. rewrite Hd, Hds. simpl. unfold AddVol. rewrite Hc. simpl.
      rewrite insert_id by done. by apply Hp.
Qed.

(** What the outer loop returns for the volumes [vols]. *)
Definition records (tr : placement) (acc : packing) : Prop :=
  (∀ v dev, (v, dev) ∈ tr →
     acc.1 !! pv_Name v = Some dev ∧
     acc.2 !! PvcName v = Some (mkPVCInfo dev (pv_Size v) false)) ∧
  (∀ k, is_Some (acc.1 !! k) → ∃ v dev, (v, dev) ∈ tr ∧ pv_Name v = k) ∧
  (∀ k, is_Some (acc.2 !! k) → ∃ v dev, (v, dev) ∈ tr ∧ PvcName v = k).

Lemma records_snoc tr acc v dev :
  records tr acc →
  (∀ v0 d0, (v0, d0) ∈ tr → pv_Name v0 ≠ pv_Name v ∧ PvcName v0 ≠ PvcName v) →
  records (tr ++ [(v, dev)])
    (<[pv_Name v := dev]> acc.1, <[PvcName v := mkPVCInfo dev (pv_Size v) false]> acc.2).
Proof.
  intros (H1 & H2 & H3) Hne. split; [| split].
  - intros v0 d0. rewrite elem_of_app, list_elem_of_singleton. intros [Hin | [= -> ->]]; simpl.
    + destruct (Hne _ _ Hin). rewrite !lookup_insert_ne by done. auto.
    + by rewrite !lookup_insert_eq.
  - intros k. simpl. destruct (decide (k = pv_Name v)) as [-> | Hk].
    + intros _. exists v, dev. set_solver.
    + rewrite lookup_insert_ne by done. intros (? & ? & ? & ?)%H2. set_solver.
  - intros k. simpl. destruct (decide (k = PvcName v)) as [-> | Hk].
    + intros _. exists v, dev. set_solver.
    + rewrite lookup_insert_ne by done. intros (? & ? & ? & ?)%H3. set_solver.
Qed.

(** The outcome of packing the volumes [vols] on [devs]: a complete first-fit
    placement, or a volume that no disk can take after one. *)
Definition packed (devs : list string) (vols : list PVolume) (res : option packing) : Prop :=
  match res with
  | Some acc => ∃ tr, first_fit devices devs vols tr ∧ records tr acc
  | None => ∃ pre v post tr, vols = pre ++ v :: post ∧ first_fit devices devs pre tr ∧
      ∀ d, d ∈ devs → fits_on devices tr d v = Ok (false, v)
  end.

(** The names of the volumes survive in the placement. *)
Lemma first_fit_names devs vols tr :
  first_fit devices devs vols tr → (∀ d, d ∈ devs → is_Some (devices !! d)) →
  ∀ v dev, (v, dev) ∈ tr → dev ∈ devs ∧
    ∃ v0, v0 ∈ vols ∧ pv_Name v0 = pv_Name v ∧ PvcName v0 = PvcName v ∧ pv_Size v0 = pv_Size v.
Proof.
  intros Hff Hin. induction Hff as [| vols tr v v' pre dev post Hff IH Hdevs Hpre Hfit];
    intros v0 d0; [by rewrite elem_of_nil |].
  rewrite elem_of_app, list_elem_of_singleton. intros [Hv | [= -> ->]].
  - destruct (IH v0 d0 Hv) as (? & v1 & ? & ?). split; [done |]. exists v1. set_solver.
  - split; [rewrite Hdevs; set_solver |]. exists v. split; [set_solver |].
    destruct (Hin dev) as [info Hd]; [rewrite Hdevs; set_solver |].
    destruct (fits_on_total devices tr dev info v Hparse Hd (Hpools _ _ Hd))
      as (pd & b & v1 & _ & _ & Hf & _ & _ & Hn1 & Hn2 & Hn3).
    rewrite Hfit in Hf. injection Hf as <- <-. auto.
Qed.

Lemma pack_vols_spec devs done_ vols tr acc :
  (∀ d, d ∈ devs → is_Some (devices !! d)) →
  NoDup (pv_Name <$> (done_ ++ vols)) → NoDup (PvcName <$> (done_ ++ vols)) →
  first_fit devices devs done_ tr → records tr acc →
  ∃ res, packed devs (done_ ++ vols) res ∧
    ∀ ds, slice_tracks devices tr ds →
      ∃ ds', pack_vols devices devs vols ds acc = Ok (ds', res).
Proof.
  intros Hin. revert done_ tr acc.
  induction vols as [| v vols IH]; intros done_ tr acc Hn Hp Hff Hrec.
  { rewrite app_nil_r in *. exists (Some acc). simpl. eauto. }
  destruct (place_spec tr devs v Hin) as (where_ & v' & (E1 & E2 & E3) & Hw & Hpl).
  assert (Hfresh : ∀ v0 d0, (v0, d0) ∈ tr → pv_Name v0 ≠ pv_Name v ∧ PvcName v0 ≠ PvcName v).
  { intros v0 d0 Hv0. destruct (first_fit_names devs done_ tr Hff Hin v0 d0 Hv0)
      as (_ & v1 & Hv1 & <- & <- & _).
    rewrite fmap_app in Hn, Hp. apply NoDup_app in Hn as (_ & Hn & _).
    apply NoDup_app in Hp as (_ & Hp & _). split.
    - intros E. apply (Hn (pv_Name v1)); [by apply list_elem_of_fmap_2 |]. rewrite E. by left.
    - intros E. apply (Hp (PvcName v1)); [by apply list_elem_of_fmap_2 |]. rewrite E. by left. }
  destruct where_ as [dev |].
  - destruct Hw as (pre & post & Hdevs & Hpre & Hfit).
    destruct (IH (done_ ++ [v]) (tr ++ [(v', dev)])
                (<[pv_Name v' := dev]> acc.1, <[PvcName v' := mkPVCInfo dev (pv_Size v') false]> acc.2))
      as (res & Hres & Hrun).
    + by rewrite <- app_assoc.
    + by rewrite <- app_assoc.
    + by eapply ff_snoc.
    + apply records_snoc; [done |]. intros v0 d0 Hv0. rewrite E1, E2. by eapply Hfresh.
    + rewrite <- app_assoc in Hres. exists res. split; [done |]. intros ds Ht.
      destruct (Hpl ds Ht) as (ds1 & Hrun1 & Ht1). destruct (Hrun ds1 Ht1) as (ds' & Hds').
      exists ds'. simpl. rewrite Hrun1. simpl. destruct acc as [a1 a2]. simpl in *.
      rewrite lookup_insert_eq. done.
  - destruct Hw as [-> Hw]. exists None. split.
    + exists done_, v, vols, tr. done.
    + intros ds Ht. destruct (Hpl ds Ht) as (ds1 & Hrun1 & Ht1). exists ds1. simpl.
      rewrite Hrun1. simpl. destruct acc as [a1 a2]. simpl.
      destruct (a2 !! PvcName v) as [x |] eqn:Ea; [| done].
      destruct Hrec as (_ & _ & H3). destruct (H3 (PvcName v)) as (v0 & d0 & Hv0 & E0); [by eexists |].
      destruct (Hfresh v0 d0 Hv0) as [_ ?]. done.
Qed.

Lemma slice_tracks_init slice :
  slice_tracks devices [] (foldl (λ s kd, AddDevice s kd.1 kd.2) slice (range devices)).
Proof.
  intros dev info Hd. exists (NewDevice dev info). unfold residual. rewrite Hd.
  split; [| done]. unfold AddDevice.
  assert (Hin : (dev, info) ∈ range devices) by by apply elem_of_range.
  pose proof (NoDup_range devices) as Hnd. revert slice Hin Hnd.
  generalize (range devices) as l. clear Hd Hpools Hparse.
  induction l as [| [k x] l IH]; intros slice Hin Hnd; [by apply elem_of_nil in Hin |].
  rewrite fmap_cons in Hnd. apply NoDup_cons in Hnd as [Hk Hnd]. simpl.
  apply elem_of_cons in Hin as [[= <- <-] | Hin]; [| by apply IH].
  clear IH Hnd. revert slice.
  induction l as [| [k' x'] l IH] using rev_ind; intros slice; simpl; [by rewrite lookup_insert_eq |].
  rewrite foldl_app. simpl. rewrite fmap_app in Hk.
  rewrite lookup_insert_ne by set_solver. apply IH. set_solver.
Qed.

(** Floats without NaN are weakly ordered by [>]. *)
Lemma flt_strict_weak {A} (f : A → f64) :
  (∀ a, good (f a)) → strict_weak (λ a b, flt (f b) (f a)).
Proof.
  intros Hg. assert (Hk : ∀ a b, flt (f a) (f b) = true ↔ key (f a) < key (f b)).
  { intros a b. destruct (good_key _ (Hg a)) as (? & ? & _), (good_key _ (Hg b)) as (? & ? & _).
    by apply flt_key. }
  assert (Hk' : ∀ a b, flt (f a) (f b) = false ↔ key (f b) ≤ key (f a)).
  { intros a b. rewrite <- not_true_iff_false, Hk. lia. }
  split; [| split]; intros *; rewrite ?Hk, ?Hk'; lia.
Qed.

Definition disk_good (d : DiskInfo) : Prop :=
  (∃ ga, di_GA d = Some ga ∧ pool_good ga) ∧ is_Some (di_BE d).
End Devices.

(** The disks by decreasing guaranteed bandwidth. *)
Definition by_total devices (a b : string) : Prop :=
  flt (total_or_zero devices a) (total_or_zero devices b) = false.

Lemma sort_devs_spec devices :
  map_Forall (λ _ d, disk_good d) devices →
  ∃ devs, sort_devs devices = Ok devs ∧ devs ≡ₚ (map_to_list devices).*1 ∧
    Sorted (by_total devices) devs.
Proof.
  intros Hg. unfold sort_devs.
  assert (forallb (λ kd, match di_GA kd.2 with Some _ => true | None => false end)
            (range devices) = true) as ->.
  { apply forallb_forall. intros [k d] Hin%list_elem_of_In%elem_of_range.
    destruct (Hg k d Hin) as [(ga & Hga & _) _]. simpl. by rewrite Hga. }
  rewrite andb_false_r. eexists. split; [done |]. split.
  - rewrite go_sort_perm. apply fmap_Permutation, range_perm.
  - apply (go_sort_sorted (λ a b, flt (total_or_zero devices b) (total_or_zero devices a))).
    apply flt_strict_weak. intros a. unfold total_or_zero.
    destruct (devices !! a) as [d |] eqn:Ed; [| by apply (good_of_Z 0)].
    destruct (Hg a d Ed) as [(ga & Hga & Ht & _) _]. by rewrite Hga.
Qed.

Lemma elem_of_keys devices d : d ∈ (map_to_list devices).*1 → is_Some (devices !! d).
Proof. intros ([k x] & -> & Hx)%list_elem_of_fmap. simpl. apply elem_of_map_to_list in Hx. eauto. Qed.
Lemma disk_good_pools d : disk_good d → disk_pools_set d.
Proof. intros [(ga & Hga & _) Hbe]. split; eauto. Qed.

Lemma Pack_spec devices vols :
  default_parses → map_Forall (λ _ d, disk_good d) devices →
  NoDup (pv_Name <$> vols) → NoDup (PvcName <$> vols) →
  ∃ devs vols' res,
    devs ≡ₚ (map_to_list devices).*1 ∧ Sorted (by_total devices) devs ∧ vols' ≡ₚ vols ∧
    packed devices devs vols' res ∧ ∀ slice, ∃ ds, Pack slice devices vols = Ok (ds, res).
Proof.
  intros Hp Hg Hn Hc. destruct (sort_devs_spec devices Hg) as (devs & Hs & Hperm & Hsort).
  assert (Hpools : map_Forall (λ _ d, disk_pools_set d) devices)
    by (intros k d Hd; eapply disk_good_pools, Hg, Hd).
  assert (Hin : ∀ d, d ∈ devs → is_Some (devices !! d)) by (intros d; rewrite Hperm; apply elem_of_keys).
  destruct (pack_vols_spec devices Hp Hpools devs [] (go_sort vol_less vols) [] (∅, ∅))
    as (res & Hres & Hrun); [done | | | constructor | |].
  - by rewrite (go_sort_perm vol_less vols).
  - by rewrite (go_sort_perm vol_less vols).
  - split; [| split]; simpl; [intros ??; by rewrite elem_of_nil | ..];
      intros k; rewrite lookup_empty; by intros [].
  - exists devs, (go_sort vol_less vols), res. repeat split; [done | done | apply go_sort_perm | done |].
    intros slice. unfold Pack. rewrite Hs. simpl. by apply Hrun, slice_tracks_init.
Qed.

(** ** What is left of a disk is never negative *)

(** A disk with room, and ratio tables of usable numbers. *)
Definition disk_sane (d : DiskInfo) : Prop :=
  disk_good d ∧ 0 ≤ RequestedDiskSpace d ≤ Capacity d ∧ Capacity d < 2 ^ 63 ∧
  Forall (λ r, good (Ratio r)) (ReadRatio d) ∧ Forall (λ r, good (Ratio r)) (WriteRatio d).
Definition vol_sane (v : PVolume) : Prop :=
  good (RawRead v) ∧ good (RawWrite v) ∧ 0 ≤ pv_Size v.
Definition device_good (pd : PDevice) : Prop := ∃ ga, pd_GA pd = Some ga ∧ pool_good ga.
Definition total_size (l : list PVolume) : Z := foldr Z.add 0 (pv_Size <$> l).

Lemma total_size_cons v l : total_size (v :: l) = pv_Size v + total_size l.
Proof. done. Qed.

Lemma total_size_snoc l v : total_size (l ++ [v]) = total_size l + pv_Size v.
Proof. unfold total_size. rewrite fmap_app. simpl. induction (pv_Size <$> l); simpl; lia. Qed.

Lemma find_ratio_in bs prev l r :
  find_ratio bs prev l = Some r → r ∈ l ∨ prev = Some r.
Proof.
  revert prev. induction l as [| x l IH]; intros prev; simpl; [done |].
  destruct (Equal bs (BlockSize x)); [intros [= ->]; left; by left |].
  destruct (_ =? -1).
  - destruct prev; intros [= ->]; [by right | left; by left].
  - intros [Hr | [= ->]]%IH; left; [by right | by left].
Qed.

Lemma FindMappingRatio_good bs l q :
  Forall (λ r, good (Ratio r)) l → FindMappingRatio bs l = Ok q → good q.2.
Proof.
  rewrite Forall_forall. intros Hg. unfold FindMappingRatio.
  destruct (find_ratio bs None l) as [r |] eqn:Er.
  { apply find_ratio_in in Er as [Hr | [=]]. intros [= <-]. by apply Hg. }
  destruct (last l) as [r |] eqn:El.
  - intros [= <-]. apply Hg. apply last_Some in El as [l' ->]. set_solver.
  - intros E. inv_ok E. by apply (good_of_Z 1).
Qed.

Lemma fits_pool_good ga tr tw :
  pool_good ga → valid tr → valid tw → is_nan tr = false → is_nan tw = false →
  0 ≤ key tr → 0 ≤ key tw → fle tr (ps_In ga) = true → fle tw (ps_Out ga) = true →
  fle (fadd tr tw) (ps_Total ga) = true →
  pool_good (mkPool (fsub (ps_Total ga) (fadd tr tw)) (fsub (ps_In ga) tr) (fsub (ps_Out ga) tw)
               (ps_UnderPressure ga) (ps_Num ga)).
Proof.
  intros (Gt & Gi & Go) V1 V2 N1 N2 K1 K2 Hi Ho Ht.
  assert (G1 : good tr) by (apply (le_good tr (ps_In ga)); done).
  assert (G2 : good tw) by (apply (le_good tw (ps_Out ga)); done).
  destruct (add_good _ _ G1 G2) as (Va & Na & Ka).
  split; [| split]; simpl; apply sub_good; auto using fle_not_flt.
Qed.

(** A volume that fits leaves a good device, with its size subtracted. *)
Lemma canFit_pack pd v v' info pd' :
  disk_sane info → vol_sane v → device_good pd → 0 ≤ pd_Size pd < 2 ^ 63 →
  canFit pd v info = Ok (true, v') → pack pd v' = Ok pd' →
  device_good pd' ∧ pd_Size pd' = pd_Size pd - pv_Size v' ∧ 0 ≤ pd_Size pd' ∧ 0 ≤ pv_Size v'.
Proof.
  intros (_ & _ & _ & Hrr & Hwr) (Gr & Gw & Hs) (ga & Hga & Gt & Gi & Go) Hsz.
  unfold canFit. destruct (String.eqb_spec (pv_QoS v) NotBE) as [E | E].
  - intros Hc. inv_ok Hc. simplify_eq.
    destruct (_ && _) eqn:Hb; [| done]. injection Hc as <-. rewrite !andb_true_iff in Hb.
    destruct Hb as ((((Hi & Ho) & Ht) & Hle%Z.leb_le) & _).
    unfold pack. simpl. rewrite (proj2 (String.eqb_eq _ _) E), Hga. simpl. intros [= <-].
    simpl. unfold sub64. rewrite wrap64_id by (unfold fits64; lia).
    split; [| lia]. eexists. split; [done |].
    apply FindMappingRatio_good in E0; [| done]. apply FindMappingRatio_good in E1; [| done].
    destruct (mul_good _ _ Gr E0) as (V1 & N1 & K1), (mul_good _ _ Gw E1) as (V2 & N2 & K2).
    apply (fits_pool_good ga); done.
  - destruct (String.eqb_spec (pv_QoS v) BE_QoS) as [E' |]; [| done]. intros Hc. inv_ok Hc.
    rewrite !andb_true_iff in Hc. destruct Hc as ((_ & Hle%Z.leb_le) & _). unfold pack.
    rewrite (proj2 (String.eqb_neq _ _) E). intros [= <-]. simpl. unfold sub64.
    rewrite wrap64_id by (unfold fits64; lia). split; [| lia]. by exists ga.
Qed.

Definition free_space (d : DiskInfo) : Z := Capacity d - RequestedDiskSpace d.

(** Along a first-fit placement every disk keeps good pools, and its space
    is split between the volumes on it and what is left. *)
Lemma first_fit_residual devices devs vols tr :
  map_Forall (λ _ d, disk_sane d) devices → Forall vol_sane vols →
  first_fit devices devs vols tr →
  ∀ dev info, devices !! dev = Some info →
    ∃ pd, residual devices tr dev = Ok pd ∧ device_good pd ∧ 0 ≤ pd_Size pd ∧
      total_size (vols_on dev tr) + pd_Size pd = free_space info ∧ 0 ≤ total_size (vols_on dev tr).
Proof.
  intros Hsane Hvols Hff.
  induction Hff as [| vols tr v v' pre dev post Hff IH Hdevs Hpre Hfit]; intros d info Hd.
  { destruct (Hsane d info Hd) as (((ga & Hga & Hg) & _) & Hr & Hc & _).
    unfold residual. rewrite Hd. simpl. eexists. split; [done |]. unfold free_space. simpl.
    unfold sub64. rewrite wrap64_id by (unfold fits64; lia).
    split; [exists ga; simpl; by rewrite Hga | unfold total_size; simpl; lia]. }
  apply Forall_app in Hvols as [Hvols Hv]. rewrite Forall_singleton in Hv.
  destruct (IH Hvols d info Hd) as (pd & Hpd & Hg & H1 & H2 & H3).
  rewrite residual_snoc, vols_on_snoc. case_decide as E; [subst | eauto 10].
  destruct (Hsane d info Hd) as (_ & Hr & Hc & _).
  unfold fits_on in Hfit. rewrite Hd, Hpd in Hfit. simpl in Hfit. rewrite Hpd. simpl.
  unfold free_space in *. pose proof Hg as (ga & Hga & _).
  destruct (pack_total pd v') as [pd' Hpack]; [by rewrite Hga |].
  destruct (canFit_pack pd v v' info pd' (Hsane d info Hd) Hv Hg ltac:(lia) Hfit Hpack)
    as (Hg' & Hs1 & Hs2 & Hs3).
  exists pd'. split; [done |]. split; [done |]. rewrite total_size_snoc. lia.
Qed.

(** The storage that an allocation books on a disk. *)
Definition booked (allocation : gmap string PVCInfo) (dev : string) (vols : list PVolume) : Z :=
  total_size (filter (λ v, DevID <$> allocation !! PvcName v = Some dev) vols).

Lemma booked_perm a dev l l' : l ≡ₚ l' → booked a dev l = booked a dev l'.
Proof.
  intros Hp. unfold booked. induction Hp as [| x l l' Hp IH | x y l | ? ? ? ? IH1 ? IH2];
    rewrite ?filter_cons; [done | | | by etrans].
  - case_decide; by rewrite ?total_size_cons, IH.
  - repeat case_decide; rewrite ?total_size_cons; lia.
Qed.

(** The placed volumes are the volumes, one for one. *)
Definition placed devices (v : PVolume) (p : PVolume * string) : Prop :=
  is_Some (devices !! p.2) ∧
  pv_Name v = pv_Name p.1 ∧ PvcName v = PvcName p.1 ∧ pv_Size v = pv_Size p.1.

Lemma first_fit_placed devices devs vols tr :
  default_parses → map_Forall (λ _ d, disk_pools_set d) devices →
  (∀ d, d ∈ devs → is_Some (devices !! d)) → first_fit devices devs vols tr →
  Forall2 (placed devices) vols tr.
Proof.
  intros Hp Hpools Hin. induction 1 as [| vols tr v v' pre dev post Hff IH Hdevs Hpre Hfit]; [done |].
  apply Forall2_app; [done |]. constructor; [| done].
  destruct (Hin dev) as [info Hd]; [rewrite Hdevs; set_solver |].
  destruct (fits_on_total devices tr dev info v Hp Hd (Hpools _ _ Hd))
    as (pd & b & v1 & _ & _ & Hf & _ & _ & Hn).
  rewrite Hfit in Hf. injection Hf as <- <-. split; [by eexists |]. naive_solver.
Qed.

Lemma booked_vols_on devices vols tr (acc : packing) dev :
  Forall2 (placed devices) vols tr →
  (∀ v d, (v, d) ∈ tr → acc.2 !! PvcName v = Some (mkPVCInfo d (pv_Size v) false)) →
  booked acc.2 dev vols = total_size (vols_on dev tr).
Proof.
  unfold booked, vols_on. induction 1 as [| v [v' d] vols tr (_ & _ & E1 & E2) Hf IH]; intros Hrec.
  { done. }
  rewrite !filter_cons. simpl in E1, E2. rewrite E1, (Hrec v' d) by (by left).
  assert (Hrec' : ∀ v d, (v, d) ∈ tr → acc.2 !! PvcName v = Some (mkPVCInfo d (pv_Size v) false))
    by (intros; apply Hrec; by right).
  specialize (IH Hrec'). simpl. repeat case_decide; simplify_eq; [| done].
  rewrite fmap_cons, !total_size_cons, IH. simpl. lia.
Qed.

(** ** Specification: bandwidths and space written out *)

(** What a guaranteed volume needs of a disk: its raw rates times the ratios
    that the disk's tables have for its block sizes. *)
Definition need (raw : f64) (bs : quantity) (table : list MappingRatio) : f64 :=
  match FindMappingRatio bs table with Ok r => fmul raw r.2 | Crash _ => fzero end.
Definition read_need (info : DiskInfo) v : f64 := need (RawRead v) (BlockSizeRead v) (ReadRatio info).
Definition write_need (info : DiskInfo) v : f64 := need (RawWrite v) (BlockSizeWrite v) (WriteRatio info).
Definition both_need (info : DiskInfo) v : f64 := fadd (read_need info v) (write_need info v).

(** A guaranteed bandwidth of a disk less the needs of the guaranteed volumes
    on it, and its free space less the sizes of all. *)
Definition left_of (f : IOPoolStatus → f64) (g : DiskInfo → PVolume → f64) (info : DiskInfo) (on : list PVolume) : f64 :=
  foldl (λ x v, fsub x (g info v)) (match di_GA info with Some p => f p | None => fzero end)
    (filter (λ v, pv_QoS v = "NotBE") on).
Definition room (info : DiskInfo) (on : list PVolume) : Z :=
  foldl (λ z v, wrap64 (z - pv_Size v)) (wrap64 (Capacity info - RequestedDiskSpace info)) on.

(** A disk with the volumes [on] takes [v]: there is room for it and, for a
    guaranteed volume, each need is within what is left; for a best-effort
    one, the share of one more volume is above the disk's default. *)
Definition takes (info : DiskInfo) (on : list PVolume) v : bool :=
  (pv_Size v <=? room info on) &&
  if String.eqb (pv_QoS v) "NotBE" then
    fle (read_need info v) (left_of ps_In read_need info on) &&
    fle (write_need info v) (left_of ps_Out write_need info on) &&
    fle (both_need info v) (left_of ps_Total both_need info on) &&
    match di_GA info with Some p => negb (ps_UnderPressure p) | None => false end
  else if String.eqb (pv_QoS v) "BE" then
    match di_BE info with
    | Some be => flt (BEDefaultRead info) (be_share (ps_In be) (ps_Num be)) &&
                 flt (BEDefaultWrite info) (be_share (ps_Out be) (ps_Num be)) &&
                 flt (fadd (BEDefaultRead info) (BEDefaultWrite info)) (be_share (ps_Total be) (ps_Num be)) &&
                 negb (ps_UnderPressure be)
    | None => false
    end
  else false.
Definition takes_on devices (tr : placement) (dev : string) v : Prop :=
  ∃ info, devices !! dev = Some info ∧ takes info (vols_on dev tr) v = true.

(** Each volume is on the first disk of [devs] that takes it beside those
    placed before. *)
Inductive on_first devices (devs : list string) : placement → Prop :=
| of_nil : on_first devices devs []
| of_snoc tr v pre dev post :
    on_first devices devs tr → devs = pre ++ dev :: post →
    (∀ d, d ∈ pre → ¬ takes_on devices tr d v) → takes_on devices tr dev v →
    on_first devices devs (tr ++ [(v, dev)]).
Definition packing_spec devices (devs : list string) (vols : list PVolume) (res : option packing) : Prop :=
  match res with
  | Some acc => ∃ tr, tr.*1 = vols ∧ on_first devices devs tr ∧ records tr acc
  | None => ∃ v post tr, tr.*1 ++ v :: post = vols ∧ on_first devices devs tr ∧
      ∀ d, d ∈ devs → ¬ takes_on devices tr d v
  end.

(** The volume as it is kept on its disk, with its needs. *)
Definition translate (info : DiskInfo) v : PVolume :=
  if String.eqb (pv_QoS v) "NotBE" then set_Trans (read_need info v) (write_need info v) v else v.
Definition translated devices (p : PVolume * string) : PVolume * string :=
  (match devices !! p.2 with Some info => translate info p.1 | None => p.1 end, p.2).

Lemma translate_same info v :
  pv_Name (translate info v) = pv_Name v ∧ PvcName (translate info v) = PvcName v ∧
  pv_Size (translate info v) = pv_Size v ∧ pv_QoS (translate info v) = pv_QoS v.
Proof. unfold translate. by destruct (String.eqb _ _). Qed.
Lemma vols_on_translated devices dev info tr :
  devices !! dev = Some info → vols_on dev (translated devices <$> tr) = translate info <$> vols_on dev tr.
Proof.
  intros Hd. unfold vols_on. induction tr as [| [v d] tr IH]; [done |].
  rewrite fmap_cons, !filter_cons. simpl. case_decide; [subst | done].
  rewrite !fmap_cons, IH. simpl. by rewrite Hd.
Qed.

Definition left_device (dev : string) (info : DiskInfo) (ga : IOPoolStatus) (on : list PVolume) : PDevice :=
  mkPDevice dev
    (Some (mkPool (left_of ps_Total both_need info on) (left_of ps_In read_need info on)
             (left_of ps_Out write_need info on) (ps_UnderPressure ga) (ps_Num ga)))
    (di_BE info) (mkPool (fadd (BEDefaultRead info) (BEDefaultWrite info)) (BEDefaultRead info) (BEDefaultWrite info) false 0)
    (room info on).
Lemma left_of_snoc f g info on v :
  left_of f g info (on ++ [v]) =
  if String.eqb (pv_QoS v) "NotBE" then fsub (left_of f g info on) (g info v) else left_of f g info on.
Proof.
  unfold left_of. rewrite filter_app, foldl_app, filter_cons. simpl.
  destruct (String.eqb_spec (pv_QoS v) "NotBE"); case_decide; done.
Qed.
Lemma room_snoc info on v : room info (on ++ [v]) = wrap64 (room info on - pv_Size v).
Proof. unfold room. by rewrite foldl_app. Qed.

(** The packer's account of a disk is the one written out. *)
Lemma residual_written devices tr dev info ga :
  devices !! dev = Some info → di_GA info = Some ga →
  residual devices (translated devices <$> tr) dev = Ok (left_device dev info ga (vols_on dev tr)).
Proof.
  intros Hd Hga. unfold residual. rewrite Hd, (vols_on_translated _ _ _ _ Hd). simpl.
  induction (vols_on dev tr) as [| v on IH] using rev_ind.
  - simpl. unfold left_device, NewDevice, left_of. simpl. rewrite Hga. by destruct ga, (di_BE info) as [[] |].
  - rewrite fmap_app, foldM_app, IH. simpl. unfold pack.
    destruct (translate_same info v) as (_ & _ & -> & ->). unfold left_device. rewrite !left_of_snoc, room_snoc.
    change NotBE with "NotBE". unfold translate, sub64. by destruct (String.eqb (pv_QoS v) "NotBE").
Qed.
Lemma fits_on_written devices tr dev info v :
  default_parses → devices !! dev = Some info → disk_pools_set info →
  fits_on devices (translated devices <$> tr) dev v =
    Ok (if takes info (vols_on dev tr) v then (true, translate info v) else (false, v)).
Proof.
  intros Hp Hd [[ga Hga] [be Hbe]]. unfold fits_on.
  rewrite Hd. simpl. rewrite (residual_written _ _ _ _ _ Hd Hga). simpl. unfold canFit, takes, translate, both_need, read_need, write_need, need.
  destruct (ratio_total (BlockSizeRead v) (ReadRatio info) Hp) as [rr ->].
  destruct (ratio_total (BlockSizeWrite v) (WriteRatio info) Hp) as [wr ->]. simpl. rewrite Hga, Hbe. simpl.
  change NotBE with "NotBE". change BE_QoS with "BE".
  destruct (String.eqb (pv_QoS v) "NotBE"); [| destruct (String.eqb (pv_QoS v) "BE")].
  - rewrite (andb_comm (pv_Size v <=? _)), <- !andb_assoc, (andb_comm (negb _)), !andb_assoc. by destruct (_ && _).
  - rewrite (andb_comm (pv_Size v <=? _)), <- !andb_assoc, (andb_comm (negb _)), !andb_assoc. by destruct (_ && _).
  - by rewrite andb_false_r.
Qed.

Lemma first_fit_on_first devices devs vols tr :
  default_parses → map_Forall (λ _ d, disk_pools_set d) devices →
  (∀ d, d ∈ devs → is_Some (devices !! d)) → first_fit devices devs vols tr →
  ∃ tr0, tr = translated devices <$> tr0 ∧ tr0.*1 = vols ∧ on_first devices devs tr0.
Proof.
  intros Hp Hpools Hin. induction 1 as [| vols tr v v' pre dev post Hff IH Hdevs Hpre Hfit].
  { exists []. split_and!; [done | done | constructor]. }
  destruct IH as (tr0 & -> & <- & Hon).
  destruct (Hin dev) as [info Hd]; [rewrite Hdevs; set_solver |].
  rewrite (fits_on_written _ _ _ _ _ Hp Hd (Hpools _ _ Hd)) in Hfit.
  destruct (takes info _ v) eqn:Et; [| done]. injection Hfit as <-.
  exists (tr0 ++ [(v, dev)]). split_and!.
  - rewrite fmap_app. simpl. unfold translated at 3. simpl. by rewrite Hd.
  - by rewrite fmap_app.
  - eapply of_snoc; [done | exact Hdevs | | by exists info].
    intros d Hdp (info' & Hd' & Ht). specialize (Hpre d Hdp).
    rewrite (fits_on_written _ _ _ _ _ Hp Hd' (Hpools _ _ Hd')), Ht in Hpre. done.
Qed.
Lemma records_translated devices tr acc : records (translated devices <$> tr) acc → records tr acc.
Proof.
  assert (Hs : ∀ p, pv_Name (translated devices p).1 = pv_Name p.1 ∧ PvcName (translated devices p).1 = PvcName p.1 ∧
                    pv_Size (translated devices p).1 = pv_Size p.1).
  { intros [v d]. unfold translated. simpl. destruct (devices !! d) as [info |]; [| done].
    destruct (translate_same info v) as (? & ? & ? & _). done. }
  intros (H1 & H2 & H3). split_and!.
  - intros v d Hv. destruct (Hs (v, d)) as (E1 & E2 & E3). cbn in E1, E2, E3. rewrite <- E1, <- E2, <- E3. apply (H1 (translated devices (v, d)).1 d).
    by apply (list_elem_of_fmap_2 (translated devices)) in Hv.
  - intros k Hk. destruct (H2 k Hk) as (v & d & ([v0 d0] & E & Hv)%list_elem_of_fmap & <-).
    exists v0, d0. destruct (Hs (v0, d0)) as (E1 & _). rewrite <- E in E1. done.
  - intros k Hk. destruct (H3 k Hk) as (v & d & ([v0 d0] & E & Hv)%list_elem_of_fmap & <-).
    exists v0, d0. destruct (Hs (v0, d0)) as (_ & E1 & _). rewrite <- E in E1. done.
Qed.
Lemma packed_written devices devs vols res :
  default_parses → map_Forall (λ _ d, disk_pools_set d) devices → (∀ d, d ∈ devs → is_Some (devices !! d)) →
  packed devices devs vols res → packing_spec devices devs vols res.
Proof.
  intros Hp Hpools Hin. destruct res as [acc |]; simpl.
  - intros (tr & Hff & Hrec). destruct (first_fit_on_first _ _ _ _ Hp Hpools Hin Hff) as (tr0 & -> & <- & Hon).
    exists tr0. split_and!; [done | done |]. by apply (records_translated devices).
  - intros (pre & v & post & tr & -> & Hff & Hno).
    destruct (first_fit_on_first _ _ _ _ Hp Hpools Hin Hff) as (tr0 & -> & <- & Hon).
    exists v, post, tr0. split_and!; [done | done |]. intros d Hd (info & Hi & Ht). specialize (Hno d Hd).
    rewrite (fits_on_written _ _ _ _ _ Hp Hi (Hpools _ _ Hi)), Ht in Hno. done.
Qed.
(** The volumes of a disk, as the returned map names them. *)
Lemma vols_on_recorded (acc : packing) tr dev :
  (∀ v d, (v, d) ∈ tr → acc.1 !! pv_Name v = Some d) →
  filter (λ v, acc.1 !! pv_Name v = Some dev) tr.*1 = vols_on dev tr.
Proof.
  unfold vols_on. induction tr as [| [v d] tr IH]; intros Hrec; [done |].
  rewrite fmap_cons, !filter_cons. simpl. rewrite (Hrec v d) by (by left).
  rewrite IH by (intros; apply Hrec; by right). repeat case_decide; simplify_eq; done.
Qed.

(** C2: Pack is first fit.  When every disk has its pools, with finite and not
    negative guaranteed bandwidths, the names of the volumes and those of
    their claims are distinct, and the default block size parses, Pack
    returns.  It looks at the disks by decreasing total guaranteed bandwidth
    and places the volumes one by one, in some order, on the first disk that
    takes the volume beside those placed before: there is room for its size,
    and a guaranteed volume's translated read, write and total rates are each
    within the disk's guaranteed bandwidth less the translated rates of the
    guaranteed volumes already on it, which is not under pressure, while a
    best-effort volume needs a best-effort share above the disk's default.
    The two maps returned hold exactly the placement, and a refusal means a
    volume that no disk takes any more.  The devices left in the packer by
    earlier calls have no influence. *)
Theorem Pack_first_fit devices vols :
  default_parses → map_Forall (λ _ d, disk_good d) devices →
  NoDup (pv_Name <$> vols) → NoDup (PvcName <$> vols) →
  ∃ devs vols' res,
    devs ≡ₚ (map_to_list devices).*1 ∧ Sorted (by_total devices) devs ∧ vols' ≡ₚ vols ∧
    packing_spec devices devs vols' res ∧ ∀ slice, ∃ ds, Pack slice devices vols = Ok (ds, res).
Proof.
  intros Hp Hgood Hn Hc.
  destruct (Pack_spec devices vols Hp Hgood Hn Hc) as (devs & vols' & res & Hperm & Hs & Hvp & Hpacked & Hrun).
  exists devs, vols', res. split_and!; try done. apply packed_written; [done | | | done].
  - intros k d Hd. eapply disk_good_pools, Hgood, Hd.
  - intros d. rewrite Hperm. apply elem_of_keys.
Qed.

(** C7: Pack overcommits no disk.  When Pack succeeds, for disks with finite
    and not negative guaranteed bandwidths and ratios and a reserved space
    within their capacity, volumes with finite and not negative rates and
    sizes, distinct names of volumes and of claims, and a default block size
    that parses: every volume is on a known disk in both maps returned, with
    its own size; the sizes of the volumes that the allocation puts on a disk
    never exceed the disk's free space; and for every disk, its guaranteed
    read, write and total bandwidth less the translated rates of the
    guaranteed volumes that the returned map puts on it, subtracted in
    float64 in the order of the placement, is finite and not negative. *)
Theorem Pack_no_overcommit slice devices vols ds (acc : packing) :
  default_parses → map_Forall (λ _ d, disk_sane d) devices → Forall vol_sane vols →
  NoDup (pv_Name <$> vols) → NoDup (PvcName <$> vols) →
  Pack slice devices vols = Ok (ds, Some acc) →
  (∀ v, v ∈ vols → ∃ dev, is_Some (devices !! dev) ∧ acc.1 !! pv_Name v = Some dev ∧
                          acc.2 !! PvcName v = Some (mkPVCInfo dev (pv_Size v) false)) ∧
  (∀ dev info, devices !! dev = Some info →
     0 ≤ booked acc.2 dev vols ≤ free_space info) ∧
  ∃ vols', vols' ≡ₚ vols ∧ ∀ dev info, devices !! dev = Some info →
    let on := filter (λ v, acc.1 !! pv_Name v = Some dev) vols' in
    good (left_of ps_In read_need info on) ∧ good (left_of ps_Out write_need info on) ∧
    good (left_of ps_Total both_need info on).
Proof.
  intros Hp Hsane Hvols Hn Hc HP.
  assert (Hgood : map_Forall (λ _ d, disk_good d) devices) by (intros k d Hd; apply (Hsane k d Hd)).
  assert (Hpools : map_Forall (λ _ d, disk_pools_set d) devices)
    by (intros k d Hd; eapply disk_good_pools, Hgood, Hd).
  destruct (Pack_spec devices vols Hp Hgood Hn Hc)
    as (devs & vols' & res & Hperm & _ & Hvp & Hpacked & Hrun).
  destruct (Hrun slice) as [ds' Hrun']. rewrite HP in Hrun'. injection Hrun' as <- <-.
  destruct Hpacked as (tr & Hff & Hrec).
  assert (Hin : ∀ d, d ∈ devs → is_Some (devices !! d)) by (intros d; rewrite Hperm; apply elem_of_keys).
  assert (Hv' : Forall vol_sane vols') by by rewrite Hvp.
  pose proof (first_fit_residual devices devs vols' tr Hsane Hv' Hff) as Hres.
  pose proof (first_fit_placed devices devs vols' tr Hp Hpools Hin Hff) as Hall.
  split; [| split].
  - intros v. rewrite <- Hvp. intros [i Hv]%list_elem_of_lookup.
    destruct (Forall2_lookup_l _ _ _ _ _ Hall Hv) as ([v' dev] & Htr & Hdev & E1 & E2 & E3).
    apply list_elem_of_lookup_2 in Htr. simpl in *.
    exists dev. destruct Hrec as [Hrec _]. destruct (Hrec v' dev Htr). rewrite E1, E2, E3. auto.
  - intros dev info Hd. destruct (Hres dev info Hd) as (pd & _ & _ & H1 & H2 & H3).
    rewrite <- (booked_perm acc.2 dev vols' vols Hvp).
    rewrite (booked_vols_on devices vols' tr acc dev Hall); [lia |]. intros v d Hvd. by apply Hrec.
  - exists vols'. split; [done |]. intros dev info Hd.
    destruct (first_fit_on_first _ _ _ _ Hp Hpools Hin Hff) as (tr0 & -> & <- & _).
    apply records_translated in Hrec as [Hrec _].
    rewrite (vols_on_recorded acc tr0 dev) by (intros v d Hvd; by apply Hrec).
    destruct (Hres dev info Hd) as (pd & Hpd & (ga' & Hga' & Gt & Gi & Go) & _).
    destruct (Hpools dev info Hd) as [[ga Hga] _].
    rewrite (residual_written _ _ _ _ _ Hd Hga) in Hpd. injection Hpd as <-. injection Hga' as <-. done.
Qed.
End Packing.

(** ** Two volumes on two disks *)

Module BinPackExample.
Import FakeInstances.

Definition ga_of (t i o : Z) : IOPoolStatus := mkPool (of_Z t) (of_Z i) (of_Z o) false 0.
Definition disk_a : DiskInfo :=
  mkDiskInfo "sda" [mkRatio 4000 (of_Z 2); mkRatio 32000 (of_Z 1)] [] (of_Z 5) (of_Z 5)
    (Some (ga_of 500 300 300)) (Some (ga_of 100 50 50)) 1000 200 "".
Definition disk_b : DiskInfo :=
  mkDiskInfo "sdb" [] [] (of_Z 5) (of_Z 5)
    (Some (ga_of 400 200 200)) (Some (ga_of 100 50 50)) 2000 0 "".
Definition disks : gmap string DiskInfo := {["d1" := disk_a; "d2" := disk_b]}.
Definition vol_a : PVolume :=
  mkPVolume "data" "c1.ns" NotBE (of_Z 100) (of_Z 50) fzero fzero 4000 32000 600.
Definition vol_b : PVolume :=
  mkPVolume "logs" "c2.ns" BE_QoS fzero fzero fzero fzero 0 0 500.
Definition vol_c : PVolume :=
  mkPVolume "more" "c3.ns" NotBE (of_Z 60) (of_Z 60) fzero fzero 4000 4000 100.
Definition vols1 : list PVolume := [vol_b; vol_a; vol_c].
Definition acc1 : packing :=
  ({["data" := "d1"; "more" := "d2"; "logs" := "d2"]},
   {["c1.ns" := mkPVCInfo "d1" 600 false; "c3.ns" := mkPVCInfo "d2" 100 false;
     "c2.ns" := mkPVCInfo "d2" 500 false]}).
Definition slice1 : gmap string PDevice :=
  match Pack ∅ disks vols1 with Ok (ds, _) => ds | Crash _ => ∅ end.

Lemma disks_sane : map_Forall (λ _ d, disk_sane d) disks.
Proof.
  assert (Hg : ∀ n, 0 ≤ n ≤ 1000 → good (of_Z n)) by (intros; apply good_of_Z; lia).
  apply map_Forall_insert; [reflexivity |]. split; [| apply map_Forall_singleton].
  all: split; [split; [eexists; split; [reflexivity | repeat split; apply Hg; lia] | by eexists] |].
  all: split; [simpl; lia |]; split; [simpl; lia |]; split; repeat constructor; apply Hg; lia.
Qed.
Lemma disks_good : map_Forall (λ _ d, disk_good d) disks.
Proof. intros k d Hd. apply (disks_sane k d Hd). Qed.
Lemma vols1_sane : Forall vol_sane vols1.
Proof.
  assert (Hg : ∀ n, 0 ≤ n ≤ 1000 → good (of_Z n)) by (intros; apply good_of_Z; lia).
  repeat constructor; try (apply (Hg 0); lia); try (apply Hg; lia); simpl; lia.
Qed.
Lemma parses : default_parses (Q := quantity_fake).
Proof. by exists 32000. Qed.

Lemma Pack_first_fit_witness :
  Pack ∅ disks vols1 = Ok (slice1, Some acc1) ∧
  ∃ devs vols' res,
    devs ≡ₚ (map_to_list disks).*1 ∧ Sorted (by_total disks) devs ∧ vols' ≡ₚ vols1 ∧
    packing_spec disks devs vols' res ∧ ∀ slice, ∃ ds, Pack slice disks vols1 = Ok (ds, res).
Proof.
  split; [vm_eq |].
  apply (Pack_first_fit disks vols1);
    [exact parses | exact disks_good | apply (bool_decide_unpack _); vm_compute; exact I..].
Defined.

Lemma Pack_no_overcommit_witness :
  (∃ dev, is_Some (disks !! dev) ∧ acc1.1 !! "data" = Some dev ∧
          acc1.2 !! "c1.ns" = Some (mkPVCInfo dev 600 false)) ∧
  0 ≤ booked acc1.2 "d2" vols1 ≤ 2000.
Proof.
  destruct (Pack_no_overcommit ∅ disks vols1 slice1 acc1) as (Hv & Hb & _);
    [exact parses | exact disks_sane | exact vols1_sane
    | apply (bool_decide_unpack _); vm_compute; exact I..
    | vm_eq |].
  split; [apply (Hv vol_a); right; left | exact (Hb "d2" disk_b eq_refl)].
Defined.
End BinPackExample.
