(* ===== verification/BlockIOFacts.v ===== *)
(** * Facts about the disk plugin: admission, charging, releasing *)

From S2P Require Export BlockIO CacheFacts.
From S2P Require Import Fake.

Section Admission.
Context `{Q : QuantityLib} `{!JsonLib} `{!GoRange, !GoSort} {K : Type} `{!KubeClient K}.
Implicit Types (s : HS K) (n : BlockNodeInfo) (d : DiskInfo).

Definition be_min (d : DiskInfo) : IOPoolStatus :=
  mkPool (fadd (BEDefaultRead d) (BEDefaultWrite d)) (BEDefaultRead d) (BEDefaultWrite d) false 0.

(** What a disk must offer for one device request. *)
Definition disk_admits (d : DiskInfo) (req : StorageIORequest) : Prop :=
  StorageRequest req ≤ to_int64 (of_Z (sub64 (Capacity d) (RequestedDiskSpace d))) ∧
  (WorkloadType (IORequest req) = GaIndex →
   ∃ ga q, di_GA d = Some ga ∧ dev_quantity (IORequest req) = Ok q ∧ guarantees ga q) ∧
  (WorkloadType (IORequest req) = BeIndex → ∃ be, di_BE d = Some be ∧ shares be (be_min d)).

Lemma disk_pools_size d : size (disk_pools d) = 4%nat.
Proof.
  unfold disk_pools. rewrite !map_size_insert_None; [by rewrite map_size_singleton | ..];
    by simpl_map.
Qed.
Lemma disk_pools_GA d : disk_pools d !! GA_Type = Some (di_GA d).
Proof. by unfold disk_pools; simpl_map. Qed.
Lemma disk_pools_BE d : disk_pools d !! BE_Type = Some (di_BE d).
Proof. by unfold disk_pools; simpl_map. Qed.
Lemma disk_pools_BEM d : disk_pools d !! BE_Min_BW = Some (Some (be_min d)).
Proof. by unfold disk_pools; simpl_map. Qed.
Lemma disk_pools_storage d :
  disk_pools d !! AVAIL_STORAGE =
  Some (Some (mkPool (of_Z (sub64 (Capacity d) (RequestedDiskSpace d))) fzero fzero false 0)).
Proof. by unfold disk_pools; simpl_map. Qed.

Lemma admit_device_None node n dev req :
  admit_device node (node_pools n) dev req = Ok None ↔
  ∃ d, DisksStatus n !! dev = Some d ∧ disk_admits d req.
Proof.
  unfold admit_device, node_pools. rewrite lookup_fmap.
  destruct (DisksStatus n !! dev) as [d |]; simpl; [| naive_solver].
  rewrite disk_pools_size. simpl.
  rewrite disk_pools_storage, disk_pools_GA, disk_pools_BE, disk_pools_BEM. simpl.
  unfold disk_admits.
  destruct (Z.ltb_spec (to_int64 (of_Z (sub64 (Capacity d) (RequestedDiskSpace d))))
              (StorageRequest req)) as [Hlt | Hge].
  { split; [done |]. intros (? & [= <-] & ? & _). lia. }
  destruct (Z.eqb_spec (WorkloadType (IORequest req)) GaIndex) as [Hga | Hga].
  - rewrite Hga. destruct (di_GA d) as [ga |] eqn:Ega; simpl.
    2: { split; [done |]. intros (? & [= <-] & _ & Hg & _).
         destruct (Hg eq_refl) as (? & ? & Hn & _). congruence. }
    destruct (ps_UnderPressure ga) eqn:Hp.
    { split.
      - intros [= Hc]. apply check_GA_None in Hc as [Hu _]. congruence.
      - intros (? & [= <-] & _ & Hg & _). destruct (Hg eq_refl) as (? & ? & Hn & _ & Hu & _).
        congruence. }
    destruct (dev_quantity (IORequest req)) as [q |]; simpl.
    + split.
      * intros [= Hc%check_GA_None]. exists d. repeat split; [done | eauto 6 | done].
      * intros (? & [= <-] & _ & Hg & _). destruct (Hg eq_refl) as (? & ? & Hn & [= <-] & Hq).
        f_equal. apply check_GA_None. congruence.
    + split; [done |]. intros (? & [= <-] & _ & Hg & _).
      destruct (Hg eq_refl) as (? & ? & _ & [=] & _).
  - destruct (Z.eqb_spec (WorkloadType (IORequest req)) BeIndex) as [Hbe | Hbe].
    + destruct (di_BE d) as [be |] eqn:Ebe; simpl.
      2: { split; [done |]. intros (? & [= <-] & _ & _ & Hg).
           destruct (Hg Hbe) as (? & Hn & _). congruence. }
      split.
      * intros [= Hc%check_BE_None]. exists d. repeat split; [done | done | eauto].
      * intros (? & [= <-] & _ & _ & Hg). destruct (Hg Hbe) as (? & Hn & Hs).
        f_equal. apply check_BE_None. congruence.
    + split; [| done]. intros _. exists d. repeat split; done.
Qed.

(** The blockio node cached under a name. *)
Definition cached_node s (nodeName : string) (b : BlockResource) (n : BlockNodeInfo) : Prop :=
  hs_cache s !! nodeName = Some (ER_Block b) ∧ br_info b = Some n.

Lemma CanAdmitPod_iff s nodeName req ps :
  CanAdmitPod s nodeName (any_block req) = Ok (inl ps) ↔
  ∃ b n, cached_node s nodeName b n ∧ ps = any_pools (node_pools n) ∧
         ∀ dev r, ResourceRequest req !! dev = Some r →
                  ∃ d, DisksStatus n !! dev = Some d ∧ disk_admits d r.
Proof.
  unfold CanAdmitPod, get_block, GetExtendedResource, cached_node.
  destruct (hs_cache s !! nodeName) as [[b | | |] |]; simpl; [| naive_solver..].
  destruct (br_info b) as [n |] eqn:Eb; simpl; [| naive_solver].
  pose proof (for_range_check (λ kv, admit_device nodeName (node_pools n) kv.1 kv.2)
                (range (ResourceRequest req))) as Hc.
  rewrite Forall_forall in Hc.
  assert (Hall : (∀ x, x ∈ range (ResourceRequest req) →
                       admit_device nodeName (node_pools n) x.1 x.2 = Ok None) ↔
                 ∀ dev r, ResourceRequest req !! dev = Some r →
                          ∃ d, DisksStatus n !! dev = Some d ∧ disk_admits d r).
  { setoid_rewrite <- (admit_device_None nodeName). split.
    - intros Ha dev r Hr. apply (Ha (dev, r)). by apply elem_of_range.
    - intros Ha [dev r] Hr. apply Ha. by apply elem_of_range in Hr. }
  rewrite Hall in Hc. clear Hall.
  destruct (for_range _ _ _) as [[[] | err] |]; simpl; (split; [| naive_solver]);
    intros [=]; subst. exists b, n. split; [done |]. split; [done |]. by apply Hc.
Qed.

(** ** AddPod: the exact charge *)

(** The specification of one device request on its disk, written out: a
    guaranteed request takes its read rate, its write rate and their sum from
    the guaranteed pool, a best-effort one counts in the best-effort pool, and
    everything else of the disk stays. *)
Definition charge (r : IOResourceRequest) (d : DiskInfo) : DiskInfo :=
  let with_pools ga be :=
    mkDiskInfo (DiskName d) (ReadRatio d) (WriteRatio d) (BEDefaultRead d) (BEDefaultWrite d)
      ga be (Capacity d) (RequestedDiskSpace d) (MountPath d) in
  if WorkloadType r =? GaIndex then
    match di_GA d, dev_quantity r with
    | Some p, Ok q =>
        with_pools
          (Some (mkPool (fsub (ps_Total p) (fadd (Inbps q) (Outbps q))) (fsub (ps_In p) (Inbps q))
                   (fsub (ps_Out p) (Outbps q)) (ps_UnderPressure p) (ps_Num p))) (di_BE d)
    | _, _ => d
    end
  else if WorkloadType r =? BeIndex then
    match di_BE d with
    | Some p =>
        with_pools (di_GA d)
          (Some (mkPool (ps_Total p) (ps_In p) (ps_Out p) (ps_UnderPressure p) (wrap64 (ps_Num p + 1))))
    | None => d
    end
  else d.

(** Every requested device of the map, at once. *)
Definition charge_all (reqs : gmap string StorageIORequest) (m : gmap string DiskInfo)
    : gmap string DiskInfo :=
  map_imap (λ dev d, Some (match reqs !! dev with
                           | Some r => charge (IORequest r) d
                           | None => d
                           end)) m.

Lemma take_device_charge dev req d :
  disk_admits d req → take_device dev (IORequest req) d = Ok (charge (IORequest req) d).
Proof.
  intros (_ & Hga & Hbe). unfold take_device, charge.
  destruct (Z.eqb_spec (WorkloadType (IORequest req)) GaIndex) as [E |].
  { destruct (Hga E) as (ga & q & -> & -> & _). done. }
  destruct (Z.eqb_spec (WorkloadType (IORequest req)) BeIndex) as [E |]; [| done].
  destruct (Hbe E) as (be & -> & _). done.
Qed.

Definition charge_list (l : list (string * StorageIORequest)) (m : gmap string DiskInfo) :=
  foldl (λ m kv, alter (charge (IORequest kv.2)) kv.1 m) m l.

Lemma charge_list_range reqs m : charge_list (range reqs) m = charge_all reqs m.
Proof.
  apply map_eq. intros i. unfold charge_list.
  rewrite (lookup_foldl_alter (λ r, charge (IORequest r))) by apply NoDup_range.
  rewrite list_to_map_range. unfold charge_all. rewrite map_lookup_imap.
  destruct (reqs !! i), (m !! i); done.
Qed.

Definition admitted n (l : list (string * StorageIORequest)) : Prop :=
  ∀ dev r, (dev, r) ∈ l → ∃ d, DisksStatus n !! dev = Some d ∧ disk_admits d r.

Lemma take_steps_charge name l n arr :
  NoDup l.*1 → admitted n l →
  for_range l (n, arr) (take_step name) =
  Ok (Next (set_Disks (charge_list l (DisksStatus n)) n, arr ++ ((λ kv, IORequest kv.2) <$> l))).
Proof.
  revert n arr. induction l as [| [dev r] l IH]; intros n arr Hnd Hadm; simpl.
  { rewrite app_nil_r. by destruct n. }
  apply NoDup_cons in Hnd as [Hdev Hnd]. simpl in Hdev.
  destruct (Hadm dev r) as (d & Hd & Had); [by left |]. rewrite Hd. simpl.
  rewrite (take_device_charge dev r d Had). simpl. rewrite IH; [| done |].
  - rewrite <- app_assoc. simpl. by rewrite (insert_alter (charge (IORequest r)) _ _ _ Hd).
  - intros dev' r' Hin. destruct (Hadm dev' r') as (d' & Hd' & Had'); [by right |].
    exists d'. split; [| done]. simpl. rewrite lookup_insert_ne; [done |].
    intros <-. apply Hdev. by apply (list_elem_of_fmap_2 fst _ (dev, r')).
Qed.

Lemma take_devices_charge name l n :
  NoDup l.*1 → admitted n l →
  take_devices name l n =
  Ok (Next (set_Disks (charge_list l (DisksStatus n)) n, (λ kv, IORequest kv.2) <$> l)).
Proof.
  intros Hnd Hadm. unfold take_devices. by rewrite (take_steps_charge name l n []).
Qed.

(** The node after the charge, in the store. *)
Definition charged_store s (node : string) (b : BlockResource) n (req : RequestInfo) : HS K :=
  set_cache (<[node := ER_Block (mkBlockResource (br_nodeName b)
    (Some (set_Disks (charge_all (ResourceRequest req) (DisksStatus n)) n)))]> (hs_cache s)) s.
Definition charged_requests (req : RequestInfo) : list IOResourceRequest :=
  (λ kv, IORequest kv.2) <$> range (ResourceRequest req).

Lemma admitted_take s node req ps :
  CanAdmitPod s node (any_block req) = Ok (inl ps) →
  ∃ b n, cached_node s node b n ∧
    take_devices (br_nodeName b) (range (ResourceRequest req)) n =
    Ok (Next (set_Disks (charge_all (ResourceRequest req) (DisksStatus n)) n,
              charged_requests req)).
Proof.
  intros (b & n & Hc & _ & Had)%CanAdmitPod_iff. exists b, n. split; [done |].
  rewrite take_devices_charge; [by rewrite charge_list_range | apply NoDup_range |].
  intros dev r Hin%elem_of_range. by apply Had.
Qed.

(** Binding volumes changes the context and the config map only. *)
Lemma volumeDeviceMapping_cache b pvcs pod node s r s' :
  volumeDeviceMapping b pvcs pod node s = Ok (r, s') → hs_cache s' = hs_cache s.
Proof.
  unfold volumeDeviceMapping. intros E. inv_ok E.
  destruct x1 as [[mapping c] | [err c]]; [| by simplify_eq].
  destruct (size mapping =? 0)%nat; [by simplify_eq |]. simpl in E.
  destruct (GetVolumeDeviceMap _ _) as [cm | err].
  - destruct (cm_update _ _). by simplify_eq.
  - destruct (IsNotFound err); [| by simplify_eq]. destruct (cm_create _ _). by simplify_eq.
Qed.

Lemma cached_node_inj s node b n b' n' :
  cached_node s node b n → cached_node s node b' n' → b' = b ∧ n' = n.
Proof. unfold cached_node. naive_solver. Qed.

Lemma res_AddPod_admitted s node b n pod req ps r s' :
  CanAdmitPod s node (any_block req) = Ok (inl ps) →
  cached_node s node b n →
  res_AddPod node b pod (any_block req) s = Ok (r, s') →
  hs_cache s' = hs_cache (charged_store s node b n req) ∧
  match r with
  | Added reqs => reqs = charged_requests req
  | AddError _ => PvcToDevice req ≠ ∅
  | AddRefused _ => False
  end.
Proof.
  intros (b' & n' & Hc' & Ht)%admitted_take Hc.
  destruct (cached_node_inj _ _ _ _ _ _ Hc Hc') as [-> ->].
  destruct Hc as [_ Hn]. unfold res_AddPod. rewrite Hn. simpl. rewrite Ht. simpl. intros E.
  destruct (Nat.eqb_spec (size (PvcToDevice req)) 0) as [Hz | Hz]; inv_ok E.
  - destruct x. apply print_cache_inv in E0 as [-> _]. by simplify_eq.
  - assert (PvcToDevice req ≠ ∅) by (intros He; apply Hz; by rewrite He).
    destruct x as [[err |] s1]; apply volumeDeviceMapping_cache in E0.
    + by simplify_eq.
    + inv_ok E. destruct x. apply print_cache_inv in E1 as [-> _]. simplify_eq.
      split; [by rewrite E0 | done].
Qed.

Lemma lookup_charge_all reqs (m : gmap string DiskInfo) dev :
  charge_all reqs m !! dev =
  match reqs !! dev with
  | Some q => charge (IORequest q) <$> m !! dev
  | None => m !! dev
  end.
Proof. unfold charge_all. rewrite map_lookup_imap. by destruct (reqs !! dev), (m !! dev). Qed.

(** C5: AddPod charges exactly what was requested.  When CanAdmitPod has
    admitted the request on the node as the cache holds it and AddPod returns:
    for every device of the request map the disk's guaranteed pool is the old
    one less the request's read rate, write rate and their sum (in float64),
    for a guaranteed request, or the number in its best-effort pool has grown
    by one, for a best-effort request; nothing else of the disk, no other disk
    and no other node of the cache changes, whatever order the map is ranged
    over; and the requests returned for the pod are those of the map.  An
    error can only come from binding the pod's claims. *)
Theorem AddPod_charges_exactly s node b n pod req ps r s' :
  CanAdmitPod s node (any_block req) = Ok (inl ps) →
  cached_node s node b n →
  res_AddPod node b pod (any_block req) s = Ok (r, s') →
  (∃ n', cached_node s' node (mkBlockResource (br_nodeName b) (Some n')) n' ∧
     EmptyDirDevice n' = EmptyDirDevice n ∧
     ∀ dev, DisksStatus n' !! dev =
            match ResourceRequest req !! dev with
            | Some q => charge (IORequest q) <$> DisksStatus n !! dev
            | None => DisksStatus n !! dev
            end) ∧
  (∀ node', node' ≠ node → hs_cache s' !! node' = hs_cache s !! node') ∧
  match r with
  | Added reqs => reqs ≡ₚ (λ kv, IORequest kv.2) <$> map_to_list (ResourceRequest req)
  | AddError _ => PvcToDevice req ≠ ∅
  | AddRefused _ => False
  end.
Proof.
  intros Had Hc HA. destruct (res_AddPod_admitted _ _ _ _ _ _ _ _ _ Had Hc HA) as [E Hr].
  split; [| split].
  - eexists. split; [split; [by rewrite E; simpl; rewrite lookup_insert_eq | done] |].
    split; [done |]. intros dev. apply lookup_charge_all.
  - intros node' Hne. rewrite E. simpl. by rewrite lookup_insert_ne.
  - destruct r; [| done..]. rewrite Hr. apply fmap_Permutation, range_perm.
Qed.

(** ** GA pools are never overcommitted *)

Definition ga_good (d : DiskInfo) : Prop := ∃ ga, di_GA d = Some ga ∧ pool_good ga.
Definition request_good (r : IOResourceRequest) : Prop :=
  WorkloadType r = GaIndex → ∀ q, dev_quantity r = Ok q → quantity_good q.

Lemma charge_good d req :
  ga_good d → disk_admits d req → request_good (IORequest req) → ga_good (charge (IORequest req) d).
Proof.
  intros (ga & Hga & Hg) (_ & Ha & _) Hq. unfold charge.
  destruct (Z.eqb_spec (WorkloadType (IORequest req)) GaIndex) as [E |].
  - destruct (Ha E) as (ga' & q & Hga' & Hdq & Hgu). rewrite Hga', Hdq. simplify_eq.
    eexists. split; [done |]. apply pool_take_good; auto.
  - destruct (_ =? BeIndex); [| by exists ga]. destruct (di_BE d); by exists ga.
Qed.

(** C1: A pod that CanAdmitPod admits never overcommits a disk. When the
    guaranteed pools of the node's disks are finite and not negative, and the
    rates requested are too, then after AddPod every disk of the node still
    has a guaranteed pool with non-negative, finite total, read and write
    bandwidth, rounding of the subtractions included, and even when the pod's
    volumes could not be bound. *)
Theorem admitted_AddPod_no_overcommit s node b n pod req ps r s' b' n' :
  map_Forall (λ _ d, ga_good d) (DisksStatus n) →
  map_Forall (λ _ q, request_good (IORequest q)) (ResourceRequest req) →
  cached_node s node b n →
  CanAdmitPod s node (any_block req) = Ok (inl ps) →
  res_AddPod node b pod (any_block req) s = Ok (r, s') →
  cached_node s' node b' n' →
  map_Forall (λ _ d, ga_good d) (DisksStatus n').
Proof.
  intros Hg Hr Hc Had HA [Hc' Hi'].
  destruct (res_AddPod_admitted _ _ _ _ _ _ _ _ _ Had Hc HA) as [E _].
  rewrite E in Hc'. simpl in Hc'. rewrite lookup_insert_eq in Hc'. simplify_eq. simpl in Hi'.
  simplify_eq. intros dev d Hd. simpl in Hd. rewrite lookup_charge_all in Hd.
  destruct (ResourceRequest req !! dev) as [q |] eqn:Eq; [| by eapply Hg].
  apply CanAdmitPod_iff in Had as (b'' & n'' & Hc'' & _ & Had).
  destruct (cached_node_inj _ _ _ _ _ _ Hc Hc'') as [-> ->].
  destruct (Had dev q Eq) as (d' & Hd' & Hadm). rewrite Hd' in Hd. simpl in Hd. simplify_eq.
  apply charge_good; [by eapply Hg | done | by eapply Hr].
Qed.

(** ** RemovePod undoes AddPod *)

(** One request of a removed pod on its disk. *)
Definition release (r : IOResourceRequest) (d : DiskInfo) : DiskInfo :=
  if WorkloadType r =? GaIndex then
    match di_GA d, dev_quantity r with
    | Some ga, Ok q => set_GA (Some (pool_give ga (Inbps q) (Outbps q))) d
    | _, _ => d
    end
  else if WorkloadType r =? BeIndex then
    match di_BE d with
    | Some be => set_BE (Some (pool_set_num be (num_dec (ps_Num be)))) d
    | None => d
    end
  else d.

Definition pools_present (d : DiskInfo) : Prop := is_Some (di_GA d) ∧ is_Some (di_BE d).

Lemma give_device_release r d :
  pools_present d → (WorkloadType r = GaIndex → ∃ q, dev_quantity r = Ok q) →
  give_device r d = Ok (release r d).
Proof.
  intros [[ga Hga] [be Hbe]] Hq. unfold give_device, release.
  destruct (Z.eqb_spec (WorkloadType r) GaIndex) as [E |].
  - destruct (Hq E) as [q ->]. rewrite Hga, E. done.
  - simpl. destruct (Z.eqb_spec (WorkloadType r) BeIndex); [by rewrite Hbe | done].
Qed.

(** A disk request as the annotations produce it: for the device it is
    filed under, with a quantity when it is guaranteed. *)
Definition disk_request (dev : string) (r : IOResourceRequest) : Prop :=
  IoType r = IOType_DiskIO ∧ (∃ dr, DevRequest r = Some dr ∧ DevName dr = dev) ∧
  (WorkloadType r = GaIndex → ∃ q, dev_quantity r = Ok q).

Lemma give_steps_release name l n :
  NoDup l.*1 →
  (∀ dev r, (dev, r) ∈ l →
     disk_request dev r ∧ ∃ d, DisksStatus n !! dev = Some d ∧ pools_present d) →
  for_range l.*2 n (give_step name) =
  Ok (Next (set_Disks (foldl (λ m kv, alter (release kv.2) kv.1 m) (DisksStatus n) l) n)).
Proof.
  revert n. induction l as [| [dev r] l IH]; intros n Hnd Hl; simpl; [by destruct n |].
  apply NoDup_cons in Hnd as [Hdev Hnd]. simpl in Hdev.
  destruct (Hl dev r) as ((Hio & (dr & Hdr & Hname) & Hq) & d & Hd & Hp); [by left |].
  unfold give_step at 1. rewrite bool_decide_eq_true_2, Hdr by done. simpl. rewrite Hname, Hd.
  rewrite (give_device_release r d Hp Hq). simpl. rewrite IH; [| done |].
  - simpl. by rewrite (insert_alter (release r) _ _ _ Hd).
  - intros dev' r' Hin. destruct (Hl dev' r') as (Hr' & d' & Hd' & Hp'); [by right |].
    split; [done |]. exists d'. split; [| done]. simpl. rewrite lookup_insert_ne; [done |].
    intros <-. apply Hdev. by apply (list_elem_of_fmap_2 fst _ (dev, r')).
Qed.

(** A disk whose guaranteed pool is in whole megabytes, and a request with a
    quantity in whole megabytes: arithmetic on them is exact. *)
Definition disk_int (d : DiskInfo) : Prop :=
  ∃ ga be t i o, di_GA d = Some ga ∧ di_BE d = Some be ∧ pool_int ga t i o ∧
    small t ∧ small i ∧ small o ∧ 0 ≤ ps_Num be < 2 ^ 63 - 1.
Definition request_int (r : IOResourceRequest) : Prop :=
  ∀ q, dev_quantity r = Ok q → ∃ i o, quantity_int q i o ∧ small i ∧ small o.

Lemma release_charge r d : disk_int d → request_int r → release r (charge r d) = d.
Proof.
  intros (ga & be & t & i & o & Hga & Hbe & Hp & St & Si & So & Hn) Hr. unfold release, charge.
  destruct (Z.eqb_spec (WorkloadType r) GaIndex).
  - rewrite Hga. destruct (dev_quantity r) as [q |] eqn:Eq; [| by rewrite Hga].
    destruct (Hr q) as (x & y & Hq & Sx & Sy); [exact Eq |]. simpl.
    change (mkPool _ _ _ _ _) with (pool_take ga (Inbps q) (Outbps q)).
    rewrite (pool_take_give ga q t i o x y) by done. destruct d; simpl in *. by subst.
  - destruct (Z.eqb_spec (WorkloadType r) BeIndex); [| done]. rewrite Hbe. simpl.
    change (wrap64 (ps_Num be + 1)) with (add64 (ps_Num be) 1). rewrite num_inc_dec by done. destruct d, be; simpl in *. by subst.
Qed.

Lemma charge_present r d : pools_present d → pools_present (charge r d).
Proof.
  intros [[ga Hga] [be Hbe]]. unfold charge, pools_present. rewrite Hga, Hbe.
  destruct (_ =? GaIndex); [destruct (dev_quantity r); eauto |].
  destruct (_ =? BeIndex); eauto.
Qed.

Lemma give_skip name l n :
  for_range l n (give_step name) =
  for_range (filter (λ r, IoType r = IOType_DiskIO) l) n (give_step name).
Proof.
  revert n. induction l as [| r l IH]; intros n; [done |]. rewrite filter_cons.
  destruct (decide (IoType r = IOType_DiskIO)) as [E | E]; simpl.
  - destruct (give_step name n r) as [[] |]; simpl; auto.
  - unfold give_step at 1. rewrite bool_decide_eq_false_2 by done. apply IH.
Qed.

(** Charging a request map and releasing its requests is the identity. *)
Lemma release_charge_all name reqs n :
  map_Forall (λ _ d, disk_int d) (DisksStatus n) →
  map_Forall (λ dev q, disk_request dev (IORequest q) ∧ request_int (IORequest q)) reqs →
  (∀ dev q, reqs !! dev = Some q → is_Some (DisksStatus n !! dev)) →
  for_range ((λ kv, IORequest kv.2) <$> range reqs)
    (set_Disks (charge_all reqs (DisksStatus n)) n) (give_step name) = Ok (Next n).
Proof.
  intros Hd Hr Hin. set (l := (λ kv, (kv.1, IORequest kv.2)) <$> range reqs).
  assert (Hl1 : l.*1 = (range reqs).*1) by (unfold l; rewrite <- list_fmap_compose; done).
  assert (Hl2 : l.*2 = (λ kv, IORequest kv.2) <$> range reqs)
    by (unfold l; rewrite <- list_fmap_compose; done).
  assert (Hnd : NoDup l.*1) by (rewrite Hl1; apply NoDup_range).
  assert (Hmem : ∀ dev r, (dev, r) ∈ l → ∃ q, reqs !! dev = Some q ∧ r = IORequest q).
  { intros dev r ([k q] & [= -> ->] & Hk)%list_elem_of_fmap. exists q.
    by apply elem_of_range in Hk. }
  rewrite <- Hl2, give_steps_release; [| done |].
  - f_equal. f_equal. destruct n as [m e]. unfold set_Disks. simpl in *. f_equal.
    apply map_eq. intros i. rewrite (lookup_foldl_alter release) by done.
    rewrite lookup_charge_all. assert (Hlm : (list_to_map l : gmap string _) = IORequest <$> reqs).
    { apply map_eq. intros k. rewrite lookup_fmap. destruct (reqs !! k) as [q |] eqn:Ek; simpl.
      - apply elem_of_list_to_map; [done |]. apply list_elem_of_fmap. exists (k, q).
        split; [done |]. by apply elem_of_range.
      - apply not_elem_of_list_to_map. rewrite Hl1. intros ([k' q] & -> & Hk)%list_elem_of_fmap.
        apply elem_of_range in Hk. simpl in Ek. congruence. }
    rewrite Hlm, lookup_fmap. destruct (reqs !! i) as [q |] eqn:Ei; simpl; [| done].
    destruct (m !! i) as [d |] eqn:Em; simpl; [| done]. f_equal.
    apply release_charge; [by eapply Hd | by eapply Hr].
  - intros dev r (q & Hq & ->)%Hmem. split; [by eapply Hr |]. simpl. rewrite lookup_charge_all, Hq.
    destruct (Hin dev q Hq) as [d Hdd]. rewrite Hdd. simpl. eexists. split; [done |].
    apply charge_present. destruct (Hd _ _ Hdd) as (ga & be & ? & ? & ? & Hga & Hbe & _).
    split; eauto.
Qed.

(** C6: RemovePod undoes AddPod, for amounts in which float64 is exact.  When
    the guaranteed pools of the node's disks and the requests of the pod are
    whole numbers of at most 2^50 in size and the pod was admitted, added
    without an error and recorded in the context with the requests that AddPod
    returned, next to those of other plugins, then, with the cache as AddPod
    left it and the lock of the context free, RemovePod by the informer, which
    passes no client and so unbinds no claim, returns without an error and
    leaves the cache that was there before AddPod, and the context and the API
    server as they were. *)
Theorem AddPod_RemovePod_roundtrip s node b n pod req ps reqs s1 s2 pl pr :
  br_nodeName b = node →
  cached_node s node b n →
  map_Forall (λ _ d, disk_int d) (DisksStatus n) →
  map_Forall (λ dev q, disk_request dev (IORequest q) ∧ request_int (IORequest q))
    (ResourceRequest req) →
  CanAdmitPod s node (any_block req) = Ok (inl ps) →
  res_AddPod node b pod (any_block req) s = Ok (Added reqs, s1) →
  hs_cache s2 = hs_cache s1 → locked (hs_ctx s2) = false →
  GetReservedPods (hs_ctx s2) node = inl (Some pl) →
  pl_PodList pl !! pod_UID pod = Some pr →
  filter (λ r, IoType r = IOType_DiskIO) (pr_Request pr) = reqs →
  ∃ b1 s3, hs_cache s2 !! node = Some (ER_Block b1) ∧
    res_RemovePod node b1 pod false s2 = Ok (None, s3) ∧
    hs_cache s3 = hs_cache s ∧ hs_ctx s3 = hs_ctx s2 ∧ hs_kube s3 = hs_kube s2.
Proof.
  intros Hname Hc Hd Hr Had HA Hc2 Hlk Hpl Hpr Hf.
  destruct (res_AddPod_admitted _ _ _ _ _ _ _ _ _ Had Hc HA) as [E ->].
  rewrite Hc2, E. simpl. rewrite lookup_insert_eq. do 2 eexists. split; [done |].
  unfold res_RemovePod, ctx_Lock. rewrite Hlk. simpl. rewrite Hname.
  replace (GetReservedPods (set_locked true (hs_ctx s2)) node)
    with (GetReservedPods (hs_ctx s2) node) by done.
  rewrite Hpl. simpl. rewrite Hpr. unfold give_devices. rewrite give_skip, Hf.
  unfold charged_requests. rewrite release_charge_all; [| done | done |].
  - simpl. split; [done |]. simpl. rewrite Hc2, E. simpl. split; [| split].
    + unfold SetExtendedResource. rewrite insert_insert_eq. apply insert_id. destruct Hc as [-> Hn].
      destruct b. simpl in *. by subst.
    + destruct (hs_ctx s2). simpl in *. by subst.
    + done.
  - intros dev q Hq. apply CanAdmitPod_iff in Had as (b' & n' & Hc' & _ & Had).
    destruct (cached_node_inj _ _ _ _ _ _ Hc Hc') as [-> ->].
    destruct (Had dev q Hq) as (d & -> & _). by eexists.
Qed.

(** ** Locking defects *)

(** Removing a pod through the scheduler (Unreserve passes a client)
    while its first volume is a claim of this provisioner that is still
    pending never returns: RemovePod holds the context's mutex, and
    undoVolumeDeviceMapping locks it again. *)
Theorem RemovePod_pending_claim_deadlocks s b n n' pod pl pr vol rest claim pvc k' :
  locked (hs_ctx s) = false →
  GetReservedPods (hs_ctx s) (br_nodeName b) = inl (Some pl) →
  pl_PodList pl !! pod_UID pod = Some pr →
  br_info b = Some n →
  give_devices (br_nodeName b) (pr_Request pr) n = Ok (Next n') →
  pod_Volumes pod = vol :: rest → vol_PVC vol = Some claim →
  ioi_claim (hs_kube s) claim (pod_Namespace pod) = Ok true →
  pvc_get (hs_kube s) (pod_Namespace pod) claim = inl pvc → pvc_Phase pvc = ClaimPending →
  RemovePVCsFromVolDiskCm (hs_kube s) pvc (br_nodeName b) = (k', None) →
  ∀ node, res_RemovePod node b pod true s = Crash SelfDeadlock.
Proof.
  intros Hlk Hpl Hpr Hn Hg Hv Hc Hi Hp Hph Hrm node.
  unfold res_RemovePod, ctx_Lock. rewrite Hlk. simpl.
  replace (GetReservedPods (set_locked true (hs_ctx s)) (br_nodeName b))
    with (GetReservedPods (hs_ctx s) (br_nodeName b)) by done.
  rewrite Hpl. simpl. rewrite Hpr, Hn. simpl. rewrite Hg. simpl.
  unfold podHasPVCs. rewrite Hv. simpl. rewrite Hc, Hi. simpl.
  unfold undoVolumeDeviceMapping. rewrite Hv. simpl. rewrite Hc. simpl. rewrite Hi. simpl.
  rewrite Hp, Hph. simpl. rewrite Hrm. simpl. done.
Qed.

(** A claim of this provisioner, mounted by the pod, that the admitted
    request does not place on a disk. *)
Definition unplaced (k : K) (pod : Pod) (pvcs : gmap string PVCInfo) (vol : Volume) : Prop :=
  ∃ claim, vol_PVC vol = Some claim ∧ ioi_claim k claim (pod_Namespace pod) = Ok true ∧
           pvcs !! pvc_key claim (pod_Namespace pod) = None.

(** When AddPod fails because a mounted claim has no place in the
    request, it returns with the context's mutex held: the error is
    reported, and the next operation that locks the context never returns. *)
Theorem AddPod_error_keeps_lock s node b n pod req ps vol rest :
  CanAdmitPod s node (any_block req) = Ok (inl ps) → cached_node s node b n →
  locked (hs_ctx s) = false → PvcToDevice req ≠ ∅ →
  pod_Volumes pod = vol :: rest → unplaced (hs_kube s) pod (PvcToDevice req) vol →
  ∃ err s', res_AddPod node b pod (any_block req) s = Ok (AddError err, s') ∧
    (∀ r p m, Context.AddPod (hs_ctx s') r p m = Crash SelfDeadlock) ∧
    (∀ p m, Context.RemovePod (hs_ctx s') p m = Crash SelfDeadlock).
Proof.
  intros (b' & n' & Hc' & Ht)%admitted_take Hc Hlk Hne Hv (claim & Hvc & Hi & Hno).
  destruct (cached_node_inj _ _ _ _ _ _ Hc Hc') as [-> ->].
  destruct Hc as [_ Hn]. unfold res_AddPod. rewrite Hn. simpl. rewrite Ht. simpl.
  destruct (Nat.eqb_spec (size (PvcToDevice req)) 0) as [Hz | _].
  { apply map_size_empty_inv in Hz. done. }
  unfold volumeDeviceMapping, ctx_Lock. simpl. rewrite Hlk. simpl. unfold bind_volumes.
  rewrite Hv. simpl. rewrite Hvc, Hi. simpl. rewrite Hno. simpl.
  do 2 eexists. split; [done |]. split; intros; done.
Qed.
End Admission.

(** ** Requests from annotations *)

Section Requests.
Context `{Q : QuantityLib} `{!JsonLib} `{!GoRange, !GoSort} {K : Type} `{!KubeClient K}.

(** Neither bandwidth is below the disk's best-effort default. *)
Definition above_default (d : DiskInfo) (q : Quantity) : Prop :=
  flt (Inbps q) (BEDefaultRead d) = false ∧ flt (Outbps q) (BEDefaultWrite d) = false.
(** The four bandwidths of an annotation. *)
Definition no_bandwidth (d : DiskInfo) (a : VolumeAnnoThroughput) : Prop :=
  parse_bw (Rbps (va_Requests a)) (ReadRatio d) = Ok None ∧
  parse_bw (Wbps (va_Requests a)) (WriteRatio d) = Ok None ∧
  parse_bw (Rbps (va_Limits a)) (ReadRatio d) = Ok None ∧
  parse_bw (Wbps (va_Limits a)) (WriteRatio d) = Ok None.

Lemma raise_bps_above d q : above_default d (raise_bps d q).
Proof.
  assert (Hr : ∀ c x, flt (if flt x c then c else x) c = false).
  { intros c x. destruct (flt x c) eqn:E; [apply flt_irrefl | done]. }
  split; apply Hr.
Qed.

Lemma device_request_cases dev (devInfo : DiskInfo) (anno : VolumeAnnoThroughput) r :
  getDeviceRequest (empty_request dev) devInfo anno = Ok r →
  ∃ req lim rawreq rawlim,
    DevRequest r = Some (mkDevReq dev (Some req) (Some lim) (Some rawreq) (Some rawlim)) ∧
    IoType r = IOType_DiskIO ∧
    ((WorkloadType r = BeIndex ∧ no_bandwidth devInfo anno) ∨
     (WorkloadType r = GaIndex ∧ ¬ no_bandwidth devInfo anno ∧
      above_default devInfo req ∧ above_default devInfo lim)).
Proof.
  unfold getDeviceRequest, no_bandwidth. simpl. intros E.
  apply obind_Ok in E as (rr & Err & E). apply obind_Ok in E as (wr & Ewr & E).
  apply obind_Ok in E as (rl & Erl & E). apply obind_Ok in E as (wl & Ewl & E).
  rewrite Err, Ewr, Erl, Ewl. destruct (decide (rr = None ∧ rl = None ∧ wr = None ∧ wl = None))
    as [(-> & -> & -> & ->) | Hn].
  { simpl in E. simplify_eq. do 4 eexists. split; [done |]. split; [done |]. by left. }
  assert (Hg : ∃ req lim rawreq rawlim, above_default devInfo req ∧ above_default devInfo lim ∧
    r = mkIOReq IOType_DiskIO GaIndex
          (Some (mkDevReq dev (Some req) (Some lim) (Some rawreq) (Some rawlim)))).
  { simpl in E. destruct rr, rl, wr, wl; try (exfalso; apply Hn; by auto);
      apply obind_Ok in E as (dbs & _ & E); apply obind_Ok in E as ([] & _ & E);
      apply obind_Ok in E as ([] & _ & E); injection E as <-;
      do 4 eexists; (split; [apply raise_bps_above |]); (split; [apply raise_bps_above | reflexivity]). }
  destruct Hg as (req & lim & rawreq & rawlim & Hr & Hl & ->).
  exists req, lim, rawreq, rawlim. split; [done |]. split; [done |]. right. split; [done |].
  split; [| done]. intros (E1 & E2 & E3 & E4). apply Hn. by simplify_eq.
Qed.

(** An annotated volume is best effort exactly when none of its four
    bandwidths parses; otherwise it is guaranteed on the device, with all four
    quantities set, and neither the guaranteed bandwidth nor the limit is
    below the disk's default for best-effort pods. *)
Theorem device_request_guarantee dev (devInfo : DiskInfo) (anno : VolumeAnnoThroughput) r :
  getDeviceRequest (empty_request dev) devInfo anno = Ok r →
  ∃ req lim rawreq rawlim,
    DevRequest r = Some (mkDevReq dev (Some req) (Some lim) (Some rawreq) (Some rawlim)) ∧
    IoType r = IOType_DiskIO ∧
    ((WorkloadType r = BeIndex ∧ no_bandwidth devInfo anno) ∨
     (WorkloadType r = GaIndex ∧ ¬ no_bandwidth devInfo anno ∧
      above_default devInfo req ∧ above_default devInfo lim)).
Proof. apply device_request_cases. Qed.
End Requests.

(** ** A concrete node *)

Module BlockIOExample.
Import FakeInstances.

Definition disk1 : DiskInfo :=
  mkDiskInfo "sda" [] [] (of_Z 10) (of_Z 10)
    (Some (mkPool (of_Z 500) (of_Z 300) (of_Z 200) false 0))
    (Some (mkPool (of_Z 100) (of_Z 80) (of_Z 80) false 1)) 1000000 0 "/mnt/sda".
Definition node1 : BlockNodeInfo := mkBlockNodeInfo {["d1" := disk1]} "d1".
Definition res1 : BlockResource := mkBlockResource "n1" (Some node1).
Definition q1 : Quantity := mkQuantity (of_Z 120) (of_Z 60) fzero fzero.
Definition io1 : IOResourceRequest :=
  mkIOReq IOType_DiskIO GaIndex (Some (mkDevReq "d1" (Some q1) (Some q1) (Some q1) (Some q1))).
Definition req1 : RequestInfo := mkRequestInfo {["d1" := mkStorageIO io1 4096]} ∅.
Definition ctx1 : IoiContext := mkCtx {["n1" := Some (mkPodList 3 ∅)]} [] ∅ [] ∅ false.
Definition store1 : HS Server := mkHS ctx1 {["n1" := ER_Block res1]} server_empty.
Definition pod1 : Pod := mkPod "p1" "default" "uid-1" ∅ "n1" [].
Definition store2 : HS Server := charged_store store1 "n1" res1 node1 req1.

(** The context with the pod recorded, next to a request of another plugin. *)
Definition net1 : IOResourceRequest := mkIOReq IOType_NetworkIO BeIndex None.
Definition pr1 : PodRequest := mkPodRequest "p1" "default" [net1; io1].
Definition pl1 : PodList := mkPodList 4 {["uid-1" := pr1]}.
Definition store3 : HS Server :=
  set_ctx (mkCtx {["n1" := Some pl1]} [] ∅ [] ∅ false) store2.

Lemma disk1_good : map_Forall (λ _ d, ga_good d) (DisksStatus node1).
Proof.
  apply map_Forall_singleton. eexists. split; [reflexivity |].
  repeat split; apply good_of_Z; lia.
Qed.
Lemma req1_good : map_Forall (λ _ q, request_good (IORequest q)) (ResourceRequest req1).
Proof.
  apply map_Forall_singleton. intros _ q [= <-]. split; apply good_of_Z; lia.
Qed.
Lemma disk1_int : map_Forall (λ _ d, disk_int d) (DisksStatus node1).
Proof.
  apply map_Forall_singleton. exists (mkPool (of_Z 500) (of_Z 300) (of_Z 200) false 0),
    (mkPool (of_Z 100) (of_Z 80) (of_Z 80) false 1), 500, 300, 200.
  repeat split; vm_compute; congruence.
Qed.
Lemma req1_int :
  map_Forall (λ dev q, disk_request dev (IORequest q) ∧ request_int (IORequest q))
    (ResourceRequest req1).
Proof.
  apply map_Forall_singleton. split; [split; [done | split; [by eexists | intros; by eexists]] |].
  intros q [= <-]. exists 120, 60. repeat split; vm_compute; congruence.
Qed.

Definition node1' : BlockNodeInfo :=
  set_Disks (charge_all (ResourceRequest req1) (DisksStatus node1)) node1.
Definition res1' : BlockResource := mkBlockResource "n1" (Some node1').

Lemma admitted_AddPod_no_overcommit_witness :
  res_AddPod "n1" res1 pod1 (any_block req1) store1 = Ok (Added [io1], store2) ∧
  map_Forall (λ _ d, ga_good d) (DisksStatus node1').
Proof.
  split; [vm_eq |].
  apply (admitted_AddPod_no_overcommit store1 "n1" res1 node1 pod1 req1
           (any_pools (node_pools node1)) (Added [io1]) store2 res1' node1');
    [exact disk1_good | exact req1_good | split; reflexivity | vm_eq
    | vm_eq | split; vm_eq].
Defined.

Lemma AddPod_charges_exactly_witness :
  (∃ n', cached_node store2 "n1" (mkBlockResource "n1" (Some n')) n' ∧
         DisksStatus n' !! "d1" = Some (charge io1 disk1)) ∧
  [io1] ≡ₚ (λ kv, IORequest kv.2) <$> map_to_list (ResourceRequest req1).
Proof.
  destruct (AddPod_charges_exactly store1 "n1" res1 node1 pod1 req1
              (any_pools (node_pools node1)) (Added [io1]) store2)
    as ((n' & Hc & _ & Hd) & _ & Hr);
    [vm_eq | split; reflexivity | vm_eq |].
  split; [| exact Hr]. exists n'. split; [exact Hc |]. rewrite (Hd "d1"). vm_eq.
Defined.

Lemma AddPod_RemovePod_roundtrip_witness :
  ∃ b1 s3, hs_cache store3 !! "n1" = Some (ER_Block b1) ∧
    res_RemovePod "n1" b1 pod1 false store3 = Ok (None, s3) ∧
    hs_cache s3 = hs_cache store1 ∧ hs_ctx s3 = hs_ctx store3 ∧ hs_kube s3 = hs_kube store3.
Proof.
  apply (AddPod_RemovePod_roundtrip store1 "n1" res1 node1 pod1 req1
           (any_pools (node_pools node1)) [io1] store2 store3 pl1 pr1);
    [reflexivity | split; reflexivity | exact disk1_int | exact req1_int
    | vm_eq..].
Defined.

(** A volume that asks for a read bandwidth only. *)
Definition anno1 : VolumeAnnoThroughput :=
  mkVolAnno (mkBlockIOConfig "100Mi/4k" "") (mkBlockIOConfig "" "").
Definition io_anno1 : IOResourceRequest :=
  match getDeviceRequest (empty_request "d1") disk1 anno1 with Ok r => r | Crash _ => io1 end.

Lemma device_request_guarantee_witness :
  WorkloadType io_anno1 = GaIndex ∧
  ∃ req lim rawreq rawlim,
    DevRequest io_anno1 = Some (mkDevReq "d1" (Some req) (Some lim) (Some rawreq) (Some rawlim)) ∧
    IoType io_anno1 = IOType_DiskIO ∧
    ((WorkloadType io_anno1 = BeIndex ∧ no_bandwidth disk1 anno1) ∨
     (WorkloadType io_anno1 = GaIndex ∧ ¬ no_bandwidth disk1 anno1 ∧
      above_default disk1 req ∧ above_default disk1 lim)).
Proof.
  split; [vm_eq |]. apply (device_request_guarantee "d1" disk1 anno1 io_anno1). vm_eq.
Defined.

(** A pod with a pending claim. *)
Definition claim1 : PVC :=
  mkPVC _ "c1" "default" ∅ (Some "ioi") None ClaimPending.
Definition cm1 : ConfigMap :=
  mkConfigMap IoiNamespace "volume-device-map-n1" ∅ {["c1.default" := "d1:/mnt/sda"]}.
Definition server1 : Server :=
  mkServer {["default/c1" := claim1]} {["ioi" := StorageProvisioner]}
    {["ioi-system/volume-device-map-n1" := cm1]} [] [] [] ∅ [].
Definition pod2 : Pod :=
  mkPod "p1" "default" "uid-1" ∅ "n1" [mkVolume "data" (Some "c1") false].
Definition store4 : HS Server := set_kube server1 store3.

Definition node_given : BlockNodeInfo := set_Disks {["d1" := release io1 disk1]} node1.
Definition server1' : Server :=
  f_set_maps {["ioi-system/volume-device-map-n1" :=
                mkConfigMap IoiNamespace "volume-device-map-n1" ∅ ∅]} server1.

Lemma RemovePod_pending_claim_deadlocks_witness :
  res_RemovePod "n1" res1 pod2 true store4 = Crash SelfDeadlock.
Proof.
  apply (RemovePod_pending_claim_deadlocks store4 res1 node1 node_given pod2 pl1 pr1
            (mkVolume "data" (Some "c1") false) [] "c1" claim1 server1'); vm_eq.
Defined.

(** The request places another claim only. *)
Definition req2 : RequestInfo :=
  mkRequestInfo {["d1" := mkStorageIO io1 4096]} {["c9.default" := mkPVCInfo "d1" 10 false]}.
Definition store5 : HS Server := set_kube server1 store1.

Lemma AddPod_error_keeps_lock_witness :
  ∃ err s', res_AddPod "n1" res1 pod2 (any_block req2) store5 = Ok (AddError err, s') ∧
    (∀ r p m, Context.AddPod (hs_ctx s') r p m = Crash SelfDeadlock) ∧
    (∀ p m, Context.RemovePod (hs_ctx s') p m = Crash SelfDeadlock).
Proof.
  apply (AddPod_error_keeps_lock store5 "n1" res1 node1 pod2 req2
           (any_pools (node_pools node1)) (mkVolume "data" (Some "c1") false) []);
    [vm_eq | split; reflexivity | reflexivity | done | reflexivity |].
  exists "c1". repeat split; vm_eq.
Defined.
End BlockIOExample.
