(* ===== verification/BlockRequestFacts.v ===== *)
(** * Facts about the requests that the disk plugin derives from a pod *)

From S2P Require Export BlockIOFacts BinPackFacts.
From S2P Require Import Fake.

Section Wellformed.
Context `{Q : QuantityLib} `{!JsonLib} `{!GoRange, !GoSort} {K : Type} `{!KubeClient K}.
Implicit Types (s : HS K) (m : gmap string IOResourceRequest) (n : BlockNodeInfo).

(** A request as AddPod and RemovePod expect it: a disk request, filed under
    its own device, guaranteed with its four quantities or best effort. *)
Definition request_shape (dev : string) (r : IOResourceRequest) : Prop :=
  IoType r = IOType_DiskIO ∧
  ∃ dr, DevRequest r = Some dr ∧ DevName dr = dev ∧
    (WorkloadType r = BeIndex ∨
     WorkloadType r = GaIndex ∧ is_Some (dr_Request dr) ∧ is_Some (dr_Limit dr) ∧
       is_Some (dr_RawRequest dr) ∧ is_Some (dr_RawLimit dr)).

(** All the requests of a map have that shape, for devices of [known]. *)
Definition shaped (known : string → Prop) m : Prop :=
  map_Forall (λ dev r, known dev ∧ request_shape dev r) m.

Lemma request_shape_disk dev r : request_shape dev r → disk_request dev r.
Proof.
  intros (Hio & dr & Hdr & Hn & Hw). split; [done |]. split; [eauto |].
  intros Hga. destruct Hw as [Hw | (_ & [q Hq] & _)]; [by rewrite Hga in Hw |].
  exists q. unfold dev_quantity. by rewrite Hdr; simpl; rewrite Hq.
Qed.

Lemma be_request_shape dev : request_shape dev (be_request dev).
Proof. split; [done |]. eexists. split; [done |]. split; [done |]. by left. Qed.

Lemma getDeviceRequest_shape dev (d : DiskInfo) anno r :
  getDeviceRequest (empty_request dev) d anno = Ok r → request_shape dev r.
Proof.
  intros (req & lim & rreq & rlim & Hd & Hio & Hw)%device_request_cases.
  split; [done |]. eexists. split; [done |]. split; [done |].
  destruct Hw as [[Hw _] | [Hw _]]; [by left |]. right. split; [done |]. simpl. eauto.
Qed.

Lemma merge_GA_shape dev cur req r :
  request_shape dev cur → merge_GA cur req = Ok r → request_shape dev r ∧ WorkloadType r = GaIndex.
Proof.
  intros (Hio & dr & Hdr & Hn & _). unfold merge_GA. intros E. inv_ok E. simplify_eq.
  split; [| done]. split; [done |]. eexists. split; [done |]. split; [done |]. right. simpl. eauto 10.
Qed.

Section Known.
Context (known : string → Prop).

Lemma add_request_shaped m dev req m' :
  shaped known m → known dev → request_shape dev req → add_request m dev req = Ok m' →
  shaped known m'.
Proof.
  intros Hm Hk Hr. unfold add_request. destruct (m !! dev) as [cur |] eqn:Ecur.
  2: { intros [= <-]. by apply map_Forall_insert_2. }
  destruct (Hm dev cur Ecur) as [_ Hcur]. intros E. inv_ok E.
  apply map_Forall_insert_2; [| done]. split; [done |].
  destruct (Z.eqb_spec (WorkloadType req) GaIndex) as [Hg | Hg].
  - destruct (merge_GA_shape dev cur req _ Hcur E0) as [Hx Hw].
    rewrite Hw. by rewrite andb_false_r.
  - injection E0 as <-. destruct (_ && _) eqn:Hb; [| done].
    destruct Hcur as (Hio & dr & Hdr & Hn & _). split; [done |]. exists dr. simpl. auto.
Qed.

Lemma addPodRequest_shaped m reqs m' :
  shaped known m → shaped known reqs → addPodRequest m reqs = Ok m' → shaped known m'.
Proof.
  intros Hm Hr. apply (foldM_inv _ (shaped known)); [| done].
  intros b [dev r] b' Hin%elem_of_range Hb. destruct (Hr dev r Hin). by apply add_request_shaped.
Qed.

Lemma shaped_empty : shaped known ∅.
Proof. apply map_Forall_empty. Qed.
Lemma shaped_one dev r : known dev → request_shape dev r → shaped known {[dev := r]}.
Proof. intros. by apply map_Forall_singleton. Qed.
Lemma shaped_be dev : known dev → shaped known (parseBEIOAnnotations dev).
Proof. intros. apply shaped_one; [done | apply be_request_shape]. Qed.
Lemma shaped_pv dev anno d m :
  known dev → parsePVIOAnnotations anno dev d = Ok m → shaped known m.
Proof.
  intros Hk E. unfold parsePVIOAnnotations in E. inv_ok E.
  apply shaped_one; [done |]. by eapply getDeviceRequest_shape.
Qed.
End Known.

#[local] Hint Resolve addPodRequest_shaped shaped_empty shaped_one shaped_be shaped_pv
  getDeviceRequest_shape be_request_shape : ioi.

Definition known_in (m : gmap string DiskInfo) (dev : string) : Prop := is_Some (m !! dev).

Lemma emptydir_shaped pod anno dev d m has (disks : gmap string DiskInfo) :
  known_in disks dev → emptydir_requests pod anno dev d = Ok (m, has) → shaped (known_in disks) m.
Proof.
  intros Hk E. unfold emptydir_requests in E.
  apply (foldM_inv _ (λ r, shaped (known_in disks) r.1) _ _ (m, has)) in E; [done | | ]; simpl.
  - intros [b h] vol [b' h'] _ Hb. simpl in *. destruct (vol_EmptyDir vol); [| by intros [= <- <-]].
    destruct (anno !! vol_Name vol) as [v |]; intros E'; inv_ok E'; simplify_eq; eauto with ioi.
  - apply shaped_empty.
Qed.

Lemma bounded_shaped s pod anno pvcs (disks : gmap string DiskInfo) m :
  getBoundedTotalRequests s pod anno pvcs disks = Ok m → shaped (known_in disks) m.
Proof.
  unfold getBoundedTotalRequests. apply (foldM_inv _ (shaped (known_in disks))); [| apply shaped_empty].
  intros b vol b' _ Hb. destruct (vol_PVC vol) as [pvc |]; [| by intros [= <-]].
  destruct (pvcs !! _) as [info |]; [| by intros [= <-]]. intros E. inv_ok E.
  destruct (negb x); [by inv_ok E |].
  destruct (disks !! DevID info) as [d |] eqn:Ed; [| by inv_ok E].
  assert (known_in disks (DevID info)) by by eexists.
  destruct (anno !! vol_Name vol); [| by eauto with ioi]. inv_ok E. eauto with ioi.
Qed.

Lemma volume_requests_shaped mapping anno n m :
  (∀ vol dev, mapping !! vol = Some dev → known_in (DisksStatus n) dev) →
  getVolumeRequestFromAnno mapping anno n = Ok m → shaped (known_in (DisksStatus n)) m.
Proof.
  intros Hk. unfold getVolumeRequestFromAnno. destruct (size mapping =? 0)%nat.
  { destruct (DisksStatus n !! EmptyDirDevice n) as [d |] eqn:Ed.
    - assert (known_in (DisksStatus n) (EmptyDirDevice n)) by by eexists. eauto with ioi.
    - intros [= <-]. apply shaped_empty. }
  apply (foldM_inv _ (shaped (known_in (DisksStatus n)))); [| apply shaped_empty].
  intros b [vol dev] b' Hin%elem_of_range Hb. pose proof (Hk vol dev Hin).
  destruct (anno !! vol); [| by eauto with ioi].
  destruct (DisksStatus n !! dev); [| by intros [= <-]]. intros E. inv_ok E. eauto with ioi.
Qed.

(** The packer only uses the disks it is given. *)
Lemma place_known (devices : gmap string DiskInfo) devs ds v w ds' v' :
  place devices devs ds v = Ok (Some w, ds', v') → known_in devices w.
Proof.
  revert ds v. induction devs as [| d devs IH]; intros ds v; simpl; [done |]. intros E.
  apply obind_Ok in E as (info & Hi%deref_Ok & E). apply obind_Ok in E as (pd & _ & E).
  apply obind_Ok in E as ([[added pd'] v1] & _ & E). destruct added; [| by eapply IH].
  injection E as <- _ _. by eexists.
Qed.

Lemma pack_vols_known (devices : gmap string DiskInfo) devs vols ds acc ds' acc' :
  (∀ k d, acc.1 !! k = Some d → known_in devices d) →
  pack_vols devices devs vols ds acc = Ok (ds', Some acc') →
  ∀ k d, acc'.1 !! k = Some d → known_in devices d.
Proof.
  revert ds acc. induction vols as [| v vols IH]; intros ds [a1 a2] Ha; simpl.
  { by intros [= <- <-]. }
  intros E. apply obind_Ok in E as ([[w ds1] v1] & Hp & E).
  destruct w as [w |]; destruct (_ !! PvcName v1); try done; eapply IH; try exact E; simpl.
  - intros k d. apply place_known in Hp. destruct (decide (k = pv_Name v1)) as [-> |].
    + rewrite lookup_insert_eq. by intros [= <-].
    + rewrite lookup_insert_ne by done. apply Ha.
  - done.
Qed.

Lemma Pack_known slice devices vols ds acc :
  Pack slice devices vols = Ok (ds, Some acc) →
  ∀ k d, acc.1 !! k = Some d → known_in devices d.
Proof.
  unfold Pack. intros (devs & _ & E)%obind_Ok. eapply pack_vols_known; [| exact E].
  intros k d. simpl. by rewrite lookup_empty.
Qed.

Lemma rest_disks_known (disks : gmap string DiskInfo) requests pvcs rest :
  getRestDisksStatus disks requests pvcs = Ok rest →
  ∀ d, known_in rest d → known_in disks d.
Proof.
  unfold getRestDisksStatus. apply (foldM_inv _ (λ rest, ∀ d, known_in rest d → known_in disks d)).
  - intros b [k v] b' Hin%elem_of_range Hb E. inv_ok E. intros d.
    destruct (decide (d = k)) as [-> | Hne]; unfold known_in; simpl; [by eexists |].
    rewrite lookup_insert_ne by done. apply Hb.
  - intros d [x Hx]. by rewrite lookup_empty in Hx.
Qed.

Lemma GetRequestByAnnotation_shaped s pod node b n m pvcs :
  cached_node s node b n →
  GetRequestByAnnotation s pod node false = Ok (inl (m, pvcs)) →
  shaped (known_in (DisksStatus n)) m.
Proof.
  intros [Hc Hn]. unfold GetRequestByAnnotation, get_block, GetExtendedResource.
  rewrite Hc. simpl. rewrite Hn.
  destruct (DisksStatus n !! EmptyDirDevice n) as [ed |] eqn:Eed; [| done].
  assert (Hed : known_in (DisksStatus n) (EmptyDirDevice n)) by by eexists.
  intros E. apply obind_Ok in E as ([m0 has] & Em0 & E). apply obind_Ok in E as (bp & Ebp & E).
  destruct bp as [pvcs0 | err]; [| done].
  apply emptydir_shaped with (disks := DisksStatus n) in Em0; [| done].
  apply obind_Ok in E as (m1 & Em1 & E).
  assert (Hm1 : shaped (known_in (DisksStatus n)) m1).
  { destruct (size pvcs0 =? 0)%nat; inv_ok Em1; [done |].
    eauto using bounded_shaped with ioi. }
  apply obind_Ok in E as (rest & Erest & E). apply obind_Ok in E as (rv & _ & E).
  destruct rv as [vols | err]; [| done].
  assert (Hfin : ∀ m2 (p : gmap string PVCInfo) (m3 : gmap string IOResourceRequest),
    shaped (known_in (DisksStatus n)) m2 →
    (if (size p =? 0)%nat && negb has
     then addPodRequest m2 (parseBEIOAnnotations (EmptyDirDevice n)) else Ok m2) = Ok m3 →
    shaped (known_in (DisksStatus n)) m3).
  { intros m2 p m3 Hm2. destruct ((size p =? 0)%nat && negb has);
      [eauto with ioi | by intros [= <-]]. }
  destruct vols as [| v vols].
  - inv_ok E. simplify_eq. eauto.
  - apply obind_Ok in E as ([ds packed] & Epack & E).
    destruct packed as [[volToDev claims] |]; [| done].
    apply obind_Ok in E as (m2 & Em2 & E). inv_ok E. simplify_eq. eapply Hfin; [| eassumption].
    destruct (size claims =? 0)%nat; inv_ok Em2; [done |].
    eapply addPodRequest_shaped; [exact Hm1 | | eassumption].
    eapply volume_requests_shaped; [| eassumption]. intros vol dev Hv.
    eapply rest_disks_known; [exact Erest |]. by apply (Pack_known _ _ _ _ _ Epack vol).
Qed.

(** C37: every request that AdmitPod derives from a pod's annotations, claims
    and emptyDir volumes names a disk of the node, is filed under the disk it
    names, and is either best effort or guaranteed with its four quantities
    set: what AddPod and RemovePod dereference is there. *)
Theorem AdmitPod_requests_wellformed s pod b n req :
  cached_node s (br_nodeName b) b n →
  res_AdmitPod b pod s = Ok (inl (any_block req)) →
  map_Forall (λ dev q, is_Some (DisksStatus n !! dev) ∧ request_shape dev (IORequest q))
    (ResourceRequest req).
Proof.
  intros Hc E. unfold res_AdmitPod in E. apply obind_Ok in E as (r & Er & E).
  destruct r as [[m p] | err]; [| done].
  destruct p; try done. injection E as <-.
  intros dev q. simpl. rewrite map_lookup_imap. destruct (m !! dev) as [r |] eqn:Em; [| done].
  intros [= <-]. simpl. by apply (GetRequestByAnnotation_shaped _ _ _ _ _ _ _ Hc Er dev r).
Qed.
End Wellformed.

(** ** A pod with an annotated claim and an emptyDir volume *)

Module BlockRequestExample.
Import FakeInstances BlockIOExample.

Definition claim2 : PVC := mkPVC _ "c1" "default" ∅ (Some "ioi") (Some 5000) ClaimPending.
Definition server2 : Server :=
  mkServer {["default/c1" := claim2]} {["ioi" := StorageProvisioner]} ∅ [] [] [] ∅ [].
Definition disk2 : DiskInfo :=
  mkDiskInfo "sdb" [] [] (of_Z 10) (of_Z 10)
    (Some (mkPool (of_Z 400) (of_Z 200) (of_Z 200) false 0))
    (Some (mkPool (of_Z 100) (of_Z 80) (of_Z 80) false 1)) 1000000 0 "".
Definition node2 : BlockNodeInfo := mkBlockNodeInfo {["d1" := disk1; "d2" := disk2]} "d2".
Definition res2 : BlockResource := mkBlockResource "n1" (Some node2).
Definition store6 : HS Server := mkHS ctx1 {["n1" := ER_Block res2]} server2.
Definition pod3 : Pod :=
  mkPod "p3" "default" "uid-3" {[BlockIOConfigAnno := "100Mi/4k"]} "n1"
    [mkVolume "data" (Some "c1") false; mkVolume "tmp" None true].
Definition req3 : RequestInfo :=
  match res_AdmitPod res2 pod3 store6 with
  | Ok (inl (any_block r)) => r
  | _ => mkRequestInfo ∅ ∅
  end.

Lemma AdmitPod_requests_wellformed_witness :
  PvcToDevice req3 = {["c1.default" := mkPVCInfo "d1" 5000 false]} ∧
  (WorkloadType ∘ IORequest) <$> ResourceRequest req3 = {["d1" := GaIndex; "d2" := BeIndex]} ∧
  map_Forall (λ dev q, is_Some (DisksStatus node2 !! dev) ∧ request_shape dev (IORequest q))
    (ResourceRequest req3).
Proof.
  split; [vm_eq |]. split; [vm_eq |].
  apply (AdmitPod_requests_wellformed store6 pod3 res2 node2 req3);
    [split; reflexivity | vm_eq].
Defined.
End BlockRequestExample.
