(* ===== verification/BlockStatusFacts.v ===== *)
(** * Facts about the disk pools a node starts with and is told of

    InitNodeStatus rebuilds the pools from the reserved pods; AddPod updates
    them pod by pod; the node agent's reports overwrite them. *)

From S2P Require Export BlockIOFacts.
From S2P Require Import Fake.

Section Init.
Context `{Q : QuantityLib} `{!GoRange, !GoSort}.
Implicit Types (pl : PodList) (d : DiskInfo) (rc : ResourceConfigSpec) (info : Device).

(** What a reserved pod holds on a disk, in whole megabytes: read and write
    bandwidth, and whether it is best effort there. *)
Definition holds (dev : string) (pr : PodRequest) (i o : Z) (be : bool) : Prop :=
  BlockIO.calculateReservedBw dev pr = (of_Z i, of_Z o, be) ∧ 0 ≤ i ∧ 0 ≤ o.

(** The sums over a list of reserved pods. *)
Inductive held (dev : string) : list (string * PodRequest) → Z → Z → Z → Prop :=
| held_nil : held dev [] 0 0 0
| held_cons uid pr l i o be ti to tn :
    holds dev pr i o be → held dev l ti to tn →
    held dev ((uid, pr) :: l) (i + ti) (o + to) (Z.b2z be + tn).

Lemma held_nonneg dev l i o n : held dev l i o n → 0 ≤ i ∧ 0 ≤ o ∧ 0 ≤ n ≤ Z.of_nat (length l).
Proof.
  induction 1 as [| uid pr l i o be ti to tn (_ & ? & ?) _ IH]; [simpl; lia |].
  rewrite length_cons. destruct be; simpl; lia.
Qed.

Lemma held_perm dev l l' i o n : l ≡ₚ l' → held dev l i o n → held dev l' i o n.
Proof.
  intros Hp. revert i o n. induction Hp as [| [u p] l l' Hp IH | [u p] [u' p'] l | l1 l2 l3 _ IH1 _ IH2];
    intros i o n Hh.
  - done.
  - inversion Hh; subst. constructor; auto.
  - inversion Hh as [| ? ? ? i1 o1 b1 ti to tn H1 H2]; subst.
    inversion H2 as [| ? ? ? i2 o2 b2 ti' to' tn' H3 H4]; subst.
    replace (i1 + (i2 + ti')) with (i2 + (i1 + ti')) by lia.
    replace (o1 + (o2 + to')) with (o2 + (o1 + to')) by lia.
    replace (Z.b2z b1 + (Z.b2z b2 + tn')) with (Z.b2z b2 + (Z.b2z b1 + tn')) by lia.
    constructor; [done |]. by constructor.
  - auto.
Qed.

Definition totals_step dev : f64 * f64 * Z → string * PodRequest → f64 * f64 * Z := λ acc kv,
  let '(gaIn, gaOut, beNum) := acc in
  let '(gain, gaout, isbe) := BlockIO.calculateReservedBw dev kv.2 in
  (fadd gaIn gain, fadd gaOut gaout, if isbe then add64 beNum 1 else beNum).

(** The loop over the reserved pods computes the sums exactly. *)
Lemma totals_held dev l ti to tn i o n :
  held dev l ti to tn →
  0 ≤ i ∧ 0 ≤ o ∧ i + ti ≤ 2 ^ 53 ∧ o + to ≤ 2 ^ 53 → 0 ≤ n ∧ n + tn < 2 ^ 63 →
  foldl (totals_step dev) (of_Z i, of_Z o, n) l = (of_Z (i + ti), of_Z (o + to), n + tn).
Proof.
  intros Hh. revert i o n.
  induction Hh as [| uid pr l i1 o1 be ti to tn (E & Hi & Ho) Hh IH]; intros i o n Hb Hn; simpl.
  { by rewrite !Z.add_0_r. }
  pose proof (held_nonneg _ _ _ _ _ Hh). rewrite E.
  rewrite !add_of_Z by (unfold int_ok; lia).
  assert (E2 : (if be then add64 n 1 else n) = n + Z.b2z be).
  { destruct be; simpl in *; [| lia]. unfold add64. apply wrap64_id. unfold fits64. lia. }
  rewrite E2, IH by (destruct be; simpl in *; lia). f_equal; [f_equal; f_equal |]; lia.
Qed.

Lemma reserved_totals_held dev pl ti to tn :
  held dev (map_to_list (pl_PodList pl)) ti to tn → ti ≤ 2 ^ 53 → to ≤ 2 ^ 53 → tn < 2 ^ 63 →
  reserved_totals BlockIO.calculateReservedBw dev pl = (of_Z ti, of_Z to, tn).
Proof.
  intros Hh Hi Ho Hn. apply (held_perm _ _ (range (pl_PodList pl))) in Hh;
    [| symmetry; apply range_perm].
  pose proof (held_nonneg _ _ _ _ _ Hh).
  change (reserved_totals _ dev pl)
    with (foldl (totals_step dev) (of_Z 0, of_Z 0, 0) (range (pl_PodList pl))).
  rewrite (totals_held dev _ ti to tn) by (done || lia). by rewrite !Z.add_0_l.
Qed.

(** The guaranteed share of a disk's capacities, in whole megabytes. *)
Definition capacities rc info (t i o : Z) : Prop :=
  ga_capacity (BEPool rc) (CapacityTotal info) = of_Z t ∧
  ga_capacity (BEPool rc) (CapacityIn info) = of_Z i ∧
  ga_capacity (BEPool rc) (CapacityOut info) = of_Z o ∧ small t ∧ small i ∧ small o.

Lemma init_disk_held rc dev info pl d t i o ti to tn :
  capacities rc info t i o → held dev (map_to_list (pl_PodList pl)) ti to tn →
  ti ≤ 2 ^ 50 → to ≤ 2 ^ 50 → tn < 2 ^ 63 →
  BlockIO.init_disk rc dev info pl d =
  set_BE (set_be_num tn (di_BE d))
    (set_GA (Some (mkPool (of_Z (t - ti - to)) (of_Z (i - ti)) (of_Z (o - to)) false 0)) d).
Proof.
  intros (Et & Ei & Eo & St & Si & So) Hh Hti Hto Htn. unfold small in *.
  pose proof (held_nonneg _ _ _ _ _ Hh). unfold BlockIO.init_disk.
  rewrite (reserved_totals_held dev pl ti to tn) by (done || lia).
  rewrite Et, Ei, Eo. rewrite !sub_of_Z by (unfold int_ok; lia). done.
Qed.

(** The requests of a pod on one disk: exactly [r]. *)
Definition only_request (dev : string) (l : list IOResourceRequest) (r : IOResourceRequest) : Prop :=
  ∃ pre post, l = pre ++ r :: post ∧ disk_request dev r ∧
    ∀ x, x ∈ pre ++ post → IoType x ≠ IOType_DiskIO ∨ ∀ dr, DevRequest x = Some dr → DevName dr ≠ dev.

Lemma reserved_bw_skip dev l l' i o :
  (∀ x, x ∈ l → IoType x ≠ IOType_DiskIO ∨ ∀ dr, DevRequest x = Some dr → DevName dr ≠ dev) →
  reserved_bw IOType_DiskIO dev (l ++ l') i o = reserved_bw IOType_DiskIO dev l' i o.
Proof.
  revert i o. induction l as [| x l IH]; intros i o Hl; simpl; [done |].
  assert (Hl' : ∀ y, y ∈ l → IoType y ≠ IOType_DiskIO ∨ ∀ dr, DevRequest y = Some dr → DevName dr ≠ dev)
    by (intros; apply Hl; by right).
  destruct (DevRequest x) as [dr |] eqn:Edr; [| by apply IH].
  destruct (Hl x) as [Hx | Hx]; [by left | |].
  - rewrite bool_decide_eq_false_2 by done. by apply IH.
  - rewrite (proj2 (String.eqb_neq _ _) (Hx dr Edr)), orb_true_r. by apply IH.
Qed.

Lemma only_request_bw dev l r :
  only_request dev l r →
  reserved_bw IOType_DiskIO dev l fzero fzero =
  if WorkloadType r =? BeIndex then (fzero, fzero, true)
  else match dev_quantity r with
       | Ok q => (fadd fzero (Inbps q), fadd fzero (Outbps q), false)
       | Crash _ => (fzero, fzero, false)
       end.
Proof.
  intros (pre & post & -> & (Hio & (dr & Hdr & Hn) & _) & Hskip).
  rewrite reserved_bw_skip by (intros; apply Hskip; set_solver). simpl. rewrite Hdr, Hn.
  rewrite bool_decide_eq_true_2, String.eqb_refl by done. simpl.
  destruct (WorkloadType r =? BeIndex); [done |]. unfold dev_quantity. rewrite Hdr. simpl.
  assert (Hp : ∀ i o, reserved_bw IOType_DiskIO dev post i o = (i, o, false)).
  { intros i o. rewrite <- (app_nil_r post), reserved_bw_skip; [done |].
    intros; apply Hskip; set_solver. }
  destruct (dr_Request dr); simpl; apply Hp.
Qed.

Lemma init_disk_charge rc dev info pl d uid pr r t i o ti to tn :
  capacities rc info t i o →
  held dev (map_to_list (pl_PodList pl)) ti to tn →
  ti ≤ 2 ^ 49 → to ≤ 2 ^ 49 → tn < 2 ^ 63 - 1 →
  pl_PodList pl !! uid = None →
  only_request dev (pr_Request pr) r →
  WorkloadType r = BeIndex ∨
    WorkloadType r = GaIndex ∧
      (∃ q x y, dev_quantity r = Ok q ∧ quantity_int q x y ∧ 0 ≤ x ≤ 2 ^ 49 ∧ 0 ≤ y ≤ 2 ^ 49) →
  BlockIO.init_disk rc dev info (mkPodList (Generation pl) (<[uid := pr]> (pl_PodList pl))) d =
  charge r (BlockIO.init_disk rc dev info pl d).
Proof.
  intros Hc Hh Hti Hto Htn Hnew Honly Hw. pose proof (held_nonneg _ _ _ _ _ Hh) as (? & ? & ? & _).
  assert (Hperm : (uid, pr) :: map_to_list (pl_PodList pl)
                  ≡ₚ map_to_list (<[uid := pr]> (pl_PodList pl)))
    by (symmetry; by apply map_to_list_insert).
  pose proof (only_request_bw dev _ r Honly) as Hbw.
  assert (Hcons : ∀ x y be, holds dev pr x y be →
    held dev (map_to_list (<[uid := pr]> (pl_PodList pl))) (x + ti) (y + to) (Z.b2z be + tn)).
  { intros x y be Hp. eapply held_perm; [exact Hperm |]. by constructor. }
  rewrite (init_disk_held rc dev info pl d t i o ti to tn) by (done || lia).
  destruct Hw as [Hbe | (Hga & q & x & y & Hq & [Hx Hy] & Bx & By)].
  - rewrite Hbe in Hbw. simpl in Hbw.
    rewrite (init_disk_held rc dev info _ d t i o (0 + ti) (0 + to) (Z.b2z true + tn));
      [| done | by apply Hcons | simpl; lia..].
    unfold charge. rewrite Hbe. simpl. rewrite !Z.add_0_l. unfold add64.
    destruct (di_BE d); simpl; by rewrite (Z.add_comm tn 1), wrap64_id by (unfold fits64; lia).
  - rewrite Hga, Hq in Hbw. change (GaIndex =? BeIndex) with false in Hbw.
    cbv iota beta in Hbw. rewrite Hx, Hy in Hbw.
    change fzero with (of_Z 0) in Hbw. rewrite !(add_of_Z 0) in Hbw by (unfold int_ok; lia). rewrite !Z.add_0_l in Hbw.
    rewrite (init_disk_held rc dev info _ d t i o (x + ti) (y + to) (Z.b2z false + tn));
      [| done | apply Hcons; split; [done | lia] | simpl; lia..].
    destruct Hc as (_ & _ & _ & St & Si & So). unfold small in *.
    unfold charge. rewrite Hga, Hq. simpl. unfold pool_take. simpl. rewrite Hx, Hy.
    rewrite (add_of_Z x y) by (unfold int_ok; lia).
    rewrite !sub_of_Z by (unfold int_ok; lia).
    replace (t - ti - to - (x + y)) with (t - (x + ti) - (y + to)) by lia.
    replace (i - ti - x) with (i - (x + ti)) by lia.
    by replace (o - to - y) with (o - (y + to)) by lia.
Qed.

(** C8: Rebuilding a disk's pools from the reserved pods agrees with the
    incremental bookkeeping, for amounts in which float64 is exact.  When the
    guaranteed share of the disk's capacities is in whole numbers of at most
    2^50, the guaranteed requests of the reserved pods on the disk are whole
    numbers whose sums are at most 2^49 each way, and one more pod, not yet in
    the list, has exactly one request on the disk, best-effort or guaranteed
    with whole rates of at most 2^49: then InitNodeStatus over the list with
    this pod gives the disk of InitNodeStatus over the list without it, less
    the request's rates in the guaranteed pool, or plus one in the number of
    the best-effort pool; and this is the disk that AddPod makes of the latter
    when its best-effort pool is set. *)
Theorem InitNodeStatus_agrees_with_AddPod rc dev info pl d uid pr r t i o ti to tn :
  capacities rc info t i o →
  held dev (map_to_list (pl_PodList pl)) ti to tn →
  ti ≤ 2 ^ 49 → to ≤ 2 ^ 49 → tn < 2 ^ 63 - 1 →
  pl_PodList pl !! uid = None →
  only_request dev (pr_Request pr) r →
  WorkloadType r = BeIndex ∨
    WorkloadType r = GaIndex ∧
      (∃ q x y, dev_quantity r = Ok q ∧ quantity_int q x y ∧ 0 ≤ x ≤ 2 ^ 49 ∧ 0 ≤ y ≤ 2 ^ 49) →
  let without := BlockIO.init_disk rc dev info pl d in
  let with_pod := BlockIO.init_disk rc dev info (mkPodList (Generation pl) (<[uid := pr]> (pl_PodList pl))) d in
  with_pod = charge r without ∧
  (is_Some (di_BE d) → BlockIO.take_device dev r without = Ok with_pod).
Proof.
  intros Hc Hh Hti Hto Htn Hnew Honly Hw without with_pod.
  assert (E : with_pod = charge r without) by by eapply init_disk_charge.
  split; [done |]. intros Hbe. rewrite E. unfold without.
  rewrite (init_disk_held rc dev info pl d t i o ti to tn) by (done || lia).
  unfold BlockIO.take_device, charge.
  destruct Hw as [-> | (-> & q & x & y & -> & _)]; [| done]. simpl. destruct Hbe as [be ->]. done.
Qed.
End Init.

(** ** Reports of the node agent *)

Section Report.
Context `{Q : QuantityLib} `{!JsonLib} `{!GoRange, !GoSort} {K : Type} `{!KubeClient K}.
Implicit Types (s : HS K) (n : BlockNodeInfo) (d : DiskInfo) (bw : DeviceIOStatus).

(** A disk after a report. *)
Definition reported bw (dev : string) (d : DiskInfo) : DiskInfo :=
  match BlockIO.calculateDiskStatus bw dev with
  | None => d
  | Some (ga, be) =>
      set_BE ((λ old, pool_set_pressure old (ps_UnderPressure be)) <$> di_BE d) (set_GA (Some ga) d)
  end.

Lemma report_loop bw (l : list (string * DiskInfo)) (m : gmap string DiskInfo) :
  NoDup l.*1 → (∀ k d, (k, d) ∈ l → is_Some (di_BE d)) →
  ∃ m', foldM (λ m kv,
    match BlockIO.calculateDiskStatus bw kv.1 with
    | None => Ok m
    | Some (ga, be) =>
        let! old := deref (di_BE kv.2) in
        Ok (<[kv.1 := set_BE (Some (pool_set_pressure old (ps_UnderPressure be)))
                        (set_GA (Some ga) kv.2)]> m)
    end) m l = Ok m' ∧
    ∀ i, m' !! i = match (list_to_map l : gmap string DiskInfo) !! i with
                   | Some d => match BlockIO.calculateDiskStatus bw i with
                               | None => m !! i
                               | Some _ => Some (reported bw i d)
                               end
                   | None => m !! i
                   end.
Proof.
  revert m. induction l as [| [k d] l IH]; intros m Hnd Hbe; [by exists m |].
  rewrite fmap_cons in Hnd. apply NoDup_cons in Hnd as [Hk Hnd]. cbn [foldM fst snd].
  assert (Hbe' : ∀ k d, (k, d) ∈ l → is_Some (di_BE d)) by (intros; eapply Hbe; by right).
  destruct (Hbe k d) as [old Hold]; [by left |].
  pose proof (not_elem_of_list_to_map_1 l k Hk) as Hlk.
  destruct (BlockIO.calculateDiskStatus bw k) as [[ga be] |] eqn:Ec.
  - rewrite Hold. simpl. destruct (IH (<[k := set_BE (Some (pool_set_pressure old (ps_UnderPressure be)))
      (set_GA (Some ga) d)]> m) Hnd Hbe') as (m' & Hrun & Hm').
    exists m'. split; [done |]. intros i. rewrite Hm'. simpl.
    destruct (decide (i = k)) as [-> | Hne].
    + rewrite Hlk, !lookup_insert_eq, Ec. unfold reported. by rewrite Ec, Hold.
    + by rewrite !lookup_insert_ne by done.
  - simpl. destruct (IH m Hnd Hbe') as (m' & Hrun & Hm'). exists m'. split; [done |].
    intros i. rewrite Hm'. simpl. destruct (decide (i = k)) as [-> | Hne].
    + by rewrite Hlk, lookup_insert_eq, Ec.
    + by rewrite lookup_insert_ne by done.
Qed.

Lemma report_disks_spec bw (m : gmap string DiskInfo) :
  map_Forall (λ _ d, is_Some (di_BE d)) m →
  BlockIO.report_disks bw m = Ok (map_imap (λ dev d, Some (reported bw dev d)) m).
Proof.
  intros Hbe. unfold BlockIO.report_disks.
  destruct (report_loop bw (range m) m) as (m' & -> & Hm').
  - apply NoDup_range.
  - intros k d Hin%elem_of_range. by eapply Hbe.
  - f_equal. apply map_eq. intros i. rewrite Hm', list_to_map_range, map_lookup_imap.
    destruct (m !! i) as [d |]; simpl; [| done]. unfold reported.
    by destruct (BlockIO.calculateDiskStatus bw i) as [[] |].
Qed.

Lemma printable_report bw b n :
  printable (ER_Block b) → br_info b = Some n →
  printable (ER_Block (mkBlockResource (br_nodeName b)
    (Some (set_Disks (map_imap (λ dev d, Some (reported bw dev d)) (DisksStatus n)) n)))).
Proof.
  intros Hp Hn. unfold printable in *. simpl in *. rewrite Hn in Hp. destruct Hp as (n0 & [= <-] & Hp).
  eexists. split; [done |]. intros i d. simpl. rewrite map_lookup_imap.
  destruct (DisksStatus n !! i) as [d0 |] eqn:Ed; [| done]. intros [= <-].
  destruct (Hp i d0 Ed) as [Hga [be Hbe]]. unfold reported.
  destruct (BlockIO.calculateDiskStatus bw i) as [[ga' be'] |]; [| by split; eauto].
  split; simpl; [by eexists |]. rewrite Hbe. by eexists.
Qed.

(** A report for the disks of a node is applied only when it was computed
    for the current generation of the node's reserved pods: otherwise the
    cache is left as it is.  When it is applied, every disk takes the
    reported guaranteed pool and the reported pressure, unless the reported
    read bandwidth is negative (not measured yet); no other node changes, and
    the handler does not panic. *)
Theorem status_report_gated s node b n v st bw :
  map_Forall (λ _ r, printable r) (hs_cache s) →
  cached_node s node b n →
  GetReservedPods (hs_ctx s) node = inl (Some v) →
  AllocatableBandwidth st !! BlockIO.BlockIOType = Some bw → bw ≠ ∅ →
  ∃ s', BlockIO.UpdateCacheNodeStatus node st s = Ok (None, s') ∧
    hs_ctx s' = hs_ctx s ∧ hs_kube s' = hs_kube s ∧
    (ObservedGeneration st ≠ Generation v → hs_cache s' = hs_cache s) ∧
    (ObservedGeneration st = Generation v →
     (∃ n', cached_node s' node (mkBlockResource (br_nodeName b) (Some n')) n' ∧
        ∀ dev, DisksStatus n' !! dev = reported bw dev <$> DisksStatus n !! dev) ∧
     ∀ node', node' ≠ node → hs_cache s' !! node' = hs_cache s !! node').
Proof.
  intros Hp [Hc Hn] Hr Hbw Hne. unfold BlockIO.UpdateCacheNodeStatus. rewrite Hbw.
  rewrite (proj2 (Nat.eqb_neq _ _)) by (intros E; by apply map_size_empty_iff in E).
  unfold BlockIO.get_block, GetExtendedResource. rewrite Hc. simpl. rewrite Hr. simpl.
  destruct (Z.eqb_spec (ObservedGeneration st) (Generation v)) as [E | E].
  - rewrite Hn. simpl. pose proof (Hp _ _ Hc) as Hpb. simpl in Hpb.
    rewrite report_disks_spec.
    2: { unfold printable in Hpb. destruct Hpb as (n0 & Hn0 & Hd). simplify_eq.
         intros k d Hk. apply (Hd k d Hk). }
    simpl. rewrite print_cache_Ok.
    2: { simpl. apply map_Forall_insert_2; [| done]. by eapply printable_report. }
    simpl. eexists. split; [done |]. split; [done |]. split; [done |]. split; [done |]. intros _.
    split.
    + eexists. split; [split; [by simpl; unfold SetExtendedResource; rewrite lookup_insert_eq | done] |].
      intros dev. simpl. rewrite map_lookup_imap. by destruct (DisksStatus n !! dev).
    + intros node' Hne'. simpl. unfold SetExtendedResource. by rewrite lookup_insert_ne.
  - simpl. rewrite print_cache_Ok by done. simpl. eexists. split; [done |]. by repeat split.
Qed.
End Report.

Module BlockStatusExample.
Import FakeInstances BlockIOExample.

(** 60% of the capacities 1000/500/500 are guaranteed; two pods are reserved. *)
Definition dev_info : Device :=
  mkDevice "sda" DefaultDevice (of_Z 10) (of_Z 10) ∅ ∅ (of_Z 500) (of_Z 500) (of_Z 1000)
    "1Gi" "/mnt/sda".
Definition rc1 : ResourceConfigSpec := mkRC 40 60 0 {["d1" := dev_info]} [].
Definition be1 : IOResourceRequest := BlockIO.be_request "d1".
Definition reserved1 : PodList :=
  mkPodList 7 {["uid-8" := mkPodRequest "p8" "default" [io1];
                "uid-9" := mkPodRequest "p9" "default" [net1; be1]]}.
Definition pr_new : PodRequest := mkPodRequest "p1" "default" [net1; io1].

Lemma reserved1_held : held "d1" (map_to_list (pl_PodList reserved1)) 120 60 1.
Proof.
  apply (held_perm _ [("uid-8", mkPodRequest "p8" "default" [io1]);
                      ("uid-9", mkPodRequest "p9" "default" [net1; be1])]).
  { symmetry. unfold reserved1. simpl. rewrite map_to_list_insert by done.
    by rewrite map_to_list_singleton. }
  apply (held_cons "d1" "uid-8" _ _ 120 60 false 0 0 1); [split; [vm_eq | lia] |].
  apply (held_cons "d1" "uid-9" _ [] 0 0 true 0 0 0); [split; [vm_eq | lia] | constructor].
Qed.

Lemma InitNodeStatus_agrees_with_AddPod_witness :
  di_GA (BlockIO.init_disk rc1 "d1" dev_info reserved1 disk1)
    = Some (mkPool (of_Z 420) (of_Z 180) (of_Z 240) false 0) ∧
  BlockIO.init_disk rc1 "d1" dev_info
    (mkPodList 7 (<["uid-1" := pr_new]> (pl_PodList reserved1))) disk1 =
  charge io1 (BlockIO.init_disk rc1 "d1" dev_info reserved1 disk1).
Proof.
  split; [vm_eq |].
  eapply proj1, (InitNodeStatus_agrees_with_AddPod rc1 "d1" dev_info reserved1 disk1 "uid-1" pr_new io1
           600 300 300 120 60 1).
  - repeat split; vm_compute; congruence.
  - exact reserved1_held.
  - lia.
  - lia.
  - lia.
  - reflexivity.
  - exists [net1], []. split; [reflexivity |]. split.
    + split; [reflexivity |]. split; [by eexists | intros; by eexists].
    + intros x [-> | []%elem_of_nil]%elem_of_cons. by left.
  - right. split; [reflexivity |]. exists q1, 120, 60. repeat split; lia.
Defined.

(** A report for generation 3, the generation of the reserved pods. *)
Definition bw1 : DeviceIOStatus :=
  {["d1" := {[WorkloadGA := mkIOStatus (of_Z 450) (of_Z 250) (of_Z 200) fzero ""]}]}.
Definition status1 : NodeIOStatusStatus := mkStatus 3 {["BlockIO" := bw1]}.

Lemma store1_printable : map_Forall (λ _ r, printable r) (hs_cache store1).
Proof.
  apply map_Forall_singleton. exists node1. split; [reflexivity |].
  apply map_Forall_singleton. by split; eexists.
Qed.

Lemma status_report_gated_witness :
  ∃ s', BlockIO.UpdateCacheNodeStatus "n1" status1 store1 = Ok (None, s') ∧
    ∃ n', cached_node s' "n1" (mkBlockResource "n1" (Some n')) n' ∧
      di_GA <$> DisksStatus n' !! "d1"
        = Some (Some (mkPool (of_Z 450) (of_Z 250) (of_Z 200) false 0)).
Proof.
  destruct (status_report_gated store1 "n1" res1 node1 (mkPodList 3 ∅) status1 bw1)
    as (s' & Hs & _ & _ & _ & Heq);
    [exact store1_printable | split; reflexivity | reflexivity | reflexivity | done |].
  exists s'. split; [exact Hs |]. destruct (Heq eq_refl) as [(n' & Hc & Hd) _].
  exists n'. split; [exact Hc |]. rewrite (Hd "d1"). vm_eq.
Defined.
End BlockStatusExample.
