(* ===== verification/NetworkIOFacts.v ===== *)
(** * Facts about the network plugin: admission, charging, requests *)

From S2P Require Export NetworkIO CacheFacts.
From S2P Require Import Fake.

Section NetworkFacts.
Context `{Q : QuantityLib} `{!JsonLib} `{!GoRange} {K : Type}.
Implicit Types (s : HS K) (n : NetNodeInfo) (d : NICInfo).

(** ** CanAdmitPod *)

Definition nic_min (d : NICInfo) : IOPoolStatus :=
  mkPool (fmul (DefaultSpeed d) (of_Z 2)) (DefaultSpeed d) (DefaultSpeed d) false 0.

(** What a NIC must offer for a request. *)
Definition nic_admits d (r : IOResourceRequest) : Prop :=
  (WorkloadType r = GaIndex →
   ∃ ga q, nic_GA d = Some ga ∧ dev_quantity r = Ok q ∧ guarantees ga q) ∧
  (WorkloadType r = BeIndex → ∃ be, nic_BE d = Some be ∧ shares be (nic_min d)).

Lemma nic_pools_size d : size (nic_pools d) = 3%nat.
Proof.
  unfold nic_pools. rewrite !map_size_insert_None; [by rewrite map_size_singleton | ..]; by simpl_map.
Qed.
Lemma nic_pools_lookup d :
  nic_pools d !! GA_Type = Some (nic_GA d) ∧ nic_pools d !! BE_Type = Some (nic_BE d) ∧
  nic_pools d !! BE_Min_BW = Some (Some (nic_min d)).
Proof. unfold nic_pools. repeat split; by simpl_map. Qed.

Lemma admit_nic_None node n dev r :
  NetworkIO.admit_device node (node_pools n) dev r = Ok None ↔
  ∃ d, NICsStatus n !! dev = Some d ∧ nic_admits d r.
Proof.
  unfold admit_device, node_pools. rewrite lookup_fmap.
  destruct (NICsStatus n !! dev) as [d |]; simpl; [| naive_solver].
  destruct (nic_pools_lookup d) as (Hg & Hb & Hm). rewrite nic_pools_size. simpl.
  rewrite Hg, Hb, Hm. simpl. unfold nic_admits.
  assert (Hex : ∀ P : NICInfo → Prop, P d ↔ ∃ d0, Some d = Some d0 ∧ P d0) by naive_solver.
  rewrite <- (Hex (λ d, _ ∧ _)). clear Hex.
  destruct (Z.eqb_spec (WorkloadType r) GaIndex) as [E | E].
  - rewrite E. destruct (nic_GA d) as [ga |]; simpl.
    2: { split; [done |]. intros [Ha _]. by destruct (Ha eq_refl) as (? & ? & ? & _). }
    destruct (ps_UnderPressure ga) eqn:Hp.
    { split.
      - intros [= Hc]. apply check_GA_None in Hc as [Hu _]. congruence.
      - intros [Ha _]. destruct (Ha eq_refl) as (? & ? & [= <-] & _ & Hu & _). congruence. }
    destruct (dev_quantity r) as [q |]; simpl.
    + split.
      * intros [= Hc%check_GA_None]. split; [eauto 6 | done].
      * intros [Ha _]. destruct (Ha eq_refl) as (? & ? & [= <-] & [= <-] & Hq).
        f_equal. by apply check_GA_None.
    + split; [done |]. intros [Ha _]. by destruct (Ha eq_refl) as (? & ? & _ & ? & _).
  - destruct (Z.eqb_spec (WorkloadType r) BeIndex) as [E' | E']; [| split; [naive_solver | done]].
    destruct (nic_BE d) as [be |]; simpl.
    2: { split; [done |]. intros [_ Ha]. by destruct (Ha E') as (? & ? & _). }
    split.
    + intros [= Hc%check_BE_None]. split; [done | eauto].
    + intros [_ Ha]. destruct (Ha E') as (? & [= <-] & Hs). f_equal. by apply check_BE_None.
Qed.

Definition cached_net s (node : string) (r : NetResource) n : Prop :=
  hs_cache s !! node = Some (ER_Net r) ∧ nr_info r = Some n.

Lemma net_CanAdmitPod_iff s node reqs ps :
  CanAdmitPod s node (any_netreq reqs) = Ok (inl ps) ↔
  ∃ r n, cached_net s node r n ∧ ps = any_pools (node_pools n) ∧
         ∀ dev q, reqs !! dev = Some q → ∃ d, NICsStatus n !! dev = Some d ∧ nic_admits d q.
Proof.
  unfold CanAdmitPod, GetExtendedResource, cached_net.
  destruct (hs_cache s !! node) as [[| r | |] |]; simpl; [naive_solver | | naive_solver..].
  destruct (nr_info r) as [n |] eqn:Er; simpl; [| naive_solver].
  pose proof (for_range_check (λ kv, admit_device node (node_pools n) kv.1 kv.2) (range reqs)) as Hc.
  rewrite Forall_forall in Hc.
  assert (Hall : (∀ x, x ∈ range reqs → admit_device node (node_pools n) x.1 x.2 = Ok None) ↔
                 ∀ dev q, reqs !! dev = Some q →
                          ∃ d, NICsStatus n !! dev = Some d ∧ nic_admits d q).
  { setoid_rewrite <- (admit_nic_None node). split.
    - intros Ha dev q Hq. apply (Ha (dev, q)). by apply elem_of_range.
    - intros Ha [dev q] Hq. apply Ha. by apply elem_of_range in Hq. }
  rewrite Hall in Hc. clear Hall.
  destruct (for_range _ _ _) as [[[] | err] |]; simpl; (split; [| naive_solver]); intros [=]; subst.
  exists r, n. split; [done |]. split; [done |]. by apply Hc.
Qed.

(** ** AddPod and RemovePod *)

Definition nic_good d : Prop := ∃ ga, nic_GA d = Some ga ∧ pool_good ga.
Definition net_request_good (r : IOResourceRequest) : Prop :=
  WorkloadType r = GaIndex → ∀ q, dev_quantity r = Ok q → quantity_good q.

Definition charge_nic (r : IOResourceRequest) d : NICInfo :=
  if WorkloadType r =? GaIndex then
    match nic_GA d, dev_quantity r with
    | Some ga, Ok q => set_nic_GA (Some (pool_take ga (Inbps q) (Outbps q))) d
    | _, _ => d
    end
  else if WorkloadType r =? BeIndex then
    match nic_BE d with
    | Some be => set_nic_BE (Some (pool_set_num be (add64 (ps_Num be) 1))) d
    | None => d
    end
  else d.

Lemma take_nic_charge r d : nic_admits d r → take_nic r d = Ok (charge_nic r d).
Proof.
  intros [Hga Hbe]. unfold take_nic, charge_nic.
  destruct (Z.eqb_spec (WorkloadType r) GaIndex) as [E |].
  { by destruct (Hga E) as (ga & q & -> & -> & _). }
  destruct (Z.eqb_spec (WorkloadType r) BeIndex) as [E |]; [| done].
  by destruct (Hbe E) as (be & -> & _).
Qed.

Lemma charge_nic_good r d :
  nic_good d → nic_admits d r → net_request_good r → nic_good (charge_nic r d).
Proof.
  intros (ga & Hga & Hg) [Ha _] Hq. unfold charge_nic.
  destruct (Z.eqb_spec (WorkloadType r) GaIndex) as [E |].
  - destruct (Ha E) as (ga' & q & Hga' & Hdq & Hgu). rewrite Hga', Hdq. simplify_eq.
    eexists. split; [done |]. apply pool_take_good; auto.
  - destruct (_ =? BeIndex); [| by exists ga]. destruct (nic_BE d); by exists ga.
Qed.

(** The node after the charge of its master NIC. *)
Definition net_charged (r : IOResourceRequest) n : NetNodeInfo :=
  set_NICs (alter (charge_nic r) (MasterNic n) (NICsStatus n)) n.

Lemma net_AddPod_admitted s node r n pod reqs io ps res s' :
  cached_net s node r n → reqs !! MasterNic n = Some io →
  CanAdmitPod s node (any_netreq reqs) = Ok (inl ps) →
  res_AddPod node r pod (any_netreq reqs) s = Ok (res, s') →
  res = Added [io] ∧ hs_ctx s' = hs_ctx s ∧
  hs_cache s' = <[node := ER_Net (mkNetResource (nr_nodeName r) (Some (net_charged io n)))]> (hs_cache s) ∧
  ∃ d, NICsStatus n !! MasterNic n = Some d ∧ nic_admits d io.
Proof.
  intros Hc Hio Had HA. apply net_CanAdmitPod_iff in Had as (r' & n' & Hc' & _ & Had).
  destruct Hc as [Hc Hn], Hc' as [Hc' Hn']. assert (r' = r) as -> by congruence.
  assert (n' = n) as -> by congruence.
  destruct (Had _ _ Hio) as (d & Hd & Hda). unfold res_AddPod in HA. rewrite Hn in HA. simpl in HA.
  rewrite Hd, Hio, (take_nic_charge _ _ Hda) in HA. simpl in HA. inv_ok HA. destruct x.
  apply print_cache_inv in E as [-> _]. simplify_eq. split; [done |]. split; [done |].
  split; [| eauto]. simpl. unfold SetExtendedResource, net_charged.
  by rewrite (insert_alter (charge_nic io) _ _ _ Hd).
Qed.

(** C36: an admitted pod never overcommits the network: after AddPod every NIC
    of the node has a guaranteed pool with finite, non-negative bandwidths,
    only the master NIC has changed, and the pod's request is returned. *)
Theorem net_admitted_AddPod_no_overcommit s node r n pod reqs io ps res s' :
  cached_net s node r n → reqs !! MasterNic n = Some io →
  map_Forall (λ _ d, nic_good d) (NICsStatus n) → net_request_good io →
  CanAdmitPod s node (any_netreq reqs) = Ok (inl ps) →
  res_AddPod node r pod (any_netreq reqs) s = Ok (res, s') →
  res = Added [io] ∧
  ∃ r' n', cached_net s' node r' n' ∧ map_Forall (λ _ d, nic_good d) (NICsStatus n') ∧
    ∀ dev, dev ≠ MasterNic n → NICsStatus n' !! dev = NICsStatus n !! dev.
Proof.
  intros Hc Hio Hg Hr Had HA.
  destruct (net_AddPod_admitted _ _ _ _ _ _ _ _ _ _ Hc Hio Had HA) as (-> & _ & E & d & Hd & Hda).
  split; [done |]. do 2 eexists. split; [split; [by rewrite E, lookup_insert_eq | done] |].
  split.
  - intros dev d' Hd'. simpl in Hd'. destruct (decide (dev = MasterNic n)) as [-> | Hne].
    + rewrite lookup_alter_eq, Hd in Hd'. simpl in Hd'. simplify_eq.
      apply charge_nic_good; [by eapply Hg | done | done].
    + rewrite lookup_alter_ne in Hd' by done. by eapply Hg.
  - intros dev Hne. simpl. by rewrite lookup_alter_ne.
Qed.

(** The NIC and the request in whole megabytes. *)
Definition nic_int d : Prop :=
  ∃ ga be t i o, nic_GA d = Some ga ∧ nic_BE d = Some be ∧ pool_int ga t i o ∧
    small t ∧ small i ∧ small o ∧ 0 ≤ ps_Num be < 2 ^ 63 - 1.
Definition net_request_int (dev : string) (r : IOResourceRequest) : Prop :=
  IoType r = IOType_NetworkIO ∧ (∃ dr, DevRequest r = Some dr ∧ DevName dr = dev) ∧
  (WorkloadType r = GaIndex ∨ WorkloadType r = BeIndex) ∧
  ∀ q, dev_quantity r = Ok q → ∃ i o, quantity_int q i o ∧ small i ∧ small o.

Lemma give_charge_nic dev r d :
  nic_int d → nic_admits d r → net_request_int dev r → give_nic dev (charge_nic r d) r = Ok d.
Proof.
  intros (ga & be & t & i & o & Hga & Hbe & Hp & St & Si & So & Hn) [Ha Hb]
    (Hio & (dr & Hdr & Hname) & Hw & Hq).
  unfold give_nic, charge_nic. rewrite bool_decide_eq_true_2 by done. simpl. rewrite Hdr. simpl.
  rewrite Hname, String.eqb_refl.
  destruct Hw as [Hw | Hw]; rewrite Hw; simpl.
  - destruct (Ha Hw) as (ga' & q & Hga' & Edq & _). rewrite Hga, Edq. simpl.
    destruct (Hq q Edq) as (x & y & Hxy & Sx & Sy).
    rewrite (pool_take_give ga q t i o x y) by done. destruct d. simpl in *. by subst.
  - rewrite Hbe. simpl. rewrite num_inc_dec by done. destruct d, be. simpl in *. by subst.
Qed.

Lemma give_nic_skip dev d l :
  foldM (give_nic dev) d l = foldM (give_nic dev) d (filter (λ r, IoType r = IOType_NetworkIO) l).
Proof.
  revert d. induction l as [| r l IH]; intros d; [done |]. rewrite filter_cons.
  destruct (decide (IoType r = IOType_NetworkIO)) as [E | E]; simpl.
  - destruct (give_nic dev d r); simpl; auto.
  - unfold give_nic at 1. rewrite bool_decide_eq_false_2 by done. apply IH.
Qed.

(** RemovePod returns to the master NIC exactly what AddPod took. *)
Theorem net_AddPod_RemovePod_roundtrip s node r n pod reqs io ps res s1 s2 pl pr client :
  nr_nodeName r = node → cached_net s node r n → reqs !! MasterNic n = Some io →
  map_Forall (λ _ d, nic_int d) (NICsStatus n) → net_request_int (MasterNic n) io →
  CanAdmitPod s node (any_netreq reqs) = Ok (inl ps) →
  res_AddPod node r pod (any_netreq reqs) s = Ok (res, s1) →
  map_Forall (λ _ x, printable x) (hs_cache s) →
  hs_cache s2 = hs_cache s1 → locked (hs_ctx s2) = false →
  GetReservedPods (hs_ctx s2) node = inl (Some pl) → pl_PodList pl !! pod_UID pod = Some pr →
  filter (λ q, IoType q = IOType_NetworkIO) (pr_Request pr) = [io] →
  ∃ r1 s3, hs_cache s2 !! node = Some (ER_Net r1) ∧
    res_RemovePod node r1 pod client s2 = Ok (None, s3) ∧
    hs_cache s3 = hs_cache s ∧ hs_ctx s3 = hs_ctx s2.
Proof.
  intros Hname Hc Hio Hi Hr Had HA Hp Hc2 Hlk Hpl Hpr Hf.
  destruct (net_AddPod_admitted _ _ _ _ _ _ _ _ _ _ Hc Hio Had HA) as (_ & _ & E & d & Hd & Hda).
  rewrite Hc2, E, lookup_insert_eq. eexists _, _. split; [done |].
  unfold res_RemovePod, ctx_Lock. simpl. rewrite lookup_alter_eq, Hd, Hlk. simpl. rewrite Hname.
  replace (GetReservedPods (set_locked true (hs_ctx s2)) node)
    with (GetReservedPods (hs_ctx s2) node) by done.
  rewrite Hpl. simpl. rewrite Hpr, give_nic_skip, Hf. simpl.
  rewrite (give_charge_nic (MasterNic n) io d (Hi _ _ Hd) Hda Hr). simpl.
  assert (Hback : hs_cache (store_nic node (mkNetResource node (Some (net_charged io n)))
                    (net_charged io n) d (set_ctx (set_locked true (hs_ctx s2)) s2)) = hs_cache s).
  { simpl. rewrite Hc2, E. unfold SetExtendedResource. rewrite insert_insert_eq.
    destruct Hc as [Hc Hn]. apply insert_id. rewrite Hc. destruct r as [rn ri], n as [nics master]. simpl in *. subst.
    repeat f_equal. unfold set_NICs. simpl. f_equal. apply map_eq. intros dev.
    destruct (decide (dev = master)) as [-> |]; [by rewrite lookup_insert_eq |].
    by rewrite lookup_insert_ne, lookup_alter_ne. }
  rewrite print_cache_Ok by (by rewrite Hback). simpl. split; [done |]. split; [exact Hback |].
  simpl. destruct (hs_ctx s2). simpl in *. by subst.
Qed.

(** ** Requests *)

Definition at_least (x : f64) (q : Quantity) : Prop :=
  flt (Inbps q) x = false ∧ flt (Outbps q) x = false.

Lemma raise_to_at_least nic q : at_least (DefaultSpeed nic) (raise_to (Some nic) q).
Proof. split; apply fmax_ge. Qed.

(** A pod with a network annotation is best effort exactly when none of
    its four bandwidths parses; otherwise it is guaranteed, on the master NIC,
    and neither its request nor its limit is below the NIC's default speed. *)
Theorem net_request_guarantee (anno : NetAnnoThroughput) n nic :
  NICsStatus n !! MasterNic n = Some nic →
  let unset x := ∃ e, parseNetworkRequestBandwidth x = inr e in
  let best_effort := unset (Ingress (na_Requests anno)) ∧ unset (Egress (na_Requests anno)) ∧
                     unset (Ingress (na_Limits anno)) ∧ unset (Egress (na_Limits anno)) in
  ∃ w req lim, parsePodNetworkIOAnnotations anno n = net_request (MasterNic n) w req lim ∧
    ((w = BeIndex ∧ best_effort) ∨
     (w = GaIndex ∧ ¬ best_effort ∧ at_least (DefaultSpeed nic) req ∧ at_least (DefaultSpeed nic) lim)).
Proof.
  intros Hn unset best_effort. unfold parsePodNetworkIOAnnotations, best_effort, unset. rewrite Hn.
  destruct (parseNetworkRequestBandwidth (Ingress (na_Requests anno))),
    (parseNetworkRequestBandwidth (Ingress (na_Limits anno))),
    (parseNetworkRequestBandwidth (Egress (na_Requests anno))),
    (parseNetworkRequestBandwidth (Egress (na_Limits anno)));
  try destruct (_ && _ && _);
  do 3 eexists; (split; [reflexivity |]);
  first [ left; by eauto 10
        | right; split; [done |]; split; [naive_solver |]; split; apply raise_to_at_least ].
Qed.
End NetworkFacts.

(** ** A concrete node *)

Module NetworkIOExample.
Import FakeInstances.

Definition nic1 : NICInfo :=
  mkNICInfo "eth0" (of_Z 5) (Some (mkPool (of_Z 800) (of_Z 400) (of_Z 400) false 0))
    (Some (mkPool (of_Z 100) (of_Z 50) (of_Z 50) false 2)).
Definition node1 : NetNodeInfo := mkNetNodeInfo {["m1" := nic1]} "m1".
Definition res1 : NetResource := mkNetResource "n1" (Some node1).
Definition q1 : Quantity := mkQuantity (of_Z 120) (of_Z 60) fzero fzero.
Definition io1 : IOResourceRequest := net_request "m1" GaIndex q1 q1.
Definition reqs1 : gmap string IOResourceRequest := {["m1" := io1]}.
Definition pod1 : Pod := mkPod "p1" "default" "uid-1" ∅ "n1" [].
Definition ctx1 : IoiContext := mkCtx {["n1" := Some (mkPodList 3 ∅)]} [] ∅ [] ∅ false.
Definition store1 : HS Server := mkHS ctx1 {["n1" := ER_Net res1]} server_empty.
Definition store2 : HS Server :=
  set_cache {["n1" := ER_Net (mkNetResource "n1" (Some (net_charged io1 node1)))]} store1.
Definition pr1 : PodRequest :=
  mkPodRequest "p1" "default" [mkIOReq IOType_DiskIO BeIndex None; io1].
Definition pl1 : PodList := mkPodList 4 {["uid-1" := pr1]}.
Definition store3 : HS Server := set_ctx (mkCtx {["n1" := Some pl1]} [] ∅ [] ∅ false) store2.

Lemma nic1_good : map_Forall (λ _ d, nic_good d) (NICsStatus node1).
Proof.
  apply map_Forall_singleton. eexists. split; [reflexivity |]. repeat split; apply good_of_Z; lia.
Qed.
Lemma nic1_int : map_Forall (λ _ d, nic_int d) (NICsStatus node1).
Proof.
  apply map_Forall_singleton. exists (mkPool (of_Z 800) (of_Z 400) (of_Z 400) false 0),
    (mkPool (of_Z 100) (of_Z 50) (of_Z 50) false 2), 800, 400, 400.
  repeat split; vm_compute; congruence.
Qed.
Lemma io1_int : net_request_int "m1" io1.
Proof.
  split; [done |]. split; [by eexists |]. split; [by left |].
  intros q [= <-]. exists 120, 60. repeat split; vm_compute; congruence.
Qed.

Lemma net_admitted_AddPod_no_overcommit_witness :
  Added [io1] = Added [io1] ∧
  ∃ r' n', cached_net store2 "n1" r' n' ∧ map_Forall (λ _ d, nic_good d) (NICsStatus n') ∧
    ∀ dev, dev ≠ "m1" → NICsStatus n' !! dev = NICsStatus node1 !! dev.
Proof.
  apply (net_admitted_AddPod_no_overcommit store1 "n1" res1 node1 pod1 reqs1 io1
           (any_pools (node_pools node1)) (Added [io1]) store2);
    [split; vm_eq | vm_eq | exact nic1_good | | vm_eq | vm_eq].
  intros _ q [= <-]. split; apply good_of_Z; lia.
Defined.

Lemma net_AddPod_RemovePod_roundtrip_witness :
  ∃ r1 s3, hs_cache store3 !! "n1" = Some (ER_Net r1) ∧
    res_RemovePod "n1" r1 pod1 true store3 = Ok (None, s3) ∧
    hs_cache s3 = hs_cache store1 ∧ hs_ctx s3 = hs_ctx store3.
Proof.
  apply (net_AddPod_RemovePod_roundtrip store1 "n1" res1 node1 pod1 reqs1 io1
           (any_pools (node_pools node1)) (Added [io1]) store2 store3 pl1 pr1 true);
    [vm_eq | split; vm_eq | vm_eq | exact nic1_int | exact io1_int | vm_eq | vm_eq
    | | vm_eq | vm_eq | vm_eq | vm_eq | vm_eq].
  apply map_Forall_singleton. exists node1. split; [done |]. apply map_Forall_singleton.
  split; by eexists.
Defined.

Definition anno1 : NetAnnoThroughput :=
  mkNetAnno (mkNetIOConfig "3M" "2M") (mkNetIOConfig "" "9M").
Lemma net_request_guarantee_witness :
  ∃ w req lim, parsePodNetworkIOAnnotations anno1 node1 = net_request "m1" w req lim ∧
    w = GaIndex ∧ at_least (of_Z 5) req ∧ at_least (of_Z 5) lim.
Proof.
  destruct (net_request_guarantee anno1 node1 nic1 ltac:(vm_eq))
    as (w & req & lim & E & [[_ ([e He] & _)] | (Hw & _ & Hr & Hl)]).
  - exfalso. vm_compute in He. discriminate.
  - by exists w, req, lim.
Defined.
End NetworkIOExample.
