(* ===== verification/RDTQuantityFacts.v ===== *)
(** * Facts about the quantity plugin: conservation of cache and bandwidth

    The amounts of the classes, as integers, always add up to the node's
    capacity, and the best-effort class keeps its baseline. *)

From S2P Require Export RDTQuantity CacheFacts.
From S2P Require Import Fake.

(** ** Amounts per class *)

(** L3 cache and memory bandwidth of each class, as integers. *)
Abbreviation amounts := (gmap string (Z * Z)).
Definition total (f : Z * Z → Z) (A : amounts) : Z := map_fold (λ _ v acc, f v + acc) 0 A.

Lemma total_insert f A k v : A !! k = None → total f (<[k := v]> A) = f v + total f A.
Proof. intros Hk. unfold total. rewrite map_fold_insert_L; [done | intros; lia | done]. Qed.

Lemma total_delete f A k v : A !! k = Some v → total f A = f v + total f (delete k A).
Proof. intros Hk. apply (map_fold_delete_L (λ _ v acc, f v + acc)); [intros; lia | done]. Qed.

(** Replacing an amount. *)
Lemma total_update f A k v w :
  A !! k = Some v → total f (<[k := w]> A) = total f A - f v + f w.
Proof.
  intros Hk. rewrite (total_delete f A k v Hk), <- insert_delete_eq, total_insert
    by apply lookup_delete_eq. lia.
Qed.

Section Conservation.
Context `{Q : QuantityLib} `{!JsonLib} `{!GoRange} {K : Type}.
Implicit Types (s : HS K) (n : RdtqNodeInfo) (A : amounts).

(** The classes of the cache hold the amounts [A]. *)
Definition holds (m : gmap string classInfo) A : Prop :=
  ∀ k, match m !! k, A !! k with
       | Some c, Some a => ci_Requests c = mkRdt (of_Z a.1) (of_Z a.2)
       | None, None => True
       | _, _ => False
       end.

(** A capacity: total, and baseline of the best-effort class. *)
Record capacity := mkCapacity { cap_l3 : Z; cap_mb : Z; base_l3 : Z; base_mb : Z }.
Definition capacity_ok (cp : capacity) : Prop :=
  0 ≤ base_l3 cp ≤ cap_l3 cp ∧ 0 ≤ base_mb cp ≤ cap_mb cp ∧ cap_l3 cp ≤ 2 ^ 50 ∧ cap_mb cp ≤ 2 ^ 50.

Definition amounts_ok (cp : capacity) A : Prop :=
  total fst A = cap_l3 cp ∧ total snd A = cap_mb cp ∧
  map_Forall (λ _ a, 0 ≤ a.1 ≤ cap_l3 cp ∧ 0 ≤ a.2 ≤ cap_mb cp) A ∧
  ∃ be, A !! BE = Some be ∧ base_l3 cp ≤ be.1 ∧ base_mb cp ≤ be.2.

(** The invariant of a node. *)
Definition node_ok (cp : capacity) n A : Prop :=
  capacity_ok cp ∧ holds (classes n) A ∧ amounts_ok cp A ∧
  L3CacheCapacity n = of_Z (cap_l3 cp) ∧ MBCapacity n = of_Z (cap_mb cp) ∧
  BEL3CapacityBaseline n = of_Z (base_l3 cp) ∧ BEMBCapacityBaseline n = of_Z (base_mb cp).

(** A request as GetRequestByAnnotation makes it, with integer amounts. *)
Definition asks (d : DeviceRequirement) (a m : Z) : Prop :=
  (∃ q, dr_Request d = Some q ∧ Inbps q = of_Z a) ∧
  (∃ q, dr_RawRequest d = Some q ∧ Inbps q = of_Z m) ∧
  is_Some (dr_Limit d) ∧ is_Some (dr_RawLimit d) ∧ 0 ≤ a ≤ 2 ^ 50 ∧ 0 ≤ m ≤ 2 ^ 50.

Lemma holds_insert m A k c a :
  holds m A → ci_Requests c = mkRdt (of_Z a.1) (of_Z a.2) → holds (<[k := c]> m) (<[k := a]> A).
Proof.
  intros Hh Hc k'. destruct (decide (k' = k)) as [-> |].
  - by rewrite !lookup_insert_eq.
  - rewrite !lookup_insert_ne by done. apply Hh.
Qed.

Lemma holds_delete m A k : holds m A → holds (delete k m) (delete k A).
Proof.
  intros Hh k'. destruct (decide (k' = k)) as [-> |].
  - by rewrite !lookup_delete_eq.
  - rewrite !lookup_delete_ne by done. apply Hh.
Qed.

Lemma holds_Some m A k c : holds m A → m !! k = Some c →
  ∃ a, A !! k = Some a ∧ ci_Requests c = mkRdt (of_Z a.1) (of_Z a.2).
Proof. intros Hh Hk. specialize (Hh k). rewrite Hk in Hh. destruct (A !! k); [eauto | done]. Qed.

Lemma holds_None m A k : holds m A → m !! k = None → A !! k = None.
Proof. intros Hh Hk. specialize (Hh k). rewrite Hk in Hh. by destruct (A !! k). Qed.

(** Changing only the pods of a class changes no amount. *)
Lemma holds_pods m A k c c' :
  holds m A → m !! k = Some c → ci_Requests c' = ci_Requests c → holds (<[k := c']> m) A.
Proof.
  intros Hh Hk Hc. destruct (holds_Some _ _ _ _ Hh Hk) as (a & Ha & Hr).
  rewrite <- (insert_id A k a Ha). apply holds_insert; [done |]. by rewrite Hc.
Qed.

(** The best-effort class gives [a] and [x] to a new class. *)
Lemma amounts_take cp A k a x be :
  amounts_ok cp A → A !! k = None → A !! BE = Some be → 0 ≤ a → 0 ≤ x →
  a + base_l3 cp ≤ be.1 → x + base_mb cp ≤ be.2 → capacity_ok cp →
  amounts_ok cp (<[BE := (be.1 - a, be.2 - x)]> (<[k := (a, x)]> A)).
Proof.
  intros (H1 & H2 & Hf & _) Hk Hb Ha Hx Hl Hm Hc. unfold capacity_ok in Hc.
  assert (k ≠ BE) by congruence.
  assert (Hb' : <[k := (a, x)]> A !! BE = Some be) by (by rewrite lookup_insert_ne).
  destruct (Hf _ _ Hb) as [[? ?] [? ?]]. split_and!.
  - rewrite (total_update _ _ _ _ _ Hb'), total_insert by done. simpl. lia.
  - rewrite (total_update _ _ _ _ _ Hb'), total_insert by done. simpl. lia.
  - apply map_Forall_insert_2; [simpl; lia |]. apply map_Forall_insert_2; [simpl; lia | done].
  - exists (be.1 - a, be.2 - x). rewrite lookup_insert_eq. simpl. repeat split; lia.
Qed.

(** A class gives its amount back. *)
Lemma amounts_give cp A k v be :
  amounts_ok cp A → A !! k = Some v → k ≠ BE → A !! BE = Some be →
  amounts_ok cp (<[BE := (be.1 + v.1, be.2 + v.2)]> (delete k A)).
Proof.
  intros (H1 & H2 & Hf & be' & Hb' & Hl & Hm) Hk Hne Hb.
  assert (be' = be) as -> by congruence.
  assert (Hbd : delete k A !! BE = Some be) by (by rewrite lookup_delete_ne).
  destruct (Hf _ _ Hb) as [[? ?] [? ?]], (Hf _ _ Hk) as [[? ?] [? ?]].
  rewrite (total_delete fst _ _ _ Hk) in H1. rewrite (total_delete snd _ _ _ Hk) in H2.
  assert (be.1 + v.1 ≤ cap_l3 cp ∧ be.2 + v.2 ≤ cap_mb cp) as [? ?].
  { rewrite (total_delete fst _ _ _ Hbd) in H1. rewrite (total_delete snd _ _ _ Hbd) in H2.
    assert (Hpos : ∀ f, (∀ i a, delete BE (delete k A) !! i = Some a → 0 ≤ f a) →
                        0 ≤ total f (delete BE (delete k A))).
    { intros f. unfold total. apply (map_fold_weak_ind
        (λ r m, (∀ i a, m !! i = Some a → 0 ≤ f a) → 0 ≤ r)); [done |].
      intros i a m r Hi IH Hall. pose proof (Hall i a ltac:(by rewrite lookup_insert_eq)).
      assert (0 ≤ r); [| lia]. apply IH. intros j b Hj. apply (Hall j).
      rewrite lookup_insert_ne; [done |]. congruence. }
    assert (Hsub : ∀ i a, delete BE (delete k A) !! i = Some a → 0 ≤ a.1 ∧ 0 ≤ a.2).
    { intros i a (_ & Hi)%lookup_delete_Some. apply lookup_delete_Some in Hi as (_ & Hi).
      destruct (Hf _ _ Hi). lia. }
    pose proof (Hpos fst ltac:(intros; by eapply Hsub)).
    pose proof (Hpos snd ltac:(intros; by eapply Hsub)). lia. }
  split_and!.
  - rewrite (total_update _ _ _ _ _ Hbd). simpl. lia.
  - rewrite (total_update _ _ _ _ _ Hbd). simpl. lia.
  - apply map_Forall_insert_2; [simpl; lia |]. by apply map_Forall_delete.
  - eexists. rewrite lookup_insert_eq. split; [done |]. simpl. lia.
Qed.

(** ** CanAdmitPod *)

Definition cached_rdtq s (node : string) (r : RdtqResource) n : Prop :=
  hs_cache s !! node = Some (ER_Rdtq r) ∧ qr_info r = Some n.

(** The reasons to admit a request: the best-effort class, a class that
    exists with the same amounts, or a new class that leaves the best-effort
    class its baseline. *)
Definition admits n (d : DeviceRequirement) : Prop :=
  let c := classes n !! DevName d in
  is_BE d c = true ∨ same_class d c = Ok true ∨ (c = None ∧ fits_in_BE n d c = Ok true).

Lemma CanAdmitPod_admits s node r n req d ps :
  cached_rdtq s node r n → DevRequest req = Some d →
  CanAdmitPod s node (any_ioreq (Some req)) = Ok (inl ps) → admits n d ∧ ps = any_rdtq n.
Proof.
  intros [Hc Hn] Hd. unfold CanAdmitPod, GetExtendedResource. rewrite Hc. simpl. rewrite Hn. simpl.
  rewrite Hd. simpl. unfold admits.
  destruct (is_BE d (classes n !! DevName d)) eqn:Eb; [intros [= <-]; auto |].
  destruct (same_class d (classes n !! DevName d)) as [[] |] eqn:Es; simpl;
    [intros [= <-]; auto | | done].
  destruct (fits_in_BE n d (classes n !! DevName d)) as [[] |] eqn:Ef; simpl; [| done | done].
  intros [= <-]. destruct (classes n !! DevName d); [done |]. auto.
Qed.

(** The check of a new class, on integers. *)
Lemma fits_in_BE_int cp n A d a m be :
  node_ok cp n A → asks d a m → A !! BE = Some be → fits_in_BE n d None = Ok true →
  a + base_l3 cp ≤ be.1 ∧ m + base_mb cp ≤ be.2.
Proof.
  intros (Hc & Hh & (_ & _ & Hf & _) & _ & _ & Hbl & Hbm)
    ((q & Hq & Ha) & (q' & Hq' & Hm) & _ & _ & Ra & Rm) Hb.
  unfold capacity_ok in Hc. destruct (Hf _ _ Hb) as [? ?].
  unfold fits_in_BE. destruct (classes n !! BE) as [c |] eqn:Ec; simpl; [| done].
  destruct (holds_Some _ _ _ _ Hh Ec) as (be' & Hb' & Hr). assert (be' = be) as -> by congruence.
  rewrite Hr, Hq, Hq', Hbl, Hbm. simpl. rewrite Ha, Hm.
  rewrite !add_of_Z, !fle_of_Z by (unfold int_ok; lia).
  destruct (Z.leb_spec (a + base_l3 cp) be.1); [| done]. intros [= Hle]. lia.
Qed.

(** ** AddPod *)

(** The amounts after a request was charged. *)
Definition charged A (k : string) (a m : Z) : amounts :=
  match A !! k, A !! BE with
  | None, Some be => <[BE := (be.1 - a, be.2 - m)]> (<[k := (a, m)]> A)
  | _, _ => A
  end.

Lemma charge_class_ok cp n A uid d a m :
  node_ok cp n A → asks d a m → admits n d →
  ∃ cs, charge_class uid d (classes n) = Ok cs ∧ holds cs (charged A (DevName d) a m) ∧
        amounts_ok cp (charged A (DevName d) a m).
Proof.
  intros Hok Hasks Had. pose proof Hok as (Hc & Hh & Ham & _).
  pose proof Hasks as ((q & Hq & Ha) & (q' & Hq' & Hm) & [ql Hql] & [ql' Hql'] & Ra & Rm).
  unfold charge_class. destruct (classes n !! DevName d) as [c |] eqn:Ec.
  - assert (Hsame : (if is_BE d (Some c) then Ok true else same_class d (Some c)) = Ok true).
    { unfold admits in Had. rewrite Ec in Had. destruct Had as [-> | [Hs | [? _]]]; [done | | done].
      by destruct (is_BE d (Some c)). }
    rewrite Hsame. simpl. destruct (holds_Some _ _ _ _ Hh Ec) as (v & Hv & _).
    unfold charged. rewrite Hv. eexists. split; [done |]. split; [| done].
    by eapply holds_pods.
  - unfold admits in Had. rewrite Ec in Had. destruct Had as [? | [? | [_ Hf]]]; [done.. |]. simpl.
    rewrite Hq, Hq', Hql, Hql'. simpl. pose proof Ham as (_ & _ & Hall & be & Hb & _).
    destruct (fits_in_BE_int _ _ _ _ _ _ _ Hok Hasks Hb Hf) as [Hl Hmb].
    pose proof (holds_None _ _ _ Hh Ec) as Hn. unfold charged. rewrite Hn, Hb.
    assert (Hne : DevName d ≠ BE) by congruence.
    unfold on_BE. rewrite lookup_insert_ne by done.
    destruct (classes n !! BE) as [cb |] eqn:Ecb; [| by rewrite (holds_None _ _ _ Hh Ecb) in Hb].
    destruct (holds_Some _ _ _ _ Hh Ecb) as (be' & Hb' & Hr).
    assert (be' = be) as -> by congruence. simpl. eexists. split; [done |].
    destruct (Hall _ _ Hb) as [? ?]. unfold capacity_ok in Hc. split.
    + apply holds_insert; [apply holds_insert; [done | simpl; by rewrite Ha, Hm] |].
      simpl. rewrite Hr. simpl. rewrite Ha, Hm, !sub_of_Z by (unfold int_ok; lia). done.
    + apply amounts_take; auto; lia.
Qed.

(** C3: an admitted pod never takes the best-effort class below its baseline,
    and cache and memory bandwidth are conserved: after AddPod the amounts of
    all classes still add up to the node's capacity. *)
Theorem rdtq_AddPod_conserves cp s node r n A pod req d a m ps :
  cached_rdtq s node r n → node_ok cp n A →
  DevRequest req = Some d → asks d a m →
  CanAdmitPod s node (any_ioreq (Some req)) = Ok (inl ps) →
  ∃ s' n' A', res_AddPod node r pod (any_ioreq (Some req)) s = Ok (Added [req], s') ∧
    cached_rdtq s' node (mkRdtqResource (qr_nodeName r) (Some n')) n' ∧ node_ok cp n' A'.
Proof.
  intros Hc Hok Hd Hasks Had. destruct (CanAdmitPod_admits _ _ _ _ _ _ _ Hc Hd Had) as [Hadm _].
  destruct (charge_class_ok cp n A (pod_UID pod) d a m Hok Hasks Hadm) as (cs & Hcs & Hh & Ham).
  destruct Hc as [Hc Hn]. unfold res_AddPod. rewrite Hn. simpl. rewrite Hd. simpl. rewrite Hcs. simpl.
  eexists _, (set_classes cs n), _. split; [done |]. split; [split; [apply lookup_insert_eq | done] |].
  destruct Hok as (Hcp & _ & _ & Hrest). split; [done |]. split; [exact Hh |]. by split.
Qed.

(** ** RemovePod *)

Lemma release_class_ok cp n A uid l :
  node_ok cp n A → (∀ k c, (k, c) ∈ l → classes n !! k = Some c) →
  ∃ r, release_class uid l (classes n) = Ok r ∧
    match r with
    | Some cs => ∃ A', holds cs A' ∧ amounts_ok cp A'
    | None => True
    end.
Proof.
  intros (Hcp & Hh & Ham & _) Hl. unfold capacity_ok in Hcp.
  induction l as [| [k c] l IH]; simpl; [by exists None |].
  assert (Hk : classes n !! k = Some c) by (apply Hl; by left).
  destruct (remove_uid uid (ci_PodList c)) as [pods |];
    [| apply IH; intros; apply Hl; by right].
  destruct ((length pods =? 0)%nat && negb (String.eqb k BE)) eqn:E.
  - apply andb_true_iff in E as [_ Hne]. apply negb_true_iff, String.eqb_neq in Hne.
    pose proof Ham as (_ & _ & Hall & be & Hb & _).
    destruct (holds_Some _ _ _ _ Hh Hk) as (v & Hv & Hr).
    unfold on_BE. rewrite lookup_delete_ne by done.
    destruct (classes n !! BE) as [cb |] eqn:Ecb; [| by rewrite (holds_None _ _ _ Hh Ecb) in Hb].
    destruct (holds_Some _ _ _ _ Hh Ecb) as (be' & Hb' & Hrb).
    assert (be' = be) as -> by congruence. simpl. eexists. split; [done |].
    exists (<[BE := (be.1 + v.1, be.2 + v.2)]> (delete k A)). split; [| by apply amounts_give].
    destruct (Hall _ _ Hb) as [? ?], (Hall _ _ Hv) as [? ?].
    apply holds_insert; [by apply holds_delete |].
    simpl. rewrite Hr, Hrb. simpl. rewrite !add_of_Z by (unfold int_ok; lia). done.
  - eexists. split; [done |]. exists A. split; [| done]. by eapply holds_pods.
Qed.

(** RemovePod conserves them too, in whatever order the classes are
    ranged over; a pod that no class lists leaves the cache as it is. *)
Theorem rdtq_RemovePod_conserves cp s node r n A pod client :
  cached_rdtq s node r n → node_ok cp n A →
  ∃ err s', res_RemovePod node r pod client s = Ok (err, s') ∧
    match err with
    | None => ∃ n' A', cached_rdtq s' node (mkRdtqResource (qr_nodeName r) (Some n')) n' ∧
                       node_ok cp n' A'
    | Some _ => s' = s
    end.
Proof.
  intros [Hc Hn] Hok. unfold res_RemovePod. rewrite Hn. simpl.
  destruct (release_class_ok cp n A (pod_UID pod) (range (classes n)) Hok) as (res & -> & Hres).
  { intros k c. apply elem_of_range. }
  simpl. destruct res as [cs |]; [| by do 2 eexists]. destruct Hres as (A' & Hh & Ham).
  do 2 eexists. split; [done |]. exists (set_classes cs n), A'.
  split; [split; [apply lookup_insert_eq | done] |].
  destruct Hok as (Hcp & _ & _ & Hrest). split; [done |]. split; [exact Hh |]. by split.
Qed.

(** ** RemovePod undoes AddPod *)

Lemma remove_uid_None uid l : uid ∉ l → remove_uid uid l = None.
Proof.
  induction l as [| p l IH]; simpl; [done |]. rewrite elem_of_cons. intros Hn.
  destruct (String.eqb_spec p uid) as [-> | _]; [exfalso; auto |]. rewrite IH; auto.
Qed.
Lemma remove_uid_snoc uid l : uid ∉ l → remove_uid uid (l ++ [uid]) = Some l.
Proof.
  induction l as [| p l IH]; simpl; [by rewrite String.eqb_refl |]. rewrite elem_of_cons. intros Hn.
  destruct (String.eqb_spec p uid) as [-> | _]; [exfalso; auto |]. rewrite IH; auto.
Qed.

(** What RemovePod does with the class that lists the pod. *)
Definition released (k : string) (c : classInfo) (pods : list string) (m : gmap string classInfo)
    : outcome (option (gmap string classInfo)) :=
  if (length pods =? 0)%nat && negb (String.eqb k BE) then
    let! m := on_BE (be_give (l3 (ci_Requests c)) (mb (ci_Requests c))) (delete k m) in Ok (Some m)
  else Ok (Some (<[k := mkClass (ci_Requests c) (ci_Limits c) pods]> m)).

Lemma release_class_unique uid l m k c pods :
  NoDup l.*1 → (k, c) ∈ l → remove_uid uid (ci_PodList c) = Some pods →
  (∀ k' c', (k', c') ∈ l → k' ≠ k → uid ∉ ci_PodList c') →
  release_class uid l m = released k c pods m.
Proof.
  induction l as [| [k' c'] l IH]; simpl; [by rewrite elem_of_nil |].
  intros [Hk' Hnd]%NoDup_cons Hin Hr Hu. simpl in Hk'.
  destruct (decide (k' = k)) as [-> | Hne].
  - apply elem_of_cons in Hin as [[= ->] | Hin]; [by rewrite Hr |].
    exfalso. apply Hk'. by apply (list_elem_of_fmap_2 fst _ (k, c)).
  - rewrite remove_uid_None by (apply (Hu k'); [by left | done]).
    apply elem_of_cons in Hin as [[= -> ->] | Hin]; [done |].
    apply IH; [done.. |]. intros k2 c2 H2. apply Hu. by right.
Qed.

(** A class that lists pods, unless it is the best-effort one; its limits are
    integers there, as its requests are. *)
Definition classes_wf (m : gmap string classInfo) : Prop :=
  (∀ k c, m !! k = Some c → k ≠ BE → ci_PodList c ≠ []) ∧
  (∀ c, m !! BE = Some c → ∃ x y, ci_Limits c = mkRdt (of_Z x) (of_Z y) ∧ small x ∧ small y).

Lemma be_give_take a m x y lx ly c :
  ci_Requests c = mkRdt (of_Z x) (of_Z y) → ci_Limits c = mkRdt (of_Z lx) (of_Z ly) →
  small a → small m → small x → small y → small lx → small ly →
  be_give (of_Z a) (of_Z m) (be_take (of_Z a) (of_Z m) c) = c.
Proof.
  unfold small. intros Hr Hl Ha Hm Hx Hy Hlx Hly. destruct c as [r l p]. simpl in *. subst.
  unfold be_give, be_take. simpl. rewrite !sub_of_Z by (unfold int_ok; lia).
  rewrite !add_of_Z by (unfold int_ok; lia). repeat f_equal; lia.
Qed.

Lemma release_charge_class cp n A uid d a m :
  node_ok cp n A → asks d a m → admits n d → classes_wf (classes n) →
  (∀ k c, classes n !! k = Some c → uid ∉ ci_PodList c) →
  ∃ cs, charge_class uid d (classes n) = Ok cs ∧
        release_class uid (range cs) cs = Ok (Some (classes n)).
Proof.
  intros Hok Hasks Had [Hwf Hlim] Hu.
  destruct (charge_class_ok cp n A uid d a m Hok Hasks Had) as (cs & Hcs & _).
  exists cs. split; [done |]. revert Hcs. unfold charge_class.
  destruct (classes n !! DevName d) as [c |] eqn:Ec.
  - intros Hcs. inv_ok Hcs. destruct x; [| unfold admits in Had; rewrite Ec in Had;
      destruct Had as [Hb | [Hs | [? _]]]; [by rewrite Hb in E | destruct (is_BE d (Some c)); congruence | done]].
    simplify_eq. rewrite (release_class_unique uid _ _ (DevName d) (add_uid uid c) (ci_PodList c)).
    + unfold released. destruct ((_ =? 0)%nat && _) eqn:Ez.
      * apply andb_true_iff in Ez as [Hz Hne]. apply negb_true_iff, String.eqb_neq in Hne.
        apply Nat.eqb_eq, length_zero_iff_nil in Hz. by destruct (Hwf _ _ Ec Hne).
      * rewrite insert_insert_eq, insert_id; [done |]. rewrite Ec. by destruct c.
    + apply NoDup_range.
    + apply elem_of_range. by rewrite lookup_insert_eq.
    + simpl. apply remove_uid_snoc. by eapply Hu.
    + intros k' c'. rewrite elem_of_range. intros Hk' Hne. rewrite lookup_insert_ne in Hk' by done.
      by eapply Hu.
  - pose proof Hok as (Hcp & Hh & (_ & _ & Hall & be & Hb & _) & _). unfold capacity_ok in Hcp.
    destruct Hasks as ((q & Hq & Ha) & (q' & Hq' & Hm) & [ql Hql] & [ql' Hql'] & Ra & Rm).
    simpl. rewrite Hq, Hq', Hql, Hql'. simpl. unfold on_BE.
    assert (Hne : DevName d ≠ BE) by (intros E; rewrite E in Ec; rewrite (holds_None _ _ _ Hh Ec) in Hb; done).
    rewrite lookup_insert_ne by done. destruct (classes n !! BE) as [cb |] eqn:Ecb; [| done].
    simpl. intros [= <-]. rewrite Ha, Hm.
    destruct (holds_Some _ _ _ _ Hh Ecb) as (be' & Hb' & Hr). assert (be' = be) as -> by congruence.
    destruct (Hlim cb eq_refl) as (lx & ly & Hl & Slx & Sly). destruct (Hall _ _ Hb) as [? ?].
    rewrite (release_class_unique uid _ _ (DevName d)
      (mkClass (mkRdt (of_Z a) (of_Z m)) (mkRdt (Inbps ql) (Inbps ql')) [uid]) []).
    + unfold released. simpl. destruct (String.eqb_spec (DevName d) BE); [done |]. simpl.
      rewrite delete_insert_ne by done. rewrite delete_insert_id by done. unfold on_BE.
      rewrite lookup_insert_eq. simpl. rewrite insert_insert_eq.
      rewrite (be_give_take a m be.1 be.2 lx ly cb) by (done || unfold small; lia).
      by rewrite insert_id.
    + apply NoDup_range.
    + apply elem_of_range. rewrite lookup_insert_ne by done. by rewrite lookup_insert_eq.
    + simpl. by rewrite String.eqb_refl.
    + intros k' c'. rewrite elem_of_range. intros Hk' Hne'.
      destruct (decide (k' = BE)) as [-> | Hb2].
      * rewrite lookup_insert_eq in Hk'. simplify_eq. simpl. by eapply Hu.
      * rewrite !lookup_insert_ne in Hk' by done. by eapply Hu.
Qed.

(** Removing a pod gives back exactly what adding it took: classes, pods
    and the best-effort class are as before, in whatever order the classes
    are ranged over. *)
Theorem rdtq_AddPod_RemovePod_roundtrip cp s node r n A pod req d a m ps s1 reqs client :
  cached_rdtq s node r n → node_ok cp n A → classes_wf (classes n) →
  (∀ k c, classes n !! k = Some c → pod_UID pod ∉ ci_PodList c) →
  DevRequest req = Some d → asks d a m →
  CanAdmitPod s node (any_ioreq (Some req)) = Ok (inl ps) →
  res_AddPod node r pod (any_ioreq (Some req)) s = Ok (Added reqs, s1) →
  ∃ r1 s2, hs_cache s1 !! node = Some (ER_Rdtq r1) ∧
    res_RemovePod node r1 pod client s1 = Ok (None, s2) ∧ hs_cache s2 = hs_cache s.
Proof.
  intros Hc Hok Hwf Hu Hd Hasks Had HA.
  destruct (CanAdmitPod_admits _ _ _ _ _ _ _ Hc Hd Had) as [Hadm _].
  destruct (release_charge_class cp n A (pod_UID pod) d a m Hok Hasks Hadm Hwf Hu)
    as (cs & Hcs & Hrel). destruct Hc as [Hc Hn].
  unfold res_AddPod in HA. rewrite Hn in HA. simpl in HA. rewrite Hd in HA. simpl in HA.
  rewrite Hcs in HA. simpl in HA. simplify_eq.
  eexists _, _. split; [apply lookup_insert_eq |]. unfold res_RemovePod. simpl. rewrite Hrel. simpl.
  split; [done |]. simpl. unfold SetExtendedResource. rewrite insert_insert_eq.
  apply insert_id. rewrite Hc. destruct r, n. simpl in *. by subst.
Qed.
End Conservation.

(** ** Annotation values *)

Lemma ParseInt_range s bits v :
  ParseInt s bits = inl v → 1 ≤ bits → - 2 ^ (bits - 1) ≤ v < 2 ^ (bits - 1).
Proof.
  intros H Hb. assert (0 < 2 ^ (bits - 1)) by (apply Z.pow_pos_nonneg; lia).
  unfold ParseInt in H.
  destruct (match s with String _ _ => _ | EmptyString => _ end) as [neg body].
  destruct body as [| b body]; [done |]. destruct (digits (String b body) 0) as [un |] eqn:E; [| done].
  assert (Hun : 0 ≤ un).
  { assert (Hd : ∀ l acc r, 0 ≤ acc → digits l acc = Some r → 0 ≤ r).
    { induction l as [| c l IH]; simpl; intros acc r Ha; [by intros [= <-] |].
      unfold digit. destruct ((48 <=? _) && _) eqn:Ed; [| done]. apply IH. lia. }
    by apply (Hd _ _ _ (Z.le_refl 0) E). }
  destruct neg; simpl in H.
  - destruct (Z.ltb_spec (2 ^ (bits - 1)) un); [done |]. injection H as <-. lia.
  - destruct (Z.leb_spec (2 ^ (bits - 1)) un); [done |]. simpl in H. injection H as <-. lia.
Qed.

(** The values ParseInt accepts have ten bits: an L3 request is between
    -512 and 511 MiB, a bandwidth in GBps or MBps between -512 and 511 of its
    unit.  Larger requests are refused, and negative ones are accepted. *)
Theorem annotation_values_ten_bits s x :
  (L3_Parse s = inl x → ∃ v, x = of_Z v ∧ -512 ≤ v ≤ 511) ∧
  (Mb_Parse s = inl x → ∃ v, (x = of_Z v ∨ x = fmul (of_Z v) (of_Z 1024)) ∧ -512 ≤ v ≤ 511).
Proof.
  assert (Hr : ∀ t v, ParseInt t 10 = inl v → -512 ≤ v ≤ 511).
  { intros t v Ht. apply ParseInt_range in Ht; [| lia]. change (2 ^ (10 - 1)) with 512 in Ht. lia. }
  split; intros H.
  - unfold L3_Parse in H. destruct (String.eqb s ""); [injection H as <-; exists 0; split; [done | lia] |].
    destruct (has_suffix s "MiB"); [| done].
    destruct (ParseInt (trim 3 s) 10) as [v |] eqn:E; [| done]. injection H as <-.
    exists v. split; [done |]. by apply Hr in E.
  - unfold Mb_Parse in H. destruct (String.eqb s ""); [injection H as <-; exists 0; split; [by left | lia] |].
    destruct (has_suffix s "GBps"); [| destruct (has_suffix s "MBps"); [| done]];
      (destruct (ParseInt (trim 4 s) 10) as [v |] eqn:E; [| done]); injection H as <-;
      exists v; (split; [auto | by apply Hr in E]).
Qed.

(** ** A concrete node *)

Module RDTQuantityExample.
Import FakeInstances.

(** 100 MiB of cache and 1000 MBps, of which 20 and 200 are best effort's. *)
Definition cp1 : capacity := mkCapacity 100 1000 20 200.
Definition amount1 : amounts := {[BE := (70, 900); "gold" := (30, 100)]}.
Definition gold : classInfo :=
  mkClass (mkRdt (of_Z 30) (of_Z 100)) (mkRdt (of_Z 40) (of_Z 100)) ["uid-g"].
Definition best : classInfo :=
  mkClass (mkRdt (of_Z 70) (of_Z 900)) (mkRdt (of_Z 70) (of_Z 900)) [].
Definition node1 : RdtqNodeInfo :=
  mkRdtqNodeInfo (of_Z 100) (of_Z 100) (of_Z 1000) (of_Z 20) (of_Z 200)
    {[BE := best; "gold" := gold]}.
Definition res1 : RdtqResource := mkRdtqResource "n1" (Some node1).
Definition ctx1 : IoiContext := mkCtx ∅ [] ∅ [] ∅ false.
Definition store1 : HS Server := mkHS ctx1 {["n1" := ER_Rdtq res1]} server_empty.
Definition dev1 : DeviceRequirement :=
  mkDevReq "silver" (only_in (of_Z 40)) (only_in (of_Z 45)) (only_in (of_Z 500)) (only_in (of_Z 500)).
Definition req1 : IOResourceRequest := mkIOReq IOType_RDTQuantity GaIndex (Some dev1).
Definition pod1 : Pod := mkPod "p1" "default" "uid-1" ∅ "n1" [].

Lemma node1_ok : node_ok cp1 node1 amount1.
Proof.
  split; [vm_compute; intuition congruence |]. split.
  - intros k. unfold amount1. simpl. destruct (decide (k = BE)) as [-> | H1]; [done |].
    destruct (decide (k = "gold")) as [-> | H2]; [done |].
    by rewrite !lookup_insert_ne, !lookup_singleton_ne by done.
  - split; [| done]. split; [vm_eq |]. split; [vm_eq |]. split.
    + apply map_Forall_insert_2; [simpl; lia |]. apply map_Forall_singleton. simpl. lia.
    + exists (70, 900). split; [vm_eq |]. simpl. lia.
Qed.

Lemma asks1 : asks dev1 40 500.
Proof. unfold asks, only_in. simpl. repeat split; eauto; lia. Qed.

Lemma rdtq_AddPod_conserves_witness :
  ∃ s' n' A', res_AddPod "n1" res1 pod1 (any_ioreq (Some req1)) store1 = Ok (Added [req1], s') ∧
    cached_rdtq s' "n1" (mkRdtqResource (qr_nodeName res1) (Some n')) n' ∧ node_ok cp1 n' A'.
Proof.
  apply (rdtq_AddPod_conserves cp1 store1 "n1" res1 node1 amount1 pod1 req1 dev1 40 500
           (any_rdtq node1)); [split; vm_eq | exact node1_ok | vm_eq | exact asks1 | vm_eq].
Defined.

Definition pod_gold : Pod := mkPod "g" "default" "uid-g" ∅ "n1" [].

Lemma rdtq_RemovePod_conserves_witness :
  ∃ err s', res_RemovePod "n1" res1 pod_gold true store1 = Ok (err, s') ∧
    match err with
    | None => ∃ n' A', cached_rdtq s' "n1" (mkRdtqResource (qr_nodeName res1) (Some n')) n' ∧
                       node_ok cp1 n' A'
    | Some _ => s' = store1
    end.
Proof.
  apply (rdtq_RemovePod_conserves cp1 store1 "n1" res1 node1 amount1 pod_gold true);
    [split; vm_eq | exact node1_ok].
Defined.

Lemma classes1_wf : classes_wf (classes node1).
Proof.
  split.
  - intros k c Hk Hne. simpl in Hk. rewrite lookup_insert_ne in Hk by done.
    apply lookup_singleton_Some in Hk as [_ <-]. done.
  - intros c Hc. simpl in Hc. rewrite lookup_insert_eq in Hc. simplify_eq. exists 70, 900.
    repeat split; unfold small; lia.
Qed.
Lemma fresh1 k c : classes node1 !! k = Some c → pod_UID pod1 ∉ ci_PodList c.
Proof.
  simpl. intros Hk. apply lookup_insert_Some in Hk as [[<- <-] | [_ Hk]]; [set_solver |].
  apply lookup_singleton_Some in Hk as [_ <-]. simpl. set_solver.
Qed.

Definition charged1 : gmap string classInfo :=
  {[BE := be_take (of_Z 40) (of_Z 500) best; "gold" := gold;
    "silver" := mkClass (mkRdt (of_Z 40) (of_Z 500)) (mkRdt (of_Z 45) (of_Z 500)) ["uid-1"]]}.
Definition store1' : HS Server := store_node "n1" res1 (set_classes charged1 node1) store1.

Lemma rdtq_AddPod_RemovePod_roundtrip_witness :
  ∃ r1 s2, hs_cache store1' !! "n1" = Some (ER_Rdtq r1) ∧
    res_RemovePod "n1" r1 pod1 false store1' = Ok (None, s2) ∧ hs_cache s2 = hs_cache store1.
Proof.
  apply (rdtq_AddPod_RemovePod_roundtrip cp1 store1 "n1" res1 node1 amount1 pod1 req1 dev1 40 500
           (any_rdtq node1) store1' [req1]);
    [split; vm_eq | exact node1_ok | exact classes1_wf | exact fresh1 | vm_eq | exact asks1
    | vm_eq | vm_eq].
Defined.

(** A pod whose annotation asks for -50 MiB of cache. *)
Definition pod_neg : Pod :=
  mkPod "neg" "default" "uid-n" {[RDTQuantityConfigAnno := "-50MiB"]} "n1" [].
Definition dev_neg : DeviceRequirement :=
  mkDevReq "neg" (only_in (of_Z (-50))) (only_in (of_Z (-50))) (only_in (of_Z 10)) (only_in (of_Z 10)).
Definition req_neg : IOResourceRequest := mkIOReq IOType_RDTQuantity GaIndex (Some dev_neg).

(** A negative amount in an annotation passes every check: the request is
    parsed, the pod is admitted, and after AddPod the best-effort class holds
    more cache than the node has. *)
Theorem negative_request_admitted :
  res_AdmitPod res1 pod_neg store1 = Ok (inl (any_ioreq (Some req_neg))) ∧
  CanAdmitPod store1 "n1" (any_ioreq (Some req_neg)) = Ok (inl (any_rdtq node1)) ∧
  ∃ s' n' be, res_AddPod "n1" res1 pod_neg (any_ioreq (Some req_neg)) store1 = Ok (Added [req_neg], s') ∧
    cached_rdtq s' "n1" (mkRdtqResource "n1" (Some n')) n' ∧ classes n' !! BE = Some be ∧
    flt (L3CacheCapacity n') (l3 (ci_Requests be)) = true.
Proof.
  set (cs := {[BE := be_take (of_Z (-50)) (of_Z 10) best; "gold" := gold;
    "neg" := mkClass (mkRdt (of_Z (-50)) (of_Z 10)) (mkRdt (of_Z (-50)) (of_Z 10)) ["uid-n"]]}
    : gmap string classInfo).
  split; [vm_eq |]. split; [vm_eq |].
  exists (store_node "n1" res1 (set_classes cs node1) store1), (set_classes cs node1),
    (be_take (of_Z (-50)) (of_Z 10) best).
  split; [vm_eq |]. split; [split; vm_eq |]. split; vm_eq.
Qed.
End RDTQuantityExample.
