(* ===== verification/EventFacts.v ===== *)
(** * Facts about the informer callbacks

    The callbacks are verified against the interface [LockNeutral], which the
    four handles satisfy. *)

From S2P Require Export EventHandler HandleFacts.
From S2P Require Import Fake.
From S2P Require Plugin.

Section Lock.
Context `{Q : QuantityLib} `{!HashLib} `{!GoRange} {K : Type} `{!KubeClient K}.
Context (cache : gmap string (CacheHandle K)).
Hypothesis Hcache : map_Forall (λ _ h, LockNeutral h) cache.
Implicit Types w : World K.

(** A step of a callback: it neither takes nor releases the lock. *)
Definition w_neutral (f : World K → outcome (World K)) : Prop :=
  ∀ w, spares (λ w', locked (w_ctx w') = locked (w_ctx w)) (f w).

Lemma on_handle_neutral {A} key (m : GoM (HS K) A) w :
  lock_neutral m → spares (λ r, locked (w_ctx r.2) = locked (w_ctx w)) (on_handle key m w).
Proof.
  intros Hm. unfold on_handle. eapply spares_bind; [apply Hm |]. by intros [a s].
Qed.

Lemma ignore_neutral {A} key (m : GoM (HS K) A) : lock_neutral m → w_neutral (ignore_result key m).
Proof.
  intros Hm w. unfold ignore_result. eapply spares_bind; [by apply on_handle_neutral |].
  by intros [a w'].
Qed.

Lemma fold_neutral {A} (f : World K → A → outcome (World K)) l :
  (∀ x, x ∈ l → w_neutral (λ w, f w x)) → w_neutral (λ w, foldM f w l).
Proof.
  intros Hf. induction l as [| x l IH]; intros w; simpl; [done |].
  eapply spares_bind; [apply Hf; by left |]. intros w1 Hw1. simpl in Hw1.
  eapply spares_weaken; [| apply IH; intros; apply Hf; by right]. intros w2. simpl. congruence.
Qed.

Lemma then_neutral f g : w_neutral f → w_neutral g → w_neutral (λ w, let! w := f w in g w).
Proof.
  intros Hf Hg w. eapply spares_bind; [apply Hf |]. intros w1 Hw1. simpl in Hw1.
  eapply spares_weaken; [| apply Hg]. intros w2. simpl. congruence.
Qed.

Lemma cached_neutral k h : (k, h) ∈ range cache → LockNeutral h.
Proof. intros Hin%elem_of_range. by eapply Hcache. Qed.

Lemma each_handle_neutral f :
  (∀ k h, LockNeutral h → w_neutral (f k h)) → w_neutral (each_handle cache f).
Proof.
  intros Hf. apply fold_neutral. intros [k h] Hin. apply Hf. by eapply cached_neutral.
Qed.

Lemma each_config_neutral nio f :
  (∀ h rc, LockNeutral h → lock_neutral (f h rc)) → w_neutral (each_config cache nio f).
Proof.
  intros Hf. apply fold_neutral. intros [k rc] _ w. simpl.
  destruct (cache !! k) as [h |] eqn:Eh; [| done]. apply ignore_neutral, Hf. by eapply Hcache.
Qed.

(** A callback between Lock and the deferred Unlock. *)
Lemma locked_do_free f w :
  w_neutral f → locked (w_ctx w) = false →
  spares (λ w', locked (w_ctx w') = false) (locked_do f w).
Proof.
  intros Hf Hl. unfold locked_do, w_Lock, ctx_Lock. rewrite Hl. simpl.
  eapply spares_bind; [apply Hf |]. done.
Qed.

(** ** The handlers *)

Lemma calculatePodRequest_no_wait pod node w : no_wait (calculatePodRequest cache pod node w).
Proof.
  unfold calculatePodRequest. eapply (spares_bind (λ _, True)); [| done].
  assert (Hall : ∀ kh, kh ∈ range cache → LockNeutral kh.2)
    by (intros [k h] Hin; by eapply cached_neutral).
  revert Hall. generalize (range cache) ([] : list IOResourceRequest).
  intros l. induction l as [| [k h] l IH]; intros acc Hall; simpl; [done |].
  pose proof (Hall (k, h) ltac:(by left)) as Hh.
  rewrite obind_assoc. eapply spares_bind; [apply (no_wait_GetRequestByAnnotation (h := h)) |].
  intros r _. simpl. apply IH. intros. apply Hall. by right.
Qed.

Lemma reserve_existing_neutral node : w_neutral (reserve_existing cache node).
Proof.
  intros w. unfold reserve_existing. apply fold_neutral. intros ns _ w1. simpl.
  destruct (InNamespaceWhiteList _ _); [done |].
  apply (fold_neutral (λ w pod, _)). intros pod _ w2. simpl.
  destruct (pod_Annotations pod !! _); [| done]. destruct (String.eqb _ _); [| done].
  eapply spares_bind; [apply calculatePodRequest_no_wait |]. intros req _.
  unfold record_pod. spare. done.
Qed.

Lemma SetPodListGen_locked c n g c' e : SetPodListGen c n g = (c', e) → locked c' = locked c.
Proof. unfold SetPodListGen. repeat case_match; by intros [= <- <-]. Qed.

Lemma sync_node_neutral nio : w_neutral (sync_node cache nio).
Proof.
  assert (Hinit : ∀ w w0, locked (w_ctx w) = locked (w_ctx w0) →
    spares (λ w', locked (w_ctx w') = locked (w_ctx w0))
      (each_config cache nio (λ h rc, InitNodeStatus h (nsi_NodeName nio) rc) w)).
  { intros w w0 E. rewrite <- E. apply each_config_neutral. intros h rc Hh.
    apply (neutral_InitNodeStatus (h := h)). }
  intros w. unfold sync_node.
  destruct (GetNodeIOStatus _ _) as [sts | err].
  - spare; apply SetPodListGen_locked in E0; [simpl in *; congruence | by apply Hinit].
  - spare; try done. by apply Hinit.
Qed.

Lemma AddNodeStaticIOInfo_free nio w :
  locked (w_ctx w) = false → spares (λ w', locked (w_ctx w') = false) (AddNodeStaticIOInfo cache nio w).
Proof.
  apply locked_do_free. intros w1.
  set (w2 := match GetReservedPods _ _ with inl _ => w1 | inr _ => _ end).
  assert (E : locked (w_ctx w2) = locked (w_ctx w1)) by (unfold w2; by case_match).
  rewrite <- E. clearbody w2. clear E. revert w2.
  apply (then_neutral (each_config cache nio _) (λ w, let! w := reserve_existing cache _ w in sync_node cache nio w)).
  - apply each_config_neutral. intros h rc Hh s.
    eapply spares_bind; [apply (neutral_AddCacheNodeInfo (h := h)) |]. by intros [].
  - apply then_neutral; [apply reserve_existing_neutral | apply sync_node_neutral].
Qed.

Lemma delete_caches_neutral cond node w :
  spares (λ c, match c with Next w' | Return w' => locked (w_ctx w') = locked (w_ctx w) end)
    (delete_caches cache cond node w).
Proof.
  unfold delete_caches.
  assert (Hall : ∀ kh, kh ∈ range cache → LockNeutral kh.2)
    by (intros [k h] Hin; by eapply cached_neutral).
  revert w Hall. induction (range cache) as [| [k h] l IH]; intros w Hall; simpl; [done |].
  pose proof (Hall (k, h) ltac:(by left)) as Hh.
  assert (Hl : ∀ kh, kh ∈ l → LockNeutral kh.2) by (intros; apply Hall; by right).
  destruct (cond h); simpl; [| by apply IH]. rewrite obind_assoc.
  eapply spares_bind; [apply on_handle_neutral, (neutral_DeleteCacheNodeInfo (h := h)) |].
  intros [err w1] Hw1. simpl in *. destruct err; simpl; [done |]. rewrite <- Hw1. by apply IH.
Qed.

Lemma UpdateNodeStaticIOInfo_neutral old nio : w_neutral (UpdateNodeStaticIOInfo cache old nio).
Proof.
  intros w. unfold UpdateNodeStaticIOInfo.
  eapply (spares_bind (λ c, match c with Next w' | Return w' => locked (w_ctx w') = locked (w_ctx w) end)).
  2: { by intros []. }
  apply (spares_for_range (λ w', locked (w_ctx w') = locked (w_ctx w))
           (λ w', locked (w_ctx w') = locked (w_ctx w))); [done |].
  intros w1 [k rc] Hw1. unfold update_resource. simpl.
  destruct (cache !! k) as [h |] eqn:Eh; [| done]. pose proof (Hcache k h Eh : LockNeutral h) as Hh.
  destruct (ResourceConfig old !! k) as [o |].
  - destruct (_ && _); [| done].
    eapply spares_bind; [apply on_handle_neutral, (neutral_UpdateDeviceNodeInfo (h := h)) |].
    intros [r w2] Hw2. simpl in Hw2. spare; repeat case_match; simplify_eq/=; congruence.
  - eapply spares_bind; [apply on_handle_neutral, (neutral_AddCacheNodeInfo (h := h)) |].
    intros [err w2] Hw2. simpl in Hw2. destruct err; simpl; [congruence |].
    eapply spares_bind; [apply on_handle_neutral, (neutral_InitNodeStatus (h := h)) |].
    intros [u w3] Hw3. simpl in Hw3. spare; repeat case_match; simplify_eq/=; congruence.
Qed.

Lemma RemovePod_free (c : IoiContext) pod n :
  locked c = false → spares (λ r, locked r.1 = false) (Context.RemovePod c pod n).
Proof. intros Hl. unfold Context.RemovePod, ctx_Lock. rewrite Hl. spare; done. Qed.

Lemma DeletePod_free pod w :
  locked (w_ctx w) = false → spares (λ w', locked (w_ctx w') = false) (DeletePod cache pod w).
Proof.
  intros Hl. unfold DeletePod. destruct (_ !! _); [| done].
  eapply (spares_bind (λ w', locked (w_ctx w') = false)).
  - unfold each_handle. revert w Hl.
    assert (Hall : ∀ kh, kh ∈ range cache → LockNeutral kh.2)
      by (intros [k h] Hin; by eapply cached_neutral).
    induction (range cache) as [| [k h] l IH]; intros w Hl; simpl; [done |].
    pose proof (Hall (k, h) ltac:(by left) : LockNeutral h) as Hh.
    unfold ignore_result, on_handle. rewrite !obind_assoc.
    eapply spares_bind; [by apply (free_RemovePod (h := h)) |]. intros [e s1] Hs1. simpl.
    rewrite !obind_assoc. eapply spares_bind; [apply (neutral_PrintCacheInfo (h := h)) |].
    intros [u s2] Hs2. simpl in *. apply IH; [intros; apply Hall; by right |].
    unfold put. simpl. congruence.
  - intros w1 Hw1. eapply spares_bind; [by apply RemovePod_free |]. by intros [c e].
Qed.

Lemma DeleteNodeStaticIOInfo_free nio w :
  locked (w_ctx w) = false →
  spares (λ w', locked (w_ctx w') = false) (DeleteNodeStaticIOInfo cache nio w).
Proof.
  intros Hl. unfold DeleteNodeStaticIOInfo. eapply spares_bind.
  - apply (each_handle_neutral (λ k h w, _)). intros k h Hh.
    apply then_neutral; apply ignore_neutral;
      [apply (neutral_DeleteCacheNodeInfo (h := h)) | apply (neutral_PrintCacheInfo (h := h))].
  - intros w1 Hw1. simpl in Hw1. apply locked_do_free; [| congruence].
    intros w2. simpl. unfold remove_reserved. by case_match.
Qed.

Lemma DeleteNode_free node w :
  locked (w_ctx w) = false → spares (λ w', locked (w_ctx w') = false) (DeleteNode cache node w).
Proof.
  intros Hl. unfold DeleteNode. eapply spares_bind; [apply delete_caches_neutral |].
  intros [w1 | w1] Hw1; simpl in Hw1; [| simpl; congruence].
  apply locked_do_free; [| congruence]. intros w2. unfold remove_reserved.
  destruct (RemoveNodeFromVolDiskCm _ _). simpl. by case_match.
Qed.

Lemma pvc_changed_free pvc node add w :
  locked (w_ctx w) = false → spares (λ w', locked (w_ctx w') = false) (pvc_changed cache pvc node add w).
Proof.
  intros Hl. unfold pvc_changed. eapply (spares_bind (λ _, True)).
  { unfold getBoundDeviceId, w_Lock, ctx_Lock. by rewrite Hl. }
  intros [[dev qty] | err] _; [| done]. destruct (_ && _); [| done]. rewrite <- Hl.
  apply (each_handle_neutral (λ k h w, _)). intros k h Hh.
  apply ignore_neutral, (neutral_UpdatePVC (h := h)).
Qed.

(** ** Any sequence of events *)

Lemma handle_event_free e w :
  locked (w_ctx w) = false → spares (λ w', locked (w_ctx w') = false) (handle_event cache e w).
Proof.
  intros Hl. destruct e; simpl.
  - by apply AddNodeStaticIOInfo_free.
  - eapply spares_weaken; [| apply UpdateNodeStaticIOInfo_neutral]. simpl. congruence.
  - by apply DeleteNodeStaticIOInfo_free.
  - apply locked_do_free; [| done]. intros w1. spare; try done.
    apply (each_handle_neutral (λ k h w, _)). intros k h Hh.
    apply ignore_neutral, (neutral_UpdateCacheNodeStatus (h := h)).
  - destruct (pod_filter w pod); [by apply DeletePod_free | done].
  - unfold UpdateNode. eapply spares_bind; [apply delete_caches_neutral |].
    intros [w1 | w1] Hw1; simpl in *; congruence.
  - by apply DeleteNode_free.
  - unfold UpdatePVC_event. spare; try done; by apply pvc_changed_free.
  - apply locked_do_free; [| done]. intros w1. spare; try done.
    apply (each_handle_neutral (λ k h w, _)). intros k h Hh.
    apply ignore_neutral, (neutral_UpdatePVC (h := h)).
  - unfold AddAdminConfigData. destruct (admin_filter cm); simpl; [by case_match | done].
  - unfold UpdateAdminConfigData, AddAdminConfigData. destruct (admin_filter cm); simpl; [by case_match | done].
Qed.

(** C10: whatever informer events arrive, in any order, no callback waits for
    the context's lock while it holds it, and each one returns with the lock
    free, on its early returns too; proved for any handles that satisfy
    [LockNeutral]. *)
Theorem events_release_lock w l :
  locked (w_ctx w) = false →
  handle_events cache w l ≠ Crash SelfDeadlock ∧
  ∀ w', handle_events cache w l = Ok w' → locked (w_ctx w') = false.
Proof.
  intros Hl. assert (Hs : spares (λ w', locked (w_ctx w') = false) (handle_events cache w l)).
  { apply spares_foldM; [done |]. intros w1 e. apply handle_event_free. }
  destruct (handle_events cache w l); simpl in Hs; naive_solver.
Qed.
End Lock.

(** ** A node arrives, reports and leaves *)

Module EventExample.
Import FakeInstances.

Definition handles : gmap string (CacheHandle Server) :=
  {["BlockIO" := BlockIOHandle; "NetworkIO" := NetworkIOHandle; "RDT" := RDTHandle;
    "RDTQuantity" := RDTQuantityHandle]}.
Lemma handles_neutral : map_Forall (λ _ h, LockNeutral h) handles.
Proof.
  unfold handles. do 3 (apply map_Forall_insert_2; [apply _ |]).
  apply map_Forall_singleton. apply _.
Qed.

Definition disk : Device :=
  mkDevice "sda" DefaultDevice (of_Z 10) (of_Z 10) ∅ ∅ (of_Z 500) (of_Z 500) (of_Z 1000) "1Gi" "/mnt/sda".
Definition nio1 : NodeStaticIOInfo :=
  mkNSI "n1" {["BlockIO" := mkRC 40 60 0 {["d1" := disk]} []]} "10.0.0.1:8997" ∅.
Definition status0 : NodeIOStatus := mkNIS (mkSpec "n1" 0 ∅) (mkStatus 0 ∅).
Definition report0 : NodeIOStatus :=
  mkNIS (mkSpec "n1" 0 ∅) (mkStatus 0 {["BlockIO" := {["d1" :=
    {[WorkloadGA := mkIOStatus (of_Z 450) (of_Z 250) (of_Z 200) fzero ""]}]}]}).
Definition world0 : World Server :=
  mkWorld (mkCtx ∅ ["kube-system"] ∅ [] ∅ false) server_empty ∅.
Definition events0 : list event :=
  [NodeInfoAdded nio1; StatusUpdated status0 report0;
   PodDeleted (mkPod "p1" "default" "uid-1" {[AllocatedIOAnno := "{}"]} "n1" []);
   NodeInfoDeleted nio1].
Definition returns (r : outcome (World Server)) : bool :=
  match r with Ok _ => true | Crash _ => false end.

Lemma events_release_lock_witness :
  ∃ w, handle_events handles world0 events0 = Ok w ∧ locked (w_ctx w) = false.
Proof.
  assert (E : returns (handle_events handles world0 events0) = true) by vm_eq.
  destruct (handle_events handles world0 events0) as [w |] eqn:Hw; [| discriminate E].
  exists w. split; [reflexivity |].
  apply (events_release_lock handles handles_neutral world0 events0 eq_refl). exact Hw.
Defined.
End EventExample.
