(* ===== verification/AggregatorFacts.v ===== *)
(** * The aggregator

    What a report changes, and that no coherent sequence of events makes the
    aggregator panic. *)

From S2P Require Export NodeFake UtilsFacts.

(** ** Reports *)

(** A loop that overwrites the entries of a map that are there. *)
Lemma insert_present {A} (k : string) (g : A → A) (m : gmap string A) :
  match m !! k with None => m | Some a => <[k := g a]> m end = alter g k m.
Proof.
  destruct (m !! k) as [a |] eqn:E; [by apply insert_alter |].
  apply map_eq. intros i. destruct (decide (i = k)) as [-> |].
  - by rewrite lookup_alter_eq, E.
  - by rewrite lookup_alter_ne.
Qed.

Lemma lookup_overwrite `{GoRange} {A V} (f : V → A → A) (news : gmap string V) (m : gmap string A) i :
  foldl (λ m kv, match m !! kv.1 with None => m | Some a => <[kv.1 := f kv.2 a]> m end)
    m (range news) !! i =
  match news !! i with Some v => f v <$> m !! i | None => m !! i end.
Proof.
  rewrite <- (list_to_map_range news) at 2. rewrite <- lookup_foldl_alter by apply NoDup_range.
  f_equal. generalize (range news) as l. intros l. revert m.
  induction l as [| [k v] l IH]; intros m; [done |]. simpl. by rewrite insert_present, IH.
Qed.

Section Reports.
Context `{Q : QuantityLib} `{!GoRange}.

(** The value of a pool of a device, under a resource type. *)
Definition pool_at (m : gmap string DeviceIOStatus) (key dev qos : string) : option IOStatus :=
  m !! key ≫= λ ds, ds !! dev ≫= λ ps, ps !! qos.
Definition reported_at (bw : IOBandwidth) (dev qos : string) : option IOStatus :=
  (DeviceBwInfo bw !! dev) ≫= λ i, db_Status i !! qos.
(** What a report writes: the size is not carried over. *)
Definition as_reported (st : IOStatus) : IOStatus :=
  mkIOStatus (st_Total st) (st_In st) (st_Out st) (Pressure st) "".

Lemma report_pools_lookup pools rep q :
  report_pools pools rep !! q =
  match rep !! q with Some st => (λ _, as_reported st) <$> pools !! q | None => pools !! q end.
Proof. apply (lookup_overwrite (λ st _, as_reported st)). Qed.

Lemma report_devices_lookup devices bw dev :
  report_devices devices bw !! dev =
  match bw !! dev with
  | Some i => (λ p, report_pools p (db_Status i)) <$> devices !! dev
  | None => devices !! dev
  end.
Proof. apply (lookup_overwrite (λ i p, report_pools p (db_Status i))). Qed.

(** One report over the statuses of a node, all pools at once. *)
Definition report_step (m : gmap string DeviceIOStatus) (bw : IOBandwidth)
    : gmap string DeviceIOStatus :=
  match report_key (bw_IoType bw) with
  | None => m
  | Some key => match m !! key with
                | None => m
                | Some devices => <[key := report_devices devices (DeviceBwInfo bw)]> m
                end
  end.
Lemma apply_report_steps st req :
  AllocatableBandwidth (apply_report st req) = foldl report_step (AllocatableBandwidth st) (IoBw req).
Proof. done. Qed.

Lemma report_step_at m bw key dev qos :
  pool_at (report_step m bw) key dev qos =
  match pool_at m key dev qos with
  | None => None
  | Some old =>
      Some (match (if decide (report_key (bw_IoType bw) = Some key)
                   then reported_at bw dev qos else None) with
            | Some new => as_reported new
            | None => old
            end)
  end.
Proof.
  unfold report_step, pool_at, reported_at.
  destruct (report_key (bw_IoType bw)) as [key' |];
    [| rewrite decide_False by done; by destruct (m !! key ≫= _)].
  rewrite insert_present. destruct (decide (key' = key)) as [-> | Hne].
  - rewrite decide_True by done. rewrite lookup_alter_eq.
    destruct (m !! key) as [ds |]; simpl; [| done]. rewrite report_devices_lookup.
    destruct (DeviceBwInfo bw !! dev) as [i |]; simpl; [| by destruct (ds !! dev ≫= _)].
    destruct (ds !! dev) as [ps |]; simpl; [| done]. rewrite report_pools_lookup.
    destruct (db_Status i !! qos) as [new |]; [| by destruct (ps !! qos)].
    by destruct (ps !! qos).
  - rewrite decide_False by congruence. rewrite lookup_alter_ne by done. by destruct (m !! key ≫= _).
Qed.

(** The last value that a list of bandwidths reports for a pool. *)
Definition last_reported (l : list IOBandwidth) (key dev qos : string) (old : IOStatus) : IOStatus :=
  foldl (λ st bw,
    match (if decide (report_key (bw_IoType bw) = Some key) then reported_at bw dev qos else None)
    with Some new => as_reported new | None => st end) old l.

(** C35: a report of an agent for a registered node replaces exactly what it
    reports of what the node has registered: every pool keeps its place, takes
    the last value reported for it, and is left alone when none is; the
    generation is the report's, no other node changes, and the aggregator does
    not panic.  A report of the type RDTQuantity changes no pool. *)
Theorem report_replaces_registered req a st :
  nodeInfo4Sched a !! rep_NodeName req = Some st →
  ∃ st', updateNodeIOStatusCache req a =
           Ok (set_scheds (<[rep_NodeName req := st']> (nodeInfo4Sched a)) a) ∧
    ObservedGeneration st' = rep_ObservedGeneration req ∧
    (∀ key dev qos, pool_at (AllocatableBandwidth st') key dev qos =
       last_reported (IoBw req) key dev qos <$> pool_at (AllocatableBandwidth st) key dev qos) ∧
    (Forall (λ bw, bw_IoType bw = IOType_RDTQuantity) (IoBw req) →
     AllocatableBandwidth st' = AllocatableBandwidth st).
Proof.
  intros E. eexists. unfold updateNodeIOStatusCache, on_sched. rewrite E.
  split; [done |]. split; [done |]. rewrite apply_report_steps. split.
  - intros key dev qos. generalize (AllocatableBandwidth st) as m.
    induction (IoBw req) as [| bw l IH]; intros m; simpl; [by destruct (pool_at m key dev qos) |].
    rewrite IH, report_step_at. by destruct (pool_at m key dev qos).
  - intros HF. generalize (AllocatableBandwidth st) as m.
    induction HF as [| bw l Hbw HF IH]; intros m; simpl; [done |].
    unfold report_step at 2. rewrite Hbw. simpl. apply IH.
Qed.
End Reports.

Module ReportExample.
Import FakeInstances.

Definition pool0 : IOStatus := mkIOStatus (of_Z (-1)) (of_Z (-1)) (of_Z (-1)) (of_Z (-1)) "".
Definition pool1 : IOStatus := mkIOStatus (of_Z 300) (of_Z 200) (of_Z 100) fzero "".
Definition status1 : NodeIOStatusStatus :=
  mkStatus 1 {[BlockIO_key := {["d1" := {["GA" := pool0; "BE" := pool0]}]}]}.
Definition report1 : UpdateNodeIOStatusRequest :=
  mkReport "n1" 2 [mkIOBw IOType_DiskIO {["d1" := mkDevBw "sda" {["GA" := pool1]}]}].
Definition aggr1 : Aggr := mkAggr ∅ {["n1" := status1]} [] [] [] [] false false true.

Lemma report_replaces_registered_witness :
  ∃ st', updateNodeIOStatusCache report1 aggr1 =
           Ok (set_scheds (<["n1" := st']> (nodeInfo4Sched aggr1)) aggr1) ∧
    pool_at (AllocatableBandwidth st') BlockIO_key "d1" "GA" = Some pool1 ∧
    pool_at (AllocatableBandwidth st') BlockIO_key "d1" "BE" = Some pool0.
Proof.
  destruct (report_replaces_registered report1 aggr1 status1) as (st' & E & _ & Hp & _);
    [reflexivity |].
  exists st'. split; [exact E |]. split; rewrite Hp; reflexivity.
Defined.
End ReportExample.

(** ** The aggregator as a machine *)

(** What can happen: informer events, calls of agents, rounds of its
    goroutines, a change of leadership, the end of an item's delay. *)
Inductive aevent :=
| StaticAdd (n : NodeStaticIOInfo)
| StaticUpdate (old new : NodeStaticIOInfo)
| StaticDelete (n : NodeStaticIOInfo)
| StatusAdd (obj : NodeIOStatus)
| StatusUpdate (old new : NodeIOStatus)
| Report (room : bool) (req : UpdateNodeIOStatusRequest)
| Lead (b : bool)
| PodRound
| StatusRound
| Tick
| Work (send : UpdateReservedPodsRequest → option error)
| Redo.

Section Machine.
Context `{Q : QuantityLib} `{!GoRange} `{!AllocLib} `{!Grpc} {K : Type} `{!KubeClient K}.

(** The API server, the aggregator, the items whose delay runs. *)
Record AW := mkAW { aw_kube : K; aw_aggr : Aggr; aw_delayed : list work_item }.
Definition on_aggr (w : AW) (a : Aggr) : AW := mkAW (aw_kube w) a (aw_delayed w).

Definition astep (w : AW) (ev : aevent) : outcome AW :=
  let a := aw_aggr w in
  match ev with
  | StaticAdd n => Ok (on_aggr w (NodeStaticIOInfoCrAdd n a))
  | StaticUpdate o n => Ok (on_aggr w (NodeStaticIOInfoCrUpdate o n a))
  | StaticDelete n => Ok (on_aggr w (NodeStaticIOInfoCrDelete n a))
  | StatusAdd obj => Ok (on_aggr w (AddNodeIOStatusCR obj a))
  | StatusUpdate o n => let! a := UpdateNodeIOStatusCR o n a in Ok (on_aggr w a)
  | Report room req =>
      let! '(a, _) := UpdateNodeIOStatus (aw_kube w) room req a in Ok (on_aggr w a)
  | Lead b => Ok (on_aggr w (SetLeader b a))
  | PodRound =>
      Ok (match SendReservedPodtoQueue (aw_kube w) a with Some a => on_aggr w a | None => w end)
  | StatusRound =>
      let! r := status_received a in
      Ok (match r with Some a => on_aggr w a | None => w end)
  | Tick => Ok (on_aggr w (status_tick a))
  | Work send =>
      let! r := work_step send (aw_kube w) a (aw_delayed w) in
      Ok (match r with Some (k, a, delayed, _) => mkAW k a delayed | None => w end)
  | Redo =>
      Ok (match aw_delayed w with
          | [] => w
          | it :: l => mkAW (aw_kube w) (queue_Add it a) l
          end)
  end.

(** Node names are Kubernetes names: they contain no semicolon.  An update
    event carries, as the old object, the one that the informer showed last
    for the node; [seen] is the informer's store. *)
Definition plain (node : string) : Prop := str_split semicolon node = [node].
Inductive coherent : gmap string NodeIOStatus → list aevent → Prop :=
| coherent_nil seen : coherent seen []
| coherent_add seen obj l :
    plain (spec_NodeName (nis_Spec obj)) →
    coherent (<[spec_NodeName (nis_Spec obj) := obj]> seen) l →
    coherent seen (StatusAdd obj :: l)
| coherent_update seen old new l :
    seen !! spec_NodeName (nis_Spec new) = Some old →
    coherent (<[spec_NodeName (nis_Spec new) := new]> seen) l →
    coherent seen (StatusUpdate old new :: l)
| coherent_other seen ev l :
    match ev with StatusAdd _ | StatusUpdate _ _ => False | _ => True end →
    coherent seen l → coherent seen (ev :: l).

(** Every name that will be dereferenced is registered. *)
Definition registered (a : Aggr) (node : string) : Prop := is_Some (nodeInfo4Sched a !! node).
Definition item_ok (a : Aggr) (it : work_item) : Prop :=
  match it with
  | StatusItem s => ∀ n, n ∈ str_split semicolon s → registered a n
  | PodsItem _ => True
  end.
Record awf (seen : gmap string NodeIOStatus) (w : AW) : Prop := mkAwf {
  wf_seen : ∀ node obj, seen !! node = Some obj → plain node ∧
    ((0 < size (AllocatableBandwidth (nis_Status obj)))%nat → registered (aw_aggr w) node);
  wf_names : ∀ node, registered (aw_aggr w) node → plain node;
  wf_reports : ∀ req, req ∈ NodeStatusCh (aw_aggr w) → registered (aw_aggr w) (rep_NodeName req);
  wf_updated : ∀ n, n ∈ updatedNode (aw_aggr w) → registered (aw_aggr w) n;
  wf_queue : ∀ it, it ∈ aqueue (aw_aggr w) → item_ok (aw_aggr w) it;
  wf_delayed : ∀ it, it ∈ aw_delayed w → item_ok (aw_aggr w) it
}.

(** *** The callbacks keep registrations *)

(** [a'] differs from [a] in registrations only by gaining [node], and not in
    what waits. *)
Record gains (node : string) (a a' : Aggr) : Prop := mkGains {
  gains_mono : ∀ n, registered a n → registered a' n;
  gains_only : ∀ n, registered a' n → registered a n ∨ n = node;
  gains_reports : NodeStatusCh a' = NodeStatusCh a;
  gains_updated : updatedNode a' = updatedNode a;
  gains_queue : aqueue a' = aqueue a
}.
Lemma gains_refl node a : gains node a a.
Proof. split; auto. Qed.
Lemma gains_trans node a1 a2 a3 : gains node a1 a2 → gains node a2 a3 → gains node a1 a3.
Proof.
  intros [] []. split; [auto | | congruence..].
  intros n Hn. destruct (gains_only1 n Hn); auto.
Qed.

Lemma on_sched_gains node f a :
  registered a node → ∃ a', on_sched node f a = Ok a' ∧ gains node a a'.
Proof.
  intros [st E]. unfold on_sched. rewrite E. simpl. eexists. split; [done |].
  split; [| | done..]; unfold registered; simpl; intros n Hn.
  - destruct (decide (n = node)) as [-> |]; [rewrite lookup_insert_eq; eauto |].
    by rewrite lookup_insert_ne.
  - destruct (decide (n = node)) as [-> | Hne]; [by right |].
    left. by rewrite lookup_insert_ne in Hn.
Qed.

Lemma set_scheds_gains node v a : gains node a (set_scheds (<[node := v]> (nodeInfo4Sched a)) a).
Proof.
  split; [| | done..]; unfold registered; simpl; intros n Hn.
  - destruct (decide (n = node)) as [-> |]; [rewrite lookup_insert_eq; eauto |].
    by rewrite lookup_insert_ne.
  - destruct (decide (n = node)) as [-> | Hne]; [by right |].
    left. by rewrite lookup_insert_ne in Hn.
Qed.

Lemma update_devices_gains node iotype o n a :
  registered a node → ∃ a', update_devices node iotype o n a = Ok a' ∧ gains node a a'.
Proof.
  intros Hr. unfold update_devices.
  assert (Hadd : ∃ a1, (if (0 <? size (new_keys o n))%nat then addDeviceToCache node iotype (new_keys o n) a
                      else Ok a) = Ok a1 ∧ gains node a a1).
  { destruct (0 <? _)%nat; [by apply on_sched_gains | eauto using gains_refl]. }
  destruct Hadd as (a1 & -> & G1). simpl.
  destruct (0 <? size (new_keys n o))%nat; [| eauto].
  destruct (on_sched_gains node (λ st,
    let m := AllocatableBandwidth st in
    match m !! iotype with
    | None => st
    | Some devs => with_bandwidth (<[iotype := foldl (λ d kv, delete kv.1 d) devs
                                      (range (new_keys n o))]> m) st
    end) a1) as (a2 & E & G2); [by apply G1 |].
  exists a2. split; [exact E | by eapply gains_trans].
Qed.

Lemma size_lookup_pos {V} (m : gmap string V) k v : m !! k = Some v → (0 < size m)%nat.
Proof.
  intros E. destruct (size m) eqn:Hs; [| lia]. apply map_size_empty_inv in Hs. by subst.
Qed.

Lemma UpdateNodeIOStatusCR_ok old new a :
  let node := spec_NodeName (nis_Spec new) in
  ((0 < size (AllocatableBandwidth (nis_Status old)))%nat → registered a node) →
  ∃ a', UpdateNodeIOStatusCR old new a = Ok a' ∧ gains node a a' ∧
    ((0 < size (AllocatableBandwidth (nis_Status new)))%nat → registered a' node).
Proof.
  intros node Hold. unfold UpdateNodeIOStatusCR.
  set (a1 := if bool_decide _ then a else _).
  assert (G1 : gains node a a1) by (subst a1; destruct (bool_decide _); [apply gains_refl | by split; auto]).
  set (oldBw := AllocatableBandwidth (nis_Status old)) in *.
  set (newBw := AllocatableBandwidth (nis_Status new)) in *. fold node.
  set (a2 := match nodeInfo4Sched a1 !! node with Some _ => a1 | None => _ end).
  assert (G2 : gains node a a2 ∧ ((0 < size newBw)%nat → registered a2 node)).
  { subst a2. destruct (nodeInfo4Sched a1 !! node) as [st |] eqn:E.
    { split; [done |]. intros _. unfold registered. rewrite E. eauto. }
    destruct ((size oldBw =? 0)%nat && (0 <? size newBw)%nat) eqn:Ec.
    - split; [eapply gains_trans; [done | apply set_scheds_gains] |].
      intros _. unfold registered. simpl. rewrite lookup_insert_eq. eauto.
    - split; [done |]. intros Hnew. exfalso.
      assert (size oldBw ≠ 0%nat).
      { intros E0. rewrite E0 in Ec. simpl in Ec. apply Nat.ltb_ge in Ec. lia. }
      destruct (gains_mono _ _ _ G1 node (Hold ltac:(lia))) as [? ?]. congruence. }
  destruct G2 as [G2 Hnew].
  set (o3 := if (0 <? size oldBw)%nat && _ then _ else _).
  assert (H3 : ∃ a3, o3 = Ok a3 ∧ gains node a2 a3).
  { subst o3. clearbody a2. destruct ((0 <? size oldBw)%nat && (size oldBw <? size newBw)%nat); [| eauto using gains_refl].
    destruct (nodeInfo4Sched a2 !! node) as [st |] eqn:E; [| eauto using gains_refl].
    apply on_sched_gains. unfold registered. rewrite E. eauto. }
  destruct H3 as (a3 & -> & G3). simpl.
  assert (G : gains node a a3) by by eapply gains_trans.
  destruct (size oldBw =? size newBw)%nat; [| exists a3; split; [done | split; [done |]]];
    [| intros ?; apply G3; auto].
  destruct (foldM_total (λ a kv,
      if negb (String.eqb kv.1 BlockIO_key) then Ok a
      else match oldBw !! kv.1 with
           | None => Ok a
           | Some oinfo => if (size kv.2 =? size oinfo)%nat then Ok a
                           else update_devices node kv.1 oinfo kv.2 a
           end) (gains node a3) a3 (range newBw)) as (a4 & -> & G4).
  { intros b kv _ Gb. destruct (negb _); [by eauto |].
    destruct (oldBw !! kv.1) as [oinfo |] eqn:E; [| by eauto].
    destruct (size kv.2 =? size oinfo)%nat; [by eauto |].
    destruct (update_devices_gains node kv.1 oinfo kv.2 b) as (b' & -> & Gb').
    { apply Gb, G, Hold. by eapply size_lookup_pos. }
    exists b'. split; [done | by eapply gains_trans]. }
  { apply gains_refl. }
  exists a4. split; [done |]. split; [by eapply gains_trans |]. intros ?. apply G4, G3. auto.
Qed.

(** *** Every step keeps the registrations *)

#[local] Arguments queue_Add : simpl never.

Lemma item_ok_mono a a' it :
  (∀ n, registered a n → registered a' n) → item_ok a it → item_ok a' it.
Proof. destruct it; simpl; auto. Qed.

Lemma awf_gains seen w node a' :
  awf seen w → gains node (aw_aggr w) a' → plain node → awf seen (on_aggr w a').
Proof.
  intros [Hs Hn Hr Hu Hq Hd] [Gm Go Gr Gu Gq] Hp. split; simpl.
  - intros n obj E. destruct (Hs n obj E). split; [done |]. intros ?. apply Gm. auto.
  - intros n Hreg. destruct (Go n Hreg) as [? | ->]; auto.
  - rewrite Gr. auto.
  - rewrite Gu. auto.
  - rewrite Gq. intros it Hit. eapply item_ok_mono; [exact Gm | auto].
  - intros it Hit. eapply item_ok_mono; [exact Gm | auto].
Qed.

Lemma awf_frame seen w a' :
  awf seen w → nodeInfo4Sched a' = nodeInfo4Sched (aw_aggr w) →
  NodeStatusCh a' = NodeStatusCh (aw_aggr w) → updatedNode a' = updatedNode (aw_aggr w) →
  aqueue a' = aqueue (aw_aggr w) → awf seen (on_aggr w a').
Proof.
  intros Hw Es Er Eu Eq. destruct Hw as [Hs Hn Hr Hu Hq Hd].
  assert (R : ∀ n, registered a' n ↔ registered (aw_aggr w) n) by (intros n; unfold registered; by rewrite Es).
  assert (R' : ∀ n, registered (aw_aggr w) n → registered a' n) by (intros; by apply R).
  split; simpl; rewrite ?Er, ?Eu, ?Eq; intros *; rewrite ?R; eauto using item_ok_mono.
Qed.

Lemma awf_queue_Add seen w it :
  awf seen w → item_ok (aw_aggr w) it → awf seen (on_aggr w (queue_Add it (aw_aggr w))).
Proof.
  intros Hw Hit. assert (Hadd : awf seen (on_aggr w (set_aqueue (aqueue (aw_aggr w) ++ [it]) (aw_aggr w)))).
  { destruct Hw as [Hs Hn Hr Hu Hq Hd]. split; [done.. | | done]. simpl.
    intros it' [? | ->%list_elem_of_singleton]%elem_of_app; [by apply Hq | done]. }
  destruct it as [s | r]; unfold queue_Add; [| done].
  destruct (existsb _ _); [by apply awf_frame | done].
Qed.

Lemma awf_seen seen w node obj :
  awf seen w → plain node →
  ((0 < size (AllocatableBandwidth (nis_Status obj)))%nat → registered (aw_aggr w) node) →
  awf (<[node := obj]> seen) w.
Proof.
  intros [Hs Hn Hr Hu Hq Hd] Hp Hreg. split; [| done..].
  intros n o. destruct (decide (n = node)) as [-> |].
  - rewrite lookup_insert_eq. by intros [= ->].
  - rewrite lookup_insert_ne by done. apply Hs.
Qed.

Lemma on_aggr_on_aggr w a a' : on_aggr (on_aggr w a) a' = on_aggr w a'.
Proof. done. Qed.

Lemma report_step_ok seen w room req :
  awf seen w →
  ∃ a' err, UpdateNodeIOStatus (aw_kube w) room req (aw_aggr w) = Ok (a', err) ∧
    awf seen (on_aggr w a').
Proof.
  intros Hw. unfold UpdateNodeIOStatus. set (a := aw_aggr w) in *.
  destruct (isLeader a); simpl; [| eexists _, _; split; [done | by apply awf_frame]].
  destruct (nodeInfo4Agent a !! rep_NodeName req) as [info |];
    [| eexists _, _; split; [done | by apply awf_frame]].
  destruct (nodeInfo4Sched a !! rep_NodeName req) as [st |] eqn:E;
    [| eexists _, _; split; [done | by apply awf_frame]].
  assert (Hreg : registered a (rep_NodeName req)) by (unfold registered; rewrite E; eauto).
  destruct (rep_ObservedGeneration req <? latestGeneration info).
  { destruct (client info), (reservedPod info); eexists _, _;
      (split; [done | first [by apply awf_queue_Add | by apply awf_frame]]). }
  destruct (direct a); simpl.
  - destruct (on_sched_gains (rep_NodeName req) (λ st, apply_report st req) a Hreg) as (a1 & E1 & G1).
    unfold updateNodeIOStatusCache. rewrite E1. simpl. eexists _, _. split; [done |].
    pose proof (wf_names _ _ Hw _ Hreg) as Hp.
    pose proof (awf_gains _ _ _ _ Hw G1 Hp) as Hw1.
    apply (awf_queue_Add seen (on_aggr w a1)); [done |]. simpl. rewrite Hp.
    intros n ->%list_elem_of_singleton. by apply G1.
  - destruct room; eexists _, _; (split; [done |]); [| by apply awf_frame].
    destruct Hw as [Hs Hn Hr Hu Hq Hd]. split; [done | done | | done..]. simpl.
    intros r [? | ->%list_elem_of_singleton]%elem_of_app; [by apply Hr | done].
Qed.

Lemma pod_round_ok seen w :
  awf seen w →
  awf seen (match SendReservedPodtoQueue (aw_kube w) (aw_aggr w) with
            | Some a => on_aggr w a | None => w end).
Proof.
  intros Hw. unfold SendReservedPodtoQueue.
  destruct (ReservedPodCh (aw_aggr w)) as [| sp ch]; [done |]. simpl.
  destruct (nodeInfo4Agent (aw_aggr w) !! spec_NodeName sp) as [info |]; [| by apply awf_frame].
  destruct (isLeader _); [| by apply awf_frame].
  match goal with |- context [queue_Add ?it ?b] =>
    apply (awf_queue_Add seen (on_aggr w b) it); [by apply awf_frame | done] end.
Qed.

Lemma status_round_ok seen w :
  awf seen w →
  ∃ r, status_received (aw_aggr w) = Ok r ∧
    awf seen (match r with Some a => on_aggr w a | None => w end).
Proof.
  intros Hw. unfold status_received. destruct (NodeStatusCh (aw_aggr w)) as [| req ch] eqn:E; [by eauto |].
  assert (Hreg : registered (aw_aggr w) (rep_NodeName req)).
  { apply (wf_reports _ _ Hw). rewrite E. set_solver. }
  assert (Hw1 : awf seen (on_aggr w (set_statusCh ch (aw_aggr w)))).
  { destruct Hw as [Hs Hn Hr Hu Hq Hd]. split; [done | done | | done..]. simpl.
    intros r Hin. apply Hr. rewrite E. set_solver. }
  destruct (on_sched_gains (rep_NodeName req) (λ st, apply_report st req)
              (set_statusCh ch (aw_aggr w)) Hreg) as (a1 & E1 & G1).
  unfold updateNodeIOStatusCache. rewrite E1. simpl. eexists. split; [done |].
  pose proof (awf_gains _ (on_aggr w _) _ _ Hw1 G1 (wf_names _ _ Hw _ Hreg)) as Hw2.
  assert (Hreg2 : registered a1 (rep_NodeName req)) by by apply G1.
  destruct Hw2 as [Hs Hn Hr Hu Hq Hd]. split; [done | done | done | | done..]. simpl.
  intros n [? | ->%list_elem_of_singleton]%elem_of_app; [by apply Hu | done].
Qed.

Lemma tick_ok seen w : awf seen w → awf seen (on_aggr w (status_tick (aw_aggr w))).
Proof.
  intros Hw. unfold status_tick. destruct (updatedNode (aw_aggr w)) as [| n l] eqn:E; [by apply awf_frame |].
  assert (Hl : ∀ m, m ∈ n :: l → registered (aw_aggr w) m).
  { intros m Hm. apply (wf_updated _ _ Hw). by rewrite E. }
  assert (Hq : awf seen (on_aggr w (queue_Add (StatusItem (str_join ";" (n :: l))) (aw_aggr w)))).
  { apply awf_queue_Add; [done |]. unfold item_ok. rewrite str_split_join; [done | done |].
    intros m Hm. by apply (wf_names _ _ Hw), Hl. }
  destruct Hq as [Hs Hn Hr Hu Hq' Hd]. split; [done | done | done | | done..]. simpl. set_solver.
Qed.

Lemma updateNodeIOStatus_ok nodes (k : K) a :
  (∀ n, n ∈ str_split semicolon nodes → registered a n) →
  ∃ k', updateNodeIOStatus nodes k a = Ok k'.
Proof.
  intros Hn. destruct (foldM_total (λ k node,
    match nis_get k (node +:+ NodeStatusInfoSuffix) with
    | inr _ => Ok k
    | inl _ => let! st := deref (nodeInfo4Sched a !! node) in
               Ok (nis_update_status k (node +:+ NodeStatusInfoSuffix) st).1
    end) (λ _ : K, True) k (str_split semicolon nodes)) as (k' & E & _); [| done | by exists k'].
  intros b x Hx _. destruct (nis_get _ _); [| by eauto].
  destruct (Hn x Hx) as [st ->]. simpl. eauto.
Qed.

Lemma work_ok seen w send :
  awf seen w →
  ∃ r, work_step send (aw_kube w) (aw_aggr w) (aw_delayed w) = Ok r ∧
    awf seen (match r with Some (k, a, delayed, _) => mkAW k a delayed | None => w end).
Proof.
  intros Hw. unfold work_step. destruct (aqueue (aw_aggr w)) as [| it q] eqn:E; [by eauto |].
  assert (Hit : item_ok (aw_aggr w) it) by (apply (wf_queue _ _ Hw); rewrite E; set_solver).
  assert (Hw1 : ∀ k delayed, (∀ x, x ∈ delayed → x ∈ aw_delayed w ∨ x = it) →
                awf seen (mkAW k (set_aqueue q (aw_aggr w)) delayed)).
  { intros k delayed Hdel. destruct Hw as [Hs Hn Hr Hu Hq Hd]. split; [done.. | |]; simpl.
    - intros x Hx. apply Hq. rewrite E. set_solver.
    - intros x Hx. destruct (Hdel x Hx) as [? | ->]; [by apply Hd | done]. }
  destruct it as [nodes | pl].
  - destruct (updateNodeIOStatus_ok nodes (aw_kube w) (set_aqueue q (aw_aggr w)) Hit) as (k' & ->).
    simpl. eexists. split; [done |]. apply Hw1. auto.
  - destruct (updatePodList pl _); [| | destruct (send _)]; simpl; eexists; (split; [done |]);
      apply Hw1; set_solver.
Qed.

Lemma astep_ok seen w ev l :
  awf seen w → coherent seen (ev :: l) →
  ∃ w' seen', astep w ev = Ok w' ∧ awf seen' w' ∧ coherent seen' l.
Proof.
  intros Hw Hc. inversion Hc as [| ? obj ? Hp Hl | ? old new ? Hold Hl | ? ? ? Hev Hl]; subst.
  - simpl. eexists _, _. split; [done |]. split; [| done].
    set (node := spec_NodeName (nis_Spec obj)) in *. unfold AddNodeIOStatusCR. fold node.
    set (a1 := match nodeInfo4Agent (aw_aggr w) !! node with Some _ => _ | None => _ end).
    assert (Hw1 : awf seen (on_aggr w a1)).
    { subst a1. destruct (nodeInfo4Agent _ !! node); by apply awf_frame. }
    apply (awf_frame _ (on_aggr w (if (0 <? size (AllocatableBandwidth (nis_Status obj)))%nat
             then set_scheds (<[node := with_generation (spec_Generation (nis_Spec obj))
                                          (nis_Status obj)]> (nodeInfo4Sched a1)) a1 else a1)));
      [| done..].
    destruct (0 <? size (AllocatableBandwidth (nis_Status obj)))%nat eqn:Es.
    + apply awf_seen; [| done |].
      * apply (awf_gains seen (on_aggr w a1) node); [done | apply set_scheds_gains | done].
      * intros _. unfold registered. simpl. rewrite lookup_insert_eq. eauto.
    + apply awf_seen; [done | done |]. apply Nat.ltb_ge in Es. lia.
  - simpl. destruct (wf_seen _ _ Hw _ _ Hold) as [Hp Hreg].
    destruct (UpdateNodeIOStatusCR_ok old new (aw_aggr w) Hreg) as (a' & -> & G & Hnew). simpl.
    eexists _, _. split; [done |]. split; [| exact Hl]. apply awf_seen; [| done | done].
    by eapply awf_gains.
  - destruct ev; try done; simpl; try (eexists _, seen; split; [done | split; [by apply awf_frame | done]]).
    + destruct (report_step_ok seen w room req Hw) as (a' & err & -> & Hw'). simpl. eauto.
    + eexists _, seen. split; [done |]. split; [by apply pod_round_ok | done].
    + destruct (status_round_ok seen w Hw) as (r & -> & Hw'). simpl. eauto.
    + eexists _, seen. split; [done |]. split; [by apply tick_ok | done].
    + destruct (work_ok seen w send Hw) as (r & -> & Hw'). simpl. eauto.
    + eexists _, seen. split; [done |]. split; [| done].
      destruct (aw_delayed w) as [| it d] eqn:E; [done |].
      assert (Hw1 : awf seen (mkAW (aw_kube w) (aw_aggr w) d)).
      { destruct Hw as [Hs Hn Hr Hu Hq Hd]. split; [done.. |]. intros x Hx. apply Hd.
        rewrite E. set_solver. }
      apply (awf_queue_Add seen (mkAW (aw_kube w) (aw_aggr w) d)); [done |].
      apply (wf_delayed _ _ Hw). rewrite E. set_solver.
Qed.

(** The aggregator when it starts. *)
Definition aggr_start (k : K) (tls dir leader : bool) : AW :=
  mkAW k (mkAggr ∅ ∅ [] [] [] [] tls dir leader) [].

(** C33: the aggregator does not panic.  Whatever informer events, reports,
    rounds of its goroutines and answers of the agents come, in any order, as
    long as an update event carries the object last shown for its node and
    node names contain no semicolon, every step returns. *)
Theorem aggregator_never_panics (k : K) (tls dir leader : bool) (l : list aevent) :
  coherent ∅ l → ∃ w, foldM astep (aggr_start k tls dir leader) l = Ok w.
Proof.
  assert (Hw : awf ∅ (aggr_start k tls dir leader)).
  { split; simpl; intros *; unfold registered; simpl; rewrite ?lookup_empty; try done;
      try (by intros ?%elem_of_nil); by intros [? ?]. }
  revert Hw. generalize (aggr_start k tls dir leader) as w, (∅ : gmap string NodeIOStatus) as seen.
  induction l as [| ev l IH]; intros w seen Hw Hc; simpl; [eauto |].
  destruct (astep_ok seen w ev l Hw Hc) as (w' & seen' & -> & Hw' & Hc'). simpl. by eapply IH.
Qed.
End Machine.

(** A node is added, gets a device, its agent reports. *)
Module MachineExample.
Import FakeInstances.

Definition alloc0 : AllocLib := alloc_fake ∅.
Definition sp1 : NodeIOStatusSpec := mkSpec "n1" 1 ∅.
Definition obj1 : NodeIOStatus := mkNIS sp1 (mkStatus 0 ∅).
Definition obj2 : NodeIOStatus := mkNIS sp1 ReportExample.status1.
Definition events1 : list aevent :=
  [StaticAdd (mkNSI "n1" ∅ "10.0.0.1:8080" ∅); Lead true; StatusAdd obj1; PodRound;
   StatusUpdate obj1 obj2; Report true ReportExample.report1; StatusRound; Tick;
   Work (λ _, None); Work (λ _, Some "unavailable"); Redo].

Lemma aggregator_never_panics_witness :
  ∃ w, foldM (astep (H0 := alloc0) (H1 := grpc_fake))
         (aggr_start server_empty false false false) events1 = Ok w.
Proof.
  apply (@aggregator_never_panics _ _ alloc0 grpc_fake _ _ server_empty false false false events1).
  unfold events1.
  repeat (first [apply coherent_add; [reflexivity |] | apply coherent_update; [reflexivity |]
                | apply coherent_other; [exact I |]]).
  apply coherent_nil.
Defined.
End MachineExample.
