(* ===== verification/DeliveryFacts.v ===== *)
(** * From the scheduler to the agent

    The requests the scheduler has recorded for a pod reach the agent of its
    node: written to the pod's annotation (Utils.PodRequest2String), read by
    the aggregator (GetPodList), taken apart by the agent
    (ProcessPodsFromAggregator). *)

From S2P Require Export Agent NodeFake.
From S2P Require Export Aggregator.

Lemma foldl_app_concat {A B} (f : A → list B) (l : list A) (acc : list B) :
  foldl (λ acc x, acc ++ f x) acc l = acc ++ (l ≫= f).
Proof.
  revert acc. induction l as [| x l IH]; intros acc; simpl; [by rewrite app_nil_r |].
  rewrite IH. by rewrite <- app_assoc.
Qed.

(** ** The annotation *)

(** The entries of an allocation: type, device, amounts. *)
Definition entries (m : AllocatedIO) : list (Z * string * DeviceAllocatedIO) :=
  map_to_list m ≫= λ td, (λ nd, (td.1, nd.1, nd.2)) <$> map_to_list td.2.

Lemma elem_of_entries (m : AllocatedIO) t n io :
  (t, n, io) ∈ entries m ↔ (m !! t ≫= λ ds, ds !! n) = Some io.
Proof.
  unfold entries. rewrite list_elem_of_bind. split.
  - intros ([t' ds] & Hin & Hm). simpl in *. apply list_elem_of_fmap in Hin as ([n' io'] & [= -> -> ->] & Hn).
    apply elem_of_map_to_list in Hn, Hm. simpl. by rewrite Hm.
  - intros E. apply bind_Some in E as (ds & Hm & Hn). exists (t, ds). simpl.
    rewrite list_elem_of_fmap. split; [| by apply elem_of_map_to_list].
    exists (n, io). split; [done | by apply elem_of_map_to_list].
Qed.

Lemma entries_insert (m : AllocatedIO) t n io :
  (m !! t ≫= λ ds, ds !! n) = None →
  entries (<[t := <[n := io]> (default ∅ (m !! t))]> m) ≡ₚ (t, n, io) :: entries m.
Proof.
  intros E. unfold entries. destruct (m !! t) as [ds |] eqn:Et; simpl in *.
  - rewrite <- (insert_delete_id m t ds) at 2 by done. rewrite <- insert_delete_eq.
    rewrite !map_to_list_insert by apply lookup_delete_eq. simpl.
    by rewrite (map_to_list_insert ds n io) by done.
  - rewrite map_to_list_insert by done. simpl. by rewrite insert_empty, map_to_list_singleton.
Qed.

(** What an entry says of a request. *)
Definition dev_name (r : IOResourceRequest) : string :=
  match DevRequest r with Some d => DevName d | None => "" end.
Definition place (r : IOResourceRequest) : Z * string := (IOType_num (IoType r), dev_name r).
Definition entry_of (r : IOResourceRequest) : option (Z * string * DeviceAllocatedIO) :=
  match DevRequest r with
  | Some d => Some (IOType_num (IoType r), DevName d,
      mkAlloc (WorkloadType r) "" (bps_only (dr_Request d)) (bps_only (dr_Limit d))
        (default quantity_zero (dr_RawRequest d)) (default quantity_zero (dr_RawLimit d)))
  | None => None
  end.

Lemma entries_allocated reqs :
  Forall (λ r, is_Some (DevRequest r)) reqs → NoDup (place <$> reqs) →
  entries (allocated reqs) ≡ₚ omap entry_of reqs.
Proof.
  induction reqs as [| r reqs IH] using rev_ind; intros HF Hnd; [done |].
  apply Forall_app in HF as [HF Hr]. apply Forall_singleton in Hr as [d Hd].
  rewrite fmap_app in Hnd. apply NoDup_app in Hnd as (Hnd & Hni & _).
  unfold allocated. rewrite foldl_app. simpl. fold (allocated reqs).
  rewrite omap_app. simpl. unfold entry_of at 2. rewrite Hd. simpl.
  rewrite entries_insert.
  - rewrite IH by done. by rewrite Permutation_app_comm.
  - destruct (allocated reqs !! IOType_num (IoType r) ≫= _) as [io |] eqn:E; [| done]. exfalso.
    apply elem_of_entries in E. rewrite IH in E by done.
    apply list_elem_of_omap in E as (r' & Hr' & E). apply (Hni (place r)).
    + apply list_elem_of_fmap. exists r'. split; [| done].
      unfold entry_of in E. unfold place, dev_name. destruct (DevRequest r') as [d' |]; [| done].
      rewrite Hd. by injection E as -> ->.
    + simpl. set_solver.
Qed.

Section Delivery.
Context `{Q : QuantityLib} `{!GoRange} `{!AllocLib}.

(** ** The aggregator *)

Definition wire_request (e : Z * string * DeviceAllocatedIO) : IOResourceRequest :=
  mkIOReq (IOType_of e.1.1) (QoS e.2) (Some (device_requirement e.1.2 e.2)).

Lemma formatPodRequest_entries ori : formatPodRequest ori ≡ₚ wire_request <$> entries ori.
Proof.
  unfold formatPodRequest.
  assert (E : ∀ l acc,
    foldl (λ l td, foldl (λ l nd,
        l ++ [mkIOReq (IOType_of td.1) (QoS nd.2) (Some (device_requirement nd.1 nd.2))])
        l (range td.2)) acc l
    = foldl (λ acc (td : Z * gmap string DeviceAllocatedIO), acc ++
        (range td.2 ≫= λ nd, [wire_request (td.1, nd.1, nd.2)])) acc l).
  { induction l as [| td l IH]; intros acc; [done |]. simpl.
    rewrite (foldl_app_concat (λ nd, [mkIOReq (IOType_of td.1) (QoS nd.2)
                                        (Some (device_requirement nd.1 nd.2))])). apply IH. }
  rewrite E, foldl_app_concat. simpl. unfold entries.
  rewrite (range_alloc_perm ori). generalize (map_to_list ori) as l.
  induction l as [| td l IH]; [done |]. simpl. rewrite fmap_app, IH. f_equiv; [| done].
  rewrite (range_perm td.2). generalize (map_to_list td.2) as l'.
  induction l' as [| nd l' IH']; [done |]. simpl. by rewrite IH'.
Qed.

Lemma IOType_roundtrip t : IOType_of (IOType_num t) = t.
Proof. by destruct t. Qed.

(** ** The agent *)

(** The event of a request: what the engines get for the pod. *)
Definition wl (q : Quantity) : Workload := mkWorkload (Inbps q) (Outbps q) (Iniops q) (Outiops q) fzero.
Definition event_of (name : string) (r : IOResourceRequest) : option PodRunInfo :=
  match DevRequest r with
  | Some (mkDevReq _ (Some q) (Some l) (Some rq) (Some rl)) =>
      let i := run_info name (WorkloadType r) (wl q) (wl l) (wl rq) (wl rl) in
      Some (match IoType r with IOType_RDTQuantity => set_ri_type GaIndex i | _ => i end)
  | _ => None
  end.
(** Every pointer of the request is set. *)
Definition complete (r : IOResourceRequest) : Prop := is_Some (event_of "" r).

(** The update that carries the events of a type. *)
Definition events_for (t : IOType) (u : updates) : option (gmap string PodEventInfo) :=
  match t with
  | IOType_DiskIO => Some (up_disk u)
  | IOType_NetworkIO => Some (up_net u)
  | IOType_RDTQuantity => Some (up_rdtq u)
  | IOType_All | IOType_RDT => None
  end.
Definition event_at (u : updates) (t : IOType) (dev uid : string) : option PodRunInfo :=
  m ← events_for t u; d ← m !! dev; d !! uid.

Lemma lookup_add_event dev uid i m dev' uid' :
  (add_event dev uid i m !! dev' ≫= λ d, d !! uid')
  = if decide (dev' = dev ∧ uid' = uid) then Some i else m !! dev' ≫= λ d, d !! uid'.
Proof.
  unfold add_event. destruct (decide (dev' = dev)) as [-> | Hd].
  - rewrite lookup_insert_eq. simpl. destruct (decide (uid' = uid)) as [-> | Hu].
    + by rewrite lookup_insert_eq, decide_True.
    + rewrite lookup_insert_ne by done. rewrite decide_False by naive_solver.
      by destruct (m !! dev).
  - rewrite lookup_insert_ne by done. by rewrite decide_False by naive_solver.
Qed.

Lemma add_pod_event_ok uid name u r :
  complete r → ∃ u', add_pod_event uid name u r = Ok u' ∧ ∀ t dev uid',
    event_at u' t dev uid' =
      if decide (uid' = uid ∧ place r = (IOType_num t, dev) ∧ is_Some (events_for t u))
      then event_of name r else event_at u t dev uid'.
Proof.
  destruct r as [io wt [[dn [q |] [l |] [rq |] [rl |]] |]]; intros [? [=]]; subst.
  unfold add_pod_event. simpl. eexists. split; [done |].
  intros t dev uid'. unfold event_at, place, dev_name, event_of. simpl.
  destruct io, t; simpl; rewrite ?lookup_add_event;
    repeat case_decide; try done; naive_solver.
Qed.

Lemma add_pod_events uid name l u :
  Forall complete l → ∃ u', foldM (add_pod_event uid name) u l = Ok u' ∧
    (∀ t dev uid', uid' ≠ uid → event_at u' t dev uid' = event_at u t dev uid') ∧
    (NoDup (place <$> l) → (∀ t dev, event_at u t dev uid = None) →
     ∀ t dev i, event_at u' t dev uid = Some i ↔
       is_Some (events_for t u) ∧ ∃ r, r ∈ l ∧ place r = (IOType_num t, dev) ∧ event_of name r = Some i).
Proof.
  induction l as [| r l IH] using rev_ind; intros HF.
  { exists u. split; [done |]. split; [done |]. intros _ Hu t dev i. rewrite Hu. set_solver. }
  apply Forall_app in HF as [HF Hr]. rewrite Forall_singleton in Hr.
  destruct (IH HF) as (u1 & E1 & Hframe & Hown). rewrite foldM_app, E1. simpl.
  destruct (add_pod_event_ok uid name u1 r Hr) as (u2 & -> & H2). simpl.
  exists u2. split; [done |]. split.
  { intros t dev uid' Hne. rewrite H2, decide_False by naive_solver. by apply Hframe. }
  rewrite fmap_app. intros (Hnd & Hni & _)%NoDup_app Hu t dev i. specialize (Hown Hnd Hu t dev i).
  assert (Hsome : is_Some (events_for t u1) ↔ is_Some (events_for t u)) by (destruct t; simpl; naive_solver).
  rewrite H2. case_decide as Hd.
  - destruct Hd as (_ & Hp & Hs). split.
    + intros E. split; [by apply Hsome |]. exists r. set_solver.
    + intros (_ & r' & [Hr' | ->%list_elem_of_singleton]%elem_of_app & Hp' & E); [| done].
      exfalso. apply (Hni (place r)); [| set_solver]. rewrite Hp, <- Hp'. by apply list_elem_of_fmap_2.
  - rewrite Hown. split; intros (Hs & r' & Hr' & Hp & E); (split; [done |]); exists r'.
    + set_solver.
    + apply elem_of_app in Hr' as [? | ->%list_elem_of_singleton]; [done |].
      exfalso. apply Hd. split; [done |]. split; [done |]. by apply Hsome.
Qed.

(** *** The list of pods *)

Definition known_ok (cr : gmap string PodRequest) : Prop :=
  map_Forall (λ _ p, Forall complete (pr_Request p)) cr.
Definition sent_ok (l : list (string * option PodRequest)) : Prop :=
  ∀ uid p, (uid, Some p) ∈ l → Forall complete (pr_Request p).

(** The body of the loop of ProcessPodsFromAggregator. *)
Definition pods_step (acc : gmap string PodRequest * updates) (kv : string * option PodRequest)
    : outcome (gmap string PodRequest * updates) :=
  let '(cr, u) := acc in
  let '(cr, podRequest) := pod_request cr kv.1 kv.2 in
  match podRequest with
  | None => Ok (cr, u)
  | Some p => let! u := foldM (add_pod_event kv.1 (PodName p)) u (pr_Request p) in Ok (cr, u)
  end.

Lemma pod_request_ok cr uid p :
  known_ok cr → (∀ p', p = Some p' → Forall complete (pr_Request p')) →
  let '(cr', r) := pod_request cr uid p in
  known_ok cr' ∧ (∀ p', r = Some p' → Forall complete (pr_Request p')) ∧
  ∀ uid', uid' ≠ uid → cr' !! uid' = cr !! uid'.
Proof.
  intros Hcr Hp. unfold pod_request.
  assert (Hold : known_ok cr ∧ (∀ p', cr !! uid = Some p' → Forall complete (pr_Request p')) ∧
                 ∀ uid', uid' ≠ uid → cr !! uid' = cr !! uid').
  { split; [done |]. split; [| done]. intros p' E. by apply (Hcr uid p'). }
  destruct p as [p |]; [| done]. destruct (0 <? _)%nat; [| done].
  split; [by apply map_Forall_insert_2; [apply Hp |] |]. split.
  - intros p' [= ->]. by apply Hp.
  - intros uid' Hne. by rewrite lookup_insert_ne.
Qed.

Lemma pods_steps l cr u :
  known_ok cr → sent_ok l → ∃ cr' u', foldM pods_step (cr, u) l = Ok (cr', u') ∧ known_ok cr' ∧
    ∀ uid, uid ∉ l.*1 →
      cr' !! uid = cr !! uid ∧ ∀ t dev, event_at u' t dev uid = event_at u t dev uid.
Proof.
  revert cr u. induction l as [| [uid p] l IH]; intros cr u Hcr Hs; simpl; [by eauto 10 |].
  pose proof (pod_request_ok cr uid p Hcr ltac:(intros p' ->; apply (Hs uid); left)) as Hp.
  destruct (pod_request cr uid p) as [cr1 r]. destruct Hp as (Hcr1 & Hr & Hf).
  assert (Hs1 : sent_ok l) by (intros uid' p' Hin; apply (Hs uid'); by right).
  assert (∃ u1, match r with
                | None => Ok (cr1, u)
                | Some p => let! u := foldM (add_pod_event uid (PodName p)) u (pr_Request p) in
                            Ok (cr1, u)
                end = Ok (cr1, u1) ∧
                ∀ t dev uid', uid' ≠ uid → event_at u1 t dev uid' = event_at u t dev uid')
    as (u1 & -> & Hu1).
  { destruct r as [p1 |]; [| by eauto].
    destruct (add_pod_events uid (PodName p1) (pr_Request p1) u (Hr p1 eq_refl)) as (u1 & -> & Hu & _).
    simpl. eauto. }
  simpl. destruct (IH cr1 u1 Hcr1 Hs1) as (cr' & u' & -> & Hcr' & Hfr). eexists _, _.
  split; [done |]. split; [done |]. intros uid' [Hne Hni]%not_elem_of_cons.
  destruct (Hfr uid' Hni) as [-> He]. split; [by apply Hf |]. intros t dev. rewrite He. by apply Hu1.
Qed.

Lemma processed_pod cr pl uid p :
  known_ok cr → sent_ok (range (wl_PodList pl)) → wl_PodList pl !! uid = Some (Some p) →
  pr_Request p ≠ [] → NoDup (place <$> pr_Request p) →
  ∃ cr' u, ProcessPodsFromAggregator cr pl =
      Ok (cr', [mkPodData 2 (wl_Generation pl) (up_disk u); mkPodData 4 (wl_Generation pl) (up_net u);
                mkPodData 5 (wl_Generation pl) ∅; mkPodData 6 (wl_Generation pl) (up_rdtq u)]) ∧
    known_ok cr' ∧ cr' !! uid = Some p ∧
    ∀ t dev i, event_at u t dev uid = Some i ↔
      is_Some (events_for t u) ∧
      ∃ r, r ∈ pr_Request p ∧ place r = (IOType_num t, dev) ∧ event_of (PodName p) r = Some i.
Proof.
  intros Hcr Hs Hp Hne Hnd. unfold ProcessPodsFromAggregator. fold pods_step.
  pose proof (NoDup_range (wl_PodList pl)) as Hkeys. apply elem_of_range in Hp.
  revert Hs Hkeys Hp. generalize (range (wl_PodList pl)) as l. intros l Hs Hkeys Hp.
  apply list_elem_of_split in Hp as (l1 & l2 & ->).
  rewrite fmap_app in Hkeys. apply NoDup_app in Hkeys as (_ & Hn1 & Hn2). simpl in *.
  apply NoDup_cons in Hn2 as [Hn2 _].
  assert (Hl1 : uid ∉ l1.*1) by (intros Hin; apply (Hn1 uid Hin); left).
  rewrite foldM_app.
  destruct (pods_steps l1 cr (mkUpdates ∅ ∅ ∅) Hcr) as (cr1 & u1 & -> & Hcr1 & Hf1).
  { intros uid' p' Hin. apply (Hs uid'). set_solver. }
  simpl. destruct (pr_Request p) as [| r0 rs] eqn:Er; [done |]. simpl. rewrite <- Er in *. clear Hne.
  assert (HF : Forall complete (pr_Request p)) by (apply (Hs uid); set_solver).
  destruct (add_pod_events uid (PodName p) (pr_Request p) u1 HF) as (u2 & -> & _ & Hown). simpl.
  destruct (pods_steps l2 (<[uid := p]> cr1) u2) as (cr3 & u3 & -> & Hcr3 & Hf3).
  { by apply map_Forall_insert_2. }
  { intros uid' p' Hin. apply (Hs uid'). set_solver. }
  destruct (Hf3 uid Hn2) as [Hc He]. simpl. eexists _, u3. split; [done |]. split; [done |].
  split; [by rewrite Hc, lookup_insert_eq |]. intros t dev i. rewrite He.
  assert (Hs13 : is_Some (events_for t u3) ↔ is_Some (events_for t u1))
    by (destruct t; simpl; naive_solver).
  rewrite Hs13. apply Hown; [done |]. intros t' dev'. destruct (Hf1 uid Hl1) as [_ ->].
  by destruct t'; unfold event_at; simpl; rewrite ?lookup_empty.
Qed.
End Delivery.

Section RoundTrip.
Context `{Q : QuantityLib} `{!GoRange} `{!AllocLib} `{!JsonLib} {K : Type} `{!KubeClient K}.

Definition listed (k : K) (added : gmap string SpecPodRequest) (kv : string * SpecPodRequest)
    : option (option PodRequest) :=
  match added !! kv.1 with Some v => pod_details k v | None => Some None end.

Lemma listed_pods_lookup k gen pods added uid :
  wl_PodList (GetPodList k gen pods added) !! uid = pods !! uid ≫= λ v, listed k added (uid, v).
Proof.
  unfold GetPodList. simpl.
  replace (foldl _ ∅ (range pods)) with
    (foldl (λ m kv, match listed k added kv with Some d => <[kv.1 := d]> m | None => m end)
       (∅ : gmap string (option PodRequest)) (range pods)).
  - rewrite lookup_foldl_fill by apply NoDup_range. rewrite list_to_map_range, lookup_empty.
    by destruct (pods !! uid ≫= _).
  - generalize (range pods) as l, (∅ : gmap string (option PodRequest)) as m.
    induction l as [| kv l IH]; intros m; [done |]. simpl. rewrite IH. unfold listed.
    by destruct (added !! kv.1).
Qed.

Lemma format_complete ori : Forall complete (formatPodRequest ori).
Proof.
  apply Forall_forall. intros r. rewrite formatPodRequest_entries.
  intros (e & -> & _)%list_elem_of_fmap. unfold complete, event_of, wire_request. simpl. eauto.
Qed.

Lemma GetPodList_sent_ok k gen pods added :
  sent_ok (range (wl_PodList (GetPodList k gen pods added))).
Proof.
  intros uid p. rewrite elem_of_range, listed_pods_lookup. intros (v & _ & E)%bind_Some.
  unfold listed in E. simpl in E. destruct (added !! uid) as [w |]; [| done].
  unfold pod_details in E. destruct (pod_get _ _ _); [| done].
  destruct (_ !! AllocatedIOAnno); [| done]. destruct (unmarshal_alloc _) as [a []]; [| done].
  injection E as <-. apply format_complete.
Qed.

(** The request as it arrives: bandwidth only, the raw rates in full. *)
Definition sent_request (r : IOResourceRequest) (d : DeviceRequirement) : IOResourceRequest :=
  mkIOReq (IoType r) (WorkloadType r) (Some (mkDevReq (DevName d)
    (Some (bps_only (dr_Request d))) (Some (bps_only (dr_Limit d)))
    (Some (default quantity_zero (dr_RawRequest d))) (Some (default quantity_zero (dr_RawLimit d))))).
Definition sent_event (name : string) (r : IOResourceRequest) : option PodRunInfo :=
  d ← DevRequest r; event_of name (sent_request r d).

Lemma format_allocated reqs :
  Forall (λ r, is_Some (DevRequest r)) reqs → NoDup (place <$> reqs) →
  formatPodRequest (allocated reqs) ≡ₚ omap (λ r, sent_request r <$> DevRequest r) reqs.
Proof.
  intros HF Hnd. rewrite formatPodRequest_entries, entries_allocated by done. clear HF Hnd.
  induction reqs as [| r reqs IH]; [done |]. simpl. unfold entry_of at 1.
  destruct (DevRequest r) as [d |] eqn:Ed; simpl; [| done]. rewrite IH.
  unfold wire_request, device_requirement, sent_request. simpl.
  rewrite IOType_roundtrip. by destruct (dr_Request d), (dr_Limit d).
Qed.

Lemma place_sent reqs :
  Forall (λ r, is_Some (DevRequest r)) reqs →
  place <$> omap (λ r, sent_request r <$> DevRequest r) reqs = place <$> reqs.
Proof.
  induction 1 as [| r reqs [d Hd] _ IH]; [done |]. simpl. rewrite Hd. simpl.
  f_equal; [| exact IH]. unfold place, dev_name. simpl. by rewrite Hd.
Qed.

(** C11: What the scheduler records for a pod is what the agent of its node
    enforces. When the pod carries the annotation that the scheduler writes
    for its requests, which reads back, each with a device requirement and no
    two for one type and device, the aggregator lists the pod to the agent
    with details, and the agent, whatever pods it already knows, takes the
    list and publishes for the pod, on the update of each resource type but
    RDT classes, which get an update without events, exactly one event per
    request of that type, on the device the scheduler chose, with its
    bandwidth, limits and raw rates; and it remembers the requests. *)
Theorem delivered_requests k gen pods added uid v p pr anno s :
  pods !! uid = Some v → added !! uid = Some v →
  pod_get k (sp_Namespace v) (sp_Name v) = inl p →
  PodRequest2String (Some pr) = inl anno →
  pod_Annotations p !! AllocatedIOAnno = Some anno →
  unmarshal_alloc anno = (allocated (pr_Request pr), true) →
  Forall (λ r, is_Some (DevRequest r)) (pr_Request pr) → NoDup (place <$> pr_Request pr) →
  known_ok (CrPodRequest s) →
  ∃ cr u, receive_pods (GetPodList k gen pods added) s =
      Ok (mkAgentState cr (PodInfoChan s ++
            [mkPodData 2 gen (up_disk u); mkPodData 4 gen (up_net u); mkPodData 5 gen ∅;
             mkPodData 6 gen (up_rdtq u)])) ∧
    known_ok cr ∧
    (∃ known, cr !! uid = Some known ∧
       pr_Request known ≡ₚ omap (λ r, sent_request r <$> DevRequest r) (pr_Request pr)) ∧
    ∀ t dev i, event_at u t dev uid = Some i ↔
      is_Some (events_for t u) ∧
      ∃ r, r ∈ pr_Request pr ∧ IoType r = t ∧ dev_name r = dev ∧
           sent_event (pod_Name p) r = Some i.
Proof.
  intros Hv Ha Hget Hstr Hanno Hun HF Hnd Hcr.
  assert (Hne : pr_Request pr ≠ []) by (unfold PodRequest2String in Hstr; by destruct (pr_Request pr)).
  pose proof (format_allocated _ HF Hnd) as Hfmt.
  set (p' := mkPodRequest (pod_Name p) (pod_Namespace p) (formatPodRequest (allocated (pr_Request pr)))).
  assert (Hl : wl_PodList (GetPodList k gen pods added) !! uid = Some (Some p')).
  { rewrite listed_pods_lookup, Hv. unfold listed, pod_details. simpl.
    by rewrite Ha, Hget, Hanno, Hun. }
  destruct (processed_pod (CrPodRequest s) (GetPodList k gen pods added) uid p' Hcr
              (GetPodList_sent_ok k gen pods added) Hl) as (cr & u & E & Hcr' & Hc & Hu).
  - simpl. intros E. rewrite E in Hfmt. apply Permutation_nil in Hfmt.
    destruct (pr_Request pr) as [| r l]; [done |]. apply Forall_cons in HF as [[d Hd] _].
    simpl in Hfmt. by rewrite Hd in Hfmt.
  - simpl. by rewrite Hfmt, place_sent.
  - exists cr, u. unfold receive_pods. rewrite E. split; [done |]. split; [done |].
    split; [by exists p' |]. intros t dev i. rewrite Hu. f_equiv. simpl.
    split; intros (r & Hr & Hx).
    + rewrite Hfmt in Hr. apply list_elem_of_omap in Hr as (r' & Hr' & Er).
      destruct (DevRequest r') as [d |] eqn:Ed; [| done]. injection Er as <-.
      destruct Hx as [Hp Hev]. exists r'. split; [done |].
      unfold place, dev_name in *. rewrite Ed. simpl in *. injection Hp as Ht <-.
      split; [by rewrite <- (IOType_roundtrip (IoType r')), Ht, IOType_roundtrip |].
      split; [done |]. unfold sent_event. by rewrite Ed.
    + destruct Hx as (<- & <- & Hev). unfold sent_event in Hev.
      apply bind_Some in Hev as (d & Ed & Hev). exists (sent_request r d). split.
      * rewrite Hfmt. apply list_elem_of_omap. exists r. split; [done |]. by rewrite Ed.
      * split; [| done]. unfold place, dev_name. simpl. by rewrite Ed.
Qed.
End RoundTrip.

(** A pod that reads a disk and uses a NIC. *)
Module DeliveryExample.
Import FakeInstances.

Definition q1 : Quantity := mkQuantity (of_Z 300) (of_Z 200) (of_Z 7) (of_Z 8).
Definition disk_req : IOResourceRequest :=
  mkIOReq IOType_DiskIO BtIndex (Some (mkDevReq "d1" (Some q1) None (Some q1) None)).
Definition net_req : IOResourceRequest :=
  mkIOReq IOType_NetworkIO GaIndex (Some (mkDevReq "eth0" (Some q1) (Some q1) None None)).
Definition pr1 : PodRequest := mkPodRequest "p1" "default" [disk_req; net_req].
Definition pod1 : Pod := mkPod "p1" "default" "uid-1" {[AllocatedIOAnno := "{}"]} "n1" [].
Definition server1 : Server := f_set_pods [pod1] server_empty.
Definition sp1 : SpecPodRequest := mkSpecPod "p1" "default".
Definition alloc1 : AllocLib := alloc_fake (allocated (pr_Request pr1)).

Lemma delivered_requests_witness :
  ∃ cr u, receive_pods (GetPodList (H0 := alloc1) server1 5 {["uid-1" := sp1]}
                          {["uid-1" := sp1]}) (mkAgentState ∅ []) =
      Ok (mkAgentState cr [mkPodData 2 5 (up_disk u); mkPodData 4 5 (up_net u);
                           mkPodData 5 5 ∅; mkPodData 6 5 (up_rdtq u)]) ∧
    event_at u IOType_DiskIO "d1" "uid-1" = sent_event "p1" disk_req ∧
    event_at u IOType_NetworkIO "eth0" "uid-1" = sent_event "p1" net_req ∧
    event_at u IOType_DiskIO "eth0" "uid-1" = None.
Proof.
  destruct (@delivered_requests _ _ alloc1 _ _ _ server1 5 {["uid-1" := sp1]} {["uid-1" := sp1]}
              "uid-1" sp1 pod1 pr1 "{}" (mkAgentState ∅ [])) as (cr & u & E & _ & _ & Hu);
    [reflexivity.. | repeat constructor; eauto | | apply map_Forall_empty |].
  { apply (bool_decide_unpack _). vm_compute. exact I. }
  exists cr, u. split; [exact E |]. split; [| split].
  - unfold sent_event at 1. apply Hu. split; [by eexists |]. exists disk_req. repeat split. by left.
  - apply Hu. split; [by eexists |]. exists net_req. repeat split. by right; left.
  - destruct (event_at u IOType_DiskIO "eth0" "uid-1") as [i |] eqn:Ei; [| done].
    apply Hu in Ei as (_ & r & Hr & Ht & Hd & _).
    change (r ∈ [disk_req; net_req]) in Hr. apply elem_of_cons in Hr as [-> | ->%list_elem_of_singleton].
    + discriminate Hd.
    + discriminate Ht.
Defined.
End DeliveryExample.
