(* ===== verification/AgentFacts.v ===== *)
(** * The agent's engines: no event is lost

    An engine keeps the events it is not ready for and runs them when SetFlag
    raises the flags they expect.  The theorems are proved for any engine
    whose event functions reach the engine's flags and cache only through
    SetFlag ([Handlers]). *)

From S2P Require Export Agent.

Section EngineFacts.
Context `{Q : QuantityLib} {S H : Type}.
Context (eng : S → IOEngine H) (set_eng : IOEngine H → S → S)
  (run : (Z → GoM S ()) → H → EventData → GoM S (option error)).
Implicit Types (s : S) (e : IOEngine H) (x : EventData * H) (X Y W l : list (EventData * H)).

(** The computation leaves the embedded engine in [I], or panics for a reason
    of its own. *)
Definition keeps {A} (I : IOEngine H → Prop) (o : outcome (A * S)) : Prop :=
  spares (λ r, I (eng r.2)) o.
Definition flags : list Z := [ProfileFlag; PolicyFlag; AdminFlag].

(** What an engine promises of its event functions: whatever SetFlag keeps,
    they keep; and the embedding is a field of a record. *)
Class Handlers : Prop := {
  eng_set : ∀ e s, eng (set_eng e s) = e;
  run_keeps : ∀ (I : IOEngine H → Prop) (sf : Z → GoM S ()),
    (∀ flag s, flag ∈ flags → I (eng s) → keeps I (sf flag s)) →
    ∀ h d s, I (eng s) → keeps I (run sf h d s)
}.
Context `{!Handlers}.

(** The number of flags still to be set. *)
Definition unset (f : Z) : nat := length (filter (λ b, Z.land f b ≠ b) flags).

(** [X]: run or kept; [Y]: run or not expected yet; [W]: run. *)
Record book (n : nat) X Y W e : Prop := mkBook {
  book_unset : (unset (Flag e) ≤ n)%nat;
  book_kept : ∀ x, x ∈ X → x ∈ executed e ∨ x ∈ cacheDatas e;
  book_ready : ∀ x, x ∈ Y → x ∈ executed e ∨ expects (Flag e) x.1 = false;
  book_run : ∀ x, x ∈ W → x ∈ executed e
}.

Lemma land_lor_flag f b : Z.land (Z.lor f b) b = b.
Proof. Z.bitwise. destruct (Z.testbit f m), (Z.testbit b m); done. Qed.

Lemma land_set f b c : Z.land f c = c → Z.land (Z.lor f b) c = c.
Proof.
  intros E. apply Z.bits_inj'. intros m Hm. pose proof (f_equal (λ z, Z.testbit z m) E) as Em.
  simpl in Em. rewrite Z.land_spec in *. rewrite Z.lor_spec.
  destruct (Z.testbit f m), (Z.testbit b m), (Z.testbit c m); done.
Qed.

Lemma unset_raise f b : b ∈ flags → Z.land f b ≠ b → (unset (Z.lor f b) < unset f)%nat.
Proof.
  intros Hb Hn. unfold unset.
  assert (Hlt : ∀ l : list Z, b ∈ l → (length (filter (λ c, Z.land (Z.lor f b) c ≠ c) l) <
                              length (filter (λ c, Z.land f c ≠ c) l))%nat ).
  { assert (Hle : ∀ l : list Z, (length (filter (λ c, Z.land (Z.lor f b) c ≠ c) l) ≤
                        length (filter (λ c, Z.land f c ≠ c) l))%nat).
    { induction l as [| c l IH]; [done |]. rewrite !filter_cons.
      destruct (decide (Z.land (Z.lor f b) c ≠ c)) as [Hc |].
      - rewrite decide_True; [simpl; lia |]. intros E. apply Hc. by apply land_set.
      - destruct (decide _); simpl; lia. }
    induction l as [| c l IH]; [by intros ?%elem_of_nil |]. rewrite !filter_cons.
    intros [-> | Hl]%elem_of_cons.
    - rewrite decide_False by (rewrite land_lor_flag; auto). rewrite decide_True by done.
      specialize (Hle l). simpl. lia.
    - specialize (IH Hl). destruct (decide (Z.land (Z.lor f b) c ≠ c)) as [Hc |].
      + rewrite decide_True; [simpl; lia |]. intros E. apply Hc. by apply land_set.
      + destruct (decide _); simpl; lia. }
  by apply Hlt.
Qed.

Lemma unset_zero f b : b ∈ flags → unset f = 0%nat → Z.land f b = b.
Proof.
  intros Hb Hu. destruct (decide (Z.land f b = b)) as [| Hn]; [done |].
  apply nil_length_inv in Hu. exfalso. apply (elem_of_nil b). rewrite <- Hu.
  by apply list_elem_of_filter.
Qed.

(** A call records itself before it runs. *)
Lemma call_keeps (I : IOEngine H → Prop) sf x s :
  (∀ flag s, flag ∈ flags → I (eng s) → keeps I (sf flag s)) →
  I (log_call x (eng s)) → keeps I (call eng set_eng run sf x s).
Proof. intros Hsf HI. apply run_keeps; [done |]. by rewrite eng_set. Qed.

(** The loop of SetFlag, given what the SetFlag it passes on keeps. *)
Lemma run_cached_keeps n sf L l P nc s :
  (∀ X Y W, Y ⊆ X → ∀ flag s, flag ∈ flags → book n X Y W (eng s) →
     keeps (book n X Y W) (sf flag s)) →
  l ⊆ L → P ⊆ L → book n L P (executed (eng s)) (eng s) →
  (∀ x, x ∈ P → x ∈ executed (eng s) ∨ x ∈ nc) →
  match run_cached eng set_eng run sf l nc s with
  | Ok (nc', s') => book n L (P ++ l) (executed (eng s)) (eng s') ∧
      ∀ x, x ∈ P ++ l → x ∈ executed (eng s') ∨ x ∈ nc'
  | Crash c => panics c = true
  end.
Proof.
  intros Hsf. revert P nc s. induction l as [| x l IH]; intros P nc s Hl HP HB Hnc; simpl.
  { rewrite app_nil_r. done. }
  assert (HPx : x :: P ⊆ L) by set_solver.
  assert (Hll : l ⊆ L) by set_solver.
  destruct (IsExpectStatus (eng s) x.1) eqn:E.
  - set (B := book n L (x :: P) (executed (eng s) ++ [x])).
    assert (Hc : keeps B (call eng set_eng run sf x s)).
    { apply call_keeps; [intros; by apply Hsf |].
      destruct HB as [Hu Hk Hr Hz]. split; simpl; [done | set_solver | | set_solver].
      intros y [-> | Hy]%elem_of_cons; [set_solver |].
      destruct (Hr y Hy); [set_solver | by right]. }
    destruct (call eng set_eng run sf x s) as [[r s1] | c]; simpl in Hc |- *; [| done].
    specialize (IH (x :: P) nc s1 Hll HPx).
    assert (HB1 : book n L (x :: P) (executed (eng s1)) (eng s1)) by (destruct Hc; by split).
    specialize (IH HB1).
    assert (Hnc1 : ∀ y, y ∈ x :: P → y ∈ executed (eng s1) ∨ y ∈ nc).
    { destruct Hc as [_ _ _ Hz]. intros y [-> | Hy]%elem_of_cons; [left; apply Hz; set_solver |].
      destruct (Hnc y Hy); [left; apply Hz; set_solver | by right]. }
    specialize (IH Hnc1). destruct (run_cached _ _ _ _ _ _ s1) as [[nc' s'] |]; [| done].
    destruct IH as [[Hu Hk Hr Hz] Hn]. split; [| set_solver].
    split; [done | done | set_solver |]. intros y Hy. apply Hz. destruct Hc as [_ _ _ Hz1].
    apply Hz1. set_solver.
  - assert (HB1 : book n L (x :: P) (executed (eng s)) (eng s)).
    { destruct HB as [Hu Hk Hr Hz]. split; [done | done | | done].
      intros y [-> | Hy]%elem_of_cons; [by right | auto]. }
    specialize (IH (x :: P) (nc ++ [x]) s Hll HPx HB1).
    assert (Hnc1 : ∀ y, y ∈ x :: P → y ∈ executed (eng s) ∨ y ∈ nc ++ [x]) by set_solver.
    specialize (IH Hnc1). destruct (run_cached _ _ _ _ _ _ s) as [[nc' s'] |]; [| done].
    destruct IH as [[Hu Hk Hr Hz] Hn]. split; [| set_solver].
    split; [done | done | set_solver | done].
Qed.

Lemma SetFlag_keeps n X Y W flag s :
  Y ⊆ X → flag ∈ flags → book n X Y W (eng s) →
  keeps (book n X Y W) (SetFlag eng set_eng run n flag s).
Proof.
  revert X Y W flag s. induction n as [| n IH]; intros X Y W flag s HYX Hf HB; simpl.
  { rewrite (unset_zero _ flag) by (destruct HB; lia || done). by rewrite Z.eqb_refl. }
  destruct (Z.land (Flag (eng s)) flag =? flag) eqn:E; [done |]. apply Z.eqb_neq in E.
  set (s1 := set_eng _ s).
  assert (E1 : eng s1 = set_Flag (Z.lor (Flag (eng s)) flag) (eng s)) by apply eng_set.
  pose proof (run_cached_keeps n (SetFlag eng set_eng run n) (cacheDatas (eng s1))
                (cacheDatas (eng s1)) [] [] s1) as Hloop.
  specialize (Hloop (λ X Y W HYX flag s, IH X Y W flag s HYX)).
  specialize (Hloop ltac:(set_solver) ltac:(set_solver)). rewrite E1 in Hloop.
  assert (HB1 : book n (cacheDatas (eng s)) [] (executed (eng s))
                  (set_Flag (Z.lor (Flag (eng s)) flag) (eng s))).
  { pose proof (unset_raise _ _ Hf E). destruct HB as [Hu _ _ _].
    split; simpl; [lia | set_solver | set_solver | done]. }
  specialize (Hloop HB1 ltac:(set_solver)). rewrite E1. simpl in *.
  destruct (run_cached _ _ _ _ _ _ s1) as [[nc s2] |]; simpl; [| done].
  rewrite eng_set. destruct Hloop as [[Hu Hk Hr Hz] Hnc]. destruct HB as [_ Hk0 Hr0 Hz0].
  simpl in *. split; simpl.
  - lia.
  - intros x Hx. destruct (Hk0 x Hx) as [? | Hc]; [left; auto |].
    destruct (Hnc x Hc); auto.
  - intros x Hx. destruct (Hk0 x (HYX x Hx)) as [? | Hc]; [left; auto | by apply Hr].
  - auto.
Qed.

(** What has arrived is run, or kept and not expected yet. *)
Definition settled X e : Prop := book flag_depth X X [] e.

Lemma SetFlag_settled X flag s :
  flag ∈ flags → settled X (eng s) → keeps (settled X) (SetFlag eng set_eng run flag_depth flag s).
Proof. intros. by apply SetFlag_keeps. Qed.

Lemma call_settled X x s :
  settled X (eng s) →
  keeps (settled (X ++ [x])) (call eng set_eng run (SetFlag eng set_eng run flag_depth) x s).
Proof.
  intros [Hu Hk Hr _]. apply call_keeps; [intros; by apply SetFlag_settled |].
  split; simpl; [done | set_solver | | set_solver].
  intros y [Hy | ->%list_elem_of_singleton]%elem_of_app; [| set_solver].
  destruct (Hr y Hy); [set_solver | by right].
Qed.

Lemma HandleEvent_settled X d h s :
  settled X (eng s) → keeps (settled (X ++ [(d, h)])) (HandleEvent eng set_eng run d h s).
Proof.
  intros HS. unfold HandleEvent. destruct (IsExpectStatus (eng s) d) eqn:E.
  - by apply call_settled.
  - simpl. rewrite eng_set. destruct HS as [Hu Hk Hr _].
    split; simpl; [done | set_solver | | set_solver].
    intros y [Hy | ->%list_elem_of_singleton]%elem_of_app; [by apply Hr | by right].
Qed.

(** The calls that an event asks for, and those of a sequence of events, each
    on a channel with its handles. *)
Definition wanted (handles : list (EventHandle H)) (d : EventData) : list (EventData * H) :=
  map (λ h, (d, eh_f h)) (List.filter (λ h, String.eqb (eh_key h) (event_Type d)) handles).
Definition deliver (l : list (list (EventHandle H) * EventData)) s : outcome S :=
  foldM (λ s hd, dispatch eng set_eng run hd.1 hd.2 s) s l.
Definition arrived (l : list (list (EventHandle H) * EventData)) : list (EventData * H) :=
  concat (map (λ hd, wanted hd.1 hd.2) l).

Lemma dispatch_settled X handles d s :
  settled X (eng s) →
  match dispatch eng set_eng run handles d s with
  | Ok s' => settled (X ++ wanted handles d) (eng s')
  | Crash c => panics c = true
  end.
Proof.
  unfold dispatch. revert X s. induction handles as [| h hs IH]; intros X s HS.
  { simpl. unfold wanted. simpl. by rewrite app_nil_r. }
  unfold wanted. simpl. destruct (String.eqb (eh_key h) (event_Type d)); simpl; [| by apply IH].
  rewrite cons_middle, app_assoc.
  destruct (needCacheBeforeExecution h).
  - pose proof (HandleEvent_settled X d (eh_f h) s HS) as Hk.
    destruct (HandleEvent _ _ _ d (eh_f h) s) as [[r s1] |]; [by apply IH | done].
  - pose proof (call_settled X (d, eh_f h) s HS) as Hk.
    destruct (call _ _ _ _ _ s) as [[r s1] |]; [by apply IH | done].
Qed.

Lemma deliver_settled X (l : list (list (EventHandle H) * EventData)) s :
  settled X (eng s) →
  match deliver l s with
  | Ok s' => settled (X ++ arrived l) (eng s')
  | Crash c => panics c = true
  end.
Proof.
  unfold deliver. revert X s. induction l as [| [hs d] l IH]; intros X s HS; simpl.
  { unfold arrived. simpl. by rewrite app_nil_r. }
  pose proof (dispatch_settled X hs d s HS) as Hd.
  destruct (dispatch _ _ _ hs d s) as [s1 |]; simpl; [| done].
  unfold arrived. simpl. rewrite app_assoc. by apply IH.
Qed.

(** C21: no event is lost.  Whatever events arrive on an engine's channels, in
    any order, every call that a handle asks for has been made, or is kept and
    waits for a flag that is not set yet; and SetFlag, which runs kept events
    that may call it again, never nests deeper than the three flags. *)
Theorem no_event_lost (s : S) (l : list (list (EventHandle H) * EventData)) :
  deliver l s ≠ Crash StackOverflow ∧
  ∀ s' x, deliver l s = Ok s' → x ∈ arrived l →
    x ∈ executed (eng s') ∨ x ∈ cacheDatas (eng s') ∧ expects (Flag (eng s')) x.1 = false.
Proof.
  assert (HS : settled [] (eng s)).
  { split; [| set_solver..]. unfold unset, flags, flag_depth.
    apply (length_filter (λ b, Z.land (Flag (eng s)) b ≠ b) [ProfileFlag; PolicyFlag; AdminFlag]). }
  pose proof (deliver_settled [] l s HS) as Hd. destruct (deliver l s) as [s1 | c].
  - split; [done |]. intros s' x [= ->] Hx. destruct Hd as [_ Hk Hr _].
    destruct (Hk x Hx) as [? | ?]; [by left |]. destruct (Hr x Hx); auto.
  - split; [| done]. intros [= ->]. discriminate Hd.
Qed.
End EngineFacts.

(** ** Runs that do not panic

    A rule for engines: if the event functions, given a SetFlag that keeps an
    invariant, return and keep it, then so does the whole engine.  [J] is an
    invariant of the engine's own state, and [Pre flag] what holds once the
    flag is set; neither looks at the embedded engine. *)

Section SafeRun.
Context `{Q : QuantityLib} {S H : Type}.
Context (eng : S → IOEngine H) (set_eng : IOEngine H → S → S)
  (run : (Z → GoM S ()) → H → EventData → GoM S (option error)).
Context (J : S → Prop) (Pre : Z → S → Prop) (ok : EventData * H → Prop).
Implicit Types (s : S) (x : EventData * H).

Record inv (n : nat) s : Prop := mkInv {
  inv_state : J s;
  inv_flags : ∀ flag, flag ∈ flags → Z.land (Flag (eng s)) flag = flag → Pre flag s;
  inv_unset : (unset (Flag (eng s)) ≤ n)%nat;
  inv_cached : Forall ok (cacheDatas (eng s))
}.
(** What an event function may rely on, of the SetFlag it calls. *)
Definition keeps_inv (n : nat) (sf : Z → GoM S ()) : Prop :=
  ∀ flag s, flag ∈ flags → inv n s → Pre flag s → ∃ s', sf flag s = Ok ((), s') ∧ inv n s'.
Definition safe {A} (Φ : S → Prop) (o : outcome (A * S)) : Prop := ∃ r s', o = Ok (r, s') ∧ Φ s'.

Class SafeHandlers : Prop := {
  safe_eng_set : ∀ e s, eng (set_eng e s) = e;
  safe_J : ∀ e s, J s → J (set_eng e s);
  safe_Pre : ∀ flag e s, Pre flag s → Pre flag (set_eng e s);
  safe_run : ∀ n sf x s, keeps_inv n sf → ok x → expects (Flag (eng s)) x.1 = true → inv n s →
    safe (inv n) (run sf x.2 x.1 s)
}.
Context `{!SafeHandlers}.

Lemma inv_set_eng n e s :
  inv n s → Flag e = Flag (eng s) → Forall ok (cacheDatas e) → inv n (set_eng e s).
Proof.
  intros [HJ Hf Hu Hc] Ef Hc'. split; [by apply safe_J | | |]; rewrite ?safe_eng_set, ?Ef; auto.
  intros flag Hin E. apply safe_Pre. auto.
Qed.

Lemma call_safe n sf x s :
  keeps_inv n sf → ok x → expects (Flag (eng s)) x.1 = true → inv n s →
  safe (inv n) (call eng set_eng run sf x s).
Proof.
  intros Hsf Hx He Hs. apply safe_run; [done | done | by rewrite safe_eng_set |].
  apply inv_set_eng; [done | done | apply Hs].
Qed.

Lemma run_cached_safe n sf l nc s :
  keeps_inv n sf → Forall ok l → Forall ok nc → inv n s →
  ∃ nc' s', run_cached eng set_eng run sf l nc s = Ok (nc', s') ∧ inv n s' ∧ Forall ok nc'.
Proof.
  intros Hsf Hl. revert nc s. induction Hl as [| x l Hx Hl IH]; intros nc s Hnc Hs; simpl; [eauto |].
  unfold IsExpectStatus. destruct (expects (Flag (eng s)) x.1) eqn:He.
  - destruct (call_safe n sf x s Hsf Hx He Hs) as (r & s1 & -> & Hs1). simpl. by apply IH.
  - apply IH; [| done]. by apply Forall_app_2; [| constructor].
Qed.

Lemma SetFlag_safe n : keeps_inv n (SetFlag eng set_eng run n).
Proof.
  induction n as [| n IH]; intros flag s Hf Hs Hp; simpl.
  { rewrite (unset_zero _ flag) by (destruct Hs; lia || done). rewrite Z.eqb_refl. eauto. }
  destruct (Z.land (Flag (eng s)) flag =? flag) eqn:E; [by eauto |]. apply Z.eqb_neq in E.
  set (s1 := set_eng _ s).
  assert (E1 : eng s1 = set_Flag (Z.lor (Flag (eng s)) flag) (eng s)) by apply safe_eng_set.
  assert (Hs1 : inv n s1).
  { destruct Hs as [HJ Hfl Hu Hc]. pose proof (unset_raise _ _ Hf E).
    split; [by apply safe_J | | rewrite E1; simpl; lia | by rewrite E1].
    intros b Hb Eb. apply safe_Pre. rewrite E1 in Eb. simpl in Eb.
    destruct (decide (b = flag)) as [-> | Hne]; [done |]. apply Hfl; [done |].
    revert Hf Hb Hne Eb. unfold flags. rewrite !list_elem_of_In. simpl.
    intros [<- | [<- | [<- | []]]] [<- | [<- | [<- | []]]] Hne; try done;
      rewrite Z.land_lor_distr_l; simpl; by rewrite Z.lor_0_r. }
  destruct (run_cached_safe n (SetFlag eng set_eng run n) (cacheDatas (eng s1)) [] s1)
    as (nc & s2 & -> & Hs2 & Hnc); [done | apply Hs1 | done | done |].
  simpl. eexists. split; [done |]. apply inv_set_eng; [| done | done].
  destruct Hs2 as [HJ Hfl Hu Hc]. split; [done | done | lia | done].
Qed.

Lemma HandleEvent_safe x s :
  ok x → inv flag_depth s → safe (inv flag_depth) (HandleEvent eng set_eng run x.1 x.2 s).
Proof.
  intros Hx Hs. unfold HandleEvent, IsExpectStatus. destruct (expects (Flag (eng s)) x.1) eqn:He.
  - destruct x. by apply call_safe; [apply SetFlag_safe | ..].
  - eexists _, _. split; [done |]. apply inv_set_eng; [done | done |]. destruct x. simpl.
    apply Forall_app_2; [apply Hs | by constructor].
Qed.

(** A handle without caching must be for events that expect no flag. *)
Lemma dispatch_safe handles data s :
  (∀ h, h ∈ handles → eh_key h = event_Type data →
     ok (data, eh_f h) ∧ (needCacheBeforeExecution h = false → Expect data = 0)) →
  inv flag_depth s → ∃ s', dispatch eng set_eng run handles data s = Ok s' ∧ inv flag_depth s'.
Proof.
  intros Hh Hs. apply foldM_total; [| done]. clear s Hs. intros s h Hin Hs.
  destruct (String.eqb_spec (eh_key h) (event_Type data)) as [E |]; [| by eauto].
  destruct (Hh h Hin E) as [Hok Hz].
  assert (Hr : safe (inv flag_depth)
            (if needCacheBeforeExecution h then HandleEvent eng set_eng run data (eh_f h) s
             else call eng set_eng run (SetFlag eng set_eng run flag_depth) (data, eh_f h) s)).
  { destruct (needCacheBeforeExecution h); [by apply (HandleEvent_safe (data, eh_f h)) |].
    apply call_safe; [apply SetFlag_safe | done | | done].
    unfold expects. simpl. by rewrite Hz, Z.land_0_r by done. }
  destruct Hr as (r & s' & -> & Hs'). simpl. eauto.
Qed.
End SafeRun.

(** An event that waits for all flags runs once the policies are there. *)
Lemma expects_policy `{Q : QuantityLib} (flag : Z) (data : EventData) :
  expects flag data = true → Expect data = all_flags → Z.land flag PolicyFlag = PolicyFlag.
Proof.
  intros He E. unfold expects in He. rewrite E in He. apply Z.eqb_eq in He.
  change PolicyFlag with (Z.land all_flags PolicyFlag) at 1. by rewrite Z.land_assoc, He.
Qed.
