(* ===== verification/LimitFacts.v ===== *)
(** * Limits: SetLimit on well-formed groups

    Every pod of a group has its request, limit and raw request; then SetLimit
    returns and changes nothing of the group but the limits it shows. *)

From S2P Require Export AgentLimit UtilsFacts.

(** A pod id without a dot: it can be read back from an application id. *)
Definition no_dot (po : string) : Prop := str_split pod_dot po = [po].

Definition all_set (m : gmap string (option Workload)) : Prop := map_Forall (λ _ v, is_Some v) m.
Record group_ok (w : WorkloadGroup) : Prop := mkGroupOk {
  ok_type : 0 <= wg_WorkloadType w <= 2;
  ok_names : map_Forall (λ po _, no_dot po) (RequestPods w);
  ok_requests : all_set (RequestPods w);
  ok_limits : all_set (LimitPods w);
  ok_actual : all_set (ActualPods w);
  ok_raw : ∀ po v, RequestPods w !! po = Some v → ∃ r, wg_RawRequest w !! po = Some (Some r)
}.

(** What the limits of any device need of a group. *)
Record group_base (w : WorkloadGroup) : Prop := mkGroupBase {
  base_type : 0 <= wg_WorkloadType w <= 2;
  base_requests : all_set (RequestPods w);
  base_limits : all_set (LimitPods w);
  base_actual : all_set (ActualPods w)
}.
Lemma group_ok_base w : group_ok w → group_base w.
Proof. by intros [? ? ? ? ? ?]. Qed.
Definition groups_ok (gs : list WorkloadGroup) : Prop := length gs = 3%nat ∧ Forall group_ok gs.

Lemma index_ok {A} (l : list A) i :
  0 <= i < Z.of_nat (length l) → ∃ a, index l i = Ok a ∧ l !! Z.to_nat i = Some a.
Proof.
  intros Hi. unfold index. rewrite (proj2 (Z.ltb_ge i 0)) by lia.
  destruct (lookup_lt_is_Some_2 l (Z.to_nat i)) as [a ->]; [lia | eauto].
Qed.

Lemma all_set_insert m k v : is_Some v → all_set m → all_set (<[k := v]> m).
Proof. intros. by apply map_Forall_insert_2. Qed.
Lemma all_set_delete m k : all_set m → all_set (delete k m).
Proof. apply map_Forall_delete. Qed.
#[export] Hint Resolve all_set_insert all_set_delete : ioi.

Section LimitFacts.
Context `{!GoRange}.

Lemma CalculateGroupBw_ok m : all_set m → ∃ wl, CalculateGroupBw m = Ok wl.
Proof.
  intros Hm. destruct (foldM_total (λ wl kv, let! val := deref kv.2 in Ok (wl_add wl val))
    (λ _, True) workload_zero (range m)) as (wl & E & _); [| done | by exists wl].
  intros wl [k v] Hin _. apply elem_of_range in Hin. destruct (Hm k v Hin) as [x ->]. simpl. eauto.
Qed.

Lemma GetPodList_lookup w po : po ∈ GetPodList w → ∃ wl, RequestPods w !! po = Some (Some wl).
Proof.
  unfold GetPodList. assert (Hg : ∀ l acc,
    po ∈ foldl (λ l (kv : string * option Workload), match kv.2 with Some _ => l ++ [kv.1] | None => l end)
           acc l → po ∈ acc ∨ ∃ wl, (po, Some wl) ∈ l).
  { induction l as [| [k [wl |]] l IH]; intros acc Hin; simpl in *; [by left | |].
    - apply IH in Hin as [Hin | (wl' & ?)]; [| set_solver].
      apply elem_of_app in Hin as [? | ->%list_elem_of_singleton]; [by left | set_solver].
    - apply IH in Hin as [? | (wl' & ?)]; [by left | set_solver]. }
  intros Hin. apply Hg in Hin as [Hin%elem_of_nil | (wl & Hin)]; [done |].
  exists wl. by apply elem_of_range.
Qed.

Lemma SelectPods_ok rp bps p lim req podList :
  all_set lim → (∀ po, po ∈ podList → ∃ wl, req !! po = Some (Some wl)) →
  ∃ rp', SelectPods rp bps (Some p) lim req podList = Ok rp'.
Proof.
  intros Hl Hr. unfold SelectPods. simpl. destruct (String.eqb _ "All").
  - match goal with |- context [foldM ?f ?a podList] =>
      destruct (foldM_total f (λ _, True) a podList) as (m & -> & _); [| done | by eauto] end.
    intros m po Hin _. destruct (Hr po Hin) as (wl & ->). simpl.
    destruct (lim !! po) as [l |] eqn:E; simpl; [| by eauto].
    destruct (Hl po l E) as [x ->]. simpl. eauto.
  - destruct (String.eqb _ "NONE"); eauto.
Qed.

Lemma CompressPods_ok p rp n idx : ∃ rp', CompressPods (Some p) rp n idx = Ok rp'.
Proof.
  unfold CompressPods. destruct (_ || _); [by eauto |]. destruct (fle _ _); [| by eauto]. simpl.
  destruct (String.eqb _ _); eauto.
Qed.

Lemma disk_limit_ok min t bps iops raw tran b :
  ∃ r, disk_limit min t bps iops (Ok raw) (Ok tran) b = Ok r.
Proof.
  unfold disk_limit. destruct (feq b LimitMax); [by eauto |]. destruct (feq b LimitKeepValue); [by eauto |].
  destruct (t =? BeIndex); [by eauto |]. simpl. destruct (calIopsByBW _ _ _ _). eauto.
Qed.

Lemma appid_pod idx po : 0 <= idx <= 2 → no_dot po →
  ∃ i, str_split pod_dot (pretty idx +:+ "." +:+ po) = [i; po].
Proof.
  intros Hi Hp. exists (pretty idx). change ("." +:+ po) with (String pod_dot po).
  rewrite str_split_app, Hp; [done |].
  assert (idx = 0 ∨ idx = 1 ∨ idx = 2) as [-> | [-> | ->]] by lia; reflexivity.
Qed.

Lemma compose_pod_ok mins w r o dev idx acc po v :
  (DevType dev = "DISK" → group_ok w ∧ 0 <= idx <= 2) → RequestPods w !! po = Some v →
  ∃ acc', compose_pod mins w r o dev idx acc po = Ok acc'.
Proof.
  intros Hdev Hv. unfold compose_pod. destruct acc as [wl msgs].
  destruct (String.eqb_spec (DevType dev) "DISK") as [Ed |]; simpl; [| by eauto].
  destruct (Hdev Ed) as [Hw Hi].
  unfold IOISetLimitDisk. destruct (appid_pod idx po Hi) as (i & ->).
  { by apply (ok_names _ Hw po v). }
  simpl. destruct (ok_raw _ Hw po v Hv) as (raw & ->).
  destruct (ok_requests _ Hw po v Hv) as [tran ->]. rewrite Hv. simpl.
  destruct (disk_limit_ok (MinPodDiskInBw mins) (wg_WorkloadType w) InBps InIops raw tran
              (param_limit r po)) as [[[a b] c] E1].
  destruct (disk_limit_ok (MinPodDiskOutBw mins) (wg_WorkloadType w) OutBps OutIops raw tran
              (param_limit o po)) as [[[a' b'] c'] E2].
  rewrite E1. simpl. rewrite E2. simpl. eauto.
Qed.

(** The group with the limits it shows left aside. *)
Definition same_group (w w' : WorkloadGroup) : Prop := ∃ m gl, w' = set_limits_set m gl w.

#[export] Instance same_group_preorder : PreOrder same_group.
Proof.
  split.
  - intros [? ? ? m ? ? ? gl ? ? ?]. by exists m, gl.
  - intros w1 w2 w3 (m2 & gl2 & ->) (m3 & gl3 & ->). by exists m3, gl3.
Qed.

Lemma same_group_ok w w' : same_group w w' → group_ok w → group_ok w'.
Proof. intros (m & gl & ->) [? ? ? ? ? ?]. by split. Qed.

Lemma SetLimit_ok mins w p e req dev idx :
  all_set (LimitPods w) → (DevType dev = "DISK" → group_ok w ∧ 0 <= idx <= 2) →
  ∃ w' msgs, SetLimit mins w (Some p) e req dev idx = Ok (w', msgs) ∧ same_group w w'.
Proof.
  intros Hw Hdev. unfold SetLimit.
  destruct (SelectPods_ok (mkRunPods (InBps e) (InBps req) ∅ 1) InBps p (LimitPods w)
              (RequestPods w) (GetPodList w) Hw (GetPodList_lookup w)) as (r1 & ->).
  destruct (SelectPods_ok (mkRunPods (OutBps e) (OutBps req) ∅ 1) OutBps p (LimitPods w)
              (RequestPods w) (GetPodList w) Hw (GetPodList_lookup w)) as (o1 & ->).
  simpl. destruct (CompressPods_ok p r1 (Z.of_nat (length (GetPodList w))) idx) as (r2 & ->).
  destruct (CompressPods_ok p o1 (Z.of_nat (length (GetPodList w))) idx) as (o2 & ->). simpl.
  unfold ComposeLimitData.
  match goal with |- context [foldM ?f ?a ?l] =>
    destruct (foldM_total f (λ _, True) a l) as ([wl msgs] & E & _); [| done |] end.
  - intros acc po Hin _. apply list_elem_of_fmap in Hin as ([k v] & -> & Hin).
    apply elem_of_range in Hin. destruct (compose_pod_ok mins w r2 o2 dev idx acc k v Hdev Hin); eauto.
  - rewrite E. simpl. eexists _, _. split; [done |]. by eexists _, _.
Qed.

Lemma keep_visited_lookup {V} visited (m : gmap string V) k :
  keep_visited visited m !! k = if decide (k ∈ visited) then m !! k else None.
Proof.
  unfold keep_visited.
  assert (Hg : ∀ l (m' : gmap string V),
    foldl (λ m (kv : string * V), if decide (kv.1 ∈ visited) then m else delete kv.1 m) m' l !! k
    = if decide (k ∈ visited ∨ k ∉ l.*1) then m' !! k else None).
  { induction l as [| [x v] l IH]; intros m'; simpl.
    - rewrite decide_True; [done |]. right. by apply not_elem_of_nil.
    - rewrite IH. simpl. pose proof (not_elem_of_cons l.*1 k x) as Hc. destruct (decide (x ∈ visited)) as [Hx | Hx].
      + apply decide_ext. destruct (decide (k = x)) as [-> |]; tauto.
      + destruct (decide (k = x)) as [-> | Hne].
        * rewrite lookup_delete_eq. rewrite (decide_False (P := _ ∨ x ∉ x :: _)) by tauto. by case_decide.
        * rewrite lookup_delete_ne by done. apply decide_ext. tauto. }
  rewrite Hg. destruct (decide (k ∈ visited ∨ k ∉ (range m).*1)) as [Hd | Hd],
    (decide (k ∈ visited)) as [Hk | Hk]; try tauto.
  destruct (m !! k) as [v |] eqn:E; [| done]. exfalso.
  destruct Hd as [? | Hni]; [done |]. apply Hni. apply list_elem_of_fmap. exists (k, v).
  split; [done |]. by apply elem_of_range.
Qed.

Lemma keep_visited_all_set visited m : all_set m → all_set (keep_visited visited m).
Proof.
  intros Hm k v. rewrite keep_visited_lookup. case_decide; [| done]. apply Hm.
Qed.

Lemma DeleteOutdatePod_ok w visited : group_ok w → group_ok (DeleteOutdatePod w visited).
Proof.
  intros [Ht Hn Hr Hl Ha Hraw]. split; simpl; auto using keep_visited_all_set.
  - intros po v. rewrite keep_visited_lookup. case_decide; [apply Hn | done].
  - intros po v. rewrite !keep_visited_lookup. case_decide; [apply Hraw | done].
Qed.

(** ** Groups of a device *)

Lemma set_limits_ok mins pols dev idx e gs :
  length pols = 3%nat → Forall is_Some pols →
  Forall group_base gs →
  (DevType dev = "DISK" → Forall group_ok gs ∧ 0 <= idx ∧ idx + Z.of_nat (length gs) <= 3) →
  ∃ gs' msgs, set_limits mins pols dev idx e gs = Ok (gs', msgs) ∧ Forall2 same_group gs gs'.
Proof.
  intros Hd Hp Hgs. revert idx e. induction Hgs as [| w gs Hw Hgs IH]; intros idx e Hdev; simpl in *.
  { by eexists _, _. }
  destruct (CalculateGroupBw_ok _ (base_requests _ Hw)) as [req ->]. simpl.
  destruct (index_ok pols (wg_WorkloadType w)) as (pol & -> & Epol).
  { pose proof (base_type _ Hw). lia. }
  simpl. rewrite Forall_lookup in Hp.
  destruct (Hp _ _ Epol) as [p ->].
  destruct (SetLimit_ok mins w p (default workload_zero (head e)) req dev idx)
    as (w' & msgs & -> & Hs).
  { apply Hw. }
  { intros (Hok & Hi & Hl)%Hdev. apply Forall_cons in Hok as [? ?]. split; [done | lia]. }
  simpl. destruct (IH (idx + 1) (tail e)) as (gs' & msgs' & -> & Hgs').
  { intros (Hok & Hi & Hl)%Hdev. apply Forall_cons in Hok as [? ?]. repeat split; [done | lia | lia]. }
  simpl.
  eexists _, _. split; [done |]. by constructor.
Qed.

Lemma same_groups_ok gs gs' : Forall2 same_group gs gs' → groups_ok gs → groups_ok gs'.
Proof.
  intros HF [Hl Hok]. split; [by rewrite <- (Forall2_length _ _ _ HF) |].
  clear Hl. induction HF as [| w w' gs gs' Hw HF IH]; [done |].
  apply Forall_cons in Hok as [? ?]. constructor; [by eapply same_group_ok | auto].
Qed.

Lemma map_groups_ok (f : WorkloadGroup → WorkloadGroup) gs :
  (∀ w, group_ok w → group_ok (f w)) → groups_ok gs → groups_ok (map f gs).
Proof.
  intros Hf [Hl Hok]. split; [by rewrite length_map |]. rewrite Forall_map.
  eapply Forall_impl; [exact Hok | done].
Qed.

Lemma set_actual_ok podId a w : is_Some a → group_ok w → group_ok (set_actual podId a w).
Proof.
  intros Ha Hw. unfold set_actual. destruct (RequestPods w !! podId) as [[x |] |]; try done.
  destruct Hw as [? ? ? ? ? ?]. split; simpl; auto with ioi.
Qed.

Lemma clean_groups_ok visited gs :
  groups_ok gs → ∃ gs', clean_groups visited gs = Ok gs' ∧ groups_ok gs'.
Proof.
  intros [Hl Hok]. unfold clean_groups. rewrite Hl. simpl. eexists. split; [done |].
  rewrite take_ge, drop_ge, app_nil_r by lia.
  by apply map_groups_ok; [intros; apply DeleteOutdatePod_ok |].
Qed.

Definition measured_ok (p : PodData) : Prop :=
  map_Forall (λ _ ev, map_Forall (λ _ i, is_Some (ri_Actual i)) ev) (PodEvents p).
(** A pod without a name is passed over. *)
Record run_info_ok (uid : string) (i : PodRunInfo) : Prop := mkRunOk {
  run_type : 0 <= ri_WorkloadType i <= 2;
  run_uid : no_dot uid;
  run_request : is_Some (ri_Request i);
  run_limit : is_Some (ri_Limit i);
  run_raw : is_Some (ri_RawRequest i)
}.
Definition cr_ok (p : PodData) : Prop :=
  map_Forall (λ _ ev, map_Forall (λ uid i, ri_PodName i ≠ "" → run_info_ok uid i) ev) (PodEvents p).

(** ** What SetLimit sends for the pods of a disk's group *)

Lemma GetPodList_keys w : all_set (RequestPods w) → GetPodList w = (range (RequestPods w)).*1.
Proof.
  intros Hw. unfold GetPodList.
  assert (Hl : ∀ kv, kv ∈ range (RequestPods w) → is_Some kv.2)
    by (intros [k v] Hin; apply elem_of_range in Hin; by apply (Hw k v)).
  revert Hl. generalize (range (RequestPods w)) as l.
  enough (∀ (l : list (string * option Workload)) acc, (∀ kv, kv ∈ l → is_Some kv.2) →
    foldl (λ l kv, match kv.2 with Some _ => l ++ [kv.1] | None => l end) acc l = acc ++ l.*1) as Hg
    by (intros l Hl; by apply Hg).
  induction l as [| [k v] l IH]; intros acc Hl; simpl; [by rewrite app_nil_r |].
  destruct (Hl (k, v)) as [x E]; [by left |]. simpl in E. subst v.
  rewrite IH by (intros; apply Hl; by right). by rewrite <- app_assoc.
Qed.

(** The bandwidth that a pod of the group [idx] may use, of a group of [n]
    pods that is left [expect]. *)
Definition share (idx : Z) (expect : f64) (n : Z) (request limit : f64) : f64 :=
  if idx =? GaIndex then request
  else if idx =? BtIndex then fmin (fmul expect request) limit
  else fdiv expect (of_Z n).

Definition cur_limit (bps : Workload → f64) (limits : gmap string (option Workload)) (po : string) : f64 :=
  match limits !! po with Some (Some l) => bps l | _ => fzero end.

Lemma select_all rp bps p limits reqs podList :
  Select_method p = "All" → all_set limits → NoDup podList →
  (∀ po, po ∈ podList → ∃ wl, reqs !! po = Some (Some wl)) →
  ∃ m, SelectPods rp bps (Some p) limits reqs podList = Ok (set_podParam m rp) ∧
    ∀ po wl, po ∈ podList → reqs !! po = Some (Some wl) →
      m !! po = Some (mkParam (cur_limit bps limits po) LimitKeepValue (bps wl)).
Proof.
  intros Hs Hl Hnd Hr. unfold SelectPods. simpl. rewrite Hs. simpl.
  enough (∀ m0 : gmap string PodParam, ∃ m : gmap string PodParam, foldM (λ m po,
      let! req := deref (default None (reqs !! po)) in
      let! current := match limits !! po with
                      | Some l => let! l := deref l in Ok (bps l)
                      | None => Ok fzero
                      end in
      Ok (<[po := mkParam current LimitKeepValue (bps req)]> m)) m0 podList = Ok m ∧
      (∀ po, po ∉ podList → m !! po = m0 !! po) ∧
      ∀ po wl, po ∈ podList → reqs !! po = Some (Some wl) →
        m !! po = Some (mkParam (cur_limit bps limits po) LimitKeepValue (bps wl))) as Hm.
  { destruct (Hm (podParam rp)) as (m & -> & _ & Hm'). simpl. by exists m. }
  clear Hs. induction podList as [| po l IH]; intros m0; simpl.
  { exists m0. split; [done |]. split; [done |]. by intros ? ? ?%elem_of_nil. }
  apply NoDup_cons in Hnd as [Hni Hnd]. destruct (Hr po) as [wl E]; [by left |]. rewrite E. simpl.
  assert (Ec : match limits !! po with
               | Some l => let! l := deref l in Ok (bps l)
               | None => Ok fzero
               end = Ok (cur_limit bps limits po)).
  { unfold cur_limit. destruct (limits !! po) as [v |] eqn:Ev; [| done].
    by destruct (Hl po v Ev) as [x ->]. }
  rewrite Ec. simpl.
  destruct (IH Hnd (λ po' Hin, Hr po' ltac:(by right))
              (<[po := mkParam (cur_limit bps limits po) LimitKeepValue (bps wl)]> m0))
    as (m & -> & Hf & Hm).
  exists m. split; [done |]. split.
  - intros po' [Hne Hni']%not_elem_of_cons. rewrite Hf by done. by rewrite lookup_insert_ne.
  - intros po' wl' [-> | Hin]%elem_of_cons E'; [| by apply Hm].
    rewrite Hf, lookup_insert_eq by done. congruence.
Qed.

(** The left bandwidth is a plain amount, not one of the two marks. *)
Definition amount (x : f64) : Prop :=
  feq x LimitMax = false ∧ feq x LimitKeepValue = false ∧ fle fzero x = true.

Lemma compress_ratio p rp n idx po q :
  Compress_method p = "CALC_REQUEST_RATIO" → amount (rp_expect rp) → 0 <= idx <= 2 →
  podParam rp !! po = Some q →
  ∃ rp', CompressPods (Some p) rp n idx = Ok rp' ∧ rp_flag rp' = rp_flag rp ∧
    option_map outLimit (podParam rp' !! po) =
      Some (share idx (rp_expect rp) n (pp_request q) (inLimit q)).
Proof.
  intros Hc (Hm & Hk & Hp) Hi Eq. unfold CompressPods. rewrite Hm, Hk, Hp. simpl. rewrite Hc. simpl.
  eexists. split; [done |]. split; [done |]. unfold CompressRequestRatio. simpl.
  rewrite (lookup_foldl_fill (λ kv, Some (ratio_limit (rp_expect rp) n idx kv.2))) by apply NoDup_range.
  rewrite list_to_map_range, Eq. simpl. f_equal. unfold ratio_limit, share, GaIndex, BtIndex, BeIndex.
  assert (idx = 0 ∨ idx = 1 ∨ idx = 2) as [-> | [-> | ->]] by lia; done.
Qed.

(** One direction of a limit, written out: the text in bytes and the number of
    operations per second for a share of [b] MiB/s.  -1 is no limit and -2 the
    old one; any other share is raised to the minimum; a best-effort pod has
    operations of 32 KiB, another one its raw request scaled by the ratio of
    the translated to the raw bandwidth. *)
Definition sent_rate (min : f64) (best_effort : bool) (raw_bw raw_ops tran_bw b : f64) : string * Z :=
  if feq b (of_Z (-1)) then ("10485760000", 2560000)
  else if feq b (of_Z (-2)) then ("", 0)
  else
    let bytes := fmul (if flt b min then min else b) (of_Z 1048576) in
    if best_effort then (pretty (to_int64 bytes), Z.quot (to_int64 bytes) 32768)
    else if feq raw_bw (of_Z 0) || feq (fdiv tran_bw raw_bw) (of_Z 0) then ("", 0)
    else
      let rate := fdiv bytes (fdiv tran_bw raw_bw) in
      (pretty (to_int64 rate), to_int64 (fdiv (fmul raw_ops rate) (fmul raw_bw (of_Z 1048576)))).
Lemma disk_limit_rate min t bps iops raw tran b :
  ∃ b', disk_limit min t bps iops (Ok raw) (Ok tran) b =
    Ok (sent_rate min (t =? 2) (bps raw) (iops raw) (bps tran) b, b').
Proof.
  unfold disk_limit, sent_rate. change LimitMax with (of_Z (-1)). change LimitKeepValue with (of_Z (-2)).
  destruct (feq b _); [by eexists |]. destruct (feq b _); [by eexists |]. change BeIndex with 2.
  destruct (t =? 2); [by eexists |]. simpl. unfold calIopsByBW. change fzero with (of_Z 0).
  destruct (_ || _); by eexists.
Qed.

(** The reads and the writes of a pod of the group, of the request, raw
    request and limit that the group has for it. *)
Definition pod_reads (mins : MinBw) (w : WorkloadGroup) (expect : Workload) (idx : Z) (po : string) (req raw : Workload)
    : string * Z :=
  sent_rate (MinPodDiskInBw mins) (wg_WorkloadType w =? 2) (InBps raw) (InIops raw) (InBps req)
    (share idx (InBps expect) (Z.of_nat (size (RequestPods w))) (InBps req) (cur_limit InBps (LimitPods w) po)).
Definition pod_writes (mins : MinBw) (w : WorkloadGroup) (expect : Workload) (idx : Z) (po : string) (req raw : Workload)
    : string * Z :=
  sent_rate (MinPodDiskOutBw mins) (wg_WorkloadType w =? 2) (OutBps raw) (OutIops raw) (OutBps req)
    (share idx (OutBps expect) (Z.of_nat (size (RequestPods w))) (OutBps req) (cur_limit OutBps (LimitPods w) po)).
(** The message for a pod. *)
Definition limit_sent (mins : MinBw) (w : WorkloadGroup) (expect : Workload) (dev : DevInfo) (idx : Z)
    (po : string) (m : service_msg) : Prop :=
  ∃ req raw, RequestPods w !! po = Some (Some req) ∧ wg_RawRequest w !! po = Some (Some raw) ∧
    let rd := pod_reads mins w expect idx po req raw in
    let wr := pod_writes mins w expect idx po req raw in
    m = SetAppLimit (pretty idx +:+ "." +:+ po)
          [mkBWLimit (DevMajorMinor dev) rd.1 wr.1 rd.2 wr.2] DiskIOIType.

(** The two directions of a pod, chosen and compressed. *)
Lemma direction_limit bps w p expect request idx :
  group_ok w → 0 <= idx <= 2 → Select_method p = "All" →
  Compress_method p = "CALC_REQUEST_RATIO" → amount (bps expect) →
  ∃ r1 r2, SelectPods (mkRunPods (bps expect) (bps request) ∅ 1) bps (Some p) (LimitPods w)
             (RequestPods w) (GetPodList w) = Ok r1 ∧
    CompressPods (Some p) r1 (Z.of_nat (length (GetPodList w))) idx = Ok r2 ∧
    ∀ po req, RequestPods w !! po = Some (Some req) →
      param_limit r2 po = share idx (bps expect) (Z.of_nat (size (RequestPods w))) (bps req)
                            (cur_limit bps (LimitPods w) po).
Proof.
  intros Hw Hi Hs Hc Ha. rewrite (GetPodList_keys w (ok_requests _ Hw)).
  destruct (select_all (mkRunPods (bps expect) (bps request) ∅ 1) bps p (LimitPods w) (RequestPods w)
              (range (RequestPods w)).*1) as (m & E & Hm);
    [done | apply Hw | apply NoDup_range | |].
  { intros po Hin. apply list_elem_of_fmap in Hin as ([k v] & -> & Hin). apply elem_of_range in Hin.
    destruct (ok_requests _ Hw k v Hin) as [x ->]. by exists x. }
  destruct (CompressPods_ok p (set_podParam m (mkRunPods (bps expect) (bps request) ∅ 1))
              (Z.of_nat (length (range (RequestPods w)).*1)) idx) as (r2 & E2).
  eexists _, r2. split; [exact E |]. split; [exact E2 |]. intros po req Hpo.
  specialize (Hm po req).
  destruct (compress_ratio p (set_podParam m (mkRunPods (bps expect) (bps request) ∅ 1))
              (Z.of_nat (length (range (RequestPods w)).*1)) idx po
              (mkParam (cur_limit bps (LimitPods w) po) LimitKeepValue (bps req)) Hc Ha Hi)
    as (r2' & E2' & Hfl & Hout).
  { apply Hm; [| done]. apply list_elem_of_fmap. exists (po, Some req). split; [done |].
    by apply elem_of_range. }
  rewrite E2 in E2'. injection E2' as <-. rewrite length_fmap, length_range in Hout. simpl in Hout.
  unfold param_limit. rewrite Hfl. simpl. by destruct (podParam r2 !! po) as [q |]; [injection Hout as -> |].
Qed.

#[local] Arguments compose_pod : simpl never.

Lemma compose_disk mins w r o expect dev idx l acc :
  group_ok w → 0 <= idx <= 2 → DevType dev = "DISK" →
  (∀ po, po ∈ l → is_Some (RequestPods w !! po)) →
  (∀ po req, RequestPods w !! po = Some (Some req) →
     param_limit r po = share idx (InBps expect) (Z.of_nat (size (RequestPods w))) (InBps req)
                          (cur_limit InBps (LimitPods w) po) ∧
     param_limit o po = share idx (OutBps expect) (Z.of_nat (size (RequestPods w))) (OutBps req)
                          (cur_limit OutBps (LimitPods w) po)) →
  ∃ wl ms, foldM (compose_pod mins w r o dev idx) acc l = Ok (wl, acc.2 ++ ms) ∧
    Forall2 (limit_sent mins w expect dev idx) l ms.
Proof.
  intros Hw Hi Hdev Hl Hp. revert acc. induction l as [| po l IH]; intros [wl msgs]; simpl.
  { exists wl, []. by rewrite app_nil_r. }
  destruct (Hl po) as [v Hv]; [by left |]. destruct (ok_requests _ Hw po v Hv) as [req ->].
  destruct (Hp po req Hv) as [Er Eo]. destruct (ok_raw _ Hw po _ Hv) as (raw & Hraw).
  destruct (disk_limit_rate (MinPodDiskInBw mins) (wg_WorkloadType w) InBps InIops raw req
              (param_limit r po)) as [b E1].
  destruct (disk_limit_rate (MinPodDiskOutBw mins) (wg_WorkloadType w) OutBps OutIops raw req
              (param_limit o po)) as [b' E2].
  rewrite Er in E1 at 2. rewrite Eo in E2 at 2.
  change (sent_rate (MinPodDiskInBw mins) _ _ _ _ _) with (pod_reads mins w expect idx po req raw) in E1.
  change (sent_rate (MinPodDiskOutBw mins) _ _ _ _ _) with (pod_writes mins w expect idx po req raw) in E2.
  set (rd := pod_reads mins w expect idx po req raw) in *. set (wr := pod_writes mins w expect idx po req raw) in *.
  set (m := SetAppLimit (pretty idx +:+ "." +:+ po)
              [mkBWLimit (DevMajorMinor dev) rd.1 wr.1 rd.2 wr.2] DiskIOIType).
  assert (Hc : ∃ wl', compose_pod mins w r o dev idx (wl, msgs) po = Ok (wl', msgs ++ [m])).
  { unfold compose_pod. rewrite Hdev. simpl. unfold IOISetLimitDisk.
    destruct (appid_pod idx po Hi) as (i & Es); [by apply (ok_names _ Hw po (Some req)) |].
    simpl in Es. rewrite Es. simpl. rewrite Hraw, Hv. simpl. rewrite E1. simpl. destruct rd as [in_ ini]. simpl. rewrite E2. simpl. destruct wr as [out outi]. simpl. eauto. }
  destruct Hc as [wl' ->]. simpl.
  destruct (IH (λ po' Hin, Hl po' ltac:(by right)) (wl', msgs ++ [m])) as (wl2 & ms & -> & HF). simpl.
  exists wl2, (m :: ms). rewrite <- app_assoc. split; [done |]. constructor; [| done].
  by exists req, raw.
Qed.

(** One message per pod, in the order of the pods. *)
Lemma SetLimit_sends mins w p expect request dev idx :
  group_ok w → 0 <= idx <= 2 → Select_method p = "All" →
  Compress_method p = "CALC_REQUEST_RATIO" → DevType dev = "DISK" →
  amount (InBps expect) → amount (OutBps expect) →
  ∃ w' msgs, SetLimit mins w (Some p) expect request dev idx = Ok (w', msgs) ∧ same_group w w' ∧
    Forall2 (limit_sent mins w expect dev idx) (range (RequestPods w)).*1 msgs.
Proof.
  intros Hw Hi Hs Hc Hdev Hin Hout. unfold SetLimit.
  destruct (direction_limit InBps w p expect request idx Hw Hi Hs Hc Hin) as (r1 & r2 & -> & Er & Hr).
  destruct (direction_limit OutBps w p expect request idx Hw Hi Hs Hc Hout) as (o1 & o2 & -> & Eo & Ho).
  simpl. rewrite Er. simpl. rewrite Eo. simpl. unfold ComposeLimitData. rewrite Hdev.
  rewrite andb_false_r. simpl.
  match goal with |- context [foldM _ ?a ?l] =>
    destruct (compose_disk mins w r2 o2 expect dev idx l a Hw Hi Hdev) as (wl & ms & -> & HF) end.
  - intros po Hpo. apply list_elem_of_fmap in Hpo as ([k v] & -> & Hpo). apply elem_of_range in Hpo. eauto.
  - intros po req Hpo. split; [by apply Hr | by apply Ho].
  - simpl. eexists _, _. split; [done |]. split; [by eexists _, _ | done].
Qed.

(** C34: Limits follow the workload class.  For a group of a disk whose pods
    have their requests, limits and raw requests and names without a dot, for
    a class of the three, under the policy that selects all pods and
    compresses by request ratio, and with expected rates that are not negative
    (-1 and -2 mean no limit and the old limit), SetLimit returns and sends
    exactly one limit per pod, in the order in which the pods are ranged over.
    In each direction the share of a guaranteed pod is its request, that of a
    burstable one its request times the expected rate but at most its own
    limit, that of a best-effort one the expected rate divided by the number
    of pods; a share below the administrator's minimum is raised to it; and
    what is sent is this many MiB in bytes per second, with operations of
    32 KiB, for a group of type best-effort, and else these bytes divided by
    the ratio of the pod's translated to its raw request (an empty text when
    the raw request or the ratio is zero), with the raw request's operations
    in the same proportion.  The group is unchanged but for the limits it
    shows. *)
Theorem limits_by_class mins w p expect request dev idx :
  group_ok w → 0 <= idx <= 2 → Select_method p = "All" →
  Compress_method p = "CALC_REQUEST_RATIO" → DevType dev = "DISK" →
  amount (InBps expect) → amount (OutBps expect) →
  ∃ w' msgs, SetLimit mins w (Some p) expect request dev idx = Ok (w', msgs) ∧ same_group w w' ∧
    Forall2 (limit_sent mins w expect dev idx) (range (RequestPods w)).*1 msgs.
Proof. apply SetLimit_sends. Qed.
End LimitFacts.

(** ** What SetLimit changes *)

Definition no_stop {A} (o : outcome A) : Prop := spares (λ _, True) o.

Lemma no_stop_bind {A B} (m : outcome A) (f : A → outcome B) :
  no_stop m → (∀ a, no_stop (f a)) → no_stop (obind m f).
Proof. intros Hm Hf. eapply spares_bind; [exact Hm |]. intros a _. apply Hf. Qed.
Lemma no_stop_foldM {A B} (f : B → A → outcome B) acc l :
  (∀ b x, no_stop (f b x)) → no_stop (foldM f acc l).
Proof. intros Hf. apply spares_foldM; [done |]. intros b x _. apply Hf. Qed.
Lemma no_stop_deref {A} (p : option A) : no_stop (deref p).
Proof. apply spares_deref. Qed.
Lemma no_stop_index {A} (l : list A) i : no_stop (index l i).
Proof. unfold index. destruct (i <? 0); [done |]. by destruct (l !! _). Qed.

Ltac no_stops :=
  repeat first
    [ progress intros
    | progress (repeat match goal with x : _ * _ |- _ => destruct x end)
    | match goal with
      | |- no_stop (Ok _) => exact I
      | |- no_stop (Crash _) => reflexivity
      | |- no_stop (obind _ _) => apply no_stop_bind
      | |- no_stop (foldM _ _ _) => apply no_stop_foldM
      | |- no_stop (deref _) => apply no_stop_deref
      | |- no_stop (index _ _) => apply no_stop_index
      | |- no_stop (match ?x with _ => _ end) => destruct x
      end ].

Section NoStop.
Context `{!GoRange}.

Lemma no_stop_CalculateGroupBw m : no_stop (CalculateGroupBw m).
Proof. unfold CalculateGroupBw. no_stops. Qed.
Lemma no_stop_SelectPods rp bps p lim req l : no_stop (SelectPods rp bps p lim req l).
Proof. unfold SelectPods. no_stops. Qed.
Lemma no_stop_CompressPods p rp n idx : no_stop (CompressPods p rp n idx).
Proof. unfold CompressPods. no_stops. Qed.
Lemma no_stop_disk_limit min t bps iops raw tran b :
  no_stop raw → no_stop tran → no_stop (disk_limit min t bps iops raw tran b).
Proof. intros. unfold disk_limit. no_stops; done. Qed.
(** *** Limits: what they change *)

Definition is_limit (m : service_msg) : Prop :=
  match m with SetAppLimit _ _ _ => True | _ => False end.

Lemma compose_pod_limits mins w r o dev idx acc po :
  Forall is_limit acc.2 →
  spares (λ acc', Forall is_limit acc'.2) (compose_pod mins w r o dev idx acc po).
Proof.
  intros Hacc. unfold compose_pod. destruct acc as [wl msgs]. simpl in Hacc.
  eapply (spares_bind (λ acc', Forall is_limit acc'.2)).
  - destruct (String.eqb _ _); [| done]. eapply (spares_bind (λ m, is_limit m.1)).
    + unfold IOISetLimitDisk. eapply (spares_bind (λ _, True)).
      { by destruct (str_split _ _) as [| ? [|]]. }
      intros podId _.
      do 2 (eapply (spares_bind (λ _, True));
            [apply no_stop_disk_limit; apply no_stop_deref | intros [[? ?] ?] _]). done.
    + intros [m wl'] Hm. simpl in *. apply Forall_app_2; [done | by constructor].
  - intros [wl' msgs'] Hm. simpl in *. destruct (String.eqb _ _); [| done].
    apply Forall_app_2; [done | by constructor].
Qed.

Lemma SetLimit_limits mins w p e req dev idx :
  spares (λ r, same_group w r.1 ∧ Forall is_limit r.2) (SetLimit mins w p e req dev idx).
Proof.
  unfold SetLimit. do 2 (eapply spares_bind; [apply no_stop_SelectPods | intros ? _]).
  do 2 (eapply spares_bind; [apply no_stop_CompressPods | intros ? _]).
  unfold ComposeLimitData. eapply (spares_bind (λ acc, Forall is_limit acc.2)).
  - apply spares_foldM; [| intros; by apply compose_pod_limits]. simpl.
    destruct (_ && _); [by constructor | done].
  - intros [wl msgs] Hm. split; [| done]. by eexists _, _.
Qed.

Lemma set_limits_limits mins pols dev idx e gs :
  spares (λ r, Forall2 same_group gs r.1 ∧ Forall is_limit r.2) (set_limits mins pols dev idx e gs).
Proof.
  revert idx e. induction gs as [| w gs IH]; intros idx e; simpl; [done |].
  eapply spares_bind; [apply no_stop_CalculateGroupBw | intros req _].
  eapply spares_bind; [apply no_stop_index | intros pol _].
  eapply spares_bind; [apply SetLimit_limits |]. intros [w' msgs] [Hw Hm].
  eapply spares_bind; [apply IH |]. intros [gs' msgs'] [Hgs Hm']. simpl in *.
  split; [by constructor | by apply Forall_app_2].
Qed.
End NoStop.
