(* ===== verification/DiskSafety.v ===== *)
(** * The disk engine of the node agent

    The engine's event functions reach the embedded engine only through
    SetFlag, so that no event is lost; and they do not panic on well-formed
    events. *)

From S2P Require Export AgentDisk AgentFacts LimitFacts.

(** ** The embedded engine *)

Section Frame.
Context `{Q : QuantityLib} `{!GoSort} `{!GoRange} `{!AgentLib}.
Context {K C : Type} `{!StaticClient K} `{!AggrClient C}.
Implicit Types (d : Disk K C).

Lemma no_stop_disk_report info a : no_stop (disk_report info a).
Proof. unfold disk_report. no_stops. Qed.

(** Only limits are set: the pods, their operations and the disks stay, and
    the service is sent limits only. *)
Record relimit d d' : Prop := mkRelimit {
  rl_eng : dk_eng d' = dk_eng d;
  rl_regs : podRegInfos d' = podRegInfos d;
  rl_infos : DiskInfos d' = DiskInfos d;
  rl_policy : GpPolicy d' = GpPolicy d;
  rl_msgs : ∃ l, ClientHandlerChan d' = ClientHandlerChan d ++ l ∧ Forall is_limit l;
  rl_groups : ∀ k, option_Forall2 (Forall2 same_group) (WgDevices d !! k) (WgDevices d' !! k)
}.
#[local] Instance relimit_preorder : PreOrder relimit.
Proof.
  split.
  - intros d. split; [done.. | exists []; by rewrite app_nil_r | reflexivity].
  - intros d1 d2 d3 [E1 R1 I1 P1 (l1 & M1 & L1) G1] [E2 R2 I2 P2 (l2 & M2 & L2) G2].
    split; [congruence.. | |].
    + exists (l1 ++ l2). rewrite M2, M1, app_assoc. by split; [| apply Forall_app_2].
    + intros k. etrans; [apply G1 | apply G2].
Qed.

(** A computation that leaves the embedded engine alone. *)
Definition same_eng (d : Disk K C) : outcome (Disk K C) → Prop :=
  spares (λ d', dk_eng d' = dk_eng d).

Lemma same_eng_foldM {X} (f : Disk K C → X → outcome (Disk K C)) d l :
  (∀ d x, same_eng d (f d x)) → same_eng d (foldM f d l).
Proof.
  intros Hf. apply spares_foldM; [done |]. intros b x Hb. eapply spares_weaken; [| apply Hf].
  simpl. congruence.
Qed.

Lemma calDiskAllocatable_relimit k d : spares (λ r, relimit d r.2) (calDiskAllocatable k d).
Proof.
  unfold calDiskAllocatable. destruct (DiskInfos d !! k); [| simpl; reflexivity].
  destruct (WgDevices d !! k) as [gs |] eqn:Eg; [| simpl; reflexivity].
  repeat (eapply spares_bind; [first [apply no_stop_index | apply no_stop_CalculateGroupBw] | intros ? _]).
  eapply spares_bind; [apply set_limits_limits |]. intros [gs' msgs] [Hgs Hm]. simpl in *.
  split; [done.. | by exists msgs |]. intros k'. simpl. rewrite lookup_insert.
  case_decide; subst; [rewrite Eg; by constructor | reflexivity].
Qed.

Lemma updateLocal_relimit d : spares (λ r, relimit d r.1) (updateLocalNodeDiskStatusIOInfo d).
Proof.
  unfold updateLocalNodeDiskStatusIOInfo. eapply (spares_bind (λ r, relimit d r.2)).
  - apply spares_foldM; [reflexivity |]. intros [bw d1] kv Hd1. simpl in Hd1.
    eapply spares_bind; [apply calDiskAllocatable_relimit |]. intros [[a |] d2] Hd2; simpl in *; [| done].
    eapply spares_bind; [apply no_stop_disk_report |]. intros r _. simpl. by etrans.
  - intros [bw d1] Hd1. destruct (agent_UpdateNodeIOStatus _ _ _ _ _). simpl in *.
    destruct Hd1 as [? ? ? ? ? ?]. by split.
Qed.

Lemma register_pod_same d kv : same_eng d (register_pod d kv).
Proof.
  unfold register_pod. destruct kv as [podId p]. destruct (String.eqb _ _); [done |].
  destruct (_ =? 0)%nat; [done |]. destruct (_ =? 0); [done |].
  eapply spares_bind; [apply updateLocal_relimit |]. intros [d1 e] Hd1%rl_eng. simpl in *.
  destruct (_ =? StopPod), (_ =? RunPod); exact Hd1.
Qed.
Lemma RegisterPod_same d : same_eng d (RegisterPod d).
Proof. apply same_eng_foldM, register_pod_same. Qed.

Lemma foldl_same {X} (f : Disk K C → X → Disk K C) d l :
  (∀ d x, dk_eng (f d x) = dk_eng d) → dk_eng (foldl f d l) = dk_eng d.
Proof. intros Hf. revert d. induction l as [| x l IH]; intros d; simpl; [done |]. by rewrite IH. Qed.

Lemma ProcessNriData_same p d : same_eng d (ProcessNriData p d).
Proof.
  unfold ProcessNriData. eapply spares_weaken; [| apply RegisterPod_same]. intros d1 ->.
  apply foldl_same. intros d2 [podId i]. by case_decide.
Qed.

Lemma ProcessDiskIOData_same p d : same_eng d (ProcessDiskIOData p d).
Proof.
  apply same_eng_foldM. intros d1 [k ev].
  eapply (spares_bind (λ d', dk_eng d' = dk_eng d1)).
  - apply same_eng_foldM. intros d2 kv. eapply spares_bind; [apply no_stop_deref |]. done.
  - intros d2 Hd2. eapply spares_bind; [apply calDiskAllocatable_relimit |].
    intros [a d3] Hd3%rl_eng. simpl in *. congruence.
Qed.

Lemma cr_pod_same k (acc : Disk K C * gset string) kv : spares (λ r, dk_eng r.1 = dk_eng acc.1) (cr_pod k acc kv).
Proof.
  unfold cr_pod. destruct acc as [d v], kv as [podId i]. destruct (String.eqb _ _); [done |].
  eapply spares_bind; [apply no_stop_index |]. done.
Qed.

Lemma ProcessDiskCrData_same p d : same_eng d (ProcessDiskCrData p d).
Proof.
  unfold ProcessDiskCrData. eapply (spares_bind (λ r, dk_eng r.1 = dk_eng d)).
  - apply spares_foldM; [done |]. intros acc kv Hacc. destruct (WgDevices acc.1 !! kv.1); [| done].
    apply spares_foldM; [done |]. intros acc' kv' Hacc'. eapply spares_weaken; [| apply cr_pod_same].
    simpl. congruence.
  - intros [d1 v] Hd1. eapply (spares_bind (λ _, True)).
    + apply no_stop_foldM. intros b x. apply no_stop_bind; [| done]. unfold clean_groups.
      by destruct (_ <? 3)%nat.
    + intros wgs _. eapply spares_weaken; [| apply RegisterPod_same]. intros d2. simpl in *. congruence.
Qed.

(** *** What SetFlag keeps, the event functions keep *)

Lemma publish_config_same d : dk_eng (publish_config d).1 = dk_eng d.
Proof.
  unfold publish_config. destruct (IsExecution _); [| done].
  by destruct (UpdateNodeStaticIOInfo _ _ _).
Qed.

Lemma put_state_same did st d : same_eng d (put_state did st d).
Proof. unfold put_state. by destruct (states_made d). Qed.

Lemma UpdateProfileDiskState_same d : same_eng d (UpdateProfileDiskState d).
Proof.
  apply same_eng_foldM. intros d1 [did st]. eapply spares_bind; [apply put_state_same |].
  intros d2 Hd2. simpl in *. by destruct (String.eqb _ _).
Qed.

Lemma LoadDiskInfo_same cr d : dk_eng (LoadDiskInfo cr d) = dk_eng d.
Proof. apply foldl_same. intros d1 [did st]. by repeat destruct (String.eqb _ _). Qed.

Lemma MustParse_no_stop s : no_stop (MustParse s).
Proof. unfold MustParse. by destruct (ParseQuantity s). Qed.
Lemma profile_disk_no_stop d i : no_stop (profile_disk d i).
Proof.
  unfold profile_disk. apply no_stop_bind; [| done].
  destruct (String.eqb _ _); [| done]. apply no_stop_bind; [apply MustParse_no_stop | done].
Qed.

Abbreviation dkeeps := (keeps (S := Disk K C) dk_eng).

(** After its own work, an event function sets a flag and publishes. *)
Lemma set_and_publish (I : IOEngine disk_handler → Prop) (sf : Z → GoM (Disk K C) ()) flag d :
  (∀ flag d, flag ∈ flags → I (dk_eng d) → dkeeps I (sf flag d)) →
  flag ∈ flags → I (dk_eng d) →
  dkeeps I (let! '(_, d) := sf flag d in let '(d, err) := publish_config d in Ok (err, d)).
Proof.
  intros Hsf Hf HI. eapply spares_bind; [by apply Hsf |]. intros [u d1] Hd1. simpl in *.
  pose proof (publish_config_same d1) as E. destruct (publish_config d1) as [d2 err].
  simpl in *. by rewrite E.
Qed.

Lemma ProcessAdmin_keeps I (sf : Z → GoM (Disk K C) ()) a d :
  (∀ flag d, flag ∈ flags → I (dk_eng d) → dkeeps I (sf flag d)) →
  I (dk_eng d) → dkeeps I (ProcessAdmin sf a d).
Proof.
  intros Hsf HI. unfold ProcessAdmin. apply set_and_publish; [done | set_solver |].
  destruct (InitFlag a && _); [| done]. destruct (GetDiskStaticCR _); [| done].
  simpl. by rewrite LoadDiskInfo_same.
Qed.

Lemma ProcessProfile_keeps I (sf : Z → GoM (Disk K C) ()) p d :
  (∀ flag d, flag ∈ flags → I (dk_eng d) → dkeeps I (sf flag d)) →
  I (dk_eng d) → dkeeps I (ProcessProfile sf p d).
Proof.
  intros Hsf HI. unfold ProcessProfile. destruct (_ || _); [| done]. eapply (spares_bind (λ _, True)).
  - apply no_stop_foldM. intros [[devices infos] wgs] kv.
    apply no_stop_bind; [apply profile_disk_no_stop |]. by intros [info dev].
  - intros [[devices infos] wgs] _. eapply spares_bind; [apply UpdateProfileDiskState_same |].
    intros d1 Hd1. apply set_and_publish; [done | set_solver |]. by rewrite Hd1.
Qed.

Lemma ProcessPolicy_keeps I (sf : Z → GoM (Disk K C) ()) p d :
  (∀ flag d, flag ∈ flags → I (dk_eng d) → dkeeps I (sf flag d)) →
  I (dk_eng d) → dkeeps I (ProcessPolicy sf p d).
Proof.
  intros Hsf HI. unfold ProcessPolicy.
  destruct (p !! "DiskGArules"), (p !! "DiskBTrules"), (p !! "DiskBErules"); try done.
  apply set_and_publish; [done | set_solver | done].
Qed.

#[export] Instance disk_Handlers : Handlers (S := Disk K C) dk_eng set_dk_eng run_disk.
Proof.
  split; [done |]. intros I sf Hsf h dt d HI.
  assert (Hd : ∀ o, same_eng d o → dkeeps I (let! d := o in Ok (None (A := error), d))).
  { intros o Ho. eapply spares_bind; [exact Ho |]. intros d1 Hd1. simpl in *. by rewrite Hd1. }
  destruct h, dt; try reflexivity; simpl;
    auto using ProcessAdmin_keeps, ProcessProfile_keeps, ProcessPolicy_keeps,
      ProcessNriData_same, ProcessDiskIOData_same, ProcessDiskCrData_same.
Qed.
End Frame.


(** Every object of a node that the API server shows has device states. *)
Class StatesServed (K : Type) `{!StaticClient K} : Prop :=
  states_served : ∀ (k : K) name cr, static_get k name = inl cr → DeviceStates cr ≠ ∅.

Section Safety.
Context `{Q : QuantityLib} `{!GoSort} `{!GoRange} `{!AgentLib}.
Context {K C : Type} `{!StaticClient K} `{!AggrClient C} `{!StatesServed K}.
Implicit Types (d : Disk K C).

(** ** The invariant *)

(** Every known disk has its three groups, all well-formed, every profiled
    disk is known, and the map of device states is there. *)
Record disk_ok d : Prop := mkDiskOk {
  ok_groups : map_Forall (λ _, groups_ok) (WgDevices d);
  ok_infos : ∀ k i, DiskInfos d !! k = Some i → is_Some (WgDevices d !! k);
  ok_policies : length (GpPolicy d) = 3%nat;
  ok_made : states_made d = true
}.
Definition policies_set d : Prop := Forall is_Some (GpPolicy d).
(** Once PolicyFlag is set, the three policies are there. *)
Definition flag_pre (flag : Z) d : Prop := flag = PolicyFlag → policies_set d.

(** A step that keeps the invariant, the policies, the disks and the engine. *)
Record regroup d d' : Prop := mkRegroup {
  re_eng : dk_eng d' = dk_eng d;
  re_policy : GpPolicy d' = GpPolicy d;
  re_infos : DiskInfos d' = DiskInfos d;
  re_ok : disk_ok d'
}.

Lemma regroup_refl d : disk_ok d → regroup d d.
Proof. by split. Qed.
Lemma regroup_trans d1 d2 d3 : regroup d1 d2 → regroup d2 d3 → regroup d1 d3.
Proof. intros [? ? ? ?] [? ? ? ?]. split; congruence || done. Qed.
Lemma regroup_policies d d' : regroup d d' → policies_set d → policies_set d'.
Proof. intros [_ E _ _]. unfold policies_set. by rewrite E. Qed.

(** ** Limits and reports *)

Lemma set_groups_regroup d k gs msgs :
  disk_ok d → groups_ok gs → regroup d (send msgs (set_WgDevices (<[k := gs]> (WgDevices d)) d)).
Proof.
  intros [Hg Hi Hp Hm] Hgs. split; [done.. |]. split; simpl; [by apply map_Forall_insert_2 | | done | done].
  intros k' i E. rewrite lookup_insert. case_decide; eauto.
Qed.

#[local] Arguments set_limits : simpl never.
#[local] Arguments CalculateGroupBw : simpl never.

Lemma calDiskAllocatable_ok k d :
  disk_ok d → policies_set d →
  ∃ a d', calDiskAllocatable k d = Ok (a, d') ∧ regroup d d' ∧
    (is_Some (DiskInfos d !! k) → ∃ r1 r2 r3 w1 w2 w3 t1 t2 t3,
       a = Some (mkAlloc3 [r1; r2; r3] [w1; w2; w3] [t1; t2; t3])).
Proof.
  intros Hd Hp. unfold calDiskAllocatable. destruct (DiskInfos d !! k) as [info |] eqn:Ei.
  2: { eexists _, _. split; [done |]. split; [by apply regroup_refl |]. by intros [? ?]. }
  destruct (ok_infos _ Hd _ _ Ei) as [gs Eg]. rewrite Eg.
  pose proof (ok_groups _ Hd _ _ Eg) as Hgs. destruct Hgs as [Hlen Hok].
  destruct gs as [| g0 [| g1 [| g2 [|]]]]; try done. simpl.
  rewrite !Forall_cons in Hok. destruct Hok as (H0' & H1' & H2' & _).
  change (index [g0; g1; g2] GaIndex) with (Ok g0). change (index [g0; g1; g2] BtIndex) with (Ok g1).
  change (index [g0; g1; g2] BeIndex) with (Ok g2). simpl.
  destruct (CalculateGroupBw_ok _ (ok_requests _ H0')) as [ga ->]. simpl.
  destruct (CalculateGroupBw_ok _ (ok_requests _ H1')) as [bt ->]. simpl.
  destruct (CalculateGroupBw_ok _ (ok_actual _ H1')) as [act ->]. simpl.
  assert (Hall : Forall group_ok [g0; g1; g2]) by (by rewrite !Forall_cons).
  match goal with |- context [obind (set_limits ?m ?p ?dev 0 ?e ?l) _] =>
    destruct (set_limits_ok m p dev 0 e l) as (gs' & msgs & -> & HF) end;
    [apply (ok_policies _ Hd) | done | by eapply Forall_impl, group_ok_base | done |].
  simpl. eexists _, _. split; [done |]. split; [| by eauto 10].
  apply set_groups_regroup; [done |]. eapply same_groups_ok; [exact HF |].
  by split.
Qed.

Lemma updateLocal_ok d :
  disk_ok d → policies_set d →
  ∃ d' e, updateLocalNodeDiskStatusIOInfo d = Ok (d', e) ∧ regroup d d'.
Proof.
  intros Hd Hp. unfold updateLocalNodeDiskStatusIOInfo.
  match goal with |- context [foldM ?f ?a ?l] =>
    destruct (foldM_total f (λ acc, regroup d acc.2) a l) as ([bw d1] & -> & Hd1) end.
  - intros [bw d1] [k i] Hin Hd1. simpl in Hd1. apply elem_of_range in Hin.
    destruct (calDiskAllocatable_ok k d1) as (a & d2 & E & Hd2 & Ha);
      [apply Hd1 | by eapply regroup_policies |]. simpl. rewrite E. simpl.
    destruct Ha as (r1 & r2 & r3 & w1 & w2 & w3 & t1 & t2 & t3 & ->).
    { rewrite (re_infos _ _ Hd1), Hin. eauto. }
    eexists. split; [reflexivity |]. by eapply regroup_trans.
  - by apply regroup_refl.
  - simpl in *. destruct (agent_UpdateNodeIOStatus _ _ _ _ _) as [c e]. eexists _, _.
    split; [done |]. destruct Hd1 as [? ? ? [? ? ? ?]]. by split.
Qed.

(** ** Registration *)

Lemma clear_pod_ok podId w : group_ok w → group_ok (clear_pod podId w).
Proof.
  intros [Ht Hn Hr Hl Ha Hraw]. split; simpl; auto with ioi; [by apply map_Forall_delete |].
  intros po v. rewrite !lookup_delete_Some. intros [Hne E].
  destruct (Hraw po v E) as [r ?]. exists r. by rewrite lookup_delete_Some.
Qed.

Lemma register_pod_ok d kv :
  disk_ok d → policies_set d → ∃ d', register_pod d kv = Ok d' ∧ regroup d d'.
Proof.
  intros Hd Hp. unfold register_pod. destruct kv as [podId p].
  destruct (String.eqb _ _); [by eauto using regroup_refl |].
  destruct (_ =? 0)%nat; [by eauto using regroup_refl |].
  destruct (_ =? 0); [by eauto using regroup_refl |].
  match goal with |- context [updateLocalNodeDiskStatusIOInfo ?x] => set (d1 := x) end.
  assert (Hd1 : regroup d d1).
  { destruct Hd as [Hg Hi Hl Hm]. subst d1. destruct (_ =? RunPod), (_ =? StopPod);
      (split; [done.. |]; split; simpl; [| | done | done]);
      try (intros k i E; rewrite ?lookup_fmap; by rewrite ?fmap_is_Some; eauto); try done;
      intros k gs; rewrite lookup_fmap; intros (gs0 & E & ->)%fmap_Some;
      apply map_groups_ok; eauto using clear_pod_ok. }
  destruct (updateLocal_ok d1) as (d2 & e & -> & Hd2); [apply Hd1 | by eapply regroup_policies |].
  simpl. eexists. split; [done |]. by eapply regroup_trans.
Qed.

Lemma RegisterPod_ok d : disk_ok d → policies_set d → ∃ d', RegisterPod d = Ok d' ∧ regroup d d'.
Proof.
  intros Hd Hp. apply (foldM_total register_pod (regroup d)); [| by apply regroup_refl].
  intros d1 kv _ Hd1. destruct (register_pod_ok d1 kv) as (d2 & -> & Hd2);
    [apply Hd1 | by eapply regroup_policies |]. eexists. split; [done |]. by eapply regroup_trans.
Qed.

(** ** Events of pods *)

Lemma podRegInfos_regroup d v : disk_ok d → regroup d (set_podRegInfos v d).
Proof. intros [? ? ? ?]. by split. Qed.

Lemma ProcessNriData_ok p d :
  disk_ok d → policies_set d → ∃ d', ProcessNriData p d = Ok d' ∧ regroup d d'.
Proof.
  intros Hd Hp. unfold ProcessNriData. match goal with |- context [RegisterPod ?x] => set (d1 := x) end.
  assert (Hd1 : regroup d d1).
  { subst d1. apply foldl_inv; [by apply regroup_refl |]. intros d1 [podId i] _ Hd1.
    case_decide; [done |]. eapply regroup_trans; [done |]. apply podRegInfos_regroup, Hd1. }
  destruct (RegisterPod_ok d1) as (d2 & -> & Hd2); [apply Hd1 | by eapply regroup_policies |].
  eexists. split; [done |]. by eapply regroup_trans.
Qed.

Lemma alter_groups_regroup d k (f : WorkloadGroup → WorkloadGroup) :
  (∀ w, group_ok w → group_ok (f w)) → disk_ok d →
  regroup d (set_WgDevices (alter (map f) k (WgDevices d)) d).
Proof.
  intros Hf [Hg Hi Hp Hm]. split; [done.. |]. split; simpl; [| | done | done].
  - intros k' gs. rewrite lookup_alter. case_decide; [| by apply Hg].
    intros (gs0 & E & ->)%fmap_Some. subst. apply map_groups_ok; eauto.
  - intros k' i E. rewrite lookup_alter. case_decide; subst; [rewrite fmap_is_Some |]; eauto.
Qed.

Lemma ProcessDiskIOData_ok p d :
  measured_ok p → disk_ok d → policies_set d → ∃ d', ProcessDiskIOData p d = Ok d' ∧ regroup d d'.
Proof.
  intros Hm Hd Hp. apply (foldM_total _ (regroup d)); [| by apply regroup_refl].
  intros d1 [k ev] Hin Hd1. apply elem_of_range in Hin.
  match goal with |- context [foldM ?f d1 ?l] =>
    destruct (foldM_total f (regroup d) d1 l) as (d2 & -> & Hd2); [| done |] end.
  - intros d2 [uid i] Hi Hd2. apply elem_of_range in Hi. simpl in Hi. pose proof (Hm _ _ Hin _ _ Hi) as Ha.
    simpl in Ha |- *. destruct Ha as [a ->]. simpl. eexists. split; [done |].
    eapply regroup_trans; [done |]. apply alter_groups_regroup; [| apply Hd2].
    intros w. apply set_actual_ok. eauto.
  - simpl. destruct (calDiskAllocatable_ok k d2) as (a & d3 & -> & Hd3 & _);
      [apply Hd2 | by eapply regroup_policies |]. simpl. eexists. split; [done |].
    by eapply regroup_trans.
Qed.

Lemma set_pod_ok podId i w : run_info_ok podId i → group_ok w → group_ok (set_pod podId i w).
Proof.
  intros [Ht Hu Hr Hl Hraw] [_ Hn Hreq Hlim Hact Hraws]. split; simpl; auto with ioi.
  - by apply map_Forall_insert_2.
  - intros po v. rewrite !lookup_insert. repeat case_decide; subst; eauto.
    destruct Hraw as [r ->]. eauto.
Qed.

Lemma cr_pod_ok k (acc : Disk K C * gset string) uid i :
  (ri_PodName i ≠ "" → run_info_ok uid i) → is_Some (WgDevices acc.1 !! k) → disk_ok acc.1 →
  ∃ acc', cr_pod k acc (uid, i) = Ok acc' ∧ regroup acc.1 acc'.1 ∧ is_Some (WgDevices acc'.1 !! k).
Proof.
  intros Hi [gs Eg] Hd. destruct acc as [d visited]. unfold cr_pod. simpl in *.
  destruct (String.eqb_spec (ri_PodName i) "") as [| Hne].
  { eexists. split; [done |]. split; [by apply regroup_refl | by exists gs]. }
  specialize (Hi Hne). rewrite Eg. simpl. pose proof (ok_groups _ Hd _ _ Eg) as [Hl Hok].
  pose proof (run_type _ _ Hi). destruct (index_ok gs (ri_WorkloadType i)) as (w & -> & Ew); [lia |].
  simpl. eexists. split; [done |]. simpl. rewrite lookup_insert_eq. split; [| by eauto].
  assert (Hgs : groups_ok (<[Z.to_nat (ri_WorkloadType i) := set_pod uid i w]> gs)).
  { split; [by rewrite length_insert |]. apply Forall_insert; [done |]. apply set_pod_ok; [done |].
    rewrite Forall_lookup in Hok. eauto. }
  destruct (set_groups_regroup d k _ [] Hd Hgs) as [? ? ? [? ? ? ?]]. by split.
Qed.

Lemma clean_all_ok d visited :
  disk_ok d →
  ∃ wgs, foldM (λ m kv, let! groups := clean_groups visited kv.2 in Ok (<[kv.1 := groups]> m))
           (WgDevices d) (range (WgDevices d)) = Ok wgs ∧ regroup d (set_WgDevices wgs d).
Proof.
  intros Hd. apply (foldM_total _ (λ wgs, regroup d (set_WgDevices wgs d))).
  - intros m [k gs] Hin Hm. apply elem_of_range in Hin. simpl.
    destruct (clean_groups_ok visited gs (ok_groups _ Hd _ _ Hin)) as (gs' & -> & Hgs'). simpl.
    eexists. split; [done |].
    destruct (set_groups_regroup _ k gs' [] (re_ok _ _ Hm) Hgs') as [? ? ? [? ? ? ?]]. by split.
  - destruct Hd as [? ? ? ?]. by split.
Qed.

Lemma ProcessDiskCrData_ok p d :
  cr_ok p → disk_ok d → policies_set d → ∃ d', ProcessDiskCrData p d = Ok d' ∧ regroup d d'.
Proof.
  intros Hcr Hd Hp. unfold ProcessDiskCrData.
  set (d0 := set_DiskObservedGeneration (pdata_Generation p) d).
  assert (Hd0 : regroup d d0) by (destruct Hd; by split).
  match goal with |- context [foldM ?f (d0, ∅) ?l] =>
    destruct (foldM_total f (λ acc, regroup d acc.1) (d0, ∅) l) as ([d1 visited] & -> & Hd1);
      [| done |] end.
  - intros acc [k ev] Hin Hacc. apply elem_of_range in Hin. simpl.
    destruct (WgDevices acc.1 !! k) as [gs |] eqn:Ek; [| by eauto].
    destruct (foldM_total (cr_pod k) (λ a, regroup d a.1 ∧ is_Some (WgDevices a.1 !! k)) acc (range ev))
      as (acc' & -> & Hacc' & _); [| by eauto | by eauto].
    intros a [uid i] Hi [Ha Hk]. apply elem_of_range in Hi.
    destruct (cr_pod_ok k a uid i) as (a' & -> & Ha' & Hk'); [| done | apply Ha |].
    + by apply (Hcr _ _ Hin).
    + eexists. split; [done |]. split; [by eapply regroup_trans | done].
  - simpl. destruct (clean_all_ok d1 visited) as (wgs & -> & Hd2); [apply Hd1 |]. simpl.
    match goal with |- context [RegisterPod ?x] => set (d3 := x) end.
    assert (Hd3 : regroup d d3).
    { eapply regroup_trans; [exact Hd1 |]. eapply regroup_trans; [exact Hd2 |].
      apply podRegInfos_regroup, Hd2. }
    destruct (RegisterPod_ok d3) as (d4 & -> & Hd4); [apply Hd3 | by eapply regroup_policies |].
    eexists. split; [done |]. by eapply regroup_trans.
Qed.

(** ** The event functions *)

Definition profile_ok (p : AllProfile) : Prop :=
  map_Forall (λ _ i, ad_Type i = EmptyDir → ∃ q, ParseQuantity (ad_Capacity i) = inl q) (DProfile p).
Definition event_ok (x : EventData * disk_handler) : Prop :=
  match x.2, x.1 with
  | ProcessAdmin_f, EvAdmin _ | ProcessPolicy_f, EvPolicy _ | ProcessNriData_f, EvPod _ => True
  | ProcessProfile_f, EvProfile p => profile_ok p
  | ProcessDiskIOData_f, EvPod p => measured_ok p
  | ProcessDiskCrData_f, EvPod p => cr_ok p
  | _, _ => False
  end.

Abbreviation dinv := (inv (S := Disk K C) dk_eng disk_ok flag_pre event_ok).
Abbreviation dkeeps_inv := (keeps_inv (S := Disk K C) dk_eng disk_ok flag_pre event_ok).

Lemma regroup_inv n d d' : regroup d d' → dinv n d → dinv n d'.
Proof.
  intros [Ee Ep _ Hok] [HJ Hf Hu Hc]. split; rewrite ?Ee; try done.
  intros flag Hin E Hfl. unfold policies_set. rewrite Ep. by apply (Hf flag).
Qed.

(** Raising a flag, then publishing. *)
Lemma publish_regroup d : disk_ok d → regroup d (publish_config d).1.
Proof.
  intros [? ? ? ?]. unfold publish_config. destruct (IsExecution _); [| by split].
  destruct (UpdateNodeStaticIOInfo _ _ _). by split.
Qed.
Lemma set_and_publish_safe n (sf : Z → GoM (Disk K C) ()) flag d :
  dkeeps_inv n sf → flag ∈ flags → dinv n d → flag_pre flag d →
  safe (dinv n) (let! '(_, d) := sf flag d in let '(d, err) := publish_config d in Ok (err, d)).
Proof.
  intros Hsf Hf Hd Hp. destruct (Hsf flag d Hf Hd Hp) as (d1 & -> & Hd1). simpl.
  pose proof (publish_regroup d1 (inv_state _ _ _ _ _ _ Hd1)) as E.
  destruct (publish_config d1) as [d2 err]. eexists _, _. split; [done |]. by eapply regroup_inv.
Qed.

Lemma foldl_regroup {X} (f : Disk K C → X → Disk K C) d l :
  (∀ d x, disk_ok d → regroup d (f d x)) → disk_ok d → regroup d (foldl f d l).
Proof.
  intros Hf Hd. apply foldl_inv; [by apply regroup_refl |]. intros d1 x _ Hd1.
  eapply regroup_trans; [exact Hd1 |]. apply Hf, Hd1.
Qed.

Lemma ProcessAdmin_safe n (sf : Z → GoM (Disk K C) ()) a d :
  dkeeps_inv n sf → dinv n d → safe (dinv n) (ProcessAdmin sf a d).
Proof.
  intros Hsf Hd. unfold ProcessAdmin. apply set_and_publish_safe; [done | set_solver | | done].
  eapply regroup_inv; [| exact Hd]. apply inv_state in Hd.
  match goal with |- context [GetDiskStaticCR ?x] => set (d0 := x) end.
  assert (Hd0 : regroup d d0) by (destruct Hd; by split).
  destruct (InitFlag a && _); [| done].
  destruct (GetDiskStaticCR d0) as [cr |] eqn:Ecr; [| destruct Hd0 as [? ? ? [? ? ? ?]]; by split].
  assert (Hl : regroup d (LoadDiskInfo cr d0)).
  { eapply regroup_trans; [exact Hd0 |]. apply foldl_regroup; [| apply Hd0].
    intros d1 [did st] [? ? ? ?]. by repeat destruct (String.eqb _ _). }
  assert (Hm : negb (size (DeviceStates cr) =? 0)%nat = true).
  { apply negb_true_iff, Nat.eqb_neq, map_size_non_empty_iff.
    unfold GetDiskStaticCR in Ecr. destruct (static_get _ _) as [cr' |] eqn:Eg; [| done].
    destruct (ResourceConfig cr' !! _); [| done]. injection Ecr as ->.
    by eapply states_served. }
  rewrite Hm. destruct Hl as [? ? ? [? ? ? ?]]. by split.
Qed.

Lemma ProcessPolicy_safe n (sf : Z → GoM (Disk K C) ()) p d :
  dkeeps_inv n sf → dinv n d → safe (dinv n) (ProcessPolicy sf p d).
Proof.
  intros Hsf Hd. unfold ProcessPolicy.
  match goal with |- context [set_GpPolicy ?x d] => set (pol := x) end.
  pose proof (inv_state _ _ _ _ _ _ Hd) as Hok. pose proof (ok_policies _ Hok) as Hlen.
  assert (Hpol : length pol = 3%nat ∧ (policies_set d → Forall is_Some pol)).
  { subst pol. unfold policies_set. destruct (p !! "DiskGArules"), (p !! "DiskBTrules"), (p !! "DiskBErules");
      (split; [by rewrite ?length_insert |]); intros HF; by repeat apply Forall_insert. }
  assert (Hd1 : dinv n (set_GpPolicy pol d)).
  { destruct Hd as [[? ? ? ?] Hf Hu Hc]. split; [| | done..].
    - split; [done | done | apply Hpol | done].
    - intros flag Hin E Hfl. apply Hpol. by apply (Hf flag). }
  destruct (p !! "DiskGArules") as [p0 |] eqn:E0, (p !! "DiskBTrules") as [p1 |] eqn:E1,
    (p !! "DiskBErules") as [p2 |] eqn:E2; try (by eexists _, _).
  apply set_and_publish_safe; [done | set_solver | done |].
  intros _. subst pol. unfold policies_set. simpl. rewrite ?E0, ?E1, ?E2.
  destruct (GpPolicy d) as [| ? [| ? [| ? [|]]]]; try done. simpl.
  repeat constructor; eauto.
Qed.

Lemma new_group_ok i : 0 <= i <= 2 → group_ok (new_group i).
Proof. intros Hi. by split; [done | intros po v; simpl; rewrite lookup_empty..]. Qed.

Lemma profile_disk_ok d i :
  (ad_Type i = EmptyDir → ∃ q, ParseQuantity (ad_Capacity i) = inl q) → ∃ r, profile_disk d i = Ok r.
Proof.
  intros Hi. unfold profile_disk. destruct (String.eqb_spec (ad_Type i) EmptyDir) as [E |]; simpl; [| by eauto].
  destruct (Hi E) as [q Eq]. unfold MustParse. rewrite Eq. simpl. eauto.
Qed.

Lemma put_state_ok did st d : disk_ok d → ∃ d', put_state did st d = Ok d' ∧ regroup d d'.
Proof.
  intros Hd. unfold put_state. rewrite (ok_made _ Hd). eexists. split; [done |].
  destruct Hd. by split.
Qed.

#[local] Arguments put_state : simpl never.

Lemma UpdateProfileDiskState_ok d :
  disk_ok d → ∃ d', UpdateProfileDiskState d = Ok d' ∧ regroup d d'.
Proof.
  intros Hd. apply (foldM_total _ (regroup d)); [| by apply regroup_refl].
  intros d1 [did st] _ Hd1. simpl.
  destruct (put_state_ok did (profiled_state (default EmptyString (diskName d1 !! did)) st
              (DeviceStates (IOInfo d1) !! did)) d1 (re_ok _ _ Hd1)) as (d2 & -> & Hd2). simpl.
  eexists. split; [done |]. eapply regroup_trans; [exact Hd1 |].
  destruct Hd2 as [? ? ? [? ? ? ?]]. destruct (String.eqb _ _); by split.
Qed.

Lemma ProcessProfile_safe n (sf : Z → GoM (Disk K C) ()) p d :
  profile_ok p → dkeeps_inv n sf → dinv n d → safe (dinv n) (ProcessProfile sf p d).
Proof.
  intros Hp Hsf Hd. unfold ProcessProfile. destruct (_ || _); [| by eexists _, _].
  pose proof (inv_state _ _ _ _ _ _ Hd) as [Hg Hi Hl Hma].
  match goal with |- context [foldM ?f ?a ?l] =>
    destruct (foldM_total f (λ acc, map_Forall (λ _, groups_ok) acc.2 ∧
      ∀ k i, acc.1.2 !! k = Some i → is_Some (acc.2 !! k)) a l) as ([[devices infos] wgs] & -> & Hw & Hk);
      [| done |] end.
  - intros [[devices infos] wgs] [k i] Hin [Hw Hk]. apply elem_of_range in Hin. simpl in *.
    destruct (profile_disk_ok d i (Hp _ _ Hin)) as ([info dev] & ->). simpl. eexists. split; [done |].
    simpl. destruct (wgs !! k) as [gs |] eqn:Ek.
    + split; [done |]. intros k' i'. rewrite lookup_insert. case_decide; subst; eauto.
    + split.
      * apply map_Forall_insert_2; [| done]. split; [done |].
        simpl. rewrite !Forall_cons, Forall_nil. split_and!; try done; by apply new_group_ok.
      * intros k' i'. rewrite !lookup_insert. case_decide; subst; eauto.
  - simpl in *.
    assert (Hd1 : dinv n (set_profile (DProfile p) devices infos wgs false d)).
    { destruct Hd as [_ Hf Hu Hc]. by split. }
    destruct (UpdateProfileDiskState_ok _ (inv_state _ _ _ _ _ _ Hd1)) as (d2 & -> & Hd2). simpl.
    apply set_and_publish_safe; [done | set_solver | by eapply regroup_inv | done].
Qed.

#[export] Instance disk_SafeHandlers :
  SafeHandlers (S := Disk K C) dk_eng set_dk_eng run_disk disk_ok flag_pre event_ok.
Proof.
  split; [done | by intros e d [? ? ? ?] | done |]. intros n sf [data h] d Hsf Hx He Hd. simpl in *.
  assert (Hpol : Expect data = all_flags → policies_set d).
  { intros E. apply (inv_flags _ _ _ _ _ _ Hd PolicyFlag); [set_solver | | done].
    by apply (expects_policy _ data). }
  pose proof (inv_state _ _ _ _ _ _ Hd) as Hok.
  assert (Hdone : ∀ o, (∃ d', o = Ok d' ∧ regroup d d') →
                       safe (dinv n) (let! d := o in Ok (None (A := error), d))).
  { intros o (d' & -> & Hd'). eexists _, _. split; [done |]. by eapply regroup_inv. }
  destruct h, data; try done; simpl;
    eauto using ProcessAdmin_safe, ProcessProfile_safe, ProcessPolicy_safe, ProcessNriData_ok,
      ProcessDiskIOData_ok, ProcessDiskCrData_ok.
Qed.

(** ** The engine as a machine *)

(** What can happen to the engine: an event on one of the four channels it
    listens to, the informer's update of the node's object, and what the
    goroutines around the profiler do to its disks. *)
Inductive disk_event :=
| OnAdmin (a : AdminResourceConfig)
| OnProfile (p : AllProfile)
| OnPolicy (p : gmap string Policy)
| OnPod (p : PodData)
| OnState (old new : NodeStaticIOInfo)
| OnProfiler (DInfo : option (gmap string BlockDevice)) (disks : list string) (all_known : bool)
| OnStatus (status : gmap string Z).

Definition disk_dispatch := dispatch (S := Disk K C) dk_eng set_dk_eng run_disk.
Definition disk_step d (ev : disk_event) : outcome (Disk K C) :=
  match ev with
  | OnAdmin a => disk_dispatch AdminChan_handles (EvAdmin a) d
  | OnProfile p => disk_dispatch ProfileChan_handles (EvProfile p) d
  | OnPolicy p => disk_dispatch PolicyChan_handles (EvPolicy p) d
  | OnPod p => disk_dispatch PodInfoChan_handles (EvPod p) d
  | OnState old new => NodeDeviceStateUpdate old new d
  | OnProfiler info disks all_known => Ok (StartDiskProfiler info disks all_known d)
  | OnStatus status => Ok (StartAnalyzeDiskProfiler status d)
  end.

(** Measurements carry a measurement, scheduled pods their requests, and a
    profile a readable capacity. *)
Definition pod_ok (p : PodData) : Prop :=
  (pdata_T p = 1 → measured_ok p) ∧ (pdata_T p = 2 → cr_ok p).
Definition disk_event_ok (ev : disk_event) : Prop :=
  match ev with
  | OnProfile p => profile_ok p
  | OnPod p => pod_ok p
  | OnAdmin _ | OnPolicy _ | OnState _ _ | OnProfiler _ _ _ | OnStatus _ => True
  end.

Lemma device_change_inv old n d kv :
  dinv n d → ∃ d', device_change old d kv = Ok d' ∧ dinv n d'.
Proof.
  intros Hd. unfold device_change. destruct kv as [did st]. destruct (old !! did) as [o |]; [| by eauto].
  destruct (String.eqb _ _); [by eauto |].
  set (d1 := if _ && _ then start_profiler _ d else d).
  assert (Hd1 : dinv n d1).
  { subst d1. destruct (_ && _); [| done]. destruct Hd as [[? ? ? ?] Hf Hu Hc]. by split. }
  clearbody d1. destruct (_ && _); [| by eauto]. destruct Hd1 as [[Hg Hi Hp Hm] Hf Hu Hc].
  match goal with |- context [put_state did st ?x] => set (d2 := x) end.
  assert (Hd2 : dinv n d2).
  { assert (Hdel : ∀ k i, delete did (DiskInfos d1) !! k = Some i → is_Some (WgDevices d1 !! k)).
    { intros k i [_ E]%lookup_delete_Some. eauto. }
    subst d2. destruct (_ !! BlockIO_config); by split. }
  destruct (put_state_ok did st d2 (inv_state _ _ _ _ _ _ Hd2)) as (d3 & -> & Hd3). simpl.
  eexists. split; [done |]. eapply regroup_inv in Hd3; [| exact Hd2].
  destruct Hd3 as [[? ? ? ?] ? ? ?]. by split.
Qed.

Lemma NodeDeviceStateUpdate_inv old new n d :
  dinv n d → ∃ d', NodeDeviceStateUpdate old new d = Ok d' ∧ dinv n d'.
Proof.
  intros Hd. unfold NodeDeviceStateUpdate. destruct (_ =? _); [by eauto |].
  destruct (0 <? _)%nat; [by eauto |]. unfold ProcessDeviceStatusChange.
  apply (foldM_total _ (dinv n)); [| done]. intros d1 kv _. apply device_change_inv.
Qed.

(** The profiler's goroutines change only what is known of the disks. *)
Lemma set_states_regroup state name valid d :
  disk_ok d → regroup d (set_states state name valid (DiskInfos d) d).
Proof. intros [? ? ? ?]. by split. Qed.

Lemma filter_disk_regroup disks d sel kv :
  disk_ok d → regroup d (filter_disk disks (d, sel) kv).1.
Proof.
  intros Hd. unfold filter_disk. destruct kv as [did disk].
  match goal with |- context [foldl ?f (d, sel) disks] =>
    assert (Hf : regroup d (foldl f (d, sel) disks).1) end.
  { apply (foldl_inv (λ acc, regroup d acc.1)); [by apply regroup_refl |].
    intros [d1 s1] x _ Hd1. simpl in Hd1. eapply regroup_trans; [exact Hd1 |].
    destruct Hd1 as [_ _ _ [? ? ? ?]]. destruct (String.eqb _ _); [by split |].
    destruct (diskState d1 !! did); by split. }
  destruct (foldl _ _ _) as [d1 s1]. simpl in *. eapply regroup_trans; [exact Hf |].
  destruct Hf as [_ _ _ [? ? ? ?]].
  destruct (String.eqb _ _), (diskState d1 !! did); by split.
Qed.

Lemma StartDiskProfiler_regroup info disks known d :
  disk_ok d → regroup d (StartDiskProfiler info disks known d).
Proof.
  intros Hd. unfold StartDiskProfiler. destruct info as [info |]; [| by apply regroup_refl].
  assert (Hf : regroup d (FilterDisk info disks d).1).
  { unfold FilterDisk. apply (foldl_inv (λ acc, regroup d acc.1)); [by apply regroup_refl |].
    intros [d1 s1] kv _ Hd1. eapply regroup_trans; [exact Hd1 |]. apply filter_disk_regroup, Hd1. }
  destruct (FilterDisk info disks d) as [d1 sel]. simpl in Hf. destruct (_ && _); [| done].
  destruct Hf as [? ? ? [? ? ? ?]]. by split.
Qed.

Lemma StartAnalyzeDiskProfiler_regroup status d :
  disk_ok d → regroup d (StartAnalyzeDiskProfiler status d).
Proof.
  intros Hd. unfold StartAnalyzeDiskProfiler. destruct (IsAdmin _); [| by apply regroup_refl].
  by apply set_states_regroup.
Qed.

Lemma pod_type_inj T key :
  key ∈ ["NRI"; "Disk"; "Disk_CR"] → key = pod_type T →
  (key = "Disk" → T = 1) ∧ (key = "Disk_CR" → T = 2).
Proof.
  intros _ ->. unfold pod_type. repeat (case_match; [split; intros; try done; lia |]). done.
Qed.

Lemma disk_step_inv d ev :
  disk_event_ok ev → dinv flag_depth d → ∃ d', disk_step d ev = Ok d' ∧ dinv flag_depth d'.
Proof.
  intros Hev Hd. pose proof (inv_state _ _ _ _ _ _ Hd) as Hok.
  destruct ev as [a | p | p | p | old new | info disks known | status]; simpl.
  5: by apply NodeDeviceStateUpdate_inv.
  5: { eexists. split; [done |]. eapply regroup_inv; [by apply StartDiskProfiler_regroup | done]. }
  5: { eexists. split; [done |]. eapply regroup_inv; [by apply StartAnalyzeDiskProfiler_regroup | done]. }
  all: apply (dispatch_safe dk_eng set_dk_eng run_disk disk_ok flag_pre event_ok); [| done];
    intros h Hh Hk.
  1-3: apply list_elem_of_singleton in Hh as ->; by simpl.
  unfold PodInfoChan_handles in Hh. destruct Hev as [Hm Hc].
  pose proof (pod_type_inj (pdata_T p) (eh_key h)) as Ht.
  repeat (apply elem_of_cons in Hh as [-> | Hh]); [| | | by apply elem_of_nil in Hh];
    (split; [| done]); simpl in *; destruct Ht; auto; set_solver.
Qed.

Lemma Initialize_inv (io : NodeStaticIOInfo) (k : K) (c : option C) :
  dinv flag_depth (Initialize io k c).
Proof.
  split; [| | simpl; unfold flag_depth; by vm_compute | done].
  - split; simpl; [by intros k' gs; rewrite lookup_empty | by intros k' i; rewrite lookup_empty | done | done].
  - intros flag Hin. simpl. intros E Hf. subst. discriminate E.
Qed.
End Safety.

(** ** The disk engine *)

Section Claim.
Context `{Q : QuantityLib} `{!GoSort} `{!GoRange} `{!AgentLib}.
Context {K C : Type} `{!StaticClient K} `{!AggrClient C}.

End Claim.
