(* ===== verification/RegisterFacts.v ===== *)
(** * Registration of pods with the I/O service

    The container runtime and the scheduler tell the engine about a pod
    independently.  What RegisterPod does is specified by one function of the
    pod's entry.  Then runs of the disk engine. *)

From S2P Require Export NodeFake DiskSafety.

(** ** Specification *)

(** What both sides ask for; nothing before the pod's cgroup and devices are
    known. *)
Definition agreed (p : PodRegInfo) : Z :=
  if String.eqb (CgroupPath p) "" || (length (devIds p) =? 0)%nat then 0
  else Z.land (NriOperation p) (CrOperation p).
Definition agrees (p : PodRegInfo) (op : Z) : bool :=
  negb (agreed p =? 0) && (Z.land (agreed p) op =? op).

(** The entry afterwards: a stopped pod has none. *)
Definition after (p : PodRegInfo) : option PodRegInfo :=
  if agreed p =? 0 then Some p
  else if agrees p StopPod then None
  else Some (set_ops (Z.lxor (agreed p) (NriOperation p)) (Z.lxor (agreed p) (CrOperation p)) p).

(** Nothing that both sides ask for is left. *)
Lemma after_settled p p' : after p = Some p' → agreed p' = 0.
Proof.
  unfold after. destruct (agreed p =? 0) eqn:E; [by intros [= <-]; apply Z.eqb_eq |].
  destruct (agrees p StopPod); [done |]. intros [= <-]. unfold agreed in *.
  destruct (String.eqb _ _ || _); [done |]. simpl.
  apply Z.bits_inj'. intros m Hm. rewrite !Z.land_spec, !Z.lxor_spec, Z.land_spec, Z.bits_0.
  by destruct (Z.testbit (NriOperation p) m), (Z.testbit (CrOperation p) m).
Qed.

Section Register.
Context `{Q : QuantityLib} `{!GoSort} `{!GoRange} `{!AgentLib}.
Context {K C : Type} `{!StaticClient K} `{!AggrClient C}.
Implicit Types (d : Disk K C).

(** The messages to the service. *)
Definition operations d (kv : string * PodRegInfo) : list service_msg :=
  let '(uid, p) := kv in
  (if agrees p RunPod then [IOIRegisterDisk uid (CgroupPath p) (major_minor d <$> devIds p)] else [])
  ++ (if agrees p StopPod then [IOIUnRegisterDisk uid] else []).
Definition is_limitb (m : service_msg) : bool :=
  match m with SetAppLimit _ _ _ => true | _ => false end.
Definition registrations (l : list service_msg) : list service_msg :=
  List.filter (λ m, negb (is_limitb m)) l.
(** No group has the pod. *)
Definition cleared (uid : string) d : Prop :=
  ∀ k gs w, WgDevices d !! k = Some gs → w ∈ gs → RequestPods w !! uid = None.

Lemma registrations_limits l : Forall is_limit l → registrations l = [].
Proof. induction 1 as [| m l Hm _ IH]; [done |]. simpl. by destruct m. Qed.

Lemma registrations_app l1 l2 : registrations (l1 ++ l2) = registrations l1 ++ registrations l2.
Proof. apply List.filter_app. Qed.

Lemma operations_infos d d' kv : DiskInfos d' = DiskInfos d → operations d' kv = operations d kv.
Proof.
  intros E. destruct kv as [uid p]. unfold operations, major_minor. by rewrite E.
Qed.

Lemma registrations_operations d kv : registrations (operations d kv) = operations d kv.
Proof. destruct kv as [uid p]. unfold operations. by destruct (agrees p RunPod), (agrees p StopPod). Qed.

Lemma relimit_cleared uid d d' : relimit d d' → cleared uid d → cleared uid d'.
Proof.
  intros HR Hc k gs' w' Ek Hw. pose proof (rl_groups _ _ HR k) as HG. rewrite Ek in HG.
  inversion HG as [gs ? HF Eg |]; subst. apply list_elem_of_lookup in Hw as [i Hi].
  destruct (Forall2_lookup_r _ _ _ _ _ HF Hi) as (w & Hw & m & gl & ->). simpl.
  apply (Hc k gs); [done |]. by eapply list_elem_of_lookup_2.
Qed.

(** What a step of the registration does, of the entries [l] in turn. *)
Record registers (l : list (string * PodRegInfo)) d d' : Prop := mkRegisters {
  rg_regs : ∀ uid, podRegInfos d' !! uid =
    match (list_to_map l : gmap string PodRegInfo) !! uid with
    | Some p => after p | None => podRegInfos d !! uid end;
  rg_infos : DiskInfos d' = DiskInfos d;
  rg_msgs : ∃ ms, ClientHandlerChan d' = ClientHandlerChan d ++ ms ∧
                  registrations ms = l ≫= operations d;
  rg_cleared : ∀ uid, cleared uid d → cleared uid d';
  rg_stopped : ∀ uid p, (uid, p) ∈ l → agrees p StopPod = true → cleared uid d'
}.

Lemma registers_relimit l d d1 d2 : registers l d d1 → relimit d1 d2 → registers l d d2.
Proof.
  intros [Hr Hi (ms & Em & Hm) Hc Hs] HR. split.
  - intros uid. by rewrite (rl_regs _ _ HR).
  - by rewrite (rl_infos _ _ HR).
  - destruct (rl_msgs _ _ HR) as (l' & E' & Hl'). exists (ms ++ l'). rewrite E', Em, app_assoc.
    split; [done |]. by rewrite registrations_app, Hm, (registrations_limits l' Hl'), app_nil_r.
  - intros uid Hu. eapply relimit_cleared; eauto.
  - intros uid p Hin Ha. eapply relimit_cleared; eauto.
Qed.

Lemma cleared_clear uid d d' :
  WgDevices d' = map (clear_pod uid) <$> WgDevices d → cleared uid d'.
Proof.
  intros E k gs w Ek Hw. rewrite E, lookup_fmap in Ek. apply fmap_Some in Ek as (gs0 & _ & ->).
  apply list_elem_of_fmap in Hw as (w0 & -> & _). simpl. apply lookup_delete_eq.
Qed.
Lemma cleared_keep uid uid' d d' :
  WgDevices d' = map (clear_pod uid') <$> WgDevices d → cleared uid d → cleared uid d'.
Proof.
  intros E Hc k gs w Ek Hw. rewrite E, lookup_fmap in Ek. apply fmap_Some in Ek as (gs0 & E0 & ->).
  apply list_elem_of_fmap in Hw as (w0 & -> & Hw0). simpl. rewrite lookup_delete_None. right. eauto.
Qed.

Lemma register_pod_spec d uid p :
  podRegInfos d !! uid = Some p → spares (registers [(uid, p)] d) (register_pod d (uid, p)).
Proof.
  intros Hp.
  assert (Hidle : agreed p = 0 → registers [(uid, p)] d d).
  { intros E. split; [| done | | done |].
    - intros u. simpl. destruct (decide (u = uid)) as [-> |].
      + rewrite lookup_insert_eq, Hp. unfold after. by rewrite E.
      + by rewrite lookup_insert_ne, lookup_empty.
    - exists []. rewrite app_nil_r. split; [done |]. simpl. unfold agrees. by rewrite E.
    - intros u q [= -> ->]%list_elem_of_singleton. unfold agrees. by rewrite E. }
  unfold register_pod, agreed in *.
  destruct (String.eqb (CgroupPath p) "") eqn:E1; [by apply Hidle |].
  destruct (length (devIds p) =? 0)%nat eqn:E2; [by apply Hidle |]. simpl in *.
  destruct (Z.land (NriOperation p) (CrOperation p) =? 0) eqn:E3; [by apply Hidle, Z.eqb_eq |].
  assert (Eag : agreed p = Z.land (NriOperation p) (CrOperation p)) by (unfold agreed; by rewrite E1, E2).
  assert (Eas : ∀ b, agrees p b = (Z.land (Z.land (NriOperation p) (CrOperation p)) b =? b)).
  { intros b. unfold agrees. by rewrite Eag, E3. }
  eapply spares_bind; [apply updateLocal_relimit |]. intros [d1 e] Hd1. simpl in *.
  eapply registers_relimit; [| exact Hd1]. clear Hd1 d1 e Hidle.
  rewrite <- !Eas. split.
  - intros u. simpl. destruct (decide (u = uid)) as [-> | Hne].
    + rewrite lookup_insert_eq. unfold after. rewrite Eag, E3. destruct (agrees p StopPod), (agrees p RunPod); simpl;
        by rewrite ?lookup_delete_eq, ?lookup_insert_eq.
    + rewrite lookup_insert_ne, lookup_empty by done.
      destruct (agrees p StopPod), (agrees p RunPod); simpl;
        by rewrite ?lookup_delete_ne, ?lookup_insert_ne by done.
  - by destruct (agrees p StopPod), (agrees p RunPod).
  - exists (operations d (uid, p)). rewrite registrations_operations. simpl. rewrite app_nil_r.
    split; [| done]. unfold operations.
    destruct (agrees p StopPod), (agrees p RunPod); simpl; rewrite ?app_nil_r; try done.
    by rewrite <- app_assoc.
  - intros u Hu. destruct (agrees p StopPod), (agrees p RunPod); try done;
      by apply (cleared_keep u uid d).
  - intros u q [= -> ->]%list_elem_of_singleton Ha. rewrite Ha.
    by destruct (agrees p RunPod); apply (cleared_clear uid d).
Qed.

Lemma registers_cons x l d1 d2 d3 :
  x.1 ∉ l.*1 → registers [x] d1 d2 → registers l d2 d3 → registers (x :: l) d1 d3.
Proof.
  destruct x as [uid p]. simpl. intros Hni [R1 I1 (m1 & M1 & P1) C1 S1] [R2 I2 (m2 & M2 & P2) C2 S2].
  split.
  - intros u. rewrite R2. simpl. destruct (decide (u = uid)) as [-> |].
    + rewrite lookup_insert_eq, (not_elem_of_list_to_map_1 l uid Hni), R1. simpl.
      by rewrite lookup_insert_eq.
    + rewrite lookup_insert_ne by done. destruct (list_to_map l !! u); [done |].
      rewrite R1. simpl. by rewrite lookup_insert_ne, lookup_empty.
  - congruence.
  - exists (m1 ++ m2). rewrite M2, M1, app_assoc. split; [done |].
    rewrite registrations_app, P1, P2. simpl. rewrite app_nil_r. f_equal.
    clear -I1. induction l as [| kv l IH]; [done |]. simpl. f_equal; [| exact IH].
    by apply operations_infos.
  - auto.
  - intros u q [[= -> ->] | Hin]%elem_of_cons Ha; [| by eapply S2].
    apply C2. eapply S1; [| done]. by left.
Qed.

Lemma RegisterPod_spec d : spares (registers (range (podRegInfos d)) d) (RegisterPod d).
Proof.
  unfold RegisterPod. pose proof (NoDup_range (podRegInfos d)) as Hnd.
  assert (Hl : ∀ uid p, (uid, p) ∈ range (podRegInfos d) → podRegInfos d !! uid = Some p)
    by (intros; by apply elem_of_range).
  revert Hnd Hl. generalize (range (podRegInfos d)) as l. intros l. revert d.
  induction l as [| [uid p] l IH]; intros d Hnd Hl; simpl in *.
  { split; [| done | | done |].
    - intros u. simpl. by rewrite lookup_empty.
    - exists []. by rewrite app_nil_r.
    - by intros ? ? ?%elem_of_nil. }
  apply NoDup_cons in Hnd as [Hni Hnd].
  eapply spares_bind; [apply register_pod_spec, Hl; by left |]. intros d1 Hd1.
  eapply spares_weaken; [| apply IH; [done |]].
  - intros d2 Hd2. eapply registers_cons; eauto.
  - intros u q Hin. rewrite (rg_regs _ _ _ Hd1). simpl. rewrite lookup_insert_ne, lookup_empty.
    + apply Hl. by right.
    + intros ->. apply Hni. apply list_elem_of_fmap. by exists (u, q).
Qed.

(** C12: RegisterPod carries out what the runtime and the scheduler agree on,
    once.  From a well-formed state it returns; every pod's entry is then the
    one the specification gives, so that no agreed operation is left; the
    registrations sent to the service are those of the agreed operations, in
    the order of the pods; and a pod both sides have stopped is in no group of
    any disk. *)
Theorem registration_refines_spec d :
  disk_ok d → policies_set d →
  ∃ d' ms, RegisterPod d = Ok d' ∧ disk_ok d' ∧
    (∀ uid, podRegInfos d' !! uid = podRegInfos d !! uid ≫= after) ∧
    (∀ uid p, podRegInfos d' !! uid = Some p → agreed p = 0) ∧
    ClientHandlerChan d' = ClientHandlerChan d ++ ms ∧
    registrations ms = range (podRegInfos d) ≫= operations d ∧
    ∀ uid p, podRegInfos d !! uid = Some p → agrees p StopPod = true → cleared uid d'.
Proof.
  intros Hd Hp. destruct (RegisterPod_ok d Hd Hp) as (d' & E & HR).
  pose proof (RegisterPod_spec d) as HS. rewrite E in HS. simpl in HS.
  destruct HS as [Hr Hi (ms & Em & Hm) Hc Hs].
  assert (Hafter : ∀ uid, podRegInfos d' !! uid = podRegInfos d !! uid ≫= after).
  { intros uid. rewrite Hr, list_to_map_range. by destruct (podRegInfos d !! uid). }
  exists d', ms. split; [done |]. split; [apply HR |]. split; [done |]. split.
  - intros uid p. rewrite Hafter. intros (q & _ & Eq)%bind_Some. by eapply after_settled.
  - split; [done |]. split; [done |]. intros uid p Hin. apply (Hs uid p). by apply elem_of_range.
Qed.
End Register.

(** ** Runs of the disk engine *)

Module DiskExample.
Import FakeInstances NodeInstances.

#[export] Instance objects_served : StatesServed Objects.
Proof.
  intros k name cr. simpl. destruct (k !! name) as [o |]; [| discriminate].
  case_bool_decide as Hs; [discriminate |]. intros [= <-]. exact Hs.
Qed.

Definition admin1 : AdminResourceConfig :=
  mkAdmin true 20 20 20 20 {["kube-system"]} 50 1 5 5 5 5
    (mkLogLevel false false false false false false false false) (mkInterval 2 2 2).
Definition policy1 : Policy :=
  mkPolicy "POOL_SIZE" "All" "CALC_REQUEST_RATIO" "CALC_REQUEST_RATIO" "NONE".
Definition policies1 : gmap string Policy :=
  {["DiskGArules" := policy1; "DiskBTrules" := policy1; "DiskBErules" := policy1]}.
Definition disk1 : ADiskInfo :=
  mkADisk "sda" "8:0" EmptyDir "/data" "100Gi" (of_Z 2000) (of_Z 1000) (of_Z 1000) ∅ ∅ [] [].
Definition profile1 : AllProfile := mkProfile {["d1" := disk1]} ∅ ∅ 0.
Definition wl1 : Workload := mkWorkload (of_Z 100) (of_Z 50) fzero fzero fzero.
Definition scheduled : PodRunInfo := run_info "p1" GaIndex wl1 wl1 wl1 wl1.
Definition running : PodRunInfo :=
  mkRunInfo None None None None None "p1" 0 RunPod "default" [] "" "" "/kubepods/p1" None.
Definition measured : PodRunInfo :=
  mkRunInfo (Some wl1) None None None None "p1" 0 0 "default" [] "" "" "" None.
Definition cr1 : PodData := mkPodData 2 7 {["d1" := {["uid-1" := scheduled]}]}.
Definition nri1 : PodData := mkPodData 0 0 {["dev" := {["uid-1" := running]}]}.
Definition io1 : PodData := mkPodData 1 0 {["d1" := {["uid-1" := measured]}]}.
Definition start : Disk Objects (list UpdateNodeIOStatusRequest) :=
  Initialize (mkNSI "n1" ∅ "" ∅) ∅ (Some []).

Definition events1 : list disk_event :=
  [OnPod nri1; OnAdmin admin1; OnPod cr1; OnProfile profile1; OnPolicy policies1; OnPod io1].


Lemma no_event_lost_witness :
  let l := [(PodInfoChan_handles, EvPod nri1); (ProfileChan_handles, EvProfile profile1)] in
  deliver dk_eng set_dk_eng run_disk l start ≠ Crash StackOverflow ∧
  ∀ d, deliver dk_eng set_dk_eng run_disk l start = Ok d →
    (EvPod nri1, ProcessNriData_f) ∈ executed (dk_eng d) ∨
    (EvPod nri1, ProcessNriData_f) ∈ cacheDatas (dk_eng d) ∧
    expects (Flag (dk_eng d)) (EvPod nri1) = false.
Proof.
  intros l. destruct (no_event_lost dk_eng set_dk_eng run_disk start l) as [Hs Hd].
  split; [exact Hs |]. intros d E. apply (Hd d (EvPod nri1, ProcessNriData_f) E).
  apply elem_of_cons. left. reflexivity.
Defined.

(** Two pods that both sides know: one is to run, one to stop. *)
Definition regs2 : gmap string PodRegInfo :=
  {["uid-1" := mkReg "/kubepods/p1" RunPod RunPod ["d1"];
    "uid-2" := mkReg "/kubepods/p2" (Z.lor RunPod StopPod) StopPod ["d1"]]}.
Definition start2 : Disk Objects (list UpdateNodeIOStatusRequest) :=
  set_podRegInfos regs2 (set_GpPolicy [Some policy1; Some policy1; Some policy1] start).

Lemma registration_refines_spec_witness :
  ∃ d, RegisterPod start2 = Ok d ∧
    podRegInfos d !! "uid-1" = Some (mkReg "/kubepods/p1" 0 0 ["d1"]) ∧
    podRegInfos d !! "uid-2" = None ∧ cleared "uid-2" d.
Proof.
  destruct (registration_refines_spec start2) as (d & ms & E & _ & Ha & _ & _ & _ & Hc).
  - split; [intros k gs; simpl; rewrite lookup_empty; discriminate
           | intros k i; simpl; rewrite lookup_empty; discriminate | reflexivity | reflexivity].
  - repeat constructor; eexists; reflexivity.
  - exists d. split; [exact E |]. split; [rewrite Ha; reflexivity |]. split; [rewrite Ha; reflexivity |].
    apply (Hc "uid-2" (mkReg "/kubepods/p2" (Z.lor RunPod StopPod) StopPod ["d1"])); reflexivity.
Defined.

(** A guaranteed pod on the disk. *)
Definition group1 : WorkloadGroup := set_pod "uid-1" scheduled (new_group GaIndex).
Definition dev1 : DevInfo := mkDevInfo "d1" "sda" "DISK" "8:0".
Definition mins1 : MinBw := mkMinBw (of_Z 5) (of_Z 5).

Lemma limits_by_class_witness :
  ∃ w msgs, SetLimit mins1 group1 (Some policy1) wl1 wl1 dev1 GaIndex = Ok (w, msgs) ∧
    Forall2 (limit_sent mins1 group1 wl1 dev1 GaIndex) ["uid-1"] msgs.
Proof.
  destruct (limits_by_class mins1 group1 policy1 wl1 wl1 dev1 GaIndex) as (w & msgs & E & _ & HF).
  - apply set_pod_ok; [| apply new_group_ok; unfold GaIndex; lia].
    split; try (eexists; reflexivity). split; vm_compute; discriminate.
  - unfold GaIndex. lia.
  - reflexivity.
  - reflexivity.
  - reflexivity.
  - repeat split.
  - repeat split.
  - exists w, msgs. split; [exact E | exact HF].
Defined.

(** The engine is given its policies, then a profile, a scheduled pod and the
    pod's start, and the administrator's configuration last. *)
Definition events2 : list disk_event :=
  [OnPolicy policies1; OnProfile profile1; OnPod cr1; OnPod nri1; OnAdmin admin1].
Definition calls (o : outcome (Disk Objects (list UpdateNodeIOStatusRequest))) : list disk_handler :=
  match o with Ok d => snd <$> executed (dk_eng d) | Crash _ => [] end.
Definition registered_apps (o : outcome (Disk Objects (list UpdateNodeIOStatusRequest)))
    : list (string * string) :=
  match o with
  | Ok d => omap (λ m, match m with RegisterApp a i _ => Some (a, i) | _ => None end)
              (ClientHandlerChan d)
  | Crash _ => []
  end.

(** SetFlag runs kept events twice.  It goes over the events kept when it
    was called; the profile event, the first of them, calls SetFlag again,
    which runs them all, and the outer loop then runs the rest a second time.
    Here a pod scheduled before the administrator's configuration arrives is
    processed twice: it is registered twice with the service, the second time
    with its one disk listed twice. *)
Theorem kept_events_run_twice :
  calls (foldM disk_step start events2) =
    [ProcessPolicy_f; ProcessAdmin_f; ProcessProfile_f; ProcessProfile_f; ProcessDiskCrData_f;
     ProcessNriData_f; ProcessDiskCrData_f; ProcessNriData_f] ∧
  registered_apps (foldM disk_step start events2) =
    [("uid-1", "/sys/fs/cgroup/kubepods/p1 8:0"); ("uid-1", "/sys/fs/cgroup/kubepods/p1 8:0;8:0")].
Proof. split; vm_eq. Qed.

(** The agent of a node whose object has a disk configuration but no device
    states restarts; later the administrator enables a disk. *)
Definition bare : NodeStaticIOInfo :=
  mkNSI "n1" {[BlockIO_config := mkRC 20 0 0 ∅ []]} "" ∅.
Definition restarted : Disk Objects (list UpdateNodeIOStatusRequest) :=
  Initialize (mkNSI "n1" ∅ "" ∅) {["n1" +:+ NodeStaticInfoSuffix := bare]} (Some []).
Definition block1 : BlockDevice := mkBlockDevice "sda" "" "" "8:0" 0 "" "" "" false [].
Definition events3 : list disk_event :=
  [OnPolicy policies1; OnAdmin admin1; OnProfiler (Some {["d1" := block1]}) ["sda"] false;
   OnProfile profile1].

(** The states that ProcessAdmin takes over from such an object are a nil map,
    and the first profile writes to it. *)
Lemma restart_without_states_panics :
  foldM (disk_step (StaticClient0 := static_fake)) restarted events3 = Crash NilMapWrite.
Proof. vm_eq. Qed.
End DiskExample.
