(* ===== verification/NetFacts.v ===== *)
(** * The network engine of the node agent

    The engine's event functions reach the embedded engine only through
    SetFlag, so that no event is lost; they do not panic on well-formed events
    as long as the I/O service answers; and what they do when it does not, or
    when there is more than one NIC. *)

From S2P Require Export AgentNet AgentFacts LimitFacts.

(** ** The embedded engine *)

Section Frame.
Context `{Q : QuantityLib} `{!GoRange} `{!AgentLib}.
Context {K C V : Type} `{!StaticClient K} `{!AggrClient C} `{!ServiceClient V}.
Implicit Types (n : Net K C V).

(** Computations that leave the embedded engine alone. *)
Definition same_net n : outcome (Net K C V) → Prop := spares (λ n', ne_eng n' = ne_eng n).

Lemma same_net_foldM {X} (f : Net K C V → X → outcome (Net K C V)) n l :
  (∀ n x, same_net n (f n x)) → same_net n (foldM f n l).
Proof.
  intros Hf. apply spares_foldM; [done |]. intros b x Hb. eapply spares_weaken; [| apply Hf].
  simpl. congruence.
Qed.
Lemma same_net_trans n n' o : ne_eng n' = ne_eng n → same_net n' o → same_net n o.
Proof. intros E. apply spares_weaken. simpl. congruence. Qed.

Lemma no_stop_first3 l : no_stop (first3 l).
Proof. unfold first3. no_stops. Qed.
Lemma no_stop_UpdateCache m : no_stop (UpdateCache m).
Proof.
  unfold UpdateCache. apply no_stop_bind; [| done]. apply no_stop_foldM. intros m1 kv.
  apply no_stop_bind; [| done]. apply no_stop_foldM. intros m2 kn.
  repeat (apply no_stop_bind; [apply no_stop_first3 | intros ?]). done.
Qed.
Lemma no_stop_metrics_groups snd rcv beS beR idx nbw reqs lims groups :
  no_stop (net_metrics_groups snd rcv beS beR idx nbw reqs lims groups).
Proof.
  revert idx nbw reqs lims. induction groups as [| w gs IH]; intros idx nbw reqs lims; simpl; [done |].
  apply no_stop_bind.
  - unfold net_metrics_group. apply no_stop_bind; [apply no_stop_CalculateGroupBw |]. no_stops.
  - intros nbw1. apply no_stop_bind; [| by intros [? ?]]. unfold net_metrics_pods. no_stops.
Qed.

(** Only the caches of the metrics change. *)
Lemma UpdateNetMetrics_metrics n : spares (λ n', ∃ e m, n' = set_metrics e m n) (UpdateNetMetrics n).
Proof.
  unfold UpdateNetMetrics. eapply (spares_bind (λ _, True)).
  - apply no_stop_foldM. intros [[nbw rb] lb] [nid nic]. unfold net_metrics_nic. apply no_stop_bind.
    + apply no_stop_metrics_groups.
    + intros [[nbw1 reqs] lims]. by destruct (Cache _ !! _).
  - intros [[nbw rb] lb] _. eapply spares_bind; [apply no_stop_deref | intros pb _].
    eapply spares_bind; [apply no_stop_UpdateCache |]. intros mc _. by eexists _, _.
Qed.
Lemma UpdateNetMetrics_same n : same_net n (UpdateNetMetrics n).
Proof. eapply spares_weaken; [| apply UpdateNetMetrics_metrics]. by intros n' (e & m & ->). Qed.

(** Only limits are set and sent. *)
Lemma calNicAllocatable_limits k n :
  spares (λ r, ∃ msgs wgs, r.2 = send msgs (set_WgDevices wgs n)) (calNicAllocatable k n).
Proof.
  assert (Hn : ∃ msgs wgs, n = send msgs (set_WgDevices wgs n)).
  { exists [], (WgDevices n). destruct n. unfold send. simpl. by rewrite app_nil_r. }
  unfold calNicAllocatable. destruct (NicInfos n !! k); [| done].
  destruct (WgDevices n !! k) as [gs |]; [| done].
  repeat (eapply spares_bind; [first [apply no_stop_index | apply no_stop_CalculateGroupBw] | intros ? _]).
  eapply spares_bind; [apply set_limits_limits |]. intros [gs' msgs] _. by eexists _, _.
Qed.
Lemma calNicAllocatable_same k n : spares (λ r, ne_eng r.2 = ne_eng n) (calNicAllocatable k n).
Proof. eapply spares_weaken; [| apply calNicAllocatable_limits]. by intros r (m & w & ->). Qed.

Lemma no_stop_nic_report nic a : no_stop (nic_report nic a).
Proof. unfold nic_report. no_stops. Qed.

Lemma updateLocalNIC_same n : spares (λ r, ne_eng r.1 = ne_eng n) (updateLocalNodeNICStatusIOInfo n).
Proof.
  unfold updateLocalNodeNICStatusIOInfo. eapply (spares_bind (λ r, ne_eng r.2 = ne_eng n)).
  - apply spares_foldM; [done |]. intros [io n1] kv Hn1. simpl in Hn1.
    eapply spares_bind; [apply calNicAllocatable_same |]. intros [a n2] Hn2. simpl in *.
    eapply spares_bind; [apply UpdateNetMetrics_same |]. intros n3 Hn3. simpl in Hn3.
    destruct a as [a |]; [| done]. eapply spares_bind; [apply no_stop_nic_report |].
    intros r _. simpl. congruence.
  - intros [io n1] Hn1. by destruct (agent_UpdateNodeIOStatus _ _ _ _ _).
Qed.

Lemma net_register_pod_same n kv : same_net n (register_pod n kv).
Proof.
  unfold register_pod. destruct kv as [podId p].
  do 3 (destruct (String.eqb _ _); [done |]). destruct (_ =? 0)%nat; [done |]. destruct (_ =? 0); [done |].
  eapply spares_bind; [apply updateLocalNIC_same |]. intros [n1 e] Hn1. simpl in *.
  destruct (_ =? StopPod), (_ =? RunPod); exact Hn1.
Qed.
Lemma net_RegisterPod_same n : same_net n (RegisterPod n).
Proof. apply same_net_foldM, net_register_pod_same. Qed.

Lemma net_ProcessNriData_same p n : same_net n (ProcessNriData p n).
Proof.
  apply same_net_foldM. intros n1 [podId i]. case_decide; [done |].
  eapply same_net_trans; [| apply net_RegisterPod_same]. done.
Qed.

Lemma ProcessNicIOData_same p n : same_net n (ProcessNicIOData p n).
Proof.
  unfold ProcessNicIOData. eapply (spares_bind (λ n', ne_eng n' = ne_eng n)).
  - apply same_net_foldM. intros n1 [nic ev]. apply same_net_foldM. intros n2 ki.
    eapply spares_bind; [apply no_stop_deref | intros ? _].
    eapply spares_bind; [apply calNicAllocatable_same |]. by intros [? ?].
  - intros n1 Hn1. eapply spares_bind; [apply no_stop_deref | intros pb _].
    eapply same_net_trans; [| apply UpdateNetMetrics_same]. done.
Qed.

Lemma net_cr_pod_same k (acc : Net K C V * gset string) kv :
  spares (λ r, ne_eng r.1 = ne_eng acc.1) (cr_pod k acc kv).
Proof.
  unfold cr_pod. destruct acc as [n v], kv as [podId i]. destruct (String.eqb _ _); [done |].
  eapply spares_bind; [apply no_stop_index |]. done.
Qed.

Lemma ProcessNetworkCrData_same p n : same_net n (ProcessNetworkCrData p n).
Proof.
  unfold ProcessNetworkCrData. eapply (spares_bind (λ r, ne_eng r.1 = ne_eng n)).
  - apply spares_foldM; [done |]. intros acc kv Hacc. destruct (WgDevices acc.1 !! kv.1); [| done].
    apply spares_foldM; [done |]. intros acc' kv' Hacc'. eapply spares_weaken; [| apply net_cr_pod_same].
    simpl. congruence.
  - intros [n1 v] Hn1. eapply (spares_bind (λ _, True)).
    + apply no_stop_foldM. intros b x. apply no_stop_bind; [| done]. unfold clean_groups.
      by destruct (_ <? 3)%nat.
    + intros wgs _. eapply same_net_trans; [| apply net_RegisterPod_same]. done.
Qed.

Lemma net_publish_same n : ne_eng (publish_config n).1 = ne_eng n.
Proof.
  unfold publish_config. destruct (IsExecution _); [| done].
  by destruct (UpdateNodeStaticIOInfoSpec _ _ _).
Qed.

Lemma take_settable_no_stop l gs : no_stop (take_settable l gs).
Proof.
  revert gs. induction l as [| s l IH]; intros [| w gs]; simpl; try done.
  by apply no_stop_bind.
Qed.
Lemma configure_same ips groups n :
  same_net n (let! '(settable, n) := IOIConfigureNet CNI GATEWAY ips groups n in
              set_groups_settable settable n).
Proof.
  eapply (spares_bind (λ r, ne_eng r.2 = ne_eng n)).
  - unfold IOIConfigureNet. destruct (IoiClient n); [| done].
    by destruct (rpc_Configure _ _ _) as [v' [info | e]].
  - intros [l n1] Hn1. simpl in Hn1. eapply same_net_trans; [exact Hn1 |].
    apply same_net_foldM. intros n2 kv. eapply spares_bind; [apply take_settable_no_stop |].
    intros gs _. by destruct (_ =? 0)%nat.
Qed.

Abbreviation nkeeps := (keeps (S := Net K C V) ne_eng).

Lemma net_set_and_publish (I : IOEngine net_handler → Prop) (sf : Z → GoM (Net K C V) ()) flag n
    (k : Net K C V * option error → outcome (option error * Net K C V)) :
  (∀ flag n, flag ∈ flags → I (ne_eng n) → nkeeps I (sf flag n)) →
  flag ∈ flags → I (ne_eng n) → (∀ r, I (ne_eng r.1) → nkeeps I (k r)) →
  nkeeps I (let! '(_, n) := sf flag n in k (publish_config n)).
Proof.
  intros Hsf Hf HI Hk. eapply spares_bind; [by apply Hsf |]. intros [u n1] Hn1. simpl in *.
  apply Hk. by rewrite net_publish_same.
Qed.

#[export] Instance net_Handlers : Handlers (S := Net K C V) ne_eng set_ne_eng run_net.
Proof.
  split; [done |]. intros I sf Hsf h dt n HI.
  assert (Hd : ∀ o, same_net n o → nkeeps I (let! n := o in Ok (None (A := error), n))).
  { intros o Ho. eapply spares_bind; [exact Ho |]. intros n1 Hn1. simpl in *. by rewrite Hn1. }
  destruct h, dt; try reflexivity; simpl;
    auto using net_ProcessNriData_same, ProcessNicIOData_same, ProcessNetworkCrData_same.
  - unfold ProcessAdmin.
    apply (net_set_and_publish I sf AdminFlag _ (λ '(n, err), Ok (err, n)));
      [done | set_solver | done | by intros [? ?]].
  - unfold ProcessProfile. destruct (DeepEqual_nics _ _); [done |].
    apply (net_set_and_publish I sf ProfileFlag _ (λ '(n, err), _)); [done | set_solver | done |].
    intros [n1 [e |]] Hn1; [done |].
    match goal with |- context [IOIConfigureNet _ _ ?ips ?gs n1] => pose proof (configure_same ips gs n1) as Hc end.
    unfold nkeeps in *. destruct (IOIConfigureNet _ _ _ _ n1) as [[l n2] |]; simpl in *; [| done].
    destruct (set_groups_settable l n2) as [n3 |]; simpl in *; [| done]. by rewrite Hc.
  - unfold ProcessPolicy. destruct (p !! "NetGArules"), (p !! "NetBTrules"), (p !! "NetBErules"); try done.
    apply (net_set_and_publish I sf PolicyFlag _ (λ '(n, err), Ok (err, n)));
      [done | set_solver | done | by intros [? ?]].
Qed.

(** ** The report *)

(** What the report is made from, besides the NICs. *)
Definition same_sender n n' : Prop := NodeName n' = NodeName n ∧ ne_client n' = ne_client n.

Lemma UpdateNetMetrics_sender n : spares (same_sender n) (UpdateNetMetrics n).
Proof. eapply spares_weaken; [| apply UpdateNetMetrics_metrics]. by intros n' (e & m & ->). Qed.
Lemma calNicAllocatable_sender k n : spares (λ r, same_sender n r.2) (calNicAllocatable k n).
Proof. eapply spares_weaken; [| apply calNicAllocatable_limits]. by intros r (m & w & ->). Qed.

(** The report names one NIC, however many there are.  Whenever
    updateLocalNodeNICStatusIOInfo returns on a node with NICs, what it has
    sent to the aggregator is a report of the last NIC of the range alone. *)
Theorem one_nic_reported n n' e :
  NicInfos n ≠ ∅ → updateLocalNodeNICStatusIOInfo n = Ok (n', e) →
  ∃ k nic r, last (range (NicInfos n)) = Some (k, nic) ∧
    (ne_client n', e) = agent_UpdateNodeIOStatus rpc_UpdateNodeIOStatus (NodeName n)
                          (mkIOBw IOType_NetworkIO {[k := r]}) (NetObservedGeneration n) (ne_client n).
Proof.
  intros Hne E. unfold updateLocalNodeNICStatusIOInfo in E.
  destruct (last (range (NicInfos n))) as [[k nic] |] eqn:El.
  2: { apply last_None in El. apply (f_equal length) in El. rewrite length_range in El.
       by apply map_size_empty_inv in El. }
  apply last_Some in El as [l El]. rewrite El, foldM_app in E.
  apply obind_Ok in E as ([io n2] & E & E2). apply obind_Ok in E as ([io1 n1] & E1 & E).
  assert (Hs : same_sender n n1).
  { match type of E1 with foldM ?f ?a l = _ =>
      assert (Hf : spares (λ acc, same_sender n acc.2) (foldM f a l)); [| by rewrite E1 in Hf] end.
    apply spares_foldM; [done |]. intros [io' m] [k' i'] [Hm1 Hm2]. simpl in Hm1, Hm2.
    eapply spares_bind; [apply calNicAllocatable_sender |]. intros [a m1] [Ha1 Ha2]. simpl in Ha1, Ha2.
    eapply spares_bind; [apply UpdateNetMetrics_sender |]. intros m2 [Hb1 Hb2].
    destruct a as [a |]; [| done]. eapply spares_bind; [apply no_stop_nic_report |].
    intros r _. split; simpl; congruence. }
  simpl in E. apply obind_Ok in E as (acc & E & Eacc). injection Eacc as ->.
  apply obind_Ok in E as ([a m1] & Ea & E). pose proof (calNicAllocatable_sender k n1) as Ha.
  rewrite Ea in Ha. simpl in E, Ha.
  apply obind_Ok in E as (m2 & Em & E). pose proof (UpdateNetMetrics_sender m1) as Hu. rewrite Em in Hu.
  destruct a as [a |]; [| done]. apply obind_Ok in E as (r & Er & Er'). injection Er' as <- <-.
  destruct Hs as [Hs1 Hs2], Ha as [Ha1 Ha2], Hu as [Hu1 Hu2]. exists k, nic, r. split; [done |].
  destruct (agent_UpdateNodeIOStatus _ (NodeName m2) _ _ _) as [c e'] eqn:Eag. injection E2 as <- <-.
  simpl. by rewrite <- Eag, Hu1, Ha1, Hs1, Hu2, Ha2, Hs2.
Qed.
End Frame.
