(* ===== verification/NetSafety.v ===== *)
(** * The network engine does not panic while the I/O service answers *)

From S2P Require Export NetFacts.

(** The service answers Configure, for at most the three groups it was sent. *)
Class ServiceAnswers (V : Type) `{Q : QuantityLib} `{!AgentLib} `{!ServiceClient V} : Prop :=
  service_answers : ∀ (v : V) conf t, ∃ v' info,
    rpc_Configure v conf t = (v', inl info) ∧ (length (unmarshal_settable info) ≤ 3)%nat.

Section Safety.
Context `{Q : QuantityLib} `{!GoRange} `{!AgentLib}.
Context {K C V : Type} `{!StaticClient K} `{!AggrClient C} `{!ServiceClient V} `{!ServiceAnswers V}.
Implicit Types (n : Net K C V).

(** ** The invariant *)

Definition nic_groups_ok (gs : list WorkloadGroup) : Prop :=
  length gs = 3%nat ∧ Forall group_base gs.
(** Entries for [m] groups. *)
Record bw_len (m : nat) (b : NetBw) : Prop := mkBwLen {
  len_req : length (NetRequestBw b) = m;
  len_alloc : length (NetAllocBw b) = m;
  len_total : length (NetTotalBw b) = m
}.
Definition bw_ok (b : NetBw) : Prop := ∃ m, (3 ≤ m)%nat ∧ bw_len m b.
(** Every known NIC has its three groups, all well-formed, every master NIC
    is known, and the caches of the metrics are made. *)
Record net_ok n : Prop := mkNetOk {
  nok_groups : map_Forall (λ _, nic_groups_ok) (WgDevices n);
  nok_nics : ∀ k i, NicInfos n !! k = Some i → is_Some (WgDevices n !! k);
  nok_policies : length (GpPolicy n) = 3%nat;
  nok_made : is_Some (Cache (EngineCache n) !! NodeName n);
  nok_cache : map_Forall (λ _, map_Forall (λ _, bw_ok)) (Cache (EngineCache n));
  nok_pods : is_Some (PodCache (EngineCache n) !! NodeName n)
}.
Definition net_policies_set n : Prop := Forall is_Some (GpPolicy n).
Definition net_flag_pre (flag : Z) n : Prop := flag = PolicyFlag → net_policies_set n.

(** A step that keeps the invariant, the policies, the NICs and the engine. *)
Record rework n n' : Prop := mkRework {
  rw_eng : ne_eng n' = ne_eng n;
  rw_policy : GpPolicy n' = GpPolicy n;
  rw_nics : NicInfos n' = NicInfos n;
  rw_ok : net_ok n'
}.
Lemma rework_refl n : net_ok n → rework n n.
Proof. by split. Qed.
Lemma rework_trans n1 n2 n3 : rework n1 n2 → rework n2 n3 → rework n1 n3.
Proof. intros [? ? ? ?] [? ? ? ?]. split; congruence || done. Qed.
Lemma rework_policies n n' : rework n n' → net_policies_set n → net_policies_set n'.
Proof. intros [_ E _ _]. unfold net_policies_set. by rewrite E. Qed.

(** ** Metrics *)

Lemma net_metrics_group_ok snd rcv beS beR m nbw idx w :
  group_base w → bw_len m nbw → 0 <= idx <= Z.of_nat m →
  ∃ nbw', net_metrics_group snd rcv beS beR nbw idx w = Ok nbw' ∧ bw_len (S m) nbw'.
Proof.
  intros Hw [Hr Ha Ht] Hi. unfold net_metrics_group.
  destruct (CalculateGroupBw_ok _ (base_requests _ Hw)) as [req ->]. simpl.
  assert (Hin : ∀ i, 0 <= i <= idx → ∃ a, index (NetRequestBw nbw ++ [req]) i = Ok a).
  { intros i Hle. destruct (index_ok (NetRequestBw nbw ++ [req]) i) as (a & -> & _); [| by eauto].
    rewrite length_app. simpl. lia. }
  unfold GaIndex, BtIndex, BeIndex in *.
  match goal with |- context [obind ?m _] => assert (Ho : ∃ a, m = Ok a) end.
  { destruct (idx =? 0) eqn:E0; [by eauto |]. destruct (idx =? 1) eqn:E1.
    - destruct (Hin 0) as [a ->]; [lia |]. simpl. eauto.
    - destruct (idx =? 2) eqn:E2; [| by eauto]. destruct (Hin 0) as [a ->]; [lia |].
      destruct (Hin 1) as [b ->]; [lia |]. simpl. eauto. }
  destruct Ho as [alc ->]. simpl. eexists. split; [done |]. split; simpl; rewrite length_app; simpl; lia.
Qed.

Lemma net_metrics_pods_ok idx w reqs lims :
  group_base w → ∃ r, net_metrics_pods idx w reqs lims = Ok r.
Proof.
  intros Hw. unfold net_metrics_pods.
  match goal with |- context [foldM ?f lims ?l] =>
    destruct (foldM_total f (λ _, True) lims l) as (m & -> & _); [| done | by eauto] end.
  intros m [po v] Hin _. apply elem_of_range in Hin.
  destruct (base_limits _ Hw po v Hin) as [x ->]. simpl. eauto.
Qed.

Lemma net_metrics_groups_ok snd rcv beS beR m idx nbw reqs lims gs :
  Forall group_base gs → bw_len m nbw → 0 <= idx <= Z.of_nat m →
  ∃ nbw' reqs' lims', net_metrics_groups snd rcv beS beR idx nbw reqs lims gs = Ok (nbw', reqs', lims') ∧
    bw_len (m + length gs) nbw'.
Proof.
  intros Hgs. revert m idx nbw reqs lims.
  induction Hgs as [| w gs Hw Hgs IH]; intros m idx nbw reqs lims Hm Hi; simpl.
  { eexists _, _, _. split; [done |]. by rewrite Nat.add_0_r. }
  destruct (net_metrics_group_ok snd rcv beS beR m nbw idx w Hw Hm Hi) as (nbw1 & -> & Hm1). simpl.
  destruct (net_metrics_pods_ok idx w reqs lims Hw) as [[reqs1 lims1] ->]. simpl.
  rewrite <- Nat.add_succ_comm. apply IH; [done | lia].
Qed.

Lemma net_metrics_nics_ok n m acc l :
  net_ok n → (∀ k i, (k, i) ∈ l → is_Some (WgDevices n !! k)) → bw_len m acc.1.1 →
  ∃ acc', foldM (net_metrics_nic n) acc l = Ok acc' ∧ bw_len (m + 3 * length l) acc'.1.1.
Proof.
  intros Hn. revert m acc. induction l as [| [k i] l IH]; intros m [[nbw rb] lb] Hl Hm; simpl in *.
  { eexists. split; [done |]. simpl. by rewrite Nat.add_0_r. }
  destruct (Hl k i) as [gs Eg]; [by left |]. rewrite Eg.
  destruct (nok_groups _ Hn _ _ Eg) as [Hlen Hgs]. simpl.
  match goal with |- context [net_metrics_groups ?a ?b ?c ?d 0 nbw ∅ ∅ gs] =>
    destruct (net_metrics_groups_ok a b c d m 0 nbw ∅ ∅ gs Hgs Hm ltac:(lia)) as (nbw1 & rs & ls & -> & Hm1) end.
  simpl. destruct (nok_made _ Hn) as [c ->]. simpl. rewrite Hlen in Hm1.
  destruct (IH (m + 3)%nat (nbw1, <[an_Name i := rs]> rb, <[an_Name i := ls]> lb)) as (acc' & E & Hacc);
    [by intros ? ? ?; eapply Hl; right | done |].
  eexists. split; [exact E |]. replace (m + S (length l + _))%nat with (m + 3 + 3 * length l)%nat by lia. done.
Qed.

Lemma first3_ok l : (3 ≤ length l)%nat → ∃ r, first3 l = Ok r.
Proof. destruct l as [| a [| b [| c l]]]; simpl; try lia. intros _. by exists [a; b; c]. Qed.

Lemma UpdateCache_ok m :
  map_Forall (λ _, map_Forall (λ _, bw_ok)) (Cache m) → ∃ m', UpdateCache m = Ok m'.
Proof.
  intros Hm. unfold UpdateCache.
  match goal with |- context [foldM ?f ∅ ?l] =>
    destruct (foldM_total f (λ _, True) ∅ l) as (c & -> & _); [| done | simpl; by eauto] end.
  intros c [node nics] Hin _. apply elem_of_range in Hin. simpl.
  match goal with |- context [foldM ?f ∅ ?l] =>
    destruct (foldM_total f (λ _, True) ∅ l) as (c' & -> & _); [| done | simpl; by eauto] end.
  intros c' [k b] Hb _. apply elem_of_range in Hb. simpl.
  destruct (Hm _ _ Hin _ _ Hb) as (len & Hle & [Hr Ha Ht]).
  destruct (first3_ok (NetRequestBw b)) as [x ->]; [lia |].
  destruct (first3_ok (NetAllocBw b)) as [y ->]; [lia |].
  destruct (first3_ok (NetTotalBw b)) as [z ->]; [lia |]. simpl. eauto.
Qed.

Lemma UpdateNetMetrics_ok n : net_ok n → ∃ n', UpdateNetMetrics n = Ok n' ∧ rework n n'.
Proof.
  intros Hn. unfold UpdateNetMetrics.
  destruct (net_metrics_nics_ok n 0 (mkNetBw [] [] [], ∅, ∅) (range (NicInfos n))) as ([[nbw rb] lb] & -> & Hb);
    [done | intros k i Hin; by eapply nok_nics, elem_of_range | done |].
  simpl in Hb. cbn [obind]. destruct (nok_pods _ Hn) as [pb ->]. cbn [deref obind].
  destruct (nok_made _ Hn) as [nics0 Enics]. rewrite Enics. cbn [default].
  assert (Hc : map_Forall (λ _, map_Forall (λ _, bw_ok))
    (if (size (NicInfos n) =? 0)%nat then Cache (EngineCache n)
     else <[NodeName n := foldl (λ m (kv : string * ANicInfo), <[an_Name kv.2 := nbw]> m) nics0 (range (NicInfos n))]>
            (Cache (EngineCache n)))).
  { destruct (Nat.eqb_spec (size (NicInfos n)) 0) as [| Hne]; [apply Hn |].
    apply map_Forall_insert_2; [| apply Hn]. apply foldl_inv.
    - apply (nok_cache _ Hn _ _ Enics).
    - intros m kv _ Hm. apply map_Forall_insert_2; [| done]. eexists. split; [| exact Hb].
      rewrite length_range. lia. }
  match goal with |- context [UpdateCache ?m] => destruct (UpdateCache_ok m) as [mc ->]; [exact Hc |] end.
  simpl. eexists. split; [done |]. destruct Hn as [? ? ? ? ? ?]. split; [done.. |].
  split; simpl; try done.
  - destruct (_ =? 0)%nat; [done |]. rewrite lookup_insert_eq. eauto.
  - rewrite lookup_insert_eq. eauto.
Qed.

(** ** Limits and reports *)

Lemma same_nic_groups_ok gs gs' : Forall2 same_group gs gs' → nic_groups_ok gs → nic_groups_ok gs'.
Proof.
  intros HF [Hl Hok]. split; [by rewrite <- (Forall2_length _ _ _ HF) |].
  clear Hl. induction HF as [| w w' gs gs' Hw HF IH]; [done |].
  apply Forall_cons in Hok as [[] ?]. constructor; [| auto].
  by destruct Hw as (m & gl & ->).
Qed.

Lemma set_nic_groups_rework n k gs msgs :
  net_ok n → nic_groups_ok gs → rework n (send msgs (set_WgDevices (<[k := gs]> (WgDevices n)) n)).
Proof.
  intros [Hg Hi Hp Hm Hc Ho] Hgs. split; [done.. |].
  split; simpl; [by apply map_Forall_insert_2 | | done..].
  intros k' i E. rewrite lookup_insert. case_decide; eauto.
Qed.

#[local] Arguments set_limits : simpl never.
#[local] Arguments CalculateGroupBw : simpl never.

Lemma calNicAllocatable_ok k n :
  net_ok n → net_policies_set n →
  ∃ a n', calNicAllocatable k n = Ok (a, n') ∧ rework n n' ∧
    (is_Some (NicInfos n !! k) → ∃ s1 s2 s3 r1 r2 r3, a = Some (mkAlloc2 [s1; s2; s3] [r1; r2; r3])).
Proof.
  intros Hn Hp. unfold calNicAllocatable. destruct (NicInfos n !! k) as [nic |] eqn:Ei.
  2: { eexists _, _. split; [done |]. split; [by apply rework_refl |]. by intros [? ?]. }
  destruct (nok_nics _ Hn _ _ Ei) as [gs Eg]. rewrite Eg.
  pose proof (nok_groups _ Hn _ _ Eg) as Hgs. destruct Hgs as [Hlen Hok]. pose proof Hok as Hall.
  destruct gs as [| g0 [| g1 [| g2 [|]]]]; try done. simpl.
  rewrite !Forall_cons in Hok. destruct Hok as (H0' & H1' & H2' & _).
  change (index [g0; g1; g2] GaIndex) with (Ok g0). change (index [g0; g1; g2] BtIndex) with (Ok g1).
  change (index [g0; g1; g2] BeIndex) with (Ok g2). simpl.
  destruct (CalculateGroupBw_ok _ (base_requests _ H0')) as [ga ->]. simpl.
  destruct (CalculateGroupBw_ok _ (base_requests _ H1')) as [bt ->]. simpl.
  destruct (CalculateGroupBw_ok _ (base_actual _ H1')) as [act ->]. simpl.
  match goal with |- context [obind (set_limits ?m ?p ?dev 0 ?e ?l) _] =>
    destruct (set_limits_ok m p dev 0 e l) as (gs' & msgs & -> & HF) end;
    [apply (nok_policies _ Hn) | done | done | by intros ? |].
  simpl. eexists _, _. split; [done |]. split; [| by eauto 10].
  apply set_nic_groups_rework; [done |]. eapply same_nic_groups_ok; [exact HF |]. by split.
Qed.

Lemma updateLocalNIC_ok n :
  net_ok n → net_policies_set n →
  ∃ n' e, updateLocalNodeNICStatusIOInfo n = Ok (n', e) ∧ rework n n'.
Proof.
  intros Hn Hp. unfold updateLocalNodeNICStatusIOInfo.
  match goal with |- context [foldM ?f ?a ?l] =>
    destruct (foldM_total f (λ acc, rework n acc.2) a l) as ([io n1] & -> & Hn1) end.
  - intros [io n1] [k i] Hin Hn1. simpl in Hn1. apply elem_of_range in Hin.
    destruct (calNicAllocatable_ok k n1) as (a & n2 & E & Hn2 & Ha);
      [apply Hn1 | by eapply rework_policies |]. simpl. rewrite E. cbn [obind].
    destruct (UpdateNetMetrics_ok n2) as (n3 & -> & Hn3); [apply Hn2 |]. cbn [obind].
    destruct Ha as (s1 & s2 & s3 & r1 & r2 & r3 & ->).
    { rewrite (rw_nics _ _ Hn1), Hin. eauto. }
    eexists. split; [reflexivity |]. eapply rework_trans; [exact Hn1 |]. by eapply rework_trans.
  - by apply rework_refl.
  - simpl in *. destruct (agent_UpdateNodeIOStatus _ _ _ _ _) as [c e]. eexists _, _.
    split; [done |]. destruct Hn1 as [? ? ? [? ? ? ? ? ?]]. by split.
Qed.

(** ** Registration *)

Lemma net_register_pod_ok n kv :
  net_ok n → net_policies_set n → ∃ n', register_pod n kv = Ok n' ∧ rework n n'.
Proof.
  intros Hn Hp. unfold register_pod. destruct kv as [podId p].
  do 3 (destruct (String.eqb _ _); [by eauto using rework_refl |]).
  destruct (_ =? 0)%nat; [by eauto using rework_refl |].
  destruct (_ =? 0); [by eauto using rework_refl |].
  match goal with |- context [updateLocalNodeNICStatusIOInfo ?x] => set (n1 := x) end.
  assert (Hn1 : rework n n1).
  { destruct Hn. subst n1. destruct (_ =? RunPod), (_ =? StopPod); by split. }
  destruct (updateLocalNIC_ok n1) as (n2 & e & -> & Hn2); [apply Hn1 | by eapply rework_policies |].
  simpl. eexists. split; [done |]. by eapply rework_trans.
Qed.

Lemma net_RegisterPod_ok n :
  net_ok n → net_policies_set n → ∃ n', RegisterPod n = Ok n' ∧ rework n n'.
Proof.
  intros Hn Hp. apply (foldM_total register_pod (rework n)); [| by apply rework_refl].
  intros n1 kv _ Hn1. destruct (net_register_pod_ok n1 kv) as (n2 & -> & Hn2);
    [apply Hn1 | by eapply rework_policies |]. eexists. split; [done |]. by eapply rework_trans.
Qed.

(** ** Events of pods *)

(** A pod without a name is passed over. *)
Record net_info_ok (i : PodRunInfo) : Prop := mkNetInfoOk {
  ni_type : 0 <= ri_WorkloadType i <= 2;
  ni_request : is_Some (ri_Request i);
  ni_limit : is_Some (ri_Limit i)
}.
Definition net_cr_ok (p : PodData) : Prop :=
  map_Forall (λ _ ev, map_Forall (λ _ i, ri_PodName i ≠ "" → net_info_ok i) ev) (PodEvents p).

Lemma net_ProcessNriData_ok p n :
  net_ok n → net_policies_set n → ∃ n', ProcessNriData p n = Ok n' ∧ rework n n'.
Proof.
  intros Hn Hp. apply (foldM_total _ (rework n)); [| by apply rework_refl].
  intros n1 [podId i] _ Hn1. case_decide; [by eauto |].
  match goal with |- context [RegisterPod ?x] => set (n2 := x) end.
  assert (Hn2 : rework n1 n2) by (destruct Hn1 as [? ? ? [? ? ? ? ? ?]]; by split).
  destruct (net_RegisterPod_ok n2) as (n3 & -> & Hn3);
    [apply Hn2 | eapply rework_policies; [done |]; by eapply rework_policies |].
  eexists. split; [done |]. eapply rework_trans; [done |]. by eapply rework_trans.
Qed.

Lemma set_actual_base podId a w : is_Some a → group_base w → group_base (set_actual podId a w).
Proof.
  intros Ha Hw. unfold set_actual. destruct (RequestPods w !! podId) as [[x |] |]; try done.
  destruct Hw as [? ? ? ?]. split; simpl; auto with ioi.
Qed.
Lemma map_nic_groups_ok (f : WorkloadGroup → WorkloadGroup) gs :
  (∀ w, group_base w → group_base (f w)) → nic_groups_ok gs → nic_groups_ok (map f gs).
Proof.
  intros Hf [Hl Hok]. split; [by rewrite length_map |]. rewrite Forall_map.
  eapply Forall_impl; [exact Hok | done].
Qed.
Lemma alter_nic_groups_rework n k (f : WorkloadGroup → WorkloadGroup) :
  (∀ w, group_base w → group_base (f w)) → net_ok n →
  rework n (set_WgDevices (alter (map f) k (WgDevices n)) n).
Proof.
  intros Hf [Hg Hi Hp Hm Hc Ho]. split; [done.. |]. split; simpl; [| | done..].
  - intros k' gs. rewrite lookup_alter. case_decide; [| by apply Hg].
    intros (gs0 & E & ->)%fmap_Some. subst. apply map_nic_groups_ok; eauto.
  - intros k' i E. rewrite lookup_alter. case_decide; subst; [rewrite fmap_is_Some |]; eauto.
Qed.

Lemma ProcessNicIOData_ok p n :
  measured_ok p → net_ok n → net_policies_set n → ∃ n', ProcessNicIOData p n = Ok n' ∧ rework n n'.
Proof.
  intros Hm Hn Hp. unfold ProcessNicIOData.
  match goal with |- context [foldM ?f n ?l] =>
    destruct (foldM_total f (rework n) n l) as (n1 & -> & Hn1); [| by apply rework_refl |] end.
  - intros n1 [k ev] Hin Hn1. apply elem_of_range in Hin. apply (foldM_total _ (rework n)); [| done].
    intros n2 [uid i] Hi Hn2. apply elem_of_range in Hi. pose proof (Hm _ _ Hin _ _ Hi) as Ha.
    simpl in Ha |- *. destruct Ha as [a Ea]. rewrite Ea. simpl.
    match goal with |- context [calNicAllocatable k ?x] => set (n3 := x) end.
    assert (Hn3 : rework n n3).
    { eapply rework_trans; [exact Hn2 |]. apply alter_nic_groups_rework; [| apply Hn2].
      intros w. apply set_actual_base. eauto. }
    destruct (calNicAllocatable_ok k n3) as (al & n4 & -> & Hn4 & _);
      [apply Hn3 | by eapply rework_policies |]. simpl. eexists. split; [done |]. by eapply rework_trans.
  - cbn [obind]. destruct (nok_pods _ (rw_ok _ _ Hn1)) as [pb ->]. cbn [deref obind].
    match goal with |- context [UpdateNetMetrics ?x] => set (n2 := x) end.
    assert (Hn2 : rework n n2).
    { destruct Hn1 as [? ? ? [? ? ? ? ? ?]]. split; [done.. |]. split; simpl; try done.
      rewrite lookup_insert_eq. eauto. }
    destruct (UpdateNetMetrics_ok n2) as (n3 & -> & Hn3); [apply Hn2 |].
    eexists. split; [done |]. by eapply rework_trans.
Qed.

Lemma set_pod_base podId i w : net_info_ok i → group_base w → group_base (set_pod podId i w).
Proof. intros [Ht Hr Hl] [_ ? ? ?]. split; simpl; auto with ioi. Qed.

Lemma net_cr_pod_ok k (acc : Net K C V * gset string) uid i :
  (ri_PodName i ≠ "" → net_info_ok i) → is_Some (WgDevices acc.1 !! k) → net_ok acc.1 →
  ∃ acc', cr_pod k acc (uid, i) = Ok acc' ∧ rework acc.1 acc'.1 ∧ is_Some (WgDevices acc'.1 !! k).
Proof.
  intros Hi [gs Eg] Hn. destruct acc as [n visited]. unfold cr_pod. simpl in *.
  destruct (String.eqb_spec (ri_PodName i) "") as [| Hne].
  { eexists. split; [done |]. split; [by apply rework_refl | by exists gs]. }
  specialize (Hi Hne). rewrite Eg. simpl. pose proof (nok_groups _ Hn _ _ Eg) as [Hl Hok].
  pose proof (ni_type _ Hi). destruct (index_ok gs (ri_WorkloadType i)) as (w & -> & Ew); [lia |].
  simpl. eexists. split; [done |]. simpl. rewrite lookup_insert_eq. split; [| by eauto].
  assert (Hgs : nic_groups_ok (<[Z.to_nat (ri_WorkloadType i) := set_pod uid i w]> gs)).
  { split; [by rewrite length_insert |]. apply Forall_insert; [done |]. apply set_pod_base; [done |].
    rewrite Forall_lookup in Hok. eauto. }
  destruct (set_nic_groups_rework n k _ [] Hn Hgs) as [? ? ? [? ? ? ? ? ?]]. by split.
Qed.

Lemma clean_nic_groups_ok visited gs :
  nic_groups_ok gs → ∃ gs', clean_groups visited gs = Ok gs' ∧ nic_groups_ok gs'.
Proof.
  intros [Hl Hok]. unfold clean_groups. rewrite Hl. simpl. eexists. split; [done |].
  rewrite take_ge, drop_ge, app_nil_r by lia. apply map_nic_groups_ok; [| done].
  intros w [? ? ? ?]. split; simpl; auto using keep_visited_all_set.
Qed.

Lemma clean_all_nics_ok n visited :
  net_ok n →
  ∃ wgs, foldM (λ m kv, let! groups := clean_groups visited kv.2 in Ok (<[kv.1 := groups]> m))
           (WgDevices n) (range (WgDevices n)) = Ok wgs ∧ rework n (set_WgDevices wgs n).
Proof.
  intros Hn. apply (foldM_total _ (λ wgs, rework n (set_WgDevices wgs n))).
  - intros m [k gs] Hin Hm. apply elem_of_range in Hin. simpl.
    destruct (clean_nic_groups_ok visited gs (nok_groups _ Hn _ _ Hin)) as (gs' & -> & Hgs'). simpl.
    eexists. split; [done |].
    destruct (set_nic_groups_rework _ k gs' [] (rw_ok _ _ Hm) Hgs') as [? ? ? [? ? ? ? ? ?]]. by split.
  - destruct Hn. by split.
Qed.

Lemma ProcessNetworkCrData_ok p n :
  net_cr_ok p → net_ok n → net_policies_set n → ∃ n', ProcessNetworkCrData p n = Ok n' ∧ rework n n'.
Proof.
  intros Hcr Hn Hp. unfold ProcessNetworkCrData.
  set (n0 := set_NetObservedGeneration (pdata_Generation p) n).
  assert (Hn0 : rework n n0) by (destruct Hn; by split).
  match goal with |- context [foldM ?f (n0, ∅) ?l] =>
    destruct (foldM_total f (λ acc, rework n acc.1) (n0, ∅) l) as ([n1 visited] & -> & Hn1);
      [| done |] end.
  - intros acc [k ev] Hin Hacc. apply elem_of_range in Hin. simpl.
    destruct (WgDevices acc.1 !! k) as [gs |] eqn:Ek; [| by eauto].
    destruct (foldM_total (cr_pod k) (λ a, rework n a.1 ∧ is_Some (WgDevices a.1 !! k)) acc (range ev))
      as (acc' & -> & Hacc' & _); [| by eauto | by eauto].
    intros a [uid i] Hi [Ha Hk]. apply elem_of_range in Hi.
    destruct (net_cr_pod_ok k a uid i) as (a' & -> & Ha' & Hk'); [| done | apply Ha |].
    + by apply (Hcr _ _ Hin _ _ Hi).
    + eexists. split; [done |]. split; [by eapply rework_trans | done].
  - simpl. destruct (clean_all_nics_ok n1 visited) as (wgs & -> & Hn2); [apply Hn1 |]. simpl.
    match goal with |- context [RegisterPod ?x] => set (n3 := x) end.
    assert (Hn3 : rework n n3).
    { eapply rework_trans; [exact Hn1 |]. eapply rework_trans; [exact Hn2 |].
      destruct Hn2 as [? ? ? [? ? ? ? ? ?]]. by split. }
    destruct (net_RegisterPod_ok n3) as (n4 & -> & Hn4); [apply Hn3 | by eapply rework_policies |].
    eexists. split; [done |]. by eapply rework_trans.
Qed.

(** ** The event functions *)

Definition net_event_ok (x : EventData * net_handler) : Prop :=
  match x.2, x.1 with
  | ProcessAdmin_f, EvAdmin _ | ProcessPolicy_f, EvPolicy _ | ProcessNriData_f, EvPod _
  | ProcessProfile_f, EvProfile _ => True
  | ProcessNicIOData_f, EvPod p => measured_ok p
  | ProcessNetworkCrData_f, EvPod p => net_cr_ok p
  | _, _ => False
  end.

Abbreviation ninv := (inv (S := Net K C V) ne_eng net_ok net_flag_pre net_event_ok).
Abbreviation nkeeps_inv := (keeps_inv (S := Net K C V) ne_eng net_ok net_flag_pre net_event_ok).

Lemma rework_inv m n n' : rework n n' → ninv m n → ninv m n'.
Proof.
  intros [Ee Ep _ Hok] [HJ Hf Hu Hc]. split; rewrite ?Ee; try done.
  intros flag Hin E Hfl. unfold net_policies_set. rewrite Ep. by apply (Hf flag).
Qed.

Lemma net_publish_rework n : net_ok n → rework n (publish_config n).1.
Proof.
  intros [? ? ? ? ? ?]. unfold publish_config. destruct (IsExecution _); [| by split].
  destruct (UpdateNodeStaticIOInfoSpec _ _ _). by split.
Qed.
Lemma net_set_and_publish_safe m (sf : Z → GoM (Net K C V) ()) flag n
    (k : Net K C V * option error → outcome (option error * Net K C V)) :
  nkeeps_inv m sf → flag ∈ flags → ninv m n → net_flag_pre flag n →
  (∀ r, ninv m r.1 → safe (ninv m) (k r)) →
  safe (ninv m) (let! '(_, n) := sf flag n in k (publish_config n)).
Proof.
  intros Hsf Hf Hn Hp Hk. destruct (Hsf flag n Hf Hn Hp) as (n1 & -> & Hn1). simpl. apply Hk.
  eapply rework_inv; [| exact Hn1]. apply net_publish_rework. apply Hn1.
Qed.

Lemma net_ProcessAdmin_safe m (sf : Z → GoM (Net K C V) ()) a n :
  nkeeps_inv m sf → ninv m n → safe (ninv m) (ProcessAdmin sf a n).
Proof.
  intros Hsf Hn. unfold ProcessAdmin.
  apply (net_set_and_publish_safe m sf AdminFlag _ (λ '(n, err), Ok (err, n)));
    [done | set_solver | | done | by intros [? ?] ?; eexists _, _].
  eapply rework_inv; [| exact Hn]. apply inv_state in Hn. destruct Hn. by split.
Qed.

Lemma net_ProcessPolicy_safe m (sf : Z → GoM (Net K C V) ()) p n :
  nkeeps_inv m sf → ninv m n → safe (ninv m) (ProcessPolicy sf p n).
Proof.
  intros Hsf Hn. unfold ProcessPolicy.
  match goal with |- context [set_GpPolicy ?x n] => set (pol := x) end.
  pose proof (nok_policies _ (inv_state _ _ _ _ _ _ Hn)) as Hlen.
  assert (Hpol : length pol = 3%nat ∧ (net_policies_set n → Forall is_Some pol)).
  { subst pol. unfold net_policies_set. destruct (p !! "NetGArules"), (p !! "NetBTrules"), (p !! "NetBErules");
      (split; [by rewrite ?length_insert |]); intros HF; by repeat apply Forall_insert. }
  assert (Hn1 : ninv m (set_GpPolicy pol n)).
  { destruct Hn as [[? ? ? ? ? ?] Hf Hu Hc]. split; [| | done..].
    - split; try done. apply Hpol.
    - intros flag Hin E Hfl. apply Hpol. by apply (Hf flag). }
  destruct (p !! "NetGArules") as [p0 |] eqn:E0, (p !! "NetBTrules") as [p1 |] eqn:E1,
    (p !! "NetBErules") as [p2 |] eqn:E2; try (by eexists _, _).
  apply (net_set_and_publish_safe m sf PolicyFlag _ (λ '(n, err), Ok (err, n)));
    [done | set_solver | done | | by intros [? ?] ?; eexists _, _].
  intros _. subst pol. unfold net_policies_set. simpl. rewrite ?E0, ?E1, ?E2.
  destruct (GpPolicy n) as [| ? [| ? [| ? [|]]]]; try done. simpl.
  repeat constructor; eauto.
Qed.

(** What the loop over the profile keeps. *)
Definition profiling_ok (a : profiling) : Prop :=
  map_Forall (λ _, nic_groups_ok) (pf_Groups a) ∧
  ∀ k i, pf_Nics a !! k = Some i → is_Some (pf_Groups a !! k).
Lemma profile_nic_ok n a kv : profiling_ok a → profiling_ok (profile_nic n a kv).
Proof.
  destruct kv as [k i]. intros [Hg Hi]. unfold profile_nic. split; simpl.
  - destruct (pf_Groups a !! k); [done |]. apply map_Forall_insert_2; [| done]. split; [done |].
    simpl. rewrite !Forall_cons, Forall_nil. split_and!; try done; by split.
  - intros k' i' E. destruct (pf_Groups a !! k) as [gs |] eqn:Ek.
    + destruct (String.eqb _ _); [| by eauto]. apply lookup_insert_Some in E as [[<- _] | [_ E]]; eauto.
    + rewrite lookup_insert. case_decide as Hk; [by eauto |]. destruct (String.eqb _ _); [| by eauto].
      rewrite lookup_insert_ne in E by done. eauto.
Qed.

Lemma take_settable_ok l gs :
  (length l ≤ length gs)%nat → Forall group_base gs →
  ∃ gs', take_settable l gs = Ok gs' ∧ length gs' = length gs ∧ Forall group_base gs'.
Proof.
  revert gs. induction l as [| s l IH]; intros gs Hl Hgs; simpl in *; [by eauto |].
  destruct gs as [| w gs]; simpl in *; [lia |]. apply Forall_cons in Hgs as [[] Hgs].
  destruct (IH gs) as (gs' & -> & Hlen & Hgs'); [lia | done |]. simpl. eexists. split; [done |].
  simpl. split; [congruence | by constructor].
Qed.

Lemma set_groups_settable_ok l n :
  (length l ≤ 3)%nat → net_ok n → ∃ n', set_groups_settable l n = Ok n' ∧ rework n n'.
Proof.
  intros Hl Hn. apply (foldM_total _ (rework n)); [| by apply rework_refl].
  intros n1 [k i] Hin Hn1. apply elem_of_range in Hin. rewrite <- (rw_nics _ _ Hn1) in Hin.
  destruct (nok_nics _ (rw_ok _ _ Hn1) _ _ Hin) as [gs Eg]. simpl. rewrite Eg. simpl.
  destruct (nok_groups _ (rw_ok _ _ Hn1) _ _ Eg) as [Hlen Hgs].
  destruct (take_settable_ok l gs) as (gs' & -> & Hlen' & Hgs'); [lia | done |]. simpl.
  eexists. split; [done |]. destruct (_ =? 0)%nat; [done |]. eapply rework_trans; [exact Hn1 |].
  destruct (set_nic_groups_rework n1 k gs' [] (rw_ok _ _ Hn1)) as [? ? ? [? ? ? ? ? ?]];
    [split; [lia | done] |]. by split.
Qed.

Lemma configure_ok ips groups n :
  net_ok n →
  ∃ n', (let! '(settable, n) := IOIConfigureNet CNI GATEWAY ips groups n in
         set_groups_settable settable n) = Ok n' ∧ rework n n'.
Proof.
  intros Hn. unfold IOIConfigureNet. destruct (IoiClient n) as [v |].
  - match goal with |- context [rpc_Configure v ?c ?t] =>
      destruct (service_answers v c t) as (v' & info & -> & Hlen) end. cbn [obind].
    match goal with |- context [set_groups_settable ?l ?x] => set (n1 := x) end.
    assert (Hn1 : rework n n1) by (destruct Hn; by split).
    destruct (set_groups_settable_ok (unmarshal_settable info) n1 Hlen (rw_ok _ _ Hn1)) as (n2 & E & Hn2).
    exists n2. split; [exact E |]. by eapply rework_trans.
  - apply set_groups_settable_ok; [simpl; lia | done].
Qed.

Lemma net_ProcessProfile_safe m (sf : Z → GoM (Net K C V) ()) p n :
  nkeeps_inv m sf → ninv m n → safe (ninv m) (ProcessProfile sf p n).
Proof.
  intros Hsf Hn. unfold ProcessProfile. destruct (DeepEqual_nics _ _); [by eexists _, _ |].
  match goal with |- context [foldl ?f ?a ?l] =>
    assert (Ha : profiling_ok (foldl f a l)); [| set (pf := foldl f a l) in *] end.
  { apply foldl_inv; [| intros; by apply profile_nic_ok]. apply inv_state in Hn. split; apply Hn. }
  apply (net_set_and_publish_safe m sf ProfileFlag _ (λ '(n, err), _)); [done | set_solver | | done |].
  - destruct Hn as [[? ? ? ? ? ?] Hf Hu Hc]. destruct Ha. split; [| done..]. by split.
  - intros [n1 [e |]] Hn1; [by eexists _, _ |]. simpl in Hn1.
    match goal with |- context [IOIConfigureNet _ _ ?ips ?gs n1] =>
      destruct (configure_ok ips gs n1 (inv_state _ _ _ _ _ _ Hn1)) as (n2 & E & Hn2) end.
    destruct (IOIConfigureNet _ _ _ _ n1) as [[l n3] |]; simpl in E |- *; [| done].
    rewrite E. simpl. eexists _, _. split; [done |]. by eapply rework_inv.
Qed.

#[export] Instance net_SafeHandlers :
  SafeHandlers (S := Net K C V) ne_eng set_ne_eng run_net net_ok net_flag_pre net_event_ok.
Proof.
  split; [done | by intros e n [? ? ? ? ? ?] | done |]. intros m sf [data h] n Hsf Hx He Hn. simpl in *.
  assert (Hpol : Expect data = all_flags → net_policies_set n).
  { intros E. apply (inv_flags _ _ _ _ _ _ Hn PolicyFlag); [set_solver | | done].
    by apply (expects_policy _ data). }
  pose proof (inv_state _ _ _ _ _ _ Hn) as Hok.
  assert (Hdone : ∀ o, (∃ n', o = Ok n' ∧ rework n n') →
                       safe (ninv m) (let! n := o in Ok (None (A := error), n))).
  { intros o (n' & -> & Hn'). eexists _, _. split; [done |]. by eapply rework_inv. }
  destruct h, data; try done; simpl;
    eauto using net_ProcessAdmin_safe, net_ProcessProfile_safe, net_ProcessPolicy_safe,
      net_ProcessNriData_ok, ProcessNicIOData_ok, ProcessNetworkCrData_ok.
Qed.

(** ** The engine as a machine *)

(** An event on one of the channels that the engine listens to. *)
Inductive net_event :=
| OnNetAdmin (a : AdminResourceConfig)
| OnNetProfile (p : AllProfile)
| OnNetPolicy (p : gmap string Policy)
| OnNetPod (p : PodData).

Definition net_dispatch := dispatch (S := Net K C V) ne_eng set_ne_eng run_net.
Definition net_step n (ev : net_event) : outcome (Net K C V) :=
  match ev with
  | OnNetAdmin a => net_dispatch AdminChan_handles (EvAdmin a) n
  | OnNetProfile p => net_dispatch ProfileChan_handles (EvProfile p) n
  | OnNetPolicy p => net_dispatch PolicyChan_handles (EvPolicy p) n
  | OnNetPod p => net_dispatch PodInfoChan_handles (EvPod p) n
  end.
(** Measurements carry a measurement, and scheduled pods their requests. *)
Definition net_data_ok (ev : net_event) : Prop :=
  match ev with
  | OnNetPod p => (pdata_T p = 3 → measured_ok p) ∧ (pdata_T p = 4 → net_cr_ok p)
  | _ => True
  end.

Lemma net_pod_type T : (pod_type T = "Network" → T = 3) ∧ (pod_type T = "Network_CR" → T = 4).
Proof. unfold pod_type. repeat (case_match; [split; intros; try done; lia |]). done. Qed.

Lemma net_step_inv n ev :
  net_data_ok ev → ninv flag_depth n → ∃ n', net_step n ev = Ok n' ∧ ninv flag_depth n'.
Proof.
  intros Hev Hn. destruct ev as [a | p | p | p]; simpl;
    apply (dispatch_safe ne_eng set_ne_eng run_net net_ok net_flag_pre net_event_ok); try done;
    intros h Hh Hk.
  1-3: apply list_elem_of_singleton in Hh as ->; by simpl.
  unfold PodInfoChan_handles in Hh. destruct Hev as [Hm Hc]. destruct (net_pod_type (pdata_T p)) as [H3 H4].
  repeat (apply elem_of_cons in Hh as [-> | Hh]); [| | | by apply elem_of_nil in Hh];
    (split; [| done]); unfold net_event_ok; simpl in *; auto.
Qed.

Lemma net_Initialize_inv (io : NodeStaticIOInfo) (k : K) (c : option C) (v : option V) :
  ninv flag_depth (Initialize io k c v).
Proof.
  split; [| | simpl; unfold flag_depth; by vm_compute | done].
  - split; simpl; try done.
    + rewrite lookup_singleton_eq. eauto.
    + by apply map_Forall_singleton.
    + rewrite lookup_singleton_eq. eauto.
  - intros flag Hin. simpl. intros E Hf. subst. discriminate E.
Qed.

(** The network engine does not panic while the I/O service answers.  From
    the state it starts in, whatever events arrive on its channels, in any
    order, with measurements that carry a value and scheduled pods that carry
    their requests, every step returns; and then each known NIC has its three
    workload groups, in which every pod has its request and limit, every
    master NIC is known, and the metrics of each NIC show its three groups. *)
Theorem net_engine_never_panics (io : NodeStaticIOInfo) (k : K) (c : option C) (v : option V)
    (l : list net_event) :
  Forall net_data_ok l →
  ∃ n, foldM net_step (Initialize io k c v) l = Ok n ∧ net_ok n ∧
    (Z.land (Flag (ne_eng n)) PolicyFlag = PolicyFlag → net_policies_set n).
Proof.
  intros Hl. destruct (foldM_total net_step (ninv flag_depth) (Initialize io k c v) l) as (n & E & Hn).
  - intros n ev Hin Hn. rewrite Forall_forall in Hl. by apply net_step_inv; [apply Hl |].
  - apply net_Initialize_inv.
  - exists n. split; [done |]. destruct Hn as [Hok Hf _ _]. split; [done |]. intros Ep.
    by apply (Hf PolicyFlag); [set_solver | |].
Qed.
End Safety.
