(* ===== verification/RdtAgentFacts.v ===== *)
(** * The rdt engines of the node agent

    The engines never panic and lose no event; what a container is registered
    with, compared with what the scheduler charged for its pod. *)

From S2P Require Export AgentRdt AgentFacts.

Section RdtAgentFacts.
Context `{Q : QuantityLib} `{!GoRange} `{!AgentLib} `{!JsonLib} `{!RdtAgentJson}.
Context {K C : Type} `{!StaticClient K} `{!AggrClient C}.
Implicit Types (r : Rdt K C).

(** ** The embedded engine *)

Lemma publish_same config r : rd_eng (publish config r).1 = rd_eng r.
Proof. unfold publish. by destruct (UpdateNodeStaticIOInfoSpec _ _ _). Qed.

Lemma process_classes_same config t data r : rd_eng (process_classes config t data r).1 = rd_eng r.
Proof.
  unfold process_classes. match goal with |- context [publish config ?x] => pose proof (publish_same config x) as E end.
  destruct (publish config _) as [r1 [e |]]; simpl in *; [done |].
  by destruct (agent_UpdateNodeIOStatus _ _ _ _ _).
Qed.

Lemma process_containers_same reg unreg data r : rd_eng (process_containers reg unreg data r) = rd_eng r.
Proof.
  unfold process_containers. apply (foldl_inv (λ r', rd_eng r' = rd_eng r)); [done |].
  intros r1 kv _ E. exact E.
Qed.

(** What the administrator's event functions of the two engines have in
    common: they raise the flags, between steps that leave the engine alone. *)
Definition raises_flags (admin : (Z → GoM (Rdt K C) ()) → AdminResourceConfig → GoM (Rdt K C) (option error))
    : Prop :=
  ∃ (start : AdminResourceConfig → Rdt K C → Rdt K C) (stop : Rdt K C → Rdt K C * option error),
    (∀ sf a r, admin sf a r =
       let! '(_, r) := raise_flags sf (start a r) in let '(r, err) := stop r in Ok (err, r)) ∧
    (∀ a r, rd_eng (start a r) = rd_eng r) ∧ ∀ r, rd_eng (stop r).1 = rd_eng r.

Lemma rdt_raises_flags : raises_flags ProcessAdmin.
Proof.
  exists (λ a r, set_NSWhitelist (NamespaceWhitelist a) (send
      [Configure "INTERVAL" (marshal_interval (RdtInterval (Interval a))) RDTIOIType] r)), (λ r, (r, None)).
  done.
Qed.
Lemma rdtq_raises_flags : raises_flags rdtq_ProcessAdmin.
Proof.
  exists (λ a r, set_NSWhitelist (NamespaceWhitelist a) r),
    (λ r, if IsExecution (rd_eng r) then publish RDTQuantity_config r else (r, None)).
  split; [| split; [done |]].
  - intros sf a r. unfold rdtq_ProcessAdmin. destruct (raise_flags _ _) as [[u r1] |]; simpl; [| done].
    by destruct (IsExecution _).
  - intros r. simpl. destruct (IsExecution _); [apply publish_same | done].
Qed.

(** An engine whose other event functions return and leave the flags alone. *)
Section Engine.
Context (admin : (Z → GoM (Rdt K C) ()) → AdminResourceConfig → GoM (Rdt K C) (option error))
  (classes : ClassData → Rdt K C → Rdt K C * option error) (nri : ContainerData → Rdt K C → Rdt K C).
Hypothesis Hadmin : raises_flags admin.
Hypothesis Hclasses : ∀ c r, rd_eng (classes c r).1 = rd_eng r.
Hypothesis Hnri : ∀ c r, rd_eng (nri c r) = rd_eng r.
Abbreviation run := (λ sf, run_with (admin sf) classes nri).

Lemma raise_flags_keeps (I : IOEngine rdt_handler → Prop) sf r :
  (∀ flag r, flag ∈ flags → I (rd_eng r) → keeps rd_eng I (sf flag r)) →
  I (rd_eng r) → keeps (S := Rdt K C) rd_eng I (raise_flags sf r).
Proof.
  intros Hsf HI. unfold raise_flags, mbindM.
  do 2 (eapply spares_bind; [apply Hsf; [set_solver | done] |]; intros [? ?] ?; simpl in *).
  apply Hsf; [set_solver | done].
Qed.

Lemma rdt_with_Handlers : Handlers (S := Rdt K C) rd_eng set_rd_eng run.
Proof.
  destruct Hadmin as (start & stop & Heq & Hstart & Hstop).
  split; [done |]. intros I sf Hsf h dt r HI. destruct h, dt; try reflexivity; simpl.
  - rewrite Heq. eapply spares_bind; [apply raise_flags_keeps; [done | by rewrite Hstart] |].
    intros [u r1] Hr1. simpl in *. pose proof (Hstop r1) as E. destruct (stop r1) as [r2 err]. simpl in *.
    by rewrite E.
  - pose proof (Hclasses p r) as E. destruct (classes p r) as [r1 err]. simpl in *. by rewrite E.
  - by rewrite Hnri.
  - done.
Qed.

(** *** No event panics *)

Definition rdt_event_ok (x : EventData * rdt_handler) : Prop :=
  match x.2, x.1 with
  | ProcessAdmin_f, EvAdmin _ | ProcessRDTData_f, EvClass _ | ProcessNriData_f, EvContainer _
  | ProcessRDTCrData_f, EvPod _ => True
  | _, _ => False
  end.
Abbreviation rinv := (inv (S := Rdt K C) rd_eng (λ _, True) (λ _ _, True) rdt_event_ok).

Lemma rdt_same_inv n r r' : rd_eng r' = rd_eng r → rinv n r → rinv n r'.
Proof. intros E [? ? ? ?]. by split; rewrite ?E. Qed.

Lemma rdt_with_SafeHandlers :
  SafeHandlers (S := Rdt K C) rd_eng set_rd_eng run (λ _, True) (λ _ _, True) rdt_event_ok.
Proof.
  destruct Hadmin as (start & stop & Heq & Hstart & Hstop).
  split; [done.. |]. intros n sf [data h] r Hsf Hx _ Hr. destruct h, data; try done; simpl.
  - rewrite Heq. unfold raise_flags, mbindM.
    destruct (Hsf AdminFlag (start p r)) as (r1 & -> & Hr1);
      [set_solver | eapply rdt_same_inv; [apply Hstart | done] | done |].
    cbn [obind]. destruct (Hsf PolicyFlag r1) as (r2 & -> & Hr2); [set_solver | done | done |].
    cbn [obind]. destruct (Hsf ProfileFlag r2) as (r3 & -> & Hr3); [set_solver | done | done |].
    cbn [obind]. pose proof (Hstop r3) as E. destruct (stop r3) as [r4 err]. eexists _, _.
    split; [done |]. eapply rdt_same_inv; [exact E | done].
  - pose proof (Hclasses p r) as E. destruct (classes p r) as [r1 err]. eexists _, _.
    split; [done |]. eapply rdt_same_inv; [exact E | done].
  - eexists _, _. split; [done |]. eapply rdt_same_inv; [apply Hnri | done].
  - eexists _, _. split; [done |]. by apply (rdt_same_inv _ r).
Qed.
End Engine.

#[export] Instance rdt_Handlers : Handlers (S := Rdt K C) rd_eng set_rd_eng run_rdt.
Proof.
  apply (rdt_with_Handlers ProcessAdmin ProcessRDTData ProcessNriData);
    [apply rdt_raises_flags | intros; apply process_classes_same | intros; apply process_containers_same].
Qed.
#[export] Instance rdtq_Handlers : Handlers (S := Rdt K C) rd_eng set_rd_eng run_rdtq.
Proof.
  apply (rdt_with_Handlers rdtq_ProcessAdmin ProcessRDTQuantityData rdtq_ProcessNriData);
    [apply rdtq_raises_flags | intros; apply process_classes_same | intros; apply process_containers_same].
Qed.
#[export] Instance rdt_SafeHandlers :
  SafeHandlers (S := Rdt K C) rd_eng set_rd_eng run_rdt (λ _, True) (λ _ _, True) rdt_event_ok.
Proof.
  apply (rdt_with_SafeHandlers ProcessAdmin ProcessRDTData ProcessNriData);
    [apply rdt_raises_flags | intros; apply process_classes_same | intros; apply process_containers_same].
Qed.
#[export] Instance rdtq_SafeHandlers :
  SafeHandlers (S := Rdt K C) rd_eng set_rd_eng run_rdtq (λ _, True) (λ _ _, True) rdt_event_ok.
Proof.
  apply (rdt_with_SafeHandlers rdtq_ProcessAdmin ProcessRDTQuantityData rdtq_ProcessNriData);
    [apply rdtq_raises_flags | intros; apply process_classes_same | intros; apply process_containers_same].
Qed.

(** ** What containers are registered with *)

(** The agent fills an annotation in as the scheduler does. *)
Lemma fill_complete (pod : Pod) anno anno' :
  complete_anno pod anno = Some anno' → fill_anno (pod_Name pod) anno = anno'.
Proof.
  unfold complete_anno, fill_anno. destruct (_ && _ && _ && _); [by intros [= <-] |].
  destruct (_ || _); [done |]. by intros [= <-].
Qed.

(** A container is registered without its request of L3 cache.  For every
    annotation that the scheduler accepts, the agent registers the class and
    the three other quantities that the scheduler charged (the limit of L3
    cache and both of memory bandwidth); but the request of L3 cache is
    written to the field of the limit, and what the service gets for it is
    zero, whatever the scheduler set aside. *)
Theorem quantity_registration (pod : Pod) (c : ContainerInfo) anno anno' req :
  ct_PodName c = pod_Name pod → RDTQuantityAnnotation c ≠ "" →
  unmarshal_rdtq (RDTQuantityAnnotation c) = (anno, true) →
  complete_anno pod anno = Some anno' → class_request anno' = inl req →
  ∃ l3_request l3_limit mb_request mb_limit,
    DevRequest req = Some (mkDevReq (ra_Class anno') (only_in l3_request) (only_in l3_limit)
                             (only_in mb_request) (only_in mb_limit)) ∧
    IOIRegisterRDTQuantity c =
      [RegisterApp (ContainerId c)
         (marshal_rdt_info (mkRdtApp (ContainerName c) (ContainerCGroupPath c) (ra_Class anno')
            (ct_PodUid c) (ct_PodName c) (mkClassInfo fzero l3_limit mb_request mb_limit)))
         RDTQuantityIOIType].
Proof.
  intros Hn Ha Hu Hc Hr. unfold class_request in Hr.
  destruct (L3_Parse (anno_L3 (ra_Requests anno'))) as [a |] eqn:E1; [| done].
  destruct (L3_Parse (anno_L3 (ra_Limits anno'))) as [b |] eqn:E2; [| done].
  destruct (Mb_Parse (anno_Mb (ra_Requests anno'))) as [m |] eqn:E3; [| done].
  destruct (Mb_Parse (anno_Mb (ra_Limits anno'))) as [l |] eqn:E4; [| done].
  injection Hr as <-. exists a, b, m, l. split; [done |]. unfold IOIRegisterRDTQuantity.
  destruct (String.eqb_spec (RDTQuantityAnnotation c) "") as [| _]; [done |]. rewrite Hu, Hn.
  rewrite (fill_complete pod anno anno' Hc). unfold class_info. by rewrite E2, E3, E4.
Qed.
End RdtAgentFacts.
