(* ===== verification/NodeFacts.v ===== *)
(** * The node agent and the aggregator together

    The lists that the aggregator sends fit the disk engine; and a list that
    is overtaken by a later one loses its pods' details. *)

From S2P Require Export DeliveryFacts RegisterFacts.

Section Node.
Context `{Q : QuantityLib} `{!GoSort} `{!GoRange} `{!AgentLib} `{!AllocLib}.
Context {K C A : Type} `{!StaticClient K} `{!AggrClient C} `{!KubeClient A} `{!StatesServed K}.

(** ** Updates fit the engine *)

Definition events_ok (m : gmap string PodEventInfo) : Prop :=
  map_Forall (λ _ ev, map_Forall run_info_ok ev) m.

Lemma run_info_fits uid name t req lim raw rawl :
  no_dot uid → run_info_ok uid (run_info name t req lim raw rawl).
Proof.
  intros Hu. unfold run_info. split; simpl; eauto.
  destruct (negb _); [destruct (same_bounds _ _) |]; unfold GaIndex, BtIndex, BeIndex; lia.
Qed.

Lemma add_event_ok dev uid i m :
  run_info_ok uid i → events_ok m → events_ok (add_event dev uid i m).
Proof.
  intros Hi Hm. unfold add_event. apply map_Forall_insert_2; [| done].
  apply map_Forall_insert_2; [done |]. destruct (m !! dev) as [ev |] eqn:E; simpl.
  - by apply (Hm dev).
  - apply map_Forall_empty.
Qed.

Definition updates_ok (u : updates) : Prop :=
  events_ok (up_disk u) ∧ events_ok (up_net u) ∧ events_ok (up_rdtq u).

Lemma add_pod_event_fits uid name u r u' :
  no_dot uid → updates_ok u → add_pod_event uid name u r = Ok u' → updates_ok u'.
Proof.
  intros Hu (Hd & Hn & Hq) E. unfold add_pod_event in E. inv_ok E.
  unfold updates_ok. destruct (IoType r); simpl; try done; split_and!; try done;
    apply add_event_ok; try done; try (by apply run_info_fits).
Qed.

Lemma pods_step_fits l acc acc' :
  (∀ uid p, (uid, p) ∈ l → no_dot uid) → updates_ok acc.2 →
  foldM pods_step acc l = Ok acc' → updates_ok acc'.2.
Proof.
  intros Hl. apply (foldM_inv pods_step (λ acc, updates_ok acc.2)).
  intros [cr u] [uid p] acc1 Hin Hok E. simpl in *. apply Hl in Hin.
  destruct (pod_request cr uid p) as [cr1 [r |]]; [| by injection E as <-].
  apply obind_Ok in E as (u1 & Eu & E). injection E as <-. simpl.
  revert Eu. apply (foldM_inv _ updates_ok); [| done].
  intros u2 req u3 _ Hu2. by apply add_pod_event_fits.
Qed.

(** What an aggregator sends: its list of pods, whose identifiers have no
    dot. *)
Definition from_aggregator (pl : WirePodList) : Prop :=
  ∃ (k : A) gen pods added, pl = Aggregator.GetPodList k gen pods added ∧
    map_Forall (λ uid _, no_dot uid) pods.

Lemma listed_no_dot pl uid p : from_aggregator pl → (uid, p) ∈ range (wl_PodList pl) → no_dot uid.
Proof.
  intros (k & gen & pods & added & -> & Hp) Hin%elem_of_range. rewrite listed_pods_lookup in Hin.
  apply bind_Some in Hin as (v & Ev & _). by apply (Hp uid v).
Qed.

(** The updates that the agent makes of a list: each is for scheduled pods,
    whose requests it carries. *)
Definition update_ok (p : PodData) : Prop :=
  pdata_T p ∈ [2; 4; 5; 6] ∧ events_ok (PodEvents p).

Lemma received_updates_ok s pl :
  from_aggregator pl → known_ok (CrPodRequest s) →
  ∃ cr l, receive_pods pl s = Ok (mkAgentState cr (PodInfoChan s ++ l)) ∧ known_ok cr ∧ Forall update_ok l.
Proof.
  intros Hpl Hcr. unfold receive_pods, ProcessPodsFromAggregator. fold pods_step.
  destruct (pods_steps (range (wl_PodList pl)) (CrPodRequest s) (mkUpdates ∅ ∅ ∅) Hcr)
    as (cr & u & E & Hcr' & _).
  { destruct Hpl as (k & gen & pods & added & -> & _). apply GetPodList_sent_ok. }
  rewrite E. simpl. eexists _, _. split; [done |]. split; [done |].
  apply pods_step_fits in E as (Hd & Hn & Hq); [| by intros uid p; apply listed_no_dot |].
  - repeat apply Forall_cons_2; try apply Forall_nil_2; (split; [set_solver |]); done.
  - by split_and!; apply map_Forall_empty.
Qed.

Lemma update_pod_ok p : update_ok p → pod_ok p.
Proof.
  intros [HT Hev]. split; intros E.
  - rewrite E in HT. apply list_elem_of_In in HT. simpl in HT. lia.
  - intros dev ev Hdev uid i Hi _. by apply (Hev dev ev Hdev).
Qed.

Lemma received_pods_fit s pl :
  from_aggregator pl → known_ok (CrPodRequest s) →
  ∃ cr l, receive_pods pl s = Ok (mkAgentState cr (PodInfoChan s ++ l)) ∧ known_ok cr ∧ Forall pod_ok l.
Proof.
  intros Hpl Hcr. destruct (received_updates_ok s pl Hpl Hcr) as (cr & l & E & Hk & Hl).
  exists cr, l. split; [done |]. split; [done |]. eapply Forall_impl; [exact Hl | apply update_pod_ok].
Qed.

(** ** The agent with its disk engine *)

Record NodeAgent := mkNodeAgent { na_state : AgentState; na_disk : Disk K C }.

(** A list arrives; the engine takes an update off the channel; anything else
    happens to the engine. *)
Inductive node_event :=
| ListArrives (pl : WirePodList)
| TakeUpdate
| EngineEvent (ev : disk_event).
Definition node_step (n : NodeAgent) (ev : node_event) : outcome NodeAgent :=
  match ev with
  | ListArrives pl =>
      let! s := receive_pods pl (na_state n) in Ok (mkNodeAgent s (na_disk n))
  | TakeUpdate =>
      match PodInfoChan (na_state n) with
      | [] => Ok n
      | p :: ch =>
          let! d := disk_step (na_disk n) (OnPod p) in
          Ok (mkNodeAgent (mkAgentState (CrPodRequest (na_state n)) ch) d)
      end
  | EngineEvent ev => let! d := disk_step (na_disk n) ev in Ok (mkNodeAgent (na_state n) d)
  end.
Definition node_event_ok (ev : node_event) : Prop :=
  match ev with
  | ListArrives pl => from_aggregator pl
  | TakeUpdate => True
  | EngineEvent ev => disk_event_ok ev
  end.

Record node_ok (n : NodeAgent) : Prop := mkNodeOk {
  no_known : known_ok (CrPodRequest (na_state n));
  no_chan : Forall pod_ok (PodInfoChan (na_state n));
  no_disk : inv dk_eng disk_ok flag_pre event_ok flag_depth (na_disk n)
}.

#[local] Arguments disk_step : simpl never.

Lemma node_step_ok n ev :
  node_event_ok ev → node_ok n → ∃ n', node_step n ev = Ok n' ∧ node_ok n'.
Proof.
  intros Hev [Hk Hc Hd]. destruct ev as [pl | | ev]; simpl in *.
  - destruct (received_pods_fit (na_state n) pl Hev Hk) as (cr & l & -> & Hcr & Hl). simpl.
    eexists. split; [done |]. split; simpl; [done | by apply Forall_app_2 | done].
  - destruct (PodInfoChan (na_state n)) as [| p ch] eqn:E.
    { eexists. split; [done |]. split; [done | by rewrite E | done]. }
    apply Forall_cons in Hc as [Hp Hc]. destruct (disk_step_inv (na_disk n) (OnPod p) Hp Hd) as (d & -> & Hd').
    simpl. eexists. split; [done |]. by split.
  - destruct (disk_step_inv (na_disk n) ev Hev Hd) as (d & -> & Hd'). simpl.
    eexists. split; [done |]. by split.
Qed.

(** The agent when it starts. *)
Definition node_start (io : NodeStaticIOInfo) (k : K) (c : option C) : NodeAgent :=
  mkNodeAgent (mkAgentState ∅ []) (Initialize io k c).

Lemma node_start_ok io k c : node_ok (node_start io k c).
Proof. split; simpl; [apply map_Forall_empty | done | apply Initialize_inv]. Qed.

(** The node agent takes what the aggregator sends.  However pod lists
    from the aggregator, events of the engine's other sources and the engine's
    own progress interleave, receiving a list and handling its updates never
    panic: every update that the agent makes of a list carries, for each pod,
    the requests, limits and workload type that the disk engine dereferences,
    and the engine's invariant holds throughout. *)
Theorem node_agent_never_panics (io : NodeStaticIOInfo) (k : K) (c : option C) (l : list node_event) :
  Forall node_event_ok l →
  ∃ n, foldM node_step (node_start io k c) l = Ok n ∧ disk_ok (na_disk n) ∧
       Forall pod_ok (PodInfoChan (na_state n)).
Proof.
  intros Hl. destruct (foldM_total node_step node_ok (node_start io k c) l) as (n & E & Hn).
  - intros n ev Hin. rewrite Forall_forall in Hl. by apply node_step_ok, Hl.
  - apply node_start_ok.
  - exists n. split; [done |]. split; apply Hn.
Qed.
End Node.

(** ** Runs *)

Module NodeExample.
Import FakeInstances NodeInstances.
Import DeliveryExample DiskExample.

Definition list1 : WirePodList :=
  Aggregator.GetPodList (H0 := alloc1) server1 5 {["uid-1" := sp1]} {["uid-1" := sp1]}.
Definition events3 : list node_event :=
  [ListArrives list1; EngineEvent (OnAdmin admin1); EngineEvent (OnProfile profile1);
   EngineEvent (OnPolicy policies1); TakeUpdate; TakeUpdate].

Lemma node_agent_never_panics_witness :
  ∃ n, foldM node_step (node_start (mkNSI "n1" ∅ "" ∅) (∅ : Objects)
          (Some ([] : list UpdateNodeIOStatusRequest))) events3 = Ok n ∧ disk_ok (na_disk n).
Proof.
  destruct (node_agent_never_panics (H2 := alloc1) (A := Server) (mkNSI "n1" ∅ "" ∅) (∅ : Objects)
              (Some ([] : list UpdateNodeIOStatusRequest)) events3) as (n & E & Hn & _).
  - unfold events3. repeat apply Forall_cons_2; try apply Forall_nil_2; simpl; try exact I.
    + exists server1, 5, {["uid-1" := sp1]}, {["uid-1" := sp1]}. split; [reflexivity |].
      rewrite map_Forall_singleton. reflexivity.
    + unfold profile_ok. simpl. rewrite map_Forall_singleton. intros _. eexists. reflexivity.
  - exists n. split; [exact E | exact Hn].
Defined.

(** Two pods are reserved one shortly after the other: the node's object has
    generation 1 with the first, then 2 with both; the queue is worked off
    after the second. *)
Definition sp2 : SpecPodRequest := mkSpecPod "p2" "default".
Definition pod2 : Pod := mkPod "p2" "default" "uid-2" {[AllocatedIOAnno := "{}"]} "n1" [].
Definition server2 : Server := f_set_pods [pod1; pod2] server_empty.
Definition node (gen : Z) (pods : gmap string SpecPodRequest) : NodeIOStatus :=
  mkNIS (mkSpec "n1" gen pods) (mkStatus 0 ∅).
Definition connected : Aggr :=
  mkAggr {["n1" := mkInfo4Agent (Some ∅) 0 (Some "10.0.0.1:9988")]} ∅ [] [] [] [] false false true.

Definition pod_rounds (n : nat) (a : Aggr) : Aggr :=
  Nat.iter n (λ a, default a (SendReservedPodtoQueue (H0 := alloc1) server2 a)) a.
(** The aggregator with both lists queued. *)
Definition queued : outcome Aggr :=
  let a := AddNodeIOStatusCR (node 1 {["uid-1" := sp1]}) connected in
  let! a := UpdateNodeIOStatusCR (node 1 {["uid-1" := sp1]})
              (node 2 {["uid-1" := sp1; "uid-2" := sp2]}) (pod_rounds 1 a) in
  Ok (pod_rounds 1 a).

(** Work the queue off; the agent takes every call. *)
Fixpoint deliver_all (n : nat) (a : Aggr) (s : AgentState) : outcome (Aggr * AgentState) :=
  match n with
  | O => Ok (a, s)
  | S n =>
      let! r := work_step (λ _, None) server2 a [] in
      match r with
      | None => Ok (a, s)
      | Some (_, a, _, None) => deliver_all n a s
      | Some (_, a, _, Some req) =>
          let! '(s, _) := UpdateReservedPods_rpc "n1" req s in deliver_all n a s
      end
  end.
Definition outcome_of : outcome (Aggr * AgentState) :=
  let! a := queued in deliver_all 5 a (mkAgentState ∅ []).

(** The pods that the agent's updates for disks mention, with the generation;
    the pods it knows; and what the aggregator answers to a report of the
    agent's generation. *)
Definition disk_updates (s : AgentState) : list (Z * list string) :=
  omap (λ p, if pdata_T p =? 2
             then Some (pdata_Generation p,
                        map_to_list (PodEvents p) ≫= λ de, (map_to_list de.2).*1)
             else None) (PodInfoChan s).
Definition answer (a : Aggr) (gen : Z) : option (option error) :=
  let a := set_scheds {["n1" := mkStatus 0 ∅]} a in
  match UpdateNodeIOStatus (H0 := alloc1) server2 true (mkReport "n1" gen []) a with
  | Ok (_, err) => Some err
  | Crash _ => None
  end.

(** A pod's details can be lost.  The aggregator sends a pod's requests
    only with the list in which the pod is new, and drops a queued list when a
    later one has come; the later list names the pod without details.  Here
    two pods are reserved in turn before the queue is worked off: the agent
    gets one list, of generation 2, and makes updates for the second pod only;
    it does not know the first pod's requests, and since its generation is the
    latest, the aggregator accepts its reports and never sends them. *)
Theorem pod_details_lost :
  match outcome_of with
  | Ok (a, s) =>
      aqueue a = [] ∧ disk_updates s = [(2, ["uid-2"])] ∧
      (map_to_list (CrPodRequest s)).*1 = ["uid-2"] ∧ answer a 2 = Some None
  | Crash _ => False
  end.
Proof.
  assert (E : match outcome_of with
              | Ok (a, s) => Some ((length (aqueue a), disk_updates s, (map_to_list (CrPodRequest s)).*1),
                                   answer a 2)
              | Crash _ => None
              end = Some ((0%nat, [(2, ["uid-2"])], ["uid-2"]), Some None)) by vm_eq.
  destruct outcome_of as [[a s] | c]; [| discriminate E].
  injection E as Eq Ed Ek Ea. split; [by apply nil_length_inv | done].
Qed.
End NodeExample.
