(* ===== verification/RdtConfigFacts.v ===== *)
(** * Cache masks: theorems on RdtConfig.v

    Every mask that the service computes is one block of bits inside the mask
    of the cache and wide enough; bit lists and arrays agree; the schemata
    written for a class is read back. *)

From S2P Require Import RdtConfig.

(** ** Blocks of bits *)

Definition block (lo n : Z) : Z := Z.shiftl (Z.ones n) lo.

Lemma ones_succ n : 0 ≤ n → Z.ones (n + 1) = 2 * Z.ones n + 1.
Proof. intros. rewrite !Z.ones_equiv, Z.pow_add_r by lia. lia. Qed.
Lemma ones_pos n : 0 < n → 0 < Z.ones n.
Proof. intros. rewrite Z.ones_equiv. pose proof (Z.pow_gt_1 2 n). lia. Qed.
Lemma block_mul lo n : 0 ≤ lo → block lo n = Z.ones n * 2 ^ lo.
Proof. intros. apply Z.shiftl_mul_pow2. lia. Qed.
Lemma block_pos lo n : 0 ≤ lo → 0 < n → 0 < block lo n.
Proof.
  intros. rewrite block_mul by done. pose proof (ones_pos n). pose proof (Z.pow_pos_nonneg 2 lo). nia.
Qed.
Lemma block_succ lo n : 0 ≤ lo → block (lo + 1) n = 2 * block lo n.
Proof. intros. rewrite !block_mul, Z.pow_add_r by lia. lia. Qed.
Lemma testbit_block lo n i :
  0 ≤ lo → 0 ≤ n → 0 ≤ i → Z.testbit (block lo n) i = bool_decide (lo ≤ i < lo + n).
Proof.
  intros Hl Hn Hi. unfold block. rewrite Z.shiftl_spec by done.
  destruct (decide (i < lo)).
  { rewrite Z.testbit_neg_r by lia. symmetry. apply bool_decide_eq_false. lia. }
  destruct (decide (i < lo + n)).
  - rewrite Z.ones_spec_low by lia. symmetry. apply bool_decide_eq_true. lia.
  - rewrite Z.ones_spec_high by lia. symmetry. apply bool_decide_eq_false. lia.
Qed.
Lemma block_lt lo n : 0 ≤ lo → 0 ≤ n → block lo n < 2 ^ (lo + n).
Proof.
  intros. rewrite block_mul, Z.ones_equiv, Z.pow_add_r by done.
  pose proof (Z.pow_pos_nonneg 2 lo). pose proof (Z.pow_pos_nonneg 2 n). nia.
Qed.

(** ** math/bits on blocks *)

Lemma OnesCount64_double z : 0 ≤ z → OnesCount64 (2 * z) = OnesCount64 z.
Proof. by destruct z. Qed.
Lemma OnesCount64_double1 z : 0 ≤ z → OnesCount64 (2 * z + 1) = OnesCount64 z + 1.
Proof. destruct z as [| p |]; [done | | done]. intros _. apply Z.add_comm. Qed.
Lemma TrailingZeros64_double z : 0 < z → TrailingZeros64 (2 * z) = TrailingZeros64 z + 1.
Proof. destruct z as [| p |]; try done. intros _. apply Z.add_comm. Qed.
Lemma TrailingZeros64_double1 z : 0 ≤ z → TrailingZeros64 (2 * z + 1) = 0.
Proof. by destruct z. Qed.

Lemma bits_of_ones n : 0 < n → OnesCount64 (Z.ones n) = n ∧ TrailingZeros64 (Z.ones n) = 0.
Proof.
  intros Hn. replace n with ((n - 1) + 1) by lia. assert (0 ≤ n - 1) as Hk by lia.
  remember (n - 1) as k. clear Heqk Hn n. revert k Hk.
  apply (natlike_ind (λ k, OnesCount64 (Z.ones (k + 1)) = k + 1 ∧ TrailingZeros64 (Z.ones (k + 1)) = 0)).
  - done.
  - intros k Hk [IH _]. pose proof (ones_pos (k + 1)). unfold Z.succ.
    rewrite ones_succ by lia. rewrite OnesCount64_double1, IH, TrailingZeros64_double1 by lia. lia.
Qed.
Lemma bits_of_block lo n :
  0 ≤ lo → 0 < n → OnesCount64 (block lo n) = n ∧ TrailingZeros64 (block lo n) = lo.
Proof.
  intros Hlo Hn. revert lo Hlo.
  apply (natlike_ind (λ lo, OnesCount64 (block lo n) = n ∧ TrailingZeros64 (block lo n) = lo)).
  - unfold block. rewrite Z.shiftl_0_r. by apply bits_of_ones.
  - intros lo Hlo [IH1 IH2]. pose proof (block_pos lo n). unfold Z.succ. rewrite block_succ by done.
    rewrite OnesCount64_double, IH1, TrailingZeros64_double, IH2 by lia. lia.
Qed.
Lemma Len64_block lo n : 0 ≤ lo → 0 < n → Len64 (block lo n) = lo + n.
Proof.
  intros Hlo Hn. pose proof (block_pos lo n Hlo Hn). unfold Len64.
  destruct (Z.eqb_spec (block lo n) 0); [lia |].
  unfold block. pose proof (ones_pos n). rewrite Z.log2_shiftl by lia.
  rewrite Z.ones_equiv, Z.log2_pred_pow2; lia.
Qed.

(** A mask whose ones fill the space between its outermost ones is a block. *)
Lemma pos_block p :
  pos_ones p ≤ Z.log2 (Zpos p) + 1 - pos_zeros p ∧ 0 ≤ pos_zeros p ∧ 0 < pos_ones p ∧
  (pos_ones p = Z.log2 (Zpos p) + 1 - pos_zeros p → Zpos p = block (pos_zeros p) (pos_ones p)).
Proof.
  induction p as [p (IH1 & IH2 & IH3 & IH) | p (IH1 & IH2 & IH3 & IH) |].
  - assert (Z.log2 (Zpos p~1) = Z.log2 (Zpos p) + 1) as El.
    { change (Zpos p~1) with (2 * Zpos p + 1). rewrite Z.log2_succ_double by lia. lia. }
    change (pos_ones p~1) with (1 + pos_ones p). change (pos_zeros p~1) with 0.
    rewrite El. split_and!; try lia. intros E.
    assert (pos_zeros p = 0) as Ez by lia. rewrite Ez in IH.
    change (Zpos p~1) with (2 * Zpos p + 1). rewrite IH at 1 by lia.
    unfold block. rewrite !Z.shiftl_0_r, (Z.add_comm 1), ones_succ; lia.
  - assert (Z.log2 (Zpos p~0) = Z.log2 (Zpos p) + 1) as El.
    { change (Zpos p~0) with (2 * Zpos p). rewrite Z.log2_double by lia. lia. }
    change (pos_ones p~0) with (pos_ones p). change (pos_zeros p~0) with (1 + pos_zeros p).
    rewrite El. split_and!; try lia. intros E.
    change (Zpos p~0) with (2 * Zpos p). rewrite IH at 1 by lia.
    rewrite (Z.add_comm 1), block_succ by lia. done.
  - done.
Qed.
Lemma contiguous_block z :
  0 < z → OnesCount64 z = Len64 z - TrailingZeros64 z →
  ∃ lo n, 0 ≤ lo ∧ 0 < n ∧ z = block lo n.
Proof.
  intros Hz. destruct z as [| p |]; try lia. unfold Len64. simpl (Zpos p =? 0). simpl.
  intros E. pose proof (pos_block p) as (_ & ? & ? & Hb). simpl in Hb.
  exists (pos_zeros p), (pos_ones p). auto with lia.
Qed.

Lemma block_ge lo n : 0 ≤ lo → 0 < n → 2 ^ (lo + n - 1) ≤ block lo n.
Proof.
  intros. rewrite block_mul, Z.ones_equiv by done. replace (lo + n - 1) with (n - 1 + lo) by lia.
  rewrite Z.pow_add_r by lia. pose proof (Z.pow_pos_nonneg 2 lo).
  replace (2 ^ n) with (2 * 2 ^ (n - 1)); [pose proof (Z.pow_pos_nonneg 2 (n - 1)); nia |].
  rewrite <- Z.pow_succ_r by lia. f_equal. lia.
Qed.
Lemma block_u64 lo n : 0 ≤ lo → 0 < n → is_u64 (block lo n) ↔ lo + n ≤ 64.
Proof.
  intros Hl Hn. unfold is_u64. pose proof (block_pos lo n). pose proof (block_ge lo n Hl Hn).
  pose proof (block_lt lo n). split; intros H'.
  - destruct (decide (lo + n ≤ 64)); [done |].
    pose proof (Z.pow_le_mono_r 2 64 (lo + n - 1)). lia.
  - pose proof (Z.pow_le_mono_r 2 (lo + n) 64). lia.
Qed.

(** A valid allocation of a cache with mask [base]: one block of at least
    [minBits] bits, all of them bits of [base]. *)
Definition valid_mask (m minBits base : Z) : Prop :=
  0 < m ∧ OnesCount64 m = Len64 m - TrailingZeros64 m ∧ minBits ≤ OnesCount64 m ∧ Z.lor m base = base.

Lemma block_inside lo n b w :
  0 ≤ b ≤ lo → 0 < n → lo + n ≤ b + w → Z.lor (block lo n) (block b w) = block b w.
Proof.
  intros Hb Hn Hw. apply Z.bits_inj'. intros i Hi. rewrite Z.lor_spec, !testbit_block by lia.
  destruct (bool_decide_reflect (lo ≤ i < lo + n)); [| done].
  simpl. symmetry. apply bool_decide_eq_true. lia.
Qed.
Lemma block_valid lo n b w minBits :
  0 ≤ b ≤ lo → 0 < n → lo + n ≤ b + w → minBits ≤ n →
  valid_mask (block lo n) minBits (block b w).
Proof.
  intros. destruct (bits_of_block lo n) as [E1 E2]; [lia.. |]. unfold valid_mask.
  rewrite E1, E2, Len64_block by lia. split_and!; [apply block_pos; lia | lia | lia | by apply block_inside].
Qed.

(** ** Base masks *)

Lemma verifyCatBaseMask_spec base minBits :
  is_u64 base →
  verifyCatBaseMask base minBits = None ↔
  ∃ b w, 0 ≤ b ∧ 0 < w ∧ b + w ≤ 64 ∧ minBits ≤ w ∧ base = block b w.
Proof.
  intros Hu. unfold verifyCatBaseMask, msbOne, lsbOne, LeadingZeros64.
  destruct (Z.eqb_spec base 0) as [-> | Hne].
  { split; [done |]. intros (b & w & ? & ? & _ & _ & E). pose proof (block_pos b w). lia. }
  destruct (Z.eqb_spec (OnesCount64 base) (63 - (64 - Len64 base) - TrailingZeros64 base + 1))
    as [E | E]; simpl.
  - destruct (contiguous_block base) as (b & w & Hb & Hw & ->); [unfold is_u64 in Hu; lia | lia |].
    destruct (bits_of_block b w Hb Hw) as [-> _]. apply block_u64 in Hu; [| done..].
    destruct (Z.ltb_spec w minBits); split; try done.
    + intros (b' & w' & ? & ? & _ & ? & Eq). destruct (bits_of_block b' w') as [E1 _]; [done.. |].
      destruct (bits_of_block b w) as [E2 _]; [done.. |]. congruence || (rewrite Eq in E2; lia).
    + intros _. exists b, w. auto.
  - split; [done |]. intros (b & w & ? & ? & _ & _ & ->).
    destruct (bits_of_block b w) as [E1 E2]; [done.. |].
    rewrite E1, E2, Len64_block in E by done. lia.
Qed.

(** ** Percentages *)

Lemma u64_wrap64 x : u64 (wrap64 x) = u64 x.
Proof.
  unfold u64, wrap64. rewrite Zminus_mod_idemp_l. f_equal. lia.
Qed.
(** The int computation of a block of [k] ones, shifted by [s]. *)
Lemma shifted_ones k s :
  0 < k → 0 ≤ s → k + s ≤ 64 → u64 (shl_int (wrap64 (shl_int 1 k - 1)) s) = block s k.
Proof.
  intros Hk Hs Hb. unfold shl_int. rewrite u64_wrap64, Z.shiftl_mul_pow2 by done.
  unfold u64. rewrite <- Z.mul_mod_idemp_l by lia. fold (u64 (wrap64 (wrap64 (Z.shiftl 1 k) - 1))).
  rewrite u64_wrap64. unfold u64 at 1. rewrite <- Zminus_mod_idemp_l. fold (u64 (wrap64 (Z.shiftl 1 k))).
  rewrite u64_wrap64. unfold u64 at 1. rewrite Zminus_mod_idemp_l, Z.mul_mod_idemp_l by lia.
  rewrite Z.shiftl_1_l, block_mul, Z.ones_equiv by done.
  pose proof (proj2 (block_u64 s k Hs Hk) ltac:(lia)) as Hu. rewrite block_mul, Z.ones_equiv in Hu by done.
  apply Z.mod_small. unfold is_u64 in Hu. lia.
Qed.

(** Drop the reductions of values that are in range. *)
Ltac u64_small :=
  repeat match goal with |- context [u64 ?x] => rewrite (u64_id x) by (unfold is_u64; lia) end.

Lemma widen_spec minBits w first last :
  0 ≤ minBits ≤ w → 0 ≤ first ≤ last → last < w → w ≤ 64 →
  ∃ lo hi, widen minBits w first last = inl (lo, hi) ∧
    0 ≤ lo ≤ first ∧ last ≤ hi < w ∧ minBits ≤ hi - lo + 1 ∧
    (minBits ≤ last - first + 1 → lo = first ∧ hi = last).
Proof.
  intros Hmin Hfl Hlw Hw. unfold widen. u64_small.
  destruct (Z.ltb_spec (last - first + 1) minBits); [| exists first, last; split_and!; auto with lia].
  u64_small. destruct (Z.ltb_spec first (minBits - (last - first + 1))).
  - u64_small. destruct (Z.leb_spec (minBits - (last - first + 1) - first) (w - last - 1)); [| lia].
    u64_small. eexists _, _. split; [done |]. lia.
  - u64_small. destruct (Z.leb_spec 0 (w - last - 1)); [| lia].
    u64_small. eexists _, _. split; [done |]. lia.
Qed.

Lemma msb_lsb_block b w : 0 ≤ b → 0 < w → msbOne (block b w) = b + w - 1 ∧ lsbOne (block b w) = b.
Proof.
  intros Hb Hw. unfold msbOne, lsbOne, LeadingZeros64. pose proof (block_pos b w Hb Hw).
  rewrite Len64_block by done. destruct (bits_of_block b w Hb Hw) as [_ E].
  destruct (Z.eqb_spec (block b w) 0); lia.
Qed.
Lemma bits_between_block b w lo hi :
  0 ≤ b → 0 < w → b + w ≤ 64 → 0 ≤ lo ≤ hi → hi < w →
  bits_between lo hi (block b w) = block (b + lo) (hi - lo + 1).
Proof.
  intros. unfold bits_between. destruct (msb_lsb_block b w) as [_ ->]; [done.. |].
  u64_small. rewrite shifted_ones by lia. f_equal. lia.
Qed.

Lemma transform_range_block l h minBits b w :
  0 ≤ b → 0 < w → b + w ≤ 64 → 0 ≤ minBits ≤ w → 0 ≤ l ≤ h → 1 ≤ h ≤ 100 →
  ∃ lo hi, transform_range l h minBits (block b w) = inl (block (b + lo) (hi - lo + 1)) ∧
    0 ≤ lo ≤ (Z.max l 1 - 1) * w / 100 ∧ (h - 1) * w / 100 ≤ hi < w ∧
    minBits ≤ hi - lo + 1 ∧ lo ≤ hi ∧
    (minBits ≤ (h - 1) * w / 100 - (Z.max l 1 - 1) * w / 100 + 1 →
     lo = (Z.max l 1 - 1) * w / 100 ∧ hi = (h - 1) * w / 100).
Proof.
  intros Hb Hw Hbw Hmin Hl Hh.
  assert (Hv : verifyCatBaseMask (block b w) minBits = None).
  { apply verifyCatBaseMask_spec; [by apply block_u64 | exists b, w; auto with lia]. }
  unfold transform_range. rewrite Hv. destruct (msb_lsb_block b w Hb Hw) as [-> ->].
  replace (if l =? 0 then 1 else l) with (Z.max l 1) by (destruct (Z.eqb_spec l 0); lia).
  destruct (Z.ltb_spec h (Z.max l 1)); [lia |]. destruct (Z.ltb_spec 100 h); [lia |].
  destruct (Z.ltb_spec 100 (Z.max l 1)); [lia |]. cbn [orb].
  u64_small. replace (b + w - 1 - b + 1) with w by lia.
  rewrite !(u64_id ((_ - 1) * w)) by (unfold is_u64; nia).
  assert (0 ≤ (Z.max l 1 - 1) * w / 100 ≤ (h - 1) * w / 100).
  { split; [apply Z.div_pos; nia |]. apply Z.div_le_mono; nia. }
  assert ((h - 1) * w / 100 < w) by (apply Z.div_lt_upper_bound; nia).
  destruct (widen_spec minBits w ((Z.max l 1 - 1) * w / 100) ((h - 1) * w / 100))
    as (lo & hi & -> & ? & ? & ? & ?); [lia.. |].
  exists lo, hi. rewrite bits_between_block by lia. split_and!; auto with lia.
Qed.

(** C29: A percentage allocation of a cache succeeds for every range 1..100:
    the result is one block of bits inside the mask of the cache, of at least
    the minimal width, and holds every bit that the percentages name. *)
Theorem percentage_mask_valid l h minBits base :
  is_u64 base → verifyCatBaseMask base minBits = None → 0 ≤ minBits → 0 ≤ l ≤ h → 1 ≤ h ≤ 100 →
  ∃ m, Transform (catPercentageRangeAllocation l h) minBits base = inl m ∧
    valid_mask m minBits base ∧
    ∀ i, (Z.max l 1 - 1) * OnesCount64 base / 100 ≤ i ≤ (h - 1) * OnesCount64 base / 100 →
      Z.testbit m (lsbOne base + i) = true.
Proof.
  intros Hu Hv Hmin Hl Hh. apply verifyCatBaseMask_spec in Hv as (b & w & Hb & Hw & Hbw & Hm & ->); [| done].
  destruct (transform_range_block l h minBits b w) as (lo & hi & E & ? & ? & ? & ? & _); [lia.. |].
  exists (block (b + lo) (hi - lo + 1)). split; [exact E |].
  split; [apply block_valid; lia |]. destruct (bits_of_block b w Hb Hw) as [-> _].
  destruct (msb_lsb_block b w Hb Hw) as [_ ->]. intros i Hi.
  rewrite testbit_block by lia. apply bool_decide_eq_true. lia.
Qed.

Lemma percentage_mask_valid_witness :
  Transform (catPercentageRangeAllocation 51 100) 2 0x7ff00 = inl 0x7e000 ∧
  valid_mask 0x7e000 2 0x7ff00.
Proof.
  destruct (percentage_mask_valid 51 100 2 0x7ff00) as (m & E & Hv & _);
    [split; [done | reflexivity] | reflexivity | lia.. |].
  vm_compute in E. injection E as <-. split; [reflexivity | exact Hv].
Defined.

(** ** Bit lists *)

(** What fits six unsigned bits is read alike as eight signed ones. *)
Lemma ParseUint_ParseInt s n : ParseUint s 10 6 = inl n → ParseInt s 8 = inl n ∧ 0 ≤ n < 64.
Proof.
  unfold ParseUint, ParseInt. destruct s as [| a r] eqn:Es; [done |]. intros E.
  destruct (uint_digits_dec _ _ _ _ E) as [Ed Hn]; [lia |].
  assert (Hneg : Ascii.eqb a "-" = false ∧ Ascii.eqb a "+" = false).
  { split; apply Ascii.eqb_neq; intros ->; vm_compute in E; discriminate. }
  destruct Hneg as [-> ->]. rewrite Ed. simpl.
  destruct (Z.leb_spec (2 ^ (8 - 1)) n); [simpl in *; lia |]. split; [done | lia].
Qed.

Lemma shifted_ones_u64 k s :
  0 < k → 0 ≤ s → k + s ≤ 64 → shl_u64 (u64 (shl_u64 1 k - 1)) s = block s k.
Proof.
  intros Hk Hs Hb. unfold shl_u64. rewrite !Z.shiftl_mul_pow2, Z.mul_1_l by lia.
  unfold u64. rewrite Zminus_mod_idemp_l, Z.mul_mod_idemp_l by lia.
  pose proof (proj2 (block_u64 s k Hs Hk) ltac:(lia)) as Hu. rewrite block_mul, Z.ones_equiv in * by done.
  apply Z.mod_small. unfold is_u64 in Hu. lia.
Qed.
Lemma shifted_one_u64 s : 0 ≤ s < 64 → shl_u64 1 s = block s 1.
Proof.
  intros. unfold shl_u64. rewrite Z.shiftl_1_l, block_mul by lia. change (Z.ones 1) with 1.
  rewrite Z.mul_1_l. apply u64_id. split; [lia | apply Z.pow_lt_mono_r; lia].
Qed.

(** The bits of [b] are the numbers of [a]. *)
Definition same_bits (b : Z) (a : list Z) : Prop :=
  is_u64 b ∧ (∀ x, x ∈ a → 0 ≤ x < 64) ∧ ∀ i, 0 ≤ i → Z.testbit b i = true ↔ i ∈ a.

Lemma lor_u64 a b : is_u64 a → is_u64 b → is_u64 (Z.lor a b).
Proof.
  unfold is_u64. intros Ha Hb. split; [apply Z.lor_nonneg; lia |].
  destruct (Z.eq_dec (Z.lor a b) 0) as [-> | Hne]; [lia |].
  apply Z.log2_lt_pow2; [pose proof (proj2 (Z.lor_nonneg a b)); lia |].
  rewrite Z.log2_lor by lia. apply Z.max_lub_lt;
    [destruct (Z.eq_dec a 0) as [-> | ?] | destruct (Z.eq_dec b 0) as [-> | ?]];
    try (simpl; lia); apply Z.log2_lt_pow2; lia.
Qed.
Lemma lor_u64_inv a b : 0 < a → 0 ≤ b → is_u64 (Z.lor a b) → is_u64 a.
Proof.
  intros Ha Hb [_ Hl]. split; [lia |]. apply Z.log2_lt_pow2; [lia |].
  assert (Z.log2 a ≤ Z.log2 (Z.lor a b)) by (rewrite Z.log2_lor by lia; lia).
  assert (0 < Z.lor a b) by (pose proof (proj2 (Z.lor_nonneg a b)); destruct (Z.eq_dec (Z.lor a b) 0)
    as [E | ?]; [apply Z.lor_eq_0_iff in E; lia | lia]).
  apply Z.log2_lt_pow2 in Hl; lia.
Qed.
Lemma same_bits_block b a lo n :
  same_bits b a → 0 ≤ lo → 0 < n → lo + n ≤ 64 → same_bits (Z.lor b (block lo n)) (a ++ seqZ lo n).
Proof.
  intros (Hu & Ha & Hb) Hl Hn Hs. split_and!.
  - apply lor_u64; [done | by apply block_u64].
  - intros x [?%Ha | ?%elem_of_seqZ]%elem_of_app; lia.
  - intros i Hi. rewrite Z.lor_spec, orb_true_iff, Hb, testbit_block, bool_decide_eq_true, elem_of_app,
      elem_of_seqZ by lia. done.
Qed.

Lemma mask_range_array ran b a b' :
  mask_range ran b = inl b' → same_bits b a →
  ∃ r, array_range ran = inl r ∧ same_bits b' (a ++ r).
Proof.
  unfold mask_range, array_range. set (split := str_splitn2 _ ran). intros E Hs.
  destruct (ParseUint _ 10 6) as [lo |] eqn:Elo; [| done].
  apply ParseUint_ParseInt in Elo as [-> Hlo].
  destruct (split !! 1%nat) as [e |].
  - destruct (ParseUint e 10 6) as [hi |] eqn:Ehi; [| done].
    apply ParseUint_ParseInt in Ehi as [-> Hhi].
    destruct (Z.leb_spec hi lo); [done |]. injection E as <-.
    rewrite shifted_ones_u64 by lia. eexists. split; [done |]. apply same_bits_block; [done | lia..].
  - injection E as <-. rewrite shifted_one_u64 by lia. eexists. split; [done |].
    change [lo] with (seqZ lo 1). apply same_bits_block; [done | lia..].
Qed.
Lemma mask_ranges_array l b a m :
  mask_ranges l b = inl m → same_bits b a → ∃ a', array_ranges l a = inl a' ∧ same_bits m a'.
Proof.
  revert b a. induction l as [| ran l IH]; intros b a; simpl; [intros [= <-]; eauto |].
  destruct (mask_range ran b) as [b' |] eqn:E; [| done]. intros Em Hs.
  destruct (mask_range_array _ _ _ _ E Hs) as (r & -> & Hs'). by eapply IH.
Qed.

(** The two readings of a bit list agree: a list that names bits of a mask
    is also accepted as a list of numbers, and the mask has exactly these
    bits. *)
Theorem bit_lists_agree s m :
  listStringToBitmask s = inl m →
  is_u64 m ∧ ∃ a, listStringToArray s = inl a ∧ ∀ i, 0 ≤ i → Z.testbit m i = true ↔ i ∈ a.
Proof.
  unfold listStringToBitmask, listStringToArray. destruct (_ =? _)%nat.
  - intros [= <-]. split; [done |]. exists []. split; [done |]. intros i _. rewrite Z.testbit_0_l.
    split; [done |]. by intros ?%elem_of_nil.
  - intros E. destruct (mask_ranges_array _ 0 [] _ E) as (a & -> & Hu & _ & Hb).
    { split_and!; [done | by intros ? ?%elem_of_nil |]. intros i _. rewrite Z.testbit_0_l.
      split; [done |]. by intros ?%elem_of_nil. }
    split; [done |]. eexists. split; [done |]. intros i Hi. by rewrite merge_sort_Permutation, Hb.
Qed.

Lemma bit_lists_agree_witness :
  listStringToBitmask "0-3,8,10-11" = inl 0xd0f ∧
  listStringToArray "0-3,8,10-11" = inl [0; 1; 2; 3; 8; 10; 11].
Proof.
  assert (E : listStringToBitmask "0-3,8,10-11" = inl 0xd0f) by reflexivity.
  split; [exact E |]. destruct (bit_lists_agree _ _ E) as (_ & a & Ea & _).
  vm_compute in Ea. injection Ea as <-. vm_compute. reflexivity.
Defined.

(** ** Masks from text *)

Lemma contiguous_check_block v minBits :
  0 ≤ v → contiguous_check v minBits = None →
  ∃ lo n, 0 ≤ lo ∧ 0 < n ∧ minBits ≤ n ∧ v = block lo n.
Proof.
  unfold contiguous_check. intros Hv.
  destruct (Z.eqb_spec (OnesCount64 v) (Len64 v - TrailingZeros64 v)) as [E |]; [| done]. simpl.
  destruct (Z.ltb_spec (OnesCount64 v) minBits); [done |]. intros _.
  destruct (decide (v = 0)) as [-> | Hne]; [done |].
  destruct (contiguous_block v) as (lo & n & Hlo & Hn & ->); [lia | done |].
  destruct (bits_of_block lo n Hlo Hn) as [En _]. exists lo, n. auto with lia.
Qed.
Lemma uint_digits_range base maxVal s n m :
  0 ≤ base → uint_digits base maxVal s n = inl m → 0 ≤ n ≤ maxVal → 0 ≤ m ≤ maxVal.
Proof.
  intros Hbase. revert n. induction s as [| a s IH]; intros n; simpl; [by intros [= <-] |].
  destruct (hex_digit a) as [d |] eqn:Ea; [| done].
  assert (0 ≤ d).
  { revert Ea. unfold hex_digit. set (k := Z.of_nat (nat_of_ascii a)).
    destruct (Z.leb_spec 48 k), (Z.leb_spec k 57), (Z.leb_spec 97 k), (Z.leb_spec k 102),
      (Z.leb_spec 65 k), (Z.leb_spec k 70); simpl; intros; simplify_eq; lia. }
  destruct (_ <=? _); [done |]. destruct (Z.ltb_spec maxVal (n * base + d)); [done |].
  intros E Hn. eapply IH; [exact E | nia].
Qed.
Lemma ParseUint_u64 s base v : 0 ≤ base → ParseUint s base 64 = inl v → is_u64 v.
Proof.
  intros Hb. unfold ParseUint, is_u64. destruct s; [done |]. intros E.
  apply uint_digits_range in E; lia.
Qed.

(** A cache whose mask starts at bit 0, as the kernel's do. *)
Record l3_ok (i : catInfos) : Prop := {
  l3_unified : Supported (unified i) = true;
  l3_mask : is_u64 (cbmMask i);
  l3_base : verifyCatBaseMask (cbmMask i) (minCbmBits i) = None;
  l3_low : lsbOne (cbmMask i) = 0;
  l3_min : 0 ≤ minCbmBits i;
  l3_ids : Forall is_u64 (cacheIds i)
}.

Lemma transform_absolute_valid v minBits base m :
  is_u64 v → lsbOne base = 0 → contiguous_check v minBits = None →
  transform_absolute v minBits base = inl m → valid_mask m minBits base.
Proof.
  intros Hu Hb Hc. unfold transform_absolute. destruct (verifyCatBaseMask _ _); [done |].
  rewrite Hb. unfold shl_u64. rewrite Z.shiftl_0_r, u64_id by done.
  destruct (Z.eqb_spec (Z.lor v base) base) as [E |]; [| done]. simpl. intros [= <-].
  destruct (contiguous_check_block v minBits) as (lo & n & Hlo & Hn & Hm & ->); [apply Hu | done |].
  destruct (bits_of_block lo n Hlo Hn) as [E1 E2]. unfold valid_mask.
  rewrite E1, E2, Len64_block by done. pose proof (block_pos lo n). auto with lia.
Qed.
Lemma transform_range_valid l h minBits base m :
  is_u64 base → 0 ≤ minBits → 0 ≤ l →
  transform_range l h minBits base = inl m → valid_mask m minBits base.
Proof.
  intros Hu Hmin Hl E. assert (Hv : verifyCatBaseMask base minBits = None).
  { unfold transform_range in E. by destruct (verifyCatBaseMask _ _). }
  assert (l ≤ h ∧ 1 ≤ h ≤ 100) as [Hlh Hh].
  { revert E. unfold transform_range. rewrite Hv.
    replace (if l =? 0 then 1 else l) with (Z.max l 1) by (destruct (Z.eqb_spec l 0); lia).
    destruct (Z.ltb_spec h (Z.max l 1)), (Z.ltb_spec 100 h); simpl; try done. intros _. lia. }
  apply verifyCatBaseMask_spec in Hv as (b & w & Hb & Hw & Hbw & Hm & ->); [| done].
  destruct (transform_range_block l h minBits b w) as (lo & hi & E' & ? & ? & ? & ? & _); [lia.. |].
  rewrite E in E'. injection E' as ->. apply block_valid; lia.
Qed.

(** An allocation as [proportion_transform] makes them. *)
Definition alloc_ok (minBits : Z) (a : cacheAllocation) : Prop :=
  match a with
  | catPercentageAllocation _ => True
  | catPercentageRangeAllocation l _ => 0 ≤ l
  | catAbsoluteAllocation v => is_u64 v ∧ contiguous_check v minBits = None
  end.
Lemma Transform_valid a minBits base m :
  is_u64 base → lsbOne base = 0 → 0 ≤ minBits → alloc_ok minBits a →
  Transform a minBits base = inl m → valid_mask m minBits base.
Proof.
  intros Hu Hb Hmin. destruct a as [h | l h | v]; simpl; intros Ha.
  - by apply transform_range_valid.
  - by apply transform_range_valid.
  - destruct Ha. by apply transform_absolute_valid.
Qed.
Lemma listStringToBitmask_u64 c v : listStringToBitmask c = inl v → is_u64 v.
Proof.
  unfold listStringToBitmask. destruct (_ =? _)%nat; [by intros [= <-] |]. intros E.
  destruct (mask_ranges_array _ 0 [] _ E) as (_ & _ & Hu & _); [| done].
  split_and!; [done | by intros ? ?%elem_of_nil |]. intros i _. rewrite Z.testbit_0_l.
  split; [done | by intros ?%elem_of_nil].
Qed.
Lemma proportion_transform_ok c minBits a :
  proportion_transform c minBits = inl (Some a) → alloc_ok minBits a.
Proof.
  unfold proportion_transform. destruct (String.eqb c ""); [done |].
  destruct (has_suffix c "%"); simpl.
  - destruct (str_splitn2 _ _) as [| lo [| hi [|]]]; try done.
    + destruct (ParseUint lo 10 7); [| done]. destruct (_ <? _); [done |]. by intros [= <-].
    + destruct (ParseUint lo 10 7) as [n |] eqn:E; [| done]. destruct (ParseUint hi 10 7); [| done].
      destruct (_ || _); [done |]. intros [= <-]. simpl. unfold ParseUint in E.
      destruct lo; [done |]. apply uint_digits_range in E; lia.
  - destruct (if String.prefix "0x" c then _ else _) as [v |] eqn:E; [| done].
    destruct (contiguous_check v minBits) eqn:Ec; [done |]. intros [= <-]. split; [| done].
    destruct (String.prefix "0x" c); [by apply ParseUint_u64 in E | by apply listStringToBitmask_u64 in E].
Qed.

(** ** Schemata *)

(** What is written for the cache ids when each gets the mask [m]. *)
Definition schema_entry (m id : Z) : string := format_dec id +:+ "=" +:+ format_hex m.
Definition schema_text (m : Z) (ids : list Z) : string :=
  "L3:" +:+ str_join ";" (map (schema_entry m) ids).

Lemma range_singleton `{!GoRange} {V} k (v : V) : range {[k := v]} = [(k, v)].
Proof.
  pose proof (range_perm ({[k := v]} : gmap string V)) as Hp. rewrite map_to_list_singleton in Hp.
  by apply Permutation_singleton_r in Hp.
Qed.

Section Schema.
Context `{!GoRange}.
Variable L : rdtL3Info.
#[local] Notation i := (info L).

Lemma schema_entries_const m a ids sep :
  (∀ id, id ∈ ids → ∃ c, m !! id = Some c ∧ ca_Unified c = Some a) →
  schema_entries L (Some m) catSchemaTypeUnified ids sep =
  Ok (match Transform a (minCbmBits i) (cbmMask i) with
      | inl b => inl (match ids with
                      | [] => EmptyString
                      | _ => sep +:+ str_join ";" (map (schema_entry b) ids)
                      end)
      | inr e => match ids with [] => inl EmptyString | _ => inr e end
      end).
Proof.
  revert sep. induction ids as [| id ids IH]; intros sep Hm.
  { simpl. by destruct (Transform _ _ _). }
  destruct (Hm id) as (c & Hid & Hc); [by left |].
  simpl schema_entries. rewrite Hid. simpl.
  rewrite Hc. simpl.
  destruct (Transform a _ _) as [b | e]; [| done].
  rewrite IH by (intros; apply Hm; by right). simpl.
  unfold schema_entry. destruct ids as [| id' ids]; simpl; rewrite ?str_app_nil_r; [done |].
  by rewrite !str_app_assoc.
Qed.

Lemma lookup_filled (v : CatAllocation) ids (m : gmap Z CatAllocation) id :
  id ∈ ids ∨ m !! id = Some v → foldl (λ m i, <[i := v]> m) m ids !! id = Some v.
Proof.
  revert m. induction ids as [| x ids IH]; intros m; simpl; [by intros [?%elem_of_nil | ?] |].
  intros [[-> | Hin]%elem_of_cons | Hm]; apply IH; [right; by rewrite lookup_insert_eq | by left |].
  destruct (decide (id = x)) as [-> |]; [right; by rewrite lookup_insert_eq | right].
  by rewrite lookup_insert_ne.
Qed.

(** What getL3Schema computes: every cache id gets the mask of the one
    allocation that the text describes. *)
Lemma getL3Schema_spec l3 :
  Supported (unified i) = true → cacheIds i ≠ [] →
  getL3Schema L l3 =
  Ok (match proportion_transform l3 (minCbmBits i) with
      | inr e => inr e
      | inl None => inr "'unified' not specified in cache schema"
      | inl (Some a) =>
          match Transform a (minCbmBits i) (cbmMask i) with
          | inl m => inl (schema_text m (cacheIds i))
          | inr e => inr e
          end
      end).
Proof.
  intros Hsup Hids. unfold getL3Schema, toSchema.
  replace (default _ (({["all" := mkIdConfig l3 "" ""]} : gmap string CacheIdCatConfig) !! "all"))
    with (mkIdConfig l3 "" "") by (by rewrite lookup_singleton_eq).
  unfold id_transform. simpl (proportion_transform _ _).
  destruct (proportion_transform l3 (minCbmBits i)) as [[a |] | e]; try done. simpl.
  rewrite range_singleton. simpl. unfold getL3SchemaStr. rewrite Hsup.
  unfold toStr. simpl. rewrite (schema_entries_const _ a).
  - simpl. destruct (Transform _ _ _) as [m | e]; simpl; [| by destruct (cacheIds i)].
    unfold schema_text. by destruct (cacheIds i).
  - intros id Hid. eexists. split; [apply lookup_filled; by left | done].
Qed.
End Schema.

(** ** Reading a schema back *)

Lemma str_all_join p sep l :
  str_all p sep = true → Forall (λ x, str_all p x = true) l → str_all p (str_join sep l) = true.
Proof.
  intros Hs Hl. induction Hl as [| x l Hx Hl IH]; [done |]. destruct l as [| y l]; [done |].
  change (str_join sep (x :: y :: l)) with (x +:+ (sep +:+ str_join sep (y :: l))).
  rewrite !str_all_app, Hx, Hs. exact IH.
Qed.

Definition entry_char (a : ascii) : bool := is_hex a || Ascii.eqb a "=".
Lemma schema_entry_chars m id : str_all entry_char (schema_entry m id) = true.
Proof.
  assert (Hi : ∀ s, str_all is_hex s = true → str_all entry_char s = true).
  { intros s. apply str_all_impl. intros a Ha. unfold entry_char. by rewrite Ha. }
  unfold schema_entry. rewrite !str_all_app.
  rewrite (Hi (format_dec id)), (Hi (format_hex m)) by (apply format_base_hex; [lia | done]). done.
Qed.
Lemma entry_char_not c a : entry_char c = false → entry_char a = true → not_char c a = true.
Proof. intros Hc Ha. unfold not_char. destruct (Ascii.eqb_spec a c); [congruence | done]. Qed.

Lemma schema_ids_entries m ids :
  Forall is_u64 ids → schema_ids (map (schema_entry m) ids) = inl ids.
Proof.
  induction 1 as [| id ids Hid Hids IH]; [done |]. simpl.
  assert (Hs : ∀ c, is_hex c = false → ∀ base fuel z, 2 ≤ base ≤ 16 →
    str_all (not_char c) (format_base base fuel z EmptyString) = true).
  { intros c Hc base fuel z Hb. eapply str_all_impl; [| apply format_base_hex; [lia | done]].
    intros a. by apply is_hex_not. }
  unfold schema_entry at 1. change ("=" +:+ format_hex m) with (String "=" (format_hex m)).
  rewrite str_split_app by (apply str_split_plain, Hs; [done | lia]).
  rewrite str_split_plain by (apply Hs; [done | lia]).
  by rewrite ParseUint_dec, IH by done.
Qed.

Lemma schema_text_chars m ids p :
  (∀ a, entry_char a = true → p a = true) →
  str_all p "L3:;" = true → str_all p (schema_text m ids) = true.
Proof.
  intros Hp Hl. change ("L3:;") with ("L3:" +:+ ";") in Hl. rewrite str_all_app, andb_true_iff in Hl.
  destruct Hl as [Hl Hs]. unfold schema_text. rewrite str_all_app, Hl. simpl.
  apply str_all_join; [done |]. apply Forall_map, Forall_forall. intros id _. simpl.
  eapply str_all_impl; [exact Hp | apply schema_entry_chars].
Qed.
Lemma entry_char_plain a : entry_char a = true → is_space a = false ∧ not_char newline a = true.
Proof.
  destruct a as [[] [] [] [] [] [] [] []]; by vm_compute.
Qed.
Lemma find_ids_schema m ids :
  Forall is_u64 ids → ids ≠ [] → find_ids "L3" [schema_text m ids] = inl ids.
Proof.
  intros Hu Hne. unfold find_ids. rewrite TrimSpace_all.
  2: { apply schema_text_chars; [| done]. intros a Ha. by rewrite (proj1 (entry_char_plain a Ha)). }
  unfold schema_text. set (body := str_join ";" (map (schema_entry m) ids)).
  assert (str_splitn2 ":"%char ("L3:" +:+ body) = ["L3"; body]) as -> by reflexivity.
  simpl. subst body. change ";"%string with (String ";"%char EmptyString). rewrite str_split_join.
  - by apply schema_ids_entries.
  - by destruct ids.
  - intros x (id & -> & _)%list_elem_of_fmap. apply str_split_plain.
    eapply str_all_impl; [| apply schema_entry_chars]. intros a. by apply entry_char_not.
Qed.

(** *** Texts of allocations *)

Definition percent_text (l h : Z) (t : string) : Prop :=
  t = format_dec l +:+ "-" +:+ format_dec h +:+ "%" ∨ l = 0 ∧ t = format_dec h +:+ "%".
Lemma percentage_minBits c m m' :
  has_suffix c "%" = true → proportion_transform c m = proportion_transform c m'.
Proof. unfold proportion_transform. by intros ->. Qed.
Definition reads_percentages (lh : Z * Z) : bool :=
  let '(l, h) := lh in
  let c := format_dec l +:+ "-" +:+ format_dec h +:+ "%" in
  let c' := format_dec h +:+ "%" in
  has_suffix c "%" && has_suffix c' "%" &&
  match proportion_transform c 0, proportion_transform c' 0 with
  | inl (Some (catPercentageRangeAllocation l' h')), inl (Some (catPercentageAllocation h'')) =>
      (l' =? l) && (h' =? h) && (h'' =? h)
  | _, _ => false
  end.
Lemma all_percentages_read :
  forallb (λ h, forallb (λ l, reads_percentages (l, h)) (seqZ 0 (h + 1))) (seqZ 0 101) = true.
Proof. vm_compute. reflexivity. Qed.
Lemma percent_text_read l h t minBits :
  0 ≤ l ≤ h → h ≤ 100 → percent_text l h t →
  ∃ a, proportion_transform t minBits = inl (Some a) ∧
    ∀ m b, Transform a m b = transform_range l h m b.
Proof.
  intros Hl Hh Ht. pose proof all_percentages_read as Ha. rewrite forallb_forall in Ha.
  specialize (Ha h ltac:(apply list_elem_of_In, elem_of_seqZ; lia)). rewrite forallb_forall in Ha.
  specialize (Ha l ltac:(apply list_elem_of_In, elem_of_seqZ; lia)). unfold reads_percentages in Ha.
  apply andb_true_iff in Ha as [[Hs1 Hs2]%andb_true_iff Ha].
  destruct Ht as [-> | [-> ->]]; rewrite (percentage_minBits _ minBits 0) by done.
  - destruct (proportion_transform (format_dec l +:+ _) 0) as [[[| l' h' |] |] |]; try done.
    destruct (proportion_transform (format_dec h +:+ "%") 0) as [[[h'' | |] |] |]; try done.
    apply andb_true_iff in Ha as [[->%Z.eqb_eq ->%Z.eqb_eq]%andb_true_iff _]. eauto.
  - destruct (proportion_transform (format_dec 0 +:+ _) 0) as [[[| l' h' |] |] |]; try done.
    destruct (proportion_transform (format_dec h +:+ "%") 0) as [[[h'' | |] |] |]; try done.
    apply andb_true_iff in Ha as [_ ->%Z.eqb_eq]. eauto.
Qed.
Lemma has_suffix_char s c : str_all (not_char c) s = true → has_suffix s (String c "") = false.
Proof.
  intros Hs. unfold has_suffix. destruct s as [| a s]; [done |]. apply andb_false_iff. right. apply String.eqb_neq.
  change (str_len (String c "")) with 1%nat. simpl (str_len _ - 1)%nat. rewrite Nat.sub_0_r. revert a Hs.
  induction s as [| b s IH]; intros a; simpl; rewrite andb_true_iff; intros [Ha Hs].
  - unfold not_char in Ha. intros [= ->]. by rewrite Ascii.eqb_refl in Ha.
  - by apply IH.
Qed.
Lemma hex_text_read v minBits base :
  is_u64 v → valid_mask v minBits base →
  proportion_transform ("0x" +:+ format_hex v) minBits = inl (Some (catAbsoluteAllocation v)).
Proof.
  intros Hu (Hp & Hc & Hm & _). unfold proportion_transform.
  assert (Hsuf : has_suffix ("0x" +:+ format_hex v) "%" = false).
  { apply has_suffix_char. rewrite str_all_app. simpl. eapply str_all_impl; [| apply format_base_hex; [lia | done]].
    intros a. by apply is_hex_not. }
  rewrite Hsuf. simpl (String.eqb _ _). cbn [negb].
  assert (Hpre : String.prefix "0x" ("0x" +:+ format_hex v) = true) by by destruct (format_hex v).
  rewrite Hpre. unfold TrimPrefix. rewrite Hpre.
  replace (String.substring _ _ ("0x" +:+ format_hex v)) with (format_hex v).
  2: { generalize (format_hex v) as t. intros t.
       change (t = String.substring 0 (str_len t - 0) t). rewrite Nat.sub_0_r.
       rewrite <- (str_app_nil_r t) at 3. symmetry. apply substring_app. }
  rewrite ParseUint_hex by done. unfold contiguous_check. rewrite Hc, Z.eqb_refl. simpl.
  rewrite <- Hc. by destruct (Z.ltb_spec (OnesCount64 v) minBits); [lia |].
Qed.

(** C24: On a system with one mask for code and data (no CDP) whose cache mask
    is one block from bit 0, whatever text a class is configured with, the
    schema of the class is an error or a line in which every cache id carries
    the same mask: one block of bits inside the cache's mask, of at least the
    minimal width.  A text "l-h%" or "h%" of percentages, with l at most h and
    h from 1 to 100, gives a mask that holds the bits from (l-1) to (h-1)
    hundredths of the width, and no others when these are at least the minimal
    number of bits; a text "0x" of a valid mask gives this mask.  In the
    class's file every L3 line becomes the schema, all other lines stay, and
    the schema reads back as the same cache ids. *)
Theorem class_schema_valid `{!GoRange} L l3 content :
  l3_ok (info L) → cacheIds (info L) ≠ [] →
  ∃ r, getL3Schema L l3 = Ok r ∧
  (∀ l h, 0 ≤ l ≤ h → 1 ≤ h ≤ 100 → percent_text l h l3 →
     let lo := (Z.max l 1 - 1) * OnesCount64 (cbmMask (info L)) / 100 in
     let hi := (h - 1) * OnesCount64 (cbmMask (info L)) / 100 in
     ∃ m, r = inl (schema_text m (cacheIds (info L))) ∧ (∀ i, lo ≤ i ≤ hi → Z.testbit m i = true) ∧
       (minCbmBits (info L) ≤ hi - lo + 1 → ∀ i, Z.testbit m i = true → lo ≤ i ≤ hi)) ∧
  (∀ v, is_u64 v → valid_mask v (minCbmBits (info L)) (cbmMask (info L)) → l3 = "0x" +:+ format_hex v →
     r = inl (schema_text v (cacheIds (info L)))) ∧
  ∀ s, r = inl s →
    (∃ m, s = schema_text m (cacheIds (info L)) ∧
       valid_mask m (minCbmBits (info L)) (cbmMask (info L)) ∧
       ParseUint (format_hex m) 16 64 = inl m) ∧
    find_ids "L3" [s] = inl (cacheIds (info L)) ∧
    str_split newline (replace_lines "L3" s content) =
      map (λ line, if String.prefix "L3" line then s else line) (str_split newline content).
Proof.
  intros Hok Hne. rewrite getL3Schema_spec by (done || by apply l3_unified).
  eexists. split; [done |]. split; [| split]; [| | intros s Hs].
  { intros l h Hl Hh Ht lo hi. destruct (percent_text_read l h l3 (minCbmBits (info L)) Hl ltac:(lia) Ht) as (a & -> & ->).
    pose proof (l3_base _ Hok) as Hv. pose proof (l3_low _ Hok) as Hlow. pose proof (l3_min _ Hok).
    apply verifyCatBaseMask_spec in Hv as (b & w & Hb & Hw & Hbw & Hmin & Em); [| apply Hok].
    destruct (bits_of_block b w Hb Hw) as [Ew _]. destruct (msb_lsb_block b w Hb Hw) as [_ El].
    subst lo hi. rewrite Em in Hlow |- *. rewrite El in Hlow. subst b. rewrite Ew.
    destruct (transform_range_block l h (minCbmBits (info L)) 0 w) as (lo & hi & -> & ? & ? & ? & ? & Hex); [lia.. |].
    exists (block (0 + lo) (hi - lo + 1)). split; [done |]. split.
    - intros i Hi. rewrite testbit_block by lia. apply bool_decide_eq_true. lia.
    - intros [-> ->]%Hex i Hi. destruct (Z.ltb_spec i 0); [by rewrite Z.testbit_neg_r in Hi by lia |].
      rewrite testbit_block in Hi by lia. apply bool_decide_eq_true in Hi. lia. }
  { intros v Hu Hvm ->. rewrite (hex_text_read v _ _ Hu Hvm). simpl. unfold transform_absolute.
    rewrite (l3_base _ Hok), (l3_low _ Hok). unfold shl_u64. rewrite Z.shiftl_0_r, u64_id by done.
    destruct Hvm as (_ & _ & _ & ->). by rewrite Z.eqb_refl. }
  destruct (proportion_transform _ _) as [[a |] |] eqn:Ep; [| done..].
  destruct (Transform _ _ _) as [m |] eqn:Et; [| done]. injection Hs as <-.
  assert (valid_mask m (minCbmBits (info L)) (cbmMask (info L))) as Hm.
  { eapply Transform_valid; [apply Hok.. | | done]. by eapply proportion_transform_ok. }
  split_and!.
  - exists m. split_and!; [done | done |]. apply ParseUint_hex. destruct Hm as (? & _ & _ & Hl).
    apply (lor_u64_inv m (cbmMask (info L))); [done | apply (l3_mask _ Hok) |].
    rewrite Hl. apply (l3_mask _ Hok).
  - apply find_ids_schema; [apply Hok | done].
  - unfold replace_lines, nl. apply str_split_join.
    + destruct (str_split newline content) eqn:E; [| done].
      destruct content; simpl in E; [done |]. destruct (Ascii.eqb _ _); [done |]. by destruct (str_split _ _).
    + intros x (line & -> & Hl)%list_elem_of_fmap. apply str_split_plain. destruct (String.prefix _ _).
      2: { pose proof (str_split_parts newline content) as Hp. rewrite Forall_forall in Hp. by apply Hp. }
      apply schema_text_chars; [| done].
      intros c Hc. apply (entry_char_plain c Hc).
Qed.

(** ** Code and data masks *)

Lemma schema_entries_chars L alloc t ids sep x (p : ascii → bool) :
  (∀ a, entry_char a = true → p a = true) → p ";"%char = true → str_all p sep = true →
  schema_entries L alloc t ids sep = Ok (inl x) → str_all p x = true.
Proof.
  intros Hp Hsemi. revert sep x. induction ids as [| id ids IH]; intros sep x Hsep; simpl.
  { by intros [= <-]. }
  intros E. inv_ok E. destruct x0 as [b |]; [| done]. inv_ok E. destruct x0 as [rest |]; [| done].
  injection E as <-. apply IH in E1; [| simpl; by rewrite Hsemi].
  assert (Hn : ∀ base fuel z, 2 ≤ base ≤ 16 → str_all p (format_base base fuel z EmptyString) = true).
  { intros base fuel z Hb. eapply str_all_impl; [| by apply format_base_hex].
    intros a Ha. apply Hp. unfold entry_char. by rewrite Ha. }
  rewrite !str_all_app, Hsep, E1. unfold format_dec, format_hex. rewrite !Hn by lia. simpl.
  by rewrite (Hp "="%char).
Qed.

(** On a system that separates code and data masks, whatever allocation
    a class gets, the code and the data schema are written without a line end
    between them: the text that replaces each of the two lines is one line
    that holds both. *)
Theorem cdp_schema_one_line `{!GoRange} L l3 s :
  Supported (unified (info L)) = false → Supported (code (info L)) = true →
  getL3Schema L l3 = Ok (inl s) →
  (∃ c d, s = "L3CODE:" +:+ c +:+ "L3DATA:" +:+ d) ∧ str_split newline s = [s].
Proof.
  intros Hu Hc E. unfold getL3Schema in E. inv_ok E. destruct x as [sch |]; [| done].
  assert (Hlvl : Lvl sch = "L3").
  { unfold toSchema in E0. destruct (id_transform _ _); [| done]. inv_ok E0.
    destruct x; [| done]. by injection E0 as <-. }
  unfold getL3SchemaStr in E. rewrite Hu, Hc, orb_true_r in E. inv_ok E.
  destruct x as [c |]; [| done]. inv_ok E. destruct x as [d |]; [| done]. injection E as <-.
  unfold toStr in *. inv_ok E1. inv_ok E2. destruct x as [ce |], x0 as [de |]; try done.
  injection E1 as <-. injection E2 as <-. rewrite Hlvl. split; [by exists ce, de |].
  apply str_split_plain. rewrite !str_all_app.
  assert (Hch : ∀ t x, schema_entries L (Alloc sch) t (cacheIds (info L)) "" = Ok (inl x) →
    str_all (not_char newline) x = true).
  { intros t x. apply schema_entries_chars; [| done..]. intros a Ha. apply (entry_char_plain a Ha). }
  by rewrite (Hch _ _ E), (Hch _ _ E3).
Qed.

Module CacheExample.
#[local] Existing Instance key_order.
Definition no_cat : catInfo := mkCat 0 0.
(** Two sockets with eleven ways each, at least two of them per class. *)
Definition two_sockets : rdtL3Info :=
  mkL3 "/sys/fs/resctrl" (mkCats [0; 1] (mkCat 0x7ff 2) no_cat no_cat).
Definition schemata_text : string := "MB:0=100;1=100" +:+ nl +:+ "L3:0=7ff;1=7ff" +:+ nl.

Lemma two_sockets_ok : l3_ok (info two_sockets).
Proof. split; try reflexivity; [done.. |].
  repeat apply Forall_cons_2; unfold is_u64; [lia.. | apply Forall_nil_2]. Qed.

Lemma class_schema_valid_witness :
  getL3Schema two_sockets "51-100%" = Ok (inl "L3:0=7e0;1=7e0") ∧
  find_ids "L3" ["L3:0=7e0;1=7e0"] = inl [0; 1] ∧
  str_split newline (replace_lines "L3" "L3:0=7e0;1=7e0" schemata_text)
  = ["MB:0=100;1=100"; "L3:0=7e0;1=7e0"; ""].
Proof.
  destruct (class_schema_valid two_sockets "51-100%" schemata_text two_sockets_ok ltac:(done))
    as (r & E & Hr).
  assert (r = inl "L3:0=7e0;1=7e0") as -> by (vm_compute in E; by injection E as <-).
  split; [exact E |]. destruct Hr as (_ & _ & Hr). destruct (Hr _ eq_refl) as (_ & Hids & Hlines).
  split; [exact Hids | exact Hlines].
Defined.

(** The same caches with separate code and data masks. *)
Definition cdp_sockets : rdtL3Info :=
  mkL3 "/sys/fs/resctrl" (mkCats [0; 1] no_cat (mkCat 0x7ff 2) (mkCat 0x7ff 2)).
Lemma cdp_schema_one_line_witness :
  getL3Schema cdp_sockets "0x3" = Ok (inl "L3CODE:0=3;1=3L3DATA:0=3;1=3") ∧
  str_split newline "L3CODE:0=3;1=3L3DATA:0=3;1=3" = ["L3CODE:0=3;1=3L3DATA:0=3;1=3"] ∧
  replace_lines "L3" "L3CODE:0=3;1=3L3DATA:0=3;1=3" ("L3DATA:0=7ff;1=7ff" +:+ nl +:+ "L3CODE:0=7ff;1=7ff")
  = "L3CODE:0=3;1=3L3DATA:0=3;1=3" +:+ nl +:+ "L3CODE:0=3;1=3L3DATA:0=3;1=3".
Proof.
  assert (E : getL3Schema cdp_sockets "0x3" = Ok (inl "L3CODE:0=3;1=3L3DATA:0=3;1=3")) by reflexivity.
  split; [exact E |]. split; [| reflexivity].
  exact (proj2 (cdp_schema_one_line cdp_sockets "0x3" _ eq_refl eq_refl E)).
Defined.
End CacheExample.
