(* ===== verification/RdtServiceFacts.v ===== *)
(** * The rdt engine of the I/O service: theorems on RdtService.v

    Which adjustment is chosen, and that the choice depends on the order of a
    map; cpu times beyond 32 bits; apps that leave the map and not the store. *)

From S2P Require Export ServiceFake RdtService.

Section Facts.
Context `{!GoRange}.

(** ** The choice of an adjustment *)

Lemma find_adjustment_spec ok (m : gmap string Adjustment) flag k :
  find_adjustment ok (range m) = (flag, k) →
  if flag then ∃ a, m !! k = Some a ∧ ok (adj_Threshold a) = true
  else ∀ k' a, m !! k' = Some a → ok (adj_Threshold a) = false.
Proof.
  unfold find_adjustment. destruct (List.find _ (range m)) as [[k' a] |] eqn:E; intros [= <- <-].
  - apply List.find_some in E as [Hin Hok]. apply list_elem_of_In, elem_of_range in Hin. by exists a.
  - intros k' a Ha. apply (List.find_none _ _ E (k', a)). by apply list_elem_of_In, elem_of_range.
Qed.
Lemma all_classes_spec bad usage t :
  all_classes bad usage (Some t) = true ↔ ∀ cl lim, t !! cl = Some lim → bad (default fzero (usage !! cl)) lim = false.
Proof.
  simpl. rewrite forallb_forall. split.
  - intros Hu cl lim E. apply negb_true_iff. apply (Hu (cl, lim)). by apply list_elem_of_In, elem_of_range.
  - intros Hu [cl lim] Hin. apply negb_true_iff. apply Hu. by apply list_elem_of_In, elem_of_range in Hin.
Qed.
Lemma class_usage (f : string → f64) (l : list string) cl :
  default fzero ((list_to_map (map (λ c, (c, f c)) l) : gmap string f64) !! cl)
  = if decide (cl ∈ l) then f cl else fzero.
Proof.
  induction l as [| c l IH]; simpl; [done |]. destruct (decide (c = cl)) as [-> | Hne].
  - rewrite lookup_insert_eq, decide_True by set_solver. done.
  - rewrite lookup_insert_ne, IH by done. apply decide_ext. set_solver.
Qed.

(** What a class uses, as the policy has collected it; a class that is not
    configured, or has not reported, uses nothing. *)
Definition l3_of (c : RDTConfig) (L3Usage : gmap string f64) (cl : string) : f64 :=
  if decide (cl ∈ Classes c) then default fzero (L3Usage !! cl) else fzero.
Definition mb_of (c : RDTConfig) (MB : gmap string (f64 * f64)) (cl : string) : f64 :=
  if decide (cl ∈ Classes c) then match MB !! cl with Some (_, t) => t | None => fzero end else fzero.
(** No class is above its limit. *)
Definition below (use : string → f64) (t : option (gmap string f64)) : Prop :=
  ∀ m cl lim, t = Some m → m !! cl = Some lim → flt lim (use cl) = false.
Definition applies (c : RDTConfig) (L3Usage : gmap string f64) (MB : gmap string (f64 * f64)) (a : Adjustment) : Prop :=
  below (l3_of c L3Usage) (thr_L3Usage (adj_Threshold a)) ∧ below (mb_of c MB) (thr_Mb (adj_Threshold a)).

Lemma all_classes_below f l t :
  all_classes (λ use lim, flt lim use) (list_to_map (map (λ c, (c, f c)) l)) t = true ↔
  below (λ cl, if decide (cl ∈ l) then f cl else fzero) t.
Proof.
  destruct t as [t |]; [| split; [by intros _ ? ? ? | done]]. rewrite all_classes_spec. split.
  - intros Hu m cl lim [= <-] E. specialize (Hu cl lim E). by rewrite class_usage in Hu.
  - intros Hu cl lim E. rewrite class_usage. by eapply Hu.
Qed.
Lemma fixed_class_ok_applies c L3Usage MB a :
  fixed_class_ok
    (list_to_map (map (λ cl, (cl, default fzero (L3Usage !! cl))) (Classes c)))
    (list_to_map (map (λ cl, (cl, match MB !! cl with Some (_, t) => t | None => fzero end)) (Classes c)))
    (adj_Threshold a) = true ↔ applies c L3Usage MB a.
Proof.
  unfold fixed_class_ok. rewrite andb_true_iff.
  rewrite (all_classes_below (λ cl, default fzero (L3Usage !! cl))).
  by rewrite (all_classes_below (λ cl, match MB !! cl with Some (_, t) => t | None => fzero end)).
Qed.

(** The FixedClass policy chooses an adjustment that is configured and
    whose classes are all at or below its thresholds of L3 usage and memory
    bandwidth; it chooses none only when no configured adjustment is. *)
Theorem fixed_class_choice c L3Usage MB flag k :
  fixed_class_find c L3Usage MB = (flag, k) →
  if flag then ∃ a, Adjustments c !! k = Some a ∧ applies c L3Usage MB a
  else ∀ k' a, Adjustments c !! k' = Some a → ¬ applies c L3Usage MB a.
Proof.
  unfold fixed_class_find. intros E. apply find_adjustment_spec in E. destruct flag.
  - destruct E as (a & Ha & Hok). exists a. split; [done |]. by apply fixed_class_ok_applies.
  - intros k' a Ha Happ. specialize (E k' a Ha). apply fixed_class_ok_applies in Happ. congruence.
Qed.

(** ** Cpu times *)

Lemma digits_uint maxVal t n v : uint_digits 10 maxVal t n = inl v → digits t n = Some v.
Proof.
  revert n. induction t as [| a t IH]; intros n; simpl; [by intros [= ->] |].
  unfold hex_digit, digit. destruct ((48 <=? Z.of_nat (nat_of_ascii a)) && (Z.of_nat (nat_of_ascii a) <=? 57)).
  - destruct (_ <=? _); [done |]. destruct (_ <? _); [done |]. intros E. rewrite <- (IH _ E). f_equal. lia.
  - assert (Hbig : ∀ d, 10 <= d → match (if 10 <=? d then inr "invalid syntax"
        else if maxVal <? n * 10 + d then inr "value out of range"
        else uint_digits 10 maxVal t (n * 10 + d)) with inl _ => False | inr _ => True end).
    { intros d Hd. by destruct (Z.leb_spec 10 d); [| lia]. }
    destruct ((97 <=? _) && _) eqn:E1; [| destruct ((65 <=? _) && _) eqn:E2; [| done]].
    + apply andb_prop in E1 as [E1%Z.leb_le _]. intros E. specialize (Hbig (Z.of_nat (nat_of_ascii a) - 87)).
      rewrite E in Hbig. destruct Hbig. lia.
    + apply andb_prop in E2 as [E2%Z.leb_le _]. intros E. specialize (Hbig (Z.of_nat (nat_of_ascii a) - 55)).
      rewrite E in Hbig. destruct Hbig. lia.
Qed.
Lemma digits_dec z : is_u64 z → digits (format_dec z) 0 = Some z.
Proof.
  intros Hz. apply ParseUint_dec in Hz as Hp. unfold ParseUint in Hp.
  destruct (format_base_cons 10 20 z EmptyString ltac:(done)) as (a & r & E). change (format_base 10 20 z "") with (format_dec z) in E.
  rewrite E in *. by eapply digits_uint.
Qed.
Lemma dec_plain (p : ascii → bool) z :
  (∀ a, is_hex a = true → p a = true) → str_all p (format_dec z) = true.
Proof.
  intros Hp. eapply str_all_impl; [exact Hp |]. apply (format_base_hex 10 20 z EmptyString); [lia | done].
Qed.
Lemma ParseInt_too_large us :
  is_u64 us → 2 ^ 31 <= us → ∃ e, ParseInt (TrimSpace (format_dec us)) 32 = inr e.
Proof.
  intros Hu Hus. rewrite TrimSpace_all.
  2:{ apply dec_plain. intros a Ha. destruct (is_space a) eqn:E; [| done]. exfalso.
      unfold is_space in E. unfold is_hex, hex_digit in Ha. revert E Ha.
      destruct a as [[] [] [] [] [] [] [] []]; vm_compute; discriminate. }
  pose proof (digits_dec us Hu) as Hd.
  destruct (format_base_cons 10 20 us EmptyString ltac:(done)) as (a & r & E). change (format_base 10 20 us "") with (format_dec us) in E.
  pose proof (dec_plain is_hex us (λ a Ha, Ha)) as Hh. rewrite E in *. simpl in Hh. apply andb_prop in Hh as [Ha _].
  unfold ParseInt. destruct (Ascii.eqb_spec a "-"); [by subst a |]. destruct (Ascii.eqb_spec a "+"); [by subst a |].
  rewrite Hd. simpl. destruct (Z.leb_spec (2 ^ (32 - 1)) us); [eauto | lia].
Qed.

Context {F D : Type} `{!Files F} `{!BoltDB D} `{!RdtJson}.

Definition cpu_stat (app : RdtApp) : string := path_join [rdt_CgroupPath (RdtAppInfo app); "cpu.stat"].
(** The kernel's first line of cpu.stat. *)
Definition usage_line (us : Z) : string := "usage_usec " +:+ format_dec us.
Lemma usage_line_split us : is_u64 us → str_split " "%char (usage_line us) = ["usage_usec"; format_dec us].
Proof.
  intros Hu. change (usage_line us) with ("usage_usec" +:+ String " " (format_dec us)).
  rewrite str_split_app by done. rewrite str_split_plain; [done |]. apply dec_plain. intros a. by apply is_hex_not.
Qed.

(** A container with 2^31 microseconds of cpu time counts for nothing.
    The times are parsed as 32-bit numbers: once the usage of a container in
    cpu.stat, which grows for ever, is beyond about 36 minutes, its
    utilization is an error, and an app whose cgroup is still there adds
    nothing to its class. *)
Theorem cpu_time_overflow (f f' : F) elapsed k app (s : RdtSvc D) us txt rest :
  rs_Apps s = {[k := app]} → is_u64 us → 2 ^ 31 <= us →
  getCgroupVersion f = "v2" → present (Stat f (cpu_stat app)) = true →
  ReadFile f (cpu_stat app) = inl txt → read_lines txt = usage_line us :: rest →
  Stat f' (rdt_CgroupPath (RdtAppInfo app)) = Present →
  getRDTClassCPUUtilization f f' elapsed (RDTClass (RdtAppInfo app)) s = Ok (fzero, s).
Proof.
  intros Ha Hu Hus Hv Hst Hr Hl Hp. unfold getRDTClassCPUUtilization. rewrite Ha.
  assert (Hrange : range {[k := app]} = [(k, app)]).
  { apply Permutation_length_1_inv. rewrite range_perm. by rewrite map_to_list_singleton. }
  rewrite Hrange. simpl. rewrite String.eqb_refl. simpl. unfold getContainerCpuUtilization. rewrite Hv.
  simpl. unfold cpu_time. simpl. unfold getCgroupV2CpuTime. fold (cpu_stat app). rewrite Hst, Hr, Hl.
  cbn [negb usage_usec]. rewrite usage_line_split by done. rewrite String.eqb_refl.
  destruct (ParseInt_too_large us Hu Hus) as [e ->]. simpl. by rewrite Hp.
Qed.

(** ** Apps that are gone *)

(** An app whose cgroup is gone leaves the map only.  Measuring a class
    drops from the map those of its apps that cannot be read and whose cgroup
    does not exist, and no other; the store is not changed, so that they are
    back after a restart. *)
Theorem vanished_apps_stay_stored (f f' : F) elapsed cl (s s' : RdtSvc D) x :
  getRDTClassCPUUtilization f f' elapsed cl s = Ok (x, s') →
  rs_persist s' = rs_persist s ∧
  rdt_GetAllAppInfos "" s' = rdt_GetAllAppInfos "" s ∧
  ∀ k app, rs_Apps s !! k = Some app →
    rs_Apps s' !! k = Some app ∨
    rs_Apps s' !! k = None ∧ RDTClass (RdtAppInfo app) = cl ∧ Stat f' (rdt_CgroupPath (RdtAppInfo app)) = Absent.
Proof.
  unfold getRDTClassCPUUtilization. intros E.
  match type of E with foldM ?body _ _ = _ => set (b := body) in E end.
  assert (Hgen : ∀ l acc acc', (∀ kv, kv ∈ l → rs_Apps s !! kv.1 = Some kv.2) →
    foldM b acc l = Ok acc' → rs_persist acc'.2 = rs_persist acc.2 ∧
    ∀ k app, rs_Apps s !! k = Some app →
      rs_Apps acc'.2 !! k = rs_Apps acc.2 !! k ∨
      rs_Apps acc'.2 !! k = None ∧ RDTClass (RdtAppInfo app) = cl ∧
        Stat f' (rdt_CgroupPath (RdtAppInfo app)) = Absent).
  { clear E x s'. induction l as [| [k a] l IH]; intros [y s1] acc' Hl; simpl; [intros [= <-]; auto |].
    assert (Hrest : ∀ kv, kv ∈ l → rs_Apps s !! kv.1 = Some kv.2) by (intros; apply Hl; by right).
    pose proof (Hl (k, a) ltac:(by left)) as Hka. simpl in Hka.
    destruct (String.eqb_spec (RDTClass (RdtAppInfo a)) cl) as [Hcl |]; simpl; [| by apply IH].
    destruct (getContainerCpuUtilization f f' elapsed _) as [[v | e] | c] eqn:Eu; simpl; [| | done].
    { by intros (Ep & Ha)%IH. }
    destruct (Stat f' _) eqn:Es; simpl; [by intros ?%IH | | by intros ?%IH].
    intros (Ep & Ha)%IH; [| done]. simpl in Ep. split; [done |]. intros k' app Hk'.
    destruct (Ha k' app Hk') as [Eq | ?]; [| by right]. simpl in Eq.
    destruct (decide (k' = k)) as [-> | Hne]; [| left; by rewrite Eq, lookup_delete_ne].
    right. rewrite lookup_delete_eq in Eq. assert (app = a) as -> by congruence. done. }
  destruct (Hgen (range (rs_Apps s)) (fzero, s) (x, s')) as [Ep Ha]; [| done |].
  { intros [k a] Hin. by apply elem_of_range in Hin. }
  simpl in *. split; [done |]. split; [unfold rdt_GetAllAppInfos; by rewrite Ep |].
  intros k app Hk. destruct (Ha k app Hk) as [-> | ?]; auto.
Qed.
End Facts.

(** ** The order of the adjustments *)

Definition reverse_order : GoRange :=
  {| range := λ V m, reverse (map_to_list m); range_perm := λ V m, reverse_Permutation (map_to_list m) |}.
Definition idle_threshold : Threshold := mkThreshold None None (Some {["gold" := of_Z 1000]}) None.
Definition two_adjustments : RDTConfig :=
  mkRdtConfig ["gold"] 1 {["wide" := mkAdjustment idle_threshold {["gold" := "0xfff"]};
                           "narrow" := mkAdjustment idle_threshold {["gold" := "0xf"]}]}.
Definition mask_of (k : string) : option string :=
  match Adjustments two_adjustments !! k with Some a => AR_L3 a !! "gold" | None => None end.
(** Which adjustment is applied can depend on the order of the map.  When
    two adjustments apply, the one that the iteration meets first is taken,
    and Go leaves that order open: the class gets one cache mask or the
    other. *)
Theorem adjustment_depends_on_order :
  ∃ k1 k2, @fixed_class_find key_order two_adjustments ∅ ∅ = (true, k1) ∧
    @fixed_class_find reverse_order two_adjustments ∅ ∅ = (true, k2) ∧
    mask_of k1 = Some "0xfff" ∧ mask_of k2 = Some "0xf".
Proof. exists "wide", "narrow". split_and!; vm_compute; reflexivity. Qed.

(** ** Runs of the rdt engine *)

(** The quantities of a class are left out of the fake text. *)
Definition no_class_info : RDTClassInfo := mkClassInfo fzero fzero fzero fzero.
Definition rdt_tuple (a : RdtApp) : string * (string * string * string * string * string) :=
  let i := RdtAppInfo a in
  (ra_AppName a, (rdt_ContainerName i, rdt_CgroupPath i, RDTClass i, rdt_PodUid i, rdt_PodName i)).
Definition rdt_json_fake : RdtJson :=
  {| marshal_rdt_app := λ a, to_text (rdt_tuple a);
     unmarshal_rdt_app := λ s, match of_text s with
                               | inl (n, (c, p, cl, u, pn)) => inl (mkRdtAppInfo n (mkRdtApp c p cl u pn no_class_info))
                               | inr e => inr e
                               end;
     unmarshal_rdt_interval := of_text;
     unmarshal_rdt_config := λ s, match of_text s with
                                  | inl (classes, interval) => inl (mkRdtConfig classes interval ∅)
                                  | inr e => inr e
                                  end |}.

Module RdtExample.
Import FakeInstances ServiceInstances.
#[local] Existing Instance rdt_json_fake.

Lemma fixed_class_choice_witness :
  ∃ a, Adjustments two_adjustments !! "wide" = Some a ∧ applies two_adjustments ∅ ∅ a.
Proof. apply (fixed_class_choice two_adjustments ∅ ∅ true "wide"). vm_compute. reflexivity. Defined.

(** A container that has run for an hour. *)
Definition app1 : RdtApp := mkRdtAppInfo "c1" (mkRdtApp "main" "/cg/c1" "gold" "uid-1" "p1" no_class_info).
Definition node1 : Disk0 :=
  mkFiles {["/sys/fs/cgroup/cgroup.controllers" := "cpu"; "/cg/c1/cpu.stat" := usage_line (3600 * 10 ^ 6)]}
    {["/cg/c1" := []]} ∅.
Definition svc1 : RdtSvc Bolt := mkRdtSvc (Some (mkBolt {[["RDT"; "APPS"]]} ∅)) {["c1" := app1]} 2 two_adjustments.
Lemma cpu_time_overflow_witness : getRDTClassCPUUtilization node1 node1 1000000 "gold" svc1 = Ok (fzero, svc1).
Proof.
  apply (cpu_time_overflow node1 node1 1000000 "c1" app1 svc1 (3600 * 10 ^ 6)
           (usage_line (3600 * 10 ^ 6)) []); try (vm_compute; reflexivity).
  - split; vm_compute; [discriminate | reflexivity].
  - vm_compute. discriminate.
Defined.

(** The container is gone. *)
Definition node2 : Disk0 := mkFiles {["/sys/fs/cgroup/cgroup.controllers" := "cpu"]} ∅ ∅.
Definition svc2 : RdtSvc Bolt :=
  match getRDTClassCPUUtilization node2 node2 1000000 "gold" svc1 with Ok (_, s) => s | Crash _ => svc1 end.
Lemma vanished_apps_stay_stored_witness :
  rs_Apps svc2 !! "c1" = None ∧ rs_persist svc2 = rs_persist svc1.
Proof.
  split; [vm_compute; reflexivity |].
  apply (vanished_apps_stay_stored node2 node2 1000000 "gold" svc1 svc2 fzero). vm_compute. reflexivity.
Defined.
End RdtExample.
