(* ===== verification/RdtEngineFacts.v ===== *)
(** * The event engine: invariants of its steps, termination and defects

    Rule induction over the steps of RdtEngine.v: channels stay bounded, the
    mutex has at most one holder, and an application that was registered is
    never lost on its way to its monitor group; without new calls the engine
    comes to rest, and then every application has its group.  What the executor
    made and removed, along runs with the calls that were made in them. *)

From stdpp Require Export relations.
From S2P Require Export RdtEngine.

(** ** Handlers and channels *)

Definition eh_sig (eh : EventHandler) : string * list (option handle) := (eh_t eh, eh_handles eh).
(** The handlers that Initialize registers. *)
Definition standard : list (string * list (option handle)) :=
  [(EventTargetPolicy, [Some onPolicy]); (EventTargetMonitorReceiver, [Some onMonitorReceiver]);
   (EventTargetMonitor, [Some onMonitor]); (EventTargetWatcher, [Some onWatcher]);
   (EventTargetExecutor, [Some onExecutor]); (EventTargetStop, [None])].
Definition queued (t : string) (e : event) (l : list EventHandler) : Prop :=
  ∃ eh, eh ∈ l ∧ eh_t eh = t ∧ e ∈ eh_ch eh.
Definition bounded (l : list EventHandler) : Prop :=
  Forall (λ eh, (length (eh_ch eh) ≤ eventChanSize)%nat) l.

Lemma send_to_sig t e l l' : send_to t e l = Some l' → eh_sig <$> l' = eh_sig <$> l.
Proof.
  revert l'. induction l as [| eh l IH]; intros l'; simpl; [by intros [= <-] |].
  destruct (String.eqb (eh_t eh) t).
  - destruct (_ <? _)%nat; [| done]. by intros [= <-].
  - destruct (send_to t e l) as [l1 |]; [| done]. intros [= <-]. rewrite !fmap_cons. f_equal. by apply IH.
Qed.
Lemma send_to_bounded t e l l' : send_to t e l = Some l' → bounded l → bounded l'.
Proof.
  intros E Hl. revert l' E. induction Hl as [| eh l Heh Hl IH]; intros l'; simpl.
  { intros [= <-]. constructor. }
  destruct (String.eqb (eh_t eh) t).
  - destruct (Nat.ltb_spec (length (eh_ch eh)) eventChanSize); [| done]. intros [= <-].
    constructor; [| done]. simpl. rewrite length_app. simpl. lia.
  - destruct (send_to t e l) as [l1 |]; [| done]. intros [= <-]. constructor; [done | by apply IH].
Qed.
Lemma send_to_queued t e l l' t' e' : send_to t e l = Some l' → queued t' e' l → queued t' e' l'.
Proof.
  intros E (eh & Hin & Ht & He). revert l' E. induction l as [| h l IH]; intros l'; simpl.
  { by apply elem_of_nil in Hin. }
  destruct (String.eqb (eh_t h) t).
  - destruct (_ <? _)%nat; [| done]. intros [= <-]. apply elem_of_cons in Hin as [<- | Hin].
    + exists (mkHandler (eh_t eh) (eh_ch eh ++ [e]) (eh_handles eh)). simpl. set_solver.
    + exists eh. set_solver.
  - destruct (send_to t e l) as [l1 |]; [| done]. intros [= <-]. apply elem_of_cons in Hin as [<- | Hin].
    + exists eh. set_solver.
    + destruct (IH Hin l1 eq_refl) as (eh' & ? & ? & ?). exists eh'. set_solver.
Qed.
Lemma send_to_sent t e l l' : send_to t e l = Some l' → t ∈ eh_t <$> l → queued t e l'.
Proof.
  revert l'. induction l as [| h l IH]; intros l'; simpl; [by intros _ ?%elem_of_nil |].
  destruct (String.eqb_spec (eh_t h) t) as [Ht | Ht].
  - destruct (_ <? _)%nat; [| done]. intros [= <-] _.
    exists (mkHandler (eh_t h) (eh_ch h ++ [e]) (eh_handles h)). simpl. set_solver.
  - destruct (send_to t e l) as [l1 |]; [| done]. intros [= <-] Hin.
    destruct (IH l1 eq_refl) as (eh' & ? & ? & ?); [set_solver |]. exists eh'. set_solver.
Qed.
Lemma send_to_room t e l : Forall (λ eh, eh_ch eh = []) l → ∃ l', send_to t e l = Some l'.
Proof.
  induction 1 as [| eh l Heh Hl [l' IH]]; simpl; [eauto |]. rewrite Heh, IH. simpl.
  destruct (String.eqb _ _); eauto.
Qed.
Lemma sig_types l : eh_sig <$> l = standard → eh_t <$> l = standard.*1.
Proof. intros <-. by rewrite <- list_fmap_compose. Qed.

(** ** The invariant *)

Definition holder (t : task) : bool :=
  match t with Sending _ b => b | Blocked => true | _ => false end.
Definition holders (ts : list task) : nat := length (filter (λ t, holder t = true) ts).
Definition add_event (name : string) : event := AppEvent name OperationAdd "".
Definition carries (name : string) (t : task) : Prop :=
  match t with
  | Sending todo _ => (EventTargetPolicy, add_event name) ∈ todo
  | Handling h e => h = onPolicy ∧ e = add_event name
  | Reacting c e => c = CPolicy ∧ e = add_event name
  | _ => False
  end.
(** On its way to a group, or there. *)
Definition covered (name : string) (s : system) : Prop :=
  is_Some (mgs (sys_eng s) !! name) ∨ (∃ t, t ∈ tasks s ∧ carries name t) ∨
  queued EventTargetPolicy (add_event name) (ehs (sys_eng s)).
Definition is_pure (p : policy) : bool := match p with PureMonitor => true | _ => false end.

Record sys_ok (s : system) : Prop := {
  ok_sig : eh_sig <$> ehs (sys_eng s) = standard;
  ok_room : bounded (ehs (sys_eng s));
  ok_mutex : holders (tasks s) = (if mutex s then 1 else 0)%nat;
  ok_mgs : map_Forall (λ _ g, mg_state g = 0) (mgs (sys_eng s));
  ok_cgs : map_Forall (λ _ g, cg_state g = 0) (cgs (sys_eng s));
  ok_covered : is_pure (eng_policy (sys_eng s)) = true →
    ∀ name, is_Some (apps (sys_eng s) !! name) → covered name s
}.

Lemma holders_app l1 l2 : holders (l1 ++ l2) = (holders l1 + holders l2)%nat.
Proof. unfold holders. by rewrite filter_app, length_app. Qed.
Lemma holders_none l : Forall (λ t, holder t = false) l → holders l = 0%nat.
Proof.
  unfold holders. induction 1 as [| t l Ht Hl IH]; [done |]. rewrite filter_cons, Ht. by case_decide.
Qed.
Lemma holders_one t : holders [t] = if holder t then 1%nat else 0%nat.
Proof. unfold holders. rewrite filter_cons. simpl. by destruct (holder t); case_decide. Qed.

(** Operations change the three maps only, in this way. *)
Record call_frame (g g' : engine) (e : event) : Prop := {
  cf_ehs : ehs g' = ehs g;
  cf_policy : eng_policy g' = eng_policy g;
  cf_running : isRunning g' = isRunning g;
  cf_parts : ∀ h, parts g' h = parts g h;
  cf_mg_state : map_Forall (λ _ g, mg_state g = 0) (mgs g) → map_Forall (λ _ g, mg_state g = 0) (mgs g');
  cf_cg_state : map_Forall (λ _ g, cg_state g = 0) (cgs g) → map_Forall (λ _ g, cg_state g = 0) (cgs g');
  cf_mgs : mgs g ⊆ mgs g';
  cf_apps : ∀ n, is_Some (apps g !! n) → is_Some (apps g' !! n);
  cf_new : ∀ n, is_Some (apps g' !! n) → is_Some (apps g !! n) ∨ e = add_event n
}.
Lemma call_frame_refl g e : call_frame g g e.
Proof. split; auto. Qed.
Lemma run_call_frame c g g' e : run_call c g = inl (g', e) → call_frame g g' e.
Proof.
  destruct c as [n a | n | i m | i | i m | i | i sc]; simpl; intros E.
  - unfold RegisterApp in E. destruct (apps g !! n) eqn:En; [done |]. injection E as <- <-.
    split; auto; intros n'; simpl; rewrite lookup_insert_is_Some'; [auto |].
    intros [-> | ?]; auto.
  - unfold UnRegisterApp in E. destruct (apps g !! n) as [[sp [m c st er]] |] eqn:En; [| done].
    injection E as <- <-. split; auto; intros n'; simpl; rewrite lookup_insert_is_Some'; [auto |].
    intros [-> | ?]; left; [rewrite En; eauto | done].
  - unfold CreateMonitorGroup in E. destruct (mgs g !! i) eqn:Ei; [done |]. injection E as <- <-.
    split; auto; simpl.
    + intros Hm. by apply map_Forall_insert_2.
    + by apply insert_subseteq.
  - unfold RemoveMonitorGroup in E. destruct (mgs g !! i); [| done]. injection E as <- <-. apply call_frame_refl.
  - unfold CreateControlGroup in E. destruct (cgs g !! i) eqn:Ei; [done |].
    destruct (negb _); [done |]. injection E as <- <-.
    split; auto; simpl. intros Hm. by apply map_Forall_insert_2.
  - unfold RemoveControlGroup in E. destruct (cgs g !! i); [| done]. injection E as <- <-. apply call_frame_refl.
  - unfold SetControlGroupSchema in E. destruct (cgs g !! i); [| done]. destruct (negb _); [done |].
    destruct (_ =? _); [done |]. injection E as <- <-. apply call_frame_refl.
Qed.

(** A reaction under the mutex is one of the operations on monitor groups, or
    changes nothing. *)
Lemma OnEvent_locked c e g g' em :
  OnEvent c e g = Locked g' em →
  (em = None ∧ g' = g) ∨
  ∃ id op, em = Some (MonitorGroupEvent id op "") ∧ call_frame g g' (MonitorGroupEvent id op "").
Proof.
  assert (Hlk : ∀ cl n op, (∀ g1 e1, run_call cl g = inl (g1, e1) → e1 = MonitorGroupEvent n op "") →
    locked g (run_call cl g) = Locked g' em → (em = None ∧ g' = g) ∨
      ∃ id op, em = Some (MonitorGroupEvent id op "") ∧ call_frame g g' (MonitorGroupEvent id op "")).
  { intros cl n op Hev. destruct (run_call cl g) as [[g1 e1] |] eqn:Er; simpl; [| intros [= <- <-]; by left].
    intros [= <- <-]. right. specialize (Hev g1 e1 eq_refl). subst e1. eauto using run_call_frame. }
  destruct c; simpl; try done. unfold policy_OnEvent.
  destruct (eng_policy g), e as [| n op k | | | | | ? []]; try done.
  - destruct (String.eqb op OperationAdd).
    + apply (Hlk (CallCreateMonitorGroup n (mkMonGroup n "" 0 "" [])) n OperationAdd).
      simpl. unfold CreateMonitorGroup. by destruct (mgs g !! n); [| intros ? ? [= <- <-]].
    + destruct (String.eqb op OperationRemove); [| done].
      apply (Hlk (CallRemoveMonitorGroup n) n OperationRemove).
      simpl. unfold RemoveMonitorGroup. by destruct (mgs g !! n); [intros ? ? [= <- <-] |].
  - destruct (String.eqb op OperationAdd); [| done]. intros [= <- <-]. by left.
Qed.
Lemma OnEvent_quiet c e g ops p loop :
  OnEvent c e g = Quiet ops p loop → is_pure p = is_pure (eng_policy g).
Proof.
  destruct c; simpl; try by intros [= _ <- _]. unfold policy_OnEvent.
  destruct (eng_policy g) eqn:Ep, e as [| n op k | | | | | ? []]; try by intros [= _ <- _].
  - destruct (String.eqb op OperationAdd).
    + unfold CreateMonitorGroup. by destruct (mgs g !! n).
    + destruct (String.eqb op OperationRemove); [| by intros [= _ <- _]].
      unfold RemoveMonitorGroup. by destruct (mgs g !! n).
  - destruct (String.eqb op OperationAdd); [done | by intros [= _ <- _]].
Qed.
(** The monitor policy gives an application its group. *)
Lemma OnEvent_add n g :
  is_pure (eng_policy g) = true →
  ∃ g' em, OnEvent CPolicy (add_event n) g = Locked g' em ∧ is_Some (mgs g' !! n).
Proof.
  intros Hp. simpl. unfold policy_OnEvent, add_event. destruct (eng_policy g); [| done]. simpl.
  unfold CreateMonitorGroup. destruct (mgs g !! n) eqn:En; simpl.
  - eexists _, _. split; [done |]. rewrite En. eauto.
  - eexists _, _. split; [done |]. simpl. rewrite lookup_insert_eq. eauto.
Qed.

Lemma sig_handles l eh : eh_sig <$> l = standard → eh ∈ l → eh_sig eh ∈ standard.
Proof. intros <- Hin. by apply list_elem_of_fmap_2. Qed.
Lemma policy_handles l eh :
  eh_sig <$> l = standard → eh ∈ l → eh_t eh = EventTargetPolicy → eh_handles eh = [Some onPolicy].
Proof.
  intros Hl Hin Ht. pose proof (sig_handles l eh Hl Hin) as Hs. unfold eh_sig, standard in Hs. rewrite Ht in Hs.
  repeat (apply elem_of_cons in Hs as [Hs | Hs]; [by inversion Hs |]). by apply elem_of_nil in Hs.
Qed.

Lemma covered_istep name s s' :
  sys_ok s → is_pure (eng_policy (sys_eng s)) = true → istep s s' → covered name s → covered name s'.
Proof.
  intros Hok Hp Hst. pose proof (ok_sig _ Hok) as Hsig. clear Hok.
  destruct Hst as [g m l1 l2 log t e todo b ehs' Hs | g m l1 l2 log b | g m ts log h1 h2 t e ch hs Hr He Ht
    | g m ts log h1 h2 e ch hs Hr He | g m l1 l2 log h e | g m l1 l2 log c e ops p loop Hq
    | g l1 l2 log c e g' em Hlk]; unfold covered; simpl in *; intros [Hm | [(tk & Hin & Hc) | Hq']];
    try (by left).
  - right. apply elem_of_app in Hin as [Hin | [-> | Hin]%elem_of_cons]; [left; set_solver | | left; set_solver].
    simpl in Hc. apply elem_of_cons in Hc as [Heq | Hc].
    + injection Heq as <- <-. right. eapply send_to_sent; [done |]. rewrite (sig_types _ Hsig). set_solver.
    + left. exists (Sending todo b). set_solver.
  - right. right. by eapply send_to_queued.
  - right. left. apply elem_of_app in Hin as [Hin | [-> | Hin]%elem_of_cons]; [set_solver | | set_solver].
    by apply elem_of_nil in Hc.
  - right. right. done.
  - right. left. set_solver.
  - right. destruct Hq' as (eh & Hin & Hte & Hee). rewrite He in Hin.
    apply elem_of_app in Hin as [Hin | [-> | Hin]%elem_of_cons].
    + right. exists eh. set_solver.
    + simpl in *. apply elem_of_cons in Hee as [<- | Hee].
      * left. exists (Handling onPolicy (add_event name)). split; [| done]. apply elem_of_app. right.
        assert (hs = [Some onPolicy]) as -> by (eapply (policy_handles (ehs g)) with (eh := mkHandler t (add_event name :: ch) hs); [done | | done]; rewrite He; set_solver).
        set_solver.
      * right. exists (mkHandler t ch hs). set_solver.
    + right. exists eh. set_solver.
  - right. left. set_solver.
  - right. right. destruct Hq' as (eh & Hin & Hte & Hee). rewrite He in Hin.
    apply elem_of_app in Hin as [Hin | [-> | Hin]%elem_of_cons]; [exists eh; set_solver | done | exists eh; set_solver].
  - right. left. apply elem_of_app in Hin as [Hin | [-> | Hin]%elem_of_cons]; [set_solver | | set_solver].
    destruct Hc as [-> ->]. exists (Reacting CPolicy (add_event name)). simpl. split; [set_solver | done].
  - right. right. done.
  - right. left. apply elem_of_app in Hin as [Hin | [-> | Hin]%elem_of_cons]; [set_solver | | set_solver].
    destruct Hc as [-> ->]. destruct (OnEvent_add name g Hp) as (g' & em & E & _). congruence.
  - right. right. done.
  - destruct (OnEvent_locked _ _ _ _ _ Hlk) as [[_ ->] | (id & op & _ & Hf)]; [by left |].
    left. by eapply lookup_weaken_is_Some, Hf.
  - apply elem_of_app in Hin as [Hin | [-> | Hin]%elem_of_cons]; [right; left; set_solver | | right; left; set_solver].
    destruct Hc as [-> ->]. destruct (OnEvent_add name g Hp) as (g1 & em1 & E & Hs).
    rewrite Hlk in E. injection E as <- <-. by left.
  - right. right. destruct (OnEvent_locked _ _ _ _ _ Hlk) as [[_ ->] | (id & op & _ & Hf)]; [done |].
    by rewrite (cf_ehs _ _ _ Hf).
Qed.

(** ** The invariant holds in every state that can be reached *)

Lemma holders_split l1 t l2 : holders (l1 ++ t :: l2) = (holders l1 + (if holder t then 1 else 0) + holders l2)%nat.
Proof. rewrite holders_app. change (t :: l2) with ([t] ++ l2). rewrite holders_app, holders_one. lia. Qed.
Lemma holders_pick l1 t l2 (n : nat) :
  holders (l1 ++ t :: l2) = n → holder t = false → holders (l1 ++ l2) = n.
Proof. intros H Ht. rewrite holders_split, Ht in H. rewrite holders_app. lia. Qed.

(** A channel loses its first event. *)
Lemma pop_sig (l h1 h2 : list EventHandler) t e ch hs :
  l = h1 ++ mkHandler t (e :: ch) hs :: h2 → eh_sig <$> l = standard →
  eh_sig <$> (h1 ++ mkHandler t ch hs :: h2) = standard.
Proof. intros -> Hs. rewrite fmap_app, fmap_cons in *. exact Hs. Qed.
Lemma pop_bounded (l h1 h2 : list EventHandler) t e ch hs :
  l = h1 ++ mkHandler t (e :: ch) hs :: h2 → bounded l → bounded (h1 ++ mkHandler t ch hs :: h2).
Proof.
  intros ->. unfold bounded. rewrite !Forall_app, !Forall_cons. simpl. intros (? & ? & ?).
  split_and!; [done | lia | done].
Qed.

Lemma sys_ok_istep s s' : istep s s' → sys_ok s → sys_ok s'.
Proof.
  intros Hst Hok.
  assert (Hcov : is_pure (eng_policy (sys_eng s)) = true → ∀ name, covered name s → covered name s')
    by (intros; by eapply covered_istep). revert Hcov.
  destruct Hok as [Hsig Hroom Hmx Hmg Hcg Hc].
  destruct Hst as [g m l1 l2 log t e todo b ehs' Hs | g m l1 l2 log b | g m ts log h1 h2 t e ch hs Hr He Ht
    | g m ts log h1 h2 e ch hs Hr He | g m l1 l2 log h e | g m l1 l2 log c e ops p loop Hq
    | g l1 l2 log c e g' em Hlk]; simpl in *; intros Hcov; split; simpl; auto.
  - by rewrite (send_to_sig _ _ _ _ Hs).
  - by eapply send_to_bounded.
  - rewrite holders_split in *. done.
  - rewrite holders_split in Hmx. simpl in Hmx. rewrite holders_app. destruct b, m; lia.
  - by eapply pop_sig.
  - by eapply pop_bounded.
  - rewrite holders_app, Hmx. rewrite (holders_none (map _ _)); [lia |].
    apply Forall_forall. intros x (y & -> & _)%list_elem_of_fmap. done.
  - by eapply pop_sig.
  - by eapply pop_bounded.
  - apply holders_pick in Hmx; [| done]. rewrite app_assoc, holders_app, Hmx.
    rewrite (holders_none (map _ _)); [lia |].
    apply Forall_forall. intros x (y & -> & _)%list_elem_of_fmap. done.
  - apply holders_pick in Hmx; [| done]. rewrite app_assoc, holders_app, Hmx.
    destruct loop as [[? ?] |]; rewrite holders_none; auto; lia.
  - intros Hp. rewrite (OnEvent_quiet _ _ _ _ _ _ Hq) in Hp. auto.
  - destruct (OnEvent_locked _ _ _ _ _ Hlk) as [[_ ->] | (id & op & _ & Hf)]; [done |].
    by rewrite (cf_ehs _ _ _ Hf).
  - destruct (OnEvent_locked _ _ _ _ _ Hlk) as [[_ ->] | (id & op & _ & Hf)]; [done |].
    by rewrite (cf_ehs _ _ _ Hf).
  - apply holders_pick in Hmx; [| done]. rewrite app_assoc, holders_app, Hmx.
    destruct em; [rewrite holders_one | rewrite holders_none]; done.
  - destruct (OnEvent_locked _ _ _ _ _ Hlk) as [[_ ->] | (id & op & _ & Hf)]; [done | by apply Hf].
  - destruct (OnEvent_locked _ _ _ _ _ Hlk) as [[_ ->] | (id & op & _ & Hf)]; [done | by apply Hf].
  - destruct (OnEvent_locked _ _ _ _ _ Hlk) as [[_ ->] | (id & op & _ & Hf)]; [auto |].
    rewrite (cf_policy _ _ _ Hf). intros Hp n Hn. apply Hcov; [done |]. apply Hc; [done |].
    by destruct (cf_new _ _ _ Hf n Hn).
Qed.

Lemma sys_ok_xstep s s' : xstep s s' → sys_ok s → sys_ok s'.
Proof.
  intros Hst [Hsig Hroom Hmx Hmg Hcg Hc].
  destruct Hst as [g ts log c g' e Hcall | g m ts log e He | g m ts log | g ts log name v c Hcr]; simpl in *.
  - apply run_call_frame in Hcall as Hf. split; simpl.
    + by rewrite (cf_ehs _ _ _ Hf).
    + by rewrite (cf_ehs _ _ _ Hf).
    + by rewrite holders_app, Hmx.
    + by apply Hf.
    + by apply Hf.
    + rewrite (cf_policy _ _ _ Hf). intros Hp n Hn. unfold covered. simpl. rewrite (cf_ehs _ _ _ Hf).
      destruct (cf_new _ _ _ Hf n Hn) as [Hold | ->].
      * destruct (Hc Hp n Hold) as [Hm | [(t & ? & ?) | Hq]]; [left; by eapply lookup_weaken_is_Some, Hf | | by right; right].
        right. left. exists t. set_solver.
      * right. left. exists (EmitEvent (add_event n) true). split; [set_solver |]. simpl. set_solver.
  - split; simpl; try done.
    + by rewrite holders_app, Hmx, Nat.add_0_r.
    + intros Hp n Hn. destruct (Hc Hp n Hn) as [Hm | [(t & ? & ?) | Hq]]; [by left | | by right; right].
      right. left. exists t. set_solver.
  - by split.
  - split; simpl; try done.
    + by rewrite holders_app, Hmx.
    + intros Hp n Hn. destruct (Hc Hp n Hn) as [Hm | [(t & ? & ?) | Hq]]; [by left | | by right; right].
      right. left. exists t. set_solver.
Qed.

Definition reachable (p : policy) (mons : list string) (wats : nat) (exes : list component) : system → Prop :=
  rtc step (start_system (DefaultEngineNewer p mons wats exes)).
Lemma start_ok p mons wats exes : sys_ok (start_system (DefaultEngineNewer p mons wats exes)).
Proof.
  split; simpl; try done; [repeat constructor; unfold eventChanSize; simpl; lia |].
  intros _ n [a Ha]. done.
Qed.
Lemma reachable_ok p mons wats exes s : reachable p mons wats exes s → sys_ok s.
Proof.
  revert s. apply rtc_ind_r; [apply start_ok |].
  intros s1 s2 _ [Hs | Hs]; eauto using sys_ok_istep, sys_ok_xstep.
Qed.

(** ** Coming to rest *)

(** How much work is left: [N] bounds the parts that one handle goes over. *)
Definition parts_bound (g : engine) : nat :=
  1 + length (monitor_receivers g) + length (monitors g) + watchers g + length (executors g).
Definition rank (N : nat) (e : event) : nat := match e with AppEvent _ _ _ => 8 + 2 * N | _ => 1 end.
Definition queue_work (N : nat) (e : event) : nat := 2 + N * rank N e.
Definition task_work (N : nat) (t : task) : nat :=
  match t with
  | Sending todo _ => S (sum_list (map (λ te, S (queue_work N te.2)) todo))
  | Handling _ e => 1 + N * rank N e
  | Reacting _ e => rank N e
  | Monitoring _ _ | Blocked => 0
  end.
Definition tasks_work (N : nat) (ts : list task) : nat := sum_list (map (task_work N) ts).
Definition ch_work (N : nat) (l : list EventHandler) : nat :=
  sum_list (map (λ eh, sum_list (map (queue_work N) (eh_ch eh))) l).
Definition work (s : system) : nat :=
  let N := parts_bound (sys_eng s) in ch_work N (ehs (sys_eng s)) + tasks_work N (tasks s).

Lemma sum_map_app {A} (f : A → nat) l1 l2 :
  sum_list (map f (l1 ++ l2)) = (sum_list (map f l1) + sum_list (map f l2))%nat.
Proof. by rewrite map_app, sum_list_with_app. Qed.
Lemma tasks_work_app N l1 l2 : tasks_work N (l1 ++ l2) = (tasks_work N l1 + tasks_work N l2)%nat.
Proof. apply sum_map_app. Qed.
Lemma tasks_work_cons N t l : tasks_work N (t :: l) = (task_work N t + tasks_work N l)%nat.
Proof. done. Qed.
Lemma ch_work_split N h1 eh h2 :
  ch_work N (h1 ++ eh :: h2) = (ch_work N h1 + sum_list (map (queue_work N) (eh_ch eh)) + ch_work N h2)%nat.
Proof. unfold ch_work. rewrite sum_map_app. simpl. lia. Qed.
Lemma send_to_work N t e l l' :
  send_to t e l = Some l' → (ch_work N l' ≤ ch_work N l + queue_work N e)%nat.
Proof.
  revert l'. induction l as [| eh l IH]; intros l'; simpl; [intros [= <-]; cbn; lia |].
  destruct (String.eqb (eh_t eh) t).
  - destruct (_ <? _)%nat; [| done]. intros [= <-]. unfold ch_work. simpl. rewrite sum_map_app. simpl. unfold queue_work. lia.
  - destruct (send_to t e l) as [l1 |]; [| done]. intros [= <-]. specialize (IH l1 eq_refl).
    unfold ch_work in *. simpl. lia.
Qed.
Lemma parts_length g h : (length (parts g h) ≤ parts_bound g)%nat.
Proof.
  unfold parts_bound. destruct h; simpl; rewrite ?length_fmap, ?length_replicate; lia.
Qed.
Lemma reacting_work N e l : tasks_work N (map (λ c, Reacting c e) l) = (length l * rank N e)%nat.
Proof. induction l as [| c l IH]; [done |]. simpl. rewrite tasks_work_cons, IH. simpl. lia. Qed.
Lemma rank_pos N e : (1 ≤ rank N e)%nat.
Proof. destruct e; simpl; lia. Qed.
Lemma call_frame_bound g g' e : call_frame g g' e → parts_bound g' = parts_bound g.
Proof.
  intros Hf. unfold parts_bound.
  pose proof (f_equal length (cf_parts _ _ _ Hf onMonitorReceiver)) as E1.
  pose proof (f_equal length (cf_parts _ _ _ Hf onMonitor)) as E2.
  pose proof (f_equal length (cf_parts _ _ _ Hf onWatcher)) as E3.
  pose proof (f_equal length (cf_parts _ _ _ Hf onExecutor)) as E4.
  simpl in *. rewrite !length_fmap in *. rewrite !length_replicate in *. congruence.
Qed.
(** Only the monitor policy's answer to an application emits anything. *)
Lemma locked_rank N c e g g' em : OnEvent c e g = Locked g' (Some em) → rank N e = (8 + 2 * N)%nat.
Proof.
  destruct c; simpl; try done. unfold policy_OnEvent.
  by destruct (eng_policy g), e as [| n op k | | | | | ? []].
Qed.
Lemma emit_work N id op : task_work N (EmitEvent (MonitorGroupEvent id op "") true) = (7 + 2 * N)%nat.
Proof. cbn. lia. Qed.

Lemma istep_work s s' : sys_ok s → istep s s' → (work s' < work s)%nat.
Proof.
  intros Hok Hst. pose proof (ok_sig _ Hok) as Hsig. clear Hok.
  destruct Hst as [g m l1 l2 log t e todo b ehs' Hs | g m l1 l2 log b | g m ts log h1 h2 t e ch hs Hr He Ht
    | g m ts log h1 h2 e ch hs Hr He | g m l1 l2 log h e | g m l1 l2 log c e ops p loop Hq
    | g l1 l2 log c e g' em Hlk]; unfold work; cbn [sys_eng tasks] in *.
  - change (parts_bound (set_ehs ehs' g)) with (parts_bound g). set (N := parts_bound g).
    pose proof (send_to_work N t e _ _ Hs). rewrite !tasks_work_app, !tasks_work_cons.
    assert (task_work N (Sending ((t, e) :: todo) b) = S (queue_work N e) + task_work N (Sending todo b))%nat as ->
      by (unfold queue_work; simpl; lia).
    cbn [ehs set_ehs]. lia.
  - rewrite !tasks_work_app, tasks_work_cons. simpl. lia.
  - change (parts_bound (set_ehs _ g)) with (parts_bound g). set (N := parts_bound g).
    cbn [ehs set_ehs]. rewrite He, !ch_work_split, tasks_work_app. cbn [eh_ch map sum_list].
    assert (Hh : hs = [] ∨ ∃ x, hs = [x]).
    { assert (Hs : (t, hs) ∈ standard).
      { apply (sig_handles (ehs g) (mkHandler t (e :: ch) hs) Hsig). rewrite He. set_solver. }
      unfold standard in Hs.
      repeat (apply elem_of_cons in Hs as [Hs | Hs]; [injection Hs as _ ->; right; by eexists |]).
      by apply elem_of_nil in Hs. }
    change (sum_list (queue_work N e :: map (queue_work N) ch))
      with (queue_work N e + sum_list (map (queue_work N) ch))%nat.
    destruct Hh as [-> | [[h |] ->]]; unfold tasks_work, queue_work; simpl; lia.
  - change (parts_bound (set_running _ _)) with (parts_bound g). set (N := parts_bound g).
    cbn [ehs set_ehs set_running]. rewrite He, !ch_work_split. cbn [eh_ch].
    change (sum_list (map (queue_work N) (e :: ch))) with (queue_work N e + sum_list (map (queue_work N) ch))%nat.
    unfold queue_work. lia.
  - set (N := parts_bound g). rewrite !tasks_work_app, tasks_work_cons, reacting_work.
    assert (Hlen : (length (filter (λ c, match_ (EventFilter c) (Key e) = true) (parts g h)) ≤ N)%nat).
    { etransitivity; [apply length_filter | apply parts_length]. }
    pose proof (Nat.mul_le_mono_r _ _ (rank N e) Hlen).
    change (task_work N (Handling h e)) with (S (N * rank N e)). lia.
  - change (parts_bound (set_policy p g)) with (parts_bound g). set (N := parts_bound g).
    rewrite !tasks_work_app, tasks_work_cons. simpl. pose proof (rank_pos N e).
    assert (tasks_work N match loop with Some (t, id) => [Monitoring t id] | None => [] end = 0%nat) as ->
      by (by destruct loop as [[? ?] |]). lia.
  - destruct (OnEvent_locked _ _ _ _ _ Hlk) as [[-> ->] | (id & op & -> & Hf)].
    + rewrite !tasks_work_app, tasks_work_cons. simpl. pose proof (rank_pos (parts_bound g) e).
      unfold tasks_work at 3. simpl. lia.
    + rewrite (call_frame_bound _ _ _ Hf), (cf_ehs _ _ _ Hf). set (N := parts_bound g).
      rewrite !tasks_work_app, !tasks_work_cons, emit_work.
      change (task_work N (Reacting c e)) with (rank N e). rewrite (locked_rank N _ _ _ _ _ Hlk).
      unfold tasks_work at 3. simpl. lia.
Qed.

(** Only the engine's own goroutines and no Stop event: the loop goes on. *)
Definition calm_task (t : task) : Prop :=
  match t with
  | Sending todo _ => Forall (λ te, te.1 ≠ EventTargetStop) todo
  | Blocked => False
  | _ => True
  end.
Record calm (s : system) : Prop := {
  calm_running : isRunning (sys_eng s) = true;
  calm_queue : Forall (λ eh, eh_t eh = EventTargetStop → eh_ch eh = []) (ehs (sys_eng s));
  calm_tasks : Forall calm_task (tasks s)
}.
Lemma send_to_stop t e l l' :
  send_to t e l = Some l' → t ≠ EventTargetStop →
  Forall (λ eh, eh_t eh = EventTargetStop → eh_ch eh = []) l →
  Forall (λ eh, eh_t eh = EventTargetStop → eh_ch eh = []) l'.
Proof.
  intros E Ht Hl. revert l' E. induction Hl as [| eh l Heh Hl IH]; intros l'; simpl; [by intros [= <-] |].
  destruct (String.eqb_spec (eh_t eh) t) as [Et |].
  - destruct (_ <? _)%nat; [| done]. intros [= <-]. constructor; [| done]. simpl. congruence.
  - destruct (send_to t e l) as [l1 |]; [| done]. intros [= <-]. constructor; [done | by apply IH].
Qed.
Lemma calm_istep s s' : istep s s' → calm s → calm s'.
Proof.
  intros Hst [Hr Hq Ht].
  destruct Hst as [g m l1 l2 log t e todo b ehs' Hs | g m l1 l2 log b | g m ts log h1 h2 t e ch hs Hr' He Hne
    | g m ts log h1 h2 e ch hs Hr' He | g m l1 l2 log h e | g m l1 l2 log c e ops p loop Hon
    | g l1 l2 log c e g' em Hlk]; simpl in *; rewrite ?Forall_app, ?Forall_cons in Ht.
  - destruct Ht as (H1 & H2 & H3). simpl in H2. apply Forall_cons in H2 as [H2 H4].
    split; simpl; [done | by eapply send_to_stop |]. rewrite Forall_app, Forall_cons. done.
  - split; simpl; [done | done |]. rewrite Forall_app. tauto.
  - rewrite He, Forall_app, Forall_cons in Hq. simpl in Hq. split; simpl; [done | |].
    + rewrite Forall_app, Forall_cons. simpl. tauto.
    + rewrite Forall_app. split; [done |]. apply Forall_forall. by intros x (y & -> & _)%list_elem_of_fmap.
  - rewrite He, Forall_app, Forall_cons in Hq. simpl in Hq. destruct Hq as (_ & Hq & _). by specialize (Hq eq_refl).
  - split; simpl; [done | done |]. rewrite !Forall_app. split_and!; try tauto.
    apply Forall_forall. by intros x (y & -> & _)%list_elem_of_fmap.
  - split; simpl; [done | done |]. rewrite !Forall_app. split_and!; try tauto.
    destruct loop as [[? ?] |]; by repeat constructor.
  - destruct (OnEvent_locked _ _ _ _ _ Hlk) as [[-> ->] | (id & op & -> & Hf)].
    + split; simpl; [done | done |]. rewrite !Forall_app. split_and!; try tauto. constructor.
    + split; simpl; [by rewrite (cf_running _ _ _ Hf) | by rewrite (cf_ehs _ _ _ Hf) |].
      rewrite !Forall_app. split_and!; try tauto. by repeat constructor.
Qed.

(** Nothing is queued and only the loops of monitors are left. *)
Definition is_loop (t : task) : bool := match t with Monitoring _ _ => true | _ => false end.
Definition settled (s : system) : Prop :=
  Forall (λ eh, eh_ch eh = []) (ehs (sys_eng s)) ∧ Forall (λ t, is_loop t = true) (tasks s).

(** Nothing moves in a settled state. *)
Lemma settled_stuck s s' : settled s → ¬ istep s s'.
Proof.
  intros [He Ht] Hs. destruct Hs; simpl in *; rewrite ?Forall_app, ?Forall_cons in Ht; try naive_solver.
  - rewrite H0, Forall_app, Forall_cons in He. naive_solver.
  - rewrite H0, Forall_app, Forall_cons in He. naive_solver.
Qed.
Lemma first_queued l : Forall (λ eh, eh_ch eh = []) l ∨ ∃ h1 eh h2 e ch, l = h1 ++ eh :: h2 ∧ eh_ch eh = e :: ch.
Proof.
  induction l as [| eh l [IH | (h1 & eh' & h2 & e & ch & -> & E)]]; [by left | |].
  - destruct (eh_ch eh) as [| e ch] eqn:E; [left; by constructor |]. right. by exists [], eh, l, e, ch.
  - right. by exists (eh :: h1), eh', h2, e, ch.
Qed.
(** A task that holds the mutex can go on when the channels are empty. *)
Lemma task_progress g m ts log t :
  Forall (λ eh, eh_ch eh = []) (ehs g) → Forall calm_task ts → t ∈ ts →
  is_loop t = true ∨ (∃ s', istep (mkSys g m ts log) s') ∨
  (holder t = false ∧ m = true).
Proof.
  intros He Hc Hin. apply list_elem_of_split in Hin as (l1 & l2 & ->).
  rewrite Forall_app, Forall_cons in Hc. destruct Hc as (_ & Hc & _).
  destruct t as [[| [t e] todo] b | h e | c e | ty id |]; [| | | | by left | done].
  - right. left. eexists. apply step_sent.
  - right. left. destruct (send_to_room t e _ He) as [l' E]. eexists. by eapply step_send.
  - right. left. eexists. apply step_handle.
  - destruct (OnEvent c e g) as [ops p loop | g' em] eqn:E.
    + right. left. eexists. by eapply step_quiet.
    + destruct m; [by right; right |]. right. left. eexists. by eapply step_locked.
Qed.
Lemma progress s : sys_ok s → calm s → settled s ∨ ∃ s', istep s s'.
Proof.
  intros Hok [Hr Hq Ht]. destruct s as [g m ts log]. simpl in *.
  destruct (first_queued (ehs g)) as [He | (h1 & [t ch hs] & h2 & e & ch' & E & Ec)].
  - destruct (decide (Forall (λ t, is_loop t = true) ts)) as [Hm | Hm]; [by left |].
    right. apply not_Forall_Exists in Hm; [| apply _]. apply Exists_exists in Hm as (t & Hin & Hnm).
    destruct (task_progress g m ts log t He Ht Hin) as [? | [? | [_ ->]]]; [done | done |].
    pose proof (ok_mutex _ Hok) as Hmx. simpl in Hmx. unfold holders in Hmx.
    destruct (filter (λ t, holder t = true) ts) as [| t' [| ? ?]] eqn:Ef; try done.
    assert (Hin' : t' ∈ filter (λ t, holder t = true) ts) by (rewrite Ef; set_solver).
    apply list_elem_of_filter in Hin' as [Hh Hin'].
    destruct (task_progress g true ts log t' He Ht Hin') as [? | [? | [? _]]]; [by destruct t' | done | congruence].
  - right. simpl in Ec. subst ch. destruct (decide (t = EventTargetStop)) as [-> | Hne].
    + rewrite E, Forall_app, Forall_cons in Hq. destruct Hq as (_ & Hq & _). by specialize (Hq eq_refl).
    + eexists. by eapply step_select.
Qed.
Lemma run_bound n s s' : sys_ok s → nsteps istep n s s' → (n + work s' ≤ work s)%nat.
Proof.
  intros Hok Hn. induction Hn as [s | n s1 s2 s3 Hs Hn IH]; [lia |].
  specialize (IH (sys_ok_istep _ _ Hs Hok)). pose proof (istep_work _ _ Hok Hs). lia.
Qed.
Lemma istep_rtc_inv s s' : rtc istep s s' → sys_ok s → calm s → sys_ok s' ∧ calm s'.
Proof. induction 1 as [| s1 s2 s3 Hs Hr IH]; intros; [done |]. eauto using sys_ok_istep, calm_istep. Qed.
Lemma istep_pure s s' :
  istep s s' → is_pure (eng_policy (sys_eng s)) = true → is_pure (eng_policy (sys_eng s')) = true.
Proof.
  intros Hst. destruct Hst; simpl; try done.
  - by rewrite (OnEvent_quiet _ _ _ _ _ _ H).
  - destruct (OnEvent_locked _ _ _ _ _ H) as [[_ ->] | (? & ? & _ & Hf)]; [done |]. by rewrite (cf_policy _ _ _ Hf).
Qed.
Lemma reachable_pure mons wats exes s :
  reachable PureMonitor mons wats exes s → is_pure (eng_policy (sys_eng s)) = true.
Proof.
  revert s. apply rtc_ind_r; [done |]. intros s1 s2 _ [Hs | Hs]; [by apply istep_pure |].
  destruct Hs; simpl; try done. by rewrite (cf_policy _ _ _ (run_call_frame _ _ _ _ H)).
Qed.
Lemma settled_covered name s : settled s → covered name s → is_Some (mgs (sys_eng s) !! name).
Proof.
  intros [He Ht] [? | [(t & Hin & Hc) | (eh & Hin & _ & Hee)]]; [done | |].
  - rewrite Forall_forall in Ht. specialize (Ht t Hin). by destruct t.
  - rewrite Forall_forall in He. rewrite (He eh Hin) in Hee. by apply elem_of_nil in Hee.
Qed.

(** C20: The engine comes to rest.  Take a state that can be reached under the
    monitor policy, in which the loop of Start runs, no event for the stop
    target is on its way and no GetAppControlSchema hangs.  Without further calls
    from outside, the engine's goroutines, the endless loops of the monitors not
    counted, can take at most [work] steps in whatever order they run; and where
    they can take no more, nothing is queued, only the loops of monitors are
    left, and every application that is registered has its monitor group. *)
Theorem engine_settles mons wats exes s n s' :
  reachable PureMonitor mons wats exes s → calm s → nsteps istep n s s' →
  (n ≤ work s)%nat ∧
  ((∀ s2, ¬ istep s' s2) → settled s' ∧
     ∀ name, is_Some (apps (sys_eng s') !! name) → is_Some (mgs (sys_eng s') !! name)).
Proof.
  intros Hr Hc Hn. apply reachable_ok in Hr as Hok. apply reachable_pure in Hr as Hp. split.
  { pose proof (run_bound _ _ _ Hok Hn). lia. }
  intros Hstuck. apply rtc_nsteps_2 in Hn. destruct (istep_rtc_inv _ _ Hn Hok Hc) as [Hok' Hc'].
  destruct (progress _ Hok' Hc') as [Hs | [s2 Hs2]]; [| by destruct (Hstuck s2)].
  split; [done |]. intros name Ha. apply settled_covered; [done |].
  apply (ok_covered _ Hok'); [| done]. clear -Hn Hp.
  induction Hn as [| s1 s2 s3 Hs _ IH]; [done |]. by apply IH, (istep_pure s1).
Qed.

(** In every state that can be reached no channel holds more than its
    capacity of events, and the engine's mutex has exactly one holder when it
    is locked and none otherwise. *)
Theorem channels_and_mutex p mons wats exes s :
  reachable p mons wats exes s →
  bounded (ehs (sys_eng s)) ∧ holders (tasks s) = (if mutex s then 1 else 0)%nat.
Proof. intros Hr. apply reachable_ok in Hr as []. done. Qed.

(** Removing a group does not mark it.  RemoveMonitorGroup and
    RemoveControlGroup set the state of a copy: in every state that can be
    reached all groups are pending, and SetControlGroupSchema, which means to
    refuse a removed group, takes every group that was ever created. *)
Theorem removed_groups_stay_pending p mons wats exes s :
  reachable p mons wats exes s →
  map_Forall (λ _ g, mg_state g = 0) (mgs (sys_eng s)) ∧
  ∀ id schema, is_Some (cgs (sys_eng s) !! id) →
    SetControlGroupSchema id schema (sys_eng s)
      = inl (sys_eng s, ControlGroupEvent id OperationUpdate "" schema).
Proof.
  intros Hr. apply reachable_ok in Hr as []. split; [done |]. intros id schema [grp E].
  unfold SetControlGroupSchema. rewrite E. simpl. by rewrite (ok_cgs0 id grp E).
Qed.

(** ** A hanging query *)

Lemma Blocked_stays s s' : step s s' → Blocked ∈ tasks s → Blocked ∈ tasks s'.
Proof.
  intros [Hs | Hs] Hin.
  - destruct Hs; simpl in *; rewrite ?elem_of_app, ?elem_of_cons in *; naive_solver.
  - destruct Hs; simpl in *; rewrite ?elem_of_app in *; naive_solver.
Qed.
Lemma holders_Blocked ts : Blocked ∈ ts → (1 ≤ holders ts)%nat.
Proof. intros (l1 & l2 & ->)%list_elem_of_split. rewrite holders_split. simpl. lia. Qed.
Lemma blocked_frozen s s' :
  sys_ok s → Blocked ∈ tasks s → step s s' → apps (sys_eng s') = apps (sys_eng s) ∧
    mgs (sys_eng s') = mgs (sys_eng s).
Proof.
  intros Hok Hb [Hs | Hs]; pose proof (ok_mutex _ Hok) as Hm; pose proof (holders_Blocked _ Hb);
    destruct Hs; simpl in *; try done; lia.
Qed.

(** C27: A query of a control schema blocks the engine for good. In every state
    that can be reached and in which the mutex is free, GetAppControlSchema,
    which calls GetApp while it holds the engine's mutex, which GetApp locks
    as well, never returns; and from its call on, in every later state,
    whatever is called and however the goroutines run, the mutex is locked and
    no application or monitor group is added, changed or removed. *)
Theorem schema_query_blocks_engine p mons wats exes s name version :
  reachable p mons wats exes s → mutex s = false →
  GetAppControlSchema name version (sys_eng s) = Crash SelfDeadlock ∧
  ∃ s1, xstep s s1 ∧
    ∀ s', rtc step s1 s' → mutex s' = true ∧ apps (sys_eng s') = apps (sys_eng s) ∧
      mgs (sys_eng s') = mgs (sys_eng s).
Proof.
  intros Hr Hm. split; [done |]. destruct s as [g m ts log]. simpl in Hm. subst m.
  assert (Hx : xstep (mkSys g false ts log) (mkSys g true (ts ++ [Blocked]) log))
    by (by eapply (step_query _ _ _ name version)).
  exists (mkSys g true (ts ++ [Blocked]) log). split; [done |].
  apply reachable_ok, (sys_ok_xstep _ _ Hx) in Hr.
  assert (Hb : Blocked ∈ tasks (mkSys g true (ts ++ [Blocked]) log)) by (simpl; set_solver).
  change (apps (sys_eng (mkSys g false ts log))) with (apps (sys_eng (mkSys g true (ts ++ [Blocked]) log))).
  change (mgs (sys_eng (mkSys g false ts log))) with (mgs (sys_eng (mkSys g true (ts ++ [Blocked]) log))).
  revert Hr Hb. generalize (mkSys g true (ts ++ [Blocked]) log). intros s Hok Hb s' Hrtc.
  induction Hrtc as [s | s1 s2 s3 Hs _ IH].
  - split; [| done]. pose proof (ok_mutex _ Hok). pose proof (holders_Blocked _ Hb). destruct (mutex s); [done | lia].
  - assert (Hok2 : sys_ok s2) by (destruct Hs; eauto using sys_ok_istep, sys_ok_xstep).
    destruct (IH Hok2 (Blocked_stays _ _ Hs Hb)) as (? & Ea & Em).
    destruct (blocked_frozen _ _ Hok Hb Hs) as [Ea1 Em1]. split; [done | split; congruence].
Qed.

(** ** Applications stay *)

Lemma apps_grow s s' name : step s s' → is_Some (apps (sys_eng s) !! name) → is_Some (apps (sys_eng s') !! name).
Proof.
  intros [Hs | Hs] Hn.
  - destruct Hs; simpl in *; try done.
    destruct (OnEvent_locked _ _ _ _ _ H) as [[_ ->] | (? & ? & _ & Hf)]; [done | by apply Hf].
  - destruct Hs; simpl in *; try done. by eapply run_call_frame.
Qed.

(** An application that was unregistered can never be registered again:
    UnRegisterApp only marks it, and in every later state RegisterApp refuses
    its name as a duplicate. *)
Theorem unregistered_app_stays name spec s s' :
  is_Some (apps (sys_eng s) !! name) → rtc step s s' →
  RegisterApp name spec (sys_eng s') = inr ("Duplicate application: " +:+ name).
Proof.
  intros Hn Hr. assert (Hn' : is_Some (apps (sys_eng s') !! name))
    by (induction Hr; eauto using apps_grow).
  destruct Hn' as [a Ha]. unfold RegisterApp. by rewrite Ha.
Qed.

(** ** What the executor removes *)

Definition task_events (t : task) : list event :=
  match t with
  | Sending todo _ => todo.*2
  | Handling _ e | Reacting _ e => [e]
  | _ => []
  end.
Definition in_flight (s : system) (e : event) : Prop :=
  (∃ eh, eh ∈ ehs (sys_eng s) ∧ e ∈ eh_ch eh) ∨ (∃ t, t ∈ tasks s ∧ e ∈ task_events t).
(** The runs from [s0], with the calls that have been made in them. *)
Inductive runs_to (s0 : system) : list call → system → Prop :=
| runs_start : runs_to s0 [] s0
| runs_inner cs s s' : runs_to s0 cs s → istep s s' → runs_to s0 cs s'
| runs_call cs g ts log c g' e :
    runs_to s0 cs (mkSys g false ts log) → run_call c g = inl (g', e) →
    runs_to s0 (cs ++ [c]) (mkSys g' true (ts ++ [EmitEvent e true]) log)
| runs_emit cs g m ts log e :
    runs_to s0 cs (mkSys g m ts log) → free_event e = true →
    runs_to s0 cs (mkSys g m (ts ++ [EmitEvent e false]) log)
| runs_loop cs g m ts log :
    runs_to s0 cs (mkSys g m ts log) → runs_to s0 cs (mkSys (set_running true g) m ts log)
| runs_query cs g ts log name version c :
    runs_to s0 cs (mkSys g false ts log) → GetAppControlSchema name version g = Crash c →
    runs_to s0 cs (mkSys g true (ts ++ [Blocked]) log).
(** These are all the states that can be reached. *)
Lemma runs_to_steps s0 s : rtc step s0 s ↔ ∃ cs, runs_to s0 cs s.
Proof.
  split.
  - revert s. apply rtc_ind_r; [by exists []; constructor |].
    intros s1 s2 _ [Hs | Hs] [cs Hr]; [by exists cs; eapply runs_inner |].
    destruct Hs; eauto using runs_to.
  - intros [cs Hr]. induction Hr; [done | eapply rtc_r; [done |] ..]; unfold step; eauto using xstep.
Qed.

(** Someone has asked for the removal of the group. *)
Definition asked (cs : list call) (id : string) : Prop :=
  CallRemoveMonitorGroup id ∈ cs ∨ CallUnRegisterApp id ∈ cs.
Definition known (cs : list call) (g : engine) (e : event) : Prop :=
  match e with
  | MonitorGroupEvent id op _ => is_Some (mgs g !! id) ∧ (op = OperationRemove → asked cs id)
  | AppEvent name op _ => op = OperationRemove → CallUnRegisterApp name ∈ cs
  | _ => True
  end.
(** The directory of a group [id] below the control group [ctl]. *)
Definition group_dir (ctl id : string) : string :=
  match String.eqb ctl "", String.eqb id "" with
  | true, true => "/sys/fs/resctrl"
  | true, false => "/sys/fs/resctrl/mon_groups/" +:+ id
  | false, true => "/sys/fs/resctrl/" +:+ ctl +:+ "/mon_groups"
  | false, false =>
      if String.eqb ctl id then "/sys/fs/resctrl/" +:+ ctl
      else "/sys/fs/resctrl/" +:+ ctl +:+ "/mon_groups/" +:+ id
  end.
Lemma GetMonitorGroupPath_dir grp : GetMonitorGroupPath grp = group_dir (mg_ControlGroupId grp) (mg_Id grp).
Proof.
  unfold GetMonitorGroupPath, group_dir. destruct (String.eqb_spec (mg_ControlGroupId grp) "") as [-> | Hc].
  - destruct (String.eqb_spec (mg_Id grp) "") as [-> | Hi]; [done |].
    destruct (String.eqb_spec "" (mg_Id grp)) as [E | _]; [by rewrite <- E in Hi | done].
  - destruct (String.eqb_spec (mg_Id grp) "") as [-> | Hi].
    + destruct (String.eqb_spec (mg_ControlGroupId grp) ""); [done |]. unfold ResctrlRoot, MonitorGroups. simpl.
      by rewrite ?str_app_assoc.
    + destruct (String.eqb (mg_ControlGroupId grp) (mg_Id grp)); [done |]. unfold ResctrlRoot, MonitorGroups. simpl.
      by rewrite ?str_app_assoc.
Qed.
(** What is made or removed is the directory of a group; if it is removed,
    someone has asked for it. *)
Definition dir_of (g : engine) (id path : string) : Prop :=
  ∃ grp, mgs g !! id = Some grp ∧ path = group_dir (mg_ControlGroupId grp) (mg_Id grp).
Definition of_group (cs : list call) (g : engine) (op : fs_op) : Prop :=
  match op with
  | Mkdir path => ∃ id, dir_of g id path
  | RemoveAll path => ∃ id, dir_of g id path ∧ asked cs id
  | _ => True
  end.
Definition removal_ok (cs : list call) (s : system) : Prop :=
  (∀ e, in_flight s e → known cs (sys_eng s) e) ∧ Forall (of_group cs (sys_eng s)) (fs_log s).

Lemma asked_mono cs cs' id : cs ⊆ cs' → asked cs id → asked cs' id.
Proof. unfold asked. set_solver. Qed.
Lemma known_mono cs cs' g g' e : cs ⊆ cs' → mgs g ⊆ mgs g' → known cs g e → known cs' g' e.
Proof.
  intros Hc Hs. destruct e; simpl; try done; [naive_solver |]. intros [Hk Ha].
  split; [by eapply lookup_weaken_is_Some |]. eauto using asked_mono.
Qed.
Lemma dir_of_mono g g' id path : mgs g ⊆ mgs g' → dir_of g id path → dir_of g' id path.
Proof. intros Hs (grp & E & ->). exists grp. split; [by eapply lookup_weaken | done]. Qed.
Lemma of_group_mono cs cs' g g' op : cs ⊆ cs' → mgs g ⊆ mgs g' → of_group cs g op → of_group cs' g' op.
Proof. intros Hc Hs. destruct op; simpl; try done; naive_solver eauto using dir_of_mono, asked_mono. Qed.
Lemma send_to_events t e l l' e' :
  send_to t e l = Some l' → (∃ eh, eh ∈ l' ∧ e' ∈ eh_ch eh) → e' = e ∨ ∃ eh, eh ∈ l ∧ e' ∈ eh_ch eh.
Proof.
  revert l'. induction l as [| h l IH]; intros l'; simpl; [intros [= <-] (eh & ?%elem_of_nil & _); done |].
  destruct (String.eqb (eh_t h) t).
  - destruct (_ <? _)%nat; [| done]. intros [= <-] (eh & [-> | Hin]%elem_of_cons & He).
    + simpl in He. apply elem_of_app in He as [He | ->%list_elem_of_singleton]; [| by left].
      right. exists h. set_solver.
    + right. exists eh. set_solver.
  - destruct (send_to t e l) as [l1 |]; [| done]. intros [= <-] (eh & [-> | Hin]%elem_of_cons & He).
    + right. exists h. set_solver.
    + destruct (IH l1 eq_refl) as [? | (eh' & ? & ?)]; [by exists eh | by left |]. right. exists eh'. set_solver.
Qed.
Lemma locked_known cs c e g g' em : OnEvent c e g = Locked g' (Some em) → known cs g e → known cs g' em.
Proof.
  destruct c; simpl; try done. unfold policy_OnEvent.
  destruct (eng_policy g), e as [| n op k | | | | | ? []]; try done.
  - destruct (String.eqb op OperationAdd).
    + unfold CreateMonitorGroup. destruct (mgs g !! n); simpl; [done |]. intros [= <- <-] _. simpl.
      rewrite lookup_insert_eq. by split; [eauto |].
    + destruct (String.eqb_spec op OperationRemove) as [-> |]; [| done]. unfold RemoveMonitorGroup.
      destruct (mgs g !! n) eqn:E; simpl; [| done]. intros [= <- <-] Hk. simpl. rewrite E.
      split; [eauto |]. right. auto.
  - by destruct (String.eqb op OperationAdd).
Qed.
Lemma run_call_known cs c g g' e : run_call c g = inl (g', e) → known (cs ++ [c]) g' e.
Proof.
  destruct c; simpl; unfold RegisterApp, UnRegisterApp, CreateMonitorGroup, RemoveMonitorGroup,
    CreateControlGroup, RemoveControlGroup, SetControlGroupSchema;
    repeat case_match; simplify_eq/=; intros; simplify_eq/=; try done.
  - set_solver.
  - rewrite lookup_insert_eq. by split; [eauto |].
  - split; [by eexists |]. intros _. left. set_solver.
Qed.

Lemma removal_ops cs c e g ops p loop :
  OnEvent c e g = Quiet ops p loop → known cs g e → Forall (of_group cs (set_policy p g)) ops.
Proof.
  destruct c; simpl; try (by intros [= <- _ _]); unfold policy_OnEvent, executor_OnEvent.
  - intros E _. destruct (eng_policy g), e as [| n op k | | | | | ? []]; try (by injection E as <- _ _);
      unfold locked, CreateMonitorGroup, RemoveMonitorGroup in E; repeat case_match; simplify_eq; done.
  - intros [= <- <- _] Hk. destruct e as [| | id op k | | | |]; try constructor; [| constructor | constructor].
    simpl in Hk. destruct Hk as [[grp E] Ha]. rewrite GetMonitorGroupPath_dir. unfold group_of, GetMonitorGroup.
    assert (Hd : ∀ p, dir_of (set_policy p g) id (group_dir (mg_ControlGroupId grp) (mg_Id grp)))
      by (intros p; by exists grp).
    rewrite E. destruct (String.eqb op OperationAdd); [constructor; simpl; eauto |].
    destruct (String.eqb_spec op OperationRemove); constructor; simpl; eauto.
Qed.
Lemma removal_ok_istep cs s s' : istep s s' → removal_ok cs s → removal_ok cs s'.
Proof.
  intros Hst [Hk Hl].
  destruct Hst as [g m l1 l2 log t e todo b ehs' Hs | g m l1 l2 log b | g m ts log h1 h2 t e ch hs Hr He Hne
    | g m ts log h1 h2 e ch hs Hr He | g m l1 l2 log h e | g m l1 l2 log c e ops p loop Hon
    | g l1 l2 log c e g' em Hlk]; unfold removal_ok, in_flight in *; simpl in *.
  - split; [| done]. intros e' [Hq | (tk & Hin & He')]; apply Hk; simpl.
    + destruct (send_to_events _ _ _ _ _ Hs Hq) as [-> | ?]; [| by left].
      right. exists (Sending ((t, e) :: todo) b). simpl. set_solver.
    + right. apply elem_of_app in Hin as [Hin | [-> | Hin]%elem_of_cons]; [set_solver | | set_solver].
      exists (Sending ((t, e) :: todo) b). simpl in *. set_solver.
  - split; [| done]. intros e' [Hq | (tk & Hin & He')]; apply Hk; [by left | right; set_solver].
  - split; [| done]. intros e' [(eh & Hin & He') | (tk & Hin & He')]; apply Hk; simpl.
    + left. rewrite He. apply elem_of_app in Hin as [Hin | [-> | Hin]%elem_of_cons]; [set_solver | | set_solver].
      exists (mkHandler t (e :: ch) hs). simpl in *. set_solver.
    + apply elem_of_app in Hin as [Hin | (h & -> & _)%list_elem_of_fmap]; [right; set_solver |].
      left. rewrite He. exists (mkHandler t (e :: ch) hs). simpl in *. set_solver.
  - split; [| done]. intros e' [(eh & Hin & He') | ?]; apply Hk; simpl; [| by right].
    left. rewrite He. apply elem_of_app in Hin as [Hin | [-> | Hin]%elem_of_cons]; [set_solver | | set_solver].
    exists (mkHandler EventTargetStop (e :: ch) hs). simpl in *. set_solver.
  - split; [| done]. intros e' [? | (tk & Hin & He')]; apply Hk; simpl; [by left | right].
    rewrite !elem_of_app in Hin. destruct Hin as [Hin | [Hin | (c & -> & _)%list_elem_of_fmap]];
      [set_solver | set_solver |]. exists (Handling h e). simpl in *. set_solver.
  - split.
    + intros e' [? | (tk & Hin & He')]; apply Hk; simpl; [by left | right].
      rewrite !elem_of_app in Hin. destruct Hin as [Hin | [Hin | Hin]]; [set_solver | set_solver |].
      exfalso. destruct loop as [[? ?] |]; [| by apply elem_of_nil in Hin].
      apply list_elem_of_singleton in Hin as ->. by apply elem_of_nil in He'.
    + apply Forall_app. split; [done |]. assert (Hke : known cs g e) by (apply Hk; right; exists (Reacting c e); simpl; set_solver).
      apply (removal_ops _ _ _ _ _ _ _ Hon Hke).
  - assert (Hsub : mgs g ⊆ mgs g')
      by (destruct (OnEvent_locked _ _ _ _ _ Hlk) as [[_ ->] | (? & ? & _ & Hf)]; [done | apply Hf]).
    assert (Hehs : ehs g' = ehs g)
      by (destruct (OnEvent_locked _ _ _ _ _ Hlk) as [[_ ->] | (? & ? & _ & Hf)]; [done | apply Hf]).
    split; [| by eapply Forall_impl; [| intros op; by apply of_group_mono]].
    intros e' [Hq | (tk & Hin & He')].
    + rewrite Hehs in Hq. eapply known_mono; [done | done |]. apply Hk. by left.
    + rewrite !elem_of_app in Hin. destruct Hin as [Hin | [Hin | Hin]].
      * eapply known_mono; [done | done |]. apply Hk. right. set_solver.
      * eapply known_mono; [done | done |]. apply Hk. right. set_solver.
      * destruct em as [em |]; [| by apply elem_of_nil in Hin]. apply list_elem_of_singleton in Hin as ->.
        assert (e' = em) as ->; [| eapply locked_known; [done |]; apply Hk; right; exists (Reacting c e); simpl; set_solver].
        simpl in He'. rewrite map_map in He'. simpl in He'. by apply list_elem_of_fmap in He' as (? & -> & _).
Qed.
Lemma removal_ok_call cs c g g' e ts log :
  run_call c g = inl (g', e) → removal_ok cs (mkSys g false ts log) →
  removal_ok (cs ++ [c]) (mkSys g' true (ts ++ [EmitEvent e true]) log).
Proof.
  intros Hcall [Hk Hl]. apply run_call_frame in Hcall as Hf. assert (Hcs : cs ⊆ cs ++ [c]) by set_solver.
  split; simpl in *.
  - intros e' [Hq | (tk & [Hin | ->%list_elem_of_singleton]%elem_of_app & He')]; simpl in *.
    + eapply known_mono; [done | apply Hf |]. apply Hk. left. simpl. by rewrite <- (cf_ehs _ _ _ Hf).
    + eapply known_mono; [done | apply Hf |]. apply Hk. right. by exists tk.
    + rewrite map_map in He'. simpl in He'. apply list_elem_of_fmap in He' as (? & -> & _).
      by eapply run_call_known.
  - eapply Forall_impl; [done |]. intros op. by apply of_group_mono; [| apply Hf].
Qed.
(** A new goroutine that brings no event on groups or applications. *)
Lemma removal_ok_task cs g m m' ts log t :
  (∀ e, e ∈ task_events t → known cs g e) → removal_ok cs (mkSys g m ts log) → removal_ok cs (mkSys g m' (ts ++ [t]) log).
Proof.
  intros Ht [Hk Hl]. split; [| done]. intros e' [? | (tk & [Hin | ->%list_elem_of_singleton]%elem_of_app & He')].
  - apply Hk. by left.
  - apply Hk. right. by exists tk.
  - by apply Ht.
Qed.
Lemma runs_removal_ok p mons wats exes cs s :
  runs_to (start_system (DefaultEngineNewer p mons wats exes)) cs s → removal_ok cs s.
Proof.
  induction 1 as [| cs s s' _ IH Hs | cs g ts log c g' e _ IH Hc | cs g m ts log e _ IH He | cs g m ts log _ IH
                  | cs g ts log name v c _ IH Hc].
  - split; [| constructor]. intros e [(eh & Hin & He) | (t & Hin & _)]; simpl in *; [| by apply elem_of_nil in Hin].
    repeat (apply elem_of_cons in Hin as [-> | Hin]; [by apply elem_of_nil in He |]).
    by apply elem_of_nil in Hin.
  - by eapply removal_ok_istep.
  - by eapply removal_ok_call.
  - eapply removal_ok_task, IH. intros e' He'. simpl in He'. rewrite map_map in He'.
    apply list_elem_of_fmap in He' as (? & -> & _). by destruct e.
  - done.
  - eapply removal_ok_task, IH. intros e' He'. by apply elem_of_nil in He'.
Qed.

(** C26: The executor touches directories of groups only, and removes one only
    when it was asked to.  In any run of the engine from its start, whatever the
    policy, the calls and the order of the goroutines: a directory that the
    executor has made or removed is the one written out in [group_dir] for the
    names of a monitor group that the engine has, which is
    /sys/fs/resctrl/mon_groups/<id> for the group of an application; and when
    it was removed, RemoveMonitorGroup or UnRegisterApp had been called, with
    success, with the name under which the engine has the group.  For a group
    with empty names, as an application with an empty name gets, that directory
    is the root of resctrl itself. *)
Theorem only_group_directories_removed p mons wats exes cs s :
  runs_to (start_system (DefaultEngineNewer p mons wats exes)) cs s →
  (∀ path, Mkdir path ∈ fs_log s →
     ∃ id grp, mgs (sys_eng s) !! id = Some grp ∧ path = group_dir (mg_ControlGroupId grp) (mg_Id grp)) ∧
  (∀ path, RemoveAll path ∈ fs_log s →
     ∃ id grp, mgs (sys_eng s) !! id = Some grp ∧ path = group_dir (mg_ControlGroupId grp) (mg_Id grp) ∧
       (CallRemoveMonitorGroup id ∈ cs ∨ CallUnRegisterApp id ∈ cs)).
Proof.
  intros Hr. destruct (runs_removal_ok _ _ _ _ _ _ Hr) as [_ Hl]. rewrite Forall_forall in Hl.
  split; intros path Hin; [exact (Hl _ Hin) |]. destruct (Hl _ Hin) as (id & (grp & ? & ?) & ?). eauto.
Qed.

(** ** Running the steps *)

(** A choice of the scheduler, or of the outside. *)
Inductive choice :=
| RunTask (i : nat)
| Select (j : nat)
| CallOp (c : call)
| Emit (e : event)
| StartLoop.
Definition run_task (i : nat) (s : system) : option system :=
  let '(mkSys g m ts log) := s in
  let l1 := take i ts in
  let l2 := drop (S i) ts in
  match ts !! i with
  | Some (Sending ((t, e) :: todo) b) =>
      match send_to t e (ehs g) with
      | Some ehs' => Some (mkSys (set_ehs ehs' g) m (l1 ++ Sending todo b :: l2) log)
      | None => None
      end
  | Some (Sending [] b) => Some (mkSys g (if b then false else m) (l1 ++ l2) log)
  | Some (Handling h e) =>
      Some (mkSys g m (l1 ++ l2 ++ map (λ c, Reacting c e)
                                     (filter (λ c, match_ (EventFilter c) (Key e) = true) (parts g h))) log)
  | Some (Reacting c e) =>
      match OnEvent c e g with
      | Quiet ops p loop =>
          Some (mkSys (set_policy p g) m
                  (l1 ++ l2 ++ match loop with Some (t, id) => [Monitoring t id] | None => [] end) (log ++ ops))
      | Locked g' emits =>
          if m then None
          else Some (mkSys g' (if emits then true else false)
                       (l1 ++ l2 ++ match emits with Some e => [EmitEvent e true] | None => [] end) log)
      end
  | _ => None
  end.
Definition select (j : nat) (s : system) : option system :=
  let '(mkSys g m ts log) := s in
  match ehs g !! j with
  | Some (mkHandler t (e :: ch) hs) =>
      if negb (isRunning g) || String.eqb t EventTargetStop then None
      else Some (mkSys (set_ehs (take j (ehs g) ++ mkHandler t ch hs :: drop (S j) (ehs g)) g) m
                   (ts ++ map (λ h, Handling h e) (omap id hs)) log)
  | _ => None
  end.
Definition choose (s : system) (c : choice) : option system :=
  match c with
  | RunTask i => run_task i s
  | Select j => select j s
  | CallOp c =>
      if mutex s then None
      else match run_call c (sys_eng s) with
           | inl (g', e) => Some (mkSys g' true (tasks s ++ [EmitEvent e true]) (fs_log s))
           | inr _ => None
           end
  | Emit e => if free_event e then Some (mkSys (sys_eng s) (mutex s) (tasks s ++ [EmitEvent e false]) (fs_log s))
              else None
  | StartLoop => Some (mkSys (set_running true (sys_eng s)) (mutex s) (tasks s) (fs_log s))
  end.
Fixpoint schedule (s : system) (l : list choice) : option system :=
  match l with
  | [] => Some s
  | c :: l => match choose s c with Some s' => schedule s' l | None => None end
  end.

Lemma run_task_step i s s' : run_task i s = Some s' → istep s s'.
Proof.
  destruct s as [g m ts log]. unfold run_task. destruct (ts !! i) as [t |] eqn:E; [| done].
  intros Hs. replace (mkSys g m ts log) with (mkSys g m (take i ts ++ t :: drop (S i) ts) log)
    by (by rewrite take_drop_middle).
  revert Hs. destruct t as [[| [t e] todo] b | h e | c e | |]; try done.
  - intros [= <-]. apply step_sent.
  - destruct (send_to t e (ehs g)) as [l' |] eqn:Es; [| done]. intros [= <-]. by apply step_send.
  - intros [= <-]. apply step_handle.
  - destruct (OnEvent c e g) as [ops p loop | g' em] eqn:Eo.
    + intros [= <-]. by apply step_quiet.
    + destruct m; [done |]. intros [= <-]. by eapply step_locked.
Qed.
Lemma select_step j s s' : select j s = Some s' → istep s s'.
Proof.
  destruct s as [g m ts log]. unfold select.
  destruct (ehs g !! j) as [[t [| e ch] hs] |] eqn:E; try done.
  destruct (isRunning g) eqn:Er; [| done]. destruct (String.eqb_spec t EventTargetStop); [done |].
  intros [= <-]. eapply step_select; [done | | done]. by rewrite take_drop_middle.
Qed.
Lemma choose_step c s s' : choose s c = Some s' → step s s'.
Proof.
  destruct c as [i | j | cl | e |]; simpl.
  - intros E. left. by eapply run_task_step.
  - intros E. left. by eapply select_step.
  - destruct s as [g [] ts log]; [done |]. simpl. destruct (run_call cl g) as [[g' e] |] eqn:E; [| done].
    intros [= <-]. right. by eapply step_call.
  - destruct s as [g m ts log]. destruct (free_event e) eqn:E; [| done]. intros [= <-]. right. by apply step_emit.
  - destruct s as [g m ts log]. intros [= <-]. right. apply step_start.
Qed.
Lemma schedule_steps l s s' : schedule s l = Some s' → rtc step s s'.
Proof.
  revert s. induction l as [| c l IH]; intros s; simpl; [by intros [= <-] |].
  destruct (choose s c) as [s1 |] eqn:E; [| done]. intros Hs. eapply rtc_l; [by eapply choose_step | by apply IH].
Qed.
Definition calls_of (l : list choice) : list call :=
  omap (λ c, match c with CallOp c => Some c | _ => None end) l.
Lemma schedule_runs s0 cs s l s' : runs_to s0 cs s → schedule s l = Some s' → runs_to s0 (cs ++ calls_of l) s'.
Proof.
  revert cs s. induction l as [| c l IH]; intros cs s Hr; simpl; [intros [= <-]; by rewrite app_nil_r |].
  destruct (choose s c) as [s1 |] eqn:E; [| done]. intros Hs.
  destruct c as [i | j | cl | e |]; simpl in E |- *.
  - apply (IH _ s1); [| done]. eapply runs_inner; [done | by eapply run_task_step].
  - apply (IH _ s1); [| done]. eapply runs_inner; [done | by eapply select_step].
  - destruct s as [g [] ts log]; [done |]. simpl in E. destruct (run_call cl g) as [[g' e] |] eqn:Ec; [| done].
    injection E as <-. rewrite cons_middle, app_assoc. refine (IH _ _ _ Hs). by eapply runs_call.
  - destruct s as [g m ts log]. destruct (free_event e) eqn:Ef; [| done]. injection E as <-.
    refine (IH _ _ _ Hs). by apply runs_emit.
  - destruct s as [g m ts log]. injection E as <-. refine (IH _ _ _ Hs). by apply runs_loop.
Qed.
Definition internal (c : choice) : bool := match c with RunTask _ | Select _ => true | _ => false end.
Lemma schedule_isteps l s s' :
  forallb internal l = true → schedule s l = Some s' → nsteps istep (length l) s s'.
Proof.
  revert s. induction l as [| c l IH]; intros s; simpl; [intros _ [= <-]; constructor |].
  intros [Hc Hl]%andb_prop. destruct (choose s c) as [s1 |] eqn:E; [| done]. intros Hs.
  econstructor; [| by apply IH].
  destruct c; try done; simpl in E; [by eapply run_task_step | by eapply select_step].
Qed.
(** The state after a schedule from a start. *)
Definition after (g : engine) (l : list choice) : system := default (start_system g) (schedule (start_system g) l).
Lemma after_steps g l : rtc step (start_system g) (after g l).
Proof.
  unfold after. destruct (schedule (start_system g) l) as [s |] eqn:E; simpl; [| done].
  exact (schedule_steps l _ s E).
Qed.

(** ** Runs of the event engine *)

Module EngineExample.

(** The monitor policy with an L3 monitor, a watcher and the rdt executor. *)
Definition engine1 : engine := DefaultEngineNewer PureMonitor [L3_Monitor] 1 [CRdtExecutor].
Definition app1 : ApplicationSpec := mkAppSpec "pod1" "" "/kubepods/pod1" "".
(** An application is registered and brought to its group. *)
Definition to_group : list choice :=
  [StartLoop; CallOp (CallRegisterApp "pod1" app1);
   RunTask 0; RunTask 0; RunTask 0;             (* both targets, unlock *)
   Select 0; RunTask 0; RunTask 0;              (* the policy creates the group *)
   RunTask 0; RunTask 0; RunTask 0;             (* monitor and executor, unlock *)
   Select 3; RunTask 0; RunTask 0;              (* the watcher *)
   Select 2; RunTask 0; RunTask 0;              (* the monitor starts its loop *)
   Select 4; RunTask 1; RunTask 1; RunTask 1].  (* both executors *)
Definition state_after (l : list choice) : system := after engine1 l.
Lemma reach l : reachable PureMonitor [L3_Monitor] 1 [CRdtExecutor] (state_after l).
Proof. unfold reachable, state_after, engine1. apply after_steps. Qed.
Example to_group_runs :
  fs_log (state_after to_group) = [Mkdir "/sys/fs/resctrl/mon_groups/pod1"] ∧
  tasks (state_after to_group) = [Monitoring L3_Monitor "pod1"].
Proof. vm_compute. done. Qed.

Lemma engine_settles_witness :
  (19 ≤ work (state_after (take 2 to_group)))%nat ∧ settled (state_after to_group) ∧
  ∀ name, is_Some (apps (sys_eng (state_after to_group)) !! name) →
    is_Some (mgs (sys_eng (state_after to_group)) !! name).
Proof.
  destruct (engine_settles [L3_Monitor] 1 [CRdtExecutor] (state_after (take 2 to_group)) 19
              (state_after to_group)) as [Hn Hs].
  - apply reach.
  - split; vm_compute; repeat constructor; discriminate.
  - apply (schedule_isteps (drop 2 to_group)); vm_compute; reflexivity.
  - split; [exact Hn |]. apply Hs. intros s2. apply settled_stuck.
    split; vm_compute; repeat constructor.
Defined.

Lemma channels_and_mutex_witness :
  bounded (ehs (sys_eng (state_after to_group))) ∧ holders (tasks (state_after to_group)) = 0%nat.
Proof. apply (channels_and_mutex PureMonitor [L3_Monitor] 1 [CRdtExecutor] (state_after to_group)), reach. Defined.

(** The application is unregistered again: its group's directory is removed. *)
Definition removal : list choice :=
  to_group ++
  [CallOp (CallUnRegisterApp "pod1");
   RunTask 1; RunTask 1; RunTask 1;
   Select 0; RunTask 1; RunTask 1;
   RunTask 1; RunTask 1; RunTask 1;
   Select 3; RunTask 1; RunTask 1;
   Select 4; RunTask 1; RunTask 1; RunTask 1].
Lemma only_group_directories_removed_witness :
  RemoveAll "/sys/fs/resctrl/mon_groups/pod1" ∈ fs_log (state_after removal) ∧
  ∃ id grp, mgs (sys_eng (state_after removal)) !! id = Some grp ∧
    "/sys/fs/resctrl/mon_groups/pod1" = group_dir (mg_ControlGroupId grp) (mg_Id grp) ∧
    (CallRemoveMonitorGroup id ∈ [CallRegisterApp "pod1" app1; CallUnRegisterApp "pod1"] ∨
     CallUnRegisterApp id ∈ [CallRegisterApp "pod1" app1; CallUnRegisterApp "pod1"]).
Proof.
  destruct (only_group_directories_removed PureMonitor [L3_Monitor] 1 [CRdtExecutor]
              [CallRegisterApp "pod1" app1; CallUnRegisterApp "pod1"] (state_after removal)) as [_ Hrem].
  - apply (schedule_runs _ [] (start_system engine1) removal); [constructor | vm_compute; reflexivity].
  - assert (Hin : RemoveAll "/sys/fs/resctrl/mon_groups/pod1" ∈ fs_log (state_after removal)) by (vm_compute; right; left).
    split; [exact Hin | exact (Hrem _ Hin)].
Defined.
Lemma removed_groups_stay_pending_witness :
  map_Forall (λ _ g, mg_state g = 0) (mgs (sys_eng (state_after removal))).
Proof. apply (removed_groups_stay_pending PureMonitor [L3_Monitor] 1 [CRdtExecutor] (state_after removal)), reach. Defined.
Lemma unregistered_app_stays_witness :
  RegisterApp "pod1" app1 (sys_eng (state_after removal)) = inr ("Duplicate application: " +:+ "pod1").
Proof.
  apply (unregistered_app_stays "pod1" app1 (state_after removal) (state_after removal)).
  - vm_compute. eexists. reflexivity.
  - apply rtc_refl.
Defined.
Lemma schema_query_blocks_engine_witness :
  GetAppControlSchema "pod1" "v1" (sys_eng (state_after to_group)) = Crash SelfDeadlock.
Proof.
  apply (schema_query_blocks_engine PureMonitor [L3_Monitor] 1 [CRdtExecutor] (state_after to_group) "pod1" "v1").
  - apply reach.
  - vm_compute. reflexivity.
Defined.

(** Removing a group starts a second loop for it.  A monitor starts an
    endless loop on every event of a group, also on its removal: after an
    application was registered and unregistered, two loops go on for the group
    whose directory is gone. *)
Theorem removal_starts_second_loop :
  let s := state_after (removal ++ [Select 2; RunTask 1; RunTask 1]) in
  reachable PureMonitor [L3_Monitor] 1 [CRdtExecutor] s ∧
  tasks s = [Monitoring L3_Monitor "pod1"; Monitoring L3_Monitor "pod1"] ∧
  fs_log s = [Mkdir "/sys/fs/resctrl/mon_groups/pod1"; RemoveAll "/sys/fs/resctrl/mon_groups/pod1"].
Proof. split; [apply reach |]. vm_compute. done. Qed.

(** Tasks can be put into the root group.  The watcher's event names the
    application; when it is handled before the policy has created the
    application's group, the executor takes the group's zero value and writes
    the task ids to the tasks of the root. *)
Theorem early_tasks_go_to_root :
  let s := state_after [StartLoop; CallOp (CallRegisterApp "pod1" app1);
                        Emit (TaskIdsEvent "pod1" [42]); RunTask 1; RunTask 1; Select 4;
                        RunTask 1; RunTask 1; RunTask 1] in
  reachable PureMonitor [L3_Monitor] 1 [CRdtExecutor] s ∧
  fs_log s = [WriteTaskIDs [42] "/sys/fs/resctrl/tasks"].
Proof. split; [apply reach |]. vm_compute. done. Qed.

(** An application without a name makes the executor remove the root of
    the resctrl file system: the path of a group whose id and control group
    are both empty is the root. *)
Theorem empty_name_removes_root :
  let s := state_after
    [StartLoop; CallOp (CallRegisterApp "" (mkAppSpec "" "" "" "")); RunTask 0; RunTask 0; RunTask 0;
     Select 0; RunTask 0; RunTask 0; RunTask 0; RunTask 0; RunTask 0;
     CallOp (CallUnRegisterApp ""); RunTask 0; RunTask 0; RunTask 0;
     Select 0; RunTask 0; RunTask 0; RunTask 0; RunTask 0; RunTask 0;
     Select 4; Select 4; RunTask 1; RunTask 1; RunTask 1] in
  reachable PureMonitor [L3_Monitor] 1 [CRdtExecutor] s ∧ fs_log s = [RemoveAll ResctrlRoot].
Proof. split; [apply reach |]. vm_compute. done. Qed.
End EngineExample.
