(* ===== verification/DiskServiceFacts.v ===== *)
(** * The disk engine of the I/O service: theorems on DiskService.v

    The store always mirrors the registered apps, so that a restart restores
    them; no request but a limit message with an empty list, and no report
    round panics. *)

From S2P Require Export DiskService.

(** ** Assumptions on the libraries *)

(** JSON reads back what it wrote; an empty text is no value. *)
Class DiskJsonLaws `{!DiskJson} : Prop := {
  unmarshal_marshal_app : ∀ a, unmarshal_app (marshal_app a) = inl a;
  unmarshal_marshal_interval : ∀ v, unmarshal_interval (marshal_interval_info v) = inl v;
  marshal_interval_nonempty : ∀ v, marshal_interval_info v ≠ EmptyString;
  unmarshal_interval_empty : ∃ e, unmarshal_interval EmptyString = inr e
}.
(** A store whose updates succeed: bbolt documents errors of these calls for
    missing buckets and for empty and too large keys and values; a commit that
    fails, on a full disk, is excluded. *)
Class BoltReliable (D : Type) `{!BoltDB D} : Prop := {
  create_ok : ∀ d p, ∃ d', CreateBucketIfNotExists d p = inl d';
  put_ok : ∀ d p k v, has_bucket d p = true → k ≠ EmptyString → ∃ d', bucket_Put d p k v = inl d';
  delete_ok : ∀ d p k, has_bucket d p = true → ∃ d', bucket_Delete d p k = inl d'
}.

(** A line of io.stat as the kernel writes them: a device, then counters. *)
Definition counter_word (w : string) : Prop := ∃ k v l, str_split "="%char w = k :: v :: l.
Definition stat_line_ok (l : string) : Prop :=
  (length (str_split " "%char l) < 3)%nat ∨
  ∃ d r w ri wi rest, str_split " "%char l = d :: r :: w :: ri :: wi :: rest ∧
    counter_word r ∧ counter_word w ∧ counter_word ri ∧ counter_word wi.

Section Facts.
Context `{!GoRange} {F D : Type} `{!Files F} `{!BoltDB D} `{!DiskJson} `{!FloatText} `{!DiskLib F}.

Definition io_stat_ok (f : F) : Prop := ∀ path name txt,
  ReadFile f (path +:+ "/" +:+ name +:+ "/io.stat") = inl txt → Forall stat_line_ok (read_lines txt).

(** ** Rounds and requests *)

Inductive request :=
| ReqRegister (AppName info : string)
| ReqUnRegister (AppId : string)
| ReqConfigure (Type_ conf : string)
| ReqLimit (AppId : string) (limits : list BWLimit)
| CheckRound
| ReportRound (snd : AppsBandwidth → option error)
| Restart.
(** What a request does to the engine, with the files as they then are. *)
Definition serve (s : DiskSvc D) (fr : F * request) : outcome (DiskSvc D) :=
  let '(f, r) := fr in
  match r with
  | ReqRegister n i => let! '(_, _, s) := RegisterApp_svc f n i s in Ok s
  | ReqUnRegister id => let! '(_, _, s) := UnRegisterApp_svc id s in Ok s
  | ReqConfigure t c => let! '(_, _, s) := Configure_svc t c s in Ok s
  | ReqLimit id l => let! _ := SetAppLimit_svc id l s f in Ok s
  | CheckRound => check_pod_cgroup f s
  | ReportRound snd => let! '(_, _, s) := CgroupSyncAndSend f snd 1 s in Ok s
  | Restart => let! d := deref (ds_persist s) in Initialize_svc f false d
  end.
Definition request_ok (fr : F * request) : Prop :=
  io_stat_ok fr.1 ∧ match fr.2 with ReqLimit _ l => l ≠ [] | _ => True end.

(** ** The invariant *)

Definition apps_path : list string := ["DISK"; "APPS"].
(** The database holds the registered apps and the interval. *)
Record mirrors (d : D) (apps : gmap string AppInfo) (interval : Z) : Prop := {
  mi_apps_bucket : has_bucket d apps_path = true;
  mi_bucket : has_bucket d ["DISK"] = true;
  mi_apps : bucket_pairs d apps_path = marshal_app <$> apps;
  mi_names : ∀ k a, apps !! k = Some a → ai_AppName a = k;
  mi_interval : match bucket_pairs d ["DISK"] !! "INTERVAL" with
                | Some v => v = marshal_interval_info interval
                | None => interval = 2
                end
}.
Record svc_ok (s : DiskSvc D) : Prop := {
  so_db : ∃ d, ds_persist s = Some d ∧ mirrors d (Apps s) (ds_Interval s);
  so_cgroup : EbpfEnabled s = false;
  so_prev : is_Some (prevRawData s)
}.

Context `{!BoltLaws D} `{!BoltReliable D} `{!DiskJsonLaws}.

Lemma db_Save_ok table key value p d :
  table_path table = Some p → has_bucket d p = true → key ≠ EmptyString →
  ∃ d', db_Save table key value d = Ok (d', None).
Proof.
  intros Ht Hb Hk. unfold db_Save. rewrite Ht, Hb. destruct (String.eqb_spec key ""); [done |]. simpl.
  destruct (put_ok d p key value Hb Hk) as [d' ->]. eauto.
Qed.
Lemma db_Delete_ok table key p d :
  table_path table = Some p → has_bucket d p = true → ∃ d', db_Delete table key d = Ok (d', None).
Proof.
  intros Ht Hb. unfold db_Delete. rewrite Ht, Hb. simpl. destruct (delete_ok d p key Hb) as [d' ->]. eauto.
Qed.

Lemma mirrors_add d apps v a d' :
  mirrors d apps v → db_Save apps_table (ai_AppName a) (marshal_app a) d = Ok (d', None) →
  mirrors d' (<[ai_AppName a := a]> apps) v.
Proof.
  intros [M1 M2 M3 M4 M5] E. eapply (db_Save_spec _ _ _ apps_path) in E as [Eh Ep]; [| done].
  split; rewrite ?Eh; try done.
  - rewrite Ep, decide_True by done. by rewrite M3, fmap_insert.
  - intros k b. destruct (decide (k = ai_AppName a)) as [-> |];
      [rewrite lookup_insert_eq; by intros [= <-] | rewrite lookup_insert_ne by done; apply M4].
  - by rewrite Ep, decide_False by done.
Qed.
Lemma mirrors_delete d apps v k d' :
  mirrors d apps v → db_Delete apps_table k d = Ok (d', None) → mirrors d' (delete k apps) v.
Proof.
  intros [M1 M2 M3 M4 M5] E. eapply (db_Delete_spec _ _ apps_path) in E as [Eh Ep]; [| done].
  split; rewrite ?Eh; try done.
  - rewrite Ep, decide_True by done. by rewrite M3, fmap_delete.
  - intros k' b [_ Hk]%lookup_delete_Some. by apply M4.
  - by rewrite Ep, decide_False by done.
Qed.
Lemma mirrors_interval d apps v v' d' :
  mirrors d apps v → db_Save "DISK" "INTERVAL" (marshal_interval_info v') d = Ok (d', None) →
  mirrors d' apps v'.
Proof.
  intros [M1 M2 M3 M4 M5] E. eapply (db_Save_spec _ _ _ ["DISK"]) in E as [Eh Ep]; [| done].
  split; rewrite ?Eh; try done.
  - by rewrite Ep, decide_False by done.
  - rewrite Ep, decide_True by done. by rewrite lookup_insert_eq.
Qed.

(** ** Store operations keep the invariant *)

Lemma AddAppInfo_ok a s :
  svc_ok s → ai_AppName a ≠ EmptyString →
  ∃ s', AddAppInfo a (set_Apps (<[ai_AppName a := a]> (Apps s)) s) = Ok (s', None) ∧ svc_ok s' ∧
    Apps s' = <[ai_AppName a := a]> (Apps s) ∧ ds_Interval s' = ds_Interval s.
Proof.
  intros [(d & Ed & Hm) He Hp] Hn. unfold AddAppInfo, with_db. simpl. rewrite Ed. simpl.
  destruct (db_Save_ok apps_table (ai_AppName a) (marshal_app a) apps_path d) as [d' E];
    [done | apply Hm | done |].
  rewrite E. simpl. eexists. split; [done |]. split; [| done]. split; simpl; [| done | done].
  exists d'. split; [done |]. by eapply mirrors_add.
Qed.
Lemma deleteAppInfo_ok k s :
  svc_ok s → is_Some (Apps s !! k) →
  ∃ s', deleteAppInfo k s = Ok (s', None) ∧ svc_ok s' ∧ Apps s' = delete k (Apps s) ∧
    ds_Interval s' = ds_Interval s.
Proof.
  intros [(d & Ed & Hm) He Hp] [a Ha]. unfold deleteAppInfo, DeleteAppInfo, with_db.
  rewrite Ha. simpl. rewrite Ed. simpl.
  destruct (db_Delete_ok apps_table (ai_AppName a) apps_path d) as [d' E]; [done | apply Hm |].
  rewrite E. simpl. rewrite He. eexists. split; [done |]. split; [| done].
  split; simpl; [| done | done]. exists d'. split; [done |].
  rewrite (mi_names _ _ _ Hm _ _ Ha) in E. by eapply mirrors_delete.
Qed.
Definition absent_app (f : F) (kv : string * AppInfo) : bool :=
  match Stat f (ai_CgroupPath kv.2) with Absent => true | _ => false end.
Lemma check_apps_ok f l s :
  svc_ok s → NoDup l.*1 → (∀ kv, kv ∈ l → Apps s !! kv.1 = Some kv.2) →
  ∃ s', foldM (λ s kv, match Stat f (ai_CgroupPath kv.2) with
                       | Absent => let! '(s, _) := deleteAppInfo kv.1 s in Ok s
                       | _ => Ok s
                       end) s l = Ok s' ∧ svc_ok s' ∧ ds_Interval s' = ds_Interval s ∧
    Apps s' = foldl (λ m kv, if absent_app f kv then delete kv.1 m else m) (Apps s) l.
Proof.
  revert s. induction l as [| [k a] l IH]; intros s Hs Hnd Hl; simpl; [eauto |].
  apply NoDup_cons in Hnd as [Hk Hnd]. unfold absent_app at 2. simpl.
  assert (Hrest : ∀ kv, kv ∈ l → Apps s !! kv.1 = Some kv.2) by (intros; apply Hl; by right).
  destruct (Stat f (ai_CgroupPath a)); simpl; [by apply IH | | by apply IH].
  destruct (deleteAppInfo_ok k s Hs) as (s1 & -> & Hs1 & Ea & Ei).
  { exists a. apply (Hl (k, a)). by left. }
  simpl. destruct (IH s1) as (s2 & -> & Hs2 & Ei2 & Ea2); [done | done | |].
  - intros kv Hin. rewrite Ea. rewrite lookup_delete_ne; [by apply Hrest |].
    intros ->. apply Hk. apply list_elem_of_fmap. by exists kv.
  - exists s2. rewrite Ea2, Ea. split; [done |]. split; [done |]. split; [congruence | done].
Qed.
Lemma check_pod_cgroup_ok f s :
  svc_ok s →
  ∃ s', check_pod_cgroup f s = Ok s' ∧ svc_ok s' ∧ ds_Interval s' = ds_Interval s ∧
    Apps s' = filter (λ kv, absent_app f kv = false) (Apps s).
Proof.
  intros Hs. unfold check_pod_cgroup.
  destruct (check_apps_ok f (range (Apps s)) s Hs) as (s' & -> & H1' & H2' & E); [apply NoDup_range | |].
  - intros [k v] Hin. by apply elem_of_range in Hin.
  - exists s'. rewrite E, foldl_delete_filter. auto.
Qed.

(** ** Reports return *)

Lemma counter_word_value line i w : line !! i = Some w → counter_word w → ∃ v, stat_value line i = Ok v.
Proof.
  intros Hi (k & v & l & E). unfold stat_value, word, part. rewrite Hi. simpl. rewrite E. simpl. eauto.
Qed.
Lemma stat_line_total loops mm acc l : stat_line_ok l → ∃ c, stat_line loops mm acc l = Ok c.
Proof.
  unfold stat_line. destruct (Nat.ltb_spec (length (str_split " "%char l)) 3); [eauto |].
  intros [? | (d & r & w & ri & wi & rest & -> & Hr & Hw & Hri & Hwi)]; [lia |].
  simpl. destruct (negb _); [eauto |].
  destruct (counter_word_value (d :: r :: w :: ri :: wi :: rest) 1 r) as [? ->]; [done | done |].
  destruct (counter_word_value (d :: r :: w :: ri :: wi :: rest) 2 w) as [? ->]; [done | done |].
  destruct (counter_word_value (d :: r :: w :: ri :: wi :: rest) 3 ri) as [? ->]; [done | done |].
  destruct (counter_word_value (d :: r :: w :: ri :: wi :: rest) 4 wi) as [? ->]; [done | done |].
  simpl. eauto.
Qed.
Lemma GetReadWrite_total f (s : DiskSvc D) path mm : io_stat_ok f → ∃ c, GetReadWrite f s path mm = Ok c.
Proof.
  intros Hf. unfold GetReadWrite.
  match goal with |- context [for_range ?l ?a ?b] => destruct (for_range_total l a b) as [c ->] end;
    [| simpl; eauto].
  intros acc p _. destruct (ReadFile f _) as [txt |] eqn:E; [| eauto].
  destruct (foldM_total (stat_line (LoopDevMap s) mm) (λ _, True) acc (read_lines txt)) as (c & -> & _);
    [| done | simpl; eauto].
  intros b l Hl _. specialize (Hf _ _ _ E). rewrite Forall_forall in Hf.
  destruct (stat_line_total (LoopDevMap s) mm b l (Hf l Hl)) as [c ->]. eauto.
Qed.
Lemma GetAppsReadWrite_total f (s : DiskSvc D) : io_stat_ok f → ∃ raw, GetAppsReadWrite f s = Ok raw.
Proof.
  intros Hf. unfold GetAppsReadWrite.
  match goal with |- context [foldM ?g ?a ?l] =>
    destruct (foldM_total g (λ _, True) a l) as (r & -> & _); [| done | eauto] end.
  intros raw [k app] _ _. simpl. destruct (str_contains _ _); [eauto |]. unfold app_counters.
  match goal with |- context [foldM ?g ?a ?l] =>
    destruct (foldM_total g (λ _, True) a l) as (m & -> & _); [| done | simpl; eauto] end.
  intros m di _ _. destruct (GetReadWrite_total f s (ai_CgroupPath app) di Hf) as [c ->]. simpl. eauto.
Qed.

Definition six (m : gmap string (list f64)) : Prop := ∀ k l, m !! k = Some l → length l = 6%nat.
Definition six_rw (out : gmap string RW) : Prop := ∀ k rw, out !! k = Some rw → six (rw_R rw) ∧ six (rw_W rw).
Lemma ConvertData_length bps iops : length (ConvertData bps iops) = 6%nat.
Proof.
  unfold ConvertData. cbv zeta.
  repeat lazymatch goal with
  | |- length (if ?b then _ else _) = _ => generalize b; intros []
  | |- length (let '(_, _) := ?p in _) = _ => generalize p; intros [? ?]
  | |- _ => rewrite !length_insert; apply length_replicate
  end.
Qed.
Lemma six_insert k l m : length l = 6%nat → six m → six (<[k := l]> m).
Proof. intros Hl Hm k' l' [[-> ->] | [_ ?]]%lookup_insert_Some; [done | by eapply Hm]. Qed.
Lemma GetCurBandwidth_total raw cur (s : DiskSvc D) :
  ∃ out, GetCurBandwidth (Some raw) (Some cur) s = Ok out ∧ six_rw out.
Proof.
  unfold GetCurBandwidth. simpl.
  match goal with |- context [foldM ?g ?a ?l] => destruct (foldM_total g six_rw a l) as (r & -> & Hr) end.
  - intros out [name read] _ Hout. simpl.
    match goal with |- context [foldM ?g ?a ?l] =>
      destruct (foldM_total g (λ rw, six (rw_R rw) ∧ six (rw_W rw)) a l) as (rw & -> & Hrw) end.
    + intros rw [di v] _ [HR HW]. simpl. eexists. split; [done |]. simpl.
      split; (apply six_insert; [apply ConvertData_length | done]).
    + split; intros ? ? E; simpl in E; by rewrite lookup_empty in E.
    + simpl. eexists. split; [done |]. intros k rw' [[-> ->] | [_ ?]]%lookup_insert_Some; [done | by eapply Hout].
  - intros ? ? E. by rewrite lookup_empty in E.
  - eauto.
Qed.
Lemma bw_infos_total isRead m : six m → ∃ l, bw_infos cgroup_values isRead m = Ok l.
Proof.
  intros Hm. unfold bw_infos.
  match goal with |- context [foldM ?g ?a ?l] =>
    destruct (foldM_total g (λ _, True) a l) as (r & -> & _); [| done | eauto] end.
  intros acc [k l] Hin _. apply elem_of_range in Hin. apply Hm in Hin. simpl.
  destruct l as [| x0 [| x1 [| x2 [| x3 [| x4 [| x5 [|]]]]]]]; try done. simpl. eauto.
Qed.
Lemma diskCreateMsgCgroup_total t out : six_rw out → ∃ m, diskCreateMsgCgroup t out = Ok m.
Proof.
  intros Hout. unfold diskCreateMsgCgroup, create_msg.
  match goal with |- context [foldM ?g ?a ?l] =>
    destruct (foldM_total g (λ _, True) a l) as (r & -> & _); [| done | simpl; eauto] end.
  intros m [k rw] Hin _. apply elem_of_range in Hin. destruct (Hout _ _ Hin) as [HR HW]. simpl.
  destruct (bw_infos_total true (rw_R rw) HR) as [l1 ->]. simpl.
  destruct (bw_infos_total false (rw_W rw) HW) as [l2 ->]. simpl. eauto.
Qed.
Lemma FilterData_total prev cur : ∃ r, FilterData prev cur = Ok r.
Proof.
  unfold FilterData. destruct cur as [cur |]; [| eauto]. destruct prev as [prev |]; [| eauto].
  destruct (negb _); [eauto |].
  match goal with |- context [for_range ?l ?a ?b] => destruct (for_range_total l a b) as [c ->] end;
    [| simpl; eauto].
  intros _ [k bws] _. cbn [fst snd]. destruct (_ !! k); [| eauto].
  apply for_range_total. intros _ bw _. apply for_range_total. intros _ pbw _.
  destruct (_ && _); [| eauto]. apply for_range_total. eauto.
Qed.

(** Nothing but the previous data changes. *)
Definition only_prev (s s' : DiskSvc D) : Prop :=
  ds_persist s' = ds_persist s ∧ Apps s' = Apps s ∧ ds_Interval s' = ds_Interval s ∧
  EbpfEnabled s' = EbpfEnabled s ∧ (is_Some (prevRawData s) → is_Some (prevRawData s')).
Lemma only_prev_ok s s' : only_prev s s' → svc_ok s → svc_ok s'.
Proof.
  intros (E1 & E2 & E3 & E4 & E5) [Hd He Hp]. split; [| by rewrite E4 | auto]. by rewrite E1, E2, E3.
Qed.
Lemma Send_total snd t data s :
  EbpfEnabled s = false → six_rw data →
  ∃ m e s', Send snd t data s = Ok (m, e, s') ∧ only_prev s s'.
Proof.
  intros He Hd. unfold Send. destruct (_ =? _)%nat; [eexists _, _, _; split; [done | by repeat split] |].
  rewrite He. destruct (diskCreateMsgCgroup_total t data Hd) as [m ->]. simpl.
  destruct (FilterData_total (prevMsg s) m) as [[fl err] ->]. simpl.
  destruct err; [eexists _, _, _; split; [done | by repeat split] |].
  destruct fl, m; eexists _, _, _; (split; [done | by repeat split]).
Qed.
Lemma CgroupSyncAndSend_total f snd t s :
  svc_ok s → io_stat_ok f →
  ∃ m e s', CgroupSyncAndSend f snd t s = Ok (m, e, s') ∧ only_prev s s'.
Proof.
  intros [_ He [raw Hr]] Hf. unfold CgroupSyncAndSend.
  destruct (_ =? _)%nat; [eexists _, _, _; split; [done | by repeat split] |].
  destruct (GetAppsReadWrite_total f s Hf) as [cur ->]. simpl. rewrite Hr.
  destruct (GetCurBandwidth_total raw cur s) as (out & -> & Hout). simpl.
  destruct (Send_total snd t out (set_prev (Some cur) (prevMsg s) s) He Hout)
    as (m & e & s' & -> & E1 & E2 & E3 & E4 & E5).
  exists m, e, s'. split; [done |]. repeat split; try done. intros _. apply E5. eauto.
Qed.

(** ** Restart *)

Definition read_app (kv : string * string) : option AppInfo :=
  match unmarshal_app kv.2 with inl a => Some a | inr _ => None end.
Lemma load_apps l acc :
  (∀ kv, kv ∈ l → is_Some (read_app kv)) →
  for_range l acc (λ all kv, Ok (match unmarshal_app kv.2 with
                                 | inr e => Return e
                                 | inl app => Next (<[kv.1 := app]> all)
                                 end)) =
  Ok (Next (foldl (λ (m : gmap string AppInfo) kv,
                     match read_app kv with Some a => <[kv.1 := a]> m | None => m end) acc l)).
Proof.
  revert acc. induction l as [| kv l IH]; intros acc Hl; [done |]. simpl.
  destruct (Hl kv) as [a Ha]; [by left |]. rewrite Ha. unfold read_app in Ha.
  destruct (unmarshal_app kv.2); [| done]. injection Ha as ->. simpl. apply IH.
  intros; apply Hl; by right.
Qed.
Lemma GetAllAppInfos_restores d apps v (s0 : DiskSvc D) :
  mirrors d apps v → ds_persist s0 = Some d → GetAllAppInfos "" s0 = Ok (inl apps).
Proof.
  intros Hm E0. unfold GetAllAppInfos. rewrite E0. simpl.
  unfold db_Load. change (table_path apps_table) with (Some apps_path). simpl.
  rewrite (mi_apps_bucket _ _ _ Hm), (mi_apps _ _ _ Hm). simpl.
  rewrite load_apps.
  - simpl. do 2 f_equal. apply map_eq. intros k.
    rewrite lookup_foldl_fill by apply NoDup_range. rewrite list_to_map_range, lookup_fmap, lookup_empty.
    destruct (apps !! k) as [a |]; [| done]. simpl. unfold read_app. simpl.
    by rewrite unmarshal_marshal_app.
  - intros [k w] Hin. apply elem_of_range in Hin. rewrite lookup_fmap in Hin.
    destruct (apps !! k); [| done]. injection Hin as <-. unfold read_app. simpl.
    rewrite unmarshal_marshal_app. eauto.
Qed.
Lemma LoadInterval_restores d apps v (s0 : DiskSvc D) :
  mirrors d apps v → ds_persist s0 = Some d →
  ∃ r, LoadInterval s0 = Ok r ∧ match r with inl w => w = v | inr _ => v = 2 end.
Proof.
  intros Hm E0. unfold LoadInterval. rewrite E0. simpl. unfold db_Load.
  change (table_path "DISK") with (Some ["DISK"]). simpl. rewrite (mi_bucket _ _ _ Hm). simpl.
  pose proof (mi_interval _ _ _ Hm) as Hi.
  destruct unmarshal_interval_empty as [e He].
  destruct (bucket_pairs d ["DISK"] !! "INTERVAL") as [w |].
  - subst w. pose proof (marshal_interval_nonempty v). destruct (String.eqb_spec (marshal_interval_info v) "");
      [done |]. simpl. rewrite lookup_singleton_eq. simpl. rewrite unmarshal_marshal_interval. by exists (inl v).
  - simpl. rewrite lookup_empty. simpl. rewrite He. by exists (inr e).
Qed.
Lemma mirrors_create d apps v d' :
  mirrors d apps v → CreateTable "DISK" ["APPS"; "GROUPS"] d = (d', None) → mirrors d' apps v.
Proof.
  intros [M1 M2 M3 M4 M5] E. pose proof (CreateTable_has _ _ _ _ E) as [Hr Hs].
  split; rewrite ?(CreateTable_pairs _ _ _ _ _ _ E); try done. apply Hs. set_solver.
Qed.
Lemma CreateTable_ok table subs d : ∃ d', CreateTable table subs d = (d', None).
Proof.
  assert (Hsubs : ∀ d, ∃ d', create_subs table subs d = inl d').
  { induction subs as [| b subs IH]; intros d0; simpl; [eauto |].
    destruct (create_ok d0 [table; b]) as [d1 ->]. apply IH. }
  unfold CreateTable. destruct (create_ok d [table]) as [d1 ->]. destruct (Hsubs d1) as [d2 ->]. eauto.
Qed.
(** From a store with these contents a new engine has these apps. *)
Lemma Initialize_restores f d apps v :
  io_stat_ok f → (∀ d', CreateTable "DISK" ["APPS"; "GROUPS"] d = (d', None) → mirrors d' apps v) →
  ∃ s, Initialize_svc f false d = Ok s ∧ svc_ok s ∧ Apps s = apps ∧ ds_Interval s = v.
Proof.
  intros Hf Hc. unfold Initialize_svc. destruct (CreateTable_ok "DISK" ["APPS"; "GROUPS"] d) as [d' E].
  specialize (Hc d' E). rewrite E.
  rewrite (GetAllAppInfos_restores d' apps v) by done. simpl.
  match goal with |- context [LoadInterval ?s0] =>
    destruct (LoadInterval_restores d' apps v s0 Hc eq_refl) as (r & -> & Hr) end. simpl.
  match goal with |- context [GetAppsReadWrite f ?s0] =>
    destruct (GetAppsReadWrite_total f s0 Hf) as [raw ->] end. simpl.
  match goal with |- context [GetCurBandwidth _ _ ?s0] =>
    destruct (GetCurBandwidth_total raw raw s0) as (out & -> & Hout) end. simpl.
  destruct (diskCreateMsgCgroup_total 1 out Hout) as [m ->]. simpl.
  eexists. split; [done |]. simpl. destruct r as [w | e]; simpl.
  - subst w. split; [| done]. split; simpl; [eauto | done | eauto].
  - subst v. split; [| done]. split; simpl; [eauto | done | eauto].
Qed.

(** ** The text of limits *)

Lemma limit_values_join l : limit_values l = foldr (λ x acc, limit_line x +:+ acc) EmptyString l.
Proof.
  unfold limit_values.
  assert (Hgen : ∀ acc, foldl (λ values x, values +:+ limit_line x) acc l =
    acc +:+ foldr (λ x acc, limit_line x +:+ acc) EmptyString l).
  { induction l as [| x l IH]; intros acc; simpl; [by rewrite str_app_nil_r |].
    by rewrite IH, str_app_assoc. }
  apply Hgen.
Qed.
(** A non-empty list of limits gives a text that ends in a line end, which is
    then cut off. *)
Lemma limit_values_split l :
  l ≠ [] → limit_values l = str_join nl (map limit_body l) +:+ nl.
Proof.
  rewrite limit_values_join. induction l as [| x [| y l] IH]; intros Hne; [done | |].
  - simpl. by rewrite str_app_nil_r.
  - change (foldr (λ x acc, limit_line x +:+ acc) "" (x :: y :: l))
      with ((limit_body x +:+ nl) +:+ foldr (λ x acc, limit_line x +:+ acc) "" (y :: l)).
    rewrite IH by done.
    change (str_join nl (map limit_body (x :: y :: l)))
      with (limit_body x +:+ (nl +:+ str_join nl (map limit_body (y :: l)))).
    by rewrite !str_app_assoc.
Qed.

(** ** The service against its specification *)

(** What a registration is accepted for. *)
Definition acceptable (f : F) (AppName info : string) : option AppInfo :=
  match unmarshal_cgroup info with
  | inr _ => None
  | inl (path, devices) =>
      if negb ((length devices =? 0)%nat || String.eqb AppName "" || String.eqb path "") &&
         present (Stat f path) && forallb checkValidDevice devices && negb (Readlink f path)
      then Some (mkApp AppName path devices) else None
  end.
(** The registered apps, as a map alone. *)
Definition spec_apps (apps : gmap string AppInfo) (fr : F * request) : gmap string AppInfo :=
  match fr.2 with
  | ReqRegister n i =>
      match apps !! n, acceptable fr.1 n i with
      | None, Some a => <[n := a]> apps
      | _, _ => apps
      end
  | ReqUnRegister id => delete id apps
  | CheckRound => filter (λ kv, absent_app fr.1 kv = false) apps
  | _ => apps
  end.

(** A message without limits for a registered app is the one request that
    panics: its text is empty, and its last byte is cut off. *)
Definition panics (apps : gmap string AppInfo) (fr : F * request) : bool :=
  match fr.2 with
  | ReqLimit id [] =>
      match str_split dot id with _ :: p :: _ => bool_decide (is_Some (apps !! p)) | _ => false end
  | _ => false
  end.
Fixpoint spec_run (apps : gmap string AppInfo) (l : list (F * request)) : option (gmap string AppInfo) :=
  match l with
  | [] => Some apps
  | fr :: l => if panics apps fr then None else spec_run (spec_apps apps fr) l
  end.

Lemma RegisterApp_ok f n i s :
  svc_ok s →
  ∃ resp err s', RegisterApp_svc f n i s = Ok (resp, err, s') ∧ svc_ok s' ∧
    Apps s' = spec_apps (Apps s) (f, ReqRegister n i) ∧ ds_Interval s' = ds_Interval s.
Proof.
  intros Hs. unfold RegisterApp_svc, spec_apps, acceptable. simpl.
  destruct (Apps s !! n) as [a0 |] eqn:En; simpl; [eauto 10 |].
  destruct (unmarshal_cgroup i) as [[path devices] | e]; [| eauto 10].
  destruct (length devices =? 0)%nat; simpl; [eauto 10 |].
  destruct (String.eqb_spec n ""); simpl; [eauto 10 |].
  destruct (String.eqb path ""); simpl; [eauto 10 |].
  destruct (present (Stat f path)); simpl; [| eauto 10].
  destruct (forallb _ devices); simpl; [| eauto 10].
  destruct (Readlink f path); simpl; [eauto 10 |].
  destruct (MapLoopToDisk f s) as [s1 e1] eqn:El.
  assert (Hs1 : svc_ok s1 ∧ Apps s1 = Apps s ∧ ds_Interval s1 = ds_Interval s).
  { unfold MapLoopToDisk in El. destruct (ReadDir f devicesPath); injection El as <- _; [| done].
    split; [| done]. by destruct Hs. }
  destruct Hs1 as (Hs1 & Ea & Ei).
  destruct (AddAppInfo_ok (mkApp n path devices) s1 Hs1) as (s2 & E2 & Hs2 & Ea2 & Ei2); [done |].
  simpl in E2. rewrite E2. simpl. eexists _, _, _. split; [done |]. split; [done |].
  rewrite Ea2, Ea. simpl. split; [done | congruence].
Qed.

Lemma serve_ok s fr :
  svc_ok s → io_stat_ok fr.1 → panics (Apps s) fr = false →
  ∃ s', serve s fr = Ok s' ∧ svc_ok s' ∧ Apps s' = spec_apps (Apps s) fr.
Proof.
  destruct fr as [f r]. intros Hs Hf Hr. simpl in *. destruct r as [n i | id | t c | id l | | snd |]; simpl.
  - destruct (RegisterApp_ok f n i s Hs) as (resp & err & s' & -> & ? & ? & _). simpl. eauto.
  - unfold UnRegisterApp_svc. destruct (decide (is_Some (Apps s !! id))) as [Hid | Hid].
    + destruct (deleteAppInfo_ok id s Hs Hid) as (s' & -> & ? & ? & _). simpl. eauto.
    + simpl. eexists. split; [done |]. split; [done |]. unfold spec_apps. simpl.
      rewrite delete_id; [done |]. by apply eq_None_not_Some.
  - unfold Configure_svc. destruct Hs as [(d & Ed & Hm) He Hp]. rewrite Ed.
    assert (Hs : svc_ok s) by (split; eauto).
    destruct (String.eqb c ""); simpl; [eauto |]. destruct (String.eqb t "INTERVAL"); simpl; [| eauto].
    destruct (unmarshal_interval c) as [v | e]; simpl; [| eauto].
    unfold SaveInterval, with_db. simpl. rewrite Ed. simpl.
    destruct (db_Save_ok "DISK" "INTERVAL" (marshal_interval_info v) ["DISK"] d) as [d' E];
      [done | apply Hm | done |]. rewrite E. simpl. eexists. split; [done |]. split; [| done].
    split; simpl; [| done | done]. exists d'. split; [done |]. by eapply mirrors_interval.
  - assert (∃ r, SetAppLimit_svc id l s f = Ok r) as [r ->]; [| simpl; eauto].
    unfold panics in Hr. simpl in Hr.
    unfold SetAppLimit_svc. destruct (str_split dot id) as [| ? [| p ?]]; [eauto.. |].
    destruct (Apps s !! p); [| eauto]. assert (Hne : l ≠ []) by (intros ->; by apply bool_decide_eq_false in Hr as []).
    assert (Hlen : (str_len (limit_values l) =? 0)%nat = false).
    { apply Nat.eqb_neq. rewrite limit_values_split by done. rewrite str_len_app. simpl. lia. }
    rewrite Hlen. destruct (String.eqb _ _); [eauto |]. destruct (ReadFile f _); [| eauto].
    destruct (WriteFile f _ _) as [f' [e |]]; eauto.
  - destruct (check_pod_cgroup_ok f s Hs) as (s' & -> & ? & _ & ?). eauto.
  - destruct (CgroupSyncAndSend_total f snd 1 s Hs Hf) as (m & e & s' & -> & Ho). simpl.
    exists s'. split; [done |]. split; [by eapply only_prev_ok |]. apply Ho.
  - pose proof Hs as [(d & Ed & Hm) He Hp]. rewrite Ed. simpl.
    destruct (Initialize_restores f d (Apps s) (ds_Interval s) Hf) as (s' & -> & ? & ? & _); [| eauto].
    intros d' E. by eapply mirrors_create.
Qed.

Lemma request_ok_calm apps fr : request_ok fr → io_stat_ok fr.1 ∧ panics apps fr = false.
Proof. intros [Hf Hr]. split; [done |]. unfold panics. by destruct fr.2 as [| | | ? [] | | |]. Qed.
Lemma serve_panics s fr : panics (Apps s) fr = true → serve s fr = Crash OutOfRange.
Proof.
  destruct fr as [f [| | | id [| x l] | | |]]; unfold panics; simpl; try done. unfold SetAppLimit_svc.
  destruct (str_split dot id) as [| ? [| p ?]]; [done.. |]. intros [a ->]%bool_decide_eq_true. done.
Qed.

(** A store in which no engine has written. *)
Definition fresh_store (d : D) : Prop :=
  bucket_pairs d apps_path = ∅ ∧ bucket_pairs d ["DISK"] !! "INTERVAL" = None.
Lemma Initialize_fresh f d :
  io_stat_ok f → fresh_store d →
  ∃ s, Initialize_svc f false d = Ok s ∧ svc_ok s ∧ Apps s = ∅.
Proof.
  intros Hf [Ha Hi]. destruct (Initialize_restores f d ∅ 2 Hf) as (s & -> & ? & ? & _); [| eauto].
  intros d' E. destruct (CreateTable_has _ _ _ _ E) as [Hr Hs].
  split; [apply Hs; set_solver | done | | done |].
  - rewrite (CreateTable_pairs _ _ _ _ _ apps_path E), Ha. by rewrite fmap_empty.
  - by rewrite (CreateTable_pairs _ _ _ _ _ ["DISK"] E), Hi.
Qed.
Lemma serve_all s l :
  svc_ok s → Forall request_ok l →
  ∃ s', foldM serve s l = Ok s' ∧ svc_ok s' ∧ Apps s' = foldl spec_apps (Apps s) l.
Proof.
  intros Hs Hl. revert s Hs. induction Hl as [| fr l Hfr Hl IH]; intros s Hs; simpl; [eauto |].
  destruct (request_ok_calm (Apps s) fr Hfr) as [Hf Hc].
  destruct (serve_ok s fr Hs Hf Hc) as (s1 & -> & Hs1 & Ea). simpl.
  destruct (IH s1 Hs1) as (s2 & -> & ? & E2). exists s2. by rewrite E2, Ea.
Qed.

Lemma serve_run s l :
  svc_ok s → Forall (λ fr, io_stat_ok fr.1) l →
  match spec_run (Apps s) l with
  | Some apps => ∃ s', foldM serve s l = Ok s' ∧ svc_ok s' ∧ Apps s' = apps
  | None => foldM serve s l = Crash OutOfRange
  end.
Proof.
  intros Hs Hl. revert s Hs. induction Hl as [| fr l Hf Hl IH]; intros s Hs; simpl; [eauto |].
  destruct (panics (Apps s) fr) eqn:Hc; [by rewrite serve_panics |].
  destruct (serve_ok s fr Hs Hf Hc) as (s1 & -> & Hs1 & Ea). simpl. rewrite <- Ea. by apply IH.
Qed.
(** A restart at any moment restores the registered apps and the reporting
    interval. *)
Theorem restart_restores f d l s0 s f' :
  fresh_store d → io_stat_ok f → Forall request_ok l → io_stat_ok f' →
  Initialize_svc f false d = Ok s0 → foldM serve s0 l = Ok s →
  ∃ s', serve s (f', Restart) = Ok s' ∧ Apps s' = Apps s ∧ ds_Interval s' = ds_Interval s.
Proof.
  intros Hd Hf Hl Hf' E0 E. destruct (Initialize_fresh f d Hf Hd) as (s0' & E0' & Hs0 & _).
  rewrite E0 in E0'. injection E0' as <-. destruct (serve_all s0 l Hs0 Hl) as (s1 & E1 & Hs & _).
  rewrite E in E1. injection E1 as <-. destruct Hs as [(d' & Ed & Hm) _ _]. simpl. rewrite Ed. simpl.
  destruct (Initialize_restores f' d' (Apps s) (ds_Interval s) Hf') as (s' & -> & _ & ? & ?); [| eauto].
  intros d2 E2. by eapply mirrors_create.
Qed.
End Facts.

(** ** The disk engine of the service *)

Section Claim.
Context `{!GoRange} {F D : Type} `{!Files F} `{!BoltDB D} `{!DiskJson} `{!FloatText} `{!DiskLib F}.
Context `{!BoltLaws D} `{!DiskJsonLaws}.

(** C13: The disk engine of the I/O service implements a table of apps. From
    an empty store, with eBPF off, as long as no update of the store fails
    (hypothesis BoltReliable), the store and JSON read back what was written,
    and the lines of io.stat have the kernel's format, whatever requests,
    check rounds, report rounds and restarts follow each other while the files
    of the node change: when no limit message with an empty list of limits
    comes for an app that is then registered, the run returns, the registered
    apps are those of a specification on a map alone (an acceptable
    registration under a new name adds an app, an unregistration removes one,
    a check round removes those whose cgroup is gone, nothing else changes
    them), and the store holds exactly them; and when such a message comes,
    the service panics there. *)
Theorem disk_service_refines_spec (Hstore : BoltReliable D) (f : F) (d : D) l :
  fresh_store d → io_stat_ok f → Forall (λ fr, io_stat_ok fr.1) l →
  ∃ s0, Initialize_svc f false d = Ok s0 ∧
  match spec_run ∅ l with
  | Some apps => ∃ s d', foldM serve s0 l = Ok s ∧ Apps s = apps ∧
      ds_persist s = Some d' ∧ bucket_pairs d' ["DISK"; "APPS"] = marshal_app <$> apps
  | None => foldM serve s0 l = Crash OutOfRange
  end.
Proof.
  intros Hd Hf Hl. destruct (Initialize_fresh f d Hf Hd) as (s0 & E0 & Hs0 & Ea0).
  exists s0. split; [done |]. pose proof (serve_run s0 l Hs0 Hl) as Hr. rewrite Ea0 in Hr.
  destruct (spec_run ∅ l) as [apps |]; [| done]. destruct Hr as (s & E & [(d' & Ed & Hm) _ _] & <-).
  exists s, d'. split_and!; try done. apply (mi_apps _ _ _ Hm).
Qed.
End Claim.
