(* ===== verification/ServiceFacts.v ===== *)
(** * The agent and the I/O service together, and where the service fails

    Limits that SetLimit of the agent sends are written by the disk engine of
    the service to the cgroup of their pod.  Then, on any instance of the
    libraries: requests and rounds in which the service does not do what it
    means to; and runs. *)

From S2P Require Export RegisterFacts DiskServiceFacts LimitFacts ServiceFake.

(** A file that can be read stays readable when some file is written. *)
Class StaysReadable (F : Type) `{!Files F} : Prop :=
  still_readable : ∀ f p t q txt, ReadFile f q = inl txt →
    ∃ txt', ReadFile (WriteFile f p t).1 q = inl txt'.

Section Delivery.
Context `{!GoRange} {F D : Type} `{!Files F} `{!BoltDB D} `{!DiskJson} `{!FloatText} `{!DiskLib F}.

(** The service takes limits of the disk type, one after the other. *)
Definition take_limit (s : DiskSvc D) (f : F) (m : service_msg) : outcome F :=
  match m with
  | SetAppLimit id l t =>
      if t =? DiskIOIType then let! '(_, _, f) := SetAppLimit_svc id l s f in Ok f else Ok f
  | _ => Ok f
  end.

(** What is written for one limit of an app: nothing, or a line to io.max. *)
Definition max_file (app : AppInfo) : string := ai_CgroupPath app +:+ "/io.max".
Definition write_of (app : AppInfo) (l : BWLimit) : option (string * string) :=
  if String.eqb (limit_body l) "" then None else Some (max_file app, limit_body l).
Definition perform (f : F) (w : option (string * string)) : F :=
  match w with Some (p, t) => (WriteFile f p t).1 | None => f end.

Lemma limit_values_one l : limit_values [l] = limit_body l +:+ nl.
Proof. by rewrite limit_values_split. Qed.

Lemma take_limit_writes (s : DiskSvc D) f id i po l app txt :
  str_split dot id = [i; po] → Apps s !! po = Some app → ReadFile f (max_file app) = inl txt →
  take_limit s f (SetAppLimit id [l] DiskIOIType) = Ok (perform f (write_of app l)).
Proof.
  intros Ei Ha Hr. unfold take_limit. simpl. unfold SetAppLimit_svc. rewrite Ei, Ha, limit_values_one.
  assert (El : (str_len (limit_body l +:+ nl) =? 0)%nat = false)
    by (apply Nat.eqb_neq; rewrite str_len_app; simpl; lia).
  rewrite El. unfold nl at 1 2. rewrite str_drop_last_app. unfold write_of.
  destruct (String.eqb (limit_body l) ""); [done |]. unfold max_file in Hr. rewrite Hr.
  unfold perform, max_file. by destruct (WriteFile _ _ _) as [f' [e |]].
Qed.

Context `{!StaysReadable F}.

Lemma perform_readable f w q txt :
  ReadFile f q = inl txt → ∃ txt', ReadFile (perform f w) q = inl txt'.
Proof. intros Hr. destruct w as [[p t] |]; [by eapply still_readable | eauto]. Qed.

(** A line of io.max, written out: the device, then the limits of reads and of
    writes, each with its operations; a rate that is empty or zero is no limit. *)
Definition limits (rate : string * Z) : Prop := rate.1 ≠ "" ∧ rate.1 ≠ "0".
Definition io_max_line (id : string) (rd wr : string * Z) : string :=
  id +:+ " " +:+
  (if decide (limits rd) then "rbps=" +:+ rd.1 +:+ " riops=" +:+ pretty rd.2 +:+ " " else "") +:+
  (if decide (limits wr) then "wbps=" +:+ wr.1 +:+ " wiops=" +:+ pretty wr.2 +:+ " " else "").
Lemma limit_set_spec rate : limit_set rate.1 = bool_decide (limits rate).
Proof.
  unfold limit_set, limits. destruct (String.eqb_spec rate.1 ""), (String.eqb_spec rate.1 "0"); simpl; symmetry;
    (apply bool_decide_eq_true; by split) || (apply bool_decide_eq_false; tauto).
Qed.
Lemma write_of_line app id rd wr :
  write_of app (mkBWLimit id rd.1 wr.1 rd.2 wr.2) =
  if decide (limits rd ∨ limits wr) then Some (ai_CgroupPath app +:+ "/io.max", io_max_line id rd wr) else None.
Proof.
  unfold write_of, limit_body, io_max_line. cbn [lmt_In lmt_Out lmt_Id lmt_InIops lmt_OutIops].
  rewrite !limit_set_spec, !bool_decide_decide.
  destruct (decide (limits rd)), (decide (limits wr));
    destruct (decide (limits rd ∨ limits wr)) as [Hl | Hl]; try (exfalso; tauto);
    cbn [orb]; try done; rewrite (proj2 (String.eqb_neq _ _)) by (by destruct id); done.
Qed.

(** The write for a pod: its rates, to the io.max of the cgroup that it is
    registered with; none when neither direction is limited. *)
Definition pod_write (mins : MinBw) (w : WorkloadGroup) (expect : Workload) (dev : DevInfo) (idx : Z)
    (s : DiskSvc D) (po : string) (write : option (string * string)) : Prop :=
  ∃ app req raw, Apps s !! po = Some app ∧
    RequestPods w !! po = Some (Some req) ∧ wg_RawRequest w !! po = Some (Some raw) ∧
    let rd := pod_reads mins w expect idx po req raw in
    let wr := pod_writes mins w expect idx po req raw in
    write = if decide (limits rd ∨ limits wr)
            then Some (ai_CgroupPath app +:+ "/io.max", io_max_line (DevMajorMinor dev) rd wr) else None.

Lemma take_limits mins w expect dev idx (s : DiskSvc D) pods msgs f :
  group_ok w → 0 <= idx <= 2 →
  (∀ po, po ∈ pods → is_Some (RequestPods w !! po)) →
  (∀ po, po ∈ pods → ∃ app txt, Apps s !! po = Some app ∧ ReadFile f (max_file app) = inl txt) →
  Forall2 (limit_sent mins w expect dev idx) pods msgs →
  ∃ writes, foldM (take_limit s) f msgs = Ok (foldl perform f writes) ∧
    Forall2 (pod_write mins w expect dev idx s) pods writes.
Proof.
  intros Hw Hi Hreq Happ HF. revert f Happ. induction HF as [| po m pods msgs Hm HF IH]; intros f Happ.
  { by exists []. }
  destruct (Happ po) as (app & txt & Ha & Hr); [by left |].
  destruct Hm as (req & raw & Hq & Hraw & ->). set (l := mkBWLimit _ _ _ _ _).
  destruct (appid_pod idx po Hi (ok_names _ Hw po _ Hq)) as [i Ei].
  cbn [foldM]. rewrite (take_limit_writes s f _ i po l app txt Ei Ha Hr). cbn [obind].
  destruct (IH (λ po' Hin, Hreq po' ltac:(by right)) (perform f (write_of app l))) as (writes & -> & HW).
  { intros po' Hin. destruct (Happ po') as (app' & txt' & Ha' & Hr'); [by right |].
    destruct (perform_readable f (write_of app l) _ _ Hr') as [t2 Ht2]. eauto. }
  exists (write_of app l :: writes). split; [done |]. constructor; [| done].
  exists app, req, raw. split_and!; [done.. |]. apply write_of_line.
Qed.

(** C15: Limits reach the cgroup of their pod.  For a group of a disk whose
    pods have their requests, limits and raw requests and names without a dot,
    for a class of the three, under the policy that selects all pods and
    compresses by request ratio, with expected rates that are not negative,
    and when every pod of the group is registered with the service and the
    io.max file of its cgroup can be read (a write to one file leaves the
    others readable): SetLimit returns, and its messages make the service
    perform, in the order of the pods, for each pod one write or none.  The
    write goes to io.max of the cgroup that the pod was registered with, and
    is the line with the disk's number and, for each direction that is
    limited, "rbps=" and "riops=", or "wbps=" and "wiops=", with the pod's
    share of that direction (its request, its scaled request up to its limit,
    or an equal part, by its class, raised to the administrator's minimum) in
    bytes and operations per second; there is no write when neither direction
    is limited. *)
Theorem limits_reach_cgroup mins w p expect request dev idx (s : DiskSvc D) f :
  group_ok w → 0 <= idx <= 2 → Select_method p = "All" →
  Compress_method p = "CALC_REQUEST_RATIO" → DevType dev = "DISK" →
  amount (InBps expect) → amount (OutBps expect) →
  (∀ po v, RequestPods w !! po = Some v →
     ∃ app txt, Apps s !! po = Some app ∧ ReadFile f (max_file app) = inl txt) →
  ∃ w' msgs writes, SetLimit mins w (Some p) expect request dev idx = Ok (w', msgs) ∧
    foldM (take_limit s) f msgs = Ok (foldl perform f writes) ∧
    Forall2 (pod_write mins w expect dev idx s) (range (RequestPods w)).*1 writes.
Proof.
  intros Hw Hi Hs Hc Hdev Hin Hout Happ.
  destruct (SetLimit_sends mins w p expect request dev idx) as (w' & msgs & E & _ & HF); try done.
  assert (Hpods : ∀ po, po ∈ (range (RequestPods w)).*1 → is_Some (RequestPods w !! po)).
  { intros po Hpo. apply list_elem_of_fmap in Hpo as ([k v] & -> & Hpo). apply elem_of_range in Hpo. eauto. }
  destruct (take_limits mins w expect dev idx s (range (RequestPods w)).*1 msgs f Hw Hi Hpods)
    as (writes & Ew & HW); [| done |].
  - intros po Hpo. destruct (Hpods po Hpo) as [v Hv]. by eapply Happ.
  - by exists w', msgs, writes.
Qed.
End Delivery.

(** ** Defects *)

Section Defects.
Context `{!GoRange} {F D : Type} `{!Files F} `{!BoltDB D} `{!DiskJson} `{!FloatText} `{!DiskLib F}.

(** Rounds of reports on data of cgroups; what was sent is collected. *)
Definition report_round (snd : AppsBandwidth → option error)
    (acc : list AppsBandwidth * DiskSvc D) (data : gmap string RW)
    : outcome (list AppsBandwidth * DiskSvc D) :=
  let! '(m, _, s) := Send snd 1 data acc.2 in
  Ok (acc.1 ++ match m with Some m => [m] | None => [] end, s).

(** The message of some data is close to the previous message. *)
Definition quiet (prev : option AppsBandwidth) (data : gmap string RW) (msg : AppsBandwidth) : Prop :=
  (size data ≠ 0)%nat ∧ diskCreateMsgCgroup 1 data = Ok (Some msg) ∧
  FilterData prev (Some msg) = Ok (false, None).
Fixpoint quiet_rounds (prev : option AppsBandwidth) (l : list (gmap string RW * AppsBandwidth)) : Prop :=
  match l with
  | [] => True
  | (data, msg) :: l => quiet prev data msg ∧ quiet_rounds (Some msg) l
  end.
Lemma quiet_round_silent snd data msg sent (s : DiskSvc D) :
  EbpfEnabled s = false → quiet (prevMsg s) data msg →
  report_round snd (sent, s) data = Ok (sent, set_prev (prevRawData s) (Some msg) s).
Proof.
  intros He (Hne & Em & Ef). unfold report_round, Send. cbn [fst Datatypes.snd].
  destruct (Nat.eqb_spec (size data) 0) as [? | _]; [done |]. rewrite He, Em. cbn [obind].
  rewrite Ef. cbn [obind]. by rewrite app_nil_r.
Qed.

(** Slow changes are never reported.  The previous message is replaced in
    every round, also when nothing is sent; so as long as each round is close
    to the one before it, nothing is sent, however far the bandwidth has moved
    from the last report. *)
Theorem drift_never_reported snd l (s : DiskSvc D) :
  EbpfEnabled s = false → quiet_rounds (prevMsg s) l →
  ∃ s', foldM (report_round snd) ([], s) l.*1 = Ok ([], s').
Proof.
  revert s. induction l as [| [data msg] l IH]; intros s He Hq; [by exists s |].
  destruct Hq as [Hq Hl]. rewrite fmap_cons. cbn [foldM fst].
  rewrite (quiet_round_silent snd data msg [] s He Hq). cbn [obind]. by apply IH.
Qed.

(** An empty list of limits panics the service: the last byte is cut off
    the text of the limits, which is then empty. *)
Theorem empty_limits_panic (s : DiskSvc D) f id c po rest app :
  str_split dot id = c :: po :: rest → Apps s !! po = Some app →
  SetAppLimit_svc id [] s f = Crash OutOfRange.
Proof. intros E Ha. unfold SetAppLimit_svc. by rewrite E, Ha. Qed.

(** A store that refuses one entry. *)
Definition refuses (d : D) (name : string) : Prop :=
  has_bucket d apps_path = true ∧ ∀ v, ∃ e, bucket_Put d apps_path name v = inr e.

(** A registration that could not be stored answers FAIL and leaves the
    app registered in memory, so that the next attempt is refused as already
    registered, although the store does not have the app. *)
Theorem failed_store_blocks_retry f n i (s : DiskSvc D) d a :
  Apps s !! n = None → acceptable f n i = Some a → ds_persist s = Some d → refuses d n →
  ∃ s', RegisterApp_svc f n i s = Ok (Some FAIL, Some "persistent file failed", s') ∧
    ds_persist s' = Some d ∧
    RegisterApp_svc f n i s' = Ok (None, Some "App Already Registered", s').
Proof.
  intros Hn Hacc Hd [Hb Hput]. unfold RegisterApp_svc at 1. rewrite decide_False by (rewrite Hn; apply is_Some_None).
  unfold acceptable in Hacc. destruct (unmarshal_cgroup i) as [[path devices] | e]; [| done].
  destruct (length devices =? 0)%nat; [done |]. destruct (String.eqb_spec n ""); [done |].
  destruct (String.eqb path ""); [done |]. simpl in Hacc |- *.
  destruct (present (Stat f path)); [| done]. destruct (forallb checkValidDevice devices); [| done].
  destruct (Readlink f path); [done |]. simpl.
  destruct (MapLoopToDisk f s) as [s1 e1] eqn:El.
  assert (Hs1 : ds_persist s1 = Some d ∧ Apps s1 = Apps s).
  { unfold MapLoopToDisk in El. by destruct (ReadDir f devicesPath); injection El as <- _. }
  destruct Hs1 as [Hd1 Ha1]. unfold AddAppInfo, with_db. simpl. rewrite Hd1. simpl.
  destruct (Hput (marshal_app (mkApp n path devices))) as [e Ee].
  assert (Es : db_Save apps_table n (marshal_app (mkApp n path devices)) d =
    Ok (d, Some ("could not save " +:+ apps_table +:+ " table " +:+ n +:+ " key: " +:+ e))).
  { unfold db_Save. destruct (String.eqb_spec n ""); [done |].
    change (table_path apps_table) with (Some apps_path). simpl. by rewrite Hb, Ee. }
  rewrite Es. simpl. eexists. split; [done |]. split; [done |].
  unfold RegisterApp_svc. simpl. rewrite decide_True; [done |]. rewrite lookup_insert_eq. eauto.
Qed.
End Defects.

Section DiskDetails.
Context {F : Type} `{!Files F} `{!LsblkJson}.

Lemma small_parts_kept (f : F) v l :
  Forall (λ chd, judgePartProfile (blk_Mount chd) = true →
            ∃ n, getPartSize f (blk_Name chd) = Ok n ∧ n <= dSize v) l →
  foldM (best_part f) v l = Ok v.
Proof.
  induction 1 as [| chd l Hc Hl IH]; [done |]. simpl.
  assert (E : best_part f v chd = Ok v).
  { unfold best_part. destruct (judgePartProfile (blk_Mount chd)); [| done]. simpl.
    destruct Hc as (n & -> & Hn); [done |]. simpl. destruct (Z.ltb_spec (dSize v) n); [lia | done]. }
  rewrite E. apply IH.
Qed.

(** The partition of an earlier disk is taken over.  checkDiskDetails
    keeps the size and the name of the largest partition found so far from one
    disk to the next: a disk whose partitions are no larger than those of an
    earlier disk is listed with the mount point and the size of that disk's
    partition. *)
Theorem stale_partition (f : F) inDisk v bd rest :
  getADiskInfo f inDisk = inl (bd :: rest) → PName bd = EmptyString → Children bd ≠ [] →
  partName v ≠ EmptyString →
  Forall (λ chd, judgePartProfile (blk_Mount chd) = true →
            ∃ n, getPartSize f (blk_Name chd) = Ok n ∧ n <= dSize v) (Children bd) →
  disk_details f inDisk v =
    Ok (mkVars (blk_Name bd) (MajMin bd) (dMount v) (blk_Model bd) (blk_Serial bd) (partName v) (dSize v), true).
Proof.
  intros E Hp Hc Hpn Hl. unfold disk_details. rewrite E. cbn [first_device obind].
  rewrite Hp, String.eqb_refl. cbv zeta. destruct (Children bd) as [| c0 cs]; [done |].
  rewrite small_parts_kept by done. simpl.
  by destruct (String.eqb_spec (partName v) "").
Qed.
End DiskDetails.

(** ** Runs of the I/O service *)

Module ServiceExample.
Import FakeInstances NodeInstances ServiceInstances.
Import DiskExample.

#[export] Instance bolt_fake_reliable : BoltReliable Bolt.
Proof.
  split; intros; eexists; reflexivity.
Qed.
#[export] Instance disk_json_fake_laws : DiskJsonLaws.
Proof.
  split.
  - intros [n p d]. change (match of_text (to_text (n, p, d)) with
                            | inl (n, p, d) => inl (mkApp n p d)
                            | inr e => inr e
                            end = inl (mkApp n p d)). by rewrite of_to_text.
  - intros v. apply of_to_text.
  - done.
  - eexists. reflexivity.
Qed.
#[export] Instance files_fake_readable : StaysReadable Disk0.
Proof.
  intros f p t q txt. simpl. unfold write_fake. destruct (fs_files f !! p) eqn:E; simpl; [| eauto].
  destruct (decide (p = q)) as [-> | Hne].
  - rewrite lookup_insert_eq. simpl. eauto.
  - rewrite lookup_insert_ne by done. eauto.
Qed.

(** A node with one pod, whose container has read and written. *)
Definition io_stat1 : string := "8:0 rbytes=4096 wbytes=8192 rios=1 wios=2 dbytes=0 dios=0".
Definition node1 : Disk0 :=
  mkFiles {["/cg/p1/io.max" := ""; "/cg/p1/cri-containerd-c1/io.stat" := io_stat1]}
    {["/cg/p1" := [("cri-containerd-c1", true)]]} ∅.
(** The pod is gone. *)
Definition node2 : Disk0 := mkFiles ∅ ∅ ∅.
Definition store1 : Bolt := mkBolt ∅ ∅.
Definition quiet_stream : AppsBandwidth → option error := λ _, None.

Lemma io_stat1_ok : stat_line_ok io_stat1.
Proof.
  right. eexists _, _, _, _, _, _. split; [vm_compute; reflexivity |].
  repeat split; do 3 eexists; vm_compute; reflexivity.
Qed.
Lemma before_ok : io_stat_ok node1.
Proof.
  intros path name txt E. simpl in E. unfold or_error in E.
  destruct (_ !! (path +:+ "/" +:+ name +:+ "/io.stat")) as [t |] eqn:El; [| done]. injection E as ->.
  rewrite lookup_insert_Some in El. destruct El as [[_ <-] | [_ El]]; [by repeat constructor |].
  apply lookup_singleton_Some in El as [_ <-]. constructor; [apply io_stat1_ok | constructor].
Qed.
Lemma after_ok : io_stat_ok node2.
Proof. intros path name txt E. simpl in E. by rewrite lookup_empty in E. Qed.

Definition requests1 : list (Disk0 * request) :=
  [(node1, ReqRegister "uid-1" "/cg/p1 8:0"); (node1, ReqConfigure "INTERVAL" (to_text (5 : Z)));
   (node1, ReportRound quiet_stream); (node1, ReqLimit "0.uid-1" [mkBWLimit "8:0" "1048576" "" 256 0]);
   (node1, Restart); (node2, CheckRound)].
Lemma requests1_ok : Forall request_ok requests1.
Proof.
  repeat constructor; simpl; try exact before_ok; try exact after_ok; discriminate.
Qed.

Lemma requests1_files : Forall (λ fr, io_stat_ok fr.1) requests1.
Proof. repeat constructor; simpl; try exact before_ok; try exact after_ok. Qed.
Lemma disk_service_refines_spec_witness :
  ∃ s0, Initialize_svc node1 false store1 = Ok s0 ∧
    (∃ s d', foldM serve s0 requests1 = Ok s ∧ Apps s = ∅ ∧
       ds_persist s = Some d' ∧ bucket_pairs d' ["DISK"; "APPS"] = marshal_app <$> (∅ : gmap string AppInfo)).
Proof.
  destruct (disk_service_refines_spec bolt_fake_reliable node1 store1 requests1) as (s0 & E0 & Hr).
  - split; reflexivity.
  - exact before_ok.
  - exact requests1_files.
  - exists s0. split; [exact E0 |].
    replace (spec_run ∅ requests1) with (Some (∅ : gmap string AppInfo)) in Hr by (vm_compute; reflexivity).
    exact Hr.
Defined.

Definition run1 (l : list (Disk0 * request)) : DiskSvc Bolt :=
  match Initialize_svc node1 false store1 with
  | Ok s0 => match foldM serve s0 l with Ok s => s | Crash _ => s0 end
  | Crash _ => mkSvc None ∅ 0 ∅ ∅ false None None ∅ ∅
  end.
Definition three : list (Disk0 * request) := take 3 requests1.
Lemma restart_restores_witness :
  ∃ s', serve (run1 three) (node1, Restart) = Ok s' ∧
    Apps s' = {["uid-1" := mkApp "uid-1" "/cg/p1" ["8:0"]]} ∧ ds_Interval s' = 5.
Proof.
  destruct (restart_restores node1 store1 three (run1 []) (run1 three) node1)
    as (s' & E & Ea & Ei).
  - split; reflexivity.
  - exact before_ok.
  - apply Forall_take. exact requests1_ok.
  - exact before_ok.
  - vm_compute. reflexivity.
  - vm_compute. reflexivity.
  - exists s'. rewrite Ea, Ei. split; [exact E |]. split; vm_compute; reflexivity.
Defined.

Definition served1 : DiskSvc Bolt := run1 (take 1 requests1).
Lemma limits_reach_cgroup_witness :
  ∃ w' msgs writes, SetLimit mins1 group1 (Some policy1) wl1 wl1 dev1 GaIndex = Ok (w', msgs) ∧
    foldM (take_limit served1) node1 msgs = Ok (foldl perform node1 writes) ∧
    Forall2 (pod_write mins1 group1 wl1 dev1 GaIndex served1) ["uid-1"] writes.
Proof.
  destruct (limits_reach_cgroup mins1 group1 policy1 wl1 wl1 dev1 GaIndex served1 node1)
    as (w' & msgs & writes & E & Ef & HF).
  - apply set_pod_ok; [| apply new_group_ok; unfold GaIndex; lia].
    split; try (eexists; reflexivity). split; vm_compute; discriminate.
  - unfold GaIndex. lia.
  - reflexivity.
  - reflexivity.
  - reflexivity.
  - repeat split.
  - repeat split.
  - intros po v Hv. change (RequestPods group1) with ({["uid-1" := Some wl1]} : gmap string (option Workload)) in Hv.
    apply lookup_singleton_Some in Hv as [<- _].
    exists (mkApp "uid-1" "/cg/p1" ["8:0"]), EmptyString. split; vm_compute; reflexivity.
  - exists w', msgs, writes. split; [exact E |]. split; [exact Ef | exact HF].
Defined.

(** Ten rounds, in each of which the bandwidth grows by 1000 bytes. *)
Definition drift_data (n : nat) : gmap string RW :=
  {["uid-1" := mkRW {["8:0" := <[5%nat := of_Z (1000 * Z.of_nat n)]> (replicate 6 fzero)]} ∅]}.
Definition drift_msg (n : nat) : AppsBandwidth :=
  match diskCreateMsgCgroup 1 (drift_data n) with Ok (Some m) => m | _ => mkApps 0 ∅ end.
Definition drifting : DiskSvc Bolt := set_prev None (Some (drift_msg 0)) served1.
Lemma drift_never_reported_witness :
  ∃ s', foldM (report_round quiet_stream) ([], drifting) (drift_data <$> seq 1 10) = Ok ([], s').
Proof.
  destruct (drift_never_reported quiet_stream ((λ n, (drift_data n, drift_msg n)) <$> seq 1 10) drifting)
    as [s' E].
  - vm_compute. reflexivity.
  - repeat split; vm_compute; try reflexivity; discriminate.
  - exists s'. exact E.
Defined.

Lemma empty_limits_panic_witness : SetAppLimit_svc "0.uid-1" [] served1 node1 = Crash OutOfRange.
Proof.
  apply (empty_limits_panic served1 node1 "0.uid-1" "0" "uid-1" [] (mkApp "uid-1" "/cg/p1" ["8:0"]));
    vm_compute; reflexivity.
Defined.

(** A full disk: nothing can be stored. *)
Definition bolt_full : BoltDB Bolt :=
  {| has_bucket := λ d p, bool_decide (p ∈ bolt_buckets d);
     CreateBucketIfNotExists := λ d p, inl (mkBolt ({[p]} ∪ bolt_buckets d) (bolt_pairs d));
     bucket_Put := λ d p k v, inr "no space left on device";
     bucket_Delete := λ d p k, inr "no space left on device";
     bucket_pairs := pairs_at |}.
Definition store_full : Bolt := mkBolt {[["DISK"]; apps_path]} ∅.
Definition idle : DiskSvc Bolt := mkSvc (Some store_full) ∅ 2 ∅ ∅ false None None ∅ ∅.
Lemma failed_store_blocks_retry_witness :
  ∃ s', RegisterApp_svc (BoltDB0 := bolt_full) node1 "uid-1" "/cg/p1 8:0" idle
          = Ok (Some FAIL, Some "persistent file failed", s') ∧
    RegisterApp_svc (BoltDB0 := bolt_full) node1 "uid-1" "/cg/p1 8:0" s'
      = Ok (None, Some "App Already Registered", s').
Proof.
  destruct (failed_store_blocks_retry (BoltDB0 := bolt_full) node1 "uid-1" "/cg/p1 8:0" idle store_full
              (mkApp "uid-1" "/cg/p1" ["8:0"])) as (s' & E1 & _ & E2).
  - reflexivity.
  - vm_compute. reflexivity.
  - reflexivity.
  - split; [vm_compute; reflexivity |]. intros v. eexists. reflexivity.
  - exists s'. split; [exact E1 | exact E2].
Defined.

(** Two disks with one partition each, the second smaller than the first. *)
Definition lsblk_disk (name mm part mount : string) : BlockDevice :=
  mkBlockDevice name "disk" "" mm 0 "" "model" name false
    [mkBlockDevice part "part" "" mm 0 mount "" "" false []].
Definition lsblk_fake : LsblkJson :=
  {| unmarshal_lsblk := λ s,
       if String.eqb s "a" then inl [lsblk_disk "/dev/sda" "8:0" "/dev/sda1" "/data"]
       else if String.eqb s "b" then inl [lsblk_disk "/dev/sdb" "8:16" "/dev/sdb1" "/backup"]
       else inr "not JSON" |}.
#[local] Existing Instance lsblk_fake.
Definition df_head : string := "Filesystem 1K-blocks Used Available Use% Mounted on ".
Definition node3 : Disk0 :=
  mkFiles ∅ ∅
    {[lsblk_cmd "/dev/sda" := "a"; lsblk_cmd "/dev/sdb" := "b";
      "df /dev/sda1" := df_head +:+ "/dev/sda1 9000 0 2000 0% /data";
      "df /dev/sdb1" := df_head +:+ "/dev/sdb1 9000 0 1000 0% /backup"]}.
Definition after_sda : DiskVars :=
  match disk_details node3 "/dev/sda" (mkVars "" "" "" "" "" "" 0) with
  | Ok (v, _) => v
  | Crash _ => mkVars "" "" "" "" "" "" 0
  end.
Lemma stale_partition_witness :
  disk_details node3 "/dev/sdb" after_sda =
    Ok (mkVars "/dev/sdb" "8:16" "/data" "model" "/dev/sdb" "/dev/sda1" (2000 * 1024), true).
Proof.
  rewrite (stale_partition node3 "/dev/sdb" after_sda
             (lsblk_disk "/dev/sdb" "8:16" "/dev/sdb1" "/backup") []).
  - vm_compute. reflexivity.
  - vm_compute. reflexivity.
  - reflexivity.
  - discriminate.
  - vm_compute. discriminate.
  - constructor; [| constructor]. intros _. exists (1000 * 1024). split; [vm_compute; reflexivity |].
    vm_compute. discriminate.
Defined.
End ServiceExample.
