(* ===== verification/NetTcFacts.v ===== *)
(** * Traffic control: theorems on NetTc.v and NetPlugin.v

    When the search for a pod's host interface ends; what a limit of an app
    does to the token bucket filters of its two links, and to no other link;
    when the service panics for an app it cannot reach. *)

From S2P Require Export NetPlugin.

#[global] Instance qdisc_kind_eq_dec : EqDecision qdisc_kind.
Proof. solve_decision. Defined.
#[global] Instance Qdisc_eq_dec : EqDecision Qdisc.
Proof. solve_decision. Defined.

(** ** Waiting for the peer of an interface *)

Section Waiting.
Context {W : Type} `{!Netlink W}.
Variables ifname ns : string.

(** The world in which a round looks for the peer, and the one that the next
    round starts in. *)
Definition looks_in (w : W) : W := if GetVethPeerIfindex w ns ifname <=? 0 then later w else w.
Definition next_round (w : W) : W := later (looks_in w).
Definition round_result (w : W) : option (Link + error) :=
  match GetNS w ns with
  | Some e => Some (inr e)
  | None =>
      match LinkByIndex (looks_in w) None (GetVethPeerIfindex w ns ifname) with
      | inl l => Some (inl l)
      | inr _ => None
      end
  end.

Lemma getHostInterface_found rounds w r :
  round_result w = Some r →
  getHostInterface (S rounds) ifname ns w = Ok (r, match r with inl _ => looks_in w | inr _ => w end).
Proof.
  unfold round_result. simpl. destruct (GetNS w ns); [by intros [= <-] |].
  fold (looks_in w). destruct (LinkByIndex (looks_in w) None _); [by intros [= <-] | done].
Qed.
Lemma getHostInterface_waits rounds w :
  round_result w = None →
  getHostInterface (S rounds) ifname ns w = getHostInterface rounds ifname ns (next_round w).
Proof.
  unfold round_result. simpl. destruct (GetNS w ns); [done |].
  fold (looks_in w). by destruct (LinkByIndex (looks_in w) None _).
Qed.

(** Waiting longer does not change the result. *)
Lemma getHostInterface_mono n m w r :
  (n <= m)%nat → getHostInterface n ifname ns w = Ok r → getHostInterface m ifname ns w = Ok r.
Proof.
  revert m w. induction n as [| n IH]; intros m w Hm E; [done |].
  destruct m as [| m]; [lia |]. destruct (round_result w) as [r' |] eqn:Er.
  - by rewrite (getHostInterface_found m _ _ Er), <- (getHostInterface_found n _ _ Er).
  - rewrite getHostInterface_waits in E |- * by done. apply IH; [lia | done].
Qed.

Lemma getHostInterface_after n w :
  is_Some (round_result (Nat.iter n next_round w)) → ∃ r, getHostInterface (S n) ifname ns w = Ok r.
Proof.
  revert w. induction n as [| n IH]; intros w Hr.
  - destruct Hr as [r Hr]. rewrite (getHostInterface_found _ _ _ Hr). eauto.
  - destruct (round_result w) as [r' |] eqn:Er; [rewrite (getHostInterface_found _ _ _ Er); eauto |].
    rewrite getHostInterface_waits by done. apply IH. by rewrite <- Nat.iter_succ_r.
Qed.

(** C31: The search for the host interface of a pod ends exactly when the
    namespace of the pod is gone or the peer has become a link of the host in
    some round: then it returns within this many rounds, with one result
    however long one waits, and otherwise no number of rounds is enough. *)
Theorem host_interface_terminates w :
  ((∃ rounds r, getHostInterface rounds ifname ns w = Ok r) ↔
   ∃ n, is_Some (round_result (Nat.iter n next_round w))) ∧
  ∀ n, is_Some (round_result (Nat.iter n next_round w)) →
    ∃ r, ∀ rounds, (n < rounds)%nat → getHostInterface rounds ifname ns w = Ok r.
Proof.
  split.
  - split.
    + intros (rounds & r & E). revert w E. induction rounds as [| n IH]; intros w E; [done |].
      destruct (round_result w) as [r' |] eqn:Er; [exists 0%nat; eauto |].
      rewrite getHostInterface_waits in E by done. apply IH in E as [k Hk].
      exists (S k). by rewrite Nat.iter_succ_r.
    + intros [n [r E]%getHostInterface_after]. eauto.
  - intros n [r E]%getHostInterface_after. exists r. intros rounds Hn.
    eapply getHostInterface_mono; [| exact E]. lia.
Qed.
End Waiting.

(** ** Assumptions on netlink *)

(** What a change of qdiscs leaves alone. *)
Record same_net {W} `{!Netlink W} (w w' : W) : Prop := {
  sn_name : ∀ ns n, LinkByName w' ns n = LinkByName w ns n;
  sn_index : ∀ ns i, LinkByIndex w' ns i = LinkByIndex w ns i;
  sn_ns : ∀ ns, GetNS w' ns = GetNS w ns;
  sn_peer : ∀ ns n, GetVethPeerIfindex w' ns n = GetVethPeerIfindex w ns n
}.
Lemma same_network_refl {W} `{!Netlink W} (w : W) : same_net w w.
Proof. by split. Qed.
Lemma same_network_trans {W} `{!Netlink W} (w1 w2 w3 : W) : same_net w1 w2 → same_net w2 w3 → same_net w1 w3.
Proof. intros [A1 A2 A3 A4] [B1 B2 B3 B4]. split; congruence. Qed.
#[export] Hint Resolve same_network_refl same_network_trans : ioi.

Definition tbfs_of (l : list Qdisc) : list Qdisc := filter (λ q, is_tbf q = true) l.
(** [qdiscs] are those of a link; adding a token bucket filter adds it, and
    deleting a qdisc deletes it; the rest of the network is as it was. *)
Class NetlinkLaws (W : Type) `{!Netlink W} := {
  qdiscs : W → option string → Z → list Qdisc;
  index_link : ∀ w ns i l, LinkByIndex w ns i = inl l → lk_Index l = i;
  name_index : ∀ w ns n l, LinkByName w ns n = inl l → LinkByIndex w ns (lk_Index l) = inl l;
  list_qdiscs : ∀ w ns l qs, QdiscList w ns l = inl qs → qs = qdiscs w ns (lk_Index l);
  on_link : ∀ w ns i q, q ∈ qdiscs w ns i → qd_LinkIndex q = i;
  add_net : ∀ w ns q w', QdiscAdd w ns q = inl w' → same_net w w';
  add_tbf : ∀ w ns q w' ns' i, QdiscAdd w ns q = inl w' → is_tbf q = true →
    tbfs_of (qdiscs w' ns' i) =
    tbfs_of (qdiscs w ns' i) ++ if decide ((ns', i) = (ns, qd_LinkIndex q)) then [q] else [];
  del_net : ∀ w ns q w', QdiscDel w ns q = inl w' → same_net w w';
  del_tbf : ∀ w ns q w' ns' i, QdiscDel w ns q = inl w' →
    tbfs_of (qdiscs w' ns' i) =
    if decide ((ns', i) = (ns, qd_LinkIndex q))
    then filter (λ q', q' ≠ q) (tbfs_of (qdiscs w ns' i)) else tbfs_of (qdiscs w ns' i)
}.
(** The qdiscs of a link can be listed and deleted, and a filter can be added
    where there is none. *)
Class NetlinkReliable (W : Type) `{!Netlink W} `{!NetlinkLaws W} : Prop := {
  list_ok : ∀ w ns i l, LinkByIndex w ns i = inl l → ∃ qs, QdiscList w ns l = inl qs;
  add_ok : ∀ w ns q l, LinkByIndex w ns (qd_LinkIndex q) = inl l → is_tbf q = true →
    tbfs_of (qdiscs w ns (qd_LinkIndex q)) = [] → ∃ w', QdiscAdd w ns q = inl w';
  del_ok : ∀ w ns q, q ∈ qdiscs w ns (qd_LinkIndex q) → ∃ w', QdiscDel w ns q = inl w'
}.
(** Decimal integers are read exactly; the empty text is no number. *)
Class FloatParseLaws `{!FloatParse} : Prop := {
  parse_integer : ∀ z, int_ok z → ParseFloat64 (pretty z) = inl (of_Z z);
  parse_empty : ∃ e, ParseFloat64 EmptyString = inr e
}.

(** ** Token bucket filters *)

Section Buckets.
Context `{!NetlinkConsts} {W : Type} `{!Netlink W} `{!NetlinkLaws W} `{!NetlinkReliable W}.
Implicit Types w : W.

Definition tbfs w ns i : list Qdisc := tbfs_of (qdiscs w ns i).

(** One link's filters become [l]; nothing else changes. *)
Record updated w w' (ns : option string) (i : Z) (l : list Qdisc) : Prop := {
  up_net : same_net w w';
  up_here : tbfs w' ns i = l;
  up_else : ∀ ns' i', (ns', i') ≠ (ns, i) → tbfs w' ns' i' = tbfs w ns' i'
}.
Lemma updated_refl w ns i : updated w w ns i (tbfs w ns i).
Proof. split; auto with ioi. Qed.
Lemma updated_trans w1 w2 w3 ns i l l' :
  updated w1 w2 ns i l → updated w2 w3 ns i l' → updated w1 w3 ns i l'.
Proof. intros [A1 A2 A3] [B1 B2 B3]. split; eauto with ioi. intros. rewrite B3 by done. by apply A3. Qed.

Lemma del_updated w ns i q w' :
  tbfs w ns i = [q] → qd_LinkIndex q = i → QdiscDel w ns q = inl w' → updated w w' ns i [].
Proof.
  intros E Hq Hd. split; [by eapply del_net | |].
  - unfold tbfs. rewrite (del_tbf _ _ _ _ _ _ Hd), decide_True by congruence.
    fold (tbfs w ns i). rewrite E. by rewrite filter_cons_False by (intros Hn; by apply Hn).
  - intros ns' i' Hne. unfold tbfs. rewrite (del_tbf _ _ _ _ _ _ Hd), decide_False by congruence. done.
Qed.
Lemma tbf_on_link w ns i q : q ∈ tbfs w ns i → qd_LinkIndex q = i ∧ q ∈ qdiscs w ns (qd_LinkIndex q).
Proof.
  intros [_ Hq]%list_elem_of_filter. pose proof (on_link _ _ _ _ Hq) as E. by rewrite E.
Qed.

(** A link has a root qdisc, and so at most one token bucket filter. *)
Definition one_tbf w ns i : Prop := (length (tbfs w ns i) <= 1)%nat.
Lemma one_tbf_cases w ns i : one_tbf w ns i → tbfs w ns i = [] ∨ ∃ q, tbfs w ns i = [q].
Proof. unfold one_tbf. destruct (tbfs w ns i) as [| q [|]]; simpl; [by left | eauto | lia]. Qed.

Lemma filter_here i (l : list Qdisc) :
  (∀ q, q ∈ l → qd_LinkIndex q = i) →
  filter (λ q, (qd_LinkIndex q =? i) && is_type "tbf" q = true) l = tbfs_of l.
Proof.
  unfold tbfs_of. induction l as [| q l IH]; intros Hin; [done |].
  rewrite !filter_cons, IH by (intros; apply Hin; by right).
  unfold is_type. simpl. rewrite (Hin q), Z.eqb_refl by (by left). simpl. by destruct (is_tbf q).
Qed.
Lemma delQdiscIfExist_tbf w ns i lk :
  LinkByIndex w ns i = inl lk → one_tbf w ns i →
  ∃ w', delQdiscIfExist ns i "tbf" w = Ok (inl (), w') ∧ updated w w' ns i [].
Proof.
  intros Hl H1. unfold delQdiscIfExist, mbindE, mbindM, askE. simpl. rewrite Hl. simpl.
  destruct (list_ok _ _ _ _ Hl) as [qs Hqs]. rewrite Hqs. simpl.
  apply list_qdiscs in Hqs as Eq. rewrite (index_link _ _ _ _ Hl) in Eq.
  assert (Ef : filter (λ q, (qd_LinkIndex q =? i) && is_type "tbf" q = true) qs = tbfs w ns i).
  { rewrite Eq. apply filter_here. apply on_link. }
  rewrite Ef. destruct (one_tbf_cases w ns i H1) as [E | [q E]]; rewrite E.
  - exists w. split; [done |]. rewrite <- E. apply updated_refl.
  - destruct (tbf_on_link w ns i q) as [Hi Hq]; [rewrite E; by left |].
    destruct (del_ok _ _ _ Hq) as [w' Hd]. unfold callE. rewrite Hd. exists w'. split; [done |].
    by eapply del_updated.
Qed.

Lemma createTBF_sets w ns rate burst i lk :
  0 < rate → 0 < burst → LinkByIndex w ns i = inl lk → one_tbf w ns i →
  ∃ w', createTBF ns rate burst i w = Ok (inl (), w') ∧ updated w w' ns i [tbf_qdisc rate burst i].
Proof.
  intros Hr Hb Hl H1. unfold createTBF. destruct (Z.leb_spec rate 0); [lia |].
  destruct (Z.leb_spec burst 0); [lia |]. simpl.
  destruct (delQdiscIfExist_tbf w ns i lk Hl H1) as (w1 & E1 & U1). unfold mbindE, mbindM.
  rewrite E1. simpl.
  destruct (add_ok w1 ns (tbf_qdisc rate burst i) lk) as [w2 E2].
  { simpl. rewrite (sn_index _ _ (up_net _ _ _ _ _ U1)). done. }
  { done. }
  { exact (up_here _ _ _ _ _ U1). }
  unfold callE. rewrite E2. exists w2. split; [done |].
  eapply updated_trans; [exact U1 |]. split; [by eapply add_net | |].
  - unfold tbfs. rewrite (add_tbf _ _ _ _ _ _ E2) by done. fold (tbfs w1 ns i).
    rewrite (up_here _ _ _ _ _ U1). by rewrite decide_True.
  - intros ns' i' Hne. unfold tbfs. rewrite (add_tbf _ _ _ _ _ _ E2) by done.
    rewrite decide_False by (simpl; congruence). apply app_nil_r.
Qed.

Lemma delete_tbfs_clears w ns lk :
  LinkByIndex w ns (lk_Index lk) = inl lk → one_tbf w ns (lk_Index lk) →
  ∃ w', delete_tbfs ns lk w = Ok (inl (), w') ∧ updated w w' ns (lk_Index lk) [].
Proof.
  intros Hl H1. unfold delete_tbfs, mbindE, mbindM, askE. simpl.
  destruct (list_ok _ _ _ _ Hl) as [qs Hqs]. rewrite Hqs. simpl.
  apply list_qdiscs in Hqs as ->. fold (tbfs_of (qdiscs w ns (lk_Index lk))). fold (tbfs w ns (lk_Index lk)).
  destruct (one_tbf_cases w ns _ H1) as [E | [q E]]; rewrite E.
  - exists w. split; [done |]. rewrite <- E. apply updated_refl.
  - destruct (tbf_on_link w ns (lk_Index lk) q) as [Hi Hq]; [rewrite E; by left |].
    destruct (del_ok _ _ _ Hq) as [w' Hd]. simpl. unfold mbindE, mbindM, callE. rewrite Hd.
    exists w'. split; [done |]. by eapply del_updated.
Qed.
End Buckets.

(** ** Rates *)

Lemma to_uint64_of_Z n : 0 <= n <= 2 ^ 53 → to_uint64 (of_Z n) = n.
Proof.
  intros Hn. unfold to_uint64.
  assert (E : flt (of_Z n) (of_Z (2 ^ 63)) = true).
  { destruct (of_Z_spec n) as (Hv & Hf & Ek); [unfold int_ok; lia |].
    destruct (key_finite _ Hf) as [Hk Hnan]. apply flt_key; [done | by vm_compute | done | done |].
    rewrite Hk, Ek. change (key (of_Z (2 ^ 63))) with (2 ^ 63 * 2 ^ unit_exp).
    apply Z.mul_lt_mono_pos_r; [done | lia]. }
  rewrite E, to_int64_of_Z by (unfold int_ok; lia). apply u64_id. unfold is_u64. lia.
Qed.
Lemma mbitToBit_exact a : 0 <= a <= 2 ^ 40 → mbitToBit (to_uint64 (of_Z a)) = 1000000 * a.
Proof.
  intros Ha. rewrite to_uint64_of_Z by lia. unfold mbitToBit, MBIT. apply u64_id. unfold is_u64. lia.
Qed.
(** The rate of a filter, in bytes per second. *)
Definition tbf_rate (q : Qdisc) : Z := match qd_kind q with Tbf _ r _ => r | _ => 0 end.
(** The filter for a limit of [v] Mbit/s: at the root of the link, 125000 v
    bytes per second, with a burst of one million bytes and a latency of
    25 ms. *)
Definition mbit_tbf `{!NetlinkConsts} (v i : Z) : Qdisc :=
  mkQdisc i (MakeHandle 1 0) HANDLE_ROOT
    (Tbf (limit_bytes (125000 * v) (latencyInUsec (of_Z 25)) 1000000) (125000 * v) (buffer (125000 * v) 1000000)).
Lemma tbf_qdisc_mbit `{!NetlinkConsts} v i : tbf_qdisc (1000000 * v) 8000000 i = mbit_tbf v i.
Proof.
  unfold tbf_qdisc, mbit_tbf. replace (1000000 * v) with (125000 * v * 8) by lia. by rewrite Z.div_mul.
Qed.

(** ** The limits of an app *)

Section Limits.
Context `{!GoRange} `{!NetlinkConsts} {W : Type} `{!Netlink W} `{!NetlinkLaws W} `{!NetlinkReliable W}.
Context `{!FloatParse} `{!FloatParseLaws}.
Variable rounds : nat.

(** What a limit of [v] Mbit/s makes of the filters of a link: the largest
    value deletes them, other values that are not positive keep them. *)
Definition new_tbfs (old : list Qdisc) (v i : Z) : list Qdisc :=
  if v =? 2 ^ 20 then [] else if 0 <? v then [mbit_tbf v i] else old.
Definition small (v : Z) : Prop := Z.abs v <= 2 ^ 40.

(** The two ends of a pod's interface. *)
Record reachable (w : W) (app : AppInfo) (nic : string) (veth eth : Link) : Prop := {
  re_nic : (first_device app).1 = nic;
  re_ns : GetNS w (NetNS app) = None;
  re_peer : 0 < GetVethPeerIfindex w (NetNS app) nic;
  re_veth : LinkByIndex w None (GetVethPeerIfindex w (NetNS app) nic) = inl veth;
  re_eth : LinkByName w (Some (NetNS app)) nic = inl eth
}.
Lemma reachable_same w w' app nic veth eth :
  same_net w w' → reachable w app nic veth eth → reachable w' app nic veth eth.
Proof. intros [S1 S2 S3 S4] [R1 R2 R3 R4 R5]. split; [done | | | |]; by rewrite ?S1, ?S2, ?S3, ?S4. Qed.
Lemma getHostInterface_reachable w app nic veth eth :
  (0 < rounds)%nat → reachable w app nic veth eth →
  getHostInterface rounds nic (NetNS app) w = Ok (inl veth, w).
Proof.
  intros Hr [R1 R2 R3 R4 R5]. destruct rounds as [| n]; [lia |]. simpl. rewrite R2.
  destruct (Z.leb_spec (GetVethPeerIfindex w (NetNS app) nic) 0); [lia |]. by rewrite R4.
Qed.

Lemma feq_max v : small v → feq (of_Z v) MAX_BT_LIMIT = (v =? 2 ^ 20).
Proof. intros Hv. unfold MAX_BT_LIMIT. apply feq_of_Z; unfold int_ok, small in *; lia. Qed.
Lemma flt_pos v : small v → flt fzero (of_Z v) = (0 <? v).
Proof. intros Hv. change fzero with (of_Z 0). apply flt_of_Z; unfold int_ok, small in *; lia. Qed.

(** The two halves of operateGALimit: set, then unset. *)
Lemma set_half w ns i lk v (m : GoM W (() + error)) :
  small v → LinkByIndex w ns i = inl lk → one_tbf w ns i →
  (0 < v → v ≠ 2 ^ 20 → m w = createTBF ns (1000000 * v) 8000000 i w) →
  ∃ w', (if negb (feq (of_Z v) MAX_BT_LIMIT) && flt fzero (of_Z v) then m else retE ()) w = Ok (inl (), w') ∧
    updated w w' ns i (if negb (v =? 2 ^ 20) && (0 <? v) then [mbit_tbf v i] else tbfs w ns i).
Proof.
  intros Hv Hl Hone Hm. rewrite feq_max, flt_pos by done.
  destruct (Z.eqb_spec v (2 ^ 20)), (Z.ltb_spec 0 v); simpl;
    try (exists w; split; [done | apply updated_refl]).
  rewrite Hm, <- tbf_qdisc_mbit by done. apply createTBF_sets with lk; [lia | lia | done | done].
Qed.
Lemma unset_half w ns i v (m : GoM W (() + error)) :
  small v →
  (v = 2 ^ 20 → ∃ w', m w = Ok (inl (), w') ∧ updated w w' ns i []) →
  ∃ w', (if feq (of_Z v) MAX_BT_LIMIT then m else retE ()) w = Ok (inl (), w') ∧
    updated w w' ns i (if v =? 2 ^ 20 then [] else tbfs w ns i).
Proof.
  intros Hv Hm. rewrite feq_max by done. destruct (Z.eqb_spec v (2 ^ 20)); [auto |].
  exists w. split; [done | apply updated_refl].
Qed.

(** The filters of the pod's two links after a limit; no other link changes. *)
Record limited (w w' : W) (ns : string) (veth eth : Link) (a b : Z) : Prop := {
  li_net : same_net w w';
  li_host : tbfs w' None (lk_Index veth) = new_tbfs (tbfs w None (lk_Index veth)) a (lk_Index veth);
  li_pod : tbfs w' (Some ns) (lk_Index eth) = new_tbfs (tbfs w (Some ns) (lk_Index eth)) b (lk_Index eth);
  li_else : ∀ ns' i, (ns', i) ≠ (None, lk_Index veth) → (ns', i) ≠ (Some ns, lk_Index eth) →
    tbfs w' ns' i = tbfs w ns' i
}.
Lemma halves_limited w w1 w2 w3 w4 ns veth eth a b :
  let h := lk_Index veth in let c := lk_Index eth in
  updated w w1 None h (if negb (a =? 2 ^ 20) && (0 <? a) then [mbit_tbf a h] else tbfs w None h) →
  updated w1 w2 (Some ns) c (if negb (b =? 2 ^ 20) && (0 <? b) then [mbit_tbf b c] else tbfs w1 (Some ns) c) →
  updated w2 w3 None h (if a =? 2 ^ 20 then [] else tbfs w2 None h) →
  updated w3 w4 (Some ns) c (if b =? 2 ^ 20 then [] else tbfs w3 (Some ns) c) →
  limited w w4 ns veth eth a b.
Proof.
  intros h c; subst h c. intros [A1 A2 A3] [B1 B2 B3] [C1 C2 C3] [D1 D2 D3]. split; [eauto 6 with ioi | | |].
  - rewrite D3, C2, B3, A2 by done. unfold new_tbfs. by destruct (a =? 2 ^ 20).
  - rewrite D2, C3, B2, A3 by done. unfold new_tbfs. by destruct (b =? 2 ^ 20).
  - intros ns' i Hh Hc. by rewrite D3, C3, B3, A3.
Qed.
Lemma one_tbf_updated w w' ns i l ns' i' :
  (length l <= 1)%nat → updated w w' ns i l → one_tbf w ns' i' → one_tbf w' ns' i'.
Proof.
  intros Hl [_ U2 U3] Hone. unfold one_tbf. destruct (decide ((ns', i') = (ns, i))) as [[= -> ->] | Hne].
  - by rewrite U2.
  - by rewrite U3.
Qed.

(** Every half keeps at most one filter on a link. *)
Lemma set_one (c : bool) q w ns i : one_tbf w ns i → (length (if c then [q] else tbfs w ns i) <= 1)%nat.
Proof. by destruct c. Qed.
Lemma unset_one (c : bool) w ns i : one_tbf w ns i → (length (if c then [] else tbfs w ns i) <= 1)%nat.
Proof. destruct c; simpl; [lia | done]. Qed.
Local Ltac still_one :=
  repeat match goal with
  | |- one_tbf ?w' _ _ =>
      match goal with U : updated _ w' _ _ _ |- _ =>
        eapply one_tbf_updated; [| exact U |]; [first [apply set_one | apply unset_one] |] end
  end; done.

Lemma ga_limit_limits w app nic veth eth a b :
  (0 < rounds)%nat → reachable w app nic veth eth → small a → small b →
  one_tbf w None (lk_Index veth) → one_tbf w (Some (NetNS app)) (lk_Index eth) →
  ∃ w', ga_limit rounds app (of_Z a) (of_Z b) OP_ADD w = Ok (inl (), w') ∧
    limited w w' (NetNS app) veth eth a b.
Proof.
  intros Hr Hre Ha Hb Hone Hone'. pose proof (re_nic _ _ _ _ _ Hre) as Enic.
  pose proof (getHostInterface_reachable w app nic veth eth Hr Hre) as Eh.
  pose proof (name_index _ _ _ _ (re_eth _ _ _ _ _ Hre)) as Heth.
  assert (Hveth : LinkByIndex w None (lk_Index veth) = inl veth).
  { rewrite (index_link _ _ _ _ (re_veth _ _ _ _ _ Hre)). apply (re_veth _ _ _ _ _ Hre). }
  destruct (set_half w None (lk_Index veth) veth a
    (createTBF None (mbitToBit (to_uint64 (of_Z a))) (mbitToBit 8) (lk_Index veth))) as (w1 & E1 & U1); try done.
  { intros. rewrite mbitToBit_exact by (unfold small in *; lia). done. }
  assert (Hre1 := reachable_same _ _ _ _ _ _ (up_net _ _ _ _ _ U1) Hre).
  destruct (set_half w1 (Some (NetNS app)) (lk_Index eth) eth b
    (addQiscInCnet nic (NetNS app) (mbitToBit (to_uint64 (of_Z b))))) as (w2 & E2 & U2); [done | | | |].
  { by rewrite (sn_index _ _ (up_net _ _ _ _ _ U1)). }
  { still_one. }
  { intros. unfold addQiscInCnet, mbindM, getM, mbindE, askE, mbindM. simpl.
    rewrite (re_ns _ _ _ _ _ Hre1). rewrite (re_eth _ _ _ _ _ Hre1). simpl.
    rewrite mbitToBit_exact by (unfold small in *; lia). done. }
  assert (Hre2 := reachable_same _ _ _ _ _ _ (up_net _ _ _ _ _ U2) Hre1).
  assert (N2 : same_net w w2) by (eapply same_network_trans; [apply U1 | apply U2]).
  destruct (unset_half w2 None (lk_Index veth) a (TCDeleteTbfHost rounds nic (NetNS app))) as (w3 & E3 & U3);
    [done | |].
  { intros _. unfold TCDeleteTbfHost, mbindM. rewrite (getHostInterface_reachable w2 app nic veth eth) by done.
    simpl. apply delete_tbfs_clears; [by rewrite (sn_index _ _ N2) | still_one]. }
  assert (Hre3 := reachable_same _ _ _ _ _ _ (up_net _ _ _ _ _ U3) Hre2).
  destruct (unset_half w3 (Some (NetNS app)) (lk_Index eth) b (TCDeleteTbfContainer nic (NetNS app)))
    as (w4 & E4 & U4); [done | |].
  { intros _. unfold TCDeleteTbfContainer, mbindM, getM, mbindE, askE, mbindM. simpl.
    rewrite (re_ns _ _ _ _ _ Hre3), (re_eth _ _ _ _ _ Hre3). simpl.
    apply delete_tbfs_clears; [by apply name_index with nic, Hre3 | still_one]. }
  exists w4. split; [| by eapply halves_limited].
  unfold ga_limit. rewrite Enic. unfold mbindM at 1. rewrite Eh. cbn [obind].
  change (OP_ADD =? OP_ADD) with true. change (OP_ADD =? OP_DEL) with false. cbn [andb orb].
  unfold mbindE, mbindM. rewrite E1. cbn [obind]. rewrite E2. cbn [obind]. rewrite E3. cbn [obind]. exact E4.
Qed.
End Limits.
