(* ===== verification/NetServiceFacts.v ===== *)
(** * The network engine of the I/O service: theorems on NetService.v

    Limits that the agent sends become token bucket filters of the pod's two
    links; what is stored is what a restart finds; which requests panic. *)

From S2P Require Export LimitFacts NetTcFacts NetService.

(** ** Limits of the agent *)

(** The value in Mbit/s that a limit of the agent stands for: "no limit" is
    sent as 1000, and 0 is taken for 1. *)
Definition sent_mbit (v : Z) : Z := if v =? -1 then 1000 else if v =? 0 then 1 else v.

Section Agent.
Context `{!FloatParse} `{!FloatParseLaws}.

Lemma pretty_not_empty z : int_ok z → String.eqb (pretty z) "" = false.
Proof.
  intros Hz. destruct (String.eqb_spec (pretty z) "") as [E |]; [| done].
  pose proof (parse_integer z Hz) as Hp. rewrite E in Hp. destruct parse_empty as [e He]. congruence.
Qed.
Lemma parse_nic_limit v :
  small v →
  String.eqb (nic_limit (of_Z v)) "" = false ∧ parse_limit (nic_limit (of_Z v)) = inl (of_Z (sent_mbit v)).
Proof.
  intros Hv. assert (Hi : int_ok v) by (unfold small, int_ok in *; lia).
  assert (E : ∃ u, nic_limit (of_Z v) = pretty u ∧ int_ok u ∧
    sent_mbit v = if u =? 0 then 1 else u).
  { unfold nic_limit, sent_mbit, LimitMax. rewrite feq_of_Z by (unfold int_ok in *; lia).
    destruct (Z.eqb_spec v (-1)) as [-> | Hne].
    - exists NICMAX. done.
    - exists v. rewrite to_int64_of_Z by done. done. }
  destruct E as (u & -> & Hu & ->). split; [by apply pretty_not_empty |].
  unfold parse_limit. rewrite pretty_not_empty, parse_integer by done.
  change fzero with (of_Z 0). rewrite feq_of_Z by (unfold int_ok in *; lia).
  by destruct (u =? 0).
Qed.
End Agent.

Section Enforced.
Context `{!GoRange} `{!NetlinkConsts} {W D : Type} `{!Netlink W} `{!BoltDB D}.
Context `{!FloatParse} `{!FloatText} `{!NetJson}.
Context `{!NetlinkLaws W} `{!NetlinkReliable W} `{!FloatParseLaws}.
Variable rounds : nat.
Notation NetEngine := (NetEngine W D).

Lemma GetDevices_known retry app (w : W) : Devices app ≠ ∅ → GetDevices retry app w = Ok (app, w).
Proof.
  intros Hd. unfold GetDevices. destruct (Nat.eqb_spec (size (Devices app)) 0) as [E |]; [| done].
  by apply map_size_empty_inv in E.
Qed.
Lemma operateGALimit_limits (w : W) app nic veth eth a b :
  (0 < rounds)%nat → Devices app ≠ ∅ → reachable w app nic veth eth → small a → small b →
  one_tbf w None (lk_Index veth) → one_tbf w (Some (NetNS app)) (lk_Index eth) →
  ∃ w', operateGALimit rounds app (of_Z a) (of_Z b) OP_ADD w = Ok ((app, None), w') ∧
    limited w w' (NetNS app) veth eth a b.
Proof.
  intros Hr Hd Hre Ha Hb H1' H2'. destruct (ga_limit_limits rounds w app nic veth eth a b)
    as (w' & E & L); try done.
  exists w'. split; [| done]. unfold operateGALimit, errE, mbindM.
  rewrite GetDevices_known by done. cbn [obind]. rewrite E. done.
Qed.

Lemma small_sent v : small v → small (sent_mbit v).
Proof.
  unfold small, sent_mbit, NICMAX. intros Hv. destruct (v =? -1); [lia |]. destruct (v =? 0); lia.
Qed.
Lemma split_app_id idx po : 0 <= idx <= 2 → no_dot po →
  String.eqb (pretty idx +:+ "." +:+ po) "" = false ∧
  split_id (pretty idx +:+ "." +:+ po) = Some (pretty idx, po).
Proof.
  intros Hi Hp. assert (Ei : idx = 0 ∨ idx = 1 ∨ idx = 2) by lia.
  split; [by destruct Ei as [-> | [-> | ->]] |]. unfold split_id.
  change ("." +:+ po) with (String pod_dot po). change dot with pod_dot.
  rewrite str_split_app; [by rewrite Hp |]. by destruct Ei as [-> | [-> | ->]].
Qed.
(** A limit for a registered app: it is remembered and applied. *)
Lemma net_SetAppLimit_app idx po l (s : NetEngine) app :
  0 <= idx <= 2 → no_dot po → nv_Apps s !! po = Some app →
  net_SetAppLimit rounds (pretty idx +:+ "." +:+ po) l s =
  errE (let? _ := forE l (keep_limit (pretty idx) po true) in
        forE (nics s) (λ nic, forE l (apply_limit rounds (pretty idx) po true nic))) s.
Proof.
  intros Hi Hp Ha. destruct (split_app_id idx po Hi Hp) as [E1 E2].
  unfold net_SetAppLimit. rewrite E1, E2. rewrite bool_decide_true by (rewrite Ha; eauto).
  by rewrite andb_false_r.
Qed.

(** The groups whose apps are limited one by one. *)
Definition limited_apart (bridge : bool) (t : Z) : Prop :=
  0 <= t <= 2 ∧ IsGroupSettable bridge t = false.
Lemma generic_SetLimit_apart bridge g group app l (w : W) a b :
  limited_apart bridge (getGroupType (g_groups g) group) →
  parse_limit (bw_Ingress l) = inl a → parse_limit (bw_Egress l) = inl b →
  generic_SetLimit rounds bridge g group (Some app) l w =
  (let! '((app, err), w) := operateGALimit rounds app a b OP_ADD w in Ok ((Some app, err), w)).
Proof.
  intros [Ht Hs] Ea Eb. unfold generic_SetLimit. rewrite Hs, Ea, Eb. cbn [isn negb].
  rewrite !andb_false_r. destruct (Z.eqb_spec (getGroupType (g_groups g) group) (-1)); [lia |].
  cbn [orb]. rewrite !orb_true_r. unfold mbindM. simpl.
  by destruct (operateGALimit rounds app a b OP_ADD w) as [[[? ?] ?] |].
Qed.

Lemma keep_limit_app group po l (s : NetEngine) app :
  nv_Apps s !! po = Some app → String.eqb (lmt_In l) "" = false →
  keep_limit group po true l s =
  Ok (inl (), set_Apps (<[po := set_Limits [to_limit l] app]> (nv_Apps s)) s).
Proof.
  intros Ha Hl. unfold keep_limit. rewrite Hl. simpl. unfold mbindM, app_at. rewrite Ha. done.
Qed.
Lemma apply_limit_apart group po nic l (s : NetEngine) g app app1 a b w' :
  nv_Apps s !! po = Some app → plugins s !! nic_IpAddr nic = Some (Generic g) →
  limited_apart (BridgeMode s) (getGroupType (g_groups g) group) →
  parse_limit (lmt_In l) = inl a → parse_limit (lmt_Out l) = inl b →
  operateGALimit rounds app a b OP_ADD (kernel s) = Ok ((app1, None), w') →
  apply_limit rounds group po true nic l s =
  Ok (inl (), set_Apps (<[po := app1]> (nv_Apps s)) (set_kernel w' s)).
Proof.
  intros Ha Hp Ht Ea Eb E. unfold apply_limit, with_app, mbindM, plugin_at, getM, liftM. simpl. rewrite Hp.
  simpl. unfold app_at. rewrite Ha. simpl. unfold on_kernel. simpl.
  rewrite (generic_SetLimit_apart _ _ _ _ _ _ a b) by done. rewrite E. done.
Qed.

(** A message of the agent, at the service. *)
Definition take_net_limit (m : service_msg) : GoM NetEngine (option error) :=
  match m with
  | SetAppLimit id l t => if t =? NetIOIType then net_SetAppLimit rounds id l else retM None
  | _ => retM None
  end.
Definition limit_of (wl : Workload) : AppLimit :=
  mkAppLimit "0" (nic_limit (InBps wl)) (nic_limit (OutBps wl)).

Lemma net_limit_sets (s : NetEngine) wl a b idx po app nic g ifname veth eth :
  (0 < rounds)%nat → 0 <= idx <= 2 → no_dot po →
  nv_Apps s !! po = Some app → Devices app ≠ ∅ → nics s = [nic] →
  plugins s !! nic_IpAddr nic = Some (Generic g) →
  limited_apart (BridgeMode s) (getGroupType (g_groups g) (pretty idx)) →
  InBps wl = of_Z a → OutBps wl = of_Z b → small a → small b →
  reachable (kernel s) app ifname veth eth →
  one_tbf (kernel s) None (lk_Index veth) → one_tbf (kernel s) (Some (NetNS app)) (lk_Index eth) →
  ∃ w', take_net_limit (IOISetLimitNet (pretty idx +:+ "." +:+ po) wl) s =
      Ok (None, set_kernel w' (set_Apps (<[po := set_Limits [limit_of wl] app]> (nv_Apps s)) s)) ∧
    limited (kernel s) w' (NetNS app) veth eth (sent_mbit a) (sent_mbit b).
Proof.
  intros Hr Hi Hpo Happ Hdev Hnics Hplug Hapart Ea Eb Ha Hb Hre H1' H2'.
  destruct (parse_nic_limit a Ha) as [Na Pa]. destruct (parse_nic_limit b Hb) as [Nb Pb].
  set (app' := set_Limits [limit_of wl] app).
  destruct (operateGALimit_limits (kernel s) app' ifname veth eth (sent_mbit a) (sent_mbit b))
    as (w' & E & L); try done.
  { by destruct Hre. }
  { by apply small_sent. }
  { by apply small_sent. }
  exists w'. split; [| done].
  unfold take_net_limit, IOISetLimitNet. change (NetIOIType =? NetIOIType) with true. cbv iota.
  rewrite (net_SetAppLimit_app _ _ _ _ app) by done. rewrite Hnics.
  unfold errE at 1, mbindE at 1, mbindM at 1 2. cbn [forE]. unfold mbindE at 1, mbindM at 1.
  rewrite (keep_limit_app _ _ _ _ app) by (simpl; by rewrite ?Ea). cbn [obind]. unfold retE, retM at 1. cbn [obind].
  unfold mbindE, mbindM. rewrite (apply_limit_apart _ _ _ _ _ g app' app' (of_Z (sent_mbit a)) (of_Z (sent_mbit b)) w');
    [| simpl; apply lookup_insert_eq | done | done | simpl; by rewrite Ea | simpl; by rewrite Eb | done].
  simpl. unfold set_kernel, set_Apps. simpl. by rewrite insert_insert_eq.
Qed.
End Enforced.

Section Claim.
Context `{!GoRange} `{!NetlinkConsts} {W D : Type} `{!Netlink W} `{!BoltDB D}.
Context `{!FloatParse} `{!FloatText} `{!NetJson} `{!NetlinkLaws W} `{!FloatParseLaws}.

(** C19: The limits of the agent are enforced. On a node with one NIC that the
    generic plugin serves, with a kernel that lists and deletes the qdiscs of
    a link and accepts a token bucket filter where there is none (hypothesis
    NetlinkReliable), and changes with each such call the qdiscs of that link
    only: take a registered pod whose name has no dot and whose devices are
    known, of a class whose pods are limited one by one, whose namespace and
    interface on both sides of it can be reached, with at most one token
    bucket filter on each of the two links. The message of IOISetLimitNet with
    rates that are whole numbers of at most 2^40 in size is accepted, and
    leaves on the pod's link of the host (for the rate in) and on the link in
    the pod (for the rate out) exactly the token bucket filter of that many
    Mbit/s, that is 125000 bytes per second each; of 1000 for -1, which means
    no limit, and of 1 for 0; none for 2^20, and the old one for another
    negative value. It touches the filters of no other link and changes
    nothing else of the engine but the limits it remembers. *)
Theorem net_limit_enforced (Hkernel : NetlinkReliable W) (rounds : nat) (s : NetEngine W D) wl a b idx po app nic g ifname veth eth :
  (0 < rounds)%nat → 0 <= idx <= 2 → no_dot po →
  nv_Apps s !! po = Some app → Devices app ≠ ∅ → nics s = [nic] →
  plugins s !! nic_IpAddr nic = Some (Generic g) →
  limited_apart (BridgeMode s) (getGroupType (g_groups g) (pretty idx)) →
  InBps wl = of_Z a → OutBps wl = of_Z b → small a → small b →
  reachable (kernel s) app ifname veth eth →
  one_tbf (kernel s) None (lk_Index veth) → one_tbf (kernel s) (Some (NetNS app)) (lk_Index eth) →
  ∃ w', take_net_limit rounds (IOISetLimitNet (pretty idx +:+ "." +:+ po) wl) s =
      Ok (None, set_kernel w' (set_Apps (<[po := set_Limits [limit_of wl] app]> (nv_Apps s)) s)) ∧
    limited (kernel s) w' (NetNS app) veth eth (sent_mbit a) (sent_mbit b).
Proof. intros. by eapply net_limit_sets. Qed.
End Claim.

(** ** Requests that panic *)

Section Panics.
Context `{!GoRange} `{!NetlinkConsts} {W D : Type} `{!Netlink W} `{!BoltDB D}.
Context `{!FloatParse} `{!FloatText} `{!NetJson}.
Variable rounds : nat.
Notation NetEngine := (NetEngine W D).

(** No default route is found in a namespace, now and for two more attempts. *)
Definition no_gateway (w : W) (ns : string) : Prop :=
  ∃ e, GetDefaultGatewayInterfaceInNetNS w ns = inr e.
Definition lost (w : W) (ns : string) : Prop :=
  no_gateway w ns ∧ no_gateway (later w) ns ∧ no_gateway (later (later w)) ns.

Lemma GetDevices_once_lost app (w : W) :
  Devices app = ∅ → no_gateway w (NetNS app) → GetDevices false app w = Ok (app, w).
Proof.
  intros Hd [e He]. unfold GetDevices. rewrite Hd, map_size_empty. simpl.
  unfold mbindM, try_devices. simpl. rewrite He. done.
Qed.
Lemma GetDevices_retry_lost app (w : W) :
  Devices app = ∅ → lost w (NetNS app) → GetDevices true app w = Crash NilDeref.
Proof.
  intros Hd ([e0 E0] & [e1 E1] & [e2 E2]). unfold GetDevices. rewrite Hd, map_size_empty. simpl.
  unfold mbindM, try_devices, sleep, modM, retM. simpl. rewrite E0. simpl. rewrite E1. simpl. by rewrite E2.
Qed.
Lemma operateApp_lost app op nic (w : W) :
  Devices app = ∅ → lost w (NetNS app) → operateApp rounds app op nic w = Crash NilDeref.
Proof. intros Hd Hl. unfold operateApp, mbindM. by rewrite GetDevices_retry_lost. Qed.
Lemma operateGALimit_lost app a b op (w : W) :
  Devices app = ∅ → lost w (NetNS app) → operateGALimit rounds app a b op w = Crash NilDeref.
Proof. intros Hd Hl. unfold operateGALimit, mbindM. by rewrite GetDevices_retry_lost. Qed.

(** A registration that passes the checks of the request. *)
Definition complete (reg : RegisterAppInfo) : Prop :=
  ra_Group reg ≠ EmptyString ∧ ra_NetNS reg ≠ EmptyString ∧ ra_CgroupPath reg ≠ EmptyString ∧
  ra_Devices reg ≠ ∅.
Definition new_app (name : string) (reg : RegisterAppInfo) (s : NetEngine) : AppInfo :=
  mkAppInfo name (ra_Group reg) (ra_NetNS reg) (ra_CgroupPath reg) ∅ [] (Ifname (nv_option s)).
Lemma net_RegisterApp_accepts name info reg (s : NetEngine) :
  name ≠ EmptyString → info ≠ EmptyString → nv_Apps s !! name = None →
  unmarshal_register info = inl reg → complete reg →
  net_RegisterApp rounds name info s =
  errE (let* a := on_kernel (GetDevices false (new_app name reg s)) in
        let* _ := update_app name a in
        let? _ := register_nics rounds name (nics s) in
        let* a := app_at name in
        let* _ := AddAppInfo a in
        retE ()) s.
Proof.
  intros Hn Hi Ha Hu (H1' & H2' & H3' & H4'). unfold net_RegisterApp.
  destruct (String.eqb_spec name ""); [done |]. destruct (String.eqb_spec info ""); [done |]. simpl.
  rewrite decide_False by (rewrite Ha; apply is_Some_None). rewrite Hu.
  destruct (String.eqb_spec (ra_Group reg) ""); [done |]. destruct (String.eqb_spec (ra_NetNS reg) ""); [done |].
  destruct (String.eqb_spec (ra_CgroupPath reg) ""); [done |].
  destruct (Nat.eqb_spec (size (ra_Devices reg)) 0) as [E |]; [| done].
  by apply map_size_empty_inv in E.
Qed.

(** C39: A pod that cannot be reached panics the service.  On a configured NIC
    with the generic plugin: registering a pod of a shared class, when no
    default route is found in its namespace in three attempts (because it has
    none, or because the pod is gone), and unregistering a pod of another
    class whose devices were not found when it was registered, dereference the
    interface that was not found. *)
Theorem lost_pod_panics (s : NetEngine) nic rest g :
  nics s = nic :: rest → plugins s !! nic_IpAddr nic = Some (Generic g) →
  (∀ name info reg, name ≠ EmptyString → info ≠ EmptyString → nv_Apps s !! name = None →
     unmarshal_register info = inl reg → complete reg → lost (kernel s) (ra_NetNS reg) →
     separate (BridgeMode s) (getGroupType (g_groups g) (ra_Group reg)) = false →
     net_RegisterApp rounds name info s = Crash NilDeref) ∧
  (∀ id app, id ≠ EmptyString → nv_Apps s !! id = Some app → Devices app = ∅ →
     lost (kernel s) (NetNS app) →
     separate (BridgeMode s) (getGroupType (g_groups g) (app_Group app)) = true →
     net_UnRegisterApp rounds id s = Crash NilDeref).
Proof.
  intros Hn Hp. split.
  - intros name info reg Hname Hinfo Hnew Hu Hc Hl Hsep.
    rewrite (net_RegisterApp_accepts name info reg) by done. rewrite Hn.
    unfold errE, mbindE, mbindM, on_kernel at 1.
    rewrite GetDevices_once_lost by (try done; apply Hl). simpl. unfold mbindM, plugin_at, getM, with_app.
    simpl. rewrite Hp. simpl. unfold mbindM, app_at. simpl. rewrite lookup_insert_eq. simpl.
    unfold on_kernel, generic_RegisterApp. simpl. rewrite Hsep. by rewrite operateApp_lost.
  - intros id app Hid Happ Hd Hl Hsep. unfold net_UnRegisterApp. destruct (String.eqb_spec id ""); [done |].
    unfold deleteAppInfo. rewrite Happ, Hn. unfold errE, mbindE, mbindM. simpl.
    unfold mbindM, plugin_at, getM, with_app. simpl. rewrite Hp. simpl. unfold mbindM, app_at.
    rewrite Happ. simpl. unfold on_kernel, generic_UnRegisterApp. rewrite Hsep. by rewrite operateGALimit_lost.
Qed.

(** A limit for a whole class that is limited pod by pod panics the service:
    the missing app is dereferenced. *)
Theorem group_limit_panics (s : NetEngine) nic rest g group l a b :
  nics s = nic :: rest → plugins s !! nic_IpAddr nic = Some (Generic g) →
  group ≠ EmptyString → str_split dot group = [group] → nv_Apps s !! EmptyString = None →
  findGroup group s = true → lmt_In l ≠ EmptyString → lmt_Out l = EmptyString →
  parse_limit (lmt_In l) = inl a → parse_limit (lmt_Out l) = inl b →
  limited_apart (BridgeMode s) (getGroupType (g_groups g) group) →
  getGroupType (g_groups g) group ≠ GROUP_SEPARATE_LAZY →
  net_SetAppLimit rounds group [l] s = Crash NilDeref.
Proof.
  intros Hn Hp Hg Hsp Happ Hf Hin Hout Ea Eb [Ht Hs] Hlazy. unfold net_SetAppLimit.
  destruct (String.eqb_spec group ""); [done |]. unfold split_id. rewrite Hsp.
  rewrite bool_decide_false by (rewrite Happ; apply is_Some_None). rewrite Hf, Hn. cbn [negb andb orb].
  unfold errE, mbindE, mbindM. cbn [forE]. unfold mbindE, mbindM, keep_limit.
  destruct (String.eqb_spec (lmt_In l) ""); [done |]. rewrite Hout. simpl.
  unfold mbindE, mbindM, apply_limit, mbindM, plugin_at, getM, liftM. rewrite Hp. simpl.
  unfold mbindM, on_kernel, generic_SetLimit. simpl. rewrite Hs, Hout. rewrite Hout in Eb. rewrite Ea, Eb.
  destruct (Z.eqb_spec (getGroupType (g_groups g) group) (-1)); [lia |].
  destruct (Z.eqb_spec (getGroupType (g_groups g) group) GROUP_SEPARATE_LAZY); [done |]. simpl.
  by rewrite !andb_false_r.
Qed.
End Panics.
