(* ===== verification/NetStoreFacts.v ===== *)
(** * The store of the network engine

    What is stored of the apps is exactly what was acknowledged, under every
    sequence of requests and rounds that return, and a restart finds it. *)

From S2P Require Export NetServiceFacts DiskServiceFacts.
From S2P Require Import NetTcFacts NetService.

(** JSON reads back what it wrote. *)
Class NetJsonLaws `{!NetJson} : Prop :=
  unmarshal_marshal_net_app : ∀ a, unmarshal_app (marshal_app a) = inl a.

(** What of an app does not change: neither its devices nor its limits. *)
Definition attributes : Type := string * string * string * string * string.
Definition attrs (a : AppInfo) : attributes := (AppName a, app_Group a, NetNS a, CgroupPath a, IfbName a).
Definition net_apps_path : list string := ["NET"; "APPS"].
Definition net_tables : list string := ["APPS"; "GROUPS"; "GROUPLIMIT"; "NICS"; "CNIS"].

Section Store.
Context `{!GoRange} `{!NetlinkConsts} {W D : Type} `{!Netlink W} `{!NodeTools W} `{!BoltDB D}.
Context `{!FloatParse} `{!FloatText} `{!NetJson}.
Context `{!BoltLaws D} `{!BoltReliable D} `{!NetJsonLaws}.
Variable rounds : nat.
Notation NetEngine := (NetEngine W D).
Implicit Types s : NetEngine.

(** ** Steps that leave the apps alone *)

Record same_apps s s' : Prop := {
  sa_buckets : ∀ q, has_bucket (nv_db s') q = has_bucket (nv_db s) q;
  sa_store : bucket_pairs (nv_db s') net_apps_path = bucket_pairs (nv_db s) net_apps_path;
  sa_apps : attrs <$> nv_Apps s' = attrs <$> nv_Apps s;
  sa_option : nv_option s' = nv_option s
}.
Lemma same_apps_refl s : same_apps s s.
Proof. by split. Qed.
Lemma same_apps_trans s1 s2 s3 : same_apps s1 s2 → same_apps s2 s3 → same_apps s1 s3.
Proof. intros [A1 A2 A3 A4] [B1 B2 B3 B4]. split; congruence. Qed.

Definition keeps {A} (m : GoM NetEngine A) : Prop :=
  ∀ s a s', m s = Ok (a, s') → same_apps s s'.
Lemma keeps_bind {A B} (m : GoM NetEngine A) (f : A → GoM NetEngine B) :
  keeps m → (∀ a, keeps (f a)) → keeps (mbindM m f).
Proof.
  intros Hm Hf s b s'. unfold mbindM. destruct (m s) as [[a s1] |] eqn:E; [| done]. simpl. intros E'.
  eapply same_apps_trans; [by eapply Hm | by eapply Hf].
Qed.
Lemma keeps_mod f : (∀ s, same_apps s (f s)) → keeps (modM f).
Proof. intros Hf s a s' [= <- <-]. apply Hf. Qed.
Lemma keeps_ret {A} (a : A) : keeps (retM a).
Proof. intros s b s' [= <- <-]. apply same_apps_refl. Qed.
Lemma keeps_get {A} (f : NetEngine → A) : keeps (getM f).
Proof. intros s b s' [= <- <-]. apply same_apps_refl. Qed.
Lemma keeps_ask {A} (f : NetEngine → A + error) : keeps (askE f).
Proof. intros s b s' [= <- <-]. apply same_apps_refl. Qed.
Lemma keeps_lift {A} (o : outcome A) : keeps (liftM o).
Proof. intros s b s'. unfold liftM. destruct o; [| done]. intros [= <- <-]. apply same_apps_refl. Qed.
Lemma keeps_bindE {A B} (m : GoM NetEngine (A + error)) (f : A → GoM NetEngine (B + error)) :
  keeps m → (∀ a, keeps (f a)) → keeps (mbindE m f).
Proof. intros Hm Hf. apply keeps_bind; [done |]. intros [a | e]; [apply Hf | apply keeps_ret]. Qed.
Lemma keeps_errE (m : GoM NetEngine (() + error)) : keeps m → keeps (errE m).
Proof. intros Hm. apply keeps_bind; [done |]. intros. apply keeps_ret. Qed.
Lemma keeps_forE {A} (l : list A) (body : A → GoM _ (() + error)) : (∀ x, keeps (body x)) → keeps (forE l body).
Proof.
  intros Hb. induction l as [| x l IH]; [apply keeps_ret |]. by apply keeps_bindE.
Qed.
Lemma keeps_kernel {A} (m : GoM W A) : keeps (on_kernel m).
Proof. intros s a s'. unfold on_kernel. destruct (m (kernel s)) as [[? ?] |]; [| done]. by intros [= <- <-]. Qed.

(** ** The table of apps is written by registration only *)

Lemma keeps_save what table key value p :
  table_path table = Some p → p ≠ net_apps_path → keeps (persist_save what table key value).
Proof.
  intros Ht Hp s a s'. unfold persist_save. destruct (db_Save table key value (nv_db s)) as [[d err] |] eqn:E; [| done].
  simpl. intros [= <- <-]. destruct err as [e |].
  - apply db_Save_fail in E as ->. by split.
  - destruct (db_Save_spec _ _ _ _ _ _ Ht E) as [E1 E2]. split; simpl; try done.
    by rewrite E2, decide_False.
Qed.
Lemma keeps_load table key : keeps (persist_load table key).
Proof.
  intros s a s'. unfold persist_load. destruct (db_Load table key (nv_db s)) as [[m err] |]; [| done].
  simpl. intros [= <- <-]. apply same_apps_refl.
Qed.
Lemma keeps_first_cni : keeps first_cni.
Proof. intros s a s'. unfold first_cni. destruct (cnis s); [done |]. intros [= <- <-]. apply same_apps_refl. Qed.
Lemma keeps_set_first_cni c : keeps (set_first_cni c).
Proof. intros s a s'. unfold set_first_cni. destruct (cnis s); [done |]. by intros [= <- <-]. Qed.
Lemma keeps_app_at id : keeps (app_at id).
Proof.
  intros s a s'. unfold app_at. destruct (nv_Apps s !! id); [| done]. intros [= <- <-]. apply same_apps_refl.
Qed.

(** Replacing an app by one with its attributes. *)
Lemma same_apps_update s w id a a' :
  nv_Apps s !! id = Some a → attrs a' = attrs a →
  same_apps s (set_Apps (<[id := a']> (nv_Apps s)) (set_kernel w s)).
Proof.
  intros Ha E. split; simpl; try done. rewrite fmap_insert, E. apply insert_id. by rewrite lookup_fmap, Ha.
Qed.
Lemma keeps_with_app {R} id (op : bool → AppInfo → GoM W (AppInfo * R)) :
  (∀ b a w a' r w', op b a w = Ok ((a', r), w') → attrs a' = attrs a) → keeps (with_app id op).
Proof.
  intros Hop s r s'. unfold with_app, mbindM, app_at, getM. destruct (nv_Apps s !! id) as [a |] eqn:Ha; [| done].
  simpl. unfold on_kernel. destruct (op (BridgeMode s) a (kernel s)) as [[[a' r'] w'] |] eqn:E; [| done].
  simpl. intros [= <- <-]. apply (same_apps_update s w' id a); [done | by eapply Hop].
Qed.

(** Plugins change the devices of an app only. *)
Lemma GetDevices_attrs retry app (w : W) app' w' :
  GetDevices retry app w = Ok (app', w') → attrs app' = attrs app.
Proof.
  unfold GetDevices. destruct (negb _); [by intros [= <- _] |]. unfold mbindM at 1.
  destruct (for_rangeM _ _ _ w) as [[r w1] |]; [| done]. simpl. intros [= <- _].
  by destruct r as [n | [[n v] |]].
Qed.
Lemma operateApp_attrs app op nic (w : W) app' e w' :
  operateApp rounds app op nic w = Ok ((app', e), w') → attrs app' = attrs app.
Proof.
  unfold operateApp, mbindM. destruct (GetDevices true app w) as [[a w1] |] eqn:E; [| done]. simpl.
  apply GetDevices_attrs in E. destruct (errE _ _) as [[? ?] |]; [| done]. simpl. by intros [= <- _ _].
Qed.
Lemma operateGALimit_attrs app a b op (w : W) app' e w' :
  operateGALimit rounds app a b op w = Ok ((app', e), w') → attrs app' = attrs app.
Proof.
  unfold operateGALimit, mbindM. destruct (GetDevices true app w) as [[a1 w1] |] eqn:E; [| done]. simpl.
  apply GetDevices_attrs in E. destruct (errE _ _) as [[? ?] |]; [| done]. simpl. by intros [= <- _ _].
Qed.
Lemma err_attrs (m : GoM W (option error)) (app : AppInfo) (w : W) app' e w' :
  mbindM m (λ err, retM (app, err)) w = Ok ((app', e), w') → app' = app.
Proof. unfold mbindM. destruct (m w) as [[? ?] |]; [| done]. by intros [= <- _ _]. Qed.
Lemma plugin_RegisterApp_attrs p bridge app (w : W) app' e w' :
  plugin_RegisterApp rounds bridge p app w = Ok ((app', e), w') → attrs app' = attrs app.
Proof.
  destruct p as [g | a]; simpl.
  - unfold generic_RegisterApp. destruct (separate _ _); [by intros [= <- _ _] | apply operateApp_attrs].
  - unfold adq_RegisterApp. by intros ->%err_attrs.
Qed.
Lemma plugin_UnRegisterApp_attrs p bridge app (w : W) app' e w' :
  plugin_UnRegisterApp rounds bridge p app w = Ok ((app', e), w') → attrs app' = attrs app.
Proof.
  destruct p as [g | a]; simpl.
  - unfold generic_UnRegisterApp. destruct (separate _ _); [apply operateGALimit_attrs | apply operateApp_attrs].
  - unfold adq_UnRegisterApp. by intros ->%err_attrs.
Qed.
Lemma plugin_SetLimit_attrs p bridge group app l (w : W) app' e w' :
  plugin_SetLimit rounds bridge p group (Some app) l w = Ok ((app', e), w') →
  attrs (default app app') = attrs app.
Proof.
  destruct p as [g | a]; simpl.
  - unfold generic_SetLimit. destruct (_ || _ || _); [by intros [= <- _ _] |].
    destruct (parse_limit _); [| by intros [= <- _ _]]. destruct (parse_limit _); [| by intros [= <- _ _]].
    destruct (_ || _).
    { unfold mbindM at 1. destruct (errE _ _) as [[? ?] |]; [| done]. by intros [= <- _ _]. }
    destruct (_ || _ || _); [| by intros [= <- _ _]]. simpl. unfold mbindM, liftM. simpl.
    destruct (operateGALimit _ _ _ _ _ _) as [[[a1 e1] w1] |] eqn:E; [| done]. simpl.
    intros [= <- _ _]. by apply operateGALimit_attrs in E.
  - unfold mbindM. destruct (errE _ _) as [[? ?] |]; [| done]. by intros [= <- _ _].
Qed.

(** ** Requests *)

Local Ltac keep :=
  repeat lazymatch goal with
  | |- keeps (retM _) => apply keeps_ret
  | |- keeps (retE _) => apply keeps_ret
  | |- keeps (failE _) => apply keeps_ret
  | |- keeps (getM _) => apply keeps_get
  | |- keeps (plugin_at _) => apply keeps_get
  | |- keeps (askE _) => apply keeps_ask
  | |- keeps (liftM _) => apply keeps_lift
  | |- keeps (on_kernel _) => apply keeps_kernel
  | |- keeps (app_at _) => apply keeps_app_at
  | |- keeps first_cni => apply keeps_first_cni
  | |- keeps (set_first_cni _) => apply keeps_set_first_cni
  | |- keeps (persist_load _ _) => apply keeps_load
  | |- keeps (errE _) => apply keeps_errE
  | |- keeps (mbindE _ _) => apply keeps_bindE; [| intros ?]
  | |- keeps (mbindM _ _) => apply keeps_bind; [| intros ?]
  | |- keeps (forE _ _) => apply keeps_forE; intros ?
  | |- keeps (modM _) => apply keeps_mod; intros ?; by split
  | |- keeps (AddGroup _) => unfold AddGroup
  | |- keeps (AddGroupLimit _ _) => unfold AddGroupLimit
  | |- keeps (AddGroupSettable _) => unfold AddGroupSettable
  | |- keeps (AddNic _) => unfold AddNic
  | |- keeps (AddCni _) => unfold AddCni
  | |- keeps (AddServerInfo _) => unfold AddServerInfo
  | |- keeps (SaveInterval _) => unfold SaveInterval
  | |- keeps (install _ _ _ _) => unfold install
  | |- keeps (persist_save _ _ _ _) => eapply keeps_save; [reflexivity | discriminate]
  | |- keeps (match ?x with _ => _ end) => destruct x
  end.
Lemma keeps_unregister_nics id l : keeps (unregister_nics rounds id l).
Proof.
  induction l as [| nic l IH]; simpl; keep; [| done].
  apply keeps_with_app. intros *. apply plugin_UnRegisterApp_attrs.
Qed.
Lemma keeps_register_nics id l : keeps (register_nics rounds id l).
Proof.
  induction l as [| nic l IH]; simpl; keep; [| done].
  apply keeps_with_app. intros *. apply plugin_RegisterApp_attrs.
Qed.
Lemma keeps_keep_limit group app appOk l : keeps (keep_limit group app appOk l).
Proof.
  unfold keep_limit. destruct (_ && _); [keep |]. destruct appOk; [| keep].
  intros s a s'. unfold mbindM at 1, app_at. destruct (nv_Apps s !! app) as [x |] eqn:Ha; [| done]. simpl.
  unfold mbindM, update_app, modM. simpl. intros [= <- <-].
  apply (same_apps_update s (kernel s) app x (set_Limits [to_limit l] x) Ha). done.
Qed.
Lemma keeps_apply_limit group app appOk nic l : keeps (apply_limit rounds group app appOk nic l).
Proof.
  unfold apply_limit. keep. apply keeps_with_app. intros b x w a' r w'. unfold mbindM.
  destruct (plugin_SetLimit _ _ _ _ _ _ _) as [[[a1 e1] w1] |] eqn:E; [| done]. simpl. intros [= <- _ _].
  by eapply plugin_SetLimit_attrs.
Qed.
Lemma keeps_SetAppLimit id l : keeps (net_SetAppLimit rounds id l).
Proof.
  intros s. unfold net_SetAppLimit. destruct (String.eqb id ""); [by intros ? ? [= <- <-]; apply same_apps_refl |].
  destruct (split_id id) as [[group app] |]; [| by intros ? ? [= <- <-]; apply same_apps_refl].
  destruct (_ && _); [by intros ? ? [= <- <-]; apply same_apps_refl |].
  destruct (_ || _); [| by intros ? ? [= <- <-]; apply same_apps_refl].
  intros a s'. match goal with |- ?m s = _ → _ => enough (Hk : keeps m) by apply Hk end.
  apply keeps_errE, keeps_bindE; [apply keeps_forE; intros; apply keeps_keep_limit |].
  intros _. do 2 (apply keeps_forE; intros). apply keeps_apply_limit.
Qed.

Lemma keeps_setup_nics l i t : keeps (setup_nics i l t).
Proof.
  revert i t. induction l as [| nic l IH]; intros i t; simpl; keep. apply IH.
Qed.
Lemma keeps_configure_nics groups l : keeps (configure_nics groups l).
Proof. induction l as [| nic l IH]; simpl; keep. apply IH. Qed.
Lemma keeps_add_groups groups : keeps (add_groups groups).
Proof. induction groups as [| g l IH]; simpl; keep. apply IH. Qed.
Lemma keeps_Configure t c : keeps (net_Configure t c).
Proof.
  unfold net_Configure, updateConfig.
  keep; first [apply keeps_add_groups | apply keeps_setup_nics | apply keeps_configure_nics].
Qed.
Lemma keeps_GetServiceInfo t r : keeps (GetServiceInfo t r).
Proof.
  intros s a s'. unfold GetServiceInfo. repeat case_match; intros [= <- <-]; by split.
Qed.
Lemma keeps_getCurBandwidth prev curr apps res : keeps (getCurBandwidth rounds prev curr apps res).
Proof.
  revert res. induction apps as [| [id app] apps IH]; intros res; simpl; keep; [| apply IH].
  intros s a s'. unfold app_veths. destruct (podsVethCache s !! id); [by intros [= <- <-] |].
  match goal with |- ?m s = _ → _ => enough (Hk : keeps m) by apply Hk end. keep.
Qed.
Lemma keeps_subscribe snd t : keeps (subscribe_round rounds snd t).
Proof.
  intros s a s'. unfold subscribe_round. destruct (_ || _); [by intros [= <- <-] |].
  destruct (getSndRcv (kernel s)) as [[curr | e] |]; [| by intros [= <- <-] | done]. simpl.
  match goal with |- ?m s = _ → _ => enough (Hk : keeps m) by apply Hk end.
  keep. apply keeps_getCurBandwidth.
Qed.

(** ** The invariant *)

(** What was acknowledged is what is stored, and is registered. *)
Record net_ok s (ack : gmap string attributes) : Prop := {
  no_root : has_bucket (nv_db s) ["NET"] = true;
  no_tables : ∀ t, t ∈ net_tables → has_bucket (nv_db s) ["NET"; t] = true;
  no_stored : ∃ apps, bucket_pairs (nv_db s) net_apps_path = marshal_app <$> apps ∧ attrs <$> apps = ack;
  no_names : ∀ k a, (attrs <$> nv_Apps s) !! k = Some a → a.1.1.1.1 = k;
  no_kept : ack ⊆ attrs <$> nv_Apps s
}.
Lemma net_ok_same s s' ack : same_apps s s' → net_ok s ack → net_ok s' ack.
Proof.
  intros [S1 S2 S3 S4] [O1 O2 O3 O4 O5]. split; rewrite ?S1, ?S2, ?S3; try done.
  intros t Ht. rewrite S1. by apply O2.
Qed.
Lemma net_ok_fresh s w name a ack :
  net_ok s ack → nv_Apps s !! name = None → AppName a = name →
  net_ok (set_Apps (<[name := a]> (nv_Apps s)) (set_kernel w s)) ack.
Proof.
  intros [O1 O2 O3 O4 O5] Hn Ha. split; simpl; try done; rewrite fmap_insert.
  - intros k b [[-> <-] | [_ Hk]]%lookup_insert_Some; [done | by apply O4].
  - etransitivity; [exact O5 |]. apply insert_subseteq. by rewrite lookup_fmap, Hn.
Qed.
Lemma net_ok_add s name a ack e s' :
  net_ok s ack → nv_Apps s !! name = Some a → name ≠ EmptyString → AddAppInfo a s = Ok (e, s') →
  net_ok s' (<[name := attrs a]> ack).
Proof.
  intros [O1 O2 (apps & Ep & Ea) O4 O5] Hn Hne. unfold AddAppInfo, persist_save.
  assert (En : AppName a = name).
  { by apply (O4 name (attrs a)); rewrite lookup_fmap, Hn. } rewrite En.
  destruct (db_Save_ok (net_table "APPS") name (marshal_app a) net_apps_path (nv_db s)) as [d E];
    [done | apply O2; set_solver | done |].
  rewrite E. simpl. intros [= <- <-]. destruct (db_Save_spec (net_table "APPS") _ _ net_apps_path _ _ eq_refl E) as [E1 E2].
  split; simpl; try done.
  - by rewrite E1.
  - intros t Ht. rewrite E1. by apply O2.
  - exists (<[name := a]> apps). rewrite E2, decide_True, Ep, !fmap_insert, Ea by done. done.
  - apply insert_subseteq_l; [| done]. by rewrite lookup_fmap, Hn.
Qed.

(** ** Registration and deletion *)

Lemma net_RegisterApp_inv name info s err s' :
  net_RegisterApp rounds name info s = Ok (err, s') →
  (is_Some err ∧ s' = s) ∨
  ∃ reg, name ≠ EmptyString ∧ nv_Apps s !! name = None ∧ unmarshal_register info = inl reg ∧
    errE (let* a := on_kernel (GetDevices false (new_app name reg s)) in
          let* _ := update_app name a in
          let? _ := register_nics rounds name (nics s) in
          let* a := app_at name in
          let* _ := AddAppInfo a in
          retE ()) s = Ok (err, s').
Proof.
  unfold net_RegisterApp. destruct (String.eqb_spec name ""); simpl; [by intros [= <- <-]; eauto |].
  destruct (String.eqb info ""); [by intros [= <- <-]; eauto |].
  case_decide as Hreg; [by intros [= <- <-]; eauto |].
  destruct (unmarshal_register info) as [reg | e] eqn:Eu; [| by intros [= <- <-]; eauto].
  destruct (_ || _); [by intros [= <- <-]; eauto |]. intros E. right. exists reg.
  rewrite eq_None_not_Some. auto.
Qed.
Definition acknowledge (err : option error) (name info : string) s (ack : gmap string attributes)
    : gmap string attributes :=
  match err, unmarshal_register info with
  | None, inl reg => <[name := attrs (new_app name reg s)]> ack
  | _, _ => ack
  end.
Lemma net_RegisterApp_ok name info s err s' ack :
  net_RegisterApp rounds name info s = Ok (err, s') → net_ok s ack →
  net_ok s' (acknowledge err name info s ack).
Proof.
  intros [[[e ->] ->] | (reg & Hne & Hnew & Hu & E)]%net_RegisterApp_inv Hok; [done |].
  unfold acknowledge. rewrite Hu. revert E. unfold errE, mbindM at 1 2, on_kernel.
  destruct (GetDevices false (new_app name reg s) (kernel s)) as [[a w] |] eqn:Eg; [| done].
  apply GetDevices_attrs in Eg. cbn [obind]. unfold mbindM at 1, update_app, modM. cbn [obind].
  set (s1 := set_Apps _ _).
  assert (Hok1 : net_ok s1 ack). { apply (net_ok_fresh s w); [done | done |]. by injection Eg. }
  unfold mbindE, mbindM at 1. destruct (register_nics rounds name (nics s) s1) as [[r s2] |] eqn:Er; [| done].
  apply keeps_register_nics in Er as Hs. pose proof (net_ok_same _ _ _ Hs Hok1) as Hok2. cbn [obind].
  destruct r as [[] | e]; [| by intros [= <- <-]]. unfold mbindM, app_at.
  destruct (nv_Apps s2 !! name) as [a2 |] eqn:E2; [| done]. cbn [deref obind].
  destruct (AddAppInfo a2 s2) as [[e3 s3] |] eqn:E3; [| done]. cbn [obind]. intros [= <- <-].
  assert (Ea : attrs a2 = attrs a).
  { pose proof (f_equal (.!! name) (sa_apps _ _ Hs)) as El. cbv beta in El.
    rewrite !lookup_fmap, E2 in El. subst s1. cbn [nv_Apps set_Apps] in El.
    rewrite lookup_insert_eq in El. by apply (inj Some) in El. }
  rewrite <- Eg, <- Ea. by eapply net_ok_add.
Qed.

Lemma net_deleteAppInfo_ok id s err s' ack :
  deleteAppInfo rounds id s = Ok (err, s') → net_ok s ack →
  net_ok s' (match err with None => delete id ack | Some _ => ack end) ∧
  dom (nv_Apps s') = match err with None => dom (nv_Apps s) ∖ {[id]} | Some _ => dom (nv_Apps s) end.
Proof.
  intros E Hok. revert E. unfold deleteAppInfo. destruct (nv_Apps s !! id) as [a |] eqn:Ha;
    [| by intros [= <- <-]].
  unfold errE, mbindE, mbindM at 1 2. destruct (unregister_nics rounds id (nics s) s) as [[r s1] |] eqn:Er; [| done].
  apply keeps_unregister_nics in Er as Hs. pose proof (net_ok_same _ _ _ Hs Hok) as Hok1. cbn [obind].
  assert (Hdom : dom (nv_Apps s1) = dom (nv_Apps s)).
  { rewrite <- (dom_fmap_L attrs (nv_Apps s1)), (sa_apps _ _ Hs). apply dom_fmap_L. }
  destruct r as [[] | e]; [| by intros [= <- <-]].
  unfold mbindM, modM, app_at, DeleteAppInfo. simpl.
  destruct (nv_Apps s1 !! id) as [a1 |] eqn:Ha1; [| done]. simpl.
  destruct Hok1 as [O1 O2 (apps & Ep & Ea) O4 O5].
  assert (En : AppName a1 = id) by (by apply (O4 id (attrs a1)); rewrite lookup_fmap, Ha1). rewrite En.
  destruct (db_Delete_ok (net_table "APPS") id net_apps_path (nv_db s1)) as [d E]; [done | apply O2; set_solver |].
  rewrite E. simpl. intros [= <- <-]. destruct (db_Delete_spec (net_table "APPS") _ net_apps_path _ _ eq_refl E) as [E1 E2].
  split; [| simpl; by rewrite dom_delete_L, Hdom]. split; simpl.
  - by rewrite E1.
  - intros t Ht. rewrite E1. by apply O2.
  - exists (delete id apps). by rewrite E2, decide_True, Ep, !fmap_delete, Ea.
  - intros k b. rewrite fmap_delete. intros [_ Hk]%lookup_delete_Some. by apply O4.
  - rewrite fmap_delete. by apply delete_mono.
Qed.

(** ** Rounds that clear the apps of deleted pods *)

Definition still (s : NetEngine) (ack : gmap string attributes) : gmap string attributes :=
  filter (λ kv, kv.1 ∈ dom (nv_Apps s)) ack.
Lemma ok_still s ack : net_ok s ack → still s ack = ack.
Proof.
  intros Hok. apply map_filter_id. intros k a Hk. simpl.
  rewrite <- (dom_fmap_L attrs). apply elem_of_dom. exists a. eapply lookup_weaken; [exact Hk | apply Hok].
Qed.
Lemma still_delete s' s id ack :
  net_ok s ack → dom (nv_Apps s') = dom (nv_Apps s) ∖ {[id]} → still s' ack = delete id ack.
Proof.
  intros Hok Hd. rewrite <- (ok_still s ack Hok) at 2. apply map_eq. intros k.
  unfold still. destruct (decide (k = id)) as [-> | Hne].
  - rewrite lookup_delete_eq. apply map_lookup_filter_None. right. intros a _. simpl. set_solver.
  - rewrite lookup_delete_ne by done. destruct (ack !! k) as [a |] eqn:Ha.
    + rewrite !map_lookup_filter, Ha. simpl. case_guard as G1; case_guard as G2; set_solver.
    + by rewrite !map_lookup_filter, Ha.
Qed.
Lemma still_still s1 s2 ack :
  dom (nv_Apps s2) ⊆ dom (nv_Apps s1) → still s2 (still s1 ack) = still s2 ack.
Proof.
  intros Hd. unfold still. rewrite map_filter_filter. apply map_filter_ext. intros k a _. simpl. set_solver.
Qed.
Lemma check_apps l s s' ack :
  foldM (λ s kv, match StatCgroup (kernel s) (CgroupPath kv.2) with
                 | Absent => let! '(_, s) := deleteAppInfo rounds kv.1 s in Ok s
                 | _ => Ok s
                 end) s l = Ok s' → net_ok s ack →
  net_ok s' (still s' ack) ∧ dom (nv_Apps s') ⊆ dom (nv_Apps s).
Proof.
  revert s ack. induction l as [| kv l IH]; intros s ack; simpl.
  { intros [= <-] Hok. by rewrite (ok_still _ _ Hok). }
  destruct (StatCgroup (kernel s) _); simpl; try apply IH.
  destruct (deleteAppInfo rounds kv.1 s) as [[err s1] |] eqn:E; [| done]. simpl. intros El Hok.
  destruct (net_deleteAppInfo_ok _ _ _ _ _ E Hok) as [Hok1 Hd1]. destruct (IH _ _ El Hok1) as [Hok2 Hd2].
  destruct err as [e |].
  - rewrite Hd1 in Hd2. done.
  - split; [| set_solver]. rewrite <- (still_delete s1 s kv.1 ack Hok Hd1) in Hok2.
    by rewrite still_still in Hok2.
Qed.
Lemma check_pods_ok s s' ack : check_pods rounds s = Ok s' → net_ok s ack → net_ok s' (still s' ack).
Proof. intros E Hok. by eapply check_apps. Qed.

(** ** Restart *)

Lemma read_values_marshal l :
  read_values unmarshal_app (prod_map id marshal_app <$> l) = inl l.
Proof.
  induction l as [| [k a] l IH]; [done |]. rewrite fmap_cons. cbn [read_values prod_map fst snd].
  by rewrite unmarshal_marshal_net_app, IH.
Qed.
Lemma GetAllAppInfos_reads s apps :
  has_bucket (nv_db s) net_apps_path = true →
  bucket_pairs (nv_db s) net_apps_path = marshal_app <$> apps →
  GetAllAppInfos "" s = Ok (inl apps, s).
Proof.
  intros Hb Ep. unfold GetAllAppInfos, load_values, mbindE, mbindM, persist_load, db_Load, askE.
  change (table_path (net_table "APPS")) with (Some net_apps_path). simpl. rewrite Hb, Ep. simpl.
  pose proof (range_perm (marshal_app <$> apps)) as Hp. rewrite map_to_list_fmap in Hp.
  apply Permutation_map_inv in Hp as (l & El & Hl). rewrite El.
  change (map (prod_map id marshal_app) l) with (prod_map id marshal_app <$> l).
  rewrite read_values_marshal. simpl. by rewrite <- (list_to_map_flip _ _ Hl).
Qed.
Lemma load_values_total {A} table key (f : string → A + error) p s :
  table_path table = Some p → has_bucket (nv_db s) p = true → ∃ r, load_values table key f s = Ok (r, s).
Proof.
  intros Ht Hb. unfold load_values, mbindE, mbindM, persist_load, db_Load. rewrite Ht, Hb. simpl.
  destruct (String.eqb key ""); [simpl; eauto |]. destruct (bucket_pairs (nv_db s) p !! key); [| simpl; eauto].
  destruct (String.eqb _ ""); simpl; eauto.
Qed.

(** A start that has read [apps] so far. *)
Record booting (opt : Option_) (d : D) (apps : gmap string AppInfo) s : Prop := {
  bo_option : nv_option s = opt;
  bo_db : nv_db s = d;
  bo_apps : nv_Apps s = apps;
  bo_cnis : cnis s ≠ []
}.
Section Boot.
Variables (opt : Option_) (d : D) (apps : gmap string AppInfo).
Hypothesis Hroot : has_bucket d ["NET"] = true.
Hypothesis Htables : ∀ t, t ∈ net_tables → has_bucket d ["NET"; t] = true.
Hypothesis Hpairs : bucket_pairs d net_apps_path = marshal_app <$> apps.

Definition boots {A} (m : GoM NetEngine A) : Prop := ∀ s, booting opt d apps s →
  ∃ a s', m s = Ok (a, s') ∧ booting opt d apps s'.
Lemma boots_bind {A B} (m : GoM NetEngine A) (f : A → GoM NetEngine B) :
  boots m → (∀ a, boots (f a)) → boots (mbindM m f).
Proof.
  intros Hm Hf s Hs. unfold mbindM. destruct (Hm s Hs) as (a & s1 & -> & Hs1). simpl. by apply Hf.
Qed.
Lemma boots_get {A} (f : NetEngine → A) : boots (getM f).
Proof. intros s Hs. unfold getM. eauto. Qed.
Lemma boots_mod f : (∀ s, booting opt d apps s → booting opt d apps (f s)) → boots (modM f).
Proof. intros Hf s Hs. unfold modM. eauto. Qed.
Lemma boots_reload {A} (m : GoM NetEngine (A + error)) (set : A → NetEngine → NetEngine) :
  (∀ s, booting opt d apps s → ∃ r, m s = Ok (r, s)) →
  (∀ v s, booting opt d apps s → booting opt d apps (set v s)) → boots (reload m set).
Proof.
  intros Hm Hset s Hs. unfold reload, mbindM. destruct (Hm s Hs) as [[v | e] ->]; simpl.
  - unfold modM. eauto.
  - unfold retM. eauto.
Qed.
Lemma boots_apps : boots (reload (GetAllAppInfos "") set_Apps).
Proof.
  intros s Hs. unfold reload, mbindM. rewrite (GetAllAppInfos_reads s apps); simpl.
  - unfold modM. eexists _, _. split; [done |]. by destruct Hs; split.
  - rewrite (bo_db _ _ _ _ Hs). apply Htables. set_solver.
  - by rewrite (bo_db _ _ _ _ Hs).
Qed.
Lemma load_mapped {A B} table key (f : string → A + error) (g : list (string * A) → B) p s :
  table_path table = Some p → has_bucket d p = true → booting opt d apps s →
  ∃ r, (let? l := load_values table key f in retE (g l)) s = Ok (r, s).
Proof.
  intros Ht Hb Hs. unfold mbindE, mbindM.
  destruct (load_values_total table key f p s Ht) as [r ->]; [by rewrite (bo_db _ _ _ _ Hs) |].
  destruct r; simpl; unfold retE, retM; eauto.
Qed.
Lemma boots_rebuild_nics l i : boots (rebuild_nics i l).
Proof.
  revert i. induction l as [| nic l IH]; intros i; simpl; [intros s Hs; unfold retM; eauto |].
  apply boots_bind.
  { intros s Hs. unfold first_cni. pose proof (bo_cnis _ _ _ _ Hs). destruct (cnis s); [done |]. eauto. }
  intros c. do 2 (apply boots_bind; [apply boots_get | intros ?]).
  apply boots_bind; [| intros; apply IH]. apply boots_mod. intros s [B1 B2 B3 B4]. by split.
Qed.
Local Ltac table t :=
  eapply load_mapped with (p := ["NET"; t]); [reflexivity | apply Htables; set_solver | assumption].
Lemma boots_rebuild : boots rebuild.
Proof.
  unfold rebuild.
  apply boots_bind; [apply boots_apps | intros _].
  apply boots_bind; [apply boots_reload; [intros s Hs; table "NICS" | intros v s []; by split] | intros _].
  apply boots_bind; [apply boots_reload; [intros s Hs; table "GROUPS" | intros v s []; by split] | intros _].
  apply boots_bind; [apply boots_reload; [intros s Hs; table "GROUPLIMIT" | intros v s []; by split] | intros _].
  apply boots_bind; [apply boots_reload; [intros s Hs; table "CNIS" | intros [| c v] s []; by split] | intros _].
  apply boots_bind; [apply boots_get | intros l]. apply boots_bind; [apply boots_rebuild_nics | intros _].
  apply boots_bind; [apply boots_mod; intros s []; by split | intros _].
  apply boots_reload; [| intros v s []; by split]. intros s Hs.
  unfold GetGroupSettable, mbindE, mbindM, persist_load, db_Load, askE.
  change (table_path "NET") with (Some ["NET"]). simpl. rewrite (bo_db _ _ _ _ Hs), Hroot. simpl.
  destruct (_ !! "GROUPSETTABLE"); [| simpl; eauto]. destruct (String.eqb _ ""); simpl; eauto.
Qed.
Lemma boots_interval : boots (reload LoadInterval set_Interval).
Proof.
  apply boots_reload; [| intros v s []; by split]. intros s Hs.
  unfold LoadInterval, mbindM, persist_load, db_Load. change (table_path "NET") with (Some ["NET"]). simpl.
  rewrite (bo_db _ _ _ _ Hs), Hroot. simpl.
  destruct (_ !! "INTERVAL"); [| simpl; unfold retM; eauto]. destruct (String.eqb _ ""); simpl; unfold retM; eauto.
Qed.
Lemma boots_start (b : bool) : boots (if b then retM () else rebuild).
Proof. destruct b; [intros s Hs; unfold retM; eauto | apply boots_rebuild]. Qed.
End Boot.

(** A new engine on a store has the apps that the store has. *)
Lemma net_Initialize_reads opt now d w apps :
  bucket_pairs d net_apps_path = marshal_app <$> apps → (∀ k a, apps !! k = Some a → AppName a = k) →
  ∃ s, net_Initialize rounds opt now false d w = Ok s ∧ nv_Apps s = apps ∧ nv_option s = opt ∧
    net_ok s (attrs <$> apps).
Proof.
  intros Hp Hn. unfold net_Initialize.
  destruct (CreateTable_ok "NET" net_tables d) as [d1 E1]. fold net_tables. rewrite E1.
  destruct (CreateTable_has _ _ _ _ E1) as [Hroot Htab].
  assert (Hp1 : bucket_pairs d1 net_apps_path = marshal_app <$> apps) by (by rewrite (CreateTable_pairs _ _ _ _ _ _ E1)).
  match goal with |- context [reload (GetAllAppInfos "") set_Apps ?s] => set (s0 := s) end.
  assert (E2 : reload (GetAllAppInfos "") set_Apps s0 = Ok ((), set_Apps apps s0)).
  { unfold reload, mbindM. by rewrite (GetAllAppInfos_reads s0 apps) by (try done; apply Htab; set_solver). }
  rewrite E2. cbn [obind].
  destruct (boots_interval opt d1 apps Hroot (set_Apps apps s0)) as (u & s2 & -> & B2); [by split |]. cbn [obind].
  destruct (load_mapped opt d1 apps "NET" "serverInfo" unmarshal_server
    (λ l, default (mkServerInfo "" 0) (last l.*2)) ["NET"] s2) as [r E3]; [done | done | done |].
  unfold GetServerInfo. rewrite E3. cbn [obind].
  match goal with |- context [(if ?b then _ else _) s2] =>
    destruct (boots_start opt d1 apps Hroot Htab Hp1 b s2 B2) as (u4 & s4 & -> & B4) end. cbn [obind].
  unfold AddServerInfo, persist_save. rewrite (bo_db _ _ _ _ B4).
  match goal with |- context [db_Save ?t ?k ?v d1] =>
    destruct (db_Save_ok t k v ["NET"] d1) as [d5 E5]; [done | done | done |] end.
  rewrite E5. cbn [obind]. eexists. split; [done |]. destruct B4 as [B41 B42 B43 B44].
  split; [done |]. split; [done |].
  destruct (db_Save_spec "NET" _ _ ["NET"] _ _ eq_refl E5) as [E6 E7]. split; simpl.
  - by rewrite E6.
  - intros t Ht. rewrite E6. by apply Htab.
  - exists apps. by rewrite E7, decide_False.
  - rewrite B43. intros k a. rewrite lookup_fmap_Some. intros (x & <- & Hx). by apply Hn.
  - by rewrite B43.
Qed.


(** ** Runs *)

Inductive net_request :=
| NetRegister (name info : string)
| NetUnRegister (id : string)
| NetLimit (id : string) (l : list BWLimit)
| NetConfigure (t conf : string)
| NetInfo (t : Z) (req : string)
| NetCheck
| NetReport (snd : option AppsBandwidth → option error)
| NetRestart (now : string).
(** A request or a round, in the world as it then is, and what has been
    acknowledged: a registration that returned OK and was not undone. *)
Definition net_serve (acc : NetEngine * gmap string attributes) (wr : W * net_request)
    : outcome (NetEngine * gmap string attributes) :=
  let '(s, ack) := acc in
  let s := set_kernel wr.1 s in
  match wr.2 with
  | NetRegister name info =>
      let! '(err, s') := net_RegisterApp rounds name info s in Ok (s', acknowledge err name info s ack)
  | NetUnRegister id =>
      let! '(err, s) := net_UnRegisterApp rounds id s in
      Ok (s, match err with None => delete id ack | Some _ => ack end)
  | NetLimit id l => let! '(_, s) := net_SetAppLimit rounds id l s in Ok (s, ack)
  | NetConfigure t conf => let! '(_, s) := net_Configure t conf s in Ok (s, ack)
  | NetInfo t req => let! '(_, s) := GetServiceInfo t req s in Ok (s, ack)
  | NetCheck => let! s := check_pods rounds s in Ok (s, still s ack)
  | NetReport snd => let! '(_, s) := subscribe_round rounds snd 2 s in Ok (s, ack)
  | NetRestart now => let! s := net_Initialize rounds (nv_option s) now false (nv_db s) wr.1 in Ok (s, ack)
  end.
Lemma net_ok_restarts opt now w s ack :
  net_ok s ack →
  ∃ s', net_Initialize rounds opt now false (nv_db s) w = Ok s' ∧ attrs <$> nv_Apps s' = ack ∧ net_ok s' ack.
Proof.
  intros [O1 O2 (apps & Ep & Ea) O4 O5].
  destruct (net_Initialize_reads opt now (nv_db s) w apps) as (s' & E & Ha & _ & Hok); [done | |].
  - intros k a Hk. apply (O4 k (attrs a)). eapply lookup_weaken; [| exact O5].
    by rewrite <- Ea, lookup_fmap, Hk.
  - exists s'. rewrite <- Ea at 1 2. by rewrite Ha.
Qed.
Lemma net_serve_ok wr s ack s' ack' :
  net_serve (s, ack) wr = Ok (s', ack') → net_ok s ack → net_ok s' ack'.
Proof.
  destruct wr as [w r]. intros E Hok.
  assert (Hw : net_ok (set_kernel w s) ack) by (eapply net_ok_same; [| exact Hok]; by split). revert E.
  destruct r as [name info | id | id l | t conf | t req | | snd | now]; simpl.
  - destruct (net_RegisterApp _ _ _ _) as [[err s1] |] eqn:E; [| done]. simpl. intros [= <- <-].
    by eapply net_RegisterApp_ok.
  - unfold net_UnRegisterApp. destruct (String.eqb id ""); [by intros [= <- <-] |].
    destruct (deleteAppInfo _ _ _) as [[err s1] |] eqn:E; [| done]. simpl. intros [= <- <-].
    by eapply net_deleteAppInfo_ok.
  - destruct (net_SetAppLimit _ _ _ _) as [[err s1] |] eqn:E; [| done]. intros [= <- <-].
    eapply net_ok_same; [by eapply keeps_SetAppLimit | done].
  - destruct (net_Configure _ _ _) as [[r s1] |] eqn:E; [| done]. intros [= <- <-].
    eapply net_ok_same; [by eapply keeps_Configure | done].
  - destruct (GetServiceInfo _ _ _) as [[r s1] |] eqn:E; [| done]. intros [= <- <-].
    eapply net_ok_same; [by eapply keeps_GetServiceInfo | done].
  - destruct (check_pods _ _) as [s1 |] eqn:E; [| done]. simpl. intros [= <- <-]. by eapply check_pods_ok.
  - destruct (subscribe_round _ _ _ _) as [[r s1] |] eqn:E; [| done]. intros [= <- <-].
    eapply net_ok_same; [by eapply keeps_subscribe | done].
  - destruct (net_ok_restarts (nv_option s) now w s ack Hok) as (s1 & -> & _ & H1'). simpl. by intros [= <- <-].
Qed.

Lemma net_run_ok reqs s0 ack0 s ack :
  foldM net_serve (s0, ack0) reqs = Ok (s, ack) → net_ok s0 ack0 → net_ok s ack.
Proof.
  revert s0 ack0. induction reqs as [| wr reqs IH]; intros s0 ack0.
  - by intros [= <- <-].
  - cbn [foldM]. destruct (net_serve (s0, ack0) wr) as [[s1 ack1] | c] eqn:E; [| discriminate].
    cbn [obind]. intros E' Hok. eapply IH; [exact E' |]. by eapply net_serve_ok.
Qed.
End Store.

(** ** The store of the network engine *)

Section Claim.
Context `{!GoRange} `{!NetlinkConsts} {W D : Type} `{!Netlink W} `{!NodeTools W} `{!BoltDB D}.
Context `{!FloatParse} `{!FloatText} `{!NetJson} `{!BoltLaws D} `{!NetJsonLaws}.

(** C14: As long as no update of the store fails (hypothesis BoltReliable: a
    registration is answered with OK even when its update fails) and store and
    JSON read back what was written, the store of the network engine holds
    what was acknowledged. From a store without apps, under every sequence of
    requests, rounds and restarts that returns, in worlds that change in any
    way: exactly the apps whose registration was answered with OK, and that
    were not removed since by an unregistration or a check of the pods, are in
    the store, with the attributes of their registration; all of them are
    registered; and a restart always returns, with exactly these apps. The
    round of checks that a start begins in a goroutine is taken to run after
    the start. *)
Theorem net_store_acknowledged (Hstore : BoltReliable D) (rounds : nat) opt now (d : D) (w0 : W) reqs s ack :
  bucket_pairs d net_apps_path = ∅ →
  (let! s0 := net_Initialize rounds opt now false d w0 in foldM (net_serve rounds) (s0, ∅) reqs) = Ok (s, ack) →
  (∃ apps, bucket_pairs (nv_db s) net_apps_path = marshal_app <$> apps ∧ attrs <$> apps = ack) ∧
  ack ⊆ attrs <$> nv_Apps s ∧
  ∀ opt' now' w, ∃ s', net_Initialize rounds opt' now' false (nv_db s) w = Ok s' ∧
    attrs <$> nv_Apps s' = ack.
Proof.
  intros Hd. destruct (net_Initialize_reads rounds opt now d w0 ∅) as (s0 & -> & _ & _ & Hok0).
  { by rewrite Hd, fmap_empty. }
  { intros k a Hk. by rewrite lookup_empty in Hk. }
  rewrite fmap_empty in Hok0. simpl. revert Hok0. generalize (∅ : gmap string attributes). revert s0.
  intros s0 ack0 Hok0 E. pose proof (net_run_ok rounds _ _ _ _ _ E Hok0) as Hok. split; [apply Hok |]. split; [apply Hok |].
  intros opt' now' w. destruct (net_ok_restarts rounds opt' now' w s ack Hok) as (s' & E' & Ea & _). eauto.
Qed.
End Claim.
