(* ===== verification/NetServiceExamples.v ===== *)
(** * Runs of the network engine of the I/O service

    First concrete instances of what the engine uses: a kernel kept in memory
    (links, qdiscs, filters, namespaces and routes), decimal numbers, a text
    encoding in the place of JSON; then runs of the engine on them. *)

From S2P Require Export ServiceFake NetStoreFacts.
From S2P Require Import NetTcFacts NetService.

(** ** Numbers as text *)

Lemma digit_pretty_char n : (n < 10)%N → digit (pretty_N_char n) = Some (Z.of_N n).
Proof.
  intros Hn. assert (Hc : n ∈ [0; 1; 2; 3; 4; 5; 6; 7; 8; 9]%N).
  { rewrite !elem_of_cons. lia. }
  repeat (apply elem_of_cons in Hc as [-> | Hc]; [reflexivity |]). by apply elem_of_nil in Hc.
Qed.
Lemma digits_pretty_go x : ∀ s, ∃ c, ∀ acc, digits (pretty_N_go x s) acc = digits s (acc * c + Z.of_N x).
Proof.
  induction (N.lt_wf_0 x) as [x _ IH]. intros s. destruct (decide (x = 0%N)) as [-> | Hx].
  { exists 1. intros acc. rewrite pretty_N_go_0. f_equal. lia. }
  rewrite pretty_N_go_step by lia.
  destruct (IH (x `div` 10)%N ltac:(apply N.div_lt; lia) (String (pretty_N_char (x `mod` 10)) s)) as [c Hc].
  exists (10 * c). intros acc. rewrite Hc. cbn [digits].
  rewrite digit_pretty_char by (apply N.mod_lt; lia). f_equal.
  rewrite N2Z.inj_div, N2Z.inj_mod. change (Z.of_N 10) with 10.
  pose proof (Z.div_mod (Z.of_N x) 10 ltac:(lia)). lia.
Qed.
Lemma digits_pretty (p : positive) : digits (pretty p) 0 = Some (Zpos p).
Proof.
  change (pretty p) with (pretty_N_go (Npos p) EmptyString).
  destruct (digits_pretty_go (Npos p) EmptyString) as [c ->]. simpl. f_equal.
Qed.
Lemma ParseInt_digits s n : digits s 0 = Some n → s ≠ EmptyString → 0 <= n < 2 ^ 63 →
  ParseInt s 64 = inl n ∧ ParseInt (String "-" s) 64 = inl (- n).
Proof.
  intros Hd Hs Hn. destruct s as [| a r]; [done |].
  assert (Ha : is_Some (digit a)). { simpl in Hd. destruct (digit a); [eauto | done]. }
  assert (Hneq : Ascii.eqb a "-" = false ∧ Ascii.eqb a "+" = false).
  { split; apply Ascii.eqb_neq; intros ->; by destruct Ha. }
  destruct Hneq as [E1 E2]. unfold ParseInt. rewrite E1, E2. cbn [Ascii.eqb Bool.eqb]. rewrite !Hd.
  change (64 - 1) with 63. split; simpl.
  - destruct (Z.leb_spec (2 ^ 63) n); [lia | done].
  - destruct (Z.ltb_spec (2 ^ 63) n); [lia | done].
Qed.
Lemma pretty_pos_nonempty (p : positive) : pretty p ≠ EmptyString.
Proof. intros E. pose proof (digits_pretty p) as Hd. rewrite E in Hd. done. Qed.
Lemma ParseInt_pretty z : int_ok z → ParseInt (pretty z) 64 = inl z.
Proof.
  unfold int_ok. intros Hz. destruct z as [| p | p]; [reflexivity | |].
  - apply (ParseInt_digits (pretty p) (Zpos p)); [apply digits_pretty | apply pretty_pos_nonempty | lia].
  - apply (ParseInt_digits (pretty p) (Zpos p)); [apply digits_pretty | apply pretty_pos_nonempty | lia].
Qed.
Definition float_parse_fake : FloatParse :=
  {| ParseFloat64 := λ s, match ParseInt s 64 with inl v => inl (of_Z v) | inr e => inr e end |}.
Lemma float_parse_fake_laws : FloatParseLaws (H := float_parse_fake).
Proof.
  split; [| by eexists]. intros z Hz. change (match ParseInt (pretty z) 64 with
    | inl v => inl (of_Z v) | inr e => inr e end = inl (of_Z z)). by rewrite ParseInt_pretty.
Qed.

(** ** The kernel *)

(** Links by namespace and index, with name and MTU; [k_coming] are links of
    the host that come up, one with every sleep. *)
Record Kern := mkKern {
  k_links : gmap (option string * Z) (string * Z);
  k_qdiscs : list (option string * Qdisc);
  k_filters : list Filter;
  k_namespaces : gset string;
  k_routes : gmap (option string) (list Route);
  k_addrs : gmap (option string * string) (list (option string));
  k_peers : gmap (string * string) Z;
  k_coming : list (Z * (string * Z));
  k_files : gmap string string;
  k_cgroups : gset string
}.
Definition set_links v (w : Kern) : Kern :=
  mkKern v (k_qdiscs w) (k_filters w) (k_namespaces w) (k_routes w) (k_addrs w) (k_peers w) (k_coming w)
    (k_files w) (k_cgroups w).
Definition set_qdiscs v (w : Kern) : Kern :=
  mkKern (k_links w) v (k_filters w) (k_namespaces w) (k_routes w) (k_addrs w) (k_peers w) (k_coming w)
    (k_files w) (k_cgroups w).
Definition set_filters v (w : Kern) : Kern :=
  mkKern (k_links w) (k_qdiscs w) v (k_namespaces w) (k_routes w) (k_addrs w) (k_peers w) (k_coming w)
    (k_files w) (k_cgroups w).
Definition kern_later (w : Kern) : Kern :=
  match k_coming w with
  | [] => w
  | (i, l) :: rest =>
      mkKern (<[(None, i) := l]> (k_links w)) (k_qdiscs w) (k_filters w) (k_namespaces w) (k_routes w)
        (k_addrs w) (k_peers w) rest (k_files w) (k_cgroups w)
  end.
Definition link_at (w : Kern) (ns : option string) (i : Z) : Link + error :=
  or_error ((λ l, mkLink l.1 i l.2) <$> k_links w !! (ns, i)).
Definition link_named (w : Kern) (ns : option string) (n : string) : Link + error :=
  match filter (λ kv, kv.1.1 = ns ∧ kv.2.1 = n) (map_to_list (k_links w)) with
  | kv :: _ => inl (mkLink kv.2.1 kv.1.2 kv.2.2)
  | [] => inr "Link not found"
  end.
Definition host_links (w : Kern) : list Link :=
  omap (λ kv, match kv.1.1 with None => Some (mkLink kv.2.1 kv.1.2 kv.2.2) | Some _ => None end)
    (map_to_list (k_links w)).
Definition kern_qdiscs (w : Kern) (ns : option string) (i : Z) : list Qdisc :=
  (filter (λ p, p.1 = ns ∧ qd_LinkIndex p.2 = i) (k_qdiscs w)).*2.
Definition filter_attrs (f : Filter) : option FilterAttrs :=
  match f with FU32 f => Some (u_Attrs f) | FFlower f => Some (fl_Attrs f) | OtherFilter => None end.
#[global] Instance Filter_eq_dec : EqDecision Filter.
Proof.
  assert (EqDecision FilterAttrs) by solve_decision. assert (EqDecision TcU32Key) by solve_decision.
  assert (EqDecision U32) by solve_decision. assert (EqDecision action) by solve_decision.
  assert (EqDecision Flower) by solve_decision. solve_decision.
Defined.
Definition netlink_fake : Netlink Kern :=
  {| LinkByName := link_named;
     LinkByIndex := link_at;
     LinkList := λ w, inl (host_links w);
     LinkAdd := λ w n mtu,
       inl (set_links (<[(None, 1000 + Z.of_nat (size (k_links w))) := (n, mtu)]> (k_links w)) w);
     LinkDel := λ w l, inl (set_links (delete (None, lk_Index l) (k_links w)) w);
     LinkSetUp := λ w _, inl w;
     QdiscList := λ w ns l, inl (kern_qdiscs w ns (lk_Index l));
     QdiscAdd := λ w ns q, inl (set_qdiscs (k_qdiscs w ++ [(ns, q)]) w);
     QdiscDel := λ w ns q, if decide ((ns, q) ∈ k_qdiscs w)
                           then inl (set_qdiscs (filter (λ p, p ≠ (ns, q)) (k_qdiscs w)) w)
                           else inr "no such qdisc";
     FilterList := λ w l parent, inl (filter (λ f, match filter_attrs f with
         | Some a => (fa_LinkIndex a =? lk_Index l) && (fa_Parent a =? parent)
         | None => false
         end = true) (k_filters w));
     FilterAdd := λ w f, inl (set_filters (k_filters w ++ [f]) w);
     FilterDel := λ w f, inl (set_filters (filter (λ g, g ≠ f) (k_filters w)) w);
     RouteList := λ w ns, or_error (k_routes w !! ns);
     InterfaceByIndex := λ w ns i, match link_at w ns i with inl l => inl (lk_Name l) | inr e => inr e end;
     InterfaceAddrs := λ w ns n, or_error (k_addrs w !! (ns, n));
     GetNS := λ w ns, if decide (ns ∈ k_namespaces w) then None else Some "no such namespace";
     CloseNS := λ _ _, None;
     GetVethPeerIfindex := λ w ns n, default (-1) (k_peers w !! (ns, n));
     later := kern_later |}.
Definition node_tools_fake : NodeTools Kern :=
  {| Interfaces := λ _, inl [("ens1", inl ["10.0.0.1/24"])];
     cni_Load := λ _, inl [Some [Some "loopback"]; Some [Some "calico"; Some "bandwidth"]];
     adqsetup := λ w _, inl w;
     MaxCombined := λ _ _, inl 8;
     ReadSys := λ w p, or_error (k_files w !! p);
     StatCgroup := λ w p, if decide (p ∈ k_cgroups w) then Present else Absent |}.
Definition netlink_consts : NetlinkConsts :=
  {| HANDLE_ROOT := 4294967295; HANDLE_INGRESS := 4294967281; HANDLE_MIN_INGRESS := 4294967282;
     HANDLE_MIN_EGRESS := 4294967283; HANDLE_MIN_PRIORITY := 65504; TC_U32_TERMINAL := 1;
     TCA_CLS_FLAGS_SKIP_SW := 2; TIME_UNITS_PER_SEC := 1000000; TickInUsec := fdiv (of_Z 125) (of_Z 8);
     MakeHandle := λ a b, a * 65536 + b; MajorMinor := λ h, (h / 65536, h mod 65536) |}.

Lemma tbfs_filter (P : option string * Qdisc → Prop) `{∀ p, Decision (P p)} l q ns ns' i :
  (∀ p, P p ↔ p ≠ (ns, q)) →
  tbfs_of (filter (λ p, p.1 = ns' ∧ qd_LinkIndex p.2 = i) (filter P l)).*2 =
  if decide ((ns', i) = (ns, qd_LinkIndex q))
  then filter (λ q', q' ≠ q) (tbfs_of (filter (λ p, p.1 = ns' ∧ qd_LinkIndex p.2 = i) l).*2)
  else tbfs_of (filter (λ p, p.1 = ns' ∧ qd_LinkIndex p.2 = i) l).*2.
Proof.
  intros HP. unfold tbfs_of. set (R := λ p : option string * Qdisc, p.1 = ns' ∧ qd_LinkIndex p.2 = i).
  assert (Hno : (ns', i) ≠ (ns, qd_LinkIndex q) → ∀ x, R x → P x).
  { intros Hne [n x] [E1 E2]. apply HP. intros [= -> ->]. by apply Hne; rewrite <- E1, <- E2. }
  assert (Heq : (ns', i) = (ns, qd_LinkIndex q) → ∀ x, R x → (P x ↔ x.2 ≠ q)).
  { intros [= -> ->] [n x] [E1 E2]. rewrite HP. simpl in *. subst n. split; congruence. }
  induction l as [| x l IH]; [by destruct (decide ((ns', i) = (ns, qd_LinkIndex q))) |].
  destruct (decide (R x)) as [Hr | Hr].
  2:{ rewrite (filter_cons_False R) by done. destruct (decide (P x)) as [Hp | Hp].
      - by rewrite (filter_cons_True P), (filter_cons_False R) by done.
      - by rewrite (filter_cons_False P) by done. }
  rewrite (filter_cons_True R) by done. cbn [fmap list_fmap].
  destruct (decide ((ns', i) = (ns, qd_LinkIndex q))) as [Hq | Hq].
  - specialize (Heq Hq x Hr). destruct (decide (P x)) as [Hp | Hp].
    + rewrite (filter_cons_True P), (filter_cons_True R) by done. cbn [fmap list_fmap].
      rewrite !(filter_cons _ x.2). destruct (decide (is_tbf x.2 = true)); [| done].
      rewrite filter_cons_True by tauto. by f_equal.
    + rewrite (filter_cons_False P) by done. rewrite (filter_cons _ x.2).
      destruct (decide (is_tbf x.2 = true)); [| done]. rewrite filter_cons_False by tauto. done.
  - rewrite (filter_cons_True P), (filter_cons_True R) by auto. cbn [fmap list_fmap].
    rewrite !(filter_cons _ x.2). destruct (decide (is_tbf x.2 = true)); [| done]. by f_equal.
Qed.
#[global] Instance netlink_fake_laws : NetlinkLaws Kern (Netlink0 := netlink_fake).
Proof.
  refine {| qdiscs := kern_qdiscs |}; simpl.
  - intros w ns i l. unfold link_at. destruct (k_links w !! (ns, i)); simpl; [by intros [= <-] | done].
  - intros w ns n l. unfold link_named, link_at.
    destruct (filter _ _) as [| [[ns' i] [n' m]] r] eqn:E; [done |]. intros [= <-]. simpl.
    assert (Hin : ((ns', i), (n', m)) ∈ filter (λ kv, kv.1.1 = ns ∧ kv.2.1 = n) (map_to_list (k_links w)))
      by (rewrite E; by left).
    apply list_elem_of_filter in Hin as [[<- <-] Hin]. apply elem_of_map_to_list in Hin. simpl. by rewrite Hin.
  - by intros w ns l qs [= <-].
  - intros w ns i q. unfold kern_qdiscs. intros ([n q'] & -> & Hq)%list_elem_of_fmap.
    by apply list_elem_of_filter in Hq as [[_ ?] _].
  - by intros w ns q w' [= <-].
  - intros w ns q w' ns' i [= <-] Ht. unfold kern_qdiscs. simpl.
    rewrite filter_app, fmap_app. unfold tbfs_of. rewrite filter_app. f_equal. rewrite filter_cons. simpl.
    case_decide as H1; case_decide as H2; try (destruct H1; congruence); [| | done].
    + cbn [fmap list_fmap snd]. by rewrite filter_cons_True.
    + exfalso. apply H1. injection H2. auto.
  - intros w ns q w'. case_decide; [| done]. by intros [= <-].
  - intros w ns q w' ns' i. case_decide; [| done]. intros [= <-]. unfold kern_qdiscs. simpl.
    by apply tbfs_filter.
Defined.
#[global] Instance netlink_fake_reliable :
  NetlinkReliable Kern (Netlink0 := netlink_fake) (NetlinkLaws0 := netlink_fake_laws).
Proof.
  split; simpl.
  - eauto.
  - eauto.
  - intros w ns q. unfold kern_qdiscs. intros ([n q'] & -> & Hq)%list_elem_of_fmap.
    apply list_elem_of_filter in Hq as [[<- _] Hq]. simpl. rewrite decide_True by done. eauto.
Qed.

(** ** Values as text *)

Definition app_fields (a : AppInfo) :=
  (AppName a, app_Group a, NetNS a, CgroupPath a, Devices a,
   (λ l, (bw_Id l, bw_Ingress l, bw_Egress l)) <$> Limits a, IfbName a).
Definition group_fields (g : Group) := (g_Id g, GroupType g, g_Pool g, g_Queues g).
Definition nic_fields (n : NICInfo) :=
  (nic_InterfaceName n, nic_IpAddr n, nic_MacAddr n, nic_InterfaceType n).
Definition nic_of_fields (t : string * string * string * string) : NICInfo :=
  let '(a, b, c, d) := t in mkNIC a b c d.
Definition group_of_fields (t : string * Z * Z * Z) : Group := let '(a, b, c, d) := t in mkGroupInfo a b c d.
Definition read {A B} `{Countable A} (f : A → B) (s : string) : B + error :=
  match of_text s with inl a => inl (f a) | inr e => inr e end.
Definition net_json_fake : NetJson :=
  {| marshal_app := λ a, to_text (app_fields a);
     unmarshal_app := read (λ t : string * string * string * string * gmap string string *
         list (string * string * string) * string,
       let '(n, g, ns, c, d, l, i) := t in
       mkAppInfo n g ns c d ((λ x, mkAppLimit x.1.1 x.1.2 x.2) <$> l) i);
     marshal_group := λ g, to_text (group_fields g);
     unmarshal_group := read group_of_fields;
     marshal_limit := λ l, to_text (bw_Id l, bw_Ingress l, bw_Egress l);
     unmarshal_limit := read (λ x : string * string * string, mkAppLimit x.1.1 x.1.2 x.2);
     marshal_nicinfo := λ n, to_text (nic_fields n);
     unmarshal_nicinfo := read nic_of_fields;
     marshal_cni := λ c, to_text (cni_Name c, Gateway c);
     unmarshal_cni := read (λ x : string * string, mkCNI x.1 x.2);
     marshal_server := λ s, to_text (ServeTime s, srv_Generation s);
     unmarshal_server := read (λ x : string * Z, mkServerInfo x.1 x.2);
     marshal_text := λ s, to_text s;
     unmarshal_text := read (λ s : string, s);
     marshal_net_interval := λ v, to_text v;
     unmarshal_net_interval := read (λ v : Z, v);
     marshal_settable := λ l, to_text ((λ g, (gs_Id g, Settable g)) <$> l);
     marshal_service_nic := λ n m b q, to_text (n, m, to_int64 b, q);
     unmarshal_register := read (λ t : string * string * gmap string string * string,
       let '(g, ns, d, c) := t in mkRegisterApp g ns d c);
     unmarshal_configure := read (λ t : list (string * string * string * string) * list (string * Z * Z * Z),
       mkConfigure "" "" (nic_of_fields <$> t.1) (group_of_fields <$> t.2));
     unmarshal_ip := read (λ s : string, s) |}.
Lemma net_json_fake_laws : NetJsonLaws (H := net_json_fake).
Proof.
  intros [n g ns c d l i]. unfold unmarshal_app, marshal_app. simpl. unfold read. rewrite of_to_text. simpl.
  do 2 f_equal. rewrite <- list_fmap_compose. rewrite <- (list_fmap_id l) at 2. apply list_fmap_ext.
  by intros _ [? ? ?] _.
Qed.

(** Bring these instances into scope with [Import NetInstances]. *)
Module NetInstances.
#[export] Existing Instance float_parse_fake.
#[export] Existing Instance float_parse_fake_laws.
#[export] Existing Instance netlink_fake.
#[export] Existing Instance node_tools_fake.
#[export] Existing Instance netlink_consts.
#[export] Existing Instance net_json_fake.
#[export] Existing Instance net_json_fake_laws.
End NetInstances.

(** ** Runs *)

Module NetServiceExample.
Import FakeInstances ServiceInstances NetInstances.

#[export] Instance bolt_reliable : BoltReliable Bolt.
Proof. split; intros; eexists; reflexivity. Qed.

(** A node with one NIC and one pod. *)
Definition pod_ns : string := "/ns/p1".
Definition world1 : Kern :=
  mkKern {[(None, 1) := ("ens1", 1500); (None, 7) := ("veth7", 1500); (Some pod_ns, 2) := ("eth0", 1500)]}
    [] [] {[pod_ns]} {[None := [mkRoute None 1]; Some pod_ns := [mkRoute None 2]]}
    {[(Some pod_ns, "eth0") := [Some "10.0.0.7"]]} {[(pod_ns, "eth0") := 7]} [] ∅ {["/cg/p1"]}.
(** The pod and its namespace are gone. *)
Definition world2 : Kern := mkKern {[(None, 1) := ("ens1", 1500)]} [] [] ∅ {[None := [mkRoute None 1]]} ∅ ∅ [] ∅ ∅.
Definition option1 : Option_ := mkOption true false 0 "ifb0".
Definition nic1 : NICInfo := mkNIC "ens1" "10.0.0.1" "aa:bb" "masterNic".
(** The agent's groups, with the queues that it asks for. *)
Definition groups1 (queues : Z) : list Group :=
  [mkGroupInfo "0" 0 900 queues; mkGroupInfo "1" 1 900 queues; mkGroupInfo "2" 2 90 queues].
Definition configure1 (queues : Z) : string :=
  to_text ([nic_fields nic1], group_fields <$> groups1 queues).
Definition register1 (group : string) : string :=
  to_text (group, pod_ns, ({["eth0" := "10.0.0.1"]} : gmap string string), "/cg/p1").

Definition start1 : outcome (NetEngine Kern Bolt) := net_Initialize 1 option1 "today" false (mkBolt ∅ ∅) world1.
Definition run1 (l : list (Kern * net_request)) : outcome (NetEngine Kern Bolt * gmap string attributes) :=
  let! s0 := start1 in foldM (net_serve 1) (s0, ∅) l.
Definition engine1 (l : list (Kern * net_request)) : NetEngine Kern Bolt :=
  match run1 l with
  | Ok (s, _) => s
  | Crash _ => mkNetEngine (mkBolt ∅ ∅) option1 "" ∅ [] ∅ [] [] 0 ∅ ∅ ∅ no_config false world1
  end.
(** Configured without queues, hence without ADQ; one pod registered. *)
Definition setup (group : string) : list (Kern * net_request) :=
  [(world1, NetInfo 2 (to_text ("10.0.0.1" : string))); (world1, NetConfigure "" (configure1 0));
   (world1, NetRegister "uid-1" (register1 group))].
Definition app1 (group : string) : AppInfo :=
  mkAppInfo "uid-1" group pod_ns "/cg/p1" {["eth0" := "10.0.0.7"]} [] "ifb0".
Definition generic1 : GenericPlugin := mkGeneric "ens1" (mkCNI "calico" "ens1") (groups1 0).

Lemma net_store_acknowledged_witness :
  ∃ s', net_Initialize 1 option1 "tomorrow" false (nv_db (engine1 (setup "0"))) world2 = Ok s' ∧
    attrs <$> nv_Apps s' = {["uid-1" := attrs (app1 "0")]}.
Proof.
  destruct (net_store_acknowledged bolt_reliable 1 option1 "today" (mkBolt ∅ ∅) world1 (setup "0") (engine1 (setup "0"))
    {["uid-1" := attrs (app1 "0")]}) as (_ & _ & Hr).
  - reflexivity.
  - vm_compute. reflexivity.
  - apply Hr.
Defined.

(** 30 and 20 Mbit/s for the pod. *)
Definition wl1 : Workload := mkWorkload (of_Z 30) (of_Z 20) fzero fzero fzero.
Definition veth1 : Link := mkLink "veth7" 7 1500.
Definition eth1 : Link := mkLink "eth0" 2 1500.
Definition limited1 : NetEngine Kern Bolt := engine1 (setup "0").
Lemma pod_reachable : reachable (kernel limited1) (app1 "0") "eth0" veth1 eth1.
Proof. split; vm_compute; reflexivity. Qed.
Lemma net_limit_enforced_witness :
  ∃ w', take_net_limit 1 (IOISetLimitNet "0.uid-1" wl1) limited1 =
      Ok (None, set_kernel w' (set_Apps {["uid-1" := set_Limits [limit_of wl1] (app1 "0")]} limited1)) ∧
    limited (kernel limited1) w' pod_ns veth1 eth1 30 20.
Proof.
  destruct (net_limit_enforced netlink_fake_reliable 1 limited1 wl1 30 20 0 "uid-1" (app1 "0") (set_type NonAdq nic1) generic1 "eth0"
    veth1 eth1) as (w' & E & L).
  - lia.
  - lia.
  - vm_compute. reflexivity.
  - vm_compute. reflexivity.
  - discriminate.
  - vm_compute. reflexivity.
  - vm_compute. reflexivity.
  - split; [vm_compute; split; discriminate | vm_compute; reflexivity].
  - reflexivity.
  - reflexivity.
  - vm_compute. discriminate.
  - vm_compute. discriminate.
  - exact pod_reachable.
  - vm_compute. lia.
  - vm_compute. lia.
  - exists w'. split; [| exact L].
    change (pretty 0 +:+ "." +:+ "uid-1") with "0.uid-1" in E. rewrite E. do 3 f_equal; vm_compute; reflexivity.
Defined.

(** The rates that the two links of the pod then have, in bytes per second. *)
Definition rates (o : outcome (option error * NetEngine Kern Bolt)) : list (option string * Z) :=
  match o with
  | Ok (None, s) => (λ p, (p.1, tbf_rate p.2)) <$> k_qdiscs (kernel s)
  | _ => []
  end.
Example pod_rates :
  rates (take_net_limit 1 (IOISetLimitNet "0.uid-1" wl1) limited1) =
  [(None, 3750000); (Some pod_ns, 2500000)].
Proof. vm_compute. reflexivity. Qed.

(** "No limit" of the agent is a limit of 1000 Mbit/s for the service, which
    takes 2^20 for "no limit". *)
Definition unlimited1 : Workload := mkWorkload LimitMax LimitMax fzero fzero fzero.
Example no_limit_is_a_limit :
  rates (take_net_limit 1 (IOISetLimitNet "0.uid-1" unlimited1) limited1) =
  [(None, 125000000); (Some pod_ns, 125000000)].
Proof. vm_compute. reflexivity. Qed.

(** A limit between 0 and 1 Mbit/s is cut off to 0, and refused. *)
Example half_mbit_refused :
  ga_limit 1 (app1 "0") (fdiv (of_Z 1) (of_Z 2)) (of_Z 1) OP_ADD world1 =
  Ok (inr "invalid rate or burst", world1).
Proof. vm_compute. reflexivity. Qed.

(** The node is configured, and the pod is gone. *)
Definition after_pod : NetEngine Kern Bolt :=
  set_kernel world2 (engine1 [(world1, NetInfo 2 (to_text ("10.0.0.1" : string)));
                              (world1, NetConfigure "" (configure1 0));
                              (world2, NetRegister "uid-1" (register1 "0"))]).
Lemma lost_pod_panics_witness :
  net_RegisterApp 1 "uid-2" (register1 "2") after_pod = Crash NilDeref ∧
  net_UnRegisterApp 1 "uid-1" after_pod = Crash NilDeref.
Proof.
  assert (Hl : lost (kernel after_pod) pod_ns) by (repeat split; eexists; vm_compute; reflexivity).
  destruct (lost_pod_panics 1 after_pod (set_type NonAdq nic1) [] generic1) as [Hr Hu].
  - vm_compute. reflexivity.
  - vm_compute. reflexivity.
  - split.
    + apply Hr with (mkRegisterApp "2" pod_ns {["eth0" := "10.0.0.1"]} "/cg/p1"); try discriminate; try exact Hl;
        [vm_compute; reflexivity | vm_compute; reflexivity | | vm_compute; reflexivity].
      repeat split; discriminate.
    + apply Hu with (mkAppInfo "uid-1" "0" pod_ns "/cg/p1" ∅ [] "ifb0"); try discriminate; try exact Hl;
        vm_compute; reflexivity.
Defined.

(** A limit for the class of burstable pods as a whole. *)
Example group_limit_panics_run :
  net_SetAppLimit 1 "1" [mkBWLimit "0" "30" "" 0 0] limited1 = Crash NilDeref.
Proof.
  apply (group_limit_panics 1 limited1 (set_type NonAdq nic1) [] generic1 "1" (mkBWLimit "0" "30" "" 0 0)
           (of_Z 30) fzero); try (vm_compute; reflexivity); try discriminate.
  split; [vm_compute; split; discriminate | vm_compute; reflexivity].
Qed.

(** A NIC with ADQ has the generic plugin after a restart: what is stored is
    the type that the agent has sent. *)
Definition is_adq (s : NetEngine Kern Bolt) : option bool :=
  match plugins s !! "10.0.0.1" with
  | Some (Adq _) => Some true
  | Some (Generic _) => Some false
  | None => None
  end.
Definition adq_setup : list (Kern * net_request) :=
  [(world1, NetInfo 2 (to_text ("10.0.0.1" : string))); (world1, NetConfigure "" (configure1 2))].
Example adq_forgotten :
  is_adq (engine1 adq_setup) = Some true ∧
  is_adq (engine1 (adq_setup ++ [(world1, NetRestart "tomorrow")])) = Some false.
Proof. split; vm_compute; reflexivity. Qed.

(** Only the first NIC of a configuration is stored. *)
Definition nic2 : NICInfo := mkNIC "ens2" "10.0.1.1" "aa:cc" "other".
Definition two_nics : list (Kern * net_request) :=
  [(world1, NetInfo 2 (to_text ("10.0.0.1" : string)));
   (world1, NetConfigure "" (to_text (nic_fields <$> [nic1; nic2], group_fields <$> groups1 0)))].
Example second_nic_forgotten :
  nic_InterfaceName <$> nics (engine1 two_nics) = ["ens1"; "ens2"] ∧
  nic_InterfaceName <$> nics (engine1 (two_nics ++ [(world1, NetRestart "tomorrow")])) = ["ens1"].
Proof. split; vm_compute; reflexivity. Qed.

(** A registration that a plugin refuses stays in memory, so that the next
    attempt is refused; the store does not have the app. *)
Definition err_of {A} (o : outcome (option error * A)) : option error :=
  match o with Ok (e, _) => e | Crash _ => None end.
Definition without_ifb : NetEngine Kern Bolt := set_kernel world1 (engine1 (take 2 (setup "2"))).
Definition refused1 : NetEngine Kern Bolt :=
  match net_RegisterApp 1 "uid-1" (register1 "2") without_ifb with Ok (_, s) => s | Crash _ => without_ifb end.
Example refused_registration_blocks_retry :
  err_of (net_RegisterApp 1 "uid-1" (register1 "2") without_ifb) = Some "Link not found" ∧
  err_of (net_RegisterApp 1 "uid-1" (register1 "2") refused1) = Some "app already registered" ∧
  bucket_pairs (nv_db refused1) net_apps_path = ∅.
Proof. repeat split; vm_compute; reflexivity. Qed.

(** A pod whose link comes up during the second sleep is found in the third
    round, and one whose link never comes up is waited for. *)
Definition coming (l : list (Z * (string * Z))) : Kern :=
  mkKern {[(None, 1) := ("ens1", 1500)]} [] [] {[pod_ns]} ∅ ∅ {[(pod_ns, "eth0") := 7]} l ∅ ∅.
Definition found (o : outcome ((Link + error) * Kern)) : option string + crash :=
  match o with
  | Ok (inl l, _) => inl (Some (lk_Name l))
  | Ok (inr _, _) => inl None
  | Crash c => inr c
  end.
Example waiting_for_a_link :
  found (getHostInterface 3 "eth0" pod_ns (coming [(6, ("veth6", 1500)); (7, ("veth7", 1500))])) = inl (Some "veth7") ∧
  found (getHostInterface 2 "eth0" pod_ns (coming [(6, ("veth6", 1500)); (7, ("veth7", 1500))])) = inr StillWaiting ∧
  found (getHostInterface 1 "eth0" pod_ns world2) = inl None.
Proof. repeat split; vm_compute; reflexivity. Qed.
Example link_never_comes : ∀ rounds, getHostInterface rounds "eth0" pod_ns (coming []) = Crash StillWaiting.
Proof. induction rounds as [| n IH]; [reflexivity |]. exact IH. Qed.

(** /proc/net/dev as the kernel writes it, and as the engine reads it. *)
Definition proc_net_dev : string :=
  "Inter-|   Receive                                                |  Transmit" +:+ nl +:+
  " face |bytes    packets errs drop fifo frame compressed multicast|bytes    packets errs" +:+ nl +:+
  " veth7:    5000      50    0    0    0     0          0         0     7000      70    0" +:+ nl.
Definition measured (w : Kern) : outcome (gmap string SR + error) := getSndRcv w.
Example counters_read :
  measured (mkKern ∅ [] [] ∅ ∅ ∅ ∅ [] {["/proc/net/dev" := proc_net_dev]} ∅) =
  Ok (inl {["veth7" := mkSR (of_Z 7000) (of_Z 5000)]}).
Proof. vm_compute. reflexivity. Qed.
(** An empty line is out of range. *)
Example empty_metrics_line_panics :
  measured (mkKern ∅ [] [] ∅ ∅ ∅ ∅ [] {["/proc/net/dev" := nl]} ∅) = Crash OutOfRange.
Proof. vm_compute. reflexivity. Qed.
End NetServiceExample.
