(* ===== verification/MeasureFacts.v ===== *)
(** * Measurements of disks reach the disk engine

    What IOISubscribeDisk sends fits the disk engine, is the average of the
    last messages, and stays close to what was sent last. *)

From S2P Require Export AgentMeasure LimitFacts.

(** ** Loops over maps *)

Section Loops.
Context `{!GoRange}.

(** A loop that replaces the entry of each key of [m] by [f] of the entry. *)
Lemma foldM_update {X V} (f : option V → X → outcome V) (m0 : gmap string V) (m : gmap string X) :
  (∀ k x, m !! k = Some x → ∃ v, f (m0 !! k) x = Ok v) →
  ∃ m', foldM (λ acc kv, let! v := f (acc !! kv.1) kv.2 in Ok (<[kv.1 := v]> acc)) m0 (range m) = Ok m' ∧
    ∀ k, match m !! k with
         | Some x => ∃ v, f (m0 !! k) x = Ok v ∧ m' !! k = Some v
         | None => m' !! k = m0 !! k
         end.
Proof.
  intros Hf.
  enough (Hg : ∀ (l : list (string * X)) (m0 : gmap string V), (∀ k x, (k, x) ∈ l → ∃ v, f (m0 !! k) x = Ok v) → NoDup l.*1 →
    ∃ m' : gmap string V, foldM (λ acc kv, let! v := f (acc !! kv.1) kv.2 in Ok (<[kv.1 := v]> acc)) m0 l = Ok m' ∧
    ∀ k, match (list_to_map l : gmap string X) !! k with
         | Some x => ∃ v, f (m0 !! k) x = Ok v ∧ m' !! k = Some v
         | None => m' !! k = m0 !! k
         end).
  { destruct (Hg (range m) m0) as (m' & E & Hm'); [| apply NoDup_range |].
    - intros k x Hin. by apply Hf, elem_of_range.
    - rewrite list_to_map_range in Hm'. eauto. }
  clear Hf m0 m. induction l as [| [k x] l IH]; intros m0 Hl Hnd; simpl.
  { exists m0. split; [done |]. intros k. by rewrite lookup_empty. }
  apply NoDup_cons in Hnd as [Hni Hnd]. destruct (Hl k x) as [v Ev]; [by left |]. rewrite Ev. simpl.
  destruct (IH (<[k := v]> m0)) as (m' & E & Hm'); [| done |].
  { intros k' x' Hin. rewrite lookup_insert_ne; [apply Hl; by right |].
    intros <-. apply Hni. apply list_elem_of_fmap. by exists (k, x'). }
  exists m'. split; [done |]. intros k'. specialize (Hm' k').
  destruct (decide (k = k')) as [<- | Hne].
  - rewrite lookup_insert_eq. rewrite (not_elem_of_list_to_map_1 l k Hni), lookup_insert_eq in Hm'. eauto.
  - rewrite lookup_insert_ne by done. by rewrite lookup_insert_ne in Hm' by done.
Qed.

(** A loop that stops at the first entry that fails a test. *)
Lemma for_range_test {A} (f : A → outcome (ctrl () bool)) (R : A → Prop) l :
  (∀ x, x ∈ l → f x = Ok (Return false) ∨ f x = Ok (Next ()) ∧ R x) →
  for_range l () (λ _, f) = Ok (Return false) ∨
  for_range l () (λ _, f) = Ok (Next ()) ∧ ∀ x, x ∈ l → R x.
Proof.
  induction l as [| x l IH]; intros Hf; simpl; [right; split; [done |]; by intros ? ?%elem_of_nil |].
  destruct (Hf x) as [-> | [-> Hx]]; [by left | by left |]. simpl.
  destruct IH as [E | [E Hl]]; [intros; apply Hf; by right | by left |]. right. split; [done |].
  by intros y [-> | ?]%elem_of_cons; [| apply Hl].
Qed.
End Loops.

(** A value is within the threshold of itself, also when it is not finite. *)
Lemma changed_refl x : changed x x = false.
Proof.
  unfold changed. destruct x as [s | s | | s m e]; [by destruct s | by destruct s | done |].
  unfold fsub. cbn [SpecFloat.SFsub]. rewrite Z.min_id. unfold SpecFloat.shl_align. rewrite Z.sub_diag.
  unfold SpecFloat.cond_Zopp. destruct s; cbn [SpecFloat.binary_normalize];
    rewrite ?Z.sub_diag; by vm_compute.
Qed.

Section MeasureFacts.
Context `{Q : QuantityLib} `{!GoRange} `{!FloatText}.

(** ** Well-formed measurements *)

(** A measurement has its bandwidth, in all and by the six sizes. *)
Definition info_measured (i : PodRunInfo) : Prop :=
  is_Some (ri_Actual i) ∧
  ∃ bs, RawActualBs i = Some bs ∧ map_Forall (λ k w, k ∈ bsList ∧ is_Some w) bs.
Definition data_measured (p : PodData) : Prop :=
  map_Forall (λ _ ev, map_Forall (λ _ i, info_measured i) ev) (PodEvents p).

Lemma data_measured_ok p : data_measured p → measured_ok p.
Proof. intros Hp dev ev Ed pod i Ei. by apply (Hp dev ev Ed pod i Ei). Qed.

Lemma pod_measure_ok info re wr : info_measured (pod_measure info re wr).
Proof.
  split; [by eexists |]. eexists. split; [done |]. intros k w Hk.
  apply elem_of_list_to_map_2 in Hk. split; [by eapply elem_of_zip_l |].
  apply elem_of_zip_r, elem_of_lookup_zip_with in Hk as (? & ? & ? & -> & _). eauto.
Qed.

Lemma parse_measured resp infos :
  ∃ p, parseReceiveMessageDisk (Some resp) infos = Ok p ∧ data_measured p.
Proof.
  eexists. split; [done |]. unfold data_measured. simpl.
  apply (foldl_inv (λ m, map_Forall (λ _ ev, map_Forall (λ _ i, info_measured i) ev) m)); [done |].
  intros m [po bwi] _ Hm. destruct (read_entries _ _) as [re wr].
  apply foldl_inv; [done |]. intros m1 [dev info] _ Hm1. unfold add_event. simpl.
  apply map_Forall_insert_2; [| done]. apply map_Forall_insert_2; [apply pod_measure_ok |].
  destruct (m1 !! dev) as [ev |] eqn:E; simpl; [exact (Hm1 dev ev E) | apply map_Forall_empty].
Qed.

(** ** The average *)

(** What a message says of a pod on a disk. *)
Definition measure_of (dev pod : string) (p : PodData) : option Workload :=
  ev ← PodEvents p !! dev; i ← ev !! pod; ri_Actual i.
Definition sum_of (dev pod : string) (m : gmap string (gmap string sums)) : option Workload :=
  pods ← m !! dev; s ← pods !! pod; Some (su_Actual s).

Definition sums_ok (s : sums) : Prop := ∀ bs, bs ∈ bsList ↔ is_Some (su_Sizes s !! bs).
Definition all_sums_ok (m : gmap string (gmap string sums)) : Prop :=
  map_Forall (λ _, map_Forall (λ _, sums_ok)) m.

Lemma no_sums_ok : sums_ok no_sums.
Proof.
  intros bs. change (su_Sizes no_sums) with
    (list_to_map (map (λ bs, (bs, workload_zero)) bsList) : gmap string Workload).
  rewrite <- elem_of_dom, dom_list_to_map_L, elem_of_list_to_set. by vm_compute bsList.
Qed.

Lemma add_measure_ok s i a :
  sums_ok s → info_measured i → ri_Actual i = Some a →
  ∃ s', add_measure s i = Ok s' ∧ sums_ok s' ∧ su_Actual s' = bps_add (su_Actual s) a.
Proof.
  intros Hs [_ (bs & Ebs & Hbs)] Ea. unfold add_measure. rewrite Ea, Ebs. cbn [deref obind].
  match goal with |- context [foldM ?f ?m0 ?l] =>
    destruct (foldM_total f (λ m, sums_ok (mkSums workload_zero m)) m0 l) as (m' & -> & Hm'); [| done |] end.
  - intros m [k w] Hin Hm. apply elem_of_range in Hin. destruct (Hbs _ _ Hin) as [Hk [w' Ew]]. simpl in Ew. subst w.
    destruct (proj1 (Hm k) Hk) as [x Ex]. simpl in Ex |- *. rewrite Ex. simpl. eexists. split; [done |].
    intros k'. simpl. rewrite lookup_insert. case_decide; subst; [by split; [eexists |] | apply Hm].
  - simpl. eexists. split; [done |]. by split.
Qed.

(** An amount is added to what there is. *)
Definition plus (o : option Workload) (a : option Workload) : option Workload :=
  match a with Some a => Some (bps_add (default workload_zero o) a) | None => o end.
Abbreviation pods_sums_ok := (map_Forall (λ _ : string, sums_ok)).

Lemma add_measure_new o i :
  (∀ s, o = Some s → sums_ok s) → info_measured i →
  ∃ s, add_measure (default no_sums o) i = Ok s ∧ sums_ok s ∧
    Some (su_Actual s) = plus (su_Actual <$> o) (ri_Actual i).
Proof.
  intros Ho Hi. destruct (proj1 Hi) as [a Ea].
  destruct (add_measure_ok (default no_sums o) i a) as (s & Es & Hs & Ha); [| done | done |].
  - destruct o; [by apply Ho | apply no_sums_ok].
  - exists s. split; [exact Es |]. split; [done |]. rewrite Ea, Ha. by destruct o.
Qed.

Lemma add_pods_spec pods ev :
  pods_sums_ok pods → map_Forall (λ _ i, info_measured i) ev →
  ∃ pods', add_pods pods ev = Ok pods' ∧ pods_sums_ok pods' ∧
    ∀ pod, su_Actual <$> pods' !! pod = plus (su_Actual <$> pods !! pod) (ev !! pod ≫= ri_Actual).
Proof.
  intros Hpods Hev.
  assert (Hi : ∀ k i, ev !! k = Some i → ∃ s, add_measure (default no_sums (pods !! k)) i = Ok s ∧ sums_ok s ∧
                 Some (su_Actual s) = plus (su_Actual <$> pods !! k) (ri_Actual i)).
  { intros k i Ei. apply add_measure_new; [intros s; apply Hpods | by apply (Hev k)]. }
  destruct (foldM_update (λ o, add_measure (default no_sums o)) pods ev) as (pods' & E & Hl).
  { intros k i Ei. destruct (Hi k i Ei) as (s & -> & _). eauto. }
  exists pods'. split; [exact E |]. split.
  - intros k s Es. specialize (Hl k). destruct (ev !! k) as [i |] eqn:Ei; [| rewrite Hl in Es; by apply (Hpods k)].
    destruct Hl as (v & Ev & E'). destruct (Hi k i Ei) as (s' & E2 & Hs' & _).
    by assert (s = s') as -> by congruence.
  - intros k. specialize (Hl k). destruct (ev !! k) as [i |] eqn:Ei; simpl; [| by rewrite Hl].
    destruct Hl as (v & Ev & ->). destruct (Hi k i Ei) as (s' & E2 & _ & <-). simpl. congruence.
Qed.

(** A slot is added to the sums. *)
Lemma add_slot_spec m p :
  all_sums_ok m → data_measured p →
  ∃ m', add_slot m p = Ok m' ∧ all_sums_ok m' ∧
    ∀ dev pod, sum_of dev pod m' = plus (sum_of dev pod m) (measure_of dev pod p).
Proof.
  intros Hm Hp.
  assert (Hi : ∀ dev ev, PodEvents p !! dev = Some ev → ∃ pods, add_pods (default ∅ (m !! dev)) ev = Ok pods ∧
    pods_sums_ok pods ∧ ∀ pod, su_Actual <$> pods !! pod = plus (sum_of dev pod m) (ev !! pod ≫= ri_Actual)).
  { intros dev ev Ed. unfold sum_of. destruct (add_pods_spec (default ∅ (m !! dev)) ev) as (pods & E & Hok & Hl);
      [| by apply (Hp dev) |].
    - destruct (m !! dev) eqn:Em; [by apply (Hm dev) | apply map_Forall_empty].
    - exists pods. split; [done |]. split; [done |]. intros pod. rewrite Hl.
      destruct (m !! dev); simpl; [by destruct (_ !! pod) | by rewrite lookup_empty]. }
  destruct (foldM_update (λ o, add_pods (default ∅ o)) m (PodEvents p)) as (m' & E & Hl).
  { intros dev ev Ed. destruct (Hi dev ev Ed) as (pods & -> & _). eauto. }
  exists m'. split; [exact E |]. split.
  - intros dev pods Ed. specialize (Hl dev).
    destruct (PodEvents p !! dev) as [ev |] eqn:Ep; [| rewrite Hl in Ed; by apply (Hm dev)].
    destruct Hl as (v & Ev & E'), (Hi dev ev Ep) as (pods' & E2 & Hok & _).
    by assert (pods = pods') as -> by congruence.
  - intros dev pod. specialize (Hl dev). unfold measure_of.
    destruct (PodEvents p !! dev) as [ev |] eqn:Ep; simpl; [| unfold sum_of; by rewrite Hl].
    destruct Hl as (v & Ev & E'), (Hi dev ev Ep) as (pods' & E2 & _ & Hlk).
    rewrite <- Hlk. unfold sum_of at 1. rewrite E'. simpl.
    assert (v = pods') as -> by congruence. by destruct (pods' !! pod).
Qed.

(** The average of the slots that know the pod, over all slots. *)
Definition average_of (arr : list PodData) (dev pod : string) : option Workload :=
  match omap (measure_of dev pod) arr with
  | [] => None
  | l => Some (bps_div (Z.of_nat (length arr)) (foldl bps_add workload_zero l))
  end.

Lemma add_slots_spec arr m :
  all_sums_ok m → Forall data_measured arr →
  ∃ m', foldM add_slot m arr = Ok m' ∧ all_sums_ok m' ∧
    ∀ dev pod, sum_of dev pod m' = foldl (λ o p, plus o (measure_of dev pod p)) (sum_of dev pod m) arr.
Proof.
  intros Hm Ha. revert m Hm. induction Ha as [| p arr Hp Ha IH]; intros m Hm; simpl; [by eauto |].
  destruct (add_slot_spec m p Hm Hp) as (m1 & -> & Hm1 & E1). simpl.
  destruct (IH m1 Hm1) as (m2 & E & Hm2 & E2). exists m2. split; [done |]. split; [done |].
  intros dev pod. by rewrite E2, E1.
Qed.

Lemma plus_all (f : PodData → option Workload) arr o :
  foldl (λ o p, plus o (f p)) o arr =
  match omap f arr with [] => o | l => Some (foldl bps_add (default workload_zero o) l) end.
Proof.
  revert o. induction arr as [| p arr IH]; intros o; simpl; [done |]. rewrite IH.
  change (list_omap PodData Workload f arr) with (omap f arr).
  destruct (f p) as [a |]; simpl; [| done]. by destruct (omap f arr).
Qed.

(** What the agent takes for a pod's bandwidth.  The average that is
    computed over the slots of the last messages never fails on messages that
    were read, and is, for each pod on each disk, the float64 sum of what the
    slots that know the pod say of it, divided by the number of all slots:
    with thirty slots, of which the first message fills one, it starts at a
    thirtieth of what was measured. *)
Lemma average_spec arr :
  arr ≠ [] → Forall data_measured arr →
  ∃ avg, getAverageResult arr = Ok avg ∧ data_measured avg ∧
    ∀ dev pod, measure_of dev pod avg = average_of arr dev pod.
Proof.
  intros Hne Ha. unfold getAverageResult. destruct arr as [| p0 arr0] eqn:Earr; [done |]. rewrite <- Earr in *.
  replace (index arr 0) with (Ok p0) by (by rewrite Earr). cbn [obind].
  destruct (add_slots_spec arr ∅) as (m & -> & Hm & El); [apply map_Forall_empty | done |]. cbn [obind].
  eexists. split; [done |]. split.
  - intros dev ev Ed. simpl in Ed. rewrite lookup_fmap in Ed. apply fmap_Some in Ed as (pods & Ed & ->).
    intros pod i Ei. rewrite lookup_fmap in Ei. apply fmap_Some in Ei as (s & Es & ->).
    split; [by eexists |]. eexists. split; [done |]. intros k w Ek. rewrite lookup_fmap in Ek.
    apply fmap_Some in Ek as (x & Ex & ->). split; [| by eexists].
    apply (Hm dev pods Ed pod s Es). eauto.
  - intros dev pod. unfold measure_of. simpl. rewrite lookup_fmap.
    transitivity (bps_div (Z.of_nat (length arr)) <$> sum_of dev pod m).
    + unfold sum_of. destruct (m !! dev) as [pods |]; simpl; [| done]. rewrite lookup_fmap.
      by destruct (pods !! pod).
    + rewrite El, plus_all. unfold average_of, sum_of. rewrite lookup_empty. simpl.
      by destruct (omap _ arr).
Qed.

(** ** What is sent *)

(** Two bandwidths that compareResult takes for the same. *)
Definition near (a b : Workload) : Prop :=
  changed (InBps a) (InBps b) = false ∧ changed (OutBps a) (OutBps b) = false.

Lemma measure_of_Some dev pod p a :
  measure_of dev pod p = Some a ↔
  ∃ ev i, PodEvents p !! dev = Some ev ∧ ev !! pod = Some i ∧ ri_Actual i = Some a.
Proof.
  unfold measure_of. rewrite bind_Some. split.
  - intros (ev & E & (i & Ei & Ea)%bind_Some). eauto.
  - intros (ev & i & E & Ei & Ea). exists ev. split; [done |]. apply bind_Some. eauto.
Qed.

Lemma compare_spec avg prev :
  measured_ok avg → measured_ok prev →
  ∃ b, compareResult avg prev = Ok b ∧
    (b = true → ∀ dev pod a, measure_of dev pod avg = Some a →
       ∃ a', measure_of dev pod prev = Some a' ∧ near a a').
Proof.
  intros Ha Hp. unfold compareResult.
  match goal with |- context [for_range (range (PodEvents avg)) () (λ _, ?g)] =>
    destruct (for_range_test g (λ kd, ∃ pv, PodEvents prev !! kd.1 = Some pv ∧
      ∀ pod i, kd.2 !! pod = Some i → ∃ p a a', pv !! pod = Some p ∧ ri_Actual i = Some a ∧
        ri_Actual p = Some a' ∧ near a a') (range (PodEvents avg))) as [E | [E HR]] end.
  - intros [dev ev] Hd. apply elem_of_range in Hd. simpl.
    destruct (PodEvents prev !! dev) as [pv |] eqn:Epv; [| by left].
    match goal with |- context [for_range (range ev) () (λ _, ?g)] =>
      destruct (for_range_test g (λ kp, ∃ p a a', pv !! kp.1 = Some p ∧ ri_Actual kp.2 = Some a ∧
        ri_Actual p = Some a' ∧ near a a') (range ev)) as [E | [E HR]] end.
    + intros [pod i] Hi. apply elem_of_range in Hi. simpl.
      destruct (pv !! pod) as [p |] eqn:Ep; [| by left].
      destruct (Ha _ _ Hd _ _ Hi) as [a Ea], (Hp _ _ Epv _ _ Ep) as [a' Ea']. simpl in *.
      rewrite Ea, Ea'. simpl. destruct (changed _ _) eqn:E1; simpl; [by left |].
      destruct (changed (OutBps a) _) eqn:E2; [by left |]. right. split; [done |]. by exists p, a, a'.
    + by left.
    + right. split; [done |]. exists pv. split; [done |]. intros pod i Hi.
      apply (HR (pod, i)). by apply elem_of_range.
  - rewrite E. exists false. by split.
  - rewrite E. exists true. split; [done |]. intros _ dev pod a (ev & i & Ed & Ei & Ea)%measure_of_Some.
    destruct (HR (dev, ev)) as (pv & Epv & Hl); [by apply elem_of_range |].
    destruct (Hl pod i Ei) as (p & a0 & a' & Ep & Ea0 & Ea' & Hn). exists a'.
    split; [apply measure_of_Some; eauto |]. by assert (a = a0) as -> by congruence.
Qed.

(** The copy has the entries of the average, and the previous ones beside. *)
Lemma copy_lookup avg prev dev pod :
  (ev ← PodEvents (deepCopyResult avg prev) !! dev; ev !! pod) =
  match (ev ← PodEvents avg !! dev; ev !! pod) with
  | Some i => Some i
  | None => ev ← PodEvents prev !! dev; ev !! pod
  end.
Proof.
  unfold deepCopyResult. simpl.
  assert (Hin : ∀ (ev pods : PodEventInfo) k,
    foldl (λ pods (kp : string * PodRunInfo), <[kp.1 := kp.2]> pods) pods (range ev) !! k =
    match ev !! k with Some i => Some i | None => pods !! k end).
  { intros ev pods k. rewrite (lookup_foldl_fill (λ kp, Some kp.2)) by apply NoDup_range.
    rewrite list_to_map_range. by destruct (ev !! k). }
  destruct (foldM_update (λ (o : option PodEventInfo) ev,
    Ok (foldl (λ pods (kp : string * PodRunInfo), <[kp.1 := kp.2]> pods) (default ∅ o) (range ev)))
    (PodEvents prev) (PodEvents avg)) as (m & E & Hl); [by eauto |]. simpl in E.
  assert (Em : foldl (λ m (kd : string * PodEventInfo), <[kd.1 := foldl (λ pods (kp : string * PodRunInfo),
      <[kp.1 := kp.2]> pods) (default ∅ (m !! kd.1)) (range kd.2)]> m) (PodEvents prev) (range (PodEvents avg)) = m).
  { revert E. generalize (range (PodEvents avg)) (PodEvents prev). clear Hl.
    induction l as [| kd l IH]; intros m0 E; simpl in *; [congruence | by apply IH]. }
  rewrite Em. specialize (Hl dev). destruct (PodEvents avg !! dev) as [ev |]; simpl.
  - destruct Hl as (v & [= <-] & ->). simpl. rewrite Hin. destruct (ev !! pod); [done |].
    destruct (PodEvents prev !! dev); simpl; [done | by rewrite lookup_empty].
  - by rewrite Hl.
Qed.
Lemma copy_measure avg prev dev pod :
  measured_ok avg →
  measure_of dev pod (deepCopyResult avg prev) =
  match measure_of dev pod avg with Some a => Some a | None => measure_of dev pod prev end.
Proof.
  intros Ha. unfold measure_of. pose proof (copy_lookup avg prev dev pod) as E.
  assert (Hb : ∀ m : gmap string PodEventInfo,
    (ev ← m !! dev; i ← ev !! pod; ri_Actual i) = (i ← (ev ← m !! dev; ev !! pod); ri_Actual i))
    by (intros m; by destruct (m !! dev)).
  rewrite !Hb, E. destruct (PodEvents avg !! dev) as [ev |] eqn:Ed; simpl; [| done].
  destruct (ev !! pod) as [i |] eqn:Ei; simpl; [| done]. by destruct (Ha _ _ Ed _ _ Ei) as [a ->].
Qed.
Lemma copy_measured avg prev :
  measured_ok avg → measured_ok prev → measured_ok (deepCopyResult avg prev).
Proof.
  intros Ha Hp dev ev Ed pod i Ei. pose proof (copy_lookup avg prev dev pod) as E. rewrite Ed in E. simpl in E.
  rewrite Ei in E. destruct (PodEvents avg !! dev) as [ev1 |] eqn:E1; simpl in E.
  - destruct (ev1 !! pod) as [i1 |] eqn:Ei1; [injection E as ->; by apply (Ha _ _ E1 _ _ Ei1) |].
    destruct (PodEvents prev !! dev) as [ev2 |] eqn:E2; simpl in E; [| done]. by apply (Hp _ _ E2 pod).
  - destruct (PodEvents prev !! dev) as [ev2 |] eqn:E2; simpl in E; [| done]. by apply (Hp _ _ E2 pod).
Qed.

(** What was sent last of a pod on a disk. *)
Definition last_sent (sent : list PodData) (dev pod : string) : option Workload :=
  foldl (λ o p, match measure_of dev pod p with Some a => Some a | None => o end) None sent.
Definition stream_ok (ev : stream_event) : Prop :=
  match ev with NewStream ok => ok = true | Message resp _ => is_Some resp end.

Record tracks (s : DiskStream) : Prop := mkTracks {
  tk_slots : Forall data_measured (resultArr s);
  tk_len : length (resultArr s) = AverageTime;
  tk_count : 0 <= ms_count s < Z.of_nat AverageTime * 8640;
  tk_prev : measured_ok (previousResult s);
  tk_sent : Forall (λ p, pdata_T p = 1 ∧ measured_ok p) (ms_sent s);
  tk_last : ∀ dev pod a, measure_of dev pod (previousResult s) = Some a →
    last_sent (ms_sent s) dev pod = Some a;
  tk_near : ∀ dev pod a, average_of (resultArr s) dev pod = Some a →
    ∃ a', last_sent (ms_sent s) dev pod = Some a' ∧ near a a'
}.

Lemma tracks_start : tracks stream_start.
Proof.
  split; simpl; try done. by repeat apply Forall_cons_2.
Qed.

Lemma tracks_round s ev :
  stream_ok ev → tracks s → ∃ s', IOISubscribeDisk_round s ev = Ok s' ∧ tracks s'.
Proof.
  intros Hev [Hs Hl Hc Hp Hsent Hlast Hnear]. destruct ev as [ok | resp infos]; simpl in *.
  { subst ok. eexists. split; [done |]. by split. }
  destruct Hev as [resp' ->].
  destruct (parse_measured resp' infos) as (r & Er & Hr). rewrite Er. cbn [obind].
  match goal with |- context [getAverageResult ?x] => set (arr := x) end.
  assert (Harr : Forall data_measured arr) by (by apply Forall_insert).
  assert (Hlen : length arr = AverageTime) by (subst arr; by rewrite length_insert).
  destruct (average_spec arr) as (avg & -> & Havg & Hof); [intros E; by rewrite E in Hlen | done |].
  cbn [obind]. apply data_measured_ok in Havg.
  destruct (compare_spec avg (previousResult s) Havg Hp) as (b & -> & Hb). cbn [obind].
  assert (Hcount : 0 <= (if add64 (ms_count s) 1 =? Z.of_nat AverageTime * 8640 then Z.of_nat AverageTime
                         else add64 (ms_count s) 1) < Z.of_nat AverageTime * 8640).
  { unfold add64, AverageTime in *. rewrite wrap64_id by (unfold fits64; lia).
    destruct (Z.eqb_spec (ms_count s + 1) (Z.of_nat 30 * 8640)); lia. }
  eexists. split; [done |]. destruct b; split; simpl; try done.
  - intros dev pod a Ea. rewrite <- Hof in Ea. destruct (Hb eq_refl _ _ _ Ea) as (a' & Ea' & Hn). eauto.
  - by apply copy_measured.
  - apply Forall_app_2; [done |]. by repeat constructor.
  - intros dev pod a. rewrite copy_measure by done. unfold last_sent. rewrite foldl_app. simpl.
    change (measure_of dev pod (mkPodData 1 (pdata_Generation avg) (PodEvents avg))) with (measure_of dev pod avg).
    destruct (measure_of dev pod avg); [done | apply Hlast].
  - intros dev pod a Ea. rewrite <- Hof in Ea. unfold last_sent. rewrite foldl_app. simpl.
    change (measure_of dev pod (mkPodData 1 (pdata_Generation avg) (PodEvents avg))) with (measure_of dev pod avg).
    rewrite Ea. exists a. by repeat split; apply changed_refl.
Qed.

(** The disk engine is told what pods use.  Whatever messages with a
    payload for disks arrive, on however many streams that could be opened,
    with disks coming and going, IOISubscribeDisk never panics; every event it
    sends is one that the disk engine accepts; and at any time, for every pod
    on every disk, the average over the last messages is within one MiB/s, in
    each direction, of what the engine was sent last for the pod. *)
Theorem measurements_tracked (l : list stream_event) :
  Forall stream_ok l →
  ∃ s, foldM IOISubscribeDisk_round stream_start l = Ok s ∧
    Forall (λ p, pdata_T p = 1 ∧ measured_ok p) (ms_sent s) ∧
    ∀ dev pod a, average_of (resultArr s) dev pod = Some a →
      ∃ a', last_sent (ms_sent s) dev pod = Some a' ∧ near a a'.
Proof.
  intros Hl. destruct (foldM_total IOISubscribeDisk_round tracks stream_start l) as (s & E & Hs).
  - intros s ev Hin. rewrite Forall_forall in Hl. by apply tracks_round, Hl.
  - apply tracks_start.
  - exists s. split; [done |]. split; apply Hs.
Qed.
End MeasureFacts.
