(* ===== verification/RunFacts.v ===== *)
(** * The node agent with all its engines does not panic *)

From S2P Require Export NodeFacts NetSafety RdtAgentFacts MeasureFacts AgentRun.

(** ** Registration of handles *)

Section RegisterFacts.
Context {CH H : Type} `{!EqDecision CH}.
Implicit Types (ehs : list (CH * list H)) (regs : list (CH * H)).

(** The handles of a channel. *)
Fixpoint handles_of (ch : CH) ehs : list H :=
  match ehs with
  | [] => []
  | eh :: ehs => (if decide (eh.1 = ch) then eh.2 else []) ++ handles_of ch ehs
  end.
Definition registered regs : list (CH * list H) := foldl (λ ehs r, RegisterEventHandler r.1 r.2 ehs) [] regs.

Lemma register_keys ch h ehs :
  (RegisterEventHandler ch h ehs).*1 = if decide (ch ∈ ehs.*1) then ehs.*1 else ehs.*1 ++ [ch].
Proof.
  induction ehs as [| eh ehs IH]; cbn [RegisterEventHandler fmap list_fmap]; [done |].
  destruct (decide (eh.1 = ch)) as [E | Hne]; cbn [fmap list_fmap fst].
  - by rewrite decide_True by (rewrite E; by left).
  - fold (ehs.*1) ((RegisterEventHandler ch h ehs).*1). rewrite IH. destruct (decide (ch ∈ ehs.*1)) as [Hin | Hin].
    + by rewrite decide_True by (by right).
    + rewrite decide_False; [done |]. by intros [-> | ?]%elem_of_cons.
Qed.
Lemma handles_absent c ehs : c ∉ ehs.*1 → handles_of c ehs = [].
Proof.
  induction ehs as [| eh ehs IH]; [done |]. intros [Hne Hni]%not_elem_of_cons. simpl.
  rewrite decide_False by done. auto.
Qed.
Lemma register_handles ch h ehs c :
  NoDup ehs.*1 →
  handles_of c (RegisterEventHandler ch h ehs) = handles_of c ehs ++ (if decide (ch = c) then [h] else []).
Proof.
  induction ehs as [| eh ehs IH]; intros Hnd; simpl; [by rewrite app_nil_r |].
  apply NoDup_cons in Hnd as [Hni Hnd]. destruct (decide (eh.1 = ch)) as [E | Hne]; simpl.
  - rewrite E in *. destruct (decide (ch = c)) as [-> | Hc]; [| by rewrite app_nil_r].
    by rewrite handles_absent, !app_nil_r.
  - rewrite IH by done. by rewrite app_assoc.
Qed.
(** Each channel has one entry, with the handles registered for it, in the
    order of their registration. *)
Lemma registered_handles regs :
  NoDup (registered regs).*1 ∧
  ∀ c, handles_of c (registered regs) = (filter (λ r, r.1 = c) regs).*2.
Proof.
  unfold registered. induction regs as [| r regs IH] using rev_ind; [by split; [apply NoDup_nil_2 |] |].
  destruct IH as [Hnd Hh]. rewrite foldl_app. simpl. split.
  - rewrite register_keys. case_decide as Hin; [done |]. apply NoDup_app. split; [done |]. split.
    + intros x Hx ->%list_elem_of_singleton. done.
    + apply NoDup_singleton.
  - intros c. rewrite register_handles by done. rewrite Hh, filter_app, fmap_app. f_equal.
    rewrite filter_cons, filter_nil. by case_decide.
Qed.
End RegisterFacts.

Section RunFacts.
Context `{Q : QuantityLib} `{!GoSort} `{!GoRange} `{!AgentLib} `{!JsonLib} `{!RdtAgentJson} `{!FloatText}.
Context `{!AllocLib} {K C V A : Type} `{!StaticClient K} `{!AggrClient C} `{!ServiceClient V} `{!KubeClient A}.
Context `{!StatesServed K} `{!ServiceAnswers V}.
Context (engines : list engine).
Abbreviation Agent := (AgentRun.NodeAgent K C V).
Implicit Types (a : Agent).

(** ** What arrives on the channels *)

(** Data of pods that both the disk and the network engine accept. *)
Definition pod_fits (p : PodData) : Prop := pod_ok p ∧ net_data_ok (OnNetPod p).
Definition chan_ok (ev : chan_event) : Prop :=
  match ev with ProfileCh p => profile_ok p | PodCh p => pod_fits p | _ => True end.
(** Lists come from an aggregator, streams are opened and their messages are
    for disks, capacities in profiles are readable. *)
Definition agent_event_ok (ev : agent_event) : Prop :=
  match ev with
  | AgentRun.ListArrives pl => from_aggregator (A := A) pl
  | StreamOpens ok => ok = true
  | Measured resp => is_Some resp
  | TakeOther ev => chan_ok ev
  | _ => True
  end.

Lemma update_pod_fits p : update_ok p → pod_fits p.
Proof.
  intros Hp. split; [by apply update_pod_ok |]. destruct Hp as [HT Hev]. split; intros E.
  - rewrite E in HT. apply list_elem_of_In in HT. simpl in HT. lia.
  - intros dev ev Hdev uid i Hi _. by destruct (Hev dev ev Hdev uid i Hi).
Qed.
Lemma measured_pod_fits p : pdata_T p = 1 ∧ measured_ok p → pod_fits p.
Proof. intros [E Hm]. split; split; intros E'; [done | congruence..]. Qed.
Lemma nri_pod_fits ev : pod_fits (mkPodData 0 0 ev).
Proof. by split; split. Qed.

(** ** The invariant *)

Abbreviation disk_inv := (inv (S := Disk K C) dk_eng disk_ok flag_pre event_ok flag_depth).
Abbreviation net_inv := (inv (S := Net K C V) ne_eng net_ok net_flag_pre net_event_ok flag_depth).
Abbreviation rdt_inv := (inv (S := Rdt K C) rd_eng (λ _, True) (λ _ _, True) rdt_event_ok flag_depth).

Record engines_ok a : Prop := mkEnginesOk {
  eo_disk : disk_inv (ag_disk a);
  eo_net : net_inv (ag_net a);
  eo_rdt : rdt_inv (ag_rdt a);
  eo_rdtq : rdt_inv (ag_rdtq a)
}.
Record agent_ok a : Prop := mkAgentOk {
  ao_known : known_ok (CrPodRequest (ag_pods a));
  ao_chan : Forall pod_fits (PodInfoChan (ag_pods a));
  ao_stream : tracks (ag_stream a);
  ao_engines : engines_ok a
}.

(** What the other engines do to the shared variables does not matter. *)
Lemma load_disk_inv a : engines_ok a → disk_inv (load_disk a).
Proof.
  intros [Hd _ _ _]. eapply regroup_inv; [| exact Hd]. apply inv_state in Hd. destruct Hd. by split.
Qed.
Lemma load_net_inv a : engines_ok a → net_inv (load_net a).
Proof.
  intros [_ Hn _ _]. eapply rework_inv; [| exact Hn]. apply inv_state in Hn. destruct Hn. by split.
Qed.
Lemma load_rdt_inv (r : Rdt K C) a : rdt_inv r → rdt_inv (load_rdt r a).
Proof. by apply rdt_same_inv. Qed.

(** ** The event loop *)

Lemma disk_channel_inv ev (d : Disk K C) :
  chan_ok ev → disk_inv d →
  ∃ d', dispatch dk_eng set_dk_eng run_disk (disk_handles ev) (chan_data ev) d = Ok d' ∧ disk_inv d'.
Proof.
  intros Hev Hd. destruct ev as [p | p | p | p | p | p]; simpl.
  - by apply (disk_step_inv d (OnAdmin p)).
  - by apply (disk_step_inv d (OnProfile p)).
  - by apply (disk_step_inv d (OnPolicy p)).
  - by apply (disk_step_inv d (OnPod p)); [apply Hev |].
  - by exists d.
  - by exists d.
Qed.
Lemma net_channel_inv ev (n : Net K C V) :
  chan_ok ev → net_inv n →
  ∃ n', dispatch ne_eng set_ne_eng run_net (net_handles ev) (chan_data ev) n = Ok n' ∧ net_inv n'.
Proof.
  intros Hev Hn. destruct ev as [p | p | p | p | p | p]; simpl.
  - by apply (net_step_inv n (OnNetAdmin p)).
  - by apply (net_step_inv n (OnNetProfile p)).
  - by apply (net_step_inv n (OnNetPolicy p)).
  - by apply (net_step_inv n (OnNetPod p)); [apply Hev |].
  - by exists n.
  - by exists n.
Qed.
Lemma rdt_channel_inv ev (r : Rdt K C) :
  rdt_inv r →
  ∃ r', dispatch rd_eng set_rd_eng run_rdt (rdt_handles ev) (chan_data ev) r = Ok r' ∧ rdt_inv r'.
Proof.
  apply (dispatch_safe rd_eng set_rd_eng run_rdt (λ _, True) (λ _ _, True) rdt_event_ok). intros h Hh _.
  destruct ev; simpl in Hh; try (by apply elem_of_nil in Hh); by apply list_elem_of_singleton in Hh as ->.
Qed.
Lemma rdtq_channel_inv ev (r : Rdt K C) :
  rdt_inv r →
  ∃ r', dispatch rd_eng set_rd_eng run_rdtq (rdtq_handles ev) (chan_data ev) r = Ok r' ∧ rdt_inv r'.
Proof.
  apply (dispatch_safe rd_eng set_rd_eng run_rdtq (λ _, True) (λ _ _, True) rdt_event_ok). intros h Hh _.
  destruct ev; simpl in Hh; try (by apply elem_of_nil in Hh); by apply list_elem_of_singleton in Hh as ->.
Qed.

(** A step of the loop that leaves the pods and the stream alone. *)
Definition only_engines a a' : Prop := ag_pods a' = ag_pods a ∧ ag_stream a' = ag_stream a ∧ engines_ok a'.

Lemma run_engine_ok ev a e :
  chan_ok ev → engines_ok a → ∃ a', run_engine ev a e = Ok a' ∧ only_engines a a'.
Proof.
  intros Hev Ha. pose proof Ha as [Hd Hn Hr Hq]. destruct e; simpl.
  - destruct (disk_channel_inv ev (load_disk a) Hev (load_disk_inv a Ha)) as (d & -> & Hd').
    eexists. split; [done |]. split; [done |]. split; [done |]. by split.
  - destruct (net_channel_inv ev (load_net a) Hev (load_net_inv a Ha)) as (n & -> & Hn').
    eexists. split; [done |]. split; [done |]. split; [done |]. by split.
  - destruct (rdt_channel_inv ev (load_rdt (ag_rdt a) a)) as (r & -> & Hr'); [by apply load_rdt_inv |].
    eexists. split; [done |]. split; [done |]. split; [done |]. by split.
  - destruct (rdtq_channel_inv ev (load_rdt (ag_rdtq a) a)) as (r & -> & Hr'); [by apply load_rdt_inv |].
    eexists. split; [done |]. split; [done |]. split; [done |]. by split.
Qed.
Lemma on_channel_ok ev a :
  chan_ok ev → engines_ok a → ∃ a', on_channel engines ev a = Ok a' ∧ only_engines a a'.
Proof.
  intros Hev Ha. apply (foldM_total _ (only_engines a)); [| done].
  intros a1 e _ (Ep & Es & Ha1). destruct (run_engine_ok ev a1 e Hev Ha1) as (a2 & -> & Ep2 & Es2 & Ha2).
  eexists. split; [done |]. split; [congruence |]. split; [congruence | done].
Qed.

Lemma only_engines_ok a a' : only_engines a a' → agent_ok a → agent_ok a'.
Proof. intros (Ep & Es & Ha') [? ? ? _]. split; [by rewrite Ep.. | by rewrite Es | done]. Qed.
Lemma to_pod_chan_ok l a : Forall pod_fits l → agent_ok a → agent_ok (to_pod_chan l a).
Proof. intros Hl [? ? ? []]. split; [done | by apply Forall_app_2 | done | by split]. Qed.
Lemma store_disk_ok d a : disk_inv d → agent_ok a → agent_ok (store_disk d a).
Proof. intros Hd [? ? ? []]. split; [done.. | by split]. Qed.

Lemma on_stream_ok ev a :
  stream_ok ev → agent_ok a → ∃ a', on_stream ev a = Ok a' ∧ agent_ok a'.
Proof.
  intros Hev Ha. unfold on_stream.
  destruct (tracks_round (ag_stream a) ev Hev (ao_stream _ Ha)) as (s & -> & Hs). simpl.
  eexists. split; [done |]. apply to_pod_chan_ok.
  - apply Forall_drop. eapply Forall_impl; [apply (tk_sent _ Hs) | apply measured_pod_fits].
  - destruct Ha as [? ? _ []]. split; [done.. | by split].
Qed.

Lemma agent_step_ok a ev :
  agent_event_ok ev → agent_ok a → ∃ a', agent_step engines a ev = Ok a' ∧ agent_ok a'.
Proof.
  intros Hev Ha. pose proof Ha as [Hk Hc Hs He].
  destruct ev as [pl | ev | ok | resp | | ev | old new | info disks known | status]; cbn [agent_step].
  - destruct (received_updates_ok (ag_pods a) pl Hev Hk) as (cr & l & -> & Hcr & Hl). simpl.
    eexists. split; [done |]. destruct He. split; simpl; [done | | done | by split].
    apply Forall_app_2; [done |]. eapply Forall_impl; [exact Hl | apply update_pod_fits].
  - eexists. split; [done |]. apply to_pod_chan_ok; [| done]. apply Forall_singleton, nri_pod_fits.
  - by apply on_stream_ok.
  - by apply on_stream_ok.
  - destruct (PodInfoChan (ag_pods a)) as [| p ch] eqn:E; [by eauto |]. apply Forall_cons in Hc as [Hp Hc].
    destruct (on_channel_ok (PodCh p) (set_pods (mkAgentState (CrPodRequest (ag_pods a)) ch) a))
      as (a' & -> & Ha'); [done | by destruct He |].
    eexists. split; [done |]. eapply only_engines_ok; [exact Ha' |]. destruct He. split; [done.. | by split].
  - destruct (on_channel_ok ev a Hev He) as (a' & -> & Ha').
    eexists. split; [done |]. by eapply only_engines_ok.
  - destruct (NodeDeviceStateUpdate_inv old new _ _ (load_disk_inv a He)) as (d & -> & Hd).
    eexists. split; [done |]. by apply store_disk_ok.
  - pose proof (load_disk_inv a He) as Hd. eexists. split; [done |]. apply store_disk_ok; [| done].
    eapply regroup_inv; [| exact Hd]. apply StartDiskProfiler_regroup, Hd.
  - pose proof (load_disk_inv a He) as Hd. eexists. split; [done |]. apply store_disk_ok; [| done].
    eapply regroup_inv; [| exact Hd]. apply StartAnalyzeDiskProfiler_regroup, Hd.
Qed.

Lemma rdt_Initialize_inv io (k : K) (c : option C) : rdt_inv (AgentRdt.Initialize io k c).
Proof. split; [done | done | simpl; unfold flag_depth; by vm_compute | done]. Qed.
Lemma agent_start_ok io k c v : agent_ok (agent_start io k c v).
Proof.
  split; simpl; [apply map_Forall_empty | done | apply tracks_start |]. split; simpl.
  - apply Initialize_inv.
  - apply net_Initialize_inv.
  - apply rdt_Initialize_inv.
  - apply rdt_Initialize_inv.
Qed.
End RunFacts.

(** ** The agent *)

Section Claim.
Context `{Q : QuantityLib} `{!GoSort} `{!GoRange} `{!AgentLib} `{!JsonLib} `{!RdtAgentJson} `{!FloatText}.
Context `{!AllocLib} {K C V A : Type} `{!StaticClient K} `{!AggrClient C} `{!ServiceClient V} `{!KubeClient A}.

End Claim.
