(* ===== verification/RunExamples.v ===== *)
(** * Runs of the node agent with all its engines

    The network engine alone; the measurements that the I/O service sends to
    the agent; and the engines on the agent's shared variables. *)

From S2P Require Export RunFacts NodeFake ServiceFacts NetSafety.

(** ** The network engine *)

(** A service that makes every group settable, and keeps what it was sent. *)
Definition net_service_fake : ServiceClient (list string) :=
  {| rpc_Configure := λ v conf t, (v ++ [conf], inl "0;1;2");
     rpc_GetServiceInfo := λ v t req, inl "52:54:00:aa:00:01" |}.
(** A service that fails. *)
Definition net_service_down : ServiceClient (list string) :=
  {| rpc_Configure := λ v conf t, (v, inr "unavailable");
     rpc_GetServiceInfo := λ v t req, inl "52:54:00:aa:00:01" |}.

Module NetExample.
Import FakeInstances NodeInstances.

#[local] Instance service_fake_answers :
  ServiceAnswers (list string) (ServiceClient0 := net_service_fake).
Proof. intros v conf t. eexists _, _. split; [reflexivity |]. vm_compute. lia. Qed.

Definition admin1 : AdminResourceConfig :=
  mkAdmin true 20 20 20 20 {["kube-system"]} 50 1 5 5 5 5
    (mkLogLevel false false false false false false false false) (mkInterval 2 2 2).
Definition policy1 : Policy :=
  mkPolicy "POOL_SIZE" "All" "CALC_REQUEST_RATIO" "CALC_REQUEST_RATIO" "NONE".
Definition policies1 : gmap string Policy :=
  {["NetGArules" := policy1; "NetBTrules" := policy1; "NetBErules" := policy1]}.
Definition nic (mac ip : string) : ANicInfo :=
  mkANic mac mac ip "masterNic" (of_Z 1000) fzero fzero 10 false.
Definition profile (mac ip : string) : AllProfile := mkProfile ∅ {[mac := nic mac ip]} ∅ 1.
Definition wl1 : Workload := mkWorkload (of_Z 100) (of_Z 50) fzero fzero fzero.
Definition scheduled : PodRunInfo := run_info "p1" GaIndex wl1 wl1 wl1 wl1.
Definition running : PodRunInfo :=
  mkRunInfo None None None None None "p1" 0 RunPod "default" [("network", "/proc/7/ns/net")] "" ""
    "/kubepods/p1" None.
Definition cr (mac : string) : PodData := mkPodData 4 7 {[mac := {["uid-1" := scheduled]}]}.
Definition nri : PodData := mkPodData 0 0 {["dev" := {["uid-1" := running]}]}.
Abbreviation Net1 := (Net Objects (list UpdateNodeIOStatusRequest) (list string)).
Definition start : Net1 := Initialize (mkNSI "n1" ∅ "" ∅) ∅ (Some []) (Some []).
Definition ready : list net_event := [OnNetAdmin admin1; OnNetPolicy policies1].

Definition events1 : list net_event :=
  ready ++ [OnNetPod nri; OnNetProfile (profile "m1" "10.0.0.1"); OnNetPod (cr "m1")].
Definition run (l : list net_event) : outcome Net1 :=
  foldM (net_step (ServiceClient0 := net_service_fake)) start l.

Lemma net_engine_never_panics_witness : ∃ n, run events1 = Ok n ∧ net_ok n.
Proof.
  destruct (net_engine_never_panics (ServiceClient0 := net_service_fake) (mkNSI "n1" ∅ "" ∅) (∅ : Objects)
              (Some ([] : list UpdateNodeIOStatusRequest)) (Some ([] : list string)) events1)
    as (n & E & Hn & _).
  - unfold events1, ready. repeat apply Forall_cons_2; try apply Forall_nil_2; simpl; try exact I;
      try (split; intros E; try discriminate E).
    unfold net_cr_ok. simpl. rewrite !map_Forall_singleton. intros _.
    split; try (eexists; reflexivity). split; vm_compute; discriminate.
  - exists n. split; [exact E | exact Hn].
Defined.

(** The pod of [events1] is registered, in its group and with the node's
    address, and its limit and the best-effort group's are set. *)
Example pod_registered :
  match run events1 with
  | Ok n => ClientHandlerChan n =
      [Configure "INTERVAL" "2" NetIOIType;
       RegisterApp "uid-1" "0 /proc/7/ns/net /sys/fs/cgroup/kubepods/p1 eth0=10.0.0.1" NetIOIType;
       SetAppLimit "0.uid-1" [mkBWLimit "0" "100" "50" 0 0] NetIOIType;
       SetAppLimit "2" [mkBWLimit "0" "700" "750" 0 0] NetIOIType]
  | Crash _ => False
  end.
Proof. vm_compute. reflexivity. Qed.

(** A service that does not answer Configure stops the agent: the answer is
    dereferenced although there is none. *)
Example configure_failure_panics :
  foldM (net_step (ServiceClient0 := net_service_down)) start
    (ready ++ [OnNetProfile (profile "m1" "10.0.0.1")]) = Crash NilDeref.
Proof. vm_compute. reflexivity. Qed.

(** An API server that refuses the first update it gets. *)
Definition static_flaky : StaticClient nat :=
  {| static_get := λ k name, inr (NotFound name);
     static_create := λ k name o, (S k, if (k =? 0)%nat then Some (NotFound "timeout") else None);
     static_update := λ k name o, (S k, None);
     static_update_status := λ k name o, (S k, None) |}.
(** The service's groups are never made when the first publication fails: the
    profile is remembered before it is published, and taken for unchanged when
    it comes again. *)
Example failed_publication_skips_configure :
  match foldM (net_step (StaticClient0 := static_flaky) (ServiceClient0 := net_service_fake))
          (Initialize (mkNSI "n1" ∅ "" ∅) O (Some ([] : list UpdateNodeIOStatusRequest)) (Some []))
          (ready ++ replicate 3 (OnNetProfile (profile "m1" "10.0.0.1"))) with
  | Ok n => IoiClient n = Some []
  | Crash _ => False
  end.
Proof. vm_compute. reflexivity. Qed.

(** The NIC "m2" was replaced by "m1"; the pod is scheduled on the new one. *)
Definition replaced : list net_event :=
  ready ++ [OnNetPod nri; OnNetProfile (profile "m2" "10.0.0.1"); OnNetProfile (profile "m1" "10.0.0.1");
            OnNetPod (cr "m1")].
Definition reported (n : Net1) : list (list (list string)) :=
  map (λ r, map (λ b, (map_to_list (DeviceBwInfo b)).*1) (IoBw r)) (default [] (ne_client n)).
(** The replaced NIC stays, and is what is reported: the new one is not. *)
Example replaced_nic_reported :
  match run replaced with
  | Ok n => (map_to_list (ne_Profile n)).*1 = ["m1"] ∧ reported n = [[["m2"]]]
  | Crash _ => False
  end.
Proof. vm_compute. split; reflexivity. Qed.
End NetExample.

(** ** Measurements from the I/O service to the agent *)

Module MeasureExample.
Import FakeInstances NodeInstances ServiceInstances.
Import ServiceExample.

Definition disk_a : ADiskInfo :=
  mkADisk "sda" "8:0" "emptyDir" "/data" "100Gi" (of_Z 2000) (of_Z 1000) (of_Z 1000)
    {["32k" := of_Z 1]} {["32k" := of_Z 1]} [] [].
Definition disks_a : gmap string ADiskInfo := {["d1" := disk_a]}.
(** A pod that reads 60 MiB/s, all the time. *)
Definition steady : gmap string RW :=
  {["uid-1" := mkRW {["8:0" := <[5%nat := of_Z (60 * 1048576)]> (replicate 6 fzero)]} ∅]}.
Definition service_rounds (n : nat) : outcome (list AppsBandwidth * DiskSvc Bolt) :=
  foldM (report_round quiet_stream) ([], served1) (replicate n steady).
Definition agent_rounds (msgs : list AppsBandwidth) : outcome DiskStream :=
  foldM IOISubscribeDisk_round stream_start
    (NewStream true :: map (λ m, Message (Some m) disks_a) msgs).

Lemma measurements_tracked_witness :
  ∃ s, agent_rounds (match service_rounds 2 with Ok (l, _) => l | Crash _ => [] end) = Ok s ∧
    Forall (λ p, pdata_T p = 1 ∧ measured_ok p) (ms_sent s).
Proof.
  destruct (measurements_tracked (NewStream true ::
    map (λ m, Message (Some m) disks_a) (match service_rounds 2 with Ok (l, _) => l | Crash _ => [] end)))
    as (s & E & Hs & _).
  - constructor; [reflexivity |]. apply Forall_map, Forall_true. intros m. eexists. reflexivity.
  - exists s. split; [exact E | exact Hs].
Defined.

(** Steady use is under-reported.  The service reports only changes; the
    agent averages the last thirty messages, counting those that never came.
    A pod that reads 60 MiB/s all the time causes one message, here in
    twenty rounds of the service, and the disk engine is told 2 MiB/s. *)
Theorem steady_use_underreported :
  match service_rounds 20 with
  | Ok (msgs, _) =>
      length msgs = 1%nat ∧
      match agent_rounds msgs with
      | Ok s => last_sent (ms_sent s) "d1" "uid-1"
                = Some (mkWorkload (of_Z 2) fzero fzero fzero fzero)
      | Crash _ => False
      end
  | Crash _ => False
  end.
Proof.
  assert (E : match service_rounds 20 with
              | Ok (msgs, _) => Some (length msgs, match agent_rounds msgs with
                                | Ok s => last_sent (ms_sent s) "d1" "uid-1" | Crash _ => None end)
              | Crash _ => None
              end = Some (1%nat, Some (mkWorkload (of_Z 2) fzero fzero fzero fzero))) by vm_eq.
  destruct (service_rounds 20) as [[msgs s] |]; [| discriminate E]. injection E as El Ea.
  split; [done |]. by destruct (agent_rounds msgs).
Qed.
End MeasureExample.

(** ** The whole agent *)

(** A text in the place of the JSON that registers a container. *)
Definition rdt_json_fake : RdtAgentJson :=
  {| marshal_rdt_info := λ i,
       let c := rdt_ClassInfo i in
       str_join " " (RDTClass i :: map (λ x, pretty (to_int64 x))
                       [L3CacheReq c; L3CacheLim c; MbaReq c; MbaLim c]) |}.

Module RunExample.
Import FakeInstances NodeInstances ServiceInstances.
#[local] Existing Instance DiskExample.objects_served.
#[local] Existing Instance rdt_json_fake.
#[local] Existing Instance NetExample.service_fake_answers.
#[local] Existing Instance net_service_fake.

(** ** Registration of a container *)

Definition pod_q : Pod := mkPod "p1" "default" "uid-1" {[RDTQuantityConfigAnno := "50MiB"]} "n1" [].
Definition container_q : ContainerInfo :=
  mkContainer RunPod "uid-1" "p1" "main" "c1" "default" "" "50MiB" "/kubepods/p1".
Definition anno_q : RDTAnnotationResource := mkRDTAnno (mkRDTRes "50MiB" "10MBps") (mkRDTRes "50MiB" "10MBps") "p1".

Lemma quantity_registration_witness :
  ∃ l3_request l3_limit mb_request mb_limit,
    (match class_request anno_q with inl r => DevRequest r | inr _ => None end) =
      Some (mkDevReq "p1" (only_in l3_request) (only_in l3_limit) (only_in mb_request) (only_in mb_limit)) ∧
    IOIRegisterRDTQuantity container_q =
      [RegisterApp "c1"
         (marshal_rdt_info (mkRdtApp "main" "/kubepods/p1" "p1" "uid-1" "p1"
            (mkClassInfo fzero l3_limit mb_request mb_limit))) RDTQuantityIOIType].
Proof.
  destruct (class_request anno_q) as [req | e] eqn:E; [| vm_compute in E; discriminate E].
  apply (quantity_registration pod_q container_q (mkRDTAnno (ra_Requests anno_q) (ra_Limits anno_q) "") anno_q req);
    [reflexivity | discriminate | reflexivity | reflexivity | exact E].
Defined.

(** ** A run of the agent *)

(** The node's label asks for all resources. *)
Definition engines1 : list engine :=
  enabled (init_switch {[IoiLabel := "all"; CsiSeperatedLabel := "true"]}) [NetE; DiskE; RdtqE; RdtE].
Abbreviation Agent1 := (AgentRun.NodeAgent Objects (list UpdateNodeIOStatusRequest) (list string)).
Definition start1 : Agent1 := agent_start (InitStaticCR "n1" "10.0.0.1" 8997) ∅ (Some []) (Some []).

(** The policies for disks and for NICs. *)
Definition policies1 : gmap string Policy := DiskExample.policies1 ∪ NetExample.policies1.
(** The container runtime names the pod before the aggregator's list is
    taken off the channel; the pod is on the disk. *)
Definition events1 : list agent_event :=
  [NriPods {["dev" := {["uid-1" := NetExample.running]}]};
   AgentRun.ListArrives NodeExample.list1; StreamOpens true;
   TakeOther (AdminCh DiskExample.admin1); TakeOther (ProfileCh DiskExample.profile1);
   TakeOther (ProfileCh (NetExample.profile "m1" "10.0.0.1"));
   TakePod; TakeOther (PolicyCh policies1); TakePod; TakePod; TakePod; TakePod;
   Measured (Some (mkApps 1 ∅)); TakeOther (ClassCh (mkClassData 0 ∅))].
Definition run1 : outcome Agent1 := foldM (agent_step engines1) start1 events1.


Example engines_enabled : engines1 = [NetE; DiskE; RdtqE; RdtE].
Proof. vm_compute. reflexivity. Qed.
(** The pod has been registered on its disk, with its limit; the service has
    made the groups of the NIC; and the reports are of the list's generation. *)
Example pod_served :
  match run1 with
  | Ok a =>
      AgentDisk.ClientHandlerChan (ag_disk a) =
        [Configure "INTERVAL" "2" DiskIOIType;
         RegisterApp "uid-1" "/sys/fs/cgroup/kubepods/p1 8:0" DiskIOIType;
         SetAppLimit "1.uid-1" [mkBWLimit "8:0" "5242880" "5242880" 0 0] DiskIOIType] ∧
      IoiClient (ag_net a) = Some ["0=800;1=800;2=160"] ∧
      map rep_ObservedGeneration (default [] (sh_client (ag_shared a))) = [5; 5]
  | Crash _ => False
  end.
Proof. vm_compute. by repeat split. Qed.
End RunExample.
