(* ===== verification/SourceFacts.v ===== *)
(** * Facts about the sources of the agent's events

    The administrator's configuration and the policies are read as they are
    written; when reading them stops the agent; what the container runtime's
    first call announces. *)

From S2P Require Export AgentSource.

(** ** Texts of lines *)

(** [l], a line each. *)
Fixpoint print_lines (l : list string) : string :=
  match l with [] => EmptyString | x :: l => x +:+ String newline (print_lines l) end.
Definition print_setting (kv : string * string) : string := kv.1 +:+ String "=" kv.2.
Definition print_settings (l : list (string * string)) : string := print_lines (map print_setting l).

(** Text without [c]. *)
Definition free_of (c : ascii) (s : string) : bool := str_all (not_char c) s.
Definition word (s : string) : bool := free_of newline s && free_of "="%char s && free_of ":"%char s.
Lemma word_spec s :
  word s = true → free_of newline s = true ∧ free_of "="%char s = true ∧ free_of ":"%char s = true.
Proof. unfold word. rewrite !andb_true_iff. tauto. Qed.

Lemma config_lines_print l :
  Forall (λ x, free_of newline x = true) l → config_lines (print_lines l) = l.
Proof.
  unfold config_lines. induction 1 as [| x l Hx Hl IH]; [done |]. simpl print_lines.
  rewrite str_split_app by (by apply str_split_plain).
  pose proof (str_split_nonempty newline (print_lines l)). simpl.
  destruct (str_split newline (print_lines l)); [done |]. by f_equal.
Qed.

Lemma split_setting c x y :
  free_of c x = true → free_of c y = true → str_split c (x +:+ String c y) = [x; y].
Proof. intros Hx Hy. rewrite str_split_app by (by apply str_split_plain). by rewrite str_split_plain. Qed.

Lemma free_of_app c x y : free_of c (x +:+ y) = free_of c x && free_of c y.
Proof. apply str_all_app. Qed.

Definition words (l : list (string * string)) : Prop :=
  Forall (λ kv, word kv.1 = true ∧ word kv.2 = true) l.
Lemma config_lines_settings l : words l → config_lines (print_settings l) = map print_setting l.
Proof.
  intros Hl. apply config_lines_print. rewrite Forall_map. eapply Forall_impl; [exact Hl |].
  intros [x y] [Hx Hy]. simpl in *. unfold print_setting. rewrite free_of_app. simpl.
  apply word_spec in Hx as (-> & _), Hy as (Hy & _). unfold free_of in *. simpl. by rewrite Hy.
Qed.
Lemma settings_print l : words l → settings (config_lines (print_settings l)) = l.
Proof.
  intros Hl. rewrite config_lines_settings by done. induction Hl as [| [x y] l [Hx Hy] Hl IH]; [done |].
  simpl in *. apply word_spec in Hx as (_ & Hx & _), Hy as (_ & Hy & _). unfold print_setting at 1. simpl.
  by rewrite split_setting, IH.
Qed.

(** Numbers are words. *)
Lemma free_of_digits c z : is_hex c = false → free_of c (format_dec z) = true.
Proof.
  intros Hc. eapply (str_all_impl is_hex); [intros a Ha; by apply is_hex_not |].
  by apply (format_base_hex 10 20 z EmptyString).
Qed.
Lemma Itoa_word z : word (Itoa z) = true.
Proof.
  assert (Hu : ∀ u, word (format_dec u) = true) by (intros u; unfold word; by rewrite !free_of_digits).
  unfold Itoa. destruct (z <? 0); [| done]. specialize (Hu (- z)). apply word_spec in Hu as (H1 & H2 & H3).
  unfold word, free_of in *. simpl. by rewrite H1, H2, H3.
Qed.
Lemma Atoi_or_Itoa old z : fits64 z → Atoi_or old (Itoa z) = z.
Proof. intros Hz. unfold Atoi_or. by rewrite ParseInt_Itoa. Qed.
Lemma positive_or_Itoa old z : fits64 z → 0 < z → positive_or old (Itoa z) = z.
Proof.
  intros Hz Hp. unfold positive_or. rewrite ParseInt_Itoa by done. by destruct (Z.leb_spec z 0); [lia |].
Qed.

(** ** The administrator's configuration *)

Section AdminFacts.
Context `{!RegexpLib} `{!LogJson}.

(** Reading the pools returns when every line has an equals sign. *)
Definition has_equals (line : string) : Prop := free_of "="%char line = false.
Lemma split_equals line : has_equals line ↔ ∃ x y l, str_split "="%char line = x :: y :: l.
Proof.
  split.
  - intros Hf. destruct (str_split "="%char line) as [| x [| y l]] eqn:E; [| | by eauto].
    + by apply str_split_nonempty in E.
    + exfalso. revert x E. unfold has_equals, free_of in Hf. induction line as [| a r IH]; [done |].
      intros x E. simpl in *. unfold not_char in Hf at 1. destruct (Ascii.eqb a "="); simpl in *.
      * injection E as _ E. by apply str_split_nonempty in E.
      * destruct (str_split "="%char r) as [| z zs] eqn:Er; [by apply str_split_nonempty in Er |].
        injection E as _ ->. by apply (IH Hf z).
  - intros (x & y & l & E). destruct (free_of "="%char line) eqn:Hf; [| done].
    by rewrite (str_split_plain _ _ Hf) in E.
Qed.
Lemma pool_line_total acc line : has_equals line ↔ ∃ r, pool_line acc line = Ok r.
Proof.
  rewrite split_equals. unfold pool_line. destruct acc as [be sys].
  destruct (str_split "="%char line) as [| x [| y l]]; split; try (by intros (? & ? & ? & ?)); try (by intros [? ?]);
    eauto.
Qed.
Lemma pools_total lines acc : Forall has_equals lines ↔ ∃ r, foldM pool_line acc lines = Ok r.
Proof.
  revert acc. induction lines as [| x lines IH]; intros acc; simpl; [by split; eauto |].
  rewrite Forall_cons, (pool_line_total acc x). split.
  - intros [[r ->] Hl]. by apply IH.
  - intros [r E]. apply obind_Ok in E as (acc' & -> & E). split; [by eauto |]. apply (IH acc'). eauto.
Qed.
Definition pool_text_ok (text : option string) : Prop :=
  ∀ t, text = Some t → Forall has_equals (config_lines t).
Lemma pools_returns text : pool_text_ok text ↔ ∃ r, pools text = Ok r.
Proof.
  unfold pool_text_ok, pools. destruct text as [t |]; [| by split; [eauto | done]].
  rewrite <- pools_total. naive_solver.
Qed.
(** The pattern of the nodes, the first one, can be compiled. *)
Definition pattern_ok (NodeName : string) (text : option string) : Prop :=
  ∀ t v, text = Some t →
    list_find (λ kv, kv.1 = "nodes") (settings (config_lines t)) ≫= (λ x, Some x.2.2) = Some v →
    is_Some (FindString v NodeName).
Lemma node_meant_returns n l :
  (∀ v, list_find (λ kv, kv.1 = "nodes") l ≫= (λ x, Some x.2.2) = Some v → is_Some (FindString v n)) ↔
  ∃ b, node_meant n l = Ok b.
Proof.
  induction l as [| [x v] l IH]; simpl; [by split; eauto |].
  destruct (String.eqb_spec x "nodes") as [-> | Hne].
  - rewrite decide_True by done. simpl. split.
    + intros Hv. destruct (Hv v eq_refl) as [sub ->]. eauto.
    + intros [b E] v' [= <-]. destruct (FindString v n); [by eexists | done].
  - rewrite decide_False by done. rewrite <- IH.
    by destruct (list_find (λ kv, kv.1 = "nodes") l) as [[i [k u]] |].
Qed.

(** When the administrator's configuration stops the agent.
    GetAdminConfig returns exactly when every line of the two pools has an
    equals sign, a final line without a line end apart, and the pattern of the
    nodes can be compiled; otherwise the agent panics, an empty line in the
    pools being enough.  Whatever it returns, the four minimal bandwidths are
    positive and the agent's own namespaces are on the white list. *)
Theorem admin_config_returns (NodeName : string) (ad : ConfigMap) :
  (pool_text_ok (cm_Data ad !! "diskpools") ∧ pool_text_ok (cm_Data ad !! "networkpools") ∧
   pattern_ok NodeName (cm_Data ad !! "loglevel")) ↔
  ∃ r, GetAdminConfig NodeName ad = Ok r ∧
    let a := ar_data r in
    0 < Disk_min_pod_in_bw a ∧ 0 < Disk_min_pod_out_bw a ∧ 0 < Net_min_pod_in_bw a ∧
    0 < Net_min_pod_out_bw a ∧ "ioi-system" ∈ NamespaceWhitelist a ∧ "kube-system" ∈ NamespaceWhitelist a.
Proof.
  assert (Hmin : ∀ text, let m := min_bws text in
            0 < mn_disk_in m ∧ 0 < mn_disk_out m ∧ 0 < mn_net_in m ∧ 0 < mn_net_out m).
  { intros [t |]; [| simpl; lia]. simpl. apply foldl_inv; [simpl; lia |]. intros m [x v] _ Hm.
    assert (Hpos : ∀ old, 0 < old → 0 < positive_or old v).
    { intros old Ho. unfold positive_or. destruct (ParseInt v 64) as [z |]; [| done].
      destruct (Z.leb_spec z 0); lia. }
    unfold min_line. repeat (destruct (String.eqb _ _); [simpl; split_and!; try apply Hpos; lia |]). lia. }
  rewrite !pools_returns. unfold GetAdminConfig. split.
  - intros ([d Ed] & [n En] & Hp). rewrite Ed, En. cbn [obind].
    assert (Hl : ∀ t, cm_Data ad !! "loglevel" = Some t → ∃ ll, log_levels NodeName t = Ok ll).
    { intros t Et. unfold log_levels. destruct (proj1 (node_meant_returns NodeName (settings (config_lines t)))) as [b ->];
        [intros v Hv; by apply (Hp t v) | simpl; by eauto]. }
    destruct (cm_Data ad !! "loglevel") as [t |]; [destruct (Hl t eq_refl) as [ll ->] |]; cbn [obind];
      eexists; (split; [done |]); simpl; destruct (Hmin (cm_Data ad !! "min_pod_bw")) as (? & ? & ? & ?);
      split_and!; try done; set_solver.
  - intros (r & E & _). apply obind_Ok in E as (d & -> & E). apply obind_Ok in E as (n & -> & E).
    split_and!; [by eauto.. |]. intros t v Et Hv. rewrite Et in E. apply obind_Ok in E as (lg & El & _).
    apply obind_Ok in El as (ll & El & _). unfold log_levels in El. apply obind_Ok in El as (b & Eb & _).
    by apply (proj2 (node_meant_returns NodeName (settings (config_lines t)))); [eauto |].
Qed.

(** *** Writing a configuration *)

(** The levels that the file can ask for; by default, none. *)
Inductive level := NoLevel | InfoLevel | DebugLevel.
Definition level_name (l : level) : string :=
  match l with NoLevel => "warn" | InfoLevel => "info" | DebugLevel => "debug" end.
(** What a level turns on: the information of the agent, the aggregator and the
    service, and their debugging; nothing of the scheduler. *)
Definition levels_of (l : level) : IOILogLevel :=
  match l with
  | NoLevel => Agent.mkLogLevel false false false false false false false false
  | InfoLevel => Agent.mkLogLevel true false false false true false true false
  | DebugLevel => Agent.mkLogLevel true true false false true true true true
  end.
(** The new INF and DBG of the agent's log. *)
Definition agent_log (l : level) : Z * Z :=
  match l with NoLevel => (3, 4) | InfoLevel => (1, 4) | DebugLevel => (1, 2) end.
Definition service_log (l : level) : Persist.LogLevelConfigInfo :=
  match l with
  | NoLevel => Persist.mkLogLevel false false
  | InfoLevel => Persist.mkLogLevel true false
  | DebugLevel => Persist.mkLogLevel true true
  end.

(** The settings of deployments/admin-configmap.yaml, by their names there. *)
Record AdminSettings := mkAdminSettings {
  diskpools_sysPool : Z; diskpools_bePool : Z; networkpools_sysPool : Z; networkpools_bePool : Z;
  disk_read : Z; disk_write : Z; net_send : Z; net_receive : Z;
  loglevel_nodes : string; loglevel_level : level;
  namespaceWhitelist : list string; diskRatio_system : Z;
  netInterval : Z; diskInterval : Z; rdtInterval : Z; profiler_times : Z
}.
Definition settings_map (f : AdminSettings) : ConfigMap :=
  mkConfigMap AdminNamespace AdminName ∅
    {["diskpools" := print_settings
        [("sysPool", Itoa (diskpools_sysPool f)); ("bePool", Itoa (diskpools_bePool f))];
      "networkpools" := print_settings
        [("sysPool", Itoa (networkpools_sysPool f)); ("bePool", Itoa (networkpools_bePool f))];
      "min_pod_bw" := print_settings
        [("disk_read", Itoa (disk_read f)); ("disk_write", Itoa (disk_write f));
         ("net_send", Itoa (net_send f)); ("net_receive", Itoa (net_receive f))];
      "loglevel" := print_settings [("nodes", loglevel_nodes f); ("level", level_name (loglevel_level f))];
      "namespaceWhitelist" := print_lines (namespaceWhitelist f);
      "diskRatio" := print_settings [("system", Itoa (diskRatio_system f))];
      "reportInterval" := print_settings
        [("netInterval", Itoa (netInterval f)); ("diskInterval", Itoa (diskInterval f));
         ("rdtInterval", Itoa (rdtInterval f))];
      "profiler" := print_settings [("times", Itoa (profiler_times f))]]}.
Record settings_ok (f : AdminSettings) : Prop := mkSettingsOk {
  so_fits : Forall fits64
    [diskpools_sysPool f; diskpools_bePool f; networkpools_sysPool f; networkpools_bePool f; disk_read f;
     disk_write f; net_send f; net_receive f; diskRatio_system f; netInterval f; diskInterval f; rdtInterval f;
     profiler_times f];
  so_mins : Forall (λ z, 0 < z) [disk_read f; disk_write f; net_send f; net_receive f];
  so_nodes : word (loglevel_nodes f) = true;
  so_spaces : Forall (λ ns, free_of newline ns = true) (namespaceWhitelist f)
}.

Lemma pools_print be sys :
  fits64 be → fits64 sys →
  pools (Some (print_settings [("sysPool", Itoa sys); ("bePool", Itoa be)])) = Ok (be, sys).
Proof.
  intros Hb Hs. unfold pools.
  rewrite config_lines_settings by (repeat constructor; try done; apply Itoa_word).
  unfold print_setting. cbn [map foldM fst snd]. unfold pool_line.
  rewrite !split_setting by (done || apply (word_spec _ (Itoa_word _))). cbn [obind].
  by rewrite !ParseInt_Itoa.
Qed.

Ltac words_done := repeat constructor; try done; apply Itoa_word.

Lemma mins_print i o ni no :
  Forall fits64 [i; o; ni; no] → Forall (λ z, 0 < z) [i; o; ni; no] →
  min_bws (Some (print_settings [("disk_read", Itoa i); ("disk_write", Itoa o); ("net_send", Itoa ni);
                                 ("net_receive", Itoa no)])) = mkMins i o ni no.
Proof.
  rewrite !Forall_cons. intros (? & ? & ? & ? & _) (? & ? & ? & ? & _). unfold min_bws.
  rewrite settings_print by words_done. cbn. by rewrite !positive_or_Itoa.
Qed.
Lemma intervals_print n d r :
  fits64 n → fits64 d → fits64 r →
  intervals (Some (print_settings [("netInterval", Itoa n); ("diskInterval", Itoa d); ("rdtInterval", Itoa r)])) =
    mkInterval n d r.
Proof.
  intros ? ? ?. unfold intervals. rewrite settings_print by words_done. cbn. by rewrite !Atoi_or_Itoa.
Qed.
Lemma last_value_print old name z :
  word name = true → fits64 z → last_value old (Some (print_settings [(name, Itoa z)])) = z.
Proof.
  intros Hn Hz. unfold last_value. rewrite settings_print by words_done. cbn. by rewrite Atoi_or_Itoa.
Qed.
Lemma whitelist_print (l : list string) :
  Forall (λ ns, free_of newline ns = true) l →
  whitelist (Some (print_lines l)) = {["ioi-system"; "kube-system"]} ∪ list_to_set l.
Proof. intros Hl. unfold whitelist. rewrite config_lines_print by done. set_solver. Qed.
Lemma log_print n re sub lv :
  word re = true → FindString re n = Some sub →
  log_levels n (print_settings [("nodes", re); ("level", level_name lv)]) =
    Ok (levels_of (if String.eqb sub "" then NoLevel else lv)).
Proof.
  intros Hw Hf. unfold log_levels.
  rewrite settings_print by (repeat constructor; try done; by destruct lv).
  cbn [node_meant]. rewrite String.eqb_refl, Hf. cbn [obind]. by destruct (String.eqb sub ""), lv.
Qed.

End AdminFacts.

(** ** Policies *)

Definition rules_text (p : Policy) : string :=
  print_lines ["Throttle:" +:+ Throttle p; "Select_method:" +:+ Select_method p;
    "Compress_method:" +:+ Compress_method p; "Decompress_method:" +:+ Decompress_method p;
    "Report_Flag:" +:+ Report_Flag p].
Definition names (m : gmap string Policy) : list string := (map_to_list m).*1.
Definition group_text (m : gmap string Policy) : string :=
  print_lines (map (λ x, x +:+ String ":" x) (names m)).
(** The map that gives every group a policy of its own name. *)
Definition policy_map (disk net : gmap string Policy) : ConfigMap :=
  mkConfigMap AdminNamespace PolicyName ∅
    (<["DiskGroup" := group_text disk]> (<["NetGroup" := group_text net]> (rules_text <$> (net ∪ disk)))).

Definition policy_ok (p : Policy) : Prop :=
  Forall (λ x, free_of newline x = true ∧ free_of ":"%char x = true)
    [Throttle p; Select_method p; Compress_method p; Decompress_method p; Report_Flag p].
Definition policies_ok (m : gmap string Policy) : Prop :=
  map_Forall (λ x p, word x = true ∧ x ≠ "DiskGroup" ∧ x ≠ "NetGroup" ∧ policy_ok p) m.

Lemma parse_rules_text p : policy_ok p → parse_rules (rules_text p) = Ok p.
Proof.
  unfold policy_ok. rewrite !Forall_cons. intros ([] & [] & [] & [] & [] & _). unfold parse_rules, rules_text.
  rewrite config_lines_print by (repeat constructor; rewrite free_of_app; by apply andb_true_iff).
  cbn [length Nat.ltb Nat.leb]. unfold rule. cbn [lookup list_lookup].
  change ("Throttle:" +:+ Throttle p) with ("Throttle" +:+ String ":" (Throttle p)).
  change ("Select_method:" +:+ Select_method p) with ("Select_method" +:+ String ":" (Select_method p)).
  change ("Compress_method:" +:+ Compress_method p) with ("Compress_method" +:+ String ":" (Compress_method p)).
  change ("Decompress_method:" +:+ Decompress_method p) with ("Decompress_method" +:+ String ":" (Decompress_method p)).
  change ("Report_Flag:" +:+ Report_Flag p) with ("Report_Flag" +:+ String ":" (Report_Flag p)).
  rewrite !split_setting by done. by destruct p.
Qed.
Lemma rules_text_set p : String.eqb (rules_text p) "" = false.
Proof. by unfold rules_text. Qed.

(** A group's lines give each name in it its policy. *)
Lemma parse_group (pl : ConfigMap) (P : gmap string Policy) l po m :
  (∀ x, x ∈ l → word x = true) →
  (∀ x, x ∈ l → ∃ p, P !! x = Some p ∧ policy_ok p ∧ cm_Data pl !! x = Some (rules_text p)) →
  ∃ po' m', foldM (policy_line pl) (po, m) (map (λ x, x +:+ String ":" x) l) = Ok (po', m') ∧
    ∀ k, m' !! k = if decide (k ∈ l) then P !! k else m !! k.
Proof.
  revert po m. induction l as [| x l IH]; intros po m Hw Hp.
  { exists po, m. split; [done |]. intros k. by rewrite decide_False by (by apply not_elem_of_nil). }
  destruct (Hp x) as (p & EP & Hok & Ed); [by left |].
  pose proof (word_spec _ (Hw x ltac:(by left))) as (_ & _ & Hx). cbn [map foldM]. unfold policy_line at 1.
  rewrite split_setting, Ed by done. change (default EmptyString (Some (rules_text p))) with (rules_text p).
  rewrite rules_text_set, parse_rules_text by done.
  cbn [obind]. destruct (IH p (<[x := p]> m)) as (po' & m' & -> & Hm');
    [by intros; apply Hw; right | by intros; apply Hp; right |].
  exists po', m'. split; [done |]. intros k. rewrite Hm', lookup_insert.
  destruct (decide (k ∈ l)) as [Hk | Hk]; [by rewrite decide_True by (by right) |].
  destruct (decide (x = k)) as [<- | Hne]; [by rewrite decide_True by (by left) |].
  rewrite decide_False; [done |]. by intros [-> |]%elem_of_cons.
Qed.

Lemma parse_group_text (pl : ConfigMap) (P m : gmap string Policy) :
  dom m ⊆ dom P → map_Forall (λ x p, word x = true ∧ policy_ok p ∧ cm_Data pl !! x = Some (rules_text p)) P →
  ∃ m', ParsePolicy pl (group_text m) = Ok m' ∧
    ∀ k, m' !! k = if decide (k ∈ dom m) then P !! k else None.
Proof.
  intros Hd HP. unfold ParsePolicy, group_text.
  assert (Hn : ∀ x, x ∈ names m ↔ x ∈ dom m).
  { intros x. unfold names. rewrite elem_of_dom. split.
    - intros ([k p] & -> & Hin)%list_elem_of_fmap. apply elem_of_map_to_list in Hin. by exists p.
    - intros [p E]. apply list_elem_of_fmap. exists (x, p). split; [done |]. by apply elem_of_map_to_list. }
  assert (Hin : ∀ x, x ∈ names m → ∃ p, P !! x = Some p).
  { intros x Hx%Hn%Hd. by apply elem_of_dom in Hx. }
  rewrite config_lines_print.
  - destruct (parse_group pl P (names m) policy_zero ∅) as (po & m' & -> & Hm').
    + intros x [p E]%Hin. by apply (HP x p).
    + intros x [p E]%Hin. exists p. split; [done |]. by apply (HP x p).
    + exists m'. split; [done |]. intros k. rewrite Hm', lookup_empty.
      destruct (decide (k ∈ names m)) as [Hk | Hk], (decide (k ∈ dom m)) as [Hk' | Hk']; try done.
      * by apply Hn in Hk. * by apply Hn in Hk'.
  - rewrite Forall_map. apply Forall_forall. intros x [p E]%Hin. destruct (HP x p E) as [Hw _].
    apply word_spec in Hw as (Hw & _). rewrite free_of_app. unfold free_of in *. simpl. by rewrite Hw.
Qed.

(** Policies are read as they are written.  For any policies of the disk
    and of the network groups, the map that names a policy for each group and
    lists its five rules gives back exactly these policies. *)
Theorem policy_roundtrip (disk net : gmap string Policy) :
  policies_ok disk → policies_ok net →
  AnalysisPolicyConfig (policy_map disk net) = Ok (net ∪ disk).
Proof.
  intros Hd Hn. set (P := net ∪ disk).
  assert (HP : policies_ok P) by (by apply map_Forall_union_2).
  assert (Hdata : map_Forall (λ x p, word x = true ∧ policy_ok p ∧
                    cm_Data (policy_map disk net) !! x = Some (rules_text p)) P).
  { intros x p E. destruct (HP x p E) as (Hw & H1 & H2 & Hok). split; [done |]. split; [done |].
    simpl. rewrite !lookup_insert_ne by done. fold P. by rewrite lookup_fmap, E. }
  unfold AnalysisPolicyConfig. cbn [cm_Data policy_map].
  rewrite lookup_insert_eq, lookup_insert_ne, lookup_insert_eq by done. cbn [from_option id].
  destruct (parse_group_text _ P disk ltac:(subst P; set_solver) Hdata) as (m1 & -> & H1).
  destruct (parse_group_text _ P net ltac:(subst P; set_solver) Hdata) as (m2 & -> & H2).
  cbn [obind]. f_equal. apply map_eq. intros k. rewrite lookup_union, H1, H2. subst P.
  rewrite lookup_union. destruct (decide (k ∈ dom disk)) as [Hk | Hk], (decide (k ∈ dom net)) as [Hk' | Hk'];
    try (apply elem_of_dom in Hk as [q Hq]); try (apply elem_of_dom in Hk' as [p Hp]);
    try (apply not_elem_of_dom in Hk); try (apply not_elem_of_dom in Hk');
    repeat match goal with E : _ !! k = _ |- _ => rewrite E; clear E end; done.
Qed.

(** ** The first call of the container runtime *)

(** The elements whose key has not been seen before. *)
Fixpoint firsts {A} (key : A → string) (seen : gset string) (l : list A) : list A :=
  match l with
  | [] => []
  | x :: l => if decide (key x ∈ seen) then firsts key seen l else x :: firsts key ({[key x]} ∪ seen) l
  end.
(** Every key of [l] that was not seen is there once. *)
Lemma firsts_keys {A} (key : A → string) seen l :
  NoDup (map key (firsts key seen l)) ∧
  ∀ k, k ∈ map key (firsts key seen l) ↔ k ∈ map key l ∧ k ∉ seen.
Proof.
  revert seen. induction l as [| x l IH]; intros seen; simpl.
  { split; [by apply NoDup_nil_2 |]. intros k. rewrite !elem_of_nil. tauto. }
  case_decide as Hx; simpl.
  - destruct (IH seen) as [Hnd Hk]. split; [done |]. intros k. rewrite Hk, elem_of_cons. set_solver.
  - destruct (IH ({[key x]} ∪ seen)) as [Hnd Hk]. split.
    + apply NoDup_cons. split; [| done]. rewrite Hk. set_solver.
    + intros k. rewrite !elem_of_cons, Hk. destruct (decide (k = key x)); set_solver.
Qed.

Definition linux_of (pod : PodSandbox) : LinuxPod := default (mkLinuxPod "" []) (sb_Linux pod).
Definition pod_news (pods : list PodSandbox) : list PodData :=
  map (λ pod, nri_pod pod (linux_of pod) RunPod) (firsts sb_Uid ∅ pods).
Definition container_news (pods : list PodSandbox) (cts : list Container) : list ContainerData :=
  omap (λ ct, '(_, pod) ← list_find (λ pod, sb_Id pod = cn_PodSandboxId ct) pods;
              Some (nri_container pod (linux_of pod) ct StartContainer)) (firsts cn_Id ∅ cts).

Lemma push_room {A} (x : A) ch : (length ch < chanSize)%nat → push x ch = ch ++ [x].
Proof. intros Hl. unfold push. by destruct (Nat.eqb_spec (length ch) chanSize); [lia |]. Qed.

Lemma sync_pods seen c pods :
  Forall (λ pod, is_Some (sb_Linux pod)) pods → (length (ch_pods c) + length pods ≤ chanSize)%nat →
  ∃ seen', foldM sync_pod (seen, c) pods =
    Ok (seen', mkChans (ch_pods c ++ map (λ pod, nri_pod pod (linux_of pod) RunPod) (firsts sb_Uid seen pods))
                 (ch_containers c)).
Proof.
  intros Hp. revert seen c. induction Hp as [| pod pods [l El] Hp IH]; intros seen c Hl; simpl in *.
  { exists seen. rewrite app_nil_r. by destruct c. }
  case_decide as Hs; simpl; [apply IH; lia |]. unfold AnalysisNriData. rewrite El. simpl.
  destruct (IH ({[sb_Uid pod]} ∪ seen) (mkChans (push (nri_pod pod l RunPod) (ch_pods c)) (ch_containers c)))
    as [seen' E]; [simpl; rewrite push_room, length_app; simpl; lia |].
  exists seen'. rewrite E. simpl. rewrite push_room by lia. unfold linux_of at 2. rewrite El.
  by rewrite <- app_assoc.
Qed.
Lemma sync_containers pods seen c cts :
  Forall (λ pod, is_Some (sb_Linux pod)) pods → (length (ch_containers c) + length cts ≤ chanSize)%nat →
  ∃ seen', foldM (sync_container pods) (seen, c) cts =
    Ok (seen', mkChans (ch_pods c)
      (ch_containers c ++ omap (λ ct, '(_, pod) ← list_find (λ pod, sb_Id pod = cn_PodSandboxId ct) pods;
              Some (nri_container pod (linux_of pod) ct StartContainer)) (firsts cn_Id seen cts))).
Proof.
  intros Hp. revert seen c. induction cts as [| ct cts IH]; intros seen c Hl; simpl in *.
  { exists seen. rewrite app_nil_r. by destruct c. }
  case_decide as Hs; simpl; [apply IH; lia |].
  destruct (list_find _ pods) as [[i pod] |] eqn:Ef; simpl; [| apply IH; lia].
  apply list_find_Some in Ef as (Ei & _ & _). rewrite Forall_lookup in Hp. destruct (Hp i pod Ei) as [l El].
  unfold AnalysisNriContainerData. rewrite El. simpl.
  destruct (IH ({[cn_Id ct]} ∪ seen) (mkChans (ch_pods c) (push (nri_container pod l ct StartContainer) (ch_containers c))))
    as [seen' E]; [simpl; rewrite push_room, length_app; simpl; lia |].
  exists seen'. rewrite E. simpl. rewrite push_room by lia. unfold linux_of at 2. rewrite El.
  by rewrite <- app_assoc.
Qed.

(** Every pod and every container is announced once, in order, when the
    channels have room: pods to the disk and network engines, containers with
    the sandbox they run in to the RDT engines. *)
Lemma synchronize_announces sw pods cts c :
  Forall (λ pod, is_Some (sb_Linux pod)) pods →
  (length (ch_pods c) + length pods ≤ chanSize)%nat → (length (ch_containers c) + length cts ≤ chanSize)%nat →
  Synchronize sw pods cts c =
    Ok (mkChans (ch_pods c ++ if pods_wanted sw then pod_news pods else [])
          (ch_containers c ++ if containers_wanted sw then container_news pods cts else [])).
Proof.
  intros Hp Hl Hc. unfold Synchronize. destruct (sync_pods ∅ c pods Hp Hl) as [s1 E1].
  set (c1 := if pods_wanted sw
             then mkChans (ch_pods c ++ pod_news pods) (ch_containers c) else c).
  assert (Hc1 : (if pods_wanted sw then let! '(_, c) := foldM sync_pod (∅, c) pods in Ok c else Ok c) = Ok c1).
  { subst c1. destruct (pods_wanted sw); [by rewrite E1 | done]. }
  rewrite Hc1. cbn [obind]. assert (Hlen : ch_containers c1 = ch_containers c) by (subst c1; by destruct (pods_wanted sw)).
  destruct (containers_wanted sw).
  - destruct (sync_containers pods ∅ c1 cts Hp ltac:(by rewrite Hlen)) as [s2 ->]. cbn [obind]. rewrite Hlen.
    subst c1. destruct (pods_wanted sw); by rewrite ?app_nil_r.
  - subst c1. destruct (pods_wanted sw); simpl; rewrite ?app_nil_r; by destruct c.
Qed.
