(* ===== verification/OobFacts.v ===== *)
(** * Facts about the watcher of cgroup directories *)

From S2P Require Export AgentOob SourceFacts.

(** ** Names of directories *)

Lemma str_get_app_l (a b : string) k : (k < str_len a)%nat → String.get k (a +:+ b) = String.get k a.
Proof. revert k. induction a as [| x a IH]; intros [| k] Hk; simpl in *; try done; try lia. apply IH. lia. Qed.
Lemma str_get_app_r (a b : string) k : String.get (str_len a + k) (a +:+ b) = String.get k b.
Proof. induction a as [| x a IH]; [done |]. apply IH. Qed.
Lemma prefix_app (pre s : string) : String.prefix pre s = true → ∃ r, s = pre +:+ r.
Proof.
  revert s. induction pre as [| a pre IH]; intros s; [intros _; by exists s |].
  destruct s as [| b s]; simpl; [done |]. destruct (ascii_dec a b) as [-> |]; [| done].
  intros [r ->]%IH. by exists r.
Qed.
Lemma substring_split (s : string) n : (n ≤ str_len s)%nat →
  s = String.substring 0 n s +:+ String.substring n (str_len s - n) s.
Proof.
  revert s. induction n as [| n IH]; intros s Hn.
  - rewrite Nat.sub_0_r. pose proof (substring_app s "") as E. rewrite str_app_nil_r in E. rewrite E. by destruct s.
  - destruct s as [| a s]; simpl in *; [lia |]. exact (f_equal (String a) (IH s ltac:(lia))).
Qed.
Lemma suffix_app (suf s : string) : has_suffix s suf = true → ∃ r, s = r +:+ suf.
Proof.
  unfold has_suffix. intros [Hl%Nat.leb_le Hs%String.eqb_eq]%andb_true_iff.
  exists (String.substring 0 (str_len s - str_len suf) s).
  rewrite (substring_split s (str_len s - str_len suf)) at 1 by lia. f_equal.
  rewrite <- Hs at 3. f_equal. lia.
Qed.
Lemma str_all_get (p : ascii → bool) s k a : str_all p s = true → String.get k s = Some a → p a = true.
Proof.
  revert k. induction s as [| b s IH]; intros k; [done |]. simpl. rewrite andb_true_iff. intros [Hb Hs].
  destruct k as [| k]; [by intros [= <-] | by apply IH].
Qed.

Lemma str_prefix_app (a b : string) : String.prefix a (a +:+ b) = true.
Proof. induction a as [| x a IH]; simpl; [by destruct b |]. by destruct (ascii_dec x x). Qed.
Lemma substring_drop (a b : string) : String.substring (str_len a) (str_len b) (a +:+ b) = b.
Proof.
  induction a as [| x a IH]; simpl; [| exact IH]. pose proof (substring_app b "") as E.
  by rewrite str_app_nil_r in E.
Qed.
Lemma has_suffix_app (a b : string) : has_suffix (a +:+ b) b = true.
Proof.
  unfold has_suffix. rewrite str_len_app. replace (str_len a + str_len b - str_len b)%nat with (str_len a) by lia.
  rewrite substring_drop, String.eqb_refl, andb_true_r. apply Nat.leb_le. lia.
Qed.

(** What is between two texts; a text that has both always has room. *)
Lemma cut_between_app pre mid suf : cut_between pre suf (pre +:+ mid +:+ suf) = Some (Ok mid).
Proof.
  unfold cut_between. rewrite str_prefix_app. rewrite <- str_app_assoc, has_suffix_app. cbn [andb].
  rewrite str_app_assoc, !str_len_app. destruct (Nat.ltb_spec (str_len pre + (str_len mid + str_len suf)) (str_len pre + str_len suf));
    [lia |].
  do 2 f_equal. replace (str_len pre + (str_len mid + str_len suf) - str_len suf - str_len pre)%nat with (str_len mid) by lia.
  assert (Hsub : ∀ a x y, String.substring (str_len a) (str_len x) (a +:+ (x +:+ y)) = x).
  { intros a x y. induction a as [| c a IH]; [exact (substring_app x y) | exact IH]. }
  apply Hsub.
Qed.
Lemma cut_between_total pre suf r s o :
  free_of "."%char pre = true → suf = String "." r → cut_between pre suf s = Some o → ∃ x, o = Ok x.
Proof.
  intros Hpre Hsuf. unfold cut_between. destruct (String.prefix pre s && has_suffix s suf) eqn:E; [| done].
  apply andb_true_iff in E as [[x Ex]%prefix_app [y Ey]%suffix_app]. intros [= <-].
  destruct (Nat.ltb_spec (str_len s) (str_len pre + str_len suf)) as [Hlt |]; [| by eauto].
  exfalso. assert (Hy : (str_len y < str_len pre)%nat) by (rewrite Ey, str_len_app in Hlt; lia).
  assert (Hg : String.get (str_len y) s = Some "."%char).
  { rewrite Ey. replace (str_len y) with (str_len y + 0)%nat by lia. rewrite str_get_app_r. by subst suf. }
  rewrite Ex, str_get_app_l in Hg by done. by pose proof (str_all_get _ _ _ _ Hpre Hg).
Qed.
Lemma first_between_total ps s :
  Forall (λ p, free_of "."%char p.1 = true ∧ ∃ r, p.2 = String "." r) ps → ∃ x, first_between ps s = Ok x.
Proof.
  induction 1 as [| [pre suf] ps [Hp [r Hr]] Hps IH]; simpl; [by eauto |].
  destruct (cut_between pre suf s) as [o |] eqn:E; [| done].
  destruct (cut_between_total pre suf r s o Hp Hr E) as [x ->]. simpl. eauto.
Qed.
Lemma ParsePodId_total s : ∃ x, ParsePodId s = Ok x.
Proof. apply first_between_total. repeat constructor; by eexists. Qed.
Lemma ParseContainerId_total s : ∃ x, ParseContainerId s = Ok x.
Proof. apply first_between_total. repeat constructor; by eexists. Qed.

(** The directory that Initialize looks for is read back as the pod. *)
Lemma str_split_last c x y : free_of c y = true → str_split c (x +:+ String c y) = str_split c x ++ [y].
Proof.
  intros Hy. induction x as [| a x IH]; simpl.
  - by rewrite Ascii.eqb_refl, str_split_plain.
  - rewrite IH. destruct (Ascii.eqb a c); [done |]. pose proof (str_split_nonempty c x).
    by destruct (str_split c x).
Qed.
Lemma trim_right_last (p : ascii → bool) x y b :
  p b = false → trim_right p (x +:+ (y +:+ String b "")) = x +:+ (y +:+ String b "").
Proof.
  intros Hb. assert (Hne : ∀ u, trim_right p (u +:+ String b "") = u +:+ String b "").
  { induction u as [| a u IH]; simpl; [by rewrite Hb |]. change (trim_right p (u +:+ String b "")) with (trim_right p (u +:+ String b "")).
    rewrite IH. by destruct u. }
  by rewrite <- str_app_assoc, Hne.
Qed.
(** The base of a path that ends in a plain name. *)
Lemma path_Base_last x y b :
  free_of slash y = true → Ascii.eqb b slash = false →
  path_Base (x +:+ String slash (y +:+ String b "")) = y +:+ String b "".
Proof.
  intros Hy Hb. unfold path_Base.
  destruct (String.eqb_spec (x +:+ String slash (y +:+ String b "")) "") as [E | _]; [by destruct x |].
  assert (Ht : trim_right (λ a, Ascii.eqb a slash) (x +:+ String slash (y +:+ String b "")) =
               x +:+ String slash (y +:+ String b "")).
  { pose proof (trim_right_last (λ a, Ascii.eqb a slash) (x +:+ String slash "") y b Hb) as E.
    by rewrite str_app_assoc in E. }
  rewrite Ht. destruct (String.eqb_spec (x +:+ String slash (y +:+ String b "")) "") as [E | _]; [by destruct x |].
  unfold last_part. rewrite str_split_last, last_snoc; [done |].
  rewrite free_of_app, Hy. unfold free_of, not_char. simpl. by rewrite Hb.
Qed.

Lemma replace_back (s : string) : free_of "_"%char s = true → replace_char "_" "-" (replace_char "-" "_" s) = s.
Proof.
  unfold free_of. induction s as [| a s IH]; [done |]. simpl. unfold not_char at 1. rewrite andb_true_iff.
  intros [Ha Hs]. rewrite IH by done. f_equal. destruct (Ascii.eqb_spec a "-") as [-> |]; [done |].
  by destruct (Ascii.eqb a "_").
Qed.
Lemma replace_free c d e s : Ascii.eqb d e = false → free_of e s = true → free_of e (replace_char c d s) = true.
Proof.
  unfold free_of. intros Hd. induction s as [| a s IH]; [done |]. simpl. rewrite !andb_true_iff. intros [Ha Hs].
  split; [| auto]. unfold not_char. destruct (Ascii.eqb a c); [by rewrite Hd | done].
Qed.

(** The cgroup directory of a pod names the pod: for every QoS class, the
    directory that Initialize builds from a pod's UID is parsed to the name
    whose underscores are the UID's dashes. *)
Lemma pod_directory_roundtrip root pod :
  free_of slash (kp_UID pod) = true → free_of "_"%char (kp_UID pod) = true →
  ∃ id, ParsePodId (path_Base (pod_cgroup root pod)) = Ok (Some id) ∧ replace_char "_" "-" id = kp_UID pod.
Proof.
  intros Hs Hu. exists (replace_char "-" "_" (kp_UID pod)). split; [| by apply replace_back].
  set (id := replace_char "-" "_" (kp_UID pod)).
  assert (Hid : free_of slash id = true) by (by apply replace_free).
  assert (Hb : ∀ x pre, free_of slash pre = true →
            path_Base (x +:+ String slash (pre +:+ (id +:+ ".slice"))) = pre +:+ (id +:+ ".slice")).
  { intros x pre Hpre. replace (pre +:+ (id +:+ ".slice")) with ((pre +:+ (id +:+ ".slic")) +:+ String "e" "")
      by (by rewrite !str_app_assoc).
    apply path_Base_last; [| done]. by rewrite !free_of_app, Hpre, Hid. }
  assert (Hparse : ∀ x pre, pre ∈ ["kubepods-besteffort-pod"; "kubepods-burstable-pod"; "kubepods-pod"] →
            ParsePodId (path_Base (x +:+ String slash (pre +:+ (id +:+ ".slice")))) = Ok (Some id)).
  { intros x pre Hpre. unfold ParsePodId. cbn [first_between].
    repeat (apply elem_of_cons in Hpre as [-> | Hpre]; [rewrite Hb, cut_between_app by done; done |]).
    by apply elem_of_nil in Hpre. }
  unfold pod_cgroup. fold id. destruct (String.eqb _ _); [| destruct (String.eqb _ _)];
    rewrite <- (str_app_assoc root).
  - apply (Hparse _ "kubepods-pod"). set_solver.
  - apply (Hparse _ "kubepods-burstable-pod"). set_solver.
  - apply (Hparse _ "kubepods-besteffort-pod"). set_solver.
Qed.

(** ** Announcements *)

(** [p] announces the pod as running. *)
Definition runs_pod (podId : string) (p : PodData) : Prop :=
  (ev ← PodEvents p !! "dev"; i ← ev !! podId; Some (Operation i)) = Some RunPod.
#[export] Instance runs_pod_dec podId p : Decision (runs_pod podId p).
Proof. unfold runs_pod. apply _. Defined.

(** What a step puts into PodInfoChan, and what a run does. *)
Definition emitted (o : Oob) (ev : oob_event) (o' : Oob) : list PodData :=
  match ev with TakeAnnounced => [] | _ => drop (length (oob_chan o)) (oob_chan o') end.
Fixpoint oob_run (o : Oob) (l : list oob_event) : outcome (Oob * list PodData) :=
  match l with
  | [] => Ok (o, [])
  | ev :: l =>
      let! o1 := oob_step o ev in
      let! '(o2, out) := oob_run o1 l in
      Ok (o2, emitted o ev o1 ++ out)
  end.

Lemma sent_key_inj a b : sent_key a RunPod = sent_key b RunPod → a = b.
Proof.
  unfold sent_key. intros E. change (Itoa RunPod) with "2" in E.
  assert (H : ∀ x y : string, x +:+ " 2" = y +:+ " 2" → x = y).
  { intros x. induction x as [| c x IH]; intros [| d y] E'; simpl in E'; try done.
    - injection E' as _ E'. destruct y as [| ? [|]]; discriminate E'.
    - injection E' as -> E'. destruct x as [| ? [|]]; discriminate E'.
    - injection E' as -> E'. by rewrite (IH y E'). }
  by apply H.
Qed.
(** The marks of stops are not those of runs. *)
Lemma sent_key_ops a b : sent_key a RunPod ≠ sent_key b StopPod.
Proof.
  unfold sent_key. change (Itoa RunPod) with "2". change (Itoa StopPod) with "1". intros E.
  assert (H : ∀ x y : string, x +:+ " 2" ≠ y +:+ " 1"); [| by apply (H a b)].
  intros x. induction x as [| c x IH]; intros [| d y] E'; simpl in E'; try done.
  - injection E' as _ E'. destruct y as [| ? [|]]; discriminate E'.
  - injection E' as _ E'. destruct x as [| ? [|]]; discriminate E'.
  - injection E' as _ E'. by apply (IH y).
Qed.

Lemma runs_oob_pod a b pod path netns op :
  runs_pod a (oob_pod b pod path netns op) ↔ a = b ∧ op = RunPod.
Proof.
  unfold runs_pod, oob_pod. cbn [PodEvents]. rewrite lookup_singleton_eq. simpl.
  destruct (decide (b = a)) as [-> | Hne].
  - rewrite lookup_singleton_eq. simpl. naive_solver.
  - rewrite lookup_singleton_ne by done. simpl. naive_solver.
Qed.
Lemma drop_push {A} (x : A) ch : drop (length ch) (push x ch) = [] ∨ drop (length ch) (push x ch) = [x].
Proof.
  unfold push. destruct (_ =? _)%nat; [left; by rewrite drop_all | right].
  by rewrite drop_app_length.
Qed.

(** How often a pod can still be announced as running. *)
Definition budget (o : Oob) (podId : string) : nat := if decide (sent_key podId RunPod ∈ sentPodsCache o) then 0 else 1.

Lemma announce_budget c netns op o podId :
  (op = RunPod ∨ op = StopPod) →
  let o' := AnalysisOOBData c netns op o in
  (length (filter (runs_pod podId) (drop (length (oob_chan o)) (oob_chan o'))) + budget o' podId ≤ budget o podId)%nat.
Proof.
  intros Hop. unfold AnalysisOOBData. set (id := replace_char "_" "-" (ce_podId c)).
  assert (Hsame : (length (filter (runs_pod podId) (drop (length (oob_chan o)) (oob_chan o))) + budget o podId ≤ budget o podId)%nat)
    by (by rewrite drop_all).
  destruct (Z.eqb_spec op RunPod) as [-> | Hne].
  - destruct (decide (sent_key id RunPod ∈ sentPodsCache o)) as [| Hni]; [done |].
    set (sent := {[sent_key id RunPod]} ∪ sentPodsCache o).
    assert (Hb : ∀ ch, (budget (set_announced sent ch o) podId + (if decide (podId = id) then 1 else 0) ≤ budget o podId)%nat).
    { intros ch. unfold budget. cbn [sentPodsCache set_announced]. subst sent.
      destruct (decide (podId = id)) as [-> | Hid].
      - rewrite decide_True by set_solver. by rewrite decide_False.
      - destruct (decide (sent_key podId RunPod ∈ sentPodsCache o)); [rewrite decide_True by set_solver; lia |].
        destruct (decide _); lia. }
    destruct (pods o !! id) as [pod |]; cbn [oob_chan set_announced].
    + specialize (Hb (push (oob_pod id pod (ce_cgroupPath c) netns RunPod) (oob_chan o))).
      destruct (drop_push (oob_pod id pod (ce_cgroupPath c) netns RunPod) (oob_chan o)) as [-> | ->]; [cbn; lia |].
      rewrite filter_cons, filter_nil. destruct (decide (podId = id)) as [Hid | Hid].
      * destruct (decide (runs_pod _ _)); cbn; lia.
      * rewrite decide_False; [cbn; lia |]. by rewrite runs_oob_pod; intros [? _].
    + specialize (Hb (oob_chan o)). rewrite drop_all. cbn. lia.
  - destruct Hop as [-> | ->]; [done |]. set (sent := sentPodsCache o ∖ {[sent_key id StopPod]}).
    assert (Hb : ∀ ch, budget (set_announced sent ch o) podId = budget o podId).
    { intros ch. unfold budget. cbn [sentPodsCache set_announced]. subst sent.
      pose proof (sent_key_ops podId id). destruct (decide (sent_key podId RunPod ∈ sentPodsCache o)).
      - by rewrite decide_True by set_solver.
      - by rewrite decide_False by set_solver. }
    destruct (pods o !! id) as [pod |]; cbn [oob_chan set_announced]; rewrite Hb; [| by rewrite drop_all].
    destruct (drop_push (oob_pod id pod (ce_cgroupPath c) netns StopPod) (oob_chan o)) as [-> | ->]; [done |].
    rewrite filter_cons, decide_False; [done |]. by rewrite runs_oob_pod; intros [_ ?].
Qed.

(** A step that announces nothing. *)
Lemma silent_budget o o' ev podId :
  oob_chan o' = oob_chan o → sentPodsCache o' = sentPodsCache o →
  (length (filter (runs_pod podId) (emitted o ev o')) + budget o' podId ≤ budget o podId)%nat.
Proof.
  intros Ec Es. unfold emitted, budget. rewrite Ec, Es, drop_all. by destruct ev.
Qed.

Lemma container_ids_total dir : ∃ x, container_ids dir = Ok x.
Proof.
  unfold container_ids. destruct (ParseContainerId_total (path_Base dir)) as [[c |] ->]; simpl; [| by eauto].
  destruct (ParsePodId_total (path_Base (path_Dir dir))) as [x ->]. simpl. eauto.
Qed.

#[local] Arguments emitted : simpl never.
Lemma oob_step_budget o ev :
  ∃ o', oob_step o ev = Ok o' ∧
    ∀ podId, (length (filter (runs_pod podId) (emitted o ev o')) + budget o' podId ≤ budget o podId)%nat.
Proof.
  destruct ev as [e | e | e | answer | netns | answer |]; cbn [oob_step].
  - unfold pod_watch. destruct (ParsePodId_total (path_Base (ie_Name e))) as [x Ex].
    destruct (_ || _); rewrite ?Ex; simpl; eexists; (split; [done |]); intros podId;
      repeat (destruct (_ =? _)); by apply silent_budget.
  - unfold container_watch. destruct (_ || _); [| by eexists; split; [| intros; by apply silent_budget]].
    destruct (container_ids_total (ie_Name e)) as [[ids |] ->]; simpl; eexists; (split; [done |]); intros podId;
      [destruct (_ =? _) |]; by apply silent_budget.
  - unfold task_watch. destruct (_ || _); [| by eexists; split; [| intros; by apply silent_budget]].
    destruct (container_ids_total (path_Dir (ie_Name e))) as [[ids |] ->]; simpl; eexists; (split; [done |]); intros podId;
      [destruct (_ =? _) |]; by apply silent_budget.
  - eexists. split; [done |]. intros podId. unfold handle_pod_event, GetAllPods.
    destruct (podEvents o) as [| pe pes]; [by apply silent_budget |].
    destruct (_ =? _), answer; try destruct (_ =? _); by apply silent_budget.
  - eexists. split; [done |]. intros podId. unfold handle_container_event.
    destruct (containerEvents o) as [| ce ces]; [by apply silent_budget |].
    set (o1 := set_events (podEvents o) ces o).
    destruct (_ =? _); [exact (announce_budget ce "" StopPod o1 podId ltac:(by right)) |].
    destruct (_ =? _); [exact (announce_budget ce netns RunPod o1 podId ltac:(by left)) |].
    by apply silent_budget.
  - eexists. split; [done |]. intros podId. unfold GetAllPods. destruct answer; by apply silent_budget.
  - eexists. split; [done |]. intros podId. unfold emitted, budget. done.
Qed.

(** C32: a pod is announced as running at most once.  Whatever inotify and the
    kubelet say and in whatever order the events are handled, the server never
    panics, and in any run a pod is announced as running at most once, and not
    at all when it was marked before.  The mark is set before the pod is looked
    up and never removed: a pod whose first container is seen before the
    kubelet has listed it is never announced, and one whose container has
    stopped and starts again stays stopped. *)
Theorem pod_announced_once (o : Oob) (l : list oob_event) :
  ∃ o' out, oob_run o l = Ok (o', out) ∧
    ∀ podId, (length (filter (runs_pod podId) out) ≤ if decide (sent_key podId RunPod ∈ sentPodsCache o) then 0 else 1)%nat.
Proof.
  enough (H : ∃ o' out, oob_run o l = Ok (o', out) ∧
            ∀ podId, (length (filter (runs_pod podId) out) + budget o' podId ≤ budget o podId)%nat).
  { destruct H as (o' & out & E & Hb). exists o', out. split; [done |]. intros podId. specialize (Hb podId).
    unfold budget at 2 in Hb. lia. }
  revert o. induction l as [| ev l IH]; intros o; simpl; [by exists o, [] |].
  destruct (oob_step_budget o ev) as (o1 & -> & H1). cbn [obind]. destruct (IH o1) as (o2 & out & -> & H2). cbn [obind].
  exists o2, (emitted o ev o1 ++ out). split; [done |]. intros podId. rewrite filter_app, length_app.
  specialize (H1 podId). specialize (H2 podId). lia.
Qed.
