(* ===== verification/SendFacts.v ===== *)
(** * Messages to the I/O service are not lost

    The service is any service, with every call that it gets and its answer
    written down.  Whatever is sent is waiting, or the service has been called
    with it and has answered; it is called with nothing else.  A service that
    accepts what it is sent is called once with everything, and with what is no
    limit of a pod in the order in which it was sent. *)

From S2P Require Export AgentSend.

Section SendFacts.
Context {V : Type} `{!ServiceCalls V}.
Implicit Types (s : Sender V).

(** ** Nothing is lost *)

Definition pending s : list service_msg :=
  sd_chan s ++ map tk_event (sd_tasks s) ++ option_list (sd_back s).
Definition kept s : Prop := sd_sent s ⊆+ pending s ++ sd_done s.

Lemma tasks_delete (l : list task) i t :
  l !! i = Some t → map tk_event l ≡ₚ tk_event t :: map tk_event (delete i l).
Proof. intros E. by rewrite (delete_Permutation _ _ _ E) at 1. Qed.
Lemma tasks_failed (l : list task) i t b :
  l !! i = Some t → map tk_event (<[i := mkTask (tk_event t) b]> l) = map tk_event l.
Proof.
  intros E. fold (tk_event <$> <[i := mkTask (tk_event t) b]> l). rewrite list_fmap_insert. simpl.
  apply list_insert_id. by rewrite list_lookup_fmap, E.
Qed.

(** The same messages, in another order. *)
Ltac same_messages :=
  unfold option_list; cbn [option_rect]; repeat (rewrite <- app_assoc); cbn [app]; rewrite ?app_nil_r;
  repeat (rewrite <- Permutation_middle); rewrite ?app_nil_r; reflexivity.

(** A step keeps every message that it does not add. *)
Definition news (ev : send_event) : list service_msg := match ev with EngineSends m => [m] | _ => [] end.
Lemma sender_step_keeps s ev s' :
  sender_step s ev = Some s' →
  sd_sent s' = sd_sent s ++ news ev ∧ news ev ++ pending s ++ sd_done s ⊆+ pending s' ++ sd_done s'.
Proof.
  unfold pending. destruct ev as [m | | | i run | i]; cbn [sender_step news]; rewrite ?app_nil_r.
  - destruct (_ <? _)%nat; [| done]. intros [= <-]. split; [done |]. apply Permutation_submseteq. cbn.
    same_messages.
  - destruct (sd_back s) as [b |], (sd_chan s) as [| e ch] eqn:Ech; try done. intros [= <-].
    unfold handle_event, after_switch. destruct (pod_limit e).
    + split; [done |]. cbn. rewrite map_app. cbn [map tk_event].
      trans (e :: ch ++ map tk_event (sd_tasks s) ++ sd_done s); [apply Permutation_submseteq; same_messages |].
      trans (option_list (if match sd_err s with Some Unavailable => true | _ => false end then Some e else None) ++
             e :: ch ++ map tk_event (sd_tasks s) ++ sd_done s); [by apply submseteq_inserts_l |].
      apply Permutation_submseteq.
      destruct (sd_err s) as [[] |]; same_messages.
    + destruct (rpc_call (sd_service s) e) as [v err]. split; [done |]. apply Permutation_submseteq. cbn.
      destruct err as [[] |]; cbn; same_messages.
  - destruct (sd_back s) as [e |]; [| done]. destruct (_ <? _)%nat; [| done]. intros [= <-].
    split; [done |]. apply Permutation_submseteq. cbn. same_messages.
  - unfold RetrySetAppLimit. destruct (sd_tasks s !! i) as [[e []] |] eqn:E; try done.
    pose proof (tasks_failed _ _ _ true E) as Hf. pose proof (tasks_delete _ _ _ E) as Hd. cbn [tk_event] in *.
    destruct run; [destruct (rpc_call (sd_service s) e) as [v [er |]] |]; intros [= <-];
      (split; [done |]); cbn; rewrite ?Hf; try done.
    apply Permutation_submseteq. rewrite Hd. same_messages.
  - unfold retry_back. destruct (sd_tasks s !! i) as [[e []] |] eqn:E; try done.
    destruct (_ <? _)%nat; [| done]. intros [= <-]. split; [done |]. cbn.
    apply Permutation_submseteq. pose proof (tasks_delete _ _ _ E) as Hd. cbn [tk_event] in Hd. rewrite Hd.
    same_messages.
Qed.

Lemma sender_run_app s l1 l2 : sender_run s (l1 ++ l2) = sender_run (sender_run s l1) l2.
Proof. apply foldl_app. Qed.
(** A property of the state that every step keeps. *)
Lemma sender_run_inv (P : Sender V → Prop) s l :
  (∀ s ev s', sender_step s ev = Some s' → P s → P s') → P s → P (sender_run s l).
Proof.
  intros HP Hs. unfold sender_run. apply (foldl_inv P); [done |]. intros s1 ev _ H1. simpl.
  destruct (sender_step s1 ev) as [s2 |] eqn:E; [by apply (HP s1 ev) | done].
Qed.

(** [l] consists of steps that can be taken. *)
Fixpoint sender_steps s (l : list send_event) : option (Sender V) :=
  match l with [] => Some s | ev :: l => s ← sender_step s ev; sender_steps s l end.
Lemma sender_steps_inv (P : list send_event → Sender V → Prop) s l0 l s' :
  (∀ l s ev s', sender_step s ev = Some s' → P l s → P (l ++ [ev]) s') →
  P l0 s → sender_steps s l = Some s' → P (l0 ++ l) s'.
Proof.
  intros HP. revert s l0. induction l as [| ev l IH]; intros s l0 Hs; simpl.
  { intros [= <-]. by rewrite app_nil_r. }
  intros (s1 & E & E1)%bind_Some. rewrite (cons_middle ev l0 l), app_assoc. apply (IH s1); [| done]. by apply (HP l0 s).
Qed.

Lemma sender_steps_app s l1 l2 : sender_steps s (l1 ++ l2) = sender_steps s l1 ≫= λ s, sender_steps s l2.
Proof. revert s. induction l1 as [| ev l1 IH]; intros s; simpl; [done |]. destruct (sender_step s ev); simpl; auto. Qed.

(** What the engines have sent. *)
Definition sent (l : list send_event) : list service_msg :=
  omap (λ ev, match ev with EngineSends m => Some m | _ => None end) l.
Lemma sent_news l ev : sent (l ++ [ev]) = sent l ++ news ev.
Proof. unfold sent. rewrite omap_app. by destruct ev. Qed.
Lemma sent_steps v l s : sender_steps (sender_start v) l = Some s → sd_sent s = sent l.
Proof.
  apply (sender_steps_inv (λ l s, sd_sent s = sent l) _ []); [| done]. intros l1 s1 ev s2 E H.
  destruct (sender_step_keeps s1 ev s2 E) as [-> _]. by rewrite H, sent_news.
Qed.

(** ** A handler that waits for itself *)

(** The channel is full while the handler is about to put an event back. *)
Definition stuck s : Prop := length (sd_chan s) = handler_capacity ∧ is_Some (sd_back s).

Lemma stuck_step s ev s' :
  sender_step s ev = Some s' → stuck s →
  sd_chan s' = sd_chan s ∧ sd_back s' = sd_back s ∧ sd_sent s' = sd_sent s.
Proof.
  intros E [Hl [e Hb]].
  assert (Hfull : (length (sd_chan s) <? handler_capacity)%nat = false) by (apply Nat.ltb_ge; lia).
  destruct ev as [m | | | i run | i]; cbn [sender_step] in E;
    unfold RetrySetAppLimit, retry_back in E; rewrite ?Hfull, ?Hb in E; try done.
  - destruct (sd_tasks s !! i) as [[m []] |]; try done.
    destruct run; [destruct (rpc_call _ _) as [v [er |]] |]; by injection E as <-.
  - by destruct (sd_tasks s !! i) as [[m []] |].
Qed.

(** When the channel is full while the handler puts an event back, the
    handler waits for ever for room that only it could make: from then on no
    message is taken or sent, whatever happens. *)
Lemma stuck_forever s l :
  stuck s →
  let s' := sender_run s l in
  sd_chan s' = sd_chan s ∧ sd_back s' = sd_back s ∧ sd_sent s' = sd_sent s.
Proof.
  intros Hs. apply (sender_run_inv (λ s', sd_chan s' = sd_chan s ∧ sd_back s' = sd_back s ∧ sd_sent s' = sd_sent s));
    [| done].
  intros s1 ev s2 E (H1 & H2 & H3). rewrite <- H1, <- H2, <- H3. apply (stuck_step s1 ev); [done |].
  unfold stuck in *. by rewrite H1, H2.
Qed.

(** ** A service that accepts everything *)

Section Accepting.
Hypothesis Haccept : ∀ v m, (rpc_call v m).2 = None.

(** Pods run. *)
Definition runs_pods (ev : send_event) : Prop := match ev with Retry _ run => run = true | _ => True end.
Definition own_step (ev : send_event) : Prop := match ev with EngineSends _ => False | _ => runs_pods ev end.

Definition direct (m : service_msg) : Prop := pod_limit m = false.
#[local] Instance direct_dec m : Decision (direct m) := decide (pod_limit m = false).
(** Nothing has failed; every message is there once; what is no limit of a pod
    is in order. *)
Record smooth s : Prop := mkSmooth {
  sm_err : sd_err s = None;
  sm_back : sd_back s = None;
  sm_tasks : Forall (λ t, tk_failed t = false ∧ pod_limit (tk_event t) = true) (sd_tasks s);
  sm_once : sd_sent s ≡ₚ sd_chan s ++ map tk_event (sd_tasks s) ++ sd_done s;
  sm_order : filter direct (sd_sent s) = filter direct (sd_done s) ++ filter direct (sd_chan s)
}.
Definition weight s : nat := 2 * length (sd_chan s) + length (sd_tasks s).

Lemma call_accepted v m : ∃ v', rpc_call v m = (v', None).
Proof. specialize (Haccept v m). destruct (rpc_call v m) as [v' err]. simpl in *. subst. eauto. Qed.

Lemma smooth_step s ev s' :
  runs_pods ev → sender_step s ev = Some s' → smooth s →
  smooth s' ∧ (own_step ev → (weight s' < weight s)%nat).
Proof.
  intros Hrun E [He Hb Ht Ho Hord]. unfold weight.
  destruct ev as [m | | | i run | i]; cbn [sender_step] in E.
  - destruct (_ <? _)%nat; [| done]. injection E as <-. split; [| done]. split; cbn; try done.
    + rewrite Ho. same_messages.
    + by rewrite !filter_app, Hord, app_assoc.
  - rewrite Hb in E. destruct (sd_chan s) as [| e ch] eqn:Ech; [done |]. injection E as <-.
    unfold handle_event, after_switch. destruct (pod_limit e) eqn:Ep; rewrite ?He.
    + split; [| intros _; cbn; rewrite length_app; cbn; lia]. split; cbn; try done.
      * apply Forall_app_2; [done |]. by repeat constructor.
      * rewrite Ho, map_app. cbn. same_messages.
      * rewrite Hord. cbn. by rewrite decide_False by (unfold direct; congruence).
    + destruct (call_accepted (sd_service s) e) as [v' ->]. split; [| intros _; cbn; lia]. split; cbn; try done.
      * rewrite Ho. same_messages.
      * rewrite Hord, filter_app. cbn. rewrite !decide_True by done. by rewrite <- app_assoc.
  - by rewrite Hb in E.
  - simpl in Hrun. subst run. unfold RetrySetAppLimit in E. destruct (sd_tasks s !! i) as [[e []] |] eqn:Ei; try done.
    destruct (call_accepted (sd_service s) e) as [v' Ev]. rewrite Ev in E. injection E as <-.
    pose proof Ht as Hti. rewrite Forall_lookup in Hti. destruct (Hti _ _ Ei) as [_ Hpl]. cbn in Hpl.
    split; [| intros _; cbn; rewrite length_delete by (by eexists); apply lookup_lt_Some in Ei; lia].
    split; cbn; try done.
    + by apply Forall_delete.
    + rewrite Ho. rewrite (tasks_delete _ _ _ Ei). cbn [tk_event]. same_messages.
    + rewrite Hord, filter_app. cbn. rewrite decide_False by (unfold direct; congruence). by rewrite app_nil_r.
  - unfold retry_back in E. destruct (sd_tasks s !! i) as [[e []] |] eqn:Ei; try done.
    rewrite Forall_lookup in Ht. by destruct (Ht _ _ Ei) as [? _].
Qed.

Lemma smooth_start v : smooth (sender_start v).
Proof. by split. Qed.
Lemma smooth_steps s l s' :
  Forall runs_pods l → sender_steps s l = Some s' → smooth s → smooth s'.
Proof.
  intros Hl. revert s. induction Hl as [| ev l Hev Hl IH]; intros s; simpl; [by intros [= <-] |].
  intros (s1 & E & E1)%bind_Some Hs. by apply (IH s1 E1), (smooth_step s ev).
Qed.
Lemma own_steps_bounded s l s' :
  Forall own_step l → sender_steps s l = Some s' → smooth s → (length l + weight s' ≤ weight s)%nat ∧ smooth s'.
Proof.
  intros Hl. revert s. induction Hl as [| ev l Hev Hl IH]; intros s; simpl; [intros [= <-]; auto with lia |].
  intros (s1 & E & E1)%bind_Some Hs.
  assert (Hrun : runs_pods ev) by (by destruct ev).
  destruct (smooth_step s ev s1 Hrun E Hs) as [Hs1 Hw]. specialize (Hw Hev).
  destruct (IH s1 E1 Hs1) as [Hlen Hs']. split; [lia | done].
Qed.

(** A sender that can take no step of its own has nothing left to do. *)
Lemma smooth_rest s : smooth s → (∀ ev, own_step ev → sender_step s ev = None) → sd_chan s = [] ∧ sd_tasks s = [].
Proof.
  intros [He Hb Ht Ho Hord] Hno. split.
  { specialize (Hno Take I). cbn in Hno. rewrite Hb in Hno. by destruct (sd_chan s). }
  destruct (sd_tasks s) as [| [e f] ts] eqn:Et; [done |]. apply Forall_cons in Ht as [[Hf _] _]. cbn in Hf.
  subst f. specialize (Hno (Retry 0 true) eq_refl). cbn in Hno. unfold RetrySetAppLimit in Hno.
  rewrite Et in Hno. cbn in Hno. destruct (call_accepted (sd_service s) e) as [v' Ev]. by rewrite Ev in Hno.
Qed.
Lemma own_steps_done (v : V) (l0 l : list send_event) (s s' : Sender V) :
  Forall runs_pods l0 → sender_steps (sender_start v) l0 = Some s →
  Forall own_step l → sender_steps s l = Some s' →
  (length l ≤ 2 * length (sd_chan s) + length (sd_tasks s))%nat ∧
  ((∀ ev, own_step ev → sender_step s' ev = None) →
     sd_done s' ≡ₚ sd_sent s' ∧ filter direct (sd_done s') = filter direct (sd_sent s')).
Proof.
  intros Hl0 E0 Hl E. pose proof (smooth_steps _ _ _ Hl0 E0 (smooth_start v)) as Hs.
  destruct (own_steps_bounded s l s' Hl E Hs) as [Hlen Hs']. unfold weight in Hlen.
  split; [lia |]. intros Hno. destruct (smooth_rest s' Hs' Hno) as [Hch Hta]. destruct Hs' as [He Hb Ht Ho Hord].
  rewrite Hch, Hta in Ho. rewrite Hch in Hord. cbn in *. rewrite app_nil_r in Hord. by split; [rewrite Ho |].
Qed.
End Accepting.
End SendFacts.

(** ** What the service is called with *)

(** The calls that a service has got, with its answers. *)
Notation call_log := (list (service_msg * option rpc_error)).
(** A service of any kind that writes down its calls. *)
Definition recording {V} (svc : ServiceCalls V) : ServiceCalls (V * call_log) :=
  {| rpc_call := λ w m, let '(v, err) := rpc_call w.1 m in ((v, w.2 ++ [(m, err)]), err) |}.

(** A call after which the message is not sent again: the service accepted it
    or, unless it is a limit of a pod, answered with any error other than that
    it cannot be reached. *)
Definition final (c : service_msg * option rpc_error) : bool :=
  match c.2 with
  | None => true
  | Some Unavailable => false
  | Some (OtherError _) => negb (pod_limit c.1)
  end.
Definition finals (cs : call_log) : list service_msg := (filter (λ c, final c = true) cs).*1.

Section Recorded.
Context {V : Type} {svc : ServiceCalls V}.
#[local] Instance recorded_calls : ServiceCalls (V * call_log) := recording svc.
Implicit Types (s : Sender (V * call_log)).

Lemma finals_snoc cs m err :
  finals (cs ++ [(m, err)]) = finals cs ++ (if final (m, err) then [m] else []).
Proof.
  unfold finals. rewrite filter_app, fmap_app. f_equal. rewrite filter_cons, filter_nil.
  by destruct (final (m, err)).
Qed.

(** The goroutines have limits of pods; the messages that are done are those of
    the final calls. *)
Record recorded s : Prop := mkRecorded {
  rc_tasks : Forall (λ t, pod_limit (tk_event t) = true) (sd_tasks s);
  rc_done : sd_done s = finals (sd_service s).2
}.
Lemma recorded_step s ev s' : sender_step s ev = Some s' → recorded s → recorded s'.
Proof.
  intros E [Ht Hd]. destruct ev as [m | | | i run | i]; cbn [sender_step] in E.
  - destruct (_ <? _)%nat; [| done]. by injection E as <-.
  - destruct (sd_back s); [done |]. destruct (sd_chan s) as [| e ch]; [done |]. injection E as <-.
    unfold handle_event, after_switch. destruct (pod_limit e) eqn:Ep.
    + split; [| done]. cbn. apply Forall_app_2; [done |]. by repeat constructor.
    + cbn. destruct (rpc_call (sd_service s).1 e) as [v err]. split; [done |]. cbn [sd_done sd_service snd].
      rewrite finals_snoc, <- Hd. unfold final. cbn [fst snd]. rewrite Ep.
      destruct err as [[] |]; cbn; by rewrite ?app_nil_r.
  - destruct (sd_back s); [| done]. destruct (_ <? _)%nat; [| done]. by injection E as <-.
  - unfold RetrySetAppLimit in E. destruct (sd_tasks s !! i) as [[e []] |] eqn:Ei; try done.
    pose proof (Forall_lookup_1 _ _ _ _ Ht Ei) as Hp. cbn in Hp.
    destruct run; [cbn in E; destruct (rpc_call (sd_service s).1 e) as [v [er |]] |]; injection E as <-; split;
      cbn [sd_done sd_service sd_tasks snd].
    + by apply Forall_insert.
    + rewrite finals_snoc, <- Hd. unfold final. cbn. rewrite Hp. by destruct er; rewrite app_nil_r.
    + by apply Forall_delete.
    + by rewrite finals_snoc, <- Hd.
    + by apply Forall_insert.
    + done.
  - unfold retry_back in E. destruct (sd_tasks s !! i) as [[e []] |] eqn:Ei; try done.
    destruct (_ <? _)%nat; [| done]. injection E as <-. split; [by apply Forall_delete | done].
Qed.
Lemma recorded_steps v l s : sender_steps (sender_start (v, [])) l = Some s → recorded s.
Proof.
  apply (sender_steps_inv (λ _, recorded) _ []); [| by split]. intros l1 s1 ev s2. apply recorded_step.
Qed.

(** Every message that waits or has been a call was sent. *)
Definition sent_only s : Prop := Forall (.∈ sd_sent s) (pending s ++ (sd_service s).2.*1).
Lemma sent_only_step s ev s' : sender_step s ev = Some s' → sent_only s → sent_only s'.
Proof.
  unfold sent_only, pending. intros E Hk. rewrite Forall_forall in *.
  destruct ev as [m | | | i run | i]; cbn [sender_step] in E.
  - destruct (_ <? _)%nat; [| done]. injection E as <-. cbn. set_solver.
  - destruct (sd_back s); [done |]. destruct (sd_chan s) as [| e ch]; [done |]. injection E as <-.
    unfold handle_event, after_switch. destruct (pod_limit e) eqn:Ep.
    + cbn. rewrite map_app. cbn. destruct (sd_err s) as [[] |]; set_solver.
    + cbn. destruct (rpc_call (sd_service s).1 e) as [v err]. cbn. rewrite fmap_app. cbn.
      destruct err as [[] |]; set_solver.
  - destruct (sd_back s); [| done]. destruct (_ <? _)%nat; [| done]. injection E as <-. cbn. set_solver.
  - unfold RetrySetAppLimit in E. destruct (sd_tasks s !! i) as [[e []] |] eqn:Ei; try done.
    pose proof (tasks_failed _ _ _ true Ei) as Hf. pose proof (tasks_delete _ _ _ Ei) as Hd. cbn [tk_event] in *.
    destruct run; [cbn in E; destruct (rpc_call (sd_service s).1 e) as [v [er |]] |]; injection E as <-; cbn;
      rewrite ?Hf, ?fmap_app; try done; cbn; intros x Hx; apply Hk; revert Hx;
      rewrite !elem_of_app, ?Hd; set_solver.
  - unfold retry_back in E. destruct (sd_tasks s !! i) as [[e []] |] eqn:Ei; try done.
    pose proof (tasks_delete _ _ _ Ei) as Hd. cbn [tk_event] in *.
    destruct (_ <? _)%nat; [| done]. injection E as <-. cbn. intros x Hx. apply Hk. revert Hx.
    rewrite !elem_of_app, ?Hd. set_solver.
Qed.
Lemma kept_steps v l s : sender_steps (sender_start (v, [])) l = Some s → kept s.
Proof.
  apply (sender_steps_inv (λ _, kept) _ []); [| apply submseteq_nil_l]. intros l1 s1 ev s2 E Hs. unfold kept in *.
  destruct (sender_step_keeps s1 ev s2 E) as [-> Hk]. trans (news ev ++ pending s1 ++ sd_done s1); [| done].
  rewrite Permutation_app_comm. by apply submseteq_skips_l.
Qed.

(** C38: No message to the service is lost, and none is made up.  For any
    service, whatever it answers, and however the engines' messages, the
    handler, its goroutines and pods that do not run yet follow each other:
    every message that an engine has sent, as often as it was sent, is in the
    channel, with a goroutine or about to be put back, or the service has been
    called with it and the call was final, which means that the service
    accepted it or, for a message that is no limit of a pod, answered with any
    error other than Unavailable (such a message is not sent again); and the
    service has been called with no message that no engine sent. *)
Theorem no_request_lost (v : V) (l : list send_event) (s : Sender (V * call_log)) :
  sender_steps (sender_start (v, [])) l = Some s →
  sent l ⊆+ pending s ++ finals (sd_service s).2 ∧ ∀ c, c ∈ (sd_service s).2 → c.1 ∈ sent l.
Proof.
  intros E. pose proof (sent_steps _ _ _ E) as Hs. pose proof (kept_steps _ _ _ E) as Hk.
  destruct (recorded_steps _ _ _ E) as [_ Hd]. rewrite <- Hs, <- Hd. split; [exact Hk |]. clear Hs Hk Hd.
  assert (Hn : sent_only s).
  { revert E. apply (sender_steps_inv (λ _, sent_only) _ []); [| by constructor]. intros l1 s1 ev s2. apply sent_only_step. }
  intros c Hc. unfold sent_only in Hn. rewrite Forall_app, !Forall_forall in Hn. apply Hn, list_elem_of_fmap. eauto.
Qed.

Lemma accepted_finals (cs : call_log) : Forall (λ c, c.2 = None) cs → finals cs = cs.*1.
Proof.
  unfold finals. induction 1 as [| [m err] cs Hc Hcs IH]; [done |]. cbn in Hc. subst err.
  rewrite filter_cons, decide_True by done. cbn. by rewrite IH.
Qed.
Lemma accepting_steps v l s :
  (∀ (v : V) m, (rpc_call v m).2 = None) → sender_steps (sender_start (v, [])) l = Some s →
  Forall (λ c, c.2 = None) (sd_service s).2.
Proof.
  intros Ha. apply (sender_steps_inv (λ _ s, Forall (λ c, c.2 = None) (sd_service s).2) _ []); [| by constructor].
  intros l1 s1 ev s2 E Hs.
  assert (Hcall : ∀ e v' err, rpc_call (sd_service s1).1 e = (v', err) → err = None).
  { intros e v' err Ee. specialize (Ha (sd_service s1).1 e). by rewrite Ee in Ha. }
  destruct ev as [m | | | i run | i]; cbn [sender_step] in E; unfold RetrySetAppLimit, retry_back in E;
    repeat case_match; simplify_eq/=; try done; unfold handle_event, after_switch; repeat case_match; simplify_eq/=; try done;
    repeat match goal with H : (let '(_, _) := ?c in _) = _ |- _ => destruct c eqn:? ; simplify_eq/= end; try done;
    apply Forall_app_2; try done; constructor; eauto.
Qed.

(** C30: Messages to a service that accepts every call, for pods that run,
    come to rest.  After any run from the start of the agent, once the engines
    send nothing more, the handler and its goroutines take at most twice as
    many steps as messages are in the channel and one for each goroutine,
    whatever their order; and when none can go on, the service has been called
    with every message that was sent, exactly once each, and with those that
    are no limits of pods in the order in which they were sent. *)
Theorem sender_settles (v : V) (l0 l : list send_event) (s s' : Sender (V * call_log)) :
  (∀ (v : V) m, (rpc_call v m).2 = None) →
  Forall runs_pods l0 → sender_steps (sender_start (v, [])) l0 = Some s →
  Forall own_step l → sender_steps s l = Some s' →
  (length l ≤ 2 * length (sd_chan s) + length (sd_tasks s))%nat ∧
  ((∀ ev, own_step ev → sender_step s' ev = None) →
     (sd_service s').2.*1 ≡ₚ sent l0 ∧
     filter (λ m, pod_limit m = false) ((sd_service s').2.*1) = filter (λ m, pod_limit m = false) (sent l0)).
Proof.
  intros Ha Hl0 E0 Hl E.
  assert (Ha' : ∀ (w : V * call_log) m, (rpc_call w m).2 = None).
  { intros w m. specialize (Ha w.1 m). cbn. by destruct (rpc_call w.1 m). }
  destruct (own_steps_done Ha' _ _ _ _ _ Hl0 E0 Hl E) as [Hlen Hrest]. split; [done |]. intros Hno.
  assert (E1 : sender_steps (sender_start (v, [])) (l0 ++ l) = Some s').
  { by rewrite sender_steps_app, E0. }
  assert (Hsent : sent l0 = sd_sent s').
  { rewrite (sent_steps _ _ _ E1). unfold sent. rewrite omap_app. clear -Hl.
    induction Hl as [| ev l Hev Hl IH]; [by rewrite app_nil_r |]. by destruct ev. }
  rewrite Hsent, <- accepted_finals by (by apply (accepting_steps v (l0 ++ l))).
  destruct (recorded_steps _ _ _ E1) as [_ <-]. by apply Hrest.
Qed.
End Recorded.

