(* ===== verification/SourceExamples.v ===== *)
(** * Runs of the agent's sources and of its messages to the I/O service *)

From S2P Require Export OobFacts SendFacts ServiceFacts.

(** Patterns are plain text, and match where they occur. *)
Definition regexp_fake : RegexpLib :=
  {| FindString := λ re s, if String.eqb re "(" then None
                           else if bool_decide (is_Some (String.index 0 re s)) then Some re else Some "" |}.
Definition log_json_fake : LogJson :=
  {| marshal_log := λ c, if log_Debug c then "debug" else if log_Info c then "info" else "";
     unmarshal_log := λ s, inl (Persist.mkLogLevel (negb (String.eqb s "")) (String.eqb s "debug")) |}.

Module SourceExample.
#[local] Existing Instance regexp_fake.
#[local] Existing Instance log_json_fake.

(** ** Configuration *)

(** The sample file, with every setting but the minima of the network and the
    pattern as it has them. *)
Definition sample : AdminSettings :=
  mkAdminSettings 20 20 20 20 5 5 6 7 "node" InfoLevel ["kube-flannel"; "calico-system"] 50 2 2 30 1.
Definition admin2 : AdminResourceConfig :=
  mkAdmin false 20 20 20 20 {["ioi-system"; "kube-system"; "kube-flannel"; "calico-system"]} 50 1 5 5 6 7
    (Agent.mkLogLevel true false false false true false true false) (mkInterval 2 2 30).


Definition map_of (l : list (string * string)) : ConfigMap := mkConfigMap "ioi-system" AdminName ∅ (list_to_map l).
(** An empty line in the pools stops the agent, and so does a pattern of
    nodes that does not compile. *)
Example empty_line_panics :
  GetAdminConfig "node1" (map_of [("diskpools", print_lines ["sysPool=20"; ""; "bePool=20"])]) = Crash OutOfRange.
Proof. vm_compute. reflexivity. Qed.
Example bad_pattern_panics :
  GetAdminConfig "node1" (map_of [("loglevel", print_lines ["nodes=("; "level=info"])]) = Crash ParsePanic.
Proof. vm_compute. reflexivity. Qed.
(** The sample file says that [nodes=node,csi] names the nodes with "node" or
    "csi" in their name: no such node is meant. *)
Example node_list_is_a_pattern :
  log_levels "node1" (print_lines ["nodes=node,csi"; "level=info"]) = Ok no_levels.
Proof. vm_compute. reflexivity. Qed.

(** ** Policies *)

Definition policy1 : Policy := mkPolicy "POOL_SIZE" "All" "CALC_REQUEST_RATIO" "CALC_REQUEST_RATIO" "NONE".
Definition policy2 : Policy := mkPolicy "NONE" "All" "NONE" "NONE" "NONE".
Lemma policy_roundtrip_witness :
  AnalysisPolicyConfig (policy_map {["DiskGArules" := policy1; "DiskBErules" := policy2]} {["NetGArules" := policy2]}) =
    Ok ({["NetGArules" := policy2]} ∪ {["DiskGArules" := policy1; "DiskBErules" := policy2]}).
Proof.
  apply policy_roundtrip; unfold policies_ok, policy_ok.
  - apply map_Forall_insert_2; [| apply map_Forall_singleton]; repeat split; repeat constructor; discriminate.
  - apply map_Forall_singleton. repeat split; repeat constructor; discriminate.
Defined.

(** A group whose policy is not in the map gets the one before it: here best
    effort is treated as guaranteed. *)
Example missing_policy_takes_previous :
  AnalysisPolicyConfig (map_of
    [("DiskGroup", print_lines ["DiskGArules:Strict"; "DiskBErules:Lenient"]); ("Strict", rules_text policy1)]) =
  Ok {["DiskGArules" := policy1; "DiskBErules" := policy1]}.
Proof. vm_compute. reflexivity. Qed.
(** A line without a colon stops the agent. *)
Example policy_line_panics :
  AnalysisPolicyConfig (map_of [("NetGroup", print_lines ["NetGArules"])]) = Crash OutOfRange.
Proof. vm_compute. reflexivity. Qed.
End SourceExample.

(** ** The watcher of cgroup directories *)

Module OobExample.
Definition uid : string := "1f-2e".
Definition pod1 : KubePod := mkKubePod uid "p1" "default" ∅ "Burstable" "Running".
Definition root : string := "/opt/ioi/cgroup/".
Definition pod_dir : string := pod_cgroup root pod1.
Definition con_dir (id : string) : string := pod_dir +:+ "/cri-containerd-" +:+ id +:+ ".scope".
Definition created (p : string) : inotify_event := mkInotify (InCreate + InIsdir) p.
Definition removed (p : string) : inotify_event := mkInotify (InDelete + InIsdir) p.
Definition tasks (id : string) : inotify_event := mkInotify InModify (con_dir id +:+ "/cgroup.procs").
Definition listed : list KubePod + error := inl [pod1].

(** The operation and the cgroup path of each announcement. *)
Definition said (r : outcome (Oob * list PodData)) : option (list (Z * string)) :=
  match r with
  | Ok (_, out) => Some (omap (λ p, ev ← PodEvents p !! "dev"; i ← ev !! uid; Some (Operation i, CGroupPath i)) out)
  | Crash _ => None
  end.
Definition pod_path : string := "/kubepods.slice/kubepods-burstable.slice/kubepods-burstable-pod1f_2e.slice".

Definition container_runs (id : string) : list oob_event :=
  [ContainerWatch (created (con_dir id)); HandleContainer ""; TaskWatch (tasks id); HandleContainer "/var/run/netns/n1"].
(** The pod is created and listed, and its container runs, stops, and is
    started again by the kubelet: it is announced, stopped, and never
    announced again. *)
Example restarted_pod_stays_stopped :
  said (oob_run (NewOobServer root)
    ([PodWatch (created pod_dir); HandlePod listed] ++ container_runs "c1" ++
     [ContainerWatch (removed (con_dir "c1")); HandleContainer ""] ++ container_runs "c2")) =
  Some [(RunPod, pod_path); (StopPod, "/kubepods.slice/kubepods-burstable.slice")].
Proof. vm_compute. reflexivity. Qed.

(** The container runs before the kubelet lists the pod: the pod is never
    announced, although all that follows says that it runs. *)
Example early_pod_never_announced :
  said (oob_run (NewOobServer root)
    ([PodWatch (created pod_dir); HandlePod (inl [])] ++ container_runs "c1" ++
     [TimeGetAllPods listed] ++ container_runs "c1" ++ container_runs "c2")) = Some [].
Proof. vm_compute. reflexivity. Qed.

(** The directory of a pod is removed; the pod stays, since its UID has
    dashes where the directory has underscores. *)
Example removed_pod_stays :
  match oob_run (NewOobServer root)
    [TimeGetAllPods listed; PodWatch (created pod_dir); HandlePod listed; PodWatch (removed pod_dir); HandlePod listed] with
  | Ok (o, _) => (map_to_list (pods o)).*1 = [uid]
  | Crash _ => False
  end.
Proof. vm_compute. reflexivity. Qed.

(** A pod that runs when the agent starts is announced with the cgroup two
    levels above its own: the limits would be those of all pods. *)
Definition cgroup_files : Disk0 := mkFiles ∅ {[pod_dir := [("cri-containerd-c1.scope", true)]]} ∅.
Example started_pod_path :
  match AgentOob.Initialize (H := key_order) (Files0 := files_fake) cgroup_files (λ _, "/var/run/netns/n1") listed
          (NewOobServer root) with
  | Ok o => said (Ok (o, oob_chan o)) = Some [(RunPod, "/kubepods.slice")]
  | Crash _ => False
  end.
Proof. vm_compute. reflexivity. Qed.
End OobExample.

(** ** Messages to the I/O service *)

(** The disk engine of the service behind the calls: a service that has
    panicked cannot be reached, an error of a handler is refused. *)
Section DiskCalls.
Context {D F : Type} `{!BoltDB D} `{!Files F} `{!DiskJson}.

Definition DiskNode : Type := option (DiskSvc D * F).
Definition answered {R} (f : F) (o : outcome (R * option error * DiskSvc D)) : DiskNode * option rpc_error :=
  match o with
  | Ok (_, None, s) => (Some (s, f), None)
  | Ok (_, Some e, s) => (Some (s, f), Some (OtherError e))
  | Crash _ => (None, Some Unavailable)
  end.
Definition disk_call (n : DiskNode) (m : service_msg) : DiskNode * option rpc_error :=
  match n with
  | None => (None, Some Unavailable)
  | Some (s, f) =>
      match m with
      | RegisterApp name info _ => answered f (RegisterApp_svc f name info s)
      | UnRegisterApp id _ => answered f (UnRegisterApp_svc id s)
      | Configure t c _ => answered f (Configure_svc t c s)
      | SetAppLimit id l _ =>
          match SetAppLimit_svc id l s f with
          | Ok (_, None, f) => (Some (s, f), None)
          | Ok (_, Some e, f) => (Some (s, f), Some (OtherError e))
          | Crash _ => (None, Some Unavailable)
          end
      end
  end.
End DiskCalls.

Module SendExample.
Import FakeInstances NodeInstances ServiceInstances.
Import DiskExample ServiceExample.

(** ** A service that accepts everything, and one that cannot be reached *)

Definition accepting : ServiceCalls (list service_msg) := {| rpc_call := λ v m, (v ++ [m], None) |}.
Definition down : ServiceCalls () := {| rpc_call := λ v m, (v, Some Unavailable) |}.

Definition register1 : service_msg := RegisterApp "uid-1" "/cg/p1 8:0" DiskIOIType.
Definition limit (rate : string) : service_msg :=
  SetAppLimit "0.uid-1" [mkBWLimit "8:0" rate "" 100 0] DiskIOIType.
Definition interval1 : service_msg := Configure "INTERVAL" "2" DiskIOIType.

(** A registration is taken, then a limit and a setting are sent; the goroutine
    runs last. *)
Definition before : list send_event :=
  [EngineSends register1; Take; EngineSends (limit "100"); EngineSends interval1].
Definition after : list send_event := [Take; Take; Retry 0 true].
Definition steps_of {V} (svc : ServiceCalls V) (v : V) (l : list send_event) : Sender (V * call_log) :=
  default (sender_start (v, [])) (sender_steps (ServiceCalls0 := recorded_calls) (sender_start (v, [])) l).

Lemma sender_settles_witness :
  let s := steps_of accepting [] before in
  let s' := steps_of accepting [] (before ++ after) in
  (length after ≤ 2 * length (sd_chan s) + length (sd_tasks s))%nat ∧
  (sd_service s').2.*1 ≡ₚ [register1; limit "100"; interval1] ∧
  filter (λ m, pod_limit m = false) ((sd_service s').2.*1) = [register1; interval1].
Proof.
  destruct (sender_settles (svc := accepting) [] before after (steps_of accepting [] before)
              (steps_of accepting [] (before ++ after))) as [Hlen Hrest].
  - intros v m. reflexivity.
  - repeat constructor.
  - vm_compute. reflexivity.
  - repeat constructor.
  - vm_compute. reflexivity.
  - split; [exact Hlen |]. apply Hrest. intros [m | | | i run | i] Hev; [destruct Hev | reflexivity.. | |].
    + destruct i; reflexivity.
    + destruct i; reflexivity.
Defined.

(** A service that can be reached only now and then: every third call comes
    through, and limits of pods fail. *)
Definition flaky : ServiceCalls nat :=
  {| rpc_call := λ v m, (S v, if (v mod 3 =? 2)%nat then if pod_limit m then Some (OtherError "busy") else None
                              else Some Unavailable) |}.
Definition flaky_run : list send_event :=
  [EngineSends register1; Take; PutBack; Take; PutBack; EngineSends (limit "100"); Take; Take; Retry 0 true;
   EngineSends interval1; RetryBack 0].
Lemma no_request_lost_witness :
  let s := steps_of flaky 0%nat flaky_run in
  [register1; limit "100"; interval1] ⊆+ pending s ++ [register1] ∧ ∀ c, c ∈ (sd_service s).2 → c.1 ∈ sent flaky_run.
Proof. apply (no_request_lost (svc := flaky) 0%nat flaky_run). vm_compute. reflexivity. Defined.

(** The error of one event is still there for the next: after a registration
    that could not reach the service, the limit of a pod is handed to a
    goroutine and put back as well. *)
Example limit_duplicated :
  let s := sender_run (ServiceCalls0 := down) (sender_start ())
             [EngineSends register1; Take; PutBack; EngineSends (limit "100"); Take; PutBack; Take; PutBack] in
  sd_sent s = [register1; limit "100"] ∧
  pending s = [register1; limit "100"; limit "100"].
Proof. vm_compute. split; reflexivity. Qed.

(** With the service down the handler blocks itself: it takes a message, the
    engines fill the channel, and there is no room to put the message back. *)
Definition filled : list send_event :=
  replicate 500 (EngineSends interval1) ++ [Take; EngineSends interval1].
Theorem handler_blocks_itself (l : list send_event) :
  let s := sender_run (ServiceCalls0 := down) (sender_start ()) (filled ++ l) in
  length (sd_chan s) = handler_capacity ∧ sd_back s = Some interval1 ∧ length (sd_sent s) = 501%nat.
Proof.
  intros s. subst s. rewrite sender_run_app.
  set (s0 := sender_run (ServiceCalls0 := down) (sender_start ()) filled).
  assert (Hs0 : length (sd_chan s0) = handler_capacity ∧ sd_back s0 = Some interval1 ∧ length (sd_sent s0) = 501%nat)
    by (vm_compute; repeat split).
  clearbody s0. destruct Hs0 as (H1 & H2 & H3).
  destruct (stuck_forever (ServiceCalls0 := down) s0 l) as (Hc & Hb & Hs); [by split; [| eexists] |].
  by rewrite Hc, Hb, Hs.
Qed.

(** ** The disk engine behind the handler *)

#[local] Instance disk_calls : ServiceCalls (DiskNode (D := Bolt) (F := Disk0)) := {| rpc_call := disk_call (D := Bolt) (F := Disk0) |}.
Definition node_up : DiskNode (D := Bolt) (F := Disk0) := Some (served1, node1).
Definition io_max (n : DiskNode (D := Bolt) (F := Disk0)) : option string :=
  match n with Some (_, f) => fs_files f !! "/cg/p1/io.max" | None => None end.
Definition two_limits : list send_event := [EngineSends (limit "100"); EngineSends (limit "200"); Take; Take].

(** An older limit can be the one that stays: both goroutines run, and nothing
    orders them. *)
Example older_limit_stays :
  io_max (sd_service (sender_run (sender_start node_up) (two_limits ++ [Retry 0 true; Retry 0 true]))) = Some "8:0 rbps=200 riops=100 " ∧
  io_max (sd_service (sender_run (sender_start node_up) (two_limits ++ [Retry 1 true; Retry 0 true]))) = Some "8:0 rbps=100 riops=100 ".
Proof. vm_compute. split; reflexivity. Qed.
End SendExample.
