(* ===== verification/PluginFacts.v ===== *)
(** * Facts about the scheduler plugin: Filter, Score, Reserve, Unreserve *)

From S2P Require Export CacheFacts HandleFacts Plugin.
From S2P Require Import Fake.
From S2P Require BlockRequestFacts RDTQuantityFacts.

Section Framework.
Context `{Q : QuantityLib} `{!GoRange} {K : Type} `{!KubeClient K}.
Implicit Types (ps : ResourceIO K) (w : World K) (h : CacheHandle K) (st : gmap string stateData).

(** ** Filter *)

(** Handles of different resource types have different names. *)
Definition names_distinct ps : Prop :=
  ∀ k k' h h', rhs ps !! k = Some h → rhs ps !! k' = Some h' →
    Handle.Name h = Handle.Name h' → k = k'.

(** What a handle says of the pod on the node: the node is unknown to it and
    the pod needs no guarantee, or it admits the pod's request. *)
Definition accepts w (k : string) h (pod : Pod) (node : Node) (sd : stateData) : Prop :=
  let s := view k w in
  (NodeRegistered h s (node_Name node) = false ∧ CriticalPod h (pod_Annotations pod) = false ∧
   sd = mkStateData any_nil any_nil false) ∨
  (NodeRegistered h s (node_Name node) = true ∧
   ∃ req r, AdmitPod h s pod (node_Name node) = Ok (inl req) ∧
            CanAdmitPod h s (node_Name node) req = Ok (inl r) ∧
            sd = mkStateData req r (NodeHasIoiLabel h node)).

Lemma filter_handle_accepts w k h pod node sd :
  filter_handle w k h pod node = Ok (inl sd) ↔ accepts w k h pod node sd.
Proof.
  unfold filter_handle, accepts. simpl.
  destruct (NodeRegistered h (view k w) (node_Name node)); simpl; split.
  - intros (a & Ha & E)%obind_Ok. destruct a as [req | e]; [| done].
    apply obind_Ok in E as (c & Hc & E). destruct c as [r | e]; [| done]. injection E as <-.
    right. eauto 10.
  - intros [(? & _) | (_ & req & r & Ha & Hc & ->)]; [done |]. rewrite Ha. simpl. by rewrite Hc.
  - destruct (CriticalPod h _); intros [= <-]. by left.
  - intros [(_ & -> & ->) | (? & _)]; done.
Qed.

Definition filter_body w (pod : Pod) (node : Node) st (kh : string * CacheHandle K)
    : outcome (ctrl (gmap string stateData) (gmap string stateData * Status)) :=
  let! r := filter_handle w kh.1 kh.2 pod node in
  Ok (match r with
      | inr err => Return (st, Unschedulable err)
      | inl sd => Next (<[state_key kh.2 (node_Name node) := sd]> st)
      end).

Lemma state_key_inj h h' n : state_key h n = state_key h' n → Handle.Name h = Handle.Name h'.
Proof.
  unfold state_key. intros E. apply (f_equal String.list_ascii_of_string) in E.
  rewrite !list_ascii_app in E. apply app_inv_head, app_inv_tail in E.
  by rewrite <- (String.string_of_list_ascii_of_string (Handle.Name h)), E,
    String.string_of_list_ascii_of_string.
Qed.

Lemma filter_loop w pod node l st st' :
  NoDup ((λ kh, Handle.Name kh.2) <$> l) →
  for_range l st (filter_body w pod node) = Ok (Next st') →
  (∀ k h, (k, h) ∈ l → ∃ sd, st' !! state_key h (node_Name node) = Some sd ∧ accepts w k h pod node sd) ∧
  (∀ key, (∀ k h, (k, h) ∈ l → key ≠ state_key h (node_Name node)) → st' !! key = st !! key).
Proof.
  revert st. induction l as [| [k h] l IH]; intros st Hnd; cbn [for_range].
  { intros [= <-]. split; [intros ??; by rewrite elem_of_nil | done]. }
  rewrite fmap_cons in Hnd. apply NoDup_cons in Hnd as [Hh Hnd]. unfold filter_body at 1. cbn [fst snd].
  intros E. apply obind_Ok in E as (c & Ec & E). apply obind_Ok in Ec as (r & Hr & Ec).
  injection Ec as <-. destruct r as [sd | err]; [| done].
  destruct (IH _ Hnd E) as [IH1 IH2]. split.
  - intros k0 h0 [[= -> ->] | Hin]%elem_of_cons; [| by apply IH1].
    exists sd. split; [| by apply filter_handle_accepts].
    rewrite IH2; [by rewrite lookup_insert_eq |]. intros k1 h1 Hin1 Heq%state_key_inj.
    apply Hh. cbn [snd]. rewrite Heq. by apply (list_elem_of_fmap_2 (λ kh, Handle.Name kh.2) _ (k1, h1)).
  - intros key Hkey. rewrite IH2 by (intros; eapply Hkey; by right).
    rewrite lookup_insert_ne; [done |]. intros E'. by eapply (Hkey k h); [left |].
Qed.

Lemma filter_loop_refused w pod node l st st' status :
  for_range l st (filter_body w pod node) = Ok (Return (st', status)) →
  ∃ k h err, (k, h) ∈ l ∧ status = Unschedulable err ∧ filter_handle w k h pod node = Ok (inr err).
Proof.
  revert st. induction l as [| [k h] l IH]; intros st; cbn [for_range]; [done |].
  unfold filter_body at 1. cbn [fst snd]. intros E.
  apply obind_Ok in E as (c & Ec & E). apply obind_Ok in Ec as (r & Hr & Ec). injection Ec as <-.
  destruct r as [sd | err].
  - destruct (IH _ E) as (k0 & h0 & err & Hin & Hs). exists k0, h0, err. split; [by right | done].
  - injection E as <- <-. exists k, h, err. split; [by left | done].
Qed.

Lemma names_NoDup ps : names_distinct ps → NoDup ((λ kh, Handle.Name kh.2) <$> range (rhs ps)).
Proof.
  intros Hd. apply NoDup_fmap_2_strong; [| apply (NoDup_fmap_1 fst), NoDup_range].
  intros [k h] [k' h'] Hk%elem_of_range Hk'%elem_of_range E. simpl in E.
  pose proof (Hd _ _ _ _ Hk Hk' E) as ->. by simplify_eq.
Qed.

(** C9: Filter asks every handle about a pod outside the white list.  When the
    namespace of the pod is not on the white list of the context (pods of the
    namespaces on it pass without being looked at) and the handles have
    distinct names, and Filter returns: if the pod passes, every registered
    handle accepted it, and the cycle state holds what each handle computed,
    the request and the pools, under the handle's key for that node, while the
    entries of other handles and nodes are untouched; if Filter refuses, some
    handle refused, with the error that Filter reports. *)
Theorem Filter_consults_every_handle ps w st pod node st' status :
  names_distinct ps → InNamespaceWhiteList (w_ctx w) (pod_Namespace pod) = false →
  Plugin.Filter ps w st pod node = Ok (st', status) →
  match status with
  | Success =>
      (∀ k h, rhs ps !! k = Some h →
         ∃ sd, st' !! state_key h (node_Name node) = Some sd ∧ accepts w k h pod node sd) ∧
      (∀ key, (∀ k h, rhs ps !! k = Some h → key ≠ state_key h (node_Name node)) →
         st' !! key = st !! key)
  | Unschedulable err => ∃ k h, rhs ps !! k = Some h ∧ filter_handle w k h pod node = Ok (inr err)
  end.
Proof.
  intros Hd Hns. unfold Plugin.Filter. rewrite Hns.
  change (for_range _ st _) with (for_range (range (rhs ps)) st (filter_body w pod node)).
  intros E. apply obind_Ok in E as (c & Ec & E). injection E as E. destruct c as [st1 | [st1 r]].
  - injection E as <- <-. destruct (filter_loop _ _ _ _ _ _ (names_NoDup ps Hd) Ec) as [H1 H2].
    split.
    + intros k h Hk. apply (H1 k h). by apply elem_of_range.
    + intros key Hkey. apply H2. intros k h Hk%elem_of_range. by eapply Hkey.
  - injection E as <- <-. apply filter_loop_refused in Ec as (k & h & err & Hin%elem_of_range & -> & Hf).
    eauto.
Qed.

(** ** Score *)

(** The score that Score gives a node for one handle. *)
Definition handle_score ps st (nodeName : string) (k : string) h : outcome (Z + error) :=
  match getStateData st (state_key h nodeName) with
  | inr err => Ok (inr err)
  | inl sd =>
      if negb (nodeSupportIOI sd) then Ok (inl MaxNodeScore)
      else let! sc := deref (scorer ps !! k) in sc_Score sc sd h
  end.

Definition score_body ps st (nodeName : string) (score : Z) (kh : string * CacheHandle K)
    : outcome (ctrl Z error) :=
  match getStateData st (state_key kh.2 nodeName) with
  | inr err => Ok (Return err)
  | inl sd =>
      if negb (nodeSupportIOI sd) then Ok (Next (add64 score MaxNodeScore))
      else
        let! sc := deref (scorer ps !! kh.1) in
        let! s := sc_Score sc sd kh.2 in
        Ok (match s with inr err => Return err | inl s => Next (add64 score s) end)
  end.

Lemma score_body_eq ps st n score kh :
  score_body ps st n score kh =
  let! s := handle_score ps st n kh.1 kh.2 in
  Ok (match s with inr err => Return err | inl s => Next (add64 score s) end).
Proof.
  unfold score_body, handle_score. destruct (getStateData _ _) as [sd | err]; [| done].
  destruct (negb _); [done |]. rewrite obind_assoc. by destruct (deref (scorer ps !! kh.1)).
Qed.

Definition score_sum (score_of : string → Z) (l : list (string * CacheHandle K)) : Z :=
  foldr Z.add 0 ((λ kh, score_of kh.1) <$> l).

Lemma score_sum_bounds score_of l :
  (∀ k h, (k, h) ∈ l → 0 ≤ score_of k ≤ MaxNodeScore) →
  0 ≤ score_sum score_of l ≤ 100 * Z.of_nat (length l).
Proof.
  unfold score_sum, MaxNodeScore. intros Hs. induction l as [| [k h] l IH]; [simpl; lia |].
  rewrite fmap_cons, length_cons. simpl foldr.
  pose proof (Hs k h ltac:(by left)). specialize (IH ltac:(intros; eapply Hs; by right)). lia.
Qed.

Lemma score_sum_perm score_of l l' : l ≡ₚ l' → score_sum score_of l = score_sum score_of l'.
Proof.
  intros Hp. unfold score_sum. apply (fmap_Permutation (λ kh, score_of kh.1)) in Hp.
  induction Hp; simpl; lia.
Qed.

Lemma score_loop ps st n score_of l acc :
  (∀ k h, (k, h) ∈ l →
     handle_score ps st n k h = Ok (inl (score_of k)) ∧ 0 ≤ score_of k ≤ MaxNodeScore) →
  0 ≤ acc → acc + 100 * Z.of_nat (length l) < 2 ^ 63 →
  for_range l acc (score_body ps st n) = Ok (Next (acc + score_sum score_of l)).
Proof.
  revert acc. induction l as [| [k h] l IH]; intros acc Hl Ha Hb; cbn [for_range].
  { unfold score_sum. simpl. by rewrite Z.add_0_r. }
  destruct (Hl k h) as [E Hs]; [by left |]. rewrite score_body_eq. cbn [fst snd]. rewrite E. simpl.
  rewrite length_cons in Hb. unfold MaxNodeScore in *. unfold add64.
  rewrite wrap64_id by (unfold fits64; lia). rewrite IH; [| | lia..].
  - unfold score_sum. rewrite fmap_cons. simpl foldr. by rewrite Z.add_assoc.
  - intros. apply Hl. by right.
Qed.

(** A node's score is the average of the handles' scores, rounded down,
    and lies between 0 and 100 whenever every handle's score does. *)
Theorem Score_is_average ps w st pod n score_of :
  InNamespaceWhiteList (w_ctx w) (pod_Namespace pod) = false →
  rhs ps ≠ ∅ → Z.of_nat (size (rhs ps)) < 2 ^ 50 →
  (∀ k h, rhs ps !! k = Some h →
     handle_score ps st n k h = Ok (inl (score_of k)) ∧ 0 ≤ score_of k ≤ MaxNodeScore) →
  ∃ score, Score ps w st pod n = Ok (score, Success) ∧ MinNodeScore ≤ score ≤ MaxNodeScore ∧
    let total := score_sum score_of (map_to_list (rhs ps)) in
    let count := Z.of_nat (size (rhs ps)) in
    count * score ≤ total < count * (score + 1).
Proof.
  intros Hns Hne Hsz Hall. unfold Score. rewrite Hns.
  change (for_range _ 0 _) with (for_range (range (rhs ps)) 0 (score_body ps st n)).
  assert (Hl : ∀ k h, (k, h) ∈ range (rhs ps) →
    handle_score ps st n k h = Ok (inl (score_of k)) ∧ 0 ≤ score_of k ≤ MaxNodeScore)
    by (intros k h Hin%elem_of_range; by apply Hall).
  assert (Hsum : score_sum score_of (range (rhs ps)) = score_sum score_of (map_to_list (rhs ps)))
    by (apply score_sum_perm, range_perm).
  rewrite (score_loop ps st n score_of) by (try done; rewrite length_range; lia). simpl.
  pose proof (score_sum_bounds score_of (range (rhs ps)) (λ k h Hk, proj2 (Hl k h Hk))) as Hb.
  rewrite length_range in Hb. rewrite Hsum in *.
  assert (size (rhs ps) ≠ 0%nat) by (intros E; by apply map_size_empty_iff in E).
  rewrite (proj2 (Nat.eqb_neq _ _)) by done. unfold div64.
  rewrite (proj2 (Z.eqb_neq _ _)) by lia. simpl.
  set (t := score_sum score_of (map_to_list (rhs ps))) in *. set (c := Z.of_nat (size (rhs ps))) in *.
  rewrite Z.add_0_l, Z.quot_div_nonneg by lia.
  pose proof (Z.div_mod t c ltac:(lia)). pose proof (Z.mod_pos_bound t c ltac:(lia)).
  assert (0 ≤ t / c ≤ 100) by (split; [apply Z.div_pos; lia | apply Z.div_le_upper_bound; lia]).
  set (q := t / c) in *. set (r := t mod c) in *. clearbody q r t c.
  rewrite wrap64_id by (unfold fits64; lia).
  exists q. split; [done |]. unfold MinNodeScore, MaxNodeScore. lia.
Qed.
End Framework.

(** ** Reserve and Unreserve *)

Section Reserve.
Context `{Q : QuantityLib} `{!JsonLib} `{!GoRange, !GoSort} {K : Type} `{!KubeClient K}.
Implicit Types (ps : ResourceIO K) (w : World K) (h : CacheHandle K) (s : HS K) (c : IoiContext).

(** The node's reserved pods do not list the pod. *)
Definition unrecorded c (pod : Pod) (node : string) : Prop :=
  ∀ pl v, Reservedpod c !! node = Some pl → pl = Some v → pl_PodList v !! pod_UID pod = None.

(** The name a cached resource carries: AddCacheNodeInfo stores the key. *)
Definition resource_name (r : ExtendedResource) : string :=
  match r with
  | ER_Block b => br_nodeName b | ER_Net b => nr_nodeName b
  | ER_Rdt b => rr_nodeName b | ER_Rdtq b => qr_nodeName b
  end.

Lemma relock c c' : ctx_Lock c = Ok c' → set_locked false c' = c.
Proof. unfold ctx_Lock. destruct c as [? ? ? ? ? []]; [done |]. by intros [= <-]. Qed.
Lemma Lock_reserved c c' : ctx_Lock c = Ok c' → Reservedpod c' = Reservedpod c.
Proof. unfold ctx_Lock. destruct (locked c); [done |]. by intros [= <-]. Qed.

(** Bandwidth is given back from the recorded requests only. *)
Lemma block_RemovePod_unrecorded entry b pod client s r s' :
  unrecorded (hs_ctx s) pod (br_nodeName b) →
  BlockIO.res_RemovePod entry b pod client s = Ok (r, s') → s' = s.
Proof.
  intros Hu. unfold BlockIO.res_RemovePod. intros (c & Hc & E)%obind_Ok.
  assert (Hs : set_ctx (ctx_Unlock c) s = s)
    by (unfold ctx_Unlock; rewrite (relock _ _ Hc); by destruct s).
  unfold GetReservedPods in E. rewrite (Lock_reserved _ _ Hc) in E.
  destruct (Reservedpod (hs_ctx s) !! br_nodeName b) as [[v |] |] eqn:Er; simpl in E.
  - rewrite (Hu _ v Er eq_refl) in E. injection E as <- <-. done.
  - done.
  - injection E as <- <-. done.
Qed.

Lemma net_RemovePod_unrecorded entry b pod client s r s' :
  unrecorded (hs_ctx s) pod (nr_nodeName b) →
  NetworkIO.res_RemovePod entry b pod client s = Ok (r, s') → s' = s.
Proof.
  intros Hu. unfold NetworkIO.res_RemovePod. intros (info & _ & E)%obind_Ok.
  destruct (NICsStatus info !! _); [| by injection E as <- <-].
  apply obind_Ok in E as (c & Hc & E).
  assert (Hs : set_ctx (ctx_Unlock c) s = s)
    by (unfold ctx_Unlock; rewrite (relock _ _ Hc); by destruct s).
  unfold GetReservedPods in E. rewrite (Lock_reserved _ _ Hc) in E.
  destruct (Reservedpod (hs_ctx s) !! nr_nodeName b) as [[v |] |] eqn:Er; simpl in E.
  - rewrite (Hu _ v Er eq_refl) in E. injection E as <- <-. done.
  - done.
  - injection E as <- <-. done.
Qed.

(** The caches of the handles that All registers hold no rdt-quantity nodes. *)
Definition all_entry (node : string) (c : gmap string ExtendedResource) : Prop :=
  ∀ r, c !! node = Some r → resource_name r = node ∧ ∀ b, r ≠ ER_Rdtq b.

Lemma base_RemovePod_unrecorded pod node client s r s' :
  unrecorded (hs_ctx s) pod node → all_entry node (hs_cache s) →
  base_RemovePod pod node client s = Ok (r, s') → s' = s.
Proof.
  intros Hu Hn. unfold base_RemovePod, GetExtendedResource. intros ([err s1] & E1 & E)%obind_Ok.
  assert (s1 = s) as ->.
  { destruct (hs_cache s !! node) as [res |] eqn:Er; [| by injection E1 as <- <-].
    destruct (Hn _ Er) as [Hname Hq].
    destruct res as [b | b | b | b]; simpl in *; subst; [| | by injection E1 as <- <- | by destruct (Hq b)].
    - by eapply block_RemovePod_unrecorded.
    - by eapply net_RemovePod_unrecorded. }
  destruct err; [by injection E as <- <- |]. apply obind_Ok in E as ([u s2] & Ep & E).
  apply print_cache_inv in Ep as [-> _]. by injection E as <- <-.
Qed.

(** The handles registered for the resource type All. *)
Definition all_handles ps : Prop :=
  ∀ k h, rhs ps !! k = Some h → RemovePod h = base_RemovePod ∧ AddPod h = base_AddPod ∧
                                PrintCacheInfo h = print_cache.
(** Every handle has its cache, and the node's entries are well formed. *)
Definition caches_ok ps w (node : string) : Prop :=
  ∀ k h, rhs ps !! k = Some h → ∃ m, w_caches w !! k = Some m ∧ all_entry node m.

Lemma put_view k w m : w_caches w !! k = Some m → put k (view k w) w = w.
Proof.
  intros Hc. unfold put, view. rewrite Hc. simpl. rewrite insert_id by done. by destruct w.
Qed.

Lemma unreserve_loop ps w pod node l w' :
  all_handles ps → caches_ok ps w node → unrecorded (w_ctx w) pod node →
  (∀ k h, (k, h) ∈ l → rhs ps !! k = Some h) →
  foldM (λ w kh, let! '(_, w) := on_handle kh.1 (RemovePod kh.2 pod node true) w in Ok w) w l = Ok w' →
  w' = w.
Proof.
  intros Ha Hc Hu Hl. induction l as [| [k h] l IH]; cbn [foldM fst snd]; [by intros [= <-] |].
  intros (w1 & E1 & E)%obind_Ok. assert (w1 = w) as ->.
  { pose proof (Hl k h ltac:(by left)) as Hk. destruct (Ha k h Hk) as [Hrm _]. rewrite Hrm in E1.
    destruct (Hc k h Hk) as (c & Hck & Hce). unfold on_handle in E1.
    rewrite obind_assoc in E1. apply obind_Ok in E1 as ([r s] & Er & E1). simpl in E1.
    injection E1 as <-. apply base_RemovePod_unrecorded in Er as ->; [by eapply put_view | done |].
    unfold view. rewrite Hck. done. }
  apply IH; [intros; apply Hl; by right | done].
Qed.

(** A pod that is not among the node's reserved pods gets nothing back
    from Unreserve: every disk and network pool keeps what Reserve took,
    because RemovePod works from the recorded requests.  Reserve records them
    last, so the charges of a Reserve that fails midway are never undone. *)
Theorem Unreserve_unrecorded_keeps_charges ps w pod node w' :
  all_handles ps → caches_ok ps w node →
  unrecorded (w_ctx w) pod node →
  Unreserve ps w pod node = Ok w' →
  w_caches w' = w_caches w ∧ w_kube w' = w_kube w.
Proof.
  intros Ha Hc Hu. unfold Unreserve. destruct (InNamespaceWhiteList _ _); [by intros [= <-] |].
  intros (w1 & E1 & E)%obind_Ok. apply (unreserve_loop ps w pod node) in E1 as ->; try done.
  - apply obind_Ok in E as ([c e] & _ & E). by injection E as <-.
  - intros k h. apply elem_of_range.
Qed.
End Reserve.

(** ** New *)

Section New.
Context `{Q : QuantityLib} `{!JsonLib} `{!GoRange, !GoSort} {K : Type} `{!KubeClient K}.

(** The handle of each resource type, as New registers it. *)
Definition registered (m : gmap string (CacheHandle K)) : Prop :=
  ∀ k h, m !! k = Some h →
    (k = BlockIO_t ∧ h = BlockIOHandle) ∨ (k = NetworkIO_t ∧ h = NetworkIOHandle) ∨
    (k = RDT_t ∧ h = RDTHandle) ∨ (k = RDTQuantity_t ∧ h = RDTQuantityHandle).

Lemma registered_insert m k h :
  handle_of k = Some h → registered m → registered (<[k := h]> m).
Proof.
  intros Hk Hm k' h' [[<- <-] | [_ Hl]]%lookup_insert_Some; [| by apply Hm].
  unfold handle_of in Hk.
  repeat match type of Hk with
  | context [String.eqb ?a ?b] => destruct (String.eqb_spec a b); [simplify_eq; by auto 10 |]
  end. done.
Qed.

Lemma registered_neutral m : registered m → map_Forall (λ _ h, LockNeutral h) m.
Proof.
  intros Hm k h Hk. destruct (Hm k h Hk) as [[_ ->] | [[_ ->] | [[_ ->] | [_ ->]]]]; apply _.
Qed.

Lemma registered_distinct ps : registered (rhs ps) → names_distinct (K := K) ps.
Proof.
  intros Hr k k' h h' Hk Hk' E.
  destruct (Hr k h Hk) as [[-> ->] | [[-> ->] | [[-> ->] | [-> ->]]]];
    destruct (Hr k' h' Hk') as [[-> ->] | [[-> ->] | [[-> ->] | [-> ->]]]]; done.
Qed.

(** The loop over the resource types: every type gets its handle and a scorer. *)
Lemma New_loop_spec ss rts (ps0 : ResourceIO K) ps :
  Forall (λ rt, is_Some (handle_of (K := K) rt)) rts →
  registered (rhs ps0) → dom (rhs ps0) = dom (scorer ps0) →
  foldl (λ acc rt,
    match acc with
    | inr err => inr err
    | inl ps =>
        let r := match handle_of rt with Some h => <[rt := h]> (rhs ps) | None => rhs ps end in
        match getScorer ss rt with
        | inr err => inr err
        | inl s => inl (mkResourceIO r (<[rt := s]> (scorer ps)))
        end
    end) (inl ps0 : ResourceIO K + error) rts = inl ps →
  registered (rhs ps) ∧ dom (rhs ps) = dom (scorer ps) ∧ dom (rhs ps) = dom (rhs ps0) ∪ list_to_set rts.
Proof.
  revert ps0. induction rts as [| rt rts IH]; intros ps0 Hh Hr Hd; cbn [foldl].
  { intros [= <-]. split; [done |]. split; [done |]. simpl. set_solver. }
  apply Forall_cons in Hh as [[h Hh] Hrts]. rewrite Hh.
  destruct (getScorer ss rt) as [sc | err].
  - intros E. apply IH in E as (Hr1 & Hd1 & Hd2); simpl in *.
    + split; [done |]. split; [done |]. rewrite Hd2, dom_insert_L. set_solver.
    + done.
    + by apply registered_insert.
    + rewrite !dom_insert_L. by rewrite Hd.
  - intros E. exfalso. clear -E. induction rts as [| rt' rts IH]; cbn [foldl] in E; [done | auto].
Qed.

Lemma getResources_known rt rts :
  getResources rt = inl rts → Forall (λ rt, is_Some (handle_of (K := K) rt)) rts ∧ rts ≠ [].
Proof.
  unfold getResources.
  repeat match goal with
  | |- (if String.eqb ?a ?b then _ else _) = _ → _ => destruct (String.eqb_spec a b); [subst |]
  end; intros [= <-]; (split; [repeat constructor; by eexists | done]).
Qed.

(** What New builds satisfies the assumptions of the plugin's and the
    event handlers' theorems: exactly the configured resource types have a
    handle, each with its scorer and an empty cache, the handles' names are
    distinct, every handle satisfies [LockNeutral], and the context's lock is
    free. *)
Theorem New_meets_interfaces (k : K) rt ss ps w rts :
  getResources rt = inl rts →
  New k rt ss = inl (ps, w) →
  rhs ps ≠ ∅ ∧ dom (rhs ps) = list_to_set rts ∧ dom (scorer ps) = dom (rhs ps) ∧
  names_distinct ps ∧ map_Forall (λ _ h, LockNeutral h) (rhs ps) ∧
  locked (w_ctx w) = false ∧ (∀ key, view key w = mkHS (w_ctx w) ∅ k).
Proof.
  intros Hrts. unfold New. rewrite Hrts. destruct (New_loop _ _ _) as [ps0 | err] eqn:El; [| done].
  intros [= <- <-]. destruct (getResources_known rt rts Hrts) as [Hk Hne].
  apply New_loop_spec in El as (Hr1 & Hd1 & Hd2); simpl in *; [| done | by intros ??; rewrite lookup_empty | done].
  rewrite dom_empty_L, union_empty_l_L in Hd2. split.
  { intros E. rewrite E, dom_empty_L in Hd2. destruct rts; [done |]. set_solver. }
  split; [done |]. split; [done |]. split; [by apply registered_distinct |].
  split; [by apply registered_neutral |]. split; [done |].
  intros key. unfold view. simpl. f_equal. rewrite lookup_fmap. by destruct (rhs ps0 !! key).
Qed.
End New.

(** ** A plugin with the handles of All, and a node known to the disk plugin *)

Module PluginExample.
Import FakeInstances.
Import BlockRequestFacts.BlockRequestExample.

Definition plugin_world : ResourceIO Server * World Server :=
  match New (set_faults [Some (Conflict "the object has been modified")] server2)
          All_t "LeastAllocated" with
  | inl r => r
  | inr _ => (mkResourceIO ∅ ∅, mkWorld (mkCtx ∅ [] ∅ [] ∅ false) server2 ∅)
  end.
Definition ps_all : ResourceIO Server := plugin_world.1.
Definition w0 : World Server :=
  let w := plugin_world.2 in
  mkWorld (mkCtx {["n1" := Some (mkPodList 3 ∅)]} [] ∅ [] ∅ false) (w_kube w)
    (<[BlockIO_t := {["n1" := ER_Block res2]}]> (w_caches w)).
Definition k8s_node : Node := mkNode "n1" {["ioisolation" := "all"]}.

Definition st0 : gmap string stateData :=
  match Plugin.Filter ps_all w0 ∅ pod3 k8s_node with Ok (st, _) => st | Crash _ => ∅ end.
Definition after_reserve : World Server * gmap string stateData * Status :=
  match Reserve ps_all w0 st0 pod3 "n1" with Ok r => r | Crash _ => (w0, ∅, Success) end.
Definition w1 : World Server := after_reserve.1.1.
Definition w2 : World Server :=
  match Unreserve ps_all w1 pod3 "n1" with Ok w => w | Crash _ => w0 end.

Lemma ps_all_registered : registered (rhs ps_all).
Proof.
  do 3 (apply registered_insert; [reflexivity |]).
  intros k h Hk. simpl in Hk. by rewrite lookup_empty in Hk.
Qed.
Lemma ps_all_cases k h :
  rhs ps_all !! k = Some h →
  (k = BlockIO_t ∧ h = BlockIOHandle) ∨ (k = NetworkIO_t ∧ h = NetworkIOHandle) ∨
  (k = RDT_t ∧ h = RDTHandle).
Proof.
  intros Hk. destruct (ps_all_registered k h Hk) as [? | [? | [? | [-> _]]]]; auto.
  assert (rhs ps_all !! RDTQuantity_t = None) as E by reflexivity. by rewrite E in Hk.
Qed.
Lemma ps_all_handles : all_handles ps_all.
Proof. intros k h [[-> ->] | [[-> ->] | [-> ->]]]%ps_all_cases; done. Qed.

Lemma New_meets_interfaces_witness :
  rhs ps_all ≠ ∅ ∧ dom (rhs ps_all) = list_to_set [BlockIO_t; NetworkIO_t; RDT_t] ∧
  names_distinct ps_all ∧ map_Forall (λ _ h, LockNeutral h) (rhs ps_all).
Proof.
  destruct (New_meets_interfaces (set_faults [Some (Conflict "the object has been modified")] server2)
              All_t "LeastAllocated" ps_all plugin_world.2
              [BlockIO_t; NetworkIO_t; RDT_t]) as (Hne & Hd & _ & Hn & Hl & _);
    [reflexivity | reflexivity |].
  split; [exact Hne | split; [exact Hd | split; [exact Hn | exact Hl]]].
Defined.

Lemma Filter_consults_every_handle_witness :
  Plugin.Filter ps_all w0 ∅ pod3 k8s_node = Ok (st0, Success) ∧
  ∃ sd, st0 !! state_key (BlockIOHandle (K := Server)) "n1" = Some sd ∧
        accepts w0 BlockIO_t BlockIOHandle pod3 k8s_node sd.
Proof.
  split; [vm_eq |].
  destruct (Filter_consults_every_handle ps_all w0 ∅ pod3 k8s_node st0 Success) as [H _];
    [exact (registered_distinct ps_all ps_all_registered) | vm_eq | vm_eq |].
  apply (H BlockIO_t BlockIOHandle). reflexivity.
Defined.

(** The scores of the three handles: the disk plugin's from its pools, 100 for
    the two that do not know the node. *)
Definition score_block : Z :=
  match handle_score ps_all st0 "n1" BlockIO_t BlockIOHandle with Ok (inl z) => z | _ => -1 end.
Definition scores (k : string) : Z := if String.eqb k BlockIO_t then score_block else 100.

Lemma Score_is_average_witness :
  ∃ score, Score ps_all w0 st0 pod3 "n1" = Ok (score, Success) ∧
    MinNodeScore ≤ score ≤ MaxNodeScore ∧
    3 * score ≤ score_sum scores (map_to_list (rhs ps_all)) < 3 * (score + 1).
Proof.
  apply (Score_is_average ps_all w0 st0 pod3 "n1" scores).
  - vm_eq.
  - done.
  - reflexivity.
  - intros k h [[-> ->] | [[-> ->] | [-> ->]]]%ps_all_cases;
      (split; [vm_eq | vm_compute; intuition congruence]).
Defined.

(** The config map of the node's volumes cannot be written: Reserve fails
    after the disks were charged, and Unreserve leaves them charged. *)
Definition disk_pool (w : World Server) (dev : string) : option (option IOPoolStatus) :=
  match w_caches w !! BlockIO_t with
  | Some m => match m !! "n1" with
              | Some (ER_Block b) => di_GA <$> (n ← br_info b; DisksStatus n !! dev)
              | _ => None
              end
  | None => None
  end.

Definition w1_cache (k : string) : gmap string ExtendedResource := default ∅ (w_caches w1 !! k).
Definition entry_name (k : string) : option string :=
  match w1_cache k !! "n1" with
  | Some (ER_Rdtq _) => None
  | Some r => Some (resource_name r)
  | None => Some "n1"
  end.
Lemma w1_entry k : entry_name k = Some "n1" → all_entry "n1" (w1_cache k).
Proof.
  unfold entry_name. intros E r Hr. rewrite Hr in E. split; [| intros b ->; discriminate E].
  destruct r; congruence.
Qed.
Lemma w1_caches_ok : caches_ok ps_all w1 "n1".
Proof.
  intros k h Hk. exists (w1_cache k).
  destruct (ps_all_cases k h Hk) as [[-> _] | [[-> _] | [-> _]]];
    (split; [vm_eq | apply w1_entry; vm_eq]).
Qed.
Lemma w1_unrecorded : unrecorded (w_ctx w1) pod3 "n1".
Proof. intros pl v Hpl ->. vm_compute in Hpl. by simplify_eq. Qed.

Lemma Unreserve_unrecorded_keeps_charges_witness :
  Reserve ps_all w0 st0 pod3 "n1" = Ok (w1, after_reserve.1.2,
    Unschedulable "the object has been modified") ∧
  disk_pool w0 "d1" = Some (Some (mkPool (of_Z 500) (of_Z 300) (of_Z 200) false 0)) ∧
  disk_pool w1 "d1" = Some (Some (mkPool (of_Z 300) (of_Z 200) (of_Z 100) false 0)) ∧
  Unreserve ps_all w1 pod3 "n1" = Ok w2 ∧ w_caches w2 = w_caches w1.
Proof.
  split; [vm_eq |]. split; [vm_eq |]. split; [vm_eq |]. split; [vm_eq |].
  apply (Unreserve_unrecorded_keeps_charges ps_all w1 pod3 "n1" w2);
    [exact ps_all_handles | exact w1_caches_ok | exact w1_unrecorded | vm_eq].
Defined.

(** ** Scores of the rdt-quantity plugin *)

(** A freshly registered node scores 10000 for a best-effort pod of the
    rdt-quantity plugin under MostAllocated and -9900 under LeastAllocated,
    whatever its capacities: both outside the range 0..100 of node scores. *)
Theorem rdtq_fresh_node_score_out_of_range (rc : ResourceConfigSpec) (d : DeviceRequirement) io wl :
  DevName d = RDTQuantity.BE →
  let sd := mkStateData (any_ioreq (Some (mkIOReq io wl (Some d))))
              (any_rdtq (RDTQuantity.new_node rc)) true in
  sc_Score (MostAllocatedScorer RDTQuantity_t) sd (RDTQuantityHandle (K := Server)) = Ok (inl 10000) ∧
  sc_Score (LeastAllocatedScorer RDTQuantity_t) sd (RDTQuantityHandle (K := Server)) = Ok (inl (-9900)).
Proof.
  intros Hd sd. unfold sc_Score. simpl. rewrite Hd. split; vm_eq.
Qed.

Lemma rdtq_fresh_node_score_out_of_range_witness :
  ∃ sd, sc_Score (MostAllocatedScorer RDTQuantity_t) sd (RDTQuantityHandle (K := Server))
        = Ok (inl 10000).
Proof.
  eexists. apply (rdtq_fresh_node_score_out_of_range (mkRC 0 0 0 ∅ [])
    (mkDevReq RDTQuantity.BE None None None None) IOType_RDTQuantity BeIndex eq_refl).
Defined.
End PluginExample.
