(* ===== verification/CsiFacts.v ===== *)
(** * The CSI driver: theorems on CsiDriver.v

    The life of a volume as an abstract machine, which every call of the
    driver follows; the state file and the list of devices in use, which
    follow the volumes through calls, changes of the world and restarts; what
    the scheduler wrote for a claim and what is created for it; paging. *)

From S2P Require Export CsiDriver.

(** ** Assumptions on the world *)

(** JSON reads back what it wrote. *)
Class CsiJsonLaws `{!CsiJson} : Prop := {
  resources_json : ∀ r, ∃ t, marshal_resources r = inl t ∧ unmarshal_resources t = inl r;
  strings_json : ∀ l, ∃ t, marshal_strings l = inl t ∧ unmarshal_strings t = inl l;
  no_strings_json : unmarshal_strings "[]" = inl []
}.
(** [may_change q p]: an operation on the path [q] may change what the file
    [p] holds.  Making the directory of a file does not.  A file that was
    written without an error is read back. *)
Class CsiHostLaws (F : Type) `{!CsiHost F} := {
  may_change : string → string → bool;
  write_read : ∀ f p t f', os_WriteFile f p t = (f', None) → os_ReadFile f' p = inl t;
  mkdir_dir : ∀ f d n, os_ReadFile (os_MkdirAll f d).1 (path_join [d; n]) = os_ReadFile f (path_join [d; n]);
  mkdirall_far : ∀ f q p, may_change q p = false → os_ReadFile (os_MkdirAll f q).1 p = os_ReadFile f p;
  mkdir_far : ∀ f q p, may_change q p = false → os_ReadFile (os_Mkdir f q).1 p = os_ReadFile f p;
  open_far : ∀ f q p, may_change q p = false → os_ReadFile (os_OpenCreate f q).1 p = os_ReadFile f p;
  remove_far : ∀ f q p, may_change q p = false → os_ReadFile (os_Remove f q).1 p = os_ReadFile f p;
  removeall_far : ∀ f q p, may_change q p = false → os_ReadFile (os_RemoveAll f q).1 p = os_ReadFile f p;
  fallocate_far : ∀ f n q p, may_change q p = false → os_ReadFile (fallocate f n q).1 p = os_ReadFile f p;
  attach_far : ∀ f q p, may_change q p = false → os_ReadFile (AttachFileDevice f q).1 p = os_ReadFile f p;
  detach_far : ∀ f q p, may_change q p = false → os_ReadFile (DetachFileDevice f q).1 p = os_ReadFile f p;
  mount_far : ∀ f s q o p, may_change q p = false → os_ReadFile (Mount f s q o).1 p = os_ReadFile f p;
  unmount_far : ∀ f q p, may_change q p = false → os_ReadFile (Unmount f q).1 p = os_ReadFile f p
}.
(** A config map that was written without an error is read back, and no other
    one changes. *)
Class ConfigMapLaws `{QuantityLib} (K : Type) `{!KubeClient K} : Prop := {
  get_named : ∀ k ns n cm, cm_get k ns n = inl cm → cm_Namespace cm = ns ∧ cm_Name cm = n;
  update_maps : ∀ k cm k', cm_update k cm = (k', None) → ∀ ns n, cm_get k' ns n =
    if decide ((ns, n) = (cm_Namespace cm, cm_Name cm)) then inl cm else cm_get k ns n;
  create_maps : ∀ k cm k', cm_create k cm = (k', None) → ∀ ns n, cm_get k' ns n =
    if decide ((ns, n) = (cm_Namespace cm, cm_Name cm)) then inl cm else cm_get k ns n
}.
(** Where a theorem needs it: files can be written; the API server answers,
    and accepts every update of a config map that is there and the creation of
    one that is not, so that there are no conflicts. *)
Definition files_writable (F : Type) `{!CsiHost F} : Prop := ∀ f p t, ∃ f', os_WriteFile f p t = (f', None).
Record api_answers `{QuantityLib} (K : Type) `{!KubeClient K} : Prop := {
  get_answers : ∀ (k : K) ns n e, cm_get k ns n = inr e → IsNotFound e = true;
  update_accepted : ∀ (k : K) cm cm0, cm_get k (cm_Namespace cm) (cm_Name cm) = inl cm0 →
    ∃ k', cm_update k cm = (k', None);
  create_accepted : ∀ (k : K) cm e, cm_get k (cm_Namespace cm) (cm_Name cm) = inr e →
    ∃ k', cm_create k cm = (k', None)
}.

(** ** The life of a volume *)

(** What a call may do to a volume: stage it when it is not staged, publish it
    when it is staged, and undo that in the reverse order. *)
Inductive edit (v : StateVolume) : StateVolume → Prop :=
| edit_stage p : Staged v = [] → edit v (set_Staged [p] v)
| edit_unstage p : Published v = [] → p ∈ Staged v → edit v (set_Staged (Remove p (Staged v)) v)
| edit_publish node t : Staged v ≠ [] → edit v (set_Published node (Published v ++ [t]) v)
| edit_unpublish t : t ∈ Published v → edit v (set_Published (sv_NodeID v) (Remove t (Published v)) v).

(** A new volume, under a new name and a new id, within the bound. *)
Definition new_volume (cfg : Config) (vs : list StateVolume) (v : StateVolume) : Prop :=
  VolName v ≠ EmptyString ∧ VolName v ∉ VolName <$> vs ∧ VolID v ∉ VolID <$> vs ∧ sv_DeviceID v ≠ EmptyString ∧
  VolSize v ≤ MaxVolumeSize cfg ∧ Attached v = false ∧ Staged v = [] ∧ Published v = [].
Definition unused (v : StateVolume) : Prop := Attached v = false ∧ Staged v = [] ∧ Published v = [].
(** The volumes before and after a call. *)
Inductive life (cfg : Config) : list StateVolume → list StateVolume → Prop :=
| life_same vs : life cfg vs vs
| life_create vs v : new_volume cfg vs v → life cfg vs (vs ++ [v])
| life_delete a v b : (CheckVolumeLifecycle cfg = true → unused v) → life cfg (a ++ v :: b) (a ++ b)
| life_edit a v v' b : edit v v' → life cfg (a ++ v :: b) (a ++ v' :: b).

Record volume_ok (cfg : Config) (v : StateVolume) : Prop := {
  ok_device : sv_DeviceID v ≠ EmptyString;
  ok_size : VolSize v ≤ MaxVolumeSize cfg;
  ok_attached : Attached v = false;
  ok_staged : (length (Staged v) ≤ 1)%nat;
  ok_published : Published v ≠ [] → Staged v ≠ []
}.
Record volumes_ok (cfg : Config) (vs : list StateVolume) : Prop := {
  ok_ids : NoDup (VolID <$> vs);
  ok_names : NoDup (VolName <$> vs);
  ok_each : Forall (volume_ok cfg) vs
}.

Lemma edit_identity v v' : edit v v' → VolID v' = VolID v ∧ VolName v' = VolName v ∧ sv_DeviceID v' = sv_DeviceID v.
Proof. by destruct 1. Qed.
Lemma length_Remove t l : (length (Remove t l) ≤ length l)%nat.
Proof. induction l as [| x l IH]; simpl; [done |]. destruct (String.eqb _ _); simpl; lia. Qed.
Lemma edit_ok cfg v v' : edit v v' → volume_ok cfg v → volume_ok cfg v'.
Proof.
  intros He [D S A G P]. destruct He as [p Hs | p Hp Hin | node t Hs | t Hin]; split; simpl; try done.
  all: try lia; try congruence.
  - pose proof (length_Remove p (Staged v)). lia.
  - intros _. apply P. intros E. rewrite E in Hin. by apply elem_of_nil in Hin.
Qed.
Lemma life_ok cfg vs vs' : life cfg vs vs' → volumes_ok cfg vs → volumes_ok cfg vs'.
Proof.
  intros Hl [I N E]. destruct Hl as [vs | vs v (Hne & Hn & Hi & Hd & Hs & Ha & Hst & Hp) | a v b _ | a v v' b He].
  - done.
  - split; rewrite ?fmap_app.
    + apply NoDup_app. split_and!; [done | | apply NoDup_singleton]. set_solver.
    + apply NoDup_app. split_and!; [done | | apply NoDup_singleton]. set_solver.
    + apply Forall_app. split; [done |]. apply Forall_singleton. split; simpl; rewrite ?Hst, ?Hp; simpl; auto with lia.
  - rewrite fmap_app, fmap_cons in I, N. split.
    + rewrite fmap_app. eapply sublist_NoDup; [exact I |]. by apply sublist_app, sublist_cons.
    + rewrite fmap_app. eapply sublist_NoDup; [exact N |]. by apply sublist_app, sublist_cons.
    + apply Forall_app in E as [E1 E2]. apply Forall_app. split; [done | by inversion E2].
  - destruct (edit_identity _ _ He) as (Ei & En & _).
    rewrite fmap_app, fmap_cons in I, N. split; rewrite ?fmap_app, ?fmap_cons, ?Ei, ?En; [done | done |].
    apply Forall_app in E as [E1 E2]. apply Forall_cons in E2 as [E2 E3].
    apply Forall_app. split; [done |]. constructor; [by eapply edit_ok | done].
Qed.

(** ** Lists of volumes *)

Lemma Has_elem t l : Has t l = true ↔ t ∈ l.
Proof.
  induction l as [| x l IH]; simpl; [split; [done | by intros ?%elem_of_nil] |].
  rewrite orb_true_iff, IH, elem_of_cons, String.eqb_eq. done.
Qed.
Lemma Empty_nil l : Empty l = true ↔ l = [].
Proof. by destruct l. Qed.
Lemma NoDup_Remove t l : NoDup l → NoDup (Remove t l) ∧ ∀ x, x ∈ Remove t l ↔ x ∈ l ∧ x ≠ t.
Proof.
  induction 1 as [| y l Hy Hl [IH1 IH2]]; simpl; [split; [constructor | set_solver] |].
  destruct (String.eqb_spec t y) as [<- | Hty].
  - split; [done | set_solver].
  - split; [| set_solver]. constructor; [| done]. rewrite IH2. tauto.
Qed.
Lemma find_split {A} (p : A → bool) l x :
  List.find p l = Some x →
  ∃ a b, l = a ++ x :: b ∧ p x = true ∧ remove_first p l = Some (a ++ b) ∧
         ∀ y, replace_first p y l = Some (a ++ y :: b).
Proof.
  induction l as [| y l IH]; [done |]. simpl. destruct (p y) eqn:Ep.
  - intros [= ->]. by exists [], l.
  - intros (a & b & -> & Hp & E1 & E2)%IH. exists (y :: a), b. rewrite E1. split_and!; [done.. |].
    intros z. by rewrite E2.
Qed.
Lemma find_none_id id vs :
  id ∉ VolID <$> vs → List.find (has_id id) vs = None ∧ ∀ v, replace_first (has_id id) v vs = None.
Proof.
  induction vs as [| v vs IH]; [done |]. rewrite fmap_cons, not_elem_of_cons. intros [Hv Hvs].
  destruct (IH Hvs) as [E1 E2]. simpl. unfold has_id at 1 3.
  destruct (String.eqb_spec (VolID v) id); [congruence |]. split; [done |]. intros w. by rewrite E2.
Qed.
Lemma GetVolumeByID_split r id v :
  GetVolumeByID r id = inl v →
  ∃ a b, Volumes r = a ++ v :: b ∧ VolID v = id ∧ remove_first (has_id id) (Volumes r) = Some (a ++ b) ∧
         ∀ y, replace_first (has_id id) y (Volumes r) = Some (a ++ y :: b).
Proof.
  unfold GetVolumeByID. destruct (List.find _ _) as [v' |] eqn:E; [| done]. intros [= ->].
  apply find_split in E as (a & b & E1 & E2 & E3 & E4). exists a, b. split_and!; try done.
  by apply String.eqb_eq in E2.
Qed.
Lemma GetVolumeByName_none r name e : GetVolumeByName r name = inr e → name ∉ VolName <$> Volumes r.
Proof.
  unfold GetVolumeByName. destruct (List.find _ _) eqn:E; [done |]. intros _ (v & -> & Hv)%list_elem_of_fmap.
  apply list_elem_of_In in Hv. pose proof (List.find_none _ _ E v Hv) as Hn. simpl in Hn.
  by rewrite String.eqb_refl in Hn.
Qed.

(** ** Calls *)

Section Facts.
Context `{!CsiJson} {F : Type} `{!CsiHost F} `{QuantityLib} {K : Type} `{!KubeClient K}.
Context `{!CsiJsonLaws} `{!CsiHostLaws F} `{!ConfigMapLaws K}.
Abbreviation HP := (hostPath F K).
Implicit Types hp : HP.

(** A call returns, and [Q] holds of its result and the driver after it. *)
Definition wp {A} (m : GoM HP A) (hp : HP) (Q : A → HP → Prop) : Prop := ∃ r hp', m hp = Ok (r, hp') ∧ Q r hp'.
Lemma wp_bind {A B} (m : GoM HP A) (f : A → GoM HP B) hp Q :
  wp m hp (λ r hp', wp (f r) hp' Q) → wp (mbindM m f) hp Q.
Proof. intros (r & hp' & E & b & hp'' & E' & HQ). exists b, hp''. unfold mbindM. by rewrite E. Qed.
Lemma wp_bindE {E A B} (m : GoM HP (A + E)) (f : A → GoM HP (B + E)) hp Q :
  wp m hp (λ r hp', match r with inl a => wp (f a) hp' Q | inr e => Q (inr e) hp' end) → wp (mbindE m f) hp Q.
Proof.
  intros (r & hp' & Em & HQ). apply wp_bind. exists r, hp'. split; [done |].
  destruct r as [a | e]; [done |]. by exists (inr e), hp'.
Qed.
Lemma wp_ret {A} (a : A) hp (Q : A → HP → Prop) : Q a hp → wp (retM a) hp Q.
Proof. intros. by exists a, hp. Qed.
Lemma wp_get {A} (f : HP → A) hp (Q : A → HP → Prop) : Q (f hp) hp → wp (getM f) hp Q.
Proof. intros. by exists (f hp), hp. Qed.
Lemma wp_ask {A E} (f : HP → A + E) hp (Q : A + E → HP → Prop) : Q (f hp) hp → wp (askE f) hp Q.
Proof. intros. by exists (f hp), hp. Qed.
Lemma wp_mono {A} (m : GoM HP A) hp (Q Q' : A → HP → Prop) :
  wp m hp Q → (∀ r hp', Q r hp' → Q' r hp') → wp m hp Q'.
Proof. intros (r & hp' & E & HQ) Hi. exists r, hp'. auto. Qed.

(** What does not change when only other files are touched. *)
Record same_core (hp hp' : HP) : Prop := {
  sc_config : config hp' = config hp;
  sc_state : state hp' = state hp;
  sc_kube : hp_kube hp' = hp_kube hp;
  sc_file : os_ReadFile (hp_fs hp') (statefilePath (config hp)) = os_ReadFile (hp_fs hp) (statefilePath (config hp))
}.
Lemma same_core_refl hp : same_core hp hp.
Proof. by split. Qed.
Lemma same_core_trans h1 h2 h3 : same_core h1 h2 → same_core h2 h3 → same_core h1 h3.
Proof. intros [A1 A2 A3 A4] [B1 B2 B3 B4]. rewrite A1 in B1, B4. split; congruence. Qed.

(** [quiet m hp]: the call returns and touches other files only. *)
Definition quiet {A} (m : GoM HP A) (hp : HP) : Prop := wp m hp (λ _, same_core hp).
Definition far (q : string) (hp : HP) : Prop := may_change q (statefilePath (config hp)) = false.
Lemma far_core q hp hp' : same_core hp hp' → far q hp → far q hp'.
Proof. intros [E _ _ _]. unfold far. by rewrite E. Qed.
Lemma quiet_wp {A} (m : GoM HP A) hp (Q : A → HP → Prop) :
  quiet m hp → (∀ r hp', same_core hp hp' → Q r hp') → wp m hp Q.
Proof. intros Hm HQ. eapply wp_mono; [exact Hm |]. intros. by apply HQ. Qed.
Lemma quiet_ret {A} (a : A) hp : quiet (retM a) hp.
Proof. apply wp_ret, same_core_refl. Qed.
Lemma quiet_ask {A E} (f : HP → A + E) hp : quiet (askE f) hp.
Proof. apply wp_ask, same_core_refl. Qed.
Lemma quiet_get {A} (f : HP → A) hp : quiet (getM f) hp.
Proof. apply wp_get, same_core_refl. Qed.
Lemma quiet_bind {A B} (m : GoM HP A) (f : A → GoM HP B) hp :
  quiet m hp → (∀ a hp', same_core hp hp' → quiet (f a) hp') → quiet (mbindM m f) hp.
Proof.
  intros Hm Hf. apply wp_bind. eapply quiet_wp; [exact Hm |]. intros r hp' Hs.
  eapply wp_mono; [by apply Hf |]. intros ???. by eapply same_core_trans.
Qed.
Lemma quiet_bindE {E A B} (m : GoM HP (A + E)) (f : A → GoM HP (B + E)) hp :
  quiet m hp → (∀ a hp', same_core hp hp' → quiet (f a) hp') → quiet (mbindE m f) hp.
Proof. intros Hm Hf. apply quiet_bind; [done |]. intros [a | e] ??; [by apply Hf | apply quiet_ret]. Qed.
Lemma quiet_onF {E} (op : F → F * option E) wrap hp :
  (∀ f, os_ReadFile (op f).1 (statefilePath (config hp)) = os_ReadFile f (statefilePath (config hp))) →
  quiet (onF op wrap) hp.
Proof.
  intros Hop. unfold quiet, wp, onF. specialize (Hop (hp_fs hp)). destruct (op (hp_fs hp)) as [f err].
  eexists _, _. split; [done |]. by split.
Qed.
#[local] Hint Resolve same_core_refl quiet_ret quiet_ask quiet_get far_core : ioi.

Lemma quiet_create_block_file cap path hp : far path hp → quiet (create_block_file cap path) hp.
Proof.
  intros Hf. unfold quiet, wp, create_block_file. destruct (os_Stat (hp_fs hp) path) as [e |].
  - destruct (IsNotExist e); [| eauto with ioi]. apply quiet_onF. intros. by apply fallocate_far.
  - eauto with ioi.
Qed.
Lemma quiet_attach_block_file path hp : far path hp → quiet (attach_block_file path) hp.
Proof.
  intros Hf. unfold quiet, wp, attach_block_file. pose proof (attach_far (hp_fs hp) _ _ Hf) as E1.
  destruct (AttachFileDevice (hp_fs hp) path) as [f [d | err]]; simpl in E1.
  - eexists _, _. split; [done |]. by split.
  - pose proof (remove_far f _ _ Hf) as E2. destruct (os_Remove f path) as [f' e]. simpl in E2.
    eexists _, _. split; [done |]. split; simpl; congruence.
Qed.
Lemma makeFile_far f path p : may_change path p = false → os_ReadFile (makeFile path f).1 p = os_ReadFile f p.
Proof.
  intros Hf. unfold makeFile. pose proof (open_far f _ _ Hf) as E. by destruct (os_OpenCreate f path).
Qed.
Lemma quiet_publish_block t v hp : far t hp → quiet (publish_block t v) hp.
Proof.
  intros Hf. unfold publish_block. case_decide; [eauto with ioi |].
  apply quiet_bindE; [eauto with ioi |]. intros loop h1 S1.
  apply quiet_bind; [eauto with ioi |]. intros err h2 S2.
  assert (far t h2) by eauto with ioi. apply quiet_bindE.
  { destruct err as [e |]; [| eauto with ioi]. destruct (IsNotExist e); [| eauto with ioi].
    apply quiet_onF. intros. by apply makeFile_far. }
  intros _ h3 S3. apply quiet_bindE; [eauto with ioi |]. intros notMount h4 S4.
  destruct notMount; simpl; [| eauto with ioi]. assert (far t h4) by eauto with ioi.
  apply quiet_bindE; [| eauto with ioi]. apply quiet_onF. intros. by apply mount_far.
Qed.
Lemma quiet_publish_mount t req v hp : far t hp → quiet (publish_mount t req v) hp.
Proof.
  intros Hf. unfold publish_mount. case_decide; [eauto with ioi |].
  apply quiet_bind; [eauto with ioi |]. intros r h1 S1. assert (far t h1) by eauto with ioi. apply quiet_bindE.
  { destruct r as [b | e]; [eauto with ioi |]. destruct (IsNotExist e); [| eauto with ioi].
    apply quiet_bindE; [| eauto with ioi]. apply quiet_onF. intros. by apply mkdir_far. }
  intros notMnt h2 S2. destruct notMnt; simpl; [| eauto with ioi]. assert (far t h2) by eauto with ioi.
  destruct (_ !! _) as [path |]; [| eauto with ioi].
  apply quiet_bindE; [| eauto with ioi]. apply quiet_onF. intros. by apply mount_far.
Qed.

(** ** Writing the state *)

Definition stored (hp : HP) : Prop := restore (hp_fs hp) (statefilePath (config hp)) = inl (state hp).
Lemma stored_core hp hp' : same_core hp hp' → stored hp → stored hp'.
Proof. intros [E1 E2 E3 E4]. unfold stored, restore. by rewrite E1, E2, E4. Qed.
(** What a failed write of the volumes to the state file has left. *)
Definition write_failed (hp : HP) : Prop :=
  ∃ f t e, marshal_resources (state hp) = inl t ∧
    os_WriteFile f (statefilePath (config hp)) t = (hp_fs hp, Some e).
Lemma dump_spec hp :
  ∃ res f, dump hp = Ok (res, set_fs f hp) ∧
    match res with inl _ => stored (set_fs f hp) | inr _ => write_failed (set_fs f hp) end.
Proof.
  destruct (resources_json (state hp)) as (t & Et & Eu). unfold dump, onF. rewrite Et.
  destruct (os_WriteFile (hp_fs hp) (statefilePath (config hp)) t) as [f [e |]] eqn:Ew.
  - eexists _, f. split; [done |]. by exists (hp_fs hp), t, e.
  - eexists _, f. split; [done |]. apply write_read in Ew. unfold stored, restore. simpl. by rewrite Ew, Eu.
Qed.
(** The driver with other volumes, in memory and, unless the write failed, in
    the file. *)
Record with_volumes (vs : list StateVolume) (hp : HP) {A} (res : A + csi_error) (hp' : HP) : Prop := {
  wv_config : config hp' = config hp;
  wv_kube : hp_kube hp' = hp_kube hp;
  wv_state : state hp' = mkResources vs (Snapshots (state hp));
  wv_file : match res with inl _ => stored hp' | inr _ => write_failed hp' end
}.
Lemma with_volumes_core vs hp h1 {A} (res : A + csi_error) hp' :
  same_core hp h1 → with_volumes vs h1 res hp' → with_volumes vs hp res hp'.
Proof.
  intros [E1 E2 E3 E4] [C Kb St Hf]. split; [congruence | congruence | by rewrite St, E2 | done].
Qed.
Lemma write_volumes vs hp (Q : () + csi_error → HP → Prop) :
  (∀ res hp', with_volumes vs hp res hp' → Q res hp') →
  wp (let* _ := modM (set_state (mkResources vs (Snapshots (state hp)))) in dump) hp Q.
Proof.
  intros HQ. set (h1 := set_state (mkResources vs (Snapshots (state hp))) hp).
  destruct (dump_spec h1) as (res & f & E & Hs). exists res, (set_fs f h1).
  unfold mbindM, modM. simpl. fold h1. rewrite E. split; [done |]. apply HQ. by split.
Qed.
Lemma UpdateVolume_edit a v v' b hp (Q : () + csi_error → HP → Prop) :
  Volumes (state hp) = a ++ v :: b → (∀ y, replace_first (has_id (VolID v')) y (Volumes (state hp)) = Some (a ++ y :: b)) →
  (∀ res hp', with_volumes (a ++ v' :: b) hp res hp' → Q res hp') → wp (UpdateVolume v') hp Q.
Proof.
  intros Hv Hr HQ. apply wp_bind, wp_get. rewrite Hr. by apply write_volumes.
Qed.
Lemma UpdateVolume_new v hp (Q : () + csi_error → HP → Prop) :
  VolID v ∉ VolID <$> Volumes (state hp) →
  (∀ res hp', with_volumes (Volumes (state hp) ++ [v]) hp res hp' → Q res hp') → wp (UpdateVolume v) hp Q.
Proof.
  intros Hv HQ. apply wp_bind, wp_get. rewrite (proj2 (find_none_id _ _ Hv)). by apply write_volumes.
Qed.

(** ** Devices in use *)

(** The devices that the node's config map lists. *)
Definition in_use (hp : HP) : list string :=
  match cm_get (hp_kube hp) IoiNamespace (device_map_name hp) with
  | inl cm => match JsonToStrings (default "[]" (cm_Data cm !! DeviceInUse)) with inl l => l | inr _ => [] end
  | inr _ => []
  end.
Definition devices (hp : HP) : list string := sv_DeviceID <$> Volumes (state hp).
Definition new_in_use (d : string) (b : bool) (hp : HP) : list string :=
  if b then if Has d (in_use hp) then in_use hp else in_use hp ++ [d]
  else if existsb (λ v, String.eqb (sv_DeviceID v) d) (Volumes (state hp)) then in_use hp
  else Remove d (in_use hp).

Lemma strings_text l : ∃ t, StringsToJson l = inl t ∧ JsonToStrings t = inl l.
Proof. destruct (strings_json l) as (t & E1 & E2). exists t. unfold StringsToJson, JsonToStrings. by rewrite E1, E2. Qed.
(** The list that CalDeviceInUse decides on is written. *)
Lemma write_in_use cm (needCreate : bool) l t hp :
  ∃ err k, UpdateVolumeDeviceMap cm needCreate t hp = Ok (err, set_hp_kube k hp) ∧
    (api_answers K →
     match cm_get (hp_kube hp) IoiNamespace (device_map_name hp) with
     | inl cm' => cm' = cm ∧ needCreate = false
     | inr _ => needCreate = true
     end → JsonToStrings t = inl l → in_use (set_hp_kube k hp) = l).
Proof.
  unfold UpdateVolumeDeviceMap. destruct needCreate; unfold write_map, mbindM, getM; simpl.
  - set (new := mkConfigMap IoiNamespace (device_map_name hp) {["app" := DeviceIDConfigMap]} {[DeviceInUse := t]}).
    destruct (cm_create (hp_kube hp) new) as [k err] eqn:Ek. eexists _, k. split; [done |]. intros Hapi Hcm Hl.
    destruct (cm_get (hp_kube hp) IoiNamespace (device_map_name hp)) as [cm' | e] eqn:E; [by destruct Hcm |].
    destruct (create_accepted _ Hapi (hp_kube hp) new e E) as [k' Ek']. rewrite Ek in Ek'. injection Ek' as <- ->.
    unfold in_use. change (device_map_name (set_hp_kube k hp)) with (device_map_name hp). simpl.
    rewrite (create_maps _ _ _ Ek), decide_True by done. simpl. rewrite lookup_singleton_eq. simpl. by rewrite Hl.
  - set (new := mkConfigMap (cm_Namespace cm) (cm_Name cm) (cm_Labels cm) (<[DeviceInUse := t]> (cm_Data cm))).
    destruct (cm_update (hp_kube hp) new) as [k err] eqn:Ek. eexists _, k. split; [done |]. intros Hapi Hcm Hl.
    destruct (cm_get (hp_kube hp) IoiNamespace (device_map_name hp)) as [cm' | e] eqn:E; [| done].
    destruct Hcm as [-> _]. destruct (get_named _ _ _ _ E) as [E1 E2].
    destruct (update_accepted _ Hapi (hp_kube hp) new cm) as [k' Ek']; [simpl; by rewrite E1, E2 |].
    rewrite Ek in Ek'. injection Ek' as <- ->.
    unfold in_use. change (device_map_name (set_hp_kube k hp)) with (device_map_name hp). simpl.
    rewrite (update_maps _ _ _ Ek). simpl. rewrite E1, E2, decide_True by done. simpl. rewrite lookup_insert_eq. simpl. by rewrite Hl.
Qed.
(** UpdateDeviceInUse writes at most the config map. *)
Lemma UpdateDeviceInUse_spec d b hp :
  ∃ err k, UpdateDeviceInUse d b hp = Ok (err, set_hp_kube k hp) ∧
    (api_answers K → in_use (set_hp_kube k hp) = new_in_use d b hp).
Proof.
  assert (Hskip : ∀ err : option error, ∃ err' k, Ok (err, hp) = Ok (err', set_hp_kube k hp) ∧ in_use (set_hp_kube k hp) = in_use hp).
  { intros err. exists err, (hp_kube hp). by destruct hp. }
  assert (Hrun : ∀ cm nc,
    (api_answers K → match cm_get (hp_kube hp) IoiNamespace (device_map_name hp) with
      | inl cm' => cm' = cm ∧ nc = false
      | inr _ => nc = true
      end ∧ match JsonToStrings (default "[]" (cm_Data cm !! DeviceInUse)) with inl l => l | inr _ => [] end = in_use hp) →
    ∃ err k, match CalDeviceInUse (default "[]" (cm_Data cm !! DeviceInUse)) d b (Volumes (state hp)) with
      | (_, _, Some err) => Ok (Some err, hp)
      | (true, new, None) => UpdateVolumeDeviceMap cm nc new hp
      | (false, _, None) => Ok (None, hp)
      end = Ok (err, set_hp_kube k hp) ∧ (api_answers K → in_use (set_hp_kube k hp) = new_in_use d b hp)).
  { intros cm nc Hcm. unfold CalDeviceInUse, new_in_use.
    set (cur := match JsonToStrings _ with inl l => l | inr _ => [] end).
    assert (Hcur : api_answers K → cur = in_use hp) by (intros Hapi; by apply Hcm).
    assert (Hnew : ∀ l, ∃ err k,
      match match StringsToJson l with
            | inl s => (true, s, None)
            | inr err => (false, EmptyString, Some ("failed to convert device in use to json: " +:+ err))
            end with
      | (_, _, Some err) => Ok (Some err, hp)
      | (true, new, None) => UpdateVolumeDeviceMap cm nc new hp
      | (false, _, None) => Ok (None, hp)
      end = Ok (err, set_hp_kube k hp) ∧ (api_answers K → in_use (set_hp_kube k hp) = l)).
    { intros l. destruct (strings_text l) as (t & -> & Ht). destruct (write_in_use cm nc l t hp) as (err & k & -> & Hw).
      exists err, k. split; [done |]. intros Hapi. by apply Hw; [| apply Hcm |]. }
    destruct b; [destruct (Has d cur) eqn:Eh | destruct (existsb _ _)].
    - destruct (Hskip None) as (err & k & E & Hu). exists err, k. split; [done |]. intros Hapi.
      rewrite <- (Hcur Hapi), Eh in *. by rewrite Hu, Hcur.
    - destruct (Hnew (cur ++ [d])) as (err & k & E & Hu). exists err, k. split; [done |]. intros Hapi.
      rewrite (Hu Hapi), <- (Hcur Hapi), Eh. done.
    - destruct (Hskip None) as (err & k & E & Hu). exists err, k. split; [done |]. intros Hapi. done.
    - destruct (Hnew (Remove d cur)) as (err & k & E & Hu). exists err, k. split; [done |]. intros Hapi.
      by rewrite (Hu Hapi), (Hcur Hapi). }
  unfold UpdateDeviceInUse. destruct (cm_get (hp_kube hp) IoiNamespace (device_map_name hp)) as [cm | e] eqn:E.
  - apply Hrun. intros _. unfold in_use. by rewrite E.
  - destruct (IsNotFound e) eqn:En.
    + apply Hrun. intros _. unfold in_use. rewrite E. simpl. rewrite lookup_empty. simpl. unfold JsonToStrings. by rewrite no_strings_json.
    + destruct (Hskip (Some (kerr_msg e))) as (err & k & Ek & Hu).
      eexists _, (hp_kube hp). split; [by destruct hp |]. intros Hapi. rewrite (get_answers _ Hapi _ _ _ _ E) in En. done.
Qed.

(** The config map lists the devices of the volumes, each of them once. *)
Definition devices_ok (hp : HP) : Prop := NoDup (in_use hp) ∧ ∀ d, d ∈ in_use hp ↔ d ∈ devices hp.

(** A call of the driver: what it may do.  An error changes nothing, unless the
    state file could not be written. *)
Record follows (hp : HP) {A} (res : A + csi_error) (hp' : HP) : Prop := {
  fo_config : config hp' = config hp;
  fo_life : life (config hp) (Volumes (state hp)) (Volumes (state hp'));
  fo_done : ∀ a, res = inl a → (stored hp → stored hp') ∧ (api_answers K → devices_ok hp → devices_ok hp');
  fo_failed : ∀ e, res = inr e →
    hp_kube hp' = hp_kube hp ∧ (write_failed hp' ∨ state hp' = state hp ∧ (stored hp → stored hp'))
}.
Lemma in_use_same hp hp' : config hp' = config hp → hp_kube hp' = hp_kube hp → in_use hp' = in_use hp.
Proof. intros E1 E2. unfold in_use, device_map_name. by rewrite E1, E2. Qed.
Lemma follows_core {A} hp (res : A + csi_error) hp' : same_core hp hp' → follows hp res hp'.
Proof.
  intros Hs. pose proof Hs as [E1 E2 E3 E4]. split; [done | rewrite E2; constructor | |].
  - intros _ _. split; [by apply stored_core |]. unfold devices_ok, devices. by rewrite (in_use_same _ _ E1 E3), E2.
  - intros _ _. split; [done |]. right. split; [done |]. by apply stored_core.
Qed.
Lemma follows_edit hp h1 (res : () + csi_error) hp' a v v' b :
  same_core hp h1 → Volumes (state hp) = a ++ v :: b → edit v v' → with_volumes (a ++ v' :: b) h1 res hp' →
  follows hp res hp'.
Proof.
  intros Hs Hv He Hw. apply (with_volumes_core _ _ _ _ _ Hs) in Hw as [C Kb St Hf]. split; [done | | |].
  - rewrite St, Hv. by constructor.
  - intros u ->. split; [done |]. intros _. unfold devices_ok, devices. rewrite (in_use_same hp hp') by congruence.
    rewrite St, Hv. simpl. destruct (edit_identity _ _ He) as (_ & _ & Ed). by rewrite !fmap_app, !fmap_cons, Ed.
  - intros e ->. split; [done | by left].
Qed.

(** ** The calls of the node service *)

Lemma follows_quiet {A} (m : GoM HP (A + csi_error)) hp : quiet m hp → wp m hp (follows hp).
Proof. intros Hm. eapply quiet_wp; [exact Hm |]. intros. by apply follows_core. Qed.
Ltac call_step :=
  match goal with
  | |- wp (failE _) _ _ => apply wp_ret, follows_core, same_core_refl
  | |- wp (retE _) _ _ => apply wp_ret, follows_core, same_core_refl
  | |- wp (mbindM (getM _) _) _ _ => apply wp_bind, wp_get; simpl
  | |- wp (mbindE (volume_by_id _) _) _ _ => apply wp_bindE, wp_ask; simpl
  | |- wp (if ?b then _ else _) _ _ => destruct b eqn:?
  end.
Lemma NodeStage_follows req hp : wp (NodeStageVolume req) hp (follows hp).
Proof.
  unfold NodeStageVolume. do 2 (call_step; [call_step |]). destruct (sg_Capability req) as [cap |]; [| call_step].
  call_step. destruct (GetVolumeByID (state hp) _) as [v | e] eqn:Ev; [| apply follows_core, same_core_refl].
  call_step. do 3 (call_step; [call_step |]).
  destruct (GetVolumeByID_split _ _ _ Ev) as (a & b & Hv & Hi & _ & Hr).
  assert (Hs : Staged v = []) by (apply Empty_nil; by apply negb_false_iff). rewrite Hs. simpl.
  eapply UpdateVolume_edit; [exact Hv | simpl; by rewrite Hi |]. intros res hp' Hw.
  eapply follows_edit; [apply same_core_refl | exact Hv | | exact Hw]. by constructor.
Qed.
Lemma NodeUnstage_follows id p hp : wp (NodeUnstageVolume id p) hp (follows hp).
Proof.
  unfold NodeUnstageVolume. do 2 (call_step; [call_step |]).
  call_step. destruct (GetVolumeByID (state hp) _) as [v | e] eqn:Ev; [| apply follows_core, same_core_refl].
  do 2 (call_step; [call_step |]).
  destruct (GetVolumeByID_split _ _ _ Ev) as (a & b & Hv & Hi & _ & Hr).
  eapply UpdateVolume_edit; [exact Hv | simpl; by rewrite Hi |]. intros res hp' Hw.
  eapply follows_edit; [apply same_core_refl | exact Hv | | exact Hw]. constructor.
  - apply Empty_nil. by apply negb_false_iff.
  - apply Has_elem. by apply negb_false_iff.
Qed.
Lemma NodePublish_follows req hp : far (pu_TargetPath req) hp → wp (NodePublishVolume req) hp (follows hp).
Proof.
  intros Hf. unfold NodePublishVolume. destruct (pu_Capability req) as [cap |]; [| call_step].
  do 3 (call_step; [call_step |]). call_step.
  destruct (GetVolumeByID (state hp) _) as [v | e] eqn:Ev; [| call_step].
  do 3 (call_step; [call_step |]).
  apply wp_bindE. eapply (quiet_wp _ _ _).
  { destruct (GetAccess cap);
      [by apply quiet_publish_block | by apply quiet_publish_mount | eauto with ioi]. }
  intros [[] | err] h1 S1; [by apply wp_ret, follows_core | | by apply follows_core].
  apply wp_bind, wp_get. destruct (GetVolumeByID_split _ _ _ Ev) as (a & b & Hv & Hi & _ & Hr).
  eapply (UpdateVolume_edit a v); [by rewrite (sc_state _ _ S1) | simpl; by rewrite (sc_state _ _ S1), Hi |].
  intros res hp' Hw. eapply follows_edit; [exact S1 | exact Hv | | exact Hw]. constructor.
  intros Hn%Empty_nil. congruence.
Qed.
Lemma NodeUnpublish_follows id t hp : far t hp → wp (NodeUnpublishVolume id t) hp (follows hp).
Proof.
  intros Hf. unfold NodeUnpublishVolume. do 2 (call_step; [call_step |]).
  call_step. destruct (GetVolumeByID (state hp) _) as [v | e] eqn:Ev; [| apply follows_core, same_core_refl].
  call_step; [call_step |]. call_step. apply wp_bindE. eapply (quiet_wp _ _ _).
  { destruct (IsNotMountPoint _ _) as [[] | e]; [eauto with ioi | | destruct (IsNotExist e); eauto with ioi].
    apply quiet_onF. intros. by apply unmount_far. }
  intros [[] | err] h1 S1; [| by apply follows_core]. apply wp_bindE. eapply (quiet_wp _ _ _).
  { apply quiet_onF. intros. apply removeall_far. by rewrite (sc_config _ _ S1). }
  intros [[] | err] h2 S2; [| apply follows_core; by eapply same_core_trans].
  pose proof (same_core_trans _ _ _ S1 S2) as S3.
  destruct (GetVolumeByID_split _ _ _ Ev) as (a & b & Hv & Hi & _ & Hr).
  eapply (UpdateVolume_edit a v); [by rewrite (sc_state _ _ S3) | simpl; by rewrite (sc_state _ _ S3), Hi |].
  intros res hp' Hw. eapply follows_edit; [exact S3 | exact Hv | | exact Hw]. constructor.
  apply Has_elem. by apply negb_false_iff.
Qed.

(** ** The calls of the controller service *)

Lemma devices_ok_add hp (res : () + csi_error) h1 k d v :
  with_volumes (Volumes (state hp) ++ [v]) hp res h1 → sv_DeviceID v = d →
  in_use (set_hp_kube k h1) = new_in_use d true h1 → devices_ok hp → devices_ok (set_hp_kube k h1).
Proof.
  intros [C Kb St _] Hd Hu [N D]. unfold devices_ok, devices. rewrite Hu. unfold new_in_use.
  rewrite (in_use_same hp h1 C Kb). simpl. rewrite St. simpl. rewrite fmap_app. simpl. rewrite Hd.
  unfold devices in D. destruct (Has d (in_use hp)) eqn:E.
  - apply Has_elem in E. split; [done |]. set_solver.
  - assert (d ∉ in_use hp) by (intros ?%Has_elem; congruence). split; [| set_solver].
    apply NoDup_app. split_and!; [done | set_solver | apply NoDup_singleton].
Qed.
Lemma existsb_device d vs : existsb (λ v, String.eqb (sv_DeviceID v) d) vs = true ↔ d ∈ sv_DeviceID <$> vs.
Proof.
  rewrite existsb_exists, list_elem_of_fmap. split.
  - intros (v & Hv & <-%String.eqb_eq). exists v. by rewrite list_elem_of_In.
  - intros (v & -> & Hv). exists v. by rewrite <- list_elem_of_In, String.eqb_eq.
Qed.
Lemma devices_ok_drop hp (res : () + csi_error) h1 k a v b :
  Volumes (state hp) = a ++ v :: b → with_volumes (a ++ b) hp res h1 →
  in_use (set_hp_kube k h1) = new_in_use (sv_DeviceID v) false h1 → devices_ok hp → devices_ok (set_hp_kube k h1).
Proof.
  intros Hv [C Kb St _] Hu [N D]. unfold devices_ok, devices. rewrite Hu. unfold new_in_use.
  rewrite (in_use_same hp h1 C Kb). simpl. rewrite St. simpl. unfold devices in D. rewrite Hv, fmap_app, fmap_cons in D.
  destruct (existsb _ _) eqn:E.
  - apply existsb_device in E. rewrite fmap_app in E |- *. split; [done |]. clear -D E. set_solver.
  - assert (Hn : sv_DeviceID v ∉ sv_DeviceID <$> (a ++ b)) by (intros ?%existsb_device; congruence).
    rewrite fmap_app in Hn |- *. destruct (NoDup_Remove (sv_DeviceID v) _ N) as [N' E']. split; [done |].
    intros d. rewrite E', D, !elem_of_app, elem_of_cons. rewrite elem_of_app in Hn. split; [tauto |].
    intros Hd. split; [tauto |]. intros ->. by apply Hn.
Qed.

(** The outcome of a step that may be followed by a write of the state. *)
Definition wrote (vs : list StateVolume) (hp : HP) {A} (res : A + csi_error) (hp' : HP) : Prop :=
  match res with
  | inl _ => with_volumes vs hp (inl () : () + csi_error) hp'
  | inr e => same_core hp hp' ∨ with_volumes vs hp (inr e : () + csi_error) hp'
  end.
Lemma createVolume_spec id d path name cap t kind hp :
  far path hp → id ∉ VolID <$> Volumes (state hp) →
  wp (createVolume id d path name cap t kind) hp (λ res hp',
    same_core hp hp' ∧ (∃ e, res = inr e) ∨
    cap ≤ MaxVolumeSize (config hp) ∧
    wrote (Volumes (state hp) ++ [mkStateVolume name id cap path t "" "" "" kind false false [] [] d]) hp res hp').
Proof.
  intros Hf Hi. unfold createVolume. apply wp_bind, wp_get.
  destruct (Z.ltb_spec (MaxVolumeSize (config hp)) cap) as [| Hc]; [apply wp_ret; left; split; [apply same_core_refl | by eexists] |].
  apply wp_bindE. eapply (quiet_wp _ _ _).
  { destruct t.
    - apply quiet_onF. intros. by apply mkdirall_far.
    - apply quiet_bindE; [by apply quiet_create_block_file |]. intros.
      apply quiet_attach_block_file. by eapply far_core. }
  intros [[] | err] h1 S1; [| by left; eauto]. apply wp_bindE. apply UpdateVolume_new; [by rewrite (sc_state _ _ S1) |].
  intros res hp' Hw%(with_volumes_core _ _ _ _ _ S1). rewrite (sc_state _ _ S1) in Hw.
  destruct res as [[] | e]; [apply wp_ret |]; right; (split; [done |]); [done | by right].
Qed.
Lemma follows_create hp h1 v :
  with_volumes (Volumes (state hp) ++ [v]) hp (inl () : () + csi_error) h1 →
  new_volume (config hp) (Volumes (state hp)) v → ∀ r : CreateVolumeResponse,
  wp (let* _ := UpdateDeviceInUse (sv_DeviceID v) true in retE r) h1 (follows hp).
Proof.
  intros Hw Hn r. destruct (UpdateDeviceInUse_spec (sv_DeviceID v) true h1) as (err & k & Ek & Hu).
  apply wp_bind. exists err, (set_hp_kube k h1). split; [done |]. apply wp_ret.
  pose proof Hw as [C Kb St Hst]. split; simpl; try done.
  - rewrite St. simpl. by constructor.
  - intros a _. split; [done |]. intros Hapi. eapply devices_ok_add; [exact Hw | done | by apply Hu].
Qed.
Lemma follows_write_failed {A} hp vs e (res : A + csi_error) hp' :
  with_volumes vs hp (inr e : () + csi_error) hp' → (∃ e, res = inr e) →
  life (config hp) (Volumes (state hp)) vs → follows hp res hp'.
Proof.
  intros [C Kb St Hf] [e' ->] Hl. split; [done | by rewrite St | by intros | split; [done | by left]].
Qed.
(** The paths that a call touches. *)
Definition claim_path (hp : HP) (req : CreateVolumeRequest) (id : string) : list string :=
  match cm_get (hp_kube hp) IoiNamespace (device_map_name hp) with
  | inl cm => [path_join [(claim_device cm (default EmptyString (Parameters req !! PVCName))
                             (default EmptyString (Parameters req !! PVCNameSpace))).2; id]]
  | inr _ => []
  end.
Lemma validate_wp c hp (Q : () + csi_error → HP → Prop) :
  Q (inl ()) hp → (∀ e, Q (inr e) hp) → wp (validateControllerServiceRequest c) hp Q.
Proof.
  intros HQ HE. apply wp_bind, wp_get. case_decide; [by apply wp_ret |]. case_decide; [by apply wp_ret |].
  by apply wp_ret.
Qed.
Lemma CreateVolume_follows id req hp :
  match id with inl i => Forall (λ q, far q hp) (claim_path hp req i) ∧ i ∉ VolID <$> Volumes (state hp) | inr _ => True end →
  wp (CreateVolume id req) hp (follows hp).
Proof.
  intros Hid. unfold CreateVolume. apply wp_bindE, validate_wp; [| intros; apply follows_core, same_core_refl].
  destruct (cr_Capabilities req) as [caps |]; [| call_step].
  call_step; [call_step |]. assert (Hname : cr_Name req ≠ EmptyString) by (by apply String.eqb_neq).
  do 2 (call_step; [call_step |]).
  apply wp_bindE, wp_ask. destruct (cm_get _ _ _) as [cm | e] eqn:Ecm; [| apply follows_core, same_core_refl].
  destruct (claim_device _ _ _) as [d path] eqn:Ed.
  call_step; [call_step |]. assert (Hd : d ≠ EmptyString) by (by apply String.eqb_neq).
  call_step; [call_step |]. do 2 call_step.
  destruct (GetVolumeByName _ _) as [v | e] eqn:En; [call_step |].
  destruct id as [id | ?]; [| call_step]. destruct Hid as [Hfar Hid]. unfold claim_path in Hfar.
  rewrite Ecm, Ed in Hfar. rewrite Forall_singleton in Hfar. change (far (path_join [path; id]) hp) in Hfar.
  apply wp_bindE. eapply wp_mono; [by apply createVolume_spec |].
  assert (Hnew : ∀ v, VolID v = id → VolName v = cr_Name req → sv_DeviceID v = d → VolSize v ≤ MaxVolumeSize (config hp) →
    Attached v = false → Staged v = [] → Published v = [] → new_volume (config hp) (Volumes (state hp)) v).
  { intros v <- Ev <- Hs Ha Hst Hp. unfold new_volume. rewrite Ev. split_and!; try done. by eapply GetVolumeByName_none. }
  intros [v | err] h1 [[Hs He] | [Hc Hw]].
  - by destruct He.
  - eapply (follows_create hp h1 _ Hw). by apply Hnew.
  - by apply follows_core.
  - destruct Hw as [Hs | Hw]; [by apply follows_core |].
    eapply follows_write_failed; [exact Hw | by eexists |]. constructor. by apply Hnew.
Qed.

(** The volume that was found is the one whose device is released. *)
Lemma deleteVolume_spec id a v b hp :
  GetVolumeByID (state hp) id = inl v → Volumes (state hp) = a ++ v :: b →
  remove_first (has_id id) (Volumes (state hp)) = Some (a ++ b) → far (VolPath v) hp →
  wp (deleteVolume id) hp (wrote (a ++ b) hp).
Proof.
  intros Ev Hv Hr Hf. unfold deleteVolume. apply wp_bind, wp_get. rewrite Ev.
  destruct (String.eqb _ _); [apply wp_ret; left; apply same_core_refl |].
  apply wp_bindE. eapply (quiet_wp _ _ _).
  { destruct (VolAccessType v); [eauto with ioi |]. apply quiet_onF. intros. by apply detach_far. }
  intros [[] | err] h1 S1; [| by left]. apply wp_bindE. pose proof (removeall_far (hp_fs h1) _ _ Hf) as Er.
  unfold wp at 1. destruct (os_RemoveAll (hp_fs h1) (VolPath v)) as [f err]. simpl in Er. eexists _, _. split; [done |].
  assert (S2 : same_core hp (set_fs f h1)).
  { eapply same_core_trans; [exact S1 |]. split; try done. by rewrite (sc_config _ _ S1). }
  assert (Hdel : wp (state_DeleteVolume id) (set_fs f h1) (wrote (a ++ b) hp)).
  { apply wp_bind, wp_get. rewrite (sc_state _ _ S2), Hr. pattern (state hp) at 1. rewrite <- (sc_state _ _ S2).
    apply write_volumes. intros res hp' Hw%(with_volumes_core _ _ _ _ _ S2). destruct res as [[] |]; [done | by right]. }
  destruct err as [e |]; [| done]. destruct (IsNotExist e); [done | by left].
Qed.
Lemma DeleteVolume_follows id hp :
  (∀ v, GetVolumeByID (state hp) id = inl v → far (VolPath v) hp) →
  (∀ v, GetVolumeByID (state hp) id = inl v → Attached v = false) →
  wp (DeleteVolume id) hp (follows hp).
Proof.
  intros Hf Ha. unfold DeleteVolume. call_step; [call_step |].
  apply wp_bindE, validate_wp; [| intros; apply follows_core, same_core_refl]. call_step.
  destruct (GetVolumeByID (state hp) id) as [v | e] eqn:Ev; [| call_step].
  call_step. call_step; [call_step |]. destruct (GetVolumeByID_split _ _ _ Ev) as (a & b & Hv & Hi & Hr & _).
  assert (Hlife : life (config hp) (Volumes (state hp)) (a ++ b)).
  { rewrite Hv. constructor. intros Hcheck. rewrite Hcheck, andb_true_r in Heqb0.
    apply orb_false_iff in Heqb0 as [[_ H1']%orb_false_iff H2']. apply negb_false_iff, Empty_nil in H1', H2'.
    split_and!; auto. }
  apply wp_bind. eapply wp_mono; [apply (deleteVolume_spec id a v b); auto |].
  intros [u | err] h1 Hw; simpl in Hw.
  - destruct (UpdateDeviceInUse_spec (sv_DeviceID v) false h1) as (err & k & Ek & Hu).
    apply wp_bind. exists err, (set_hp_kube k h1). split; [done |]. apply wp_ret.
    pose proof Hw as [C Kb St Hst]. split; simpl; try done.
    + by rewrite St.
    + intros _ _. split; [done |]. intros Hapi. eapply devices_ok_drop; [exact Hv | exact Hw | by apply Hu].
  - apply wp_ret. destruct Hw as [Hs | Hw]; [by apply follows_core |].
    eapply follows_write_failed; [exact Hw | by eexists | done].
Qed.

(** ** Listing *)

Context `{!GoSort}.
Definition sorted_volumes (hp : HP) : list StateVolume :=
  go_sort (λ a b, String.ltb (VolID a) (VolID b)) (Volumes (state hp)).
Definition page_end (hp : HP) (n : Z) : Z :=
  let len := Z.of_nat (length (sorted_volumes hp)) in
  Z.min len (if (len <? n) || (n <=? 0) then len else n).
Definition starting_token (req : ListVolumesRequest) : string :=
  if String.eqb (StartingToken req) "" then "1" else StartingToken req.
Lemma list_loop hp vs (n m : nat) es :
  (m + n ≤ length vs)%nat →
  foldM (λ es index, if index <? 0 then Crash OutOfRange
                     else match vs !! Z.to_nat index with
                          | Some v => Ok (es ++ [volume_entry hp v])
                          | None => Crash OutOfRange
                          end) es (seqZ (Z.of_nat m) (Z.of_nat n)) =
  Ok (es ++ (volume_entry hp <$> take n (drop m vs))).
Proof.
  revert m es. induction n as [| n IH]; intros m es Hmn; [by rewrite seqZ_nil, app_nil_r by lia |].
  rewrite seqZ_cons by lia. cbn [foldM]. destruct (Z.ltb_spec (Z.of_nat m) 0); [lia |].
  rewrite Nat2Z.id. destruct (lookup_lt_is_Some_2 vs m ltac:(lia)) as [v Hv]. rewrite Hv. cbn [obind].
  replace (Z.succ (Z.of_nat m)) with (Z.of_nat (S m)) by lia.
  replace (Z.pred (Z.of_nat (S n))) with (Z.of_nat n) by lia.
  rewrite IH by lia. rewrite (drop_S vs v m Hv). cbn [take]. by rewrite fmap_cons, <- app_assoc.
Qed.
Lemma ListVolumes_page req hp start :
  ParseInt (starting_token req) 32 = inl start → 1 ≤ start →
  ListVolumes req hp =
  Ok (inl (volume_entry hp <$> take (Z.to_nat (page_end hp (MaxEntries req) - (start - 1)))
                                 (drop (Z.to_nat (start - 1)) (sorted_volumes hp))), hp).
Proof.
  intros Hp Hs. unfold ListVolumes. fold (sorted_volumes hp) (starting_token req). rewrite Hp.
  change (Z.min _ _) with (page_end hp (MaxEntries req)).
  assert (He : page_end hp (MaxEntries req) ≤ Z.of_nat (length (sorted_volumes hp))) by (unfold page_end; lia).
  destruct (Z.le_gt_cases (page_end hp (MaxEntries req) - (start - 1)) 0) as [H0' | H0'].
  - rewrite seqZ_nil by lia. cbn [foldM obind]. by replace (Z.to_nat _) with 0%nat by lia.
  - rewrite <- (Z2Nat.id (start - 1)), <- (Z2Nat.id (page_end _ _ - _)) by lia.
    rewrite list_loop by lia. cbn [obind]. by rewrite !Z2Nat.id by lia.
Qed.
Lemma ListVolumes_below req hp start :
  ParseInt (starting_token req) 32 = inl start → start < 1 → ListVolumes req hp = Crash OutOfRange.
Proof.
  intros Hp Hs. unfold ListVolumes. fold (sorted_volumes hp) (starting_token req). rewrite Hp.
  change (Z.min _ _) with (page_end hp (MaxEntries req)).
  assert (0 ≤ page_end hp (MaxEntries req)).
  { unfold page_end. destruct (_ || _) eqn:E; [lia |]. apply orb_false_iff in E as [_ E%Z.leb_gt]. lia. }
  rewrite seqZ_cons by lia. cbn [foldM]. by destruct (Z.ltb_spec (start - 1) 0); [| lia].
Qed.

(** C40: Listing in pages loses volumes, and may stop the driver.  A request
    without a bound answers every volume from its starting index, in the order
    of their ids; but a bound counts from the first volume of all, so that the
    page after the first is empty whatever volumes there are; and a starting
    index below one is out of range, which ends the driver. *)
Theorem ListVolumes_pages req hp start :
  ParseInt (starting_token req) 32 = inl start →
  (1 ≤ start → MaxEntries req ≤ 0 →
     ListVolumes req hp = Ok (inl (volume_entry hp <$> drop (Z.to_nat (start - 1)) (sorted_volumes hp)), hp)) ∧
  (0 < MaxEntries req < start → ListVolumes req hp = Ok (inl [], hp)) ∧
  (start < 1 → ListVolumes req hp = Crash OutOfRange).
Proof.
  intros Hp. split_and!.
  - intros Hs Hm. rewrite (ListVolumes_page _ _ start) by done. do 4 f_equal. apply take_ge.
    rewrite length_drop. unfold page_end. rewrite (proj2 (Z.leb_le _ 0)), orb_true_r by lia. lia.
  - intros Hm. rewrite (ListVolumes_page _ _ start) by (done || lia). unfold page_end.
    replace (Z.to_nat _) with 0%nat; [done |]. destruct (Z.ltb_spec (Z.of_nat (length (sorted_volumes hp))) (MaxEntries req));
      simpl; [lia |]. destruct (Z.leb_spec (MaxEntries req) 0); lia.
  - by apply ListVolumes_below.
Qed.

(** ** Every call *)

(** The calls that the theorems are about: ids are new, the paths they touch
    are not those of the state file, and listing starts at an index. *)
Definition admissible (r : request) (hp : HP) : Prop :=
  match r with
  | CallCreate (inl id) req => Forall (λ q, far q hp) (claim_path hp req id) ∧ id ∉ VolID <$> Volumes (state hp)
  | CallDelete id => ∀ v, GetVolumeByID (state hp) id = inl v → far (VolPath v) hp
  | CallPublish req => far (pu_TargetPath req) hp
  | CallUnpublish _ t => far t hp
  | CallList req => ∀ start, ParseInt (starting_token req) 32 = inl start → 1 ≤ start
  | _ => True
  end.
Lemma ignore_follows {A} (m : GoM HP (A + csi_error)) hp : wp m hp (follows hp) → wp (ignore m) hp (follows hp).
Proof.
  intros Hm. apply wp_bindE. eapply wp_mono; [exact Hm |]. intros [a | e] hp' [C L D Fa].
  - apply wp_ret. split; [done | done | intros _ _; by apply (D a) | done].
  - split; [done | done | done | intros ? _; by apply (Fa e)].
Qed.
Lemma quiet_validate req hp : quiet (ValidateVolumeCapabilities req) hp.
Proof.
  unfold ValidateVolumeCapabilities, volume_by_id. do 2 (case_match; [eauto with ioi |]).
  apply quiet_bindE; [eauto with ioi |]. intros. case_match; eauto with ioi.
Qed.
Lemma quiet_stats id p hp : quiet (NodeGetVolumeStats id p) hp.
Proof.
  unfold NodeGetVolumeStats, volume_by_id. do 2 (case_match; [eauto with ioi |]).
  apply quiet_bindE; eauto with ioi.
Qed.
Lemma quiet_list req hp : admissible (CallList req) hp → quiet (ListVolumes req) hp.
Proof.
  intros Ha. unfold quiet, wp. destruct (ParseInt (starting_token req) 32) as [start | e] eqn:E.
  - rewrite (ListVolumes_page _ _ start) by auto. eauto with ioi.
  - unfold ListVolumes. fold (starting_token req). rewrite E. eauto with ioi.
Qed.
Lemma serve_follows r hp :
  admissible r hp → volumes_ok (config hp) (Volumes (state hp)) → wp (serve r) hp (follows hp).
Proof.
  intros Ha [_ _ Hv]. destruct r as [id req | id | req | req | id | req | id t | req | id p | id p]; simpl in Ha |- *.
  - apply ignore_follows, CreateVolume_follows. by destruct id.
  - apply DeleteVolume_follows; [done |]. intros v (a & b & E & _)%GetVolumeByID_split.
    rewrite E in Hv. apply Forall_app in Hv as [_ Hv]. apply Forall_cons in Hv as [Hv _]. apply Hv.
  - apply ignore_follows, follows_quiet, quiet_validate.
  - apply ignore_follows, follows_quiet. by apply quiet_list.
  - apply ignore_follows, follows_quiet. unfold quiet, wp, ControllerGetVolume. eauto with ioi.
  - by apply NodePublish_follows.
  - by apply NodeUnpublish_follows.
  - apply NodeStage_follows.
  - apply NodeUnstage_follows.
  - apply ignore_follows, follows_quiet, quiet_stats.
Qed.

(** C16: The driver implements the life of a volume. In a state whose state
    file holds its volumes, every call returns, if a new volume gets a new id,
    the paths that it touches are not that of the state file, and a listing
    does not start at an index below one (which panics). In memory, whatever
    fails, the call creates a volume under a new name and a new id and within
    the configured size, deletes one (an unused one when the life cycle is
    checked), stages one that is not staged, publishes one that is staged,
    undoes that, or changes no volume. After an answer without an error the
    state file holds the volumes again, and, if the API server answers and
    accepts the updates (api_answers), the config map still lists the devices
    in use. An error leaves the config map as it was, and volumes and state
    file too unless the error is that the changed volumes could not be written
    to the state file. Of the libraries it is assumed that JSON reads back
    what it wrote, that a file or a config map that was written without an
    error is read back, and that no operation changes files and config maps
    that it does not name. *)
Theorem csi_refines_life r hp :
  admissible r hp → volumes_ok (config hp) (Volumes (state hp)) → stored hp →
  ∃ res hp', serve r hp = Ok (res, hp') ∧ config hp' = config hp ∧
    life (config hp) (Volumes (state hp)) (Volumes (state hp')) ∧
    match res with
    | inl _ => stored hp' ∧ (api_answers K → devices_ok hp → devices_ok hp')
    | inr _ => hp_kube hp' = hp_kube hp ∧ (write_failed hp' ∨ state hp' = state hp ∧ stored hp')
    end.
Proof.
  intros Ha Hv Hs. destruct (serve_follows r hp Ha Hv) as (res & hp' & E & [C L D Fa]).
  exists res, hp'. split_and!; [done.. |]. destruct res as [a | e].
  - destruct (D a eq_refl) as [D1 D2]. auto.
  - destruct (Fa e eq_refl) as [Hk [Hf | [? ?]]]; auto.
Qed.

(** ** Every reachable state *)

(** The driver starts without a state file; then calls, changes of the world
    that keep the state file and the list of devices in use, and restarts
    follow each other. *)
Inductive reach (cfg : Config) : HP → Prop :=
| reach_start f k f' hp e :
    os_ReadFile f (statefilePath cfg) = inr (NotExist e) → NewHostPathDriver cfg true f k = (f', inl hp) →
    in_use hp = [] → reach cfg hp
| reach_call hp r res hp' : reach cfg hp → admissible r hp → serve r hp = Ok (res, hp') → reach cfg hp'
| reach_world hp f k :
    reach cfg hp → os_ReadFile f (statefilePath cfg) = os_ReadFile (hp_fs hp) (statefilePath cfg) →
    in_use (mkHostPath cfg (state hp) f k) = in_use hp → reach cfg (mkHostPath cfg (state hp) f k)
| reach_restart hp f hp' :
    reach cfg hp → NewHostPathDriver cfg true (hp_fs hp) (hp_kube hp) = (f, inl hp') → reach cfg hp'.

(** A start reads the state file. *)
Lemma NewHostPathDriver_state cfg f k f' hp :
  NewHostPathDriver cfg true f k = (f', inl hp) →
  config hp = cfg ∧ hp_kube hp = k ∧ stored hp ∧ restore f (statefilePath cfg) = inl (state hp).
Proof.
  unfold NewHostPathDriver. do 3 (case_match; [done |]). simpl.
  pose proof (mkdir_dir f (StateDir cfg) "state.json") as Hd. fold (statefilePath cfg) in Hd.
  destruct (os_MkdirAll f (StateDir cfg)) as [f1 [e |]]; [done |]. simpl in Hd.
  destruct (restore f1 (statefilePath cfg)) as [r | e] eqn:E; [| done]. intros [= <- <-]. simpl.
  unfold stored. simpl. split_and!; try done. revert E. unfold restore. by rewrite Hd.
Qed.
Lemma reach_ok cfg hp :
  files_writable F → api_answers K → reach cfg hp → config hp = cfg ∧ volumes_ok cfg (Volumes (state hp)) ∧ stored hp ∧ devices_ok hp.
Proof.
  intros Hfiles Hapi. induction 1 as [f k f' hp e Hf Hn Hu | hp r res hp' _ (C & V & S & D) Ha E | hp f k _ (C & V & S & D) Hf Hu
                  | hp f hp' _ (C & V & S & D) Hn].
  - destruct (NewHostPathDriver_state _ _ _ _ _ Hn) as (C & Kb & S & R). unfold restore in R. rewrite Hf in R.
    simpl in R. injection R as R. unfold devices_ok, devices. rewrite <- R, Hu. simpl.
    split_and!; [done | by repeat constructor | done | by constructor | done].
  - subst cfg. destruct (serve_follows r hp Ha V) as (res' & hp'' & E' & Hfo). rewrite E in E'. injection E' as <- <-.
    destruct Hfo as [C' L' Hdone Hfail]. split; [done |]. split; [by eapply life_ok |]. destruct res as [[] | e].
    + destruct (Hdone () eq_refl). auto.
    + destruct (Hfail e eq_refl) as [E2 [(f & t & x & _ & Ew) | [E1 E3]]].
      * destruct (Hfiles f (statefilePath (config hp')) t). congruence.
      * split; [auto |]. unfold devices_ok, devices. by rewrite (in_use_same hp hp'), E1.
  - subst cfg. split_and!; [done | done | |].
    + revert S. unfold stored, restore. simpl. by rewrite Hf.
    + unfold devices_ok, devices in *. by rewrite Hu.
  - destruct (NewHostPathDriver_state _ _ _ _ _ Hn) as (C' & Kb & S' & R).
    unfold stored in S. rewrite C, R in S. injection S as S. split_and!; [done | by rewrite S | done |].
    unfold devices_ok, devices in *. by rewrite S, (in_use_same hp hp') by congruence.
Qed.

(** C28: As long as the state file can be written (files_writable), and the
    API server answers and accepts the updates of the driver (api_answers: an
    update that meets a conflict is not repeated, and its device stays out of
    the list), the following holds in every state that the driver reaches from
    a start without state file and with no device in use, through calls,
    whether they fail or not, in which a new volume gets a new id, the paths
    touched are not that of the state file and a listing does not start below
    one, through changes of the world that leave the state file and the list
    of devices in use alone, and through restarts: ids and names are unique,
    no volume is larger than allowed, a volume is staged at one path at most
    and published only while it is staged; the config map lists exactly the
    devices of the volumes, each once; and a restart finds exactly the volumes
    of before. Of the libraries it is assumed that JSON reads back what it
    wrote, that a file or a config map that was written without an error is
    read back, and that no operation changes files and config maps that it
    does not name. *)
Theorem csi_reachable_ok cfg hp :
  files_writable F → api_answers K → reach cfg hp →
  volumes_ok cfg (Volumes (state hp)) ∧ devices_ok hp ∧
  ∀ f hp', NewHostPathDriver cfg true (hp_fs hp) (hp_kube hp) = (f, inl hp') → state hp' = state hp.
Proof.
  intros Hf Ha Hr. destruct (reach_ok _ _ Hf Ha Hr) as (C & V & S & D). split_and!; [done | done |].
  intros f hp' Hn. destruct (NewHostPathDriver_state _ _ _ _ _ Hn) as (_ & _ & _ & R).
  unfold stored in S. rewrite C, R in S. by injection S.
Qed.
(** With enable-attach no volume is ever staged: ControllerPublishVolume, that
    would attach it, is not implemented. *)
Theorem attach_never_stages cfg hp req :
  files_writable F → api_answers K → reach cfg hp → EnableAttach cfg = true → ∃ e, NodeStageVolume req hp = Ok (inr e, hp).
Proof.
  intros Hf Hapi (C & [_ _ V] & _)%(reach_ok _ _ Hf Hapi) Ha. unfold NodeStageVolume, volume_by_id. do 2 (case_match; [by eexists |]).
  destruct (sg_Capability req) as [cap |]; [| by eexists]. unfold mbindE, askE, mbindM at 1. simpl.
  destruct (GetVolumeByID (state hp) _) as [v | e] eqn:E; [| by eexists].
  unfold mbindM, getM. simpl. apply GetVolumeByID_split in E as (a & b & E & _). rewrite E in V.
  apply Forall_app in V as [_ [V _]%Forall_cons]. rewrite C, Ha, (ok_attached _ _ V). by eexists.
Qed.
End Facts.
