(* ===== verification/CsiClaims.v ===== *)
(** * From the scheduler to the CSI driver, and runs of the driver

    A claim is bound to a disk by the scheduler (BlockIO.v), which writes the
    disk and its mount path into the node's config map; the driver creates
    the volume of the claim there.  Then instances of what the driver uses,
    kept in memory, and runs. *)

From S2P Require Export ServiceFake BlockIO CsiFacts.

Section Claims.
Context `{!CsiJson} {F : Type} `{!CsiHost F} `{Q : QuantityLib} {K : Type} `{!KubeClient K}.
Context `{!CsiJsonLaws} `{!CsiHostLaws F} `{!ConfigMapLaws K}.

(** ** What the scheduler writes *)

Lemma bind_volumes_claim (k : K) disks pvcMap pod res_node node c pvc dev d mapping c' :
  bind_volumes k disks pvcMap pod res_node node c = Ok (Next (mapping, c')) →
  Some pvc ∈ vol_PVC <$> pod_Volumes pod → ioi_claim k pvc (pod_Namespace pod) = Ok true →
  pvcMap !! pvc_key pvc (pod_Namespace pod) = Some dev → Reuse dev = false → disks !! DevID dev = Some d →
  mapping !! pvc_key pvc (pod_Namespace pod) = Some (DevID dev +:+ ":" +:+ MountPath d).
Proof.
  intros Hb Hin Hc Hp Hr Hd. set (key := pvc_key pvc (pod_Namespace pod)) in *.
  set (val := DevID dev +:+ ":" +:+ MountPath d).
  eapply (for_range_inv (λ l acc, Some pvc ∈ vol_PVC <$> l ∨ acc.1 !! key = Some val)) in Hb; [| | by left].
  { destruct Hb as [Hb%elem_of_nil | Hb]; done. }
  clear Hb Hin. intros vol l [m c0] acc'. rewrite fmap_cons, elem_of_cons. simpl.
  destruct (vol_PVC vol) as [name |]; [| intros Hi [= <-]; simpl; naive_solver].
  destruct (ioi_claim k name (pod_Namespace pod)) as [ok |] eqn:Eo; simpl; [| done].
  intros Hi. destruct ok; simpl; [| intros [= <-]; simpl; destruct Hi as [[[= <-] | Hi] | Hi]; [congruence | by left | by right]].
  destruct (decide (pvc_key name (pod_Namespace pod) = key)) as [-> | Hk].
  - rewrite Hp, Hr, Hd. intros [= <-]. right. apply lookup_insert_eq.
  - assert (Hi' : Some pvc ∈ vol_PVC <$> l ∨ m !! key = Some val).
    { destruct Hi as [[[= <-] | Hi] | Hi]; [done | by left | by right]. }
    destruct (pvcMap !! pvc_key name (pod_Namespace pod)) as [dev' |]; [| done]. destruct (Reuse dev'); [by intros [= <-] |].
    destruct (disks !! DevID dev') as [d' |]; [| done]. intros [= <-]. simpl. by rewrite lookup_insert_ne.
Qed.
Lemma volumeDeviceMapping_claim ps pvcMap pod node (s s' : HS K) info pvc dev d :
  volumeDeviceMapping ps pvcMap pod node s = Ok (None, s') → br_info ps = Some info →
  Some pvc ∈ vol_PVC <$> pod_Volumes pod → ioi_claim (hs_kube s) pvc (pod_Namespace pod) = Ok true →
  pvcMap !! pvc_key pvc (pod_Namespace pod) = Some dev → Reuse dev = false →
  DisksStatus info !! DevID dev = Some d →
  ∃ cm, cm_get (hs_kube s') IoiNamespace (DeviceIDConfigMap +:+ "-" +:+ node) = inl cm ∧
    cm_Data cm !! pvc_key pvc (pod_Namespace pod) = Some (DevID dev +:+ ":" +:+ MountPath d).
Proof.
  unfold volumeDeviceMapping. intros E Hi Hin Hc Hp Hr Hd. revert E.
  destruct (ctx_Lock (hs_ctx s)) as [c |]; simpl; [| done]. rewrite Hi. simpl.
  destruct (bind_volumes _ _ _ _ _ _ _) as [[[mapping c'] | [err c']] |] eqn:Eb; simpl; try done.
  pose proof (bind_volumes_claim _ _ _ _ _ _ _ _ _ _ _ _ Eb Hin Hc Hp Hr Hd) as Hm.
  destruct (Nat.eqb_spec (size mapping) 0) as [Hz | _].
  { apply map_size_empty_inv in Hz as ->. by rewrite lookup_empty in Hm. }
  unfold GetVolumeDeviceMap. destruct (String.eqb node ""); [done |].
  destruct (cm_get (hs_kube s) IoiNamespace _) as [cm | e] eqn:Ec.
  - destruct (get_named _ _ _ _ Ec) as [En1 En2].
    set (new := mkConfigMap (cm_Namespace cm) (cm_Name cm) (cm_Labels cm) (mapping ∪ cm_Data cm)).
    destruct (cm_update (hs_kube s) new) as [k [e |]] eqn:Ek; [done |]. intros [= <-]. exists new. simpl.
    rewrite (update_maps _ _ _ Ek), decide_True by (simpl; by rewrite En1, En2).
    split; [done |]. by apply lookup_union_Some_l.
  - destruct (IsNotFound e); [| done].
    set (new := mkConfigMap IoiNamespace (DeviceIDConfigMap +:+ "-" +:+ node) {["app" := DeviceIDConfigMap]} mapping).
    destruct (cm_create (hs_kube s) new) as [k [e' |]] eqn:Ek; [done |]. intros [= <-]. exists new.
    simpl. by rewrite (create_maps _ _ _ Ek), decide_True.
Qed.

(** ** What the driver creates *)

(** A request for a directory, of a claim, within the bound, under a new name. *)
Record good_request (hp : hostPath F K) (req : CreateVolumeRequest) (pvc ns : string) : Prop := {
  gr_caps : ∃ caps, cr_Capabilities req = Some caps ∧ existsb is_block caps = false;
  gr_name : cr_Name req ≠ EmptyString ∧ ∃ e, GetVolumeByName (state hp) (cr_Name req) = inr e;
  gr_pvc : Parameters req !! PVCName = Some pvc ∧ pvc ≠ EmptyString;
  gr_ns : Parameters req !! PVCNameSpace = Some ns ∧ ns ≠ EmptyString;
  gr_size : RequiredBytes req ≤ MaxVolumeSize (config hp);
  gr_persistent : Ephemeral (config hp) = false
}.
Lemma CreateVolume_creates hp req pvc ns id cm dev path :
  good_request hp req pvc ns → cm_get (hp_kube hp) IoiNamespace (device_map_name hp) = inl cm →
  claim_device cm pvc ns = (dev, path) → dev ≠ EmptyString → path ≠ EmptyString →
  id ∉ VolID <$> Volumes (state hp) → (os_MkdirAll (hp_fs hp) (path_join [path; id])).2 = None →
  wp (CreateVolume (inl id) req) hp (λ res hp',
    match res with
    | inl resp => VolumeId resp = id ∧ VolumeContext resp !! AnnoDeviceID = Some dev ∧
        VolumeContext resp !! AnnoVolPath = Some (path_join [path; id]) ∧ stored hp'
    | inr _ => write_failed hp'
    end ∧
    ∃ v, Volumes (state hp') = Volumes (state hp) ++ [v] ∧ VolID v = id ∧ VolName v = cr_Name req ∧
      sv_DeviceID v = dev ∧ VolPath v = path_join [path; id] ∧ VolAccessType v = MountAccess).
Proof.
  intros [(caps & Ecaps & Hblock) (Hname & e & Hfree) (Epvc & Hpvc) (Ens & Hns) Hsize Heph] Ecm Ecl Hd Hp Hid Hmk.
  apply String.eqb_neq in Hname, Hpvc, Hns, Hd, Hp. unfold CreateVolume.
  apply wp_bindE. unfold validateControllerServiceRequest. apply wp_bind, wp_get.
  rewrite decide_False by done. unfold getControllerServiceCapabilities. rewrite Heph, decide_True by (by left).
  apply wp_ret. rewrite Ecaps, Hname, Hblock, Epvc, Ens. cbn [andb]. change (default EmptyString (Some pvc)) with pvc. change (default EmptyString (Some ns)) with ns.
  rewrite Hpvc, Hns. cbn [orb]. apply wp_bindE, wp_ask. rewrite Ecm, Ecl, Hd, Hp.
  apply wp_bind, wp_get. apply wp_bind, wp_get. rewrite Hfree. apply wp_bindE.
  unfold createVolume. apply wp_bind, wp_get. destruct (Z.ltb_spec (MaxVolumeSize (config hp)) (RequiredBytes req)); [lia |].
  apply wp_bindE. unfold wp at 1, onF. destruct (os_MkdirAll _ _) as [f err]. simpl in Hmk. subst err.
  eexists _, _. split; [done |]. apply wp_bindE. apply UpdateVolume_new; [done |].
  intros [[] | e1] h1 [C Kb St Hst].
  - apply wp_ret. apply wp_bind.
    destruct (UpdateDeviceInUse_spec dev true h1) as (err & k & Ek & _). exists err, (set_hp_kube k h1). split; [done |].
    apply wp_ret. split; [split_and!; [done | | apply lookup_insert_eq | done] |].
    + cbn [VolumeContext]. rewrite lookup_insert_ne by done. apply lookup_insert_eq.
    + cbn [state set_hp_kube]. rewrite St. eexists. split; [done |]. by split_and!.
  - split; [done |]. rewrite St. eexists. split; [done |]. by split_and!.
Qed.

(** The scheduler binds a claim of a pod to a disk that it has not been bound
    to before: the disk and its mount path are plain texts. *)
Definition plain (x : string) : Prop := x ≠ EmptyString ∧ str_all (not_char ":"%char) x = true.
Record bound_claim (ps : BlockResource) (pvcMap : gmap string PVCInfo) (pod : Pod) (k : K) (pvc : string)
    (dev : PVCInfo) (d : DiskInfo) : Prop := {
  bc_volume : Some pvc ∈ vol_PVC <$> pod_Volumes pod;
  bc_claim : ioi_claim k pvc (pod_Namespace pod) = Ok true;
  bc_device : pvcMap !! pvc_key pvc (pod_Namespace pod) = Some dev;
  bc_new : Reuse dev = false;
  bc_disk : ∃ info, br_info ps = Some info ∧ DisksStatus info !! DevID dev = Some d;
  bc_plain : plain (DevID dev) ∧ plain (MountPath d)
}.

(** C17: A volume is created on the disk that the scheduler chose. When the
    scheduler has bound a pod's claim of the driver's storage class to a disk
    of a node, not by reusing an earlier binding, and reported no error, when
    disk and mount path are texts without a colon, and nothing has changed the
    API server since: the CSI driver of the node, asked for a volume of the
    claim with mount access, under a name that it has no volume of, with a new
    id, within its bound on sizes, and not ephemeral, when the directory can
    be made, creates it as a directory of the mount path of that disk, with
    that disk as its device, in its table, and answers with that disk and path
    in the volume's context and the table in the state file; it answers with
    an error only if the table with the volume could not be written to the
    state file. Of the libraries it is assumed that JSON reads back what it
    wrote, and that a file or a config map that was written without an error
    is read back. *)
Theorem volume_on_bound_disk ps pvcMap pod node (s s' : HS K) pvc dev d (hp : hostPath F K) req id :
  bound_claim ps pvcMap pod (hs_kube s) pvc dev d →
  volumeDeviceMapping ps pvcMap pod node s = Ok (None, s') →
  hp_kube hp = hs_kube s' → NodeID (config hp) = node → good_request hp req pvc (pod_Namespace pod) →
  id ∉ VolID <$> Volumes (state hp) → (os_MkdirAll (hp_fs hp) (path_join [MountPath d; id])).2 = None →
  ∃ res hp', CreateVolume (inl id) req hp = Ok (res, hp') ∧
    match res with
    | inl resp => VolumeId resp = id ∧ VolumeContext resp !! AnnoDeviceID = Some (DevID dev) ∧
        VolumeContext resp !! AnnoVolPath = Some (path_join [MountPath d; id]) ∧ stored hp'
    | inr _ => write_failed hp'
    end ∧
    ∃ v, Volumes (state hp') = Volumes (state hp) ++ [v] ∧ VolID v = id ∧ VolName v = cr_Name req ∧
      sv_DeviceID v = DevID dev ∧ VolPath v = path_join [MountPath d; id] ∧ VolAccessType v = MountAccess.
Proof.
  intros [Hin Hc Hp Hr (info & Hi & Hd) [[Hne1 Hpl1] [Hne2 Hpl2]]] Em Hk Hn Hreq Hid Hmk.
  destruct (volumeDeviceMapping_claim _ _ _ _ _ _ _ _ _ _ Em Hi Hin Hc Hp Hr Hd) as (cm & Ecm & Ekey).
  apply (CreateVolume_creates hp req pvc (pod_Namespace pod) id cm (DevID dev) (MountPath d)); try done.
  - unfold device_map_name. by rewrite Hk, Hn.
  - unfold claim_device. rewrite Ekey. change (":" +:+ MountPath d) with (String ":"%char (MountPath d)).
    rewrite str_split_app by by apply str_split_plain. by rewrite (str_split_plain _ _ Hpl2).
Qed.
End Claims.

(** ** Instances *)

(** Files without directories, and mount points. *)
Record Host := mkHost { h_files : gmap string string; h_mounts : gset string }.
Definition h_delete (f : Host) (q : string) : Host * option oserr := (mkHost (delete q (h_files f)) (h_mounts f), None).
Definition h_create (f : Host) (q : string) : Host :=
  mkHost (<[q := default EmptyString (h_files f !! q)]> (h_files f)) (h_mounts f).
Definition host_fake : CsiHost Host :=
  {| os_ReadFile := λ f p, match h_files f !! p with Some t => inl t | None => inr (NotExist "no such file") end;
     os_WriteFile := λ f p t, (mkHost (<[p := t]> (h_files f)) (h_mounts f), None);
     os_MkdirAll := λ f _, (f, None);
     os_Mkdir := λ f _, (f, None);
     os_OpenCreate := λ f q, (h_create f q, None);
     os_Remove := h_delete;
     os_RemoveAll := h_delete;
     os_Stat := λ _ _, None;
     os_Lstat := λ _ _, None;
     fallocate := λ f _ q, (h_create f q, None);
     AttachFileDevice := λ f _, (f, inl "/dev/loop0");
     DetachFileDevice := λ f _, (f, None);
     GetLoopDevice := λ _ _, inl "/dev/loop0";
     IsNotMountPoint := λ f q, inl (negb (bool_decide (q ∈ h_mounts f)));
     Mount := λ f _ q _, (mkHost (h_files f) ({[q]} ∪ h_mounts f), None);
     Unmount := λ f q, (mkHost (h_files f) (h_mounts f ∖ {[q]}), None);
     fs_Info := λ _ _, inl (50, 100, 50, 10, 5, 5);
     LookPath := λ _ _, inr "not found";
     CombinedOutput := λ _ _ _, inr "not found";
     net_Listen := λ f proto _, (f, if String.eqb proto "unix" || String.eqb proto "tcp" then None
                                    else Some "unknown network") |}.
Definition host_fake_laws : CsiHostLaws Host (CsiHost0 := host_fake).
Proof.
  refine {| may_change := String.eqb |}; try done.
  - intros f p t f' [= <-]. simpl. by rewrite lookup_insert_eq.
  - intros f q p Hq%String.eqb_neq. simpl. by rewrite lookup_insert_ne.
  - intros f q p Hq%String.eqb_neq. simpl. by rewrite lookup_delete_ne.
  - intros f q p Hq%String.eqb_neq. simpl. by rewrite lookup_delete_ne.
  - intros f n q p Hq%String.eqb_neq. simpl. by rewrite lookup_insert_ne.
Defined.

(** Texts of trees in the place of JSON. *)
Definition volume_tree (v : StateVolume) : tree :=
  GenNode 0 [txt (VolName v); txt (VolID v); num (VolSize v); txt (VolPath v); bit (bool_decide (VolAccessType v = BlockAccess));
    txt (ParentVolID v); txt (ParentSnapID v); txt (sv_NodeID v); txt (Kind v); bit (ReadOnlyAttach v); bit (Attached v);
    seq_tree txt (Staged v); seq_tree txt (Published v); txt (sv_DeviceID v)].
Definition tree_volume (t : tree) : StateVolume :=
  match t with
  | GenNode _ [n; i; s; p; b; pv; ps; nd; k; ro; at_; st; pu; d] =>
      mkStateVolume (un_txt n) (un_txt i) (un_num s) (un_txt p) (if un_bit b then BlockAccess else MountAccess)
        (un_txt pv) (un_txt ps) (un_txt nd) (un_txt k) (un_bit ro) (un_bit at_) (un_seq un_txt st) (un_seq un_txt pu) (un_txt d)
  | _ => mkStateVolume "" "" 0 "" MountAccess "" "" "" "" false false [] [] ""
  end.
Definition snapshot_tree (s : Snapshot) : tree :=
  GenNode 0 [txt (sn_Name s); txt (sn_Id s); txt (sn_VolID s); txt (sn_Path s);
    seq_tree (λ t : Z * Z, seq_tree num [t.1; t.2]) (option_list (sn_CreationTime s)); num (sn_SizeBytes s); bit (sn_ReadyToUse s)].
Definition tree_snapshot (t : tree) : Snapshot :=
  match t with
  | GenNode _ [n; i; v; p; c; s; r] =>
      mkSnapshot (un_txt n) (un_txt i) (un_txt v) (un_txt p)
        (match un_seq (un_seq un_num) c with [[a; b]] => Some (a, b) | _ => None end) (un_num s) (un_bit r)
  | _ => mkSnapshot "" "" "" "" None 0 false
  end.
Lemma tree_volume_tree v : tree_volume (volume_tree v) = v.
Proof.
  destruct v as [? ? ? ? [] ? ? ? ? ? ? ? ? ?]; cbn -[un_seq seq_tree un_bit bit]; by rewrite !un_bit_bit, !un_seq_tree.
Qed.
Lemma tree_snapshot_tree s : tree_snapshot (snapshot_tree s) = s.
Proof. destruct s as [? ? ? ? [[a b] |] ? []]; reflexivity. Qed.
Definition csi_json_fake : CsiJson :=
  {| marshal_resources := λ r,
       inl (to_text (GenNode 0 [seq_tree volume_tree (Volumes r); seq_tree snapshot_tree (Snapshots r)]));
     unmarshal_resources := λ t, match of_text t : tree + error with
                                 | inl (GenNode _ [vs; ss]) =>
                                     inl (mkResources (un_seq tree_volume vs) (un_seq tree_snapshot ss))
                                 | inl _ => inr "not a state"
                                 | inr e => inr e
                                 end;
     marshal_strings := λ l, inl (to_text l);
     unmarshal_strings := λ t, if String.eqb t "[]" then inl [] else of_text t;
     unmarshal_findmnt := λ _, inr "not modelled" |}.
Lemma csi_json_fake_laws : CsiJsonLaws (H := csi_json_fake).
Proof.
  split; [| | done].
  - intros [vs ss]. eexists. split; [done |]. cbn [unmarshal_resources csi_json_fake Volumes Snapshots].
    rewrite of_to_text. by rewrite !un_seq_tree by (apply tree_volume_tree || apply tree_snapshot_tree).
  - intros l. eexists. split; [done |]. cbn [unmarshal_strings csi_json_fake]. by rewrite of_to_text.
Qed.

(** An API server that keeps claims, classes and config maps. *)
Record Maps := mkMaps {
  ck_pvcs : gmap string (PVC (H := quantity_fake)); ck_classes : gmap string string;
  ck_maps : gmap (string * string) (gmap string string * gmap string string)
}.
Definition put_map (k : Maps) (cm : ConfigMap) : Maps * option kerr :=
  (mkMaps (ck_pvcs k) (ck_classes k)
     (<[(cm_Namespace cm, cm_Name cm) := (cm_Labels cm, cm_Data cm)]> (ck_maps k)), None).
Definition maps_fake : KubeClient (H := quantity_fake) Maps :=
  Build_KubeClient quantity_fake Maps
    (λ k ns name, f_find (ck_pvcs k !! f_key ns name) "claim")
    (λ k, inl [])
    (λ k name, f_find (ck_classes k !! name) "storage class")
    (λ k ns name, f_find ((λ p, mkConfigMap ns name p.1 p.2) <$> ck_maps k !! (ns, name)) "config map")
    put_map put_map
    (λ k, inl []) (λ k ns, inl []) (λ k ns name, inr (NotFound "pod"))
    (λ k ns name _ new, (k, None)) (λ k, inl []) (λ k name, inr (NotFound "node status"))
    (λ k name spec, (k, None)) (λ k name _ new, (k, None)) (λ k name st, (k, None)).
Lemma host_fake_writable : files_writable Host (CsiHost0 := host_fake).
Proof. intros f p t. by eexists. Qed.
Lemma maps_fake_laws : ConfigMapLaws (H := quantity_fake) Maps (KubeClient0 := maps_fake).
Proof.
  assert (Hput : ∀ k cm k', put_map k cm = (k', None) → ∀ ns n,
    cm_get (KubeClient := maps_fake) k' ns n =
    if decide ((ns, n) = (cm_Namespace cm, cm_Name cm)) then inl cm
    else cm_get (KubeClient := maps_fake) k ns n).
  { intros k cm k' [= <-] ns n. simpl. case_decide as E.
    - rewrite E, lookup_insert_eq. injection E as -> ->. by destruct cm.
    - by rewrite lookup_insert_ne. }
  split; [| exact Hput | exact Hput].
  intros k ns n cm. simpl. destruct (ck_maps k !! _); [| done]. by intros [= <-].
Qed.
Lemma maps_fake_answers : api_answers (H := quantity_fake) Maps (KubeClient0 := maps_fake).
Proof.
  split.
  - intros k ns n e. simpl. destruct (ck_maps k !! _); [done |]. by intros [= <-].
  - intros k cm cm0 _. by eexists.
  - intros k cm e _. by eexists.
Qed.
Module CsiInstances.
#[export] Existing Instance host_fake.
#[export] Existing Instance host_fake_laws.
#[export] Existing Instance csi_json_fake.
#[export] Existing Instance csi_json_fake_laws.
#[export] Existing Instance sort_fake.
End CsiInstances.

(** ** Runs *)

Module CsiExample.
Import CsiInstances.
#[local] Existing Instance quantity_fake.
#[local] Existing Instance maps_fake.
#[local] Existing Instance maps_fake_laws.
Ltac vm_eq := vm_compute; reflexivity.

Definition cfg1 : Config :=
  mkConfig "localstorage.csi.k8s.io" "unix:///csi/csi.sock" "" "n1" "v1" "/opt/ioi" 0 (2 ^ 40) 0
    false false false true "" "" false.
Definition map_key : string * string := (IoiNamespace, "volume-device-map-n1").
Definition maps1 : Maps :=
  mkMaps ∅ ∅ {[map_key := (∅, {["c1.default" := "d1:/mnt/sda"; "c2.default" := "d1:/mnt/sda"]})]}.
Definition start1 : hostPath Host Maps := mkHostPath cfg1 (mkResources [] []) (mkHost ∅ ∅) maps1.
Definition create1 (name claim : string) : CreateVolumeRequest :=
  mkCreate name (Some [mkCap (CapMount "" []) None]) 1000 {[PVCName := claim; PVCNameSpace := "default"]} None.
Definition publish1 (access : cap_access) (target : string) : NodePublishRequest :=
  mkPublish "v1" target "/staging" (Some (mkCap access None)) false {[AnnoVolPath := "/mnt/sda/v1"]}.
Definition stage1 : NodeStageRequest := mkStage "v1" "/staging" (Some (mkCap (CapMount "" []) None)).
Definition then_call (hp : hostPath Host Maps) (r : request) : hostPath Host Maps :=
  match serve r hp with Ok (_, hp') => hp' | Crash _ => hp end.

Definition created : hostPath Host Maps := then_call start1 (CallCreate (inl "v1") (create1 "data" "c1")).
Definition created2 : hostPath Host Maps := then_call created (CallCreate (inl "v2") (create1 "logs" "c2")).
Definition staged : hostPath Host Maps := then_call created2 (CallStage stage1).
Definition published : hostPath Host Maps := then_call staged (CallPublish (publish1 (CapMount "" []) "/pods/p1")).

Lemma reach_then cfg hp r : reach cfg hp → admissible r hp → reach cfg (then_call hp r).
Proof.
  intros Hr Ha. unfold then_call. destruct (serve r hp) as [[res hp'] |] eqn:E; [| done]. by eapply reach_call.
Qed.
Lemma reach_start1 : reach cfg1 start1.
Proof. by eapply (reach_start cfg1 (mkHost ∅ ∅) maps1). Qed.
Lemma create1_admissible : admissible (CallCreate (inl "v1") (create1 "data" "c1")) start1.
Proof. split; [repeat constructor; vm_eq | by apply not_elem_of_nil]. Qed.
Lemma reach_published : reach cfg1 published.
Proof.
  repeat (apply reach_then); [apply reach_start1 | apply create1_admissible | | done | vm_eq].
  split; [repeat constructor; vm_eq |]. change (VolID <$> Volumes (state created)) with ["v1"]. set_solver.
Qed.
Lemma csi_reachable_ok_witness :
  Published <$> Volumes (state published) = [["/pods/p1"]; []] ∧ in_use published = ["d1"] ∧
  volumes_ok cfg1 (Volumes (state published)) ∧ devices_ok published ∧
  ∀ f hp', NewHostPathDriver cfg1 true (hp_fs published) (hp_kube published) = (f, inl hp') →
    state hp' = state published.
Proof. split; [vm_eq |]. split; [vm_eq |]. apply (csi_reachable_ok cfg1 published host_fake_writable maps_fake_answers reach_published). Defined.

Lemma csi_refines_life_witness :
  ∃ res hp', serve (CallCreate (inl "v1") (create1 "data" "c1")) start1 = Ok (res, hp') ∧ config hp' = cfg1 ∧
    life cfg1 [] (Volumes (state hp')) ∧
    match res with
    | inl _ => stored hp' ∧ (api_answers Maps → devices_ok start1 → devices_ok hp')
    | inr _ => hp_kube hp' = maps1 ∧ (write_failed hp' ∨ state hp' = state start1 ∧ stored hp')
    end.
Proof.
  apply (csi_refines_life (CallCreate (inl "v1") (create1 "data" "c1")) start1);
    [apply create1_admissible | repeat constructor | vm_eq].
Defined.

(** Two volumes, listed one by one: the second is never seen. *)
Lemma ListVolumes_pages_witness :
  ListVolumes (mkList "" 1) created2 = Ok (inl [mkEntry "v1" 1000 [""] true "The capacity of volume is greater than actual storage"], created2) ∧
  ListVolumes (mkList "2" 1) created2 = Ok (inl [], created2) ∧ ListVolumes (mkList "0" 1) created2 = Crash OutOfRange.
Proof.
  split; [vm_eq |]. split.
  - apply (ListVolumes_pages (mkList "2" 1) created2 2); [vm_eq | split; vm_eq].
  - apply (ListVolumes_pages (mkList "0" 1) created2 0); vm_eq.
Defined.

(** The scheduler binds a claim, and the driver creates its volume. *)
Definition claim1 : PVC := mkPVC _ "c3" "default" ∅ (Some "ioi") None ClaimPending.
Definition maps2 : Maps := mkMaps {["default/c3" := claim1]} {["ioi" := StorageProvisioner]} (ck_maps maps1).
Definition disk1 : DiskInfo := mkDiskInfo "sdb" [] [] fzero fzero None None 1000000 0 "/mnt/sdb".
Definition res1 : BlockResource := mkBlockResource "n1" (Some (mkBlockNodeInfo {["d2" := disk1]} "d2")).
Definition pod1 : Pod := mkPod "p1" "default" "uid-1" ∅ "n1" [mkVolume "data" (Some "c3") false].
Definition bound1 : gmap string PVCInfo := {["c3.default" := mkPVCInfo "d2" 1000 false]}.
Definition sched1 : HS Maps := mkHS (mkCtx ∅ [] ∅ [] ∅ false) ∅ maps2.
Definition sched2 : HS Maps :=
  match volumeDeviceMapping res1 bound1 pod1 "n1" sched1 with Ok (_, s) => s | Crash _ => sched1 end.
Definition driver2 : hostPath Host Maps := mkHostPath cfg1 (state created2) (hp_fs created2) (hs_kube sched2).
Lemma volume_on_bound_disk_witness :
  ∃ res hp', CreateVolume (inl "v3") (create1 "db" "c3") driver2 = Ok (res, hp') ∧
    match res with
    | inl resp => VolumeId resp = "v3" ∧ VolumeContext resp !! AnnoDeviceID = Some "d2" ∧
        VolumeContext resp !! AnnoVolPath = Some (path_join ["/mnt/sdb"; "v3"]) ∧ stored hp'
    | inr _ => write_failed hp'
    end ∧
    ∃ v, Volumes (state hp') = Volumes (state driver2) ++ [v] ∧ VolID v = "v3" ∧ VolName v = "db" ∧
      sv_DeviceID v = "d2" ∧ VolPath v = path_join ["/mnt/sdb"; "v3"] ∧ VolAccessType v = MountAccess.
Proof.
  apply (volume_on_bound_disk res1 bound1 pod1 "n1" sched1 sched2 "c3" (mkPVCInfo "d2" 1000 false) disk1
           driver2 (create1 "db" "c3") "v3"); [| vm_eq | reflexivity | reflexivity | | | reflexivity].
  - split; [by left | vm_eq | vm_eq | vm_eq | by eexists | split; split; [done | vm_eq | done | vm_eq]].
  - split; [by eexists | split; [done | by eexists] | split; [vm_eq | done] | split; [vm_eq | done] | | vm_eq].
    vm_compute. discriminate.
  - change (VolID <$> Volumes (state driver2)) with ["v1"; "v2"]. set_solver.
Defined.

(** *** What goes wrong *)

Definition outcome_of (r : request) (hp : hostPath Host Maps) : option (() + csi_error) :=
  match serve r hp with Ok (res, _) => Some res | Crash _ => None end.
Definition status_of (r : request) (hp : hostPath Host Maps) : option code :=
  match outcome_of r hp with Some (inr (Status c _)) => Some c | _ => None end.

(** A request that is repeated, because its answer was lost, is refused. *)
Example create_retry_refused :
  status_of (CallCreate (inl "v9") (create1 "data" "c1")) created = Some AlreadyExists.
Proof. vm_eq. Qed.
(** A published volume is deleted under its pod. *)
Example delete_published :
  outcome_of (CallDelete "v1") published = Some (inl ()) ∧
  VolID <$> Volumes (state (then_call published (CallDelete "v1"))) = ["v2"].
Proof. split; vm_eq. Qed.
(** Without an access type nothing is mounted, the target is recorded twice,
    and one unpublishing is not enough to unstage the volume. *)
Definition no_access : request := CallPublish (publish1 CapNone "/pods/p1").
Definition unpublished : hostPath Host Maps :=
  then_call (then_call (then_call staged no_access) no_access) (CallUnpublish "v1" "/pods/p1").
Example publish_nothing :
  outcome_of no_access staged = Some (inl ()) ∧ h_mounts (hp_fs (then_call staged no_access)) = ∅ ∧
  status_of (CallUnstage "v1" "/staging") unpublished = Some Internal.
Proof. split_and!; vm_eq. Qed.
(** A target that is mounted already, as after a crash between the mount and
    the state file, is answered with success and not recorded: unpublishing
    does nothing, and the volume is unstaged and deleted while it is mounted. *)
Definition mounted_before : hostPath Host Maps :=
  mkHostPath cfg1 (state staged) (mkHost (h_files (hp_fs staged)) {["/pods/p1"]}) (hp_kube staged).
Definition mount_left : hostPath Host Maps :=
  then_call (then_call (then_call (then_call mounted_before (CallPublish (publish1 (CapMount "" []) "/pods/p1")))
    (CallUnpublish "v1" "/pods/p1")) (CallUnstage "v1" "/staging")) (CallDelete "v1").
Example mount_survives_delete :
  outcome_of (CallPublish (publish1 (CapMount "" []) "/pods/p1")) mounted_before = Some (inl ()) ∧
  VolID <$> Volumes (state mount_left) = ["v2"] ∧ h_mounts (hp_fs mount_left) = {["/pods/p1"]}.
Proof. split_and!; vm_eq. Qed.
(** When the scheduler forgets a node, it empties the config map, and with it
    the list of devices in use. *)
Definition forgotten : hostPath Host Maps := set_hp_kube (RemoveNodeFromVolDiskCm (hp_kube published) "n1").1 published.
Example forgotten_devices : in_use published = ["d1"] ∧ in_use forgotten = [] ∧ devices forgotten = ["d1"; "d1"].
Proof. split_and!; vm_eq. Qed.
(** The scheme of an endpoint is compared without regard to case, and listened
    on as it is written. *)
Example endpoint_case :
  ValidateAndParse "TCP://0.0.0.0:9000" = inl ("TCP", "0.0.0.0:9000") ∧
  (Listen "tcp://0.0.0.0:9000" (mkHost ∅ ∅)).2 = inl ("tcp", "0.0.0.0:9000") ∧
  (Listen "TCP://0.0.0.0:9000" (mkHost ∅ ∅)).2 = inr "unknown network" ∧
  (Listen "unix:///csi/csi.sock" (mkHost ∅ ∅)).2 = inl ("unix", "//csi/csi.sock").
Proof. split_and!; vm_eq. Qed.
End CsiExample.

(** A write of the config map that conflicts with the scheduler's is not
    repeated: the volume is there, and its device is not in use. *)
Module CsiConflict.
Import CsiInstances FakeInstances.
Definition server1 : Server :=
  set_faults [Some (Conflict "conflict")] (f_set_maps {["ioi-system/volume-device-map-n1" :=
    mkConfigMap IoiNamespace "volume-device-map-n1" ∅ {["c1.default" := "d1:/mnt/sda"]}]} server_empty).
Definition start1 : hostPath Host Server := mkHostPath CsiExample.cfg1 (mkResources [] []) (mkHost ∅ ∅) server1.
Example conflict_not_repeated :
  match CreateVolume (inl "v1") (CsiExample.create1 "data" "c1") start1 with
  | Ok (inl _, hp) => devices hp = ["d1"] ∧ in_use hp = []
  | _ => False
  end.
Proof. vm_compute. split; reflexivity. Qed.
End CsiConflict.
