(* ===== verification/ProfilerFacts.v ===== *)
(** * The disk profiler: theorems on Profiler.v

    What a run measures, what the file holds after it and what the disk
    engine reads; how the file is lost when its text becomes shorter; runs at
    the same time. *)

From stdpp Require Export relations.
From Stdlib Require Import SpecFloat.
From S2P Require Export Profiler ServiceFake.

(** ** Assumptions *)

(** A written profile is read back (a negative zero, which is left out, as
    zero); it ends with a brace, and behind it a text that ends with a brace
    is an error. *)
Definition plain_bandwidth (b : Bandwidth) : Prop := bw_Read b ≠ S754_zero true ∧ bw_Write b ≠ S754_zero true.
Definition plain_profile (p : Profile) : Prop :=
  map_Forall (λ _ d, Forall plain_bandwidth (HybridWorkload d :: SingleWorkload d)) (Disks p).
Class ProfileJsonLaws `{!ProfileJson} : Prop := {
  profile_json : ∀ p t, plain_profile p → marshal_profile p = inl t → unmarshal_profile t = inl p;
  profile_brace : ∀ p t, marshal_profile p = inl t → ∃ s, t = s +:+ "}";
  profile_trailing : ∀ p t s, marshal_profile p = inl t → ∃ e, unmarshal_profile (t +:+ s +:+ "}") = inr e
}.
(** What stays of [old] when [new] is written over its start. *)
Definition overwrite (old new : string) : string :=
  new +:+ String.substring (str_len new) (str_len old - str_len new) old.
(** A file that can be read can be opened and written. *)
Class ProfileHostLaws (F : Type) `{!ProfileHost F} : Prop := {
  open_ok : ∀ f p t, ph_ReadFile f p = inl t → ph_OpenRDWR f p = None;
  write_ok : ∀ f p old new, ph_ReadFile f p = inl old →
    ∃ f', ph_Write f p new = (f', None) ∧ ph_ReadFile f' p = inl (overwrite old new)
}.

(** ** Texts *)

Lemma substring_nil n s : String.substring n 0 s = EmptyString.
Proof. revert n. by induction s as [| a s IH]; intros []; simpl. Qed.
Lemma overwrite_longer old new : (str_len old ≤ str_len new)%nat → overwrite old new = new.
Proof.
  intros Hl. unfold overwrite. replace (str_len old - str_len new)%nat with 0%nat by lia.
  by rewrite substring_nil, str_app_nil_r.
Qed.
Lemma substring_brace n s :
  (n ≤ str_len s)%nat →
  String.substring n (str_len (s +:+ "}") - n) (s +:+ "}") = String.substring n (str_len s - n) s +:+ "}".
Proof.
  revert n. induction s as [| a s IH]; intros n Hn.
  - by replace n with 0%nat by (simpl in Hn; lia).
  - destruct n as [| n].
    + specialize (IH 0%nat ltac:(lia)). rewrite !Nat.sub_0_r in IH |- *. exact (f_equal (String a) IH).
    + simpl. apply IH. simpl in Hn. lia.
Qed.
(** A text that is shorter than what was there before leaves a brace behind. *)
Lemma overwrite_shorter s new :
  (str_len new < str_len (s +:+ "}"))%nat → ∃ r, overwrite (s +:+ "}") new = new +:+ r +:+ "}".
Proof.
  intros Hl. rewrite str_len_app in Hl. simpl in Hl. unfold overwrite. rewrite substring_brace by lia. by eexists.
Qed.

(** ** The end of a run *)

Section Facts.
Context `{Q : QuantityLib} `{!GoRange} {F : Type} `{!ProfileHost F} `{!ProfileJson} `{!FloatParse} `{!Fixed2}.
Context `{!ProfileJsonLaws} `{!ProfileHostLaws F}.

Definition with_entry (did : string) (item : DiskProfiler) (p : Profile) : Profile :=
  mkProfiles (BaselineBs p) (BwUnit p) (<[did := item]> (Disks p)).
Lemma update_entry_spec disk change (s : Prof F) old p did item item' t :
  ph_ReadFile (pf_fs s) Filename = inl old → unmarshal_profile old = inl p →
  GetDiskId (blk_Model disk) (blk_Serial disk) = Ok did → Disks p !! did = Some item → change item = Ok item' →
  marshal_profile (with_entry did item' p) = inl t →
  ∃ f, update_entry disk change s = Ok ((), mkProf f (CurrFIOJobs s - 1)) ∧
    ph_ReadFile f Filename = inl (overwrite old t).
Proof.
  intros Hr Hu Hd Hi Hc Hm. destruct (write_ok (pf_fs s) Filename old t Hr) as (f & Hw & Hr').
  exists f. split; [| done]. unfold update_entry, mbindM, getM, liftM. simpl.
  rewrite (open_ok _ _ _ Hr). unfold Load. rewrite Hr, Hu, Hd. simpl. rewrite Hi. unfold mbindM, liftM. simpl. rewrite Hc.
  simpl. fold (with_entry did item' p). rewrite Hm. unfold on_files. by rewrite Hw.
Qed.
(** What is read when the text has not become shorter, and when it has. *)
Lemma Load_overwritten f old p t :
  ph_ReadFile f Filename = inl (overwrite old t) → plain_profile p → marshal_profile p = inl t →
  (∃ p0, marshal_profile p0 = inl old) →
  Load Filename f = if (str_len old <=? str_len t)%nat then p else profile_zero.
Proof.
  intros Hr Hp Hm [p0 Hold]. unfold Load. rewrite Hr. destruct (Nat.leb_spec (str_len old) (str_len t)) as [Hl | Hl].
  - by rewrite overwrite_longer, (profile_json _ _ Hp Hm).
  - destruct (profile_brace _ _ Hold) as [s ->]. destruct (overwrite_shorter s t Hl) as [r ->].
    by destruct (profile_trailing _ _ r Hm) as [e ->].
Qed.

Lemma put_rates_spec l rates :
  length rates = length l →
  put_rates l rates = Ok (zip_with (λ b rw, mkBandwidth (bw_Ratio b) (bw_Blocksize b) rw.1 rw.2) l rates).
Proof.
  revert rates. induction l as [| b l IH]; intros [| [r w] rates] Hl; simplify_eq/=; [done |]. by rewrite IH.
Qed.
Lemma six {A} (l : list A) : length l = 6%nat → ∃ a b c d e f, l = [a; b; c; d; e; f].
Proof. intros Hl. do 6 (destruct l as [| ? l]; [done |]). destruct l; [| done]. naive_solver. Qed.
(** The entry of a disk after a run. *)
Definition measured_entry (cnt : Rates) (p : DiskProfiler) : DiskProfiler :=
  mkDiskProfiler (dp_Path p) (dp_Id p) (dp_DeviceMM p) 2 (dp_Type p) (dp_Mount p) (dp_Size p)
    (zip_with (λ b rw, mkBandwidth (bw_Ratio b) (bw_Blocksize b) rw.1 rw.2) (SingleWorkload p) (single cnt))
    (mkBandwidth (bw_Ratio (HybridWorkload p)) (bw_Blocksize (HybridWorkload p)) (hybrid cnt).1 (hybrid cnt).2).

(** C18: What is measured reaches the disk engine, or everything is lost.  When
    the runs on a disk have ended, the disk's entry in the profile file has
    the state "done" and the disk engine reads the measured rates: those of
    the largest block size as its bandwidths, their sum in the mixed run as
    the total; unless the new text of the file is shorter than the old one,
    whose end then stays behind it: the file is no longer a profile, and the
    engine finds no disk in it at all. *)
Theorem profile_recorded disk cnt (s : Prof F) old p p0 did item t :
  ph_ReadFile (pf_fs s) Filename = inl old → unmarshal_profile old = inl p → marshal_profile p0 = inl old →
  GetDiskId (blk_Model disk) (blk_Serial disk) = Ok did → Disks p !! did = Some item →
  length (SingleWorkload item) = 6%nat → length (single cnt) = 6%nat →
  plain_profile (with_entry did (measured_entry cnt item) p) →
  marshal_profile (with_entry did (measured_entry cnt item) p) = inl t →
  ∃ s', update_entry disk (measured cnt) s = Ok ((), s') ∧
    ((str_len old ≤ str_len t)%nat →
       GetDiskStatus Filename (pf_fs s') = inl (<[did := 2]> (dp_Status <$> Disks p)) ∧
       ∃ info, ParseDiskProfileForController did Filename (pf_fs s') = Ok info ∧
         Some (TotalRBPS info, TotalWBPS info) = last (single cnt) ∧
         TotalBPS info = fadd (hybrid cnt).1 (hybrid cnt).2 ∧ MountPoint info = dp_Mount item) ∧
    ((str_len t < str_len old)%nat →
       GetDiskStatus Filename (pf_fs s') = inl ∅ ∧
       ∀ id, ParseDiskProfileForController id Filename (pf_fs s') = Ok disk_zero).
Proof.
  intros Hr Hu Hold Hd Hi Hl6 Hc6 Hp Hm.
  assert (Hch : measured cnt item = Ok (measured_entry cnt item)).
  { unfold measured. rewrite put_rates_spec by congruence. done. }
  destruct (update_entry_spec disk _ s old p did item _ t Hr Hu Hd Hi Hch Hm) as (f & E & Hf).
  eexists. split; [exact E |]. simpl.
  pose proof (Load_overwritten f old _ t Hf Hp Hm (ex_intro _ p0 Hold)) as HL.
  unfold GetDiskStatus, ParseDiskProfileForController. rewrite Hf, HL. split.
  - intros Hl. rewrite (proj2 (Nat.leb_le _ _) Hl). simpl. rewrite fmap_insert. split; [done |].
    rewrite lookup_insert_eq. unfold measured_entry. simpl.
    destruct (six _ Hl6) as (b1 & b2 & b3 & b4 & b5 & b6 & ->).
    destruct (six _ Hc6) as (c1 & c2 & c3 & c4 & c5 & [r w] & ->). simpl.
    destruct (add_ratio _ _ _) as [rs ws]. eexists. by split_and!.
  - intros Hl. rewrite (proj2 (Nat.leb_gt _ _) Hl). simpl. rewrite fmap_empty. split; [done |].
    intros id. by rewrite lookup_empty.
Qed.

(** ** What a run measures *)

Definition good_rate (x : f64) : Prop := ∃ z, 1 ≤ z ∧ x = of_Z z.
Lemma mib_rate_pos b : 1 ≤ mib_rate b.
Proof. unfold mib_rate, getMax. destruct (Z.ltb_spec 1 (Z.quot b (1024 * 1024))); lia. Qed.
Lemma ParsingFIOResults_pos fio hyb (s s' : Prof F) l :
  ParsingFIOResults fio hyb s = Ok (inl l, s') → Forall (λ z, 1 ≤ z) l.
Proof.
  unfold ParsingFIOResults, mbindE, mbindM, askE. simpl. destruct (ph_ReadFile _ _) as [data | e]; simpl; [| done].
  destruct (unmarshal_fio data) as [jobs | e]; [| done]. destruct (match jobs with j :: _ => j | [] => _ end) as [r w].
  pose proof mib_rate_pos. destruct hyb; intros [= <- <-]; repeat constructor; auto.
Qed.
(** The rates of the sizes before the one at hand are there. *)
Definition side (rwi : string) (rw : f64 * f64) : f64 := if String.eqb rwi "randread" then rw.1 else rw.2.
Definition sizes_done (rwi : string) (n : nat) (rates : list (f64 * f64)) : Prop :=
  length rates = 6%nat ∧ ∀ i rw, (i < n)%nat → rates !! i = Some rw → good_rate (side rwi rw).
Lemma single_run_done disk rwi rates n bs (s s' : Prof F) rates' :
  single_run disk rwi rates (n, bs) s = Ok (Next rates', s') →
  ∃ bw, good_rate bw ∧ rates' = set_rate rwi n bw rates.
Proof.
  unfold single_run, mbindM at 1, liftM. destruct (getFioTestFile _ _ _) as [file |]; simpl; [| done].
  unfold mbindM at 1. destruct (TestSingleWorkload _ _) as [[[[] | e] s1] |]; simpl; try done.
  unfold mbindM at 1. destruct (ParsingFIOResults _ _ _) as [[[l | e] s2] |] eqn:E; simpl; try done.
  apply ParsingFIOResults_pos in E. destruct l as [| bw [| ? ?]]; try done. inversion_clear E as [| ? ? Hb _].
  unfold mbindM, on_files. destruct (ph_Remove _ _) as [f e]. simpl. intros [= <- <-]. exists (of_Z bw). split; [by exists bw | done].
Qed.
Lemma set_rate_done rwi n bw rates :
  good_rate bw → sizes_done rwi n rates → sizes_done rwi (S n) (set_rate rwi n bw rates).
Proof.
  intros Hb [Hl Hd]. split; [by unfold set_rate; rewrite length_alter |]. intros i rw Hi.
  unfold set_rate. destruct (decide (i = n)) as [-> | Hn].
  - rewrite list_lookup_alter_eq. destruct (rates !! n) as [rw0 |]; simpl; [| done]. intros [= <-].
    unfold side. by destruct (String.eqb rwi "randread").
  - rewrite list_lookup_alter_ne by done. intros Hr. apply (Hd i); [lia | done].
Qed.
(** The runs of the other direction do not touch those rates. *)
Lemma set_rate_other rwi rwj n bw rates m :
  String.eqb rwi "randread" ≠ String.eqb rwj "randread" →
  sizes_done rwi m rates → sizes_done rwi m (set_rate rwj n bw rates).
Proof.
  intros Hne [Hl Hd]. split; [by unfold set_rate; rewrite length_alter |]. intros i rw Hi.
  unfold set_rate. destruct (decide (i = n)) as [-> | Hn].
  - rewrite list_lookup_alter_eq. destruct (rates !! n) as [rw0 |] eqn:E; simpl; [| done]. intros [= <-].
    specialize (Hd _ _ Hi E). unfold side in *. by destruct (String.eqb rwi _), (String.eqb rwj _).
  - rewrite list_lookup_alter_ne by done. by apply Hd.
Qed.
Lemma workloads_done disk rwi (P : list (f64 * f64) → Prop) rates (s s' : Prof F) rates' :
  (∀ n bw rates, P rates → P (set_rate rwi n bw rates)) → P rates → length rates = 6%nat →
  for_rangeM (imap pair workload_sizes) rates (single_run disk rwi) s = Ok (Next rates', s') →
  sizes_done rwi 6 rates' ∧ P rates'.
Proof.
  intros HP Hp Hl E.
  eapply (for_rangeM_inv (λ l rates, ∃ n, l = drop n (imap pair workload_sizes) ∧ (n ≤ 6)%nat ∧ sizes_done rwi n rates ∧ P rates)) in E.
  - destruct E as (n & En & Hn & Hd & Hp'). apply (f_equal length) in En. rewrite length_drop in En. simpl in En.
    by replace n with 6%nat in Hd by lia.
  - intros [m bs] l acc acc' s1 s2 (n & En & Hn & Hd & Hp') Er.
    assert (Hlt : (n < 6)%nat).
    { apply (f_equal length) in En. rewrite length_drop in En. simpl in En. lia. }
    destruct (lookup_lt_is_Some_2 (imap pair workload_sizes) n ltac:(simpl; lia)) as [x Hx].
    rewrite (drop_S _ _ _ Hx) in En. injection En as <- ->.
    assert (m = n) as ->. { rewrite list_lookup_imap in Hx. by destruct (workload_sizes !! n); simplify_eq/=. }
    apply single_run_done in Er as (bw & Hb & ->). exists (S n). split_and!; [done | lia | by apply set_rate_done | by apply HP].
  - exists 0%nat. split_and!; [done | lia | | done]. split; [done | lia].
Qed.
(** A run that does not fail has a rate of at least 1 MiB/s for reads and for
    writes of every size, and for both in the mixed run: no ratio of rates
    is a division by zero. *)
Theorem rates_positive disk (s s' : Prof F) cnt :
  run_fio disk s = Ok (Some cnt, s') →
  length (single cnt) = 6%nat ∧ Forall (λ rw, good_rate rw.1 ∧ good_rate rw.2) (hybrid cnt :: single cnt).
Proof.
  unfold run_fio. unfold mbindM at 1. destruct (for_rangeM _ _ _ s) as [[[rates | u] s1] |] eqn:E; simpl; try done.
  assert (Hrates : sizes_done "randread" 6 rates ∧ sizes_done "randwrite" 6 rates).
  { revert E. cbn [for_rangeM]. unfold mbindM at 1.
    destruct (for_rangeM _ _ (single_run disk "randread") s) as [[[r1 | u] s2] |] eqn:E1; cbn [obind]; try done.
    unfold mbindM at 1.
    destruct (for_rangeM (imap pair workload_sizes) r1 (single_run disk "randwrite") s2) as [[[r2 | u] s3] |] eqn:E2; cbn [obind]; try done.
    intros [= <- <-]. eapply (workloads_done _ _ (λ _, True)) in E1 as [Hd1 _]; [| done.. ].
    eapply (workloads_done _ _ (sizes_done "randread" 6)) in E2 as [Hd2 Hd3]; [done | | done | apply Hd1].
    intros. by apply set_rate_other. }
  destruct Hrates as [[Hl Hr] [_ Hw]].
  unfold hybrid_run, mbindM at 1, liftM. destruct (getFioTestFile _ _ _) as [file |]; simpl; [| done].
  unfold mbindM at 1. destruct (TestHybridSingleWorkload _ _) as [[[[] | e] s2] |]; simpl; try done.
  unfold mbindM at 1. destruct (ParsingFIOResults _ _ _) as [[[l | e] s3] |] eqn:Ep; simpl; try done.
  apply ParsingFIOResults_pos in Ep. destruct l as [| r [| w [| ? ?]]]; try done.
  inversion_clear Ep as [| ? ? Hr1 Ep']. inversion_clear Ep' as [| ? ? Hw1 _].
  unfold mbindM, on_files. destruct (ph_Remove _ _) as [f e]. simpl. intros [= <- <-]. simpl.
  split; [done |]. constructor; [split; [by exists r | by exists w] |]. apply Forall_lookup_2. intros i rw Hi.
  pose proof (lookup_lt_Some _ _ _ Hi). split; [apply (Hr i rw) | apply (Hw i rw)]; (lia || done).
Qed.
End Facts.

(** ** Runs at the same time *)

(** Whatever the number of disks, all of them may run at once, although one
    run at a time is allowed: a run counts itself only when it begins. *)
Theorem all_disks_at_once (disks : list BlockDevice) :
  rtc consumer_step (mkFioPool disks [] 0) (mkFioPool [] (Running <$> disks) (Z.of_nat (length disks))).
Proof.
  assert (Hc : ∀ q ts, rtc consumer_step (mkFioPool q ts 0) (mkFioPool [] (ts ++ (Launched <$> q)) 0)).
  { induction q as [| d q IH]; intros ts; [by rewrite app_nil_r |].
    eapply rtc_l; [by apply consume |]. rewrite fmap_cons. specialize (IH (ts ++ [Launched d])).
    by rewrite <- app_assoc in IH. }
  assert (Hb : ∀ q ts n, rtc consumer_step (mkFioPool [] (ts ++ (Launched <$> q)) n)
                           (mkFioPool [] (ts ++ (Running <$> q)) (n + Z.of_nat (length q)))).
  { induction q as [| d q IH]; intros ts n; [by rewrite Z.add_0_r |]. rewrite !fmap_cons.
    eapply rtc_l; [by apply begin_run |]. specialize (IH (ts ++ [Running d]) (n + 1)). rewrite <- !app_assoc in IH.
    by replace (n + Z.of_nat (length (d :: q))) with (n + 1 + Z.of_nat (length q)) by (simpl; lia). }
  etrans; [apply (Hc disks []) |]. apply (Hb disks [] 0).
Qed.

(** ** Instances and runs *)

Definition f_tree (x : f64) : tree :=
  match x with
  | S754_zero s => GenNode 0 [bit s]
  | S754_infinity s => GenNode 1 [bit s]
  | S754_nan => GenNode 2 []
  | S754_finite s m e => GenNode 3 [bit s; num (Zpos m); num e]
  end.
Definition un_f_tree (t : tree) : f64 :=
  match t with
  | GenNode 0 [s] => S754_zero (un_bit s)
  | GenNode 1 [s] => S754_infinity (un_bit s)
  | GenNode 3 [s; m; e] => S754_finite (un_bit s) (Z.to_pos (un_num m)) (un_num e)
  | _ => S754_nan
  end.
Lemma un_f_tree_tree x : un_f_tree (f_tree x) = x.
Proof. by destruct x as [[] | [] | | []]. Qed.
Definition bw_tree (b : Bandwidth) : tree :=
  GenNode 0 [num (bw_Ratio b); txt (bw_Blocksize b); f_tree (bw_Read b); f_tree (bw_Write b)].
Definition un_bw_tree (t : tree) : Bandwidth :=
  match t with
  | GenNode _ [n; b; r; w] => mkBandwidth (un_num n) (un_txt b) (un_f_tree r) (un_f_tree w)
  | _ => zero_bandwidth ""
  end.
Lemma un_bw_tree_tree b : un_bw_tree (bw_tree b) = b.
Proof. destruct b. cbn -[un_f_tree f_tree]. by rewrite !un_f_tree_tree. Qed.
Definition dp_tree (kp : string * DiskProfiler) : tree :=
  let p := kp.2 in
  GenNode 0 [txt kp.1; txt (dp_Path p); txt (dp_Id p); txt (dp_DeviceMM p); num (dp_Status p); txt (dp_Type p);
    txt (dp_Mount p); num (dp_Size p); seq_tree bw_tree (SingleWorkload p); bw_tree (HybridWorkload p)].
Definition un_dp_tree (t : tree) : string * DiskProfiler :=
  match t with
  | GenNode _ [k; pa; i; mm; st; ty; mo; sz; sw; hw] =>
      (un_txt k, mkDiskProfiler (un_txt pa) (un_txt i) (un_txt mm) (un_num st) (un_txt ty) (un_txt mo) (un_num sz)
                   (un_seq un_bw_tree sw) (un_bw_tree hw))
  | _ => (EmptyString, mkDiskProfiler "" "" "" 0 "" "" 0 [] (zero_bandwidth ""))
  end.
Lemma un_dp_tree_tree kp : un_dp_tree (dp_tree kp) = kp.
Proof.
  destruct kp as [k []]. cbn -[un_seq seq_tree un_bw_tree bw_tree].
  by rewrite un_bw_tree_tree, (un_seq_tree _ _ _ un_bw_tree_tree).
Qed.
Definition profile_tree (p : Profile) : tree :=
  GenNode 0 [txt (BaselineBs p); txt (BwUnit p); seq_tree dp_tree (map_to_list (Disks p))].

(** The text of a tree and a brace; one more brace is an error. *)
Fixpoint cut_brace (s : string) : option string :=
  match s with
  | EmptyString => None
  | String a r => if Ascii.eqb a "}" then if String.eqb r "" then Some EmptyString else None
                  else option_map (String a) (cut_brace r)
  end.
Lemma cut_brace_one s : str_all (not_char "}"%char) s = true → cut_brace (s +:+ "}") = Some s.
Proof.
  induction s as [| a s IH]; [done |]. simpl. unfold not_char at 1. destruct (Ascii.eqb a "}"); [done |].
  intros Hs. by rewrite IH.
Qed.
Lemma cut_brace_more s r : str_all (not_char "}"%char) s = true → cut_brace ((s +:+ "}") +:+ r +:+ "}") = None.
Proof.
  induction s as [| a s IH]; [by destruct r |]. simpl. unfold not_char at 1. destruct (Ascii.eqb a "}"); [done |].
  intros Hs. by rewrite IH.
Qed.
Lemma bits_plain p : str_all (not_char "}"%char) (bits p) = true.
Proof. by induction p. Qed.
Definition profile_json_fake : ProfileJson :=
  {| marshal_profile := λ p, inl (to_text (profile_tree p) +:+ "}");
     unmarshal_profile := λ s,
       match cut_brace s with
       | None => inr "invalid character"
       | Some s => match of_text s : tree + error with
                   | inl (GenNode _ [b; u; d]) =>
                       inl (mkProfiles (un_txt b) (un_txt u) (list_to_map (un_seq un_dp_tree d)))
                   | _ => inr "no profile"
                   end
       end;
     unmarshal_fio := λ _, inl [(300 * 1048576, 200 * 1048576)] |}.
Lemma profile_json_fake_laws : ProfileJsonLaws (H := profile_json_fake).
Proof.
  split.
  - intros p t _ [= <-]. cbn [unmarshal_profile profile_json_fake].
    rewrite cut_brace_one by (exact (bits_plain _)). rewrite of_to_text. unfold profile_tree.
    rewrite (un_seq_tree _ _ _ un_dp_tree_tree), list_to_map_to_list. by destruct p.
  - intros p t [= <-]. by eexists.
  - intros p t s [= <-]. cbn [unmarshal_profile profile_json_fake].
    rewrite cut_brace_more by (exact (bits_plain _)). by eexists.
Qed.
(** Files in memory; the output of fio is always there. *)
Definition FileMap : Type := gmap string string.
Definition read_map (f : FileMap) (p : string) : string + error :=
  match f !! p with
  | Some t => inl t
  | None => if String.prefix "/opt/diskProfiler/SingleWorkload/" p || String.prefix "/opt/diskProfiler/HybridSingleWorkload/" p
            then inl "fio" else inr "no such file"
  end.
Definition profile_host_fake : ProfileHost FileMap :=
  {| ph_ReadFile := read_map;
     ph_Stat := λ f p, match f !! p with Some _ => Present | None => Absent end;
     ph_MkdirAll := λ f _, (f, None);
     ph_OpenRDWR := λ f p, match read_map f p with inl _ => None | inr e => Some e end;
     ph_Write := λ f p t, (<[p := overwrite (match read_map f p with inl o => o | inr _ => "" end) t]> f, None);
     ph_Create := λ f p, (<[p := EmptyString]> f, None);
     ph_Remove := λ f p, (delete p f, None);
     ph_RunBash := λ f _, (f, inl EmptyString) |}.
Lemma profile_host_fake_laws : ProfileHostLaws FileMap (ProfileHost0 := profile_host_fake).
Proof.
  split.
  - intros f p t E. simpl in *. by rewrite E.
  - intros f p old new E. cbn [ph_ReadFile ph_Write profile_host_fake] in E |- *. rewrite E. eexists. split; [done |].
    unfold read_map, FileMap. by rewrite lookup_insert_eq.
Qed.
Definition fixed2_fake : Fixed2 := {| FormatFixed2 := λ x, pretty (to_int64 x) |}.
Definition float_parse_ints : FloatParse :=
  {| ParseFloat64 := λ s, match ParseInt s 64 with inl z => inl (of_Z z) | inr e => inr e end |}.

Module ProfilerExample.
Import FakeInstances.
#[local] Existing Instance profile_json_fake.
#[local] Existing Instance profile_json_fake_laws.
#[local] Existing Instance profile_host_fake.
#[local] Existing Instance profile_host_fake_laws.
#[local] Existing Instance fixed2_fake.
#[local] Existing Instance float_parse_ints.
Ltac vm_eq := vm_compute; reflexivity.

Definition disk (serial : string) (avail : Z) : BlockDevice :=
  mkBlockDevice ("/dev/" +:+ serial) "disk" "" "8:0" avail "/mnt/a" "INTEL" serial false [].
Definition two_disks : gmap string BlockDevice := {["INT_s1" := disk "s1" 1000000; "INT_s2" := disk "s2" 1000000]}.
Definition store0 : Prof FileMap := mkProf ∅ 0.
Definition state_of {A} (o : outcome (A * Prof FileMap)) : Prof FileMap :=
  match o with Ok (_, s) => s | Crash _ => store0 end.
Definition known : Prof FileMap := state_of (GetNewDisks two_disks Filename store0).
Definition done1 : Prof FileMap := state_of (launchFIO (disk "s1" 1000000) known).
Definition statuses (s : Prof FileMap) : list (string * Z) + error :=
  match GetDiskStatus Filename (pf_fs s) with inl m => inl (map_to_list m) | inr e => inr e end.

Example first_disk_done : statuses known = inl [("INT_s1", 1); ("INT_s2", 1)] ∧ statuses done1 = inl [("INT_s1", 2); ("INT_s2", 1)].
Proof. split; vm_eq. Qed.
(** The agent restarts while the second disk is not done; it has less free
    space, which takes fewer digits: its entry is written anew, the text is
    shorter, and the profile of the first disk is lost with the file. *)
Definition restarted : Prof FileMap :=
  state_of (GetNewDisks {["INT_s1" := disk "s1" 1000000; "INT_s2" := disk "s2" 9]} Filename done1).
Example profile_lost_on_restart : statuses restarted = inl [].
Proof. vm_eq. Qed.

Definition profile1 : Profile := Load Filename (pf_fs known).
Definition entry1 : DiskProfiler := new_profile "INT_s1" (disk "s1" 1000000).
Definition rates1 : Rates := mkRates (replicate 6 (of_Z 300, of_Z 200)) (of_Z 150, of_Z 100).
Definition text_of (p : Profile) : string := match marshal_profile p with inl t => t | inr _ => "" end.
Lemma profile_recorded_witness :
  ∃ s', update_entry (disk "s1" 1000000) (measured rates1) known = Ok ((), s') ∧
    GetDiskStatus Filename (pf_fs s') = inl (<["INT_s1" := 2]> (dp_Status <$> Disks profile1)) ∧
    ∃ info, ParseDiskProfileForController "INT_s1" Filename (pf_fs s') = Ok info ∧
      Some (TotalRBPS info, TotalWBPS info) = Some (of_Z 300, of_Z 200) ∧ MountPoint info = "/mnt/a".
Proof.
  destruct (profile_recorded (disk "s1" 1000000) rates1 known (text_of profile1) profile1 profile1 "INT_s1" entry1
              (text_of (with_entry "INT_s1" (measured_entry rates1 entry1) profile1)))
    as (s' & E & Hl & _);
    [vm_eq | vm_eq | vm_eq | vm_eq | vm_eq | vm_eq | vm_eq | | reflexivity |].
  - apply map_Forall_to_list. vm_compute. repeat constructor; discriminate.
  - destruct Hl as (E1 & info & E2 & E3 & _ & E4); [apply Nat.leb_le; vm_eq |]. exists s'. split_and!; [done | done |].
    exists info. by split_and!.
Defined.
End ProfilerExample.
